(* ===== verification/_CoqProject ===== *)
-Q . S2P
Prelude.v
Values.v
Errors.v
Bytes.v
Crc.v
Snapshot.v
LockMode.v
LockTable.v
Deadlock.v
LockManager.v
LockManagerFacts.v
LockTheorems.v
Order.v
CodePage.v
Weights.v
Collation.v
CollationFacts.v
Compare.v
KeyOrder.v
CollationNames.v
Like.v
Calendar.v
SortKey.v
SortKeyFacts.v
CompareTheorems.v
Table.v
Index.v
MemoryStorage.v
IndexFacts.v
StorageInv.v
StorageFacts.v
StorageOps.v
StorageVacuum.v
StorageCatalog.v
StorageSearch.v
StorageUnique.v
StorageSystem.v
StorageViews.v
StorageUndo.v
StorageTheorems.v
Actions.v
TxnManager.v
Isolation.v
TxnSystem.v
TxnFacts.v
TxnTheorems.v
IsolationTheorems.v
Encode.v
EncodeFacts.v
Page.v
HeapPage.v
Wal.v
WalFacts.v
WalState.v
GroupCommit.v
HeapPlace.v
PageWrite.v
PageWriteFacts.v
WalPayload.v
Control.v
DataFile.v
BufferPool.v
Disk.v
BufferFacts.v
PoolTheorems.v
DiskFacts.v
Alloc.v
AllocFacts.v
PageSetFacts.v
AllocTheorems.v
BTreePage.v
BTree.v
Heap.v
OverflowFacts.v
HeapFacts.v
HeapWrites.v
HeapGrowth.v
HeapTheorems.v
JournalTheorems.v
DiskTheorems.v
