(* ===== verification/Prelude.v ===== *)
(** * VaubanDB: the transaction and storage core

    VaubanDB is a database server that speaks the protocol and the dialect of SQL Server.
    A request goes through [vauban-tds] (packets), [vauban-session], [vauban-parser],
    [vauban-binder], [vauban-planner] and [vauban-executor]; the executor reads and writes
    rows through [vauban-txn] (transactions, locks, isolation) and [vauban-storage]
    (multi-version tables and indexes), with the values of [vauban-types] and the errors of
    [vauban-errors].  This library models the part below the executor: what makes concurrent
    transactions on shared rows correct.

    ** The parts and how they interact

    - [vauban-storage]: a table is a map from row identifiers to chains of versions, each
      stamped by the transaction that created it ([xmin]) and the one that superseded it
      ([xmax]).  A reader brings a [Snapshot]; a version is seen when its creation is settled
      for the snapshot and its end is not.  A write is logged by its transaction; rollback
      and savepoints undo the log from its end; [vacuum] drops what no snapshot can see.
      Indexes hold one entry per version, sorted, and serve ranges and uniqueness tests.
    - [vauban-txn]: the manager hands out identifiers, lists the open transactions, builds
      snapshots from that list, runs the deferred drops and the compensations of a
      transaction around the calls to the storage, and answers write conflicts; the lock
      manager keeps, per resource, the holders and a queue of waiting threads, and breaks
      deadlocks; the lock policy decides which locks a read, a write, a table hint or a
      schema change takes, and when it gives them back.
    - [vauban-storage/src/disk]: the same interface over files: [data] holds sealed pages of
      8192 bytes, [wal] the journal of the records that rebuild them, [vauban.ctl] the control
      block.  A change is journalled before it reaches a page; a commit waits until its record
      is durable, one thread syncing for all those that wait; a reopen scans the journal, cuts
      a torn end and redoes the page writes the pages are behind of.  The buffer pool stands
      between the callers and [data]: it writes a page back when no transaction in progress
      changed it and its record is durable.  On the pool stand the allocator, which keeps the free
      pages in a list threaded through them, and the heaps: chains of slotted pages whose long
      records go to chains of overflow pages.
    - [vauban-types]: the comparison of values that sorts and searches keys, the collations
      it compares texts by, the byte keys whose order is the order of the values, the patterns
      of LIKE and the calendar.

    ** Which file models what

    Shared: [Prelude.v] (results, stateful operations, sorted maps, lists, machine
    integers).  [Values.v]: [vauban-types/src/value.rs], [sql_type.rs].  [Errors.v]:
    [vauban-errors/src/internal.rs], [sql_error.rs], the constructors used here, and the
    identifiers of [vauban-storage/src/ids.rs].  Error texts are lists of [Piece]s, the
    arguments of the [format!] of the source.

    Locks ([vauban-txn/src/lock.rs], [deadlock.rs]):
    - [LockMode.v]: modes, strength order, compatibility matrix, resources;
    - [LockTable.v]: the table behind the mutex: [enqueue], [grant_pass], [give_up],
      [unlock], [release_all]; with their invariant;
    - [Deadlock.v]: wait-for graph, walk, victim;
    - [LockManager.v]: a call of [lock] as the turns of a thread between which it holds the
      mutex ([request], [before_park], [wake]), and the step relation [step] over all
      interleavings of threads; proofs in [LockManagerFacts.v];
    - [LockTheorems.v]: the properties.

    Values ([vauban-types/src]):
    - [Order.v]: total orders given by a comparison, lexicographic and mapped orders;
    - [CodePage.v]: [code_page.rs];
    - [Weights.v]: the weight tables of [collation.rs], as data; [Collation.v]: the rest of
      [collation.rs] (names, flags, levels, the comparison of texts with its three paths,
      [find]); proofs in [CollationFacts.v] (the paths agree, the order is total) and
      [CollationNames.v] (the names);
    - [Compare.v]: [compare] of [compare.rs], and that it is a total order on each family of
      values;
    - [SortKey.v]: [sort_key] and [hash_key] of [compare.rs]; [SortKeyFacts.v]: the key of
      each family orders as the family;
    - [Like.v]: [like.rs], tokens of a pattern and the matching pass, against the declarative
      relation [matches]; [Calendar.v]: [calendar.rs], against the successor of a day;
    - [CompareTheorems.v]: the properties of comparison.

    Storage:
    - [Snapshot.v]: [snapshot.rs], the visibility rule;
    - [KeyOrder.v]: [memory/key_order.rs], [shape.rs], [row.rs], [key_range.rs]: key
      extraction, key comparison, binary search, sorting;
    - [Table.v]: [memory/table.rs] and [txn_log.rs]; [Index.v]: [memory/index.rs];
      [MemoryStorage.v]: [memory/mod.rs], every operation of the trait; proofs in
      [IndexFacts.v], [StorageInv.v] (the invariant), [StorageFacts.v], [StorageOps.v],
      [StorageVacuum.v], [StorageCatalog.v], [StorageSearch.v], [StorageUnique.v],
      [StorageViews.v], [StorageUndo.v];
    - [StorageSystem.v]: the trait of [storage.rs] as the class [Storage], its in-memory
      instance, and the histories of a storage ([perform], [storage_reachable]);
    - [StorageTheorems.v]: a concrete database for the instances, and the properties.

    Disk formats and journal ([vauban-storage/src/disk]):
    - [Bytes.v]: little-endian integers, slices, UTF-8 and the bits of floats of the standard
      library of Rust;
    - [Crc.v]: [crc.rs], the bitwise reference, and what pages and the control file share, bytes
      sealed by a checksum;
    - [Encode.v]: [encode.rs], the row codec; proofs in [EncodeFacts.v];
    - [Page.v]: [page.rs], and the header as a record;
    - [Wal.v]: the records and the journal of [wal.rs]; [WalFacts.v]: framing and scanning;
      [WalState.v]: what a journal holds, over its operations and a crash;
    - [GroupCommit.v]: [WalHandle] of [wal.rs] as a step relation over the interleavings of its
      callers, and its invariant;
    - [PageWrite.v]: the page writes of [wal.rs]; proofs in [PageWriteFacts.v] (deltas,
      install and redo, and their encoding);
    - [WalPayload.v]: [wal_payload.rs], with the version prefix of [version.rs];
    - [Control.v]: [control.rs], the block and the files around it;
    - [DataFile.v]: [file.rs]; [BufferPool.v]: [buffer.rs], with a change that waits as the
      turns of its thread; proofs in [BufferFacts.v];
    - [PoolTheorems.v], [JournalTheorems.v], [DiskTheorems.v]: the properties.

    Disk structures ([vauban-storage/src/disk]):
    - [Disk.v]: the instance (control block, files, pool, journal) as the state of a monad whose
      failures are the errors of the source and a wait that does not end, with the [PageSet] of
      [wal.rs]; [DiskFacts.v] and [PageSetFacts.v]: weakest preconditions of its operations;
    - [Alloc.v]: [alloc.rs]; proofs in [AllocFacts.v]; [AllocTheorems.v]: the properties;
    - [HeapPage.v]: the slotted pages of [heap.rs] and what they hold, through a compaction;
      [HeapPlace.v]: placing a record; [Heap.v]: the operations of [Heap]; proofs in
      [OverflowFacts.v], [HeapFacts.v] (reads), [HeapWrites.v], [HeapGrowth.v];
      [HeapTheorems.v]: the properties.

    Transactions ([vauban-txn/src]):
    - [Actions.v]: [actions.rs]; [TxnManager.v]: [manager.rs], [snapshot_modes.rs],
      [handle.rs], [ids.rs], [info.rs], over any [Storage];
    - [TxnSystem.v]: histories of sessions calling the manager, the storage and the lock
      manager, where [commit] is three turns ([commit_enter], [commit_store],
      [commit_leave]) because the source releases the list of open transactions while the
      storage works; proofs in [TxnFacts.v]; [TxnTheorems.v]: the properties;
    - [Isolation.v]: [isolation.rs], [table_lock.rs], [schema_lock.rs];
      [IsolationTheorems.v]: the properties.

    ** What the theorems show

    - Locks exclude in every interleaving, queues are fair and never stall, a request that is
      answered is held, a parked thread is not lost, giving back is complete and independent
      of the iteration order of the hash map; the wait-for graph is exact, the walk ends and
      finds a cycle exactly when there is one, each cycle has one victim and losing it breaks
      the cycle.
    - The storage keeps its invariant under every sequence of allowed requests and never
      answers corruption; two transactions in progress never write one row; rollback and
      savepoints give the tables back; a snapshot is blind to the transactions it excludes;
      vacuum changes no view; a transaction reads its own writes; [seek] and [scan] answer
      exactly and in order; unique indexes are unique; values and decimals are ordered.
    - The snapshots of the manager hide what is unfinished; a SNAPSHOT transaction reads the
      same rows at every statement whatever the others do; commit, rollback to a savepoint
      and the write check do what they say on every branch, failures of the storage included.
    - A write holds its locks and excludes the others; reads give back what their level says.
    - Texts compare level by level whatever path of the comparison runs; the byte keys order
      as the values; the names of collations and the bytes of the code page round trip.
    - Every durable record of the journal survives a crash, over every interleaving of the
      callers; an append reads back, a torn end is cut; [wait_durable] answers [Ok] for durable
      records, with one leader at a time and no waiter forgotten.  Redo from any image of a page
      gives the last one; a page write fits in a record and reads back.
    - Rows, pages, row records and the control file read back; the row decoder answers typed
      rows or a corruption on any bytes; a change of up to four consecutive bytes of a sealed
      page or control block is found; the accessors of a page are a record; the control file is
      created whole; the table-driven checksum is the bitwise one.
    - The buffer pool is a map of pages to its callers, whatever is evicted, flushed or fails; the
      data file changes by the no-steal and write-ahead rules only; a pin fails when no frame can
      be freed and not before; a change waits for running threads only.
    - A page of the data file has one owner at a time, a structure or the free list, across
      every sequence of allocations and releases and the failure of any call; an allocation
      hands out a page when the calls of the system succeed.  A heap is a map from addresses to
      records, whatever their length: what it inserts, overwrites and frees is what [get] and
      [scan] answer; the operations of one heap leave the others alone, and end.
    - [like] answers as the declarative reading of its pattern, PATINDEX the leftmost match; the
      calendar counts the days one by one and round trips.
    - Four theorems state behaviours that fall short of what the source intends:
      [second_request_weakens_the_first], [row_writes_never_escalate],
      [end_table_lock_gives_the_intent_back], [later_sync_covers_a_failed_one].

    ** Conventions, bounds and fuel

    - Identifiers and counters are [N] with the end of their range written out
      ([saturating_succ], [checked_succ]); theorems that need fresh identifiers or tickets
      assume that the counter has not reached [u64_max].
    - [walk] of [Deadlock.v] has fuel [walk_fuel], one more than the number of nodes and
      edges, since each turn pushes a new node, passes an edge or pops;
      [cycle_from_exact] proves that it is enough.  [partition_loop] has fuel
      [length items], since each turn shrinks [hi - lo];
      [partition_point_finds_the_boundary] proves that it is enough.  [scan_loop] and
      [collect] of [Wal.v] have as fuel the number of bytes of the file, since a record takes a
      byte at least; [scan_after] and [all_records_holds] go through them to the end.  [read_columns] has the number of bytes of the row, since a column takes one
      ([read_columns_fuel]).  The loops of [changed_ranges] have [PAGE_SIZE], since each turn
      moves one byte on in the page; [apply_changed] proves that they miss no byte.  [clock] has
      the two turns of the hand of the source ([clock_exact]).  Every other function is
      structural.
    - A file is the bytes a process reads and how many of them a crash keeps ([File]); what the
      system answers to a write or a sync is an argument.  Once a sync has failed, no later one
      is taken to cover anything ([stuck]).  A crash keeps the bytes that are safe and leaves
      anything after them ([crash_image]).  A [usize] has 64 bits; all NaN are one; reads of an
      open file do not fail, and no lock is poisoned.
    - Waiting: [lock] takes the list of the wake-ups of its thread, each with the time, the
      cancellation flag and the steps the other threads made before it, and answers [None]
      while the thread is parked.
    - Texts are lists of code points; theorems on the comparison of texts assume fewer than
      2^32 of them ([short]), the range of the positions in the last level.
    - [allowed] and [typed_request] say what the storage asks of its callers: rows fit the
      shape of their table, and a transaction that writes is known to the storage.

    ** Not modelled

    Conversions and arithmetic of [vauban-types]; of the disk storage, the tables over the heap,
    the B+trees, the catalogue, the recovery and the operations of [DiskStorage]; the crates
    above the transaction layer. *)

From stdpp Require Export prelude gmap sorting strings.

Set Default Proof Using "Type".

Declare Scope vauban_scope.
Delimit Scope vauban_scope with vauban.
Global Open Scope vauban_scope.

(** ** Machine integers

    Identifiers and counters are unsigned integers of the source ([u64], [u32]); they are
    kept as [N] and the operations that can reach the end of their range are written out. *)

Definition u64_max : N := 18446744073709551615%N.
Definition u32_max : N := 4294967295%N.

(** [u64::saturating_add(1)]. *)
Definition saturating_succ (n : N) : N :=
  if (n <? u64_max)%N then (n + 1)%N else u64_max.

(** [checked_add(1)] on an unsigned type whose largest value is [max]. *)
Definition checked_succ (max n : N) : option N :=
  if (n <? max)%N then Some (n + 1)%N else None.

Lemma saturating_succ_lt n : (n < u64_max)%N → saturating_succ n = (n + 1)%N.
Proof. intros H. unfold saturating_succ. by rewrite (proj2 (N.ltb_lt _ _) H). Qed.

Lemma saturating_succ_ge n : (n ≤ u64_max)%N → (n ≤ saturating_succ n)%N.
Proof. intros H. unfold saturating_succ. destruct (N.ltb_spec n u64_max); lia. Qed.

Lemma checked_succ_Some max n m : checked_succ max n = Some m ↔ m = (n + 1)%N ∧ (n < max)%N.
Proof. unfold checked_succ. destruct (N.ltb_spec n max); naive_solver lia. Qed.

(** ** Results

    [Result<T, E>] of the source, with the [?] operator as the monadic bind. *)

Inductive result (E A : Type) : Type :=
  | Ok (a : A)
  | Err (e : E).
Arguments Ok {E A} a.
Arguments Err {E A} e.

#[export] Instance result_ret {E} : MRet (result E) := λ A a, Ok a.
#[export] Instance result_bind {E} : MBind (result E) := λ A B f r,
  match r with Ok a => f a | Err e => Err e end.
#[export] Instance result_fmap {E} : FMap (result E) := λ A B f r,
  match r with Ok a => Ok (f a) | Err e => Err e end.

Definition is_ok {E A} (r : result E A) : bool := if r is Ok _ then true else false.

(** [Option::ok_or]. *)
Definition ok_or {E A} (o : option A) (e : E) : result E A :=
  match o with Some a => Ok a | None => Err e end.

Lemma result_bind_Ok {E A B} (f : A → result E B) r b :
  r ≫= f = Ok b ↔ ∃ a, r = Ok a ∧ f a = Ok b.
Proof. destruct r; naive_solver. Qed.

Lemma result_bind_ok {E A B} (f : A → result E B) (a : A) : Ok a ≫= f = f a.
Proof. done. Qed.

Lemma result_bind_err {E A B} (f : A → result E B) (e : E) : Err e ≫= f = Err e.
Proof. done. Qed.

(** [iter().map(f).collect::<Result<Vec<_>, _>>()]: stops at the first error. *)
Fixpoint try_map {E A B} (f : A → result E B) (l : list A) : result E (list B) :=
  match l with
  | [] => Ok []
  | x :: l => y ← f x; ys ← try_map f l; Ok (y :: ys)
  end.

(** [for x in l { acc = f(acc, x)?; }]. *)
Fixpoint try_fold {E A B} (f : A → B → result E A) (acc : A) (l : list B) : result E A :=
  match l with
  | [] => Ok acc
  | x :: l => acc ← f acc x; try_fold f acc l
  end.

Lemma try_map_Ok {E A B} (f : A → result E B) l l' :
  try_map f l = Ok l' ↔ Forall2 (λ x y, f x = Ok y) l l'.
Proof.
  revert l'. induction l as [|x l IH]; intros l'; simpl.
  { split; [by intros [= <-]|by inversion 1]. }
  rewrite result_bind_Ok. setoid_rewrite result_bind_Ok. split.
  - intros (y & Hy & ys & Hys & [= <-]). constructor; [done|]. by apply IH.
  - inversion 1 as [|? y ? ys]; subst. exists y. split; [done|].
    exists ys. split; [by apply IH|done].
Qed.

(** ** Operations on a mutable state

    A method that takes [&mut self] and may fail: the state is returned on both outcomes,
    because an error keeps the changes made before it. *)

Definition stateful (St E A : Type) : Type := St → result E A * St.

#[export] Instance stateful_ret {St E} : MRet (stateful St E) := λ A a s, (Ok a, s).
#[export] Instance stateful_bind {St E} : MBind (stateful St E) := λ A B f m s,
  match m s with
  | (Ok a, s') => f a s'
  | (Err e, s') => (Err e, s')
  end.

(** Reading the state through a fallible [&self] helper. *)
Definition reads {St E A} (f : St → result E A) : stateful St E A := λ s, (f s, s).
(** Replacing the state, without failing. *)
Definition modifies {St E} (f : St → St) : stateful St E () := λ s, (Ok (), f s).
(** A fallible update that leaves the state alone when it fails. *)
Definition updates {St E A} (f : St → result E (A * St)) : stateful St E A := λ s,
  match f s with Ok (a, s') => (Ok a, s') | Err e => (Err e, s) end.
Definition fails {St E A} (e : E) : stateful St E A := λ s, (Err e, s).

Lemma stateful_bind_Ok {St E A B} (f : A → stateful St E B) (m : stateful St E A) s b s' :
  (m ≫= f) s = (Ok b, s') ↔ ∃ a s1, m s = (Ok a, s1) ∧ f a s1 = (Ok b, s').
Proof. unfold mbind, stateful_bind. destruct (m s) as [[]]; naive_solver. Qed.

(** A [for] loop that runs a fallible operation on each element. *)
Fixpoint for_each {St E A} (f : A → stateful St E ()) (l : list A) : stateful St E () :=
  match l with
  | [] => mret ()
  | x :: l => _ ← f x; for_each f l
  end.

(** A decidable proposition in another form. *)
Definition decide_iff {P Q : Prop} (H : P ↔ Q) `{Decision P} : Decision Q :=
  match decide P with left p => left (proj1 H p) | right n => right (λ q, n (proj2 H q)) end.

(** ** Ordered maps

    [BTreeMap] iterates in increasing key order.  It is a [gmap] together with the list of
    its keys sorted by an order of the key type. *)

Section sorted_keys.
Context {K V : Type} `{Countable K} (R : relation K) `{∀ x y, Decision (R x y)}.

(** The keys of a [BTreeMap] or of a [BTreeSet] in iteration order; also the
    [keys().collect()] of a [HashMap] followed by [sort_unstable()]. *)
Definition sorted_keys (m : gmap K V) : list K := merge_sort R (map_to_list m).*1.

(** [BTreeMap::iter]. *)
Definition sorted_entries (m : gmap K V) : list (K * V) :=
  omap (λ k, (k,.) <$> m !! k) (sorted_keys m).

Lemma sorted_keys_perm m : sorted_keys m ≡ₚ (map_to_list m).*1.
Proof. apply merge_sort_Permutation. Qed.

Lemma elem_of_sorted_keys m k : k ∈ sorted_keys m ↔ is_Some (m !! k).
Proof.
  rewrite sorted_keys_perm, list_elem_of_fmap. split.
  - intros ([k' v] & -> & Hin). exists v. by apply elem_of_map_to_list.
  - intros [v Hv]. exists (k, v). split; [done|]. by apply elem_of_map_to_list.
Qed.

Lemma NoDup_sorted_keys m : NoDup (sorted_keys m).
Proof. rewrite sorted_keys_perm. apply NoDup_fst_map_to_list. Qed.

Lemma sorted_keys_sorted `{!Transitive R, !Total R} m : StronglySorted R (sorted_keys m).
Proof. apply StronglySorted_merge_sort; apply _. Qed.

(** The iteration order is the only list of the keys in increasing order. *)
Lemma sorted_keys_unique `{!Transitive R, !Total R, !AntiSymm (=) R} m l :
  StronglySorted R l → NoDup l → (∀ k, k ∈ l ↔ is_Some (m !! k)) → l = sorted_keys m.
Proof.
  intros Hs Hnd Hin.
  apply (StronglySorted_unique R); [done|by apply sorted_keys_sorted|].
  apply NoDup_Permutation; [done|apply NoDup_sorted_keys|].
  intros k. by rewrite Hin, elem_of_sorted_keys.
Qed.

Lemma elem_of_sorted_entries m k v : (k, v) ∈ sorted_entries m ↔ m !! k = Some v.
Proof.
  unfold sorted_entries. rewrite list_elem_of_omap. split.
  - intros (k' & Hk & Hl). destruct (m !! k') eqn:E; simplify_eq/=. done.
  - intros Hm. exists k. rewrite elem_of_sorted_keys, Hm. eauto.
Qed.

Lemma sorted_entries_fst m : (sorted_entries m).*1 = sorted_keys m.
Proof.
  unfold sorted_entries.
  assert (Hall : ∀ k, k ∈ sorted_keys m → is_Some (m !! k))
    by (intros k; by rewrite elem_of_sorted_keys).
  induction (sorted_keys m) as [|k l IH]; [done|].
  destruct (Hall k) as [v Hv]; [set_solver|].
  simpl. rewrite Hv. simpl. f_equal. apply IH. set_solver.
Qed.
End sorted_keys.

(** ** Lists

    [Vec::remove], [Vec::insert] and [iter().position] in terms of stdpp's lists. *)

(** [items.insert(at, x)] for [at <= items.len()]. *)
Definition insert_at {A} (i : nat) (x : A) (l : list A) : list A := take i l ++ x :: drop i l.

Lemma insert_at_perm {A} i (x : A) l : insert_at i x l ≡ₚ x :: l.
Proof.
  unfold insert_at. rewrite <- (take_drop i l) at 3. symmetry. apply Permutation_middle.
Qed.

Lemma elem_of_insert_at {A} i (x y : A) l : y ∈ insert_at i x l ↔ y = x ∨ y ∈ l.
Proof. by rewrite insert_at_perm, elem_of_cons. Qed.

Lemma length_insert_at {A} i (x : A) l : length (insert_at i x l) = S (length l).
Proof. by rewrite insert_at_perm. Qed.

Lemma delete_perm {A} (l : list A) i x : l !! i = Some x → l ≡ₚ x :: delete i l.
Proof.
  intros Hi. rewrite delete_take_drop.
  rewrite <- (take_drop_middle l i x Hi) at 1. symmetry. apply Permutation_middle.
Qed.

Lemma elem_of_delete {A} (l : list A) i x : x ∈ delete i l → x ∈ l.
Proof.
  rewrite delete_take_drop. intros Hx. rewrite <- (take_drop i l).
  apply elem_of_app in Hx as [Hx|Hx]; apply elem_of_app; [by left|right].
  rewrite <- (take_drop 1 (drop i l)), drop_drop, Nat.add_1_r. set_solver.
Qed.

Lemma StronglySorted_sublist {A} (R : relation A) l k :
  StronglySorted R k → l `sublist_of` k → StronglySorted R l.
Proof.
  intros Hs Hsub. revert Hs. induction Hsub as [|x l k Hsub IH|x l k Hsub IH]; intros Hs.
  - constructor.
  - apply StronglySorted_inv in Hs as [Hs Hx]. constructor; [by apply IH|].
    rewrite Forall_forall in *. intros y Hy. apply Hx. by eapply elem_of_submseteq, sublist_submseteq.
  - apply StronglySorted_inv in Hs as [Hs _]. by apply IH.
Qed.

Lemma NoDup_submseteq_inv {A} (l k : list A) : NoDup k → l ⊆+ k → NoDup l.
Proof.
  intros Hk Hlk. apply submseteq_Permutation in Hlk as [k' Hk'].
  rewrite Hk' in Hk. by apply NoDup_app in Hk as [? _].
Qed.

Lemma Forall_submseteq_inv {A} (P : A → Prop) (l k : list A) : Forall P k → l ⊆+ k → Forall P l.
Proof. rewrite !Forall_forall. intros Hk Hlk x Hx. apply Hk. by eapply elem_of_submseteq. Qed.

Lemma filter_id {A} (P : A → Prop) `{∀ x, Decision (P x)} l : Forall P l → filter P l = l.
Proof.
  induction 1 as [|x l Hx _ IH]; [done|]. by rewrite filter_cons_True, IH.
Qed.

Lemma filter_nil {A} (P : A → Prop) `{∀ x, Decision (P x)} l :
  Forall (λ x, ¬ P x) l → filter P l = [].
Proof. induction 1 as [|x l Hx _ IH]; [done|]. by rewrite filter_cons_False. Qed.

Lemma head_elem_of {A} (l : list A) x : head l = Some x → x ∈ l.
Proof. destruct l; [done|]. intros [= ->]. by left. Qed.

(** [Vec::retain] and the length of what it keeps. *)
Lemma filter_length_all {A} (P : A → Prop) `{∀ x, Decision (P x)} l :
  length (filter P l) = length l → ∀ x, x ∈ l → P x.
Proof.
  induction l as [|y l IH]; intros Hlen x Hx; [by apply not_elem_of_nil in Hx|].
  destruct (decide (P y)) as [Hy|Hy].
  - rewrite filter_cons_True in Hlen by done. injection Hlen as Hlen.
    apply elem_of_cons in Hx as [->|Hx]; [done|]. by apply IH.
  - rewrite filter_cons_False in Hlen by done. pose proof (length_filter P l). simpl in *. lia.
Qed.

Lemma filter_length_some {A} (P : A → Prop) `{∀ x, Decision (P x)} l :
  length (filter (λ x, ¬ P x) l) ≠ length l → ∃ x, x ∈ l ∧ P x.
Proof.
  induction l as [|y l IH]; intros Hlen; [done|]. destruct (decide (P y)) as [Hy|Hy].
  - exists y. split; [by left|done].
  - rewrite filter_cons_True in Hlen by done. destruct IH as (x & Hx & HP).
    + intros He. apply Hlen. simpl. by rewrite He.
    + exists x. split; [by right|done].
Qed.

Lemma StronglySorted_lookup {A} (R : relation A) l i j x y :
  StronglySorted R l → l !! i = Some x → l !! j = Some y → i < j → R x y.
Proof.
  intros Hs. revert i j. induction Hs as [|a l _ IH Ha]; intros [|i] [|j]; simpl; try done; try lia.
  - intros [= ->] Hj _. rewrite Forall_lookup in Ha. by eapply Ha.
  - intros Hi Hj Hlt. apply (IH i j); [done..|lia].
Qed.

Lemma bind_split {A B} (l : list A) (f g h : A → list B) :
  (∀ x, f x ≡ₚ g x ++ h x) → l ≫= f ≡ₚ (l ≫= g) ++ (l ≫= h).
Proof.
  intros Hf. induction l as [|x l IH]; [done|]. csimpl. rewrite Hf, IH.
  rewrite <- !app_assoc. apply Permutation_app_head. rewrite !app_assoc.
  apply Permutation_app_tail, Permutation_app_comm.
Qed.

Lemma fmap_of_bind {A B C} (f : B → C) (g : A → list B) (l : list A) :
  f <$> (l ≫= g) = l ≫= λ x, f <$> g x.
Proof. induction l as [|x l IH]; [done|]. csimpl. by rewrite fmap_app, IH. Qed.

Lemma filter_partition {A} (f : A → bool) (l : list A) :
  l ≡ₚ filter (λ v, f v = true) l ++ filter (λ v, f v = false) l.
Proof.
  induction l as [|x l IH]; [done|]. destruct (f x) eqn:Hf.
  - rewrite filter_cons_True, filter_cons_False by congruence. simpl. by rewrite <- IH.
  - rewrite filter_cons_False, filter_cons_True by congruence. rewrite <- Permutation_middle.
    by rewrite <- IH.
Qed.

Lemma sorted_entries_perm {V} (m : gmap N V) : sorted_entries N.le m ≡ₚ map_to_list m.
Proof.
  apply NoDup_Permutation.
  - eapply NoDup_fmap_1. rewrite sorted_entries_fst. apply NoDup_sorted_keys.
  - apply NoDup_map_to_list.
  - intros [k v]. by rewrite elem_of_sorted_entries, elem_of_map_to_list.
Qed.

Lemma try_fold_app {E A B} (f : A → B → result E A) a l k :
  try_fold f a (l ++ k) = (a' ← try_fold f a l; try_fold f a' k).
Proof.
  revert a. induction l as [|x l IH]; intros a; [done|]. simpl. destruct (f a x); [|done].
  simpl. apply IH.
Qed.

(** Two nested [for] loops as one. *)
Lemma try_fold_nested {E A B C} (f : A → B → C → result E A) a (l : list (B * list C)) :
  try_fold (λ a bc, try_fold (λ a c, f a bc.1 c) a bc.2) a l =
  try_fold (λ a bc, f a bc.1 bc.2) a (l ≫= λ bc, (bc.1,.) <$> bc.2).
Proof.
  revert a. induction l as [|[b cs] l IH]; intros a; [done|]. csimpl. rewrite try_fold_app.
  assert (Hin : try_fold (λ a bc, f a bc.1 bc.2) a ((b,.) <$> cs) = try_fold (λ a c, f a b c) a cs).
  { clear IH. revert a. induction cs as [|c cs IH]; intros a; [done|]. csimpl.
    destruct (f a b c); [|done]. apply IH. }
  rewrite Hin. destruct (try_fold _ a cs); [|done]. simpl. apply IH.
Qed.

Lemma StronglySorted_fmap {A B} (f : A → B) (R : relation B) l :
  StronglySorted R (f <$> l) ↔ StronglySorted (λ a b, R (f a) (f b)) l.
Proof.
  induction l as [|x l IH]; [split; constructor|]. csimpl. split.
  - intros [Hs Hx]%StronglySorted_inv. constructor; [by apply IH|].
    rewrite Forall_fmap in Hx. exact Hx.
  - intros [Hs Hx]%StronglySorted_inv. constructor; [by apply IH|].
    rewrite Forall_fmap. exact Hx.
Qed.

Lemma StronglySorted_impl {A} (R R' : relation A) l :
  (∀ a b, a ∈ l → b ∈ l → R a b → R' a b) → StronglySorted R l → StronglySorted R' l.
Proof.
  intros HR Hs. induction Hs as [|x l Hs IH Hx]; constructor.
  - apply IH. intros a b Ha Hb. apply HR; by right.
  - rewrite Forall_forall in *. intros y Hy. apply HR; [by left|by right|by apply Hx].
Qed.

Lemma StronglySorted_reverse {A} (R : relation A) l :
  StronglySorted R l → StronglySorted (flip R) (reverse l).
Proof.
  induction 1 as [|x l _ IH Hx]; [constructor|]. rewrite reverse_cons. apply StronglySorted_app.
  split_and!; [|done|repeat constructor]. intros a b Ha ->%list_elem_of_singleton.
  rewrite Forall_forall in Hx. apply Hx. by apply elem_of_reverse.
Qed.

(** [iter().filter(p).map(f)] as [filter_map]. *)
Lemma omap_filter {A B} (P : A → Prop) `{∀ x, Decision (P x)} (f : A → B) (g : A → option B) (l : list A) :
  (∀ x, x ∈ l → g x = if decide (P x) then Some (f x) else None) → omap g l = f <$> filter P l.
Proof.
  induction l as [|x l IH]; intros Hg; [done|]. csimpl. rewrite (Hg x) by set_solver.
  rewrite IH by set_solver.
  destruct (decide (P x)); [by rewrite filter_cons_True|by rewrite filter_cons_False].
Qed.

Lemma filter_of_fmap {A B} (P : B → Prop) `{∀ x, Decision (P x)} (f : A → B) (l : list A) :
  filter P (f <$> l) = f <$> filter (λ x, P (f x)) l.
Proof.
  induction l as [|x l IH]; [done|]. csimpl. destruct (decide (P (f x))).
  - by rewrite !filter_cons_True, IH by done.
  - by rewrite !filter_cons_False by done.
Qed.

Lemma filter_of_filter {A} (P Q : A → Prop) `{∀ x, Decision (P x), ∀ x, Decision (Q x)} (l : list A) :
  filter P (filter Q l) = filter (λ x, P x ∧ Q x) l.
Proof.
  induction l as [|x l IH]; [done|]. destruct (decide (Q x)).
  - rewrite (filter_cons_True Q) by done. destruct (decide (P x)).
    + by rewrite !filter_cons_True, IH by done.
    + by rewrite !filter_cons_False by tauto.
  - rewrite (filter_cons_False Q) by done. by rewrite filter_cons_False by tauto.
Qed.

Lemma try_map_Err {E A B} (f : A → result E B) l e :
  try_map f l = Err e → ∃ x, x ∈ l ∧ f x = Err e.
Proof.
  induction l as [|x l IH]; [done|]. simpl. destruct (f x) as [y|e'] eqn:Hx; simpl.
  - destruct (try_map f l); simpl; [done|]. intros [= ->]. destruct IH as (z & Hz & Hf); [done|].
    exists z. split; [by right|done].
  - intros [= ->]. exists x. split; [by left|done].
Qed.
