(* ===== verification/Values.v ===== *)
(** * Values and types

    The data of [vauban-types]: [value.rs] (the in-memory values), [sql_type.rs] (the
    scalar types and the type of a column) and the identifier record of [collation.rs].
    A [w]-bit integer is a [Z]; a float is the IEEE 754 value of [SpecFloat]; a text is
    the list of its Unicode scalar values; bytes are a list of [Z] in [0..255]. *)

From Stdlib Require Import SpecFloat.
From S2P Require Import Prelude.

#[local] Open Scope Z_scope.

(** ** [value.rs] *)

Record Decimal := mkDecimal {
  mantissa : Z; (* i128 *)
  precision : Z; (* u8 *)
  scale : Z; (* u8 *)
}.

Record SqlString := mkSqlString { text : list Z }.

Record Date := mkDate { date_days : Z }.

Record Time := mkTime { ticks_100ns : Z }.

Record DateTime := mkDateTime { dt_days : Z; ticks_300th : Z }.

Record DateTime2 := mkDateTime2 { dt2_date : Date; dt2_time : Time }.

Record DateTimeOffset := mkDateTimeOffset { utc : DateTime2; offset_minutes : Z }.

Inductive Value :=
  | VNull
  | VBit (b : bool)
  | VI8 (x : Z)
  | VI16 (x : Z)
  | VI32 (x : Z)
  | VI64 (x : Z)
  | VDecimal (d : Decimal)
  | VF64 (f : spec_float)
  | VF32 (f : spec_float)
  | VMoney (x : Z)
  | VString (s : SqlString)
  | VBytes (bs : list Z)
  | VDate (d : Date)
  | VTime (t : Time)
  | VDateTime (d : DateTime)
  | VDateTime2 (d : DateTime2)
  | VDateTimeOffset (d : DateTimeOffset)
  | VGuid (bs : list Z). (* [u8; 16] *)

(** ** [sql_type.rs] *)

Inductive Len :=
  | Fixed (n : Z)
  | Max.

Inductive SqlType :=
  | TBit | TTinyInt | TSmallInt | TInt | TBigInt
  | TDecimal (precision scale : Z)
  | TNumeric (precision scale : Z)
  | TFloat | TReal | TMoney | TSmallMoney
  | TChar (l : Len) | TVarChar (l : Len) | TNChar (l : Len) | TNVarChar (l : Len)
  | TBinary (l : Len) | TVarBinary (l : Len)
  | TDate | TTime (s : Z) | TDateTime | TSmallDateTime
  | TDateTime2 (s : Z) | TDateTimeOffset (s : Z)
  | TUniqueIdentifier.

Definition is_string (ty : SqlType) : bool :=
  match ty with TChar _ | TVarChar _ | TNChar _ | TNVarChar _ => true | _ => false end.

Definition is_exact_numeric (ty : SqlType) : bool :=
  match ty with TDecimal _ _ | TNumeric _ _ => true | _ => false end.

(** ** [collation.rs] *)

Record Collation := mkCollation { lcid : Z; flags : Z; version : Z; sort_id : Z }.

(** [Collation::DEFAULT], [SQL_Latin1_General_CP1_CI_AS]. *)
Definition Collation_DEFAULT : Collation := mkCollation 1033 13 0 52.

Record TypeInfo := mkTypeInfo {
  ty : SqlType;
  nullable : bool;
  collation : option Collation;
}.

Definition TypeInfo_new (ty : SqlType) (nullable : bool) : TypeInfo :=
  mkTypeInfo ty nullable (if is_string ty then Some Collation_DEFAULT else None).

(** ** Decidable equality *)

#[export] Instance spec_float_eq_dec : EqDecision spec_float.
Proof. solve_decision. Defined.
#[export] Instance Decimal_eq_dec : EqDecision Decimal.
Proof. solve_decision. Defined.
#[export] Instance SqlString_eq_dec : EqDecision SqlString.
Proof. solve_decision. Defined.
#[export] Instance Date_eq_dec : EqDecision Date.
Proof. solve_decision. Defined.
#[export] Instance Time_eq_dec : EqDecision Time.
Proof. solve_decision. Defined.
#[export] Instance DateTime_eq_dec : EqDecision DateTime.
Proof. solve_decision. Defined.
#[export] Instance DateTime2_eq_dec : EqDecision DateTime2.
Proof. solve_decision. Defined.
#[export] Instance DateTimeOffset_eq_dec : EqDecision DateTimeOffset.
Proof. solve_decision. Defined.
#[export] Instance Value_eq_dec : EqDecision Value.
Proof. solve_decision. Defined.
#[export] Instance Len_eq_dec : EqDecision Len.
Proof. solve_decision. Defined.
#[export] Instance SqlType_eq_dec : EqDecision SqlType.
Proof. solve_decision. Defined.
#[export] Instance Collation_eq_dec : EqDecision Collation.
Proof. solve_decision. Defined.
#[export] Instance TypeInfo_eq_dec : EqDecision TypeInfo.
Proof. solve_decision. Defined.
