(* ===== verification/Errors.v ===== *)
(** * Identifiers and errors

    The identifier newtypes of [vauban-storage/src/ids.rs] and the error values of
    [vauban-errors]: [internal.rs], [sql_error.rs] and the constructors of
    [constructors.rs] that the modelled code calls.

    A message is the list of the pieces a [format!] puts end to end: the literal text, and
    the values it displays.  Rendering a number or a value as characters is not modelled. *)

From S2P Require Import Prelude Values.

(** ** [ids.rs]: newtypes over [u32] and [u64] *)

Notation DbId := N (only parsing).
Notation TableId := N (only parsing).
Notation IndexId := N (only parsing).
Notation RowId := N (only parsing).
Notation TxnId := N (only parsing).
Notation SavepointId := N (only parsing).

(** ** Messages *)

Inductive Piece :=
  | Lit (s : string)
  | Num (n : N)
  | Dbg (constructor : string) (args : list N)
  | DbgKey (key : list Value)
  | DbgType (ty : SqlType).

Notation Message := (list Piece).

(** ** [internal.rs] *)

Inductive InternalError :=
  | Io (m : Message)
  | Corruption (m : Message)
  | Bug (m : Message).

(** ** [sql_error.rs] *)

Record SqlError := mkSqlError {
  number : N;
  severity : N;
  state : N;
  message : Message;
  line : N;
  procedure : option string;
}.

Notation SqlResult := (result SqlError).

Definition SqlError_new (number severity state : N) (message : Message) : SqlError :=
  mkSqlError number severity state message 0 None.

(** [impl From<InternalError> for SqlError], with the [Display] that [thiserror] derives. *)
Definition from_internal (err : InternalError) : SqlError :=
  SqlError_new 50000 16 1
    (Lit "Internal error: " ::
     match err with
     | Io m => Lit "I/O error: " :: m
     | Corruption m => Lit "data corruption: " :: m
     | Bug m => Lit "internal bug: " :: m
     end).

Definition bug {A} (m : Message) : SqlResult A := Err (from_internal (Bug m)).
Definition corruption {A} (m : Message) : SqlResult A := Err (from_internal (Corruption m)).

(** ** [constructors.rs] *)

(** 1205, with the severity 13 of the catalogue. *)
Definition deadlock_victim (process_id : N) (resource : string) : SqlError :=
  SqlError_new 1205 13 51
    [Lit "Process "; Num process_id; Lit " was chosen as the victim of a deadlock on ";
     Lit resource; Lit " resources; run the transaction again."].

(** 1222 on a row, state 51. *)
Definition lock_request_timeout_on_row : SqlError :=
  SqlError_new 1222 16 51 [Lit "The lock could not be acquired before the timeout."].

(** 1222 on an object, state 56. *)
Definition lock_request_timeout_on_object : SqlError :=
  SqlError_new 1222 16 56 [Lit "The lock could not be acquired before the timeout."].

(** 2601, with the severity 14 of the catalogue. *)
Definition duplicate_key_index (table index : N) (key : list Value) : SqlError :=
  SqlError_new 2601 14 1
    [Lit "Duplicate key in object '"; Num table; Lit "' for unique index '"; Num index;
     Lit "': the value "; DbgKey key; Lit " exists already."].

(** 448, with the severity 16 of the catalogue. *)
Definition invalid_collation (name : string) : SqlError :=
  SqlError_new 448 16 1 [Lit "Unknown collation '"; Lit name; Lit "'."].

#[export] Instance Piece_eq_dec : EqDecision Piece.
Proof. solve_decision. Defined.
#[export] Instance InternalError_eq_dec : EqDecision InternalError.
Proof. solve_decision. Defined.
#[export] Instance SqlError_eq_dec : EqDecision SqlError.
Proof. solve_decision. Defined.
