(* ===== verification/Bytes.v ===== *)
(** * Bytes

    What the on-disk code uses of the standard library of the source: the little-endian bytes
    of an integer of a fixed width, UTF-8, the bit patterns of floats, and slices of a buffer.
    A byte is a [Z] in [0..255], a buffer is a list of bytes, a text is the list of its
    characters.  The [NaN]s are one value here, so that the pattern of a [NaN] is the one
    [f64::NAN] has. *)

From Stdlib Require Import SpecFloat.
From stdpp Require Import list_numbers.
From S2P Require Import Prelude Values.

#[local] Open Scope Z_scope.

Definition is_byte (b : Z) : Prop := 0 ≤ b < 256.

#[export] Instance is_byte_dec b : Decision (is_byte b).
Proof. unfold is_byte. apply _. Defined.

(** ** Integers *)

(** [to_le_bytes] of an integer of [n] bytes, signed or not. *)
Definition to_le_bytes (n : nat) (x : Z) : list Z := Z_to_little_endian (Z.of_nat n) 8 x.

(** [from_le_bytes] of an unsigned integer. *)
#[global] Arguments to_le_bytes : simpl never.

Definition from_le_bytes (bytes : list Z) : Z := little_endian_to_Z 8 bytes.

(** [from_le_bytes] of a signed integer, in two's complement. *)
Definition signed_of (n : nat) (x : Z) : Z :=
  if x <? 2 ^ (8 * Z.of_nat n - 1) then x else x - 2 ^ (8 * Z.of_nat n).
Definition signed_from_le_bytes (bytes : list Z) : Z := signed_of (length bytes) (from_le_bytes bytes).

(** The integers of [n] bytes. *)
Definition unsigned_fits (n : nat) (x : Z) : Prop := 0 ≤ x < 2 ^ (8 * Z.of_nat n).
Definition signed_fits (n : nat) (x : Z) : Prop :=
  - 2 ^ (8 * Z.of_nat n - 1) ≤ x < 2 ^ (8 * Z.of_nat n - 1).

#[export] Instance unsigned_fits_dec n x : Decision (unsigned_fits n x).
Proof. unfold unsigned_fits. apply _. Defined.
#[export] Instance signed_fits_dec n x : Decision (signed_fits n x).
Proof. unfold signed_fits. apply _. Defined.

Lemma length_to_le_bytes n x : length (to_le_bytes n x) = n.
Proof. apply Nat2Z.inj. apply length_Z_to_little_endian. lia. Qed.

Lemma to_le_bytes_bound n x : Forall is_byte (to_le_bytes n x).
Proof. apply (Z_to_little_endian_bound (Z.of_nat n) 8 x); lia. Qed.

Lemma from_to_le_bytes n x : from_le_bytes (to_le_bytes n x) = x mod 2 ^ (8 * Z.of_nat n).
Proof.
  unfold from_le_bytes, to_le_bytes. rewrite little_endian_to_Z_to_little_endian by lia.
  by rewrite Z.mul_comm.
Qed.

Lemma from_to_le_bytes_fits n x : unsigned_fits n x → from_le_bytes (to_le_bytes n x) = x.
Proof. intros Hx. rewrite from_to_le_bytes. by apply Z.mod_small. Qed.

Lemma signed_from_to_le_bytes n x :
  (n ≠ 0)%nat → signed_fits n x → signed_from_le_bytes (to_le_bytes n x) = x.
Proof.
  intros Hn [Hlo Hhi]. unfold signed_from_le_bytes. rewrite length_to_le_bytes, from_to_le_bytes.
  unfold signed_of. set (k := 8 * Z.of_nat n) in *. assert (Hk : 2 ^ k = 2 * 2 ^ (k - 1)).
  { rewrite <- Z.pow_succ_r by lia. f_equal. lia. }
  assert (0 < 2 ^ (k - 1)) by (apply Z.pow_pos_nonneg; lia).
  destruct (decide (0 ≤ x)).
  - rewrite Z.mod_small by lia. by rewrite (proj2 (Z.ltb_lt _ _)) by lia.
  - replace (x mod 2 ^ k) with (x + 2 ^ k).
    + rewrite (proj2 (Z.ltb_ge _ _)) by lia. lia.
    + apply (Z.mod_unique_pos _ _ (-1)); lia.
Qed.

Lemma from_le_bytes_bound bytes :
  Forall is_byte bytes → unsigned_fits (length bytes) (from_le_bytes bytes).
Proof.
  intros Hb. unfold unsigned_fits, from_le_bytes. rewrite Z.mul_comm.
  apply little_endian_to_Z_bound; [lia|]. exact Hb.
Qed.

Lemma signed_of_bound n x : (n ≠ 0)%nat → unsigned_fits n x → signed_fits n (signed_of n x).
Proof.
  intros Hn Hx. unfold unsigned_fits, signed_fits, signed_of in *. set (k := 8 * Z.of_nat n) in *.
  assert (Hk : 2 ^ k = 2 * 2 ^ (k - 1)). { rewrite <- Z.pow_succ_r by lia. f_equal. lia. }
  destruct (Z.ltb_spec x (2 ^ (k - 1))); lia.
Qed.

Lemma to_from_le_bytes bytes :
  Forall is_byte bytes → to_le_bytes (length bytes) (from_le_bytes bytes) = bytes.
Proof. intros Hb. apply Z_to_little_endian_to_Z; [done|lia|exact Hb]. Qed.

Lemma to_le_bytes_inj n x y :
  unsigned_fits n x → unsigned_fits n y → to_le_bytes n x = to_le_bytes n y → x = y.
Proof. intros Hx Hy He. rewrite <- (from_to_le_bytes_fits n x), He by done. by apply from_to_le_bytes_fits. Qed.

Lemma unsigned_fits_N n x : (x < 2 ^ (8 * N.of_nat n))%N → unsigned_fits n (Z.of_N x).
Proof.
  intros Hx. unfold unsigned_fits. split; [lia|]. apply N2Z.inj_lt in Hx.
  rewrite N2Z.inj_pow in Hx. replace (Z.of_N (8 * N.of_nat n)) with (8 * Z.of_nat n) in Hx by lia. done.
Qed.

(** ** Slices *)

(** [bytes[from..from + len]], for a range inside the buffer. *)
Definition slice {A} (from len : nat) (bytes : list A) : list A := take len (drop from bytes).

(** [bytes.get(from..to)]. *)
Definition get_range {A} (from to : nat) (bytes : list A) : option (list A) :=
  if decide (from ≤ to ∧ to ≤ length bytes)%nat then Some (slice from (to - from) bytes) else None.

(** [bytes[at..at + new.len()].copy_from_slice(new)], for a range inside the buffer. *)
Definition splice {A} (at_ : nat) (new bytes : list A) : list A :=
  take at_ bytes ++ new ++ drop (at_ + length new) bytes.

Section slices.
Context {A : Type}.
Implicit Types l k : list A.

Lemma length_slice from len l : (from + len ≤ length l)%nat → length (slice from len l) = len.
Proof. intros. unfold slice. rewrite length_take, length_drop. lia. Qed.

Lemma slice_app_l from len l k : (from + len ≤ length l)%nat → slice from len (l ++ k) = slice from len l.
Proof.
  intros. unfold slice. rewrite drop_app_le, take_app_le by (rewrite ?length_drop; lia). done.
Qed.

Lemma slice_app_r from len l k : slice (length l + from) len (l ++ k) = slice from len k.
Proof. unfold slice. by rewrite <- drop_drop, drop_app_length. Qed.

(** The form the rewriting of a concatenation of fields needs. *)
Lemma slice_skip n from len l k : length l = n → (n ≤ from)%nat → slice from len (l ++ k) = slice (from - n) len k.
Proof. intros <- Hle. rewrite <- (slice_app_r (from - length l) len l k). f_equal. lia. Qed.

Lemma slice_here n l k : length l = n → slice 0 n (l ++ k) = l.
Proof. intros <-. unfold slice. rewrite drop_0. apply take_app_length. Qed.

Lemma slice_all n l : length l = n → slice 0 n l = l.
Proof. intros <-. unfold slice. rewrite drop_0. by apply take_ge. Qed.

Lemma slice_slice a n b m l : (b + m ≤ n)%nat → slice b m (slice a n l) = slice (a + b) m l.
Proof. intros. unfold slice. rewrite skipn_firstn_comm, take_take, drop_drop. f_equal. lia. Qed.

Lemma lookup_slice from len l i : (i < len)%nat → slice from len l !! i = l !! (from + i)%nat.
Proof. intros. unfold slice. rewrite lookup_take_lt by done. by rewrite lookup_drop. Qed.

Lemma slice_Forall (P : A → Prop) from len l : Forall P l → Forall P (slice from len l).
Proof. intros. unfold slice. by apply Forall_take, Forall_drop. Qed.

Lemma length_splice at_ new l : (at_ + length new ≤ length l)%nat → length (splice at_ new l) = length l.
Proof. intros. unfold splice. rewrite !length_app, length_take, length_drop. lia. Qed.

Lemma slice_splice at_ new l n :
  length new = n → (at_ + n ≤ length l)%nat → slice at_ n (splice at_ new l) = new.
Proof.
  intros <- Hle. unfold splice. rewrite (slice_skip at_) by (rewrite ?length_take; lia).
  rewrite Nat.sub_diag. by apply slice_here.
Qed.

Lemma lookup_splice at_ new l i :
  (at_ + length new ≤ length l)%nat →
  splice at_ new l !! i =
  if decide (at_ ≤ i < at_ + length new)%nat then new !! (i - at_)%nat else l !! i.
Proof.
  intros Hle. unfold splice. destruct (decide (at_ ≤ i < at_ + length new)%nat) as [Hin|Hout].
  - rewrite lookup_app_r by (rewrite length_take; lia). rewrite length_take, Nat.min_l by lia.
    by rewrite lookup_app_l by lia.
  - destruct (decide (i < at_)%nat).
    + rewrite lookup_app_l by (rewrite length_take; lia). by rewrite lookup_take_lt.
    + rewrite lookup_app_r by (rewrite length_take; lia). rewrite length_take, Nat.min_l by lia.
      rewrite lookup_app_r by lia. rewrite lookup_drop. f_equal. lia.
Qed.

Lemma slice_splice_other at_ new l from len :
  (at_ + length new ≤ length l)%nat → (from + len ≤ at_ ∨ at_ + length new ≤ from)%nat →
  slice from len (splice at_ new l) = slice from len l.
Proof.
  intros Hle Hd. apply list_eq. intros i. destruct (decide (i < len)%nat) as [Hi|Hi].
  - rewrite !lookup_slice by done. rewrite lookup_splice by done. by rewrite decide_False by lia.
  - rewrite !lookup_ge_None_2; [done| |]; unfold slice; rewrite length_take; lia.
Qed.

Lemma splice_Forall (P : A → Prop) at_ new l : Forall P new → Forall P l → Forall P (splice at_ new l).
Proof.
  intros. unfold splice. rewrite !Forall_app. auto using Forall_take, Forall_drop.
Qed.

Lemma get_range_Some from to l s :
  get_range from to l = Some s ↔ (from ≤ to ≤ length l)%nat ∧ s = slice from (to - from) l.
Proof. unfold get_range. case_decide; naive_solver. Qed.
End slices.

(** ** UTF-8 *)

(** A [char] of the source: a Unicode scalar value. *)
Definition is_scalar (c : Z) : Prop := 0 ≤ c < 55296 ∨ 57344 ≤ c < 1114112.

#[export] Instance is_scalar_dec c : Decision (is_scalar c).
Proof. unfold is_scalar. apply _. Defined.

(** [char::encode_utf8]. *)
Definition encode_utf8_char (c : Z) : list Z :=
  if c <? 128 then [c]
  else if c <? 2048 then [192 + c / 64; 128 + c mod 64]
  else if c <? 65536 then [224 + c / 4096; 128 + (c / 64) mod 64; 128 + c mod 64]
  else [240 + c / 262144; 128 + (c / 4096) mod 64; 128 + (c / 64) mod 64; 128 + c mod 64].

(** [str::as_bytes]. *)
Definition as_bytes (s : list Z) : list Z := s ≫= encode_utf8_char.

(** [Utf8Error]: the bytes that are valid, and the bytes of the sequence that is not; none
    for a sequence cut short by the end. *)
Record Utf8Error := mkUtf8Error { valid_up_to : N; error_len : option N }.

Definition in_range (lo hi x : Z) : bool := (lo <=? x) && (x <=? hi).
Definition continuation (b : Z) : bool := in_range 128 191 b.

(** The second bytes that may follow the first byte of a sequence of three and of four. *)
Definition second_of_three (b0 b1 : Z) : bool :=
  in_range (if b0 =? 224 then 160 else 128) (if b0 =? 237 then 159 else 191) b1.
Definition second_of_four (b0 b1 : Z) : bool :=
  in_range (if b0 =? 240 then 144 else 128) (if b0 =? 244 then 143 else 191) b1.

(** [str::from_utf8] on the bytes from the offset [at_] on. *)
Fixpoint from_utf8_at (at_ : N) (bytes : list Z) : result Utf8Error (list Z) :=
  let bad {A} len : result Utf8Error A := Err (mkUtf8Error at_ len) in
  match bytes with
  | [] => Ok []
  | b0 :: r1 =>
      if b0 <? 128 then cons b0 <$> from_utf8_at (at_ + 1) r1
      else if in_range 194 223 b0 then
        match r1 with
        | [] => bad None
        | b1 :: r2 =>
            if continuation b1
            then cons ((b0 - 192) * 64 + (b1 - 128)) <$> from_utf8_at (at_ + 2) r2
            else bad (Some 1%N)
        end
      else if in_range 224 239 b0 then
        match r1 with
        | [] => bad None
        | b1 :: r2 =>
            if second_of_three b0 b1 then
              match r2 with
              | [] => bad None
              | b2 :: r3 =>
                  if continuation b2
                  then cons ((b0 - 224) * 4096 + (b1 - 128) * 64 + (b2 - 128)) <$>
                       from_utf8_at (at_ + 3) r3
                  else bad (Some 2%N)
              end
            else bad (Some 1%N)
        end
      else if in_range 240 244 b0 then
        match r1 with
        | [] => bad None
        | b1 :: r2 =>
            if second_of_four b0 b1 then
              match r2 with
              | [] => bad None
              | b2 :: r3 =>
                  if continuation b2 then
                    match r3 with
                    | [] => bad None
                    | b3 :: r4 =>
                        if continuation b3
                        then cons ((b0 - 240) * 262144 + (b1 - 128) * 4096 + (b2 - 128) * 64 +
                                   (b3 - 128)) <$> from_utf8_at (at_ + 4) r4
                        else bad (Some 3%N)
                    end
                  else bad (Some 2%N)
              end
            else bad (Some 1%N)
        end
      else bad (Some 1%N)
  end.

Definition from_utf8 (bytes : list Z) : result Utf8Error (list Z) := from_utf8_at 0 bytes.

(** Case analysis on the comparisons of a goal, by their meaning. *)
Ltac split_bools :=
  repeat match goal with
    | |- context [?a <? ?b] => destruct (Z.ltb_spec a b)
    | |- context [?a <=? ?b] => destruct (Z.leb_spec a b)
    | |- context [?a =? ?b] => destruct (Z.eqb_spec a b)
    end; cbn [andb orb negb].

Lemma in_range_iff lo hi x : in_range lo hi x = true ↔ lo ≤ x ≤ hi.
Proof. unfold in_range. rewrite andb_true_iff, !Z.leb_le. done. Qed.

Lemma in_range_true lo hi x : lo ≤ x ≤ hi → in_range lo hi x = true.
Proof. apply in_range_iff. Qed.

Lemma in_range_false lo hi x : ¬ (lo ≤ x ≤ hi) → in_range lo hi x = false.
Proof. intros Hn. apply not_true_is_false. by rewrite in_range_iff. Qed.

Lemma encode_utf8_char_bytes c : is_scalar c → Forall is_byte (encode_utf8_char c).
Proof.
  intros Hc. unfold is_scalar in Hc. unfold encode_utf8_char. split_bools;
    repeat (constructor; [unfold is_byte; Z.to_euclidean_division_equations; lia|]); constructor.
Qed.

Lemma from_utf8_encode c at_ r :
  is_scalar c →
  from_utf8_at at_ (encode_utf8_char c ++ r) =
  cons c <$> from_utf8_at (at_ + N.of_nat (length (encode_utf8_char c))) r.
Proof.
  intros Hc. unfold is_scalar in Hc. unfold encode_utf8_char.
  destruct (Z.ltb_spec c 128).
  { cbn [app from_utf8_at length]. by rewrite (proj2 (Z.ltb_lt c 128)) by lia. }
  destruct (Z.ltb_spec c 2048).
  { cbn [app from_utf8_at length].
    rewrite (proj2 (Z.ltb_ge _ 128)), (in_range_true 194 223)
      by (Z.to_euclidean_division_equations; lia).
    unfold continuation. rewrite in_range_true by (Z.to_euclidean_division_equations; lia).
    replace ((192 + c / 64 - 192) * 64 + (128 + c mod 64 - 128)) with c
      by (Z.to_euclidean_division_equations; lia). done. }
  destruct (Z.ltb_spec c 65536).
  { cbn [app from_utf8_at length].
    rewrite (proj2 (Z.ltb_ge _ 128)), (in_range_false 194 223), (in_range_true 224 239)
      by (Z.to_euclidean_division_equations; lia).
    unfold second_of_three, continuation.
    rewrite in_range_true
      by (destruct (Z.eqb_spec (224 + c / 4096) 224), (Z.eqb_spec (224 + c / 4096) 237);
          Z.to_euclidean_division_equations; lia).
    rewrite in_range_true by (Z.to_euclidean_division_equations; lia).
    replace ((224 + c / 4096 - 224) * 4096 + (128 + (c / 64) mod 64 - 128) * 64 + (128 + c mod 64 - 128))
      with c by (Z.to_euclidean_division_equations; lia). done. }
  cbn [app from_utf8_at length].
  rewrite (proj2 (Z.ltb_ge _ 128)), (in_range_false 194 223), (in_range_false 224 239),
    (in_range_true 240 244) by (Z.to_euclidean_division_equations; lia).
  unfold second_of_four, continuation.
  rewrite in_range_true
    by (destruct (Z.eqb_spec (240 + c / 262144) 240), (Z.eqb_spec (240 + c / 262144) 244);
        Z.to_euclidean_division_equations; lia).
  rewrite !in_range_true by (Z.to_euclidean_division_equations; lia).
  replace ((240 + c / 262144 - 240) * 262144 + (128 + (c / 4096) mod 64 - 128) * 4096 +
    (128 + (c / 64) mod 64 - 128) * 64 + (128 + c mod 64 - 128)) with c
    by (Z.to_euclidean_division_equations; lia). done.
Qed.

Lemma from_utf8_as_bytes s : Forall is_scalar s → from_utf8 (as_bytes s) = Ok s.
Proof.
  unfold from_utf8. generalize 0%N as at_. intros at_ Hs. revert at_.
  induction Hs as [|c s Hc _ IH]; intros at_; [done|].
  unfold as_bytes. csimpl. rewrite from_utf8_encode by done. fold (as_bytes s). by rewrite IH.
Qed.

Lemma as_bytes_bytes s : Forall is_scalar s → Forall is_byte (as_bytes s).
Proof.
  induction 1 as [|c s Hc _ IH]; [constructor|]. unfold as_bytes. csimpl.
  apply Forall_app. split; [by apply encode_utf8_char_bytes|exact IH].
Qed.

Lemma fmap_cons_Ok {E A} (c : A) (r : result E (list A)) s :
  cons c <$> r = Ok s ↔ ∃ s', r = Ok s' ∧ s = c :: s'.
Proof. destruct r; simpl; naive_solver. Qed.

(** What is read from bytes is a text: every number of it is a scalar value. *)
Lemma from_utf8_scalar bytes s : Forall is_byte bytes → from_utf8 bytes = Ok s → Forall is_scalar s.
Proof.
  unfold from_utf8. generalize 0%N as at_. remember (length bytes) as n eqn:Hn.
  revert bytes s Hn. induction (lt_wf n) as [n _ IH]. intros bytes s -> at_ Hb.
  destruct bytes as [|b0 r1]; [by intros [= <-]|].
  assert (Hrec : ∀ c r k, is_scalar c → (length r < length (b0 :: r1))%nat → Forall is_byte r →
    cons c <$> from_utf8_at k r = Ok s → Forall is_scalar s).
  { intros c r k Hc Hlen Hr (s' & Hs' & ->)%fmap_cons_Ok. constructor; [done|].
    by eapply (IH (length r)). }
  inversion_clear Hb as [|? ? H0 Hb1]. unfold is_byte in H0. cbn [from_utf8_at].
  destruct (Z.ltb_spec b0 128).
  { apply Hrec; [unfold is_scalar; lia|simpl; lia|done]. }
  destruct (in_range 194 223 b0) eqn:H2.
  { apply in_range_iff in H2. destruct r1 as [|b1 r2]; [done|]. inversion_clear Hb1 as [|? ? H1 Hb2].
    unfold continuation. destruct (in_range 128 191 b1) eqn:H3; [|done]. apply in_range_iff in H3.
    apply Hrec; [unfold is_scalar; lia|simpl; lia|done]. }
  destruct (in_range 224 239 b0) eqn:H3.
  { apply in_range_iff in H3. destruct r1 as [|b1 r2]; [done|]. inversion_clear Hb1 as [|? ? H1 Hb2].
    unfold second_of_three. destruct (in_range _ _ b1) eqn:H4; [|done]. apply in_range_iff in H4.
    destruct r2 as [|b2 r3]; [done|]. inversion_clear Hb2 as [|? ? H5 Hb3].
    unfold continuation. destruct (in_range 128 191 b2) eqn:H6; [|done]. apply in_range_iff in H6.
    apply Hrec; [|simpl; lia|done]. unfold is_scalar.
    destruct (Z.eqb_spec b0 224), (Z.eqb_spec b0 237); lia. }
  destruct (in_range 240 244 b0) eqn:H4; [|done]. apply in_range_iff in H4.
  destruct r1 as [|b1 r2]; [done|]. inversion_clear Hb1 as [|? ? H1 Hb2].
  unfold second_of_four. destruct (in_range _ _ b1) eqn:H5; [|done]. apply in_range_iff in H5.
  destruct r2 as [|b2 r3]; [done|]. inversion_clear Hb2 as [|? ? H6 Hb3].
  unfold continuation. destruct (in_range 128 191 b2) eqn:H7; [|done]. apply in_range_iff in H7.
  destruct r3 as [|b3 r4]; [done|]. inversion_clear Hb3 as [|? ? H8 Hb4].
  destruct (in_range 128 191 b3) eqn:H9; [|done]. apply in_range_iff in H9.
  apply Hrec; [|simpl; lia|done]. unfold is_scalar.
  destruct (Z.eqb_spec b0 240), (Z.eqb_spec b0 244); lia.
Qed.

(** The digits in base 64 of a number. *)
Lemma base64_digits v x : 0 ≤ x < 64 → (v * 64 + x) / 64 = v ∧ (v * 64 + x) mod 64 = x.
Proof. intros Hx. Z.to_euclidean_division_equations. lia. Qed.

Lemma base64_digits3 u v x :
  0 ≤ v < 64 → 0 ≤ x < 64 →
  let c := u * 4096 + v * 64 + x in c / 4096 = u ∧ (c / 64) mod 64 = v ∧ c mod 64 = x.
Proof.
  intros Hv Hx c. replace c with ((u * 64 + v) * 64 + x) by (unfold c; lia).
  change 4096 with (64 * 64). rewrite <- Z.div_div by lia.
  destruct (base64_digits (u * 64 + v) x Hx) as [-> ->]. by destruct (base64_digits u v Hv) as [-> ->].
Qed.

Lemma base64_digits4 t u v x :
  0 ≤ u < 64 → 0 ≤ v < 64 → 0 ≤ x < 64 →
  let c := t * 262144 + u * 4096 + v * 64 + x in
  c / 262144 = t ∧ (c / 4096) mod 64 = u ∧ (c / 64) mod 64 = v ∧ c mod 64 = x.
Proof.
  intros Hu Hv Hx c. replace c with ((t * 64 + u) * 4096 + v * 64 + x) by (unfold c; lia).
  change 262144 with (4096 * 64). rewrite <- Z.div_div by lia.
  destruct (base64_digits3 (t * 64 + u) v x Hv Hx) as (-> & -> & ->).
  by destruct (base64_digits t u Hu) as [-> ->].
Qed.

(** And it is written as the bytes it was read from. *)
Lemma from_utf8_exact bytes s : Forall is_byte bytes → from_utf8 bytes = Ok s → as_bytes s = bytes.
Proof.
  unfold from_utf8. generalize 0%N as at_. remember (length bytes) as n eqn:Hn.
  revert bytes s Hn. induction (lt_wf n) as [n _ IH]. intros bytes s -> at_ Hb.
  destruct bytes as [|b0 r1]; [by intros [= <-]|].
  assert (Hrec : ∀ c p r k, encode_utf8_char c = p → b0 :: r1 = p ++ r → (length r < length (b0 :: r1))%nat →
    Forall is_byte r → cons c <$> from_utf8_at k r = Ok s → as_bytes s = b0 :: r1).
  { intros c p r k Hc Hp Hlen Hr (s' & Hs' & ->)%fmap_cons_Ok. rewrite Hp. unfold as_bytes. csimpl. rewrite Hc.
    f_equal. change (as_bytes s' = r). by eapply (IH (length r)). }
  inversion_clear Hb as [|? ? H0 Hb1]. unfold is_byte in H0. cbn [from_utf8_at].
  destruct (Z.ltb_spec b0 128).
  { apply (Hrec _ [b0]); [|done|simpl; lia|done]. unfold encode_utf8_char.
    by rewrite (proj2 (Z.ltb_lt b0 128)). }
  destruct (in_range 194 223 b0) eqn:H2.
  { apply in_range_iff in H2. destruct r1 as [|b1 r2]; [done|]. inversion_clear Hb1 as [|? ? H1 Hb2].
    unfold continuation. destruct (in_range 128 191 b1) eqn:H3; [|done]. apply in_range_iff in H3.
    apply (Hrec _ [b0; b1]); [|done|simpl; lia|done]. unfold encode_utf8_char.
    rewrite (proj2 (Z.ltb_ge _ 128)), (proj2 (Z.ltb_lt _ 2048)) by lia.
    destruct (base64_digits (b0 - 192) (b1 - 128)) as [-> ->]; [lia|]. repeat f_equal; lia. }
  destruct (in_range 224 239 b0) eqn:H3.
  { apply in_range_iff in H3. destruct r1 as [|b1 r2]; [done|]. inversion_clear Hb1 as [|? ? H1 Hb2].
    unfold second_of_three. destruct (in_range _ _ b1) eqn:H4; [|done]. apply in_range_iff in H4.
    destruct r2 as [|b2 r3]; [done|]. inversion_clear Hb2 as [|? ? H5 Hb3].
    unfold continuation. destruct (in_range 128 191 b2) eqn:H6; [|done]. apply in_range_iff in H6.
    apply (Hrec _ [b0; b1; b2]); [|done|simpl; lia|done]. unfold encode_utf8_char.
    rewrite (proj2 (Z.ltb_ge _ 128)), (proj2 (Z.ltb_ge _ 2048)), (proj2 (Z.ltb_lt _ 65536))
      by (destruct (Z.eqb_spec b0 224), (Z.eqb_spec b0 237); lia).
    destruct (base64_digits3 (b0 - 224) (b1 - 128) (b2 - 128)) as (-> & -> & ->);
      [destruct (Z.eqb_spec b0 224), (Z.eqb_spec b0 237); lia|lia|]. repeat f_equal; lia. }
  destruct (in_range 240 244 b0) eqn:H4; [|done]. apply in_range_iff in H4.
  destruct r1 as [|b1 r2]; [done|]. inversion_clear Hb1 as [|? ? H1 Hb2].
  unfold second_of_four. destruct (in_range _ _ b1) eqn:H5; [|done]. apply in_range_iff in H5.
  destruct r2 as [|b2 r3]; [done|]. inversion_clear Hb2 as [|? ? H6 Hb3].
  unfold continuation. destruct (in_range 128 191 b2) eqn:H7; [|done]. apply in_range_iff in H7.
  destruct r3 as [|b3 r4]; [done|]. inversion_clear Hb3 as [|? ? H8 Hb4].
  destruct (in_range 128 191 b3) eqn:H9; [|done]. apply in_range_iff in H9.
  apply (Hrec _ [b0; b1; b2; b3]); [|done|simpl; lia|done]. unfold encode_utf8_char.
  rewrite (proj2 (Z.ltb_ge _ 128)), (proj2 (Z.ltb_ge _ 2048)), (proj2 (Z.ltb_ge _ 65536))
    by (destruct (Z.eqb_spec b0 240), (Z.eqb_spec b0 244); lia).
  destruct (base64_digits4 (b0 - 240) (b1 - 128) (b2 - 128) (b3 - 128)) as (-> & -> & -> & ->);
    [destruct (Z.eqb_spec b0 240), (Z.eqb_spec b0 244); lia|lia..|]. repeat f_equal; lia.
Qed.

(** ** Floats

    [prec] and [emax] are 53 and 1024 for [f64], 24 and 128 for [f32].  The pattern holds the
    sign, the exponent from 0 to [2 * emax - 1], and the [prec - 1] bits of the fraction. *)

Lemma digits2_pos_bounds m : 2 ^ (Zpos (digits2_pos m) - 1) ≤ Zpos m < 2 ^ Zpos (digits2_pos m).
Proof.
  induction m as [m IH|m IH|]; simpl digits2_pos; [..|done];
    rewrite Pos2Z.inj_succ; change (Zpos m~1) with (2 * Zpos m + 1) || change (Zpos m~0) with (2 * Zpos m);
    rewrite Z.pow_succ_r by lia;
    replace (2 ^ (Z.succ (Zpos (digits2_pos m)) - 1)) with (2 * 2 ^ (Zpos (digits2_pos m) - 1))
      by (rewrite <- Z.pow_succ_r by lia; f_equal; lia); lia.
Qed.

Section floats.
Context (prec emax : Z) (Hprec : 2 ≤ prec) (Hemax : prec ≤ emax).

Definition fraction_size : Z := 2 ^ (prec - 1).
Definition sign_weight : Z := 2 * emax * fraction_size.
Definition lowest_exponent : Z := 3 - emax - prec.
Definition sign_part (s : bool) : Z := if s then sign_weight else 0.

(** [to_bits]. *)
Definition float_to_bits (f : spec_float) : Z :=
  match f with
  | S754_zero s => sign_part s
  | S754_infinity s => sign_part s + (2 * emax - 1) * fraction_size
  | S754_nan => (2 * emax - 1) * fraction_size + fraction_size / 2
  | S754_finite s m e =>
      sign_part s +
      if Zpos m <? fraction_size then Zpos m
      else (e - lowest_exponent + 1) * fraction_size + (Zpos m - fraction_size)
  end.

Definition magnitude_of_bits (s : bool) (exponent fraction : Z) : spec_float :=
  if exponent =? 0 then
    match fraction with Zpos m => S754_finite s m lowest_exponent | _ => S754_zero s end
  else if exponent =? 2 * emax - 1 then
    if fraction =? 0 then S754_infinity s else S754_nan
  else
    match fraction + fraction_size with
    | Zpos m => S754_finite s m (exponent + lowest_exponent - 1)
    | _ => S754_zero s
    end.

(** [from_bits]. *)
Definition float_from_bits (bits : Z) : spec_float :=
  let rest := bits mod sign_weight in
  magnitude_of_bits (sign_weight <=? bits) (rest / fraction_size) (rest mod fraction_size).

(** What a finite number is made of: a fraction of [prec] bits, with the exponent at the
    lowest for the subnormal ones. *)
Lemma finite_parts s m e :
  valid_binary prec emax (S754_finite s m e) = true →
  Zpos m < 2 * fraction_size ∧ lowest_exponent ≤ e ≤ emax - prec ∧
  (e = lowest_exponent ∨ fraction_size ≤ Zpos m).
Proof using Hprec Hemax.
  intros [Hc He]%andb_true_iff. unfold canonical_mantissa, fexp, emin in Hc.
  apply Z.eqb_eq in Hc. apply Z.leb_le in He. unfold fraction_size, lowest_exponent.
  pose proof (digits2_pos_bounds m) as Hd.
  set (d := Zpos (digits2_pos m)) in *. assert (Hdp : d ≤ prec) by lia.
  replace (2 * 2 ^ (prec - 1)) with (2 ^ prec) by (rewrite <- Z.pow_succ_r by lia; f_equal; lia).
  split; [|split; [lia|]].
  - apply Z.lt_le_trans with (2 ^ d); [lia|]. apply Z.pow_le_mono_r; lia.
  - destruct (decide (e = 3 - emax - prec)) as [|Hne]; [by left|right].
    assert (d = prec) as Hd' by lia. rewrite Hd' in Hd. lia.
Qed.

Lemma fraction_size_bounds : 2 ≤ fraction_size ∧ fraction_size = 2 * (fraction_size / 2).
Proof using Hprec.
  unfold fraction_size. replace (prec - 1) with (Z.succ (prec - 2)) by lia.
  rewrite Z.pow_succ_r by lia. rewrite Z.mul_comm, Z.div_mul by lia.
  assert (0 < 2 ^ (prec - 2)) by (apply Z.pow_pos_nonneg; lia). lia.
Qed.

(** The three fields of a pattern read back. *)
Lemma float_fields s exponent fraction :
  0 ≤ exponent < 2 * emax → 0 ≤ fraction < fraction_size →
  float_from_bits (sign_part s + (exponent * fraction_size + fraction)) =
  magnitude_of_bits s exponent fraction.
Proof using Hprec Hemax.
  intros He Hf. unfold float_from_bits. set (r := exponent * fraction_size + fraction).
  assert (Hr : 0 ≤ r < sign_weight) by (unfold r, sign_weight; nia).
  assert (Hmod : (sign_part s + r) mod sign_weight = r).
  { destruct s; unfold sign_part.
    - rewrite Z.add_comm, <- (Z.mul_1_l sign_weight) at 1. rewrite Z.mod_add by lia. by apply Z.mod_small.
    - by apply Z.mod_small. }
  assert (Hs : (sign_weight <=? sign_part s + r) = s).
  { destruct s; unfold sign_part; [apply Z.leb_le|apply Z.leb_gt]; lia. }
  rewrite Hmod, Hs. unfold r. f_equal.
  - rewrite Z.add_comm, Z.div_add by lia. rewrite Z.div_small by lia. lia.
  - rewrite Z.add_comm, Z.mod_add by lia. by apply Z.mod_small.
Qed.

Lemma float_from_to_bits f : valid_binary prec emax f = true → float_from_bits (float_to_bits f) = f.
Proof using Hprec Hemax.
  intros Hv. pose proof fraction_size_bounds as [Hf2 Hfh]. destruct f as [s|s| |s m e].
  - cbn [float_to_bits]. replace (sign_part s) with (sign_part s + (0 * fraction_size + 0)) by lia.
    rewrite float_fields by lia. done.
  - cbn [float_to_bits].
    replace ((2 * emax - 1) * fraction_size) with ((2 * emax - 1) * fraction_size + 0) by lia.
    rewrite float_fields by lia. unfold magnitude_of_bits.
    rewrite (proj2 (Z.eqb_neq _ 0)), Z.eqb_refl by lia. done.
  - cbn [float_to_bits]. change ((2 * emax - 1) * fraction_size + fraction_size / 2) with
      (sign_part false + ((2 * emax - 1) * fraction_size + fraction_size / 2)).
    rewrite float_fields by lia. unfold magnitude_of_bits.
    rewrite (proj2 (Z.eqb_neq _ 0)), Z.eqb_refl by lia. rewrite (proj2 (Z.eqb_neq _ 0)) by lia. done.
  - apply finite_parts in Hv as (Hm & He & Hs). cbn [float_to_bits]. unfold lowest_exponent in *.
    destruct (Z.ltb_spec (Zpos m) fraction_size) as [Hlt|Hge].
    + destruct Hs as [->|Hs]; [|lia].
      transitivity (magnitude_of_bits s 0 (Zpos m)); [|done].
      by rewrite <- float_fields by lia.
    + rewrite float_fields by lia. unfold magnitude_of_bits.
      rewrite (proj2 (Z.eqb_neq _ 0)), (proj2 (Z.eqb_neq _ (2 * emax - 1))) by lia.
      replace (Zpos m - fraction_size + fraction_size) with (Zpos m) by lia.
      unfold lowest_exponent. f_equal. lia.
Qed.

Lemma float_to_bits_bound f : valid_binary prec emax f = true → 0 ≤ float_to_bits f < 2 * sign_weight.
Proof using Hprec Hemax.
  intros Hv. pose proof fraction_size_bounds as [Hf2 Hfh].
  assert (Hp : ∀ s n, 0 ≤ n < sign_weight → 0 ≤ sign_part s + n < 2 * sign_weight)
    by (intros [] n; unfold sign_part; lia).
  unfold sign_weight in *. destruct f as [s|s| |s m e]; cbn [float_to_bits].
  - replace (sign_part s) with (sign_part s + 0) by lia. apply Hp. nia.
  - apply Hp. nia.
  - clear Hp. set (h := fraction_size / 2) in *. assert (0 ≤ (2 * emax - 1) * fraction_size) by nia.
    assert (2 * emax * fraction_size = (2 * emax - 1) * fraction_size + fraction_size) by lia. lia.
  - apply Hp. apply finite_parts in Hv as (Hm & He & Hs). unfold lowest_exponent in *.
    destruct (Z.ltb_spec (Zpos m) fraction_size); nia.
Qed.

(** A pattern is a number of the format. *)
Lemma float_from_bits_valid bits :
  0 ≤ bits < 2 * sign_weight → valid_binary prec emax (float_from_bits bits) = true.
Proof using Hprec Hemax.
  intros Hb. pose proof fraction_size_bounds as [Hf2 Hfh]. unfold float_from_bits.
  set (r := bits mod sign_weight).
  assert (Hr : 0 ≤ r < sign_weight) by (apply Z.mod_pos_bound; unfold sign_weight; nia).
  assert (Hq : 0 ≤ r / fraction_size < 2 * emax).
  { split; [apply Z.div_pos; lia|]. apply Z.div_lt_upper_bound; [lia|]. unfold sign_weight in Hr. lia. }
  assert (Hm : 0 ≤ r mod fraction_size < fraction_size) by (apply Z.mod_pos_bound; lia).
  generalize (sign_weight <=? bits). revert Hq Hm. generalize (r / fraction_size), (r mod fraction_size).
  intros ex fr Hq Hm s. unfold magnitude_of_bits.
  destruct (Z.eqb_spec ex 0) as [->|Hne].
  - destruct fr as [|m|]; [done| |done]. cbn [valid_binary]. unfold bounded, canonical_mantissa, fexp, emin.
    apply andb_true_iff. split; [|apply Z.leb_le; unfold lowest_exponent; lia].
    apply Z.eqb_eq. unfold lowest_exponent. pose proof (digits2_pos_bounds m) as Hdig.
    assert (Zpos (digits2_pos m) ≤ prec - 1); [|lia].
    apply Z.lt_pred_le. apply (Z.pow_lt_mono_r_iff 2); [lia|lia|].
    unfold fraction_size in Hm. rewrite Z.sub_1_r in Hdig. lia.
  - destruct (Z.eqb_spec ex (2 * emax - 1)); [by destruct (fr =? 0)|].
    destruct (fr + fraction_size) as [|m|] eqn:Hfr; [done| |done].
    cbn [valid_binary]. unfold bounded, canonical_mantissa, fexp, emin.
    apply andb_true_iff. split; [|apply Z.leb_le; unfold lowest_exponent; lia].
    apply Z.eqb_eq. unfold lowest_exponent. pose proof (digits2_pos_bounds m) as Hdig. unfold fraction_size in *.
    assert (Zpos (digits2_pos m) = prec); [|lia].
    assert (prec - 1 < Zpos (digits2_pos m)) by (apply (Z.pow_lt_mono_r_iff 2); lia).
    assert (Zpos (digits2_pos m) - 1 < prec); [|lia].
    apply (Z.pow_lt_mono_r_iff 2); [lia|lia|].
    replace (2 ^ prec) with (2 * 2 ^ (prec - 1)) by (rewrite <- Z.pow_succ_r by lia; f_equal; lia). lia.
Qed.
End floats.
