(* ===== verification/Crc.v ===== *)
(** * The checksum of the on-disk formats

    [vauban-storage/src/disk/crc.rs]: CRC-32 by a table of 256 entries, over one slice or over
    several.  The lemmas give the meaning of the table (it is the register shifted bit by bit)
    and what the checksum detects. *)

From stdpp Require Import list_numbers.
From S2P Require Import Prelude Bytes.

#[local] Open Scope Z_scope.

Definition POLYNOMIAL : Z := 3988292384. (* 0xEDB8_8320 *)
Definition SEED : Z := 4294967295.
Definition TABLE_LEN : Z := 256.

(** The body of the inner loop of [build_table]. *)
Definition shift_bit (remainder : Z) : Z :=
  if Z.land remainder 1 =? 1 then Z.lxor (Z.shiftr remainder 1) POLYNOMIAL else Z.shiftr remainder 1.

Definition table_entry (byte : Z) : Z := Nat.iter 8 shift_bit byte.

Definition build_table : list Z := table_entry <$> seqZ 0 TABLE_LEN.

Definition TABLE : list Z := Eval vm_compute in build_table.

(** [Crc32]: the register. *)
Definition Crc32_new : Z := SEED.

(** The body of the loop of [Crc32::update]. *)
Definition update_byte (register byte : Z) : Z :=
  let index := Z.land (Z.lxor register byte) 255 in
  Z.lxor (Z.shiftr register 8) (nth (Z.to_nat index) TABLE 0).

Definition update (register : Z) (bytes : list Z) : Z := foldl update_byte register bytes.

Definition finish (register : Z) : Z := Z.lxor register SEED.

Definition crc32 (bytes : list Z) : Z := finish (update Crc32_new bytes).

(** The check value of the parameters: the checksum of [123456789]. *)
Example crc32_check_value : crc32 [49; 50; 51; 52; 53; 54; 55; 56; 57] = 3421780262.
Proof. reflexivity. Qed.

(** ** The register *)

Definition is_u32 (x : Z) : Prop := 0 ≤ x < 2 ^ 32.

(** The checksum defined bit by bit: each byte is added to the low end of the register, which
    is then shifted out through the polynomial. *)
Definition bitwise_byte (register byte : Z) : Z := Nat.iter 8 shift_bit (Z.lxor register byte).
Definition bitwise_crc32 (bytes : list Z) : Z :=
  Z.lxor (foldl bitwise_byte SEED bytes) SEED.

Lemma lxor_bound k a b : 0 ≤ k → 0 ≤ a < 2 ^ k → 0 ≤ b < 2 ^ k → 0 ≤ Z.lxor a b < 2 ^ k.
Proof.
  intros Hk Ha Hb. assert (H0 : 0 ≤ Z.lxor a b) by (apply Z.lxor_nonneg; lia). split; [done|].
  apply Z.bounded_iff_bits_nonneg; [done..|]. intros l Hl. rewrite Z.lxor_spec.
  rewrite (proj1 (Z.bounded_iff_bits_nonneg k a Hk ltac:(lia)) ltac:(lia) l Hl).
  by rewrite (proj1 (Z.bounded_iff_bits_nonneg k b Hk ltac:(lia)) ltac:(lia) l Hl).
Qed.

Lemma land_1 x : (Z.land x 1 =? 1) = Z.odd x.
Proof.
  change 1 with (Z.ones 1) at 1. rewrite Z.land_ones, Z.pow_1_r, Zmod_odd by lia.
  by destruct (Z.odd x).
Qed.

Lemma shift_bit_bound x : is_u32 x → is_u32 (shift_bit x).
Proof.
  intros Hx. unfold is_u32 in *. unfold shift_bit.
  assert (Hs : 0 ≤ Z.shiftr x 1 < 2 ^ 32).
  { rewrite Z.shiftr_div_pow2, Z.pow_1_r by lia. Z.to_euclidean_division_equations. lia. }
  destruct (_ =? _); [|done]. apply lxor_bound; [lia|done|]. unfold POLYNOMIAL. lia.
Qed.

(** The bit shifted out comes back at the top, so the shift loses nothing. *)
Lemma shift_bit_inj x y : is_u32 x → is_u32 y → shift_bit x = shift_bit y → x = y.
Proof.
  unfold is_u32, shift_bit. rewrite !land_1. intros Hx Hy He.
  assert (Htop : ∀ z, 0 ≤ z < 2 ^ 32 → Z.testbit (Z.shiftr z 1) 31 = false).
  { intros z Hz. rewrite Z.shiftr_spec by lia. apply (Z.bounded_iff_bits_nonneg 32); lia. }
  assert (Hsh : Z.shiftr x 1 = Z.shiftr y 1 → Z.odd x = Z.odd y → x = y).
  { intros H1 H2. rewrite <- !Z.div2_spec in H1. rewrite (Zdiv2_odd_eqn x), (Zdiv2_odd_eqn y).
    by rewrite H1, H2. }
  destruct (Z.odd x), (Z.odd y).
  - apply Hsh; [|done]. apply (f_equal (λ z, Z.lxor z POLYNOMIAL)) in He.
    by rewrite !Z.lxor_assoc, Z.lxor_nilpotent, !Z.lxor_0_r in He.
  - apply (f_equal (λ z, Z.testbit z 31)) in He. rewrite Z.lxor_spec, !Htop in He by done. done.
  - apply (f_equal (λ z, Z.testbit z 31)) in He. rewrite Z.lxor_spec, !Htop in He by done. done.
  - by apply Hsh.
Qed.

Lemma iter_shift_bound n x : is_u32 x → is_u32 (Nat.iter n shift_bit x).
Proof. intros Hx. induction n as [|n IH]; [done|]. by apply shift_bit_bound. Qed.

Lemma iter_shift_inj n x y :
  is_u32 x → is_u32 y → Nat.iter n shift_bit x = Nat.iter n shift_bit y → x = y.
Proof.
  intros Hx Hy. induction n as [|n IH]; [done|]. intros He. apply IH.
  apply shift_bit_inj; [by apply iter_shift_bound..|done].
Qed.

(** The shift is linear over the bits. *)
Lemma shift_bit_lxor x y : shift_bit (Z.lxor x y) = Z.lxor (shift_bit x) (shift_bit y).
Proof.
  unfold shift_bit. rewrite !land_1, <- !Z.bit0_odd, Z.lxor_spec, Z.shiftr_lxor.
  apply Z.bits_inj'. intros n Hn. destruct (Z.testbit x 0), (Z.testbit y 0); simpl;
    rewrite ?Z.lxor_spec; repeat destruct (Z.testbit _ n); done.
Qed.

Lemma iter_shift_lxor n x y :
  Nat.iter n shift_bit (Z.lxor x y) = Z.lxor (Nat.iter n shift_bit x) (Nat.iter n shift_bit y).
Proof. induction n as [|n IH]; [done|]. simpl. by rewrite IH, shift_bit_lxor. Qed.

(** Zeros at the low end are shifted out as they are. *)
Lemma iter_shift_shiftl n x : Nat.iter n shift_bit (Z.shiftl x (Z.of_nat n)) = x.
Proof.
  revert x. induction n as [|n IH]; intros x; [apply Z.shiftl_0_r|].
  rewrite Nat.iter_succ_r. replace (shift_bit (Z.shiftl x (Z.of_nat (S n)))) with (Z.shiftl x (Z.of_nat n)); [apply IH|].
  rewrite Nat2Z.inj_succ. unfold shift_bit. rewrite land_1, <- Z.bit0_odd, Z.shiftl_spec_low by lia.
  rewrite Z.shiftr_shiftl_l by lia. f_equal. lia.
Qed.

Lemma table_lookup i : 0 ≤ i < 256 → nth (Z.to_nat i) TABLE 0 = table_entry i.
Proof.
  intros Hi. replace TABLE with build_table by (vm_compute; reflexivity).
  apply nth_lookup_Some. unfold build_table.
  rewrite list_lookup_fmap, lookup_seqZ_lt by (unfold TABLE_LEN; lia). simpl. do 2 f_equal. lia.
Qed.

Lemma lxor_split x k : 0 ≤ k → x = Z.lxor (Z.shiftl (Z.shiftr x k) k) (Z.land x (Z.ones k)).
Proof.
  intros Hk. apply Z.bits_inj'. intros n Hn. rewrite Z.lxor_spec, Z.land_spec, Z.shiftl_spec by lia.
  destruct (Z.lt_ge_cases n k).
  - rewrite (Z.testbit_neg_r _ (n - k)), Z.ones_spec_low by lia. by rewrite andb_true_r.
  - rewrite Z.ones_spec_high, andb_false_r, xorb_false_r by lia. rewrite Z.shiftr_spec by lia.
    f_equal. lia.
Qed.

(** The table does what eight shifts do. *)
Lemma update_byte_bitwise r b : is_u32 r → is_byte b → update_byte r b = bitwise_byte r b.
Proof.
  intros Hr Hb. unfold is_u32, is_byte in *. unfold update_byte, bitwise_byte.
  assert (Hi : 0 ≤ Z.land (Z.lxor r b) 255 < 256).
  { change 255 with (Z.ones 8). rewrite Z.land_ones by lia. by apply Z.mod_pos_bound. }
  rewrite table_lookup by done. unfold table_entry.
  rewrite (lxor_split (Z.lxor r b) 8) at 2 by lia. rewrite iter_shift_lxor, (iter_shift_shiftl 8).
  change (Z.ones 8) with 255. f_equal. rewrite Z.shiftr_lxor.
  replace (Z.shiftr b 8) with 0; [by rewrite Z.lxor_0_r|].
  rewrite Z.shiftr_div_pow2 by lia. symmetry. by apply Z.div_small.
Qed.

Lemma bitwise_byte_bound r b : is_u32 r → is_byte b → is_u32 (bitwise_byte r b).
Proof.
  intros Hr Hb. apply iter_shift_bound. unfold is_u32, is_byte in *. apply lxor_bound; lia.
Qed.

Lemma update_bitwise r bytes :
  is_u32 r → Forall is_byte bytes →
  update r bytes = foldl bitwise_byte r bytes ∧ is_u32 (foldl bitwise_byte r bytes).
Proof.
  intros Hr Hb. revert r Hr. induction Hb as [|b bytes Hb _ IH]; intros r Hr; [done|].
  unfold update. simpl. rewrite update_byte_bitwise by done. apply IH. by apply bitwise_byte_bound.
Qed.

Lemma seed_u32 : is_u32 SEED.
Proof. unfold is_u32, SEED. lia. Qed.

Lemma crc32_bitwise bytes : Forall is_byte bytes → crc32 bytes = bitwise_crc32 bytes ∧ is_u32 (crc32 bytes).
Proof.
  intros Hb. unfold crc32, bitwise_crc32, finish, Crc32_new.
  destruct (update_bitwise SEED bytes seed_u32 Hb) as [-> Hr]. split; [done|].
  unfold is_u32 in *. apply lxor_bound; [lia|done|apply seed_u32].
Qed.

Lemma update_app r a b : update r (a ++ b) = update (update r a) b.
Proof. apply foldl_app. Qed.

(** ** What the checksum detects *)

(** The register after a block of bytes: the bytes added as one little-endian integer, then
    shifted out together. *)
Lemma bitwise_block r bytes :
  Forall is_byte bytes →
  foldl bitwise_byte r bytes =
  Nat.iter (8 * length bytes) shift_bit (Z.lxor r (from_le_bytes bytes)).
Proof.
  intros Hb. revert r. induction Hb as [|b bytes Hb Hbs IH]; intros r.
  { unfold from_le_bytes. simpl. by rewrite Z.lxor_0_r. }
  cbn [foldl]. rewrite IH. cbn [length]. rewrite Nat.mul_succ_r, Nat.iter_add. f_equal.
  unfold bitwise_byte, from_le_bytes. cbn [little_endian_to_Z]. fold (from_le_bytes bytes).
  replace (Z.lor b (from_le_bytes bytes ≪ 8)) with (Z.lxor b (Z.shiftl (from_le_bytes bytes) 8)).
  - pose proof (iter_shift_shiftl 8 (from_le_bytes bytes)) as Hs. change (Z.of_nat 8) with 8 in Hs.
    by rewrite <- Z.lxor_assoc, (iter_shift_lxor _ (Z.lxor r b)), Hs.
  - unfold is_byte in Hb. apply Z.bits_inj'. intros n Hn. rewrite Z.lxor_spec, Z.lor_spec.
    destruct (Z.lt_ge_cases n 8).
    + rewrite Z.shiftl_spec_low by lia. by rewrite xorb_false_r, orb_false_r.
    + rewrite (proj1 (Z.bounded_iff_bits_nonneg 8 b ltac:(lia) ltac:(lia)) ltac:(lia) n) by lia. done.
Qed.

(** From two registers that differ, the same bytes lead to two registers that differ. *)
Lemma bitwise_inj_register bytes r r' :
  Forall is_byte bytes → is_u32 r → is_u32 r' →
  foldl bitwise_byte r bytes = foldl bitwise_byte r' bytes → r = r'.
Proof.
  intros Hb. revert r r'. induction Hb as [|b bytes Hb _ IH]; intros r r' Hr Hr'; [done|].
  simpl. intros He. apply IH in He; [|by apply bitwise_byte_bound..].
  apply iter_shift_inj in He; [|unfold is_u32, is_byte in *; apply lxor_bound; lia..].
  apply (f_equal (λ z, Z.lxor z b)) in He.
  by rewrite !Z.lxor_assoc, Z.lxor_nilpotent, !Z.lxor_0_r in He.
Qed.

(** Four consecutive bytes cannot change without the checksum changing. *)
Lemma crc32_detects a b b' c :
  Forall is_byte a → Forall is_byte b → Forall is_byte b' → Forall is_byte c →
  length b = length b' → (length b ≤ 4)%nat →
  crc32 (a ++ b ++ c) = crc32 (a ++ b' ++ c) → b = b'.
Proof.
  intros Ha Hb Hb' Hc Hlen H4 He.
  unfold crc32, finish in He. apply (f_equal (λ z, Z.lxor z SEED)) in He.
  rewrite !Z.lxor_assoc, Z.lxor_nilpotent, !Z.lxor_0_r in He.
  unfold Crc32_new in He. rewrite !update_app in He.
  destruct (update_bitwise SEED a seed_u32 Ha) as [Hra Hr]. rewrite Hra in He.
  set (r := foldl bitwise_byte SEED a) in *.
  destruct (update_bitwise r b Hr Hb) as [E1 B1]. destruct (update_bitwise r b' Hr Hb') as [E2 B2].
  rewrite E1, E2 in He. rewrite (proj1 (update_bitwise _ c B1 Hc)), (proj1 (update_bitwise _ c B2 Hc)) in He.
  apply bitwise_inj_register in He; [|done..].
  rewrite !bitwise_block in He by done. rewrite Hlen in He.
  assert (Hfit : ∀ l, Forall is_byte l → (length l ≤ 4)%nat → is_u32 (Z.lxor r (from_le_bytes l))).
  { intros l Hl Hle. unfold is_u32. apply lxor_bound; [lia|done|].
    apply from_le_bytes_bound in Hl. unfold unsigned_fits in Hl. split; [lia|].
    apply Z.lt_le_trans with (1 := proj2 Hl). apply Z.pow_le_mono_r; lia. }
  apply iter_shift_inj in He; [|apply Hfit; done || lia..].
  apply (f_equal (λ z, Z.lxor r z)) in He.
  rewrite <- !Z.lxor_assoc, Z.lxor_nilpotent, !Z.lxor_0_l in He.
  rewrite <- (to_from_le_bytes b), <- (to_from_le_bytes b') by done. by rewrite He, Hlen.
Qed.

(** * Bytes sealed by a checksum

    Pages and the control file hold the CRC-32 of their own bytes at a fixed offset, the four
    bytes of that field read as zero.  What the two formats share: the checksum does not look
    at its own field, and a change of at most four consecutive bytes breaks the seal. *)

#[local] Open Scope Z_scope.

Lemma splice_split {A} at_ (new l : list A) :
  (at_ + length new ≤ length l)%nat → l = take at_ l ++ slice at_ (length new) l ++ drop (at_ + length new) l.
Proof. intros Hle. unfold slice. rewrite <- drop_drop, take_drop. by rewrite take_drop. Qed.

Lemma splice_comm {A} a b (x y l : list A) :
  (a + length x ≤ length l)%nat → (b + length y ≤ length l)%nat →
  (a + length x ≤ b ∨ b + length y ≤ a)%nat → splice a x (splice b y l) = splice b y (splice a x l).
Proof.
  intros Ha Hb Hd. apply list_eq. intros i.
  rewrite !lookup_splice by (rewrite ?length_splice by done; done).
  repeat case_decide; try done; lia.
Qed.

Lemma splice_cover {A} a b (x y l : list A) :
  (b + length y ≤ length l)%nat → (a + length x ≤ length l)%nat →
  (a ≤ b)%nat → (b + length y ≤ a + length x)%nat → splice a x (splice b y l) = splice a x l.
Proof.
  intros Hb Ha H1 H2. apply list_eq. intros i.
  rewrite !lookup_splice by (rewrite ?length_splice by done; done).
  repeat case_decide; try done; lia.
Qed.

Lemma zeros_bytes : Forall is_byte [0; 0; 0; 0].
Proof. repeat (constructor; [unfold is_byte; lia|]). constructor. Qed.

Section seal.
(** The offset of the checksum field. *)
Context (o : nat).

(** The CRC-32 of [p] with the field read as zero. *)
Definition crc_around (p : list Z) : Z := crc32 (splice o [0; 0; 0; 0] p).
Definition crc_field (p : list Z) : Z := from_le_bytes (slice o 4 p).

(** The three updates of the register compute it. *)
Lemma crc_around_updates p :
  finish (update (update (update Crc32_new (take o p)) [0; 0; 0; 0]) (drop (o + 4) p)) = crc_around p.
Proof. unfold crc_around, crc32, splice. by rewrite !update_app. Qed.

Lemma crc_around_fits p : Forall is_byte p → unsigned_fits 4 (crc_around p).
Proof. intros Hb. apply crc32_bitwise, splice_Forall; [apply zeros_bytes|done]. Qed.

Lemma crc_around_field c p :
  (o + 4 ≤ length p)%nat → crc_around (splice o (to_le_bytes 4 c) p) = crc_around p.
Proof.
  intros Hl. unfold crc_around. f_equal.
  apply splice_cover; rewrite ?length_to_le_bytes; simpl; lia.
Qed.

(** Writing the checksum seals the bytes. *)
Lemma crc_sealed p :
  Forall is_byte p → (o + 4 ≤ length p)%nat →
  let q := splice o (to_le_bytes 4 (crc_around p)) p in crc_field q = crc_around q.
Proof.
  intros Hb Hl q. unfold q. rewrite crc_around_field by done. unfold crc_field.
  rewrite slice_splice by (rewrite ?length_to_le_bytes; done).
  by apply from_to_le_bytes_fits, crc_around_fits.
Qed.

Section change.
Context (p : list Z) (at_ : nat) (new : list Z).
Context (Hb : Forall is_byte p) (Hnew : Forall is_byte new) (Ho : (o + 4 ≤ length p)%nat).
Context (Hle : (at_ + length new ≤ length p)%nat) (H4 : (length new ≤ 4)%nat).
Context (Hv : crc_field p = crc_around p) (Hq : crc_field (splice at_ new p) = crc_around (splice at_ new p)).

Let old := slice at_ (length new) p.

Lemma old_length : length old = length new.
Proof using Hle. by apply length_slice. Qed.

Lemma splice_old : splice at_ old p = p.
Proof using Hle. unfold splice. rewrite old_length. symmetry. by apply splice_split. Qed.

(** Bytes changed outside the checksum. *)
Lemma outside_undetected : (at_ + length new ≤ o ∨ o + 4 ≤ at_)%nat → old = new.
Proof using Hb Hv Hnew Ho Hle H4 Hq.
  intros Hw. pose proof old_length as Hol. pose proof Hq as Hq'. unfold crc_field in Hq'.
  rewrite slice_splice_other in Hq' by lia. fold (crc_field p) in Hq'.
  rewrite Hv, <- splice_old in Hq' at 1. unfold crc_around in Hq'.
  rewrite !(splice_comm o at_) in Hq' by (rewrite ?Hol; simpl; lia).
  unfold splice at 1 3 in Hq'. rewrite Hol in Hq'.
  assert (Hz : Forall is_byte (splice o [0; 0; 0; 0] p)) by (apply splice_Forall; [apply zeros_bytes|done]).
  apply crc32_detects in Hq'; [done|by apply Forall_take|by apply slice_Forall|done|by apply Forall_drop|done|lia].
Qed.

(** Bytes changed inside it. *)
Lemma inside_undetected : (o ≤ at_ ∧ at_ + length new ≤ o + 4)%nat → old = new.
Proof using Hb Hv Hnew Ho Hle H4 Hq.
  intros [Hw1 Hw2]. pose proof Hq as Hq'. unfold crc_around in Hq'.
  rewrite splice_cover in Hq' by (simpl; lia). fold (crc_around p) in Hq'. rewrite <- Hv in Hq'.
  unfold crc_field in Hq'.
  assert (Hs : slice o 4 (splice at_ new p) = slice o 4 p).
  { rewrite <- (to_from_le_bytes (slice o 4 (splice at_ new p))) by (by apply slice_Forall, splice_Forall).
    rewrite Hq', length_slice by (rewrite length_splice; lia).
    rewrite <- (length_slice o 4 p Ho) at 1. by apply to_from_le_bytes, slice_Forall. }
  apply (f_equal (slice (at_ - o) (length new))) in Hs.
  rewrite !slice_slice in Hs by lia. replace (o + (at_ - o))%nat with at_ in Hs by lia.
  by rewrite slice_splice in Hs.
Qed.

(** A change that keeps the seal changes nothing. *)
Lemma sealed_change :
  (at_ + length new ≤ o ∨ o + 4 ≤ at_ ∨ (o ≤ at_ ∧ at_ + length new ≤ o + 4))%nat → splice at_ new p = p.
Proof using Hb Hv Hnew Ho Hle H4 Hq.
  intros Hw. rewrite <- splice_old at 2. f_equal. symmetry.
  destruct Hw as [Hw|[Hw|Hw]]; [apply outside_undetected|apply outside_undetected|apply inside_undetected]; auto.
Qed.
End change.
End seal.
