(* ===== verification/Snapshot.v ===== *)
(** * Snapshots and the visibility rule

    [vauban-storage/src/snapshot.rs]: the fate of a transaction, what a reading transaction
    may see, and the two predicates every storage and the transaction manager share. *)

From S2P Require Import Prelude Errors.

Inductive TxnStatus := InProgress | Committed | Aborted.

#[export] Instance TxnStatus_eq_dec : EqDecision TxnStatus.
Proof. solve_decision. Defined.

Record Snapshot := mkSnapshot {
  xmin : TxnId;
  xmax : TxnId;
  active : list TxnId;
  own : TxnId;
}.

#[export] Instance Snapshot_eq_dec : EqDecision Snapshot.
Proof. solve_decision. Defined.

Definition is_settled (s : Snapshot) (t : TxnId) (status : TxnId → TxnStatus) : bool :=
  bool_decide (t = own s) ||
  ((t <? xmax s)%N && negb (bool_decide (t ∈ active s)) &&
   bool_decide (status t = Committed)).

Definition is_visible (s : Snapshot) (vmin : TxnId) (vmax : option TxnId)
    (status : TxnId → TxnStatus) : bool :=
  is_settled s vmin status &&
  negb (match vmax with Some x => is_settled s x status | None => false end).

(** ** Reading the rule *)

Lemma is_settled_spec s t status :
  is_settled s t status = true ↔
  t = own s ∨ ((t < xmax s)%N ∧ t ∉ active s ∧ status t = Committed).
Proof.
  unfold is_settled. rewrite orb_true_iff, !andb_true_iff, negb_true_iff, N.ltb_lt.
  rewrite !bool_decide_eq_true, bool_decide_eq_false. tauto.
Qed.

Lemma is_visible_spec s vmin vmax status :
  is_visible s vmin vmax status = true ↔
  is_settled s vmin status = true ∧
  ∀ x, vmax = Some x → is_settled s x status = false.
Proof.
  unfold is_visible. rewrite andb_true_iff, negb_true_iff. destruct vmax; naive_solver.
Qed.

(** The transactions a snapshot never settles, whatever becomes of them: those it lists as
    active and those assigned after it, its own apart. *)
Definition unseen (s : Snapshot) (t : TxnId) : Prop :=
  t ≠ own s ∧ ((xmax s ≤ t)%N ∨ t ∈ active s).

#[export] Instance unseen_dec s t : Decision (unseen s t).
Proof. unfold unseen. apply _. Defined.

Lemma unseen_not_settled s t status : unseen s t → is_settled s t status = false.
Proof.
  intros [Hown Hu]. apply not_true_iff_false. rewrite is_settled_spec.
  intros [?|(Hlt & Ha & _)]; [done|]. destruct Hu; [lia|done].
Qed.

(** A snapshot settles the same transactions under two registries that agree on the
    transactions it can see. *)
Lemma is_settled_ext s t status status' :
  (¬ unseen s t → (status t = Committed ↔ status' t = Committed)) →
  is_settled s t status = is_settled s t status'.
Proof.
  intros Hst. destruct (decide (unseen s t)) as [Hu|Hu].
  - by rewrite !unseen_not_settled.
  - apply eq_bool_prop_intro. rewrite !Is_true_true, !is_settled_spec.
    specialize (Hst Hu). tauto.
Qed.

Lemma is_visible_ext s vmin vmax status status' :
  (∀ t, t = vmin ∨ vmax = Some t → ¬ unseen s t →
        (status t = Committed ↔ status' t = Committed)) →
  is_visible s vmin vmax status = is_visible s vmin vmax status'.
Proof.
  intros Hst. unfold is_visible. f_equal; [|f_equal; destruct vmax as [x|]; [|done]].
  all: apply is_settled_ext; eauto.
Qed.
