(* ===== verification/LockMode.v ===== *)
(** * Lock modes

    The lock modes of [vauban-txn/src/lock.rs], their strength order and the compatibility
    matrix, and the resources a lock is taken on. *)

From S2P Require Import Prelude Errors.

(** The constructors keep the names of the source, so the module is not imported. *)
Module LockMode.

Inductive t := S | X | U | IS | IX | SchS | SchM.

#[global] Instance t_eq_dec : EqDecision t.
Proof. solve_decision. Defined.

Definition below (m : t) : list t :=
  match m with
  | IS => [IS]
  | S => [IS; S]
  | U => [IS; S; U]
  | IX => [IS; IX]
  | X => [IS; S; U; IX; X]
  | SchS => [SchS]
  | SchM => [SchS; SchM]
  end.

Definition covers (m other : t) : bool := bool_decide (other ∈ below m).

Definition is_data (m : t) : bool :=
  match m with SchS | SchM => false | _ => true end.

Definition join (m other : t) : t :=
  if covers m other then m
  else if covers other m then other
  else if is_data m && is_data other then X
  else SchM.

Definition compatible_with (m held : t) : bool :=
  match m, held with
  | SchM, _ | _, SchM => false
  | SchS, _ | _, SchS => true
  | X, _ | _, X => false
  | IS, _ | _, IS => true
  | U, U => false
  | S, U | U, S => true
  | S, S => true
  | IX, IX => true
  | IX, _ | _, IX => false
  end.

Definition short_name (m : t) : string :=
  match m with
  | S => "S" | X => "X" | U => "U" | IS => "IS" | IX => "IX"
  | SchS => "Sch-S" | SchM => "Sch-M"
  end.

End LockMode.
Notation LockMode := LockMode.t.

Inductive LockResource :=
  | Row (table : TableId) (row : RowId)
  | Table (table : TableId).

#[export] Instance LockResource_eq_dec : EqDecision LockResource.
Proof. solve_decision. Defined.

#[export] Instance LockResource_countable : Countable LockResource.
Proof.
  refine (inj_countable'
    (λ r, match r with Row t i => inl (t, i) | Table t => inr t end)
    (λ c, match c with inl (t, i) => Row t i | inr t => Table t end) _).
  by intros [].
Defined.

(** The derived [Ord]: the rows first, then the tables, each by its identifiers. *)
Definition res_le (a b : LockResource) : Prop :=
  match a, b with
  | Row t i, Row t' i' => (t < t')%N ∨ (t = t' ∧ (i ≤ i')%N)
  | Row _ _, Table _ => True
  | Table _, Row _ _ => False
  | Table t, Table t' => (t ≤ t')%N
  end.

#[export] Instance res_le_dec a b : Decision (res_le a b).
Proof. destruct a, b; simpl; apply _. Defined.
#[export] Instance res_le_trans : Transitive res_le.
Proof. intros [] [] []; simpl; intuition lia. Qed.
#[export] Instance res_le_total : Total res_le.
Proof. intros [] []; unfold strict; simpl; lia. Qed.
#[export] Instance res_le_antisymm : AntiSymm (=) res_le.
Proof. intros [] []; simpl; try done; intros; f_equal; lia. Qed.

(** [LockResource::resource_kind]. *)
Definition resource_kind (r : LockResource) : string :=
  match r with Row _ _ => "ROW" | Table _ => "OBJECT" end.

(** ** The strength order and the matrix *)

Section LockMode_facts.
Import LockMode.
Implicit Types a b c : LockMode.

Lemma covers_refl a : covers a a = true.
Proof. by destruct a. Qed.

Lemma covers_trans a b c : covers a b = true → covers b c = true → covers a c = true.
Proof. by destruct a, b, c. Qed.

Lemma covers_family a b : covers a b = true → is_data a = is_data b.
Proof. by destruct a, b. Qed.

Lemma join_family a b : is_data a = is_data b → is_data (join a b) = is_data a.
Proof. by destruct a, b. Qed.

Lemma compatible_comm a b : compatible_with a b = compatible_with b a.
Proof. by destruct a, b. Qed.

Lemma covers_compatible a b c :
  covers a b = true → compatible_with a c = true → compatible_with b c = true.
Proof. by destruct a, b, c. Qed.

Lemma join_covers_l a b : is_data a = is_data b → covers (join a b) a = true.
Proof. by destruct a, b. Qed.

Lemma join_covers_r a b : is_data a = is_data b → covers (join a b) b = true.
Proof. by destruct a, b. Qed.

Lemma join_least a b c :
  is_data a = is_data b → covers c a = true → covers c b = true →
  covers c (join a b) = true.
Proof. by destruct a, b, c. Qed.
End LockMode_facts.
