(* ===== verification/LockTable.v ===== *)
(** * The lock table

    The data behind the mutex of the lock manager ([vauban-txn/src/lock.rs]): the holders and
    the queue of each resource, and the operations the manager runs on them while it holds
    the mutex.  The last part proves that every operation keeps the table well formed. *)

From S2P Require Import Prelude Errors LockMode.

(** ** Data *)

Record Holder := mkHolder { h_txn : TxnId; h_mode : LockMode }.

(** [since] is the reading of the monotonic clock when the request joined the queue. *)
Record Waiter := mkWaiter {
  ticket : N;
  w_txn : TxnId;
  w_mode : LockMode;
  conversion : bool;
  since : N;
}.

Record Entry := mkEntry { holders : list Holder; queue : list Waiter }.

Definition Entry_default : Entry := mkEntry [] [].

Inductive Request :=
  | Reentrant
  | Queued (ticket : N).

Record LockTable := mkLockTable {
  entries : gmap LockResource Entry;
  next_ticket : N;
  granted : list N;
}.

Definition LockTable_default : LockTable := mkLockTable ∅ 0 [].

#[export] Instance Holder_eq_dec : EqDecision Holder.
Proof. solve_decision. Defined.
#[export] Instance Waiter_eq_dec : EqDecision Waiter.
Proof. solve_decision. Defined.
#[export] Instance Entry_eq_dec : EqDecision Entry.
Proof. solve_decision. Defined.

(** ** [impl Entry] *)

(** The lock of [txn] in the family of [mode]. *)
Definition same_lock (txn : TxnId) (mode : LockMode) (h : Holder) : Prop :=
  h_txn h = txn ∧ LockMode.is_data (h_mode h) = LockMode.is_data mode.

#[export] Instance same_lock_dec txn mode h : Decision (same_lock txn mode h).
Proof. unfold same_lock. apply _. Defined.

Definition holder_of (e : Entry) (txn : TxnId) (mode : LockMode) : option (nat * LockMode) :=
  prod_map id h_mode <$> list_find (same_lock txn mode) (holders e).

Definition holders_allow (hs : list Holder) (txn : TxnId) (mode : LockMode) : bool :=
  forallb (λ h, bool_decide (h_txn h = txn) || LockMode.compatible_with mode (h_mode h)) hs.

Definition grant_to (hs : list Holder) (txn : TxnId) (mode : LockMode) : list Holder :=
  match list_find (same_lock txn mode) hs with
  | Some (pos, _) => alter (λ h, mkHolder (h_txn h) mode) pos hs
  | None => hs ++ [mkHolder txn mode]
  end.

Definition Entry_is_empty (e : Entry) : bool :=
  match holders e, queue e with [], [] => true | _, _ => false end.

(** ** [impl LockTable] *)

(** [queue.iter().take_while(|w| w.conversion).count()]. *)
Fixpoint leading_conversions (q : list Waiter) : nat :=
  match q with
  | w :: q => if conversion w then S (leading_conversions q) else 0
  | [] => 0
  end.

Definition enqueue (t : LockTable) (now : N) (txn : TxnId) (resource : LockResource)
    (mode : LockMode) : Request * LockTable :=
  let tk := next_ticket t in
  let next := saturating_succ (next_ticket t) in
  let entry := default Entry_default (entries t !! resource) in
  let put e := mkLockTable (<[resource := e]> (entries t)) next (granted t) in
  let queued asked conv :=
    let waiter := mkWaiter tk txn asked conv now in
    let q := if conv then insert_at (leading_conversions (queue entry)) waiter (queue entry)
             else queue entry ++ [waiter] in
    (Queued tk, put (mkEntry (holders entry) q)) in
  match holder_of entry txn mode with
  | Some (_, held) =>
      if LockMode.covers held mode then (Reentrant, put entry)
      else queued (LockMode.join held mode) true
  | None => queued mode false
  end.

(** The [while] loop of [grant_pass] on the holders, the queue and the granted tickets. *)
Fixpoint grant_loop (hs : list Holder) (q : list Waiter) (g : list N) :
    list Holder * list Waiter * list N :=
  match q with
  | front :: q' =>
      if holders_allow hs (w_txn front) (w_mode front)
      then grant_loop (grant_to hs (w_txn front) (w_mode front)) q' (g ++ [ticket front])
      else (hs, q, g)
  | [] => (hs, [], g)
  end.

Definition grant_pass (t : LockTable) (resource : LockResource) : LockTable :=
  match entries t !! resource with
  | None => t
  | Some e =>
      let '(hs, q, g) := grant_loop (holders e) (queue e) (granted t) in
      let e' := mkEntry hs q in
      mkLockTable
        (if Entry_is_empty e' then delete resource (entries t)
         else <[resource := e']> (entries t))
        (next_ticket t) g
  end.

Definition drop_ticket (t : LockTable) (resource : LockResource) (tk : N) : bool * LockTable :=
  match entries t !! resource with
  | None => (false, t)
  | Some e =>
      match list_find (λ w, ticket w = tk) (queue e) with
      | None => (false, t)
      | Some (pos, _) =>
          (true, mkLockTable (<[resource := mkEntry (holders e) (delete pos (queue e))]> (entries t))
                   (next_ticket t) (granted t))
      end
  end.

Definition take_granted (t : LockTable) (tk : N) : bool * LockTable :=
  match list_find (λ g, g = tk) (granted t) with
  | Some (pos, _) => (true, mkLockTable (entries t) (next_ticket t) (delete pos (granted t)))
  | None => (false, t)
  end.

(** The table listings, resource by resource in the order of the resources. *)
Definition list_holders (t : LockTable) : list (TxnId * LockResource * LockMode) :=
  sorted_entries res_le (entries t) ≫= λ re, (λ h, (h_txn h, re.1, h_mode h)) <$> holders re.2.

Definition list_waiters (t : LockTable) : list (TxnId * LockResource * LockMode) :=
  sorted_entries res_le (entries t) ≫= λ re, (λ w, (w_txn w, re.1, w_mode w)) <$> queue re.2.

(** [LockManager::give_up_wait], on the table. *)
Definition give_up_wait (t : LockTable) (resource : LockResource) (tk : N) : LockTable :=
  match drop_ticket t resource tk with
  | (true, t') => grant_pass t' resource
  | (false, t') => t'
  end.

(** What [txn] gives back on one resource: its holders and its queued requests. *)
Definition strip (txn : TxnId) (e : Entry) : Entry :=
  mkEntry (filter (λ h, h_txn h ≠ txn) (holders e)) (filter (λ w, w_txn w ≠ txn) (queue e)).

Definition not_held (txn : TxnId) (resource : LockResource) : SqlError :=
  from_internal (Bug [Lit "LockManager::unlock: transaction "; Num txn;
    Lit " holds no lock on ";
    match resource with Row t i => Dbg "Row" [t; i] | Table t => Dbg "Table" [t] end]).

(** [LockManager::unlock], on the table. *)
Definition unlock (t : LockTable) (txn : TxnId) (resource : LockResource) :
    SqlResult () * LockTable :=
  match entries t !! resource with
  | None => (Err (not_held txn resource), t)
  | Some e =>
      if bool_decide (length (holders (strip txn e)) = length (holders e))
      then (Err (not_held txn resource), t)
      else (Ok (), grant_pass (mkLockTable (<[resource := strip txn e]> (entries t))
                                 (next_ticket t) (granted t)) resource)
  end.

Definition involves (txn : TxnId) (e : Entry) : Prop :=
  Exists (λ h, h_txn h = txn) (holders e) ∨ Exists (λ w, w_txn w = txn) (queue e).

#[export] Instance involves_dec txn e : Decision (involves txn e).
Proof. unfold involves. apply _. Defined.

(** One turn of the loop of [release_all]. *)
Definition release_one (txn : TxnId) (t : LockTable) (resource : LockResource) : LockTable :=
  grant_pass
    (match entries t !! resource with
     | Some e => mkLockTable (<[resource := strip txn e]> (entries t)) (next_ticket t) (granted t)
     | None => t
     end) resource.

(** [LockManager::release_all], on the table.  The source walks the resources in the
    iteration order of a [HashMap]; [release_all_any_order] of [LockTheorems.v] shows that the
    order does not matter. *)
Definition release_all (t : LockTable) (txn : TxnId) : LockTable :=
  let touched := (map_to_list (filter (λ re, involves txn re.2) (entries t))).*1 in
  foldl (release_one txn) t touched.

(** [LockManager::held]. *)
Definition held (t : LockTable) (txn : TxnId) : list (LockResource * LockMode) :=
  sorted_entries res_le (entries t) ≫= λ re,
    (λ h, (re.1, h_mode h)) <$> filter (λ h, h_txn h = txn) (holders re.2).

(** * The lock table is well formed

    The invariant of the lock table of [LockTable.v] and its preservation by every operation
    that runs under the mutex of the manager:

    - two transactions never hold incompatible modes on one resource;
    - a transaction holds at most one data mode and one schema mode per resource;
    - the front of a queue is refused by the holders: nobody waits for a lock it could have;
    - conversions stand ahead of the plain candidates, and belong to holders;
    - an entry is kept only while it holds or queues something;
    - tickets are never shared. *)

(** ** Holders *)

(** The two locks a transaction may have on one resource: data and schema. *)
Definition lock_key (h : Holder) : TxnId * bool := (h_txn h, LockMode.is_data (h_mode h)).

Record holders_ok (hs : list Holder) : Prop := {
  ho_compatible : ∀ h1 h2, h1 ∈ hs → h2 ∈ hs → h_txn h1 ≠ h_txn h2 →
    LockMode.compatible_with (h_mode h1) (h_mode h2) = true;
  ho_one_per_family : NoDup (lock_key <$> hs);
}.

Lemma same_lock_key txn mode h :
  same_lock txn mode h ↔ lock_key h = lock_key (mkHolder txn mode).
Proof. unfold same_lock, lock_key. simpl. split; [by intros [-> ->]|by intros [=]]. Qed.

Lemma holders_allow_spec hs txn mode :
  holders_allow hs txn mode = true ↔
  ∀ h, h ∈ hs → h_txn h ≠ txn → LockMode.compatible_with mode (h_mode h) = true.
Proof.
  unfold holders_allow. rewrite forallb_forall. setoid_rewrite <- list_elem_of_In.
  setoid_rewrite orb_true_iff. setoid_rewrite bool_decide_eq_true.
  split; intros Hall h Hh; [naive_solver|]. destruct (decide (h_txn h = txn)); eauto.
Qed.

Lemma holders_allow_false hs txn mode :
  holders_allow hs txn mode = false ↔
  ∃ h, h ∈ hs ∧ h_txn h ≠ txn ∧ LockMode.compatible_with mode (h_mode h) = false.
Proof.
  induction hs as [|h hs IH]; simpl.
  - split; [done|]. by intros (h & []%not_elem_of_nil & _).
  - rewrite andb_false_iff, orb_false_iff, bool_decide_eq_false. split.
    + intros [[Ht Hc]|(h' & Hin & Hh)%IH]; [exists h; set_solver|exists h'; set_solver].
    + intros (h' & [->|Hin]%elem_of_cons & Hh); [by left|right]. apply IH. by exists h'.
Qed.

Lemma grant_to_cases hs txn mode :
  (∃ l1 h l2, hs = l1 ++ h :: l2 ∧ same_lock txn mode h ∧
     grant_to hs txn mode = l1 ++ mkHolder txn mode :: l2) ∨
  (Forall (λ h, ¬ same_lock txn mode h) hs ∧ grant_to hs txn mode = hs ++ [mkHolder txn mode]).
Proof.
  unfold grant_to. destruct (list_find _ _) as [[i h]|] eqn:Hf.
  - left. apply list_find_Some in Hf as (Hi & Hs & _).
    exists (take i hs), h, (drop (S i) hs). split; [by rewrite take_drop_middle|].
    split; [done|]. rewrite <- (take_drop_middle hs i h Hi) at 1.
    assert (Hlen : length (take i hs) = i)
      by (rewrite length_take; apply lookup_lt_Some in Hi; lia).
    rewrite alter_app_r_alt by lia. rewrite Hlen, Nat.sub_diag. simpl.
    by rewrite (proj1 Hs).
  - right. split; [|done]. by apply list_find_None in Hf.
Qed.

Lemma grant_to_keys hs txn mode :
  (lock_key <$> grant_to hs txn mode) = (lock_key <$> hs) ∨
  (lock_key (mkHolder txn mode) ∉ (lock_key <$> hs) ∧
   (lock_key <$> grant_to hs txn mode) = (lock_key <$> hs) ++ [lock_key (mkHolder txn mode)]).
Proof.
  destruct (grant_to_cases hs txn mode) as [(l1 & h & l2 & -> & Hs & ->)|[Hn ->]].
  - left. rewrite !fmap_app, !fmap_cons. by rewrite (proj1 (same_lock_key _ _ _) Hs).
  - right. rewrite fmap_app. split; [|done]. rewrite list_elem_of_fmap.
    intros (h & Hk & Hin). rewrite Forall_forall in Hn. apply (Hn h Hin).
    by apply same_lock_key.
Qed.

Lemma elem_of_grant_to hs txn mode h :
  holders_ok hs →
  h ∈ grant_to hs txn mode ↔ h = mkHolder txn mode ∨ (h ∈ hs ∧ ¬ same_lock txn mode h).
Proof.
  intros [_ Hnd]. destruct (grant_to_cases hs txn mode) as [(l1 & h0 & l2 & -> & Hs & ->)|[Hn ->]].
  - rewrite fmap_app, fmap_cons in Hnd. apply NoDup_app in Hnd as (_ & Hl1 & Hnd).
    apply NoDup_cons in Hnd as [Hl2 _].
    assert (Hno : ∀ h, h ∈ l1 ∨ h ∈ l2 → ¬ same_lock txn mode h).
    { intros h' Hin Hs'. apply same_lock_key in Hs, Hs'.
      destruct Hin as [Hin|Hin]; apply (list_elem_of_fmap_2 lock_key) in Hin.
      - eapply Hl1; [exact Hin|]. rewrite Hs', <- Hs. set_solver.
      - apply Hl2. by rewrite Hs, <- Hs'. }
    rewrite !elem_of_app, !elem_of_cons. split.
    + intros [?|[->|?]]; [right|by left|right]; split; eauto.
    + intros [->|[[?|[->|?]] Hns]]; [by eauto..|done|by eauto].
  - rewrite elem_of_app, list_elem_of_singleton. rewrite Forall_forall in Hn. naive_solver.
Qed.

Lemma grant_to_ok hs txn mode :
  holders_ok hs → holders_allow hs txn mode = true → holders_ok (grant_to hs txn mode).
Proof.
  intros Hok Hallow. rewrite holders_allow_spec in Hallow. split.
  - intros h1 h2. rewrite !elem_of_grant_to by done.
    intros [->|[H1 _]] [->|[H2 _]] Hne; simpl in *; [done|..].
    + by apply Hallow.
    + rewrite compatible_comm. by apply Hallow.
    + by apply (ho_compatible _ Hok).
  - destruct (grant_to_keys hs txn mode) as [->|[Hni ->]]; [apply Hok|].
    apply NoDup_app. split_and!; [apply Hok| |apply NoDup_singleton].
    by intros k Hk ->%list_elem_of_singleton.
Qed.

Lemma holders_ok_filter (P : Holder → Prop) `{∀ h, Decision (P h)} hs :
  holders_ok hs → holders_ok (filter P hs).
Proof.
  intros [Hc Hnd]. split.
  - intros h1 h2 [_ H1]%list_elem_of_filter [_ H2]%list_elem_of_filter. by apply Hc.
  - eapply NoDup_submseteq_inv; [exact Hnd|].
    apply sublist_submseteq, fmap_sublist, sublist_filter.
Qed.

(** ** One entry *)

Definition front_blocked (hs : list Holder) (q : list Waiter) : Prop :=
  match q with
  | [] => True
  | w :: _ => holders_allow hs (w_txn w) (w_mode w) = false
  end.

(** The mode a waiter asks for, as the lock it would be. *)
Definition wait_key (w : Waiter) : TxnId * bool := (w_txn w, LockMode.is_data (w_mode w)).

(** What holds of an entry between two grant passes. *)
Record entry_pre (e : Entry) : Prop := {
  ep_holders : holders_ok (holders e);
  ep_order : StronglySorted (λ a b, conversion b = true → conversion a = true) (queue e);
  ep_conversion : ∀ w, w ∈ queue e → conversion w = true → wait_key w ∈ lock_key <$> holders e;
}.

(** What holds of an entry after each operation. *)
Record entry_ok (e : Entry) : Prop := {
  eo_pre :> entry_pre e;
  eo_front : front_blocked (holders e) (queue e);
  eo_used : Entry_is_empty e = false;
}.

Lemma entry_pre_default : entry_pre Entry_default.
Proof.
  split; simpl; [split; simpl|constructor|set_solver]; [set_solver|constructor].
Qed.

Lemma grant_loop_spec hs q g hs' q' g' :
  grant_loop hs q g = (hs', q', g') →
  ∃ gs, q = gs ++ q' ∧ g' = g ++ (ticket <$> gs) ∧
    hs' = foldl (λ hs w, grant_to hs (w_txn w) (w_mode w)) hs gs ∧ front_blocked hs' q'.
Proof.
  revert hs g. induction q as [|w q IH]; intros hs g; simpl.
  { intros [= <- <- <-]. exists []. simpl. by rewrite app_nil_r. }
  destruct (holders_allow _ _ _) eqn:Ha; [|intros [= <- <- <-]].
  - intros (gs & -> & -> & -> & Hf)%IH. exists (w :: gs). simpl.
    by rewrite <- app_assoc.
  - exists []. simpl. by rewrite app_nil_r, Ha.
Qed.

Lemma grant_loop_pre hs q g hs' q' g' :
  grant_loop hs q g = (hs', q', g') →
  entry_pre (mkEntry hs q) → entry_pre (mkEntry hs' q') ∧ front_blocked hs' q'.
Proof.
  revert hs g. induction q as [|w q IH]; intros hs g; simpl.
  { by intros [= <- <- <-]. }
  destruct (holders_allow _ _ _) eqn:Ha; [|by intros [= <- <- <-]].
  intros Hl [Hh Ho Hc]; simpl in *. apply (IH _ _ Hl). split; simpl.
  - by apply grant_to_ok.
  - by apply StronglySorted_inv in Ho as [? _].
  - intros w' Hw' Hcv. specialize (Hc w' (list_elem_of_further _ _ _ Hw') Hcv).
    destruct (grant_to_keys hs (w_txn w) (w_mode w)) as [->|[_ ->]]; [done|].
    apply elem_of_app. by left.
Qed.

Lemma strip_pre txn e : entry_pre e → entry_pre (strip txn e).
Proof.
  intros [Hh Ho Hc]. split; simpl.
  - by apply holders_ok_filter.
  - eapply StronglySorted_sublist; [exact Ho|apply sublist_filter].
  - intros w [Hne Hw]%list_elem_of_filter Hcv. specialize (Hc w Hw Hcv).
    apply list_elem_of_fmap in Hc as (h & Hk & Hh'). apply list_elem_of_fmap.
    exists h. split; [done|]. apply list_elem_of_filter. split; [|done].
    injection Hk as Hk _. congruence.
Qed.

Lemma leading_conversions_split q :
  StronglySorted (λ a b, conversion b = true → conversion a = true) q →
  Forall (λ w, conversion w = true) (take (leading_conversions q) q) ∧
  Forall (λ w, conversion w = false) (drop (leading_conversions q) q).
Proof.
  induction q as [|w q IH]; intros Hs; simpl; [done|].
  apply StronglySorted_inv in Hs as [Hs Hw].
  destruct (conversion w) eqn:Hcw; simpl.
  - destruct (IH Hs). split; [by constructor|done].
  - split; [done|]. constructor; [done|]. eapply Forall_impl; [exact Hw|].
    intros w'. simpl. destruct (conversion w'); naive_solver.
Qed.

Lemma queue_conversion_pre hs q w :
  entry_pre (mkEntry hs q) → conversion w = true → wait_key w ∈ lock_key <$> hs →
  entry_pre (mkEntry hs (insert_at (leading_conversions q) w q)).
Proof.
  intros [Hh Ho Hc] Hw Hk; simpl in *. split; simpl; [done| |].
  - destruct (leading_conversions_split q Ho) as [H1 H2]. rewrite Forall_forall in H1, H2.
    unfold insert_at. rewrite <- (take_drop (leading_conversions q) q) in Ho.
    apply StronglySorted_app in Ho as (_ & Ho1 & Ho2).
    apply StronglySorted_app. split_and!; [naive_solver|done|].
    constructor; [done|]. apply Forall_forall. intros w' Hw'%H2. congruence.
  - intros w' Hw'%elem_of_insert_at Hcv. naive_solver.
Qed.

Lemma queue_plain_pre hs q w :
  entry_pre (mkEntry hs q) → conversion w = false → entry_pre (mkEntry hs (q ++ [w])).
Proof.
  intros [Hh Ho Hc] Hw; simpl in *. split; simpl; [done| |].
  - apply StronglySorted_app. split_and!; [|done|repeat constructor].
    intros x1 x2 _ ->%list_elem_of_singleton. congruence.
  - intros w' [Hw'| ->%list_elem_of_singleton]%elem_of_app Hcv; [by apply Hc|congruence].
Qed.

Lemma delete_queue_pre hs q i : entry_pre (mkEntry hs q) → entry_pre (mkEntry hs (delete i q)).
Proof.
  intros [Hh Ho Hc]; simpl in *. split; simpl; [done| |].
  - eapply StronglySorted_sublist; [exact Ho|apply sublist_delete].
  - intros w Hw%elem_of_delete. by apply Hc.
Qed.

(** ** The table *)

(** The tickets in flight: queued, or granted and not yet collected. *)
Definition queued_tickets (m : gmap LockResource Entry) : list N :=
  map_to_list m ≫= λ re, ticket <$> queue re.2.
Definition table_tickets (t : LockTable) : list N := granted t ++ queued_tickets (entries t).

(** Tickets are unique as long as their counter has not reached the end of [u64]. *)
Definition tickets_ok (t : LockTable) : Prop :=
  (next_ticket t < u64_max)%N →
  NoDup (table_tickets t) ∧ Forall (λ k, (k < next_ticket t)%N) (table_tickets t).

Record table_ok (t : LockTable) : Prop := {
  to_entries : map_Forall (λ _ e, entry_ok e) (entries t);
  to_tickets : tickets_ok t;
  to_counter : (next_ticket t ≤ u64_max)%N;
}.

Lemma queued_tickets_insert m r e :
  queued_tickets (<[r := e]> m) ≡ₚ (ticket <$> queue e) ++ queued_tickets (delete r m).
Proof.
  unfold queued_tickets. rewrite <- insert_delete_eq.
  rewrite map_to_list_insert by apply lookup_delete_eq. done.
Qed.

Lemma queued_tickets_lookup m r e :
  m !! r = Some e → queued_tickets m ≡ₚ (ticket <$> queue e) ++ queued_tickets (delete r m).
Proof. intros Hr. rewrite <- queued_tickets_insert. by rewrite insert_id. Qed.

Lemma Entry_is_empty_spec e : Entry_is_empty e = true ↔ e = Entry_default.
Proof. unfold Entry_is_empty. destruct e as [[] []]; naive_solver. Qed.

Lemma grant_pass_next t r : next_ticket (grant_pass t r) = next_ticket t.
Proof.
  unfold grant_pass. destruct (entries t !! r); [|done]. by destruct (grant_loop _ _ _) as [[]].
Qed.

Lemma grant_pass_other t r r' : r ≠ r' → entries (grant_pass t r) !! r' = entries t !! r'.
Proof.
  intros Hne. unfold grant_pass. destruct (entries t !! r); [|done].
  destruct (grant_loop _ _ _) as [[hs q] g]. simpl.
  destruct (Entry_is_empty _); by simplify_map_eq.
Qed.

(** A grant pass moves tickets from the queue to the granted list. *)
Lemma grant_pass_tickets t r : table_tickets (grant_pass t r) ≡ₚ table_tickets t.
Proof.
  unfold grant_pass. destruct (entries t !! r) as [e|] eqn:Hr; [|done].
  destruct (grant_loop _ _ _) as [[hs q] g] eqn:Hl.
  apply grant_loop_spec in Hl as (gs & Hq & -> & -> & _).
  unfold table_tickets; simpl. rewrite (queued_tickets_lookup _ r e Hr), Hq, fmap_app.
  rewrite <- !app_assoc. f_equiv. f_equiv.
  destruct (Entry_is_empty _) eqn:He.
  - apply Entry_is_empty_spec in He. injection He as _ ->. done.
  - by rewrite queued_tickets_insert.
Qed.

(** The table in the middle of an operation on [r]: the front of its queue has not been
    looked at yet. *)
Record table_pre (r : LockResource) (t : LockTable) : Prop := {
  tp_here : ∀ e, entries t !! r = Some e → entry_pre e;
  tp_others : ∀ r' e, r' ≠ r → entries t !! r' = Some e → entry_ok e;
  tp_tickets : tickets_ok t;
  tp_counter : (next_ticket t ≤ u64_max)%N;
}.

Lemma table_ok_pre r t : table_ok t → table_pre r t.
Proof. intros [He Ht Hc]. split; [|naive_solver..]. intros e Hr. apply (He _ _ Hr). Qed.

Lemma grant_pass_ok t r : table_pre r t → table_ok (grant_pass t r).
Proof.
  intros [Hhere Hothers Ht Hc]. split.
  - intros r' e' Hr'. destruct (decide (r' = r)) as [->|Hne].
    2:{ rewrite grant_pass_other in Hr' by done. by apply (Hothers r' e'). }
    revert Hr'. unfold grant_pass. destruct (entries t !! r) as [e|] eqn:Hr; [|congruence].
    specialize (Hhere e eq_refl). destruct e as [hs q]; simpl.
    destruct (grant_loop _ _ _) as [[hs' q'] g'] eqn:Hl. simpl.
    destruct (grant_loop_pre _ _ _ _ _ _ Hl Hhere) as [Hp Hf].
    destruct (Entry_is_empty _) eqn:He; [by rewrite lookup_delete_eq|].
    rewrite lookup_insert_eq. intros [= <-]. by split.
  - unfold tickets_ok. rewrite grant_pass_next, !grant_pass_tickets. done.
  - by rewrite grant_pass_next.
Qed.

Lemma tickets_ok_sub t t' :
  next_ticket t' = next_ticket t → table_tickets t' ⊆+ table_tickets t →
  tickets_ok t → tickets_ok t'.
Proof.
  intros Hn Hsub Ht Hlt. rewrite Hn in *. destruct (Ht Hlt) as [Hnd Hall]. split.
  - by eapply NoDup_submseteq_inv.
  - by eapply Forall_submseteq_inv.
Qed.

(** Replacing the entry of [r] by one whose queue is a part of the old one. *)
Lemma set_entry_pre t r e e' :
  table_ok t → entries t !! r = Some e → entry_pre e' →
  (ticket <$> queue e') ⊆+ (ticket <$> queue e) →
  table_pre r (mkLockTable (<[r := e']> (entries t)) (next_ticket t) (granted t)).
Proof.
  intros [He Ht Hc] Hr Hp Hsub. split; simpl; [| | |done].
  - intros e0. rewrite lookup_insert_eq. by intros [= <-].
  - intros r' e0 Hne. rewrite lookup_insert_ne by done. apply He.
  - eapply tickets_ok_sub; [..|exact Ht]; [done|]. unfold table_tickets; simpl.
    rewrite queued_tickets_insert, (queued_tickets_lookup _ r e Hr).
    apply submseteq_app; [done|]. by apply submseteq_app.
Qed.

Lemma LockTable_default_ok : table_ok LockTable_default.
Proof. split; [done| |done]. intros _. split; constructor. Qed.

(** The entry of a resource, empty when the table does not know it. *)
Definition entry_at (t : LockTable) (r : LockResource) : Entry :=
  default Entry_default (entries t !! r).

Lemma entry_at_pre t r : table_ok t → entry_pre (entry_at t r).
Proof.
  intros [He _ _]. unfold entry_at. destruct (entries t !! r) as [e|] eqn:Hr; simpl;
    [by apply (He _ _ Hr)|apply entry_pre_default].
Qed.

Lemma queued_tickets_at t r :
  queued_tickets (entries t) ≡ₚ
  (ticket <$> queue (entry_at t r)) ++ queued_tickets (delete r (entries t)).
Proof.
  unfold entry_at. destruct (entries t !! r) as [e|] eqn:Hr; simpl.
  - by apply queued_tickets_lookup.
  - by rewrite delete_id.
Qed.

Lemma saturating_succ_max n : (n ≤ u64_max)%N → (saturating_succ n ≤ u64_max)%N.
Proof. unfold saturating_succ. destruct (N.ltb_spec n u64_max); lia. Qed.

(** Adding at most the fresh ticket to the tickets in flight keeps them unique. *)
Lemma fresh_ticket_ok t t' extra :
  tickets_ok t → next_ticket t' = saturating_succ (next_ticket t) →
  table_tickets t' ≡ₚ extra ++ table_tickets t → extra = [] ∨ extra = [next_ticket t] →
  tickets_ok t'.
Proof.
  intros Ht Hn Hp Hex Hlt. rewrite Hn in Hlt.
  assert (Hlt' : (next_ticket t < u64_max)%N).
  { unfold saturating_succ in Hlt. destruct (N.ltb_spec (next_ticket t) u64_max); lia. }
  destruct (Ht Hlt') as [Hnd Hall]. rewrite Hn, saturating_succ_lt, Hp by done.
  assert (Hall' : Forall (λ k, (k < next_ticket t + 1)%N) (table_tickets t))
    by (eapply Forall_impl; [exact Hall|]; simpl; lia).
  destruct Hex as [-> | ->]; simpl; [done|]. split; constructor; [|done|lia|done].
  intros Hin. rewrite Forall_forall in Hall. specialize (Hall _ Hin). simpl in Hall. lia.
Qed.

Lemma put_entry_pre t r e extra :
  table_ok t → entry_pre e →
  (ticket <$> queue e) ≡ₚ extra ++ (ticket <$> queue (entry_at t r)) →
  extra = [] ∨ extra = [next_ticket t] →
  table_pre r (mkLockTable (<[r := e]> (entries t)) (saturating_succ (next_ticket t)) (granted t)).
Proof.
  intros [He Ht Hc] Hp Hq Hex. split; simpl.
  - intros e0. rewrite lookup_insert_eq. by intros [= <-].
  - intros r' e0 Hne. rewrite lookup_insert_ne by done. by apply (He r' e0).
  - eapply fresh_ticket_ok; [exact Ht|done| |exact Hex]. unfold table_tickets; simpl.
    rewrite queued_tickets_insert, Hq, (queued_tickets_at t r).
    by rewrite <- app_assoc, !(Permutation_app_swap_app extra).
  - by apply saturating_succ_max.
Qed.

Lemma enqueue_pre t now txn r mode req t' :
  table_ok t → enqueue t now txn r mode = (req, t') → table_pre r t'.
Proof.
  intros Hok. pose proof (entry_at_pre t r Hok) as He.
  unfold enqueue. fold (entry_at t r). unfold holder_of.
  destruct (list_find _ _) as [[i h]|] eqn:Hf; simpl.
  - apply list_find_Some in Hf as (Hi & Hs & _).
    destruct (LockMode.covers _ _) eqn:Hcov; intros [= <- <-].
    + by apply (put_entry_pre t r _ []); [| |done|left].
    + apply (put_entry_pre t r _ [next_ticket t]); [done| |simpl; by rewrite insert_at_perm|by right].
      apply queue_conversion_pre; [by destruct (entry_at t r)|done|].
      apply list_elem_of_fmap. exists h. split; [|by eapply list_elem_of_lookup_2].
      unfold wait_key, lock_key; simpl. destruct Hs as [-> Hs]. f_equal.
      by rewrite join_family.
  - intros [= <- <-]. apply (put_entry_pre t r _ [next_ticket t]);
      [done| |simpl; by rewrite fmap_app, Permutation_app_comm|by right].
    apply queue_plain_pre; [by destruct (entry_at t r)|done].
Qed.

Lemma drop_ticket_pre t r tk b t' :
  table_ok t → drop_ticket t r tk = (b, t') → if b then table_pre r t' else t' = t.
Proof.
  intros Hok. unfold drop_ticket.
  destruct (entries t !! r) as [e|] eqn:Hr; [|by intros [= <- <-]].
  destruct (list_find _ _) as [[i w]|] eqn:Hf; intros [= <- <-]; [|done].
  eapply set_entry_pre; [done..| |simpl].
  - apply delete_queue_pre. destruct e. by apply (to_entries _ Hok r).
  - apply sublist_submseteq, fmap_sublist, sublist_delete.
Qed.

Lemma give_up_ok t r tk : table_ok t → table_ok (give_up_wait t r tk).
Proof.
  intros Hok. unfold give_up_wait. destruct (drop_ticket t r tk) as [b t'] eqn:Hd.
  pose proof (drop_ticket_pre _ _ _ _ _ Hok Hd) as Hp.
  destruct b; [by apply grant_pass_ok|by subst].
Qed.

Lemma take_granted_ok t tk b t' : table_ok t → take_granted t tk = (b, t') → table_ok t'.
Proof.
  intros [He Ht Hc]. unfold take_granted.
  destruct (list_find _ _) as [[i g]|] eqn:Hf; intros [= <- <-]; [|done].
  split; simpl; [done| |done]. eapply tickets_ok_sub; [..|exact Ht]; [done|].
  unfold table_tickets; simpl. apply submseteq_app; [|done].
  apply sublist_submseteq, sublist_delete.
Qed.

Lemma strip_table_pre t r txn e :
  table_ok t → entries t !! r = Some e →
  table_pre r (mkLockTable (<[r := strip txn e]> (entries t)) (next_ticket t) (granted t)).
Proof.
  intros Hok Hr. eapply set_entry_pre; [done..| |].
  - apply strip_pre, (to_entries _ Hok r e Hr).
  - simpl. apply sublist_submseteq, fmap_sublist, sublist_filter.
Qed.

Lemma unlock_ok t txn r res t' : table_ok t → unlock t txn r = (res, t') → table_ok t'.
Proof.
  intros Hok. unfold unlock. destruct (entries t !! r) as [e|] eqn:Hr; [|by intros [= <- <-]].
  case_bool_decide; intros [= <- <-]; [done|].
  by apply grant_pass_ok, strip_table_pre.
Qed.

Lemma release_one_ok t txn r : table_ok t → table_ok (release_one txn t r).
Proof.
  intros Hok. unfold release_one. apply grant_pass_ok.
  destruct (entries t !! r) as [e|] eqn:Hr; [by apply strip_table_pre|by apply table_ok_pre].
Qed.

Lemma release_all_ok t txn : table_ok t → table_ok (release_all t txn).
Proof.
  unfold release_all. generalize ((map_to_list (filter (λ re, involves txn re.2) (entries t))).*1).
  intros l. revert t. induction l as [|r l IH]; intros t Hok; simpl; [done|].
  by apply IH, release_one_ok.
Qed.
