(* ===== verification/Deadlock.v ===== *)
(** * Deadlock detection

    [vauban-txn/src/deadlock.rs]: the wait-for graph built from the queues and the holders of
    the lock table, the depth-first walk that looks for a cycle, and the choice of the
    transaction that gives way. *)

From S2P Require Import Prelude Errors LockMode.

#[local] Open Scope Z_scope.

Definition PRIORITY_MIN : Z := -10.
Definition PRIORITY_MAX : Z := 10.
Definition PRIORITY_NORMAL : Z := 0.
Definition DEADLOCK_RESOURCE_KIND : string := "lock".

(** One line of the listings of the lock table. *)
Notation LockLine := (TxnId * LockResource * LockMode)%type (only parsing).

(** ** [DeadlockMonitor] *)

(** [i16::clamp] of the requested priority. *)
Definition set_priority (priorities : gmap TxnId Z) (txn : TxnId) (priority : Z) : gmap TxnId Z :=
  <[txn := Z.max PRIORITY_MIN (Z.min PRIORITY_MAX priority)]> priorities.

Definition priority (priorities : gmap TxnId Z) (txn : TxnId) : Z :=
  default PRIORITY_NORMAL (priorities !! txn).

Definition is_write (m : LockMode) : bool :=
  match m with LockMode.X | LockMode.U | LockMode.IX => true | _ => false end.

Definition writes_held (txn : TxnId) (holders : list LockLine) : nat :=
  length (filter (λ l, l.1.1 = txn ∧ is_write l.2 = true) holders).

(** The key [(priority, writes_held, Reverse(txn))], compared lexicographically. *)
Definition victim_lt (priorities : gmap TxnId Z) (holders : list LockLine) (a b : TxnId) : bool :=
  let pa := priority priorities a in
  let pb := priority priorities b in
  let wa := writes_held a holders in
  let wb := writes_held b holders in
  (pa <? pb) || ((pa =? pb) && ((wa <? wb)%nat || ((wa =? wb)%nat && (b <? a)%N))).

(** [min_by_key]: the first element no other one is below. *)
Definition victim (priorities : gmap TxnId Z) (cycle : list TxnId) (holders : list LockLine) :
    option TxnId :=
  match cycle with
  | [] => None
  | t :: ts => Some (foldl (λ best x, if victim_lt priorities holders x best then x else best) t ts)
  end.

(** ** The graph *)

Notation Graph := (gmap TxnId (list TxnId)) (only parsing).

Definition successors (g : Graph) (n : TxnId) : list TxnId := default [] (g !! n).

(** [edges.entry(from).or_default().push(to)]. *)
Definition push_edge (g : Graph) (from to : TxnId) : Graph :=
  <[from := successors g from ++ [to]]> g.

Definition holder_edges (g : Graph) (waiter : LockLine) (holders : list LockLine) : Graph :=
  foldl (λ g h,
    if bool_decide (h.1.2 = waiter.1.2) && negb (bool_decide (h.1.1 = waiter.1.1)) &&
       negb (LockMode.compatible_with waiter.2 h.2)
    then push_edge g waiter.1.1 h.1.1 else g) g holders.

Definition queue_edges (g : Graph) (waiter : LockLine) (ahead : list LockLine) : Graph :=
  foldl (λ g a,
    if bool_decide (a.1.2 = waiter.1.2) && negb (bool_decide (a.1.1 = waiter.1.1))
    then push_edge g waiter.1.1 a.1.1 else g) g ahead.

(** The loop over [waiters.iter().enumerate()]; [ahead] is [waiters[..rank]]. *)
Fixpoint add_waiters (g : Graph) (ahead waiters holders : list LockLine) : Graph :=
  match waiters with
  | [] => g
  | w :: ws => add_waiters (queue_edges (holder_edges g w holders) w ahead) (ahead ++ [w]) ws holders
  end.

(** [Vec::dedup]: drops the repetitions of consecutive elements. *)
Fixpoint dedup (l : list TxnId) : list TxnId :=
  match l with
  | x :: ((y :: _) as l') => if (x =? y)%N then dedup l' else x :: dedup l'
  | l => l
  end.

Definition wait_for_graph (waiters holders : list LockLine) : Graph :=
  (λ l, dedup (merge_sort N.le l)) <$> add_waiters ∅ [] waiters holders.

(** ** The walk *)

(** The two stacks [path] and [next] side by side, the last element first, with the sets
    [on_path] and [closed]. *)
Record Walk := mkWalk {
  stack : list (TxnId * nat);
  on_path : gset TxnId;
  closed : gset TxnId;
}.

Inductive WalkStep :=
  | Found (cycle : list TxnId)
  | Exhausted
  | Continue (w : Walk).

(** [path[from..]] where [from] is the position of [successor] in [path]. *)
Definition path_from (successor : TxnId) (stack : list (TxnId * nat)) : option (list TxnId) :=
  let path := reverse (stack.*1) in
  (λ p, drop p.1 path) <$> list_find (λ t, t = successor) path.

(** One turn of the [while let] of [Graph::cycle_from]. *)
Definition walk_step (g : Graph) (w : Walk) : WalkStep :=
  match stack w with
  | [] => Exhausted
  | (node, index) :: below =>
      match successors g node !! index with
      | Some successor =>
          let stack' := (node, S index) :: below in
          if bool_decide (successor ∈ on_path w) then
            match path_from successor stack' with
            | Some cycle => Found cycle
            | None => Exhausted
            end
          else if bool_decide (successor ∈ closed w) then Continue (mkWalk stack' (on_path w) (closed w))
          else Continue (mkWalk ((successor, 0%nat) :: stack') ({[successor]} ∪ on_path w) (closed w))
      | None => Continue (mkWalk below (on_path w ∖ {[node]}) ({[node]} ∪ closed w))
      end
  end.

(** The loop, [None] when the fuel runs out. *)
Fixpoint walk (g : Graph) (fuel : nat) (w : Walk) : option (option (list TxnId)) :=
  match fuel with
  | O => None
  | S fuel =>
      match walk_step g w with
      | Found cycle => Some (Some cycle)
      | Exhausted => Some None
      | Continue w' => walk g fuel w'
      end
  end.

(** The nodes a walk can enter, and a bound on the turns it takes: one per node and one per
    edge, and the last one. *)
Definition graph_nodes (g : Graph) (start : TxnId) : list TxnId :=
  remove_dups (start :: mjoin (snd <$> map_to_list g)).
Definition walk_fuel (g : Graph) (start : TxnId) : nat :=
  S (sum_list_with (λ n, S (length (successors g n))) (graph_nodes g start)).

Definition cycle_from (g : Graph) (start : TxnId) : option (list TxnId) :=
  default None (walk g (walk_fuel g start) (mkWalk [(start, 0%nat)] {[start]} ∅)).

Definition detect (priorities : gmap TxnId Z) (waiters holders : list LockLine) (txn : TxnId) :
    option TxnId :=
  cycle ← cycle_from (wait_for_graph waiters holders) txn;
  v ← victim priorities cycle holders;
  if bool_decide (v = txn) then Some v else None.

(** ** Errors *)

Inductive LockOutcome :=
  | Granted
  | TimedOut
  | DeadlockVictim (victim : TxnId)
  | Cancelled.

#[export] Instance LockOutcome_eq_dec : EqDecision LockOutcome.
Proof. solve_decision. Defined.

Definition i64_max : N := 9223372036854775807%N.

(** [i64::try_from(victim.0).unwrap_or(i64::MAX)]. *)
Definition process_id (victim : TxnId) : N :=
  if (victim <=? i64_max)%N then victim else i64_max.

Definition to_error (outcome : LockOutcome) (resource : LockResource) : SqlError :=
  match outcome with
  | Granted => from_internal (Bug [Lit "deadlock::to_error: the lock was granted"])
  | TimedOut =>
      match resource with
      | Row _ _ => lock_request_timeout_on_row
      | Table _ => lock_request_timeout_on_object
      end
  | DeadlockVictim victim => deadlock_victim (process_id victim) DEADLOCK_RESOURCE_KIND
  | Cancelled =>
      from_internal (Bug [Lit "deadlock::to_error: a cancelled wait has no client error"])
  end.

#[local] Close Scope Z_scope.

(** * Deadlock detection is exact

    About [Deadlock.v]: the graph is the wait-for relation of the lock table; the walk always
    ends, and answers a cycle exactly when one can be reached from its start; the members of
    the cycle it finds all find that same cycle and agree on its victim. *)

(** ** Walking a graph *)

Section graph.
Context (g : gmap TxnId (list TxnId)).

Definition edge (n s : TxnId) : Prop := s ∈ successors g n.

(** A node from which every path is finite. *)
Definition dead (n : TxnId) : Prop := sn edge n.

Lemma dead_step n s : dead n → edge n s → dead s.
Proof. intros [Ha] He. by apply Ha. Qed.

Lemma dead_reach n s : dead n → rtc edge n s → dead s.
Proof. intros Hd Hr. induction Hr as [|x y z He _ IH]; eauto using dead_step. Qed.

Lemma dead_no_cycle n : dead n → ¬ tc edge n n.
Proof.
  induction 1 as [n _ IH]. intros Hc. inversion Hc as [? y He|? y ? He Hr]; subst.
  - by apply (IH n).
  - apply (IH y He). eapply tc_rtc_r; [exact Hr|]. by apply rtc_once.
Qed.

(** The first successor from which a path may go on for ever: where the walk goes. *)
Definition first_live (n s : TxnId) : Prop :=
  ∃ i, successors g n !! i = Some s ∧ ¬ dead s ∧
    ∀ j x, j < i → successors g n !! j = Some x → dead x.

Lemma first_live_edge n s : first_live n s → edge n s.
Proof. intros (i & Hi & _). by eapply list_elem_of_lookup_2. Qed.

Lemma first_live_det n s s' : first_live n s → first_live n s' → s = s'.
Proof.
  intros (i & Hi & Hd & Hlt) (i' & Hi' & Hd' & Hlt').
  destruct (lt_eq_lt_dec i i') as [[Hl| ->]|Hl]; [|congruence|].
  - by destruct Hd; eapply Hlt'.
  - by destruct Hd'; eapply Hlt.
Qed.

Lemma rtc_first_live_edge n s : rtc first_live n s → rtc edge n s.
Proof. intros Hr. induction Hr; [done|]. eapply rtc_l; eauto using first_live_edge. Qed.

(** ** The invariant of the walk *)

(** The successors of [n] before position [i] have been closed. *)
Definition explored (closed : gset TxnId) (n : TxnId) (i : nat) : Prop :=
  ∀ j s, j < i → successors g n !! j = Some s → s ∈ closed.

(** The frames under a frame of node [a]: each one is looking at the node above it. *)
Fixpoint below_ok (closed : gset TxnId) (a : TxnId) (st : list (TxnId * nat)) : Prop :=
  match st with
  | [] => True
  | (n, i) :: st' =>
      (∃ k, i = S k ∧ successors g n !! k = Some a ∧ explored closed n k) ∧ below_ok closed n st'
  end.

Definition frames_ok (closed : gset TxnId) (st : list (TxnId * nat)) : Prop :=
  match st with
  | [] => True
  | (n, i) :: st' => explored closed n i ∧ below_ok closed n st'
  end.

Record walk_ok (start : TxnId) (w : Walk) : Prop := {
  wo_on : ∀ n, n ∈ on_path w ↔ n ∈ (stack w).*1;
  wo_nodup : NoDup (stack w).*1;
  wo_dead : ∀ n, n ∈ closed w → dead n;
  wo_frames : frames_ok (closed w) (stack w);
  wo_start : if decide (stack w = []) then start ∈ closed w else last (stack w).*1 = Some start;
}.

Lemma explored_mono c c' n i : c ⊆ c' → explored c n i → explored c' n i.
Proof. intros Hc He j s Hj Hs. apply Hc. by eapply He. Qed.

Lemma below_ok_mono c c' a st : c ⊆ c' → below_ok c a st → below_ok c' a st.
Proof.
  intros Hc. revert a. induction st as [|[n i] st IH]; intros a; simpl; [done|].
  intros [(k & -> & Hk & He) Hb]. split; [|by apply IH].
  exists k. eauto using explored_mono.
Qed.

Lemma explored_S c n i s :
  explored c n i → successors g n !! i = Some s → s ∈ c → explored c n (S i).
Proof.
  intros He Hi Hs j x Hj Hx. destruct (decide (j = i)) as [->|]; [by simplify_eq|].
  eapply He; [|done]. lia.
Qed.

(** Every node under the top of the stack reaches it. *)
Lemma below_reaches c a st n : below_ok c a st → n ∈ st.*1 → tc edge n a.
Proof.
  revert a. induction st as [|[m i] st IH]; intros a; simpl; [intros _ []%not_elem_of_nil|].
  intros [(k & -> & Hk & _) Hb] [->|Hn]%elem_of_cons.
  - apply tc_once. by eapply list_elem_of_lookup_2.
  - eapply tc_r; [by apply IH|]. by eapply list_elem_of_lookup_2.
Qed.

Lemma walk_step_ok start w w' :
  walk_ok start w → walk_step g w = Continue w' → walk_ok start w'.
Proof.
  intros [Hon Hnd Hdead Hfr Hst]. unfold walk_step.
  destruct w as [[|[node index] st] onp cl]; csimpl in *; [done|].
  destruct Hfr as [Hex Hbel].
  destruct (successors g node !! index) as [s|] eqn:Hs.
  - case_bool_decide as Hin; [by destruct (path_from _ _)|].
    case_bool_decide as Hcl; intros [= <-]; split; simpl; try done.
    + split; [|done]. by eapply explored_S.
    + intros n. rewrite elem_of_union, elem_of_singleton, Hon, !elem_of_cons. done.
    + apply NoDup_cons. split; [|done]. by rewrite <- Hon.
    + split; [intros j; lia|]. split; [|done]. by exists index.
  - intros [= <-]. apply NoDup_cons in Hnd as [Hni Hnd].
    assert (Hsub : cl ⊆ {[node]} ∪ cl) by set_solver.
    split; simpl.
    + intros n. rewrite elem_of_difference, Hon, elem_of_cons, elem_of_singleton.
      split; [by intros [[->|?] ?]|]. intros Hn. split; [by right|]. by intros ->.
    + done.
    + intros n [->%elem_of_singleton|?]%elem_of_union; [|by apply Hdead].
      constructor. intros s [j Hj]%list_elem_of_lookup_1. apply Hdead, (Hex j s); [|done].
      apply lookup_lt_Some in Hj. apply lookup_ge_None in Hs. lia.
    + destruct st as [|[n i] st]; simpl in *; [done|].
      destruct Hbel as [(k & -> & Hk & Hexk) Hb]. split; [|by eapply below_ok_mono].
      eapply explored_S; [by eapply explored_mono|done|]. by apply elem_of_union_l, elem_of_singleton.
    + destruct st as [|f st]; simpl in *; [|done].
      injection Hst as ->. by apply elem_of_union_l, elem_of_singleton.
Qed.

(** ** What the walk answers *)

(** Consecutive elements of [l] are related. *)
Definition linked (R : relation TxnId) (l : list TxnId) : Prop :=
  ∀ i a b, l !! i = Some a → l !! S i = Some b → R a b.

Lemma linked_drop R l p : linked R l → linked R (drop p l).
Proof.
  intros Hl i a b Ha Hb. rewrite !lookup_drop in *. eapply Hl; [exact Ha|].
  by rewrite <- Nat.add_succ_r.
Qed.

Lemma linked_rtc R l i j a b :
  linked R l → i ≤ j → l !! i = Some a → l !! j = Some b → rtc R a b.
Proof.
  intros Hl Hij Ha. revert b. induction Hij as [|j Hij IH]; intros b Hb.
  - simplify_eq. done.
  - destruct (lookup_lt_is_Some_2 l j) as [c Hc]; [apply lookup_lt_Some in Hb; lia|].
    eapply rtc_r; [by apply IH|]. by eapply Hl.
Qed.

(** A cycle of the graph on which the walk stays for ever. *)
Record live_cycle (c : list TxnId) : Prop := {
  lc_nodup : NoDup c;
  lc_linked : linked first_live c;
  lc_closing : ∃ a b, head c = Some a ∧ last c = Some b ∧ first_live b a;
}.

(** Read from its bottom, the stack is a chain of first live edges. *)
Lemma stack_linked c n i st :
  below_ok c n st → (∀ x, x ∈ c → dead x) → ¬ dead n →
  linked first_live (reverse (((n, i) :: st).*1)).
Proof.
  revert n i. induction st as [|[m k] st IH]; intros n i Hb Hc Hn.
  { intros j a b _ Hbj. by destruct j. }
  simpl in Hb. destruct Hb as [(k' & -> & Hk & He) Hb].
  assert (Hm : ¬ dead m).
  { intros Hd. apply Hn. eapply dead_step; [exact Hd|]. by eapply list_elem_of_lookup_2. }
  rewrite fmap_cons, reverse_cons. intros j a b Ha Hbj.
  set (l := reverse (((m, S k') :: st).*1)) in *.
  destruct (decide (S j < length l)) as [Hlt|Hge].
  - rewrite lookup_app_l in Ha, Hbj by lia. by eapply (IH m (S k') Hb Hc Hm).
  - assert (Hlast : S j = length l).
    { apply lookup_lt_Some in Hbj. rewrite length_app in Hbj. simpl in Hbj. lia. }
    rewrite lookup_app_r in Hbj by lia. rewrite lookup_app_l in Ha by lia.
    replace (S j - length l) with 0 in Hbj by lia. injection Hbj as <-.
    assert (a = m) as ->.
    { unfold l in *. rewrite fmap_cons, reverse_cons, length_app in *. simpl in *.
      rewrite lookup_app_r in Ha by lia. replace (j - _) with 0 in Ha by lia. by injection Ha. }
    exists k'. split; [done|]. split; [done|]. intros j' x Hj' Hx. by eapply Hc, He.
Qed.

(** The walk answers a cycle it has reached. *)
Lemma walk_step_found start w c :
  walk_ok start w → walk_step g w = Found c →
  live_cycle c ∧ ∃ a, head c = Some a ∧ rtc first_live start a.
Proof.
  intros [Hon Hnd Hdead Hfr Hst]. unfold walk_step.
  destruct w as [[|[node index] st] onp cl]; csimpl in *; [done|].
  destruct Hfr as [Hex Hbel].
  destruct (successors g node !! index) as [s|] eqn:Hs; [|done].
  case_bool_decide as Hin; [|by case_bool_decide].
  unfold path_from. csimpl. set (path := reverse (node :: st.*1)).
  destruct (list_find (λ t, t = s) path) as [[p x]|] eqn:Hp; [|done]. simpl. intros [= <-].
  apply list_find_Some in Hp as (Hp & -> & _).
  assert (Hes : edge node s) by (by eapply list_elem_of_lookup_2).
  assert (Hlive : ¬ dead node).
  { intros Hd. apply (dead_no_cycle node Hd). apply Hon, elem_of_cons in Hin as [<-|Hin].
    - by apply tc_once.
    - eapply tc_l; [exact Hes|]. by eapply below_reaches. }
  assert (Hlink : linked first_live path).
  { apply (stack_linked cl node index st); eauto. }
  assert (Hclose : first_live node s).
  { exists index. split; [done|]. split; [|intros j x Hj Hx; eapply Hdead, Hex; eauto].
    intros Hd. apply Hlive. apply Hon, elem_of_cons in Hin as [->|Hin]; [done|].
    eapply dead_reach; [exact Hd|]. apply tc_rtc. by eapply below_reaches. }
  assert (Hhead : head (drop p path) = Some s).
  { by rewrite (drop_S path s p Hp). }
  assert (Hlast : last (drop p path) = Some node).
  { apply lookup_lt_Some in Hp. unfold path in *. rewrite reverse_cons in *.
    rewrite length_app in Hp. simpl in Hp. rewrite drop_app.
    replace (p - _) with 0 by lia. by rewrite drop_0, last_snoc. }
  split; [split|].
  - eapply NoDup_submseteq_inv; [|apply sublist_submseteq, sublist_drop].
    unfold path. by rewrite reverse_Permutation.
  - by apply linked_drop.
  - by exists s, node.
  - exists s. split; [done|]. eapply (linked_rtc _ path 0 p); [done|lia| |done].
    unfold path. rewrite <- head_lookup, head_reverse. done.
Qed.

Lemma walk_step_exhausted start w : walk_ok start w → walk_step g w = Exhausted → dead start.
Proof.
  intros [Hon Hnd Hdead Hfr Hst]. unfold walk_step.
  destruct w as [[|[node index] st] onp cl]; csimpl in *.
  - intros _. by apply Hdead.
  - destruct (successors g node !! index) as [s|]; [|done].
    case_bool_decide as Hin; [|by case_bool_decide].
    unfold path_from. csimpl. destruct (list_find (λ t, t = s) _) as [[p x]|] eqn:Hp; [done|].
    apply list_find_None in Hp. rewrite Forall_forall in Hp. intros _. exfalso.
    apply (Hp s); [|done]. apply elem_of_reverse. by apply Hon.
Qed.

Lemma walk_ok_init start : walk_ok start (mkWalk [(start, 0)] {[start]} ∅).
Proof.
  split; simpl.
  - intros n. by rewrite elem_of_singleton, list_elem_of_singleton.
  - apply NoDup_singleton.
  - intros n []%not_elem_of_empty.
  - split; [|done]. intros j. lia.
  - done.
Qed.

Lemma walk_answer start fuel w r :
  walk_ok start w → walk g fuel w = Some r →
  match r with
  | Some c => live_cycle c ∧ ∃ a, head c = Some a ∧ rtc first_live start a
  | None => dead start
  end.
Proof.
  revert w. induction fuel as [|fuel IH]; intros w Hok; simpl; [done|].
  destruct (walk_step g w) as [c| |w'] eqn:Hst.
  - intros [= <-]. by eapply walk_step_found.
  - intros [= <-]. by eapply walk_step_exhausted.
  - apply IH. by eapply walk_step_ok.
Qed.

(** ** The walk ends *)

Section fuel.
Context (start : TxnId).

Definition fresh (w : Walk) : list TxnId :=
  filter (λ n, n ∉ on_path w ∪ closed w) (graph_nodes g start).

Definition measure (w : Walk) : nat :=
  sum_list_with (λ n, S (length (successors g n))) (fresh w) +
  sum_list_with (λ f, S (length (successors g f.1) - f.2)) (stack w).

Lemma edge_node n s : edge n s → s ∈ graph_nodes g start.
Proof.
  unfold edge, successors, graph_nodes. intros Hs.
  destruct (g !! n) as [l|] eqn:Hn; simpl in Hs; [|by apply not_elem_of_nil in Hs].
  apply elem_of_remove_dups, elem_of_cons. right. apply list_elem_of_join.
  exists l. split; [done|]. apply list_elem_of_fmap. exists (n, l).
  split; [done|]. by apply elem_of_map_to_list.
Qed.

Lemma fresh_same w w' :
  (∀ n, n ∈ on_path w ∪ closed w ↔ n ∈ on_path w' ∪ closed w') → fresh w = fresh w'.
Proof. intros He. apply list_filter_iff. intros n. by rewrite He. Qed.

Lemma fresh_visit w w' s :
  s ∈ graph_nodes g start → s ∉ on_path w ∪ closed w →
  (∀ n, n ∈ on_path w' ∪ closed w' ↔ n = s ∨ n ∈ on_path w ∪ closed w) →
  fresh w ≡ₚ s :: fresh w'.
Proof.
  intros Hs Hf He. unfold fresh.
  assert (NoDup (graph_nodes g start)) by apply NoDup_remove_dups.
  apply NoDup_Permutation; [by apply NoDup_filter| |].
  - apply NoDup_cons. split; [|by apply NoDup_filter].
    rewrite list_elem_of_filter, He. tauto.
  - intros n. rewrite elem_of_cons, !list_elem_of_filter, He.
    destruct (decide (n = s)) as [->|]; tauto.
Qed.

Lemma walk_step_measure w w' :
  walk_ok start w → walk_step g w = Continue w' → measure w' < measure w.
Proof.
  intros Hok Hstep. pose proof (wo_on _ _ Hok) as Hon. revert Hstep. unfold walk_step.
  destruct w as [[|[node index] st] onp cl]; csimpl in *; [done|].
  destruct (successors g node !! index) as [s|] eqn:Hs.
  - pose proof (lookup_lt_Some _ _ _ Hs) as Hlt.
    case_bool_decide as Hin; [by destruct (path_from _ _)|].
    case_bool_decide as Hcl; intros [= <-]; unfold measure; simpl.
    + rewrite (fresh_same (mkWalk _ _ _) (mkWalk ((node, index) :: st) onp cl)) by done.
      lia.
    + rewrite (fresh_visit (mkWalk ((node, index) :: st) onp cl)
        (mkWalk ((s, 0) :: (node, S index) :: st) ({[s]} ∪ onp) cl) s);
        simpl; [lia|by eapply edge_node, list_elem_of_lookup_2|set_solver|set_solver].
  - apply lookup_ge_None in Hs. intros [= <-]. unfold measure. simpl.
    rewrite (fresh_same (mkWalk st _ _) (mkWalk ((node, index) :: st) onp cl)); [lia|].
    intros n. simpl. assert (node ∈ onp) by (apply Hon; set_solver).
    destruct (decide (n = node)) as [->|]; set_solver.
Qed.

Lemma walk_total fuel w : walk_ok start w → measure w < fuel → is_Some (walk g fuel w).
Proof.
  revert w. induction fuel as [|fuel IH]; intros w Hok Hlt; simpl; [lia|].
  destruct (walk_step g w) as [c| |w'] eqn:Hst; [done|done|].
  apply IH; [by eapply walk_step_ok|].
  pose proof (walk_step_measure _ _ Hok Hst). lia.
Qed.

Lemma walk_fuel_enough : measure (mkWalk [(start, 0)] {[start]} ∅) < walk_fuel g start.
Proof.
  unfold walk_fuel, measure.
  assert (Hall : fresh (mkWalk [] ∅ ∅) = graph_nodes g start).
  { apply filter_id, Forall_forall. intros n _. set_solver. }
  rewrite <- Hall. rewrite (fresh_visit (mkWalk [] ∅ ∅) (mkWalk [(start, 0)] {[start]} ∅) start).
  - simpl. lia.
  - apply elem_of_remove_dups. by left.
  - set_solver.
  - set_solver.
Qed.
End fuel.

(** ** The cycle of a start *)

Lemma cycle_from_cases start :
  match cycle_from g start with
  | Some c => live_cycle c ∧ ∃ a, head c = Some a ∧ rtc first_live start a
  | None => dead start
  end.
Proof.
  unfold cycle_from.
  destruct (walk_total start _ _ (walk_ok_init start) (walk_fuel_enough start)) as [r Hr].
  rewrite Hr. eapply walk_answer; [apply walk_ok_init|exact Hr].
Qed.

Lemma live_cycle_closed c x y : live_cycle c → x ∈ c → first_live x y → y ∈ c.
Proof.
  intros [_ Hl (a & b & Ha & Hb & Hba)] [i Hi]%list_elem_of_lookup_1 Hxy.
  destruct (c !! S i) as [z|] eqn:Hz.
  - rewrite (first_live_det x y z); [by eapply list_elem_of_lookup_2|done|by eapply Hl].
  - apply lookup_ge_None in Hz. pose proof (lookup_lt_Some _ _ _ Hi) as Hlt.
    rewrite last_lookup in Hb. replace (pred (length c)) with i in Hb by lia.
    simplify_eq. rewrite (first_live_det b y a); [|done..].
    apply head_elem_of in Ha. done.
Qed.

Lemma live_cycle_closed_rtc c x y : live_cycle c → x ∈ c → rtc first_live x y → y ∈ c.
Proof. intros Hc Hx Hr. revert Hx. induction Hr; eauto using live_cycle_closed. Qed.

Lemma live_cycle_reach c x y : live_cycle c → x ∈ c → y ∈ c → rtc first_live x y.
Proof.
  intros [_ Hl (a & b & Ha & Hb & Hba)] [i Hi]%list_elem_of_lookup_1 [j Hj]%list_elem_of_lookup_1.
  rewrite head_lookup in Ha. rewrite last_lookup in Hb.
  pose proof (lookup_lt_Some _ _ _ Hi).
  trans b; [eapply (linked_rtc _ c i (pred (length c))); eauto; lia|].
  eapply rtc_l; [exact Hba|]. eapply (linked_rtc _ c 0 j); eauto; lia.
Qed.

Lemma live_cycle_tc c x : live_cycle c → x ∈ c → tc edge x x.
Proof.
  intros Hc Hx. assert (∃ y, first_live x y) as [y Hy].
  { destruct Hc as [_ Hl (a & b & Ha & Hb & Hba)].
    apply list_elem_of_lookup_1 in Hx as [i Hi]. destruct (c !! S i) as [z|] eqn:Hz.
    - exists z. by eapply Hl.
    - apply lookup_ge_None in Hz. pose proof (lookup_lt_Some _ _ _ Hi) as Hlt.
      rewrite last_lookup in Hb. replace (pred (length c)) with i in Hb by lia.
      simplify_eq. by exists a. }
  eapply tc_rtc_r; [by apply tc_once, first_live_edge|].
  apply rtc_first_live_edge, (live_cycle_reach c); [done| |done]. by eapply live_cycle_closed.
Qed.

Lemma cycle_from_spec start :
  is_Some (cycle_from g start) ↔ ∃ t, rtc edge start t ∧ tc edge t t.
Proof.
  pose proof (cycle_from_cases start) as Hc. destruct (cycle_from g start) as [c|].
  - split; [|done]. intros _. destruct Hc as (Hc & a & Ha & Hr). exists a.
    split; [by apply rtc_first_live_edge|]. eapply live_cycle_tc; [exact Hc|].
    by apply head_elem_of.
  - split; [by intros [? [=]]|]. intros (t & Hr & Ht). exfalso.
    eapply dead_no_cycle; [|exact Ht]. by eapply dead_reach.
Qed.

(** Every member of a cycle the walk finds finds that cycle. *)
Lemma cycle_from_member c x :
  live_cycle c → x ∈ c → ∃ c', cycle_from g x = Some c' ∧ c' ≡ₚ c.
Proof.
  intros Hc Hx. pose proof (cycle_from_cases x) as Hc'.
  destruct (cycle_from g x) as [c'|].
  - exists c'. split; [done|]. destruct Hc' as (Hc' & a & Ha & Hr).
    apply head_elem_of in Ha.
    assert (Hac : a ∈ c) by (by eapply live_cycle_closed_rtc).
    apply NoDup_Permutation; [apply Hc'|apply Hc|]. intros y. split; intros Hy.
    + eapply live_cycle_closed_rtc; [exact Hc|exact Hac|]. by apply (live_cycle_reach c').
    + eapply live_cycle_closed_rtc; [exact Hc'|exact Ha|]. by apply (live_cycle_reach c).
  - exfalso. eapply dead_no_cycle; [exact Hc'|]. by eapply live_cycle_tc.
Qed.
End graph.

(** ** The victim *)

Section victim.
Context (priorities : gmap TxnId Z) (holders : list (TxnId * LockResource * LockMode)).

Notation lt := (λ a b, victim_lt priorities holders a b = true).

Lemma victim_lt_spec a b :
  victim_lt priorities holders a b = true ↔
  (priority priorities a < priority priorities b)%Z ∨
  (priority priorities a = priority priorities b ∧
   (writes_held a holders < writes_held b holders ∨
    (writes_held a holders = writes_held b holders ∧ (b < a)%N))).
Proof.
  unfold victim_lt. rewrite !orb_true_iff, !andb_true_iff, orb_true_iff, andb_true_iff.
  by rewrite Z.ltb_lt, Z.eqb_eq, Nat.ltb_lt, Nat.eqb_eq, N.ltb_lt.
Qed.

Lemma victim_lt_trans b a c : lt a b → lt b c → lt a c.
Proof. rewrite !victim_lt_spec. lia. Qed.

Lemma victim_lt_irrefl a : ¬ lt a a.
Proof. rewrite victim_lt_spec. lia. Qed.

Lemma victim_lt_total a b : lt a b ∨ a = b ∨ lt b a.
Proof. rewrite !victim_lt_spec. lia. Qed.

(** The transaction of [c] that comes first. *)
Definition least (c : list TxnId) (v : TxnId) : Prop := v ∈ c ∧ ∀ x, x ∈ c → x ≠ v → lt v x.

Lemma least_unique c c' v v' : c ≡ₚ c' → least c v → least c' v' → v = v'.
Proof.
  intros Hp [Hin Hmin] [Hin' Hmin']. destruct (decide (v = v')) as [|Hne]; [done|].
  destruct (victim_lt_irrefl v). apply (victim_lt_trans v').
  - apply Hmin; [by rewrite Hp|done].
  - apply Hmin'; [by rewrite <- Hp|done].
Qed.

Lemma victim_least c v : victim priorities c holders = Some v ↔ least c v.
Proof.
  assert (Hfold : ∀ ts t,
    least (t :: ts) (foldl (λ best x, if victim_lt priorities holders x best then x else best) t ts)).
  { induction ts as [|x ts IH]; intros t; simpl.
    - split; [by left|]. intros x ->%list_elem_of_singleton. done.
    - set (t' := if victim_lt priorities holders x t then x else t).
      destruct (IH t') as [Hin Hmin]. unfold least. set (v' := foldl _ t' ts) in *.
      assert (Ht' : (t' = x ∧ lt x t) ∨ (t' = t ∧ ¬ lt x t)).
      { unfold t'. destruct (victim_lt _ _ x t); auto. }
      assert (Hle : v' = t' ∨ lt v' t').
      { destruct (decide (t' = v')) as [|Hne]; [by left|]. right. apply Hmin; [by left|done]. }
      split.
      { apply elem_of_cons in Hin as [->|Hin]; [|set_solver].
        destruct Ht' as [[-> _]|[-> _]]; set_solver. }
      intros y Hy Hne. apply elem_of_cons in Hy as [->|[->|Hy]%elem_of_cons]; [| |apply Hmin; set_solver].
      + destruct Ht' as [[-> Hlt]|[-> _]]; [|destruct Hle; congruence].
        destruct Hle as [->|Hle]; [done|]. by apply (victim_lt_trans x).
      + destruct Ht' as [[-> _]|[-> Hnlt]]; [destruct Hle; congruence|].
        destruct (victim_lt_total x t) as [|[->|Hlt]]; [done|destruct Hle; congruence|].
        destruct Hle as [->|Hle]; [done|]. by apply (victim_lt_trans t). }
  destruct c as [|t ts]; simpl.
  - split; [done|]. by intros [[]%not_elem_of_nil _].
  - split; [intros [= <-]; apply Hfold|]. intros Hl. f_equal. by eapply least_unique.
Qed.

Lemma victim_perm c c' : c ≡ₚ c' → victim priorities c holders = victim priorities c' holders.
Proof.
  intros Hp. destruct (victim priorities c' holders) as [v|] eqn:Hv.
  - apply victim_least in Hv as [Hin Hmin]. apply victim_least. split; [by rewrite Hp|].
    intros x. rewrite Hp. apply Hmin.
  - destruct c'; [|done]. by apply Permutation_nil_r in Hp as ->.
Qed.

End victim.

(** ** The wait-for graph *)

(** [a] waits for [b]: one of its requests is refused by a lock [b] holds, or comes after a
    request of [b] in the same queue. *)
Definition waits_for (waiters holders : list (TxnId * LockResource * LockMode)) (a b : TxnId) : Prop :=
  a ≠ b ∧ ∃ i r m, waiters !! i = Some (a, r, m) ∧
    ((∃ m', (b, r, m') ∈ holders ∧ LockMode.compatible_with m m' = false) ∨
     (∃ j m', j < i ∧ waiters !! j = Some (b, r, m'))).

Lemma push_edge_edge g from to a b :
  edge (push_edge g from to) a b ↔ edge g a b ∨ (a = from ∧ b = to).
Proof.
  unfold edge, push_edge, successors at 1. destruct (decide (a = from)) as [->|].
  - rewrite lookup_insert_eq. simpl. rewrite elem_of_app, list_elem_of_singleton. tauto.
  - rewrite lookup_insert_ne by done. unfold successors. naive_solver.
Qed.

(** A loop that pushes an edge for each of the lines that meet a condition. *)
Lemma foldl_push_edge (p : TxnId * LockResource * LockMode → bool) from lines g a b :
  edge (foldl (λ g h, if p h then push_edge g from h.1.1 else g) g lines) a b ↔
  edge g a b ∨ (a = from ∧ ∃ h, h ∈ lines ∧ p h = true ∧ b = h.1.1).
Proof.
  revert g. induction lines as [|h lines IH]; intros g; simpl.
  - split; [by left|]. intros [|(_ & h & []%not_elem_of_nil & _)]; done.
  - rewrite IH. split.
    + intros [He|(-> & h' & Hin & Hp & ->)]; [|right; split; [done|]; exists h'; set_solver].
      destruct (p h) eqn:Hp; [|by left]. apply push_edge_edge in He as [He|[-> ->]]; [by left|].
      right. split; [done|]. exists h. set_solver.
    + intros [He|(-> & h' & [->|Hin]%elem_of_cons & Hp & ->)].
      * left. destruct (p h); [|done]. apply push_edge_edge. by left.
      * left. rewrite Hp. apply push_edge_edge. by right.
      * right. eauto.
Qed.

Lemma holder_edges_edge g w holders a b :
  edge (holder_edges g w holders) a b ↔
  edge g a b ∨ (a = w.1.1 ∧ a ≠ b ∧
    ∃ m', (b, w.1.2, m') ∈ holders ∧ LockMode.compatible_with w.2 m' = false).
Proof.
  unfold holder_edges. rewrite foldl_push_edge. apply or_iff_compat_l. split.
  - intros (-> & [[t r] m] & Hin & Hp & ->). simpl in *.
    rewrite !andb_true_iff, !negb_true_iff, bool_decide_eq_true, bool_decide_eq_false in Hp.
    destruct Hp as [[-> Hne] Hc]. eauto.
  - intros (-> & Hne & m' & Hin & Hc). split; [done|]. exists (b, w.1.2, m'). simpl.
    rewrite !andb_true_iff, !negb_true_iff, bool_decide_eq_true, bool_decide_eq_false. auto.
Qed.

Lemma queue_edges_edge g w ahead a b :
  edge (queue_edges g w ahead) a b ↔
  edge g a b ∨ (a = w.1.1 ∧ a ≠ b ∧ ∃ m', (b, w.1.2, m') ∈ ahead).
Proof.
  unfold queue_edges. rewrite foldl_push_edge. apply or_iff_compat_l. split.
  - intros (-> & [[t r] m] & Hin & Hp & ->). simpl in *.
    rewrite andb_true_iff, negb_true_iff, bool_decide_eq_true, bool_decide_eq_false in Hp.
    destruct Hp as [-> Hne]. eauto.
  - intros (-> & Hne & m' & Hin). split; [done|]. exists (b, w.1.2, m'). simpl.
    rewrite andb_true_iff, negb_true_iff, bool_decide_eq_true, bool_decide_eq_false. auto.
Qed.

Lemma add_waiters_edge g ahead waiters holders a b :
  edge (add_waiters g ahead waiters holders) a b ↔
  edge g a b ∨ (a ≠ b ∧ ∃ i r m, waiters !! i = Some (a, r, m) ∧
    ((∃ m', (b, r, m') ∈ holders ∧ LockMode.compatible_with m m' = false) ∨
     (∃ m', (b, r, m') ∈ ahead ++ take i waiters))).
Proof.
  revert g ahead. induction waiters as [|[[t r] m] ws IH]; intros g ahead; simpl.
  { split; [by left|]. by intros [|(_ & i & ? & ? & [=] & _)]. }
  rewrite IH, queue_edges_edge, holder_edges_edge. simpl. split.
  - intros [[[He|(-> & Hne & m' & Hin)]|(-> & Hne & m' & Hin)]|(Hne & i & r' & m' & Hi & Hc)].
    + by left.
    + right. split; [done|]. exists 0, r, m. eauto.
    + right. split; [done|]. exists 0, r, m. simpl. rewrite app_nil_r. eauto.
    + right. split; [done|]. exists (S i), r', m'. split; [done|]. simpl.
      rewrite <- app_assoc in Hc. done.
  - intros [He|(Hne & [|i] & r' & m' & Hi & Hc)]; [by do 3 left| |].
    + injection Hi as -> -> ->. left. simpl in Hc. rewrite app_nil_r in Hc.
      destruct Hc as [Hc|Hc]; [left; right|right]; eauto.
    + right. split; [done|]. exists i, r', m'. split; [done|].
      rewrite <- app_assoc. done.
Qed.

Lemma elem_of_dedup l x : x ∈ dedup l ↔ x ∈ l.
Proof.
  induction l as [|y l IH]; [done|]. destruct l as [|z l]; [done|]. simpl in *.
  destruct (N.eqb_spec y z) as [->|]; rewrite ?elem_of_cons, IH, ?elem_of_cons; tauto.
Qed.

(** The edges of the graph are the waits of the lock table. *)
Lemma wait_for_graph_edge waiters holders a b :
  edge (wait_for_graph waiters holders) a b ↔ waits_for waiters holders a b.
Proof.
  trans (edge (add_waiters ∅ [] waiters holders) a b).
  { unfold wait_for_graph, edge, successors. rewrite lookup_fmap.
    destruct (add_waiters _ _ _ _ !! a) as [l|]; simpl; [|done].
    by rewrite elem_of_dedup, merge_sort_Permutation. }
  rewrite add_waiters_edge. simpl. unfold waits_for. split.
  - intros [He|(Hne & i & r & m & Hi & Hc)].
    + unfold edge, successors in He. rewrite lookup_empty in He. by apply not_elem_of_nil in He.
    + split; [done|]. exists i, r, m. split; [done|]. destruct Hc as [Hc|(m' & Hc)]; [by left|].
      right. apply elem_of_take in Hc as (j & Hj & Hlt). eauto.
  - intros (Hne & i & r & m & Hi & Hc). right. split; [done|]. exists i, r, m. split; [done|].
    destruct Hc as [Hc|(j & m' & Hlt & Hj)]; [by left|]. right. exists m'.
    apply elem_of_take. eauto.
Qed.

(** ** Detection *)

Section detection.
Context (priorities : gmap TxnId Z) (waiters holders : list (TxnId * LockResource * LockMode)).

Notation waits := (waits_for waiters holders).
Notation detects := (detect priorities waiters holders).

Lemma waits_tc a b : tc (edge (wait_for_graph waiters holders)) a b ↔ tc waits a b.
Proof.
  split; induction 1 as [x y He|x y z He _ IH];
    first [apply tc_once, wait_for_graph_edge, He | eapply tc_l; [apply wait_for_graph_edge, He|exact IH]].
Qed.

Lemma waits_rtc a b : rtc (edge (wait_for_graph waiters holders)) a b ↔ rtc waits a b.
Proof. by rewrite !rtc_tc, waits_tc. Qed.

Lemma detect_Some t v : detects t = Some v → v = t ∧ tc waits t t.
Proof.
  unfold detect. pose proof (cycle_from_cases (wait_for_graph waiters holders) t) as Hc.
  destruct (cycle_from _ t) as [c|]; [|done]. simpl.
  destruct (victim priorities c holders) as [v'|] eqn:Hv; [|done]. simpl.
  case_bool_decide as Hvt; [|done]. intros [= <-]. split; [done|]. subst v'.
  apply waits_tc. eapply live_cycle_tc; [apply Hc|]. by apply victim_least in Hv as [? _].
Qed.

(** On a cycle the walk finds, exactly one transaction is told to give way. *)
Lemma detect_cycle c :
  live_cycle (wait_for_graph waiters holders) c →
  ∃ v, v ∈ c ∧ detects v = Some v ∧ least priorities holders c v ∧
    ∀ u, u ∈ c → u ≠ v → detects u = None.
Proof.
  intros Hc. assert (∃ v, victim priorities c holders = Some v) as [v Hv].
  { destruct c as [|t ts]; [|by eexists]. by destruct (lc_closing _ _ Hc) as (? & ? & [=] & _). }
  assert (Hall : ∀ u, u ∈ c → detects u = if bool_decide (v = u) then Some v else None).
  { intros u Hu. destruct (cycle_from_member _ _ _ Hc Hu) as (c' & Hc' & Hp).
    unfold detect. rewrite Hc'. simpl. by rewrite (victim_perm _ _ _ _ Hp), Hv. }
  pose proof (proj1 (victim_least _ _ _ _) Hv) as Hl. exists v. split; [apply Hl|].
  split; [|split; [done|]].
  - rewrite Hall by apply Hl. by rewrite bool_decide_true.
  - intros u Hu Hne. rewrite Hall by done. by rewrite bool_decide_false.
Qed.

(** From a transaction that waits on a deadlock, even from outside it, someone is told. *)
Lemma detect_reachable s t :
  rtc waits s t → tc waits t t → ∃ v, rtc waits s v ∧ tc waits v v ∧ detects v = Some v.
Proof.
  rewrite <- waits_rtc, <- waits_tc. intros Hr Ht.
  destruct (proj2 (cycle_from_spec (wait_for_graph waiters holders) s)) as [c Hs]; [by exists t|].
  pose proof (cycle_from_cases (wait_for_graph waiters holders) s) as Hcase. rewrite Hs in Hcase.
  destruct Hcase as (Hc & a & Ha & Hra).
  destruct (detect_cycle c Hc) as (v & Hv & Hd & _ & _). exists v.
  split; [|split; [by eapply detect_Some|done]].
  apply waits_rtc. etrans; [by eapply rtc_first_live_edge|]. eapply rtc_first_live_edge.
  eapply live_cycle_reach; [exact Hc|by apply head_elem_of|done].
Qed.

(** So a set of transactions each of which waits for one of the set does not last. *)
Lemma detect_knot (D : gset TxnId) t :
  t ∈ D → (∀ u, u ∈ D → ∃ u', u' ∈ D ∧ waits u u') →
  ∃ v, rtc waits t v ∧ tc waits v v ∧ detects v = Some v.
Proof.
  intros Ht Hknot.
  assert (Hlive : ∀ u, dead (wait_for_graph waiters holders) u → u ∈ D → False).
  { induction 1 as [u _ IH]. intros Hu. destruct (Hknot u Hu) as (u' & Hu' & Hw).
    eapply IH; [|exact Hu']. by apply wait_for_graph_edge. }
  pose proof (cycle_from_cases (wait_for_graph waiters holders) t) as Hcase.
  destruct (cycle_from _ t) as [c|] eqn:Hc; [|by destruct (Hlive t)].
  destruct (proj1 (cycle_from_spec (wait_for_graph waiters holders) t)) as (u & Hr & Hu); [by rewrite Hc|].
  apply (detect_reachable t u); [by apply waits_rtc|by apply waits_tc].
Qed.
End detection.
