(* ===== verification/LockManager.v ===== *)
(** * The lock manager

    [LockManager] of [vauban-txn/src/lock.rs]: a lock table behind a mutex, a condition
    variable and the priorities of the deadlock monitor.

    [try_acquire] is cut where it gives the mutex up: [request] is the part from the call to
    the first [wait_timeout] (or to the return), [wake] the part from a return of
    [wait_timeout] to the next one.  Each runs under the mutex, so it is one atomic step of
    the system; between two of them anything may happen.  What a step reads from outside,
    the monotonic clock (in nanoseconds) and the cancellation flag, is a parameter of it. *)

From S2P Require Import Prelude Errors LockMode LockTable Deadlock.

Record LockManager := mkLockManager {
  table : LockTable;
  priorities : gmap TxnId Z;
}.

Definition LockManager_new : LockManager := mkLockManager LockTable_default ∅.

(** [handle.rs]: how long a request may wait. *)
Inductive LockTimeout :=
  | NoWait
  | Millis (ms : N)
  | Infinite.

(** ** Acquiring *)

(** What the thread that asks keeps on its stack. *)
Record Wait := mkWait {
  wt_txn : TxnId;
  wt_resource : LockResource;
  wt_mode : LockMode;
  wt_deadline : option N;
}.

(** How a step of [try_acquire] ends: the call returns, or the thread parks. *)
Inductive Progress :=
  | Returned (outcome : LockOutcome)
  | Parked.

Definition set_table (m : LockManager) (t : LockTable) : LockManager :=
  mkLockManager t (priorities m).

(** From the top of the [loop] to its [wait_timeout]. *)
Definition before_park (m : LockManager) (tk : N) (w : Wait) (now : N) (cancelled : bool) :
    Progress * LockManager :=
  let abandon outcome := (Returned outcome, set_table m (give_up_wait (table m) (wt_resource w) tk)) in
  if cancelled then abandon Cancelled
  else
    match detect (priorities m) (list_waiters (table m)) (list_holders (table m)) (wt_txn w) with
    | Some victim => abandon (DeadlockVictim victim)
    | None =>
        match wt_deadline w with
        | None => (Parked, m)
        | Some fin => if (fin <=? now)%N then abandon TimedOut else (Parked, m)
        end
    end.

(** From a return of [wait_timeout] to the next one. *)
Definition wake (m : LockManager) (tk : N) (w : Wait) (now : N) (cancelled : bool) :
    Progress * LockManager :=
  match take_granted (table m) tk with
  | (true, t) => (Returned Granted, set_table m t)
  | (false, t) => before_park (set_table m t) tk w now cancelled
  end.

(** [Instant::now() + Duration::from_millis(ms)]. *)
Definition deadline_of (timeout : LockTimeout) (now : N) : option N :=
  match timeout with
  | Millis ms => Some (now + ms * 1000000)%N
  | NoWait | Infinite => None
  end.

(** From the call to the first [wait_timeout]; the second component is the ticket of a
    thread that parks. *)
Definition request (m : LockManager) (now : N) (cancelled : bool) (txn : TxnId)
    (resource : LockResource) (mode : LockMode) (timeout : LockTimeout) :
    Progress * N * LockManager :=
  match enqueue (table m) now txn resource mode with
  | (Reentrant, t) => (Returned Granted, 0%N, set_table m t)
  | (Queued tk, t) =>
      match take_granted (grant_pass t resource) tk with
      | (true, t) => (Returned Granted, tk, set_table m t)
      | (false, t) =>
          match timeout with
          | NoWait => (Returned TimedOut, tk, set_table m (give_up_wait t resource tk))
          | _ =>
              let w := mkWait txn resource mode (deadline_of timeout now) in
              let '(p, m') := before_park (set_table m t) tk w now cancelled in
              (p, tk, m')
          end
      end
  end.

(** ** The rest of the interface *)

Definition manager_unlock (m : LockManager) (txn : TxnId) (resource : LockResource) :
    SqlResult () * LockManager :=
  let '(r, t) := unlock (table m) txn resource in (r, set_table m t).

Definition manager_release_all (m : LockManager) (txn : TxnId) : LockManager :=
  set_table m (release_all (table m) txn).

(** [monitor().set_priority]. *)
Definition manager_set_priority (m : LockManager) (txn : TxnId) (p : Z) : LockManager :=
  mkLockManager (table m) (set_priority (priorities m) txn p).

(** [info.rs]: the listing behind [sys.dm_tran_locks]. *)
Inductive LockStatus := Grant | Waiting | Convert.

Record LockInfo := mkLockInfo {
  li_txn : TxnId;
  li_resource : LockResource;
  li_mode : LockMode;
  li_status : LockStatus;
  li_waiting_ms : N;
}.

Definition waiting_ms (now since : N) : N := N.min u64_max ((now - since) / 1000000)%N.

Definition lines (t : LockTable) (now : N) : list LockInfo :=
  sorted_entries res_le (entries t) ≫= λ re,
    ((λ h, mkLockInfo (h_txn h) re.1 (h_mode h) Grant 0) <$> holders re.2) ++
    ((λ w, mkLockInfo (w_txn w) re.1 (w_mode w) (if conversion w then Convert else Waiting)
             (waiting_ms now (since w))) <$> queue re.2).

(** ** Interleavings *)

(** The atomic steps of the threads that use the manager. *)
Inductive Op :=
  | OpRequest (now : N) (cancelled : bool) (txn : TxnId) (resource : LockResource)
      (mode : LockMode) (timeout : LockTimeout)
  | OpWake (tk : N) (w : Wait) (now : N) (cancelled : bool)
  | OpUnlock (txn : TxnId) (resource : LockResource)
  | OpReleaseAll (txn : TxnId)
  | OpSetPriority (txn : TxnId) (p : Z).

Definition run_op (m : LockManager) (op : Op) : LockManager :=
  match op with
  | OpRequest now cancelled txn resource mode timeout =>
      (request m now cancelled txn resource mode timeout).2
  | OpWake tk w now cancelled => (wake m tk w now cancelled).2
  | OpUnlock txn resource => (manager_unlock m txn resource).2
  | OpReleaseAll txn => manager_release_all m txn
  | OpSetPriority txn p => manager_set_priority m txn p
  end.

(** What happens to a thread while it is parked: the other threads take their steps, then
    the thread wakes. *)
Record Wakeup := mkWakeup {
  wk_others : list Op;
  wk_now : N;
  wk_cancelled : bool;
}.

(** The [loop] of [try_acquire], from its [wait_timeout] on; [None] when the thread is still
    parked after the wakeups given. *)
Fixpoint wait_loop (m : LockManager) (tk : N) (w : Wait) (wakeups : list Wakeup) :
    option LockOutcome * LockManager :=
  match wakeups with
  | [] => (None, m)
  | k :: ks =>
      match wake (foldl run_op m (wk_others k)) tk w (wk_now k) (wk_cancelled k) with
      | (Returned outcome, m') => (Some outcome, m')
      | (Parked, m') => wait_loop m' tk w ks
      end
  end.

Definition try_acquire (m : LockManager) (now : N) (cancelled : bool) (txn : TxnId)
    (resource : LockResource) (mode : LockMode) (timeout : LockTimeout) (wakeups : list Wakeup) :
    option LockOutcome * LockManager :=
  match request m now cancelled txn resource mode timeout with
  | (Returned outcome, _, m') => (Some outcome, m')
  | (Parked, tk, m') =>
      wait_loop m' tk (mkWait txn resource mode (deadline_of timeout now)) wakeups
  end.

(** [LockManager::lock]. *)
Definition lock (m : LockManager) (now : N) (cancelled : bool) (txn : TxnId)
    (resource : LockResource) (mode : LockMode) (timeout : LockTimeout) (wakeups : list Wakeup) :
    option (SqlResult ()) * LockManager :=
  let '(o, m') := try_acquire m now cancelled txn resource mode timeout wakeups in
  ((λ outcome, match outcome with
               | Granted => Ok ()
               | other => Err (to_error other resource)
               end) <$> o, m').

(** ** The system

    Any number of threads call the manager.  The state is the manager and the threads parked
    in [try_acquire], by their ticket; a step runs one atomic step of one thread. *)

Record System := mkSystem {
  mgr : LockManager;
  parked : gmap N Wait;
}.

Definition System_new : System := mkSystem LockManager_new ∅.

Definition parked_after (s : System) (op : Op) : gmap N Wait :=
  match op with
  | OpRequest now cancelled txn resource mode timeout =>
      match request (mgr s) now cancelled txn resource mode timeout with
      | (Parked, tk, _) => <[tk := mkWait txn resource mode (deadline_of timeout now)]> (parked s)
      | (Returned _, _, _) => parked s
      end
  | OpWake tk w now cancelled =>
      match wake (mgr s) tk w now cancelled with
      | (Returned _, _) => delete tk (parked s)
      | (Parked, _) => parked s
      end
  | _ => parked s
  end.

(** A wake is a step of a thread that is parked. *)
Inductive step (s : System) (op : Op) : System → Prop :=
  | Step :
      (∀ tk w now cancelled, op = OpWake tk w now cancelled → parked s !! tk = Some w) →
      step s op (mkSystem (run_op (mgr s) op) (parked_after s op)).

Inductive reachable : System → Prop :=
  | reachable_new : reachable System_new
  | reachable_step s op s' : reachable s → step s op s' → reachable s'.

(** No thread is parked for [txn]. *)
Definition idle (s : System) (txn : TxnId) : Prop :=
  map_Forall (λ _ w, wt_txn w ≠ txn) (parked s).

(** One thread per transaction: while a request of a transaction is parked, nothing else is
    done in its name. *)
Definition one_thread (s : System) (op : Op) : Prop :=
  match op with
  | OpRequest _ _ txn _ _ _ | OpUnlock txn _ | OpReleaseAll txn => idle s txn
  | OpWake _ _ _ _ | OpSetPriority _ _ => True
  end.

Inductive reachable_seq : System → Prop :=
  | reachable_seq_new : reachable_seq System_new
  | reachable_seq_step s op s' :
      reachable_seq s → one_thread s op → step s op s' → reachable_seq s'.
