(* ===== verification/LockManagerFacts.v ===== *)
(** * The lock manager keeps its promises

    About [LockManager.v]: the lock table stays well formed under every interleaving; a
    request that is told [Granted] holds its lock; a thread that waits is queued or granted;
    giving locks back frees them; and a deadlock is always broken. *)

From S2P Require Import Prelude Errors LockMode LockTable Deadlock.
From S2P Require Import LockManager.

(** ** Every step keeps the table well formed *)

Lemma entry_at_insert t r e r' n g :
  entry_at (mkLockTable (<[r := e]> (entries t)) n g) r' = if decide (r' = r) then e else entry_at t r'.
Proof.
  unfold entry_at. simpl. destruct (decide (r' = r)) as [->|Hne];
    [by rewrite lookup_insert_eq|by rewrite lookup_insert_ne].
Qed.

(** A transaction holds a mode that gives what [mode] asks for. *)
Definition holds (t : LockTable) (txn : TxnId) (r : LockResource) (mode : LockMode) : Prop :=
  ∃ h, h ∈ holders (entry_at t r) ∧ h_txn h = txn ∧ LockMode.covers (h_mode h) mode = true.

Lemma holder_of_at e txn mode i m :
  holder_of e txn mode = Some (i, m) →
  ∃ h, h ∈ holders e ∧ h_txn h = txn ∧ h_mode h = m ∧
    LockMode.is_data m = LockMode.is_data mode.
Proof.
  unfold holder_of. destruct (list_find _ _) as [[j h]|] eqn:Hf; [|done]. simpl.
  intros [= <- <-]. apply list_find_Some in Hf as (Hi & [Ht Hd] & _).
  exists h. eauto using list_elem_of_lookup_2.
Qed.

(** What [enqueue] does, on the entries. *)
Lemma enqueue_spec t now txn r mode req t' :
  enqueue t now txn r mode = (req, t') →
  granted t' = granted t ∧ next_ticket t' = saturating_succ (next_ticket t) ∧
  (∀ r', r' ≠ r → entry_at t' r' = entry_at t r') ∧
  holders (entry_at t' r) = holders (entry_at t r) ∧
  match req with
  | Reentrant => entries t' = entries t ∧ holds t txn r mode
  | Queued tk => tk = next_ticket t ∧ ∃ w, ticket w = tk ∧ w_txn w = txn ∧
      LockMode.covers (w_mode w) mode = true ∧ queue (entry_at t' r) ≡ₚ w :: queue (entry_at t r)
  end.
Proof.
  unfold enqueue. fold (entry_at t r).
  destruct (holder_of (entry_at t r) txn mode) as [[i held]|] eqn:Hh;
    [destruct (LockMode.covers held mode) eqn:Hc|]; intros [= <- <-]; simpl;
    (split; [done|]; split; [done|]; split;
       [intros r' Hr'; by rewrite entry_at_insert, decide_False|]);
    rewrite ?entry_at_insert, ?decide_True by done; (split; [done|]).
  - apply holder_of_at in Hh as (h & Hin & Ht & <- & _). split; [|by exists h].
    apply insert_id. revert Hin. unfold entry_at.
    destruct (entries t !! r); [done|]. simpl. set_solver.
  - apply holder_of_at in Hh as (h & Hin & Ht & <- & Hd). split; [done|].
    eexists. split; [|split; [|split; [|apply insert_at_perm]]]; [done..|].
    by apply join_covers_r.
  - split; [done|]. eexists. split; [|split; [|split; [|simpl; symmetry; apply Permutation_cons_append]]];
      [done..|]. apply covers_refl.
Qed.

Lemma enqueue_reentrant_ok t now txn r mode t' :
  table_ok t → enqueue t now txn r mode = (Reentrant, t') → table_ok t'.
Proof.
  intros Hok Hen. pose proof (enqueue_pre _ _ _ _ _ _ _ Hok Hen) as [_ _ Ht Hc].
  apply enqueue_spec in Hen as (_ & _ & _ & _ & He & _).
  split; [|done..]. rewrite He. apply Hok.
Qed.

Lemma before_park_table m tk w now c p m' :
  before_park m tk w now c = (p, m') →
  (p = Parked ∧ m' = m) ∨
  (∃ o, p = Returned o ∧ o ≠ Granted ∧ m' = set_table m (give_up_wait (table m) (wt_resource w) tk)).
Proof.
  unfold before_park. destruct c; [intros [= <- <-]; right; by eexists|].
  destruct (detect _ _ _ _) as [v|]; [intros [= <- <-]; right; by eexists|].
  destruct (wt_deadline w) as [fin|]; [|intros [= <- <-]; by left].
  destruct (fin <=? now)%N; intros [= <- <-]; [right; by eexists|by left].
Qed.

(** How a request ends, and the table it leaves. *)
Lemma request_cases m now c txn r mode timeout p tk m' :
  request m now c txn r mode timeout = (p, tk, m') →
  (∃ t, enqueue (table m) now txn r mode = (Reentrant, t) ∧ p = Returned Granted ∧
     table m' = t) ∨
  (∃ t b t', enqueue (table m) now txn r mode = (Queued tk, t) ∧
     take_granted (grant_pass t r) tk = (b, t') ∧
     if b then p = Returned Granted ∧ table m' = t'
     else (p = Parked ∧ table m' = t' ∧ timeout ≠ NoWait) ∨
          (∃ o, p = Returned o ∧ o ≠ Granted ∧ table m' = give_up_wait t' r tk)).
Proof.
  unfold request. destruct (enqueue _ _ _ _ _) as [[|tk'] t] eqn:Hen.
  { intros [= <- <- <-]. left. by exists t. }
  destruct (take_granted _ _) as [b t'] eqn:Htg. intros Hr. right.
  assert (tk' = tk) as ->.
  { destruct b; [by injection Hr|].
    destruct timeout; [by injection Hr|destruct (before_park _ _ _ _ _); by injection Hr..]. }
  exists t, b, t'. split; [done|]. split; [done|].
  destruct b; [injection Hr as <- <-; done|].
  assert (Hbp : ∀ w, wt_resource w = r →
    (let '(p', m'') := before_park (set_table m t') tk w now c in (p', tk, m'')) = (p, tk, m') →
    (p = Parked ∧ table m' = t') ∨
    (∃ o, p = Returned o ∧ o ≠ Granted ∧ table m' = give_up_wait t' r tk)).
  { intros w Hw. destruct (before_park _ _ w _ _) as [p' m''] eqn:Hb. intros [= <- <-].
    apply before_park_table in Hb as [[-> ->]|(o & -> & Ho & ->)]; [by left|].
    right. exists o. by rewrite Hw. }
  destruct timeout; [injection Hr as <- <-; right; by eexists|..];
    (apply Hbp in Hr; [destruct Hr as [[? ?]|Ho]; [by left|by right]|done]).
Qed.

Lemma wake_cases m tk w now c p m' :
  wake m tk w now c = (p, m') →
  ∃ b t, take_granted (table m) tk = (b, t) ∧
    if b then p = Returned Granted ∧ table m' = t
    else t = table m ∧
      ((p = Parked ∧ table m' = t) ∨
       (∃ o, p = Returned o ∧ o ≠ Granted ∧ table m' = give_up_wait t (wt_resource w) tk)).
Proof.
  unfold wake. destruct (take_granted _ _) as [b t] eqn:Htg. intros Hw. exists b, t.
  split; [done|]. destruct b; [by injection Hw as <- <-|]. split.
  { revert Htg. unfold take_granted. destruct (list_find _ _) as [[]|]; [done|]. by intros [= <-]. }
  apply before_park_table in Hw as [[-> ->]|(o & -> & Ho & ->)]; [by left|]. right. by exists o.
Qed.

Lemma request_ok m now c txn r mode timeout p tk m' :
  table_ok (table m) → request m now c txn r mode timeout = (p, tk, m') → table_ok (table m').
Proof.
  intros Hok [(t & Hen & -> & ->)|(t & b & t' & Hen & Htg & Hrest)]%request_cases.
  - by eapply enqueue_reentrant_ok.
  - assert (Ht' : table_ok t').
    { eapply take_granted_ok; [|exact Htg]. by eapply grant_pass_ok, enqueue_pre. }
    destruct b; [by destruct Hrest as [_ ->]|].
    destruct Hrest as [(_ & -> & _)|(o & _ & _ & ->)]; [done|]. by apply give_up_ok.
Qed.

Lemma wake_ok m tk w now c p m' :
  table_ok (table m) → wake m tk w now c = (p, m') → table_ok (table m').
Proof.
  intros Hok (b & t & Htg & Hrest)%wake_cases.
  assert (Ht' : table_ok t) by (by eapply take_granted_ok).
  destruct b; [by destruct Hrest as [_ ->]|].
  destruct Hrest as (_ & [[_ ->]|(o & _ & _ & ->)]); [done|]. by apply give_up_ok.
Qed.

Lemma run_op_ok m op : table_ok (table m) → table_ok (table (run_op m op)).
Proof.
  intros Hok. destruct op as [now c txn r mode timeout|tk w now c|txn r|txn|txn p]; simpl.
  - destruct (request _ _ _ _ _ _ _) as [[p tk] m'] eqn:Hr. by eapply request_ok.
  - destruct (wake _ _ _ _ _) as [p m'] eqn:Hw. by eapply wake_ok.
  - unfold manager_unlock. destruct (unlock _ _ _) as [res t] eqn:Hu. simpl. by eapply unlock_ok.
  - by apply release_all_ok.
  - done.
Qed.

Lemma reachable_ok s : reachable s → table_ok (table (mgr s)).
Proof.
  induction 1 as [|s op s' _ IH Hst]; [apply LockTable_default_ok|].
  destruct Hst. by apply run_op_ok.
Qed.

(** ** What each operation does to the entries *)

Lemma grant_pass_entry t r :
  ∃ gs, queue (entry_at t r) = gs ++ queue (entry_at (grant_pass t r) r) ∧
    granted (grant_pass t r) = granted t ++ (ticket <$> gs) ∧
    holders (entry_at (grant_pass t r) r) =
      foldl (λ hs w, grant_to hs (w_txn w) (w_mode w)) (holders (entry_at t r)) gs ∧
    front_blocked (holders (entry_at (grant_pass t r) r)) (queue (entry_at (grant_pass t r) r)).
Proof.
  unfold grant_pass. destruct (entries t !! r) as [e|] eqn:Hr.
  - destruct (grant_loop _ _ _) as [[hs q] g] eqn:Hl.
    apply grant_loop_spec in Hl as (gs & Hq & -> & Hhs & Hf). exists gs.
    assert (entry_at t r = e) as -> by (unfold entry_at; by rewrite Hr).
    destruct (Entry_is_empty _) eqn:He; unfold entry_at; simpl.
    + apply Entry_is_empty_spec in He. injection He as -> ->.
      by rewrite lookup_delete_eq.
    + by rewrite lookup_insert_eq.
  - exists []. rewrite app_nil_r. simpl. unfold entry_at. by rewrite Hr.
Qed.

Lemma grant_pass_entry_other t r r' :
  r' ≠ r → entry_at (grant_pass t r) r' = entry_at t r'.
Proof. intros Hne. unfold entry_at. by rewrite grant_pass_other. Qed.

Lemma drop_ticket_spec t r tk b t' :
  drop_ticket t r tk = (b, t') →
  granted t' = granted t ∧ next_ticket t' = next_ticket t ∧
  (∀ r', r' ≠ r → entry_at t' r' = entry_at t r') ∧
  holders (entry_at t' r) = holders (entry_at t r) ∧
  if b then ∃ w, ticket w = tk ∧ queue (entry_at t r) ≡ₚ w :: queue (entry_at t' r)
  else t' = t ∧ ∀ w, w ∈ queue (entry_at t r) → ticket w ≠ tk.
Proof.
  unfold drop_ticket. destruct (entries t !! r) as [e|] eqn:Hr.
  2:{ intros [= <- <-]. split_and!; try done. unfold entry_at. rewrite Hr. set_solver. }
  assert (entry_at t r = e) as Hat by (unfold entry_at; by rewrite Hr).
  destruct (list_find _ _) as [[i w]|] eqn:Hf; intros [= <- <-].
  - apply list_find_Some in Hf as (Hi & Hw & _). simpl.
    split; [done|]. split; [done|]. split; [intros; by rewrite entry_at_insert, decide_False|].
    rewrite entry_at_insert, decide_True, Hat by done. split; [done|].
    exists w. split; [done|]. simpl. by apply delete_perm.
  - split_and!; try done. apply list_find_None in Hf. rewrite Forall_forall in Hf.
    intros w Hw. rewrite Hat in Hw. by apply Hf.
Qed.

Lemma take_granted_spec t tk b t' :
  take_granted t tk = (b, t') →
  entries t' = entries t ∧ next_ticket t' = next_ticket t ∧
  if b then granted t ≡ₚ tk :: granted t' else t' = t ∧ tk ∉ granted t.
Proof.
  unfold take_granted. destruct (list_find _ _) as [[i g]|] eqn:Hf; intros [= <- <-].
  - apply list_find_Some in Hf as (Hi & -> & _). split; [done|]. split; [done|].
    simpl. by apply delete_perm.
  - split; [done|]. split; [done|]. split; [done|]. apply list_find_None in Hf.
    rewrite Forall_forall in Hf. intros Hin. by apply (Hf tk).
Qed.

(** ** Tickets *)

Lemma table_tickets_at t r :
  table_tickets t ≡ₚ
  granted t ++ (ticket <$> queue (entry_at t r)) ++ queued_tickets (delete r (entries t)).
Proof. unfold table_tickets. by rewrite (queued_tickets_at t r). Qed.

(** The consequences of [tickets_ok] that the proofs use, on one entry. *)
Lemma tickets_at t r :
  tickets_ok t → (next_ticket t < u64_max)%N →
  NoDup (ticket <$> queue (entry_at t r)) ∧
  (∀ w, w ∈ queue (entry_at t r) → ticket w ∉ granted t ∧ (ticket w < next_ticket t)%N) ∧
  (∀ k, k ∈ granted t → (k < next_ticket t)%N).
Proof.
  intros Ht Hlt. destruct (Ht Hlt) as [Hnd Hall].
  rewrite (table_tickets_at t r) in Hnd, Hall. rewrite Forall_forall in Hall.
  apply NoDup_app in Hnd as (_ & Hdis & Hnd). apply NoDup_app in Hnd as (Hnd & _ & _).
  split; [done|]. split.
  - intros w Hw. apply (list_elem_of_fmap_2 ticket) in Hw. split.
    + intros Hg. apply (Hdis _ Hg). apply elem_of_app. by left.
    + apply Hall. apply elem_of_app. right. apply elem_of_app. by left.
  - intros k Hk. apply Hall. apply elem_of_app. by left.
Qed.

Lemma ticket_resource t r r' w w' :
  tickets_ok t → (next_ticket t < u64_max)%N →
  w ∈ queue (entry_at t r) → w' ∈ queue (entry_at t r') → ticket w = ticket w' → r = r' ∧ w = w'.
Proof.
  intros Ht Hlt Hw Hw' He. destruct (decide (r = r')) as [->|Hne].
  - split; [done|]. destruct (tickets_at t r' Ht Hlt) as [Hnd _].
    apply list_elem_of_lookup in Hw as [i Hi], Hw' as [j Hj].
    enough (i = j) by (subst; congruence). eapply NoDup_lookup; [exact Hnd|..];
      rewrite list_lookup_fmap; [by rewrite Hi|]. rewrite Hj. simpl. by rewrite He.
  - exfalso. destruct (Ht Hlt) as [Hnd _]. rewrite (table_tickets_at t r) in Hnd.
    apply NoDup_app in Hnd as (_ & _ & Hnd). apply NoDup_app in Hnd as (_ & Hdis & _).
    apply (Hdis (ticket w)); [by apply list_elem_of_fmap_2|].
    assert (Hd : entry_at (mkLockTable (delete r (entries t)) 0 []) r' = entry_at t r').
    { unfold entry_at. simpl. by rewrite lookup_delete_ne. }
    rewrite <- Hd in Hw'. pose proof (queued_tickets_at (mkLockTable (delete r (entries t)) 0 []) r') as Hq.
    simpl in Hq. rewrite Hq. apply elem_of_app. left. rewrite He. by apply list_elem_of_fmap_2.
Qed.

(** ** The claim of a thread that waits *)

Record claim (t : LockTable) (tk : N) (w : Wait) : Prop := {
  cl_alone : ∀ r w', w' ∈ queue (entry_at t r) → w_txn w' = wt_txn w →
    r = wt_resource w ∧ ticket w' = tk;
  cl_place :
    (∃ w', w' ∈ queue (entry_at t (wt_resource w)) ∧ ticket w' = tk ∧ w_txn w' = wt_txn w ∧
       LockMode.covers (w_mode w') (wt_mode w) = true) ∨
    (tk ∈ granted t ∧ holds t (wt_txn w) (wt_resource w) (wt_mode w));
}.

(** An operation that touches neither the requests nor the locks of the transaction. *)
Lemma claim_change t t' tk w :
  claim t tk w →
  (∀ r w', w' ∈ queue (entry_at t' r) → w_txn w' = wt_txn w → w' ∈ queue (entry_at t r)) →
  (∀ r w', w' ∈ queue (entry_at t r) → ticket w' = tk → w_txn w' = wt_txn w →
     w' ∈ queue (entry_at t' r)) →
  (tk ∈ granted t → tk ∈ granted t') →
  (∀ r h, h ∈ holders (entry_at t r) → h_txn h = wt_txn w → h ∈ holders (entry_at t' r)) →
  claim t' tk w.
Proof.
  intros [Ha Hp] Hback Hfwd Hg Hh. split.
  - intros r w' Hw' Htx. apply Ha; eauto.
  - destruct Hp as [(w' & Hw' & Htk & Htx & Hc)|(Hin & h & Hh' & Htx & Hc)]; [left|right].
    + exists w'. eauto.
    + split; [eauto|]. exists h. eauto.
Qed.

Lemma grant_to_self hs txn mode : mkHolder txn mode ∈ grant_to hs txn mode.
Proof.
  destruct (grant_to_cases hs txn mode) as [(l1 & h & l2 & _ & _ & ->)|[_ ->]]; set_solver.
Qed.

Lemma grant_to_foreign hs txn mode h : h_txn h ≠ txn → h ∈ hs → h ∈ grant_to hs txn mode.
Proof.
  intros Hne Hin.
  destruct (grant_to_cases hs txn mode) as [(l1 & h0 & l2 & -> & [Ht _] & ->)|[_ ->]]; [|set_solver].
  apply elem_of_app in Hin as [Hin|[->|Hin]%elem_of_cons]; set_solver.
Qed.

Lemma grants_foreign gs hs h :
  (∀ w, w ∈ gs → w_txn w ≠ h_txn h) → h ∈ hs →
  h ∈ foldl (λ hs w, grant_to hs (w_txn w) (w_mode w)) hs gs.
Proof.
  revert hs. induction gs as [|w gs IH]; intros hs Hne Hin; simpl; [done|].
  apply IH; [set_solver|]. apply grant_to_foreign; [|done].
  intros He. apply (Hne w); [by left|done].
Qed.

Lemma grant_pass_claim t r tk w :
  table_pre r t → (next_ticket t < u64_max)%N → claim t tk w → claim (grant_pass t r) tk w.
Proof.
  intros [_ _ Htk _] Hlt [Ha Hp].
  destruct (grant_pass_entry t r) as (gs & Hq & Hg & Hh & _).
  assert (Hother := grant_pass_entry_other t r). split.
  { intros r' w' Hw' Htx. apply Ha; [|done]. destruct (decide (r' = r)) as [->|Hne].
    - rewrite Hq. apply elem_of_app. by right.
    - by rewrite <- Hother. }
  unfold holds. destruct (decide (wt_resource w = r)) as [Hwr|Hne].
  2:{ rewrite Hother by done. destruct Hp as [Hp|[Hin Hp]]; [by left|right].
      split; [rewrite Hg; apply elem_of_app; by left|done]. }
  rewrite Hwr in *. destruct (tickets_at t r Htk Hlt) as (Hnd & Hfr & _).
  rewrite Hq in Hnd, Hfr, Hp. rewrite Hh, Hg.
  assert (Hown : ∀ w', w' ∈ gs → w_txn w' = wt_txn w → ticket w' = tk).
  { intros w' Hw' Htx. apply (Ha r w'); [|done]. rewrite Hq. apply elem_of_app. by left. }
  destruct Hp as [(w' & Hw' & Ht & Htx & Hc)|(Hin & h & Hh' & Htx & Hc)].
  - apply elem_of_app in Hw' as [Hw'|Hw']; [right|left; by exists w'].
    split; [apply elem_of_app; right; apply list_elem_of_fmap; by exists w'|].
    exists (mkHolder (w_txn w') (w_mode w')). split; [|done].
    apply list_elem_of_split in Hw' as (g1 & g2 & ->). rewrite foldl_app. simpl.
    apply grants_foreign; [|apply grant_to_self]. simpl. intros w2 Hw2 Htx2.
    rewrite fmap_app, fmap_app, fmap_cons in Hnd. apply NoDup_app in Hnd as (Hnd & _).
    apply NoDup_app in Hnd as (_ & _ & Hnd). apply NoDup_cons in Hnd as [Hnd _].
    apply Hnd. rewrite Ht, <- (Hown w2); [by apply list_elem_of_fmap_2|set_solver|congruence].
  - right. split; [apply elem_of_app; by left|]. exists h. split; [|done].
    apply grants_foreign; [|done]. intros w' Hw' He.
    destruct (Hfr w') as [Hni _]; [apply elem_of_app; by left|]. apply Hni.
    rewrite (Hown w'); [done|done|congruence].
Qed.

Lemma claim_ticket_lt t tk w :
  tickets_ok t → (next_ticket t < u64_max)%N → claim t tk w → (tk < next_ticket t)%N.
Proof.
  intros Ht Hlt [_ Hp]. destruct (tickets_at t (wt_resource w) Ht Hlt) as (_ & Hq & Hg).
  destruct Hp as [(w' & Hw' & <- & _)|[Hin _]]; [by apply Hq|by apply Hg].
Qed.

Lemma enqueue_claim t now txn r mode req t' tk w :
  enqueue t now txn r mode = (req, t') → txn ≠ wt_txn w → claim t tk w → claim t' tk w.
Proof.
  intros (Hg & _ & Hother & Hh & Hreq)%enqueue_spec Hne Hcl.
  assert (Hq : ∀ r' w', w_txn w' = wt_txn w →
    w' ∈ queue (entry_at t' r') ↔ w' ∈ queue (entry_at t r')).
  { intros r' w' Htx. destruct (decide (r' = r)) as [->|Hr]; [|by rewrite Hother].
    destruct req as [|tk'].
    - unfold entry_at. by rewrite (proj1 Hreq).
    - destruct Hreq as (_ & wn & _ & Hwn & _ & ->). rewrite elem_of_cons.
      split; [|by right]. intros [->|?]; [congruence|done]. }
  eapply claim_change; [exact Hcl|..].
  - intros r' w' Hw' Htx. by apply Hq.
  - intros r' w' Hw' _ Htx. by apply Hq.
  - by rewrite Hg.
  - intros r' h Hin _. destruct (decide (r' = r)) as [->|Hr]; [by rewrite Hh|by rewrite Hother].
Qed.

Lemma take_granted_claim t tk' b t' tk w :
  take_granted t tk' = (b, t') → tk' ≠ tk → claim t tk w → claim t' tk w.
Proof.
  intros (He & _ & Hb)%take_granted_spec Hne Hcl.
  eapply claim_change; [exact Hcl|..]; unfold entry_at; rewrite ?He; [done..| |done].
  destruct b; [|by destruct Hb as [-> _]]. rewrite Hb, elem_of_cons. by intros [->|].
Qed.

Lemma drop_ticket_claim t r tk' b t' tk w :
  drop_ticket t r tk' = (b, t') → tk' ≠ tk → claim t tk w → claim t' tk w.
Proof.
  intros (Hg & _ & Hother & Hh & Hb)%drop_ticket_spec Hne Hcl.
  destruct b; [|by destruct Hb as [-> _]]. destruct Hb as (wd & Hd & Hq).
  eapply claim_change; [exact Hcl|..].
  - intros r' w' Hw' _. destruct (decide (r' = r)) as [->|Hr]; [|by rewrite <- Hother].
    rewrite Hq. by right.
  - intros r' w' Hw' Ht _. destruct (decide (r' = r)) as [->|Hr]; [|by rewrite Hother].
    rewrite Hq in Hw'. apply elem_of_cons in Hw' as [->|]; [congruence|done].
  - by rewrite Hg.
  - intros r' h Hin _. destruct (decide (r' = r)) as [->|Hr]; [by rewrite Hh|by rewrite Hother].
Qed.

Lemma give_up_next t r tk : next_ticket (give_up_wait t r tk) = next_ticket t.
Proof.
  unfold give_up_wait. destruct (drop_ticket t r tk) as [b t'] eqn:Hd.
  apply drop_ticket_spec in Hd as (_ & Hn & _). destruct b; [by rewrite grant_pass_next|done].
Qed.

Lemma give_up_claim t r tk' tk w :
  table_ok t → (next_ticket t < u64_max)%N → tk' ≠ tk → claim t tk w → claim (give_up_wait t r tk') tk w.
Proof.
  intros Hok Hlt Hne Hcl. unfold give_up_wait. destruct (drop_ticket t r tk') as [b t'] eqn:Hd.
  pose proof (drop_ticket_pre _ _ _ _ _ Hok Hd) as Hp.
  pose proof (drop_ticket_claim _ _ _ _ _ _ _ Hd Hne Hcl) as Hcl'.
  apply drop_ticket_spec in Hd as (_ & Hn & _).
  destruct b; [apply grant_pass_claim; [done|by rewrite Hn|done]|done].
Qed.

Lemma strip_claim t r txn e tk w :
  entries t !! r = Some e → txn ≠ wt_txn w → claim t tk w →
  claim (mkLockTable (<[r := strip txn e]> (entries t)) (next_ticket t) (granted t)) tk w.
Proof.
  intros Hr Hne Hcl. assert (entry_at t r = e) as Hat by (unfold entry_at; by rewrite Hr).
  eapply claim_change; [exact Hcl|..]; [| |done|]; intros r'; rewrite entry_at_insert;
    (destruct (decide (r' = r)) as [->|]; [rewrite Hat; simpl|done]).
  - by intros w' [_ ?]%list_elem_of_filter _.
  - intros w' Hw' _ Htx. apply list_elem_of_filter. split; [congruence|done].
  - intros h Hin Htx. apply list_elem_of_filter. split; [congruence|done].
Qed.

Lemma release_one_next t txn r : next_ticket (release_one txn t r) = next_ticket t.
Proof. unfold release_one. rewrite grant_pass_next. by destruct (entries t !! r). Qed.

Lemma release_one_claim t txn r tk w :
  table_ok t → (next_ticket t < u64_max)%N → txn ≠ wt_txn w → claim t tk w →
  claim (release_one txn t r) tk w.
Proof.
  intros Hok Hlt Hne Hcl. unfold release_one. destruct (entries t !! r) as [e|] eqn:Hr.
  - apply grant_pass_claim; [by apply strip_table_pre|done|by apply strip_claim].
  - apply grant_pass_claim; [by apply table_ok_pre|done..].
Qed.

Lemma release_all_next t txn : next_ticket (release_all t txn) = next_ticket t.
Proof.
  unfold release_all. generalize ((map_to_list (filter (λ re, involves txn re.2) (entries t))).*1).
  intros l. revert t. induction l as [|r l IH]; intros t; simpl; [done|].
  by rewrite IH, release_one_next.
Qed.

Lemma release_all_claim t txn tk w :
  table_ok t → (next_ticket t < u64_max)%N → txn ≠ wt_txn w → claim t tk w →
  claim (release_all t txn) tk w.
Proof.
  unfold release_all. generalize ((map_to_list (filter (λ re, involves txn re.2) (entries t))).*1).
  intros l. revert t. induction l as [|r l IH]; intros t Hok Hlt Hne Hcl; simpl; [done|].
  apply IH; [by apply release_one_ok|by rewrite release_one_next|done|by apply release_one_claim].
Qed.

Lemma unlock_next t txn r res t' : unlock t txn r = (res, t') → next_ticket t' = next_ticket t.
Proof.
  unfold unlock. destruct (entries t !! r) as [e|]; [|by intros [= _ <-]].
  case_bool_decide; intros [= _ <-]; [done|]. by rewrite grant_pass_next.
Qed.

Lemma unlock_claim t txn r res t' tk w :
  table_ok t → (next_ticket t < u64_max)%N → txn ≠ wt_txn w →
  unlock t txn r = (res, t') → claim t tk w → claim t' tk w.
Proof.
  intros Hok Hlt Hne. unfold unlock. destruct (entries t !! r) as [e|] eqn:Hr; [|by intros [= _ <-]].
  case_bool_decide; intros [= _ <-]; [done|]. intros Hcl.
  apply grant_pass_claim; [by apply strip_table_pre|done|by apply strip_claim].
Qed.

(** A step another transaction takes. *)
Definition foreign (tk : N) (txn : TxnId) (op : Op) : Prop :=
  match op with
  | OpRequest _ _ txn' _ _ _ | OpUnlock txn' _ | OpReleaseAll txn' => txn' ≠ txn
  | OpWake tk' _ _ _ => tk' ≠ tk
  | OpSetPriority _ _ => True
  end.

Lemma run_op_next m op :
  table_ok (table m) → (next_ticket (table m) ≤ next_ticket (table (run_op m op)))%N.
Proof.
  intros Hok. pose proof (to_counter _ Hok).
  destruct op as [now c txn r mode timeout|tk w now c|txn r|txn|txn p]; simpl; [..|done].
  - destruct (request _ _ _ _ _ _ _) as [[p tk] m'] eqn:Hr. simpl.
    apply request_cases in Hr as [(t & Hen & _ & ->)|(t & b & t' & Hen & Htg & Hrest)];
      apply enqueue_spec in Hen as (_ & Hn & _).
    + rewrite Hn. by apply saturating_succ_ge.
    + apply take_granted_spec in Htg as (_ & Hn' & _). rewrite grant_pass_next, Hn in Hn'.
      assert (next_ticket (table m') = next_ticket t') as ->.
      { destruct b; [by destruct Hrest as [_ ->]|].
        destruct Hrest as [(_ & -> & _)|(? & _ & _ & ->)]; [done|by rewrite give_up_next]. }
      rewrite Hn'. by apply saturating_succ_ge.
  - destruct (wake _ _ _ _ _) as [p m'] eqn:Hw. simpl.
    apply wake_cases in Hw as (b & t & Htg & Hrest).
    apply take_granted_spec in Htg as (_ & Hn & _). rewrite <- Hn.
    destruct b; [by destruct Hrest as [_ ->]|].
    destruct Hrest as (_ & [[_ ->]|(? & _ & _ & ->)]); [done|by rewrite give_up_next].
  - unfold manager_unlock. destruct (unlock _ _ _) as [res t] eqn:Hu. simpl.
    by rewrite (unlock_next _ _ _ _ _ Hu).
  - by rewrite release_all_next.
Qed.

Lemma run_op_claim m op tk w :
  table_ok (table m) → (next_ticket (table (run_op m op)) < u64_max)%N →
  foreign tk (wt_txn w) op → claim (table m) tk w → claim (table (run_op m op)) tk w.
Proof.
  intros Hok Hlt' Hf Hcl. pose proof (run_op_next m op Hok) as Hmono.
  assert (Hlt : (next_ticket (table m) < u64_max)%N) by lia.
  destruct op as [now c txn r mode timeout|tk' w' now c|txn r|txn|txn p]; simpl in *; [..|done].
  - destruct (request _ _ _ _ _ _ _) as [[p tk'] m'] eqn:Hr. simpl in *.
    apply request_cases in Hr as [(t & Hen & _ & ->)|(t & b & t' & Hen & Htg & Hrest)];
      [by eapply enqueue_claim|].
    pose proof (enqueue_claim _ _ _ _ _ _ _ _ _ Hen Hf Hcl) as Hcl1.
    pose proof (enqueue_pre _ _ _ _ _ _ _ Hok Hen) as Hpre.
    pose proof (claim_ticket_lt _ _ _ (to_tickets _ Hok) Hlt Hcl) as Htk.
    apply enqueue_spec in Hen as (_ & Hn & _ & _ & -> & _).
    pose proof (take_granted_ok _ _ _ _ (grant_pass_ok _ _ Hpre) Htg) as Hok'.
    pose proof (take_granted_spec _ _ _ _ Htg) as (_ & Hn' & _). rewrite grant_pass_next in Hn'.
    assert (Hlt1 : (next_ticket t < u64_max)%N).
    { rewrite <- Hn'. destruct b; [by destruct Hrest as [_ <-]|].
      destruct Hrest as [(_ & <- & _)|(? & _ & _ & He)]; [done|].
      rewrite He, give_up_next in Hlt'. done. }
    assert (Hcl2 : claim t' tk w).
    { eapply take_granted_claim; [exact Htg|lia|]. by apply grant_pass_claim. }
    destruct b; [by destruct Hrest as [_ ->]|].
    destruct Hrest as [(_ & -> & _)|(? & _ & _ & ->)]; [done|].
    apply give_up_claim; [done|by rewrite Hn'|lia|done].
  - destruct (wake _ _ _ _ _) as [p m'] eqn:Hw. simpl in *.
    apply wake_cases in Hw as (b & t & Htg & Hrest).
    pose proof (take_granted_claim _ _ _ _ _ _ Htg Hf Hcl) as Hcl1.
    destruct b; [by destruct Hrest as [_ ->]|].
    destruct Hrest as (-> & [[_ ->]|(? & _ & _ & ->)]); [done|]. by apply give_up_claim.
  - unfold manager_unlock in *. destruct (unlock _ _ _) as [res t] eqn:Hu. simpl in *.
    by eapply unlock_claim.
  - by apply release_all_claim.
Qed.

(** ** The end of a wait *)

(** Nothing of [txn] is queued. *)
Definition quiet (t : LockTable) (txn : TxnId) : Prop :=
  ∀ r w, w ∈ queue (entry_at t r) → w_txn w ≠ txn.

Lemma grant_pass_queue t r r' w :
  w ∈ queue (entry_at (grant_pass t r) r') → w ∈ queue (entry_at t r').
Proof.
  destruct (decide (r' = r)) as [->|Hne]; [|by rewrite grant_pass_entry_other].
  destruct (grant_pass_entry t r) as (gs & -> & _). rewrite elem_of_app. by right.
Qed.

Lemma give_up_queue t r tk r' w :
  w ∈ queue (entry_at (give_up_wait t r tk) r') → w ∈ queue (entry_at t r').
Proof.
  unfold give_up_wait. destruct (drop_ticket t r tk) as [b t'] eqn:Hd.
  apply drop_ticket_spec in Hd as (_ & _ & Hother & _ & Hb). destruct b; [|by destruct Hb as [-> _]].
  intros Hw%grant_pass_queue. destruct (decide (r' = r)) as [->|Hne]; [|by rewrite <- Hother].
  destruct Hb as (wd & _ & ->). by right.
Qed.

Lemma give_up_quiet t tk w :
  table_ok t → (next_ticket t < u64_max)%N → claim t tk w →
  quiet (give_up_wait t (wt_resource w) tk) (wt_txn w).
Proof.
  intros Hok Hlt [Ha _] r w' Hw' Htx.
  destruct (Ha r w' (give_up_queue _ _ _ _ _ Hw') Htx) as [-> Ht].
  revert Hw'. unfold give_up_wait. destruct (drop_ticket _ _ _) as [b t'] eqn:Hd.
  apply drop_ticket_spec in Hd as (_ & _ & _ & _ & Hb). destruct b.
  - destruct Hb as (wd & Hwd & Hq). intros Hw'%grant_pass_queue.
    destruct (tickets_at t (wt_resource w) (to_tickets _ Hok) Hlt) as (Hnd & _ & _).
    rewrite Hq, fmap_cons in Hnd. apply NoDup_cons in Hnd as [Hnd _]. apply Hnd.
    rewrite Hwd, <- Ht. by apply list_elem_of_fmap_2.
  - destruct Hb as [-> Hb]. intros Hw'. by apply (Hb w').
Qed.

(** Collecting one's own ticket tells whether the lock is held. *)
Lemma claim_settle t tk w b t' :
  tickets_ok t → (next_ticket t < u64_max)%N → claim t tk w → take_granted t tk = (b, t') →
  if b then holds t' (wt_txn w) (wt_resource w) (wt_mode w) ∧ quiet t' (wt_txn w)
  else t' = t ∧ ∃ w', w' ∈ queue (entry_at t (wt_resource w)) ∧ ticket w' = tk ∧ w_txn w' = wt_txn w.
Proof.
  intros Htk Hlt [Ha Hp] (He & _ & Hb)%take_granted_spec. destruct b.
  - assert (Hin : tk ∈ granted t) by (rewrite Hb; by left). split.
    + destruct Hp as [(w' & Hw' & <- & _)|[_ Hh]]; [|unfold holds, entry_at; by rewrite He].
      by destruct (proj1 (proj2 (tickets_at t _ Htk Hlt)) w' Hw').
    + intros r w' Hw' Htx. unfold entry_at in Hw'. rewrite He in Hw'.
      destruct (Ha r w' Hw' Htx) as [-> Ht].
      destruct (proj1 (proj2 (tickets_at t _ Htk Hlt)) w' Hw') as [Hni _]. by rewrite Ht in Hni.
  - destruct Hb as [-> Hni]. split; [done|].
    destruct Hp as [(w' & Hw' & Ht & Htx & _)|[Hin _]]; [by exists w'|done].
Qed.

(** What a step of [try_acquire] has done for its transaction when it ends. *)
Definition progress_ok (t : LockTable) (tk : N) (w : Wait) (p : Progress) : Prop :=
  match p with
  | Parked => claim t tk w
  | Returned Granted => holds t (wt_txn w) (wt_resource w) (wt_mode w) ∧ quiet t (wt_txn w)
  | Returned _ => quiet t (wt_txn w)
  end.

Lemma progress_refused t tk w o :
  o ≠ Granted → quiet t (wt_txn w) → progress_ok t tk w (Returned o).
Proof. by destruct o. Qed.

Lemma request_own m now c txn r mode timeout p tk m' :
  table_ok (table m) → (next_ticket (table m') < u64_max)%N → quiet (table m) txn →
  request m now c txn r mode timeout = (p, tk, m') →
  progress_ok (table m') tk (mkWait txn r mode (deadline_of timeout now)) p.
Proof.
  intros Hok Hlt Hquiet [(t & Hen & -> & Ht)|(t & b & t' & Hen & Htg & Hrest)]%request_cases.
  { apply enqueue_spec in Hen as (_ & _ & _ & _ & He & Hh). simpl. rewrite Ht.
    unfold holds, quiet, entry_at in *. by rewrite He. }
  set (w := mkWait txn r mode (deadline_of timeout now)).
  pose proof (enqueue_pre _ _ _ _ _ _ _ Hok Hen) as Hpre.
  apply enqueue_spec in Hen as (_ & Hn & Hother & _ & Htk & w0 & Hw0 & Htx0 & Hc0 & Hq).
  assert (Hcl : claim t tk w).
  { split; simpl.
    - intros r' w' Hw' Htx. destruct (decide (r' = r)) as [->|Hne].
      + rewrite Hq in Hw'. apply elem_of_cons in Hw' as [->|Hw']; [done|]. by destruct (Hquiet r w').
      + rewrite Hother in Hw' by done. by destruct (Hquiet r' w').
    - left. exists w0. split; [rewrite Hq; by left|done]. }
  pose proof (take_granted_spec _ _ _ _ Htg) as (_ & Hn' & _). rewrite grant_pass_next in Hn'.
  pose proof (take_granted_ok _ _ _ _ (grant_pass_ok _ _ Hpre) Htg) as Hok'.
  assert (Hlt1 : (next_ticket t < u64_max)%N).
  { rewrite <- Hn'. destruct b; [by destruct Hrest as [_ <-]|].
    destruct Hrest as [(_ & <- & _)|(? & _ & _ & He)]; [done|].
    rewrite He, give_up_next in Hlt. done. }
  pose proof (grant_pass_claim _ _ _ _ Hpre Hlt1 Hcl) as Hcl'.
  pose proof (claim_settle (grant_pass t r) tk w b t' (to_tickets _ (grant_pass_ok _ _ Hpre))) as Hset.
  rewrite grant_pass_next in Hset. specialize (Hset Hlt1 Hcl' Htg).
  destruct b; [destruct Hrest as [-> ->]; exact Hset|]. destruct Hset as [-> _].
  destruct Hrest as [(-> & -> & _)|(o & -> & Ho & ->)]; [exact Hcl'|].
  apply progress_refused; [done|]. apply (give_up_quiet _ tk w); [done|by rewrite grant_pass_next|done].
Qed.

Lemma wake_own m tk w now c p m' :
  table_ok (table m) → (next_ticket (table m) < u64_max)%N → claim (table m) tk w →
  wake m tk w now c = (p, m') → progress_ok (table m') tk w p.
Proof.
  intros Hok Hlt Hcl (b & t & Htg & Hrest)%wake_cases.
  pose proof (claim_settle _ _ _ _ _ (to_tickets _ Hok) Hlt Hcl Htg) as Hset.
  destruct b; [destruct Hrest as [-> ->]; exact Hset|].
  destruct Hrest as (-> & [[-> ->]|(o & -> & Ho & ->)]); [exact Hcl|].
  apply progress_refused; [done|]. by apply give_up_quiet.
Qed.

(** ** The whole call, whatever the other transactions do meanwhile *)

Lemma foldl_run_op_ok m ops : table_ok (table m) → table_ok (table (foldl run_op m ops)).
Proof. revert m. induction ops as [|op ops IH]; intros m Hok; simpl; [done|]. by apply IH, run_op_ok. Qed.

Lemma foldl_run_op_next m ops :
  table_ok (table m) → (next_ticket (table m) ≤ next_ticket (table (foldl run_op m ops)))%N.
Proof.
  revert m. induction ops as [|op ops IH]; intros m Hok; simpl; [done|].
  etrans; [by apply (run_op_next m op)|]. by apply IH, run_op_ok.
Qed.

Lemma foldl_run_op_claim m ops tk w :
  table_ok (table m) → (next_ticket (table (foldl run_op m ops)) < u64_max)%N →
  Forall (foreign tk (wt_txn w)) ops → claim (table m) tk w →
  claim (table (foldl run_op m ops)) tk w.
Proof.
  revert m. induction ops as [|op ops IH]; intros m Hok Hlt Hall Hcl; simpl in *; [done|].
  apply Forall_cons in Hall as [Hop Hall]. apply IH; [by apply run_op_ok|done|done|].
  apply run_op_claim; [done| |done..].
  pose proof (foldl_run_op_next (run_op m op) ops (run_op_ok _ _ Hok)). lia.
Qed.

Lemma wake_next m tk w now c p m' :
  wake m tk w now c = (p, m') → next_ticket (table m') = next_ticket (table m).
Proof.
  intros (b & t & Htg & Hrest)%wake_cases. apply take_granted_spec in Htg as (_ & Hn & _).
  destruct b; [by destruct Hrest as [_ ->]|].
  destruct Hrest as (-> & [[_ ->]|(? & _ & _ & ->)]); [done|by rewrite give_up_next].
Qed.

Lemma wait_loop_next m tk w wakeups o m' :
  table_ok (table m) → wait_loop m tk w wakeups = (o, m') →
  table_ok (table m') ∧ (next_ticket (table m) ≤ next_ticket (table m'))%N.
Proof.
  revert m. induction wakeups as [|k ks IH]; intros m Hok; simpl; [by intros [= _ <-]|].
  pose proof (foldl_run_op_ok m (wk_others k) Hok) as Hok1.
  pose proof (foldl_run_op_next m (wk_others k) Hok).
  destruct (wake _ _ _ _ _) as [p m1] eqn:Hw.
  pose proof (wake_ok _ _ _ _ _ _ _ Hok1 Hw). pose proof (wake_next _ _ _ _ _ _ _ Hw).
  destruct p; [intros [= _ <-]; split; [done|lia]|].
  intros [? ?]%IH; [|done]. split; [done|lia].
Qed.

Lemma wait_loop_own m tk w wakeups o m' :
  table_ok (table m) → claim (table m) tk w →
  Forall (λ k, Forall (foreign tk (wt_txn w)) (wk_others k)) wakeups →
  wait_loop m tk w wakeups = (o, m') → (next_ticket (table m') < u64_max)%N →
  progress_ok (table m') tk w (match o with Some o => Returned o | None => Parked end).
Proof.
  revert m. induction wakeups as [|k ks IH]; intros m Hok Hcl Hall; simpl; [by intros [= <- <-] _|].
  apply Forall_cons in Hall as [Hk Hall].
  set (m1 := foldl run_op m (wk_others k)).
  pose proof (foldl_run_op_ok m (wk_others k) Hok) as Hok1. fold m1 in Hok1.
  destruct (wake _ _ _ _ _) as [p m2] eqn:Hw. intros Hres Hlt.
  pose proof (wake_ok _ _ _ _ _ _ _ Hok1 Hw) as Hok2.
  pose proof (wake_next _ _ _ _ _ _ _ Hw) as Hn.
  assert (Hle : (next_ticket (table m2) ≤ next_ticket (table m'))%N).
  { destruct p; [by injection Hres as _ <-|]. by eapply wait_loop_next. }
  assert (Hp : progress_ok (table m2) tk w p).
  { apply (wake_own m1 tk w (wk_now k) (wk_cancelled k)); [done|lia| |done].
    apply foldl_run_op_claim; [done| |done..]. fold m1. lia. }
  destruct p as [o'|]; [by injection Hres as <- <-|]. by eapply IH.
Qed.

(** A transaction that comes to [try_acquire] with nothing queued. *)
Lemma try_acquire_own m now c txn r mode timeout wakeups o m' :
  table_ok (table m) → quiet (table m) txn →
  Forall (λ k, Forall (foreign (next_ticket (table m)) txn) (wk_others k)) wakeups →
  try_acquire m now c txn r mode timeout wakeups = (o, m') →
  (next_ticket (table m') < u64_max)%N →
  progress_ok (table m') (next_ticket (table m)) (mkWait txn r mode (deadline_of timeout now))
    (match o with Some o => Returned o | None => Parked end).
Proof.
  intros Hok Hq Hall. unfold try_acquire.
  destruct (request _ _ _ _ _ _ _) as [[p tk] m1] eqn:Hr. intros Hres Hlt.
  pose proof (request_ok _ _ _ _ _ _ _ _ _ _ Hok Hr) as Hok1.
  destruct p as [o'|].
  - injection Hres as <- <-. pose proof (request_own _ _ _ _ _ _ _ _ _ _ Hok Hlt Hq Hr) as Hp.
    by destruct o'.
  - assert (Htk : tk = next_ticket (table m)).
    { apply request_cases in Hr as [(? & _ & [=] & _)|(t & b & t' & Hen & _)].
      by apply enqueue_spec in Hen as (_ & _ & _ & _ & -> & _). }
    subst tk. pose proof (wait_loop_next _ _ _ _ _ _ Hok1 Hres) as [_ Hle].
    eapply wait_loop_own; [exact Hok1| |exact Hall|exact Hres|done].
    apply (request_own m now c txn r mode timeout Parked); [done|lia|done..].
Qed.

Lemma try_acquire_next m now c txn r mode timeout wakeups o m' :
  table_ok (table m) → try_acquire m now c txn r mode timeout wakeups = (o, m') →
  (next_ticket (table m) ≤ next_ticket (table m'))%N.
Proof.
  intros Hok. unfold try_acquire. destruct (request _ _ _ _ _ _ _) as [[p tk] m1] eqn:Hr.
  pose proof (request_ok _ _ _ _ _ _ _ _ _ _ Hok Hr) as Hok1.
  pose proof (run_op_next m (OpRequest now c txn r mode timeout) Hok) as Hle. simpl in Hle.
  rewrite Hr in Hle. destruct p; [by intros [= _ <-]|].
  intros [_ ?]%wait_loop_next; [|done]. simpl in Hle. lia.
Qed.

(** ** The system with one thread per transaction *)

(** Only a request puts something in a queue. *)
Lemma request_queue m now c txn r mode timeout p tk m' r' w :
  request m now c txn r mode timeout = (p, tk, m') →
  w ∈ queue (entry_at (table m') r') → w_txn w ≠ txn → w ∈ queue (entry_at (table m) r').
Proof.
  intros Hr Hw Hne.
  assert (Hen : ∃ req t, enqueue (table m) now txn r mode = (req, t) ∧ w ∈ queue (entry_at t r')).
  { apply request_cases in Hr as [(t & Hen & _ & Ht)|(t & b & t' & Hen & Htg & Hrest)].
    { rewrite Ht in Hw. eauto. }
    exists (Queued tk), t. split; [done|]. apply (grant_pass_queue t r).
    apply take_granted_spec in Htg as (He & _).
    assert (w ∈ queue (entry_at t' r')) as Hw'.
    { destruct b; [by destruct Hrest as [_ <-]|].
      destruct Hrest as [(_ & <- & _)|(? & _ & _ & Hg)]; [done|].
      rewrite Hg in Hw. by apply give_up_queue in Hw. }
    unfold entry_at in *. by rewrite <- He. }
  destruct Hen as (req & t & Hen & Hin).
  apply enqueue_spec in Hen as (_ & _ & Hother & _ & Hreq).
  destruct (decide (r' = r)) as [->|Hr']; [|by rewrite <- Hother].
  destruct req as [|tk'].
  - unfold entry_at in *. by rewrite <- (proj1 Hreq).
  - destruct Hreq as (_ & w0 & _ & Hw0 & _ & Hq). rewrite Hq in Hin.
    apply elem_of_cons in Hin as [->|]; [congruence|done].
Qed.

Lemma wake_queue m tk w0 now c p m' r w :
  wake m tk w0 now c = (p, m') →
  w ∈ queue (entry_at (table m') r) → w ∈ queue (entry_at (table m) r).
Proof.
  intros (b & t & Htg & Hrest)%wake_cases Hin. apply take_granted_spec in Htg as (He & _).
  destruct b; [destruct Hrest as [_ Ht]; rewrite Ht in Hin; unfold entry_at in *; by rewrite <- He|].
  destruct Hrest as (-> & [[_ Ht]|(? & _ & _ & Ht)]); rewrite Ht in Hin; [done|].
  by apply give_up_queue in Hin.
Qed.

Lemma strip_queue t r txn e r' w :
  entries t !! r = Some e →
  w ∈ queue (entry_at (mkLockTable (<[r := strip txn e]> (entries t)) (next_ticket t) (granted t)) r') →
  w ∈ queue (entry_at t r').
Proof.
  intros Hr. rewrite entry_at_insert. destruct (decide (r' = r)) as [->|]; [|done].
  unfold entry_at. rewrite Hr. simpl. by intros [_ ?]%list_elem_of_filter.
Qed.

Lemma unlock_queue t txn r res t' r' w :
  unlock t txn r = (res, t') → w ∈ queue (entry_at t' r') → w ∈ queue (entry_at t r').
Proof.
  unfold unlock. destruct (entries t !! r) as [e|] eqn:Hr; [|by intros [= _ <-]].
  case_bool_decide; intros [= _ <-]; [done|]. intros Hw%grant_pass_queue. by eapply strip_queue.
Qed.

Lemma release_one_queue t txn r r' w :
  w ∈ queue (entry_at (release_one txn t r) r') → w ∈ queue (entry_at t r').
Proof.
  unfold release_one. intros Hw%grant_pass_queue.
  destruct (entries t !! r) as [e|] eqn:Hr; [by eapply strip_queue|done].
Qed.

Lemma release_all_queue t txn r w :
  w ∈ queue (entry_at (release_all t txn) r) → w ∈ queue (entry_at t r).
Proof.
  unfold release_all. generalize ((map_to_list (filter (λ re, involves txn re.2) (entries t))).*1).
  intros l. revert t. induction l as [|r1 l IH]; intros t; simpl; [done|].
  by intros Hw%IH%release_one_queue.
Qed.

(** Every parked thread has its claim, every queued request its thread. *)
Record waits_ok (s : System) : Prop := {
  wk_claim : ∀ tk w, parked s !! tk = Some w → claim (table (mgr s)) tk w;
  wk_owner : ∀ r w', w' ∈ queue (entry_at (table (mgr s)) r) →
    ∃ w, parked s !! ticket w' = Some w ∧ wt_txn w = w_txn w';
}.

Lemma idle_quiet s txn : waits_ok s → idle s txn → quiet (table (mgr s)) txn.
Proof.
  intros [_ Ho] Hidle r w' Hw' Htx. destruct (Ho r w' Hw') as (w & Hp & Ht).
  apply (Hidle _ _ Hp). congruence.
Qed.

(** A step that neither parks nor wakes anyone, and queues nothing. *)
Lemma passive_waits_ok s m' :
  waits_ok s →
  (∀ tk w, parked s !! tk = Some w → claim (table m') tk w) →
  (∀ r w, w ∈ queue (entry_at (table m') r) → w ∈ queue (entry_at (table (mgr s)) r)) →
  waits_ok (mkSystem m' (parked s)).
Proof. intros [_ Ho] Hcl Hq. split; simpl; [done|]. intros r w' Hw'. by apply (Ho r), Hq. Qed.

Lemma request_waits_ok s now c txn r mode timeout p tk m' :
  table_ok (table (mgr s)) → (next_ticket (table (mgr s)) < u64_max)%N →
  (next_ticket (table m') < u64_max)%N → waits_ok s → idle s txn →
  request (mgr s) now c txn r mode timeout = (p, tk, m') →
  (∀ tk w, parked s !! tk = Some w → claim (table m') tk w) →
  waits_ok (mkSystem m'
    (if p is Parked then <[tk := mkWait txn r mode (deadline_of timeout now)]> (parked s)
     else parked s)).
Proof.
  intros Hok Hlt0 Hlt Hws Hidle Hr Hkeep.
  pose proof (request_own _ _ _ _ _ _ _ _ _ _ Hok Hlt (idle_quiet _ _ Hws Hidle) Hr) as Hp.
  pose proof Hws as [Hcl Hown].
  pose proof (λ r' w', request_queue _ _ _ _ _ _ _ _ _ _ r' w' Hr) as Hq.
  destruct p as [o|]; simpl in Hp.
  - assert (Hqt : quiet (table m') txn) by (destruct o; naive_solver).
    apply passive_waits_ok; [done..|]. intros r' w' Hw'. apply Hq; [done|]. by eapply Hqt.
  - assert (Htk : tk = next_ticket (table (mgr s))).
    { apply request_cases in Hr as [(? & _ & [=] & _)|(t & b & t' & Hen & _)].
      by apply enqueue_spec in Hen as (_ & _ & _ & _ & -> & _). }
    split; simpl.
    + intros tk' w [[<- <-]|[Hne Hp']]%lookup_insert_Some; eauto.
    + intros r' w' Hw'. destruct (decide (w_txn w' = txn)) as [Ht|Ht].
      * destruct (cl_alone _ _ _ Hp r' w' Hw' Ht) as [_ Htk'].
        rewrite Htk', lookup_insert_eq. eauto.
      * destruct (Hown r' w') as (w & Hp' & Hw); [by apply Hq|]. exists w. split; [|done].
        rewrite lookup_insert_ne; [done|].
        pose proof (claim_ticket_lt _ _ _ (to_tickets _ Hok) Hlt0 (Hcl _ _ Hp')). lia.
Qed.

Lemma wake_waits_ok s tk0 w0 now c p m' :
  table_ok (table (mgr s)) → (next_ticket (table (mgr s)) < u64_max)%N → waits_ok s →
  parked s !! tk0 = Some w0 → wake (mgr s) tk0 w0 now c = (p, m') →
  (∀ tk w, parked s !! tk = Some w → tk0 ≠ tk → claim (table m') tk w) →
  waits_ok (mkSystem m' (if p is Parked then parked s else delete tk0 (parked s))).
Proof.
  intros Hok Hlt Hws Hp0 Hw Hkeep. pose proof Hws as [Hcl Hown].
  pose proof (wake_own _ _ _ _ _ _ _ Hok Hlt (Hcl _ _ Hp0) Hw) as Hp.
  pose proof (λ r w', wake_queue _ _ _ _ _ _ _ r w' Hw) as Hq.
  destruct p as [o|]; simpl in Hp.
  - assert (Hqt : quiet (table m') (wt_txn w0)) by (destruct o; naive_solver). split; simpl.
    + intros tk w [Hne Hp']%lookup_delete_Some. by apply Hkeep.
    + intros r w' Hw'. destruct (Hown r w' (Hq _ _ Hw')) as (w & Hp' & Ht). exists w.
      split; [|done]. apply lookup_delete_Some. split; [|done]. intros Heq.
      rewrite Heq in Hp0. simplify_eq. by apply (Hqt r w').
  - apply passive_waits_ok; [done| |done]. intros tk w Hp'.
    destruct (decide (tk0 = tk)) as [->|]; [by simplify_eq|by apply Hkeep].
Qed.

Lemma step_waits_ok s op s' :
  table_ok (table (mgr s)) → (next_ticket (table (mgr s')) < u64_max)%N →
  waits_ok s → one_thread s op → step s op s' → waits_ok s'.
Proof.
  intros Hok Hlt Hws Hone Hst. destruct Hst as [Hwake]. simpl in *. pose proof Hws as [Hcl _].
  pose proof (run_op_next (mgr s) op Hok) as Hmono.
  assert (Hkeep : ∀ tk w, parked s !! tk = Some w → foreign tk (wt_txn w) op →
    claim (table (run_op (mgr s) op)) tk w).
  { intros tk w Hp Hf. apply run_op_claim; [exact Hok|exact Hlt|exact Hf|]. by apply Hcl. }
  assert (Hidle : ∀ txn tk w, idle s txn → parked s !! tk = Some w → txn ≠ wt_txn w).
  { intros txn tk w Hi Hp He. by apply (Hi _ _ Hp). }
  destruct op as [now c txn r mode timeout|tk0 w0 now c|txn r|txn|txn p]; simpl in *.
  - destruct (request _ _ _ _ _ _ _) as [[p tk] m'] eqn:Hr. simpl in *.
    pose proof (request_waits_ok s now c txn r mode timeout p tk m' Hok) as Hres.
    destruct p; apply Hres; eauto; lia.
  - destruct (wake _ _ _ _ _) as [p m'] eqn:Hw. simpl in *.
    pose proof (wake_waits_ok s tk0 w0 now c p m' Hok) as Hres.
    destruct p; apply Hres; eauto; lia.
  - apply passive_waits_ok; [done|eauto|]. unfold manager_unlock.
    destruct (unlock _ _ _) as [res t] eqn:Hu. intros r' w'. by apply (unlock_queue _ _ _ _ _ _ _ Hu).
  - apply passive_waits_ok; [done|eauto|]. intros r' w'. apply release_all_queue.
  - apply passive_waits_ok; eauto.
Qed.

Lemma reachable_seq_reachable s : reachable_seq s → reachable s.
Proof. induction 1 as [|s op s' _ IH _ Hst]; [constructor|]. by econstructor. Qed.

Lemma reachable_seq_waits s :
  reachable_seq s → (next_ticket (table (mgr s)) < u64_max)%N → waits_ok s.
Proof.
  induction 1 as [|s op s' Hs IH Hone Hst]; intros Hlt.
  - split; simpl; [done|]. intros r w'. unfold entry_at. simpl. rewrite lookup_empty. set_solver.
  - pose proof (reachable_ok _ (reachable_seq_reachable _ Hs)) as Hok.
    assert (Hle : (next_ticket (table (mgr s)) ≤ next_ticket (table (mgr s')))%N)
      by (destruct Hst; by apply run_op_next).
    eapply step_waits_ok; [done|done| |done..]. apply IH. lia.
Qed.

(** ** Deadlocks *)

(** A transaction that waits for another has a request in a queue. *)
Lemma elem_of_list_waiters t txn r m :
  (txn, r, m) ∈ list_waiters t → ∃ w, w ∈ queue (entry_at t r) ∧ w_txn w = txn ∧ w_mode w = m.
Proof.
  unfold list_waiters. intros ([r' e] & Hw & Hin)%list_elem_of_bind.
  apply elem_of_sorted_entries in Hin. apply list_elem_of_fmap in Hw as (w & [= -> -> ->] & Hw).
  exists w. unfold entry_at. rewrite Hin. eauto.
Qed.

Lemma waits_tc_queued t hs v :
  tc (waits_for (list_waiters t) hs) v v → ∃ r w, w ∈ queue (entry_at t r) ∧ w_txn w = v.
Proof.
  intros Hc. assert (∃ b, waits_for (list_waiters t) hs v b) as (b & _ & i & r & m & Hi & _)
    by (inversion Hc; eauto).
  apply list_elem_of_lookup_2, elem_of_list_waiters in Hi as (w & Hw & Ht & _). eauto.
Qed.
