(* ===== verification/LockTheorems.v ===== *)
(** * Giving locks back

    About [release_all] and [unlock] of [LockTable.v]: everything a transaction had is gone,
    the other transactions keep their locks and the candidates that were blocked are granted;
    and the order in which [release_all] walks its [HashMap] does not matter. *)

From S2P Require Import Prelude Errors LockMode LockTable Deadlock LockManager LockManagerFacts.

(** ** One entry at a time *)

Lemma grant_loop_acc hs q g :
  grant_loop hs q g =
  ((grant_loop hs q []).1, g ++ (grant_loop hs q []).2).
Proof.
  revert hs g. induction q as [|w q IH]; intros hs g; simpl; [by rewrite app_nil_r|].
  destruct (holders_allow _ _ _); [|by rewrite app_nil_r].
  rewrite IH, (IH _ [ticket w]). simpl. by rewrite <- app_assoc.
Qed.

(** The entry a grant pass makes of [e], [None] when nothing is left of it, and the tickets
    it grants. *)
Definition passed (e : Entry) : option Entry :=
  let '(hs, q, _) := grant_loop (holders e) (queue e) [] in
  if Entry_is_empty (mkEntry hs q) then None else Some (mkEntry hs q).
Definition passed_tickets (e : Entry) : list N := (grant_loop (holders e) (queue e) []).2.

Lemma grant_pass_passed t r e :
  entries t !! r = Some e →
  entries (grant_pass t r) !! r = passed e ∧
  granted (grant_pass t r) = granted t ++ passed_tickets e.
Proof.
  intros Hr. unfold grant_pass, passed, passed_tickets. rewrite Hr, grant_loop_acc.
  destruct (grant_loop _ _ []) as [[hs q] g]. simpl.
  destruct (Entry_is_empty _); by rewrite ?lookup_delete_eq, ?lookup_insert_eq.
Qed.

Section release.
Context (txn : TxnId).

Definition released (t : LockTable) (r : LockResource) : option Entry :=
  entries t !! r ≫= λ e, passed (strip txn e).
Definition released_tickets (t : LockTable) (r : LockResource) : list N :=
  match entries t !! r with Some e => passed_tickets (strip txn e) | None => [] end.

Lemma release_one_here t r :
  entries (release_one txn t r) !! r = released t r ∧
  granted (release_one txn t r) = granted t ++ released_tickets t r.
Proof.
  unfold release_one, released, released_tickets. destruct (entries t !! r) as [e|] eqn:Hr.
  - apply (grant_pass_passed
      (mkLockTable (<[r := strip txn e]> (entries t)) (next_ticket t) (granted t))).
    simpl. by rewrite lookup_insert_eq.
  - unfold grant_pass. rewrite Hr. by rewrite app_nil_r, Hr.
Qed.

Lemma release_one_other t r r' :
  r' ≠ r → entries (release_one txn t r) !! r' = entries t !! r'.
Proof.
  intros Hne. unfold release_one. rewrite grant_pass_other by done.
  destruct (entries t !! r); simpl; [by rewrite lookup_insert_ne|done].
Qed.

(** The whole loop, over resources that are all different. *)
Lemma release_loop t l :
  NoDup l →
  (∀ r, entries (foldl (release_one txn) t l) !! r =
        if decide (r ∈ l) then released t r else entries t !! r) ∧
  granted (foldl (release_one txn) t l) = granted t ++ (l ≫= released_tickets t) ∧
  next_ticket (foldl (release_one txn) t l) = next_ticket t.
Proof.
  revert t. induction l as [|r0 l IH]; intros t Hnd; simpl.
  { split; [|by rewrite app_nil_r]. intros r. destruct (decide (r ∈ [])) as [[]%not_elem_of_nil|]; done. }
  apply NoDup_cons in Hnd as [Hni Hnd]. destruct (IH (release_one txn t r0) Hnd) as (He & Hg & Hn).
  destruct (release_one_here t r0) as [Hhere Hgr]. split; [|split].
  - intros r. rewrite He. destruct (decide (r = r0)) as [->|Hne].
    + rewrite decide_False by done. by rewrite decide_True by set_solver.
    + unfold released. rewrite release_one_other by done.
      destruct (decide (r ∈ l)); [rewrite decide_True by set_solver|rewrite decide_False by set_solver]; done.
  - rewrite Hg, Hgr, <- app_assoc. do 2 f_equal. apply Forall_bind_ext, Forall_forall.
    intros r Hr. unfold released_tickets. by rewrite release_one_other by (by intros ->).
  - by rewrite Hn, release_one_next.
Qed.

(** The resources [release_all] visits. *)
Definition touched (t : LockTable) : list LockResource :=
  (map_to_list (filter (λ re, involves txn re.2) (entries t))).*1.

Lemma NoDup_touched t : NoDup (touched t).
Proof. apply NoDup_fst_map_to_list. Qed.

Lemma elem_of_touched t r :
  r ∈ touched t ↔ ∃ e, entries t !! r = Some e ∧ involves txn e.
Proof.
  unfold touched. rewrite list_elem_of_fmap. split.
  - intros ([r' e] & -> & Hin%elem_of_map_to_list). exists e.
    apply map_lookup_filter_Some in Hin as [Hr Hinv]. exact (conj Hr Hinv).
  - intros (e & Hr & Hinv). exists (r, e). split; [done|].
    apply elem_of_map_to_list, map_lookup_filter_Some. done.
Qed.

Lemma strip_id e : ¬ involves txn e → strip txn e = e.
Proof.
  unfold involves, strip. intros Hn. rewrite !filter_id; [by destruct e|..];
    apply Forall_forall; intros x Hx He; apply Hn; [right|left]; apply Exists_exists; eauto.
Qed.

Lemma passed_id e : entry_ok e → passed e = Some e.
Proof.
  intros [_ Hf Hu]. unfold passed, front_blocked in *. destruct e as [hs [|w q]]; simpl in *.
  - by rewrite Hu.
  - rewrite Hf. unfold Entry_is_empty in *. simpl in *. by rewrite Hu.
Qed.

(** On a well-formed table the visit of [release_all] is a visit of every resource. *)
Lemma release_all_lookup t r :
  table_ok t → entries (release_all t txn) !! r = released t r.
Proof.
  intros Hok. unfold release_all. fold (touched t).
  destruct (release_loop t (touched t) (NoDup_touched t)) as (He & _). rewrite He.
  destruct (decide (r ∈ touched t)) as [|Hni]; [done|]. unfold released.
  destruct (entries t !! r) as [e|] eqn:Hr; [|done]. simpl.
  rewrite strip_id; [by rewrite passed_id by apply (to_entries _ Hok _ _ Hr)|].
  intros Hinv. apply Hni, elem_of_touched. eauto.
Qed.
End release.

Lemma passed_entry e :
  ∃ gs e', queue e = gs ++ queue e' ∧
    holders e' = foldl (λ hs w, grant_to hs (w_txn w) (w_mode w)) (holders e) gs ∧
    default Entry_default (passed e) = e'.
Proof.
  unfold passed. destruct (grant_loop _ _ _) as [[hs q] g] eqn:Hl.
  apply grant_loop_spec in Hl as (gs & Hq & _ & Hh & _). exists gs, (mkEntry hs q).
  split; [done|]. split; [done|]. destruct (Entry_is_empty _) eqn:He; [|done].
  by apply Entry_is_empty_spec in He as ->.
Qed.

Lemma elem_of_grants gs hs h :
  h ∈ foldl (λ hs w, grant_to hs (w_txn w) (w_mode w)) hs gs →
  h ∈ hs ∨ ∃ w, w ∈ gs ∧ h = mkHolder (w_txn w) (w_mode w).
Proof.
  revert hs. induction gs as [|w gs IH]; intros hs; simpl; [by left|].
  intros [Hin|(w' & Hw' & ->)]%IH; [|right; exists w'; set_solver].
  destruct (grant_to_cases hs (w_txn w) (w_mode w)) as [(l1 & h0 & l2 & -> & _ & He)|[_ He]];
    rewrite He in Hin.
  - apply elem_of_app in Hin as [Hin|[->|Hin]%elem_of_cons]; [left; set_solver| |left; set_solver].
    right. exists w. split; [by left|done].
  - apply elem_of_app in Hin as [Hin| ->%list_elem_of_singleton]; [by left|].
    right. exists w. split; [by left|done].
Qed.

Lemma grants_keys gs hs k :
  k ∈ lock_key <$> hs →
  k ∈ lock_key <$> foldl (λ hs w, grant_to hs (w_txn w) (w_mode w)) hs gs.
Proof.
  revert hs. induction gs as [|w gs IH]; intros hs Hk; simpl; [done|].
  apply IH. destruct (grant_to_keys hs (w_txn w) (w_mode w)) as [->|[_ ->]]; [done|].
  apply elem_of_app. by left.
Qed.

(** After [release_all], on one resource. *)
Lemma release_all_entry t txn r :
  table_ok t →
  ∃ gs, filter (λ w, w_txn w ≠ txn) (queue (entry_at t r)) =
          gs ++ queue (entry_at (release_all t txn) r) ∧
    holders (entry_at (release_all t txn) r) =
      foldl (λ hs w, grant_to hs (w_txn w) (w_mode w))
        (filter (λ h, h_txn h ≠ txn) (holders (entry_at t r))) gs.
Proof.
  intros Hok. unfold entry_at at 2 3. rewrite release_all_lookup by done. unfold released.
  unfold entry_at. destruct (entries t !! r) as [e|]; simpl; [|by exists []].
  destruct (passed_entry (strip txn e)) as (gs & e' & Hq & Hh & ->). by exists gs.
Qed.

(** What [unlock] leaves. *)
Lemma unlock_entry t txn r res t' :
  unlock t txn r = (res, t') →
  match res with
  | Err e => e = not_held txn r ∧ t' = t ∧ ∀ h, h ∈ holders (entry_at t r) → h_txn h ≠ txn
  | Ok _ => (∃ h, h ∈ holders (entry_at t r) ∧ h_txn h = txn) ∧
      (∀ h, h ∈ holders (entry_at t' r) → h_txn h ≠ txn) ∧
      (∀ w, w ∈ queue (entry_at t' r) → w_txn w ≠ txn) ∧
      (∀ r', r' ≠ r → entry_at t' r' = entry_at t r')
  end.
Proof.
  unfold unlock. destruct (entries t !! r) as [e|] eqn:Hr.
  2:{ intros [= <- <-]. split_and!; try done. unfold entry_at. rewrite Hr. set_solver. }
  assert (entry_at t r = e) as Hat by (unfold entry_at; by rewrite Hr). rewrite Hat.
  case_bool_decide as Hlen; intros [= <- <-].
  - split_and!; try done. by apply (filter_length_all _ (holders e)).
  - split; [by apply (filter_length_some _ (holders e))|].
    set (t1 := mkLockTable _ _ _). destruct (grant_pass_entry t1 r) as (gs & Hq & _ & Hh & _).
    assert (Hat1 : entry_at t1 r = strip txn e)
      by (unfold t1; by rewrite entry_at_insert, decide_True).
    rewrite Hat1 in Hq, Hh.
    assert (Hgs : ∀ w, w ∈ gs ++ queue (entry_at (grant_pass t1 r) r) → w_txn w ≠ txn).
    { intros w. rewrite <- Hq. by intros [? _]%list_elem_of_filter. }
    split; [|split].
    + intros h. rewrite Hh. intros [[? _]%list_elem_of_filter|(w & Hw & ->)]%elem_of_grants; [done|].
      apply Hgs. set_solver.
    + intros w Hw. apply Hgs. set_solver.
    + intros r' Hne. rewrite grant_pass_entry_other by done.
      unfold t1. by rewrite entry_at_insert, decide_False.
Qed.

(** * Theorems about the lock manager

    The properties of the lock manager and of its deadlock detection, each with an instance
    on a concrete schedule. *)

(** ** Schedules *)

(** A step that is possible, of a transaction that is not parked elsewhere. *)
Definition may_step (s : System) (op : Op) : Prop :=
  match op with
  | OpRequest _ _ txn _ _ _ | OpUnlock txn _ | OpReleaseAll txn => idle s txn
  | OpWake tk w _ _ => parked s !! tk = Some w
  | OpSetPriority _ _ => True
  end.

#[export] Instance LockTimeout_eq_dec : EqDecision LockTimeout.
Proof. solve_decision. Defined.
#[export] Instance Wait_eq_dec : EqDecision Wait.
Proof. solve_decision. Defined.
#[export] Instance may_step_dec s op : Decision (may_step s op).
Proof. unfold may_step, idle. destruct op; apply _. Defined.

Fixpoint run (s : System) (ops : list Op) : System :=
  match ops with
  | [] => s
  | op :: ops =>
      if decide (may_step s op)
      then run (mkSystem (run_op (mgr s) op) (parked_after s op)) ops else s
  end.

Lemma run_reachable s ops : reachable_seq s → reachable_seq (run s ops).
Proof.
  revert s. induction ops as [|op ops IH]; intros s Hs; simpl; [done|].
  destruct (decide (may_step s op)) as [Hm|]; [|done]. apply IH. apply (reachable_seq_step s op).
  - exact Hs.
  - destruct op; first [exact Hm|exact I].
  - constructor. intros tk w now c ->. exact Hm.
Qed.

Definition request_op (txn : TxnId) (r : LockResource) (mode : LockMode) : Op :=
  OpRequest 0 false txn r mode Infinite.

(** Transactions 1 and 2 hold a row each and ask for the other's; 3 waits behind 2. *)
Definition crossed : System :=
  run System_new [request_op 1 (Row 7 1) LockMode.X; request_op 2 (Row 7 2) LockMode.X;
    request_op 2 (Row 7 1) LockMode.S; request_op 3 (Row 7 1) LockMode.S].

Definition deadlocked : System := run crossed [request_op 1 (Row 7 2) LockMode.X].

Lemma run_new_reachable ops : reachable_seq (run System_new ops).
Proof. apply run_reachable. constructor. Qed.

Lemma crossed_reachable : reachable_seq crossed.
Proof. apply run_new_reachable. Qed.

(** ** Exclusion *)

(** C1. In every interleaving of requests, wake-ups and releases by any number of threads,
    two transactions never hold incompatible modes on one resource, and a transaction holds
    at most one data mode and one schema mode on it. *)
Theorem locks_exclude s r :
  reachable s →
  (∀ h1 h2, h1 ∈ holders (entry_at (table (mgr s)) r) → h2 ∈ holders (entry_at (table (mgr s)) r) →
     h_txn h1 ≠ h_txn h2 → LockMode.compatible_with (h_mode h1) (h_mode h2) = true) ∧
  (∀ h1 h2, h1 ∈ holders (entry_at (table (mgr s)) r) → h2 ∈ holders (entry_at (table (mgr s)) r) →
     h_txn h1 = h_txn h2 → LockMode.is_data (h_mode h1) = LockMode.is_data (h_mode h2) → h1 = h2).
Proof.
  intros Hs%reachable_ok. destruct (ep_holders _ (entry_at_pre _ r Hs)) as [Hc Hnd].
  split; [exact Hc|]. intros h1 h2 [i Hi]%list_elem_of_lookup [j Hj]%list_elem_of_lookup Ht Hd.
  enough (i = j) by (subst; congruence). eapply NoDup_lookup; [exact Hnd|..];
    rewrite list_lookup_fmap; [by rewrite Hi|]. rewrite Hj. simpl. unfold lock_key. by rewrite Ht, Hd.
Qed.

Lemma locks_exclude_witness :
  (∀ h1 h2, h1 ∈ holders (entry_at (table (mgr crossed)) (Row 7 1)) →
     h2 ∈ holders (entry_at (table (mgr crossed)) (Row 7 1)) →
     h_txn h1 ≠ h_txn h2 → LockMode.compatible_with (h_mode h1) (h_mode h2) = true) ∧
  holders (entry_at (table (mgr crossed)) (Row 7 1)) = [mkHolder 1 LockMode.X].
Proof.
  split; [|vm_compute; reflexivity].
  exact (proj1 (locks_exclude crossed (Row 7 1) (reachable_seq_reachable _ crossed_reachable))).
Defined.

(** The manager never leaves a lock idle: whenever somebody waits on a resource, the
    first of the queue is refused by a lock another transaction holds there. *)
Theorem waiter_is_blocked s r w q :
  reachable s → queue (entry_at (table (mgr s)) r) = w :: q →
  ∃ h, h ∈ holders (entry_at (table (mgr s)) r) ∧ h_txn h ≠ w_txn w ∧
    LockMode.compatible_with (w_mode w) (h_mode h) = false.
Proof.
  intros Hs%reachable_ok Hq. unfold entry_at in *.
  destruct (entries _ !! r) as [e|] eqn:Hr; simpl in *; [|done].
  destruct (to_entries _ Hs _ _ Hr) as [_ Hf _]. rewrite Hq in Hf. simpl in Hf.
  apply holders_allow_false in Hf as (h & Hin & Ht & Hc). eauto.
Qed.

Lemma waiter_is_blocked_witness :
  ∃ h, h ∈ holders (entry_at (table (mgr crossed)) (Row 7 1)) ∧ h_txn h ≠ 2%N ∧
    LockMode.compatible_with LockMode.S (h_mode h) = false.
Proof.
  apply (waiter_is_blocked crossed (Row 7 1) (mkWaiter 2 2 LockMode.S false 0)
    [mkWaiter 3 3 LockMode.S false 0] (reachable_seq_reachable _ crossed_reachable)).
  vm_compute. reflexivity.
Defined.

(** ** Requests *)

(** The queue is fair: a pass over a resource grants a prefix of its queue, in order,
    stops at the first candidate a holder of another transaction refuses, and hands each
    granted ticket to its thread; no other resource is touched. *)
Theorem grant_pass_is_fifo t r :
  ∃ gs, queue (entry_at t r) = gs ++ queue (entry_at (grant_pass t r) r) ∧
    granted (grant_pass t r) = granted t ++ (ticket <$> gs) ∧
    holders (entry_at (grant_pass t r) r) =
      foldl (λ hs w, grant_to hs (w_txn w) (w_mode w)) (holders (entry_at t r)) gs ∧
    (∀ w q, queue (entry_at (grant_pass t r) r) = w :: q →
       ∃ h, h ∈ holders (entry_at (grant_pass t r) r) ∧ h_txn h ≠ w_txn w ∧
         LockMode.compatible_with (w_mode w) (h_mode h) = false) ∧
    (∀ r', r' ≠ r → entry_at (grant_pass t r) r' = entry_at t r').
Proof.
  destruct (grant_pass_entry t r) as (gs & Hq & Hg & Hh & Hf). exists gs.
  split_and!; [done..| |by apply grant_pass_entry_other].
  intros w q Hwq. rewrite Hwq in Hf. by apply holders_allow_false in Hf.
Qed.

(** C7. When each transaction has one thread at a time, a call of [lock] that answers [Ok]
    leaves the transaction with a mode that covers the one it asked for, whatever the other
    transactions did while it waited; a call that answers an error leaves nothing of the
    transaction in any queue; and a call that has not returned is queued or already granted. *)
Theorem lock_grants_what_it_says s now c txn r mode timeout wakeups res m' :
  reachable_seq s → idle s txn →
  Forall (λ k, Forall (foreign (next_ticket (table (mgr s))) txn) (wk_others k)) wakeups →
  lock (mgr s) now c txn r mode timeout wakeups = (res, m') →
  (next_ticket (table m') < u64_max)%N →
  match res with
  | Some (Ok _) => holds (table m') txn r mode ∧ quiet (table m') txn
  | Some (Err _) => quiet (table m') txn
  | None => claim (table m') (next_ticket (table (mgr s)))
      (mkWait txn r mode (deadline_of timeout now))
  end.
Proof.
  intros Hs Hidle Hall Hl Hlt. pose proof (reachable_ok _ (reachable_seq_reachable _ Hs)) as Hok.
  revert Hl. unfold lock. destruct (try_acquire _ _ _ _ _ _ _ _) as [o m1] eqn:Ht.
  intros [= <- <-].
  assert (Hlt0 : (next_ticket (table (mgr s)) < u64_max)%N).
  { pose proof (try_acquire_next _ _ _ _ _ _ _ _ _ _ Hok Ht). lia. }
  pose proof (try_acquire_own _ _ _ _ _ _ _ _ _ _ Hok
    (idle_quiet _ _ (reachable_seq_waits _ Hs Hlt0) Hidle) Hall Ht Hlt) as Hp.
  by destruct o as [[]|].
Qed.

(** Transaction 3 asks for the row 1 holds, waits while 1 gives it back, and is granted. *)
Lemma lock_grants_what_it_says_witness :
  holds (table (lock (mgr (run System_new [request_op 1 (Row 7 1) LockMode.X])) 0 false 3 (Row 7 1)
    LockMode.S (Millis 5) [mkWakeup [OpReleaseAll 1] 10 false]).2) 3 (Row 7 1) LockMode.S.
Proof.
  refine (proj1 (lock_grants_what_it_says (run System_new [request_op 1 (Row 7 1) LockMode.X])
    0 false 3 (Row 7 1) LockMode.S (Millis 5) [mkWakeup [OpReleaseAll 1] 10 false] (Some (Ok ())) _
    (run_new_reachable _) _ _ _ _)).
  - apply (bool_decide_unpack _). vm_compute. exact I.
  - repeat constructor; discriminate.
  - vm_compute. reflexivity.
  - vm_compute. reflexivity.
Defined.

(** No thread is lost: with one thread per transaction, each thread parked in
    [try_acquire] either has its request in the queue of the resource, in a mode covering
    the one it asked for, or holds the lock already and will be told at its next wake-up. *)
Theorem parked_is_not_lost s tk w :
  reachable_seq s → (next_ticket (table (mgr s)) < u64_max)%N → parked s !! tk = Some w →
  (∃ w', w' ∈ queue (entry_at (table (mgr s)) (wt_resource w)) ∧ ticket w' = tk ∧
     w_txn w' = wt_txn w ∧ LockMode.covers (w_mode w') (wt_mode w) = true) ∨
  (holds (table (mgr s)) (wt_txn w) (wt_resource w) (wt_mode w) ∧
   ∀ now c, (wake (mgr s) tk w now c).1 = Returned Granted).
Proof.
  intros Hs Hlt Hp. destruct (wk_claim _ (reachable_seq_waits _ Hs Hlt) _ _ Hp) as [_ [Hq|[Hin Hh]]].
  - by left.
  - right. split; [done|]. intros now c. unfold wake.
    destruct (take_granted _ _) as [b t] eqn:Htg. apply take_granted_spec in Htg as (_ & _ & Hb).
    destruct b; [done|]. by destruct Hb.
Qed.

Lemma parked_is_not_lost_witness :
  (∃ w', w' ∈ queue (entry_at (table (mgr crossed)) (Row 7 1)) ∧ ticket w' = 3%N ∧
     w_txn w' = 3%N ∧ LockMode.covers (w_mode w') LockMode.S = true) ∨
  (holds (table (mgr crossed)) 3 (Row 7 1) LockMode.S ∧
   ∀ now c, (wake (mgr crossed) 3 (mkWait 3 (Row 7 1) LockMode.S None) now c).1 = Returned Granted).
Proof.
  apply (parked_is_not_lost crossed 3 (mkWait 3 (Row 7 1) LockMode.S None) crossed_reachable);
    vm_compute; reflexivity.
Defined.

(** ** Giving locks back *)

(** After [release_all] the transaction holds and queues nothing; every lock of the
    other transactions is still there, possibly converted; and every lock that was not there
    before was first in line in the queue of its resource. *)
Theorem release_all_frees t txn r :
  table_ok t →
  (∀ h, h ∈ holders (entry_at (release_all t txn) r) → h_txn h ≠ txn) ∧
  (∀ w, w ∈ queue (entry_at (release_all t txn) r) → w_txn w ≠ txn) ∧
  (∀ h, h ∈ holders (entry_at t r) → h_txn h ≠ txn →
     lock_key h ∈ lock_key <$> holders (entry_at (release_all t txn) r)) ∧
  (∀ h, h ∈ holders (entry_at (release_all t txn) r) → h ∉ holders (entry_at t r) →
     ∃ gs w, w ∈ gs ∧ h = mkHolder (w_txn w) (w_mode w) ∧
       filter (λ w, w_txn w ≠ txn) (queue (entry_at t r)) =
       gs ++ queue (entry_at (release_all t txn) r)).
Proof.
  intros Hok. destruct (release_all_entry t txn r Hok) as (gs & Hq & Hh).
  assert (Hgs : ∀ w, w ∈ gs ++ queue (entry_at (release_all t txn) r) → w_txn w ≠ txn).
  { intros w. rewrite <- Hq. by intros [? _]%list_elem_of_filter. }
  split; [|split; [|split]].
  - intros h. rewrite Hh. intros [[? _]%list_elem_of_filter|(w & Hw & ->)]%elem_of_grants; [done|].
    apply Hgs. set_solver.
  - intros w Hw. apply Hgs. set_solver.
  - intros h Hin Hne. rewrite Hh. apply grants_keys, list_elem_of_fmap_2, list_elem_of_filter. done.
  - intros h. rewrite Hh. intros [[_ ?]%list_elem_of_filter|(w & Hw & ->)]%elem_of_grants Hni; [done|].
    by exists gs, w.
Qed.

Lemma release_all_frees_witness :
  (∀ h, h ∈ holders (entry_at (release_all (table (mgr crossed)) 1) (Row 7 1)) → h_txn h ≠ 1%N) ∧
  holders (entry_at (release_all (table (mgr crossed)) 1) (Row 7 1)) =
    [mkHolder 2 LockMode.S; mkHolder 3 LockMode.S].
Proof.
  split; [|vm_compute; reflexivity].
  exact (proj1 (release_all_frees (table (mgr crossed)) 1 (Row 7 1)
    (reachable_ok _ (reachable_seq_reachable _ crossed_reachable)))).
Defined.

(** The order in which [release_all] visits the resources of its [HashMap] does not
    matter: any order gives the same holders and queues and grants the same tickets. *)
Theorem release_all_any_order t txn l :
  l ≡ₚ touched txn t →
  entries (foldl (release_one txn) t l) = entries (release_all t txn) ∧
  granted (foldl (release_one txn) t l) ≡ₚ granted (release_all t txn) ∧
  next_ticket (foldl (release_one txn) t l) = next_ticket (release_all t txn).
Proof.
  intros Hp. unfold release_all. fold (touched txn t).
  assert (Hnd : NoDup l) by (rewrite Hp; apply NoDup_touched).
  destruct (release_loop txn t l Hnd) as (He1 & Hg1 & Hn1).
  destruct (release_loop txn t _ (NoDup_touched txn t)) as (He2 & Hg2 & Hn2). split; [|split].
  - apply map_eq. intros r. rewrite He1, He2.
    destruct (decide (r ∈ l)) as [Hin|Hni]; rewrite Hp in *;
      [by rewrite decide_True|by rewrite decide_False].
  - rewrite Hg1, Hg2. by rewrite Hp.
  - by rewrite Hn1, Hn2.
Qed.

Lemma release_all_any_order_witness :
  entries (foldl (release_one 2) (table (mgr crossed)) [Row 7 2; Row 7 1]) =
  entries (release_all (table (mgr crossed)) 2).
Proof.
  refine (proj1 (release_all_any_order (table (mgr crossed)) 2 [Row 7 2; Row 7 1] _)).
  assert (touched 2 (table (mgr crossed)) = [Row 7 1; Row 7 2] ∨
          touched 2 (table (mgr crossed)) = [Row 7 2; Row 7 1]) as [-> | ->].
  - vm_compute. first [left; reflexivity|right; reflexivity].
  - apply Permutation_swap.
  - reflexivity.
Defined.

(** [unlock] answers an error exactly when the transaction holds nothing on the
    resource, and then changes nothing; otherwise nothing of the transaction is left there,
    and the other resources are as they were. *)
Theorem unlock_spec t txn r res t' :
  unlock t txn r = (res, t') →
  match res with
  | Err e => e = not_held txn r ∧ t' = t ∧ ∀ h, h ∈ holders (entry_at t r) → h_txn h ≠ txn
  | Ok _ => (∃ h, h ∈ holders (entry_at t r) ∧ h_txn h = txn) ∧
      (∀ h, h ∈ holders (entry_at t' r) → h_txn h ≠ txn) ∧
      (∀ w, w ∈ queue (entry_at t' r) → w_txn w ≠ txn) ∧
      (∀ r', r' ≠ r → entry_at t' r' = entry_at t r')
  end.
Proof. apply unlock_entry. Qed.

Lemma unlock_spec_witness :
  unlock (table (mgr crossed)) 3 (Row 7 1) = (Err (not_held 3 (Row 7 1)), table (mgr crossed)) ∧
  ∀ h, h ∈ holders (entry_at (table (mgr crossed)) (Row 7 1)) → h_txn h ≠ 3%N.
Proof.
  assert (H : unlock (table (mgr crossed)) 3 (Row 7 1) =
    (Err (not_held 3 (Row 7 1)), table (mgr crossed))) by (vm_compute; reflexivity).
  exact (conj H (proj2 (proj2 (unlock_spec _ _ _ _ _ H)))).
Defined.

(** ** Deadlocks *)

Notation waits_in m := (waits_for (list_waiters (table m)) (list_holders (table m))).
Notation detect_in m := (detect (priorities m) (list_waiters (table m)) (list_holders (table m))).

(** C31. The walk over the wait-for graph always ends within its bound, and finds a cycle
    from a node exactly when the edges lead from it to a node that can reach itself. *)
Theorem cycle_from_exact g start :
  walk g (walk_fuel g start) (mkWalk [(start, 0)] {[start]} ∅) = Some (cycle_from g start) ∧
  (is_Some (cycle_from g start) ↔ ∃ t, rtc (edge g) start t ∧ tc (edge g) t t) ∧
  (∀ c, cycle_from g start = Some c → NoDup c ∧ ∀ t, t ∈ c → rtc (edge g) start t ∧ tc (edge g) t t).
Proof.
  split; [|split].
  - unfold cycle_from.
    by destruct (walk_total g start _ _ (walk_ok_init g start) (walk_fuel_enough g start)) as [r ->].
  - apply cycle_from_spec.
  - intros c Hc. pose proof (cycle_from_cases g start) as Hcase. rewrite Hc in Hcase.
    destruct Hcase as (Hl & a & Ha & Hr). split; [apply Hl|]. intros t Ht. split.
    + eapply rtc_first_live_edge. etrans; [exact Hr|].
      eapply live_cycle_reach; [exact Hl|by apply head_elem_of|done].
    + by eapply live_cycle_tc.
Qed.

(** The edges of the graph are the waits of the lock table: a request waits for each
    other transaction that holds a mode refusing it on its resource, and for each other
    transaction with a request ahead of it in the same queue. *)
Theorem wait_for_graph_exact waiters holders a b :
  b ∈ successors (wait_for_graph waiters holders) a ↔
  a ≠ b ∧ ∃ i r m, waiters !! i = Some (a, r, m) ∧
    ((∃ m', (b, r, m') ∈ holders ∧ LockMode.compatible_with m m' = false) ∨
     (∃ j m', j < i ∧ waiters !! j = Some (b, r, m'))).
Proof. apply wait_for_graph_edge. Qed.

(** [detect] tells a transaction to give way only when it waits on itself through other
    transactions, and names no one but the caller. *)
Theorem detect_is_sound priorities waiters holders txn v :
  detect priorities waiters holders txn = Some v →
  v = txn ∧ tc (waits_for waiters holders) txn txn.
Proof. apply detect_Some. Qed.

Lemma detect_is_sound_witness :
  detect_in (mgr deadlocked) 1%N = None ∧ tc (waits_in (mgr deadlocked)) 2%N 2%N.
Proof.
  split; [vm_compute; reflexivity|].
  refine (proj2 (detect_is_sound (priorities (mgr deadlocked)) _ _ 2%N 2%N _)).
  vm_compute. reflexivity.
Defined.

(** Every cycle of waits the walk finds has exactly one victim: the member with the
    lowest priority, then the fewest write locks, then the largest identifier.  It is the
    one member that is told, and all the members agree on it. *)
Theorem one_victim_per_cycle priorities waiters holders start c :
  cycle_from (wait_for_graph waiters holders) start = Some c →
  ∃ v, v ∈ c ∧ detect priorities waiters holders v = Some v ∧
    (∀ u, u ∈ c → u ≠ v → detect priorities waiters holders u = None) ∧
    (∀ u, u ∈ c → u ≠ v → victim_lt priorities holders v u = true).
Proof.
  intros Hc. pose proof (cycle_from_cases (wait_for_graph waiters holders) start) as Hcase.
  rewrite Hc in Hcase. destruct Hcase as [Hl _].
  destruct (detect_cycle priorities _ _ _ Hl) as (v & Hv & Hd & [_ Hmin] & Hothers).
  exists v. eauto.
Qed.

Lemma one_victim_per_cycle_witness :
  ∃ v, v ∈ [1; 2]%N ∧ detect_in (mgr deadlocked) v = Some v ∧
    (∀ u, u ∈ [1; 2]%N → u ≠ v → detect_in (mgr deadlocked) u = None) ∧
    (∀ u, u ∈ [1; 2]%N → u ≠ v →
       victim_lt (priorities (mgr deadlocked)) (list_holders (table (mgr deadlocked))) v u = true).
Proof.
  apply (one_victim_per_cycle (priorities (mgr deadlocked)) _ _ 1%N).
  vm_compute. reflexivity.
Defined.

(** C8. No deadlock lasts: when each transaction has one thread at a time and each transaction
    of a group waits for another one of the group, some parked thread reached by those waits is told at its next wake-up that its
    transaction is a deadlock victim, and leaves the queue. *)
Theorem deadlock_is_broken s (D : gset TxnId) t :
  reachable_seq s → (next_ticket (table (mgr s)) < u64_max)%N →
  t ∈ D → (∀ u, u ∈ D → ∃ u', u' ∈ D ∧ waits_in (mgr s) u u') →
  ∃ tk w, parked s !! tk = Some w ∧ rtc (waits_in (mgr s)) t (wt_txn w) ∧
    ∀ now, ∃ m', wake (mgr s) tk w now false = (Returned (DeadlockVictim (wt_txn w)), m') ∧
      quiet (table m') (wt_txn w).
Proof.
  intros Hs Hlt Ht Hknot.
  destruct (detect_knot (priorities (mgr s)) _ _ D t Ht Hknot) as (v & Hr & Hc & Hd).
  pose proof (reachable_seq_waits _ Hs Hlt) as Hws.
  destruct (waits_tc_queued _ _ _ Hc) as (r & w' & Hw' & Htx).
  destruct (wk_owner _ Hws r w' Hw') as (w & Hp & Hw). exists (ticket w'), w.
  rewrite Hw, Htx. split; [done|]. split; [done|]. intros now.
  pose proof (reachable_ok _ (reachable_seq_reachable _ Hs)) as Hok.
  destruct (wake (mgr s) (ticket w') w now false) as [p m'] eqn:Hwk. exists m'.
  pose proof (wake_own _ _ _ _ _ _ _ Hok Hlt (wk_claim _ Hws _ _ Hp) Hwk) as Hpo.
  assert (Hp' : p = Returned (DeadlockVictim v)).
  { revert Hwk. unfold wake. destruct (take_granted _ _) as [b tt] eqn:Htg.
    apply take_granted_spec in Htg as (_ & _ & Hb). destruct b.
    - exfalso. destruct (proj1 (proj2 (tickets_at _ r (to_tickets _ Hok) Hlt)) w' Hw') as [Hni _].
      apply Hni. rewrite Hb. by left.
    - destruct Hb as [-> _]. unfold before_park. simpl. rewrite Hw, Htx, Hd. by intros [= <- _]. }
  subst p. split; [done|]. simpl in Hpo. by rewrite Hw, Htx in Hpo.
Qed.

Lemma deadlock_is_broken_witness :
  ∃ tk w, parked deadlocked !! tk = Some w ∧ rtc (waits_in (mgr deadlocked)) 1%N (wt_txn w) ∧
    ∀ now, ∃ m', wake (mgr deadlocked) tk w now false =
        (Returned (DeadlockVictim (wt_txn w)), m') ∧ quiet (table m') (wt_txn w).
Proof.
  apply (deadlock_is_broken deadlocked {[1; 2]}%N 1%N).
  - apply run_reachable, crossed_reachable.
  - vm_compute. reflexivity.
  - set_solver.
  - intros u Hu. assert (u = 1 ∨ u = 2)%N as [-> | ->] by set_solver.
    + exists 2%N. split; [set_solver|]. split; [discriminate|].
      exists 2, (Row 7 2), LockMode.X. split; [vm_compute; reflexivity|]. left.
      exists LockMode.X. split; [|reflexivity].
      apply (bool_decide_unpack _). vm_compute. exact I.
    + exists 1%N. split; [set_solver|]. split; [discriminate|].
      exists 0, (Row 7 1), LockMode.S. split; [vm_compute; reflexivity|]. left.
      exists LockMode.X. split; [|reflexivity].
      apply (bool_decide_unpack _). vm_compute. exact I.
Defined.

(** ** A transaction with two requests in one queue *)

Lemma elem_of_granted_to hs txn mode h :
  NoDup (lock_key <$> hs) →
  h ∈ grant_to hs txn mode ↔ if decide (lock_key h = (txn, LockMode.is_data mode)) then h = mkHolder txn mode else h ∈ hs.
Proof.
  intros Hnd. destruct (grant_to_cases hs txn mode) as [(l1 & h0 & l2 & -> & Hs%same_lock_key & ->)|[Hall ->]].
  - rewrite fmap_app, fmap_cons in Hnd. apply NoDup_app in Hnd as (_ & Hl1 & [Hl2 _]%NoDup_cons).
    assert (Hno : ∀ h', h' ∈ l1 ∨ h' ∈ l2 → lock_key h' ≠ (txn, LockMode.is_data mode)).
    { intros h' Hin He. change (txn, LockMode.is_data mode) with (lock_key (mkHolder txn mode)) in He. rewrite <- Hs in He.
      destruct Hin as [Hin|Hin]; apply (list_elem_of_fmap_2 lock_key) in Hin; rewrite He in Hin; [|done].
      apply (Hl1 (lock_key h0) Hin). by left. }
    rewrite elem_of_app, elem_of_cons. case_decide as Hk.
    + split; [|intros ->; auto]. intros [Hin|[->|Hin]]; [|done|]; destruct (Hno h); auto.
    + rewrite elem_of_app, elem_of_cons. split; intros [Hin|[->|Hin]]; auto; by destruct Hk.
  - rewrite elem_of_app, list_elem_of_singleton. case_decide as Hk; [|split; [intros [?| ->]; [done|by destruct Hk]|by left]].
    split; [|by right]. intros [Hin| ->]; [|done]. rewrite Forall_forall in Hall. destruct (Hall h Hin). by apply same_lock_key.
Qed.

Lemma grants_nodup gs hs :
  NoDup (lock_key <$> hs) → NoDup (lock_key <$> foldl (λ hs w, grant_to hs (w_txn w) (w_mode w)) hs gs).
Proof.
  revert hs. induction gs as [|w gs IH]; intros hs Hnd; [done|]. apply IH.
  destruct (grant_to_keys hs (w_txn w) (w_mode w)) as [-> |[Hn ->]]; [done|]. apply NoDup_app. split; [done|].
  split; [|apply NoDup_singleton]. by intros k Hk ->%list_elem_of_singleton.
Qed.

(** What a pass leaves to a transaction, from the requests of it that it grants. *)
Lemma elem_of_all_grants gs hs h :
  NoDup (lock_key <$> hs) →
  h ∈ foldl (λ hs w, grant_to hs (w_txn w) (w_mode w)) hs gs ↔
  match list.last (filter (λ w, wait_key w = lock_key h) gs) with
  | Some w => h = mkHolder (w_txn w) (w_mode w)
  | None => h ∈ hs
  end.
Proof.
  intros Hnd. induction gs as [|w gs IH] using rev_ind; [done|].
  rewrite foldl_app, filter_app. cbn [foldl]. rewrite elem_of_granted_to by by apply grants_nodup.
  destruct (decide (lock_key h = _)) as [Hk|Hk].
  - rewrite (filter_cons_True _ w []) by done. change (w :: filter _ []) with [w]. by rewrite last_snoc.
  - rewrite (filter_cons_False _ w []) by by intros ?. change (filter _ []) with (@nil Waiter). by rewrite app_nil_r.
Qed.

(** C36. A pass over a queue leaves each transaction with the last of its requests that it grants,
    exactly: the granted requests are a prefix of the queue, and of one family of modes a
    transaction holds afterwards the mode of its last request in that prefix, or what it held
    before when there is none.  So when two threads of one transaction wait for one resource, the
    later request decides even when it is the weaker, and a thread that was granted [X] may be
    left with [S]. *)
Theorem grants_leave_the_last_request t r :
  NoDup (lock_key <$> holders (entry_at t r)) →
  ∃ gs, queue (entry_at t r) = gs ++ queue (entry_at (grant_pass t r) r) ∧
    granted (grant_pass t r) = granted t ++ (ticket <$> gs) ∧
    ∀ h, h ∈ holders (entry_at (grant_pass t r) r) ↔
      match list.last (filter (λ w, wait_key w = lock_key h) gs) with
      | Some w => h = mkHolder (w_txn w) (w_mode w)
      | None => h ∈ holders (entry_at t r)
      end.
Proof.
  intros Hnd. destruct (grant_pass_entry t r) as (gs & Hq & Hg & Hh & _). exists gs. split; [done|]. split; [done|].
  intros h. rewrite Hh. by apply elem_of_all_grants.
Qed.

(** Transaction 1 waits for [X] and then for [S] on a row that 2 has just given back. *)
Definition two_requests : LockTable :=
  mkLockTable {[Row 7 1 := mkEntry [] [mkWaiter 1 1 LockMode.X false 0; mkWaiter 2 1 LockMode.S false 0]]} 3 [].

Lemma grants_leave_the_last_request_witness :
  granted (grant_pass two_requests (Row 7 1)) = [1; 2]%N ∧
  mkHolder 1 LockMode.S ∈ holders (entry_at (grant_pass two_requests (Row 7 1)) (Row 7 1)) ∧
  mkHolder 1 LockMode.X ∉ holders (entry_at (grant_pass two_requests (Row 7 1)) (Row 7 1)).
Proof.
  destruct (grants_leave_the_last_request two_requests (Row 7 1)) as (gs & Hq & Hg & Hh); [constructor|].
  assert (gs = [mkWaiter 1 1 LockMode.X false 0; mkWaiter 2 1 LockMode.S false 0]) as ->.
  { assert (Hn : queue (entry_at (grant_pass two_requests (Row 7 1)) (Row 7 1)) = []) by (vm_compute; reflexivity).
    rewrite Hn, app_nil_r in Hq. rewrite <- Hq. vm_compute. reflexivity. }
  split; [exact Hg|]. split; [|intros Hx]; [by apply Hh|by apply Hh in Hx].
Defined.

(** ** A transaction with two threads *)

(** Transaction 1 asks for [X] and then for [S] on a row that 2 holds; 2 gives it back. *)
Definition two_threads : list Op :=
  [request_op 2 (Row 7 1) LockMode.X; request_op 1 (Row 7 1) LockMode.X;
   request_op 1 (Row 7 1) LockMode.S; OpReleaseAll 2].

(** Two requests of one transaction queued on one resource weaken each other: the
    thread that asked for [X] is told [Granted], and the transaction is left with [S], which
    lets a third transaction read the row. *)
Example second_request_weakens_the_first :
  ∃ s, reachable s ∧
    parked s !! 1%N = Some (mkWait 1 (Row 7 1) LockMode.X None) ∧
    (wake (mgr s) 1 (mkWait 1 (Row 7 1) LockMode.X None) 0 false).1 = Returned Granted ∧
    holders (entry_at (table (mgr s)) (Row 7 1)) = [mkHolder 1 LockMode.S] ∧
    ∃ tk m', request (mgr s) 0 false 3 (Row 7 1) LockMode.S NoWait = (Returned Granted, tk, m').
Proof.
  exists (foldl (λ s op, mkSystem (run_op (mgr s) op) (parked_after s op)) System_new two_threads).
  split.
  { assert (Hr : ∀ ops s, Forall (λ op, ∀ tk w now c, op ≠ OpWake tk w now c) ops → reachable s →
      reachable (foldl (λ s op, mkSystem (run_op (mgr s) op) (parked_after s op)) s ops)).
    { induction ops as [|op ops IH]; intros s Hops Hs; simpl; [done|].
      apply Forall_cons in Hops as [Hop Hops]. apply IH; [done|].
      apply (reachable_step s op); [done|]. constructor. intros tk w now c ->. by destruct (Hop tk w now c). }
    apply Hr; [|constructor]. repeat constructor; discriminate. }
  split; [vm_compute; reflexivity|]. split; [vm_compute; reflexivity|].
  split; [vm_compute; reflexivity|]. do 2 eexists. vm_compute. reflexivity.
Qed.
