(* ===== verification/Order.v ===== *)
(** * Orders given by a three-way comparison

    What it means for a comparison that answers an [Ordering] to be a total order, and the
    ways such orders are built: by projection, one after the other, on the integers. *)

From S2P Require Import Prelude.

#[local] Open Scope Z_scope.

(** [c] orders the elements of [P]: reflexive, total and transitive. *)
Class TotalOn {A} (P : A → Prop) (c : A → A → comparison) : Prop := {
  tc_refl : ∀ x, P x → c x x = Eq;
  tc_opp : ∀ x y, P x → P y → c y x = CompOpp (c x y);
  tc_trans : ∀ x y z, P x → P y → P z → c x y ≠ Gt → c y z ≠ Gt → c x z ≠ Gt;
}.

(** [Ordering::then_with]. *)
Definition then_with (o : comparison) (o' : comparison) : comparison :=
  match o with Eq => o' | _ => o end.

(** ** Building orders *)

Section total.
Context {A : Type} (P : A → Prop) (c : A → A → comparison) `{Hc : !TotalOn P c}.
Implicit Types x y z : A.

Lemma tc_lt_gt x y : P x → P y → c x y = Lt ↔ c y x = Gt.
Proof. intros Px Py. rewrite (@tc_opp _ P c _ x y Px Py). by destruct (c x y). Qed.

Lemma tc_le_ge x y : P x → P y → c x y ≠ Gt ↔ c y x ≠ Lt.
Proof. intros Px Py. rewrite (@tc_opp _ P c _ x y Px Py). by destruct (c x y). Qed.

Lemma tc_lt_le x y z : P x → P y → P z → c x y = Lt → c y z ≠ Gt → c x z = Lt.
Proof.
  intros Px Py Pz Hxy Hyz. destruct (decide (c x z = Lt)) as [|Hn]; [done|].
  apply (tc_le_ge z x Pz Px) in Hn. pose proof (@tc_trans _ P c _ y z x Py Pz Px Hyz Hn) as Hyx.
  by apply (tc_le_ge y x Py Px) in Hyx.
Qed.

Lemma tc_le_lt x y z : P x → P y → P z → c x y ≠ Gt → c y z = Lt → c x z = Lt.
Proof.
  intros Px Py Pz Hxy Hyz. destruct (decide (c x z = Lt)) as [|Hn]; [done|].
  apply (tc_le_ge z x Pz Px) in Hn. pose proof (@tc_trans _ P c _ z x y Pz Px Py Hn Hxy) as Hzy.
  by apply (tc_le_ge z y Pz Py) in Hzy.
Qed.

Lemma tc_eq x y : P x → P y → c x y = Eq ↔ c x y ≠ Gt ∧ c y x ≠ Gt.
Proof. intros Px Py. rewrite (@tc_opp _ P c _ x y Px Py). destruct (c x y); naive_solver. Qed.

Lemma tc_eq_sym x y : P x → P y → c x y = Eq → c y x = Eq.
Proof. intros Px Py He. by rewrite (@tc_opp _ P c _ x y), He. Qed.

Lemma tc_eq_trans x y z : P x → P y → P z → c x y = Eq → c y z = Eq → c x z = Eq.
Proof.
  intros Px Py Pz. rewrite !tc_eq by done. intros [] []. split; eapply (@tc_trans _ P c _) with y; done.
Qed.

(** Equal elements compare alike. *)
Lemma tc_eq_l x y z : P x → P y → P z → c x y = Eq → c x z = c y z.
Proof.
  intros Px Py Pz He. pose proof (tc_eq_sym _ _ Px Py He) as He'.
  destruct (c y z) eqn:Hyz.
  - by eapply tc_eq_trans with y.
  - apply (tc_le_lt x y z); [done..|by rewrite He|done].
  - apply (tc_lt_gt z y Pz Py) in Hyz. apply (tc_lt_gt z x Pz Px).
    apply (tc_lt_le z y x); [done..|by rewrite He'].
Qed.
End total.

Lemma total_weaken {A} (P Q : A → Prop) c : TotalOn P c → (∀ x, Q x → P x) → TotalOn Q c.
Proof. intros [] HQ. split; eauto. Qed.

Lemma total_ext {A} (P : A → Prop) c c' :
  TotalOn P c → (∀ x y, P x → P y → c' x y = c x y) → TotalOn P c'.
Proof.
  intros [Hr Ho Ht] He. split.
  - intros x Px. rewrite He by done. auto.
  - intros x y Px Py. rewrite !He by done. auto.
  - intros x y z Px Py Pz. rewrite !He by done. eauto.
Qed.

Lemma total_map {A B} (f : A → B) (P : B → Prop) c :
  TotalOn P c → TotalOn (λ x, P (f x)) (λ x y, c (f x) (f y)).
Proof. intros [Hr Ho Ht]. split; eauto. Qed.

Lemma total_then {A} (P : A → Prop) c1 c2 :
  TotalOn P c1 → TotalOn P c2 → TotalOn P (λ x y, then_with (c1 x y) (c2 x y)).
Proof.
  intros H1 H2. split.
  - intros x Px. by rewrite (@tc_refl _ P c1 _ x), (@tc_refl _ P c2 _ x).
  - intros x y Px Py. rewrite (@tc_opp _ P c1 _ x y), (@tc_opp _ P c2 _ x y) by done.
    by destruct (c1 x y), (c2 x y).
  - intros x y z Px Py Pz.
    destruct (c1 x y) eqn:Hxy; simpl; [|intros _|done].
    + rewrite (tc_eq_l P c1 x y z) by done. destruct (c1 y z); simpl; [|done..]. by apply (@tc_trans _ P c2 _).
    + intros Hyz. assert (c1 y z ≠ Gt) by (intros He; by rewrite He in Hyz).
      by rewrite (tc_lt_le P c1 x y z).
Qed.

Lemma total_Z : TotalOn (λ _, True) Z.compare.
Proof.
  split.
  - intros x _. apply Z.compare_refl.
  - intros x y _ _. apply Z.compare_antisym.
  - intros x y z _ _ _. fold (Z.le x y) (Z.le y z) (Z.le x z). lia.
Qed.

Lemma total_on_Z {A} (P : A → Prop) (f : A → Z) : TotalOn P (λ x y, f x ?= f y).
Proof. apply (total_weaken (λ _, True)); [|done]. apply (total_map f _ _ total_Z). Qed.
