(* ===== verification/CodePage.v ===== *)
(** * Code page 1252

    [vauban-types/src/code_page.rs]: the byte of a character and the character of a byte.
    Both functions take a collation and do not read it. *)

From S2P Require Import Prelude Values.

#[local] Open Scope Z_scope.

(** The 32 characters of the range 0x80 to 0x9F, in byte order. *)
Definition CP1252_HIGH_RANGE : list (option Z) := [
  Some 8364; None; Some 8218; Some 402; Some 8222; Some 8230; Some 8224; Some 8225;
  Some 710; Some 8240; Some 352; Some 8249; Some 338; None; Some 381; None;
  None; Some 8216; Some 8217; Some 8220; Some 8221; Some 8226; Some 8211; Some 8212;
  Some 732; Some 8482; Some 353; Some 8250; Some 339; None; Some 382; Some 376
].

Definition HIGH_RANGE_START : Z := 128.
Definition HIGH_RANGE_END : Z := 159.

(** The entry of a byte of the range; the source indexes the array, which has 32 entries. *)
Definition high_range (byte : Z) : option Z :=
  nth (Z.to_nat (byte - HIGH_RANGE_START)) CP1252_HIGH_RANGE None.

Definition encode (c : Z) (collation : Collation) : option Z :=
  if ((0 <=? c) && (c <=? 127)) || ((160 <=? c) && (c <=? 255)) then Some c
  else if (128 <=? c) && (c <=? 159) then
    match high_range c with None => Some c | Some _ => None end
  else
    match list_find (λ entry, entry = Some c) CP1252_HIGH_RANGE with
    | Some (index, _) => Some (HIGH_RANGE_START + Z.of_nat index)
    | None => None
    end.

Definition decode (byte : Z) (collation : Collation) : option Z :=
  if (HIGH_RANGE_START <=? byte) && (byte <=? HIGH_RANGE_END)
  then Some (default byte (high_range byte))
  else Some byte.

(** ** The two functions are inverse to each other *)

(** The bytes, for the cases that are decided one by one. *)
Definition bytes : list Z := seqZ 0 256.

Lemma elem_of_bytes b : b ∈ bytes ↔ 0 ≤ b < 256.
Proof. unfold bytes. rewrite elem_of_seqZ. lia. Qed.

Lemma encode_decode b collation :
  0 ≤ b < 256 → decode b collation ≫= (λ c, encode c collation) = Some b.
Proof.
  intros Hb%elem_of_bytes. revert b Hb. apply Forall_forall.
  apply (bool_decide_unpack _). vm_compute. exact I.
Qed.

Lemma decode_encode c b collation :
  0 ≤ c → encode c collation = Some b → 0 ≤ b < 256 ∧ decode b collation = Some c.
Proof.
  intros Hc. destruct (decide (c < 256)) as [Hlt|Hge].
  - assert (Hin : c ∈ bytes) by (apply elem_of_bytes; lia). revert c Hin Hc Hlt b.
    assert (Hall : Forall (λ c, match encode c collation with
      | Some b => bool_decide ((0 ≤ b < 256) ∧ decode b collation = Some c) | None => true end = true) bytes).
    { apply (bool_decide_unpack _). vm_compute. exact I. }
    intros c Hin _ _ b Hb. rewrite Forall_forall in Hall. specialize (Hall c Hin).
    rewrite Hb in Hall. by apply bool_decide_eq_true in Hall.
  - unfold encode.
    replace ((0 <=? c) && (c <=? 127) || (160 <=? c) && (c <=? 255)) with false by lia.
    replace ((128 <=? c) && (c <=? 159)) with false by lia.
    destruct (list_find _ _) as [[i e]|] eqn:Hf; [|done]. intros [= <-].
    apply list_find_Some in Hf as (Hi & -> & _).
    pose proof (lookup_lt_Some _ _ _ Hi) as Hlen. simpl in Hlen.
    unfold HIGH_RANGE_START. split; [lia|]. unfold decode, HIGH_RANGE_START, HIGH_RANGE_END.
    replace ((128 <=? 128 + Z.of_nat i) && (128 + Z.of_nat i <=? 159)) with true by lia.
    unfold high_range, HIGH_RANGE_START.
    replace (Z.to_nat (128 + Z.of_nat i - 128)) with i by lia.
    by rewrite (nth_lookup_Some _ _ None _ Hi).
Qed.
