(* ===== verification/Weights.v ===== *)
(** * The weight tables of the collations

    The three tables of [vauban-types/src/collation.rs], row by row, indexed by the byte of
    code page 1252. *)

From S2P Require Import Prelude.

#[local] Open Scope Z_scope.

(** The weights of one character under a table, one per sensitivity combination. *)
Record Weights := w { primary : Z; accent : Z; case_accent : Z; case_only : Z }.

#[export] Instance Weights_eq_dec : EqDecision Weights.
Proof. solve_decision. Defined.

(** [SQL_Latin1_General_CP1_*]. *)
Definition SQL_CP1_WEIGHTS : list Weights := [
  w 1 1 1 1; w 2 2 2 2; w 3 3 3 3; w 4 4 4 4;
  w 5 5 5 5; w 6 6 6 6; w 7 7 7 7; w 8 8 8 8;
  w 9 9 9 9; w 10 10 10 10; w 11 11 11 11; w 12 12 12 12;
  w 13 13 13 13; w 14 14 14 14; w 15 15 15 15; w 16 16 16 16;
  w 17 17 17 17; w 18 18 18 18; w 19 19 19 19; w 20 20 20 20;
  w 21 21 21 21; w 22 22 22 22; w 23 23 23 23; w 24 24 24 24;
  w 25 25 25 25; w 26 26 26 26; w 27 27 27 27; w 28 28 28 28;
  w 29 29 29 29; w 30 30 30 30; w 31 31 31 31; w 32 32 32 32;
  w 33 33 33 33; w 34 34 34 34; w 35 35 35 35; w 36 36 36 36;
  w 37 37 37 37; w 38 38 38 38; w 39 39 39 39; w 40 40 40 40;
  w 41 41 41 41; w 42 42 42 42; w 43 43 43 43; w 44 44 44 44;
  w 45 45 45 45; w 46 46 46 46; w 47 47 47 47; w 48 48 48 48;
  w 133 133 133 133; w 134 134 134 134; w 135 135 135 135; w 136 136 136 136;
  w 137 137 137 137; w 138 138 138 138; w 139 139 139 139; w 140 140 140 140;
  w 141 141 141 141; w 142 142 142 142; w 49 49 49 49; w 50 50 50 50;
  w 51 51 51 51; w 52 52 52 52; w 53 53 53 53; w 54 54 54 54;
  w 55 55 55 55; w 143 143 143 143; w 145 151 159 159; w 146 152 161 161;
  w 148 154 165 165; w 149 155 167 167; w 150 160 177 177; w 151 161 179 179;
  w 152 162 181 181; w 153 163 183 183; w 154 168 193 193; w 155 169 195 195;
  w 156 170 197 197; w 157 171 199 199; w 158 172 201 201; w 159 174 205 205;
  w 160 181 219 219; w 161 182 221 221; w 162 183 223 223; w 163 184 225 225;
  w 165 186 228 228; w 166 187 230 230; w 167 192 240 240; w 168 193 242 242;
  w 169 194 244 244; w 170 195 246 246; w 171 198 251 251; w 56 56 56 56;
  w 57 57 57 57; w 58 58 58 58; w 59 59 59 59; w 60 60 60 60;
  w 61 61 61 61; w 143 143 144 144; w 145 151 160 160; w 146 152 162 162;
  w 148 154 166 166; w 149 155 168 168; w 150 160 178 178; w 151 161 180 180;
  w 152 162 182 182; w 153 163 184 184; w 154 168 194 194; w 155 169 196 196;
  w 156 170 198 198; w 157 171 200 200; w 158 172 202 202; w 159 174 206 206;
  w 160 181 220 220; w 161 182 222 222; w 162 183 224 224; w 163 184 226 226;
  w 165 186 229 229; w 166 187 231 231; w 167 192 241 241; w 168 193 243 243;
  w 169 194 245 245; w 170 195 247 247; w 171 198 252 252; w 62 62 62 62;
  w 63 63 63 63; w 64 64 64 64; w 65 65 65 65; w 66 66 66 66;
  w 67 67 67 67; w 68 68 68 68; w 69 69 69 69; w 70 70 70 70;
  w 71 71 71 71; w 72 72 72 72; w 73 73 73 73; w 74 74 74 74;
  w 75 75 75 75; w 76 76 76 76; w 77 77 77 77; w 78 78 78 78;
  w 79 79 79 79; w 80 80 80 80; w 81 81 81 81; w 82 82 82 82;
  w 83 83 83 83; w 84 84 84 84; w 85 85 85 85; w 86 86 86 86;
  w 87 87 87 87; w 88 88 88 88; w 89 89 89 89; w 90 90 90 90;
  w 91 91 91 91; w 92 92 92 92; w 93 93 93 93; w 94 94 94 94;
  w 95 95 95 95; w 96 96 96 96; w 97 97 97 97; w 98 98 98 98;
  w 99 99 99 99; w 100 100 100 100; w 101 101 101 101; w 102 102 102 102;
  w 103 103 103 103; w 104 104 104 104; w 105 105 105 105; w 106 106 106 106;
  w 107 107 107 107; w 108 108 108 108; w 109 109 109 109; w 110 110 110 110;
  w 111 111 111 111; w 112 112 112 112; w 113 113 113 113; w 114 114 114 114;
  w 115 115 115 115; w 116 116 116 116; w 117 117 117 117; w 118 118 118 118;
  w 119 119 119 119; w 120 120 120 120; w 121 121 121 121; w 122 122 122 122;
  w 123 123 123 123; w 124 124 124 124; w 125 125 125 125; w 126 126 126 126;
  w 127 127 127 127; w 128 128 128 128; w 129 129 129 129; w 130 130 130 130;
  w 143 144 145 145; w 143 145 147 147; w 143 146 149 149; w 143 147 151 151;
  w 143 148 153 153; w 143 149 155 155; w 144 150 157 157; w 147 153 163 163;
  w 149 156 169 169; w 149 157 171 171; w 149 158 173 173; w 149 159 175 175;
  w 153 164 185 185; w 153 165 187 187; w 153 166 189 189; w 153 167 191 191;
  w 172 199 253 253; w 158 173 203 203; w 159 175 207 207; w 159 176 209 209;
  w 159 177 211 211; w 159 178 213 213; w 159 179 215 215; w 131 131 131 131;
  w 159 180 217 217; w 166 188 232 232; w 166 189 234 234; w 166 190 236 236;
  w 166 191 238 238; w 170 196 248 248; w 173 200 255 255; w 164 185 227 227;
  w 143 144 146 146; w 143 145 148 148; w 143 146 150 150; w 143 147 152 152;
  w 143 148 154 154; w 143 149 156 156; w 144 150 158 158; w 147 153 164 164;
  w 149 156 170 170; w 149 157 172 172; w 149 158 174 174; w 149 159 176 176;
  w 153 164 186 186; w 153 165 188 188; w 153 166 190 190; w 153 167 192 192;
  w 172 199 254 254; w 158 173 204 204; w 159 175 208 208; w 159 176 210 210;
  w 159 177 212 212; w 159 178 214 214; w 159 179 216 216; w 132 132 132 132;
  w 159 180 218 218; w 166 188 233 233; w 166 189 235 235; w 166 190 237 237;
  w 166 191 239 239; w 170 196 249 249; w 173 200 256 256; w 170 197 250 250
].

(** [Latin1_General_*]. *)
Definition WINDOWS_WEIGHTS : list Weights := [
  w 1 1 1 1; w 2 2 2 2; w 3 3 3 3; w 4 4 4 4;
  w 5 5 5 5; w 6 6 6 6; w 7 7 7 7; w 8 8 8 8;
  w 9 9 9 9; w 40 40 40 40; w 41 41 41 41; w 42 42 42 42;
  w 43 43 43 43; w 44 44 44 44; w 10 10 10 10; w 11 11 11 11;
  w 12 12 12 12; w 13 13 13 13; w 14 14 14 14; w 15 15 15 15;
  w 16 16 16 16; w 17 17 17 17; w 18 18 18 18; w 19 19 19 19;
  w 20 20 20 20; w 21 21 21 21; w 22 22 22 22; w 23 23 23 23;
  w 24 24 24 24; w 25 25 25 25; w 26 26 26 26; w 27 27 27 27;
  w 1 1 1 1; w 45 45 45 45; w 46 46 46 46; w 47 47 47 47;
  w 48 48 48 48; w 49 49 49 49; w 50 50 50 50; w 34 34 34 34;
  w 51 51 51 51; w 52 52 52 52; w 53 53 53 53; w 87 88 88 87;
  w 54 54 54 54; w 35 35 35 35; w 55 55 55 55; w 56 56 56 56;
  w 114 115 115 114; w 118 119 119 118; w 119 120 121 120; w 120 121 123 122;
  w 121 122 125 124; w 122 123 126 125; w 123 124 127 126; w 124 125 128 127;
  w 125 126 129 128; w 126 127 130 129; w 57 57 57 57; w 58 58 58 58;
  w 88 89 89 88; w 89 90 90 89; w 90 91 91 90; w 59 59 59 59;
  w 60 60 60 60; w 127 128 132 132; w 129 137 149 136; w 130 138 151 138;
  w 131 140 155 140; w 132 142 159 142; w 133 147 169 144; w 134 149 172 146;
  w 135 150 174 148; w 136 151 176 150; w 137 156 186 152; w 138 157 188 154;
  w 139 158 190 156; w 140 159 192 158; w 141 160 194 160; w 142 162 198 163;
  w 144 171 215 167; w 145 172 217 169; w 146 173 219 171; w 147 174 221 173;
  w 149 177 226 176; w 152 180 231 181; w 153 185 241 183; w 154 186 243 185;
  w 155 187 245 187; w 156 188 247 189; w 157 191 253 191; w 61 61 61 61;
  w 62 62 62 62; w 63 63 63 63; w 64 64 64 64; w 65 66 66 65;
  w 66 67 67 66; w 127 128 131 130; w 129 137 148 135; w 130 138 150 137;
  w 131 140 154 139; w 132 142 158 141; w 133 147 168 143; w 134 149 171 145;
  w 135 150 173 147; w 136 151 175 149; w 137 156 185 151; w 138 157 187 153;
  w 139 158 189 155; w 140 159 191 157; w 141 160 193 159; w 142 162 197 161;
  w 144 171 214 166; w 145 172 216 168; w 146 173 218 170; w 147 174 220 172;
  w 149 177 225 175; w 152 180 230 180; w 153 185 240 182; w 154 186 242 184;
  w 155 187 244 186; w 156 188 246 188; w 157 191 252 190; w 67 68 68 67;
  w 68 69 69 68; w 69 70 70 69; w 70 71 71 70; w 28 28 28 28;
  w 113 114 114 113; w 29 29 29 29; w 81 82 82 81; w 133 148 170 143;
  w 84 85 85 84; w 111 112 112 111; w 108 109 109 108; w 109 110 110 109;
  w 64 65 65 64; w 112 113 113 112; w 147 175 223 173; w 85 86 86 85;
  w 143 170 213 165; w 30 30 30 30; w 157 192 255 191; w 31 31 31 31;
  w 32 32 32 32; w 79 80 80 79; w 80 81 81 80; w 82 83 83 82;
  w 83 84 84 83; w 110 111 111 110; w 37 37 37 37; w 38 38 38 38;
  w 78 79 79 78; w 151 179 229 179; w 147 175 222 172; w 86 87 87 86;
  w 143 170 212 164; w 33 33 33 33; w 157 192 254 190; w 156 190 251 189;
  w 39 39 39 39; w 71 72 72 71; w 96 97 97 96; w 97 98 98 97;
  w 98 99 99 98; w 99 100 100 99; w 72 73 73 72; w 100 101 101 100;
  w 73 74 74 73; w 101 102 102 101; w 127 129 133 131; w 92 93 93 92;
  w 102 103 103 102; w 36 36 36 36; w 103 104 104 103; w 74 75 75 74;
  w 104 105 105 104; w 91 92 92 91; w 119 120 122 121; w 120 121 124 123;
  w 75 76 76 75; w 105 106 106 105; w 106 107 107 106; w 107 108 108 107;
  w 76 77 77 76; w 118 119 120 119; w 142 163 199 162; w 93 94 94 93;
  w 115 116 116 115; w 116 117 117 116; w 117 118 118 117; w 77 78 78 77;
  w 127 131 137 132; w 127 130 135 132; w 127 132 139 132; w 127 134 143 132;
  w 127 133 141 132; w 127 135 145 132; w 128 136 147 134; w 130 139 153 138;
  w 132 144 163 142; w 132 143 161 142; w 132 145 165 142; w 132 146 167 142;
  w 136 153 180 150; w 136 152 178 150; w 136 154 182 150; w 136 155 184 150;
  w 131 141 157 140; w 141 161 196 160; w 142 165 203 163; w 142 164 201 163;
  w 142 166 205 163; w 142 168 209 163; w 142 167 207 163; w 94 95 95 94;
  w 142 169 211 163; w 152 182 235 181; w 152 181 233 181; w 152 183 237 181;
  w 152 184 239 181; w 156 189 249 189; w 150 178 228 178; w 148 176 224 174;
  w 127 131 136 130; w 127 130 134 130; w 127 132 138 130; w 127 134 142 130;
  w 127 133 140 130; w 127 135 144 130; w 128 136 146 133; w 130 139 152 137;
  w 132 144 162 141; w 132 143 160 141; w 132 145 164 141; w 132 146 166 141;
  w 136 153 179 149; w 136 152 177 149; w 136 154 181 149; w 136 155 183 149;
  w 131 141 156 139; w 141 161 195 159; w 142 165 202 161; w 142 164 200 161;
  w 142 166 204 161; w 142 168 208 161; w 142 167 206 161; w 95 96 96 95;
  w 142 169 210 161; w 152 182 234 180; w 152 181 232 180; w 152 183 236 180;
  w 152 184 238 180; w 156 189 248 188; w 150 178 227 177; w 156 190 250 188
].

(** [Latin1_General_100_*]. *)
Definition WINDOWS_100_WEIGHTS : list Weights := [
  w 1 1 1 1; w 2 2 2 2; w 3 3 3 3; w 4 4 4 4;
  w 5 5 5 5; w 6 6 6 6; w 7 7 7 7; w 8 8 8 8;
  w 9 9 9 9; w 34 34 34 34; w 35 35 35 35; w 36 36 36 36;
  w 37 37 37 37; w 38 38 38 38; w 10 10 10 10; w 11 11 11 11;
  w 12 12 12 12; w 13 13 13 13; w 14 14 14 14; w 15 15 15 15;
  w 16 16 16 16; w 17 17 17 17; w 18 18 18 18; w 19 19 19 19;
  w 20 20 20 20; w 21 21 21 21; w 22 22 22 22; w 23 23 23 23;
  w 24 24 24 24; w 25 25 25 25; w 26 26 26 26; w 27 27 27 27;
  w 1 1 1 1; w 39 39 39 39; w 40 40 40 40; w 41 41 41 41;
  w 42 42 42 42; w 43 43 43 43; w 44 44 44 44; w 29 29 29 29;
  w 45 45 45 45; w 46 46 46 46; w 47 47 47 47; w 86 86 86 86;
  w 48 48 48 48; w 30 30 30 30; w 49 49 49 49; w 50 50 50 50;
  w 109 113 113 109; w 111 116 116 111; w 112 117 118 113; w 113 118 120 115;
  w 114 120 123 117; w 115 121 124 118; w 116 122 125 119; w 117 123 126 120;
  w 118 124 127 121; w 119 125 128 122; w 51 51 51 51; w 52 52 52 52;
  w 87 87 87 87; w 88 88 88 88; w 89 89 89 89; w 53 53 53 53;
  w 54 54 54 54; w 120 126 130 125; w 122 135 147 129; w 123 136 149 131;
  w 124 138 153 133; w 125 140 157 135; w 126 145 167 137; w 127 147 170 139;
  w 128 148 172 141; w 129 149 174 143; w 130 154 184 145; w 131 155 186 147;
  w 132 156 188 149; w 133 157 190 151; w 134 158 192 153; w 135 160 196 156;
  w 137 169 213 160; w 138 170 215 162; w 139 171 217 164; w 140 172 219 166;
  w 142 175 224 169; w 145 178 229 174; w 146 183 239 176; w 147 184 241 178;
  w 148 185 243 180; w 149 186 245 182; w 150 189 251 184; w 55 55 55 55;
  w 56 56 56 56; w 57 57 57 57; w 58 58 58 58; w 59 59 59 59;
  w 60 60 60 60; w 120 126 129 123; w 122 135 146 128; w 123 136 148 130;
  w 124 138 152 132; w 125 140 156 134; w 126 145 166 136; w 127 147 169 138;
  w 128 148 171 140; w 129 149 173 142; w 130 154 183 144; w 131 155 185 146;
  w 132 156 187 148; w 133 157 189 150; w 134 158 191 152; w 135 160 195 154;
  w 137 169 212 159; w 138 170 214 161; w 139 171 216 163; w 140 172 218 165;
  w 142 175 223 168; w 145 178 228 173; w 146 183 238 175; w 147 184 240 177;
  w 148 185 242 179; w 149 186 244 181; w 150 189 250 183; w 61 61 61 61;
  w 62 62 62 62; w 63 63 63 63; w 64 64 64 64; w 28 28 28 28;
  w 85 85 85 85; w 108 108 108 108; w 75 75 75 75; w 126 146 168 136;
  w 78 78 78 78; w 103 103 103 103; w 104 104 104 104; w 105 105 105 105;
  w 58 58 58 58; w 107 107 107 107; w 140 173 221 166; w 79 79 79 79;
  w 136 168 211 158; w 108 109 109 108; w 150 190 253 184; w 108 110 110 108;
  w 108 111 111 108; w 73 73 73 73; w 74 74 74 74; w 76 76 76 76;
  w 77 77 77 77; w 106 106 106 106; w 31 31 31 31; w 32 32 32 32;
  w 72 72 72 72; w 144 177 227 172; w 140 173 220 165; w 80 80 80 80;
  w 136 168 210 157; w 108 112 112 108; w 150 190 252 183; w 149 188 249 182;
  w 33 33 33 33; w 65 65 65 65; w 81 81 81 81; w 82 82 82 82;
  w 83 83 83 83; w 84 84 84 84; w 66 66 66 66; w 95 95 95 95;
  w 67 67 67 67; w 96 96 96 96; w 120 127 131 124; w 91 91 91 91;
  w 97 97 97 97; w 1 1 1 1; w 98 98 98 98; w 68 68 68 68;
  w 99 99 99 99; w 90 90 90 90; w 112 117 119 114; w 113 118 121 116;
  w 69 69 69 69; w 100 100 100 100; w 101 101 101 101; w 102 102 102 102;
  w 70 70 70 70; w 111 116 117 112; w 135 161 197 155; w 92 92 92 92;
  w 110 114 114 110; w 110 115 115 110; w 113 119 122 115; w 71 71 71 71;
  w 120 129 135 125; w 120 128 133 125; w 120 130 137 125; w 120 132 141 125;
  w 120 131 139 125; w 120 133 143 125; w 121 134 145 127; w 123 137 151 131;
  w 125 142 161 135; w 125 141 159 135; w 125 143 163 135; w 125 144 165 135;
  w 129 151 178 143; w 129 150 176 143; w 129 152 180 143; w 129 153 182 143;
  w 124 139 155 133; w 134 159 194 153; w 135 163 201 156; w 135 162 199 156;
  w 135 164 203 156; w 135 166 207 156; w 135 165 205 156; w 93 93 93 93;
  w 135 167 209 156; w 145 180 233 174; w 145 179 231 174; w 145 181 235 174;
  w 145 182 237 174; w 149 187 247 182; w 143 176 226 171; w 141 174 222 167;
  w 120 129 134 123; w 120 128 132 123; w 120 130 136 123; w 120 132 140 123;
  w 120 131 138 123; w 120 133 142 123; w 121 134 144 126; w 123 137 150 130;
  w 125 142 160 134; w 125 141 158 134; w 125 143 162 134; w 125 144 164 134;
  w 129 151 177 142; w 129 150 175 142; w 129 152 179 142; w 129 153 181 142;
  w 124 139 154 132; w 134 159 193 152; w 135 163 200 154; w 135 162 198 154;
  w 135 164 202 154; w 135 166 206 154; w 135 165 204 154; w 94 94 94 94;
  w 135 167 208 154; w 145 180 232 173; w 145 179 230 173; w 145 181 234 173;
  w 145 182 236 173; w 149 187 246 181; w 143 176 225 170; w 149 188 248 181
].
