(* ===== verification/Collation.v ===== *)
(** * Collations

    [vauban-types/src/collation.rs]: the names of the collations, the binary orders, and the
    comparison by weight tables with its fast paths.

    A text is the list of its characters.  Where the source walks the bytes of two texts to
    find what they have in common, or compares the lengths in bytes of texts it then finds
    to be ASCII, the characters answer the same: the bytes of a character are never the
    beginning of those of another one, and an ASCII character is one byte. *)

From Stdlib Require Import Ascii.
From S2P Require Import Prelude Values Errors Order CodePage Weights.

#[local] Open Scope Z_scope.

(** ** Flags *)

Definition FLAG_IGNORE_CASE : Z := 1.
Definition FLAG_IGNORE_ACCENT : Z := 2.
Definition FLAG_IGNORE_KANA : Z := 4.
Definition FLAG_IGNORE_WIDTH : Z := 8.
Definition FLAG_BINARY : Z := 16.
Definition FLAG_BINARY2 : Z := 32.
Definition FLAG_UTF8 : Z := 64.

Definition FLAGS_ALL_INSENSITIVE : Z :=
  Z.lor (Z.lor (Z.lor FLAG_IGNORE_CASE FLAG_IGNORE_ACCENT) FLAG_IGNORE_KANA) FLAG_IGNORE_WIDTH.
Definition FLAGS_CI_AS : Z := Z.lor (Z.lor FLAG_IGNORE_CASE FLAG_IGNORE_KANA) FLAG_IGNORE_WIDTH.
Definition FLAGS_CS_AS : Z := Z.lor FLAG_IGNORE_KANA FLAG_IGNORE_WIDTH.
Definition FLAGS_CI_AI : Z := FLAGS_ALL_INSENSITIVE.

Definition LCID_LATIN1_GENERAL : Z := 1033.
Definition WINDOWS_100_VERSION : Z := 2.

(** [flags & flag != 0]. *)
Definition has_flag (flags flag : Z) : bool := negb (Z.land flags flag =? 0).

(** ** Names *)

(** [Head]. *)
Inductive Head := HSql | HWindows | HWindows100.

Record Suffixes := mkSuffixes {
  ignore_case : option bool;
  ignore_accent : option bool;
  kana : bool;
  width : bool;
  binary : option bool;
  supplementary : bool;
  utf8 : bool;
}.

#[export] Instance Head_eq_dec : EqDecision Head.
Proof. solve_decision. Defined.
#[export] Instance Suffixes_eq_dec : EqDecision Suffixes.
Proof. solve_decision. Defined.

Definition head_version (h : Head) : Z := match h with HSql | HWindows => 0 | HWindows100 => 2 end.

Definition allows (h : Head) (written : Suffixes) : bool :=
  let sensitivity :=
    bool_decide (is_Some (ignore_case written)) && bool_decide (is_Some (ignore_accent written)) in
  match h with
  | HSql =>
      sensitivity && negb (kana written) && negb (width written) &&
      bool_decide (binary written = None) && negb (supplementary written) && negb (utf8 written) &&
      negb (bool_decide ((ignore_case written, ignore_accent written) = (Some false, Some true)))
  | HWindows | HWindows100 =>
      let hundred := bool_decide (h = HWindows100) in
      match binary written with
      | Some is_bin2 =>
          bool_decide (ignore_case written = None) && bool_decide (ignore_accent written = None) &&
          negb (kana written) && negb (width written) && negb (supplementary written) &&
          (negb (utf8 written) || (hundred && is_bin2))
      | None =>
          sensitivity && (negb (supplementary written) || hundred) &&
          (negb (utf8 written) || supplementary written)
      end
  end.

Definition sql_sort_id (flags : Z) : Z :=
  if flags =? FLAGS_CI_AS then 52
  else if flags =? FLAGS_CS_AS then 51
  else if flags =? FLAGS_CI_AI then 54
  else 0.

(** [str::to_ascii_lowercase], for [str::eq_ignore_ascii_case]. *)
Definition ascii_lower (a : ascii) : ascii :=
  let n := N_of_ascii a in
  if (65 <=? n)%N && (n <=? 90)%N then ascii_of_N (n + 32) else a.
Fixpoint lower (s : string) : string :=
  match s with EmptyString => EmptyString | String a s => String (ascii_lower a) (lower s) end.
Definition eq_ignore_ascii_case (a b : string) : bool := bool_decide (lower a = lower b).

(** [name.split('_')]. *)
Fixpoint split_name (s : string) : list string :=
  match s with
  | EmptyString => [EmptyString]
  | String a s =>
      if decide (a = "_"%char) then EmptyString :: split_name s
      else match split_name s with
           | p :: ps => String a p :: ps
           | [] => [String a EmptyString]
           end
  end.

(** [take]: whether the next segment is [keyword], and the segments that are left. *)
Definition take_segment (parts : list string) (keyword : string) : bool * list string :=
  match parts with
  | p :: ps => if eq_ignore_ascii_case p keyword then (true, ps) else (false, parts)
  | [] => (false, [])
  end.

Definition is_digit (a : ascii) : bool := (48 <=? N_of_ascii a)%N && (N_of_ascii a <=? 57)%N.
Fixpoint all_digits (s : string) : bool :=
  match s with EmptyString => true | String a s => is_digit a && all_digits s end.
(** The argument of [next_if] for the version of a Windows collation. *)
Definition is_version (p : string) : bool := negb (bool_decide (p = EmptyString)) && all_digits p.

(** The head of [parse_name]: whether the name starts with [SQL], the head, and the segments
    that are left. *)
Definition parse_head (name : string) : option (bool * Head * list string) :=
  let '(is_sql, parts) := take_segment (split_name name) "SQL" in
  match parts with
  | latin :: general :: parts =>
      if negb (eq_ignore_ascii_case latin "Latin1") || negb (eq_ignore_ascii_case general "General")
      then None
      else if is_sql : bool then
        match parts with
        | cp :: parts => if eq_ignore_ascii_case cp "CP1" then Some (true, HSql, parts) else None
        | [] => None
        end
      else
        match parts with
        | p :: parts' =>
            if is_version p
            then if bool_decide (p = "100") then Some (false, HWindows100, parts') else None
            else Some (false, HWindows, parts)
        | [] => Some (false, HWindows, [])
        end
  | _ => None
  end.

(** The suffix axes of [parse_name], in their order: the flags, what is written, and the
    segments that are left. *)
Definition parse_suffixes (parts : list string) : Z * Suffixes * list string :=
  let '(ci, parts) := take_segment parts "CI" in
  let '(cs, parts) := if ci : bool then (false, parts) else take_segment parts "CS" in
  let flags := if cs then Z.ldiff FLAGS_ALL_INSENSITIVE FLAG_IGNORE_CASE else FLAGS_ALL_INSENSITIVE in
  let '(ai, parts) := take_segment parts "AI" in
  let '(as_, parts) := if ai : bool then (false, parts) else take_segment parts "AS" in
  let flags := if as_ then Z.ldiff flags FLAG_IGNORE_ACCENT else flags in
  let '(ks, parts) := take_segment parts "KS" in
  let flags := if ks then Z.ldiff flags FLAG_IGNORE_KANA else flags in
  let '(ws, parts) := take_segment parts "WS" in
  let flags := if ws then Z.ldiff flags FLAG_IGNORE_WIDTH else flags in
  let '(bin, parts) := take_segment parts "BIN" in
  let '(bin2, parts) := if bin : bool then (false, parts) else take_segment parts "BIN2" in
  let flags := if bin then Z.lor flags FLAG_BINARY
               else if bin2 then Z.lor flags FLAG_BINARY2 else flags in
  let '(sc, parts) := take_segment parts "SC" in
  let '(u8, parts) := take_segment parts "UTF8" in
  let flags := if u8 then Z.lor flags FLAG_UTF8 else flags in
  (flags,
   mkSuffixes (if ci then Some true else if cs then Some false else None)
     (if ai then Some true else if as_ then Some false else None) ks ws
     (if bin || bin2 then Some (has_flag flags FLAG_BINARY2) else None) sc u8,
   parts).

Definition parse_name (name : string) : option Collation :=
  '(is_sql, head, parts) ← parse_head name;
  match parse_suffixes parts with
  | (flags, written, []) =>
      if negb (allows head written) then None
      else Some (mkCollation LCID_LATIN1_GENERAL flags (head_version head)
                   (if is_sql : bool then sql_sort_id flags else 0))
  | (_, _, _ :: _) => None
  end.

Definition parse (name : string) : SqlResult Collation :=
  ok_or (parse_name name) (invalid_collation name).

(** [Collation::name]. *)
Definition name (c : Collation) : string :=
  let f := flags c in
  let binary := has_flag f (Z.lor FLAG_BINARY FLAG_BINARY2) in
  (if negb (sort_id c =? 0) then "SQL_Latin1_General_CP1"
   else if version c =? WINDOWS_100_VERSION then "Latin1_General_100"
   else "Latin1_General") +:+
  (if has_flag f FLAG_BINARY2 then "_BIN2"
   else if has_flag f FLAG_BINARY then "_BIN"
   else
     (if negb (has_flag f FLAG_IGNORE_CASE) then "_CS" else "_CI") +:+
     (if negb (has_flag f FLAG_IGNORE_ACCENT) then "_AS" else "_AI") +:+
     (if negb (has_flag f FLAG_IGNORE_KANA) then "_KS" else "") +:+
     (if negb (has_flag f FLAG_IGNORE_WIDTH) then "_WS" else "")) +:+
  (if has_flag f FLAG_UTF8 then
     (if (sort_id c =? 0) && (version c =? WINDOWS_100_VERSION) && negb binary then "_SC" else "") +:+
     "_UTF8"
   else "").

(** ** Sequences and the binary orders *)

Definition SPACE_UNIT : Z := 32.
Definition SPACE : Z := 32.

(** [str::encode_utf16]. *)
Definition encode_utf16_char (c : Z) : list Z :=
  if c <? 65536 then [c]
  else [55296 + (c - 65536) / 1024; 56320 + (c - 65536) mod 1024].
Definition encode_utf16 (s : list Z) : list Z := s ≫= encode_utf16_char.

(** [trim_end_matches(' ')]. *)
Fixpoint trim_end (s : list Z) : list Z :=
  match s with
  | [] => []
  | c :: s => match trim_end s with
              | [] => if c =? 32 then [] else [c]
              | s' => c :: s'
              end
  end.

Definition to_le_bytes16 (u : Z) : list Z := [u mod 256; u / 256].

Fixpoint compare_sequences (a b : list Z) (padding : option Z) : comparison :=
  match a with
  | [] =>
      (fix go (b : list Z) : comparison :=
         match b with
         | [] => Eq
         | y :: b => match padding with
                     | Some pad => then_with (pad ?= y) (go b)
                     | None => Lt
                     end
         end) b
  | x :: a =>
      match b with
      | [] => match padding with
              | Some pad => then_with (x ?= pad) (compare_sequences a [] padding)
              | None => Gt
              end
      | y :: b => then_with (x ?= y) (compare_sequences a b padding)
      end
  end.

Definition compare_binary (a b : list Z) : comparison :=
  match encode_utf16 a, encode_utf16 b with
  | [], [] => Eq
  | [], _ :: _ => Lt
  | _ :: _, [] => Gt
  | x :: a, y :: b =>
      then_with (x ?= y) (compare_sequences (a ≫= to_le_bytes16) (b ≫= to_le_bytes16) None)
  end.

(** ** Weight tables *)

Inductive Level := LPrimary | LAccent | LOwn | LTertiary | LLast.

#[export] Instance Level_eq_dec : EqDecision Level.
Proof. solve_decision. Defined.

Inductive AsciiClass := APlain | ALast | AIgnored.

Record AsciiRow := mkAsciiRow { class : AsciiClass; row_weights : Weights }.

(** [Table]; its field [latin1], a cache that is filled once, is [latin1] below. *)
Record WeightTable := mkWeightTable {
  table_weights : list Weights;
  expansions : list (Z * (Z * Z));
  aliases : list (Z * Z);
  last_level : list Z;
  ignored : list Z;
  own_level : bool;
  has_last_level : bool;
  ascii_table : list AsciiRow;
}.

(** [Element]. *)
Record Element := mkElement {
  weights : Weights;
  outside : option Z;
  wide : bool;
  hiragana : bool;
}.

(** [Unit]; the array of two optional elements is a pair. *)
Inductive Unit :=
  | UIgnored
  | ULast (weight : Z)
  | UElements (first second : option Element) (own : Z).

#[export] Instance AsciiClass_eq_dec : EqDecision AsciiClass.
Proof. solve_decision. Defined.
#[export] Instance Element_eq_dec : EqDecision Element.
Proof. solve_decision. Defined.
#[export] Instance Unit_eq_dec : EqDecision Unit.
Proof. solve_decision. Defined.

Definition FULL_WIDTH_FIRST : Z := 65281.
Definition FULL_WIDTH_LAST : Z := 65374.
Definition FULL_WIDTH_OFFSET : Z := 65248.
Definition HIRAGANA_FIRST : Z := 12353.
Definition HIRAGANA_LAST : Z := 12438.
Definition KATAKANA_FIRST : Z := 12449.
Definition KATAKANA_LAST : Z := 12534.
Definition KANA_OFFSET : Z := 96.
Definition PRIMARY_ABOVE_TABLE : Z := 65536.

Definition no_weights : Weights := w 0 0 0 0.

(** The row of a byte; the arrays of the source have an entry for each. *)
Definition weights_at (ws : list Weights) (byte : Z) : Weights := nth (Z.to_nat byte) ws no_weights.

Definition cp1252_byte (c : Z) : option Z := encode c Collation_DEFAULT.

(** The class [ascii_rows] gives to a byte: the second list is looked at last. *)
Definition ascii_class (last ignored : list Z) (byte : Z) : AsciiClass :=
  if bool_decide (byte ∈ ignored) then AIgnored
  else if bool_decide (byte ∈ last) then ALast else APlain.

Definition ascii_rows (ws : list Weights) (last ignored : list Z) : list AsciiRow :=
  (λ byte, mkAsciiRow (ascii_class last ignored byte) (weights_at ws byte)) <$> seqZ 0 128.

Definition ascii_row (t : WeightTable) (byte : Z) : AsciiRow :=
  nth (Z.to_nat byte) (ascii_table t) (mkAsciiRow APlain no_weights).

Definition primary_weight (e : Element) : Z := default (primary (weights e)) (outside e).

(** [Element::weight]. *)
Definition element_weight (level : Level) (flags : Z) (e : Element) : Z :=
  match level with
  | LPrimary => match outside e with Some primary => primary | None => primary (weights e) end
  | LAccent => accent (weights e)
  | LTertiary =>
      let case :=
        if has_flag flags FLAG_IGNORE_CASE || bool_decide (is_Some (outside e)) then 0
        else if has_flag flags FLAG_IGNORE_ACCENT then case_only (weights e)
        else case_accent (weights e) in
      let wide := negb (has_flag flags FLAG_IGNORE_WIDTH) && wide e in
      let hiragana := negb (has_flag flags FLAG_IGNORE_KANA) && hiragana e in
      Z.lor (Z.lor (Z.shiftl case 2) (Z.shiftl (Z.b2z wide) 1)) (Z.b2z hiragana)
  | LOwn | LLast => 0
  end.

(** [Table::element]: full-width forms are folded onto ASCII and katakana onto hiragana. *)
Definition element (t : WeightTable) (c : Z) : Element :=
  let '(folded, wide, hiragana) :=
    if (FULL_WIDTH_FIRST <=? c) && (c <=? FULL_WIDTH_LAST) then (c - FULL_WIDTH_OFFSET, true, false)
    else if (KATAKANA_FIRST <=? c) && (c <=? KATAKANA_LAST) then (c - KANA_OFFSET, false, false)
    else if (HIRAGANA_FIRST <=? c) && (c <=? HIRAGANA_LAST) then (c, false, true)
    else (c, false, false) in
  match cp1252_byte folded with
  | Some byte => mkElement (weights_at (table_weights t) byte) None wide hiragana
  | None => mkElement no_weights (Some (PRIMARY_ABOVE_TABLE + folded)) wide hiragana
  end.

(** [char::is_ascii_alphanumeric]. *)
Definition is_ascii_alphanumeric (c : Z) : bool :=
  ((48 <=? c) && (c <=? 57)) || ((65 <=? c) && (c <=? 90)) || ((97 <=? c) && (c <=? 122)).

(** [Table::unit]. *)
Definition table_unit (t : WeightTable) (c : Z) : Unit :=
  if is_ascii_alphanumeric c || (c =? SPACE) then
    let e := element t c in UElements (Some e) None (primary_weight e)
  else if bool_decide (c ∈ ignored t) then UIgnored
  else
    let '(narrow, wide) :=
      if (FULL_WIDTH_FIRST <=? c) && (c <=? FULL_WIDTH_LAST) then (c - FULL_WIDTH_OFFSET, true)
      else (c, false) in
    if bool_decide (narrow ∈ last_level t) then
      let weight := match cp1252_byte narrow with
                    | Some byte => case_accent (weights_at (table_weights t) byte)
                    | None => 0
                    end in
      ULast (Z.lor (Z.shiftl weight 1) (Z.b2z wide))
    else
      let own := primary_weight (element t c) in
      match list_find (λ e, e.1 = c) (expansions t) with
      | Some (_, (_, (first, second))) => UElements (Some (element t first)) (Some (element t second)) own
      | None =>
          let base := match list_find (λ e, e.1 = c) (aliases t) with
                      | Some (_, (_, to)) => to
                      | None => c
                      end in
          UElements (Some (element t base)) None own
      end.

Definition latin1 (t : WeightTable) : list Unit := table_unit t <$> seqZ 0 256.

(** [Table::cached_unit]. *)
Definition cached_unit (t : WeightTable) (c : Z) : Unit :=
  if (0 <=? c) && (c <? 256) then nth (Z.to_nat c) (latin1 t) UIgnored else table_unit t c.

(** ** The three tables *)

Definition WINDOWS_CONTROLS : list Z :=
  [1; 2; 3; 4; 5; 6; 7; 8; 14; 15; 16; 17; 18; 19; 20; 21; 22; 23; 24; 25; 26; 27; 28; 29; 30; 31; 127].
Definition WINDOWS_LAST : list Z :=
  [45; 39; 8211; 8212; 173; 129; 141; 143; 144; 157] ++ WINDOWS_CONTROLS.
Definition WINDOWS_100_LAST : list Z := [45; 39; 8211; 8212] ++ WINDOWS_CONTROLS.
Definition WINDOWS_EXPANSIONS : list (Z * (Z * Z)) :=
  [(198, (65, 69)); (230, (97, 101)); (338, (79, 69)); (339, (111, 101)); (223, (115, 115));
   (222, (84, 72)); (254, (116, 104))].

Definition SQL_CP1 : WeightTable :=
  mkWeightTable SQL_CP1_WEIGHTS [(198, (65, 69)); (230, (97, 101)); (223, (115, 115))]
    [(199, 67); (231, 99)] [] [] true false (ascii_rows SQL_CP1_WEIGHTS [] []).
Definition WINDOWS : WeightTable :=
  mkWeightTable WINDOWS_WEIGHTS WINDOWS_EXPANSIONS [] WINDOWS_LAST [0] false true
    (ascii_rows WINDOWS_WEIGHTS WINDOWS_LAST [0]).
Definition WINDOWS_100 : WeightTable :=
  mkWeightTable WINDOWS_100_WEIGHTS WINDOWS_EXPANSIONS [] WINDOWS_100_LAST [0; 173] false true
    (ascii_rows WINDOWS_100_WEIGHTS WINDOWS_100_LAST [0; 173]).

(** ** Comparing level by level *)

Inductive Rules := Binary | Binary2 | Weighted (t : WeightTable).

Definition rules (c : Collation) : Rules :=
  if has_flag (flags c) FLAG_BINARY2 then Binary2
  else if has_flag (flags c) FLAG_BINARY then Binary
  else if negb (sort_id c =? 0) then Weighted SQL_CP1
  else if version c =? WINDOWS_100_VERSION then Weighted WINDOWS_100
  else Weighted WINDOWS.

Definition levels (c : Collation) (t : WeightTable) : list Level :=
  let ignored := Z.lor (Z.lor FLAG_IGNORE_CASE FLAG_IGNORE_KANA) FLAG_IGNORE_WIDTH in
  LPrimary ::
  (if has_flag (flags c) FLAG_IGNORE_ACCENT then [] else [LAccent]) ++
  (if own_level t then [LOwn] else []) ++
  (if Z.land (flags c) ignored =? ignored then [] else [LTertiary]) ++
  (if has_last_level t then [LLast] else []).

(** [((position as u64) << 32) | u64::from(weight)]. *)
Definition last_weight (position : nat) (weight : Z) : Z :=
  Z.lor (Z.shiftl (Z.of_nat position) 32 mod 2 ^ 64) weight.

(** What one unit adds to a level, from its position among the units that are not ignored. *)
Definition unit_weights (flags : Z) (level : Level) (position : nat) (u : Unit) : list Z :=
  match u, level with
  | UElements _ _ own, LOwn => [own]
  | _, LOwn => []
  | ULast weight, LLast =>
      [last_weight position (if has_flag flags FLAG_IGNORE_WIDTH then Z.ldiff weight 1 else weight)]
  | _, LLast => []
  | UElements first second _, _ => element_weight level flags <$> omap id [first; second]
  | _, _ => []
  end.

Definition level_weights (c : Collation) (t : WeightTable) (s : list Z) (level : Level) : list Z :=
  mjoin (imap (unit_weights (flags c) level) (filter (λ u, u ≠ UIgnored) (cached_unit t <$> s))).

(** [for level in levels { ... if ordering != Equal { return ordering; } } Equal]. *)
Fixpoint first_difference (compare_level : Level → comparison) (ls : list Level) : comparison :=
  match ls with
  | [] => Eq
  | level :: ls => then_with (compare_level level) (first_difference compare_level ls)
  end.

(** The padding of a level: the first weight of a space. *)
Definition level_padding (c : Collation) (t : WeightTable) (pad : bool) (level : Level) : option Z :=
  if pad && negb (bool_decide (level = LLast)) then head (level_weights c t [SPACE] level) else None.

(** ** The fast paths *)

Definition is_ascii (c : Z) : bool := (0 <=? c) && (c <? 128).

(** [ascii_weight]. *)
Definition ascii_weight (r : AsciiRow) (level : Level) (flags : Z) : Z :=
  match level with
  | LPrimary | LOwn => primary (row_weights r)
  | LAccent => accent (row_weights r)
  | LTertiary =>
      Z.shiftl (if has_flag flags FLAG_IGNORE_CASE then 0
                else if has_flag flags FLAG_IGNORE_ACCENT then case_only (row_weights r)
                else case_accent (row_weights r)) 2
  | LLast => 0
  end.

(** [ascii_last]: the rows that are not ignored, numbered, of which those of the last level
    are kept. *)
Definition ascii_last (t : WeightTable) (s : list Z) : list Z :=
  mjoin (imap (λ position r, if bool_decide (class r = ALast)
                             then [last_weight position (Z.shiftl (case_accent (row_weights r)) 1)]
                             else [])
           (filter (λ r, class r ≠ AIgnored) ((λ byte, ascii_row t (Z.land byte 127)) <$> s))).

Definition compare_ascii (c : Collation) (t : WeightTable) (a b : list Z) (pad : bool) (ls : list Level) :
    comparison :=
  let row byte := ascii_row t (Z.land byte 127) in
  first_difference (λ level,
    if bool_decide (level = LLast) then compare_sequences (ascii_last t a) (ascii_last t b) None
    else
      let weight r := ascii_weight r level (flags c) in
      compare_sequences (weight <$> filter (λ r, class r = APlain) (row <$> a))
        (weight <$> filter (λ r, class r = APlain) (row <$> b))
        (if pad then Some (weight (ascii_row t SPACE)) else None)) ls.

(** What the pass over two texts of plain ASCII characters finds: a primary difference, a
    character that is not plain, or the end of the shorter text with the first differences
    of accent and of case. *)
Inductive Pass :=
  | Decided (o : comparison)
  | Broken
  | Ended (accents cases : comparison).

Fixpoint plain_pass (flags : Z) (t : WeightTable) (a b : list Z) (accents cases : comparison) : Pass :=
  match a, b with
  | x :: a, y :: b =>
      if negb (is_ascii x) || negb (is_ascii y) then Broken
      else
        let rx := ascii_row t x in
        let ry := ascii_row t y in
        if negb (bool_decide (class rx = APlain)) || negb (bool_decide (class ry = APlain)) then Broken
        else
          let wx := row_weights rx in
          let wy := row_weights ry in
          if negb (primary wx =? primary wy) then Decided (primary wx ?= primary wy)
          else
            plain_pass flags t a b
              (if accents is Eq then accent wx ?= accent wy else accents)
              (if cases is Eq then
                 if has_flag flags FLAG_IGNORE_ACCENT then case_only wx ?= case_only wy
                 else case_accent wx ?= case_accent wy
               else cases)
  | _, _ => Ended accents cases
  end.

(** What is left of two texts after their common beginning. *)
Fixpoint skip_common (a b : list Z) : list Z * list Z :=
  match a, b with
  | x :: a', y :: b' => if x =? y then skip_common a' b' else (a, b)
  | _, _ => (a, b)
  end.

Definition compare_weighted (c : Collation) (t : WeightTable) (a b : list Z) (pad : bool) : comparison :=
  let '(a, b) := skip_common a b in
  let by_levels :=
    let ls := levels c t in
    if forallb is_ascii a && forallb is_ascii b then compare_ascii c t a b pad ls
    else first_difference (λ level,
           compare_sequences (level_weights c t a level) (level_weights c t b level)
             (level_padding c t pad level)) ls in
  match plain_pass (flags c) t a b Eq Eq with
  | Decided o => o
  | Ended accents cases =>
      if bool_decide (length a = length b) then
        if negb (has_flag (flags c) FLAG_IGNORE_ACCENT) && negb (bool_decide (accents = Eq)) then accents
        else if negb (has_flag (flags c) FLAG_IGNORE_CASE) then cases
        else Eq
      else by_levels
  | Broken => by_levels
  end.

(** ** Operations *)

(** [Collation::compare]. *)
Definition collation_compare (c : Collation) (a b : list Z) : comparison :=
  if bool_decide (a = b) then Eq
  else
    match rules c with
    | Binary => compare_binary (trim_end a) (trim_end b)
    | Binary2 => compare_sequences (encode_utf16 a) (encode_utf16 b) (Some SPACE_UNIT)
    | Weighted t => compare_weighted c t a b true
    end.

Definition compare_char (c : Collation) (a b : Z) : comparison :=
  if a =? b then Eq
  else
    match rules c with
    | Binary | Binary2 => compare_sequences (encode_utf16_char a) (encode_utf16_char b) None
    | Weighted t => compare_weighted c t [a] [b] false
    end.

(** Whether [needle] stands in [haystack] from the position [from] on, for [find]. *)
Definition matches_at (c : Collation) (haystack needle : list Z) (from : nat) : bool :=
  forallb (λ hn, bool_decide (compare_char c hn.1 hn.2 = Eq))
    (zip (take (length needle) (drop from haystack)) needle).

Definition find (c : Collation) (haystack needle : list Z) (start : nat) : option nat :=
  if bool_decide (needle = []) then None
  else if bool_decide (length haystack < length needle)%nat then None
  else
    let last_start := (length haystack - length needle)%nat in
    let first_start := (start `max` 1 - 1)%nat in
    match list_find (λ from, matches_at c haystack needle from = true)
            (seq first_start (S last_start - first_start)) with
    | Some (_, from) => Some (from + 1)%nat
    | None => None
    end.
