(* ===== verification/CollationFacts.v ===== *)
(** * The collations are orders

    About [Collation.v]: the binary orders and the comparison level by level are total
    orders, and the fast paths of [compare_weighted] answer what the levels answer. *)

From S2P Require Import Prelude Values Errors Order CodePage Weights Collation.

#[local] Open Scope Z_scope.

(** ** Sequences *)

Lemma total_lex : TotalOn (λ _, True) (λ a b, compare_sequences a b None).
Proof.
  split.
  - intros a _. induction a as [|x a IH]; simpl; [done|]. by rewrite Z.compare_refl.
  - intros a b _ _. revert b. induction a as [|x a IH]; intros [|y b]; simpl; try done.
    rewrite (Z.compare_antisym x y), IH. by destruct (x ?= y).
  - intros a b c _ _ _. revert b c. induction a as [|x a IH]; intros [|y b] [|z c]; simpl; try done.
    destruct (Z.compare_spec x y), (Z.compare_spec y z), (Z.compare_spec x z); subst; simpl;
      try done; try lia. apply IH.
Qed.

Section padded.
Context (pad : Z).
Notation cs a b := (compare_sequences a b (Some pad)).
Definition phd (a : list Z) : Z := match a with [] => pad | x :: _ => x end.

Lemma padded_unfold a b : cs a b = then_with (phd a ?= phd b) (cs (tail a) (tail b)).
Proof.
  destruct a as [|x a], b as [|y b]; simpl; [by rewrite Z.compare_refl|done..].
Qed.

Lemma total_padded : TotalOn (λ _, True) (λ a b, cs a b).
Proof.
  assert (Htl : ∀ (a : list Z) n, (length a ≤ S n → length (tail a) ≤ n)%nat)
    by (intros [] n; simpl; lia).
  assert (Hnil : ∀ a : list Z, (length a ≤ 0)%nat → a = []) by (intros []; simpl; [done|lia]).
  split.
  - intros a _. induction a as [|x a IH]; simpl; [done|]. by rewrite Z.compare_refl.
  - assert (H : ∀ n a b, (length a ≤ n → length b ≤ n → cs b a = CompOpp (cs a b))%nat).
    { induction n as [|n IH]; intros a b Ha Hb; [by rewrite (Hnil a), (Hnil b)|].
      rewrite (padded_unfold b a), (padded_unfold a b), (Z.compare_antisym (phd a) (phd b)).
      rewrite IH by auto. by destruct (phd a ?= phd b). }
    intros a b _ _. apply (H (length a + length b)%nat); lia.
  - assert (H : ∀ n a b c, (length a ≤ n → length b ≤ n → length c ≤ n →
      cs a b ≠ Gt → cs b c ≠ Gt → cs a c ≠ Gt)%nat).
    { induction n as [|n IH]; intros a b c Ha Hb Hc; [by rewrite (Hnil a), (Hnil c)|].
      rewrite (padded_unfold a b), (padded_unfold b c), (padded_unfold a c).
      destruct (Z.compare_spec (phd a) (phd b)), (Z.compare_spec (phd b) (phd c)),
        (Z.compare_spec (phd a) (phd c)); simpl; try done; try lia. apply IH; auto. }
    intros a b c _ _ _. apply (H (length a + length b + length c)%nat); lia.
Qed.
End padded.

(** A common beginning does not count. *)
Lemma compare_common p a b padding :
  compare_sequences (p ++ a) (p ++ b) padding = compare_sequences a b padding.
Proof. induction p as [|x p IH]; simpl; [done|]. by rewrite Z.compare_refl. Qed.

(** A map that keeps the order of the elements keeps the order of the sequences. *)
Lemma compare_mapped (f : Z → Z) a b :
  (∀ x y, x ∈ a → y ∈ b → (f x ?= f y) = (x ?= y)) →
  compare_sequences (f <$> a) (f <$> b) None = compare_sequences a b None.
Proof.
  revert b. induction a as [|x a IH]; intros [|y b] Hf; simpl; try done.
  rewrite Hf by (by left). f_equal. apply IH. intros x' y' Hx Hy. apply Hf; by right.
Qed.

(** ** The binary orders *)

Lemma total_binary : TotalOn (λ _, True) compare_binary.
Proof.
  pose proof total_lex as Hlex. unfold compare_binary. split.
  - intros a _. destruct (encode_utf16 a); [done|]. rewrite Z.compare_refl. simpl.
    by apply (tc_refl (TotalOn := Hlex)).
  - intros a b _ _. destruct (encode_utf16 a) as [|x a'], (encode_utf16 b) as [|y b']; try done.
    rewrite (Z.compare_antisym x y), (@tc_opp _ _ _ Hlex (a' ≫= to_le_bytes16)) by done.
    by destruct (x ?= y).
  - intros a b c _ _ _.
    destruct (encode_utf16 a) as [|x a'], (encode_utf16 b) as [|y b'], (encode_utf16 c) as [|z c'];
      try done.
    destruct (Z.compare_spec x y), (Z.compare_spec y z), (Z.compare_spec x z); subst; simpl;
      try done; try lia. by apply (@tc_trans _ _ _ Hlex).
Qed.

(** ** Levels *)

Lemma first_difference_total {A} (P : A → Prop) (f : Level → A → A → comparison) ls :
  (∀ l, TotalOn P (f l)) → TotalOn P (λ a b, first_difference (λ l, f l a b) ls).
Proof.
  intros Hf. induction ls as [|l ls IH]; simpl.
  - split; [done|done|]. intros x y z _ _ _ _ _. done.
  - by apply (total_then P (f l)).
Qed.

Lemma first_difference_ext f g ls :
  (∀ l, l ∈ ls → f l = g l) → first_difference f ls = first_difference g ls.
Proof.
  induction ls as [|l ls IH]; intros Hl; simpl; [done|].
  rewrite (Hl l) by (by left). f_equal. apply IH. intros l' Hl'. apply Hl. by right.
Qed.

(** The comparison level by level over the whole texts, without any fast path. *)
Definition by_levels (c : Collation) (t : WeightTable) (pad : bool) (a b : list Z) : comparison :=
  first_difference (λ level,
    compare_sequences (level_weights c t a level) (level_weights c t b level)
      (level_padding c t pad level)) (levels c t).

Lemma total_sequences padding : TotalOn (λ _, True) (λ a b, compare_sequences a b padding).
Proof. destruct padding; [apply total_padded|apply total_lex]. Qed.

Lemma by_levels_total c t pad : TotalOn (λ _, True) (by_levels c t pad).
Proof.
  apply (first_difference_total _ (λ level a b,
    compare_sequences (level_weights c t a level) (level_weights c t b level)
      (level_padding c t pad level))).
  intros l. apply (total_map (λ a, level_weights c t a l) (λ _, True)
    (λ a b, compare_sequences a b (level_padding c t pad l))), total_sequences.
Qed.

(** ** Weights as numbers *)

Lemma lor_add k a b : 0 ≤ k → 0 ≤ b < 2 ^ k → Z.lor (Z.shiftl a k) b = a * 2 ^ k + b.
Proof.
  intros Hk Hb. rewrite Z.shiftl_mul_pow2 by done. rewrite <- Z.add_nocarry_lor; [done|].
  rewrite <- (Z.mod_small b (2 ^ k)) by done. rewrite <- Z.land_ones by done.
  rewrite (Z.land_comm b), Z.land_assoc, Z.land_ones, Z.mod_mul by lia. apply Z.land_0_l.
Qed.

Lemma ldiff_one n : Z.ldiff n 1 = 2 * (n / 2).
Proof.
  change 1 with (Z.ones 1). rewrite Z.ldiff_ones_r by lia.
  rewrite Z.shiftl_mul_pow2, Z.shiftr_div_pow2 by lia. change (2 ^ 1) with 2. lia.
Qed.

Lemma last_weight_value position weight :
  Z.of_nat position < 2 ^ 32 → 0 ≤ weight < 2 ^ 32 →
  last_weight position weight = Z.of_nat position * 2 ^ 32 + weight.
Proof.
  intros Hp Hw. unfold last_weight. rewrite Z.mod_small.
  - by apply lor_add.
  - rewrite Z.shiftl_mul_pow2 by lia. lia.
Qed.

(** ** What the fast paths rely on *)

(** The unit of a character of an ASCII row. *)
Definition ascii_unit (r : AsciiRow) : Unit :=
  match class r with
  | APlain =>
      UElements (Some (mkElement (row_weights r) None false false)) None (primary (row_weights r))
  | ALast => ULast (Z.shiftl (case_accent (row_weights r)) 1)
  | AIgnored => UIgnored
  end.

(** The weights are [u16]. *)
Definition row_bound (r : Weights) : Prop :=
  (0 ≤ primary r < 65536 ∧ 0 ≤ accent r < 65536) ∧
  0 ≤ case_accent r < 65536 ∧ 0 ≤ case_only r < 65536.

(** The characters are [char]. *)
Definition is_char (c : Z) : Prop := 0 ≤ c < 1114112.

#[export] Instance row_bound_dec r : Decision (row_bound r).
Proof. unfold row_bound. apply _. Defined.
#[export] Instance is_char_dec c : Decision (is_char c).
Proof. unfold is_char. apply _. Defined.

Record weights_ok (t : WeightTable) : Prop := {
  wo_ascii : Forall (λ x, table_unit t x = ascii_unit (ascii_row t x)) (seqZ 0 128);
  wo_bound : Forall row_bound (table_weights t);
  wo_expansions : Forall (λ e, is_char e.2.1 ∧ is_char e.2.2) (expansions t);
  wo_aliases : Forall (λ e, is_char e.2) (aliases t);
  wo_space : class (ascii_row t SPACE) = APlain;
}.

Lemma rules_ok c t : rules c = Weighted t → weights_ok t.
Proof.
  assert (Hall : ∀ t, t = SQL_CP1 ∨ t = WINDOWS ∨ t = WINDOWS_100 → weights_ok t).
  { intros t' [->|[->| ->]]; (split; [..|done]); apply (bool_decide_unpack _); vm_compute; exact I. }
  unfold rules. intros Hr. apply Hall.
  destruct (has_flag _ _); [done|]. destruct (has_flag _ _); [done|].
  destruct (negb _); [|destruct (_ =? _)]; naive_solver.
Qed.

Lemma cached_unit_eq t c : cached_unit t c = table_unit t c.
Proof.
  unfold cached_unit. destruct ((0 <=? c) && (c <? 256)) eqn:Hc; [|done].
  apply nth_lookup_Some. unfold latin1. rewrite list_lookup_fmap, lookup_seqZ_lt by lia.
  simpl. f_equal. f_equal. lia.
Qed.

Lemma table_unit_ascii t x : weights_ok t → is_ascii x = true → table_unit t x = ascii_unit (ascii_row t x).
Proof.
  intros Ht Hx. unfold is_ascii in Hx. pose proof (wo_ascii _ Ht) as Hall.
  rewrite Forall_forall in Hall. apply Hall, elem_of_seqZ. lia.
Qed.

(** ** A common beginning *)

(** A text whose positions fit the last level. *)
Definition short (s : list Z) : Prop := Z.of_nat (length s) ≤ 2 ^ 32.

#[export] Instance short_dec s : Decision (short s).
Proof. unfold short. apply _. Defined.

Definition units (t : WeightTable) (s : list Z) : list Unit :=
  filter (λ u, u ≠ UIgnored) (table_unit t <$> s).

Lemma level_weights_units c t s l :
  level_weights c t s l = mjoin (imap (unit_weights (flags c) l) (units t s)).
Proof.
  unfold level_weights, units. do 3 f_equal. apply list_fmap_ext. intros i x _. apply cached_unit_eq.
Qed.

Lemma units_app t a b : units t (a ++ b) = units t a ++ units t b.
Proof. unfold units. by rewrite fmap_app, filter_app. Qed.

Lemma length_units t s : (length (units t s) ≤ length s)%nat.
Proof. unfold units. etrans; [apply length_filter|]. by rewrite length_fmap. Qed.

Lemma weights_at_bound t byte : weights_ok t → row_bound (weights_at (table_weights t) byte).
Proof.
  intros Ht. unfold weights_at.
  destruct (nth_in_or_default (Z.to_nat byte) (table_weights t) no_weights) as [Hin| ->];
    [|by unfold row_bound].
  pose proof (wo_bound _ Ht) as Hb. rewrite Forall_forall in Hb. by apply Hb, list_elem_of_In.
Qed.

Lemma last_unit_bound t c n : weights_ok t → table_unit t c = ULast n → 0 ≤ n < 2 ^ 32.
Proof.
  intros Ht. unfold table_unit. destruct (_ || _); [done|]. case_bool_decide; [done|].
  destruct (if _ && _ then _ else _) as [narrow wide].
  case_bool_decide; [|by destruct (list_find _ _) as [[? [? []]]|]].
  intros [= <-]. assert (Hw : 0 ≤ match cp1252_byte narrow with
    | Some byte => case_accent (weights_at (table_weights t) byte) | None => 0 end < 65536).
  { destruct (cp1252_byte narrow) as [byte|]; [|done].
    apply (weights_at_bound t byte Ht). }
  rewrite lor_add by (destruct wide; simpl; lia). destruct wide; simpl; lia.
Qed.

Lemma unit_weights_position flags l n u :
  l ≠ LLast → unit_weights flags l n u = unit_weights flags l 0 u.
Proof. by destruct l, u. Qed.

Lemma unit_weights_shift flags k n u :
  Z.of_nat (k + n) < 2 ^ 32 → (∀ x, u = ULast x → 0 ≤ x < 2 ^ 32) →
  unit_weights flags LLast (k + n) u =
  (λ x, Z.of_nat k * 2 ^ 32 + x) <$> unit_weights flags LLast n u.
Proof.
  intros Hn Hb. destruct u as [|x|]; [done| |done]. simpl. specialize (Hb x eq_refl).
  assert (0 ≤ (if has_flag flags FLAG_IGNORE_WIDTH then Z.ldiff x 1 else x) < 2 ^ 32).
  { destruct (has_flag _ _); [|done]. rewrite ldiff_one.
    pose proof (Z.div_mod x 2). pose proof (Z.mod_pos_bound x 2). lia. }
  rewrite !last_weight_value by lia. f_equal. lia.
Qed.

Lemma last_weights_shift flags k m us :
  Z.of_nat (k + m + length us) ≤ 2 ^ 32 → (∀ x, ULast x ∈ us → 0 ≤ x < 2 ^ 32) →
  mjoin (imap (λ n, unit_weights flags LLast (k + (m + n))) us) =
  (λ x, Z.of_nat k * 2 ^ 32 + x) <$> mjoin (imap (λ n, unit_weights flags LLast (m + n)) us).
Proof.
  revert m. induction us as [|u us IH]; intros m Hlen Hb; [done|]. simpl in *.
  rewrite fmap_app. f_equal.
  - apply unit_weights_shift; [lia|]. intros x ->. apply Hb. by left.
  - specialize (IH (S m)). simpl in IH.
    assert (Himap : ∀ f : nat → Unit → list Z, mjoin (imap (f ∘ S) us) = mjoin (imap (λ n, f (S n)) us))
      by done.
    rewrite !Himap.
    erewrite (imap_ext (λ n, unit_weights flags LLast (k + (m + S n)))
                (λ n, unit_weights flags LLast (k + S (m + n)))) by (intros; do 2 f_equal; lia).
    erewrite (imap_ext (λ n, unit_weights flags LLast (m + S n))
                (λ n, unit_weights flags LLast (S (m + n)))) by (intros; f_equal; lia).
    apply IH; [lia|]. intros x Hx. apply Hb. by right.
Qed.

Lemma level_weights_app c t p a l :
  level_weights c t (p ++ a) l =
  level_weights c t p l ++ mjoin (imap (λ n, unit_weights (flags c) l (length (units t p) + n)) (units t a)).
Proof. by rewrite !level_weights_units, units_app, imap_app, join_app. Qed.

Lemma level_weights_flat c t s l :
  l ≠ LLast → level_weights c t s l = units t s ≫= unit_weights (flags c) l 0.
Proof.
  intros Hl. rewrite level_weights_units.
  rewrite (imap_ext _ (const (unit_weights (flags c) l 0))), imap_const
    by (intros; by apply unit_weights_position).
  induction (units t s) as [|u us IH]; [done|]. simpl. by f_equal.
Qed.

Lemma elem_of_units_last t s x : weights_ok t → ULast x ∈ units t s → 0 ≤ x < 2 ^ 32.
Proof.
  intros Ht. unfold units. rewrite list_elem_of_filter, list_elem_of_fmap. intros [_ (c & Hc & _)].
  by eapply last_unit_bound.
Qed.

Lemma by_levels_common c t pad p a b :
  weights_ok t → short (p ++ a) → short (p ++ b) →
  by_levels c t pad (p ++ a) (p ++ b) = by_levels c t pad a b.
Proof.
  intros Ht Ha Hb. apply first_difference_ext. intros l _.
  rewrite !level_weights_app, compare_common. destruct (decide (l = LLast)) as [->|Hl].
  - assert (Hshift : ∀ s, short (p ++ s) →
      mjoin (imap (λ n, unit_weights (flags c) LLast (length (units t p) + n)) (units t s)) =
      (λ x, Z.of_nat (length (units t p)) * 2 ^ 32 + x) <$> level_weights c t s LLast).
    { intros s Hs. rewrite level_weights_units. apply (last_weights_shift _ _ 0).
      - unfold short in Hs. rewrite length_app in Hs. pose proof (length_units t p).
        pose proof (length_units t s). lia.
      - intros x. by apply elem_of_units_last. }
    rewrite !Hshift by done. unfold level_padding. simpl. rewrite andb_false_r.
    apply compare_mapped. intros x y _ _. apply Z.add_compare_mono_l.
  - rewrite !level_weights_units.
    f_equal; f_equal; apply imap_ext; intros n u _; simpl;
      by rewrite (unit_weights_position _ _ (_ + _)), (unit_weights_position _ _ n).
Qed.

Lemma skip_common_spec a b a' b' :
  skip_common a b = (a', b') → ∃ p, a = p ++ a' ∧ b = p ++ b'.
Proof.
  revert b. induction a as [|x a IH]; intros b; simpl; [intros [= <- <-]; by exists []|].
  destruct b as [|y b]; [intros [= <- <-]; by exists []|].
  destruct (Z.eqb_spec x y) as [->|]; [|intros [= <- <-]; by exists []].
  intros (p & -> & ->)%IH. by exists (y :: p).
Qed.

(** ** ASCII texts *)

Section ascii.
Context (c : Collation) (t : WeightTable) (Ht : weights_ok t).

Notation rows s := ((λ byte, ascii_row t (Z.land byte 127)) <$> s).

Lemma ascii_row_masked x : is_ascii x = true → ascii_row t (Z.land x 127) = ascii_row t x.
Proof using.
  intros Hx. unfold is_ascii in Hx. change 127 with (Z.ones 7). rewrite Z.land_ones by lia.
  rewrite Z.mod_small; [done|]. change (2 ^ 7) with 128. lia.
Qed.

Lemma ascii_units s :
  forallb is_ascii s = true →
  units t s = ascii_unit <$> filter (λ r, class r ≠ AIgnored) (rows s).
Proof using Ht.
  induction s as [|x s IH]; [done|]. simpl. intros [Hx Hs]%andb_true_iff.
  rewrite ascii_row_masked by done. specialize (IH Hs). unfold units in *. simpl.
  rewrite (table_unit_ascii t x Ht Hx). unfold filter at 1 2. simpl.
  destruct (class (ascii_row t x)) eqn:Hc;
    repeat case_decide; try (by unfold ascii_unit in *; rewrite Hc in * ); simpl; by f_equal.
Qed.

Lemma ascii_unit_weights r l :
  l ≠ LLast → unit_weights (flags c) l 0 (ascii_unit r) =
  if bool_decide (class r = APlain) then [ascii_weight r l (flags c)] else [].
Proof using.
  intros Hl. unfold ascii_unit. destruct (class r); destruct l; simpl; try done.
  unfold element_weight. simpl. rewrite orb_false_r, !andb_false_r. simpl. rewrite !Z.lor_0_r. done.
Qed.

Lemma ascii_level s l :
  l ≠ LLast → forallb is_ascii s = true →
  level_weights c t s l = (λ r, ascii_weight r l (flags c)) <$> filter (λ r, class r = APlain) (rows s).
Proof using Ht.
  intros Hl Hs. rewrite level_weights_flat, ascii_units by done.
  induction (rows s) as [|r rs IH]; [done|]. rewrite !filter_cons.
  destruct (decide (class r ≠ AIgnored)) as [Hi|Hi].
  - rewrite fmap_cons, bind_cons, ascii_unit_weights, IH by done.
    case_bool_decide; [by rewrite decide_True|by rewrite decide_False].
  - apply dec_stable in Hi. rewrite IH, decide_False; [done|congruence].
Qed.

Lemma ascii_level_last s : forallb is_ascii s = true → level_weights c t s LLast = ascii_last t s.
Proof using Ht.
  intros Hs. rewrite level_weights_units, ascii_units by done. unfold ascii_last. f_equal.
  rewrite imap_fmap. apply imap_ext. intros n r _. unfold compose, ascii_unit.
  destruct (class r); simpl; try done.
  rewrite ldiff_one, Z.shiftl_mul_pow2 by lia. change (2 ^ 1) with 2.
  rewrite Z.div_mul by lia. rewrite (Z.mul_comm 2). by destruct (has_flag _ _).
Qed.

Lemma space_padding l : l ≠ LLast → head (level_weights c t [SPACE] l) = Some (ascii_weight (ascii_row t SPACE) l (flags c)).
Proof using Ht.
  intros Hl. rewrite ascii_level by done. simpl. rewrite ascii_row_masked by done.
  rewrite filter_cons_True by apply (wo_space _ Ht). done.
Qed.

Lemma compare_ascii_levels a b pad :
  forallb is_ascii a = true → forallb is_ascii b = true →
  compare_ascii c t a b pad (levels c t) = by_levels c t pad a b.
Proof using Ht.
  intros Ha Hb. apply first_difference_ext. intros l _. unfold level_padding.
  case_bool_decide as Hl.
  - subst. rewrite !ascii_level_last by done. by rewrite andb_false_r.
  - rewrite space_padding, !ascii_level by done. by rewrite andb_true_r.
Qed.

(** ** The pass over plain characters *)

(** A text of plain characters has one weight per character at each level but the last. *)
Definition plain (x : Z) : Prop := is_ascii x = true ∧ class (ascii_row t x) = APlain.

Definition plain_weights (l : Level) (s : list Z) : list Z :=
  (λ x, ascii_weight (ascii_row t x) l (flags c)) <$> s.

Lemma plain_units p s :
  Forall plain p →
  units t (p ++ s) =
  ((λ x, ascii_unit (ascii_row t x)) <$> p) ++ units t s.
Proof using Ht.
  intros Hp. rewrite units_app. f_equal. induction Hp as [|x p [Hx Hc] _ IH]; [done|].
  unfold units in *. simpl. rewrite table_unit_ascii by done.
  rewrite filter_cons_True by (unfold ascii_unit; by rewrite Hc). by f_equal.
Qed.

Lemma plain_level p s l :
  Forall plain p → l ≠ LLast → level_weights c t (p ++ s) l = plain_weights l p ++ level_weights c t s l.
Proof using Ht.
  intros Hp Hl. rewrite !level_weights_flat, plain_units, bind_app by done. f_equal.
  induction Hp as [|x p [Hx Hc] _ IH]; [done|]. simpl.
  rewrite ascii_unit_weights, bool_decide_true by done. by f_equal.
Qed.

Lemma plain_level_last p : Forall plain p → level_weights c t p LLast = [].
Proof using Ht.
  intros Hp. rewrite level_weights_units, <- (app_nil_r p), plain_units, app_nil_r, imap_fmap by done.
  rewrite (imap_ext _ (const (const []))), imap_const.
  - by induction p; [|inversion_clear Hp; simpl; auto].
  - intros n x [_ Hx]%(Forall_lookup_1 _ _ _ _ Hp). unfold compose, ascii_unit. by rewrite Hx.
Qed.

Lemma compare_same_length a b padding :
  length a = length b → compare_sequences a b padding = compare_sequences a b None.
Proof using.
  revert b. induction a as [|x a IH]; intros [|y b]; simpl; try done. intros [= Hl]. by rewrite IH.
Qed.

Definition case_weight (x : Z) : Z :=
  if has_flag (flags c) FLAG_IGNORE_ACCENT then case_only (row_weights (ascii_row t x))
  else case_accent (row_weights (ascii_row t x)).

Definition pass_ok (a b : list Z) (accents cases : comparison) (r : Pass) : Prop :=
  match r with
  | Decided o => ∃ p q a' b', a = p ++ a' ∧ b = q ++ b' ∧ Forall plain p ∧ Forall plain q ∧
      o ≠ Eq ∧ ∀ u v padding,
        compare_sequences (plain_weights LPrimary p ++ u) (plain_weights LPrimary q ++ v) padding = o
  | Broken => True
  | Ended accents' cases' => length a = length b →
      Forall plain a ∧ Forall plain b ∧ plain_weights LPrimary a = plain_weights LPrimary b ∧
      accents' = then_with accents
        (compare_sequences (plain_weights LAccent a) (plain_weights LAccent b) None) ∧
      cases' = then_with cases (compare_sequences (case_weight <$> a) (case_weight <$> b) None)
  end.

Lemma plain_pass_spec a b accents cases :
  pass_ok a b accents cases (plain_pass (flags c) t a b accents cases).
Proof using.
  revert b accents cases. induction a as [|x a IH]; intros b accents cases.
  { simpl. intros Hl. destruct b; [|done].
    split_and!; [constructor..|done|by destruct accents|by destruct cases]. }
  destruct b as [|y b]; [intros [=]|]. simpl.
  destruct (is_ascii x) eqn:Hx, (is_ascii y) eqn:Hy; simpl; try done.
  case_bool_decide as Hcx; [|done]. case_bool_decide as Hcy; [|done]. simpl.
  assert (Px : plain x) by done. assert (Py : plain y) by done.
  destruct (Z.eqb_spec (primary (row_weights (ascii_row t x))) (primary (row_weights (ascii_row t y))))
    as [He|He]; simpl.
  - match goal with |- context [plain_pass _ _ a b ?u ?v] => specialize (IH b u v);
      destruct (plain_pass (flags c) t a b u v) as [o| |u' v'] end.
    + destruct IH as (p & q & a' & b' & -> & -> & Hp & Hq & Ho & Hall).
      exists (x :: p), (y :: q), a', b'. split_and!; [done..|by constructor|by constructor|done|].
      intros u v padding. simpl. rewrite He, Z.compare_refl. apply Hall.
    + done.
    + intros [= Hl]. destruct (IH Hl) as (Ha & Hb & Hp & -> & ->).
      split_and!; [by constructor|by constructor| | |].
      * unfold plain_weights in *. rewrite !fmap_cons, Hp. f_equal. exact He.
      * by destruct accents.
      * destruct cases; [|done..]. simpl. unfold case_weight at 3 4. by destruct (has_flag _ _).
  - exists [x], [y], a, b. split_and!; [done..|by constructor|by constructor| |].
    + by rewrite Z.compare_eq_iff.
    + intros u v padding. simpl. by destruct (Z.compare_spec (primary (row_weights (ascii_row t x)))
        (primary (row_weights (ascii_row t y)))).
Qed.

Lemma by_levels_decided p q a b pad o :
  Forall plain p → Forall plain q → o ≠ Eq →
  (∀ u v padding,
    compare_sequences (plain_weights LPrimary p ++ u) (plain_weights LPrimary q ++ v) padding = o) →
  by_levels c t pad (p ++ a) (q ++ b) = o.
Proof using Ht.
  intros Hp Hq Ho Hall. unfold by_levels, levels. simpl. rewrite !plain_level, Hall by done.
  by destruct o.
Qed.

Lemma by_levels_plain a b pad :
  Forall plain a → Forall plain b → length a = length b →
  plain_weights LPrimary a = plain_weights LPrimary b →
  let accents := compare_sequences (plain_weights LAccent a) (plain_weights LAccent b) None in
  let cases := compare_sequences (case_weight <$> a) (case_weight <$> b) None in
  by_levels c t pad a b =
  if negb (has_flag (flags c) FLAG_IGNORE_ACCENT) && negb (bool_decide (accents = Eq)) then accents
  else if negb (has_flag (flags c) FLAG_IGNORE_CASE) then cases else Eq.
Proof using Ht.
  intros Ha Hb Hl Hp accents cases.
  assert (Hlevel : ∀ l s, l ≠ LLast → Forall plain s → level_weights c t s l = plain_weights l s).
  { intros l s Hll Hs. rewrite <- (app_nil_r s) at 1. rewrite plain_level by done. apply app_nil_r. }
  assert (Htert : compare_sequences (plain_weights LTertiary a) (plain_weights LTertiary b) None =
    if has_flag (flags c) FLAG_IGNORE_CASE then Eq else cases).
  { unfold plain_weights. simpl. destruct (has_flag (flags c) FLAG_IGNORE_CASE) eqn:Hc.
    - clear -Hl. revert b Hl. induction a as [|x a IH]; intros [|y b] Hl; try done.
      apply IH. by injection Hl.
    - unfold cases. rewrite <- (compare_mapped (λ w, Z.shiftl w 2) (case_weight <$> a)).
      { by rewrite <- !list_fmap_compose. }
      intros x y _ _. rewrite !Z.shiftl_mul_pow2 by lia.
      destruct (Z.compare_spec x y); [by subst; apply Z.compare_refl|..]; [change (x * 2 ^ 2 < y * 2 ^ 2)|apply Z.compare_gt_iff]; lia. }
  assert (Hsame : ∀ l padding, l ≠ LLast →
    compare_sequences (level_weights c t a l) (level_weights c t b l) padding =
    compare_sequences (plain_weights l a) (plain_weights l b) None).
  { intros l padding Hll. rewrite !Hlevel by done. apply compare_same_length.
    unfold plain_weights. by rewrite !length_fmap. }
  assert (Hrefl : ∀ s, compare_sequences s s None = Eq)
    by (intros s; apply (tc_refl (TotalOn := total_lex)); done).
  assert (Hown : plain_weights LOwn a = plain_weights LOwn b) by exact Hp.
  assert (Hflag : has_flag (flags c) FLAG_IGNORE_CASE = false →
    (Z.land (flags c) (Z.lor (Z.lor FLAG_IGNORE_CASE FLAG_IGNORE_KANA) FLAG_IGNORE_WIDTH) =?
     Z.lor (Z.lor FLAG_IGNORE_CASE FLAG_IGNORE_KANA) FLAG_IGNORE_WIDTH) = false).
  { intros Hc. apply Z.eqb_neq. intros He. apply negb_false_iff, Z.eqb_eq in Hc.
    change FLAG_IGNORE_CASE with (Z.land 13 1) in Hc at 1. rewrite Z.land_assoc in Hc.
    change (Z.lor (Z.lor FLAG_IGNORE_CASE FLAG_IGNORE_KANA) FLAG_IGNORE_WIDTH) with 13 in He.
    by rewrite He in Hc. }
  assert (Hlast : ∀ padding,
    compare_sequences (level_weights c t a LLast) (level_weights c t b LLast) padding = Eq).
  { intros padding. by rewrite !plain_level_last by done. }
  unfold by_levels, levels. simpl. rewrite Hsame, Hp, Hrefl by done. simpl.
  destruct (has_flag (flags c) FLAG_IGNORE_ACCENT), (own_level t), (has_last_level t); simpl;
    rewrite ?Hsame, ?Hown, ?Hrefl by done; simpl; fold accents;
    (destruct (has_flag (flags c) FLAG_IGNORE_CASE) eqn:Hc;
       [destruct (_ =? _)|rewrite Hflag by done]; simpl;
       rewrite ?Hsame, ?Htert, ?Hlast, ?Hown, ?Hrefl by done; simpl);
    try done; try (by destruct accents); by destruct accents, cases.
Qed.
End ascii.

(** ** The fast paths change nothing *)

Lemma compare_weighted_levels c t a b pad :
  weights_ok t → short a → short b → compare_weighted c t a b pad = by_levels c t pad a b.
Proof.
  intros Ht Ha Hb. unfold compare_weighted. destruct (skip_common a b) as [a' b'] eqn:Hskip.
  destruct (skip_common_spec _ _ _ _ Hskip) as (p & -> & ->).
  rewrite by_levels_common by done. fold (by_levels c t pad a' b').
  assert (Hslow : (if forallb is_ascii a' && forallb is_ascii b'
                   then compare_ascii c t a' b' pad (levels c t) else by_levels c t pad a' b') =
                  by_levels c t pad a' b').
  { destruct (forallb is_ascii a') eqn:Ha', (forallb is_ascii b') eqn:Hb'; simpl; try done.
    by apply compare_ascii_levels. }
  rewrite Hslow. pose proof (plain_pass_spec c t a' b' Eq Eq) as Hpass.
  destruct (plain_pass (flags c) t a' b' Eq Eq) as [o| |accents cases]; [|done|].
  - destruct Hpass as (p' & q & u & v & -> & -> & Hp & Hq & Ho & Hall).
    symmetry. by eapply by_levels_decided.
  - case_bool_decide as Hl; [|done]. destruct (Hpass Hl) as (Hpa & Hpb & Hprim & -> & ->).
    simpl. symmetry. by apply by_levels_plain.
Qed.

Lemma total_collation c : TotalOn short (collation_compare c).
Proof.
  assert (Hshort : ∀ c', TotalOn short c' →
    TotalOn short (λ a b : list Z, if bool_decide (a = b) then Eq else c' a b)).
  { intros c' Hc'. apply (total_ext _ c' _ Hc'). intros x y Hx _.
    case_bool_decide as He; [|done]. subst. symmetry. by apply (tc_refl (TotalOn := Hc')). }
  unfold collation_compare. destruct (rules c) as [| |t] eqn:Hr; apply Hshort.
  - apply (total_weaken (λ _, True)); [|done]. apply (total_map trim_end (λ _, True)), total_binary.
  - apply (total_weaken (λ _, True)); [|done].
    apply (total_map encode_utf16 (λ _, True) (λ a b, compare_sequences a b (Some SPACE_UNIT))),
      total_padded.
  - apply (total_ext _ (by_levels c t true)).
    + apply (total_weaken (λ _, True)); [apply by_levels_total|done].
    + intros x y Hx Hy. apply compare_weighted_levels; [by eapply rules_ok|done..].
Qed.
