(* ===== verification/Compare.v ===== *)
(** * Comparing values

    [vauban-types/src/compare.rs]: the three-valued comparison [compare] of two values under
    a collation. *)

From Stdlib Require Import SpecFloat.
From S2P Require Import Prelude Values Errors Order Collation CollationFacts.

#[local] Open Scope Z_scope.

Definition u128_max : Z := 2 ^ 128 - 1.

Definition integer_as_i64 (v : Value) : option Z :=
  match v with VI8 x | VI16 x | VI32 x | VI64 x => Some x | _ => None end.

(** [f64::from(f32)], which is exact. *)
Definition f64_from_f32 (f : spec_float) : spec_float :=
  match f with
  | S754_finite s m e => binary_normalize 53 1024 (if s then Zneg m else Zpos m) e s
  | f => f
  end.

Definition float_as_f64 (v : Value) : option spec_float :=
  match v with VF32 f => Some (f64_from_f32 f) | VF64 f => Some f | _ => None end.

Definition compare_floats (x y : spec_float) : SqlResult comparison :=
  ok_or (SFcompare x y) (from_internal (Bug [Lit "compare: NaN in float comparison"])).

Definition scale_out_of_range (s : Z) : SqlError :=
  from_internal (Bug [Lit "compare: decimal scale "; Num (Z.to_N s); Lit " out of range"]).

(** [10u128.checked_pow(exp)]. *)
Definition pow10 (exp : Z) : SqlResult Z :=
  if 10 ^ exp <=? u128_max then Ok (10 ^ exp) else Err (scale_out_of_range exp).

Definition split_decimal (d : Decimal) (max_scale : Z) : SqlResult (Z * Z) :=
  let a := Z.abs (mantissa d) in
  scale_factor ← pow10 (scale d);
  align_factor ← pow10 (max_scale - scale d);
  let fraction := a mod scale_factor * align_factor in
  if fraction <=? u128_max then Ok (a / scale_factor, fraction)
  else Err (scale_out_of_range (scale d)).

Definition compare_decimal_magnitudes (x y : Decimal) : SqlResult comparison :=
  let max_scale := Z.max (scale x) (scale y) in
  px ← split_decimal x max_scale;
  py ← split_decimal y max_scale;
  Ok (then_with (px.1 ?= py.1) (px.2 ?= py.2)).

Definition compare_decimals (x y : Decimal) : SqlResult comparison :=
  let sign_x := Z.sgn (mantissa x) in
  let sign_y := Z.sgn (mantissa y) in
  if negb (sign_x =? sign_y) then Ok (sign_x ?= sign_y)
  else if sign_x =? 0 then Ok Eq
  else
    magnitude ← compare_decimal_magnitudes x y;
    Ok (if sign_x <? 0 then CompOpp magnitude else magnitude).

Definition GUID_ORDER : list nat := [10; 11; 12; 13; 14; 15; 8; 9; 6; 7; 4; 5; 0; 1; 2; 3]%nat.

(** The bytes of a [uniqueidentifier] in comparison order. *)
Definition guid_key (x : list Z) : list Z := (λ i, nth i x 0) <$> GUID_ORDER.

(** The first difference between two byte lists of one length, as the two [for] loops and
    [Iterator::cmp] find it. *)
Definition compare_guids (x y : list Z) : comparison :=
  compare_sequences (guid_key x) (guid_key y) None.

Definition compare_bytes (a b : list Z) : comparison :=
  let len := (length a `max` length b)%nat in
  compare_sequences (a ++ replicate (len - length a) 0) (b ++ replicate (len - length b) 0) None.

Definition compare_datetime2 (x y : DateTime2) : comparison :=
  then_with (date_days (dt2_date x) ?= date_days (dt2_date y))
    (ticks_100ns (dt2_time x) ?= ticks_100ns (dt2_time y)).

(** [bool::cmp]. *)
Definition compare_bool (x y : bool) : comparison := Z.b2z x ?= Z.b2z y.

Definition variant_name (v : Value) : string :=
  match v with
  | VNull => "Null" | VBit _ => "Bit" | VI8 _ => "I8" | VI16 _ => "I16" | VI32 _ => "I32"
  | VI64 _ => "I64" | VDecimal _ => "Decimal" | VF64 _ => "F64" | VF32 _ => "F32"
  | VMoney _ => "Money" | VString _ => "String" | VBytes _ => "Bytes" | VDate _ => "Date"
  | VTime _ => "Time" | VDateTime _ => "DateTime" | VDateTime2 _ => "DateTime2"
  | VDateTimeOffset _ => "DateTimeOffset" | VGuid _ => "Guid"
  end.

Definition is_null (v : Value) : bool := if v is VNull then true else false.

(** The [match (a, b)] of [compare], [None] in its last arm. *)
Definition compare_same_family (a b : Value) (collation : Collation) :
    option (SqlResult comparison) :=
  match a, b with
  | VBit x, VBit y => Some (Ok (compare_bool x y))
  | VDecimal x, VDecimal y => Some (compare_decimals x y)
  | VMoney x, VMoney y => Some (Ok (x ?= y))
  | VString x, VString y => Some (Ok (collation_compare collation (text x) (text y)))
  | VBytes x, VBytes y => Some (Ok (compare_bytes x y))
  | VGuid x, VGuid y => Some (Ok (compare_guids x y))
  | VDate x, VDate y => Some (Ok (date_days x ?= date_days y))
  | VTime x, VTime y => Some (Ok (ticks_100ns x ?= ticks_100ns y))
  | VDateTime x, VDateTime y =>
      Some (Ok (then_with (dt_days x ?= dt_days y) (ticks_300th x ?= ticks_300th y)))
  | VDateTime2 x, VDateTime2 y => Some (Ok (compare_datetime2 x y))
  | VDateTimeOffset x, VDateTimeOffset y => Some (Ok (compare_datetime2 (utc x) (utc y)))
  | _, _ => None
  end.

Definition incompatible (a b : Value) : SqlError :=
  from_internal (Bug [Lit "compare: incompatible value families "; Lit (variant_name a);
    Lit " and "; Lit (variant_name b)]).

Definition compare (a b : Value) (collation : Collation) :
    SqlResult (option comparison) :=
  if is_null a || is_null b then Ok None
  else
    match integer_as_i64 a, integer_as_i64 b with
    | Some x, Some y => Ok (Some (x ?= y))
    | _, _ =>
        match float_as_f64 a, float_as_f64 b with
        | Some x, Some y => Some <$> compare_floats x y
        | _, _ =>
            match compare_same_family a b collation with
            | Some r => Some <$> r
            | None => Err (incompatible a b)
            end
        end
    end.

(** * The comparison of values is an order

    About [Compare.v]: on the values a column of one type may hold, [compare] never fails
    and orders them; decimals are compared by their numeric value, without overflow. *)

#[local] Open Scope Z_scope.

(** ** Bytes, decimals, floats *)

Lemma compare_bytes_padded a b : compare_bytes a b = compare_sequences a b (Some 0).
Proof.
  unfold compare_bytes. revert b. induction a as [|x a IH]; intros b; simpl.
  - rewrite Nat.sub_diag, app_nil_r, Nat.sub_0_r.
    induction b as [|y b IHb]; simpl; [done|]. by rewrite IHb.
  - destruct b as [|y b]; simpl.
    + rewrite Nat.sub_diag, app_nil_r. clear IH.
      induction a as [|x' a IHa] in x |- *; simpl; [done|]. by rewrite IHa.
    + by rewrite IH.
Qed.

(** The numeric value of a decimal, in units of [10^-38]. *)
Definition decimal_value (d : Decimal) : Z := mantissa d * 10 ^ (38 - scale d).

Definition decimal_ok (d : Decimal) : Prop := 0 ≤ scale d ≤ 38.

Lemma pow10_ok e : 0 ≤ e ≤ 38 → pow10 e = Ok (10 ^ e).
Proof.
  intros He. unfold pow10. rewrite (proj2 (Z.leb_le _ _)); [done|].
  assert (10 ^ e ≤ 10 ^ 38) by (apply Z.pow_le_mono_r; lia).
  unfold u128_max. lia.
Qed.

Lemma split_decimal_ok d M :
  decimal_ok d → scale d ≤ M ≤ 38 →
  ∃ i f, split_decimal d M = Ok (i, f) ∧ 0 ≤ f < 10 ^ M ∧
    Z.abs (mantissa d) * 10 ^ (M - scale d) = i * 10 ^ M + f.
Proof.
  intros Hd HM. unfold decimal_ok, split_decimal in *. rewrite !pow10_ok by lia. simpl.
  set (a := Z.abs (mantissa d)). set (p := 10 ^ scale d). set (q := 10 ^ (M - scale d)).
  assert (Hp : 0 < p) by (apply Z.pow_pos_nonneg; lia).
  assert (Hq : 0 < q) by (apply Z.pow_pos_nonneg; lia).
  assert (Hpq : p * q = 10 ^ M) by (unfold p, q; rewrite <- Z.pow_add_r by lia; f_equal; lia).
  assert (Hmod : 0 ≤ a mod p < p) by (by apply Z.mod_pos_bound).
  assert (Hf : 0 ≤ a mod p * q < 10 ^ M) by nia.
  assert (10 ^ M ≤ 10 ^ 38) by (apply Z.pow_le_mono_r; lia).
  rewrite (proj2 (Z.leb_le _ _)) by (unfold u128_max; lia).
  exists (a / p), (a mod p * q). split; [done|]. split; [done|].
  rewrite (Z.div_mod a p) at 1 by lia. rewrite <- Hpq. ring.
Qed.

Lemma lex_compare_value i f i' f' M :
  0 ≤ f < M → 0 ≤ f' < M →
  then_with (i ?= i') (f ?= f') = (i * M + f ?= i' * M + f').
Proof.
  intros Hf Hf'. destruct (Z.compare_spec i i'); subst; simpl; symmetry.
  - destruct (Z.compare_spec f f'); subst; [apply Z.compare_refl|apply Z.compare_lt_iff; lia|
      apply Z.compare_gt_iff; lia].
  - apply Z.compare_lt_iff. nia.
  - apply Z.compare_gt_iff. nia.
Qed.

Lemma scaled_compare a b k : 0 < k → (a * k ?= b * k) = (a ?= b).
Proof.
  intros Hk. destruct (Z.compare_spec a b); subst; [apply Z.compare_refl|
    apply Z.compare_lt_iff; nia|apply Z.compare_gt_iff; nia].
Qed.

Lemma compare_magnitudes_value x y :
  decimal_ok x → decimal_ok y →
  compare_decimal_magnitudes x y = Ok (Z.abs (decimal_value x) ?= Z.abs (decimal_value y)).
Proof.
  intros Hx Hy. unfold compare_decimal_magnitudes, decimal_ok in *.
  set (M := Z.max (scale x) (scale y)).
  destruct (split_decimal_ok x M) as (i & f & -> & Hf & Hvx); [done|lia|].
  destruct (split_decimal_ok y M) as (i' & f' & -> & Hf' & Hvy); [done|lia|]. simpl.
  f_equal. rewrite (lex_compare_value _ _ _ _ (10 ^ M)) by done. rewrite <- Hvx, <- Hvy.
  rewrite <- (scaled_compare _ _ (10 ^ (38 - M))) by (apply Z.pow_pos_nonneg; lia).
  unfold decimal_value. rewrite !Z.abs_mul, !(Z.abs_eq (10 ^ _)) by (apply Z.pow_nonneg; lia).
  rewrite <- !Z.mul_assoc, <- !Z.pow_add_r by lia.
  f_equal; f_equal; f_equal; lia.
Qed.

Lemma compare_decimals_value x y :
  decimal_ok x → decimal_ok y →
  compare_decimals x y = Ok (decimal_value x ?= decimal_value y).
Proof.
  intros Hx Hy. unfold compare_decimals, decimal_ok in *.
  assert (Hp : ∀ d, 0 ≤ scale d ≤ 38 → 0 < 10 ^ (38 - scale d))
    by (intros; apply Z.pow_pos_nonneg; lia).
  assert (Hs : ∀ d, 0 ≤ scale d ≤ 38 → Z.sgn (decimal_value d) = Z.sgn (mantissa d)).
  { intros d Hd. unfold decimal_value. rewrite Z.sgn_mul, (Z.sgn_pos (10 ^ _)) by auto. lia. }
  rewrite <- (Hs x), <- (Hs y) by done. rewrite compare_magnitudes_value by done. simpl.
  generalize (decimal_value x) (decimal_value y). intros a b.
  destruct (Z.eqb_spec (Z.sgn a) (Z.sgn b)) as [He|Hne]; simpl.
  - destruct (Z.eqb_spec (Z.sgn a) 0) as [Hz|Hz].
    + assert (a = 0 ∧ b = 0) as [-> ->] by lia. done.
    + f_equal. destruct (Z.ltb_spec (Z.sgn a) 0).
      * rewrite !Z.abs_neq by lia. rewrite Z.compare_opp. symmetry. apply Z.compare_antisym.
      * by rewrite !Z.abs_eq by lia.
  - f_equal. destruct (Z.compare_spec a b), (Z.compare_spec (Z.sgn a) (Z.sgn b)); try done; lia.
Qed.

(** The position of a float on the line, [NaN] apart. *)
Definition float_rank (f : spec_float) : list Z :=
  match f with
  | S754_infinity true => [-2]
  | S754_finite true m e => [-1; - e; - Zpos m]
  | S754_finite false m e => [1; e; Zpos m]
  | S754_infinity false => [2]
  | S754_zero _ | S754_nan => [0]
  end.

Lemma SFcompare_rank f g :
  f ≠ S754_nan → g ≠ S754_nan →
  SFcompare f g = Some (compare_sequences (float_rank f) (float_rank g) None).
Proof.
  intros Hf Hg. destruct f as [sf|sf| |sf mf ef], g as [sg|sg| |sg mg eg]; try done;
    try (destruct sf); try (destruct sg); try done; simpl.
  - f_equal. rewrite Z.compare_opp, (Z.compare_antisym ef eg).
    destruct (ef ?= eg); simpl; try done. change (Pos.compare_cont Eq mf mg) with (Pos.compare mf mg).
    by destruct (mf ?= mg)%positive.
  - f_equal. destruct (ef ?= eg); simpl; try done.
    change (Pos.compare_cont Eq mf mg) with (Pos.compare mf mg). by destruct (mf ?= mg)%positive.
Qed.

(** ** One family *)

(** The families of the table of [compare]. *)
Inductive Family :=
  | FBit | FInteger | FDecimal | FMoney | FFloat | FString | FBytes | FGuid | FDate | FTime
  | FDateTime | FDateTime2 | FDateTimeOffset.

Definition family_of (v : Value) : option Family :=
  match v with
  | VNull => None
  | VBit _ => Some FBit
  | VI8 _ | VI16 _ | VI32 _ | VI64 _ => Some FInteger
  | VDecimal _ => Some FDecimal
  | VF64 _ | VF32 _ => Some FFloat
  | VMoney _ => Some FMoney
  | VString _ => Some FString
  | VBytes _ => Some FBytes
  | VDate _ => Some FDate
  | VTime _ => Some FTime
  | VDateTime _ => Some FDateTime
  | VDateTime2 _ => Some FDateTime2
  | VDateTimeOffset _ => Some FDateTimeOffset
  | VGuid _ => Some FGuid
  end.

(** A value of the engine: no [NaN], a scale a decimal can have, and no text of more than
    2^32 characters. *)
Definition clean (v : Value) : Prop :=
  match v with
  | VDecimal d => decimal_ok d
  | VF32 _ | VF64 _ => float_as_f64 v ≠ Some S754_nan
  | VString s => short (text s)
  | _ => True
  end.

Section family.
Context (col : Collation).

(** The order inside a family, as a total function. *)
Definition value_order (a b : Value) : comparison :=
  match compare a b col with Ok (Some o) => o | _ => Eq end.

Definition in_family (f : Family) (v : Value) : Prop := family_of v = Some f ∧ clean v.

Lemma compare_family f a b :
  in_family f a → in_family f b → compare a b col = Ok (Some (value_order a b)).
Proof.
  intros [Ha Ca] [Hb Cb]. unfold value_order.
  assert (∃ o, compare a b col = Ok (Some o)) as [o ->]; [|done].
  destruct a, b; simpl in *; simplify_eq; unfold compare; simpl; eauto.
  - rewrite compare_decimals_value by done. simpl. eauto.
  - unfold compare_floats. rewrite SFcompare_rank by congruence. simpl. eauto.
  - unfold compare_floats. rewrite SFcompare_rank by congruence. simpl. eauto.
  - unfold compare_floats. rewrite SFcompare_rank by congruence. simpl. eauto.
  - unfold compare_floats. rewrite SFcompare_rank by congruence. simpl. eauto.
Qed.

(** Each family is compared through a projection of its values. *)
Lemma total_project {B} (f : Family) (p : Value → B) (Q : B → Prop) (c : B → B → comparison) :
  TotalOn Q c → (∀ v, in_family f v → Q (p v)) →
  (∀ a b, in_family f a → in_family f b → value_order a b = c (p a) (p b)) →
  TotalOn (in_family f) value_order.
Proof.
  intros Hc HQ He. apply (total_ext _ (λ a b, c (p a) (p b))); [|done].
  apply (total_weaken (λ v, Q (p v))); [|done]. by apply total_map.
Qed.

Definition bytes_of (v : Value) : list Z :=
  match v with
  | VString s => text s
  | VBytes bs => bs
  | VGuid bs => guid_key bs
  | VF32 _ | VF64 _ => default [] (float_rank <$> float_as_f64 v)
  | _ => []
  end.
Definition number_of (v : Value) : Z :=
  match v with
  | VBit b => Z.b2z b
  | VI8 x | VI16 x | VI32 x | VI64 x | VMoney x => x
  | VDecimal d => decimal_value d
  | VDate d => date_days d
  | VTime t => ticks_100ns t
  | _ => 0
  end.
Definition instant_of (v : Value) : Z * Z :=
  match v with
  | VDateTime d => (dt_days d, ticks_300th d)
  | VDateTime2 d => (date_days (dt2_date d), ticks_100ns (dt2_time d))
  | VDateTimeOffset d => (date_days (dt2_date (utc d)), ticks_100ns (dt2_time (utc d)))
  | _ => (0, 0)
  end.

Lemma total_instant : TotalOn (λ _, True) (λ x y : Z * Z, then_with (x.1 ?= y.1) (x.2 ?= y.2)).
Proof. apply total_then; apply total_on_Z. Qed.

Lemma value_order_total f : TotalOn (in_family f) value_order.
Proof.
  destruct f;
    first
      [ apply (total_project _ number_of _ _ total_Z); [done|];
        intros [] [] [[=] Ca] [[=] Cb]; unfold value_order, compare; simpl in *;
        by rewrite ?compare_decimals_value
      | apply (total_project _ instant_of _ _ total_instant); [done|];
        intros [] [] [[=] Ca] [[=] Cb]; done
      | apply (total_project _ bytes_of _ _ (total_collation col));
          [by intros [] [[=] Cv]|];
        intros [] [] [[=] Ca] [[=] Cb]; done
      | apply (total_project _ bytes_of _ _ (total_padded 0)); [done|];
        intros [] [] [[=] Ca] [[=] Cb]; unfold value_order, compare; simpl;
        by rewrite compare_bytes_padded
      | apply (total_project _ bytes_of _ _ total_lex); [done|];
        intros [] [] [[=] Ca] [[=] Cb]; unfold value_order, compare, compare_floats; simpl in *;
        rewrite ?SFcompare_rank by congruence; done ].
Qed.
End family.
