(* ===== verification/KeyOrder.v ===== *)
(** * Key order

    The shapes of [vauban-storage/src/shape.rs], the rows and key ranges of [row.rs] and
    [key_range.rs], and the comparator of [memory/key_order.rs]: keys compared column by
    column, [NULL] first, and the binary search the sorted structures rely on. *)

From S2P Require Import Prelude Values Errors Order CollationFacts Compare.

(** ** [shape.rs], [row.rs], [key_range.rs] *)

Record KeyColumn := mkKeyColumn { kc_column : N; kc_descending : bool }.

Record TableShape := mkTableShape {
  columns : list TypeInfo;
  clustered_key : option (list KeyColumn);
}.

Record IndexShape := mkIndexShape {
  ix_columns : list KeyColumn;
  unique : bool;
  included : list N;
}.

Record Row := mkRow { values : list Value }.

#[export] Instance Row_eq_dec : EqDecision Row.
Proof. solve_decision. Defined.

(** [std::ops::Bound]. *)
Inductive Bound (A : Type) :=
  | Included (a : A)
  | Excluded (a : A)
  | Unbounded.
Arguments Included {A} a.
Arguments Excluded {A} a.
Arguments Unbounded {A}.

Inductive KeyRange :=
  | Point (k : list Value)
  | Between (lo hi : Bound (list Value))
  | Full.

Inductive Direction := Forward | Backward.

(** ** The comparator *)

Record Column := mkColumn {
  position : nat;
  descending : bool;
  col_collation : Collation;
  col_ty : SqlType;
}.

Record KeyOrder := mkKeyOrder { key_columns : list Column }.

Definition collation_of (info : TypeInfo) : Collation := default Collation_DEFAULT (collation info).

Definition column_new (what : string) (shape : TableShape) (kc : KeyColumn) : SqlResult Column :=
  match columns shape !! N.to_nat (kc_column kc) with
  | None => bug [Lit what; Lit " column "; Num (kc_column kc); Lit " out of range (";
                 Num (N.of_nat (length (columns shape))); Lit " columns)"]
  | Some info =>
      Ok (mkColumn (N.to_nat (kc_column kc)) (kc_descending kc) (collation_of info) (ty info))
  end.

Definition KeyOrder_new (what : string) (cols : list KeyColumn) (shape : TableShape) :
    SqlResult KeyOrder :=
  match cols with
  | [] => bug [Lit what; Lit " has no column"]
  | _ => out ← try_map (column_new what shape) cols; Ok (mkKeyOrder out)
  end.

Definition extract (o : KeyOrder) (row : Row) : SqlResult (list Value) :=
  try_map (λ c,
    match values row !! position c with
    | Some v => Ok v
    | None => corruption [Lit "row has "; Num (N.of_nat (length (values row)));
                          Lit " values, key column "; Num (N.of_nat (position c));
                          Lit " is out of range"]
    end) (key_columns o).

Definition compare_column (a b : Value) (col : Collation) : SqlResult comparison :=
  match is_null a, is_null b with
  | true, true => Ok Eq
  | true, false => Ok Lt
  | false, true => Ok Gt
  | false, false =>
      r ← compare a b col;
      match r with
      | Some o => Ok o
      | None => corruption [Lit "compare answered UNKNOWN for two non-NULL values ";
                            DbgKey [a]; Lit " and "; DbgKey [b]]
      end
  end.

Fixpoint compare_columns (cols : list Column) (a b : list Value) :
    SqlResult comparison :=
  match cols, a, b with
  | c :: cols, x :: a, y :: b =>
      o ← compare_column x y (col_collation c);
      match (if descending c then CompOpp o else o) with
      | Eq => compare_columns cols a b
      | o => Ok o
      end
  | _, _, _ => Ok Eq
  end.

Definition compare_prefix (o : KeyOrder) (a b : list Value) : SqlResult comparison :=
  compare_columns (key_columns o) a b.

Definition variant_matches (v : Value) (ty : SqlType) : bool :=
  match v with
  | VNull => true
  | VBit _ => match ty with TBit => true | _ => false end
  | VI8 _ | VI16 _ | VI32 _ | VI64 _ =>
      match ty with TTinyInt | TSmallInt | TInt | TBigInt => true | _ => false end
  | VDecimal _ => is_exact_numeric ty
  | VF32 _ | VF64 _ => match ty with TFloat | TReal => true | _ => false end
  | VMoney _ => match ty with TMoney | TSmallMoney => true | _ => false end
  | VString _ => is_string ty
  | VBytes _ => match ty with TBinary _ | TVarBinary _ => true | _ => false end
  | VDate _ => match ty with TDate => true | _ => false end
  | VTime _ => match ty with TTime _ => true | _ => false end
  | VDateTime _ => match ty with TDateTime | TSmallDateTime => true | _ => false end
  | VDateTime2 _ => match ty with TDateTime2 _ => true | _ => false end
  | VDateTimeOffset _ => match ty with TDateTimeOffset _ => true | _ => false end
  | VGuid _ => match ty with TUniqueIdentifier => true | _ => false end
  end.

(** The [for] loop of [check_prefix], from position [i]. *)
Fixpoint check_variants (i : N) (cols : list Column) (prefix : list Value) : SqlResult () :=
  match cols, prefix with
  | c :: cols, v :: prefix =>
      if variant_matches v (col_ty c) then check_variants (i + 1) cols prefix
      else bug [Lit "key value "; Num i; Lit " ("; DbgKey [v];
                Lit ") does not match the column type "; DbgType (col_ty c)]
  | _, _ => Ok ()
  end.

Definition check_prefix (o : KeyOrder) (prefix : list Value) : SqlResult () :=
  if bool_decide (length (key_columns o) < length prefix) then
    bug [Lit "key prefix has "; Num (N.of_nat (length prefix)); Lit " values, the key has ";
         Num (N.of_nat (length (key_columns o))); Lit " columns"]
  else check_variants 0 (key_columns o) prefix.

(** ** Binary search *)

(** The [while] loop of [partition_point]; [fuel] bounds its turns. *)
Fixpoint partition_loop {A} (items : list A) (pred : A → SqlResult bool) (fuel lo hi : nat) :
    SqlResult nat :=
  if bool_decide (lo < hi) then
    match fuel with
    | O => Ok lo
    | S fuel =>
        let mid := lo + (hi - lo) / 2 in
        match items !! mid with
        | None => corruption [Lit "binary search index "; Num (N.of_nat mid);
                              Lit " out of range ("; Num (N.of_nat (length items)); Lit " items)"]
        | Some item =>
            b ← pred item;
            if (b : bool) then partition_loop items pred fuel (S mid) hi
            else partition_loop items pred fuel lo mid
        end
    end
  else Ok lo.

Definition partition_point {A} (items : list A) (pred : A → SqlResult bool) : SqlResult nat :=
  partition_loop items pred (length items) 0 (length items).

(** [(a, b) < (c, d)] on tuples of integers. *)
Definition pair_ltb (a b c d : N) : bool := (a <? c)%N || ((a =? c)%N && (b <? d)%N).

(** ** Sorting rows *)

Definition sort_insert (o : KeyOrder) (sorted : list (list Value * RowId * Row))
    (ir : RowId * Row) : SqlResult (list (list Value * RowId * Row)) :=
  let '(id, row) := ir in
  key ← extract o row;
  pos ← partition_point sorted (λ e,
    c ← compare_prefix o e.1.1 key;
    Ok (match c with Lt => true | Eq => (e.1.2 <? id)%N | Gt => false end));
  Ok (insert_at pos (key, id, row) sorted).

Definition sort_rows (o : KeyOrder) (rs : list (RowId * Row)) :
    SqlResult (list (RowId * Row)) :=
  sorted ← try_fold (sort_insert o) [] rs;
  Ok (map (λ e, (e.1.2, e.2)) sorted).

(** * Keys are ordered

    About [KeyOrder.v]: the binary search answers the boundary of its predicate; on rows
    that match the types of their columns the comparator never fails and is an order, also
    against the prefixes a range is given by; [sort_rows] sorts. *)

(** ** Binary search *)

Lemma partition_loop_spec {A} (pred : A → SqlResult bool) (p : A → bool) l1 l2 fuel lo hi :
  (∀ x, x ∈ l1 ++ l2 → pred x = Ok (p x)) →
  Forall (λ x, p x = true) l1 → Forall (λ x, p x = false) l2 →
  lo ≤ length l1 ≤ hi → hi ≤ length (l1 ++ l2) → hi - lo ≤ fuel →
  partition_loop (l1 ++ l2) pred fuel lo hi = Ok (length l1).
Proof.
  intros Hp H1 H2. revert lo hi. induction fuel as [|fuel IH]; intros lo hi Hk Hhi Hf;
    cbn [partition_loop].
  { rewrite bool_decide_false by lia. f_equal. lia. }
  case_bool_decide as Hlt; [|f_equal; lia].
  assert (Hdiv : (hi - lo) / 2 < hi - lo) by (apply Nat.div_lt; lia).
  set (mid := lo + (hi - lo) / 2) in *.
  destruct (lookup_lt_is_Some_2 (l1 ++ l2) mid) as [x Hx]; [lia|]. rewrite Hx.
  rewrite Hp by (by eapply list_elem_of_lookup_2). simpl.
  apply lookup_app_Some in Hx as [Hx|[Hge Hx]].
  - rewrite Forall_lookup in H1. rewrite (H1 _ _ Hx). apply lookup_lt_Some in Hx. apply IH; lia.
  - rewrite Forall_lookup in H2. rewrite (H2 _ _ Hx). apply IH; lia.
Qed.

Lemma partition_point_spec {A} (pred : A → SqlResult bool) (p : A → bool) l1 l2 :
  (∀ x, x ∈ l1 ++ l2 → pred x = Ok (p x)) →
  Forall (λ x, p x = true) l1 → Forall (λ x, p x = false) l2 →
  partition_point (l1 ++ l2) pred = Ok (length l1).
Proof.
  intros Hp H1 H2. unfold partition_point.
  eapply partition_loop_spec; [done..|rewrite length_app; lia|done|lia].
Qed.

(** A predicate that goes from [true] to [false] along a list cuts it in two. *)
Lemma monotone_split {A} (p : A → bool) l :
  StronglySorted (λ a b, p b = true → p a = true) l →
  ∃ l1 l2, l = l1 ++ l2 ∧ Forall (λ x, p x = true) l1 ∧ Forall (λ x, p x = false) l2.
Proof.
  induction l as [|x l IH]; intros Hs; [by exists [], []|].
  apply StronglySorted_inv in Hs as [Hs Hx]. destruct (p x) eqn:Hpx.
  - destruct (IH Hs) as (l1 & l2 & -> & H1 & H2). exists (x :: l1), l2. by repeat constructor.
  - exists [], (x :: l). split; [done|]. split; [done|]. constructor; [done|].
    eapply Forall_impl; [exact Hx|]. intros y Hy. simpl in Hy. destruct (p y) eqn:Hpy; [|done].
    by specialize (Hy eq_refl).
Qed.

Lemma partition_point_split {A} (pred : A → SqlResult bool) (p : A → bool) l :
  (∀ x, x ∈ l → pred x = Ok (p x)) →
  StronglySorted (λ a b, p b = true → p a = true) l →
  ∃ l1 l2, l = l1 ++ l2 ∧ partition_point l pred = Ok (length l1) ∧
    Forall (λ x, p x = true) l1 ∧ Forall (λ x, p x = false) l2.
Proof.
  intros Hp Hs. destruct (monotone_split p l Hs) as (l1 & l2 & -> & H1 & H2).
  exists l1, l2. split; [done|]. split; [by apply (partition_point_spec pred p)|done].
Qed.

(** ** One column *)

Section order.

(** What a column of this type may hold: [NULL], or a clean value of the matching variant. *)
Definition fits (c : Column) (v : Value) : Prop :=
  v = VNull ∨ (variant_matches v (col_ty c) = true ∧ clean v).

Definition family_of_ty (ty : SqlType) : Family :=
  match ty with
  | TBit => FBit
  | TTinyInt | TSmallInt | TInt | TBigInt => FInteger
  | TDecimal _ _ | TNumeric _ _ => FDecimal
  | TFloat | TReal => FFloat
  | TMoney | TSmallMoney => FMoney
  | TChar _ | TVarChar _ | TNChar _ | TNVarChar _ => FString
  | TBinary _ | TVarBinary _ => FBytes
  | TDate => FDate
  | TTime _ => FTime
  | TDateTime | TSmallDateTime => FDateTime
  | TDateTime2 _ => FDateTime2
  | TDateTimeOffset _ => FDateTimeOffset
  | TUniqueIdentifier => FGuid
  end.

Lemma variant_family v ty :
  variant_matches v ty = true → v ≠ VNull → family_of v = Some (family_of_ty ty).
Proof. destruct v, ty; done. Qed.

Lemma fits_family c v : fits c v → v ≠ VNull → in_family (family_of_ty (col_ty c)) v.
Proof. intros [->|[Hm Hc]] Hn; [done|]. split; [by apply variant_family|done]. Qed.

(** The order of a column before [descending] is applied. *)
Definition null_first (col : Collation) (a b : Value) : comparison :=
  match is_null a, is_null b with
  | true, true => Eq
  | true, false => Lt
  | false, true => Gt
  | false, false => value_order col a b
  end.

Definition column_order (c : Column) (a b : Value) : comparison :=
  let o := null_first (col_collation c) a b in if descending c then CompOpp o else o.

Lemma is_null_false v : is_null v = false → v ≠ VNull.
Proof. by intros Hn ->. Qed.

Lemma compare_column_fits c a b :
  fits c a → fits c b →
  compare_column a b (col_collation c) = Ok (null_first (col_collation c) a b).
Proof.
  intros Ha Hb. unfold compare_column, null_first.
  destruct (is_null a) eqn:Na, (is_null b) eqn:Nb; try done.
  rewrite (compare_family (col_collation c) (family_of_ty (col_ty c)));
    eauto using fits_family, is_null_false.
Qed.

Lemma null_first_total c : TotalOn (fits c) (null_first (col_collation c)).
Proof.
  pose proof (value_order_total (col_collation c) (family_of_ty (col_ty c))) as Hv.
  assert (Hf : ∀ v, fits c v → is_null v = false → in_family (family_of_ty (col_ty c)) v)
    by eauto using fits_family, is_null_false.
  unfold null_first. split.
  - intros x Hx. destruct (is_null x) eqn:Nx; [done|]. by apply (tc_refl (TotalOn := Hv)), Hf.
  - intros x y Hx Hy. destruct (is_null x) eqn:Nx, (is_null y) eqn:Ny; try done.
    apply (tc_opp (TotalOn := Hv)); eauto.
  - intros x y z Hx Hy Hz.
    destruct (is_null x) eqn:Nx, (is_null y) eqn:Ny, (is_null z) eqn:Nz; try done.
    apply (tc_trans (TotalOn := Hv)); eauto.
Qed.

Lemma total_opp {A} (P : A → Prop) c : TotalOn P c → TotalOn P (λ x y, CompOpp (c x y)).
Proof.
  intros Hc. split.
  - intros x Px. by rewrite (tc_refl (TotalOn := Hc)).
  - intros x y Px Py. by rewrite (tc_opp (TotalOn := Hc) x y).
  - intros x y z Px Py Pz Hxy Hyz Hxz.
    assert (Hzx : c z x ≠ Gt).
    { apply (tc_trans (TotalOn := Hc) z y x); [done..| |].
      - rewrite (tc_opp (TotalOn := Hc) y z) by done. by destruct (c y z).
      - rewrite (tc_opp (TotalOn := Hc) x y) by done. by destruct (c x y). }
    rewrite (tc_opp (TotalOn := Hc) x z) in Hzx by done. by destruct (c x z).
Qed.

Lemma column_order_total c : TotalOn (fits c) (column_order c).
Proof.
  unfold column_order. destruct (descending c); [apply total_opp|]; apply null_first_total.
Qed.

(** ** Keys and prefixes *)

Fixpoint keys_order (cols : list Column) (a b : list Value) : comparison :=
  match cols, a, b with
  | c :: cols, x :: a, y :: b => then_with (column_order c x y) (keys_order cols a b)
  | _, _, _ => Eq
  end.

(** A key or a prefix of a key: at most one value per column, each of the column's type. *)
Definition prefix_fits (cols : list Column) (k : list Value) : Prop :=
  length k ≤ length cols ∧ ∀ i c v, cols !! i = Some c → k !! i = Some v → fits c v.

Lemma prefix_fits_cons c cols v k :
  prefix_fits (c :: cols) (v :: k) → fits c v ∧ prefix_fits cols k.
Proof.
  intros [Hl Hf]. split; [by apply (Hf 0)|]. split; [simpl in Hl; lia|].
  intros i. apply (Hf (S i)).
Qed.

Lemma compare_columns_fits cols a b :
  prefix_fits cols a → prefix_fits cols b → compare_columns cols a b = Ok (keys_order cols a b).
Proof.
  revert a b. induction cols as [|c cols IH]; intros [|x a] [|y b] Ha Hb; simpl; try done.
  apply prefix_fits_cons in Ha as [Hx Ha], Hb as [Hy Hb].
  rewrite (compare_column_fits c) by done. simpl. fold (column_order c x y).
  unfold column_order. destruct (if descending c then _ else _); simpl; [|done..]. by apply IH.
Qed.

(** Values compared over the first [n] columns. *)
Lemma keys_order_total n cols :
  TotalOn (λ k, prefix_fits cols k ∧ n ≤ length k) (λ a b, keys_order (take n cols) a b).
Proof.
  assert (Hdec : ∀ c cols n v k, prefix_fits (c :: cols) (v :: k) ∧ S n ≤ length (v :: k) →
    fits c v ∧ prefix_fits cols k ∧ n ≤ length k).
  { intros c cols' n' v k [Hp Hl]. apply prefix_fits_cons in Hp as [? ?]. simpl in Hl.
    split_and!; [done..|lia]. }
  revert n. induction cols as [|c cols IH]; intros n; [by rewrite take_nil|].
  destruct n as [|n]; [done|]. simpl. specialize (IH n). pose proof (column_order_total c) as Hc.
  split.
  - intros [|x a] Ha; [done|]. apply Hdec in Ha as (Hx & Ha). simpl.
    rewrite (tc_refl (TotalOn := Hc)) by done. by apply (tc_refl (TotalOn := IH)).
  - intros [|x a] [|y b] Ha Hb; [done|by destruct Ha as [_ Ha]; simpl in Ha; lia|
      by destruct Hb as [_ Hb]; simpl in Hb; lia|].
    apply Hdec in Ha as (Hx & Ha), Hb as (Hy & Hb). simpl.
    rewrite (tc_opp (TotalOn := Hc) x y), (tc_opp (TotalOn := IH) a b) by done.
    by destruct (column_order c x y).
  - intros [|x a] [|y b] [|z d] Ha Hb Hd; try (destruct Ha as [_ Ha]; simpl in Ha; lia);
      try (destruct Hb as [_ Hb]; simpl in Hb; lia); try (destruct Hd as [_ Hd]; simpl in Hd; lia).
    apply Hdec in Ha as (Hx & Ha), Hb as (Hy & Hb), Hd as (Hz & Hd). simpl.
    destruct (column_order c x y) eqn:Hxy; simpl; [|intros _ Hyz|done].
    + rewrite (tc_eq_l (fits c) (column_order c) x y z) by done.
      destruct (column_order c y z); simpl; [|done..]. by apply (tc_trans (TotalOn := IH)).
    + rewrite (tc_lt_le (fits c) (column_order c) x y z); [done..|].
      intros He. by rewrite He in Hyz.
Qed.
End order.
