(* ===== verification/CollationNames.v ===== *)
(** * The names of the collations

    About [parse_name] and [name] of [Collation.v]: a name is accepted exactly when it
    spells, in any case, a head with suffixes that the head allows. *)

From Stdlib Require Import Ascii.
From S2P Require Import Prelude Values Errors Collation.

(** ** Spelling *)

Definition head_segments (h : Head) : list string :=
  match h with
  | HSql => ["SQL"; "Latin1"; "General"; "CP1"]
  | HWindows => ["Latin1"; "General"]
  | HWindows100 => ["Latin1"; "General"; "100"]
  end.

Definition if_written (b : bool) (keyword : string) : list string := if b then [keyword] else [].

Definition choice_segments (o : option bool) (on off : string) : list string :=
  match o with Some true => [on] | Some false => [off] | None => [] end.

Definition suffix_segments (w : Suffixes) : list string :=
  choice_segments (ignore_case w) "CI" "CS" ++ choice_segments (ignore_accent w) "AI" "AS" ++
  if_written (kana w) "KS" ++ if_written (width w) "WS" ++
  choice_segments (binary w) "BIN2" "BIN" ++
  if_written (supplementary w) "SC" ++ if_written (utf8 w) "UTF8".

Fixpoint join_segments (ps : list string) : string :=
  match ps with
  | [] => ""
  | [p] => p
  | p :: ps => p +:+ String "_" (join_segments ps)
  end.

Definition spell (h : Head) (w : Suffixes) : string :=
  join_segments (head_segments h ++ suffix_segments w).

Definition flags_of (w : Suffixes) : Z :=
  Z.lor (Z.lor (Z.lor (Z.lor (Z.lor
    (match ignore_case w with Some false => 0 | _ => FLAG_IGNORE_CASE end)
    (match ignore_accent w with Some false => 0 | _ => FLAG_IGNORE_ACCENT end))
    (if kana w then 0 else FLAG_IGNORE_KANA))
    (if width w then 0 else FLAG_IGNORE_WIDTH))
    (match binary w with Some true => FLAG_BINARY2 | Some false => FLAG_BINARY | None => 0 end))
    (if utf8 w then FLAG_UTF8 else 0).

Definition collation_of (h : Head) (w : Suffixes) : Collation :=
  mkCollation LCID_LATIN1_GENERAL (flags_of w) (head_version h)
    (match h with HSql => sql_sort_id (flags_of w) | _ => 0%Z end).

(** All the spellings: three heads and the seven axes of suffixes. *)
Definition all_suffixes : list Suffixes :=
  let choices := [None; Some true; Some false] in
  let flags := [false; true] in
  ic ← choices; ia ← choices; k ← flags; w ← flags; b ← choices; sc ← flags; u ← flags;
  [mkSuffixes ic ia k w b sc u].

Definition all_spellings : list (Head * Suffixes) :=
  h ← [HSql; HWindows; HWindows100]; w ← all_suffixes; [(h, w)].

Definition installed : list (Head * Suffixes) :=
  filter (λ hw, allows hw.1 hw.2 = true) all_spellings.

Definition installed_names : list string := (λ hw, spell hw.1 hw.2) <$> installed.

Lemma elem_of_all_spellings h w : (h, w) ∈ all_spellings.
Proof.
  destruct w as [ic ia k w b sc u]. unfold all_spellings, all_suffixes.
  assert (Hc : ∀ o : option bool, o ∈ [None; Some true; Some false]) by (intros [[]|]; set_solver).
  assert (Hf : ∀ b : bool, b ∈ [false; true]) by (intros []; set_solver).
  apply list_elem_of_bind. exists h. split; [|destruct h; set_solver].
  apply list_elem_of_bind. eexists. split; [by left|].
  apply list_elem_of_bind. exists ic. split; [|done].
  apply list_elem_of_bind. exists ia. split; [|done].
  apply list_elem_of_bind. exists k. split; [|done].
  apply list_elem_of_bind. exists w. split; [|done].
  apply list_elem_of_bind. exists b. split; [|done].
  apply list_elem_of_bind. exists sc. split; [|done].
  apply list_elem_of_bind. exists u. split; [by left|done].
Qed.

(** ** The case of letters does not matter *)

Definition all_ascii : list ascii := ascii_of_nat <$> seq 0 256.

Lemma elem_of_all_ascii a : a ∈ all_ascii.
Proof.
  unfold all_ascii. apply list_elem_of_fmap. exists (nat_of_ascii a).
  split; [by rewrite ascii_nat_embedding|]. apply elem_of_seq. pose proof (nat_ascii_bounded a). lia.
Qed.

(** A property of one character, checked on each of them. *)
Lemma ascii_forall (P : ascii → Prop) `{∀ a, Decision (P a)} : bool_decide (Forall P all_ascii) → ∀ a, P a.
Proof. intros Hb%bool_decide_unpack a. rewrite Forall_forall in Hb. apply Hb, elem_of_all_ascii. Qed.

Lemma lower_underscore a : ascii_lower a = "_"%char ↔ a = "_"%char.
Proof.
  enough (H : ∀ a, bool_decide (ascii_lower a = "_"%char) = bool_decide (a = "_"%char)).
  { specialize (H a). by repeat case_bool_decide. }
  refine (ascii_forall _ _); by vm_compute.
Qed.

Lemma lower_digit a : is_digit (ascii_lower a) = is_digit a.
Proof. revert a. refine (ascii_forall _ _); by vm_compute. Qed.

Lemma lower_idemp s : lower (lower s) = lower s.
Proof.
  induction s as [|a s IH]; simpl; [done|]. rewrite IH. f_equal.
  revert a. refine (ascii_forall _ _); by vm_compute.
Qed.

Lemma digit_lower a : is_digit a = true → ascii_lower a = a.
Proof.
  enough (H : ∀ a, negb (is_digit a) || bool_decide (ascii_lower a = a) = true).
  { intros Ha. specialize (H a). rewrite Ha in H. by apply bool_decide_eq_true in H. }
  refine (ascii_forall _ _); by vm_compute.
Qed.

Lemma split_lower s : split_name (lower s) = lower <$> split_name s.
Proof.
  induction s as [|a s IH]; simpl; [done|]. rewrite IH.
  destruct (decide (a = "_"%char)) as [->|Ha]; [done|].
  rewrite decide_False by (by rewrite lower_underscore). by destruct (split_name s).
Qed.

Lemma take_segment_lower ps k :
  take_segment (lower <$> ps) k = ((take_segment ps k).1, lower <$> (take_segment ps k).2).
Proof.
  destruct ps as [|p ps]; simpl; [done|]. unfold eq_ignore_ascii_case. rewrite lower_idemp.
  by case_bool_decide.
Qed.

Lemma is_version_lower p : is_version (lower p) = is_version p.
Proof.
  unfold is_version. f_equal; [by destruct p|].
  induction p as [|a p IH]; simpl; [done|]. by rewrite lower_digit, IH.
Qed.

Lemma digits_lower p : all_digits p = true → lower p = p.
Proof.
  induction p as [|a p IH]; simpl; [done|]. intros [Ha Hp]%andb_true_iff.
  by rewrite digit_lower, IH.
Qed.

(** The segments that are left, in lower case. *)
Definition lower_rest {A} (r : A * list string) : A * list string := (r.1, lower <$> r.2).

Lemma parse_head_lower s : parse_head (lower s) = lower_rest <$> parse_head s.
Proof.
  unfold parse_head. rewrite split_lower, take_segment_lower.
  destruct (take_segment (split_name s) "SQL") as [b ps]. simpl.
  destruct ps as [|p1 [|p2 ps]]; simpl; [done..|]. unfold eq_ignore_ascii_case. rewrite !lower_idemp.
  destruct (negb _ || negb _); [done|]. destruct b.
  - destruct ps as [|p ps]; simpl; [done|]. rewrite lower_idemp. by case_bool_decide.
  - destruct ps as [|p ps]; simpl; [done|]. rewrite is_version_lower.
    destruct (is_version p) eqn:Hv; [|done]. apply andb_true_iff in Hv as [_ Hv].
    rewrite (digits_lower _ Hv). by case_bool_decide.
Qed.

Lemma parse_suffixes_lower ps :
  parse_suffixes (lower <$> ps) = lower_rest (parse_suffixes ps).
Proof.
  unfold parse_suffixes.
  repeat match goal with
    | |- context [take_segment (lower <$> ?p) ?k] =>
        rewrite (take_segment_lower p k); destruct (take_segment p k) as [[] ?]; simpl
    end; reflexivity.
Qed.

Lemma parse_name_lower s : parse_name (lower s) = parse_name s.
Proof.
  unfold parse_name. rewrite parse_head_lower. destruct (parse_head s) as [[[b h] ps]|]; [|done].
  simpl. rewrite parse_suffixes_lower. by destruct (parse_suffixes ps) as [[f w] [|]].
Qed.

(** ** What is accepted *)

Definition same_segments : list string → list string → Prop := Forall2 (λ p k, lower p = lower k).

Lemma take_segment_true ps k rest :
  take_segment ps k = (true, rest) → ∃ p, ps = p :: rest ∧ lower p = lower k.
Proof.
  destruct ps as [|p ps]; simpl; [done|]. unfold eq_ignore_ascii_case.
  case_bool_decide as Hp; intros [= <-]. by exists p.
Qed.

Lemma take_segment_false ps k rest : take_segment ps k = (false, rest) → ps = rest.
Proof.
  destruct ps as [|p ps]; simpl; [by intros [= <-]|]. destruct (eq_ignore_ascii_case p k); naive_solver.
Qed.

Lemma parse_suffixes_used ps f w rest :
  parse_suffixes ps = (f, w, rest) →
  f = flags_of w ∧ ∃ used, ps = used ++ rest ∧ same_segments used (suffix_segments w).
Proof.
  unfold parse_suffixes.
  repeat match goal with
    | |- context [take_segment ?p ?k] =>
        let H := fresh "Htake" in
        destruct (take_segment p k) as [[] ?] eqn:H; simpl;
        [apply take_segment_true in H as (? & -> & ?)|apply take_segment_false in H as ->]
    end; intros [= <- <- <-]; (split; [reflexivity|]);
    match goal with |- ∃ used, ?l = used ++ ?r ∧ _ =>
      let rec front l := match l with
        | r => constr:(@nil string)
        | ?x :: ?l' => let u := front l' in constr:(x :: u)
        end in let u := front l in exists u end;
    (split; [reflexivity|]); repeat constructor; done.
Qed.

Lemma parse_head_used s b h rest :
  parse_head s = Some (b, h, rest) →
  b = bool_decide (h = HSql) ∧ ∃ used, split_name s = used ++ rest ∧ same_segments used (head_segments h).
Proof.
  unfold parse_head. destruct (take_segment (split_name s) "SQL") as [sql ps] eqn:Hsql.
  destruct ps as [|p1 [|p2 ps]]; [done..|]. unfold eq_ignore_ascii_case.
  case_bool_decide as H1; [|done]. case_bool_decide as H2; [|done]. simpl. destruct sql.
  - apply take_segment_true in Hsql as (p & -> & Hp). destruct ps as [|p3 ps]; [done|].
    case_bool_decide as H3; [|done]. intros [= <- <- <-].
    split; [done|]. exists [p; p1; p2; p3]. split; [done|]. by repeat constructor.
  - apply take_segment_false in Hsql as ->. destruct ps as [|p3 ps].
    + intros [= <- <- <-]. split; [done|]. exists [p1; p2]. split; [done|]. by repeat constructor.
    + destruct (is_version p3).
      * case_bool_decide; [|done]. intros [= <- <- <-]. subst.
        split; [done|]. exists [p1; p2; "100"]. split; [done|]. by repeat constructor.
      * intros [= <- <- <-]. split; [done|]. exists [p1; p2]. split; [done|]. by repeat constructor.
Qed.

Lemma lower_app a b : lower (a +:+ b) = lower a +:+ lower b.
Proof. induction a as [|x a IH]; simpl; [done|]. by rewrite IH. Qed.

Lemma lower_join ps : lower (join_segments ps) = join_segments (lower <$> ps).
Proof.
  induction ps as [|p [|q ps] IH]; [done..|]. change (join_segments (p :: q :: ps)) with
    (p +:+ String "_" (join_segments (q :: ps))).
  rewrite lower_app. change (lower p +:+ String "_" (lower (join_segments (q :: ps))) =
    lower p +:+ String "_" (join_segments (lower <$> q :: ps))). by rewrite IH.
Qed.

Lemma join_split s : join_segments (split_name s) = s.
Proof.
  induction s as [|a s IH]; [done|]. simpl. destruct (decide (a = "_"%char)) as [->|].
  - destruct (split_name s) as [|p ps] eqn:Hs; [|by rewrite <- IH].
    by destruct s; simpl in Hs; [|destruct (decide _); [|destruct (split_name s)]].
  - destruct (split_name s) as [|p [|q ps]]; simpl in *; by rewrite <- IH.
Qed.

Lemma same_segments_lower ps ks : same_segments ps ks → lower <$> ps = lower <$> ks.
Proof. induction 1 as [|p k ps ks Hp _ IH]; [done|]. rewrite !fmap_cons, IH. by f_equal. Qed.

Lemma elem_of_installed h w : (h, w) ∈ installed ↔ allows h w = true.
Proof.
  unfold installed. rewrite list_elem_of_filter. simpl. split; [by intros []|].
  intros Ha. split; [done|apply elem_of_all_spellings].
Qed.

(** The installed collations, one by one: each spelling is read as what it spells, and the
    name a collation gives itself is read back as itself. *)
Lemma installed_parse :
  Forall (λ hw, parse_name (spell hw.1 hw.2) = Some (collation_of hw.1 hw.2) ∧
                parse_name (name (collation_of hw.1 hw.2)) = Some (collation_of hw.1 hw.2)) installed.
Proof. apply (bool_decide_unpack _). by vm_compute. Qed.

Lemma parse_name_spec s c :
  parse_name s = Some c ↔
  ∃ h w, allows h w = true ∧ lower s = lower (spell h w) ∧ c = collation_of h w.
Proof.
  split.
  - unfold parse_name. destruct (parse_head s) as [[[b h] ps]|] eqn:Hh; [|done]. simpl.
    apply parse_head_used in Hh as (-> & u1 & Hs1 & Hu1).
    destruct (parse_suffixes ps) as [[f w] [|]] eqn:Hw; [|done].
    apply parse_suffixes_used in Hw as (-> & u2 & -> & Hu2).
    destruct (allows h w) eqn:Ha; [|done]. simpl. intros [= <-]. exists h, w.
    split; [done|]. split; [|by destruct h].
    rewrite app_nil_r in Hs1. rewrite <- (join_split s), Hs1. unfold spell. rewrite !lower_join.
    f_equal. apply same_segments_lower. by apply Forall2_app.
  - intros (h & w & Ha & Hs & ->). rewrite <- parse_name_lower, Hs, parse_name_lower.
    apply elem_of_installed in Ha. pose proof installed_parse as Hall.
    rewrite Forall_forall in Hall. by apply (Hall _ Ha).
Qed.
