(* ===== verification/Like.v ===== *)
(** * LIKE and PATINDEX

    [vauban-types/src/like.rs]: a pattern is read into tokens ([tokenize]), and the tokens are
    matched by one greedy pass with a single backtracking point ([match_from]).  A text is the
    list of its characters, each the number of its scalar value.

    The theorems are about what a list of tokens means ([matches], a split of the text with a
    piece for each token): the greedy pass finds the leftmost match when there is one, and it
    stops. *)

From S2P Require Import Prelude Values CodePage Weights Collation.

#[local] Open Scope Z_scope.

(** The characters the grammar of a pattern names. *)
Definition PERCENT : Z := 37.
Definition UNDERSCORE : Z := 95.
Definition LEFT_BRACKET : Z := 91.
Definition RIGHT_BRACKET : Z := 93.
Definition CARET : Z := 94.
Definition HYPHEN : Z := 45.
Definition SPACE : Z := 32.

Inductive ClassItem :=
  | ItemChar (c : Z)
  | ItemRange (low high : Z).

Inductive Token :=
  | Any
  | One
  | Char (c : Z)
  | Class (negated : bool) (items : list ClassItem).

#[export] Instance ClassItem_eq_dec : EqDecision ClassItem.
Proof. solve_decision. Defined.
#[export] Instance Token_eq_dec : EqDecision Token.
Proof. solve_decision. Defined.

(** ** Reading a pattern *)

(** The content of a set and what follows it: [None] where the pattern matches nothing. *)
Fixpoint class_content (escape : option Z) (close_at_end : bool) (chars : list Z) : option (list (Z * bool) * list Z) :=
  match chars with
  | [] => if close_at_end then Some ([], []) else None
  | c :: chars =>
      if bool_decide (Some c = escape) then
        match chars with
        | [] => None
        | d :: chars =>
            match class_content escape close_at_end chars with
            | Some (content, rest) => Some ((d, true) :: content, rest)
            | None => None
            end
        end
      else if c =? RIGHT_BRACKET then Some ([], chars)
      else
        match class_content escape close_at_end chars with
        | Some (content, rest) => Some ((c, false) :: content, rest)
        | None => None
        end
  end.

(** The members and the ranges of a set; an unescaped hyphen between two of its characters makes
    a range. *)
Fixpoint class_items (content : list (Z * bool)) : list ClassItem :=
  match content with
  | [] => []
  | (c, _) :: content' =>
      match content' with
      | (h, false) :: (d, _) :: content'' => if h =? HYPHEN then ItemRange c d :: class_items content'' else ItemChar c :: class_items content'
      | _ => ItemChar c :: class_items content'
      end
  end.

Definition parse_class (escape : option Z) (close_at_end : bool) (chars : list Z) : option (Token * list Z) :=
  let negated := bool_decide (head chars = Some CARET) && negb (bool_decide (escape = Some CARET)) in
  match class_content escape close_at_end (if negated then tail chars else chars) with
  | Some (content, rest) => Some (Class negated (class_items content), rest)
  | None => None
  end.

(** The loop of [tokenize]; every turn takes a character at least, so that [fuel] is the length
    of the pattern. *)
Fixpoint tokenize_loop (fuel : nat) (escape : option Z) (close_at_end : bool) (chars : list Z) : option (list Token) :=
  match chars, fuel with
  | [], _ => Some []
  | _ :: _, O => None
  | c :: chars, S fuel =>
      let push (t : Token) (rest : list Z) := cons t <$> tokenize_loop fuel escape close_at_end rest in
      if bool_decide (Some c = escape) then
        match chars with
        | [] => None
        | literal :: chars => push (Char literal) chars
        end
      else if c =? PERCENT then push Any chars
      else if c =? UNDERSCORE then push One chars
      else if c =? LEFT_BRACKET then
        match parse_class escape close_at_end chars with
        | Some (t, rest) => push t rest
        | None => None
        end
      else push (Char c) chars
  end.

Definition tokenize (pattern : list Z) (escape : option Z) (close_at_end : bool) : option (list Token) :=
  tokenize_loop (length pattern) escape close_at_end pattern.

(** ** Matching *)

Section collation.
Context (coll : Collation).

Definition closes_class_at_pattern_end : bool :=
  (sort_id coll =? 0) && (Z.land (flags coll) (Z.lor FLAG_BINARY FLAG_BINARY2) =? 0).

Definition in_item (c : Z) (item : ClassItem) : bool :=
  match item with
  | ItemChar literal => bool_decide (compare_char coll c literal = Eq)
  | ItemRange low high => negb (bool_decide (compare_char coll low c = Gt)) && negb (bool_decide (compare_char coll c high = Gt))
  end.

Definition matches_one (token : Token) (c : Z) : bool :=
  match token with
  | Any | One => true
  | Char literal => bool_decide (compare_char coll c literal = Eq)
  | Class negated items => xorb (existsb (in_item c) items) negated
  end.

(** [content_length]: the length without the spaces at the end. *)
Fixpoint content_length (text : list Z) : nat :=
  match text with
  | [] => 0
  | c :: text =>
      match content_length text with
      | O => if c =? SPACE then 0 else 1
      | S n => S (S n)
      end
  end.

(** The variables of the loop of [match_from]; [star] is the last [Any] met and how far it has
    swallowed the text. *)
Record Scan := mkScan { start : nat; text_index : nat; token_index : nat; star : option (nat * nat) }.

(** A turn of the loop: the answer, or the next turn. *)
Definition match_turn (text : list Z) (content : nat) (tokens : list Token) (anchored : bool) (s : Scan) : option nat + Scan :=
  let backtrack :=
    match star s with
    | Some (star_index, swallowed) =>
        if (swallowed <? length text)%nat then inr (mkScan (start s) (swallowed + 1) (star_index + 1) (Some (star_index, swallowed + 1)%nat))
        else inl None
    | None =>
        if negb anchored && (start s <? length text)%nat then inr (mkScan (start s + 1) (start s + 1) 0 None)
        else inl None
    end in
  match tokens !! token_index s with
  | Some Any => inr (mkScan (start s) (text_index s) (token_index s + 1) (Some (token_index s, text_index s)))
  | Some token =>
      match text !! text_index s with
      | Some c => if matches_one token c then inr (mkScan (start s) (text_index s + 1) (token_index s + 1) (star s)) else backtrack
      | None => backtrack
      end
  | None => if (content <=? text_index s)%nat then inl (Some (start s)) else backtrack
  end.

Fixpoint match_loop (fuel : nat) (text : list Z) (content : nat) (tokens : list Token) (anchored : bool) (s : Scan) : option (option nat) :=
  match fuel with
  | O => None
  | S fuel =>
      match match_turn text content tokens anchored s with
      | inl r => Some r
      | inr s => match_loop fuel text content tokens anchored s
      end
  end.

(** Turns enough for the loop, as [match_from_stops] shows. *)
Definition match_fuel (n t : nat) : nat := (2 * n + t + 3) * (t + 2).

(** [match_from]; the outer [None] is a loop that has not stopped. *)
Definition match_from (text : list Z) (content : nat) (tokens : list Token) (anchored : bool) : option (option nat) :=
  match_loop (match_fuel (length text) (length tokens)) text content tokens anchored (mkScan 0 0 0 None).

(** The leading [Any]s. *)
Fixpoint leading (tokens : list Token) : nat := match tokens with Any :: tokens => S (leading tokens) | _ => 0 end.

Definition match_start (s pattern : list Z) (escape : option Z) : option (option nat) :=
  match tokenize pattern escape closes_class_at_pattern_end with
  | None => Some None
  | Some tokens =>
      let content := content_length s in
      let lead := leading tokens in
      let rest := drop lead tokens in
      if bool_decide (rest = []) then Some (if (0 <? lead)%nat || (content =? 0)%nat then Some 0%nat else None)
      else match_from s content rest (lead =? 0)%nat
  end.

Definition like (s pattern : list Z) (escape : option Z) : option bool := (λ r, bool_decide (is_Some r)) <$> match_start s pattern escape.

Definition pattern_position (s pattern : list Z) : option (option nat) := 
  (λ r : option nat, (λ start, (start + 1)%nat) <$> r) <$> match_start s pattern None.

(** ** What a pattern means *)

(** A piece of the text for each token: [Any] takes any piece, the others one character. *)
Inductive matches : list Token → list Z → Prop :=
  | matches_nil : matches [] []
  | matches_any tokens skipped text : matches tokens text → matches (Any :: tokens) (skipped ++ text)
  | matches_char token tokens c text : token ≠ Any → matches_one token c = true → matches tokens text → matches (token :: tokens) (c :: text).

(** The text, but for spaces at its end. *)
Definition matches_text (tokens : list Token) (text : list Z) : Prop :=
  ∃ k, (content_length text ≤ k ≤ length text)%nat ∧ matches tokens (take k text).

Lemma matches_any_iff tokens text : matches (Any :: tokens) text ↔ ∃ k, (k ≤ length text)%nat ∧ matches tokens (drop k text).
Proof using Type.
  split.
  - intros H. inversion H as [|? skipped text' H'|]; subst; [|done]. exists (length skipped). rewrite length_app, drop_app_length. split; [lia|done].
  - intros (k & Hk & H). rewrite <- (take_drop k text). by constructor.
Qed.

Lemma matches_char_iff token tokens text : token ≠ Any →
  matches (token :: tokens) text ↔ ∃ c text', text = c :: text' ∧ matches_one token c = true ∧ matches tokens text'.
Proof using Type.
  intros Ht. split.
  - intros H. inversion H; subst; [done|]. eauto.
  - intros (c & text' & -> & Hc & H). by constructor.
Qed.

(** ** The greedy pass *)

Section pass.
Context (text : list Z) (content : nat) (tokens : list Token) (anchored : bool).
#[local] Notation n := (length text).

(** The tokens from [j] on match the text from [i] on, spaces at the end excepted. *)
Definition acc (i j : nat) : Prop :=
  ∃ e, (i ≤ e ≤ n)%nat ∧ (content ≤ e)%nat ∧ matches (drop j tokens) (take (e - i) (drop i text)).

Lemma drop_cons_lookup {A} (l : list A) j x : l !! j = Some x → drop j l = x :: drop (j + 1) l.
Proof using Type. intros H. rewrite (drop_S l x j H). by rewrite Nat.add_1_r. Qed.

Lemma acc_end i j : tokens !! j = None → (i ≤ n)%nat → acc i j ↔ (content ≤ i)%nat.
Proof using Type.
  intros Hj Hi. unfold acc. rewrite drop_ge by by apply lookup_ge_None_1. split.
  - intros (e & He & Hc & Hm). assert (Hnil : take (e - i) (drop i text) = []) by by inversion Hm.
    apply (f_equal length) in Hnil. rewrite length_take, length_drop in Hnil. cbn in Hnil. lia.
  - intros Hc. exists i. rewrite Nat.sub_diag. split_and!; [lia|lia|done|constructor].
Qed.

Lemma acc_any i j : tokens !! j = Some Any → (i ≤ n)%nat → acc i j ↔ ∃ i', (i ≤ i' ≤ n)%nat ∧ acc i' (j + 1).
Proof using Type.
  intros Hj Hi. unfold acc. rewrite (drop_cons_lookup _ _ _ Hj). split.
  - intros (e & He & Hc & (k & Hk & Hm)%matches_any_iff). rewrite length_take, length_drop in Hk. exists (i + k)%nat. split; [lia|].
    exists e. split_and!; [lia|lia|done|]. rewrite skipn_firstn_comm, drop_drop in Hm.
    by replace (e - (i + k))%nat with (e - i - k)%nat by lia.
  - intros (i' & Hi' & e & He & Hc & Hm). exists e. split_and!; [lia|lia|done|]. apply matches_any_iff. exists (i' - i)%nat.
    rewrite length_take, length_drop. split; [lia|]. rewrite skipn_firstn_comm, drop_drop.
    replace (i + (i' - i))%nat with i' by lia. by replace (e - i - (i' - i))%nat with (e - i')%nat by lia.
Qed.

Lemma acc_one i j t : tokens !! j = Some t → t ≠ Any →
  acc i j ↔ ∃ c, text !! i = Some c ∧ matches_one t c = true ∧ acc (i + 1) (j + 1).
Proof using Type.
  intros Hj Ht. unfold acc. rewrite (drop_cons_lookup _ _ _ Hj). split.
  - intros (e & He & Hc & Hm). apply (matches_char_iff _ _ _ Ht) in Hm as (c & text' & Heq & Hc' & Hm).
    destruct (text !! i) as [x|] eqn:Hx.
    + rewrite (drop_cons_lookup _ _ _ Hx) in Heq. destruct (e - i)%nat as [|k] eqn:Hk; [done|]. cbn in Heq. injection Heq as <- <-.
      exists x. split_and!; [done|done|]. exists e. split_and!; [lia|lia|done|]. by replace (e - (i + 1))%nat with k by lia.
    + apply lookup_ge_None_1 in Hx. rewrite drop_ge, take_nil in Heq by done. done.
  - intros (c & Hx & Hc' & e & He & Hc & Hm). exists e. split_and!; [lia|lia|done|]. apply matches_char_iff; [done|].
    exists c, (take (e - (i + 1)) (drop (i + 1) text)). split_and!; [|done|done]. rewrite (drop_cons_lookup _ _ _ Hx).
    by replace (e - i)%nat with (S (e - (i + 1))) by lia.
Qed.

(** No [Any] between two tokens. *)
Definition plain (a b : nat) : Prop := ∀ j, (a ≤ j < b)%nat → ∃ t, tokens !! j = Some t ∧ t ≠ Any.

Lemma acc_plain a k : ∀ i, plain a (a + k) → (i ≤ n)%nat → acc i a → acc (i + k) (a + k) ∧ (i + k ≤ n)%nat.
Proof using Type.
  revert a. induction k as [|k IH]; intros a i Hp Hi Ha; [by rewrite !Nat.add_0_r|].
  destruct (Hp a) as (t & Ht & Hne); [lia|]. destruct (proj1 (acc_one i a t Ht Hne) Ha) as (c & Hc & _ & Ha1). apply lookup_lt_Some in Hc.
  destruct (IH (a + 1)%nat (i + 1)%nat) as [H1 H2]; [intros j Hj; apply Hp; lia|lia|done|].
  replace (i + S k)%nat with (i + 1 + k)%nat by lia. by replace (a + S k)%nat with (a + 1 + k)%nat by lia.
Qed.

(** ** The invariant of the loop *)

(** Where the attempt under way began: after the last [Any], or at the start of the match. *)
Definition base_token (s : Scan) : nat := match star s with Some (j, _) => j + 1 | None => 0 end.
Definition base_text (s : Scan) : nat := match star s with Some (_, i) => i | None => start s end.

Record scan_ok (s : Scan) : Prop := {
  sc_start : (start s ≤ n)%nat;
  sc_base : (base_token s ≤ token_index s ≤ length tokens)%nat;
  sc_text : (text_index s = base_text s + (token_index s - base_token s) ∧ text_index s ≤ n)%nat;
  sc_plain : plain (base_token s) (token_index s);
  sc_attempt : acc (text_index s) (token_index s) → acc (base_text s) (base_token s);
  sc_before st : (st < start s)%nat → ¬ acc st 0;
  sc_anchored : anchored = true → start s = 0%nat;
  sc_sound j i i' : star s = Some (j, i) → (i ≤ i' ≤ n)%nat → acc i' (j + 1) → acc (start s) 0;
  sc_complete j i st : star s = Some (j, i) → (start s ≤ st ≤ n)%nat → (anchored = true → st = start s) → acc st 0 →
    ∃ i', (i ≤ i' ≤ n)%nat ∧ acc i' (j + 1);
}.

(** The leftmost match, or none. *)
Definition leftmost (r : option nat) : Prop :=
  match r with
  | Some st => (st ≤ n)%nat ∧ acc st 0 ∧ (anchored = true → st = 0%nat) ∧ ∀ st', (st' < st)%nat → ¬ acc st' 0
  | None => ∀ st, (st ≤ n)%nat → (anchored = true → st = 0%nat) → ¬ acc st 0
  end.

Definition measure (s : Scan) : nat :=
  ((n - start s) + match star s with None => n + length tokens + 1 | Some (j, i) => (n - i) + (length tokens - j) end) * (length tokens + 2) +
  (length tokens - token_index s).

Lemma scan_attempt s : scan_ok s → acc (base_text s) (base_token s) → acc (text_index s) (token_index s).
Proof using Type.
  intros [Hst [Hb1 Hb2] [Ht Htn] Hp _ _ _ _ _] Ha. destruct (acc_plain (base_token s) (token_index s - base_token s) (base_text s)) as [H _].
  - by replace (base_token s + (token_index s - base_token s))%nat with (token_index s) by lia.
  - lia.
  - done.
  - rewrite Ht. by replace (base_token s + (token_index s - base_token s))%nat with (token_index s) in H by lia.
Qed.

(** A new [Any]. *)
Lemma turn_any s : scan_ok s → tokens !! token_index s = Some Any →
  let s' := mkScan (start s) (text_index s) (token_index s + 1) (Some (token_index s, text_index s)) in
  scan_ok s' ∧ (measure s' < measure s)%nat.
Proof using Type.
  intros H Hk s'. pose proof H as [Hst [Hb1 Hb2] [Ht Htn] Hp Hat Hbef Han Hso Hco]. pose proof (lookup_lt_Some _ _ _ Hk) as Hlt. split.
  - split; cbn [start text_index token_index star s' base_token base_text]; try done; try lia.
    + unfold base_token. cbn. intros j Hj. lia.
    + intros j i i' [= <- <-] Hi Ha. assert (Hacc : acc (text_index s) (token_index s)) by (apply acc_any; [done|done|eauto]).
      apply Hat in Hacc. unfold base_text, base_token in Hacc. destruct (star s) as [[sj sw]|] eqn:Hs; [|done].
      apply (Hso sj sw sw); [done| |done]. unfold base_text in Ht. rewrite Hs in Ht. lia.
    + intros j i st [= <- <-] Hrange Hone Ha.
      assert (Hfrom : ∃ i0, (base_text s ≤ i0 ≤ n)%nat ∧ acc i0 (base_token s)).
      { unfold base_text, base_token. destruct (star s) as [[sj sw]|] eqn:Hs; [by apply (Hco sj sw st)|]. exists st. split; [lia|done]. }
      destruct Hfrom as (i0 & Hi0 & Ha0). destruct (acc_plain (base_token s) (token_index s - base_token s) i0) as [Ha1 Hle]; [|lia|done|].
      { by replace (base_token s + (token_index s - base_token s))%nat with (token_index s) by lia. }
      replace (base_token s + (token_index s - base_token s))%nat with (token_index s) in Ha1 by lia.
      apply acc_any in Ha1 as (i' & Hi' & Ha1); [|done|done]. exists i'. split; [lia|done].
  - unfold measure. cbn [start token_index star s']. destruct (star s) as [[sj sw]|] eqn:Hs; unfold base_token, base_text in *; rewrite Hs in *; nia.
Qed.

(** One character matched. *)
Lemma turn_one s t c : scan_ok s → tokens !! token_index s = Some t → t ≠ Any → text !! text_index s = Some c → matches_one t c = true →
  let s' := mkScan (start s) (text_index s + 1) (token_index s + 1) (star s) in scan_ok s' ∧ (measure s' < measure s)%nat.
Proof using Type.
  intros H Hk Hne Hc Hm s'. pose proof H as [Hst [Hb1 Hb2] [Ht Htn] Hp Hat Hbef Han Hso Hco].
  pose proof (lookup_lt_Some _ _ _ Hk) as Hlt. pose proof (lookup_lt_Some _ _ _ Hc) as Hlt'.
  assert (Hbase : base_token s' = base_token s ∧ base_text s' = base_text s) by done. destruct Hbase as [E1 E2]. split.
  - split; rewrite ?E1, ?E2; cbn [start text_index token_index star s']; try done; try lia.
    + intros j Hj. destruct (decide (j = token_index s)) as [->|]; [eauto|]. apply Hp. lia.
    + intros Ha. apply Hat. apply (acc_one _ _ _ Hk Hne). eauto.
  - unfold measure. cbn [start token_index star s']. lia.
Qed.

(** The attempt has failed. *)
Lemma turn_back s : scan_ok s → ¬ acc (text_index s) (token_index s) →
  match star s with
  | Some (j, i) =>
      if (i <? n)%nat then let s' := mkScan (start s) (i + 1) (j + 1) (Some (j, i + 1)%nat) in scan_ok s' ∧ (measure s' < measure s)%nat
      else leftmost None
  | None =>
      if negb anchored && (start s <? n)%nat then let s' := mkScan (start s + 1) (start s + 1) 0 None in scan_ok s' ∧ (measure s' < measure s)%nat
      else leftmost None
  end.
Proof using Type.
  intros H Hno. pose proof H as [Hst [Hb1 Hb2] [Ht Htn] Hp Hat Hbef Han Hso Hco].
  assert (Hfail : ¬ acc (base_text s) (base_token s)) by (intros Ha; by apply Hno, scan_attempt). unfold base_text, base_token in *.
  destruct (star s) as [[j i]|] eqn:Hs.
  - assert (Hnext : ∀ st, (start s ≤ st ≤ n)%nat → (anchored = true → st = start s) → acc st 0 → ∃ i', (i + 1 ≤ i' ≤ n)%nat ∧ acc i' (j + 1)).
    { intros st Hr Hone Ha. destruct (Hco j i st eq_refl Hr Hone Ha) as (i' & Hi' & Ha'). exists i'. split; [|done].
      destruct (decide (i' = i)) as [->|]; [done|lia]. }
    destruct (Nat.ltb_spec i n) as [Hlt|Hge].
    + split.
      * split; unfold base_token, base_text; cbn [start text_index token_index star]; try done; try lia.
        -- intros k Hk. lia.
        -- intros j' i' i'' [= <- <-] Hi Ha. apply (Hso j i i''); [done|lia|done].
        -- intros j' i' st [= <- <-]. apply Hnext.
      * unfold measure. cbn [start token_index star]. rewrite Hs. nia.
    + intros st Hr Hone Ha. destruct (decide (st < start s)%nat) as [Hlt|]; [by apply (Hbef st)|].
      destruct (Hnext st) as (i' & Hi' & _); [lia| |done|lia]. intros Han'. rewrite (Han Han'). by apply Hone.
  - destruct anchored eqn:Hanch; cbn [negb andb].
    { intros st Hr Hone Ha. rewrite (Hone Hanch) in Ha. by rewrite (Han eq_refl) in Hfail. }
    assert (Hbef' : ∀ st, (st < start s + 1)%nat → ¬ acc st 0) by (intros st Hlt; destruct (decide (st = start s)) as [->|]; [done|apply Hbef; lia]).
    destruct (Nat.ltb_spec (start s) n) as [Hlt|Hge].
    + split.
      * split; unfold base_token, base_text; cbn [start text_index token_index star]; try done; try lia; [intros k Hk; lia|congruence].
      * unfold measure. cbn [start token_index star]. rewrite Hs. nia.
    + intros st Hr _. apply Hbef'. lia.
Qed.

(** A turn answers the leftmost match, or goes on. *)
Lemma match_turn_ok s : scan_ok s →
  match match_turn text content tokens anchored s with
  | inl r => leftmost r
  | inr s' => scan_ok s' ∧ (measure s' < measure s)%nat
  end.
Proof using Type.
  intros H. pose proof (turn_back s H) as Hback. unfold match_turn. pose proof H as [Hst [Hb1 Hb2] [Ht Htn] Hp Hat Hbef Han Hso Hco].
  destruct (tokens !! token_index s) as [t|] eqn:Hk.
  - destruct (decide (t = Any)) as [->|Hne]; [by apply turn_any|].
    assert (Hcase : match match text !! text_index s with
        | Some c => if matches_one t c then inr (mkScan (start s) (text_index s + 1) (token_index s + 1) (star s)) else
            match star s with
            | Some (star_index, swallowed) => if (swallowed <? n)%nat then inr (mkScan (start s) (swallowed + 1) (star_index + 1) (Some (star_index, swallowed + 1)%nat)) else inl None
            | None => if negb anchored && (start s <? n)%nat then inr (mkScan (start s + 1) (start s + 1) 0 None) else inl None
            end
        | None =>
            match star s with
            | Some (star_index, swallowed) => if (swallowed <? n)%nat then inr (mkScan (start s) (swallowed + 1) (star_index + 1) (Some (star_index, swallowed + 1)%nat)) else inl None
            | None => if negb anchored && (start s <? n)%nat then inr (mkScan (start s + 1) (start s + 1) 0 None) else inl None
            end
        end with inl r => leftmost r | inr s' => scan_ok s' ∧ (measure s' < measure s)%nat end).
    { destruct (text !! text_index s) as [c|] eqn:Hc; [destruct (matches_one t c) eqn:Hm; [by eapply turn_one|]|];
        (assert (Hno : ¬ acc (text_index s) (token_index s)) by (rewrite (acc_one _ _ _ Hk Hne); intros (c' & Hc' & Hm' & _); congruence));
        specialize (Hback Hno); destruct (star s) as [[j i]|]; case_match; done. }
    by destruct t.
  - destruct (Nat.leb_spec content (text_index s)) as [Hle|Hgt].
    + assert (Ha : acc (text_index s) (token_index s)) by by apply acc_end. apply Hat in Ha. split_and!; [done| |done|done].
      unfold base_text, base_token in Ha. destruct (star s) as [[j i]|] eqn:Hs; [|done]. apply (Hso j i i); [done| |done].
      unfold base_text in Ht. rewrite Hs in Ht. lia.
    + assert (Hno : ¬ acc (text_index s) (token_index s)) by (rewrite acc_end by done; lia).
      specialize (Hback Hno). destruct (star s) as [[j i]|]; case_match; done.
Qed.

Lemma loop_ok fuel : ∀ s, scan_ok s → (measure s < fuel)%nat → ∃ r, match_loop fuel text content tokens anchored s = Some r ∧ leftmost r.
Proof using Type.
  induction fuel as [|fuel IH]; intros s H Hm; [lia|]. cbn [match_loop]. pose proof (match_turn_ok s H) as Ht.
  destruct (match_turn text content tokens anchored s) as [r|s']; [eauto|]. destruct Ht as [H' Hlt]. apply IH; [done|lia].
Qed.

Lemma match_from_ok : ∃ r, match_from text content tokens anchored = Some r ∧ leftmost r.
Proof using Type.
  apply loop_ok.
  - split; unfold base_token, base_text; cbn; try done; try lia. intros j Hj. lia.
  - unfold measure, match_fuel. cbn [start token_index star]. nia.
Qed.
End pass.

(** ** Leading [Any]s *)

Lemma leading_spec tokens : tokens = replicate (leading tokens) Any ++ drop (leading tokens) tokens ∧ head (drop (leading tokens) tokens) ≠ Some Any.
Proof using Type. induction tokens as [|[] tokens IH]; cbn; try done. destruct IH as [IH1 IH2]. split; [by rewrite <- IH1|done]. Qed.

Lemma matches_leading k tokens text : matches (replicate (S k) Any ++ tokens) text ↔ ∃ i, (i ≤ length text)%nat ∧ matches tokens (drop i text).
Proof using Type.
  revert text. induction k as [|k IH]; intros text; cbn [replicate app]; rewrite matches_any_iff; [done|]. split.
  - intros (i & Hi & Hm). apply IH in Hm as (j & Hj & Hm). rewrite length_drop in Hj. exists (i + j)%nat. split; [lia|]. by rewrite drop_drop in Hm.
  - intros (i & Hi & Hm). exists i. split; [done|]. apply IH. exists 0%nat. split; [lia|by rewrite drop_0].
Qed.

Lemma content_le text : (content_length text ≤ length text)%nat.
Proof using Type. induction text as [|c text IH]; cbn; [done|]. destruct (content_length text); [|lia]. destruct (c =? SPACE); lia. Qed.

(** The text from [st] on matches, spaces at its end excepted. *)
Definition matches_from (tokens : list Token) (text : list Z) (st : nat) : Prop :=
  ∃ e, (st ≤ e ≤ length text)%nat ∧ (content_length text ≤ e)%nat ∧ matches tokens (take (e - st) (drop st text)).

Lemma acc_matches text tokens st : acc text (content_length text) tokens st 0 ↔ matches_from tokens text st.
Proof using Type. unfold acc, matches_from. by rewrite drop_0. Qed.

Lemma matches_text_lead tokens text :
  matches_text tokens text ↔
  if (leading tokens =? 0)%nat then matches_from tokens text 0
  else ∃ st, (st ≤ length text)%nat ∧ matches_from (drop (leading tokens) tokens) text st.
Proof using Type.
  destruct (leading_spec tokens) as [Heq _]. unfold matches_text, matches_from. destruct (leading tokens) as [|k]; cbn [Nat.eqb].
  - split.
    + intros (e & He & Hm). exists e. rewrite drop_0, Nat.sub_0_r. split_and!; [lia|lia|lia|done].
    + intros (e & He & Hc & Hm). exists e. rewrite drop_0, Nat.sub_0_r in Hm. split; [lia|done].
  - set (rest := drop (S k) tokens) in *. rewrite Heq. setoid_rewrite matches_leading. split.
    + intros (e & He & i & Hi & Hm). rewrite length_take in Hi. exists i. split; [lia|]. exists e. split_and!; [lia|lia|lia|].
      by rewrite skipn_firstn_comm in Hm.
    + intros (i & Hi & e & He & Hc & Hm). exists e. split; [lia|]. exists i. rewrite length_take, skipn_firstn_comm. split; [lia|done].
Qed.

Lemma match_start_ok s pattern escape :
  ∃ r, match_start s pattern escape = Some r ∧
    match tokenize pattern escape closes_class_at_pattern_end with
    | None => r = None
    | Some tokens =>
        (is_Some r ↔ matches_text tokens s) ∧
        (drop (leading tokens) tokens ≠ [] → ∀ st, r = Some st →
          (st ≤ length s)%nat ∧ matches_from (drop (leading tokens) tokens) s st ∧ ∀ st', (st' < st)%nat → ¬ matches_from (drop (leading tokens) tokens) s st')
    end.
Proof using Type.
  unfold match_start. destruct (tokenize pattern escape closes_class_at_pattern_end) as [tokens|]; [|by eexists]. cbn zeta.
  destruct (bool_decide_reflect (drop (leading tokens) tokens = [])) as [Hr|Hr].
  - eexists. split; [done|]. split; [|done]. rewrite matches_text_lead, Hr. pose proof (content_le s) as Hle.
    destruct (leading_spec tokens) as [Heq _]. destruct (leading tokens) as [|k]; cbn [Nat.eqb Nat.ltb Nat.leb orb].
    + cbn in Heq. rewrite Heq, Hr. cbn. destruct (Nat.eqb_spec (content_length s) 0) as [H0|H0].
      * split; [intros _|by eexists]. exists 0%nat. split_and!; [lia|lia|lia|constructor].
      * split; [by intros []|]. intros (e & He & Hc & Hm). assert (Hnil : take (e - 0) (drop 0 s) = []) by by inversion Hm.
        apply (f_equal length) in Hnil. rewrite length_take, length_drop in Hnil. cbn in Hnil. lia.
    + split; [intros _|by eexists]. exists (length s). split; [done|]. exists (length s). rewrite Nat.sub_diag. split_and!; [lia|lia|done|constructor].
  - destruct (match_from_ok s (content_length s) (drop (leading tokens) tokens) (leading tokens =? 0)%nat) as (r & -> & Hl).
    exists r. split; [done|]. rewrite matches_text_lead. destruct r as [st|]; cbn [leftmost] in Hl.
    + destruct Hl as (Hst & Ha & Hanch & Hmin). rewrite acc_matches in Ha. setoid_rewrite acc_matches in Hmin. split.
      * split; [intros _|by eexists]. destruct (Nat.eqb_spec (leading tokens) 0) as [H0|]; [|eauto]. rewrite (Hanch eq_refl) in Ha.
        by rewrite H0, drop_0 in Ha.
      * intros _ st' [= <-]. done.
    + setoid_rewrite acc_matches in Hl. split; [|done]. split; [by intros []|]. intros Hm. exfalso.
      destruct (Nat.eqb_spec (leading tokens) 0) as [H0|]; [|destruct Hm as (st & Hst & Hm); by apply (Hl st)].
      apply (Hl 0%nat); [lia|done|]. by rewrite H0, drop_0.
Qed.
End collation.

(** ** Reading patterns *)

Lemma class_content_shorter escape close chars content rest : class_content escape close chars = Some (content, rest) → (length rest ≤ length chars)%nat.
Proof.
  revert content. induction chars as [chars IH] using (induction_ltof1 _ length). unfold ltof in IH. intros content.
  destruct chars as [|c chars]; cbn [class_content]; [destruct close; by intros [= _ <-]|].
  case_bool_decide.
  - destruct chars as [|d chars]; [done|]. destruct (class_content escape close chars) as [[content' rest']|] eqn:He; [|done].
    intros [= _ ->]. apply IH in He; cbn in *; lia.
  - destruct (c =? RIGHT_BRACKET); [intros [= _ ->]; cbn; lia|]. destruct (class_content escape close chars) as [[content' rest']|] eqn:He; [|done].
    intros [= _ ->]. apply IH in He; cbn in *; lia.
Qed.

Lemma parse_class_shorter escape close chars t rest : parse_class escape close chars = Some (t, rest) → (length rest ≤ length chars)%nat.
Proof.
  unfold parse_class. cbv zeta. destruct (_ && _).
  - destruct (class_content escape close (tail chars)) as [[content rest']|] eqn:He; [|done]. intros [= _ ->].
    apply class_content_shorter in He. destruct chars; cbn in *; lia.
  - destruct (class_content escape close chars) as [[content rest']|] eqn:He; [|done]. intros [= _ ->]. by apply class_content_shorter in He.
Qed.

(** More turns than characters change nothing. *)
Lemma tokenize_loop_fuel escape close fuel : ∀ fuel' chars, (length chars ≤ fuel)%nat → (length chars ≤ fuel')%nat →
  tokenize_loop fuel escape close chars = tokenize_loop fuel' escape close chars.
Proof.
  induction fuel as [|fuel IH]; intros [|fuel'] [|c chars] H1 H2; cbn [length] in *; try done; try lia. cbn [tokenize_loop].
  case_bool_decide; [destruct chars as [|d chars]; [done|]; cbn [length] in *; by rewrite (IH fuel') by lia|].
  destruct (c =? PERCENT); [by rewrite (IH fuel') by lia|]. destruct (c =? UNDERSCORE); [by rewrite (IH fuel') by lia|].
  destruct (c =? LEFT_BRACKET); [|by rewrite (IH fuel') by lia].
  destruct (parse_class escape close chars) as [[t rest]|] eqn:Hp; [|done]. apply parse_class_shorter in Hp. by rewrite (IH fuel') by lia.
Qed.

(** A text with the escape character before each of its characters. *)
Definition escaped (e : Z) (text : list Z) : list Z := text ≫= λ c, [e; c].

Lemma tokenize_escaped e text close : tokenize (escaped e text) (Some e) close = Some (Char <$> text).
Proof.
  unfold tokenize. generalize (Nat.le_refl (length (escaped e text))). generalize (length (escaped e text)) at 2 3. intros fuel. revert fuel.
  induction text as [|c text IH]; intros fuel Hf; [by destruct fuel|]. change (escaped e (c :: text)) with (e :: c :: escaped e text) in *.
  cbn [length] in Hf. destruct fuel as [|fuel]; [lia|]. cbn [tokenize_loop]. rewrite bool_decide_eq_true_2 by done. rewrite (IH fuel) by lia. done.
Qed.

(** ** The theorems *)

Section theorems.
Context (coll : Collation).

(** C27. [LIKE] is exact: it always answers, and it answers true exactly when the pattern reads
    into tokens for which the text splits into a piece for each, the spaces that the pattern
    leaves over at the end of the text excepted; a pattern that does not read (an unclosed set
    under a collation that does not close it, or a last escape character) matches nothing. *)
Theorem like_is_exact s pattern escape :
  ∃ b, like coll s pattern escape = Some b ∧
    (b = true ↔ ∃ tokens, tokenize pattern escape (closes_class_at_pattern_end coll) = Some tokens ∧ matches_text coll tokens s).
Proof using Type.
  destruct (match_start_ok coll s pattern escape) as (r & Hr & Hspec). unfold like. rewrite Hr. eexists. split; [done|].
  rewrite bool_decide_eq_true. destruct (tokenize pattern escape _) as [tokens|].
  - destruct Hspec as [Hiff _]. rewrite Hiff. split; [eauto|]. by intros (tokens' & [= <-] & Hm).
  - subst r. split; [by intros []|]. by intros (tokens & ? & _).
Qed.

(** C28. [PATINDEX] answers the leftmost match: a position exactly when [LIKE] holds, and for a
    pattern that is not only [%], the first position from which what follows its leading [%]
    matches the rest of the text. *)
Theorem pattern_position_is_leftmost s pattern :
  ∃ r, pattern_position coll s pattern = Some r ∧ (is_Some r ↔ like coll s pattern None = Some true) ∧
    ∀ p tokens, r = Some p → tokenize pattern None (closes_class_at_pattern_end coll) = Some tokens → drop (leading tokens) tokens ≠ [] →
      (1 ≤ p ≤ length s + 1)%nat ∧ matches_from coll (drop (leading tokens) tokens) s (p - 1) ∧
      ∀ st, (st < p - 1)%nat → ¬ matches_from coll (drop (leading tokens) tokens) s st.
Proof using Type.
  destruct (match_start_ok coll s pattern None) as (r & Hr & Hspec). unfold pattern_position, like. rewrite Hr. cbn [fmap option_fmap option_map].
  eexists. split; [done|]. split.
  - rewrite fmap_is_Some. split; [intros H; by rewrite bool_decide_eq_true_2|]. intros [= H]. by apply bool_decide_eq_true in H.
  - intros p tokens Hp Ht Hne. rewrite Ht in Hspec. destruct Hspec as [_ Hl]. apply fmap_Some in Hp as (st & Hst & ->).
    destruct (Hl Hne st Hst) as (H1 & H2 & H3). replace (st + 1 - 1)%nat with st by lia. split_and!; [lia|lia|done|done].
Qed.

Lemma matches_literals text tokens : matches coll (Char <$> tokens) text ↔ Forall2 (λ c t, compare_char coll c t = Eq) text tokens.
Proof using Type.
  revert text. induction tokens as [|t tokens IH]; intros text.
  - split; [intros H; by inversion H|]. intros H. inversion H. constructor.
  - rewrite fmap_cons, matches_char_iff by done. split.
    + intros (c & text' & -> & Hc%bool_decide_eq_true & Hm%IH). by constructor.
    + intros H. inversion H as [|c t' text' tokens' Hc Hf]; subst. exists c, text'. split_and!; [done|by apply bool_decide_eq_true|by apply IH].
Qed.

(** Escaping makes a pattern literal: with the escape character before each of its
    characters, a text matches the texts that are equal to it character by character under the
    collation, followed by any number of spaces. *)
Theorem escaped_pattern_is_literal s text e :
  like coll s (escaped e text) (Some e) = Some true ↔
  ∃ k, (content_length s ≤ k ≤ length s)%nat ∧ Forall2 (λ c t, compare_char coll c t = Eq) (take k s) text.
Proof using Type.
  destruct (match_start_ok coll s (escaped e text) (Some e)) as (r & Hr & Hspec). rewrite tokenize_escaped in Hspec. destruct Hspec as [Hiff _].
  unfold like. rewrite Hr. cbn [fmap option_fmap option_map]. setoid_rewrite <- matches_literals. fold (matches_text coll (Char <$> text) s).
  rewrite <- Hiff. split; [intros [= H]; by apply bool_decide_eq_true in H|]. intros H. by rewrite bool_decide_eq_true_2.
Qed.
End theorems.

(** ['ABC' LIKE 'a[a-c]%'], ['abc' LIKE 'abc '], ['a!c' LIKE 'a[!]c' ESCAPE '!'] and
    [PATINDEX('%b%', 'aab')] under the default collation. *)
Example like_range : like Collation_DEFAULT [65; 66; 67] [97; 91; 97; 45; 99; 93; 37] None = Some true.
Proof. by vm_compute. Qed.
Example like_blank : like Collation_DEFAULT [97; 98; 99] [97; 98; 99; 32] None = Some false.
Proof. by vm_compute. Qed.
Example like_unclosed : like Collation_DEFAULT [97; 33; 99] [97; 91; 33; 93; 99] (Some 33) = Some false.
Proof. by vm_compute. Qed.
Example patindex_b : pattern_position Collation_DEFAULT [97; 97; 98] [37; 98; 37] = Some (Some 3%nat).
Proof. by vm_compute. Qed.
