(* ===== verification/Calendar.v ===== *)
(** * The civil calendar

    [vauban-types/src/calendar.rs]: days since 0001-01-01 and years, months and days of the
    proleptic Gregorian calendar, and the ticks of a day.  Integers are [Z] with the casts of
    the source written out; [/] and [%] of Rust are [Z.quot] and [Z.rem], [div_euclid] and
    [rem_euclid] by a positive divisor are [Z.div] and [Z.modulo].

    The arithmetic of a year, a month and a day repeats every 400 years: the facts about one era
    of 146 097 days are checked day by day, and carried to every era. *)

From S2P Require Import Prelude.

#[local] Open Scope Z_scope.

Definition DAYS_PER_ERA : Z := 146097.
Definition OFFSET_0001 : Z := 306.
Definition DAYS_1900 : Z := 693595.

(** [as i32] and [as u8]. *)
Definition as_i32 (x : Z) : Z := (x + 2 ^ 31) mod 2 ^ 32 - 2 ^ 31.
Definition as_u8 (x : Z) : Z := x mod 2 ^ 8.
Definition as_u32 (x : Z) : Z := x mod 2 ^ 32.

Definition civil_from_days (days : Z) : Z * Z * Z :=
  let shifted := days + OFFSET_0001 in
  let era := shifted / DAYS_PER_ERA in
  let day_of_era := shifted mod DAYS_PER_ERA in
  let year_of_era := Z.quot (day_of_era - Z.quot day_of_era 1460 + Z.quot day_of_era 36524 - Z.quot day_of_era 146096) 365 in
  let shifted_year := year_of_era + era * 400 in
  let day_of_year := day_of_era - (365 * year_of_era + Z.quot year_of_era 4 - Z.quot year_of_era 100) in
  let shifted_month := Z.quot (5 * day_of_year + 2) 153 in
  let day := as_u8 (day_of_year - Z.quot (153 * shifted_month + 2) 5 + 1) in
  let month := as_u8 (if shifted_month <? 10 then shifted_month + 3 else shifted_month - 9) in
  let year := if month <=? 2 then shifted_year + 1 else shifted_year in
  (as_i32 year, month, day).

Definition days_from_civil (y m d : Z) : Z :=
  let shifted_year := y - (if m <=? 2 then 1 else 0) in
  let era := shifted_year / 400 in
  let year_of_era := shifted_year mod 400 in
  let shifted_month := if 2 <? m then m - 3 else m + 9 in
  let day_of_year := Z.quot (153 * shifted_month + 2) 5 + d - 1 in
  let day_of_era := year_of_era * 365 + Z.quot year_of_era 4 - Z.quot year_of_era 100 + day_of_year in
  as_i32 (era * DAYS_PER_ERA + day_of_era - OFFSET_0001).

Definition is_leap_year (y : Z) : bool := (Z.rem y 4 =? 0) && (negb (Z.rem y 100 =? 0) || (Z.rem y 400 =? 0)).

Definition days_in_month (y m : Z) : Z :=
  if existsb (Z.eqb m) [1; 3; 5; 7; 8; 10; 12] then 31
  else if existsb (Z.eqb m) [4; 6; 9; 11] then 30
  else if m =? 2 then (if is_leap_year y then 29 else 28)
  else 0.

Definition is_valid_civil (y m d : Z) : bool :=
  ((1 <=? y) && (y <=? 9999)) && ((1 <=? m) && (m <=? 12)) && ((1 <=? d) && (d <=? days_in_month y m)).

Definition TICKS_PER_SECOND : Z := 10000000.
Definition TICKS_PER_DAY : Z := 24 * 60 * 60 * TICKS_PER_SECOND.

Definition hms_from_ticks (ticks_100ns : Z) : Z * Z * Z * Z :=
  let ticks := Z.rem ticks_100ns TICKS_PER_DAY in
  let seconds := Z.quot ticks TICKS_PER_SECOND in
  let fraction := as_u32 (Z.rem ticks TICKS_PER_SECOND) in
  (as_u8 (Z.quot seconds 3600), as_u8 (Z.rem (Z.quot seconds 60) 60), as_u8 (Z.rem seconds 60), fraction).

Definition ticks_300th_to_100ns (t : Z) : Z := Z.quot (2 * t * TICKS_PER_SECOND + 300) 600.
Definition ticks_100ns_to_300th (ticks_100ns : Z) : Z := as_u32 (Z.quot (600 * ticks_100ns + TICKS_PER_SECOND) (2 * TICKS_PER_SECOND)).

(** ** Years of an era *)

(** A year from March to February: its number in the era of 400 years, its first day and its
    length. *)
Definition leap (y : Z) : bool := (y mod 4 =? 0) && (negb (y mod 100 =? 0) || (y mod 400 =? 0)).
Definition year_start (y : Z) : Z := 365 * y + y / 4 - y / 100.
Definition year_len (y : Z) : Z := if leap (y + 1) then 366 else 365.
Definition year_of (day : Z) : Z := (day - day / 1460 + day / 36524 - day / 146096) / 365.

(** A loop over small numbers. *)
Fixpoint all_from (n : nat) (i : Z) (f : Z → bool) : bool :=
  match n with O => true | S n => if f i then all_from n (i + 1) f else false end.

Definition all_below (n : Z) (f : Z → bool) : bool := all_from (Z.to_nat n) 0 f.

Lemma all_below_spec n f x : all_below n f = true → 0 ≤ x < n → f x = true.
Proof.
  assert (Hgen : ∀ k i, all_from k i f = true → i ≤ x < i + Z.of_nat k → f x = true).
  { induction k as [|k IH]; intros i; cbn [all_from]; [lia|]. destruct (f i) eqn:Hf; [|done]. intros H Hx.
    destruct (decide (x = i)) as [->|]; [done|]. apply (IH (i + 1)); [done|lia]. }
  intros H Hx. apply (Hgen (Z.to_nat n) 0); [done|lia].
Qed.

Lemma year_of_mono a b : 0 ≤ a ≤ b → b < DAYS_PER_ERA → year_of a ≤ year_of b.
Proof. unfold year_of, DAYS_PER_ERA. intros H1 H2. apply Z.div_le_mono; [lia|]. Z.to_euclidean_division_equations. lia. Qed.

Lemma year_ends_ok : all_below 400 (λ y, (year_of (year_start y) =? y) && (year_of (year_start y + year_len y - 1) =? y) &&
  (year_start y + year_len y =? if y =? 399 then DAYS_PER_ERA else year_start (y + 1))) = true.
Proof. by vm_compute. Qed.

Lemma year_ends y : 0 ≤ y < 400 →
  year_of (year_start y) = y ∧ year_of (year_start y + year_len y - 1) = y ∧
  year_start y + year_len y = if y =? 399 then DAYS_PER_ERA else year_start (y + 1).
Proof.
  intros Hy. pose proof (all_below_spec _ _ y year_ends_ok Hy) as H. cbn beta in H. rewrite !andb_true_iff, !Z.eqb_eq in H. tauto.
Qed.

Lemma year_start_pos y : 0 ≤ y → 0 ≤ year_start y.
Proof. unfold year_start. intros Hy. Z.to_euclidean_division_equations. lia. Qed.

Lemma year_len_cases y : year_len y = 365 ∨ year_len y = 366.
Proof. unfold year_len. destruct (leap _); lia. Qed.

(** The days of a year are in the era, and are of that year. *)
Lemma year_of_day y doy : 0 ≤ y < 400 → 0 ≤ doy < year_len y → 0 ≤ year_start y + doy < DAYS_PER_ERA ∧ year_of (year_start y + doy) = y.
Proof.
  intros Hy Hd. destruct (year_ends y Hy) as (H1 & H2 & H3). pose proof (year_start_pos y ltac:(lia)).
  assert (Hlast : ∀ k, 0 ≤ k → y + k ≤ 399 → year_start (y + k) ≤ year_start 399).
  { intros k Hk Hle. unfold year_start. Z.to_euclidean_division_equations. lia. }
  destruct (year_ends 399 ltac:(lia)) as (_ & _ & H399). rewrite Z.eqb_refl in H399.
  assert (Hin : year_start y + year_len y ≤ DAYS_PER_ERA).
  { rewrite H3. destruct (Z.eqb_spec y 399); [lia|]. pose proof (Hlast 1 ltac:(lia) ltac:(lia)). pose proof (year_len_cases 399). lia. }
  split; [lia|]. pose proof (year_of_mono (year_start y) (year_start y + doy) ltac:(lia) ltac:(lia)).
  pose proof (year_of_mono (year_start y + doy) (year_start y + year_len y - 1) ltac:(lia) ltac:(lia)). lia.
Qed.

(** Every day of the era is a day of one of its years. *)
Lemma day_in_year day : 0 ≤ day < DAYS_PER_ERA → ∃ y doy, 0 ≤ y < 400 ∧ 0 ≤ doy < year_len y ∧ day = year_start y + doy.
Proof.
  intros Hd. assert (Hgen : ∀ k : nat, (k ≤ 400)%nat → (∃ y doy, 0 ≤ y < Z.of_nat k ∧ 0 ≤ doy < year_len y ∧ day = year_start y + doy) ∨
    (if (k =? 400)%nat then DAYS_PER_ERA else year_start (Z.of_nat k)) ≤ day).
  { induction k as [|k IH]; intros Hk; [right; change (0 ≤ day); lia|]. destruct IH as [(y & doy & Hy & Hdoy & He)|Hge]; [lia|left; exists y, doy; split_and!; lia|].
    rewrite (proj2 (Nat.eqb_neq k 400)) in Hge by lia. destruct (year_ends (Z.of_nat k) ltac:(lia)) as (_ & _ & H3).
    destruct (decide (day < year_start (Z.of_nat k) + year_len (Z.of_nat k))) as [Hlt|].
    - left. exists (Z.of_nat k), (day - year_start (Z.of_nat k)). split_and!; lia.
    - right. destruct (Nat.eqb_spec (S k) 400) as [|Hne].
      + assert (k = 399%nat) as -> by lia. change (Z.of_nat 399) with 399 in *. rewrite Z.eqb_refl in H3. lia.
      + rewrite (proj2 (Z.eqb_neq _ _)) in H3 by lia. replace (Z.of_nat (S k)) with (Z.of_nat k + 1) by lia. lia. }
  destruct (Hgen 400%nat ltac:(lia)) as [(y & doy & Hy & Hdoy & He)|Hge]; [|cbn in Hge; lia]. exists y, doy. split_and!; try done; lia.
Qed.

(** ** Months of a year *)

Definition month_days (is_leap : bool) (m : Z) : Z :=
  if existsb (Z.eqb m) [1; 3; 5; 7; 8; 10; 12] then 31
  else if existsb (Z.eqb m) [4; 6; 9; 11] then 30
  else if m =? 2 then (if is_leap then 29 else 28)
  else 0.

Definition month_of (doy : Z) : Z := let sm := (5 * doy + 2) / 153 in if sm <? 10 then sm + 3 else sm - 9.
Definition day_of (doy : Z) : Z := doy - (153 * ((5 * doy + 2) / 153) + 2) / 5 + 1.
Definition shifted (m : Z) : Z := if 2 <? m then m - 3 else m + 9.
Definition day_of_year (m d : Z) : Z := (153 * shifted m + 2) / 5 + d - 1.

Definition day_split_ok (is_leap : bool) (doy : Z) : bool :=
  let m := month_of doy in let d := day_of doy in
  ((1 <=? m) && (m <=? 12)) && ((1 <=? d) && (d <=? month_days is_leap m)) && (day_of_year m d =? doy).

Definition day_join_ok (is_leap : bool) (m d : Z) : bool :=
  let doy := day_of_year m d in
  ((0 <=? doy) && (doy <? if is_leap then 366 else 365)) && ((month_of doy =? m) && (day_of doy =? d)).

Lemma months_ok (b : bool) : all_below (if b then 366 else 365) (day_split_ok b) && all_below 12 (λ m : Z, all_below (month_days b (m + 1)) (λ d : Z, day_join_ok b (m + 1) (d + 1))) = true.
Proof. destruct b; by vm_compute. Qed.

Lemma day_split (b : bool) doy : 0 ≤ doy < (if b then 366 else 365) →
  1 ≤ month_of doy ≤ 12 ∧ 1 ≤ day_of doy ≤ month_days b (month_of doy) ∧ day_of_year (month_of doy) (day_of doy) = doy.
Proof.
  intros Hd. pose proof (months_ok b) as [H _]%andb_true_iff. pose proof (all_below_spec _ _ doy H Hd) as Hs. unfold day_split_ok in Hs. cbv zeta in Hs.
  rewrite !andb_true_iff, !Z.leb_le, Z.eqb_eq in Hs. tauto.
Qed.

Lemma day_join (b : bool) m d : 1 ≤ m ≤ 12 → 1 ≤ d ≤ month_days b m →
  0 ≤ day_of_year m d < (if b then 366 else 365) ∧ month_of (day_of_year m d) = m ∧ day_of (day_of_year m d) = d.
Proof.
  intros Hm Hd. pose proof (months_ok b) as [_ H]%andb_true_iff.
  pose proof (all_below_spec _ _ (m - 1) H ltac:(lia)) as H1. cbn beta in H1. replace (m - 1 + 1) with m in H1 by lia.
  pose proof (all_below_spec _ _ (d - 1) H1 ltac:(lia)) as H2. cbn beta in H2. replace (d - 1 + 1) with d in H2 by lia.
  unfold day_join_ok in H2. cbv zeta in H2. rewrite !andb_true_iff, Z.leb_le, Z.ltb_lt, !Z.eqb_eq in H2. tauto.
Qed.

(** ** The code, era by era *)

Lemma as_i32_id x : - 2 ^ 31 ≤ x < 2 ^ 31 → as_i32 x = x.
Proof. intros H. unfold as_i32. rewrite Z.mod_small by lia. lia. Qed.
Lemma as_u8_id x : 0 ≤ x < 256 → as_u8 x = x.
Proof. intros H. unfold as_u8. by rewrite Z.mod_small by lia. Qed.

Lemma year_of_bound day : 0 ≤ day < DAYS_PER_ERA → 0 ≤ year_of day < 400.
Proof. intros Hd. destruct (day_in_year day Hd) as (y & doy & Hy & Hdoy & ->). by destruct (year_of_day y doy Hy Hdoy) as [_ ->]. Qed.

Lemma month_days_le b m : month_days b m ≤ 31.
Proof. unfold month_days. destruct b; repeat case_match; lia. Qed.

(** The year, the month and the day of the day [doy] of the year [y] of an era. *)
Lemma civil_from_days_era era y doy : 0 ≤ y < 400 → 0 ≤ doy < year_len y →
  civil_from_days (era * DAYS_PER_ERA + (year_start y + doy) - OFFSET_0001) =
  (as_i32 (if month_of doy <=? 2 then y + era * 400 + 1 else y + era * 400), month_of doy, day_of doy).
Proof.
  intros Hy Hdoy. destruct (year_of_day y doy Hy Hdoy) as [Hin Hyear]. set (day := year_start y + doy) in *. unfold civil_from_days. cbv zeta.
  replace (era * DAYS_PER_ERA + day - OFFSET_0001 + OFFSET_0001) with (day + era * DAYS_PER_ERA) by lia.
  rewrite Z.div_add, Z.mod_add by done. rewrite Z.div_small, Z.mod_small by done. rewrite Z.add_0_l.
  rewrite !(Z.quot_div_nonneg day) by lia. fold (year_of day).
  assert (Hq : Z.quot (day - day / 1460 + day / 36524 - day / 146096) 365 = y).
  { rewrite Z.quot_div_nonneg; [exact Hyear| |lia]. Z.to_euclidean_division_equations. lia. }
  rewrite Hq, !(Z.quot_div_nonneg y) by lia. fold (year_start y). replace (day - year_start y) with doy by (unfold day; lia).
  rewrite (Z.quot_div_nonneg (5 * doy + 2)) by lia.
  assert (Hsm : 0 ≤ (5 * doy + 2) / 153) by (apply Z.div_pos; lia).
  rewrite (Z.quot_div_nonneg (153 * ((5 * doy + 2) / 153) + 2)) by lia. fold (month_of doy) (day_of doy).
  destruct (day_split (leap (y + 1)) doy) as (Hm & Hd & _); [unfold year_len in Hdoy; destruct (leap (y + 1)); lia|].
  pose proof (month_days_le (leap (y + 1)) (month_of doy)). change (if (5 * doy + 2) / 153 <? 10 then (5 * doy + 2) / 153 + 3 else (5 * doy + 2) / 153 - 9) with (month_of doy).
  by rewrite !as_u8_id by lia.
Qed.

Lemma days_from_civil_era era y m d : 0 ≤ y < 400 → 1 ≤ m ≤ 12 → 0 ≤ d →
  days_from_civil (if m <=? 2 then y + era * 400 + 1 else y + era * 400) m d =
  as_i32 (era * DAYS_PER_ERA + (year_start y + day_of_year m d) - OFFSET_0001).
Proof.
  intros Hy Hm Hd. unfold days_from_civil. cbv zeta.
  assert (Hs : (if m <=? 2 then y + era * 400 + 1 else y + era * 400) - (if m <=? 2 then 1 else 0) = y + era * 400) by (destruct (m <=? 2); lia).
  rewrite Hs, Z.div_add, Z.mod_add by done. rewrite Z.div_small, Z.mod_small, Z.add_0_l by done. rewrite !(Z.quot_div_nonneg y) by lia.
  fold (shifted m). assert (0 ≤ shifted m) by (unfold shifted; destruct (Z.ltb_spec 2 m); lia).
  rewrite (Z.quot_div_nonneg (153 * shifted m + 2)) by lia. f_equal. unfold year_start, day_of_year. lia.
Qed.

Lemma rem_zero y k : 0 < k → (Z.rem y k =? 0) = (y mod k =? 0).
Proof.
  intros Hk. apply eq_true_iff_eq. rewrite !Z.eqb_eq. rewrite Z.rem_divide, Z.mod_divide by lia. done.
Qed.

Lemma is_leap_year_leap y era : is_leap_year (y + era * 400) = leap y.
Proof.
  unfold is_leap_year, leap. rewrite !rem_zero by lia. rewrite Z.mod_add by lia.
  replace (y + era * 400) with (y + (era * 100) * 4) at 1 by lia. rewrite Z.mod_add by lia.
  replace (y + era * 400) with (y + (era * 4) * 100) by lia. by rewrite Z.mod_add by lia.
Qed.

Lemma days_in_month_days y era m : 1 ≤ m ≤ 12 → days_in_month (if m <=? 2 then y + era * 400 + 1 else y + era * 400) m = month_days (leap (y + 1)) m.
Proof.
  intros Hm. unfold days_in_month, month_days. destruct (existsb _ [1; _; _; _; _; _; _]); [done|]. destruct (existsb _ _); [done|].
  destruct (Z.eqb_spec m 2) as [->|]; [|done]. cbn [Z.leb Z.compare Pos.compare Pos.compare_cont].
  replace (y + era * 400 + 1) with (y + 1 + era * 400) by lia. by rewrite is_leap_year_leap.
Qed.

(** Every day is a day of a year of an era. *)
Lemma day_era days : ∃ era y doy, 0 ≤ y < 400 ∧ 0 ≤ doy < year_len y ∧ days = era * DAYS_PER_ERA + (year_start y + doy) - OFFSET_0001.
Proof.
  set (sh := days + OFFSET_0001). destruct (day_in_year (sh mod DAYS_PER_ERA)) as (y & doy & Hy & Hdoy & He).
  { apply Z.mod_pos_bound. done. }
  exists (sh / DAYS_PER_ERA), y, doy. split_and!; try done; try lia. rewrite <- He. pose proof (Z.div_mod sh DAYS_PER_ERA ltac:(done)). unfold sh in *. lia.
Qed.

(** A year that the days of an [i32] reach. *)
Lemma era_bound days era y doy : - 2 ^ 31 ≤ days < 2 ^ 31 → 0 ≤ y < 400 → 0 ≤ doy < year_len y →
  days = era * DAYS_PER_ERA + (year_start y + doy) - OFFSET_0001 → - 2 ^ 31 ≤ y + era * 400 ∧ y + era * 400 + 1 < 2 ^ 31.
Proof. intros Hd Hy Hdoy He. destruct (year_of_day y doy Hy Hdoy) as [Hin _]. unfold DAYS_PER_ERA, OFFSET_0001 in *. lia. Qed.

(** ** The theorems *)

(** A real day of the calendar, of any year. *)
Definition real_day (y m d : Z) : Prop := 1 ≤ m ≤ 12 ∧ 1 ≤ d ≤ days_in_month y m.

(** The day after a day of the calendar. *)
Definition next_day (y m d : Z) : Z * Z * Z :=
  if d <? days_in_month y m then (y, m, d + 1)
  else if m <? 12 then (y, m + 1, 1)
  else (y + 1, 1, 1).

(** The year of an era and the day of the year of a real day. *)
Lemma real_day_era y m d : real_day y m d → ∃ era yoe,
  0 ≤ yoe < 400 ∧ 0 ≤ day_of_year m d < year_len yoe ∧ y = (if m <=? 2 then yoe + era * 400 + 1 else yoe + era * 400) ∧
  month_of (day_of_year m d) = m ∧ day_of (day_of_year m d) = d.
Proof.
  intros [Hm Hd]. set (sy := y - if m <=? 2 then 1 else 0). exists (sy / 400), (sy mod 400).
  pose proof (Z.mod_pos_bound sy 400 ltac:(lia)) as Hb. pose proof (Z.div_mod sy 400 ltac:(lia)) as Hdm.
  assert (Hy : y = if m <=? 2 then sy mod 400 + sy / 400 * 400 + 1 else sy mod 400 + sy / 400 * 400) by (unfold sy in *; destruct (m <=? 2); lia).
  rewrite Hy, days_in_month_days in Hd by done. destruct (day_join _ m d Hm Hd) as (H1 & H2 & H3).
  split_and!; try done; try lia. unfold year_len. destruct (leap _); lia.
Qed.

(** C39. Days and dates correspond, over the whole range of [i32]: the date of a day is a real day
    of the proleptic Gregorian calendar, and the day of that date is the day one started from. *)
Theorem days_to_civil_and_back days : - 2 ^ 31 ≤ days < 2 ^ 31 →
  let '(y, m, d) := civil_from_days days in real_day y m d ∧ days_from_civil y m d = days.
Proof.
  intros Hr. destruct (day_era days) as (era & y & doy & Hy & Hdoy & He). pose proof (era_bound days era y doy Hr Hy Hdoy He) as Hyr.
  rewrite He, civil_from_days_era by done. rewrite as_i32_id by (destruct (_ <=? 2); lia).
  destruct (day_split (leap (y + 1)) doy) as (Hm & Hd & Hj); [unfold year_len in Hdoy; destruct (leap (y + 1)); lia|]. split.
  - split; [done|]. by rewrite days_in_month_days.
  - rewrite days_from_civil_era by lia. rewrite Hj, <- He. by apply as_i32_id.
Qed.

(** A date splits and joins back: the date of the day of a real day is that day, for every year
    whose days an [i32] counts. *)
Theorem civil_to_days_and_back y m d : real_day y m d → -5877000 ≤ y ≤ 5877000 →
  civil_from_days (days_from_civil y m d) = (y, m, d).
Proof.
  intros Hreal Hy. pose proof Hreal as [Hm Hd]. destruct (real_day_era y m d Hreal) as (era & yoe & Hyoe & Hdoy & He & H2 & H3).
  destruct (year_of_day yoe _ Hyoe Hdoy) as [Hin _]. rewrite He, days_from_civil_era by lia.
  rewrite as_i32_id.
  - rewrite civil_from_days_era by done. rewrite H2, H3, as_i32_id; [done|]. rewrite <- He. lia.
  - assert (-14694 ≤ era ≤ 14693) by (destruct (m <=? 2); lia). unfold DAYS_PER_ERA, OFFSET_0001 in *. lia.
Qed.

(** The day after, in an era and over its end. *)
Lemma next_day_era era y doy : 0 ≤ y < 400 → 0 ≤ doy < year_len y →
  let date (e y doy : Z) := (if month_of doy <=? 2 then y + e * 400 + 1 else y + e * 400, month_of doy, day_of doy) in
  let '(y0, m0, d0) := date era y doy in
  next_day y0 m0 d0 = if doy + 1 <? year_len y then date era y (doy + 1) else if y + 1 <? 400 then date era (y + 1) 0 else date (era + 1) 0 0.
Proof.
  intros Hy Hdoy date. unfold date. unfold next_day.
  destruct (day_split (leap (y + 1)) doy) as (Hm & Hd & Hj); [unfold year_len in Hdoy; destruct (leap (y + 1)); lia|].
  rewrite days_in_month_days by done.
  assert (Hcheck : ∀ b : bool, all_below (if b then 366 else 365) (λ doy,
    let m := month_of doy in let d := day_of doy in
    if doy + 1 <? (if b then 366 else 365) then
      if d <? month_days b m then bool_decide ((month_of (doy + 1), day_of (doy + 1)) = (m, d + 1))
      else if m <? 12 then bool_decide ((month_of (doy + 1), day_of (doy + 1)) = (m + 1, 1)) && bool_decide ((m <=? 2) = (m + 1 <=? 2))
      else bool_decide ((month_of (doy + 1), day_of (doy + 1)) = (1, 1))
    else bool_decide (m = 2) && negb (d <? month_days b m)) = true) by (intros []; by vm_compute).
  assert (Hlt : 0 ≤ doy < (if leap (y + 1) then 366 else 365)) by done.
  pose proof (all_below_spec _ _ doy (Hcheck (leap (y + 1))) Hlt) as H. cbv zeta beta in H. unfold year_len. clear Hcheck.
  destruct (doy + 1 <? (if leap (y + 1) then 366 else 365)) eqn:Hnext.
  - destruct (day_of doy <? month_days (leap (y + 1)) (month_of doy)).
    + apply bool_decide_eq_true in H. injection H as -> ->. done.
    + destruct (Z.ltb_spec (month_of doy) 12).
      * apply andb_true_iff in H as [H1%bool_decide_eq_true H2%bool_decide_eq_true]. injection H1 as -> ->. by rewrite <- H2.
      * apply bool_decide_eq_true in H. injection H as -> ->. rewrite (proj2 (Z.leb_gt _ _)) by lia. done.
  - apply andb_true_iff in H as [H1%bool_decide_eq_true H2%negb_true_iff]. rewrite H2, H1. change (month_of 0) with 3. change (day_of 0) with 1. cbn [Z.ltb Z.leb Z.compare Pos.compare Pos.compare_cont Z.add Pos.add Pos.succ].
    destruct (Z.ltb_spec (y + 1) 400); (f_equal; f_equal; lia).
Qed.

(** C29. The calendar advances by a day: the date of the next day is the day after in the calendar
    (the next day of the month, the first of the next month, or the first of January), from
    0001-01-01 on day 0; the arithmetic on eras is the calendar counted day by day. *)
Theorem calendar_counts_the_days days : - 2 ^ 31 ≤ days < 2 ^ 31 - 1 →
  civil_from_days 0 = (1, 1, 1) ∧ let '(y, m, d) := civil_from_days days in civil_from_days (days + 1) = next_day y m d.
Proof.
  intros Hr. split; [done|]. destruct (day_era days) as (era & y & doy & Hy & Hdoy & He).
  pose proof (era_bound days era y doy ltac:(lia) Hy Hdoy He) as Hyr.
  rewrite He, civil_from_days_era by done. rewrite as_i32_id by (destruct (_ <=? 2); lia).
  pose proof (next_day_era era y doy Hy Hdoy) as Hn. cbv zeta in Hn. rewrite Hn. clear Hn. destruct (Z.ltb_spec (doy + 1) (year_len y)) as [Hlt|Hge].
  - replace (era * DAYS_PER_ERA + (year_start y + doy) - OFFSET_0001 + 1) with (era * DAYS_PER_ERA + (year_start y + (doy + 1)) - OFFSET_0001) by lia.
    rewrite civil_from_days_era by lia. by rewrite as_i32_id by (destruct (_ <=? 2); lia).
  - destruct (year_ends y Hy) as (_ & _ & Hend). destruct (Z.ltb_spec (y + 1) 400) as [Hlt'|Hge'].
    + rewrite (proj2 (Z.eqb_neq _ _)) in Hend by lia. pose proof (year_len_cases (y + 1)).
      replace (era * DAYS_PER_ERA + (year_start y + doy) - OFFSET_0001 + 1) with (era * DAYS_PER_ERA + (year_start (y + 1) + 0) - OFFSET_0001) by lia.
      rewrite civil_from_days_era by lia. change (month_of 0) with 3. cbn [Z.leb Z.compare Pos.compare Pos.compare_cont]. by rewrite as_i32_id by lia.
    + assert (y = 399) as -> by lia. rewrite Z.eqb_refl in Hend. pose proof (year_len_cases 0).
      replace (era * DAYS_PER_ERA + (year_start 399 + doy) - OFFSET_0001 + 1) with ((era + 1) * DAYS_PER_ERA + (year_start 0 + 0) - OFFSET_0001) by (change (year_start 0) with 0; lia).
      rewrite civil_from_days_era by lia. change (month_of 0) with 3. cbn [Z.leb Z.compare Pos.compare Pos.compare_cont]. by rewrite as_i32_id by lia.
Qed.

(** The ticks of a [datetime] survive their conversion to ticks of 100 ns and back, for every
    [u32]. *)
Theorem datetime_ticks_round_trip t : 0 ≤ t < 2 ^ 32 → ticks_100ns_to_300th (ticks_300th_to_100ns t) = t.
Proof.
  intros Ht. unfold ticks_100ns_to_300th, ticks_300th_to_100ns, TICKS_PER_SECOND, as_u32.
  rewrite (Z.quot_div_nonneg (2 * t * 10000000 + 300)) by lia. rewrite Z.quot_div_nonneg by (Z.to_euclidean_division_equations; lia).
  assert (He : (600 * ((2 * t * 10000000 + 300) / 600) + 10000000) / (2 * 10000000) = t) by (Z.to_euclidean_division_equations; lia).
  rewrite He. by rewrite Z.mod_small.
Qed.

(** A time of day splits into hours, minutes, seconds and a fraction in their ranges that add
    up to it. *)
Theorem ticks_split_into_a_time t : 0 ≤ t < TICKS_PER_DAY →
  let '(h, mi, s, f) := hms_from_ticks t in
  0 ≤ h < 24 ∧ 0 ≤ mi < 60 ∧ 0 ≤ s < 60 ∧ 0 ≤ f < TICKS_PER_SECOND ∧ ((h * 60 + mi) * 60 + s) * TICKS_PER_SECOND + f = t.
Proof.
  unfold TICKS_PER_DAY, TICKS_PER_SECOND, hms_from_ticks, as_u8, as_u32. intros Ht. cbv zeta. unfold TICKS_PER_DAY, TICKS_PER_SECOND.
  rewrite (Z.rem_small t), (Z.quot_div_nonneg t), (Z.rem_mod_nonneg t) by lia. pose proof (Z.div_mod t 10000000 ltac:(lia)) as Hdm.
  pose proof (Z.mod_pos_bound t 10000000 ltac:(lia)) as Hf. assert (Hs : 0 ≤ t / 10000000 < 86400) by lia.
  generalize dependent (t / 10000000). generalize dependent (t mod 10000000). intros f Hf sec Hdm Hs.
  rewrite !(Z.quot_div_nonneg sec), (Z.rem_mod_nonneg sec), Z.rem_mod_nonneg by (lia || (apply Z.div_pos; lia)).
  rewrite !Z.mod_small with (b := 2 ^ 8) by (Z.to_euclidean_division_equations; lia). rewrite (Z.mod_small f) by lia.
  Z.to_euclidean_division_equations. lia.
Qed.

Lemma days_to_civil_and_back_witness : let '(y, m, d) := civil_from_days 738000 in real_day y m d ∧ days_from_civil y m d = 738000.
Proof. apply (days_to_civil_and_back 738000). lia. Defined.
Lemma civil_to_days_and_back_witness : civil_from_days (days_from_civil 2024 2 29) = (2024, 2, 29).
Proof. apply civil_to_days_and_back; [split; [lia|by vm_compute]|lia]. Defined.
Lemma calendar_counts_the_days_witness :
  civil_from_days 0 = (1, 1, 1) ∧ let '(y, m, d) := civil_from_days 730178 in civil_from_days (730178 + 1) = next_day y m d.
Proof. apply (calendar_counts_the_days 730178). lia. Defined.
Lemma datetime_ticks_round_trip_witness : ticks_100ns_to_300th (ticks_300th_to_100ns 25919999) = 25919999.
Proof. apply datetime_ticks_round_trip. lia. Defined.
Lemma ticks_split_into_a_time_witness : let '(h, mi, s, f) := hms_from_ticks 863999999999 in
  0 ≤ h < 24 ∧ 0 ≤ mi < 60 ∧ 0 ≤ s < 60 ∧ 0 ≤ f < TICKS_PER_SECOND ∧ ((h * 60 + mi) * 60 + s) * TICKS_PER_SECOND + f = 863999999999.
Proof. apply (ticks_split_into_a_time 863999999999). unfold TICKS_PER_DAY, TICKS_PER_SECOND. lia. Defined.
