(* ===== verification/SortKey.v ===== *)
(** * Sort keys

    [sort_key] and [hash_key] of [vauban-types/src/compare.rs]: a value as a byte string
    whose order is the order of [compare].  The functions of the source append to a buffer;
    here those that cannot fail answer the bytes they append, and [write_key] threads the
    buffer, since it has written the family of a value when it fails. *)

From Stdlib Require Import SpecFloat.
From S2P Require Import Prelude Values Errors Order Collation Compare.

#[local] Open Scope Z_scope.

(** ** Weights *)

Definition END : Z := 0.
Definition MORE : Z := 1.

Inductive Width := Two | Wide | Eight.

Definition level_width (level : Level) : Width :=
  match level with
  | LAccent => Two
  | LPrimary | LOwn | LTertiary => Wide
  | LLast => Eight
  end.

Definition WIDE_FROM : Z := 65280.

(** [to_be_bytes] of an unsigned integer of [n] bytes. *)
Fixpoint to_be_bytes (n : nat) (x : Z) : list Z :=
  match n with
  | O => []
  | S n => (x / 256 ^ Z.of_nat n) mod 256 :: to_be_bytes n x
  end.

Definition put_weight (weight : Z) (width : Width) : list Z :=
  match width with
  | Two => to_be_bytes 2 weight
  | Wide => if weight <? WIDE_FROM then to_be_bytes 2 weight else 255 :: to_be_bytes 3 weight
  | Eight => to_be_bytes 8 weight
  end.

Definition write_unpadded (weight : Z) (width : Width) : list Z := MORE :: put_weight weight width.

(** ** [PaddedLevel] *)

Definition BELOW : Z := 0.
Definition PADDED_END : Z := 1.
Definition ABOVE : Z := 2.

Record PaddedLevel := mkPaddedLevel { pl_pad : Z; pl_width : Width; pending : nat }.

Definition PaddedLevel_new (pad : Z) (width : Width) : PaddedLevel := mkPaddedLevel pad width 0.

(** [push]: the level and the bytes appended. *)
Definition push (l : PaddedLevel) (weight : Z) : PaddedLevel * list Z :=
  if weight =? pl_pad l then (mkPaddedLevel (pl_pad l) (pl_width l) (S (pending l)), [])
  else
    let flag := if weight <? pl_pad l then BELOW else ABOVE in
    (mkPaddedLevel (pl_pad l) (pl_width l) 0,
     mjoin (replicate (pending l) (put_weight (pl_pad l) (pl_width l) ++ [flag])) ++
     put_weight weight (pl_width l)).

Definition finish (l : PaddedLevel) : list Z := put_weight (pl_pad l) (pl_width l) ++ [PADDED_END].

(** The loop that pushes each weight and finishes. *)
Fixpoint push_all (l : PaddedLevel) (ws : list Z) : list Z :=
  match ws with
  | [] => finish l
  | weight :: ws => let '(l, bytes) := push l weight in bytes ++ push_all l ws
  end.

(** ** Strings *)

Definition ESCAPED_END : list Z := [0; 0].

Definition write_escaped (bytes : list Z) : list Z :=
  bytes ≫= λ byte, if byte =? 0 then [0; 255] else [byte].

Definition write_binary_key (s : list Z) : list Z :=
  match encode_utf16 s with
  | [] => [END]
  | first :: units =>
      write_unpadded first Two ++ (units ≫= λ unit, write_escaped (to_le_bytes16 unit)) ++ ESCAPED_END
  end.

Definition write_level (c : Collation) (t : WeightTable) (s : list Z) (level : Level) : list Z :=
  if bool_decide (level = LLast) then
    (level_weights c t s level ≫= λ weight, write_unpadded weight Eight) ++ [END]
  else
    let pad := default 0 (head (level_weights c t [SPACE] level)) in
    push_all (PaddedLevel_new pad (level_width level)) (level_weights c t s level).

Definition write_ascii_level (c : Collation) (t : WeightTable) (s : list Z) (level : Level) : list Z :=
  if bool_decide (level = LLast) then (ascii_last t s ≫= λ weight, write_unpadded weight Eight) ++ [END]
  else
    let weight r := ascii_weight r level (flags c) in
    push_all (PaddedLevel_new (weight (ascii_row t SPACE)) (level_width level))
      (weight <$> filter (λ r, class r = APlain) ((λ byte, ascii_row t (Z.land byte 127)) <$> s)).

Definition write_string_key (c : Collation) (s : list Z) : list Z :=
  match rules c with
  | Binary => write_binary_key (trim_end s)
  | Binary2 => push_all (PaddedLevel_new SPACE_UNIT Two) (encode_utf16 s)
  | Weighted t =>
      levels c t ≫= λ level,
        if forallb is_ascii s then write_ascii_level c t s level else write_level c t s level
  end.

(** ** The other families *)

(** [KeyFamily], as the byte it is written as. *)
Inductive KeyFamily :=
  | KNull | KBit | KInteger | KDecimal | KFloat | KMoney | KString | KBytes | KGuid | KDate
  | KTime | KDateTime | KDateTime2 | KDateTimeOffset.

Definition key_byte (f : KeyFamily) : Z :=
  match f with
  | KNull => 0 | KBit => 1 | KInteger => 2 | KDecimal => 3 | KFloat => 4 | KMoney => 5
  | KString => 6 | KBytes => 7 | KGuid => 8 | KDate => 9 | KTime => 10 | KDateTime => 11
  | KDateTime2 => 12 | KDateTimeOffset => 13
  end.

(** [(x as u64) ^ (1 << 63)]. *)
Definition flip_sign (x : Z) : Z := Z.lxor (x mod 2 ^ 64) (2 ^ 63).
(** [(x as u32) ^ (1 << 31)]. *)
Definition flip_sign_32 (x : Z) : Z := Z.lxor (x mod 2 ^ 32) (2 ^ 31).

(** [f64::to_bits]: the sign, the biased exponent and the fraction. *)
Definition sign_bit (s : bool) : Z := if s then 2 ^ 63 else 0.
Definition to_bits (f : spec_float) : Z :=
  match f with
  | S754_zero s => sign_bit s
  | S754_infinity s => sign_bit s + 2047 * 2 ^ 52
  | S754_nan => 2047 * 2 ^ 52 + 2 ^ 51
  | S754_finite s m e =>
      sign_bit s +
      if Zpos m <? 2 ^ 52 then Zpos m else (e + 1075) * 2 ^ 52 + (Zpos m - 2 ^ 52)
  end.

Definition float_key (x : spec_float) : Z :=
  let x := match x with S754_zero _ => S754_zero false | x => x end in
  let bits := to_bits x in
  if Z.shiftr bits 63 =? 1 then 2 ^ 64 - 1 - bits else Z.lor bits (2 ^ 63).

Definition MAX_DECIMAL_SCALE : Z := 38.

Definition NEGATIVE : Z := 0.
Definition ZERO : Z := 1.
Definition POSITIVE : Z := 2.

Definition write_decimal_key (x : Decimal) : SqlResult (list Z) :=
  if mantissa x =? 0 then Ok [ZERO]
  else if MAX_DECIMAL_SCALE <? scale x then
    bug [Lit "sort_key: decimal scale "; Num (Z.to_N (scale x)); Lit " out of range"]
  else
    p ← split_decimal x MAX_DECIMAL_SCALE;
    Ok (if mantissa x <? 0
        then NEGATIVE :: to_be_bytes 16 (u128_max - p.1) ++ to_be_bytes 16 (u128_max - p.2)
        else POSITIVE :: to_be_bytes 16 p.1 ++ to_be_bytes 16 p.2).

(** [x[..end]], where [end] is after the last byte that is not zero. *)
Fixpoint strip_zeros (x : list Z) : list Z :=
  match x with
  | [] => []
  | b :: x => match strip_zeros x with
              | [] => if b =? 0 then [] else [b]
              | x' => b :: x'
              end
  end.

Definition write_bytes_key (x : list Z) : list Z := write_escaped (strip_zeros x) ++ ESCAPED_END.

Definition write_datetime2_key (x : DateTime2) : list Z :=
  to_be_bytes 4 (flip_sign_32 (date_days (dt2_date x))) ++ to_be_bytes 8 (ticks_100ns (dt2_time x)).

(** ** Values *)

(** [out.extend_from_slice(&[family as u8])] and then the bytes of the value. *)
Definition keyed (f : KeyFamily) (bytes : list Z) : stateful (list Z) SqlError () :=
  modifies (λ out, out ++ key_byte f :: bytes).

Definition write_key (v : Value) (collation : Collation) : stateful (list Z) SqlError () :=
  match integer_as_i64 v with
  | Some x => keyed KInteger (to_be_bytes 8 (flip_sign x))
  | None =>
      match float_as_f64 v with
      | Some x => keyed KFloat (to_be_bytes 8 (float_key x))
      | None =>
          match v with
          | VNull => keyed KNull []
          | VBit x => keyed KBit [Z.b2z x]
          | VDecimal x =>
              _ ← keyed KDecimal [];
              bytes ← reads (λ _, write_decimal_key x);
              modifies (λ out, out ++ bytes)
          | VMoney x => keyed KMoney (to_be_bytes 8 (flip_sign x))
          | VString x => keyed KString (write_string_key collation (text x))
          | VBytes x => keyed KBytes (write_bytes_key x)
          | VGuid x => keyed KGuid (guid_key x)
          | VDate x => keyed KDate (to_be_bytes 4 (flip_sign_32 (date_days x)))
          | VTime x => keyed KTime (to_be_bytes 8 (ticks_100ns x))
          | VDateTime x =>
              keyed KDateTime
                (to_be_bytes 4 (flip_sign_32 (dt_days x)) ++ to_be_bytes 4 (ticks_300th x))
          | VDateTime2 x => keyed KDateTime2 (write_datetime2_key x)
          | VDateTimeOffset x => keyed KDateTimeOffset (write_datetime2_key (utc x))
          | VI8 _ | VI16 _ | VI32 _ | VI64 _ | VF32 _ | VF64 _ => mret ()
          end
      end
  end.

Definition sort_key (v : Value) (collation : Collation) : stateful (list Z) SqlError () :=
  write_key v collation.

(** [hash_key], for any hasher; the buffer is cleared first. *)
Definition hash_key {H : Type} (write : H → list Z → H) (v : Value) (collation : Collation) :
    stateful H SqlError () := λ state,
  match write_key v collation [] with
  | (Ok _, buffer) => (Ok (), write state buffer)
  | (Err e, _) => (Err e, state)
  end.
