(* ===== verification/SortKeyFacts.v ===== *)
(** * Sort keys are ordered as the values

    About [SortKey.v]: each piece of a key carries its own end and orders as what it was
    written from, so the keys of several columns written end to end order column after
    column. *)

From Stdlib Require Import SpecFloat.
From S2P Require Import Prelude Values Errors Bytes Order Collation CollationFacts.
From S2P Require Import Compare SortKey.

#[local] Open Scope Z_scope.

(** ** Keys *)

(** On [P], the bytes [key] writes order as [c], whatever follows them. *)
Definition keyed_by {A} (P : A → Prop) (key : A → list Z) (c : A → A → comparison) : Prop :=
  ∀ a b u v, P a → P b →
    compare_sequences (key a ++ u) (key b ++ v) None = then_with (c a b) (compare_sequences u v None).

Lemma then_with_assoc a b c : then_with (then_with a b) c = then_with a (then_with b c).
Proof. by destruct a. Qed.

Lemma keyed_app {A} (P : A → Prop) k1 c1 k2 c2 :
  keyed_by P k1 c1 → keyed_by P k2 c2 →
  keyed_by P (λ x, k1 x ++ k2 x) (λ x y, then_with (c1 x y) (c2 x y)).
Proof.
  intros H1 H2 a b u v Pa Pb. rewrite <- !(assoc_L (++)), H1, H2 by done. by rewrite then_with_assoc.
Qed.

Lemma keyed_map {A B} (f : A → B) (P : A → Prop) (Q : B → Prop) key c :
  keyed_by Q key c → (∀ x, P x → Q (f x)) → keyed_by P (λ x, key (f x)) (λ x y, c (f x) (f y)).
Proof. intros Hk HP a b u v Pa Pb. apply Hk; auto. Qed.

Lemma keyed_ext {A} (P : A → Prop) key key' c c' :
  keyed_by P key c → (∀ x, P x → key' x = key x) → (∀ x y, P x → P y → c' x y = c x y) →
  keyed_by P key' c'.
Proof. intros Hk He Hc a b u v Pa Pb. rewrite !He, Hc by done. by apply Hk. Qed.

Lemma keyed_cons {A} (P : A → Prop) x key c : keyed_by P key c → keyed_by P (λ a, x :: key a) c.
Proof. intros Hk a b u v Pa Pb. simpl. rewrite Z.compare_refl. by apply Hk. Qed.

Lemma keyed_nil {A} (P : A → Prop) : keyed_by P (λ _, []) (λ _ _, Eq).
Proof. done. Qed.

Lemma keyed_byte : keyed_by (λ _, True) (λ x, [x]) Z.compare.
Proof. intros a b u v _ _. done. Qed.

(** Equal keys are those of equal elements. *)
Lemma keyed_eq {A} (P : A → Prop) key c a b :
  keyed_by P key c → P a → P b → key a = key b ↔ c a b = Eq.
Proof.
  intros Hk Pa Pb. specialize (Hk a b [] [] Pa Pb). rewrite !app_nil_r in Hk.
  assert (Heq : ∀ l l' : list Z, compare_sequences l l' None = Eq ↔ l = l').
  { induction l as [|x l IH]; intros [|y l']; simpl; try done.
    destruct (Z.compare_spec x y); simpl; [rewrite IH; naive_solver|naive_solver lia..]. }
  rewrite <- Heq, Hk. by destruct (c a b).
Qed.

(** ** Big-endian integers *)

Lemma to_be_bytes_mod n x : to_be_bytes n (x mod 256 ^ Z.of_nat n) = to_be_bytes n x.
Proof.
  assert (H : ∀ n m, (n ≤ m)%nat → to_be_bytes n (x mod 256 ^ Z.of_nat m) = to_be_bytes n x).
  { clear n. induction n as [|n IH]; intros m Hm; simpl; [done|]. rewrite IH by lia. f_equal.
    replace (Z.of_nat m) with (Z.of_nat n + (1 + (Z.of_nat m - Z.of_nat n - 1))) by lia.
    rewrite !Z.pow_add_r by lia. change (256 ^ 1) with 256.
    rewrite Z.rem_mul_r; [|apply Z.pow_nonzero; lia|].
    2: { apply Z.mul_pos_pos; [lia|]. apply Z.pow_pos_nonneg; lia. }
    rewrite (Z.mul_comm (256 ^ Z.of_nat n)), Z.div_add by (apply Z.pow_nonzero; lia).
    rewrite Z.div_small by (apply Z.mod_pos_bound, Z.pow_pos_nonneg; lia). rewrite Z.add_0_l.
    rewrite Z.rem_mul_r; [|lia|apply Z.pow_pos_nonneg; lia].
    rewrite (Z.mul_comm 256), Z.mod_add, Z.mod_mod by lia. done. }
  apply H. lia.
Qed.

Lemma compare_split x y B :
  0 < B → (x ?= y) = then_with (x / B ?= y / B) (x mod B ?= y mod B).
Proof.
  intros HB. rewrite (lex_compare_value _ _ _ _ B) by (apply Z.mod_pos_bound; lia).
  f_equal; rewrite Z.mul_comm; apply Z.div_mod; lia.
Qed.

Lemma keyed_be n : keyed_by (λ x, 0 ≤ x < 256 ^ Z.of_nat n) (to_be_bytes n) Z.compare.
Proof.
  induction n as [|n IH]; intros a b u v Ha Hb.
  - simpl in *. assert (a = b) as -> by lia. by rewrite Z.compare_refl.
  - assert (HB : 0 < 256 ^ Z.of_nat n) by (apply Z.pow_pos_nonneg; lia).
    assert (Hd : ∀ x, 0 ≤ x < 256 ^ Z.of_nat (S n) → (x / 256 ^ Z.of_nat n) mod 256 = x / 256 ^ Z.of_nat n).
    { intros x Hx. rewrite Nat2Z.inj_succ, Z.pow_succ_r in Hx by lia. apply Z.mod_small.
      split; [apply Z.div_pos; lia|apply Z.div_lt_upper_bound; lia]. }
    simpl to_be_bytes. rewrite <- (to_be_bytes_mod n a), <- (to_be_bytes_mod n b). simpl.
    rewrite !Hd, IH by (done || by apply Z.mod_pos_bound).
    by rewrite (compare_split a b (256 ^ Z.of_nat n)), then_with_assoc.
Qed.

(** ** Weights *)

Definition fits_width (width : Width) (x : Z) : Prop :=
  0 ≤ x < match width with Two => 2 ^ 16 | Wide => 2 ^ 24 | Eight => 2 ^ 64 end.

Lemma keyed_put_weight width : keyed_by (fits_width width) (λ x, put_weight x width) Z.compare.
Proof.
  destruct width; [apply (keyed_be 2)| |apply (keyed_be 8)].
  intros a b u v Ha Hb. unfold fits_width, put_weight in *.
  assert (Hlt : ∀ x, 0 ≤ x < WIDE_FROM → (x / 256 ^ Z.of_nat 1) mod 256 < 255).
  { intros x Hx. unfold WIDE_FROM in Hx. change (256 ^ Z.of_nat 1) with 256.
    rewrite Z.mod_small; [apply Z.div_lt_upper_bound; lia|].
    split; [apply Z.div_pos; lia|apply Z.div_lt_upper_bound; lia]. }
  destruct (Z.ltb_spec a WIDE_FROM), (Z.ltb_spec b WIDE_FROM).
  - apply (keyed_be 2); unfold WIDE_FROM in *; simpl; lia.
  - specialize (Hlt a). cbn [compare_sequences app to_be_bytes].
    rewrite (proj2 (Z.compare_lt_iff _ 255)) by (apply Hlt; lia).
    by rewrite (proj2 (Z.compare_lt_iff a b)) by lia.
  - specialize (Hlt b). cbn [compare_sequences app to_be_bytes].
    rewrite (proj2 (Z.compare_gt_iff 255 _)) by (apply Hlt; lia).
    by rewrite (proj2 (Z.compare_gt_iff a b)) by lia.
  - simpl app. cbn [compare_sequences]. rewrite Z.compare_refl. simpl then_with at 1.
    by apply (keyed_be 3).
Qed.

(** ** Padded sequences *)

Section padded_keys.
Context (pad : Z) (width : Width) (Hpad : fits_width width pad).

Notation cs a b := (compare_sequences a b (Some pad)).

(** The flag of what follows: where the first weight other than [pad] stands. *)
Fixpoint direction (ws : list Z) : Z :=
  match ws with
  | [] => PADDED_END
  | x :: ws => if x =? pad then direction ws else if x <? pad then BELOW else ABOVE
  end.

(** The key written without counting: a [pad] weight is followed by its flag at once. *)
Fixpoint padded_key (ws : list Z) : list Z :=
  match ws with
  | [] => put_weight pad width ++ [PADDED_END]
  | x :: ws' =>
      if x =? pad then
        put_weight pad width ++ direction ws' :: (if direction ws' =? PADDED_END then [] else padded_key ws')
      else put_weight x width ++ padded_key ws'
  end.

Lemma direction_cases ws : direction ws = BELOW ∨ direction ws = PADDED_END ∨ direction ws = ABOVE.
Proof using.
  induction ws as [|x ws IH]; simpl; [auto|]. destruct (_ =? _); [done|]. destruct (_ <? _); auto.
Qed.

Lemma push_all_key k ws :
  push_all (mkPaddedLevel pad width k) ws =
  if direction ws =? PADDED_END then finish (mkPaddedLevel pad width k)
  else mjoin (replicate k (put_weight pad width ++ [direction ws])) ++ padded_key ws.
Proof using.
  revert k. induction ws as [|x ws IH]; intros k; [done|]. simpl. unfold push. simpl.
  destruct (Z.eqb_spec x pad) as [->|Hne]; simpl.
  - rewrite IH. destruct (Z.eqb_spec (direction ws) PADDED_END); [done|].
    rewrite replicate_S_end, join_app. simpl. by rewrite app_nil_r, <- !(assoc_L (++)).
  - replace (_ =? PADDED_END) with false by (by destruct (x <? pad)).
    rewrite IH. rewrite <- (assoc_L (++)). do 2 f_equal.
    destruct (Z.eqb_spec (direction ws) PADDED_END) as [Hd|]; [|done].
    destruct ws as [|y ws]; [done|]. simpl in *.
    destruct (y =? pad); [|by destruct (y <? pad)]. rewrite Hd. by rewrite Z.eqb_refl.
Qed.

Lemma push_all_padded ws : push_all (PaddedLevel_new pad width) ws = padded_key ws.
Proof using.
  unfold PaddedLevel_new. rewrite push_all_key. simpl.
  destruct (Z.eqb_spec (direction ws) PADDED_END) as [Hd|]; [|done].
  destruct ws as [|y ws]; [done|]. simpl in *.
  destruct (y =? pad); [|by destruct (y <? pad)]. rewrite Hd. by rewrite Z.eqb_refl.
Qed.

(** The key seen from the first weight of the padded sequence. *)
Lemma padded_key_unfold ws :
  padded_key ws =
  if phd pad ws =? pad then
    put_weight pad width ++
    direction ws :: (if direction ws =? PADDED_END then [] else padded_key (tail ws))
  else put_weight (phd pad ws) width ++ padded_key (tail ws).
Proof using.
  destruct ws as [|x ws]; simpl; [by rewrite Z.eqb_refl|]. by destruct (x =? pad).
Qed.

Lemma direction_order ws : cs ws [] = (direction ws ?= PADDED_END).
Proof using.
  induction ws as [|x ws IH]; simpl; [done|]. rewrite IH.
  destruct (Z.eqb_spec x pad) as [->|Hne]; [by rewrite Z.compare_refl|].
  destruct (Z.ltb_spec x pad).
  - by rewrite (proj2 (Z.compare_lt_iff x pad)).
  - by rewrite (proj2 (Z.compare_gt_iff x pad)) by lia.
Qed.

Lemma direction_differs a b : direction a ≠ direction b → cs a b = (direction a ?= direction b).
Proof using.
  intros Hd. pose proof (direction_order a) as Ha. pose proof (direction_order b) as Hb.
  pose proof (total_padded pad) as Ht.
  assert (Hb' : cs [] b = CompOpp (direction b ?= PADDED_END))
    by (rewrite <- Hb; by apply (tc_opp (TotalOn := Ht))).
  destruct (direction_cases a) as [Da|[Da|Da]], (direction_cases b) as [Db|[Db|Db]];
    rewrite Da, Db in *; try done;
    change (BELOW ?= PADDED_END) with Lt in *; change (ABOVE ?= PADDED_END) with Gt in *;
    change (PADDED_END ?= PADDED_END) with Eq in *; cbn [CompOpp] in *.
  - apply (@tc_lt_le _ _ _ Ht a [] b); [done..|exact Ha|]. cbv beta. by rewrite Hb'.
  - apply (@tc_lt_le _ _ _ Ht a [] b); [done..|exact Ha|]. cbv beta. by rewrite Hb'.
  - by rewrite (@tc_eq_l _ _ _ Ht a [] b).
  - by rewrite (@tc_eq_l _ _ _ Ht a [] b).
  - apply (@tc_lt_gt _ _ _ Ht b a); [done..|]. apply (@tc_lt_le _ _ _ Ht b [] a); [done..|].
    rewrite (@tc_opp _ _ _ Ht a []) by done. by rewrite Ha.
  - apply (@tc_lt_gt _ _ _ Ht b a); [done..|].
    rewrite (@tc_eq_l _ _ _ Ht b [] a) by done. rewrite (@tc_opp _ _ _ Ht a []) by done. by rewrite Ha.
Qed.

Lemma direction_tail ws : phd pad ws = pad → direction (tail ws) = direction ws.
Proof using. destruct ws as [|x ws]; [done|]. simpl. intros ->. by rewrite Z.eqb_refl. Qed.

Lemma all_padding a b : direction a = PADDED_END → direction b = PADDED_END → cs a b = Eq.
Proof using.
  intros Ha Hb. pose proof (total_padded pad) as Ht.
  rewrite (@tc_eq_l _ _ _ Ht a [] b) by (done || by rewrite direction_order, Ha).
  rewrite (@tc_opp _ _ _ Ht b []) by done. by rewrite direction_order, Hb.
Qed.

Lemma fits_phd ws : Forall (fits_width width) ws → fits_width width (phd pad ws).
Proof using Hpad. by intros []. Qed.

Lemma fits_tail ws : Forall (fits_width width) ws → Forall (fits_width width) (tail ws).
Proof using. by intros []. Qed.

Lemma keyed_padded : keyed_by (Forall (fits_width width)) (push_all (PaddedLevel_new pad width)) (λ a b, cs a b).
Proof using Hpad.
  assert (Hkey : ∀ n a b u v, (length a + length b ≤ n)%nat →
    Forall (fits_width width) a → Forall (fits_width width) b →
    compare_sequences (padded_key a ++ u) (padded_key b ++ v) None =
    then_with (cs a b) (compare_sequences u v None)).
  { induction n as [|n IH]; intros a b u v Hn Ha Hb.
    - destruct a, b; simpl in Hn; try lia. simpl. rewrite <- !(assoc_L (++)).
      rewrite (keyed_put_weight width pad pad) by done. by rewrite Z.compare_refl.
    - assert (Hrec : a ≠ [] ∨ b ≠ [] →
        compare_sequences (padded_key (tail a) ++ u) (padded_key (tail b) ++ v) None =
        then_with (cs (tail a) (tail b)) (compare_sequences u v None)).
      { intros Hne. apply IH; [|by apply fits_tail..]. destruct a, b; simpl in *; naive_solver lia. }
      rewrite (padded_key_unfold a), (padded_key_unfold b), (padded_unfold pad a b).
      pose proof (fits_phd _ Ha) as Fa. pose proof (fits_phd _ Hb) as Fb.
      destruct (decide (phd pad a = phd pad b)) as [He|He].
      + rewrite He, Z.compare_refl. simpl then_with. destruct (Z.eqb_spec (phd pad b) pad) as [Hb'|Hb'].
        * rewrite <- !(assoc_L (++)), (keyed_put_weight width pad pad), Z.compare_refl by done.
          cbn [app compare_sequences then_with].
          rewrite <- (direction_tail a), <- (direction_tail b) by congruence.
          destruct (decide (direction (tail a) = direction (tail b))) as [Hd|Hd].
          -- rewrite Hd, Z.compare_refl. simpl then_with.
             destruct (Z.eqb_spec (direction (tail b)) PADDED_END) as [Hend|Hend].
             ++ by rewrite all_padding by congruence.
             ++ apply Hrec. right. by intros ->.
          -- rewrite (direction_differs (tail a) (tail b)) by done.
             by destruct (Z.compare_spec (direction (tail a)) (direction (tail b))).
        * rewrite <- !(assoc_L (++)), (keyed_put_weight width), Z.compare_refl by done.
          simpl. apply Hrec. left. intros ->. by rewrite <- He in Hb'.
      + assert (Hx : ∀ s, ∃ r, (if phd pad s =? pad then put_weight pad width ++
          direction s :: (if direction s =? PADDED_END then [] else padded_key (tail s))
          else put_weight (phd pad s) width ++ padded_key (tail s)) = put_weight (phd pad s) width ++ r).
        { intros s. destruct (Z.eqb_spec (phd pad s) pad) as [->|]; eauto. }
        destruct (Hx a) as [ra ->], (Hx b) as [rb ->].
        rewrite <- !(assoc_L (++)), (keyed_put_weight width) by done.
        by destruct (Z.compare_spec (phd pad a) (phd pad b)). }
  intros a b u v Ha Hb. rewrite !push_all_padded. by eapply Hkey.
Qed.
End padded_keys.

(** ** Sequences without padding, and escaped bytes *)

Lemma keyed_unpadded width :
  keyed_by (Forall (fits_width width)) (λ ws, (ws ≫= λ x, write_unpadded x width) ++ [END])
    (λ a b, compare_sequences a b None).
Proof.
  intros a b u v Ha. revert b. induction Ha as [|x a Hx _ IH]; intros b Hb.
  - destruct Hb; done.
  - destruct Hb as [|y b Hy Hb]; [done|]. simpl. rewrite <- !(assoc_L (++)).
    rewrite (keyed_put_weight width) by done. rewrite !(assoc_L (++)). simpl in IH.
    rewrite IH by done. by rewrite then_with_assoc.
Qed.

Lemma write_escaped_cons x bs :
  write_escaped (x :: bs) = (if x =? 0 then [0; 255] else [x]) ++ write_escaped bs.
Proof. done. Qed.

Lemma keyed_escaped :
  keyed_by (Forall is_byte) (λ bs, write_escaped bs ++ ESCAPED_END) (λ a b, compare_sequences a b None).
Proof.
  unfold is_byte. intros a b u v Ha. revert b.
  induction Ha as [|x a Hx _ IH]; intros b Hb; destruct Hb as [|y b Hy Hb]; [done|..].
  - rewrite write_escaped_cons. destruct (Z.eqb_spec y 0) as [->|]; [done|]. simpl.
    destruct y; try lia. done.
  - rewrite write_escaped_cons. destruct (Z.eqb_spec x 0) as [->|]; [done|]. simpl.
    by rewrite (proj2 (Z.compare_gt_iff x 0)) by lia.
  - specialize (IH b Hb). rewrite !write_escaped_cons, <- !(assoc_L (++)) in *.
    destruct (Z.eqb_spec x 0) as [->|], (Z.eqb_spec y 0) as [->|]; cbn [app compare_sequences].
    + by rewrite !Z.compare_refl.
    + destruct y; try lia. done.
    + by rewrite (proj2 (Z.compare_gt_iff x 0)) by lia.
    + rewrite IH. by rewrite then_with_assoc.
Qed.

Lemma write_escaped_bind units :
  (units ≫= λ unit, write_escaped (to_le_bytes16 unit)) = write_escaped (units ≫= to_le_bytes16).
Proof.
  induction units as [|x units IH]; [done|]. rewrite !bind_cons, IH. unfold write_escaped.
  by rewrite bind_app.
Qed.

Lemma le_bytes_ok units : Forall (fits_width Two) units → Forall is_byte (units ≫= to_le_bytes16).
Proof.
  intros H. induction H as [|x units Hx _ IH]; [constructor|].
  rewrite bind_cons. apply Forall_app. split; [|done]. unfold to_le_bytes16, fits_width, is_byte in *.
  repeat constructor; try (apply Z.mod_pos_bound; lia); [apply Z.div_pos; lia|].
  apply Z.div_lt_upper_bound; lia.
Qed.

Lemma utf16_units s : Forall is_char s → Forall (fits_width Two) (encode_utf16 s).
Proof.
  intros Hs. unfold encode_utf16. induction Hs as [|c s Hc _ IH]; [constructor|].
  rewrite bind_cons. apply Forall_app. split; [|done]. unfold encode_utf16_char, is_char, fits_width in *.
  destruct (Z.ltb_spec c 65536); repeat constructor; try lia.
  - assert (0 ≤ (c - 65536) / 1024) by (apply Z.div_pos; lia). lia.
  - assert ((c - 65536) / 1024 < 1024) by (apply Z.div_lt_upper_bound; lia). lia.
  - pose proof (Z.mod_pos_bound (c - 65536) 1024). lia.
  - pose proof (Z.mod_pos_bound (c - 65536) 1024). lia.
Qed.

Lemma keyed_binary : keyed_by (Forall is_char) write_binary_key compare_binary.
Proof.
  intros a b u v Ha%utf16_units Hb%utf16_units. unfold write_binary_key, compare_binary.
  destruct Ha as [|x a' Hx Ha], Hb as [|y b' Hy Hb]; try done.
  unfold write_unpadded. rewrite !write_escaped_bind, <- !(assoc_L (++)).
  cbn [app compare_sequences]. rewrite Z.compare_refl. cbn [then_with].
  rewrite (keyed_put_weight Two) by done. rewrite !(assoc_L (++)).
  rewrite keyed_escaped by (by apply le_bytes_ok). by rewrite then_with_assoc.
Qed.

Lemma trim_end_chars s : Forall is_char s → Forall is_char (trim_end s).
Proof.
  induction 1 as [|c s Hc Hs IH]; simpl; [constructor|].
  destruct (trim_end s); [|by constructor]. destruct (c =? 32); [done|by constructor].
Qed.

(** ** Weights fit their width *)

Lemma element_bounds t c l flags :
  weights_ok t → is_char c → l ≠ LLast → fits_width (level_width l) (element_weight l flags (element t c)).
Proof.
  intros Ht Hc Hl.
  assert (He : row_bound (weights (element t c)) ∧
    ∀ x, outside (element t c) = Some x → 0 ≤ x < 2 ^ 24).
  { unfold is_char in Hc. unfold element.
    destruct (if _ && _ then _ else _) as [[folded wide] hira] eqn:Hf.
    assert (0 ≤ folded < 1114112) as Hfold.
    { unfold FULL_WIDTH_FIRST, FULL_WIDTH_LAST, FULL_WIDTH_OFFSET, KATAKANA_FIRST, KATAKANA_LAST,
        KANA_OFFSET, HIRAGANA_FIRST, HIRAGANA_LAST in Hf.
      destruct ((65281 <=? c) && (c <=? 65374)) eqn:E1; [simplify_eq; lia|].
      destruct ((12449 <=? c) && (c <=? 12534)) eqn:E2; [simplify_eq; lia|].
      destruct ((12353 <=? c) && (c <=? 12438)); simplify_eq; lia. }
    destruct (cp1252_byte folded); simpl.
    - split; [by apply weights_at_bound|done].
    - split; [by unfold row_bound|]. intros x [= <-]. unfold PRIMARY_ABOVE_TABLE. lia. }
  destruct He as [[[H1 H2] [H3 H4]] Ho]. unfold fits_width. destruct l; simpl; try done; try lia.
  - destruct (outside _); [by apply Ho|lia].
  - set (case := if _ || _ then 0 else _).
    assert (Hcase : 0 ≤ case < 65536).
    { unfold case. destruct (_ || _); [done|]. destruct (has_flag _ _); lia. }
    clearbody case. set (wd := Z.b2z (_ && wide _)). set (hi := Z.b2z (_ && hiragana _)).
    assert (Hb : ∀ b, 0 ≤ Z.b2z b ≤ 1) by (intros []; simpl; lia).
    assert (0 ≤ wd ≤ 1) by apply Hb. assert (0 ≤ hi ≤ 1) by apply Hb. clearbody wd hi.
    rewrite (lor_add 2) by (rewrite ?Z.shiftl_mul_pow2; lia).
    replace (case * 2 ^ 2 + Z.shiftl wd 1) with (Z.shiftl (case * 2 + wd) 1)
      by (rewrite !Z.shiftl_mul_pow2; lia).
    rewrite (lor_add 1) by lia. lia.
Qed.

Lemma unit_bounds t c l flags x :
  weights_ok t → is_char c → l ≠ LLast →
  x ∈ unit_weights flags l 0 (table_unit t c) → fits_width (level_width l) x.
Proof.
  intros Ht Hc Hl.
  assert (Hown : ∀ c, is_char c → fits_width Wide (primary_weight (element t c))).
  { intros c' Hc'. pose proof (element_bounds t c' LPrimary flags Ht Hc') as He. simpl in He.
    unfold primary_weight. destruct (outside _); by apply He. }
  assert (Hone : ∀ first second own, (∀ e, first = Some e → ∃ c, e = element t c ∧ is_char c) →
    (∀ e, second = Some e → ∃ c, e = element t c ∧ is_char c) →
    fits_width Wide own → x ∈ unit_weights flags l 0 (UElements first second own) →
    fits_width (level_width l) x).
  { intros first second own Hf Hs Ho Hx.
    assert (Hx' : l = LOwn ∧ x = own ∨ l ≠ LOwn ∧ x ∈ element_weight l flags <$> omap id [first; second]).
    { destruct l; simpl in *; try (by right); try done. left. split; [done|set_solver]. }
    destruct Hx' as [[-> ->]|[_ (e & -> & He)%list_elem_of_fmap]]; [done|].
    apply list_elem_of_omap in He as (o & Hin & Heq). simpl in Heq. subst o.
    assert (∃ c, e = element t c ∧ is_char c) as (c' & -> & Hc')
      by (apply elem_of_cons in Hin as [Hin|Hin]; [by apply Hf|];
          apply list_elem_of_singleton in Hin; by apply Hs).
    by apply element_bounds. }
  unfold table_unit. destruct (_ || _).
  { apply Hone; [|done|by apply Hown]. intros e [= <-]. eauto. }
  case_bool_decide; [by destruct l; try done; intros ?%not_elem_of_nil|].
  destruct (if _ && _ then _ else _) as [narrow wide].
  case_bool_decide; [by destruct l; try done; intros ?%not_elem_of_nil|].
  destruct (list_find _ (expansions t)) as [[i [from [first second]]]|] eqn:Hexp.
  - apply list_find_Some in Hexp as (Hi & _ & _). pose proof (wo_expansions _ Ht) as Hall.
    destruct (Forall_lookup_1 _ _ _ _ Hall Hi) as [H1 H2]. simpl in H1, H2.
    apply Hone; [intros e [= <-]; eauto|intros e [= <-]; eauto|by apply Hown].
  - apply Hone; [|done|by apply Hown]. intros e [= <-].
    destruct (list_find _ (aliases t)) as [[i [from to]]|] eqn:Hal; [|eauto].
    apply list_find_Some in Hal as (Hi & _ & _). pose proof (wo_aliases _ Ht) as Hall.
    pose proof (Forall_lookup_1 _ _ _ _ Hall Hi). eauto.
Qed.

(** ** Strings *)

Definition valid_text (s : list Z) : Prop := short s ∧ Forall is_char s.

Lemma level_fits c t s l :
  weights_ok t → Forall is_char s → l ≠ LLast →
  Forall (fits_width (level_width l)) (level_weights c t s l).
Proof.
  intros Ht Hs Hl. rewrite level_weights_flat by done. apply Forall_forall. intros x Hx.
  apply list_elem_of_bind in Hx as (un & Hx & Hu). unfold units in Hu.
  apply list_elem_of_filter in Hu as [_ (ch & -> & Hch)%list_elem_of_fmap].
  rewrite Forall_forall in Hs. eapply unit_bounds; eauto.
Qed.

Lemma last_fits c t s :
  weights_ok t → short s → Forall (fits_width Eight) (level_weights c t s LLast).
Proof.
  intros Ht Hs. rewrite level_weights_units. apply Forall_forall. intros x Hx.
  apply list_elem_of_join in Hx as (ws & Hx & Hws).
  apply list_elem_of_lookup in Hws as [i Hi]. rewrite list_lookup_imap in Hi.
  destruct (units t s !! i) as [un|] eqn:Hu; [|done]. simpl in Hi. injection Hi as <-.
  pose proof (lookup_lt_Some _ _ _ Hu). pose proof (length_units t s). unfold short in Hs.
  destruct un as [|weight|]; try (by apply not_elem_of_nil in Hx).
  assert (0 ≤ weight < 2 ^ 32) by (eapply elem_of_units_last; [done|by eapply list_elem_of_lookup_2]).
  apply list_elem_of_singleton in Hx as ->. unfold fits_width.
  assert (0 ≤ (if has_flag (flags c) FLAG_IGNORE_WIDTH then Z.ldiff weight 1 else weight) < 2 ^ 32).
  { destruct (has_flag _ _); [|done]. rewrite ldiff_one.
    pose proof (Z.div_mod weight 2). pose proof (Z.mod_pos_bound weight 2). lia. }
  rewrite last_weight_value by lia. lia.
Qed.

Lemma space_fits c t l :
  weights_ok t → l ≠ LLast → fits_width (level_width l) (default 0 (head (level_weights c t [SPACE] l))).
Proof.
  intros Ht Hl. pose proof (level_fits c t [SPACE] l Ht) as Hf.
  assert (Hs : Forall is_char [SPACE]) by (by repeat constructor). specialize (Hf Hs Hl).
  rewrite space_padding in * by done. destruct (level_weights c t [SPACE] l) eqn:Hw.
  - pose proof (space_padding c t Ht l Hl) as Hp. by rewrite Hw in Hp.
  - pose proof (space_padding c t Ht l Hl) as Hp. rewrite Hw in Hp. simpl in *. simplify_eq.
    by apply Forall_cons in Hf as [? _].
Qed.

Lemma keyed_level c t l :
  weights_ok t →
  keyed_by valid_text (λ s, write_level c t s l)
    (λ a b, compare_sequences (level_weights c t a l) (level_weights c t b l) (level_padding c t true l)).
Proof.
  intros Ht. unfold write_level, level_padding. destruct (bool_decide (l = LLast)) eqn:Hl.
  - apply bool_decide_eq_true in Hl as ->.
    apply (keyed_map (λ s, level_weights c t s LLast) _ _ _ _ (keyed_unpadded Eight)).
    intros s [Hs _]. by apply last_fits.
  - apply bool_decide_eq_false in Hl. simpl.
    pose proof (space_fits c t l Ht Hl) as Hfit. rewrite space_padding in * by done. simpl in *.
    apply (keyed_map (λ s, level_weights c t s l) _ _ _ _ (keyed_padded _ _ Hfit)).
    intros s [_ Hs]. by apply level_fits.
Qed.

Lemma write_ascii_level_eq c t s l :
  weights_ok t → forallb is_ascii s = true → write_ascii_level c t s l = write_level c t s l.
Proof.
  intros Ht Hs. unfold write_ascii_level, write_level. case_bool_decide as Hl.
  - subst. by rewrite ascii_level_last.
  - rewrite space_padding by done. by rewrite ascii_level.
Qed.

Lemma keyed_levels c t ls :
  weights_ok t →
  keyed_by valid_text (λ s, ls ≫= λ l, write_level c t s l)
    (λ a b, first_difference (λ l,
       compare_sequences (level_weights c t a l) (level_weights c t b l) (level_padding c t true l)) ls).
Proof.
  intros Ht. induction ls as [|l ls IH]; [apply keyed_nil|].
  apply (keyed_app _ (λ s, write_level c t s l)); [by apply keyed_level|exact IH].
Qed.

Lemma keyed_string c : keyed_by valid_text (write_string_key c) (collation_compare c).
Proof.
  unfold write_string_key, collation_compare. destruct (rules c) as [| |t] eqn:Hr.
  - apply (keyed_ext _ (λ s, write_binary_key (trim_end s)) _
      (λ a b, compare_binary (trim_end a) (trim_end b))); [|done|].
    + apply (keyed_map trim_end _ _ _ _ keyed_binary). intros s [_ Hs]. by apply trim_end_chars.
    + intros x y _ _. case_bool_decide; [|done]. subst. symmetry. by apply (tc_refl (TotalOn := total_binary)).
  - apply (keyed_ext _ (λ s, push_all (PaddedLevel_new SPACE_UNIT Two) (encode_utf16 s)) _
      (λ a b, compare_sequences (encode_utf16 a) (encode_utf16 b) (Some SPACE_UNIT))); [|done|].
    + apply (keyed_map encode_utf16 _ _ _ _ (keyed_padded SPACE_UNIT Two ltac:(done))).
      intros s [_ Hs]. by apply utf16_units.
    + intros x y _ _. case_bool_decide; [|done]. subst. symmetry.
      by apply (tc_refl (TotalOn := total_padded SPACE_UNIT)).
  - pose proof (rules_ok _ _ Hr) as Ht.
    eapply keyed_ext; [apply (keyed_levels c t (levels c t) Ht)|..]; cbv beta.
    + intros s _. destruct (forallb is_ascii s) eqn:Hs; [|done].
      induction (levels c t) as [|l ls IH]; [done|]. rewrite !bind_cons, IH. f_equal.
      by apply write_ascii_level_eq.
    + intros x y [Hx _] [Hy _]. fold (by_levels c t true x y). case_bool_decide.
      * subst. symmetry. by apply (tc_refl (TotalOn := by_levels_total c t true)).
      * by apply compare_weighted_levels.
Qed.

(** ** Bytes *)

Lemma strip_zeros_cons x l :
  strip_zeros (x :: l) = if bool_decide (strip_zeros l = []) && (x =? 0) then [] else x :: strip_zeros l.
Proof. simpl. by destruct (strip_zeros l); simpl; destruct (x =? 0). Qed.

Lemma strip_zeros_bytes l : Forall is_byte l → Forall is_byte (strip_zeros l).
Proof.
  induction 1 as [|x l Hx _ IH]; [constructor|]. rewrite strip_zeros_cons.
  destruct (_ && _); [constructor|by constructor].
Qed.

Lemma strip_zeros_padding l : compare_sequences l (strip_zeros l) (Some 0) = Eq.
Proof.
  induction l as [|x l IH]; [done|]. rewrite strip_zeros_cons. case_bool_decide as Hl; simpl.
  - rewrite Hl in *. destruct (Z.eqb_spec x 0) as [->|]; simpl; [done|]. by rewrite Z.compare_refl.
  - by rewrite Z.compare_refl.
Qed.

(** After stripping, padding with zeros changes nothing. *)
Lemma stripped_positive l :
  Forall is_byte l → strip_zeros l ≠ [] →
  compare_sequences [] (strip_zeros l) (Some 0) = Lt ∧ compare_sequences (strip_zeros l) [] (Some 0) = Gt.
Proof.
  unfold is_byte. induction 1 as [|x l Hx _ IH]; [done|]. rewrite strip_zeros_cons.
  case_bool_decide as Hl; simpl.
  - rewrite Hl. destruct (Z.eqb_spec x 0); [done|]. intros _. simpl.
    destruct x; try lia; by split.
  - intros _. destruct (IH Hl) as [H1 H2]. split.
    + destruct x; try lia; [exact H1|done].
    + rewrite H2. destruct x; try lia; done.
Qed.

Lemma stripped_order a b :
  Forall is_byte a → Forall is_byte b →
  compare_sequences (strip_zeros a) (strip_zeros b) (Some 0) =
  compare_sequences (strip_zeros a) (strip_zeros b) None.
Proof.
  intros Ha. revert b. induction Ha as [|x a Hx Ha IH]; intros b Hb.
  - change (strip_zeros []) with (@nil Z).
    destruct (decide (strip_zeros b = [])) as [->|Hne]; [done|].
    rewrite (proj1 (stripped_positive b Hb Hne)). by destruct (strip_zeros b).
  - destruct Hb as [|y b Hy Hb].
    + destruct (decide (strip_zeros (x :: a) = [])) as [->|Hne]; [done|].
      change (strip_zeros []) with (@nil Z). rewrite (proj2 (stripped_positive (x :: a) ltac:(by constructor) Hne)).
      by destruct (strip_zeros (x :: a)).
    + destruct (decide (strip_zeros (x :: a) = [])) as [Hea|Hea].
      { rewrite Hea. destruct (decide (strip_zeros (y :: b) = [])) as [->|Hne]; [done|].
        rewrite (proj1 (stripped_positive (y :: b) ltac:(by constructor) Hne)).
        by destruct (strip_zeros (y :: b)). }
      destruct (decide (strip_zeros (y :: b) = [])) as [Heb|Heb].
      { rewrite Heb. rewrite (proj2 (stripped_positive (x :: a) ltac:(by constructor) Hea)).
        by destruct (strip_zeros (x :: a)). }
      rewrite !strip_zeros_cons in *. destruct (_ && _); [done|]. destruct (_ && _); [done|].
      cbn [compare_sequences]. by rewrite IH.
Qed.

Lemma keyed_bytes : keyed_by (Forall is_byte) write_bytes_key compare_bytes.
Proof.
  apply (keyed_ext _ (λ x, write_escaped (strip_zeros x) ++ ESCAPED_END) _
    (λ a b, compare_sequences (strip_zeros a) (strip_zeros b) None)); [|done|].
  - apply (keyed_map strip_zeros _ _ _ _ keyed_escaped). apply strip_zeros_bytes.
  - intros a b Ha Hb. rewrite compare_bytes_padded, <- stripped_order by done.
    pose proof (total_padded 0) as Ht.
    rewrite (@tc_eq_l _ _ _ Ht a (strip_zeros a) b) by (done || apply strip_zeros_padding).
    assert (Hopp : ∀ s, compare_sequences s b (Some 0) = compare_sequences s (strip_zeros b) (Some 0)).
    { intros s. rewrite (@tc_opp _ _ _ Ht b s), (@tc_opp _ _ _ Ht (strip_zeros b) s) by done.
      f_equal. apply (@tc_eq_l _ _ _ Ht); [done..|]. apply strip_zeros_padding. }
    apply Hopp.
Qed.

(** Keys of one length need no end. *)
Lemma compare_app_length a b u v :
  length a = length b →
  compare_sequences (a ++ u) (b ++ v) None =
  then_with (compare_sequences a b None) (compare_sequences u v None).
Proof.
  revert b. induction a as [|x a IH]; intros [|y b]; simpl; try done. intros [= Hl].
  by rewrite IH, then_with_assoc.
Qed.

Lemma keyed_guid : keyed_by (λ _, True) guid_key compare_guids.
Proof. intros a b u v _ _. by apply compare_app_length. Qed.

(** ** Integers *)

Lemma add_compare_r a b k : (a + k ?= b + k) = (a ?= b).
Proof. by rewrite !(Z.add_comm _ k), Z.add_compare_mono_l. Qed.

Lemma lxor_top k y : 0 ≤ k → 0 ≤ y < 2 ^ k → Z.lxor y (2 ^ k) = y + 2 ^ k.
Proof.
  intros Hk Hy. symmetry. apply Z.add_nocarry_lxor. rewrite Z.land_comm.
  rewrite <- (Z.mod_small y (2 ^ k)) by done. rewrite <- Z.land_ones by done.
  rewrite (Z.land_comm y), Z.land_assoc, Z.land_ones, Z.mod_same by lia. apply Z.land_0_l.
Qed.

Lemma flip_top k x :
  0 ≤ k → - 2 ^ k ≤ x < 2 ^ k → Z.lxor (x mod 2 ^ (k + 1)) (2 ^ k) = x + 2 ^ k.
Proof.
  intros Hk Hx. assert (Hp : 2 ^ (k + 1) = 2 * 2 ^ k) by (rewrite Z.pow_add_r by lia; lia).
  destruct (decide (0 ≤ x)) as [Hpos|Hneg].
  - rewrite Z.mod_small by lia. apply lxor_top; lia.
  - rewrite <- (Z.mod_add x 1), Z.mul_1_l, Z.mod_small by lia.
    replace (x + 2 ^ (k + 1)) with (x + 2 ^ k + 2 ^ k) by lia.
    rewrite <- (lxor_top k (x + 2 ^ k)) at 1 by lia.
    by rewrite Z.lxor_assoc, Z.lxor_nilpotent, Z.lxor_0_r.
Qed.

Definition is_i64 (x : Z) : Prop := - 2 ^ 63 ≤ x < 2 ^ 63.
Definition is_i32 (x : Z) : Prop := - 2 ^ 31 ≤ x < 2 ^ 31.

Lemma keyed_i64 : keyed_by is_i64 (λ x, to_be_bytes 8 (flip_sign x)) Z.compare.
Proof.
  assert (Hf : ∀ x, is_i64 x → flip_sign x = x + 2 ^ 63) by (intros x Hx; apply (flip_top 63); [lia|done]).
  apply (keyed_ext _ (λ x, to_be_bytes 8 (x + 2 ^ 63)) _ (λ x y, x + 2 ^ 63 ?= y + 2 ^ 63)).
  - apply (keyed_map (λ x, x + 2 ^ 63) _ _ _ _ (keyed_be 8)). intros x Hx. unfold is_i64 in Hx.
    change (256 ^ Z.of_nat 8) with (2 ^ 64). lia.
  - intros x Hx. by rewrite Hf.
  - intros x y _ _. by rewrite add_compare_r.
Qed.

Lemma keyed_i32 : keyed_by is_i32 (λ x, to_be_bytes 4 (flip_sign_32 x)) Z.compare.
Proof.
  assert (Hf : ∀ x, is_i32 x → flip_sign_32 x = x + 2 ^ 31) by (intros x Hx; apply (flip_top 31); [lia|done]).
  apply (keyed_ext _ (λ x, to_be_bytes 4 (x + 2 ^ 31)) _ (λ x y, x + 2 ^ 31 ?= y + 2 ^ 31)).
  - apply (keyed_map (λ x, x + 2 ^ 31) _ _ _ _ (keyed_be 4)). intros x Hx. unfold is_i32 in Hx.
    change (256 ^ Z.of_nat 4) with (2 ^ 32). lia.
  - intros x Hx. by rewrite Hf.
  - intros x y _ _. by rewrite add_compare_r.
Qed.

(** ** Floats *)

Definition f64_ok (f : spec_float) : Prop := valid_binary 53 1024 f = true ∧ f ≠ S754_nan.

(** What a [binary64] number is made of: a fraction of 53 bits with the exponent at the
    lowest for the subnormal ones. *)
Lemma finite_bounds s m e :
  valid_binary 53 1024 (S754_finite s m e) = true →
  Zpos m < 2 ^ 53 ∧ -1074 ≤ e ≤ 971 ∧ (e = -1074 ∨ 2 ^ 52 ≤ Zpos m).
Proof.
  intros Hv. destruct (finite_parts 53 1024 ltac:(lia) ltac:(lia) s m e Hv) as (Hm & He & Hs).
  change (fraction_size 53) with (2 ^ 52) in *. change (lowest_exponent 53 1024) with (-1074) in *. lia.
Qed.

(** The place of a float, from its bits without the sign. *)
Definition float_place (f : spec_float) : Z :=
  match f with
  | S754_zero _ | S754_nan => 0
  | S754_infinity s => if s then -1 - 2047 * 2 ^ 52 else 2047 * 2 ^ 52
  | S754_finite s m e => let n := (e + 1074) * 2 ^ 52 + Zpos m in if s then -1 - n else n
  end.

Lemma float_key_place f : f64_ok f → float_key f = float_place f + 2 ^ 63 ∧ 0 ≤ float_key f < 2 ^ 64.
Proof.
  intros [Hv Hn].
  assert (Hneg : ∀ n, 0 ≤ n < 2 ^ 63 → (Z.shiftr (2 ^ 63 + n) 63 =? 1) = true).
  { intros n Hn'. rewrite Z.shiftr_div_pow2 by lia. apply Z.eqb_eq.
    symmetry. apply Z.div_unique with n; lia. }
  assert (Hpos : ∀ n, 0 ≤ n < 2 ^ 63 → (Z.shiftr (0 + n) 63 =? 1) = false).
  { intros n Hn'. rewrite Z.shiftr_div_pow2, Z.div_small by lia. done. }
  assert (Hor : ∀ n, 0 ≤ n < 2 ^ 63 → Z.lor n (2 ^ 63) = n + 2 ^ 63).
  { intros n Hn'. rewrite Z.lor_comm. change (2 ^ 63) with (Z.shiftl 1 63) at 1.
    rewrite lor_add by lia. lia. }
  destruct f as [s|s| |s m e]; [done| |done|].
  - destruct s; vm_compute; by repeat split.
  - apply finite_bounds in Hv as (Hm & He & Hs). unfold float_key, to_bits, float_place.
    set (n := (e + 1074) * 2 ^ 52 + Zpos m).
    assert (Hbits : (if Zpos m <? 2 ^ 52 then Zpos m else (e + 1075) * 2 ^ 52 + (Zpos m - 2 ^ 52)) = n).
    { unfold n. destruct (Z.ltb_spec (Zpos m) (2 ^ 52)); [|lia]. destruct Hs as [->|]; lia. }
    rewrite Hbits. assert (0 ≤ n < 2 ^ 63) by (unfold n; lia). clearbody n. clear Hbits.
    destruct s; unfold sign_bit.
    + rewrite Hneg by done. lia.
    + rewrite Hpos by done. rewrite Z.add_0_l, Hor by done. lia.
Qed.

Lemma float_place_order f g :
  f64_ok f → f64_ok g →
  compare_sequences (float_rank f) (float_rank g) None = (float_place f ?= float_place g).
Proof.
  intros [Hf _] [Hg _].
  assert (Hlex : ∀ m e m' e', Zpos m < 2 ^ 53 ∧ -1074 ≤ e ≤ 971 ∧ (e = -1074 ∨ 2 ^ 52 ≤ Zpos m) →
    Zpos m' < 2 ^ 53 ∧ -1074 ≤ e' ≤ 971 ∧ (e' = -1074 ∨ 2 ^ 52 ≤ Zpos m') →
    then_with (e ?= e') (Zpos m ?= Zpos m') =
    ((e + 1074) * 2 ^ 52 + Zpos m ?= (e' + 1074) * 2 ^ 52 + Zpos m')).
  { intros m e m' e' (H1 & H2 & H3) (H4 & H5 & H6). symmetry.
    destruct (Z.compare_spec e e') as [->|Hlt|Hlt]; simpl.
    - apply Z.add_compare_mono_l.
    - apply Z.compare_lt_iff. destruct H6; lia.
    - apply Z.compare_gt_iff. destruct H3; lia. }
  assert (Hsign : ∀ a b : Z, a < b → (a ?= b) = Lt) by (intros; by apply Z.compare_lt_iff).
  assert (Hsign' : ∀ a b : Z, b < a → (a ?= b) = Gt) by (intros; by apply Z.compare_gt_iff).
  assert (Hopp : ∀ a b, (-1 - a ?= -1 - b) = (b ?= a)).
  { intros a b. destruct (Z.compare_spec b a);
      [subst; apply Z.compare_refl|apply Hsign; lia|apply Hsign'; lia]. }
  assert (Heq : ∀ o, then_with o Eq = o) by (by intros []).
  destruct f as [sf|sf| |sf m e], g as [sg|sg| |sg m' e']; try done;
    repeat match goal with H : valid_binary _ _ (S754_finite _ _ _) = true |- _ =>
      apply finite_bounds in H end;
    try destruct sf; try destruct sg; simpl float_rank; unfold float_place;
    try done;
    try (rewrite Hsign by lia; done); try (rewrite Hsign' by lia; done).
  - cbn [compare_sequences]. rewrite Z.compare_refl. cbn [then_with].
    change (Z.neg m) with (- Zpos m). change (Z.neg m') with (- Zpos m').
    rewrite !Z.compare_opp, Hopp, <- (Hlex m' e' m e), Heq by done. done.
  - cbn [compare_sequences]. rewrite Z.compare_refl. cbn [then_with].
    rewrite <- (Hlex m e m' e'), Heq by done. done.
Qed.

Lemma keyed_float :
  keyed_by f64_ok (λ f, to_be_bytes 8 (float_key f)) (λ f g, default Eq (SFcompare f g)).
Proof.
  apply (keyed_ext _ (λ f, to_be_bytes 8 (float_key f)) _ (λ f g, float_key f ?= float_key g));
    [|intros; reflexivity|].
  - apply (keyed_map float_key _ _ _ _ (keyed_be 8)). intros f Hf. apply (float_key_place f Hf).
  - intros f g Hf Hg. rewrite SFcompare_rank by (by apply Hf || by apply Hg). cbn [from_option id].
    rewrite float_place_order by done.
    rewrite (proj1 (float_key_place f Hf)), (proj1 (float_key_place g Hg)).
    by rewrite add_compare_r.
Qed.

(** ** Decimals *)

Definition dec_ok (d : Decimal) : Prop := decimal_ok d ∧ - 2 ^ 127 ≤ mantissa d < 2 ^ 127.

Definition decimal_key (d : Decimal) : list Z :=
  match write_decimal_key d with Ok bytes => bytes | Err _ => [] end.

(** The key of a magnitude: its integer part and its fraction. *)
Lemma decimal_key_parts d :
  dec_ok d → ∃ i f, 0 ≤ i < 2 ^ 128 ∧ 0 ≤ f < 10 ^ 38 ∧ Z.abs (decimal_value d) = i * 10 ^ 38 + f ∧
    write_decimal_key d =
    Ok (match mantissa d with
        | Z0 => [ZERO]
        | Zneg _ => NEGATIVE :: to_be_bytes 16 (u128_max - i) ++ to_be_bytes 16 (u128_max - f)
        | Zpos _ => POSITIVE :: to_be_bytes 16 i ++ to_be_bytes 16 f
        end).
Proof.
  intros [Hd Hm]. destruct (split_decimal_ok d 38) as (i & f & Hs & Hf & Hv);
    [done|unfold decimal_ok in Hd; lia|].
  assert (Hdv : Z.abs (decimal_value d) = i * 10 ^ 38 + f).
  { unfold decimal_value. rewrite <- Hv, Z.abs_mul, (Z.abs_eq (10 ^ _)); [done|].
    apply Z.pow_nonneg. lia. }
  exists i, f. split_and!; [| |by apply Hf|by apply Hf|exact Hdv|].
  - assert (0 ≤ Z.abs (mantissa d) * 10 ^ (38 - scale d)) by (apply Z.mul_nonneg_nonneg; [lia|];
      apply Z.pow_nonneg; lia). nia.
  - assert (10 ^ (38 - scale d) ≤ 10 ^ 38)
      by (unfold decimal_ok in Hd; apply Z.pow_le_mono_r; lia).
    assert (Z.abs (mantissa d) ≤ 2 ^ 127) by lia. nia.
  - unfold write_decimal_key, MAX_DECIMAL_SCALE, decimal_ok in *.
    destruct (mantissa d) eqn:Hz; [done|..]; simpl;
      (replace (38 <? scale d) with false by lia); rewrite Hs; done.
Qed.

Lemma keyed_decimal :
  keyed_by dec_ok decimal_key (λ x y, decimal_value x ?= decimal_value y).
Proof.
  intros x y u v Hx Hy. unfold decimal_key.
  destruct (decimal_key_parts x Hx) as (i & f & Hi & Hf & Hvx & ->).
  destruct (decimal_key_parts y Hy) as (i' & f' & Hi' & Hf' & Hvy & ->).
  assert (Hsgn : ∀ d, dec_ok d → Z.sgn (decimal_value d) = Z.sgn (mantissa d)).
  { intros d [Hd _]. unfold decimal_value, decimal_ok in *.
    rewrite Z.sgn_mul, (Z.sgn_pos (10 ^ _)) by (apply Z.pow_pos_nonneg; lia). lia. }
  pose proof (Hsgn x Hx) as Hsx. pose proof (Hsgn y Hy) as Hsy.
  assert (Hmag : ∀ p q p' q' u v, 0 ≤ p < 2 ^ 128 → 0 ≤ q < 2 ^ 128 → 0 ≤ p' < 2 ^ 128 → 0 ≤ q' < 2 ^ 128 →
    compare_sequences ((to_be_bytes 16 p ++ to_be_bytes 16 q) ++ u)
      ((to_be_bytes 16 p' ++ to_be_bytes 16 q') ++ v) None =
    then_with (then_with (p ?= p') (q ?= q')) (compare_sequences u v None)).
  { intros p q p' q' u' v' ????. rewrite <- !(assoc_L (++)).
    rewrite (keyed_be 16 p p'), (keyed_be 16 q q') by done. by rewrite then_with_assoc. }
  assert (H38 : 10 ^ 38 < 2 ^ 128) by done.
  destruct (mantissa x), (mantissa y); simpl Z.sgn in *; cbn [app compare_sequences];
    try (rewrite (proj2 (Z.compare_lt_iff (decimal_value x) (decimal_value y))) by lia; done);
    try (rewrite (proj2 (Z.compare_gt_iff (decimal_value x) (decimal_value y))) by lia; done).
  - assert (decimal_value x = 0 ∧ decimal_value y = 0) as [-> ->] by lia. done.
  - rewrite Z.compare_refl. cbn [then_with]. rewrite Hmag by lia. f_equal.
    rewrite (lex_compare_value i f i' f' (10 ^ 38)) by done. by rewrite <- Hvx, <- Hvy, !Z.abs_eq by lia.
  - rewrite Z.compare_refl. cbn [then_with]. unfold u128_max. rewrite Hmag by lia. f_equal.
    assert (Hflip : ∀ a b, (2 ^ 128 - 1 - a ?= 2 ^ 128 - 1 - b) = (b ?= a)).
    { intros a b. destruct (Z.compare_spec b a);
        [subst; apply Z.compare_refl|apply Z.compare_lt_iff; lia|apply Z.compare_gt_iff; lia]. }
    rewrite !Hflip, (lex_compare_value i' f' i f (10 ^ 38)) by done.
    rewrite <- Hvx, <- Hvy, !Z.abs_neq by lia. apply Z.compare_opp.
Qed.

(** ** Values *)

Definition key_family (v : Value) : KeyFamily :=
  match v with
  | VNull => KNull
  | VBit _ => KBit
  | VI8 _ | VI16 _ | VI32 _ | VI64 _ => KInteger
  | VDecimal _ => KDecimal
  | VF64 _ | VF32 _ => KFloat
  | VMoney _ => KMoney
  | VString _ => KString
  | VBytes _ => KBytes
  | VGuid _ => KGuid
  | VDate _ => KDate
  | VTime _ => KTime
  | VDateTime _ => KDateTime
  | VDateTime2 _ => KDateTime2
  | VDateTimeOffset _ => KDateTimeOffset
  end.

#[export] Instance KeyFamily_eq_dec : EqDecision KeyFamily.
Proof. solve_decision. Defined.

Definition dt2_ok (d : DateTime2) : Prop :=
  is_i32 (date_days (dt2_date d)) ∧ 0 ≤ ticks_100ns (dt2_time d) < 2 ^ 64.

(** The values of the types of the source: integers of their width, bytes, characters, no
    [NaN], a scale a decimal can have. *)
Definition key_ok (v : Value) : Prop :=
  match v with
  | VNull | VBit _ | VGuid _ => True
  | VI8 x | VI16 x | VI32 x | VI64 x | VMoney x => is_i64 x
  | VDecimal d => dec_ok d
  | VF64 f => f64_ok f
  | VF32 f => f64_ok (f64_from_f32 f)
  | VString s => valid_text (text s)
  | VBytes bs => Forall is_byte bs
  | VDate d => is_i32 (date_days d)
  | VTime t => 0 ≤ ticks_100ns t < 2 ^ 64
  | VDateTime d => is_i32 (dt_days d) ∧ 0 ≤ ticks_300th d < 2 ^ 32
  | VDateTime2 d => dt2_ok d
  | VDateTimeOffset d => dt2_ok (utc d)
  end.

(** What follows the byte of the family. *)
Definition key_body (col : Collation) (v : Value) : list Z :=
  match v with
  | VNull => []
  | VBit b => [Z.b2z b]
  | VI8 x | VI16 x | VI32 x | VI64 x | VMoney x => to_be_bytes 8 (flip_sign x)
  | VDecimal d => decimal_key d
  | VF64 f => to_be_bytes 8 (float_key f)
  | VF32 f => to_be_bytes 8 (float_key (f64_from_f32 f))
  | VString s => write_string_key col (text s)
  | VBytes bs => write_bytes_key bs
  | VGuid bs => guid_key bs
  | VDate d => to_be_bytes 4 (flip_sign_32 (date_days d))
  | VTime t => to_be_bytes 8 (ticks_100ns t)
  | VDateTime d => to_be_bytes 4 (flip_sign_32 (dt_days d)) ++ to_be_bytes 4 (ticks_300th d)
  | VDateTime2 d => write_datetime2_key d
  | VDateTimeOffset d => write_datetime2_key (utc d)
  end.

Definition value_key (col : Collation) (v : Value) : list Z := key_byte (key_family v) :: key_body col v.

Lemma write_key_ok col v out :
  key_ok v → write_key v col out = (Ok (), out ++ value_key col v).
Proof.
  intros Hv. destruct v as [| | | | | |d| | | | | | | | | | |]; try reflexivity.
  destruct (decimal_key_parts d Hv) as (i & f & _ & _ & _ & Hd).
  unfold write_key, value_key, key_body, decimal_key. simpl. unfold mbind, stateful_bind. simpl.
  unfold reads. rewrite Hd. unfold modifies. by rewrite <- (assoc_L (++)).
Qed.

(** The order of the keys: by family, then as [compare]. *)
Definition key_order (col : Collation) (a b : Value) : comparison :=
  then_with (key_byte (key_family a) ?= key_byte (key_family b)) (value_order col a b).

Lemma key_byte_inj f g : key_byte f = key_byte g → f = g.
Proof. by destruct f, g. Qed.

Lemma keyed_datetime2 : keyed_by dt2_ok write_datetime2_key compare_datetime2.
Proof.
  apply (keyed_app _ (λ x, to_be_bytes 4 (flip_sign_32 (date_days (dt2_date x))))
    (λ x y, date_days (dt2_date x) ?= date_days (dt2_date y))).
  - apply (keyed_map (λ x, date_days (dt2_date x)) _ _ _ _ keyed_i32). by intros x [].
  - apply (keyed_map (λ x, ticks_100ns (dt2_time x)) _ _ _ _ (keyed_be 8)). by intros x [].
Qed.

Lemma keyed_datetime :
  keyed_by (λ d, is_i32 (dt_days d) ∧ 0 ≤ ticks_300th d < 2 ^ 32)
    (λ d, to_be_bytes 4 (flip_sign_32 (dt_days d)) ++ to_be_bytes 4 (ticks_300th d))
    (λ x y, then_with (dt_days x ?= dt_days y) (ticks_300th x ?= ticks_300th y)).
Proof.
  apply (keyed_app _ (λ x, to_be_bytes 4 (flip_sign_32 (dt_days x))) (λ x y, dt_days x ?= dt_days y)).
  - apply (keyed_map dt_days _ _ _ _ keyed_i32). by intros x [].
  - apply (keyed_map ticks_300th _ _ _ _ (keyed_be 4)). by intros x [].
Qed.

Lemma keyed_body col a b u v :
  key_ok a → key_ok b → key_family a = key_family b →
  compare_sequences (key_body col a ++ u) (key_body col b ++ v) None =
  then_with (value_order col a b) (compare_sequences u v None).
Proof.
  intros Ha Hb Hf.
  destruct a, b; try discriminate Hf; clear Hf; unfold key_ok, key_body, value_order, compare in *;
    cbn [integer_as_i64 float_as_f64 is_null orb compare_same_family].
  all: first
    [ done
    | exact (keyed_i64 _ _ u v Ha Hb)
    | exact (keyed_i32 _ _ u v Ha Hb)
    | rewrite (keyed_float _ _ u v Ha Hb); unfold compare_floats;
      rewrite SFcompare_rank by (by apply Ha || by apply Hb); done
    | rewrite compare_decimals_value by (by apply Ha || by apply Hb); exact (keyed_decimal _ _ u v Ha Hb)
    | exact (keyed_string col _ _ u v Ha Hb)
    | exact (keyed_bytes _ _ u v Ha Hb)
    | exact (keyed_guid _ _ u v Ha Hb)
    | exact (keyed_be 8 _ _ u v Ha Hb)
    | exact (keyed_datetime _ _ u v Ha Hb)
    | exact (keyed_datetime2 _ _ u v Ha Hb) ].
Qed.

Lemma keyed_value col : keyed_by key_ok (value_key col) (key_order col).
Proof.
  intros a b u v Ha Hb. unfold value_key, key_order. cbn [app compare_sequences].
  rewrite then_with_assoc. destruct (Z.compare_spec (key_byte (key_family a)) (key_byte (key_family b)))
    as [He|He|He]; cbn [then_with]; [|done..].
  by apply keyed_body; [..|apply key_byte_inj].
Qed.
