(* ===== verification/CompareTheorems.v ===== *)
(** * Theorems about collations and keys

    The comparison of texts, the names of the collations, code page 1252 and the sort keys,
    each property with an instance where it has hypotheses. *)

From S2P Require Import Prelude Values Errors Order CodePage Weights Collation.
From S2P Require Import CollationFacts CollationNames Compare SortKey SortKeyFacts.

#[local] Open Scope Z_scope.

(** The comparison of texts under a weight table goes level by level over the whole
    texts, padded with spaces, although it skips their common beginning, decides plain ASCII
    texts in one pass and reads ASCII from a table of its own. *)
Theorem weighted_texts_compare_by_levels c t a b pad :
  rules c = Weighted t → short a → short b →
  compare_weighted c t a b pad =
  first_difference (λ level,
    compare_sequences (level_weights c t a level) (level_weights c t b level)
      (level_padding c t pad level)) (levels c t).
Proof. intros Ht Ha Hb. apply compare_weighted_levels; [by eapply rules_ok|done..]. Qed.

(** ['Æ' = 'AE'] but for its own level, under the default collation. *)
Lemma weighted_texts_compare_by_levels_witness :
  compare_weighted Collation_DEFAULT SQL_CP1 [97; 198] [97; 65; 69] true = Gt ∧
  first_difference (λ level,
    compare_sequences (level_weights Collation_DEFAULT SQL_CP1 [97; 198] level)
      (level_weights Collation_DEFAULT SQL_CP1 [97; 65; 69] level)
      (level_padding Collation_DEFAULT SQL_CP1 true level)) (levels Collation_DEFAULT SQL_CP1) = Gt.
Proof.
  assert (H : compare_weighted Collation_DEFAULT SQL_CP1 [97; 198] [97; 65; 69] true = Gt)
    by (vm_compute; reflexivity).
  split; [exact H|]. rewrite <- H. symmetry.
  apply (weighted_texts_compare_by_levels Collation_DEFAULT SQL_CP1 [97; 198] [97; 65; 69] true);
    [reflexivity|vm_compute; discriminate..].
Defined.

(** The collations that have a name are 72, each name is read in any case of letters and
    nothing else is, and the name a collation gives itself is read back as that collation. *)
Theorem collation_names_round_trip :
  length installed_names = 72%nat ∧ NoDup (lower <$> installed_names) ∧
  (∀ n, is_Some (parse_name n) ↔ lower n ∈ lower <$> installed_names) ∧
  (∀ n c, parse n = Ok c → parse (name c) = Ok c).
Proof.
  split; [by vm_compute|]. split; [apply (bool_decide_unpack _); by vm_compute|].
  assert (Hin : ∀ n, lower n ∈ lower <$> installed_names ↔
    ∃ h w, allows h w = true ∧ lower n = lower (spell h w)).
  { intros n. unfold installed_names. rewrite <- list_fmap_compose, list_elem_of_fmap. split.
    - intros ([h w] & Hn & Ha%elem_of_installed). by exists h, w.
    - intros (h & w & Ha & Hn). exists (h, w). split; [done|]. by apply elem_of_installed. }
  split.
  - intros n. rewrite Hin. split.
    + intros [c (h & w & Ha & Hn & _)%parse_name_spec]. by exists h, w.
    + intros (h & w & Ha & Hn). exists (collation_of h w). apply parse_name_spec. eauto.
  - intros n c. unfold parse. destruct (parse_name n) as [c'|] eqn:Hn; simpl; [|done]. intros [= ->].
    apply parse_name_spec in Hn as (h & w & Ha%elem_of_installed & _ & ->).
    pose proof installed_parse as Hall. rewrite Forall_forall in Hall.
    destruct (Hall _ Ha) as [_ Hname]. simpl in Hname. by rewrite Hname.
Qed.

(** Code page 1252 round trips: every byte is the byte of the character it stands for,
    and a character that has a byte is the character of that byte. *)
Theorem code_page_round_trips collation :
  (∀ b, 0 ≤ b < 256 → decode b collation ≫= (λ c, encode c collation) = Some b) ∧
  (∀ c b, 0 ≤ c → encode c collation = Some b → 0 ≤ b < 256 ∧ decode b collation = Some c).
Proof. split; intros; [by apply encode_decode|by apply decode_encode]. Qed.

(** [find] answers the first position from [start] on where each character of the needle
    equals the character of the text under the collation, and nothing exactly when the needle
    is empty or there is no such position. *)
Theorem find_answers_the_first_match c haystack needle start :
  let stands p := (start ≤ p)%nat ∧ (1 ≤ p)%nat ∧ (p - 1 + length needle ≤ length haystack)%nat ∧
    ∀ i h n, haystack !! (p - 1 + i)%nat = Some h → needle !! i = Some n → compare_char c h n = Eq in
  match find c haystack needle start with
  | Some p => needle ≠ [] ∧ stands p ∧ ∀ q, stands q → (p ≤ q)%nat
  | None => needle = [] ∨ ∀ q, ¬ stands q
  end.
Proof.
  assert (Hm : ∀ from, matches_at c haystack needle from = true ↔
    ∀ i h n, haystack !! (from + i)%nat = Some h → needle !! i = Some n → compare_char c h n = Eq).
  { intros from. unfold matches_at. rewrite forallb_forall. setoid_rewrite <- list_elem_of_In.
    split.
    - intros Hall i h n Hh Hn. specialize (Hall (h, n)). simpl in Hall.
      apply bool_decide_eq_true in Hall; [done|]. apply list_elem_of_lookup. exists i.
      rewrite lookup_zip_with, lookup_take_lt, lookup_drop, Hh, Hn
        by (by eapply lookup_lt_Some). done.
    - intros Hall [h n] (i & Hi)%list_elem_of_lookup. apply bool_decide_eq_true. simpl.
      rewrite lookup_zip_with in Hi. destruct (take _ _ !! i) as [h'|] eqn:Hh; [|done].
      destruct (needle !! i) as [n'|] eqn:Hn; [|done]. simplify_eq/=.
      apply lookup_take_Some in Hh as [Hh _]. rewrite lookup_drop in Hh. eauto. }
  intros stands. unfold find. case_bool_decide as Hne; [by left|].
  case_bool_decide as Hlen; [right; intros q (_ & _ & ? & _); lia|].
  set (first := (start `max` 1 - 1)%nat). set (last := (length haystack - length needle)%nat).
  assert (Hst : ∀ q, stands q → ∃ j, seq first (S last - first) !! j = Some (q - 1)%nat ∧
    j = (q - 1 - first)%nat ∧ matches_at c haystack needle (q - 1) = true).
  { intros q (H1 & H2 & H3 & H4). exists (q - 1 - first)%nat.
    split_and!; [apply lookup_seq; lia|done|by apply Hm]. }
  destruct (list_find _ _) as [[j from]|] eqn:Hf.
  - apply list_find_Some in Hf as (Hj & Hmatch & Hleast). apply lookup_seq in Hj as [-> Hj].
    split; [done|]. split.
    + replace (first + j + 1)%nat with (S (first + j)) by lia.
      split_and!; [lia..|]. simpl. rewrite Nat.sub_0_r. by apply Hm.
    + intros q Hq. destruct (Hst q Hq) as (j' & Hj' & -> & Hmq). destruct Hq as (? & ? & _).
      destruct (decide (q - 1 - first < j)%nat) as [Hlt|]; [|lia].
      by destruct (Hleast _ _ Hj' Hlt).
  - right. intros q Hq. apply list_find_None in Hf. destruct (Hst q Hq) as (j' & Hj' & _ & Hmq).
    rewrite Forall_forall in Hf. apply (Hf (q - 1)%nat); [|done]. by eapply list_elem_of_lookup_2.
Qed.

(** C37. The sort keys of two values ([NaN], out-of-range scales and texts of more than [u32]
    characters apart), written end to end with the keys of other columns,
    order as the values do: by family and then as [compare], column after column.  Two keys
    are the same exactly when the values are of one family and equal, and values that are
    equal for [compare] feed any hasher the same bytes. *)
Theorem sort_keys_order_as_compare col a b :
  key_ok a → key_ok b →
  ∃ ka kb, (∀ out, sort_key a col out = (Ok (), out ++ ka)) ∧
    (∀ out, sort_key b col out = (Ok (), out ++ kb)) ∧
    (∀ u v, compare_sequences (ka ++ u) (kb ++ v) None =
            then_with (key_order col a b) (compare_sequences u v None)) ∧
    (ka = kb ↔ key_family a = key_family b ∧ value_order col a b = Eq) ∧
    (compare a b col = Ok (Some Eq) →
       ∀ (H : Type) (write : H → list Z → H) state, hash_key write a col state = hash_key write b col state).
Proof.
  intros Ha Hb. exists (value_key col a), (value_key col b).
  pose proof (keyed_eq _ _ _ a b (keyed_value col) Ha Hb) as Heq.
  split_and!; [intros out; by apply write_key_ok..| | |].
  - intros u v. by apply keyed_value.
  - rewrite Heq. unfold key_order. split.
    + destruct (Z.compare_spec (key_byte (key_family a)) (key_byte (key_family b))) as [He| |];
        [|done..]. intros Ho. split; [by apply key_byte_inj|done].
    + intros [-> ->]. by rewrite Z.compare_refl.
  - intros Hc H write state. unfold hash_key. rewrite !write_key_ok by done. simpl.
    do 2 f_equal. apply Heq. unfold key_order, value_order. rewrite Hc.
    assert (key_family a = key_family b) as -> by (clear -Hc; by destruct a, b).
    by rewrite Z.compare_refl.
Qed.

(** ['abc  '] and ['ABC'] share their key under the default collation, and it is below the
    key of ['abd'] whatever follows. *)
Lemma sort_keys_order_as_compare_witness :
  let text t := VString (mkSqlString t) in
  ∃ ka kb, (∀ out, sort_key (text [97; 98; 99; 32; 32]) Collation_DEFAULT out = (Ok (), out ++ ka)) ∧
    (∀ out, sort_key (text [65; 66; 67]) Collation_DEFAULT out = (Ok (), out ++ kb)) ∧ ka = kb.
Proof.
  intros text.
  destruct (sort_keys_order_as_compare Collation_DEFAULT (text [97; 98; 99; 32; 32]) (text [65; 66; 67]))
    as (ka & kb & Ha & Hb & _ & Heq & _).
  - split; [vm_compute; discriminate|apply (bool_decide_unpack _); vm_compute; exact I].
  - split; [vm_compute; discriminate|apply (bool_decide_unpack _); vm_compute; exact I].
  - exists ka, kb. split; [exact Ha|]. split; [exact Hb|]. apply Heq. split; [reflexivity|].
    vm_compute. reflexivity.
Defined.
