(* ===== verification/Table.v ===== *)
(** * Tables, versions and the undo log

    [vauban-storage/src/memory/table.rs] (a table: the version chain of each row) and
    [memory/txn_log.rs] (what the storage keeps of each transaction).

    [next_row_id] and [next_seq] are incremented without a check in the source; the model
    counts them in [N], as the source does up to [2^64] increments. *)

From S2P Require Import Prelude Values Errors Snapshot Order Compare KeyOrder.

(** ** [table.rs] *)

Record Version := mkVersion {
  v_xmin : TxnId;
  v_xmax : option TxnId;
  v_data : Row;
  v_seq : N;
}.

#[export] Instance Version_eq_dec : EqDecision Version.
Proof. solve_decision. Defined.

Notation Rows := (gmap RowId (list Version)) (only parsing).

Record Table := mkTable {
  t_db : DbId;
  shape : TableShape;
  clustered : option KeyOrder;
  t_indexes : gset IndexId;
  rows : gmap RowId (list Version);
  next_row_id : N;
  next_seq : N;
}.

Definition Table_new (db : DbId) (s : TableShape) (k : option KeyOrder) : Table :=
  mkTable db s k ∅ ∅ 1 1.

Definition arity (t : Table) : nat := length (columns (shape t)).
Definition peek_row_id (t : Table) : RowId := next_row_id t.
Definition peek_seq (t : Table) : N := next_seq t.

Definition with_rows (t : Table) (r : gmap RowId (list Version)) : Table :=
  mkTable (t_db t) (shape t) (clustered t) (t_indexes t) r (next_row_id t) (next_seq t).
Definition with_indexes (t : Table) (ixs : gset IndexId) : Table :=
  mkTable (t_db t) (shape t) (clustered t) ixs (rows t) (next_row_id t) (next_seq t).

Definition new_version (t : Table) (txn : TxnId) (data : Row) : Version * Table :=
  (mkVersion txn None data (next_seq t),
   mkTable (t_db t) (shape t) (clustered t) (t_indexes t) (rows t) (next_row_id t)
     (next_seq t + 1)).

Definition table_insert (t : Table) (txn : TxnId) (data : Row) : RowId * Table :=
  let id := next_row_id t in
  let t := mkTable (t_db t) (shape t) (clustered t) (t_indexes t) (rows t) (next_row_id t + 1)
             (next_seq t) in
  let '(v, t) := new_version t txn data in
  (id, with_rows t (<[id := [v]]> (rows t))).

Definition set_xmax (x : option TxnId) (v : Version) : Version :=
  mkVersion (v_xmin v) x (v_data v) (v_seq v).

(** [versions.last_mut()] updated by [f]. *)
Definition alter_last (f : Version → Version) (vs : list Version) : list Version :=
  alter f (pred (length vs)) vs.

Definition supersede (t : Table) (txn : TxnId) (id : RowId) (data : option Row) : bool * Table :=
  let '(nv, t) :=
    match data with
    | Some d => let '(v, t) := new_version t txn d in (Some v, t)
    | None => (None, t)
    end in
  match rows t !! id with
  | None | Some [] => (false, t)
  | Some vs =>
      let vs := alter_last (set_xmax (Some txn)) vs in
      let vs := match nv with Some v => vs ++ [v] | None => vs end in
      (true, with_rows t (<[id := vs]> (rows t)))
  end.

Definition remove_row (t : Table) (id : RowId) : option (list Version) * Table :=
  (rows t !! id, with_rows t (delete id (rows t))).

Definition latest (t : Table) (id : RowId) : option Version := rows t !! id ≫= last.

(** The test [tail_is_txn_update] of [undo_update]: the last two versions of the chain. *)
Definition tail_is_update (txn : TxnId) (vs : list Version) : bool :=
  match reverse vs with
  | created :: replaced :: _ =>
      bool_decide (v_xmax replaced = Some txn) && bool_decide (v_xmin created = txn) &&
      bool_decide (v_xmax created = None)
  | _ => false
  end.

(** [versions.pop()]. *)
Definition pop (vs : list Version) : list Version := take (pred (length vs)) vs.

Definition undo_update (t : Table) (txn : TxnId) (id : RowId) : option Version * Table :=
  match rows t !! id with
  | None => (None, t)
  | Some vs =>
      if tail_is_update txn vs then
        (last vs, with_rows t (<[id := alter_last (set_xmax None) (pop vs)]> (rows t)))
      else (None, t)
  end.

Definition undo_delete (t : Table) (txn : TxnId) (id : RowId) : bool * Table :=
  match rows t !! id with
  | None => (false, t)
  | Some vs =>
      match last vs with
      | Some v =>
          if bool_decide (v_xmax v = Some txn)
          then (true, with_rows t (<[id := alter_last (set_xmax None) vs]> (rows t)))
          else (false, t)
      | None => (false, t)
      end
  end.

(** One pass of [vacuum]: the versions [dead] accepts leave their chains. *)
Definition discard (dead : Version → bool) (r : gmap RowId (list Version)) :
    list (RowId * Version) * gmap RowId (list Version) :=
  (sorted_entries N.le r ≫= (λ iv, (iv.1,.) <$> filter (λ v, dead v = true) iv.2),
   filter (λ v, dead v = false) <$> r).

Definition superseded_below (horizon : TxnId) (status : TxnId → TxnStatus) (v : Version) : bool :=
  match v_xmax v with
  | Some x => (x <? horizon)%N && bool_decide (status x = Committed)
  | None => false
  end.

Definition created_by_aborted (status : TxnId → TxnStatus) (v : Version) : bool :=
  bool_decide (status (v_xmin v) = Aborted).

Definition table_vacuum (t : Table) (horizon : TxnId) (status : TxnId → TxnStatus) :
    list (RowId * Version) * Table :=
  let '(removed1, r) := discard (superseded_below horizon status) (rows t) in
  let '(removed2, r) := discard (created_by_aborted status) r in
  (removed1 ++ removed2, with_rows t (filter (λ iv, iv.2 ≠ []) r)).

(** ** [txn_log.rs] *)

Inductive UndoEntry :=
  | UInsert (table : TableId) (row : RowId)
  | UUpdate (table : TableId) (row : RowId)
  | UDelete (table : TableId) (row : RowId).

Record TxnState := mkTxnState {
  ts_status : TxnStatus;
  writes : list UndoEntry;
  savepoints : list (SavepointId * nat);
}.

Definition TxnState_in_progress : TxnState := mkTxnState InProgress [] [].
Definition TxnState_finished (s : TxnStatus) : TxnState := mkTxnState s [] [].

Definition is_finished (s : TxnState) : bool := negb (bool_decide (ts_status s = InProgress)).
