(* ===== verification/Index.v ===== *)
(** * Indexes

    [vauban-storage/src/memory/index.rs]: an index is a list of entries, one per row
    version, sorted by key, row and version, and searched by binary search. *)

From S2P Require Import Prelude Values Errors Snapshot Order Compare KeyOrder Table.

Record IndexEntry := mkIndexEntry {
  e_key : list Value;
  e_row : RowId;
  e_version : N;
}.

Record Index := mkIndex {
  ix_table : TableId;
  ix_shape : IndexShape;
  ix_order : KeyOrder;
  ix_entries : list IndexEntry;
}.

Definition Index_new (table : TableId) (s : IndexShape) (o : KeyOrder) : Index := mkIndex table s o [].

Definition with_entries (i : Index) (es : list IndexEntry) : Index :=
  mkIndex (ix_table i) (ix_shape i) (ix_order i) es.

Definition is_live (v : Version) (txn : option TxnId) (status : TxnId → TxnStatus) : bool :=
  if bool_decide (status (v_xmin v) = Aborted) then false
  else
    match v_xmax v with
    | None => true
    | Some x => negb (bool_decide (Some x = txn)) && bool_decide (status x = InProgress)
    end.

Definition find_version (r : gmap RowId (list Version)) (row : RowId) (seq : N) : option Version :=
  vs ← r !! row; snd <$> list_find (λ v, v_seq v = seq) vs.

Section index.

Definition lower_bound (i : Index) (prefix : list Value) : SqlResult nat :=
  partition_point (ix_entries i) (λ e,
    c ← compare_prefix (ix_order i) (e_key e) prefix; Ok (bool_decide (c = Lt))).

Definition upper_bound (i : Index) (prefix : list Value) : SqlResult nat :=
  partition_point (ix_entries i) (λ e,
    c ← compare_prefix (ix_order i) (e_key e) prefix; Ok (negb (bool_decide (c = Gt)))).

Definition position_for (i : Index) (key : list Value) (row : RowId) (version : N) : SqlResult nat :=
  partition_point (ix_entries i) (λ e,
    c ← compare_prefix (ix_order i) (e_key e) key;
    Ok (match c with
        | Lt => true
        | Eq => pair_ltb (e_row e) (e_version e) row version
        | Gt => false
        end)).

Definition remove_version (i : Index) (row : RowId) (v : Version) : SqlResult Index :=
  key ← extract (ix_order i) (v_data v);
  pos ← position_for i key row (v_seq v);
  match ix_entries i !! pos with
  | Some e =>
      if bool_decide (e_row e = row) && bool_decide (e_version e = v_seq v) then
        c ← compare_prefix (ix_order i) (e_key e) key;
        Ok (if bool_decide (c = Eq) then with_entries i (delete pos (ix_entries i)) else i)
      else Ok i
  | None => Ok i
  end.

(** The keys of the bounds of [range], checked in order. *)
Definition check_bound (o : KeyOrder) (b : Bound (list Value)) : SqlResult () :=
  match b with
  | Included p | Excluded p => check_prefix o p
  | Unbounded => Ok ()
  end.

(** [start..end.max(start)]. *)
Definition positions (i : Index) (range : KeyRange) : SqlResult (nat * nat) :=
  se ← match range with
       | Full => Ok (0, length (ix_entries i))
       | Point k =>
           _ ← check_prefix (ix_order i) k;
           s ← lower_bound i k; e ← upper_bound i k; Ok (s, e)
       | Between lo hi =>
           _ ← check_bound (ix_order i) lo;
           _ ← check_bound (ix_order i) hi;
           s ← match lo with
               | Unbounded => Ok 0
               | Included p => lower_bound i p
               | Excluded p => upper_bound i p
               end;
           e ← match hi with
               | Unbounded => Ok (length (ix_entries i))
               | Included p => upper_bound i p
               | Excluded p => lower_bound i p
               end;
           Ok (s, e)
       end;
  Ok (se.1, se.2 `max` se.1).

(** [entries.get(range).unwrap_or_default()], with [start <= end]. *)
Definition slice {A} (l : list A) (start fin : nat) : list A :=
  if bool_decide (start ≤ fin) && bool_decide (fin ≤ length l)
  then take (fin - start) (drop start l) else [].

Definition version_of (i : Index) (r : gmap RowId (list Version)) (e : IndexEntry) :
    SqlResult Version :=
  ok_or (find_version r (e_row e) (e_version e))
    (from_internal (Corruption [Lit "index on table "; Num (ix_table i);
       Lit " references version "; Num (e_version e); Lit " of row "; Num (e_row e);
       Lit ", which does not exist"])).

(** The [for] loop of [has_live_duplicate]. *)
Fixpoint any_live (i : Index) (r : gmap RowId (list Version)) (txn : option TxnId)
    (status : TxnId → TxnStatus) (skip_row : option RowId) (es : list IndexEntry) : SqlResult bool :=
  match es with
  | [] => Ok false
  | e :: es =>
      if bool_decide (Some (e_row e) = skip_row) then any_live i r txn status skip_row es
      else
        v ← version_of i r e;
        if is_live v txn status then Ok true else any_live i r txn status skip_row es
  end.

Definition has_live_duplicate (i : Index) (key : list Value) (r : gmap RowId (list Version))
    (txn : option TxnId) (status : TxnId → TxnStatus) (skip_row : option RowId) : SqlResult bool :=
  lo ← lower_bound i key;
  hi ← upper_bound i key;
  any_live i r txn status skip_row (slice (ix_entries i) lo hi).

(** The inner [for] loop of [first_duplicate_key]: [true] when two rows of the group are
    live; [live_row] is the last live row met. *)
Fixpoint group_duplicate (i : Index) (r : gmap RowId (list Version)) (status : TxnId → TxnStatus)
    (live_row : option RowId) (es : list IndexEntry) : SqlResult bool :=
  match es with
  | [] => Ok false
  | e :: es =>
      v ← version_of i r e;
      if negb (is_live v None status) then group_duplicate i r status live_row es
      else
        match live_row with
        | Some row => if bool_decide (row = e_row e) then group_duplicate i r status live_row es
                      else Ok true
        | None => group_duplicate i r status (Some (e_row e)) es
        end
  end.

(** The [while] loop; [group_end > group_start], so [fuel] can be the number of entries. *)
Fixpoint duplicate_loop (i : Index) (r : gmap RowId (list Version)) (status : TxnId → TxnStatus)
    (fuel group_start : nat) : SqlResult (option (list Value)) :=
  match fuel with
  | O => Ok None
  | S fuel =>
      match ix_entries i !! group_start with
      | None => Ok None
      | Some first =>
          ub ← upper_bound i (e_key first);
          let group_end := ub `max` S group_start in
          d ← group_duplicate i r status None (slice (ix_entries i) group_start group_end);
          if (d : bool) then Ok (Some (e_key first)) else duplicate_loop i r status fuel group_end
      end
  end.

Definition first_duplicate_key (i : Index) (r : gmap RowId (list Version))
    (status : TxnId → TxnStatus) : SqlResult (option (list Value)) :=
  duplicate_loop i r status (length (ix_entries i)) 0.
End index.
