(* ===== verification/MemoryStorage.v ===== *)
(** * The in-memory storage

    [vauban-storage/src/memory/mod.rs]: [MemoryStorage], the state behind its lock and the
    operations of the [Storage] trait.  Every method takes the lock for its whole body, so
    it is one function on the state; a method that fails returns the state it leaves.  The
    poisoned-lock error, which needs a panic of another thread, is not modelled. *)

From S2P Require Import Prelude Values Errors Snapshot Order Compare KeyOrder Table Index.

Record Database := mkDatabase { db_name : string; db_tables : gset TableId }.

Record Inner := mkInner {
  databases : gmap DbId Database;
  tables : gmap TableId Table;
  indexes : gmap IndexId Index;
  txns : gmap TxnId TxnState;
  next_db_id : N;
  next_table_id : N;
  next_index_id : N;
  next_savepoint_id : N;
}.

Definition MemoryStorage_new : Inner := mkInner ∅ ∅ ∅ ∅ 1 1 1 1.

Notation action := (stateful Inner SqlError).

(** ** Assignments *)

Definition set_databases (d : gmap DbId Database) (s : Inner) : Inner :=
  mkInner d (tables s) (indexes s) (txns s) (next_db_id s) (next_table_id s) (next_index_id s)
    (next_savepoint_id s).
Definition set_tables (t : gmap TableId Table) (s : Inner) : Inner :=
  mkInner (databases s) t (indexes s) (txns s) (next_db_id s) (next_table_id s) (next_index_id s)
    (next_savepoint_id s).
Definition set_indexes (i : gmap IndexId Index) (s : Inner) : Inner :=
  mkInner (databases s) (tables s) i (txns s) (next_db_id s) (next_table_id s) (next_index_id s)
    (next_savepoint_id s).
Definition set_txns (x : gmap TxnId TxnState) (s : Inner) : Inner :=
  mkInner (databases s) (tables s) (indexes s) x (next_db_id s) (next_table_id s)
    (next_index_id s) (next_savepoint_id s).
Definition set_next_db_id (n : N) (s : Inner) : Inner :=
  mkInner (databases s) (tables s) (indexes s) (txns s) n (next_table_id s) (next_index_id s)
    (next_savepoint_id s).
Definition set_next_table_id (n : N) (s : Inner) : Inner :=
  mkInner (databases s) (tables s) (indexes s) (txns s) (next_db_id s) n (next_index_id s)
    (next_savepoint_id s).
Definition set_next_index_id (n : N) (s : Inner) : Inner :=
  mkInner (databases s) (tables s) (indexes s) (txns s) (next_db_id s) (next_table_id s) n
    (next_savepoint_id s).
Definition set_next_savepoint_id (n : N) (s : Inner) : Inner :=
  mkInner (databases s) (tables s) (indexes s) (txns s) (next_db_id s) (next_table_id s)
    (next_index_id s) n.

Definition put_table (id : TableId) (t : Table) (s : Inner) : Inner :=
  set_tables (<[id := t]> (tables s)) s.
Definition put_index (id : IndexId) (i : Index) (s : Inner) : Inner :=
  set_indexes (<[id := i]> (indexes s)) s.
Definition put_txn (id : TxnId) (x : TxnState) (s : Inner) : Inner :=
  set_txns (<[id := x]> (txns s)) s.

(** The elements of a [BTreeSet], in order. *)
Definition sorted_elements (X : gset N) : list N := merge_sort N.le (elements X).

(** ** [impl Inner] *)

Definition status_in (x : gmap TxnId TxnState) (t : TxnId) : TxnStatus :=
  match x !! t with Some st => ts_status st | None => Committed end.

Definition status (s : Inner) (t : TxnId) : TxnStatus := status_in (txns s) t.

(** The [Debug] form of a status. *)
Definition dbg_status (st : TxnStatus) : Piece :=
  Dbg (match st with InProgress => "InProgress" | Committed => "Committed" | Aborted => "Aborted" end) [].

Definition database_mut (s : Inner) (db : DbId) : SqlResult Database :=
  ok_or (databases s !! db) (from_internal (Bug [Lit "unknown database "; Num db])).

Definition table (s : Inner) (id : TableId) : SqlResult Table :=
  ok_or (tables s !! id) (from_internal (Bug [Lit "unknown table "; Num id])).

Definition index (s : Inner) (id : IndexId) : SqlResult Index :=
  ok_or (indexes s !! id) (from_internal (Bug [Lit "unknown index "; Num id])).

Definition already (txn : TxnId) (st : TxnStatus) : SqlError :=
  from_internal (Bug [Lit "transaction "; Num txn; Lit " is already "; dbg_status st]).

Definition check_writable (txn : TxnId) (s : Inner) : SqlResult () :=
  match txns s !! txn with
  | Some st => if is_finished st then Err (already txn (ts_status st)) else Ok ()
  | None => Ok ()
  end.

(** [writing_txn]: registers [txn] on its first write. *)
Definition writing_txn (txn : TxnId) : action TxnState := λ s,
  let st := default TxnState_in_progress (txns s !! txn) in
  let s' := put_txn txn st s in
  if is_finished st then (Err (already txn (ts_status st)), s') else (Ok st, s').

Definition finish_txn (txn : TxnId) (fate : TxnStatus) : action (list UndoEntry) := λ s,
  match txns s !! txn with
  | Some st =>
      if is_finished st then (Err (already txn (ts_status st)), s)
      else (Ok (writes st), put_txn txn (mkTxnState fate [] []) s)
  | None => (Ok [], put_txn txn (TxnState_finished fate) s)
  end.

Section storage.

(** [index.remove_version(row, version)?] on the index [id], if it still exists. *)
Definition remove_entry (id : IndexId) (rv : RowId * Version) : action () := λ s,
  match indexes s !! id with
  | None => (Ok (), s)
  | Some ix =>
      match remove_version ix rv.1 rv.2 with
      | Ok ix' => (Ok (), put_index id ix' s)
      | Err e => (Err e, s)
      end
  end.

(** The two nested loops of [remove_entries], and of [vacuum]. *)
Definition remove_from (ids : gset IndexId) (removed : list (RowId * Version)) : action () :=
  for_each (λ id, for_each (remove_entry id) removed) (sorted_elements ids).

Definition remove_entries (tid : TableId) (removed : list (RowId * Version)) : action () := λ s,
  match tables s !! tid with
  | None => (Ok (), s)
  | Some t => remove_from (t_indexes t) removed s
  end.

Definition not_the_tail (what : string) (txn : TxnId) (tid : TableId) (row : RowId) : SqlError :=
  from_internal (Corruption [Lit "row "; Num row; Lit " of table "; Num tid;
    Lit " does not end with the "; Lit what; Lit " of transaction "; Num txn; Lit " being undone"]).

Definition undo (txn : TxnId) (entry : UndoEntry) : action () := λ s,
  match entry with
  | UInsert tid row =>
      match tables s !! tid with
      | None => (Ok (), s)
      | Some t =>
          match remove_row t row with
          | (Some vs, t') => remove_entries tid ((row,.) <$> vs) (put_table tid t' s)
          | (None, t') => (Ok (), put_table tid t' s)
          end
      end
  | UUpdate tid row =>
      match tables s !! tid with
      | None => (Ok (), s)
      | Some t =>
          match undo_update t txn row with
          | (Some created, t') => remove_entries tid [(row, created)] (put_table tid t' s)
          | (None, t') => (Err (not_the_tail "update" txn tid row), put_table tid t' s)
          end
      end
  | UDelete tid row =>
      match tables s !! tid with
      | None => (Ok (), s)
      | Some t =>
          match undo_delete t txn row with
          | (true, t') => (Ok (), put_table tid t' s)
          | (false, t') => (Err (not_the_tail "delete" txn tid row), put_table tid t' s)
          end
      end
  end.

Notation PlannedEntry := (IndexId * nat * IndexEntry)%type.

Definition plan_one (txn : TxnId) (tid : TableId) (row : Row) (id : RowId) (seq : N)
    (replacing : option RowId) (s : Inner) (t : Table) (index_id : IndexId) :
    SqlResult PlannedEntry :=
  match indexes s !! index_id with
  | None => corruption [Lit "table "; Num tid; Lit " references unknown index "; Num index_id]
  | Some ix =>
      key ← extract (ix_order ix) row;
      dup ← (if unique (ix_shape ix)
             then has_live_duplicate ix key (rows t) (Some txn) (status s) replacing
             else Ok false);
      if (dup : bool) then Err (duplicate_key_index tid index_id key)
      else
        pos ← position_for ix key id seq;
        Ok (index_id, pos, mkIndexEntry key id seq)
  end.

Definition plan_entries (txn : TxnId) (tid : TableId) (row : Row) (id : RowId) (seq : N)
    (replacing : option RowId) (s : Inner) : SqlResult (list PlannedEntry) :=
  t ← table s tid;
  try_map (plan_one txn tid row id seq replacing s t) (sorted_elements (t_indexes t)).

Definition apply_entry (ixs : gmap IndexId Index) (p : PlannedEntry) : gmap IndexId Index :=
  let '(id, pos, entry) := p in
  match ixs !! id with
  | None => ixs
  | Some ix =>
      <[id := with_entries ix
                (insert_at (pos `min` length (ix_entries ix)) entry (ix_entries ix))]> ixs
  end.
Definition apply_entries (ixs : gmap IndexId Index) (planned : list PlannedEntry) :
    gmap IndexId Index :=
  foldl apply_entry ixs planned.

Definition check_current (txn : TxnId) (tid : TableId) (id : RowId) (s : Inner) : SqlResult () :=
  t ← table s tid;
  match latest t id with
  | None => bug [Lit "unknown row "; Num id; Lit " in table "; Num tid]
  | Some v =>
      match v_xmax v with
      | Some x => bug [Lit "row "; Num id; Lit " of table "; Num tid;
          Lit " is stale: its latest version was replaced or deleted by transaction "; Num x]
      | None =>
          if negb (bool_decide (v_xmin v = txn)) &&
             negb (bool_decide (status s (v_xmin v) = Committed))
          then bug [Lit "row "; Num id; Lit " of table "; Num tid;
                    Lit " is being written by transaction "; Num (v_xmin v); Lit ", which is ";
                    dbg_status (status s (v_xmin v))]
          else Ok ()
      end
  end.

Definition check_arity (tid : TableId) (row : Row) (s : Inner) : SqlResult () :=
  t ← table s tid;
  if bool_decide (length (values row) = arity t) then Ok ()
  else bug [Lit "row has "; Num (N.of_nat (length (values row))); Lit " values, table "; Num tid;
            Lit " has "; Num (N.of_nat (arity t)); Lit " columns"].

Definition visible (snap : Snapshot) (st : TxnId → TxnStatus) (vs : list Version) : option Version :=
  snd <$> list_find (λ v, is_visible snap (v_xmin v) (v_xmax v) st = true) vs.

Definition check_shape (s : TableShape) : SqlResult (option KeyOrder) :=
  match columns s with
  | [] => bug [Lit "table shape has no column"]
  | _ =>
      match clustered_key s with
      | Some key => Some <$> KeyOrder_new "clustered key" key s
      | None => Ok None
      end
  end.

(** [next_id] on a counter of [u32]. *)
Definition next_id (counter : N) (what : string) : SqlResult (N * N) :=
  match checked_succ u32_max counter with
  | Some next => Ok (counter, next)
  | None => bug [Lit what; Lit " id space exhausted"]
  end.

(** ** [impl Storage for MemoryStorage]: databases and tables *)

Definition create_database (name : string) : action DbId := λ s,
  match next_id (next_db_id s) "database" with
  | Err e => (Err e, s)
  | Ok (id, next) =>
      (Ok id, set_databases (<[id := mkDatabase name ∅]> (databases s)) (set_next_db_id next s))
  end.

(** [tables.remove(table)] and the indexes of the table it held. *)
Definition forget_table (s : Inner) (tid : TableId) : Inner :=
  match tables s !! tid with
  | None => s
  | Some dropped =>
      set_indexes (foldl (λ m i, delete i m) (indexes s) (sorted_elements (t_indexes dropped)))
        (set_tables (delete tid (tables s)) s)
  end.

Definition drop_database (db : DbId) : action () := λ s,
  match databases s !! db with
  | None => (bug [Lit "unknown database "; Num db], s)
  | Some d =>
      (Ok (), foldl forget_table (set_databases (delete db (databases s)) s)
                (sorted_elements (db_tables d)))
  end.

Definition list_databases (s : Inner) : SqlResult (list (DbId * string)) :=
  Ok (map (λ d, (d.1, db_name d.2)) (sorted_entries N.le (databases s))).

Definition create_table (db : DbId) (shape : TableShape) : action TableId := λ s,
  match check_shape shape with
  | Err e => (Err e, s)
  | Ok k =>
      match databases s !! db with
      | None => (bug [Lit "unknown database "; Num db], s)
      | Some d =>
          match next_id (next_table_id s) "table" with
          | Err e => (Err e, s)
          | Ok (id, next) =>
              (Ok id, put_table id (Table_new db shape k)
                 (set_databases (<[db := mkDatabase (db_name d) ({[id]} ∪ db_tables d)]> (databases s))
                    (set_next_table_id next s)))
          end
      end
  end.

Definition drop_table (tid : TableId) : action () := λ s,
  match tables s !! tid with
  | None => (bug [Lit "unknown table "; Num tid], s)
  | Some dropped =>
      let s1 := set_databases
        (alter (λ d, mkDatabase (db_name d) (db_tables d ∖ {[tid]})) (t_db dropped) (databases s)) s in
      (Ok (), forget_table s1 tid)
  end.

Definition list_tables (db : DbId) (s : Inner) : SqlResult (list (TableId * TableShape)) :=
  match databases s !! db with
  | None => bug [Lit "unknown database "; Num db]
  | Some d =>
      try_map (λ id,
        match tables s !! id with
        | Some t => Ok (id, shape t)
        | None => corruption [Lit "database "; Num db; Lit " references unknown table "; Num id]
        end) (sorted_elements (db_tables d))
  end.

(** ** Indexes *)

(** One version offered to the index being built. *)
Definition index_version (st : TxnId → TxnStatus) (row : RowId) (ix : Index) (v : Version) :
    SqlResult Index :=
  if bool_decide (st (v_xmin v) = Aborted) then Ok ix
  else
    key ← extract (ix_order ix) (v_data v);
    pos ← position_for ix key row (v_seq v);
    Ok (with_entries ix (insert_at pos (mkIndexEntry key row (v_seq v)) (ix_entries ix))).

Definition index_rows (st : TxnId → TxnStatus) (ix : Index) (r : gmap RowId (list Version)) :
    SqlResult Index :=
  try_fold (λ ix iv, try_fold (index_version st iv.1) ix iv.2) ix (sorted_entries N.le r).

Definition build_index (tid : TableId) (def : IndexShape) (s : Inner) :
    SqlResult (IndexId * N * Index * Table) :=
  t ← table s tid;
  order ← KeyOrder_new "index key" (ix_columns def) (shape t);
  match list_find (λ inc, arity t ≤ N.to_nat inc) (included def) with
  | Some (_, inc) => bug [Lit "included column "; Num inc; Lit " out of range (";
                          Num (N.of_nat (arity t)); Lit " columns)"]
  | None =>
      match checked_succ u32_max (next_index_id s) with
      | None => bug [Lit "index id space exhausted"]
      | Some next =>
          ix ← index_rows (status s) (Index_new tid def order) (rows t);
          dup ← (if unique def then first_duplicate_key ix (rows t) (status s) else Ok None);
          match dup with
          | Some key => Err (duplicate_key_index tid (next_index_id s) key)
          | None => Ok (next_index_id s, next, ix, t)
          end
      end
  end.

Definition create_index (tid : TableId) (def : IndexShape) : action IndexId := λ s,
  match build_index tid def s with
  | Err e => (Err e, s)
  | Ok (id, next, ix, t) =>
      (Ok id, put_index id ix
         (set_next_index_id next (put_table tid (with_indexes t ({[id]} ∪ t_indexes t)) s)))
  end.

Definition drop_index (id : IndexId) : action () := λ s,
  match indexes s !! id with
  | None => (bug [Lit "unknown index "; Num id], s)
  | Some dropped =>
      (Ok (), set_tables
         (alter (λ t, with_indexes t (t_indexes t ∖ {[id]})) (ix_table dropped) (tables s))
         (set_indexes (delete id (indexes s)) s))
  end.

Definition list_indexes (tid : TableId) (s : Inner) : SqlResult (list (IndexId * IndexShape)) :=
  t ← table s tid;
  try_map (λ id,
    match indexes s !! id with
    | Some ix => Ok (id, ix_shape ix)
    | None => corruption [Lit "table "; Num tid; Lit " references unknown index "; Num id]
    end) (sorted_elements (t_indexes t)).

(** ** Rows *)

Definition log_write (txn : TxnId) (st : TxnState) (entry : UndoEntry) (s : Inner) : Inner :=
  put_txn txn (mkTxnState (ts_status st) (writes st ++ [entry]) (savepoints st)) s.

Definition vanished (tid : TableId) (txn : TxnId) : SqlError :=
  from_internal (Corruption [Lit "table "; Num tid; Lit " or transaction "; Num txn;
    Lit " vanished under the write lock"]).
Definition row_vanished (id : RowId) (tid : TableId) : SqlError :=
  from_internal (Corruption [Lit "row "; Num id; Lit " of table "; Num tid;
    Lit " vanished under the write lock"]).

(** The part of [insert] that changes the table, the indexes and the log. *)
Definition write_insert (txn : TxnId) (tid : TableId) (row : Row) (id : RowId)
    (planned : list (IndexId * nat * IndexEntry)) (st : TxnState) : action RowId := λ s,
  match tables s !! tid with
  | None => (Err (vanished tid txn), s)
  | Some t =>
      let '(inserted, t') := table_insert t txn row in
      let s1 := put_table tid t' s in
      if negb (bool_decide (inserted = id)) then
        (corruption [Lit "table "; Num tid; Lit " handed out row "; Num inserted;
                     Lit " instead of the announced "; Num id], s1)
      else
        (Ok id, log_write txn st (UInsert tid id)
                  (set_indexes (apply_entries (indexes s1) planned) s1))
  end.

Definition insert (txn : TxnId) (tid : TableId) (row : Row) : action RowId :=
  _ ← reads (check_arity tid row);
  _ ← reads (check_writable txn);
  t ← reads (λ s, table s tid);
  let id := peek_row_id t in
  planned ← reads (plan_entries txn tid row id (peek_seq t) None);
  st ← writing_txn txn;
  write_insert txn tid row id planned st.

(** The part of [update] that changes the table, the indexes and the log. *)
Definition write_update (txn : TxnId) (tid : TableId) (id : RowId) (row : Row)
    (planned : list (IndexId * nat * IndexEntry)) (st : TxnState) : action () := λ s,
  match tables s !! tid with
  | None => (Err (vanished tid txn), s)
  | Some t =>
      match supersede t txn id (Some row) with
      | (false, t') => (Err (row_vanished id tid), put_table tid t' s)
      | (true, t') =>
          let s1 := put_table tid t' s in
          (Ok (), log_write txn st (UUpdate tid id)
                    (set_indexes (apply_entries (indexes s1) planned) s1))
      end
  end.

Definition update (txn : TxnId) (tid : TableId) (id : RowId) (row : Row) : action () :=
  _ ← reads (check_arity tid row);
  _ ← reads (check_current txn tid id);
  _ ← reads (check_writable txn);
  t ← reads (λ s, table s tid);
  planned ← reads (plan_entries txn tid row id (peek_seq t) (Some id));
  st ← writing_txn txn;
  write_update txn tid id row planned st.

(** The part of [delete] that changes the table and the log. *)
Definition write_delete (txn : TxnId) (tid : TableId) (id : RowId) (st : TxnState) :
    action () := λ s,
  match tables s !! tid with
  | None => (Err (vanished tid txn), s)
  | Some t =>
      match supersede t txn id None with
      | (false, t') => (Err (row_vanished id tid), put_table tid t' s)
      | (true, t') => (Ok (), log_write txn st (UDelete tid id) (put_table tid t' s))
      end
  end.

Definition delete_row (txn : TxnId) (tid : TableId) (id : RowId) : action () :=
  _ ← reads (check_current txn tid id);
  st ← writing_txn txn;
  write_delete txn tid id st.

Definition get (snap : Snapshot) (tid : TableId) (id : RowId) (s : Inner) : SqlResult (option Row) :=
  t ← table s tid;
  Ok (vs ← rows t !! id; v_data <$> visible snap (status s) vs).

(** The visible rows of a table, in the order of their identifiers. *)
Definition visible_rows (snap : Snapshot) (st : TxnId → TxnStatus) (r : gmap RowId (list Version)) :
    list (RowId * Row) :=
  omap (λ iv, (λ v, (iv.1, v_data v)) <$> visible snap st iv.2) (sorted_entries N.le r).

Definition scan (snap : Snapshot) (tid : TableId) (s : Inner) : SqlResult (list (RowId * Row)) :=
  t ← table s tid;
  let vis := visible_rows snap (status s) (rows t) in
  match clustered t with
  | Some order => sort_rows order vis
  | None => Ok vis
  end.

(** One entry of the range [seek] selects. *)
Definition seek_entry (snap : Snapshot) (st : TxnId → TxnStatus) (id : IndexId)
    (r : gmap RowId (list Version)) (e : IndexEntry) : SqlResult (option (RowId * Row)) :=
  match find_version r (e_row e) (e_version e) with
  | None => corruption [Lit "index "; Num id; Lit " references version "; Num (e_version e);
                        Lit " of row "; Num (e_row e); Lit ", which does not exist"]
  | Some v => Ok (if is_visible snap (v_xmin v) (v_xmax v) st then Some (e_row e, v_data v) else None)
  end.

Definition seek (snap : Snapshot) (id : IndexId) (range : KeyRange) (dir : Direction) (s : Inner) :
    SqlResult (list (RowId * Row)) :=
  idx ← index s id;
  match tables s !! ix_table idx with
  | None => corruption [Lit "index "; Num id; Lit " belongs to unknown table "; Num (ix_table idx)]
  | Some t =>
      p ← positions idx range;
      found ← try_map (seek_entry snap (status s) id (rows t)) (slice (ix_entries idx) p.1 p.2);
      let out := omap (λ x, x) found in
      Ok (match dir with Backward => reverse out | Forward => out end)
  end.

Definition latest_version (tid : TableId) (id : RowId) (s : Inner) :
    SqlResult (option (TxnId * Row)) :=
  t ← table s tid;
  Ok ((λ v, (default (v_xmin v) (v_xmax v), v_data v)) <$> latest t id).

(** ** The life of a transaction *)

Definition commit (txn : TxnId) : action () :=
  _ ← finish_txn txn Committed; mret ().

Definition rollback (txn : TxnId) : action () :=
  w ← finish_txn txn Aborted; for_each (undo txn) (reverse w).

(** The part of [savepoint] after the transaction is registered. *)
Definition push_savepoint (txn : TxnId) (st : TxnState) : action SavepointId := λ s,
  let id := next_savepoint_id s in
  match checked_succ u64_max id with
  | None => (bug [Lit "savepoint id space exhausted"], s)
  | Some next =>
      (Ok id, put_txn txn (mkTxnState (ts_status st) (writes st)
                             (savepoints st ++ [(id, length (writes st))]))
                (set_next_savepoint_id next s))
  end.

Definition savepoint (txn : TxnId) : action SavepointId :=
  st ← writing_txn txn;
  push_savepoint txn st.

(** The part of [rollback_to] before the undo: what to undo, and the log that is left. *)
Definition cut_log (txn : TxnId) (sp : SavepointId) (s : Inner) :
    SqlResult (list UndoEntry * TxnState) :=
  match txns s !! txn with
  | None => bug [Lit "unknown transaction "; Num txn; Lit " for savepoint "; Num sp]
  | Some st =>
      if is_finished st then Err (already txn (ts_status st))
      else
        match list_find (λ p, p.1 = sp) (savepoints st) with
        | None => bug [Lit "savepoint "; Num sp;
                       Lit " is unknown, invalidated or not owned by transaction "; Num txn]
        | Some (pos, (_, mark)) =>
            if bool_decide (length (writes st) < mark) then
              corruption [Lit "savepoint "; Num sp; Lit " of transaction "; Num txn;
                          Lit " points past its undo log"]
            else
              Ok (drop mark (writes st),
                  mkTxnState (ts_status st) (take mark (writes st))
                    (take (S pos) (savepoints st)))
        end
  end.

Definition rollback_to (txn : TxnId) (sp : SavepointId) : action () := λ s,
  match cut_log txn sp s with
  | Err e => (Err e, s)
  | Ok (undone, st) => for_each (undo txn) (reverse undone) (put_txn txn st s)
  end.

Definition checkpoint : action () := mret ().

(** One table of [vacuum]. *)
Definition vacuum_table (horizon : TxnId) (tid : TableId) : action () := λ s,
  match tables s !! tid with
  | None => (Ok (), s)
  | Some t =>
      let '(removed, t') := table_vacuum t horizon (status s) in
      remove_from (t_indexes t') removed (put_table tid t' s)
  end.

Definition vacuum (horizon : TxnId) : action () := λ s,
  match for_each (vacuum_table horizon) (sorted_keys N.le (tables s)) s with
  | (Err e, s') => (Err e, s')
  | (Ok _, s') =>
      (Ok (), set_txns
         (filter (λ x, is_finished x.2 && (x.1 <? horizon)%N = false) (txns s')) s')
  end.

(** The largest transaction identifier of the registry, [0] when it is empty. *)
Definition committed_txn_high_water (s : Inner) : N :=
  foldr N.max 0%N (map_to_list (txns s)).*1.
End storage.
