(* ===== verification/IndexFacts.v ===== *)
(** * Indexes stay sorted and answer ranges exactly

    About [Index.v]: an index whose entries are sorted and typed never fails a search; the
    position of a new entry keeps it sorted, the entry of a version is found and removed,
    and the range a search selects is the entries whose key meets the bounds. *)

From S2P Require Import Prelude Values Errors Snapshot Order CollationFacts Compare KeyOrder.
From S2P Require Import Table Index.

Lemma total_N : TotalOn (λ _, True) N.compare.
Proof.
  split.
  - intros x _. apply N.compare_refl.
  - intros x y _ _. apply N.compare_antisym.
  - intros x y z _ _ _. rewrite !N.compare_le_iff. lia.
Qed.

(** A sorted list cut by a three-way comparison. *)
Section cut.
Context {A : Type} (l : list A) (f : A → comparison).

(** [f] goes from [Lt] to [Eq] to [Gt] along [l]. *)
Definition rising : Prop :=
  StronglySorted (λ a b, (f b = Lt → f a = Lt) ∧ (f b ≠ Gt → f a ≠ Gt)) l.

Lemma rising_below : rising →
  StronglySorted (λ a b, bool_decide (f b = Lt) = true → bool_decide (f a = Lt) = true) l.
Proof.
  intros Hs. induction Hs as [|x k _ IH Hx]; constructor; [done|].
  eapply Forall_impl; [exact Hx|]. intros y [Hy _]. rewrite !bool_decide_eq_true. done.
Qed.

Lemma rising_above : rising →
  StronglySorted (λ a b, negb (bool_decide (f b = Gt)) = true → negb (bool_decide (f a = Gt)) = true) l.
Proof.
  intros Hs. induction Hs as [|x k _ IH Hx]; constructor; [done|].
  eapply Forall_impl; [exact Hx|]. intros y [_ Hy].
  rewrite !negb_true_iff, !bool_decide_eq_false. done.
Qed.

Lemma rising_split : rising →
  ∃ l1 l2 l3, l = l1 ++ l2 ++ l3 ∧ Forall (λ x, f x = Lt) l1 ∧ Forall (λ x, f x = Eq) l2 ∧
    Forall (λ x, f x = Gt) l3.
Proof.
  intros Hs. destruct (monotone_split _ _ (rising_below Hs)) as (l1 & l2' & Hl & H1 & H2').
  pose proof (rising_above Hs) as Ha. rewrite Hl in Ha. apply StronglySorted_app in Ha as (_ & _ & Ha).
  destruct (monotone_split _ _ Ha) as (l2 & l3 & -> & H2 & H3).
  apply Forall_app in H2' as [H2' H3']. exists l1, l2, l3. split; [done|].
  rewrite Forall_forall in H1, H2, H3, H2', H3'.
  split; [|split]; apply Forall_forall; intros x Hx.
  - specialize (H1 _ Hx). by apply bool_decide_eq_true in H1.
  - specialize (H2 _ Hx). specialize (H2' _ Hx). simpl in *.
    apply negb_true_iff, bool_decide_eq_false in H2. apply bool_decide_eq_false in H2'.
    by destruct (f x).
  - specialize (H3 _ Hx). simpl in H3. apply negb_false_iff, bool_decide_eq_true in H3. done.
Qed.
End cut.

Section index_order.
Context (cols : list Column).

(** A full key, every value of the type of its column. *)
Definition key_fits (k : list Value) : Prop := prefix_fits cols k ∧ length cols ≤ length k.

Definition entry_fits (e : IndexEntry) : Prop := key_fits (e_key e).

(** The order of the entries: key, row, version. *)
Definition entry_order (a b : IndexEntry) : comparison :=
  then_with (keys_order cols (e_key a) (e_key b))
    (then_with (e_row a ?= e_row b)%N (e_version a ?= e_version b)%N).

Lemma entry_order_total : TotalOn entry_fits entry_order.
Proof.
  unfold entry_order. apply total_then; [|apply total_then].
  - pose proof (keys_order_total (length cols) cols) as Ht. rewrite take_ge in Ht by done.
    exact (total_map e_key _ _ Ht).
  - apply (total_weaken (λ _, True)); [|done]. exact (total_map e_row _ _ total_N).
  - apply (total_weaken (λ _, True)); [|done]. exact (total_map e_version _ _ total_N).
Qed.

Definition entries_sorted (es : list IndexEntry) : Prop :=
  StronglySorted (λ a b, entry_order a b = Lt) es.

Record entries_ok (es : list IndexEntry) : Prop := {
  en_fits : Forall entry_fits es;
  en_sorted : entries_sorted es;
}.

(** ** Against a key prefix *)

Lemma keys_order_take n a b : length b ≤ n → keys_order cols a b = keys_order (take n cols) a b.
Proof.
  revert n a b. induction cols as [|c cs IH]; intros n a b Hn; [by rewrite take_nil|].
  destruct n as [|n]; destruct a as [|x a], b as [|y b]; simpl in *; try done; [lia|].
  rewrite IH with n a b; [done|lia].
Qed.

Lemma keys_order_shorter n a b : keys_order cols a b ≠ Gt → keys_order (take n cols) a b ≠ Gt.
Proof.
  revert n a b. induction cols as [|c cs IH]; intros n a b; [by rewrite take_nil|].
  destruct n as [|n]; destruct a as [|x a], b as [|y b]; simpl; try done.
  destruct (column_order c x y); simpl; [apply IH|done..].
Qed.

Lemma entry_keys_le a b : entry_order a b = Lt → keys_order cols (e_key a) (e_key b) ≠ Gt.
Proof. unfold entry_order. by destruct (keys_order _ _ _). Qed.

Lemma prefix_rising es p :
  entries_ok es → prefix_fits cols p → rising es (λ e, keys_order cols (e_key e) p).
Proof.
  intros [Hf Hs] Hp. unfold rising, entries_sorted in *.
  set (n := length p). pose proof (keys_order_total n cols) as Ht.
  assert (Hp' : prefix_fits cols p ∧ n ≤ length p) by done.
  assert (Hlen : n ≤ length cols) by apply Hp.
  induction Hs as [|a es Hs IH Ha]; [constructor|]. apply Forall_cons in Hf as [Hfa Hf].
  constructor; [by apply IH|]. rewrite Forall_forall in *. intros b Hb.
  specialize (Ha b Hb). specialize (Hf b Hb). destruct Hfa as [Hka Hla], Hf as [Hkb Hlb].
  apply entry_keys_le, (keys_order_shorter n) in Ha.
  rewrite !(keys_order_take n _ p) by done. split; intros Hlt.
  - eapply (tc_le_lt _ _ (Hc := Ht) (e_key a) (e_key b) p); eauto with lia.
  - eapply (tc_trans (TotalOn := Ht) (e_key a) (e_key b) p); eauto with lia.
Qed.
End index_order.

(** ** Searching *)

Section search.

Notation cols ix := (key_columns (ix_order ix)).

Definition index_wf (ix : Index) : Prop := entries_ok (cols ix) (ix_entries ix).

Lemma compare_prefix_fits o a b :
  prefix_fits (key_columns o) a → prefix_fits (key_columns o) b →
  compare_prefix o a b = Ok (keys_order (key_columns o) a b).
Proof. apply compare_columns_fits. Qed.

(** The entries of an index around the keys that start with [p]. *)
Lemma bounds_split ix p :
  index_wf ix → prefix_fits (cols ix) p →
  ∃ l1 l2 l3, ix_entries ix = l1 ++ l2 ++ l3 ∧
    Forall (λ e, keys_order (cols ix) (e_key e) p = Lt) l1 ∧
    Forall (λ e, keys_order (cols ix) (e_key e) p = Eq) l2 ∧
    Forall (λ e, keys_order (cols ix) (e_key e) p = Gt) l3 ∧
    lower_bound ix p = Ok (length l1) ∧ upper_bound ix p = Ok (length l1 + length l2).
Proof.
  intros Hwf Hp. destruct (rising_split _ _ (prefix_rising _ _ _ Hwf Hp)) as (l1 & l2 & l3 & He & H1 & H2 & H3).
  exists l1, l2, l3. do 4 (split; [done|]).
  assert (Hcmp : ∀ e, e ∈ ix_entries ix →
    compare_prefix (ix_order ix) (e_key e) p = Ok (keys_order (cols ix) (e_key e) p)).
  { intros e Hin. apply compare_prefix_fits; [|done].
    pose proof (en_fits _ _ Hwf) as Hf. rewrite Forall_forall in Hf. by apply Hf. }
  unfold lower_bound, upper_bound. rewrite He in *. split.
  - apply (partition_point_spec _ (λ e, bool_decide (keys_order (cols ix) (e_key e) p = Lt))).
    + intros e Hin. by rewrite Hcmp.
    + eapply Forall_impl; [exact H1|]. intros e Hlt. by rewrite bool_decide_true.
    + apply Forall_app. split; [eapply Forall_impl; [exact H2|]|eapply Forall_impl; [exact H3|]];
        intros e Hlt; simpl in Hlt; by rewrite Hlt.
  - rewrite app_assoc, <- length_app.
    apply (partition_point_spec _ (λ e, negb (bool_decide (keys_order (cols ix) (e_key e) p = Gt)))).
    + intros e Hin. rewrite <- app_assoc in Hin. by rewrite Hcmp.
    + apply Forall_app. split; [eapply Forall_impl; [exact H1|]|eapply Forall_impl; [exact H2|]];
        intros e Hlt; simpl in Hlt; by rewrite Hlt.
    + eapply Forall_impl; [exact H3|]. intros e Hlt. by rewrite bool_decide_true.
Qed.

Lemma slice_middle {A} (l1 l2 l3 : list A) :
  slice (l1 ++ l2 ++ l3) (length l1) (length l1 + length l2) = l2.
Proof.
  unfold slice. rewrite !length_app, !bool_decide_true by lia. simpl.
  rewrite drop_app_length. replace (_ - _) with (length l2) by lia. apply take_app_length.
Qed.

(** The entries a key or a prefix selects. *)
Lemma equal_slice ix p lo hi :
  index_wf ix → prefix_fits (cols ix) p → lower_bound ix p = Ok lo → upper_bound ix p = Ok hi →
  slice (ix_entries ix) lo hi =
  filter (λ e, keys_order (cols ix) (e_key e) p = Eq) (ix_entries ix).
Proof.
  intros Hwf Hp. destruct (bounds_split ix p Hwf Hp) as (l1 & l2 & l3 & -> & H1 & H2 & H3 & -> & ->).
  intros [= <-] [= <-]. rewrite slice_middle, !filter_app.
  rewrite (filter_nil _ l1), (filter_id _ l2), (filter_nil _ l3); [by rewrite app_nil_r|..|done|].
  - eapply Forall_impl; [exact H3|]. intros e Hx. simpl in Hx. by rewrite Hx.
  - eapply Forall_impl; [exact H1|]. intros e Hx. simpl in Hx. by rewrite Hx.
Qed.

(** ** Inserting and removing *)

Lemma position_for_split ix x :
  index_wf ix → entry_fits (cols ix) x →
  ∃ l1 l2, ix_entries ix = l1 ++ l2 ∧
    position_for ix (e_key x) (e_row x) (e_version x) = Ok (length l1) ∧
    Forall (λ e, entry_order (cols ix) e x = Lt) l1 ∧
    Forall (λ e, entry_order (cols ix) e x ≠ Lt) l2.
Proof.
  intros Hwf Hx. pose proof Hwf as [Hf Hs]. pose proof (entry_order_total (cols ix)) as Ht.
  rewrite Forall_forall in Hf.
  destruct (partition_point_split
    (λ e, c ← compare_prefix (ix_order ix) (e_key e) (e_key x);
          Ok (match c with
              | Lt => true
              | Eq => pair_ltb (e_row e) (e_version e) (e_row x) (e_version x)
              | Gt => false
              end))
    (λ e, bool_decide (entry_order (cols ix) e x = Lt)) (ix_entries ix))
    as (l1 & l2 & He & Hp & H1 & H2).
  - intros e Hin. rewrite (compare_prefix_fits _ _ _ (proj1 (Hf e Hin)) (proj1 Hx)). simpl.
    unfold entry_order, pair_ltb. f_equal.
    destruct (keys_order _ _ _); simpl; [|done..].
    destruct (N.compare_spec (e_row e) (e_row x)) as [->|Hlt|Hlt]; simpl.
    + rewrite N.ltb_irrefl, N.eqb_refl. simpl.
      destruct (N.ltb_spec (e_version e) (e_version x)) as [Hv|Hv].
      * rewrite bool_decide_true; [done|]. by apply N.compare_lt_iff.
      * rewrite bool_decide_false; [done|]. rewrite N.compare_lt_iff. lia.
    + by rewrite (proj2 (N.ltb_lt _ _)).
    + rewrite (proj2 (N.ltb_ge _ _)), (proj2 (N.eqb_neq _ _)) by lia. done.
  - unfold entries_sorted in Hs. clear -Hs Ht Hf Hx.
    induction Hs as [|a es _ IH Ha]; constructor; [apply IH; intros; apply Hf; by right|].
    rewrite Forall_forall in *. intros b Hb. rewrite !bool_decide_eq_true. intros Hbx.
    eapply (tc_lt_le _ _ (Hc := Ht) a b x); [apply Hf; by left|apply Hf; by right|done|by apply Ha|].
    by rewrite Hbx.
  - exists l1, l2. split; [done|]. split; [exact Hp|].
    split; [eapply Forall_impl; [exact H1|]|eapply Forall_impl; [exact H2|]];
      intros e; simpl; [by rewrite bool_decide_eq_true|by rewrite bool_decide_eq_false].
Qed.

Lemma insert_entry_ok ix x :
  index_wf ix → entry_fits (cols ix) x →
  (∀ e, e ∈ ix_entries ix → (e_row e, e_version e) ≠ (e_row x, e_version x)) →
  ∃ pos, position_for ix (e_key x) (e_row x) (e_version x) = Ok pos ∧
    pos ≤ length (ix_entries ix) ∧ entries_ok (cols ix) (insert_at pos x (ix_entries ix)).
Proof.
  intros Hwf Hx Hnew. destruct (position_for_split ix x Hwf Hx) as (l1 & l2 & He & Hp & H1 & H2).
  exists (length l1). split; [done|]. split; [rewrite He, length_app; lia|].
  destruct Hwf as [Hf Hs]. pose proof (entry_order_total (cols ix)) as Ht.
  rewrite He in *. unfold insert_at. rewrite take_app_length, drop_app_length.
  apply Forall_app in Hf as [Hf1 Hf2]. rewrite Forall_forall in *. split.
  { apply Forall_forall. intros e. rewrite elem_of_app, elem_of_cons. intros [|[->|]]; auto. }
  assert (Hgt : ∀ e, e ∈ l2 → entry_order (cols ix) x e = Lt).
  { intros e Hin. apply (tc_lt_gt _ _ (Hc := Ht)); [done|by apply Hf2|].
    specialize (H2 e Hin). destruct (entry_order (cols ix) e x) eqn:Ho; [exfalso|done..].
    apply (Hnew e); [apply elem_of_app; by right|]. revert Ho. unfold entry_order.
    destruct (keys_order _ _ _); simpl; [|done..].
    destruct (N.compare_spec (e_row e) (e_row x)) as [->|?|?]; simpl; [|done..].
    by intros ->%N.compare_eq_iff. }
  unfold entries_sorted in *. apply StronglySorted_app in Hs as (H12 & Hs1 & Hs2).
  apply StronglySorted_app. split_and!; [|done|].
  - intros a b Ha [->|Hb]%elem_of_cons; [by apply H1|by apply H12].
  - constructor; [done|]. apply Forall_forall. done.
Qed.

(** The entry of [v], as [extract] computes its key. *)
Lemma remove_version_ok ix row v key :
  index_wf ix → extract (ix_order ix) (v_data v) = Ok key →
  mkIndexEntry key row (v_seq v) ∈ ix_entries ix →
  ∃ ix', remove_version ix row v = Ok ix' ∧ index_wf ix' ∧
    ix_entries ix ≡ₚ mkIndexEntry key row (v_seq v) :: ix_entries ix' ∧
    ix_table ix' = ix_table ix ∧ ix_shape ix' = ix_shape ix ∧ ix_order ix' = ix_order ix.
Proof.
  intros Hwf Hk Hin. set (x := mkIndexEntry key row (v_seq v)) in *.
  pose proof Hwf as [Hf Hs]. pose proof (entry_order_total (cols ix)) as Ht.
  rewrite Forall_forall in Hf. pose proof (Hf x Hin) as Hx.
  destruct (position_for_split ix x Hwf Hx) as (l1 & l2 & He & Hp & H1 & H2).
  assert (∃ l3, l2 = x :: l3) as [l3 ->].
  { rewrite He in Hin. apply elem_of_app in Hin as [Hin|Hin].
    - rewrite Forall_forall in H1. specialize (H1 x Hin). simpl in H1.
      by rewrite (tc_refl (TotalOn := Ht)) in H1.
    - destruct l2 as [|h l3]; [by apply not_elem_of_nil in Hin|]. exists l3.
      apply elem_of_cons in Hin as [->|Hin]; [done|]. exfalso.
      unfold entries_sorted in Hs. rewrite He in Hs. apply StronglySorted_app in Hs as (_ & _ & Hs).
      apply StronglySorted_inv in Hs as [_ Hh]. rewrite Forall_forall in Hh.
      apply Forall_cons in H2 as [Hhx _]. apply Hhx. by apply Hh. }
  assert (Hlk : ix_entries ix !! length l1 = Some x).
  { rewrite He, lookup_app_r, Nat.sub_diag by lia. done. }
  exists (with_entries ix (l1 ++ l3)). unfold remove_version. rewrite Hk. simpl. simpl in Hp. rewrite Hp.
  simpl. rewrite Hlk. simpl. rewrite !bool_decide_true by done. simpl.
  pose proof (compare_prefix_fits _ _ _ (proj1 Hx) (proj1 Hx)) as Hcmp. simpl in Hcmp.
  rewrite Hcmp. simpl.
  pose proof (keys_order_total (length (cols ix)) (cols ix)) as Hkt. rewrite take_ge in Hkt by done.
  rewrite (tc_refl (TotalOn := Hkt)) by apply Hx. rewrite bool_decide_true by done.
  assert (Hdel : delete (length l1) (ix_entries ix) = l1 ++ l3).
  { rewrite He, delete_middle. done. }
  rewrite Hdel. split; [done|]. split; [|split; [|done]].
  - unfold index_wf. simpl. rewrite He in *. split.
    + apply Forall_forall. intros e Hin'. apply Hf. set_solver.
    + eapply StronglySorted_sublist; [exact Hs|]. apply sublist_app; [done|]. by apply sublist_cons.
  - rewrite He. simpl. symmetry. apply Permutation_middle.
Qed.
End search.
