(* ===== verification/StorageInv.v ===== *)
(** * Version chains and the undo log

    About the chains of [Table.v]: while a transaction is in progress its writes on a row
    are the tail of the row's chain ([written]); each undo finds the write it undoes there
    and takes the chain back to what it was; and a reader that does not see a transaction
    reads the chain as if the transaction had never written ([erase]). *)

From S2P Require Import Prelude Values Errors Snapshot Order CollationFacts Compare KeyOrder Table Index IndexFacts MemoryStorage.

(** A version that bears the mark of [t]. *)
Definition mentions (t : TxnId) (v : Version) : Prop := v_xmin v = t ∨ v_xmax v = Some t.

Definition untouched (t : TxnId) (o : option (list Version)) : Prop :=
  ∀ vs v, o = Some vs → v ∈ vs → ¬ mentions t v.

(** ** What a transaction has written on a row *)

Inductive Kind := KInsert | KUpdate | KDelete.

(** [written t ks o]: the writes [ks] of [t], in order, have led the row to the chain [o]. *)
Inductive written (t : TxnId) : list Kind → option (list Version) → Prop :=
  | written_nil o : untouched t o → written t [] o
  | written_insert d n : written t [KInsert] (Some [mkVersion t None d n])
  | written_update ks vs v d n :
      written t ks (Some (vs ++ [v])) → v_xmax v = None →
      written t (ks ++ [KUpdate]) (Some (vs ++ [set_xmax (Some t) v; mkVersion t None d n]))
  | written_delete ks vs v :
      written t ks (Some (vs ++ [v])) → v_xmax v = None →
      written t (ks ++ [KDelete]) (Some (vs ++ [set_xmax (Some t) v])).

Lemma written_nil_inv t o : written t [] o → untouched t o.
Proof.
  remember [] as ks eqn:Hk. intros Hw. destruct Hw as [| |ks|ks]; [done|done|by destruct ks..].
Qed.

(** A chain a transaction wrote ends with its mark. *)
Lemma written_last t ks o :
  written t ks o → ks ≠ [] →
  ∃ vs v, o = Some (vs ++ [v]) ∧ (v_xmax v = Some t ∨ (v_xmax v = None ∧ v_xmin v = t)).
Proof.
  intros Hw Hne. destruct Hw as [o Hu|d n|ks vs v d n Hw Hx|ks vs v Hw Hx]; [done|..].
  - exists [], (mkVersion t None d n). auto.
  - exists (vs ++ [set_xmax (Some t) v]), (mkVersion t None d n). rewrite <- app_assoc. auto.
  - exists vs, (set_xmax (Some t) v). auto.
Qed.

(** Two transactions in progress have not both written a row. *)
Lemma written_exclusive t t' ks ks' o :
  written t ks o → written t' ks' o → ks ≠ [] → t ≠ t' → ks' = [].
Proof.
  intros Hw Hw' Hne Htt. destruct ks' as [|k ks']; [done|exfalso].
  destruct (written_last _ _ _ Hw Hne) as (vs & v & Ho & Hv).
  destruct (written_last _ _ _ Hw') as (vs' & v' & Ho' & Hv'); [done|].
  rewrite Ho in Ho'. injection Ho' as [-> ->]%app_inj_tail.
  destruct Hv as [Hv|[Hv Hm]], Hv' as [Hv'|[Hv' Hm']]; congruence.
Qed.

(** ** Undoing the last write *)

Lemma written_snoc_insert t ks o :
  written t (ks ++ [KInsert]) o →
  ks = [] ∧ ∃ d n, o = Some [mkVersion t None d n].
Proof.
  inversion 1 as [? ? He|d n He|ks' vs v d n ? ? He|ks' vs v ? ? He]; subst.
  - by destruct ks.
  - apply (app_inj_tail [] ks) in He as [<- _]. eauto.
  - by apply app_inj_tail in He as [_ ?].
  - by apply app_inj_tail in He as [_ ?].
Qed.

Lemma written_snoc_update t ks o :
  written t (ks ++ [KUpdate]) o →
  ∃ vs v d n, o = Some (vs ++ [set_xmax (Some t) v; mkVersion t None d n]) ∧ v_xmax v = None ∧
    written t ks (Some (vs ++ [v])).
Proof.
  inversion 1 as [? ? He|d n He|ks' vs v d n ? ? He|ks' vs v ? ? He]; subst.
  - by destruct ks.
  - by apply (app_inj_tail [] ks) in He as [_ ?].
  - apply app_inj_tail in He as [-> _]. eauto 10.
  - by apply app_inj_tail in He as [_ ?].
Qed.

Lemma written_snoc_delete t ks o :
  written t (ks ++ [KDelete]) o →
  ∃ vs v, o = Some (vs ++ [set_xmax (Some t) v]) ∧ v_xmax v = None ∧ written t ks (Some (vs ++ [v])).
Proof.
  inversion 1 as [? ? He|d n He|ks' vs v d n ? ? He|ks' vs v ? ? He]; subst.
  - by destruct ks.
  - by apply (app_inj_tail [] ks) in He as [_ ?].
  - by apply app_inj_tail in He as [_ ?].
  - apply app_inj_tail in He as [-> _]. eauto 10.
Qed.

Lemma alter_last_snoc f vs v : alter_last f (vs ++ [v]) = vs ++ [f v].
Proof.
  unfold alter_last. rewrite length_app. simpl. rewrite Nat.add_1_r. simpl.
  rewrite alter_app_r_alt by lia. by rewrite Nat.sub_diag.
Qed.

Lemma pop_snoc vs v : pop (vs ++ [v]) = vs.
Proof.
  unfold pop. rewrite length_app. simpl. rewrite Nat.add_1_r. simpl. apply take_app_length.
Qed.

Lemma set_xmax_undo t v : v_xmax v = None → set_xmax None (set_xmax (Some t) v) = v.
Proof. destruct v; simpl. by intros ->. Qed.

Lemma undo_update_chain t vs v d n :
  v_xmax v = None →
  tail_is_update t (vs ++ [set_xmax (Some t) v; mkVersion t None d n]) = true ∧
  last (vs ++ [set_xmax (Some t) v; mkVersion t None d n]) = Some (mkVersion t None d n) ∧
  alter_last (set_xmax None) (pop (vs ++ [set_xmax (Some t) v; mkVersion t None d n])) = vs ++ [v].
Proof.
  intros Hx.
  assert (Hs : vs ++ [set_xmax (Some t) v; mkVersion t None d n] =
    (vs ++ [set_xmax (Some t) v]) ++ [mkVersion t None d n]) by (by rewrite <- app_assoc).
  split; [|split].
  - unfold tail_is_update. rewrite Hs, !reverse_snoc. simpl. by rewrite !bool_decide_true.
  - by rewrite Hs, last_snoc.
  - rewrite Hs, pop_snoc, alter_last_snoc. by rewrite set_xmax_undo.
Qed.

(** ** Forgetting a transaction *)

Definition reset (t : TxnId) (v : Version) : Version :=
  if decide (v_xmax v = Some t) then set_xmax None v else v.

Lemma reset_marked t v : v_xmax v = None → reset t (set_xmax (Some t) v) = v.
Proof. intros Hx. unfold reset. rewrite decide_True by done. by apply set_xmax_undo. Qed.

Lemma reset_other t v : v_xmax v ≠ Some t → reset t v = v.
Proof. intros Hx. unfold reset. by rewrite decide_False. Qed.

(** The chain without the writes of [t]; [None] when it wrote all of it. *)
Definition erase (t : TxnId) (vs : list Version) : list Version :=
  reset t <$> filter (λ v, v_xmin v ≠ t) vs.

Definition erase_row (t : TxnId) (o : option (list Version)) : option (list Version) :=
  vs ← o; match erase t vs with [] => None | l => Some l end.

Lemma erase_app t l k : erase t (l ++ k) = erase t l ++ erase t k.
Proof. unfold erase. by rewrite filter_app, fmap_app. Qed.

Lemma erase_update t vs v d n :
  v_xmax v = None →
  erase t (vs ++ [set_xmax (Some t) v; mkVersion t None d n]) = erase t (vs ++ [v]).
Proof.
  intros Hx. rewrite !erase_app. f_equal. unfold erase.
  destruct (decide (v_xmin v ≠ t)) as [Hm|Hm].
  - rewrite !filter_cons_True, filter_cons_False by (simpl; tauto).
    rewrite (filter_cons_True _ v) by done. rewrite !fmap_cons, reset_marked by done.
    rewrite reset_other by (by rewrite Hx). done.
  - rewrite !filter_cons_False by (simpl; tauto). done.
Qed.

Lemma erase_delete t vs v :
  v_xmax v = None → erase t (vs ++ [set_xmax (Some t) v]) = erase t (vs ++ [v]).
Proof.
  intros Hx. rewrite !erase_app. f_equal. unfold erase.
  destruct (decide (v_xmin v ≠ t)) as [Hm|Hm].
  - rewrite filter_cons_True, (filter_cons_True _ v) by done. rewrite !fmap_cons, reset_marked by done.
    rewrite reset_other by (by rewrite Hx). done.
  - rewrite !filter_cons_False by (simpl; tauto). done.
Qed.

Lemma erase_insert t d n : erase t [mkVersion t None d n] = [].
Proof. unfold erase. by rewrite filter_cons_False by (simpl; tauto). Qed.

Lemma erase_untouched t o :
  untouched t o → (∀ vs, o = Some vs → vs ≠ []) → erase_row t o = o.
Proof.
  intros Hu Hne. destruct o as [vs|]; [|done]. simpl.
  assert (He : erase t vs = vs).
  { specialize (Hu vs). clear Hne. unfold erase. rewrite filter_id.
    - rewrite <- (list_fmap_id vs) at 2. apply list_fmap_ext. intros i v Hv.
      rewrite reset_other; [done|]. intros Hx. eapply (Hu v); [done| |by right].
      by eapply list_elem_of_lookup_2.
    - apply Forall_forall. intros v Hv Hm. by apply (Hu v); [done..|left]. }
  rewrite He. specialize (Hne vs eq_refl). by destruct vs.
Qed.

(** Readers that do not see [t] read the erased chain. *)
Lemma visible_erase snap st t vs :
  unseen snap t → v_data <$> visible snap st (erase t vs) = v_data <$> visible snap st vs.
Proof.
  intros Hu. unfold visible, erase. induction vs as [|v vs IH]; [done|].
  assert (Hnt : is_settled snap t st = false) by (by apply unseen_not_settled).
  destruct (decide (v_xmin v = t)) as [Hm|Hm].
  - rewrite filter_cons_False by tauto. rewrite IH. cbn [list_find].
    destruct (decide _) as [Hv|_].
    + exfalso. apply is_visible_spec in Hv as [Hs _]. congruence.
    + by destruct (list_find _ vs) as [[]|].
  - rewrite filter_cons_True by done. csimpl.
    assert (Hr : is_visible snap (v_xmin (reset t v)) (v_xmax (reset t v)) st =
                 is_visible snap (v_xmin v) (v_xmax v) st ∧ v_data (reset t v) = v_data v).
    { unfold reset. destruct (decide (v_xmax v = Some t)) as [Hx|]; [|done].
      split; [|done]. simpl. unfold is_visible. by rewrite Hx, Hnt. }
    destruct Hr as [Hr Hd]. rewrite Hr.
    destruct (decide (is_visible snap (v_xmin v) (v_xmax v) st = true)); simpl.
    + by rewrite Hd.
    + revert IH. destruct (list_find _ (_ <$> _)) as [[]|], (list_find _ vs) as [[]|]; done.
Qed.

(** * The invariant of the storage

    What holds of the state of [MemoryStorage.v] between two operations: the chains of every
    table are well formed, the undo log of each transaction in progress describes the tails
    of the chains it wrote, nothing bears the mark of an aborted transaction, and each index
    lists exactly the versions of its table, sorted. *)

(** ** Rows and their keys *)

(** A row the executor may hand over: each value is [NULL] or of the type of its column. *)
Definition value_fits (info : TypeInfo) (v : Value) : Prop :=
  v = VNull ∨ (variant_matches v (ty info) = true ∧ clean v).

Definition row_fits (s : TableShape) (r : Row) : Prop := Forall2 value_fits (columns s) (values r).

(** A comparator whose columns are columns of the table. *)
Definition order_fits (s : TableShape) (o : KeyOrder) : Prop :=
  Forall (λ c, ∃ info, columns s !! position c = Some info ∧ col_ty c = ty info) (key_columns o).

Lemma KeyOrder_new_fits what cols s o : KeyOrder_new what cols s = Ok o → order_fits s o.
Proof.
  unfold KeyOrder_new. destruct cols as [|kc cols]; [done|].
  intros (out & Hout & [= <-])%result_bind_Ok. apply try_map_Ok in Hout.
  unfold order_fits. simpl. induction Hout as [|x c xs cs Hx _ IH]; constructor; [|done].
  revert Hx. unfold column_new. destruct (columns s !! _) as [info|] eqn:Hi; [|done].
  intros [= <-]. simpl. eauto.
Qed.

(** The key of a row, as a total function. *)
Definition key_of (o : KeyOrder) (r : Row) : list Value :=
  match extract o r with Ok k => k | Err _ => [] end.

Lemma extract_fits s o r :
  order_fits s o → row_fits s r →
  extract o r = Ok (key_of o r) ∧ key_fits (key_columns o) (key_of o r).
Proof.
  intros Ho Hr. unfold key_of, extract, order_fits, key_fits, prefix_fits in *.
  induction Ho as [|c cs (info & Hc & Ht) _ IH]; simpl.
  { split; [done|]. split; [|done]. split; [done|]. intros i ? ? [=]. }
  destruct IH as [He [[Hl Hf] Hl']].
  destruct (Forall2_lookup_l _ _ _ _ _ Hr Hc) as (v & Hv & Hfit). rewrite Hv. simpl.
  rewrite He. simpl. split; [done|]. split; [|simpl; lia]. split; [simpl; lia|].
  intros [|i] c' v'; simpl.
  - intros [= <-] [= <-]. unfold fits. by rewrite Ht.
  - apply Hf.
Qed.

(** ** The entries an index of a table must have *)

Section entries.
Context (o : KeyOrder).

Definition entry_of (row : RowId) (v : Version) : IndexEntry :=
  mkIndexEntry (key_of o (v_data v)) row (v_seq v).

Definition row_entries (row : RowId) (vs : list Version) : list IndexEntry := entry_of row <$> vs.

Definition entries_of (r : gmap RowId (list Version)) : list IndexEntry :=
  map_to_list r ≫= λ iv, row_entries iv.1 iv.2.

Lemma entries_of_insert r row vs :
  entries_of (<[row := vs]> r) ≡ₚ row_entries row vs ++ entries_of (delete row r).
Proof.
  unfold entries_of. rewrite <- insert_delete_eq.
  rewrite map_to_list_insert by apply lookup_delete_eq. done.
Qed.

Lemma entries_of_lookup r row vs :
  r !! row = Some vs → entries_of r ≡ₚ row_entries row vs ++ entries_of (delete row r).
Proof. intros Hr. rewrite <- entries_of_insert. by rewrite insert_id. Qed.

Lemma elem_of_entries_of r e :
  e ∈ entries_of r ↔ ∃ row vs v, r !! row = Some vs ∧ v ∈ vs ∧ e = entry_of row v.
Proof.
  unfold entries_of, row_entries. rewrite list_elem_of_bind. split.
  - intros ([row vs] & (v & -> & Hv)%list_elem_of_fmap & Hin). simpl in *.
    exists row, vs, v. by rewrite <- elem_of_map_to_list.
  - intros (row & vs & v & Hr & Hv & ->). exists (row, vs). simpl. split.
    + apply list_elem_of_fmap. eauto.
    + by apply elem_of_map_to_list.
Qed.

(** The entries do not read the marks of the versions. *)
Lemma row_entries_same row vs vs' :
  ((λ v, (v_data v, v_seq v)) <$> vs) = ((λ v, (v_data v, v_seq v)) <$> vs') →
  row_entries row vs = row_entries row vs'.
Proof.
  unfold row_entries, entry_of. revert vs'. induction vs as [|v vs IH]; intros [|v' vs']; try done.
  csimpl. intros [= Hd Hs Hvs]. rewrite Hd, Hs. f_equal. by apply IH.
Qed.
End entries.

(** ** Tables *)

(** A chain: not empty, every version but the last superseded, serial numbers increasing. *)
Record chain_ok (tb : Table) (vs : list Version) : Prop := {
  ch_nonempty : vs ≠ [];
  ch_superseded : Forall (λ v, is_Some (v_xmax v)) (pop vs);
  ch_seqs : StronglySorted N.lt (v_seq <$> vs);
  ch_fresh : Forall (λ v, (v_seq v < next_seq tb)%N) vs;
  ch_fits : Forall (λ v, row_fits (shape tb) (v_data v)) vs;
}.

Record table_wf (tb : Table) : Prop := {
  tw_chains : map_Forall (λ _ vs, chain_ok tb vs) (rows tb);
  tw_rows : map_Forall (λ row _, (row < next_row_id tb)%N) (rows tb);
  tw_clustered : ∀ o, clustered tb = Some o → order_fits (shape tb) o;
}.

Record index_ok (tb : Table) (ix : Index) : Prop := {
  io_order : order_fits (shape tb) (ix_order ix);
  io_entries : ix_entries ix ≡ₚ entries_of (ix_order ix) (rows tb);
  io_sorted : entries_sorted (key_columns (ix_order ix)) (ix_entries ix);
}.

Lemma index_ok_wf tb ix : table_wf tb → index_ok tb ix → index_wf ix.
Proof.
  intros [Hc _ _] [Ho He Hs]. split; [|done]. apply Forall_forall. intros e.
  rewrite He, elem_of_entries_of. intros (row & vs & v & Hr & Hv & ->).
  pose proof (ch_fits _ _ (Hc _ _ Hr)) as Hf. rewrite Forall_forall in Hf.
  unfold entry_fits. simpl. by eapply extract_fits; [|apply Hf].
Qed.

(** ** Logs *)

(** The writes of a log on one row. *)
Definition entry_kind (tid : TableId) (row : RowId) (e : UndoEntry) : option Kind :=
  match e with
  | UInsert t r => if decide (t = tid ∧ r = row) then Some KInsert else None
  | UUpdate t r => if decide (t = tid ∧ r = row) then Some KUpdate else None
  | UDelete t r => if decide (t = tid ∧ r = row) then Some KDelete else None
  end.

Definition entry_table (e : UndoEntry) : TableId :=
  match e with UInsert t _ | UUpdate t _ | UDelete t _ => t end.

Definition row_log (tid : TableId) (row : RowId) (w : list UndoEntry) : list Kind :=
  omap (entry_kind tid row) w.

(** The log [w] of [t] describes the tails of the chains [t] wrote. *)
Definition log_ok (tbs : gmap TableId Table) (t : TxnId) (w : list UndoEntry) : Prop :=
  ∀ tid tb row, tbs !! tid = Some tb → written t (row_log tid row w) (rows tb !! row).

Lemma row_log_snoc tid row w e :
  row_log tid row (w ++ [e]) =
  row_log tid row w ++ match entry_kind tid row e with Some k => [k] | None => [] end.
Proof. unfold row_log. rewrite omap_app. simpl. by destruct (entry_kind tid row e). Qed.

(** [t] has left no mark in the tables. *)
Definition unmarked (tbs : gmap TableId Table) (t : TxnId) : Prop :=
  ∀ tid tb row, tbs !! tid = Some tb → untouched t (rows tb !! row).

Lemma log_ok_nil tbs t : log_ok tbs t [] ↔ unmarked tbs t.
Proof.
  split.
  - intros Hl tid tb row Ht. apply written_nil_inv, (Hl tid tb row Ht).
  - intros Hu tid tb row Ht. constructor. by eapply Hu.
Qed.

(** ** The storage *)

(** The tables and the indexes. *)
Record body_ok (s : Inner) : Prop := {
  bo_tables : map_Forall (λ tid tb, table_wf tb ∧ (tid < next_table_id s)%N) (tables s);
  bo_table_indexes : ∀ tid tb i, tables s !! tid = Some tb → i ∈ t_indexes tb →
    ∃ ix, indexes s !! i = Some ix ∧ ix_table ix = tid ∧ index_ok tb ix;
  bo_indexes : ∀ i ix, indexes s !! i = Some ix →
    (i < next_index_id s)%N ∧ ∃ tb, tables s !! ix_table ix = Some tb ∧ i ∈ t_indexes tb;
}.

(** What the registry knows of a transaction. *)
Record txn_ok (s : Inner) (t : TxnId) (st : TxnState) : Prop := {
  tx_log : ts_status st = InProgress → log_ok (tables s) t (writes st);
  tx_finished : ts_status st ≠ InProgress → writes st = [] ∧ savepoints st = [];
  tx_tables : Forall (λ e, (entry_table e < next_table_id s)%N) (writes st);
  tx_savepoints : StronglySorted (λ a b, (a.1 < b.1)%N ∧ a.2 ≤ b.2) (savepoints st);
  tx_marks : Forall (λ p, (p.1 < next_savepoint_id s)%N ∧ p.2 ≤ length (writes st)) (savepoints st);
}.

Record storage_ok (s : Inner) : Prop := {
  so_body :> body_ok s;
  so_txns : map_Forall (txn_ok s) (txns s);
  so_aborted : ∀ t, status s t = Aborted → unmarked (tables s) t;
}.

(** [t] is registered, or has written nothing: the identifiers of the transaction manager
    are never used twice. *)
Definition enrolled (s : Inner) (t : TxnId) : Prop :=
  is_Some (txns s !! t) ∨ unmarked (tables s) t.

Lemma MemoryStorage_new_ok : storage_ok MemoryStorage_new.
Proof. split; [split; done|done|]. intros t _ tid tb row. simpl. by rewrite lookup_empty. Qed.
