(* ===== verification/StorageFacts.v ===== *)
(** * The storage keeps its invariant

    Preservation of [storage_ok] by the operations of [MemoryStorage.v], and what each of
    them does to the chains. *)

From S2P Require Import Prelude Values Errors Snapshot Order CollationFacts Compare KeyOrder.
From S2P Require Import Table Index IndexFacts MemoryStorage StorageInv.

Section storage_facts.

(** ** Removing index entries *)

Notation removed_entries o removed := ((λ rv : RowId * Version, entry_of o rv.1 rv.2) <$> removed).

(** The entries of [removed] are in the index, with keys that can be computed. *)
Definition removable (removed : list (RowId * Version)) (ix : Index) : Prop :=
  index_wf ix ∧
  Forall (λ rv, extract (ix_order ix) (v_data rv.2) = Ok (key_of (ix_order ix) (v_data rv.2))) removed ∧
  ∃ rest, ix_entries ix ≡ₚ removed_entries (ix_order ix) removed ++ rest.

(** [ix'] is [ix] without them. *)
Record stripped (removed : list (RowId * Version)) (ix ix' : Index) : Prop := {
  sp_wf : index_wf ix';
  sp_entries : ix_entries ix ≡ₚ removed_entries (ix_order ix) removed ++ ix_entries ix';
  sp_table : ix_table ix' = ix_table ix;
  sp_shape : ix_shape ix' = ix_shape ix;
  sp_order : ix_order ix' = ix_order ix;
}.

Lemma set_indexes_id s : set_indexes (indexes s) s = s.
Proof. by destruct s. Qed.

Lemma remove_entries_loop id removed s ix :
  indexes s !! id = Some ix → removable removed ix →
  ∃ ix', for_each (remove_entry id) removed s = (Ok (), put_index id ix' s) ∧ stripped removed ix ix'.
Proof.
  revert s ix. induction removed as [|[row v] removed IH]; intros s ix Hid (Hwf & Hex & rest & Hp).
  { exists ix. split; [|by split]. simpl. unfold put_index. rewrite insert_id by done.
    by rewrite set_indexes_id. }
  apply Forall_cons in Hex as [Hk Hex]. simpl in Hk. csimpl in Hp.
  destruct (remove_version_ok ix row v _ Hwf Hk) as (ix1 & Hrm & Hwf1 & Hp1 & Ht & Hs & Ho).
  { rewrite Hp. by left. }
  assert (Hp2 : ix_entries ix1 ≡ₚ removed_entries (ix_order ix) removed ++ rest).
  { apply (Permutation_cons_inv (a := entry_of (ix_order ix) row v)). rewrite <- Hp, Hp1. done. }
  destruct (IH (put_index id ix1 s) ix1) as (ix' & Hloop & Hst).
  - simpl. by rewrite lookup_insert_eq.
  - split; [done|]. rewrite Ho. eauto.
  - exists ix'. split.
    + simpl. unfold mbind, stateful_bind, remove_entry at 1. rewrite Hid. simpl. rewrite Hrm.
      rewrite Hloop. unfold put_index, set_indexes. simpl. by rewrite insert_insert_eq.
    + destruct Hst as [Hw He Ht' Hs' Ho']. rewrite Ho in He. split; [done| |congruence..].
      rewrite Hp1. csimpl. by rewrite He.
Qed.

Lemma elem_of_sorted_elements X x : x ∈ sorted_elements X ↔ x ∈ X.
Proof. unfold sorted_elements. by rewrite merge_sort_Permutation, elem_of_elements. Qed.

Lemma NoDup_sorted_elements X : NoDup (sorted_elements X).
Proof. unfold sorted_elements. rewrite merge_sort_Permutation. apply NoDup_elements. Qed.

Lemma remove_ids_loop ids removed s :
  NoDup ids → (∀ i, i ∈ ids → ∃ ix, indexes s !! i = Some ix ∧ removable removed ix) →
  ∃ ixs, for_each (λ id, for_each (remove_entry id) removed) ids s = (Ok (), set_indexes ixs s) ∧
    (∀ i, i ∉ ids → ixs !! i = indexes s !! i) ∧
    (∀ i ix, i ∈ ids → indexes s !! i = Some ix → ∃ ix', ixs !! i = Some ix' ∧ stripped removed ix ix').
Proof.
  revert s. induction ids as [|id ids IH]; intros s Hnd Hall.
  { exists (indexes s). rewrite set_indexes_id. split; [done|]. split; [done|]. set_solver. }
  apply NoDup_cons in Hnd as [Hni Hnd]. destruct (Hall id) as (ix & Hid & Hrm); [by left|].
  destruct (remove_entries_loop id removed s ix Hid Hrm) as (ix1 & Hloop & Hst).
  destruct (IH (put_index id ix1 s)) as (ixs & Hrest & Hout & Hin).
  { done. }
  { intros i Hi. destruct (Hall i) as (ix' & Hi' & Hr'); [by right|]. exists ix'. split; [|done].
    simpl. rewrite lookup_insert_ne; [done|]. by intros ->. }
  exists ixs. simpl in *. split; [|split].
  - unfold mbind, stateful_bind. rewrite Hloop, Hrest. done.
  - intros i Hi. rewrite Hout by set_solver. rewrite lookup_insert_ne; [done|set_solver].
  - intros i ix' [->|Hi]%elem_of_cons Hlk.
    + exists ix1. split; [|congruence]. rewrite Hout by done. by rewrite lookup_insert_eq.
    + apply Hin; [done|]. rewrite lookup_insert_ne; [done|]. by intros ->.
Qed.

Lemma remove_from_ok ids removed s :
  (∀ i, i ∈ ids → ∃ ix, indexes s !! i = Some ix ∧ removable removed ix) →
  ∃ ixs, remove_from ids removed s = (Ok (), set_indexes ixs s) ∧
    (∀ i, i ∉ ids → ixs !! i = indexes s !! i) ∧
    (∀ i ix, i ∈ ids → indexes s !! i = Some ix → ∃ ix', ixs !! i = Some ix' ∧ stripped removed ix ix').
Proof.
  intros Hall. unfold remove_from.
  destruct (remove_ids_loop (sorted_elements ids) removed s) as (ixs & Hl & Hout & Hin).
  - apply NoDup_sorted_elements.
  - intros i. rewrite elem_of_sorted_elements. apply Hall.
  - exists ixs. split; [done|]. split.
    + intros i Hi. apply Hout. by rewrite elem_of_sorted_elements.
    + intros i ix Hi. apply Hin. by rewrite elem_of_sorted_elements.
Qed.

(** ** Chains *)

Lemma chain_ok_tb tb tb' vs :
  shape tb' = shape tb → (next_seq tb ≤ next_seq tb')%N → chain_ok tb vs → chain_ok tb' vs.
Proof.
  intros Hs Hn [Hne Hsup Hsq Hfr Hft]. split; [done..| |by rewrite Hs].
  eapply Forall_impl; [exact Hfr|]. intros v. simpl. lia.
Qed.

Lemma chain_mark tb vs v x : chain_ok tb (vs ++ [v]) → chain_ok tb (vs ++ [set_xmax x v]).
Proof.
  intros [Hne Hsup Hsq Hfr Hft]. rewrite pop_snoc in Hsup.
  rewrite fmap_app in Hsq. apply Forall_app in Hfr as [Hfr1 Hfr2], Hft as [Hft1 Hft2].
  apply Forall_cons in Hfr2 as [Hfr2 _], Hft2 as [Hft2 _].
  split; [by destruct vs|by rewrite pop_snoc|by rewrite fmap_app|..].
  - apply Forall_app. split; [done|]. constructor; [exact Hfr2|constructor].
  - apply Forall_app. split; [done|]. constructor; [exact Hft2|constructor].
Qed.

Lemma chain_pop tb vs v w : chain_ok tb (vs ++ [v; w]) → chain_ok tb (vs ++ [v]).
Proof.
  assert (Hs : vs ++ [v; w] = (vs ++ [v]) ++ [w]) by (by rewrite <- app_assoc).
  rewrite Hs. intros [_ Hsup Hsq Hfr Hft]. rewrite pop_snoc in Hsup.
  rewrite fmap_app in Hsq. apply StronglySorted_app in Hsq as (_ & Hsq & _).
  apply Forall_app in Hsup as [Hsup _], Hfr as [Hfr _], Hft as [Hft _].
  split; [by destruct vs|by rewrite pop_snoc|done..].
Qed.

Lemma chain_push tb tb' vs v t d :
  chain_ok tb (vs ++ [v]) → shape tb' = shape tb → (next_seq tb < next_seq tb')%N →
  row_fits (shape tb) d →
  chain_ok tb' (vs ++ [set_xmax (Some t) v; mkVersion t None d (next_seq tb)]).
Proof.
  intros Hc Hs Hn Hd. pose proof (chain_mark tb vs v (Some t) Hc) as [_ Hsup Hsq Hfr Hft].
  assert (Heq : vs ++ [set_xmax (Some t) v; mkVersion t None d (next_seq tb)] =
    (vs ++ [set_xmax (Some t) v]) ++ [mkVersion t None d (next_seq tb)]) by (by rewrite <- app_assoc).
  rewrite Heq. rewrite pop_snoc in Hsup. split.
  - by destruct vs.
  - rewrite pop_snoc. apply Forall_app. split; [done|]. constructor; [|constructor]. simpl. eauto.
  - rewrite fmap_app. apply StronglySorted_app. split_and!; [|done|repeat constructor].
    intros a b Ha ->%list_elem_of_singleton. simpl.
    apply list_elem_of_fmap in Ha as (u & -> & Hu). rewrite Forall_forall in Hfr. by apply Hfr.
  - apply Forall_app. split; [eapply Forall_impl; [exact Hfr|]; simpl; lia|].
    constructor; [|constructor]. simpl. lia.
  - rewrite Hs. apply Forall_app. split; [done|]. constructor; [done|constructor].
Qed.

Lemma chain_new tb t d :
  row_fits (shape tb) d →
  chain_ok (new_version tb t d).2 [mkVersion t None d (next_seq tb)].
Proof.
  intros Hd. split; simpl; [done|constructor|repeat constructor|..];
    (constructor; [simpl|constructor]); [lia|done].
Qed.

(** ** Replacing the chain of a row *)

Lemma table_wf_set tb row vs :
  table_wf tb → is_Some (rows tb !! row) → chain_ok tb vs →
  table_wf (with_rows tb (<[row := vs]> (rows tb))).
Proof.
  intros [Hc Hr Hk] [vs0 Hrow] Hvs. split; simpl; [..|done].
  - apply map_Forall_insert_2; [by apply (chain_ok_tb tb)|]. intros r vs' Hr'.
    apply (chain_ok_tb tb); [done..|by apply (Hc r)].
  - apply map_Forall_insert_2; [by eapply Hr|done].
Qed.

Lemma table_wf_delete tb row :
  table_wf tb → table_wf (with_rows tb (delete row (rows tb))).
Proof.
  intros [Hc Hr Hk]. split; simpl; [..|done].
  - intros r vs' [_ Hr']%lookup_delete_Some. apply (chain_ok_tb tb); [done..|by apply (Hc r)].
  - intros r vs' [_ Hr']%lookup_delete_Some. by eapply Hr.
Qed.

(** A change of the rows of one table that takes the versions [removed] away, with the
    indexes brought up to date. *)
Lemma change_rows_ok s tid tb r' ixs removed :
  body_ok s → tables s !! tid = Some tb → table_wf (with_rows tb r') →
  (∀ o, entries_of o (rows tb) ≡ₚ removed_entries o removed ++ entries_of o r') →
  (∀ i, i ∉ t_indexes tb → ixs !! i = indexes s !! i) →
  (∀ i ix, i ∈ t_indexes tb → indexes s !! i = Some ix →
     ∃ ix', ixs !! i = Some ix' ∧ stripped removed ix ix') →
  body_ok (set_indexes ixs (put_table tid (with_rows tb r') s)).
Proof.
  intros [Hts Hti Hix] Htid Hwf Hent Hout Hin. split; simpl.
  - apply map_Forall_insert_2; [|done]. split; [done|]. by apply (Hts tid tb).
  - intros tid' tb' i [[<- <-]|[Hne Htid']]%lookup_insert_Some Hi.
    + simpl in Hi. destruct (Hti _ _ _ Htid Hi) as (ix & Hlk & Ht & Hok).
      destruct (Hin _ _ Hi Hlk) as (ix' & Hlk' & Hst). exists ix'.
      split; [done|]. split; [by rewrite (sp_table _ _ _ Hst)|].
      destruct Hst as [Hw He _ _ Ho]. split; simpl; rewrite Ho.
      * apply Hok.
      * apply (Permutation_app_inv_l (removed_entries (ix_order ix) removed)).
        rewrite <- He, (io_entries _ _ Hok). apply Hent.
      * rewrite <- Ho. apply Hw.
    + destruct (Hti _ _ _ Htid' Hi) as (ix & Hlk & Ht & Hok). exists ix. split; [|done].
      rewrite Hout; [done|]. intros Hi'. destruct (Hti _ _ _ Htid Hi') as (ix2 & Hlk2 & Ht2 & _).
      congruence.
  - intros i ix' Hlk'. destruct (decide (i ∈ t_indexes tb)) as [Hi|Hi].
    + destruct (Hti _ _ _ Htid Hi) as (ix & Hlk & Ht & _).
      destruct (Hin _ _ Hi Hlk) as (ix2 & Hlk2 & Hst). simplify_eq.
      split; [by apply (Hix i ix)|]. rewrite (sp_table _ _ _ Hst).
      exists (with_rows tb r'). by rewrite lookup_insert_eq.
    + rewrite Hout in Hlk' by done. destruct (Hix _ _ Hlk') as (Hlt & tb' & Htb' & Hi').
      split; [done|]. destruct (decide (ix_table ix' = tid)) as [He|Hne].
      * rewrite He in Htb'. congruence.
      * exists tb'. rewrite lookup_insert_ne; done.
Qed.

Lemma discard_ok s tid tb r' removed :
  body_ok s → tables s !! tid = Some tb → table_wf (with_rows tb r') →
  (∀ o, entries_of o (rows tb) ≡ₚ removed_entries o removed ++ entries_of o r') →
  Forall (λ rv, row_fits (shape tb) (v_data rv.2)) removed →
  ∃ ixs, remove_from (t_indexes tb) removed (put_table tid (with_rows tb r') s) =
           (Ok (), set_indexes ixs (put_table tid (with_rows tb r') s)) ∧
    body_ok (set_indexes ixs (put_table tid (with_rows tb r') s)).
Proof.
  intros Hb Htid Hwf Hent Hfit.
  destruct (remove_from_ok (t_indexes tb) removed (put_table tid (with_rows tb r') s))
    as (ixs & Hrm & Hout & Hin).
  - intros i Hi. destruct (bo_table_indexes _ Hb _ _ _ Htid Hi) as (ix & Hlk & _ & Hok).
    exists ix. split; [done|].
    split; [eapply index_ok_wf; [apply (bo_tables _ Hb _ _ Htid)|done]|]. split.
    + eapply Forall_impl; [exact Hfit|]. intros rv Hrv. by eapply extract_fits; [apply Hok|].
    + eexists. rewrite (io_entries _ _ Hok). apply Hent.
  - exists ixs. split; [done|]. by eapply change_rows_ok.
Qed.

(** A change of marks: no version comes or goes. *)
Lemma remark_ok s tid tb r' :
  body_ok s → tables s !! tid = Some tb → table_wf (with_rows tb r') →
  (∀ o, entries_of o (rows tb) ≡ₚ entries_of o r') →
  body_ok (put_table tid (with_rows tb r') s).
Proof.
  intros Hb Htid Hwf Hent.
  rewrite <- (set_indexes_id (put_table tid (with_rows tb r') s)).
  apply (change_rows_ok s tid tb r' (indexes s) []); [done..|].
  intros i ix Hi Hlk. exists ix. split; [done|].
  destruct (bo_table_indexes _ Hb _ _ _ Htid Hi) as (ix2 & Hlk2 & _ & Hok). simplify_eq.
  split; [|done..]. eapply index_ok_wf; [apply (bo_tables _ Hb _ _ Htid)|done].
Qed.

(** ** Undo *)

(** The same table, its rows apart. *)
Record same_but_rows (tb tb' : Table) : Prop := {
  sr_db : t_db tb' = t_db tb;
  sr_shape : shape tb' = shape tb;
  sr_clustered : clustered tb' = clustered tb;
  sr_indexes : t_indexes tb' = t_indexes tb;
  sr_row_id : next_row_id tb' = next_row_id tb;
  sr_seq : next_seq tb' = next_seq tb;
}.

(** [s'] is [s] after writes of [t] have been taken back: the registry and the counters are
    the same, and so is what the others have written. *)
Record undone (t : TxnId) (s s' : Inner) : Prop := {
  un_body : body_ok s';
  un_frame : s' = set_tables (tables s') (set_indexes (indexes s') s);
  un_none : ∀ tid, tables s !! tid = None → tables s' !! tid = None;
  un_tables : ∀ tid tb, tables s !! tid = Some tb → ∃ tb', tables s' !! tid = Some tb' ∧
    same_but_rows tb tb' ∧ ∀ row, erase_row t (rows tb' !! row) = erase_row t (rows tb !! row);
  un_others : ∀ t' w, t' ≠ t → log_ok (tables s) t' w → log_ok (tables s') t' w;
}.

(** The log of [t] after the chain of one row has changed. *)
Lemma log_change tbs tid tb row r' t w w' :
  tbs !! tid = Some tb → log_ok tbs t w →
  (∀ row', row' ≠ row → r' !! row' = rows tb !! row') →
  (∀ tid' row', ¬ (tid' = tid ∧ row' = row) → row_log tid' row' w' = row_log tid' row' w) →
  written t (row_log tid row w') (r' !! row) →
  log_ok (<[tid := with_rows tb r']> tbs) t w'.
Proof.
  intros Htid Hl Hrows Hlog Hw tid' tb' row' [[<- <-]|[Hne Ht']]%lookup_insert_Some; simpl.
  - destruct (decide (row' = row)) as [->|Hr]; [done|]. rewrite Hrows, Hlog by tauto. by apply Hl.
  - rewrite Hlog by naive_solver. by apply Hl.
Qed.

(** The new chain of the row bears no mark of a transaction the old one did not. *)
Definition fewer_marks (o o' : option (list Version)) : Prop :=
  ∀ t, untouched t o → untouched t o'.

Lemma undo_row_ok s tid tb row r' ixs t ks :
  body_ok (set_indexes ixs (put_table tid (with_rows tb r') s)) →
  tables s !! tid = Some tb → written t ks (rows tb !! row) → ks ≠ [] →
  (∀ row', row' ≠ row → r' !! row' = rows tb !! row') →
  fewer_marks (rows tb !! row) (r' !! row) →
  erase_row t (r' !! row) = erase_row t (rows tb !! row) →
  undone t s (set_indexes ixs (put_table tid (with_rows tb r') s)).
Proof.
  intros Hb Htid Hw Hks Hrows Hfew Her. split; [done|done|..]; simpl.
  - intros tid' Hn. rewrite lookup_insert_ne; [done|]. by intros ->; simplify_eq.
  - intros tid' tb' Ht'. destruct (decide (tid' = tid)) as [->|Hne].
    + rewrite Htid in Ht'. injection Ht' as <-. exists (with_rows tb r'). rewrite lookup_insert_eq. split; [done|].
      split; [by split|]. intros row'. simpl.
      destruct (decide (row' = row)) as [->|Hr]; [done|by rewrite Hrows].
    + exists tb'. rewrite lookup_insert_ne by done. by split.
  - intros t' w Hne Hl. apply (log_change _ _ tb row _ _ w); [done..|].
    assert (Hn : row_log tid row w = []).
    { eapply written_exclusive; [exact Hw| |done|by apply not_eq_sym].
      by apply Hl. }
    rewrite Hn. constructor. apply Hfew, written_nil_inv. rewrite <- Hn. by apply Hl.
Qed.

Lemma entry_kind_Some tid row e k :
  entry_kind tid row e = Some k →
  e = match k with KInsert => UInsert tid row | KUpdate => UUpdate tid row | KDelete => UDelete tid row end.
Proof.
  destruct e; simpl; (destruct (decide _) as [[-> ->]|]; [|done]); by intros [= <-].
Qed.

Lemma row_log_other tid row tid' row' w e k :
  entry_kind tid row e = Some k → ¬ (tid' = tid ∧ row' = row) →
  row_log tid' row' (w ++ [e]) = row_log tid' row' w.
Proof.
  intros ->%entry_kind_Some Hne. rewrite row_log_snoc.
  destruct k; simpl; rewrite decide_False by naive_solver; by rewrite app_nil_r.
Qed.

Lemma log_cut tbs tid tb row r' t w e k :
  tbs !! tid = Some tb → log_ok tbs t (w ++ [e]) → entry_kind tid row e = Some k →
  (∀ row', row' ≠ row → r' !! row' = rows tb !! row') →
  written t (row_log tid row w) (r' !! row) →
  log_ok (<[tid := with_rows tb r']> tbs) t w.
Proof.
  intros Htid Hl Hk Hrows Hw. apply (log_change _ _ tb row _ _ (w ++ [e])); [done..| |done].
  intros tid' row' Hne. symmetry. by eapply row_log_other.
Qed.

(** Undoing a write on a table that has been dropped. *)
Lemma log_cut_dropped tbs t w e :
  tbs !! entry_table e = None → log_ok tbs t (w ++ [e]) → log_ok tbs t w.
Proof.
  intros Hn Hl tid tb row Htid. specialize (Hl tid tb row Htid). rewrite row_log_snoc in Hl.
  destruct (entry_kind tid row e) as [k|] eqn:Hk; [|by rewrite app_nil_r in Hl].
  apply entry_kind_Some in Hk as ->. destruct k; simpl in Hn; congruence.
Qed.

Lemma set_tables_id s : set_tables (tables s) (set_indexes (indexes s) s) = s.
Proof. by destruct s. Qed.

Lemma undone_refl t s : body_ok s → undone t s s.
Proof.
  intros Hb. split; [done|by rewrite set_tables_id|done| |done].
  intros tid tb Htid. exists tb. by split.
Qed.

Lemma undone_trans t s1 s2 s3 : undone t s1 s2 → undone t s2 s3 → undone t s1 s3.
Proof.
  intros [B1 F1 N1 T1 O1] [B2 F2 N2 T2 O2]. split; [done|..].
  - rewrite F2, F1. by destruct s1, s2, s3.
  - eauto.
  - intros tid tb Htid. destruct (T1 _ _ Htid) as (tb1 & Ht1 & [] & He1).
    destruct (T2 _ _ Ht1) as (tb2 & Ht2 & [] & He2). exists tb2. split; [done|].
    split; [split; congruence|]. intros row. by rewrite He2, He1.
  - eauto.
Qed.

Lemma fewer_marks_none o : fewer_marks o None.
Proof. intros t _ vs v [=]. Qed.

(** Taking a mark off, or a version, leaves the others' marks. *)
Lemma fewer_marks_undo vs v x l :
  v_xmax v = None → fewer_marks (Some (vs ++ set_xmax x v :: l)) (Some (vs ++ [v])).
Proof.
  intros Hx t Hu us u [= <-] Hin Hm.
  apply elem_of_app in Hin as [Hin|Hin].
  - apply (Hu _ u eq_refl); [set_solver|done].
  - apply list_elem_of_singleton in Hin as ->. apply (Hu _ (set_xmax x v) eq_refl); [set_solver|].
    destruct Hm as [Hm|Hm]; [by left|congruence].
Qed.

Lemma row_entries_undo o row vs v x :
  row_entries o row (vs ++ [set_xmax x v]) = row_entries o row (vs ++ [v]).
Proof. apply row_entries_same. rewrite !fmap_app. done. Qed.

Lemma row_entries_last o row vs v w :
  row_entries o row (vs ++ [v; w]) ≡ₚ entry_of o row w :: row_entries o row (vs ++ [v]).
Proof.
  assert (Hs : vs ++ [v; w] = (vs ++ [v]) ++ [w]) by (by rewrite <- app_assoc).
  rewrite Hs. unfold row_entries. rewrite fmap_app. by rewrite Permutation_app_comm.
Qed.

Lemma undo_insert_step s t w tid tb row :
  body_ok s → tables s !! tid = Some tb → log_ok (tables s) t (w ++ [UInsert tid row]) →
  ∃ s', undo t (UInsert tid row) s = (Ok (), s') ∧ undone t s s' ∧ log_ok (tables s') t w.
Proof.
  intros Hb Htid Hl. assert (Hk : entry_kind tid row (UInsert tid row) = Some KInsert)
    by (simpl; by rewrite decide_True).
  pose proof (Hl tid tb row Htid) as Hw. rewrite row_log_snoc, Hk in Hw.
  pose proof Hw as Hw'. apply written_snoc_insert in Hw' as (Hnil & d & n & Hrow).
  pose proof (proj1 (bo_tables _ Hb _ _ Htid)) as Hwf.
  assert (Hfit : Forall (λ rv : RowId * Version, row_fits (shape tb) (v_data rv.2))
    [(row, mkVersion t None d n)]).
  { pose proof (ch_fits _ _ (tw_chains _ Hwf _ _ Hrow)) as Hf. apply Forall_cons in Hf as [Hf _].
    by constructor. }
  destruct (discard_ok s tid tb (delete row (rows tb)) [(row, mkVersion t None d n)] Hb Htid)
    as (ixs & Hrm & Hb'); [by apply table_wf_delete|intros o; exact (entries_of_lookup o _ _ _ Hrow)|done|].
  eexists. split; [|split].
  - cbn [undo]. rewrite Htid. unfold remove_row. rewrite Hrow. unfold remove_entries. simpl.
    rewrite lookup_insert_eq. exact Hrm.
  - eapply undo_row_ok; [exact Hb'|done|exact Hw|by destruct (row_log tid row w)|..].
    + intros row' Hne. by rewrite lookup_delete_ne.
    + rewrite lookup_delete_eq. apply fewer_marks_none.
    + rewrite lookup_delete_eq, Hrow. simpl. by rewrite erase_insert.
  - simpl. eapply log_cut; [done..| |].
    + intros row' Hne. by rewrite lookup_delete_ne.
    + rewrite Hnil, lookup_delete_eq. constructor. intros vs v [=].
Qed.

Lemma undo_update_step s t w tid tb row :
  body_ok s → tables s !! tid = Some tb → log_ok (tables s) t (w ++ [UUpdate tid row]) →
  ∃ s', undo t (UUpdate tid row) s = (Ok (), s') ∧ undone t s s' ∧ log_ok (tables s') t w.
Proof.
  intros Hb Htid Hl. assert (Hk : entry_kind tid row (UUpdate tid row) = Some KUpdate)
    by (simpl; by rewrite decide_True).
  pose proof (Hl tid tb row Htid) as Hw. rewrite row_log_snoc, Hk in Hw.
  pose proof Hw as Hw'. apply written_snoc_update in Hw' as (vs & v & d & n & Hrow & Hx & Hbefore).
  pose proof (proj1 (bo_tables _ Hb _ _ Htid)) as Hwf.
  pose proof (tw_chains _ Hwf _ _ Hrow) as Hch.
  destruct (undo_update_chain t vs v d n Hx) as (Htail & Hlast & Hpop).
  assert (Hprev : chain_ok tb (vs ++ [v])).
  { apply chain_pop in Hch. apply (chain_mark _ _ _ None) in Hch. by rewrite set_xmax_undo in Hch. }
  set (r' := <[row := vs ++ [v]]> (rows tb)).
  destruct (discard_ok s tid tb r' [(row, mkVersion t None d n)] Hb Htid) as (ixs & Hrm & Hb').
  - apply table_wf_set; [done|by eexists|done].
  - intros o. unfold r'. rewrite (entries_of_lookup o _ _ _ Hrow), entries_of_insert.
    rewrite <- (row_entries_undo o row vs v (Some t)). by rewrite row_entries_last.
  - pose proof (ch_fits _ _ Hch) as Hf. rewrite Forall_forall in Hf. constructor; [|constructor].
    apply Hf. set_solver.
  - eexists. split; [|split].
    + cbn [undo]. rewrite Htid. unfold undo_update. rewrite Hrow, Htail, Hlast, Hpop.
      unfold remove_entries. simpl. rewrite lookup_insert_eq. exact Hrm.
    + eapply undo_row_ok; [exact Hb'|done|exact Hw|by destruct (row_log tid row w)|..].
      * intros row' Hne. unfold r'. by rewrite lookup_insert_ne.
      * unfold r'. rewrite lookup_insert_eq, Hrow. by apply fewer_marks_undo.
      * unfold r'. rewrite lookup_insert_eq, Hrow. simpl. by rewrite erase_update.
    + simpl. eapply log_cut; [done..| |].
      * intros row' Hne. unfold r'. by rewrite lookup_insert_ne.
      * unfold r'. by rewrite lookup_insert_eq.
Qed.

Lemma undo_delete_step s t w tid tb row :
  body_ok s → tables s !! tid = Some tb → log_ok (tables s) t (w ++ [UDelete tid row]) →
  ∃ s', undo t (UDelete tid row) s = (Ok (), s') ∧ undone t s s' ∧ log_ok (tables s') t w.
Proof.
  intros Hb Htid Hl. assert (Hk : entry_kind tid row (UDelete tid row) = Some KDelete)
    by (simpl; by rewrite decide_True).
  pose proof (Hl tid tb row Htid) as Hw. rewrite row_log_snoc, Hk in Hw.
  pose proof Hw as Hw'. apply written_snoc_delete in Hw' as (vs & v & Hrow & Hx & Hbefore).
  pose proof (proj1 (bo_tables _ Hb _ _ Htid)) as Hwf.
  pose proof (tw_chains _ Hwf _ _ Hrow) as Hch.
  set (r' := <[row := vs ++ [v]]> (rows tb)).
  assert (Hb' : body_ok (put_table tid (with_rows tb r') s)).
  { apply remark_ok; [done..| |].
    - apply table_wf_set; [done|by eexists|].
      apply (chain_mark _ _ _ None) in Hch. by rewrite set_xmax_undo in Hch.
    - intros o. unfold r'. rewrite (entries_of_lookup o _ _ _ Hrow), entries_of_insert.
      by rewrite row_entries_undo. }
  rewrite <- (set_indexes_id (put_table tid (with_rows tb r') s)) in Hb'.
  eexists. split; [|split].
  - cbn [undo]. rewrite Htid. unfold undo_delete. rewrite Hrow, last_snoc.
    rewrite bool_decide_true by done. rewrite alter_last_snoc, set_xmax_undo by done.
    fold r'. rewrite <- (set_indexes_id (put_table tid (with_rows tb r') s)). reflexivity.
  - eapply undo_row_ok; [exact Hb'|done|exact Hw|by destruct (row_log tid row w)|..].
    + intros row' Hne. unfold r'. by rewrite lookup_insert_ne.
    + unfold r'. rewrite lookup_insert_eq, Hrow. by apply (fewer_marks_undo _ _ _ []).
    + unfold r'. rewrite lookup_insert_eq, Hrow. simpl. by rewrite erase_delete.
  - simpl. eapply log_cut; [done..| |].
    + intros row' Hne. unfold r'. by rewrite lookup_insert_ne.
    + unfold r'. by rewrite lookup_insert_eq.
Qed.

Lemma undo_step s t w e :
  body_ok s → log_ok (tables s) t (w ++ [e]) →
  ∃ s', undo t e s = (Ok (), s') ∧ undone t s s' ∧ log_ok (tables s') t w.
Proof.
  intros Hb Hl. destruct (tables s !! entry_table e) as [tb|] eqn:Htid.
  - destruct e; [by eapply undo_insert_step|by eapply undo_update_step|by eapply undo_delete_step].
  - exists s. split; [|split; [by apply undone_refl|by eapply log_cut_dropped]].
    destruct e; simpl in *; by rewrite Htid.
Qed.

(** The loop of [rollback] and of [rollback_to] over the end of a log. *)
Lemma undo_all s t w w' :
  body_ok s → log_ok (tables s) t (w ++ w') →
  ∃ s', for_each (undo t) (reverse w') s = (Ok (), s') ∧ undone t s s' ∧ log_ok (tables s') t w.
Proof.
  revert s. induction w' as [|e w' IH] using rev_ind; intros s Hb Hl.
  { exists s. rewrite app_nil_r in Hl. split; [done|]. split; [by apply undone_refl|done]. }
  rewrite app_assoc in Hl. destruct (undo_step s t (w ++ w') e Hb Hl) as (s1 & Hu & Hs1 & Hl1).
  destruct (IH s1 (un_body _ _ _ Hs1) Hl1) as (s2 & Hr & Hs2 & Hl2). exists s2.
  split; [|split; [by eapply undone_trans|done]].
  rewrite reverse_snoc. simpl. unfold mbind, stateful_bind. by rewrite Hu.
Qed.

(** ** Adding index entries *)

Lemma apply_entries_other ixs planned i :
  i ∉ (λ p : IndexId * nat * IndexEntry, p.1.1) <$> planned →
  apply_entries ixs planned !! i = ixs !! i.
Proof.
  unfold apply_entries. revert ixs. induction planned as [|[[j pos] e] planned IH]; intros ixs Hni; [done|].
  csimpl in Hni. simpl. rewrite IH by set_solver. simpl.
  destruct (ixs !! j); [|done]. rewrite lookup_insert_ne; [done|]. set_solver.
Qed.

Lemma apply_entries_here ixs planned i pos e ix :
  NoDup ((λ p : IndexId * nat * IndexEntry, p.1.1) <$> planned) → (i, pos, e) ∈ planned →
  ixs !! i = Some ix →
  apply_entries ixs planned !! i =
  Some (with_entries ix (insert_at (pos `min` length (ix_entries ix)) e (ix_entries ix))).
Proof.
  revert ixs. induction planned as [|[[j pos'] e'] planned IH]; intros ixs Hnd Hin Hlk;
    [by apply not_elem_of_nil in Hin|].
  csimpl in Hnd. apply NoDup_cons in Hnd as [Hni Hnd].
  change (apply_entries ixs ((j, pos', e') :: planned))
    with (apply_entries (apply_entry ixs (j, pos', e')) planned).
  apply elem_of_cons in Hin as [[= -> -> ->]|Hin].
  - rewrite apply_entries_other by done. simpl. rewrite Hlk. by rewrite lookup_insert_eq.
  - apply IH; [done..|]. simpl. destruct (ixs !! j); [|done]. rewrite lookup_insert_ne; [done|].
    intros ->. apply Hni. apply list_elem_of_fmap. exists (i, pos, e). done.
Qed.

(** What [plan_entries] answers. *)
Lemma plan_entries_ok t tid row id seq repl s tb planned :
  tables s !! tid = Some tb → plan_entries t tid row id seq repl s = Ok planned →
  ((λ p : IndexId * nat * IndexEntry, p.1.1) <$> planned) = sorted_elements (t_indexes tb) ∧
  ∀ i, i ∈ t_indexes tb → ∃ ix pos, indexes s !! i = Some ix ∧
    extract (ix_order ix) row = Ok (key_of (ix_order ix) row) ∧
    (unique (ix_shape ix) = true →
     has_live_duplicate ix (key_of (ix_order ix) row) (rows tb) (Some t) (status s) repl = Ok false) ∧
    position_for ix (key_of (ix_order ix) row) id seq = Ok pos ∧
    (i, pos, mkIndexEntry (key_of (ix_order ix) row) id seq) ∈ planned.
Proof.
  intros Htid. unfold plan_entries, table. rewrite Htid. simpl. rewrite try_map_Ok.
  assert (Hone : ∀ i p, plan_one t tid row id seq repl s tb i = Ok p →
    ∃ ix pos, indexes s !! i = Some ix ∧
      extract (ix_order ix) row = Ok (key_of (ix_order ix) row) ∧
      (unique (ix_shape ix) = true → has_live_duplicate ix (key_of (ix_order ix) row) (rows tb)
         (Some t) (status s) repl = Ok false) ∧
      position_for ix (key_of (ix_order ix) row) id seq = Ok pos ∧
      p = (i, pos, mkIndexEntry (key_of (ix_order ix) row) id seq)).
  { intros i p. unfold plan_one. destruct (indexes s !! i) as [ix|]; [|done].
    intros (key & Hk & (dup & Hd & Hp)%result_bind_Ok)%result_bind_Ok.
    destruct dup; [done|]. apply result_bind_Ok in Hp as (pos & Hpos & [= <-]).
    assert (key_of (ix_order ix) row = key) as Hkey by (unfold key_of; by rewrite Hk).
    exists ix, pos. rewrite Hkey. split; [done|]. split; [done|]. split; [|done].
    intros Hun. by rewrite Hun in Hd. }
  intros Hall. split.
  - induction Hall as [|i p ids ps Hp _ IH]; [done|]. csimpl. rewrite IH. f_equal.
    by apply Hone in Hp as (ix & pos & _ & _ & _ & _ & ->).
  - intros i Hi. rewrite <- elem_of_sorted_elements in Hi.
    apply list_elem_of_lookup in Hi as [n Hn].
    destruct (Forall2_lookup_l _ _ _ _ _ Hall Hn) as (p & Hp & Hpl).
    apply Hone in Hpl as (ix & pos & ? & ? & ? & ? & ->). exists ix, pos.
    split_and!; [done..|]. by eapply list_elem_of_lookup_2.
Qed.

(** A new version of [row], with its entries planned before. *)
Lemma add_version_ok s tid tb tb' t v row repl planned :
  body_ok s → tables s !! tid = Some tb → table_wf tb' →
  shape tb' = shape tb → t_indexes tb' = t_indexes tb →
  row_fits (shape tb) (v_data v) → v_seq v = next_seq tb →
  (∀ o, entries_of o (rows tb') ≡ₚ entry_of o row v :: entries_of o (rows tb)) →
  plan_entries t tid (v_data v) row (v_seq v) repl s = Ok planned →
  body_ok (set_indexes (apply_entries (indexes s) planned) (put_table tid tb' s)).
Proof.
  intros [Hts Hti Hix] Htid Hwf' Hsh Hidx Hfit Hseq Hent Hplan.
  destruct (plan_entries_ok _ _ _ _ _ _ _ _ _ Htid Hplan) as [Hids Hpl].
  assert (Hnd : NoDup ((λ p : IndexId * nat * IndexEntry, p.1.1) <$> planned)).
  { rewrite Hids. apply NoDup_sorted_elements. }
  assert (Hout : ∀ i, i ∉ t_indexes tb → apply_entries (indexes s) planned !! i = indexes s !! i).
  { intros i Hi. apply apply_entries_other. by rewrite Hids, elem_of_sorted_elements. }
  assert (Hin : ∀ i ix, i ∈ t_indexes tb → indexes s !! i = Some ix → ix_table ix = tid →
    index_ok tb ix → ∃ ix', apply_entries (indexes s) planned !! i = Some ix' ∧
      ix_table ix' = tid ∧ index_ok tb' ix').
  { intros i ix Hi Hlk Ht Hok. destruct (Hpl i Hi) as (ix2 & pos & Hlk2 & Hk & _ & Hpos & Hmem).
    simplify_eq. pose proof (proj1 (Hts _ _ Htid)) as Hwf.
    pose proof (index_ok_wf _ _ Hwf Hok) as Hiw.
    destruct (insert_entry_ok ix (mkIndexEntry (key_of (ix_order ix) (v_data v)) row (v_seq v)))
      as (pos' & Hpos' & Hle & Hents); [done|by eapply extract_fits; [apply Hok|]| |].
    { intros e He. rewrite (io_entries _ _ Hok), elem_of_entries_of in He.
      destruct He as (row' & vs & u & Hr & Hu & ->). simpl. intros [= _ Hs].
      pose proof (ch_fresh _ _ (tw_chains _ Hwf _ _ Hr)) as Hf. rewrite Forall_forall in Hf.
      specialize (Hf u Hu). simpl in Hf. lia. }
    simpl in Hpos'. rewrite Hpos in Hpos'. injection Hpos' as <-.
    eexists. split; [by eapply apply_entries_here|]. split; [done|].
    rewrite Nat.min_l by done. split; simpl.
    - rewrite Hsh. apply Hok.
    - rewrite insert_at_perm, (io_entries _ _ Hok). symmetry. apply Hent.
    - apply Hents. }
  split; simpl.
  - apply map_Forall_insert_2; [|done]. split; [done|]. by apply (Hts tid tb).
  - intros tid' tb2 i [[<- <-]|[Hne Htid']]%lookup_insert_Some Hi.
    + rewrite Hidx in Hi. destruct (Hti _ _ _ Htid Hi) as (ix & Hlk & Ht & Hok). by eapply Hin.
    + destruct (Hti _ _ _ Htid' Hi) as (ix & Hlk & Ht & Hok). exists ix. split; [|done].
      rewrite Hout; [done|]. intros Hi'. destruct (Hti _ _ _ Htid Hi') as (ix2 & Hlk2 & Ht2 & _).
      congruence.
  - intros i ix' Hlk'. destruct (decide (i ∈ t_indexes tb)) as [Hi|Hi].
    + destruct (Hti _ _ _ Htid Hi) as (ix & Hlk & Ht & Hok).
      destruct (Hin _ _ Hi Hlk Ht Hok) as (ix2 & Hlk2 & Ht2 & _). simplify_eq.
      split; [by apply (Hix i ix)|]. exists tb'. rewrite Ht2, lookup_insert_eq. by rewrite Hidx.
    + rewrite Hout in Hlk' by done. destruct (Hix _ _ Hlk') as (Hlt & tb2 & Htb2 & Hi').
      split; [done|]. destruct (decide (ix_table ix' = tid)) as [He|Hne].
      * rewrite He in Htb2. congruence.
      * exists tb2. rewrite lookup_insert_ne; done.
Qed.
End storage_facts.
