(* ===== verification/StorageOps.v ===== *)
(** * The operations of the storage

    Each operation of [MemoryStorage.v] keeps [storage_ok]; what a write, a rollback and a
    commit do to the chains, to the log and to the fate of transactions. *)

From S2P Require Import Prelude Values Errors Snapshot Order CollationFacts Compare KeyOrder.
From S2P Require Import Table Index IndexFacts MemoryStorage StorageInv StorageFacts.

Section storage_ops.

(** ** The registry *)

Lemma status_put t st s t' :
  status (put_txn t st s) t' = if decide (t' = t) then ts_status st else status s t'.
Proof.
  unfold status, status_in. simpl. destruct (decide (t' = t)) as [->|Hne];
    [by rewrite lookup_insert_eq|by rewrite lookup_insert_ne].
Qed.

Lemma txn_ok_frame s s' t st :
  (ts_status st = InProgress → log_ok (tables s) t (writes st) → log_ok (tables s') t (writes st)) →
  (next_table_id s ≤ next_table_id s')%N → (next_savepoint_id s ≤ next_savepoint_id s')%N →
  txn_ok s t st → txn_ok s' t st.
Proof.
  intros Hl Ht Hp [H1 H2 H3 H4 H5]. split; [auto|done| |done|].
  - eapply Forall_impl; [exact H3|]. simpl. lia.
  - eapply Forall_impl; [exact H5|]. simpl. intros p [? ?]. split; [lia|done].
Qed.

Lemma body_ok_put_txn t st s : body_ok s → body_ok (put_txn t st s).
Proof. intros [Hts Hti Hix]. split; done. Qed.

Lemma put_txn_ok s t st :
  storage_ok s → txn_ok s t st → (ts_status st = Aborted → unmarked (tables s) t) →
  storage_ok (put_txn t st s).
Proof.
  intros [Hb Htx Hab] Hst Hm. split.
  - by apply body_ok_put_txn.
  - simpl. apply map_Forall_insert_2; [by destruct Hst|]. intros t' st' Ht'.
    by destruct (Htx t' st' Ht').
  - intros t'. rewrite status_put. destruct (decide (t' = t)) as [->|]; [done|]. apply Hab.
Qed.

Lemma txn_ok_finished s t fate : fate ≠ InProgress → txn_ok s t (mkTxnState fate [] []).
Proof. intros Hf. split; simpl; [done|done|constructor..]. Qed.

Lemma txn_ok_in_progress s t : unmarked (tables s) t → txn_ok s t TxnState_in_progress.
Proof. intros Hu. split; simpl; [intros _; by apply log_ok_nil|done|constructor..]. Qed.

Lemma is_finished_spec st : is_finished st = true ↔ ts_status st ≠ InProgress.
Proof. unfold is_finished. rewrite negb_true_iff. apply bool_decide_eq_false. Qed.

Lemma not_finished_spec st : is_finished st = false ↔ ts_status st = InProgress.
Proof. unfold is_finished. rewrite negb_false_iff. apply bool_decide_eq_true. Qed.

(** [writing_txn] registers a new transaction and refuses a finished one. *)
Lemma writing_txn_ok s t r s' :
  storage_ok s → enrolled s t → writing_txn t s = (r, s') →
  match r with
  | Ok st => storage_ok s' ∧ s' = put_txn t st s ∧ txns s' !! t = Some st ∧
      ts_status st = InProgress ∧ st = default TxnState_in_progress (txns s !! t)
  | Err _ => s' = s ∧ ∃ st, txns s !! t = Some st ∧ ts_status st ≠ InProgress
  end.
Proof.
  intros Hok Hen. unfold writing_txn.
  destruct (txns s !! t) as [st|] eqn:Ht; simpl.
  - assert (Hput : put_txn t st s = s).
    { unfold put_txn. rewrite insert_id by done. by destruct s. }
    rewrite Hput. destruct (is_finished st) eqn:Hf; intros [= <- <-].
    + split; [done|]. exists st. by rewrite is_finished_spec in Hf.
    + split; [done|]. split; [done|]. split; [done|]. by rewrite not_finished_spec in Hf.
  - unfold is_finished. simpl. intros [= <- <-].
    destruct Hen as [[st Hst]|Hu]; [congruence|]. split; [|simpl; by rewrite lookup_insert_eq].
    by apply put_txn_ok; [|apply txn_ok_in_progress|].
Qed.

(** ** Ending a transaction *)

Lemma commit_ok s t r s' :
  storage_ok s → commit t s = (r, s') →
  storage_ok s' ∧
  match r with
  | Ok _ => s' = put_txn t (mkTxnState Committed [] []) s ∧
      (∀ st, txns s !! t = Some st → ts_status st = InProgress)
  | Err _ => s' = s ∧ ∃ st, txns s !! t = Some st ∧ ts_status st ≠ InProgress
  end.
Proof.
  intros Hok. unfold commit, mbind, stateful_bind, finish_txn.
  destruct (txns s !! t) as [st|] eqn:Ht; [destruct (is_finished st) eqn:Hf|]; intros [= <- <-].
  - split; [done|]. split; [done|]. exists st. by rewrite is_finished_spec in Hf.
  - split; [by apply put_txn_ok; [|apply txn_ok_finished|]|]. split; [done|].
    intros st' [= <-]. by rewrite not_finished_spec in Hf.
  - split; [by apply put_txn_ok; [|apply txn_ok_finished|]|]. split; [done|]. done.
Qed.

(** [undone] changes neither the registry nor the counters. *)
Lemma undone_fields t s s' :
  undone t s s' → databases s' = databases s ∧ txns s' = txns s ∧
    next_table_id s' = next_table_id s ∧ next_index_id s' = next_index_id s ∧
    next_savepoint_id s' = next_savepoint_id s ∧ next_db_id s' = next_db_id s.
Proof. intros Hu. pose proof (un_frame _ _ _ Hu) as Hf. rewrite Hf. done. Qed.

(** The registry after the writes of [t] have been taken back. *)
Lemma undone_txns_ok t s s' :
  undone t s s' → (∀ t' st, t' ≠ t → txns s !! t' = Some st → txn_ok s t' st) →
  ∀ t' st, t' ≠ t → txns s' !! t' = Some st → txn_ok s' t' st.
Proof.
  intros Hu Htx t' st Hne Ht'. destruct (undone_fields _ _ _ Hu) as (_ & Hx & Hn & _ & Hp & _).
  rewrite Hx in Ht'. apply (txn_ok_frame s s'); [|by rewrite Hn|by rewrite Hp|by apply Htx].
  intros _. by apply (un_others _ _ _ Hu).
Qed.

Lemma rollback_ok s t r s' :
  storage_ok s → enrolled s t → rollback t s = (r, s') →
  match r with
  | Ok _ => storage_ok s' ∧ undone t (put_txn t (mkTxnState Aborted [] []) s) s' ∧
      unmarked (tables s') t ∧ (∀ st, txns s !! t = Some st → ts_status st = InProgress)
  | Err _ => s' = s ∧ ∃ st, txns s !! t = Some st ∧ ts_status st ≠ InProgress
  end.
Proof.
  intros Hok Hen. unfold rollback, mbind, stateful_bind. destruct (finish_txn t Aborted s) as [fr s1] eqn:Hfin.
  assert (Hcase : (∃ e st, fr = Err e ∧ s1 = s ∧ txns s !! t = Some st ∧ ts_status st ≠ InProgress) ∨
    (∃ w, fr = Ok w ∧ s1 = put_txn t (mkTxnState Aborted [] []) s ∧ log_ok (tables s) t w ∧
       (∀ st, txns s !! t = Some st → ts_status st = InProgress))).
  { revert Hfin. unfold finish_txn. destruct (txns s !! t) as [st|] eqn:Ht;
      [destruct (is_finished st) eqn:Hf|]; intros [= <- <-].
    - left. rewrite is_finished_spec in Hf. eauto 10.
    - right. rewrite not_finished_spec in Hf. exists (writes st). split_and!; [done..| |].
      + apply (tx_log _ _ _ (so_txns _ Hok _ _ Ht)), Hf.
      + by intros st' [= <-].
    - right. exists []. split_and!; [done..| |done]. destruct Hen as [[st Hst]|Hu]; [congruence|].
      by apply log_ok_nil. }
  destruct Hcase as [(e & st & -> & -> & Ht & Hf)|(w & -> & -> & Hl & Hfr)].
  { intros [= <- <-]. eauto. }
  destruct (undo_all (put_txn t (mkTxnState Aborted [] []) s) t [] w) as (s2 & Hloop & Hu & Hl2).
  { by apply body_ok_put_txn, Hok. }
  { done. }
  rewrite Hloop. intros [= <- <-]. apply log_ok_nil in Hl2. split; [|done].
  destruct (undone_fields _ _ _ Hu) as (_ & Hx & _). split; [apply Hu|..].
  - intros t' st' Ht'. destruct (decide (t' = t)) as [->|Hne].
    + rewrite Hx in Ht'. simpl in Ht'. rewrite lookup_insert_eq in Ht'. injection Ht' as <-.
      by apply txn_ok_finished.
    + eapply (undone_txns_ok _ _ _ Hu); [|done..]. intros t2 st2 Hne2. simpl.
      rewrite lookup_insert_ne by done. intros Ht2. by destruct (so_txns _ Hok _ _ Ht2).
  - intros t' Hab. destruct (decide (t' = t)) as [->|Hne]; [done|].
    apply log_ok_nil, (un_others _ _ _ Hu); [done|]. apply log_ok_nil, (so_aborted _ Hok).
    revert Hab. unfold status, status_in. rewrite Hx. simpl. by rewrite lookup_insert_ne.
Qed.

(** ** Savepoints *)

Lemma savepoint_ok s t r s' :
  storage_ok s → enrolled s t → savepoint t s = (r, s') → storage_ok s' ∧ tables s' = tables s.
Proof.
  intros Hok Hen. unfold savepoint, mbind, stateful_bind.
  destruct (writing_txn t s) as [wr s1] eqn:Hwt.
  pose proof (writing_txn_ok _ _ _ _ Hok Hen Hwt) as Hw.
  destruct wr as [st|e]; [|destruct Hw as [-> _]; by intros [= <- <-]].
  destruct Hw as (Hok1 & -> & Ht & Hst & _). unfold push_savepoint. simpl.
  destruct (checked_succ u64_max (next_savepoint_id s)) as [next|] eqn:Hn; intros [= <- <-]; [|done].
  apply checked_succ_Some in Hn as [-> Hlt]. split; [|done]. split.
  - destruct (so_body _ Hok1) as [? ? ?]. by split.
  - intros t' st' Ht'. simpl in Ht'. rewrite insert_insert_eq in Ht'.
    apply lookup_insert_Some in Ht' as [[<- <-]|[Hne Ht']].
    + destruct (so_txns _ Hok1 _ _ Ht) as [H1 H2 H3 H4 H5]. simpl in H5. split; simpl; [done|by intros ?|done|..].
      * apply StronglySorted_app. split_and!; [|done|repeat constructor].
        rewrite Forall_forall in H5. intros a b Ha ->%list_elem_of_singleton. simpl.
        destruct (H5 a Ha). lia.
      * apply Forall_app. split; [eapply Forall_impl; [exact H5|]; simpl; intros ? []; lia|].
        constructor; [simpl; lia|constructor].
    + apply (txn_ok_frame s); [done|simpl; lia|simpl; lia|]. by apply (so_txns _ Hok).
  - intros t' Hab. apply (so_aborted _ Hok). revert Hab. unfold status, status_in. simpl.
    rewrite insert_insert_eq. destruct (decide (t' = t)) as [->|Hne].
    + rewrite lookup_insert_eq. simpl. by rewrite Hst.
    + by rewrite lookup_insert_ne.
Qed.

(** What [rollback_to] keeps of the log. *)
Lemma cut_log_ok s t sp undone_log st' :
  cut_log t sp s = Ok (undone_log, st') →
  ∃ st pos mark, txns s !! t = Some st ∧ ts_status st = InProgress ∧
    savepoints st !! pos = Some (sp, mark) ∧ mark ≤ length (writes st) ∧
    undone_log = drop mark (writes st) ∧
    st' = mkTxnState (ts_status st) (take mark (writes st)) (take (S pos) (savepoints st)).
Proof.
  unfold cut_log. destruct (txns s !! t) as [st|]; [|done].
  destruct (is_finished st) eqn:Hf; [done|]. rewrite not_finished_spec in Hf.
  destruct (list_find (λ p, p.1 = sp) (savepoints st)) as [[pos [sp' mark]]|] eqn:Hfind; [|done].
  apply list_find_Some in Hfind as (Hp & Hsp & _). simpl in Hsp. subst sp'.
  case_bool_decide as Hm; [done|]. intros [= <- <-]. exists st, pos, mark.
  split_and!; try done. lia.
Qed.

(** A savepoint of a well-formed storage never points past the log. *)
Lemma cut_log_fails s t sp e :
  storage_ok s → cut_log t sp s = Err e →
  e = from_internal (Bug [Lit "unknown transaction "; Num t; Lit " for savepoint "; Num sp]) ∨
  (∃ st, txns s !! t = Some st ∧ ts_status st ≠ InProgress ∧ e = already t (ts_status st)) ∨
  (∃ st, txns s !! t = Some st ∧ sp ∉ (savepoints st).*1 ∧
     e = from_internal (Bug [Lit "savepoint "; Num sp;
           Lit " is unknown, invalidated or not owned by transaction "; Num t])).
Proof.
  intros Hok. unfold cut_log. destruct (txns s !! t) as [st|] eqn:Ht; [|intros [= <-]; by left].
  destruct (is_finished st) eqn:Hf.
  { intros [= <-]. right. left. exists st. by rewrite is_finished_spec in Hf. }
  destruct (list_find (λ p, p.1 = sp) (savepoints st)) as [[pos [sp' mark]]|] eqn:Hfind.
  - case_bool_decide as Hm; [|done]. exfalso. apply list_find_Some in Hfind as (Hp & _ & _).
    pose proof (tx_marks _ _ _ (so_txns _ Hok _ _ Ht)) as Hmk. rewrite Forall_forall in Hmk.
    destruct (Hmk (sp', mark)) as [_ Hle]; [by eapply list_elem_of_lookup_2|]. simpl in Hle. lia.
  - intros [= <-]. right. right. exists st. split; [done|]. split; [|done].
    apply list_find_None in Hfind. rewrite Forall_forall in Hfind.
    intros ([sp' mark] & -> & Hin)%list_elem_of_fmap. by apply (Hfind _ Hin).
Qed.

Lemma rollback_to_ok s t sp r s' :
  storage_ok s → rollback_to t sp s = (r, s') →
  match r with
  | Ok _ => storage_ok s' ∧ ∃ w st', cut_log t sp s = Ok (w, st') ∧
      undone t (put_txn t st' s) s' ∧ log_ok (tables s') t (writes st')
  | Err e => s' = s ∧ cut_log t sp s = Err e
  end.
Proof.
  intros Hok. unfold rollback_to. destruct (cut_log t sp s) as [[w st']|e] eqn:Hcut;
    [|by intros [= <- <-]].
  pose proof Hcut as Hc. apply cut_log_ok in Hc as (st & pos & mark & Ht & Hst & Hsp & Hmark & -> & Hst').
  pose proof (so_txns _ Hok _ _ Ht) as [H1 H2 H3 H4 H5].
  destruct (undo_all (put_txn t st' s) t (take mark (writes st)) (drop mark (writes st)))
    as (s2 & Hloop & Hu & Hl2).
  { by apply body_ok_put_txn, Hok. }
  { simpl. rewrite take_drop. by apply H1. }
  rewrite Hloop. intros [= <- <-]. destruct (undone_fields _ _ _ Hu) as (_ & Hx & Hn & _ & Hp & _).
  split; [|exists (drop mark (writes st)), st'; subst st'; done]. split; [apply Hu|..].
  - intros t' st2 Ht'. destruct (decide (t' = t)) as [->|Hne].
    + rewrite Hx in Ht'. simpl in Ht'. rewrite lookup_insert_eq in Ht'. injection Ht' as <-.
      subst st'. split; simpl; rewrite ?Hn, ?Hp; [done|by intros ?|..]; simpl.
      * by apply Forall_take.
      * eapply StronglySorted_sublist; [exact H4|apply sublist_take].
      * assert (Hlen : length (take mark (writes st)) = mark) by (rewrite length_take; lia).
        rewrite Hlen. apply Forall_forall. intros p Hin. apply elem_of_take in Hin as (i & Hi & Hlt).
        rewrite Forall_lookup in H5. split; [by apply (H5 _ _ Hi)|].
        destruct (decide (i = pos)) as [->|Hip]; [by simplify_eq|].
        destruct (StronglySorted_lookup _ _ _ _ _ _ H4 Hi Hsp ltac:(lia)) as [_ Hle]. done.
    + eapply (undone_txns_ok _ _ _ Hu); [|done..]. intros t2 st3 Hne2. simpl.
      rewrite lookup_insert_ne by done. intros Ht2. by destruct (so_txns _ Hok _ _ Ht2).
  - intros t' Hab. destruct (decide (t' = t)) as [->|Hne].
    + revert Hab. unfold status, status_in. rewrite Hx. simpl. rewrite lookup_insert_eq.
      subst st'. simpl. by rewrite Hst.
    + apply log_ok_nil, (un_others _ _ _ Hu); [done|]. apply log_ok_nil, (so_aborted _ Hok).
      revert Hab. unfold status, status_in. rewrite Hx. simpl. by rewrite lookup_insert_ne.
Qed.

(** ** Writes *)

(** A write of [t] on one row: the tables and the log move together. *)
Lemma logged_ok s t st tid tb tb' ixs row vs' e k :
  storage_ok s → txns s !! t = Some st → ts_status st = InProgress →
  tables s !! tid = Some tb → body_ok (set_indexes ixs (put_table tid tb' s)) →
  rows tb' = <[row := vs']> (rows tb) → entry_kind tid row e = Some k →
  written t (row_log tid row (writes st) ++ [k]) (Some vs') →
  (∀ t' st', t' ≠ t → txns s !! t' = Some st' → ts_status st' = InProgress →
     row_log tid row (writes st') = []) →
  (∀ t', t' ≠ t → untouched t' (rows tb !! row) → untouched t' (Some vs')) →
  storage_ok (log_write t st e (set_indexes ixs (put_table tid tb' s))).
Proof.
  intros Hok Ht Hst Htid Hb Hrows Hk Hw Hfree Hunt.
  assert (Hlk : ∀ row', rows tb' !! row' = if decide (row' = row) then Some vs' else rows tb !! row').
  { intros row'. rewrite Hrows. destruct (decide (row' = row)) as [->|];
      [by rewrite lookup_insert_eq|by rewrite lookup_insert_ne]. }
  assert (Hother : ∀ t' w, t' ≠ t → row_log tid row w = [] → log_ok (tables s) t' w →
    log_ok (<[tid := tb']> (tables s)) t' w).
  { intros t' w Hne Hn Hl tid' tb2 row' [[<- <-]|[_ Ht2]]%lookup_insert_Some; [|by apply Hl].
    rewrite Hlk. destruct (decide (row' = row)) as [->|]; [|by apply Hl].
    rewrite Hn. constructor. apply Hunt; [done|]. apply written_nil_inv. rewrite <- Hn. by apply Hl. }
  assert (Heid : entry_table e = tid) by (apply entry_kind_Some in Hk as ->; by destruct k).
  split.
  - by apply body_ok_put_txn.
  - simpl. intros t' st' [[<- <-]|[Hne Ht']]%lookup_insert_Some.
    + destruct (so_txns _ Hok _ _ Ht) as [H1 H2 H3 H4 H5]. split; simpl; [|done| |done|].
      * intros _ tid' tb2 row' Hlk2. rewrite row_log_snoc.
        apply lookup_insert_Some in Hlk2 as [[<- <-]|[Hne Ht2]].
        -- rewrite Hlk. destruct (decide (row' = row)) as [->|Hr]; [by rewrite Hk|].
           apply entry_kind_Some in Hk as ->. destruct k; simpl; rewrite decide_False by naive_solver;
             rewrite app_nil_r; by apply H1.
        -- apply entry_kind_Some in Hk as ->. destruct k; simpl; rewrite decide_False by naive_solver;
             rewrite app_nil_r; by apply H1.
      * apply Forall_app. split; [done|]. constructor; [|constructor]. rewrite Heid.
        by apply (bo_tables _ Hok tid tb).
      * eapply Forall_impl; [exact H5|]. simpl. intros p [? ?]. rewrite length_app. split; [done|lia].
    + apply (txn_ok_frame s); [|done..|by apply (so_txns _ Hok)]. simpl. intros Hpr Hl.
      apply Hother; [done| |done]. by eapply Hfree.
  - intros t' Hab. simpl. apply log_ok_nil. destruct (decide (t' = t)) as [->|Hne].
    + revert Hab. unfold log_write. rewrite status_put, decide_True by done. simpl. by rewrite Hst.
    + apply Hother; [done|done|]. apply log_ok_nil, (so_aborted _ Hok). revert Hab.
      unfold log_write. rewrite status_put, decide_False by done. done.
Qed.

Lemma table_Ok s tid tb : table s tid = Ok tb ↔ tables s !! tid = Some tb.
Proof. unfold table. destruct (tables s !! tid); naive_solver. Qed.

(** Nobody else has an unfinished write on a row [check_current] accepts. *)
Lemma check_current_ok s t tid id :
  check_current t tid id s = Ok () →
  ∃ tb vs v, tables s !! tid = Some tb ∧ rows tb !! id = Some (vs ++ [v]) ∧ v_xmax v = None ∧
    (v_xmin v = t ∨ status s (v_xmin v) = Committed).
Proof.
  unfold check_current. intros (tb & Htid%table_Ok & Hc)%result_bind_Ok.
  unfold latest in Hc. destruct (rows tb !! id) as [vs|] eqn:Hr; [|done]. simpl in Hc.
  destruct (last vs) as [v|] eqn:Hl; [|done]. apply last_Some in Hl as [us ->].
  destruct (v_xmax v) eqn:Hx; [done|]. exists tb, us, v. split_and!; [done..|].
  destruct (decide (v_xmin v = t)) as [|Hne]; [by left|].
  destruct (decide (status s (v_xmin v) = Committed)) as [|Hnc]; [by right|].
  rewrite !bool_decide_false in Hc by done. done.
Qed.

Lemma current_is_free s t tid tb id vs v t' st' :
  storage_ok s → tables s !! tid = Some tb → rows tb !! id = Some (vs ++ [v]) → v_xmax v = None →
  (v_xmin v = t ∨ status s (v_xmin v) = Committed) →
  t' ≠ t → txns s !! t' = Some st' → ts_status st' = InProgress → row_log tid id (writes st') = [].
Proof.
  intros Hok Htid Hr Hx Hm Hne Ht' Hst'.
  pose proof (tx_log _ _ _ (so_txns _ Hok _ _ Ht') Hst' tid tb id Htid) as Hw.
  destruct (row_log tid id (writes st')) as [|k ks]; [done|exfalso].
  destruct (written_last _ _ _ Hw) as (us & u & Hu & Hmark); [done|].
  rewrite Hr in Hu. injection Hu as [-> ->]%app_inj_tail.
  destruct Hmark as [Hmark|[_ Hmark]]; [congruence|]. destruct Hm as [Hm|Hm]; [congruence|].
  revert Hm. unfold status, status_in. rewrite Hmark, Ht', Hst'. done.
Qed.

Lemma untouched_update t t' vs v d n :
  t' ≠ t → untouched t' (Some (vs ++ [v])) →
  untouched t' (Some (vs ++ [set_xmax (Some t) v; mkVersion t None d n])).
Proof.
  intros Hne Hu us u [= <-] Hin Hm. apply elem_of_app in Hin as [Hin|Hin].
  - apply (Hu _ u eq_refl); [set_solver|done].
  - apply elem_of_cons in Hin as [->| ->%list_elem_of_singleton].
    + apply (Hu _ v eq_refl); [set_solver|]. destruct Hm as [Hm|Hm]; [by left|].
      simpl in Hm. congruence.
    + destruct Hm as [Hm|Hm]; simpl in Hm; congruence.
Qed.

Lemma untouched_delete t t' vs v :
  t' ≠ t → untouched t' (Some (vs ++ [v])) → untouched t' (Some (vs ++ [set_xmax (Some t) v])).
Proof.
  intros Hne Hu us u [= <-] Hin Hm. apply elem_of_app in Hin as [Hin|Hin].
  - apply (Hu _ u eq_refl); [set_solver|done].
  - apply list_elem_of_singleton in Hin as ->. apply (Hu _ v eq_refl); [set_solver|].
    destruct Hm as [Hm|Hm]; [by left|]. simpl in Hm. congruence.
Qed.

(** What a write has done when it answers [Ok]: the state before it ([s1], where the
    transaction is registered), the chain it leaves and the entry it logs. *)
Record wrote (t : TxnId) (tid : TableId) (row : RowId) (e : UndoEntry) (vs' : list Version)
    (s s' : Inner) : Prop := {
  wr_ok : storage_ok s';
  wr_tables : ∃ tb tb', tables s !! tid = Some tb ∧ tables s' = <[tid := tb']> (tables s) ∧
    rows tb' = <[row := vs']> (rows tb) ∧ shape tb' = shape tb ∧ clustered tb' = clustered tb ∧
    t_indexes tb' = t_indexes tb ∧ t_db tb' = t_db tb ∧
    erase_row t (Some vs') = erase_row t (rows tb !! row);
  wr_log : ∃ st, st = default TxnState_in_progress (txns s !! t) ∧ ts_status st = InProgress ∧
    txns s' = <[t := mkTxnState InProgress (writes st ++ [e]) (savepoints st)]> (txns s);
}.

Lemma update_ok s t tid id row r s' :
  storage_ok s → enrolled s t →
  (∀ tb, tables s !! tid = Some tb → row_fits (shape tb) row) →
  update t tid id row s = (r, s') →
  match r with
  | Ok _ => ∃ tb vs v, tables s !! tid = Some tb ∧ rows tb !! id = Some (vs ++ [v]) ∧
      v_xmax v = None ∧ (v_xmin v = t ∨ status s (v_xmin v) = Committed) ∧
      wrote t tid id (UUpdate tid id)
        (vs ++ [set_xmax (Some t) v; mkVersion t None row (next_seq tb)]) s s'
  | Err _ => s' = s
  end.
Proof.
  intros Hok Hen Hfit. unfold update, mbind, stateful_bind, reads.
  destruct (check_arity tid row s) as [[]|]; [|by intros [= <- <-]].
  destruct (check_current t tid id s) as [[]|] eqn:Hcur; [|by intros [= <- <-]].
  destruct (check_writable t s) as [[]|]; [|by intros [= <- <-]].
  destruct (check_current_ok _ _ _ _ Hcur) as (tb & vs & v & Htid & Hrow & Hx & Hm).
  rewrite (proj2 (table_Ok s tid tb) Htid).
  destruct (plan_entries t tid row id (peek_seq tb) (Some id) s) as [planned|] eqn:Hplan;
    [|by intros [= <- <-]].
  destruct (writing_txn t s) as [wr s1] eqn:Hwt.
  pose proof (writing_txn_ok _ _ _ _ Hok Hen Hwt) as Hw.
  destruct wr as [st|]; [|destruct Hw as [-> _]; by intros [= <- <-]].
  destruct Hw as (Hok1 & -> & Ht & Hst & Hdef). unfold write_update. simpl. rewrite Htid.
  unfold supersede, new_version. simpl. rewrite Hrow.
  assert (Hne : ∃ a l, vs ++ [v] = a :: l) by (destruct vs; simpl; eauto).
  destruct Hne as (a & l & Hcons). rewrite Hcons, <- Hcons, alter_last_snoc, <- app_assoc. simpl.
  set (vs' := vs ++ [set_xmax (Some t) v; mkVersion t None row (next_seq tb)]).
  intros [= <- <-]. exists tb, vs, v. do 4 (split; [done|]).
  set (tb' := mkTable (t_db tb) (shape tb) (clustered tb) (t_indexes tb) (<[id := vs']> (rows tb))
    (next_row_id tb) (next_seq tb + 1)).
  pose proof (proj1 (bo_tables _ Hok _ _ Htid)) as Hwf.
  assert (Hb : body_ok (set_indexes (apply_entries (indexes s) planned)
    (put_table tid tb' (put_txn t st s)))).
  { apply (body_ok_put_txn t st (set_indexes (apply_entries (indexes s) planned) (put_table tid tb' s))).
    apply (add_version_ok s tid tb tb' t (mkVersion t None row (next_seq tb)) id (Some id));
      [apply Hok|done| |done|done|by apply Hfit|done| |done].
    - destruct Hwf as [Hc Hr Hk]. split; simpl; [..|done].
      + apply map_Forall_insert_2.
        * apply (chain_push tb); [by apply (Hc id)|done|simpl; lia|by apply Hfit].
        * intros r2 vs2 Hr2. apply (chain_ok_tb tb); [done|simpl; lia|by apply (Hc r2)].
      + apply map_Forall_insert_2; [by apply (Hr id _ Hrow)|done].
    - intros o. simpl. rewrite entries_of_insert, (entries_of_lookup o _ _ _ Hrow).
      unfold vs'. by rewrite row_entries_last, row_entries_undo. }
  split.
  - eapply (logged_ok (put_txn t st s) t st tid tb tb' _ id vs' _ KUpdate);
      [exact Hok1|done|done|done|exact Hb|done|simpl; by rewrite decide_True|..].
    + apply written_update; [|done]. rewrite <- Hrow.
      by apply (tx_log _ _ _ (so_txns _ Hok1 _ _ Ht) Hst).
    + intros t' st' Hne' Ht'. simpl in Ht'. rewrite lookup_insert_ne in Ht' by done.
      by apply (current_is_free s t tid tb id vs v t' st').
    + intros t' Hne' Hu. rewrite Hrow in Hu. by apply untouched_update.
  - exists tb, tb'. split_and!; try done. rewrite Hrow. simpl. unfold vs'. by rewrite erase_update.
  - exists st. split; [done|]. split; [done|]. simpl. rewrite insert_insert_eq. by rewrite Hst.
Qed.

Lemma delete_ok s t tid id r s' :
  storage_ok s → enrolled s t → delete_row t tid id s = (r, s') →
  match r with
  | Ok _ => ∃ tb vs v, tables s !! tid = Some tb ∧ rows tb !! id = Some (vs ++ [v]) ∧
      v_xmax v = None ∧ (v_xmin v = t ∨ status s (v_xmin v) = Committed) ∧
      wrote t tid id (UDelete tid id) (vs ++ [set_xmax (Some t) v]) s s'
  | Err _ => s' = s
  end.
Proof.
  intros Hok Hen. unfold delete_row, mbind, stateful_bind, reads.
  destruct (check_current t tid id s) as [[]|] eqn:Hcur; [|by intros [= <- <-]].
  destruct (check_current_ok _ _ _ _ Hcur) as (tb & vs & v & Htid & Hrow & Hx & Hm).
  destruct (writing_txn t s) as [wr s1] eqn:Hwt.
  pose proof (writing_txn_ok _ _ _ _ Hok Hen Hwt) as Hw.
  destruct wr as [st|]; [|destruct Hw as [-> _]; by intros [= <- <-]].
  destruct Hw as (Hok1 & -> & Ht & Hst & Hdef). unfold write_delete. simpl. rewrite Htid.
  unfold supersede. simpl. rewrite Hrow.
  assert (Hne : ∃ a l, vs ++ [v] = a :: l) by (destruct vs; simpl; eauto).
  destruct Hne as (a & l & Hcons). rewrite Hcons, <- Hcons, alter_last_snoc.
  set (vs' := vs ++ [set_xmax (Some t) v]). intros [= <- <-]. exists tb, vs, v. do 4 (split; [done|]).
  pose proof (proj1 (bo_tables _ Hok _ _ Htid)) as Hwf.
  set (tb' := with_rows tb (<[id := vs']> (rows tb))).
  assert (Hb : body_ok (put_table tid tb' (put_txn t st s))).
  { apply remark_ok; [apply Hok1|done| |].
    - apply table_wf_set; [done|by eexists|]. apply chain_mark. by apply (tw_chains _ Hwf id).
    - intros o. rewrite entries_of_insert, (entries_of_lookup o _ _ _ Hrow).
      unfold vs'. by rewrite row_entries_undo. }
  rewrite <- (set_indexes_id (put_table tid tb' (put_txn t st s))) in Hb. split.
  - rewrite <- (set_indexes_id (put_table tid tb' (put_txn t st s))).
    eapply (logged_ok (put_txn t st s) t st tid tb tb' _ id vs' _ KDelete);
      [exact Hok1|done|done|done|exact Hb|done|simpl; by rewrite decide_True|..].
    + apply written_delete; [|done]. rewrite <- Hrow.
      by apply (tx_log _ _ _ (so_txns _ Hok1 _ _ Ht) Hst).
    + intros t' st' Hne' Ht'. simpl in Ht'. rewrite lookup_insert_ne in Ht' by done.
      by apply (current_is_free s t tid tb id vs v t' st').
    + intros t' Hne' Hu. rewrite Hrow in Hu. by apply untouched_delete.
  - exists tb, tb'. split_and!; try done. rewrite Hrow. simpl. unfold vs'. by rewrite erase_delete.
  - exists st. split; [done|]. split; [done|]. simpl. rewrite insert_insert_eq. by rewrite Hst.
Qed.

Lemma insert_ok s t tid row r s' :
  storage_ok s → enrolled s t →
  (∀ tb, tables s !! tid = Some tb → row_fits (shape tb) row) →
  insert t tid row s = (r, s') →
  match r with
  | Ok id => ∃ tb, tables s !! tid = Some tb ∧ id = next_row_id tb ∧ rows tb !! id = None ∧
      wrote t tid id (UInsert tid id) [mkVersion t None row (next_seq tb)] s s'
  | Err _ => s' = s
  end.
Proof.
  intros Hok Hen Hfit. unfold insert, mbind, stateful_bind, reads.
  destruct (check_arity tid row s) as [[]|]; [|by intros [= <- <-]].
  destruct (check_writable t s) as [[]|]; [|by intros [= <- <-]].
  destruct (table s tid) as [tb|] eqn:Htid; [|by intros [= <- <-]]. apply table_Ok in Htid.
  destruct (plan_entries t tid row (peek_row_id tb) (peek_seq tb) None s) as [planned|] eqn:Hplan;
    [|by intros [= <- <-]].
  destruct (writing_txn t s) as [wr s1] eqn:Hwt.
  pose proof (writing_txn_ok _ _ _ _ Hok Hen Hwt) as Hw.
  destruct wr as [st|]; [|destruct Hw as [-> _]; by intros [= <- <-]].
  destruct Hw as (Hok1 & -> & Ht & Hst & Hdef). unfold write_insert. simpl. rewrite Htid.
  unfold table_insert, new_version, peek_row_id. simpl. rewrite bool_decide_true by done. simpl.
  set (id := next_row_id tb). intros [= <- <-].
  pose proof (proj1 (bo_tables _ Hok _ _ Htid)) as Hwf.
  assert (Hnone : rows tb !! id = None).
  { destruct (rows tb !! id) as [vs|] eqn:Hr; [|done].
    pose proof (tw_rows _ Hwf _ _ Hr) as Hlt. unfold id in Hlt. simpl in Hlt. lia. }
  exists tb. do 3 (split; [done|]).
  set (vs' := [mkVersion t None row (next_seq tb)]).
  set (tb' := mkTable (t_db tb) (shape tb) (clustered tb) (t_indexes tb) (<[id := vs']> (rows tb))
    (next_row_id tb + 1) (next_seq tb + 1)).
  assert (Hb : body_ok (set_indexes (apply_entries (indexes s) planned)
    (put_table tid tb' (put_txn t st s)))).
  { apply (body_ok_put_txn t st (set_indexes (apply_entries (indexes s) planned) (put_table tid tb' s))).
    apply (add_version_ok s tid tb tb' t (mkVersion t None row (next_seq tb)) id None);
      [apply Hok|done| |done|done|by apply Hfit|done| |done].
    - destruct Hwf as [Hc Hr Hk]. split; simpl; [..|done].
      + apply map_Forall_insert_2.
        * apply (chain_ok_tb (new_version tb t row).2); [done|simpl; lia|]. by apply chain_new, Hfit.
        * intros r2 vs2 Hr2. apply (chain_ok_tb tb); [done|simpl; lia|by apply (Hc r2)].
      + apply map_Forall_insert_2; [unfold id; lia|]. intros r2 vs2 Hr2.
        specialize (Hr r2 vs2 Hr2). simpl in *. lia.
    - intros o. simpl. rewrite entries_of_insert, (delete_id _ _ Hnone). done. }
  split.
  - eapply (logged_ok (put_txn t st s) t st tid tb tb' _ id vs' _ KInsert);
      [exact Hok1|done|done|done|exact Hb|done|simpl; by rewrite decide_True|..].
    + assert (Hnil : row_log tid id (writes st) = []); [|rewrite Hnil; apply written_insert].
      pose proof (tx_log _ _ _ (so_txns _ Hok1 _ _ Ht) Hst tid tb id Htid) as Hwr.
      destruct (row_log tid id (writes st)) as [|k ks]; [done|exfalso].
      destruct (written_last _ _ _ Hwr) as (us & u & Hu & _); [done|]. congruence.
    + intros t' st' Hne' Ht' Hst'. simpl in Ht'. rewrite lookup_insert_ne in Ht' by done.
      pose proof (tx_log _ _ _ (so_txns _ Hok _ _ Ht') Hst' tid tb id Htid) as Hwr.
      destruct (row_log tid id (writes st')) as [|k ks]; [done|exfalso].
      destruct (written_last _ _ _ Hwr) as (us & u & Hu & _); [done|]. congruence.
    + intros t' Hne' _ us u [= <-] ->%list_elem_of_singleton [Hm|Hm]; simpl in Hm; congruence.
  - exists tb, tb'. split_and!; try done. rewrite Hnone. simpl. unfold vs'. by rewrite erase_insert.
  - exists st. split; [done|]. split; [done|]. simpl. rewrite insert_insert_eq. by rewrite Hst.
Qed.
End storage_ops.
