(* ===== verification/StorageVacuum.v ===== *)
(** * Vacuum

    About [vacuum] of [MemoryStorage.v]: it removes exactly the versions a committed
    transaction older than the horizon has superseded, together with their index entries;
    it never fails, keeps the invariant, and leaves the undo logs meaningful. *)

From S2P Require Import Prelude Values Errors Snapshot Order CollationFacts Compare KeyOrder.
From S2P Require Import Table Index IndexFacts MemoryStorage StorageInv StorageFacts StorageOps.

(** ** Chains with versions taken away *)

(** The chain with the versions [dead] accepts removed; [None] when nothing is left. *)
Definition prune (dead : Version → bool) (o : option (list Version)) : option (list Version) :=
  vs ← o; match filter (λ v, dead v = false) vs with [] => None | l => Some l end.

Lemma elem_of_prune dead o vs v :
  prune dead o = Some vs → v ∈ vs → dead v = false ∧ ∃ us, o = Some us ∧ v ∈ us.
Proof.
  destruct o as [us|]; [|done]. simpl. destruct (filter _ us) as [|a l] eqn:Hf; [done|].
  intros [= <-] Hv. rewrite <- Hf in Hv. apply list_elem_of_filter in Hv as [Hd Hv]. eauto.
Qed.

Lemma prune_untouched dead t o : untouched t o → untouched t (prune dead o).
Proof.
  intros Hu vs v Hp Hv. destruct (elem_of_prune _ _ _ _ Hp Hv) as (_ & us & -> & Hin).
  by eapply Hu.
Qed.

Lemma prune_snoc dead vs l :
  l ≠ [] → Forall (λ v, dead v = false) l →
  prune dead (Some (vs ++ l)) = Some (filter (λ v, dead v = false) vs ++ l).
Proof.
  intros Hne Hl. simpl. rewrite filter_app, (filter_id _ l Hl).
  destruct (filter _ vs) as [|a k]; [by destruct l|done].
Qed.

(** What a transaction has written stays, when its own marks are never dead. *)
Lemma prune_written dead t ks o :
  (∀ v, v_xmax v = None ∨ v_xmax v = Some t → dead v = false) →
  written t ks o → written t ks (prune dead o).
Proof.
  intros Hd Hw. induction Hw as [o Hu|d n|ks vs v d n Hw IH Hx|ks vs v Hw IH Hx].
  - constructor. by apply prune_untouched.
  - simpl. rewrite filter_cons_True by auto. apply written_insert.
  - rewrite prune_snoc in IH by (first [done | repeat constructor; auto]).
    rewrite prune_snoc by (first [done | repeat constructor; auto]). by apply written_update.
  - rewrite prune_snoc in IH by (first [done | repeat constructor; auto]).
    rewrite prune_snoc by (first [done | repeat constructor; auto]). by apply written_delete.
Qed.

Lemma elem_of_pop (vs : list Version) v : v ∈ pop vs → v ∈ vs.
Proof. unfold pop. intros Hv. rewrite <- (take_drop (pred (length vs)) vs). set_solver. Qed.

Lemma chain_filter tb vs (P : Version → Prop) `{∀ v, Decision (P v)} :
  chain_ok tb vs → filter P vs ≠ [] → chain_ok tb (filter P vs).
Proof.
  intros [_ Hsup Hsq Hfr Hft] Hne. split; [done|..].
  - destruct vs as [|v vs _] using rev_ind; [done|]. rewrite pop_snoc in Hsup.
    rewrite Forall_forall in *. intros u Hu. apply Hsup. rewrite filter_app in Hu.
    destruct (decide (P v)) as [Hv|Hv].
    + rewrite filter_cons_True in Hu by done. rewrite pop_snoc in Hu.
      by apply list_elem_of_filter in Hu as [_ Hu].
    + rewrite filter_cons_False in Hu by done. rewrite app_nil_r in Hu.
      apply elem_of_pop in Hu. apply list_elem_of_filter in Hu as [_ Hu].
      done.
  - eapply StronglySorted_sublist; [exact Hsq|]. apply fmap_sublist, sublist_filter.
  - rewrite Forall_forall in *. intros v [_ Hv]%list_elem_of_filter. by apply Hfr.
  - rewrite Forall_forall in *. intros v [_ Hv]%list_elem_of_filter. by apply Hft.
Qed.

(** ** Entries *)

Notation removed_entries o removed := ((λ rv : RowId * Version, entry_of o rv.1 rv.2) <$> removed).

Lemma discard_entries o dead r :
  entries_of o r ≡ₚ removed_entries o (discard dead r).1 ++ entries_of o (discard dead r).2.
Proof.
  unfold entries_of, discard. simpl. rewrite map_to_list_fmap, sorted_entries_perm.
  rewrite list_fmap_bind, fmap_of_bind.
  apply bind_split. intros [row vs]. simpl. unfold row_entries, compose. simpl.
  rewrite <- list_fmap_compose. unfold compose. simpl.
  rewrite <- fmap_app. by rewrite <- filter_partition.
Qed.

Lemma drop_empty_entries o (r : gmap RowId (list Version)) :
  entries_of o (filter (λ iv, iv.2 ≠ []) r) ≡ₚ entries_of o r.
Proof.
  unfold entries_of. induction r as [|row vs r Hr IH] using map_ind.
  { rewrite map_filter_empty. done. }
  destruct (decide (vs = [])) as [->|Hne].
  - rewrite map_filter_insert_False by naive_solver. rewrite delete_id by done.
    rewrite map_to_list_insert by done. simpl. exact IH.
  - rewrite map_filter_insert_True by done. rewrite !map_to_list_insert; [|done|].
    + simpl. by rewrite IH.
    + apply map_lookup_filter_None. by left.
Qed.

Lemma elem_of_discarded dead r row v :
  (row, v) ∈ (discard dead r).1 ↔ ∃ vs, r !! row = Some vs ∧ v ∈ vs ∧ dead v = true.
Proof.
  unfold discard. simpl. rewrite list_elem_of_bind. split.
  - intros ([row' vs] & (u & [= -> ->] & [Hd Hu]%list_elem_of_filter)%list_elem_of_fmap & Hin).
    apply elem_of_sorted_entries in Hin. simpl in *. eauto.
  - intros (vs & Hr & Hv & Hd). exists (row, vs). rewrite elem_of_sorted_entries. split; [|done].
    apply list_elem_of_fmap. exists v. split; [done|]. by apply list_elem_of_filter.
Qed.

(** ** One table *)

Section vacuum.

(** The versions [vacuum] removes from a well-formed storage. *)
Definition dead (horizon : TxnId) (s : Inner) : Version → bool :=
  superseded_below horizon (status s).

(** [tb'] is [tb] with its dead versions removed. *)
Definition vacuumed_table (horizon : TxnId) (s : Inner) (tb tb' : Table) : Prop :=
  same_but_rows tb tb' ∧ ∀ row, rows tb' !! row = prune (dead horizon s) (rows tb !! row).

Definition nobody_aborted (s : Inner) (tb : Table) : Prop :=
  map_Forall (λ _ vs, Forall (λ v, status s (v_xmin v) ≠ Aborted) vs) (rows tb).

Lemma nobody_aborted_ok s tid tb :
  (∀ t, status s t = Aborted → unmarked (tables s) t) → tables s !! tid = Some tb →
  nobody_aborted s tb.
Proof.
  intros Hab Htid row vs Hr. apply Forall_forall. intros v Hv Ha.
  by apply (Hab _ Ha tid tb row Htid vs v Hr Hv); left.
Qed.

(** The two passes of [Table::vacuum] on a row. *)
Lemma table_vacuum_row horizon s tb row :
  nobody_aborted s tb → map_Forall (λ _ vs, vs ≠ []) (rows tb) →
  rows (table_vacuum tb horizon (status s)).2 !! row = prune (dead horizon s) (rows tb !! row).
Proof.
  intros Hab Hne. unfold table_vacuum. simpl. unfold discard. simpl.
  rewrite map_lookup_filter, !lookup_fmap.
  destruct (rows tb !! row) as [vs|] eqn:Hr; [|done]. simpl.
  rewrite (filter_id (λ v, created_by_aborted (status s) v = false)).
  - unfold dead. by destruct (filter _ vs) as [|a l].
  - specialize (Hab _ _ Hr). simpl in Hab. rewrite Forall_forall in *.
    intros v [_ Hv]%list_elem_of_filter. apply bool_decide_eq_false. by apply Hab.
Qed.

Lemma table_vacuum_entries horizon s tb o :
  entries_of o (rows tb) ≡ₚ
  removed_entries o (table_vacuum tb horizon (status s)).1 ++
  entries_of o (rows (table_vacuum tb horizon (status s)).2).
Proof.
  unfold table_vacuum.
  destruct (discard (superseded_below horizon (status s)) (rows tb)) as [rm1 r1] eqn:H1.
  destruct (discard (created_by_aborted (status s)) r1) as [rm2 r2] eqn:H2. simpl.
  pose proof (discard_entries o (superseded_below horizon (status s)) (rows tb)) as P1.
  pose proof (discard_entries o (created_by_aborted (status s)) r1) as P2.
  rewrite H1 in P1. rewrite H2 in P2. simpl in *.
  rewrite drop_empty_entries, P1, P2, fmap_app. by rewrite app_assoc.
Qed.

Lemma table_vacuum_removed horizon s tb row v :
  (row, v) ∈ (table_vacuum tb horizon (status s)).1 → ∃ vs, rows tb !! row = Some vs ∧ v ∈ vs.
Proof.
  unfold table_vacuum.
  destruct (discard (superseded_below horizon (status s)) (rows tb)) as [rm1 r1] eqn:H1.
  destruct (discard (created_by_aborted (status s)) r1) as [rm2 r2] eqn:H2. simpl.
  intros [Hin|Hin]%elem_of_app.
  - assert (Hin' : (row, v) ∈ (discard (superseded_below horizon (status s)) (rows tb)).1)
      by (by rewrite H1).
    apply elem_of_discarded in Hin' as (vs & ? & ? & _). eauto.
  - assert (Hin' : (row, v) ∈ (discard (created_by_aborted (status s)) r1).1) by (by rewrite H2).
    apply elem_of_discarded in Hin' as (vs & Hr & Hv & _).
    unfold discard in H1. injection H1 as _ <-. rewrite lookup_fmap in Hr.
    destruct (rows tb !! row) as [us|]; [|done]. injection Hr as <-.
    apply list_elem_of_filter in Hv as [_ Hv]. eauto.
Qed.

Lemma vacuumed_wf horizon s tb tb' :
  table_wf tb → vacuumed_table horizon s tb tb' → table_wf tb'.
Proof.
  intros [Hc Hr Hk] [[_ Hsh Hcl _ Hid Hsq] Hrows]. split.
  - intros row vs Hlk. rewrite Hrows in Hlk. destruct (rows tb !! row) as [us|] eqn:Hus; [|done].
    simpl in Hlk. destruct (filter _ us) as [|a l] eqn:Hf; [done|]. injection Hlk as <-.
    rewrite <- Hf. apply (chain_ok_tb tb); [done|by rewrite Hsq|].
    apply chain_filter; [by apply (Hc row)|by rewrite Hf].
  - intros row vs Hlk. rewrite Hrows in Hlk. destruct (rows tb !! row) as [us|] eqn:Hus; [|done].
    rewrite Hid. by apply (Hr row us).
  - rewrite Hcl, Hsh. done.
Qed.

Lemma vacuum_table_ok horizon s tid tb :
  body_ok s → tables s !! tid = Some tb → nobody_aborted s tb →
  ∃ ixs tb', vacuum_table horizon tid s = (Ok (), set_indexes ixs (put_table tid tb' s)) ∧
    body_ok (set_indexes ixs (put_table tid tb' s)) ∧ vacuumed_table horizon s tb tb'.
Proof.
  intros Hb Htid Hab. unfold vacuum_table. rewrite Htid.
  pose proof (proj1 (bo_tables _ Hb _ _ Htid)) as Hwf.
  assert (Hne : map_Forall (λ _ vs, vs ≠ []) (rows tb)).
  { intros row vs Hr. by apply (ch_nonempty _ _ (tw_chains _ Hwf _ _ Hr)). }
  pose proof (table_vacuum_row horizon s tb) as Hrow.
  pose proof (table_vacuum_entries horizon s tb) as Hent.
  pose proof (table_vacuum_removed horizon s tb) as Hrem.
  assert (Htb : ∃ r', (table_vacuum tb horizon (status s)).2 = with_rows tb r').
  { unfold table_vacuum. destruct (discard _ _) as [? ?], (discard _ _) as [? ?]. by eexists. }
  destruct Htb as [r' Htb].
  destruct (table_vacuum tb horizon (status s)) as [removed tb'] eqn:Htv. simpl in *. subst tb'.
  assert (Hv : vacuumed_table horizon s tb (with_rows tb r')).
  { split; [by split|]. intros row. by apply Hrow. }
  destruct (discard_ok s tid tb r' removed Hb Htid) as (ixs & Hrm & Hb').
  - by eapply vacuumed_wf.
  - exact Hent.
  - apply Forall_forall. intros [row v] Hin. destruct (Hrem _ _ Hin) as (vs & Hr & Hv').
    pose proof (ch_fits _ _ (tw_chains _ Hwf _ _ Hr)) as Hf. rewrite Forall_forall in Hf.
    by apply Hf.
  - exists ixs, (with_rows tb r'). done.
Qed.

(** ** All the tables *)

(** [s'] is [s] with the tables [ids] vacuumed. *)
Record vacuumed_tables (horizon : TxnId) (ids : list TableId) (s s' : Inner) : Prop := {
  vt_body : body_ok s';
  vt_frame : s' = set_tables (tables s') (set_indexes (indexes s') s);
  vt_other : ∀ tid, tid ∉ ids → tables s' !! tid = tables s !! tid;
  vt_none : ∀ tid, tables s !! tid = None → tables s' !! tid = None;
  vt_done : ∀ tid tb, tid ∈ ids → tables s !! tid = Some tb →
    ∃ tb', tables s' !! tid = Some tb' ∧ vacuumed_table horizon s tb tb';
}.

Lemma vacuum_loop_ok horizon ids s :
  NoDup ids → body_ok s → (∀ tid tb, tables s !! tid = Some tb → nobody_aborted s tb) →
  (∀ tid, tid ∈ ids → is_Some (tables s !! tid)) →
  ∃ s', for_each (vacuum_table horizon) ids s = (Ok (), s') ∧ vacuumed_tables horizon ids s s'.
Proof.
  revert s. induction ids as [|tid ids IH]; intros s Hnd Hb Hab Hin.
  { exists s. split; [done|]. split; [done|by rewrite set_tables_id|done|done|]. set_solver. }
  apply NoDup_cons in Hnd as [Hni Hnd]. destruct (Hin tid) as [tb Htid]; [by left|].
  destruct (vacuum_table_ok horizon s tid tb Hb Htid (Hab _ _ Htid)) as (ixs & tb' & Hrun & Hb' & Hv).
  set (s1 := set_indexes ixs (put_table tid tb' s)) in *.
  assert (Hlk : ∀ tid', tid' ≠ tid → tables s1 !! tid' = tables s !! tid').
  { intros tid' Hne. simpl. by rewrite lookup_insert_ne. }
  assert (Hlk1 : tables s1 !! tid = Some tb') by (simpl; by rewrite lookup_insert_eq).
  destruct (IH s1) as (s2 & Hloop & [B2 F2 O2 N2 D2]).
  - done.
  - done.
  - intros tid' tb2 Ht2. destruct (decide (tid' = tid)) as [->|Hne].
    + rewrite Hlk1 in Ht2. injection Ht2 as <-. destruct Hv as [_ Hrows]. intros row vs Hr.
      rewrite Hrows in Hr. apply Forall_forall. intros v Hin'.
      destruct (elem_of_prune _ _ _ _ Hr Hin') as (_ & us & Hus & Hv').
      specialize (Hab _ _ Htid _ _ Hus). rewrite Forall_forall in Hab. by apply Hab.
    + rewrite Hlk in Ht2 by done. by apply (Hab tid').
  - intros tid' Hin'. rewrite Hlk; [apply Hin; by right|]. by intros ->.
  - exists s2. split; [simpl; unfold mbind, stateful_bind; by rewrite Hrun|]. split; [done|..].
    + rewrite F2. by destruct s.
    + intros tid' Hn. rewrite O2, Hlk by set_solver. done.
    + intros tid' Hn. apply N2. rewrite Hlk; [done|]. by intros ->; simplify_eq.
    + intros tid' tb2 [->|Hin']%elem_of_cons Ht2.
      * rewrite Htid in Ht2. injection Ht2 as <-. exists tb'. rewrite O2 by done. done.
      * assert (tid' ≠ tid) by (by intros ->). apply D2; [done|]. by rewrite Hlk.
Qed.

(** What [vacuum] does: the dead versions are gone from every table, and the finished
    transactions older than the horizon from the registry. *)
Record vacuumed (horizon : TxnId) (s s' : Inner) : Prop := {
  va_ok : storage_ok s';
  va_databases : databases s' = databases s;
  va_next : next_table_id s' = next_table_id s;
  va_txns : txns s' = filter (λ x, is_finished x.2 && (x.1 <? horizon)%N = false) (txns s);
  va_none : ∀ tid, tables s !! tid = None → tables s' !! tid = None;
  va_tables : ∀ tid tb, tables s !! tid = Some tb →
    ∃ tb', tables s' !! tid = Some tb' ∧ vacuumed_table horizon s tb tb';
}.

Lemma dead_spec horizon s v :
  dead horizon s v = true ↔ ∃ x, v_xmax v = Some x ∧ (x < horizon)%N ∧ status s x = Committed.
Proof.
  unfold dead, superseded_below. destruct (v_xmax v) as [x|]; [|naive_solver].
  rewrite andb_true_iff, N.ltb_lt, bool_decide_eq_true. naive_solver.
Qed.

Lemma dead_own horizon s t v :
  status s t ≠ Committed → v_xmax v = None ∨ v_xmax v = Some t → dead horizon s v = false.
Proof.
  intros Ht Hv. apply not_true_iff_false. rewrite dead_spec. intros (x & Hx & _ & Hc).
  destruct Hv; congruence.
Qed.

(** After [vacuum] an unregistered transaction counts as committed: the only ones whose
    fate changes are aborted, and they have left no mark. *)
Lemma status_pruned horizon s s' t :
  txns s' = filter (λ x, is_finished x.2 && (x.1 <? horizon)%N = false) (txns s) →
  status s' t = status s t ∨ (status s t = Aborted ∧ status s' t = Committed).
Proof.
  intros Hx. unfold status, status_in. rewrite Hx, map_lookup_filter.
  destruct (txns s !! t) as [st|]; [|by left]. simpl.
  destruct (is_finished st && (t <? horizon)%N) eqn:Hf; simpl; [|by left].
  apply andb_true_iff in Hf as [Hf _]. apply is_finished_spec in Hf.
  destruct (ts_status st); [done|by left|by right].
Qed.

Lemma vacuum_ok horizon s :
  storage_ok s → ∃ s', vacuum horizon s = (Ok (), s') ∧ vacuumed horizon s s'.
Proof.
  intros Hok. unfold vacuum.
  destruct (vacuum_loop_ok horizon (sorted_keys N.le (tables s)) s) as (s1 & Hloop & [B1 F1 O1 N1 D1]).
  - apply NoDup_sorted_keys.
  - apply Hok.
  - intros tid tb Htid. eapply nobody_aborted_ok; [apply (so_aborted _ Hok)|done].
  - intros tid. by rewrite elem_of_sorted_keys.
  - rewrite Hloop. eexists. split; [done|].
    assert (Hf : databases s1 = databases s ∧ txns s1 = txns s ∧ next_table_id s1 = next_table_id s ∧
      next_savepoint_id s1 = next_savepoint_id s) by (rewrite F1; done).
    destruct Hf as (Hdb & Htx & Hnt & Hns). rewrite Htx.
    assert (HD : ∀ tid tb, tables s !! tid = Some tb →
      ∃ tb', tables s1 !! tid = Some tb' ∧ vacuumed_table horizon s tb tb').
    { intros tid tb Htid. apply D1; [|done]. apply elem_of_sorted_keys. by eexists. }
    assert (Hlog : ∀ t w, status s t ≠ Committed → log_ok (tables s) t w → log_ok (tables s1) t w).
    { intros t w Ht Hl tid tb' row Htid'. destruct (tables s !! tid) as [tb|] eqn:Htid;
        [|by rewrite N1 in Htid'].
      destruct (HD _ _ Htid) as (tb2 & Htb2 & _ & Hrows). rewrite Htid' in Htb2. injection Htb2 as <-.
      rewrite Hrows. apply prune_written; [|by apply Hl]. intros v. by apply dead_own. }
    split; [|done|done|done|done|exact HD]. split.
    + destruct B1. by split.
    + simpl. intros t st [Ht _]%map_lookup_filter_Some.
      apply (txn_ok_frame s); [|simpl; by rewrite Hnt|simpl; by rewrite Hns|by apply (so_txns _ Hok)].
      simpl. intros Hst. apply Hlog. unfold status, status_in. by rewrite Ht, Hst.
    + intros t Hab. simpl. apply log_ok_nil.
      assert (Ha : status s t = Aborted).
      { destruct (status_pruned horizon s (set_txns
          (filter (λ x, is_finished x.2 && (x.1 <? horizon)%N = false) (txns s)) s1) t eq_refl) as [Hs|[Hs _]];
          congruence. }
      apply Hlog; [congruence|]. by apply log_ok_nil, (so_aborted _ Hok).
Qed.
End vacuum.
