(* ===== verification/StorageCatalog.v ===== *)
(** * Databases, tables and indexes

    About the definition operations of [MemoryStorage.v]: they keep the invariant, and the
    catalog of databases agrees with the tables. *)

From S2P Require Import Prelude Values Errors Snapshot Order CollationFacts Compare KeyOrder.
From S2P Require Import Table Index IndexFacts MemoryStorage StorageInv StorageFacts StorageOps.

(** Each table is listed by its database, and by no other. *)
Record catalog_ok (s : Inner) : Prop := {
  ca_tables : ∀ tid tb, tables s !! tid = Some tb →
    ∃ d, databases s !! t_db tb = Some d ∧ tid ∈ db_tables d;
  ca_listed : ∀ db d tid, databases s !! db = Some d → tid ∈ db_tables d →
    ∃ tb, tables s !! tid = Some tb ∧ t_db tb = db;
  ca_fresh : map_Forall (λ db _, (db < next_db_id s)%N) (databases s);
}.

Lemma catalog_new : catalog_ok MemoryStorage_new.
Proof. split; done. Qed.

(** The operations that leave the catalog alone. *)
Lemma catalog_same s s' :
  databases s' = databases s → next_db_id s' = next_db_id s →
  (∀ tid, t_db <$> tables s' !! tid = t_db <$> tables s !! tid) → catalog_ok s → catalog_ok s'.
Proof.
  intros Hd Hn Ht [Hta Hli Hfr]. split.
  - intros tid tb Htid. specialize (Ht tid). rewrite Htid in Ht. simpl in Ht.
    destruct (tables s !! tid) as [tb0|] eqn:Htb; [|done]. injection Ht as ->.
    rewrite Hd. by apply Hta.
  - rewrite Hd. intros db d tid Hdb Hin. destruct (Hli _ _ _ Hdb Hin) as (tb0 & Htb & Hb).
    specialize (Ht tid). rewrite Htb in Ht. simpl in Ht.
    destruct (tables s' !! tid) as [tb|]; [|done]. injection Ht as Ht. exists tb. split; congruence.
  - by rewrite Hd, Hn.
Qed.

Section catalog.

(** The part of [storage_ok] that reads the registry, when only tables come and go. *)
Lemma storage_ok_tables s s' :
  storage_ok s → body_ok s' → txns s' = txns s → (next_table_id s ≤ next_table_id s')%N →
  next_savepoint_id s' = next_savepoint_id s →
  (∀ t w, Forall (λ e, (entry_table e < next_table_id s)%N) w →
     log_ok (tables s) t w → log_ok (tables s') t w) →
  storage_ok s'.
Proof.
  intros Hok Hb Hx Hn Hp Hl. split; [done|..].
  - intros t st Ht. rewrite Hx in Ht. pose proof (so_txns _ Hok _ _ Ht) as Htx.
    apply (txn_ok_frame s); [|done|by rewrite Hp|done]. intros _. apply Hl, Htx.
  - intros t Hab. apply log_ok_nil, Hl; [constructor|]. apply log_ok_nil, (so_aborted _ Hok).
    revert Hab. unfold status. by rewrite Hx.
Qed.

(** ** Databases and tables *)

Lemma create_database_ok name s r s' :
  storage_ok s → catalog_ok s → create_database name s = (r, s') →
  storage_ok s' ∧ catalog_ok s' ∧
  match r with
  | Ok db => databases s !! db = None ∧ databases s' = <[db := mkDatabase name ∅]> (databases s) ∧
      tables s' = tables s ∧ txns s' = txns s
  | Err _ => s' = s
  end.
Proof.
  intros Hok Hcat. unfold create_database, next_id.
  destruct (checked_succ u32_max (next_db_id s)) as [next|] eqn:Hn; intros [= <- <-]; [|done].
  apply checked_succ_Some in Hn as [-> Hlt].
  assert (Hnone : databases s !! next_db_id s = None).
  { destruct (databases s !! next_db_id s) as [d|] eqn:Hd; [|done].
    pose proof (ca_fresh _ Hcat _ _ Hd) as Hf. simpl in Hf. lia. }
  split; [|split; [|done]].
  - apply (storage_ok_tables s); [done| |done|simpl; lia|done|done].
    destruct (so_body _ Hok). by split.
  - destruct Hcat as [Hta Hli Hfr]. split; simpl.
    + intros tid tb Htid. destruct (Hta _ _ Htid) as (d & Hd & Hin). exists d.
      rewrite lookup_insert_ne; [done|]. congruence.
    + intros db d tid [[<- <-]|[Hne Hd]]%lookup_insert_Some Hin; [set_solver|by eapply Hli].
    + apply map_Forall_insert_2; [lia|]. eapply map_Forall_impl; [exact Hfr|]. simpl. lia.
Qed.

Lemma check_shape_ok sh k :
  check_shape sh = Ok k → columns sh ≠ [] ∧ (∀ o, k = Some o → order_fits sh o).
Proof.
  unfold check_shape. destruct (columns sh) as [|c cs] eqn:Hc; [done|]. intros Hk. split; [done|].
  destruct (clustered_key sh) as [key|]; [|by injection Hk as <-].
  destruct (KeyOrder_new "clustered key" key sh) as [o|] eqn:Ho; [|done].
  injection Hk as <-. intros ? [= <-]. by eapply KeyOrder_new_fits.
Qed.

Lemma log_ok_new_table s t w id tb :
  Forall (λ e, (entry_table e < id)%N) w → rows tb = ∅ →
  log_ok (tables s) t w → log_ok (<[id := tb]> (tables s)) t w.
Proof.
  intros Hw Hr Hl tid tb' row [[<- <-]|[_ Ht]]%lookup_insert_Some; [|by apply Hl].
  assert (Hn : row_log id row w = []).
  { unfold row_log. clear Hl. induction Hw as [|e w He _ IH]; [done|]. simpl.
    destruct (entry_kind id row e) as [k|] eqn:Hk; [|exact IH].
    apply entry_kind_Some in Hk as ->. destruct k; simpl in He; lia. }
  rewrite Hn, Hr, lookup_empty. constructor. intros vs v [=].
Qed.

Lemma create_table_ok db sh s r s' :
  storage_ok s → catalog_ok s → create_table db sh s = (r, s') →
  storage_ok s' ∧ catalog_ok s' ∧
  match r with
  | Ok id => tables s !! id = None ∧ txns s' = txns s ∧
      ∃ tb, tables s' = <[id := tb]> (tables s) ∧ t_db tb = db ∧ shape tb = sh ∧
        rows tb = ∅ ∧ t_indexes tb = ∅
  | Err _ => s' = s
  end.
Proof.
  intros Hok Hcat. unfold create_table.
  destruct (check_shape sh) as [k|] eqn:Hsh; [|by intros [= <- <-]].
  destruct (databases s !! db) as [d|] eqn:Hdb; [|by intros [= <- <-]].
  unfold next_id. destruct (checked_succ u32_max (next_table_id s)) as [next|] eqn:Hn;
    intros [= <- <-]; [|done].
  apply checked_succ_Some in Hn as [-> Hlt].
  assert (Hnone : tables s !! next_table_id s = None).
  { destruct (tables s !! next_table_id s) as [tb|] eqn:Ht; [|done].
    pose proof (proj2 (bo_tables _ Hok _ _ Ht)) as Hf. simpl in Hf. lia. }
  split; [|split; [|split; [done|split; [done|by eexists]]]].
  - apply (storage_ok_tables s); [done| |done|simpl; lia|done|].
    + destruct (so_body _ Hok) as [Hts Hti Hix]. split; simpl.
      * apply map_Forall_insert_2; [|eapply map_Forall_impl; [exact Hts|]; simpl; intros ? ? []; split; [done|lia]].
        split; [|lia]. split; simpl; [done|done|]. intros o ->. by eapply check_shape_ok.
      * intros tid tb i [[<- <-]|[Hne Ht]]%lookup_insert_Some Hi; [set_solver|by eapply Hti].
      * intros i ix Hi. destruct (Hix _ _ Hi) as (Hl & tb & Ht & Hin). split; [done|]. exists tb.
        rewrite lookup_insert_ne; [done|]. congruence.
    + intros t w Hw Hl. simpl. by apply log_ok_new_table.
  - destruct Hcat as [Hta Hli Hfr]. split; simpl.
    + intros tid tb [[<- <-]|[Hne Ht]]%lookup_insert_Some; simpl.
      * rewrite lookup_insert_eq. eexists. split; [done|]. set_solver.
      * destruct (Hta _ _ Ht) as (d' & Hd' & Hin). destruct (decide (t_db tb = db)) as [He|Hd].
        -- rewrite He in *. rewrite lookup_insert_eq. eexists. split; [done|]. simpl. apply elem_of_union. right. rewrite Hdb in Hd'. by injection Hd' as <-.
        -- rewrite lookup_insert_ne by done. eauto.
    + intros db' d' tid Hd' Hin.
      assert (Hcase : (tid = next_table_id s ∧ db' = db) ∨
        ∃ tb, tables s !! tid = Some tb ∧ t_db tb = db').
      { apply lookup_insert_Some in Hd' as [[<- <-]|[Hne Hd']].
        - simpl in Hin. apply elem_of_union in Hin as [->%elem_of_singleton|Hin]; [by left|].
          right. by eapply Hli.
        - right. by eapply Hli. }
      destruct Hcase as [[-> ->]|(tb & Htb & Ht)].
      * eexists. rewrite lookup_insert_eq. done.
      * exists tb. rewrite lookup_insert_ne; [done|]. congruence.
    + apply map_Forall_insert_2; [|done]. by apply (Hfr db d).
Qed.

Lemma lookup_foldl_delete {V} (m : gmap N V) l i :
  foldl (λ m i, delete i m) m l !! i = if decide (i ∈ l) then None else m !! i.
Proof.
  revert m. induction l as [|j l IH]; intros m; [by rewrite decide_False by set_solver|].
  cbn [foldl]. rewrite IH. destruct (decide (i ∈ l)).
  - by rewrite decide_True by set_solver.
  - destruct (decide (i = j)) as [->|Hne].
    + rewrite decide_True by set_solver. apply lookup_delete_eq.
    + rewrite decide_False by set_solver. by rewrite lookup_delete_ne.
Qed.

(** [s'] is [s] without the tables [ids] and their indexes. *)
Record forgot (ids : list TableId) (s s' : Inner) : Prop := {
  fo_ok : storage_ok s';
  fo_frame : s' = set_tables (tables s') (set_indexes (indexes s') s);
  fo_tables : ∀ tid, tables s' !! tid = if decide (tid ∈ ids) then None else tables s !! tid;
}.

Lemma forget_table_ok s tid : storage_ok s → forgot [tid] s (forget_table s tid).
Proof.
  intros Hok. unfold forget_table. destruct (tables s !! tid) as [tb|] eqn:Htid.
  - assert (Hlk : ∀ tid', delete tid (tables s) !! tid' =
      if decide (tid' ∈ [tid]) then None else tables s !! tid').
    { intros tid'. destruct (decide (tid' = tid)) as [->|Hne].
      - rewrite decide_True by set_solver. apply lookup_delete_eq.
      - rewrite decide_False by set_solver. by rewrite lookup_delete_ne. }
    split; [|done|exact Hlk]. apply (storage_ok_tables s); [done| |done|simpl; lia|done|].
    + destruct (so_body _ Hok) as [Hts Hti Hix]. split; simpl.
      * intros tid' tb' [_ Ht]%lookup_delete_Some. by apply (Hts tid').
      * intros tid' tb' i [Hne Ht]%lookup_delete_Some Hi.
        destruct (Hti _ _ _ Ht Hi) as (ix & Hlki & Hti' & Hiok). exists ix. split; [|done].
        rewrite lookup_foldl_delete, decide_False; [done|]. rewrite elem_of_sorted_elements.
        intros Hi'. destruct (Hti _ _ _ Htid Hi') as (ix2 & Hlk2 & Ht2 & _). congruence.
      * intros i ix. rewrite lookup_foldl_delete.
        destruct (decide (i ∈ sorted_elements (t_indexes tb))) as [|Hni]; [done|].
        intros Hi. destruct (Hix _ _ Hi) as (Hlt & tb' & Ht' & Hin). split; [done|]. exists tb'.
        rewrite lookup_delete_ne; [done|]. intros ->. rewrite elem_of_sorted_elements in Hni.
        congruence.
    + simpl. intros t w _ Hl tid' tb' row [_ Ht]%lookup_delete_Some. by apply Hl.
  - split; [done|by rewrite set_tables_id|]. intros tid'.
    destruct (decide (tid' ∈ [tid])) as [->%list_elem_of_singleton|]; done.
Qed.

Lemma forget_tables_ok s ids : storage_ok s → forgot ids s (foldl forget_table s ids).
Proof.
  revert s. induction ids as [|tid ids IH]; intros s Hok.
  { split; [done|by rewrite set_tables_id|done]. }
  destruct (forget_table_ok s tid Hok) as [Hok1 F1 T1]. simpl.
  destruct (IH _ Hok1) as [Hok2 F2 T2]. split; [done|..].
  - rewrite F2, F1. done.
  - intros tid'. rewrite T2, T1. destruct (decide (tid' ∈ ids)).
    + by rewrite decide_True by set_solver.
    + destruct (decide (tid' ∈ [tid])) as [->%list_elem_of_singleton|].
      * by rewrite decide_True by set_solver.
      * by rewrite decide_False by set_solver.
Qed.

Lemma set_databases_ok d s : storage_ok s → storage_ok (set_databases d s).
Proof.
  intros Hok. apply (storage_ok_tables s); [done| |done|simpl; lia|done|done].
  destruct (so_body _ Hok). by split.
Qed.

(** Dropping a database drops its tables and no other. *)
Lemma drop_database_ok db s r s' :
  storage_ok s → catalog_ok s → drop_database db s = (r, s') →
  storage_ok s' ∧ catalog_ok s' ∧
  match r with
  | Ok _ => databases s' = delete db (databases s) ∧ txns s' = txns s ∧
      (∀ tid, tables s' !! tid =
         match tables s !! tid with
         | Some tb => if decide (t_db tb = db) then None else Some tb
         | None => None
         end)
  | Err _ => s' = s ∧ databases s !! db = None
  end.
Proof.
  intros Hok Hcat. unfold drop_database. destruct (databases s !! db) as [d|] eqn:Hdb; [|by intros [= <- <-]].
  intros [= <- <-].
  destruct (forget_tables_ok (set_databases (delete db (databases s)) s) (sorted_elements (db_tables d)))
    as [Hok' F T]; [by apply set_databases_ok|].
  set (s' := foldl forget_table _ _) in *.
  assert (Hf : databases s' = delete db (databases s) ∧ txns s' = txns s ∧ next_db_id s' = next_db_id s)
    by (rewrite F; done).
  destruct Hf as (Hd' & Hx & Hn). destruct Hcat as [Hta Hli Hfr].
  assert (HT : ∀ tid, tables s' !! tid = match tables s !! tid with
    | Some tb => if decide (t_db tb = db) then None else Some tb | None => None end).
  { intros tid. rewrite T. simpl. destruct (tables s !! tid) as [tb|] eqn:Htid; [|by case_decide].
    destruct (Hta _ _ Htid) as (d2 & Hd2 & Hin).
    destruct (decide (t_db tb = db)) as [He|Hne].
    - rewrite decide_True; [done|]. rewrite elem_of_sorted_elements. congruence.
    - rewrite decide_False; [done|]. rewrite elem_of_sorted_elements. intros Hin'.
      destruct (Hli _ _ _ Hdb Hin') as (tb2 & Htb2 & ?). congruence. }
  split; [done|]. split; [|done]. split.
  - intros tid tb. rewrite HT. destruct (tables s !! tid) as [tb2|] eqn:Htid; [|done].
    case_decide as Hne; [done|]. intros [= ->]. rewrite Hd', lookup_delete_ne by done. by apply Hta.
  - rewrite Hd'. intros db' d' tid [Hne Hd2]%lookup_delete_Some Hin.
    destruct (Hli _ _ _ Hd2 Hin) as (tb & Htid & Ht). exists tb. split; [|done].
    rewrite HT, Htid, decide_False; [done|congruence].
  - rewrite Hd', Hn. by apply map_Forall_delete.
Qed.

Lemma drop_table_ok tid s r s' :
  storage_ok s → catalog_ok s → drop_table tid s = (r, s') →
  storage_ok s' ∧ catalog_ok s' ∧
  match r with
  | Ok _ => tables s' = delete tid (tables s) ∧ txns s' = txns s
  | Err _ => s' = s ∧ tables s !! tid = None
  end.
Proof.
  intros Hok Hcat. unfold drop_table. destruct (tables s !! tid) as [tb|] eqn:Htid; [|by intros [= <- <-]].
  intros [= <- <-]. set (s1 := set_databases _ s).
  assert (Htid1 : tables s1 !! tid = Some tb) by done.
  destruct (forget_table_ok s1 tid) as [Hok' F T]; [by apply set_databases_ok|].
  assert (Ht' : tables (forget_table s1 tid) = delete tid (tables s)).
  { unfold forget_table. by rewrite Htid1. }
  assert (Hf : databases (forget_table s1 tid) = databases s1 ∧ txns (forget_table s1 tid) = txns s ∧
    next_db_id (forget_table s1 tid) = next_db_id s) by (rewrite F; done).
  destruct Hf as (Hd' & Hx & Hn). split; [done|]. split; [|done].
  destruct Hcat as [Hta Hli Hfr]. split; rewrite ?Ht', ?Hd', ?Hn; simpl.
  - intros tid' tb' [Hne Ht]%lookup_delete_Some. destruct (Hta _ _ Ht) as (d & Hd & Hin).
    destruct (decide (t_db tb' = t_db tb)) as [He|Hd2].
    + rewrite He, lookup_alter_eq. rewrite He in Hd. rewrite Hd. simpl. eexists. split; [done|].
      set_solver.
    + rewrite lookup_alter_ne by done. eauto.
  - intros db d tid' Hd Hin.
    assert (Hcase : ∃ d0, databases s !! db = Some d0 ∧ tid' ∈ db_tables d0 ∧ tid' ≠ tid).
    { apply lookup_alter_Some in Hd as [(<- & d0 & Hd0 & ->)|[Hne Hd]].
      - exists d0. simpl in Hin. set_solver.
      - exists d. split; [done|]. split; [done|]. intros ->.
        destruct (Hli _ _ _ Hd Hin) as (tb2 & Ht2 & ?). congruence. }
    destruct Hcase as (d0 & Hd0 & Hin0 & Hne). destruct (Hli _ _ _ Hd0 Hin0) as (tb' & Ht2 & ?).
    exists tb'. by rewrite lookup_delete_ne.
  - intros db d. rewrite lookup_alter_Some. intros [(<- & d0 & Hd0 & ->)|[Hne Hd]]; by eapply Hfr.
Qed.

(** The lists answer for every table and every index the catalog names. *)
Lemma list_tables_ok db s d :
  catalog_ok s → databases s !! db = Some d →
  ∃ l, list_tables db s = Ok l ∧ l.*1 = sorted_elements (db_tables d) ∧
    Forall (λ p, ∃ tb, tables s !! p.1 = Some tb ∧ shape tb = p.2) l.
Proof.
  intros Hcat Hdb. unfold list_tables. rewrite Hdb.
  assert (Hin : ∀ tid, tid ∈ sorted_elements (db_tables d) → is_Some (tables s !! tid)).
  { intros tid. rewrite elem_of_sorted_elements. intros Hin.
    destruct (ca_listed _ Hcat _ _ _ Hdb Hin) as (tb & -> & _). by eexists. }
  induction (sorted_elements (db_tables d)) as [|tid ids IH]; [by exists []|].
  destruct (Hin tid) as [tb Htid]; [by left|]. destruct IH as (l & Hl & Hfst & Hall).
  { intros tid' Hin'. apply Hin. by right. }
  exists ((tid, shape tb) :: l). simpl. rewrite Htid. simpl. rewrite Hl. csimpl. rewrite Hfst.
  split; [done|]. split; [done|]. constructor; [|done]. eauto.
Qed.
End catalog.
