(* ===== verification/StorageSearch.v ===== *)
(** * Indexes and their tables

    About the indexes of [MemoryStorage.v]: a new index lists every version of its table,
    a search answers exactly the visible versions whose key is in the range, in key order,
    and the test of uniqueness finds a live duplicate when there is one. *)

From S2P Require Import Prelude Values Errors Snapshot Order CollationFacts Compare KeyOrder Table Index IndexFacts MemoryStorage.
From S2P Require Import StorageInv StorageFacts StorageOps StorageCatalog.

(** The versions of a table, each with its row. *)
Definition versions_of (r : gmap RowId (list Version)) : list (RowId * Version) :=
  sorted_entries N.le r ≫= λ iv, (iv.1,.) <$> iv.2.

Lemma elem_of_versions r row v :
  (row, v) ∈ versions_of r ↔ ∃ vs, r !! row = Some vs ∧ v ∈ vs.
Proof.
  unfold versions_of. rewrite list_elem_of_bind. split.
  - intros ([row' vs] & (u & [= -> ->] & Hu)%list_elem_of_fmap & Hin).
    apply elem_of_sorted_entries in Hin. eauto.
  - intros (vs & Hr & Hv). exists (row, vs). rewrite elem_of_sorted_entries. split; [|done].
    apply list_elem_of_fmap. eauto.
Qed.

Lemma entries_of_versions o r :
  entries_of o r ≡ₚ (λ rv : RowId * Version, entry_of o rv.1 rv.2) <$> versions_of r.
Proof.
  unfold entries_of, versions_of. rewrite fmap_of_bind, sorted_entries_perm.
  apply reflexive_eq, list_bind_ext; [|done]. intros [row vs]. simpl.
  rewrite <- list_fmap_compose. done.
Qed.

(** Within a table a version is known by its row and serial number. *)
Lemma versions_distinct tb :
  table_wf tb → NoDup ((λ rv : RowId * Version, (rv.1, v_seq rv.2)) <$> versions_of (rows tb)).
Proof.
  intros [Hc _ _]. unfold versions_of.
  assert (Hall : ∀ iv, iv ∈ sorted_entries N.le (rows tb) → StronglySorted N.lt (v_seq <$> iv.2)).
  { intros [row vs] Hin. apply elem_of_sorted_entries in Hin. by apply (Hc row). }
  assert (Hnd : NoDup (sorted_entries N.le (rows tb)).*1)
    by (rewrite sorted_entries_fst; apply NoDup_sorted_keys).
  induction (sorted_entries N.le (rows tb)) as [|[row vs] l IH]; [constructor|]. csimpl in *.
  apply NoDup_cons in Hnd as [Hni Hnd]. rewrite fmap_app. apply NoDup_app. split_and!.
  - rewrite <- list_fmap_compose. unfold compose. simpl.
    specialize (Hall (row, vs) ltac:(by left)). simpl in Hall. clear -Hall.
    induction vs as [|v vs IH]; [constructor|]. csimpl in *.
    apply StronglySorted_inv in Hall as [Hs Hv]. constructor; [|by apply IH].
    intros (u & [= Hu] & Hin)%list_elem_of_fmap. rewrite Forall_forall in Hv.
    specialize (Hv (v_seq u)). assert (v_seq v < v_seq u)%N; [|lia].
    apply Hv, list_elem_of_fmap. eauto.
  - intros [r n] (rv & [= -> ->] & Hin)%list_elem_of_fmap.
    intros ([row' v'] & [= Hr _] & Hin')%list_elem_of_fmap.
    apply list_elem_of_fmap in Hin as (v & -> & _). simpl in *. subst row'.
    apply list_elem_of_bind in Hin' as ([row' vs'] & (u & [= -> _] & _)%list_elem_of_fmap & Hin').
    apply Hni, list_elem_of_fmap. by exists (row', vs').
  - apply IH; [|done]. intros iv Hin. apply Hall. by right.
Qed.

Lemma find_version_ok tb row vs v :
  table_wf tb → rows tb !! row = Some vs → v ∈ vs → find_version (rows tb) row (v_seq v) = Some v.
Proof.
  intros Hwf Hr Hv. unfold find_version. rewrite Hr. simpl.
  pose proof (ch_seqs _ _ (tw_chains _ Hwf _ _ Hr)) as Hs. clear Hr.
  induction vs as [|u vs IH]; [by apply not_elem_of_nil in Hv|]. csimpl in *.
  apply StronglySorted_inv in Hs as [Hs Hu]. apply elem_of_cons in Hv as [->|Hv].
  - by rewrite decide_True.
  - rewrite Forall_forall in Hu. specialize (Hu (v_seq v)).
    rewrite decide_False.
    + specialize (IH Hv Hs). destruct (list_find _ vs) as [[]|]; done.
    + intros He. assert (v_seq u < v_seq v)%N; [|lia]. apply Hu, list_elem_of_fmap. eauto.
Qed.

Section index_ops.

(** ** Building *)

Lemma index_versions_ok st l ix :
  index_wf ix →
  Forall (λ rv : RowId * Version, st (v_xmin rv.2) ≠ Aborted ∧
    extract (ix_order ix) (v_data rv.2) = Ok (key_of (ix_order ix) (v_data rv.2)) ∧
    key_fits (key_columns (ix_order ix)) (key_of (ix_order ix) (v_data rv.2))) l →
  NoDup ((λ rv : RowId * Version, (rv.1, v_seq rv.2)) <$> l) →
  (∀ rv e, rv ∈ l → e ∈ ix_entries ix → (e_row e, e_version e) ≠ (rv.1, v_seq rv.2)) →
  ∃ ix', try_fold (λ ix rv, index_version st rv.1 ix rv.2) ix l = Ok ix' ∧ index_wf ix' ∧
    ix_entries ix' ≡ₚ ((λ rv : RowId * Version, entry_of (ix_order ix) rv.1 rv.2) <$> l) ++ ix_entries ix ∧
    ix_table ix' = ix_table ix ∧ ix_shape ix' = ix_shape ix ∧ ix_order ix' = ix_order ix.
Proof.
  revert ix. induction l as [|[row v] l IH]; intros ix Hwf Hall Hnd Hnew; [by exists ix|].
  apply Forall_cons in Hall as [(Hst & Hex & Hfit) Hall]. csimpl in Hnd. simpl in *.
  apply NoDup_cons in Hnd as [Hni Hnd].
  destruct (insert_entry_ok ix (entry_of (ix_order ix) row v)) as (pos & Hpos & Hle & Hents).
  { done. }
  { done. }
  { intros e He. apply (Hnew (row, v)); [by left|done]. }
  set (ix1 := with_entries ix (insert_at pos (entry_of (ix_order ix) row v) (ix_entries ix))).
  destruct (IH ix1) as (ix' & Hfold & Hwf' & Hp & Ht & Hs & Ho); [done..| |].
  { intros rv e Hrv He. simpl in He. apply elem_of_insert_at in He as [->|He].
    - simpl. intros Heq. apply Hni. rewrite Heq. apply list_elem_of_fmap. eauto.
    - apply Hnew; [by right|done]. }
  exists ix'. split; [|split; [done|split; [|done]]].
  - cbn [try_fold fst snd].
    assert (Hone : index_version st row ix v = Ok ix1).
    { unfold index_version. rewrite bool_decide_false by done. rewrite Hex. simpl. simpl in Hpos.
      by rewrite Hpos. }
    rewrite Hone. exact Hfold.
  - rewrite Hp. simpl. rewrite insert_at_perm. symmetry. apply Permutation_middle.
Qed.

Lemma index_rows_ok s tb tid def o :
  table_wf tb → (∀ row vs v, rows tb !! row = Some vs → v ∈ vs → status s (v_xmin v) ≠ Aborted) →
  order_fits (shape tb) o →
  ∃ ix, index_rows (status s) (Index_new tid def o) (rows tb) = Ok ix ∧ index_ok tb ix ∧
    ix_table ix = tid ∧ ix_shape ix = def ∧ ix_order ix = o.
Proof.
  intros Hwf Hab Ho. unfold index_rows.
  rewrite (try_fold_nested (λ ix row v, index_version (status s) row ix v)).
  fold (versions_of (rows tb)).
  destruct (index_versions_ok (status s) (versions_of (rows tb)) (Index_new tid def o))
    as (ix & Hfold & Hiwf & Hp & Ht & Hs & Hor).
  - split; [constructor|constructor].
  - apply Forall_forall. intros [row v] (vs & Hr & Hv)%elem_of_versions. simpl.
    split; [by eapply Hab|].
    pose proof (ch_fits _ _ (tw_chains _ Hwf _ _ Hr)) as Hf. rewrite Forall_forall in Hf.
    eapply extract_fits; [exact Ho|by apply Hf].
  - by apply versions_distinct.
  - simpl. intros rv e _ Hin. by apply not_elem_of_nil in Hin.
  - exists ix. split; [done|]. split; [|done]. simpl in *. rewrite app_nil_r in Hp.
    split; [by rewrite Hor| |apply Hiwf]. by rewrite Hp, Hor, entries_of_versions.
Qed.

Lemma create_index_ok tid def s r s' :
  storage_ok s → catalog_ok s → create_index tid def s = (r, s') →
  storage_ok s' ∧ catalog_ok s' ∧
  match r with
  | Ok id => indexes s !! id = None ∧ txns s' = txns s ∧
      ∃ tb ix, tables s !! tid = Some tb ∧
        tables s' = <[tid := with_indexes tb ({[id]} ∪ t_indexes tb)]> (tables s) ∧
        indexes s' = <[id := ix]> (indexes s) ∧ ix_table ix = tid ∧ ix_shape ix = def ∧ index_ok tb ix ∧
        (unique def = true → first_duplicate_key ix (rows tb) (status s) = Ok None)
  | Err _ => s' = s
  end.
Proof.
  intros Hok Hcat. unfold create_index. destruct (build_index tid def s) as [[[[id next] ix] tb]|e] eqn:Hb;
    intros [= <- <-]; [|done].
  unfold build_index in Hb. apply result_bind_Ok in Hb as (tb0 & Htid%table_Ok & Hb).
  apply result_bind_Ok in Hb as (o & Ho & Hb). apply KeyOrder_new_fits in Ho.
  destruct (list_find _ _) as [[]|]; [done|].
  destruct (checked_succ u32_max (next_index_id s)) as [nx|] eqn:Hn; [|done].
  apply checked_succ_Some in Hn as [-> Hlt].
  apply result_bind_Ok in Hb as (ix0 & Hrows & Hb). apply result_bind_Ok in Hb as (dup & Hdup & Hb).
  destruct dup as [|] eqn:Hd; [done|]. injection Hb as <- <- <- <-.
  pose proof (proj1 (bo_tables _ Hok _ _ Htid)) as Hwf.
  destruct (index_rows_ok s tb0 tid def o) as (ix & Hrows' & Hiok & Hit & His & Hio); [done| |done|].
  { intros row vs v Hr Hv Ha. by apply (so_aborted _ Hok _ Ha tid tb0 row Htid vs v Hr Hv); left. }
  rewrite Hrows in Hrows'. injection Hrows' as <-.
  destruct (so_body _ Hok) as [Hts Hti Hix].
  assert (Hnone : indexes s !! next_index_id s = None).
  { destruct (indexes s !! next_index_id s) as [ix|] eqn:Hi; [|done].
    destruct (Hix _ _ Hi) as [Hf _]. lia. }
  set (tb' := with_indexes tb0 ({[next_index_id s]} ∪ t_indexes tb0)).
  split; [|split; [|split; [done|split; [done|]]]].
  - apply (storage_ok_tables s); [done| |done|simpl; lia|done|].
    + split; simpl.
      * apply map_Forall_insert_2; [|done]. split; [|by apply (Hts tid tb0)].
        destruct Hwf as [Hc Hr Hk]. split; simpl; [|done|done].
        intros row vs Hrow. apply (chain_ok_tb tb0); [done..|by apply (Hc row)].
      * intros tid' tb2 i [[<- <-]|[Hne Ht2]]%lookup_insert_Some Hi.
        -- simpl in Hi. apply elem_of_union in Hi as [->%elem_of_singleton|Hi].
           ++ exists ix0. rewrite lookup_insert_eq. split; [done|]. split; [done|].
              by destruct Hiok.
           ++ destruct (Hti _ _ _ Htid Hi) as (ix2 & Hlk2 & Ht2 & Hok2). exists ix2.
              rewrite lookup_insert_ne by congruence. split; [done|]. split; [done|]. by destruct Hok2.
        -- destruct (Hti _ _ _ Ht2 Hi) as (ix2 & Hlk2 & Htt & Hok2). exists ix2.
           rewrite lookup_insert_ne by congruence. done.
      * intros i ix2 [[<- <-]|[Hne Hi]]%lookup_insert_Some.
        -- split; [lia|]. exists tb'. rewrite Hit, lookup_insert_eq. split; [done|]. simpl. set_solver.
        -- destruct (Hix _ _ Hi) as (Hl & tb2 & Ht2 & Hin). split; [lia|].
           destruct (decide (ix_table ix2 = tid)) as [He|Hne2].
           ++ exists tb'. rewrite He, lookup_insert_eq. split; [done|]. simpl.
              rewrite He in Ht2. simplify_eq. set_solver.
           ++ exists tb2. by rewrite lookup_insert_ne.
    + simpl. intros t w _ Hl tid' tb2 row [[<- <-]|[_ Ht2]]%lookup_insert_Some; [|by apply Hl].
      by apply (Hl tid tb0).
  - eapply (catalog_same s); [done|done| |done]. intros tid'. simpl.
    destruct (decide (tid' = tid)) as [->|Hne]; [by rewrite lookup_insert_eq, Htid|].
    by rewrite lookup_insert_ne.
  - exists tb0, ix0. split_and!; try done. intros Hu. by rewrite Hu in Hdup.
Qed.

Lemma drop_index_ok id s r s' :
  storage_ok s → catalog_ok s → drop_index id s = (r, s') →
  storage_ok s' ∧ catalog_ok s' ∧
  match r with
  | Ok _ => indexes s' = delete id (indexes s) ∧ txns s' = txns s ∧
      (∀ tid, tables s' !! tid = (λ tb, with_indexes tb (t_indexes tb ∖ {[id]})) <$> tables s !! tid)
  | Err _ => s' = s ∧ indexes s !! id = None
  end.
Proof.
  intros Hok Hcat. unfold drop_index. destruct (indexes s !! id) as [ix|] eqn:Hi; [|by intros [= <- <-]].
  intros [= <- <-]. destruct (so_body _ Hok) as [Hts Hti Hix].
  destruct (Hix _ _ Hi) as (Hlt & tb & Htb & Hin).
  assert (HT : ∀ tid, alter (λ t, with_indexes t (t_indexes t ∖ {[id]})) (ix_table ix) (tables s) !! tid =
    (λ tb, with_indexes tb (t_indexes tb ∖ {[id]})) <$> tables s !! tid).
  { intros tid. destruct (decide (tid = ix_table ix)) as [->|Hne]; [by rewrite lookup_alter_eq|].
    rewrite lookup_alter_ne by done. destruct (tables s !! tid) as [tb2|] eqn:Ht2; [|done]. simpl.
    assert (Hni : id ∉ t_indexes tb2).
    { intros Hin2. destruct (Hti _ _ _ Ht2 Hin2) as (ix2 & Hi2 & Hit & _). congruence. }
    rewrite difference_disjoint_L by set_solver. by destruct tb2. }
  split; [|split; [|done]].
  - apply (storage_ok_tables s); [done| |done|simpl; lia|done|].
    + split; simpl.
      * intros tid tb2. rewrite HT. intros (tb3 & Ht3 & ->)%fmap_Some.
        destruct (Hts _ _ Ht3) as [[Hc Hr Hk] Hl]. split; [|done]. split; simpl; [|done|done].
        intros row vs Hrow. apply (chain_ok_tb tb3); [done..|by apply (Hc row)].
      * intros tid tb2 i. rewrite HT. intros (tb3 & Ht3 & ->)%fmap_Some Hi2. simpl in Hi2.
        apply elem_of_difference in Hi2 as [Hi2 Hne]. rewrite not_elem_of_singleton in Hne.
        destruct (Hti _ _ _ Ht3 Hi2) as (ix2 & Hlk2 & Htt & Hok2). exists ix2.
        rewrite lookup_delete_ne by done. split; [done|]. split; [done|]. by destruct Hok2.
      * intros i ix2 [Hne Hi2]%lookup_delete_Some. destruct (Hix _ _ Hi2) as (Hl & tb2 & Ht2 & Hin2).
        split; [done|]. exists (with_indexes tb2 (t_indexes tb2 ∖ {[id]})). rewrite HT, Ht2. split; [done|].
        simpl. set_solver.
    + simpl. intros t w _ Hl tid tb2 row. rewrite HT. intros (tb3 & Ht3 & ->)%fmap_Some.
      by apply (Hl tid tb3).
  - eapply (catalog_same s); [done|done| |done]. intros tid. simpl. rewrite HT. by destruct (tables s !! tid).
Qed.
End index_ops.

(** * Reading tables and indexes

    About the reads of [MemoryStorage.v]: the ranges of [seek], the uniqueness tests, and
    the order of [scan]. *)

Section search.

Notation cols ix := (key_columns (ix_order ix)).

(** ** Ranges *)

Definition above (cs : list Column) (b : Bound (list Value)) (k : list Value) : Prop :=
  match b with
  | Unbounded => True
  | Included p => keys_order cs k p ≠ Lt
  | Excluded p => keys_order cs k p = Gt
  end.

Definition below (cs : list Column) (b : Bound (list Value)) (k : list Value) : Prop :=
  match b with
  | Unbounded => True
  | Included p => keys_order cs k p ≠ Gt
  | Excluded p => keys_order cs k p = Lt
  end.

(** The keys a range selects. *)
Definition in_range (cs : list Column) (rg : KeyRange) (k : list Value) : Prop :=
  match rg with
  | Full => True
  | Point p => keys_order cs k p = Eq
  | Between lo hi => above cs lo k ∧ below cs hi k
  end.

#[export] Instance above_dec cs b k : Decision (above cs b k).
Proof. destruct b; simpl; apply _. Defined.
#[export] Instance below_dec cs b k : Decision (below cs b k).
Proof. destruct b; simpl; apply _. Defined.
#[export] Instance in_range_dec cs rg k : Decision (in_range cs rg k).
Proof. destruct rg; simpl; apply _. Defined.

Definition bound_fits (cs : list Column) (b : Bound (list Value)) : Prop :=
  match b with Included p | Excluded p => prefix_fits cs p | Unbounded => True end.

Definition range_fits (cs : list Column) (rg : KeyRange) : Prop :=
  match rg with
  | Full => True
  | Point p => prefix_fits cs p
  | Between lo hi => bound_fits cs lo ∧ bound_fits cs hi
  end.

Lemma check_variants_fits i cs p : prefix_fits cs p → check_variants i cs p = Ok ().
Proof.
  revert i p. induction cs as [|c cs IH]; intros i [|v p] Hp; [done..|]. simpl.
  apply prefix_fits_cons in Hp as [Hv Hp].
  assert (Hm : variant_matches v (col_ty c) = true) by (by destruct Hv as [->|[? _]]).
  rewrite Hm. by apply IH.
Qed.

Lemma check_prefix_fits o p : prefix_fits (key_columns o) p → check_prefix o p = Ok ().
Proof.
  intros Hp. unfold check_prefix. rewrite bool_decide_false by (destruct Hp; lia).
  by apply check_variants_fits.
Qed.

Lemma check_bound_fits o b : bound_fits (key_columns o) b → check_bound o b = Ok ().
Proof. destruct b; simpl; auto using check_prefix_fits. Qed.

(** A list cut at two positions. *)
Lemma slice_filter {A} (l : list A) (P Q : A → Prop) `{∀ x, Decision (P x), ∀ x, Decision (Q x)} s e :
  s ≤ length l → e ≤ length l →
  Forall (λ x, ¬ P x) (take s l) → Forall P (drop s l) →
  Forall Q (take e l) → Forall (λ x, ¬ Q x) (drop e l) →
  slice l s (e `max` s) = filter (λ x, P x ∧ Q x) l.
Proof.
  intros Hs He HP1 HP2 HQ1 HQ2. unfold slice. rewrite !bool_decide_true by lia. simpl.
  destruct (decide (s ≤ e)) as [Hle|Hlt].
  - rewrite Nat.max_l by lia.
    assert (Hl : l = take s l ++ take (e - s) (drop s l) ++ drop e l).
    { rewrite <- (take_drop s l) at 1. f_equal. rewrite <- (take_drop (e - s) (drop s l)) at 1.
      f_equal. rewrite drop_drop. f_equal. lia. }
    assert (Htk : take e l = take s l ++ take (e - s) (drop s l)).
    { rewrite take_take_drop. f_equal. lia. }
    rewrite Hl at 2. rewrite !filter_app. rewrite (filter_nil _ (take s l)), (filter_nil _ (drop e l)).
    + rewrite filter_id; [by rewrite app_nil_r|]. rewrite Htk in HQ1. apply Forall_app in HQ1 as [_ HQ1].
      rewrite Forall_forall in *. intros x Hx. split; [|by apply HQ1]. apply HP2.
      rewrite <- (take_drop (e - s) (drop s l)). set_solver.
    + eapply Forall_impl; [exact HQ2|]. simpl. tauto.
    + eapply Forall_impl; [exact HP1|]. simpl. tauto.
  - rewrite Nat.max_r, Nat.sub_diag by lia. simpl. symmetry. apply filter_nil.
    rewrite <- (take_drop s l). apply Forall_app. split.
    + eapply Forall_impl; [exact HP1|]. simpl. tauto.
    + assert (Hd : drop s l = drop (s - e) (drop e l)) by (rewrite drop_drop; f_equal; lia).
      rewrite Hd. apply Forall_drop. eapply Forall_impl; [exact HQ2|]. simpl. tauto.
Qed.

(** Where a lower, and an upper, limit of the range cuts the entries. *)
Lemma above_cut ix lo :
  index_wf ix → bound_fits (cols ix) lo →
  ∃ s, match lo with
       | Unbounded => Ok 0
       | Included p => lower_bound ix p
       | Excluded p => upper_bound ix p
       end = Ok s ∧ s ≤ length (ix_entries ix) ∧
    Forall (λ e, ¬ above (cols ix) lo (e_key e)) (take s (ix_entries ix)) ∧
    Forall (λ e, above (cols ix) lo (e_key e)) (drop s (ix_entries ix)).
Proof.
  intros Hwf Hp. destruct lo as [p|p|]; simpl in *.
  - destruct (bounds_split ix p Hwf Hp) as (l1 & l2 & l3 & -> & H1 & H2 & H3 & -> & _).
    exists (length l1). rewrite take_app_length, drop_app_length, length_app.
    split; [done|]. split; [lia|]. split; [eapply Forall_impl; [exact H1|]; simpl; tauto|].
    apply Forall_app. split; [eapply Forall_impl; [exact H2|]|eapply Forall_impl; [exact H3|]];
      simpl; intros e ->; done.
  - destruct (bounds_split ix p Hwf Hp) as (l1 & l2 & l3 & -> & H1 & H2 & H3 & _ & ->).
    exists (length l1 + length l2). rewrite app_assoc, <- length_app, take_app_length, drop_app_length.
    split; [done|]. split; [rewrite !length_app; lia|]. split; [|done].
    apply Forall_app. split; [eapply Forall_impl; [exact H1|]|eapply Forall_impl; [exact H2|]];
      simpl; intros e ->; done.
  - exists 0. split; [done|]. split; [lia|]. rewrite take_0, drop_0. split; [constructor|].
    by apply Forall_true.
Qed.

Lemma below_cut ix hi :
  index_wf ix → bound_fits (cols ix) hi →
  ∃ e, match hi with
       | Unbounded => Ok (length (ix_entries ix))
       | Included p => upper_bound ix p
       | Excluded p => lower_bound ix p
       end = Ok e ∧ e ≤ length (ix_entries ix) ∧
    Forall (λ x, below (cols ix) hi (e_key x)) (take e (ix_entries ix)) ∧
    Forall (λ x, ¬ below (cols ix) hi (e_key x)) (drop e (ix_entries ix)).
Proof.
  intros Hwf Hp. destruct hi as [p|p|]; simpl in *.
  - destruct (bounds_split ix p Hwf Hp) as (l1 & l2 & l3 & -> & H1 & H2 & H3 & _ & ->).
    exists (length l1 + length l2). rewrite app_assoc, <- length_app, take_app_length, drop_app_length.
    split; [done|]. split; [rewrite !length_app; lia|].
    split; [|eapply Forall_impl; [exact H3|]; simpl; tauto].
    apply Forall_app. split; [eapply Forall_impl; [exact H1|]|eapply Forall_impl; [exact H2|]];
      simpl; intros e ->; done.
  - destruct (bounds_split ix p Hwf Hp) as (l1 & l2 & l3 & -> & H1 & H2 & H3 & -> & _).
    exists (length l1). rewrite take_app_length, drop_app_length, length_app.
    split; [done|]. split; [lia|]. split; [done|].
    apply Forall_app. split; [eapply Forall_impl; [exact H2|]|eapply Forall_impl; [exact H3|]];
      simpl; intros e ->; done.
  - exists (length (ix_entries ix)). split; [done|]. split; [lia|].
    rewrite take_ge, drop_ge by lia. split; [by apply Forall_true|constructor].
Qed.

(** The positions of a range are those of the entries whose key is in it. *)
Lemma positions_exact ix rg :
  index_wf ix → range_fits (cols ix) rg →
  ∃ s e, positions ix rg = Ok (s, e) ∧
    slice (ix_entries ix) s e = filter (λ x, in_range (cols ix) rg (e_key x)) (ix_entries ix).
Proof.
  intros Hwf Hr. unfold positions. destruct rg as [p|lo hi|]; simpl in *.
  - rewrite (check_prefix_fits _ _ Hr). simpl.
    destruct (bounds_split ix p Hwf Hr) as (l1 & l2 & l3 & _ & _ & _ & _ & Hlo & Hhi).
    pose proof (equal_slice ix p _ _ Hwf Hr Hlo Hhi) as Hs. rewrite Hlo. simpl. rewrite Hhi. simpl.
    eexists _, _. split; [done|]. rewrite Nat.max_l by lia. exact Hs.
  - destruct Hr as [Hlo Hhi]. rewrite (check_bound_fits _ _ Hlo). simpl.
    rewrite (check_bound_fits _ _ Hhi). simpl.
    destruct (above_cut ix lo Hwf Hlo) as (s & -> & Hs & HP1 & HP2). simpl.
    destruct (below_cut ix hi Hwf Hhi) as (e & -> & He & HQ1 & HQ2). simpl.
    eexists _, _. split; [done|]. by apply slice_filter.
  - eexists _, _. split; [done|]. rewrite Nat.max_l by lia. unfold slice.
    rewrite !bool_decide_true by lia. simpl. rewrite Nat.sub_0_r, drop_0, take_ge by lia.
    symmetry. apply filter_id. by apply Forall_true.
Qed.

(** ** [seek] *)

(** The order of the rows: key, then row identifier. *)
Definition row_order (o : KeyOrder) (a b : RowId * Row) : comparison :=
  then_with (keys_order (key_columns o) (key_of o a.2) (key_of o b.2)) (a.1 ?= b.1)%N.

Definition row_ok (o : KeyOrder) (ir : RowId * Row) : Prop :=
  extract o ir.2 = Ok (key_of o ir.2) ∧ key_fits (key_columns o) (key_of o ir.2).

Lemma row_order_total o : TotalOn (row_ok o) (row_order o).
Proof.
  unfold row_order. apply total_then.
  - pose proof (keys_order_total (length (key_columns o)) (key_columns o)) as Ht.
    rewrite take_ge in Ht by done.
    apply (total_weaken (λ ir : RowId * Row, key_fits (key_columns o) (key_of o ir.2))).
    + exact (total_map (λ ir : RowId * Row, key_of o ir.2) _ _ Ht).
    + intros ir [_ ?]. done.
  - apply (total_weaken (λ _, True)); [|done]. exact (total_map fst _ _ total_N).
Qed.

(** In the direction of a search. *)
Definition in_direction (o : KeyOrder) (dir : Direction) (a b : RowId * Row) : Prop :=
  row_order o a b ≠ match dir with Forward => Gt | Backward => Lt end.

Definition visible_version (snap : Snapshot) (s : Inner) (v : Version) : bool :=
  is_visible snap (v_xmin v) (v_xmax v) (status s).

Lemma index_entry_version tb ix :
  table_wf tb → index_ok tb ix →
  ∃ L, L ≡ₚ versions_of (rows tb) ∧
    ix_entries ix = (λ rv : RowId * Version, entry_of (ix_order ix) rv.1 rv.2) <$> L.
Proof.
  intros Hwf Hok. pose proof (io_entries _ _ Hok) as Hp. rewrite entries_of_versions in Hp.
  destruct (Permutation_map_inv _ _ Hp) as (L & HL & Hperm). exists L.
  split; [by symmetry|done].
Qed.

Lemma seek_entries snap s id tb o L :
  table_wf tb → (∀ rv, rv ∈ L → rv ∈ versions_of (rows tb)) →
  ∃ found, try_map (seek_entry snap (status s) id (rows tb))
      ((λ rv : RowId * Version, entry_of o rv.1 rv.2) <$> L) = Ok found ∧
    omap (λ x, x) found =
      (λ rv : RowId * Version, (rv.1, v_data rv.2)) <$>
      filter (λ rv : RowId * Version, visible_version snap s rv.2 = true) L.
Proof.
  intros Hwf. induction L as [|[row v] L IH]; intros HL; [by exists []|].
  destruct IH as (found & Hm & Ho); [set_solver|].
  destruct (elem_of_versions (rows tb) row v) as [(vs & Hr & Hv) _]; [apply HL; by left|].
  assert (Hone : seek_entry snap (status s) id (rows tb) (entry_of o row v) =
    Ok (if visible_version snap s v then Some (row, v_data v) else None)).
  { unfold seek_entry. simpl. by rewrite (find_version_ok tb row vs v). }
  eexists. rewrite fmap_cons. cbn [try_map fst snd]. rewrite Hone. simpl. rewrite Hm. simpl.
  split; [done|]. simpl.
  destruct (visible_version snap s v) eqn:Hvis.
  - rewrite filter_cons_True by done. csimpl. by f_equal.
  - rewrite filter_cons_False by (simpl; congruence). done.
Qed.

Lemma seek_ok snap id rg dir s ix tb :
  storage_ok s → indexes s !! id = Some ix → tables s !! ix_table ix = Some tb →
  range_fits (cols ix) rg →
  ∃ l, seek snap id rg dir s = Ok l ∧
    l ≡ₚ (λ rv : RowId * Version, (rv.1, v_data rv.2)) <$>
         filter (λ rv : RowId * Version, visible_version snap s rv.2 = true ∧
                        in_range (cols ix) rg (key_of (ix_order ix) (v_data rv.2)))
           (versions_of (rows tb)) ∧
    StronglySorted (in_direction (ix_order ix) dir) l.
Proof.
  intros Hok Hid Htid Hr. pose proof (proj1 (bo_tables _ Hok _ _ Htid)) as Hwf.
  assert (Hiok : index_ok tb ix).
  { destruct (bo_indexes _ Hok _ _ Hid) as (_ & tb' & Htb' & Hin). simplify_eq.
    destruct (bo_table_indexes _ Hok _ _ _ Htid Hin) as (ix' & Hid' & _ & ?). by simplify_eq. }
  pose proof (index_ok_wf _ _ Hwf Hiok) as Hiwf.
  destruct (positions_exact ix rg Hiwf Hr) as (p & q & Hpos & Hsl).
  destruct (index_entry_version _ _ Hwf Hiok) as (L & HL & Hents).
  set (P := λ rv : RowId * Version, in_range (cols ix) rg (key_of (ix_order ix) (v_data rv.2))).
  assert (Hsl' : slice (ix_entries ix) p q =
    (λ rv : RowId * Version, entry_of (ix_order ix) rv.1 rv.2) <$> filter P L).
  { rewrite Hsl, Hents. by rewrite filter_of_fmap. }
  destruct (seek_entries snap s id tb (ix_order ix) (filter P L)) as (found & Hfound & Hout).
  { done. }
  { intros rv [_ Hin]%list_elem_of_filter. by rewrite <- HL. }
  unfold seek, index. rewrite Hid. simpl. rewrite Htid, Hpos. simpl. rewrite Hsl', Hfound. simpl.
  rewrite Hout, filter_of_filter. eexists. split; [done|].
  set (out := (λ rv : RowId * Version, (rv.1, v_data rv.2)) <$> _).
  assert (Hperm : out ≡ₚ (λ rv : RowId * Version, (rv.1, v_data rv.2)) <$>
    filter (λ rv : RowId * Version, visible_version snap s rv.2 = true ∧ P rv) (versions_of (rows tb))).
  { unfold out. by rewrite HL. }
  assert (Hsort : StronglySorted (in_direction (ix_order ix) Forward) out).
  { unfold out. apply StronglySorted_fmap. eapply StronglySorted_sublist; [|apply sublist_filter].
    pose proof (en_sorted _ _ Hiwf) as Hs. unfold entries_sorted in Hs. rewrite Hents in Hs.
    rewrite StronglySorted_fmap in Hs. eapply StronglySorted_impl; [|exact Hs]. simpl.
    intros a b _ _. unfold entry_order, in_direction, row_order. simpl. by destruct (keys_order _ _ _); simpl; [destruct (a.1 ?= b.1)%N|..]. }
  destruct dir; [done|]. split; [by rewrite reverse_Permutation|].
  eapply StronglySorted_impl; [|apply StronglySorted_reverse; exact Hsort].
  assert (Hfit : ∀ x, x ∈ reverse out → row_ok (ix_order ix) x).
  { intros x. rewrite elem_of_reverse. unfold out. intros ([r' v] & -> & Hin)%list_elem_of_fmap.
    apply list_elem_of_filter in Hin as [_ Hin]. rewrite HL in Hin.
    apply elem_of_versions in Hin as (vs & Hrow & Hv).
    pose proof (ch_fits _ _ (tw_chains _ Hwf _ _ Hrow)) as Hf. rewrite Forall_forall in Hf.
    eapply (extract_fits (shape tb)); [apply Hiok|by apply Hf]. }
  intros a b Ha Hb Hle Hlt. apply Hle. pose proof (row_order_total (ix_order ix)) as Ht. cbv beta in *.
  rewrite (tc_opp (TotalOn := Ht) a b) by eauto.
  by rewrite Hlt.
Qed.

(** ** [sort_rows] *)

Definition keyed (o : KeyOrder) (ir : RowId * Row) : list Value * RowId * Row :=
  (key_of o ir.2, ir.1, ir.2).

Lemma sort_insert_ok o done ir :
  Forall (row_ok o) done → row_ok o ir → StronglySorted (λ a b, row_order o a b ≠ Gt) done →
  ∃ done', sort_insert o (keyed o <$> done) ir = Ok (keyed o <$> done') ∧ done' ≡ₚ ir :: done ∧
    StronglySorted (λ a b, row_order o a b ≠ Gt) done'.
Proof.
  intros Hd Hir Hs. destruct ir as [id row]. pose proof (row_order_total o) as Ht.
  rewrite Forall_forall in Hd.
  destruct (monotone_split (λ e, bool_decide (row_order o e (id, row) = Lt)) done) as (l1 & l2 & -> & H1 & H2).
  { eapply StronglySorted_impl; [|exact Hs]. intros a b Ha Hb Hab. simpl. rewrite !bool_decide_eq_true.
    intros Hb'. apply (tc_le_lt _ _ (Hc := Ht) a b (id, row)); auto. }
  exists (l1 ++ (id, row) :: l2). rewrite Forall_forall in H1, H2. split; [|split].
  - unfold sort_insert. destruct Hir as [He Hk]. simpl in He, Hk. rewrite He. simpl.
    rewrite fmap_app.
    rewrite (partition_point_spec _ (λ e : list Value * RowId * Row,
      bool_decide (row_order o (e.1.2, e.2) (id, row) = Lt))).
    + simpl. unfold insert_at. rewrite take_app_length, drop_app_length, fmap_app. done.
    + intros e Hin. rewrite <- fmap_app in Hin. apply list_elem_of_fmap in Hin as ([id' row'] & -> & Hin).
      simpl. rewrite (compare_prefix_fits o); [|by apply (Hd _ Hin)|apply Hk]. simpl. unfold row_order. simpl.
      f_equal. destruct (keys_order _ _ _); simpl; [|done..].
      destruct (N.ltb_spec id' id).
      * by rewrite bool_decide_true by (by apply N.compare_lt_iff).
      * rewrite bool_decide_false; [done|]. rewrite N.compare_lt_iff. lia.
    + rewrite Forall_fmap. apply Forall_forall. intros [id' row'] Hin. by apply (H1 (id', row')).
    + rewrite Forall_fmap. apply Forall_forall. intros [id' row'] Hin. by apply (H2 (id', row')).
  - symmetry. apply Permutation_middle.
  - apply StronglySorted_app in Hs as (Hc & Hs1 & Hs2). apply StronglySorted_app. split_and!; [|done|].
    + intros a b Ha [->|Hb]%elem_of_cons; [|by apply Hc]. specialize (H1 _ Ha). simpl in H1.
      apply bool_decide_eq_true in H1. by rewrite H1.
    + constructor; [done|]. apply Forall_forall. intros b Hb. specialize (H2 _ Hb). simpl in H2.
      apply bool_decide_eq_false in H2. apply (tc_le_ge _ _ (Hc := Ht)); [done| |done]. apply Hd. set_solver.
Qed.

Lemma sort_rows_ok o rs :
  Forall (row_ok o) rs →
  ∃ l, sort_rows o rs = Ok l ∧ l ≡ₚ rs ∧ StronglySorted (λ a b, row_order o a b ≠ Gt) l.
Proof.
  intros Hrs.
  assert (Hgen : ∀ done, Forall (row_ok o) done → StronglySorted (λ a b, row_order o a b ≠ Gt) done →
    ∃ l, try_fold (sort_insert o) (keyed o <$> done) rs = Ok (keyed o <$> l) ∧ l ≡ₚ rs ++ done ∧
      StronglySorted (λ a b, row_order o a b ≠ Gt) l).
  { induction Hrs as [|ir rs Hir _ IH]; intros done Hd Hs; [by exists done|].
    destruct (sort_insert_ok o done ir Hd Hir Hs) as (d1 & Hi & Hp1 & Hs1).
    destruct (IH d1) as (l & Hl & Hp & Hsl); [rewrite Hp1; by constructor|done|].
    exists l. cbn [try_fold]. rewrite Hi. simpl. split; [done|]. split; [|done].
    rewrite Hp, Hp1. symmetry. apply Permutation_middle. }
  destruct (Hgen []) as (l & Hl & Hp & Hs); [constructor|constructor|]. rewrite app_nil_r in Hp.
  exists l. split; [|done]. unfold sort_rows. csimpl in Hl. simpl in Hl. rewrite Hl. simpl. f_equal.
  change (map ?f ?k) with (f <$> k). rewrite <- list_fmap_compose.
  rewrite <- (list_fmap_id l) at 2. apply list_fmap_ext. by intros i [].
Qed.

(** ** [scan] *)

(** The rows of a table a snapshot sees, by increasing identifier. *)
Lemma elem_of_visible_rows snap st r id d :
  (id, d) ∈ visible_rows snap st r ↔ ∃ vs v, r !! id = Some vs ∧ visible snap st vs = Some v ∧ d = v_data v.
Proof.
  unfold visible_rows. rewrite list_elem_of_omap. split.
  - intros ([id' vs] & Hin & Hv). apply elem_of_sorted_entries in Hin. simpl in Hv.
    destruct (visible snap st vs) as [v|] eqn:Hvis; [|done]. injection Hv as <- <-. eauto.
  - intros (vs & v & Hr & Hv & ->). exists (id, vs). rewrite elem_of_sorted_entries. split; [done|].
    simpl. by rewrite Hv.
Qed.

Lemma visible_rows_sorted snap st r :
  StronglySorted (λ a b, (a.1 < b.1)%N) (visible_rows snap st r).
Proof.
  unfold visible_rows.
  assert (Hs : StronglySorted (λ a b, (a.1 < b.1)%N) (sorted_entries N.le r)).
  { assert (Hk : StronglySorted N.le (sorted_entries N.le r).*1).
    { rewrite sorted_entries_fst. apply sorted_keys_sorted; apply _. }
    assert (Hnd : NoDup (sorted_entries N.le r).*1) by (rewrite sorted_entries_fst; apply NoDup_sorted_keys).
    rewrite StronglySorted_fmap in Hk. revert Hk Hnd. generalize (sorted_entries N.le r).
    intros es Hk Hnd. induction Hk as [|x l Hk IH Hx]; [constructor|]. csimpl in Hnd.
    apply NoDup_cons in Hnd as [Hni Hnd]. constructor; [by apply IH|].
    rewrite Forall_forall in *. intros y Hy. specialize (Hx y Hy). simpl in Hx.
    destruct (decide (x.1 = y.1)) as [He|]; [|lia]. exfalso. apply Hni. rewrite He.
    apply list_elem_of_fmap. eauto. }
  revert Hs. generalize (sorted_entries N.le r). intros es Hs.
  induction Hs as [|[id vs] l Hs IH Hx]; [constructor|]. simpl.
  destruct (visible snap st vs) as [v|]; simpl; [|exact IH]. constructor; [exact IH|].
  rewrite Forall_forall in Hx. apply Forall_forall. intros [id' d] Hin.
  apply list_elem_of_omap in Hin as ([id2 vs2] & Hin & Hv).
  simpl in Hv. destruct (visible snap st vs2); [|done]. injection Hv as <- <-. by apply (Hx (id2, vs2)).
Qed.

Lemma increasing_NoDup {A} (l : list (N * A)) :
  StronglySorted (λ a b, (a.1 < b.1)%N) l → NoDup l.*1.
Proof.
  induction 1 as [|x k _ IH Hx]; csimpl; [constructor|]. constructor; [|done].
  intros (y & Hy & Hin)%list_elem_of_fmap. rewrite Forall_forall in Hx. specialize (Hx y Hin).
  simpl in Hx. lia.
Qed.

Lemma visible_in snap st vs v : visible snap st vs = Some v → v ∈ vs.
Proof.
  unfold visible. intros ([i u] & Hf & ->)%fmap_Some. apply list_find_Some in Hf as (Hi & _).
  by eapply list_elem_of_lookup_2.
Qed.

Lemma scan_ok snap tid s tb :
  storage_ok s → tables s !! tid = Some tb →
  ∃ l, scan snap tid s = Ok l ∧ l ≡ₚ visible_rows snap (status s) (rows tb) ∧
    match clustered tb with
    | Some o => StronglySorted (λ a b, row_order o a b ≠ Gt) l
    | None => StronglySorted (λ a b, (a.1 < b.1)%N) l
    end.
Proof.
  intros Hok Htid. pose proof (proj1 (bo_tables _ Hok _ _ Htid)) as Hwf.
  unfold scan, table. rewrite Htid. simpl. destruct (clustered tb) as [o|] eqn:Hcl.
  - apply sort_rows_ok. apply Forall_forall. intros [id d] (vs & v & Hr & Hv & ->)%elem_of_visible_rows.
    pose proof (ch_fits _ _ (tw_chains _ Hwf _ _ Hr)) as Hf. rewrite Forall_forall in Hf.
    eapply (extract_fits (shape tb)); [by apply (tw_clustered _ Hwf)|]. by apply Hf, (visible_in snap (status s)).
  - eexists. split; [done|]. split; [done|]. apply visible_rows_sorted.
Qed.
End search.
