(* ===== verification/StorageUnique.v ===== *)
(** * Uniqueness tests

    About [has_live_duplicate] and [first_duplicate_key] of [Index.v]: they answer [true],
    or a key, exactly when live versions of another row, or of two rows, have equal keys. *)

From S2P Require Import Prelude Values Errors Snapshot Order CollationFacts Compare KeyOrder.
From S2P Require Import Table Index IndexFacts MemoryStorage StorageInv StorageFacts StorageOps.
From S2P Require Import StorageCatalog StorageSearch.

Section unique.
Context (tb : Table) (ix : Index).
Hypothesis Hwf : table_wf tb.
Hypothesis Hiok : index_ok tb ix.

Notation cols := (key_columns (ix_order ix)).
Notation entry rv := (entry_of (ix_order ix) rv.1 rv.2).
Notation key rv := (key_of (ix_order ix) (v_data rv.2)).
Notation vers := (versions_of (rows tb)).

Lemma version_of_ok (rv : RowId * Version) : rv ∈ vers → version_of ix (rows tb) (entry rv) = Ok rv.2.
Proof.
  destruct rv as [row v]. intros (vs & Hr & Hv)%elem_of_versions. unfold version_of. simpl.
  by rewrite (find_version_ok tb row vs v).
Qed.

Lemma any_live_ok txn st skip (L : list (RowId * Version)) :
  (∀ rv, rv ∈ L → rv ∈ vers) →
  ∃ b, any_live ix (rows tb) txn st skip ((λ rv : RowId * Version, entry rv) <$> L) = Ok b ∧
    (b = true ↔ ∃ rv, rv ∈ L ∧ Some rv.1 ≠ skip ∧ is_live rv.2 txn st = true).
Proof.
  induction L as [|rv L IH]; intros HL; [exists false; split; [done|set_solver]|].
  destruct IH as (b & Hb & Hiff); [set_solver|]. rewrite fmap_cons. cbn [any_live e_row entry_of].
  case_bool_decide as Hskip.
  - exists b. split; [done|]. rewrite Hiff. split; intros (rv' & Hin & Hs & Hl); exists rv'; [set_solver|].
    apply elem_of_cons in Hin as [->|Hin]; done.
  - rewrite version_of_ok by set_solver. simpl. destruct (is_live rv.2 txn st) eqn:Hlive.
    + exists true. split; [done|]. split; [|done]. intros _. exists rv. split; [by left|done].
    + exists b. split; [done|]. rewrite Hiff. split; intros (rv' & Hin & Hs & Hl); exists rv'; [set_solver|].
      apply elem_of_cons in Hin as [->|Hin]; [congruence|done].
Qed.

Lemma has_live_duplicate_ok k txn st skip :
  key_fits cols k →
  ∃ b, has_live_duplicate ix k (rows tb) txn st skip = Ok b ∧
    (b = true ↔ ∃ rv, rv ∈ vers ∧ Some rv.1 ≠ skip ∧ keys_order cols (key rv) k = Eq ∧
                      is_live rv.2 txn st = true).
Proof.
  intros [Hk _]. pose proof (index_ok_wf _ _ Hwf Hiok) as Hiwf.
  destruct (bounds_split ix k Hiwf Hk) as (l1 & l2 & l3 & _ & _ & _ & _ & Hlo & Hhi).
  pose proof (equal_slice ix k _ _ Hiwf Hk Hlo Hhi) as Hsl.
  destruct (index_entry_version _ _ Hwf Hiok) as (L & HL & Hents).
  rewrite Hents, filter_of_fmap in Hsl.
  destruct (any_live_ok txn st skip (filter (λ rv : RowId * Version, keys_order cols (key rv) k = Eq) L))
    as (b & Hb & Hiff).
  { intros rv [_ Hin]%list_elem_of_filter. by rewrite <- HL. }
  exists b. split.
  - unfold has_live_duplicate. rewrite Hlo. simpl. rewrite Hhi. simpl. rewrite Hents, Hsl. exact Hb.
  - rewrite Hiff. split; intros (rv & H1 & H2 & H3); exists rv.
    + apply list_elem_of_filter in H1 as [? Hin]. rewrite HL in Hin. done.
    + destruct H3. split; [|done]. apply list_elem_of_filter. split; [done|]. by rewrite HL.
Qed.

(** ** The scan for duplicates of [create_index] *)

Notation live st := (λ rv : RowId * Version, is_live rv.2 None st = true).

(** Two live versions of different rows with equal keys. *)
Definition duplicates (st : TxnId → TxnStatus) (rv1 rv2 : RowId * Version) : Prop :=
  rv1.1 ≠ rv2.1 ∧ live st rv1 ∧ live st rv2 ∧ keys_order cols (key rv1) (key rv2) = Eq.

Lemma group_duplicate_ok st seen (L : list (RowId * Version)) :
  (∀ rv, rv ∈ L → rv ∈ vers) →
  ∃ b, group_duplicate ix (rows tb) st seen ((λ rv : RowId * Version, entry rv) <$> L) = Ok b ∧
    match b with
    | true => (∃ rv1 rv2, rv1 ∈ L ∧ rv2 ∈ L ∧ rv1.1 ≠ rv2.1 ∧ live st rv1 ∧ live st rv2) ∨
              (∃ r rv, seen = Some r ∧ rv ∈ L ∧ rv.1 ≠ r ∧ live st rv)
    | false => ∃ r, (seen = None ∨ seen = Some r) ∧ ∀ rv, rv ∈ L → live st rv → rv.1 = r
    end.
Proof.
  revert seen. induction L as [|rv L IH]; intros seen HL.
  { exists false. split; [done|]. exists (default 0%N seen). split; [destruct seen; auto|set_solver]. }
  rewrite fmap_cons. cbn [group_duplicate e_row entry_of].
  rewrite version_of_ok by set_solver. simpl. destruct (is_live rv.2 None st) eqn:Hlive; simpl.
  - destruct seen as [r|]; [case_bool_decide as Hr|].
    + subst r. destruct (IH (Some rv.1)) as (b & Hb & Hm); [set_solver|]. exists b. split; [done|].
      destruct b.
      * destruct Hm as [(a & c & Ha & Hc & ?)|(r & a & ? & Ha & ?)]; [left|right].
        -- exists a, c. set_solver.
        -- exists r, a. set_solver.
      * destruct Hm as (r & [|[= <-]] & Hall); [done|]. exists rv.1. split; [by right|].
        intros a [->|Ha]%elem_of_cons; auto.
    + exists true. split; [done|]. right. exists r, rv. split; [done|]. split; [by left|done].
    + destruct (IH (Some rv.1)) as (b & Hb & Hm); [set_solver|]. exists b. split; [done|].
      destruct b.
      * left. destruct Hm as [(a & c & Ha & Hc & ?)|(r & a & [= <-] & Ha & Hne & Hla)].
        -- exists a, c. set_solver.
        -- exists a, rv. split_and!; [set_solver|by left|done|done|done].
      * destruct Hm as (r & [|[= <-]] & Hall); [done|]. exists rv.1. split; [by left|].
        intros a [->|Ha]%elem_of_cons; auto.
  - destruct (IH seen) as (b & Hb & Hm); [set_solver|]. exists b. split; [done|]. destruct b.
    + destruct Hm as [(a & c & Ha & Hc & ?)|(r & a & ? & Ha & ?)]; [left|right].
      * exists a, c. set_solver.
      * exists r, a. set_solver.
    + destruct Hm as (r & Hs & Hall). exists r. split; [done|].
      intros a [->|Ha]%elem_of_cons Hla; [congruence|auto].
Qed.

(** The keys before a position are smaller than those from it on. *)
Definition boundary (L : list (RowId * Version)) (g : nat) : Prop :=
  ∀ a b, a ∈ take g L → b ∈ drop g L → keys_order cols (key a) (key b) = Lt.

Lemma version_fits (rv : RowId * Version) : rv ∈ vers → key_fits cols (key rv).
Proof.
  destruct rv as [row v]. intros (vs & Hr & Hv)%elem_of_versions.
  pose proof (ch_fits _ _ (tw_chains _ Hwf _ _ Hr)) as Hf. rewrite Forall_forall in Hf.
  eapply (extract_fits (shape tb)); [apply Hiok|by apply Hf].
Qed.

(** One turn of the [while] loop: the group of the first key. *)
Lemma group_at (L : list (RowId * Version)) g first :
  (∀ rv, rv ∈ L → rv ∈ vers) → ix_entries ix = (λ rv : RowId * Version, entry rv) <$> L →
  boundary L g → L !! g = Some first →
  ∃ L1 L2 L3, L = L1 ++ L2 ++ L3 ∧ length L1 = g ∧ L2 ≠ [] ∧
    upper_bound ix (key first) = Ok (g + length L2) ∧
    Forall (λ rv : RowId * Version, keys_order cols (key rv) (key first) = Eq) L2 ∧
    boundary L (g + length L2).
Proof.
  intros HL Hents Hbd Hg. pose proof (index_ok_wf _ _ Hwf Hiok) as Hiwf.
  assert (Hfirst : first ∈ L) by (by eapply list_elem_of_lookup_2).
  pose proof (version_fits first (HL _ Hfirst)) as Hff.
  pose proof (keys_order_total (length cols) cols) as Ht. rewrite take_ge in Ht by done.
  destruct (bounds_split ix (key first) Hiwf (proj1 Hff)) as (l1 & l2 & l3 & He & H1 & H2 & H3 & _ & Hub).
  rewrite Hents in He. apply fmap_app_inv in He as (L1 & L23 & -> & He & ->).
  symmetry in He.
  apply fmap_app_inv in He as (L2 & L3 & -> & -> & ->).
  rewrite Forall_fmap in H1, H2, H3. unfold compose in *. simpl in *.
  assert (Hrefl : keys_order cols (key first) (key first) = Eq) by (by apply (tc_refl (TotalOn := Ht))).
  rewrite Forall_forall in H1, H2, H3.
  assert (Hlen : length L1 = g).
  { destruct (decide (length L1 < g)) as [Hlt|Hge].
    - exfalso. destruct L2 as [|x L2].
      + assert (Hin : first ∈ L3).
        { apply elem_of_app in Hfirst as [Hf|Hf]; [|done]. specialize (H1 _ Hf). simpl in H1. congruence. }
        specialize (H3 _ Hin). simpl in H3. congruence.
      + assert (Hx : x ∈ take g (L1 ++ (x :: L2) ++ L3)).
        { rewrite take_app_ge by lia. apply elem_of_app. right.
          destruct (g - length L1) eqn:Hn; [lia|]. simpl. by left. }
        assert (Hd : first ∈ drop g (L1 ++ (x :: L2) ++ L3)).
        { apply list_elem_of_lookup. exists 0. rewrite lookup_drop, Nat.add_0_r. done. }
        specialize (Hbd _ _ Hx Hd). specialize (H2 x ltac:(by left)). simpl in H2. congruence.
    - destruct (decide (length L1 = g)) as [|Hne]; [done|exfalso].
      rewrite lookup_app_l in Hg by lia. apply list_elem_of_lookup_2 in Hg.
      specialize (H1 _ Hg). simpl in H1. congruence. }
  exists L1, L2, L3. split; [done|]. split; [done|].
  assert (Hne : L2 ≠ []).
  { intros ->. rewrite lookup_app_r, Hlen, Nat.sub_diag in Hg by lia. simpl in Hg.
    apply list_elem_of_lookup_2 in Hg. specialize (H3 _ Hg). simpl in H3. congruence. }
  split; [done|]. split; [rewrite Hub, !length_fmap; f_equal; lia|].
  split; [by apply Forall_forall|].
  intros a b. rewrite app_assoc, <- Hlen, <- length_app, take_app_length, drop_app_length.
  intros Ha Hb. assert (Hle : keys_order cols (key a) (key first) ≠ Gt).
  { apply elem_of_app in Ha as [Ha|Ha]; [specialize (H1 _ Ha)|specialize (H2 _ Ha)]; simpl in *; congruence. }
  assert (Hfa : key_fits cols (key a)) by (apply version_fits, HL; set_solver).
  assert (Hfb : key_fits cols (key b)) by (apply version_fits, HL; set_solver).
  assert (Hfb' : keys_order cols (key first) (key b) = Lt).
  { apply (tc_lt_gt _ _ (Hc := Ht)); [done..|]. by apply H3. }
  by apply (tc_le_lt _ _ (Hc := Ht) (key a) (key first) (key b)).
Qed.

Lemma slice_fmap_middle {A B} (f : A → B) L1 L2 L3 :
  slice (f <$> L1 ++ L2 ++ L3) (length L1) (length L1 + length L2) = f <$> L2.
Proof.
  rewrite !fmap_app. pose proof (slice_middle (f <$> L1) (f <$> L2) (f <$> L3)) as Hs.
  by rewrite !length_fmap in Hs.
Qed.

Lemma duplicate_loop_ok st fuel g (L : list (RowId * Version)) :
  (∀ rv, rv ∈ L → rv ∈ vers) → ix_entries ix = (λ rv : RowId * Version, entry rv) <$> L →
  boundary L g → length L - g ≤ fuel →
  ∃ o, duplicate_loop ix (rows tb) st fuel g = Ok o ∧
    match o with
    | Some k => ∃ rv1 rv2, rv1 ∈ L ∧ rv2 ∈ L ∧ duplicates st rv1 rv2 ∧ keys_order cols (key rv1) k = Eq
    | None => ∀ rv1 rv2, rv1 ∈ drop g L → rv2 ∈ drop g L → ¬ duplicates st rv1 rv2
    end.
Proof.
  intros HL Hents. revert g. induction fuel as [|fuel IH]; intros g Hbd Hfuel.
  { exists None. split; [done|]. rewrite drop_ge by lia. set_solver. }
  cbn [duplicate_loop]. destruct (L !! g) as [first|] eqn:Hg.
  2:{ rewrite Hents, list_lookup_fmap, Hg. exists None. split; [done|].
      rewrite drop_ge by (by apply lookup_ge_None). set_solver. }
  rewrite Hents, list_lookup_fmap, Hg, <- Hents. simpl.
  destruct (group_at L g first HL Hents Hbd Hg) as (L1 & L2 & L3 & HeqL & Hlen & Hne & Hub & HE & Hbd').
  rewrite Hub. simpl.
  assert (Hmax : (g + length L2) `max` S g = g + length L2).
  { destruct L2; [done|]. simpl. lia. }
  rewrite Hmax. rewrite Hents, HeqL, <- Hlen, slice_fmap_middle.
  destruct (group_duplicate_ok st None L2) as (b & Hb & Hm); [set_solver|]. rewrite Hb. simpl.
  pose proof (keys_order_total (length cols) cols) as Ht. rewrite take_ge in Ht by done.
  assert (Hfit : ∀ rv, rv ∈ L → key_fits cols (key rv)) by (intros rv Hin; by apply version_fits, HL).
  assert (Hfirst : first ∈ L) by (by eapply list_elem_of_lookup_2).
  rewrite Forall_forall in HE. destruct b.
  - exists (Some (key first)). split; [done|].
    destruct Hm as [(a & c & Ha & Hc & Hrow & Hla & Hlc)|(r & a & [=] & _)].
    exists a, c. rewrite <- HeqL. assert (Hain : a ∈ L) by (rewrite HeqL; set_solver).
    assert (Hcin : c ∈ L) by (rewrite HeqL; set_solver).
    split; [done|]. split; [done|]. split; [|by apply HE]. split_and!; try done.
    rewrite (tc_eq_l _ _ (Hc := Ht) (key a) (key first) (key c)); [|by apply Hfit..|by apply HE].
    rewrite (tc_opp (TotalOn := Ht) (key c) (key first)) by (by apply Hfit). by rewrite HE.
  - rewrite Hlen. destruct (IH (g + length L2) Hbd') as (o & Ho & Hmo).
    { destruct L2; [done|]. simpl. lia. }
    exists o. split; [done|]. rewrite <- HeqL. destruct o as [k|]; [done|]. intros a c.
    assert (Hd : drop g L = L2 ++ L3) by (rewrite HeqL, <- Hlen; apply drop_app_length).
    assert (Hd' : drop (g + length L2) L = L3).
    { rewrite <- drop_drop, Hd. apply drop_app_length. }
    assert (Ht' : ∀ x, x ∈ L2 → x ∈ take (g + length L2) L).
    { intros x Hx. rewrite HeqL, app_assoc, <- Hlen, <- length_app, take_app_length. set_solver. }
    destruct Hm as (r & _ & Hall). rewrite Hd. intros Ha Hc (Hrow & Hla & Hlc & HEq).
    apply elem_of_app in Ha as [Ha|Ha], Hc as [Hc|Hc].
    + apply Hrow. rewrite (Hall a), (Hall c) by done. done.
    + rewrite (Hbd' a c) in HEq; [done|by apply Ht'|by rewrite Hd'].
    + rewrite (tc_opp (TotalOn := Ht) (key c) (key a)) in HEq by (apply Hfit; rewrite HeqL; set_solver).
      rewrite (Hbd' c a) in HEq; [done|by apply Ht'|by rewrite Hd'].
    + apply (Hmo a c); [by rewrite Hd'..|done].
Qed.

Lemma first_duplicate_key_ok st :
  ∃ o, first_duplicate_key ix (rows tb) st = Ok o ∧
    match o with
    | Some k => ∃ rv1 rv2, rv1 ∈ vers ∧ rv2 ∈ vers ∧ duplicates st rv1 rv2 ∧
        keys_order cols (key rv1) k = Eq
    | None => ∀ rv1 rv2, rv1 ∈ vers → rv2 ∈ vers → ¬ duplicates st rv1 rv2
    end.
Proof.
  destruct (index_entry_version _ _ Hwf Hiok) as (L & HL & Hents).
  destruct (duplicate_loop_ok st (length (ix_entries ix)) 0 L) as (o & Ho & Hm).
  - intros rv. by rewrite HL.
  - done.
  - intros a b. rewrite take_0. set_solver.
  - rewrite Hents, length_fmap. lia.
  - exists o. split; [exact Ho|]. destruct o as [k|].
    + destruct Hm as (a & c & Ha & Hc & ?). exists a, c. by rewrite <- HL.
    + intros a c. rewrite <- HL. apply Hm.
Qed.
End unique.

(** ** The entries a write plans *)

Section planned.

(** A live version of a row other than [replacing] has the key of [row] in the unique index [i]. *)
Definition conflict (s : Inner) (tb : Table) (t : TxnId) (row : Row) (replacing : option RowId)
    (i : IndexId) : Prop :=
  ∃ ix rv, indexes s !! i = Some ix ∧ unique (ix_shape ix) = true ∧ rv ∈ versions_of (rows tb) ∧
    Some rv.1 ≠ replacing ∧
    keys_order (key_columns (ix_order ix)) (key_of (ix_order ix) (v_data rv.2)) (key_of (ix_order ix) row) = Eq ∧
    is_live rv.2 (Some t) (status s) = true.

Lemma plan_one_exact s tid tb t row id repl i :
  storage_ok s → tables s !! tid = Some tb → row_fits (shape tb) row → i ∈ t_indexes tb →
  match plan_one t tid row id (next_seq tb) repl s tb i with
  | Ok _ => ¬ conflict s tb t row repl i
  | Err e => conflict s tb t row repl i ∧
      ∃ ix, indexes s !! i = Some ix ∧ e = duplicate_key_index tid i (key_of (ix_order ix) row)
  end.
Proof.
  intros Hok Htid Hfit Hi. pose proof (proj1 (bo_tables _ Hok _ _ Htid)) as Hwf.
  destruct (bo_table_indexes _ Hok _ _ _ Htid Hi) as (ix & Hix & _ & Hiok).
  destruct (extract_fits (shape tb) (ix_order ix) row (io_order _ _ Hiok) Hfit) as [Hex Hk].
  unfold plan_one. rewrite Hix, Hex. simpl.
  assert (Hpos : ∃ pos, position_for ix (key_of (ix_order ix) row) id (next_seq tb) = Ok pos).
  { destruct (position_for_split ix (mkIndexEntry (key_of (ix_order ix) row) id (next_seq tb)))
      as (l1 & l2 & _ & Hp & _); [by eapply index_ok_wf|done|]. eauto. }
  destruct Hpos as [pos Hpos]. destruct (unique (ix_shape ix)) eqn:Hun; simpl.
  - destruct (has_live_duplicate_ok tb ix Hwf Hiok (key_of (ix_order ix) row) (Some t) (status s) repl Hk)
      as (b & Hb & Hiff). rewrite Hb. simpl. destruct b.
    + split; [|eauto]. destruct (proj1 Hiff eq_refl) as (rv & ? & ? & ? & ?). by exists ix, rv.
    + rewrite Hpos. simpl. intros (ix' & rv & Hix' & _ & Hin & Hs & Hkey & Hl). simplify_eq.
      assert (false = true) by (apply Hiff; eauto). done.
  - rewrite Hpos. simpl. intros (ix' & rv & Hix' & Hun' & _). simplify_eq. congruence.
Qed.

Lemma plan_entries_exact s tid tb t row id repl :
  storage_ok s → tables s !! tid = Some tb → row_fits (shape tb) row →
  match plan_entries t tid row id (next_seq tb) repl s with
  | Ok _ => ∀ i, i ∈ t_indexes tb → ¬ conflict s tb t row repl i
  | Err e => ∃ i ix, i ∈ t_indexes tb ∧ conflict s tb t row repl i ∧ indexes s !! i = Some ix ∧
      e = duplicate_key_index tid i (key_of (ix_order ix) row)
  end.
Proof.
  intros Hok Htid Hfit. unfold plan_entries, table. rewrite Htid. simpl.
  assert (Hall : ∀ i, i ∈ sorted_elements (t_indexes tb) → i ∈ t_indexes tb)
    by (intros i; by rewrite elem_of_sorted_elements).
  assert (Hgen : match try_map (plan_one t tid row id (next_seq tb) repl s tb) (sorted_elements (t_indexes tb)) with
    | Ok _ => ∀ i, i ∈ sorted_elements (t_indexes tb) → ¬ conflict s tb t row repl i
    | Err e => ∃ i ix, i ∈ t_indexes tb ∧ conflict s tb t row repl i ∧ indexes s !! i = Some ix ∧
        e = duplicate_key_index tid i (key_of (ix_order ix) row) end).
  { revert Hall. generalize (sorted_elements (t_indexes tb)). intros ids Hall.
    induction ids as [|i ids IH]; simpl; [by intros i ?%not_elem_of_nil|].
    pose proof (plan_one_exact s tid tb t row id repl i Hok Htid Hfit (Hall i ltac:(by left))) as Hone.
    destruct (plan_one t tid row id (next_seq tb) repl s tb i) as [p|e]; simpl.
    - specialize (IH (λ j Hj, Hall j (list_elem_of_further _ _ _ Hj))).
      destruct (try_map _ ids); simpl; [|done].
      intros j [->|Hj]%elem_of_cons; [done|by apply IH].
    - destruct Hone as (Hc & ix & Hix & ->). exists i, ix. split; [apply Hall; by left|done]. }
  destruct (try_map _ _); [|done]. intros i Hi. apply Hgen. by rewrite elem_of_sorted_elements.
Qed.
End planned.
