(* ===== verification/StorageSystem.v ===== *)
(** * The [Storage] trait and the histories of a storage

    [vauban-storage/src/storage.rs]: the interface the transaction manager is written
    against, its implementation by [MemoryStorage.v], and the requests of a client that
    respects the preconditions the trait documents. *)

From S2P Require Import Prelude Values Errors Snapshot Order CollationFacts Compare KeyOrder.
From S2P Require Import Table Index IndexFacts MemoryStorage StorageInv StorageFacts StorageOps.
From S2P Require Import StorageVacuum StorageCatalog StorageSearch StorageUnique.

(** ** [storage.rs] *)

Class Storage (St : Type) := {
  st_create_database : string → stateful St SqlError DbId;
  st_drop_database : DbId → stateful St SqlError ();
  st_databases : St → SqlResult (list (DbId * string));
  st_create_table : DbId → TableShape → stateful St SqlError TableId;
  st_drop_table : TableId → stateful St SqlError ();
  st_tables : DbId → St → SqlResult (list (TableId * TableShape));
  st_create_index : TableId → IndexShape → stateful St SqlError IndexId;
  st_drop_index : IndexId → stateful St SqlError ();
  st_indexes : TableId → St → SqlResult (list (IndexId * IndexShape));
  st_insert : TxnId → TableId → Row → stateful St SqlError RowId;
  st_update : TxnId → TableId → RowId → Row → stateful St SqlError ();
  st_delete : TxnId → TableId → RowId → stateful St SqlError ();
  st_get : Snapshot → TableId → RowId → St → SqlResult (option Row);
  st_scan : Snapshot → TableId → St → SqlResult (list (RowId * Row));
  st_seek : Snapshot → IndexId → KeyRange → Direction → St → SqlResult (list (RowId * Row));
  st_latest_version : TableId → RowId → St → SqlResult (option (TxnId * Row));
  st_commit : TxnId → stateful St SqlError ();
  st_rollback : TxnId → stateful St SqlError ();
  st_savepoint : TxnId → stateful St SqlError SavepointId;
  st_rollback_to : TxnId → SavepointId → stateful St SqlError ();
  st_checkpoint : stateful St SqlError ();
  st_vacuum : TxnId → stateful St SqlError ();
  st_next_txn_id : St → N;
  st_committed_txn_high_water : St → N;
}.

(** [impl Storage for MemoryStorage]; [next_txn_id] is the default of the trait. *)
#[export] Instance memory_storage : Storage Inner := {|
  st_create_database := create_database;
  st_drop_database := drop_database;
  st_databases := list_databases;
  st_create_table := create_table;
  st_drop_table := drop_table;
  st_tables := list_tables;
  st_create_index := create_index;
  st_drop_index := drop_index;
  st_indexes := list_indexes;
  st_insert := insert;
  st_update := update;
  st_delete := delete_row;
  st_get := get;
  st_scan := scan;
  st_seek := seek;
  st_latest_version := latest_version;
  st_commit := commit;
  st_rollback := rollback;
  st_savepoint := savepoint;
  st_rollback_to := rollback_to;
  st_checkpoint := checkpoint;
  st_vacuum := vacuum;
  st_next_txn_id := λ _, 1%N;
  st_committed_txn_high_water := committed_txn_high_water;
|}.

(** ** Requests *)

Inductive Request :=
  | RCreateDatabase (name : string)
  | RDropDatabase (db : DbId)
  | RCreateTable (db : DbId) (sh : TableShape)
  | RDropTable (tid : TableId)
  | RCreateIndex (tid : TableId) (def : IndexShape)
  | RDropIndex (i : IndexId)
  | RInsert (t : TxnId) (tid : TableId) (row : Row)
  | RUpdate (t : TxnId) (tid : TableId) (id : RowId) (row : Row)
  | RDelete (t : TxnId) (tid : TableId) (id : RowId)
  | RCommit (t : TxnId)
  | RRollback (t : TxnId)
  | RSavepoint (t : TxnId)
  | RRollbackTo (t : TxnId) (sp : SavepointId)
  | RCheckpoint
  | RVacuum (horizon : TxnId).

(** The call, its answer reduced to success or failure. *)
Definition forget_answer {St A} (m : stateful St SqlError A) : stateful St SqlError () := λ s,
  match m s with (Ok _, s') => (Ok (), s') | (Err e, s') => (Err e, s') end.

Lemma forget_answer_state {St A} (m : stateful St SqlError A) s : (forget_answer m s).2 = (m s).2.
Proof. unfold forget_answer. by destruct (m s) as [[]]. Qed.

Definition perform `{Storage St} (r : Request) : stateful St SqlError () :=
  match r with
  | RCreateDatabase name => forget_answer (st_create_database name)
  | RDropDatabase db => st_drop_database db
  | RCreateTable db sh => forget_answer (st_create_table db sh)
  | RDropTable tid => st_drop_table tid
  | RCreateIndex tid def => forget_answer (st_create_index tid def)
  | RDropIndex i => st_drop_index i
  | RInsert t tid row => forget_answer (st_insert t tid row)
  | RUpdate t tid id row => st_update t tid id row
  | RDelete t tid id => st_delete t tid id
  | RCommit t => st_commit t
  | RRollback t => st_rollback t
  | RSavepoint t => forget_answer (st_savepoint t)
  | RRollbackTo t sp => st_rollback_to t sp
  | RCheckpoint => st_checkpoint
  | RVacuum horizon => st_vacuum horizon
  end.

(** What the callers owe: the values they store have the types of their columns, and the
    identifier of a transaction that [vacuum] has forgotten is not used again. *)
Definition allowed (s : Inner) (r : Request) : Prop :=
  match r with
  | RInsert t tid row | RUpdate t tid _ row =>
      enrolled s t ∧ ∀ tb, tables s !! tid = Some tb → row_fits (shape tb) row
  | RDelete t _ _ | RRollback t | RSavepoint t => enrolled s t
  | _ => True
  end.

Definition is_corruption (e : SqlError) : Prop := ∃ m, e = from_internal (Corruption m).

Lemma bug_not_corruption m : ¬ is_corruption (from_internal (Bug m)).
Proof. intros [m' [=]]. Qed.

Lemma duplicate_not_corruption t i k : ¬ is_corruption (duplicate_key_index t i k).
Proof. intros [m [=]]. Qed.

Create HintDb storage.
#[export] Hint Resolve bug_not_corruption duplicate_not_corruption : storage.

Section system.

Record well_formed (s : Inner) : Prop := {
  wf_storage :> storage_ok s;
  wf_catalog : catalog_ok s;
}.

Inductive storage_step (s : Inner) : Inner → Prop :=
  | storage_step_intro r : allowed s r → storage_step s (perform r s).2.

Definition storage_reachable : Inner → Prop := rtc storage_step MemoryStorage_new.

(** ** The catalog under the operations on rows *)

Lemma catalog_wrote t tid row e vs s s' :
  wrote t tid row e vs s s' → databases s' = databases s → next_db_id s' = next_db_id s →
  catalog_ok s → catalog_ok s'.
Proof.
  intros [_ (tb & tb' & Htid & Ht & _ & _ & _ & _ & Hdb & _) _] Hd Hn. apply catalog_same; [done..|].
  intros tid'. rewrite Ht. destruct (decide (tid' = tid)) as [->|Hne].
  - rewrite lookup_insert_eq, Htid. simpl. by rewrite Hdb.
  - by rewrite lookup_insert_ne.
Qed.

Lemma catalog_undone t s s' : undone t s s' → catalog_ok s → catalog_ok s'.
Proof.
  intros Hu. destruct (undone_fields _ _ _ Hu) as (Hd & _ & _ & _ & _ & Hn).
  apply catalog_same; [done..|]. intros tid. destruct (tables s !! tid) as [tb|] eqn:Htid.
  - destruct (un_tables _ _ _ Hu _ _ Htid) as (tb' & -> & Hsame & _). simpl.
    by rewrite (sr_db _ _ Hsame).
  - by rewrite (un_none _ _ _ Hu _ Htid).
Qed.

Lemma catalog_put_txn t st s : catalog_ok s → catalog_ok (put_txn t st s).
Proof. by apply catalog_same. Qed.

(** What an operation on rows leaves of the catalog, whatever it answers. *)
Lemma insert_frame t tid row s r s' :
  insert t tid row s = (r, s') → databases s' = databases s ∧ next_db_id s' = next_db_id s.
Proof.
  unfold insert, mbind, stateful_bind, reads, writing_txn, write_insert.
  intros Hrun. repeat (case_match; simplify_eq/=; try done); by simplify_eq/=.
Qed.

Lemma update_frame t tid id row s r s' :
  update t tid id row s = (r, s') → databases s' = databases s ∧ next_db_id s' = next_db_id s.
Proof.
  unfold update, mbind, stateful_bind, reads, writing_txn, write_update.
  intros Hrun. repeat (case_match; simplify_eq/=; try done); by simplify_eq/=.
Qed.

Lemma delete_frame t tid id s r s' :
  delete_row t tid id s = (r, s') → databases s' = databases s ∧ next_db_id s' = next_db_id s.
Proof.
  unfold delete_row, mbind, stateful_bind, reads, writing_txn, write_delete.
  intros Hrun. repeat (case_match; simplify_eq/=; try done); by simplify_eq/=.
Qed.

(** ** Errors *)

Lemma table_err s tid e : table s tid = Err e → ¬ is_corruption e.
Proof. unfold table. destruct (tables s !! tid); [done|]. intros [= <-]. auto with storage. Qed.

Lemma check_arity_err tid row s e : check_arity tid row s = Err e → ¬ is_corruption e.
Proof.
  unfold check_arity. destruct (table s tid) as [tb|e'] eqn:Ht; simpl.
  - case_bool_decide; [done|]. intros [= <-]. auto with storage.
  - intros [= <-]. by eapply table_err.
Qed.

Lemma already_not_corruption t st : ¬ is_corruption (already t st).
Proof. apply bug_not_corruption. Qed.

Lemma check_writable_err t s e : check_writable t s = Err e → ¬ is_corruption e.
Proof.
  unfold check_writable. destruct (txns s !! t) as [st|]; [|done].
  destruct (is_finished st); [|done]. intros [= <-]. apply already_not_corruption.
Qed.

Lemma check_current_err t tid id s e : check_current t tid id s = Err e → ¬ is_corruption e.
Proof.
  unfold check_current. destruct (table s tid) as [tb|e'] eqn:Ht; simpl.
  - destruct (latest tb id) as [v|]; [|intros [= <-]; auto with storage].
    destruct (v_xmax v); [intros [= <-]; auto with storage|].
    destruct (negb _ && negb _); [|done]. intros [= <-]. auto with storage.
  - intros [= <-]. by eapply table_err.
Qed.

Lemma writing_txn_err t s e s' : writing_txn t s = (Err e, s') → ¬ is_corruption e.
Proof.
  unfold writing_txn. destruct (is_finished _); [|done]. intros [= <- _]. apply already_not_corruption.
Qed.

Lemma writing_txn_tables t s r s' : writing_txn t s = (r, s') → tables s' = tables s.
Proof. unfold writing_txn. destruct (is_finished _); by intros [= <- <-]. Qed.

Lemma insert_err s t tid row e s' :
  storage_ok s → (∀ tb, tables s !! tid = Some tb → row_fits (shape tb) row) →
  insert t tid row s = (Err e, s') → ¬ is_corruption e.
Proof.
  intros Hok Hfit. unfold insert, mbind, stateful_bind, reads.
  destruct (check_arity tid row s) as [[]|e1] eqn:H1; [|intros [= <- _]; by eapply check_arity_err].
  destruct (check_writable t s) as [[]|e2] eqn:H2; [|intros [= <- _]; by eapply check_writable_err].
  destruct (table s tid) as [tb|e3] eqn:Ht; [|intros [= <- _]; by eapply table_err].
  apply table_Ok in Ht.
  pose proof (plan_entries_exact s tid tb t row (peek_row_id tb) None Hok Ht (Hfit _ Ht)) as Hplan.
  unfold peek_seq. destruct (plan_entries _ _ _ _ _ _ _) as [planned|e4].
  2:{ destruct Hplan as (i & ix & _ & _ & _ & ->). intros [= <- _]. auto with storage. }
  destruct (writing_txn t s) as [[st|e5] s1] eqn:Hw; [|intros [= <- _]; by eapply writing_txn_err].
  unfold write_insert. rewrite (writing_txn_tables _ _ _ _ Hw), Ht. simpl.
  unfold peek_row_id. rewrite bool_decide_true by done. done.
Qed.

Lemma supersede_current t tid id s tb data :
  check_current t tid id s = Ok () → tables s !! tid = Some tb → (supersede tb t id data).1 = true.
Proof.
  intros Hc Ht. destruct (check_current_ok _ _ _ _ Hc) as (tb' & vs & v & Ht' & Hr & _). simplify_eq.
  unfold supersede. destruct data; simpl; rewrite Hr; by destruct vs.
Qed.

Lemma update_err s t tid id row e s' :
  storage_ok s → (∀ tb, tables s !! tid = Some tb → row_fits (shape tb) row) →
  update t tid id row s = (Err e, s') → ¬ is_corruption e.
Proof.
  intros Hok Hfit. unfold update, mbind, stateful_bind, reads.
  destruct (check_arity tid row s) as [[]|e1] eqn:H1; [|intros [= <- _]; by eapply check_arity_err].
  destruct (check_current t tid id s) as [[]|e2] eqn:H2; [|intros [= <- _]; by eapply check_current_err].
  destruct (check_writable t s) as [[]|e3] eqn:H3; [|intros [= <- _]; by eapply check_writable_err].
  destruct (table s tid) as [tb|e4] eqn:Ht; [|intros [= <- _]; by eapply table_err].
  apply table_Ok in Ht.
  pose proof (plan_entries_exact s tid tb t row id (Some id) Hok Ht (Hfit _ Ht)) as Hplan.
  unfold peek_seq. destruct (plan_entries _ _ _ _ _ _ _) as [planned|e5].
  2:{ destruct Hplan as (i & ix & _ & _ & _ & ->). intros [= <- _]. auto with storage. }
  destruct (writing_txn t s) as [[st|e6] s1] eqn:Hw; [|intros [= <- _]; by eapply writing_txn_err].
  unfold write_update. rewrite (writing_txn_tables _ _ _ _ Hw), Ht.
  pose proof (supersede_current t tid id s tb (Some row) H2 Ht) as Hs.
  destruct (supersede tb t id (Some row)) as [b tb']. simpl in Hs. by subst b.
Qed.

Lemma delete_err s t tid id e s' :
  delete_row t tid id s = (Err e, s') → ¬ is_corruption e.
Proof.
  unfold delete_row, mbind, stateful_bind, reads.
  destruct (check_current t tid id s) as [[]|e2] eqn:H2; [|intros [= <- _]; by eapply check_current_err].
  destruct (writing_txn t s) as [[st|e6] s1] eqn:Hw; [|intros [= <- _]; by eapply writing_txn_err].
  unfold write_delete. rewrite (writing_txn_tables _ _ _ _ Hw).
  destruct (check_current_ok _ _ _ _ H2) as (tb & vs & v & Ht & _). rewrite Ht.
  pose proof (supersede_current t tid id s tb None H2 Ht) as Hs.
  destruct (supersede tb t id None) as [b tb']. simpl in Hs. by subst b.
Qed.

Lemma KeyOrder_new_err what cs sh e : KeyOrder_new what cs sh = Err e → ¬ is_corruption e.
Proof.
  unfold KeyOrder_new. destruct cs as [|c cs]; [intros [= <-]; auto with storage|].
  generalize (c :: cs). clear c cs. intros cs.
  assert (Hm : ∀ e, try_map (column_new what sh) cs = Err e → ¬ is_corruption e).
  { induction cs as [|c cs IH]; [done|]. intros e'. cbn [try_map].
    destruct (column_new what sh c) as [col|ec] eqn:Hc.
    2:{ intros [= <-]. revert Hc. unfold column_new. destruct (columns sh !! _); [done|].
        intros [= <-]. auto with storage. }
    simpl.
    destruct (try_map _ cs) as [|e2] eqn:Hr; [done|]. intros [= <-]. by apply IH. }
  destruct (try_map _ cs) as [|e2] eqn:Hr; [done|]. intros [= <-]. by apply Hm.
Qed.

Lemma create_table_err db sh s e s' : create_table db sh s = (Err e, s') → ¬ is_corruption e.
Proof.
  unfold create_table, check_shape. destruct (columns sh); [intros [= <- _]; auto with storage|].
  destruct (clustered_key sh) as [key|].
  - destruct (KeyOrder_new _ key sh) as [o|e'] eqn:Ho; simpl;
      [|intros [= <- _]; by eapply KeyOrder_new_err].
    destruct (databases s !! db); [|intros [= <- _]; auto with storage].
    unfold next_id. destruct (checked_succ _ _); [done|]. intros [= <- _]. auto with storage.
  - destruct (databases s !! db); [|intros [= <- _]; auto with storage].
    unfold next_id. destruct (checked_succ _ _); [done|]. intros [= <- _]. auto with storage.
Qed.

Lemma build_index_err tid def s e : storage_ok s → build_index tid def s = Err e → ¬ is_corruption e.
Proof.
  intros Hok. unfold build_index. destruct (table s tid) as [tb|e1] eqn:Ht; simpl;
    [|intros [= <-]; by eapply table_err].
  apply table_Ok in Ht. pose proof (proj1 (bo_tables _ Hok _ _ Ht)) as Hwf.
  destruct (KeyOrder_new _ _ _) as [o|e2] eqn:Ho; simpl; [|intros [= <-]; by eapply KeyOrder_new_err].
  apply KeyOrder_new_fits in Ho.
  destruct (list_find _ _) as [[]|]; [intros [= <-]; auto with storage|].
  destruct (checked_succ _ _); [|intros [= <-]; auto with storage].
  destruct (index_rows_ok s tb tid def o Hwf) as (ix & -> & Hiok & _); [|done|].
  { intros row vs v Hr Hv Ha. by apply (so_aborted _ Hok _ Ha tid tb row Ht vs v Hr Hv); left. }
  simpl. destruct (first_duplicate_key_ok tb ix Hwf Hiok (status s)) as (o' & Hd & _). rewrite Hd.
  destruct (unique def); simpl; [|done]. destruct o'; [|done]. intros [= <-]. auto with storage.
Qed.

Lemma commit_err t s e s' : commit t s = (Err e, s') → ¬ is_corruption e.
Proof.
  unfold commit, mbind, stateful_bind, finish_txn. destruct (txns s !! t) as [st|]; [|done].
  destruct (is_finished st); [|done]. intros [= <- _]. apply already_not_corruption.
Qed.

Lemma rollback_err t s e s' :
  storage_ok s → enrolled s t → rollback t s = (Err e, s') → ¬ is_corruption e.
Proof.
  intros Hok Hen Hr. destruct (rollback_ok _ _ _ _ Hok Hen Hr) as [_ (st & Ht & Hf)].
  revert Hr. unfold rollback, mbind, stateful_bind, finish_txn. rewrite Ht.
  rewrite (proj2 (is_finished_spec st) Hf). intros [= <- _]. apply already_not_corruption.
Qed.

Lemma savepoint_err t s e s' : savepoint t s = (Err e, s') → ¬ is_corruption e.
Proof.
  unfold savepoint, mbind, stateful_bind.
  destruct (writing_txn t s) as [[st|e6] s1] eqn:Hw; [|intros [= <- _]; by eapply writing_txn_err].
  unfold push_savepoint. destruct (checked_succ _ _); [done|]. intros [= <- _]. auto with storage.
Qed.

Lemma savepoint_frame t s r s' :
  savepoint t s = (r, s') → databases s' = databases s ∧ next_db_id s' = next_db_id s.
Proof.
  unfold savepoint, mbind, stateful_bind, writing_txn, push_savepoint.
  intros Hrun. repeat (case_match; simplify_eq/=; try done); by simplify_eq/=.
Qed.

Lemma rollback_to_err t sp s e s' :
  storage_ok s → rollback_to t sp s = (Err e, s') → ¬ is_corruption e.
Proof.
  intros Hok Hr. apply (rollback_to_ok s t sp (Err e) s' Hok) in Hr as [_ Hc].
  apply (cut_log_fails s t sp e Hok) in Hc as [->|[(st & _ & _ & ->)|(st & _ & _ & ->)]];
    auto with storage. apply already_not_corruption.
Qed.

(** ** Every request *)

(** A request keeps the state well formed and does not answer [Corruption]. *)
Definition served (m : stateful Inner SqlError ()) (s : Inner) : Prop :=
  well_formed (m s).2 ∧ ∀ e, (m s).1 = Err e → ¬ is_corruption e.

Lemma served_intro (m : stateful Inner SqlError ()) s :
  (∀ r s', m s = (r, s') → well_formed s' ∧ ∀ e, r = Err e → ¬ is_corruption e) → served m s.
Proof. intros Hm. unfold served. destruct (m s) as [r s'] eqn:Hrun. simpl. by apply Hm. Qed.

Lemma served_forget {A} (m : stateful Inner SqlError A) s :
  (∀ r s', m s = (r, s') → well_formed s' ∧ ∀ e, r = Err e → ¬ is_corruption e) →
  served (forget_answer m) s.
Proof.
  intros Hm. unfold served, forget_answer. destruct (m s) as [r s'] eqn:Hrun.
  destruct (Hm _ _ eq_refl) as [Hw He]. destruct r; simpl; [done|]. split; [done|].
  intros e' [= <-]. by apply He.
Qed.

Lemma perform_insert t tid row s :
  well_formed s → allowed s (RInsert t tid row) → served (perform (RInsert t tid row)) s.
Proof.
  intros [Hok Hcat] [Hen Hfit]. apply served_forget. simpl. intros r s' Hrun.
  pose proof (insert_ok _ _ _ _ _ _ Hok Hen Hfit Hrun) as Hi.
  destruct (insert_frame _ _ _ _ _ _ Hrun) as [Hd Hn]. destruct r as [id|e].
  - destruct Hi as (tb & _ & _ & _ & Hw). split; [|done]. split; [apply Hw|by eapply catalog_wrote].
  - subst s'. split; [done|]. intros e' [= <-]. by eapply insert_err.
Qed.

Lemma perform_update t tid id row s :
  well_formed s → allowed s (RUpdate t tid id row) → served (perform (RUpdate t tid id row)) s.
Proof.
  intros [Hok Hcat] [Hen Hfit]. apply served_intro. simpl. intros r s' Hrun.
  pose proof (update_ok _ _ _ _ _ _ _ Hok Hen Hfit Hrun) as Hi.
  destruct (update_frame _ _ _ _ _ _ _ Hrun) as [Hd Hn]. destruct r as [[]|e].
  - destruct Hi as (tb & vs & v & _ & _ & _ & _ & Hw). split; [|done].
    split; [apply Hw|by eapply catalog_wrote].
  - subst s'. split; [done|]. intros e' [= <-]. by eapply update_err.
Qed.

Lemma perform_delete t tid id s :
  well_formed s → allowed s (RDelete t tid id) → served (perform (RDelete t tid id)) s.
Proof.
  intros [Hok Hcat] Hen. apply served_intro. simpl. intros r s' Hrun.
  pose proof (delete_ok _ _ _ _ _ _ Hok Hen Hrun) as Hi.
  destruct (delete_frame _ _ _ _ _ _ Hrun) as [Hd Hn]. destruct r as [[]|e].
  - destruct Hi as (tb & vs & v & _ & _ & _ & _ & Hw). split; [|done].
    split; [apply Hw|by eapply catalog_wrote].
  - subst s'. split; [done|]. intros e' [= <-]. by eapply delete_err.
Qed.

Lemma perform_rollback t s : well_formed s → enrolled s t → served (perform (RRollback t)) s.
Proof.
  intros [Hok Hcat] Hen. apply served_intro. simpl. intros r s' Hrun.
  pose proof (rollback_ok _ _ _ _ Hok Hen Hrun) as Hc. destruct r as [[]|e].
  - destruct Hc as (Hok' & Hu & _). split; [|done]. split; [done|].
    eapply catalog_undone; [exact Hu|]. by apply catalog_put_txn.
  - destruct Hc as [-> _]. split; [done|]. intros e' [= <-]. by eapply rollback_err.
Qed.

Lemma perform_savepoints t sp s :
  well_formed s →
  (enrolled s t → served (perform (RSavepoint t)) s) ∧ served (perform (RRollbackTo t sp)) s.
Proof.
  intros [Hok Hcat]. split.
  - intros Hen. apply served_forget. simpl. intros r s' Hrun.
    destruct (savepoint_ok _ _ _ _ Hok Hen Hrun) as [Hok' Ht].
    destruct (savepoint_frame _ _ _ _ Hrun) as [Hd Hn]. split.
    + split; [done|]. apply (catalog_same s); [done..| |done]. by rewrite Ht.
    + intros e' ->. by eapply savepoint_err.
  - apply served_intro. simpl. intros r s' Hrun.
    pose proof (rollback_to_ok _ _ _ _ _ Hok Hrun) as Hc. destruct r as [[]|e].
    + destruct Hc as (Hok' & w & st & _ & Hu & _). split; [|done]. split; [done|].
      eapply catalog_undone; [exact Hu|]. by apply catalog_put_txn.
    + destruct Hc as [-> Hc]. split; [done|]. intros e' [= <-]. by eapply rollback_to_err.
Qed.

Lemma perform_vacuum h s : well_formed s → served (perform (RVacuum h)) s.
Proof.
  intros [Hok Hcat]. apply served_intro. simpl. intros r s' Hrun.
  destruct (vacuum_ok h s Hok) as (s2 & Hv & Hva). rewrite Hv in Hrun. injection Hrun as <- <-.
  split; [|done]. split; [apply Hva|].
  assert (Hn : next_db_id s2 = next_db_id s).
  { revert Hv. unfold vacuum. destruct (for_each _ _ _) as [[[]|] s1] eqn:Hl; [|done].
    intros [= <-]. destruct (vacuum_loop_ok h (sorted_keys N.le (tables s)) s) as (s3 & Hl3 & Hvt).
    - apply NoDup_sorted_keys.
    - apply Hok.
    - intros tid tb Htid. eapply nobody_aborted_ok; [apply (so_aborted _ Hok)|done].
    - intros tid. by rewrite elem_of_sorted_keys.
    - rewrite Hl in Hl3. injection Hl3 as <-. simpl. by rewrite (vt_frame _ _ _ _ Hvt). }
  apply (catalog_same s); [apply Hva|done| |done]. intros tid.
  destruct (tables s !! tid) as [tb|] eqn:Htid.
  - destruct (va_tables _ _ _ Hva _ _ Htid) as (tb' & -> & Hsame & _). simpl.
    by rewrite (sr_db _ _ Hsame).
  - by rewrite (va_none _ _ _ Hva _ Htid).
Qed.

Lemma perform_definitions r s :
  well_formed s →
  match r with
  | RCreateDatabase _ | RDropDatabase _ | RCreateTable _ _ | RDropTable _ | RCreateIndex _ _
  | RDropIndex _ => served (perform r) s
  | _ => True
  end.
Proof.
  intros [Hok Hcat]. destruct r; try done;
    first [apply served_forget | apply served_intro]; simpl; intros r s' Hrun.
  - destruct (create_database_ok _ _ _ _ Hok Hcat Hrun) as (Hok' & Hcat' & _). split; [by split|].
    intros e ->. revert Hrun. unfold create_database, next_id. destruct (checked_succ _ _); [done|].
    intros [= <- _]. auto with storage.
  - destruct (drop_database_ok _ _ _ _ Hok Hcat Hrun) as (Hok' & Hcat' & _). split; [by split|].
    intros e ->. revert Hrun. unfold drop_database. destruct (databases s !! db); [done|].
    intros [= <- _]. auto with storage.
  - destruct (create_table_ok _ _ _ _ _ Hok Hcat Hrun) as (Hok' & Hcat' & _). split; [by split|].
    intros e ->. by eapply create_table_err.
  - destruct (drop_table_ok _ _ _ _ Hok Hcat Hrun) as (Hok' & Hcat' & _). split; [by split|].
    intros e ->. revert Hrun. unfold drop_table. destruct (tables s !! tid); [done|].
    intros [= <- _]. auto with storage.
  - destruct (create_index_ok _ _ _ _ _ Hok Hcat Hrun) as (Hok' & Hcat' & _). split; [by split|].
    intros e ->. revert Hrun. unfold create_index. destruct (build_index tid def s) as [[[[]]]|e'] eqn:Hb; [done|].
    intros [= <- _]. by apply (build_index_err _ _ _ _ Hok Hb).
  - destruct (drop_index_ok _ _ _ _ Hok Hcat Hrun) as (Hok' & Hcat' & _). split; [by split|].
    intros e ->. revert Hrun. unfold drop_index. destruct (indexes s !! i); [done|].
    intros [= <- _]. auto with storage.
Qed.

Lemma commit_served t s : well_formed s → served (perform (RCommit t)) s.
Proof.
  intros [Hok Hcat]. apply served_intro. simpl. intros r s' Hrun.
  destruct (commit_ok _ _ _ _ Hok Hrun) as [Hok' Hc]. destruct r as [[]|e].
  - destruct Hc as [-> _]. split; [|done]. split; [done|by apply catalog_put_txn].
  - destruct Hc as [-> _]. split; [done|]. intros e' [= <-]. by eapply commit_err.
Qed.

Lemma perform_ok r s : well_formed s → allowed s r → served (perform r) s.
Proof.
  intros Hwf Hal. pose proof (perform_definitions r s Hwf) as Hd.
  destruct r; try exact Hd.
  - by apply perform_insert.
  - by apply perform_update.
  - by apply perform_delete.
  - by apply commit_served.
  - by apply perform_rollback.
  - by apply perform_savepoints.
  - by apply (perform_savepoints t sp).
  - split; [done|]. simpl. intros e [=].
  - by apply perform_vacuum.
Qed.

Lemma reachable_well_formed s : storage_reachable s → well_formed s.
Proof.
  intros Hr. unfold storage_reachable in Hr.
  refine (rtc_ind_r well_formed MemoryStorage_new _ _ s Hr).
  - split; [apply MemoryStorage_new_ok|apply catalog_new].
  - intros s1 s2 _ Hstep IH. destruct Hstep as [r Hal]. by apply perform_ok.
Qed.
End system.
