(* ===== verification/StorageViews.v ===== *)
(** * What a snapshot reads

    About [get] and [scan] of [MemoryStorage.v]: what a transaction does is not seen
    through a snapshot that does not settle it, [vacuum] changes the answer of no usable
    snapshot, and a transaction reads its own writes. *)

From S2P Require Import Prelude Values Errors Snapshot Order CollationFacts Compare KeyOrder.
From S2P Require Import Table Index IndexFacts MemoryStorage StorageInv StorageFacts StorageOps.
From S2P Require Import StorageVacuum StorageCatalog StorageSearch StorageUnique StorageSystem.

(** The content of a row a snapshot sees. *)
Definition row_view (snap : Snapshot) (st : TxnId → TxnStatus) (o : option (list Version)) : option Row :=
  vs ← o; v_data <$> visible snap st vs.

Lemma row_view_erase snap st t o :
  unseen snap t → row_view snap st (erase_row t o) = row_view snap st o.
Proof.
  intros Hu. destruct o as [vs|]; [|done]. simpl. rewrite <- (visible_erase snap st t vs Hu).
  by destruct (erase t vs).
Qed.

(** A version's visibility depends on the fate of the transactions it mentions. *)
Lemma visible_ext snap st st' vs :
  (∀ v t, v ∈ vs → mentions t v → ¬ unseen snap t → (st t = Committed ↔ st' t = Committed)) →
  visible snap st vs = visible snap st' vs.
Proof.
  intros Hst. unfold visible. induction vs as [|v vs IH]; [done|]. cbn [list_find].
  assert (He : is_visible snap (v_xmin v) (v_xmax v) st = is_visible snap (v_xmin v) (v_xmax v) st').
  { apply is_visible_ext. intros t Ht. apply (Hst v t); [by left|]. destruct Ht as [->|Ht]; [by left|by right]. }
  rewrite He. destruct (decide _); [done|].
  assert (IH' : snd <$> list_find (λ v0, is_visible snap (v_xmin v0) (v_xmax v0) st = true) vs =
    snd <$> list_find (λ v0, is_visible snap (v_xmin v0) (v_xmax v0) st' = true) vs).
  { apply IH. intros u t Hu. apply (Hst u t). by right. }
  destruct (list_find _ vs) as [[]|], (list_find _ vs) as [[]|]; simpl in *; congruence.
Qed.

Section views.

(** Two states a snapshot cannot tell apart. *)
Definition same_view (snap : Snapshot) (s s' : Inner) : Prop :=
  ∀ tid, scan snap tid s' = scan snap tid s ∧ ∀ id, get snap tid id s' = get snap tid id s.

#[export] Instance same_view_equivalence snap : Equivalence (same_view snap).
Proof.
  split.
  - intros s tid. done.
  - intros s s' Hv tid. destruct (Hv tid) as [Hs Hg]. split; [by symmetry|]. intros id. by symmetry.
  - intros s1 s2 s3 H1 H2 tid. destruct (H1 tid) as [Hs1 Hg1], (H2 tid) as [Hs2 Hg2].
    split; [congruence|]. intros id. by rewrite Hg2.
Qed.

Lemma visible_rows_ext snap st st' r r' :
  (∀ id, row_view snap st' (r' !! id) = row_view snap st (r !! id)) →
  visible_rows snap st' r' = visible_rows snap st r.
Proof.
  intros Hv. apply (StronglySorted_unique_strong (λ a b, (a.1 < b.1)%N));
    [|apply visible_rows_sorted|apply visible_rows_sorted|].
  { intros [] [] _ _. simpl. lia. }
  assert (Hnd : ∀ st r, NoDup (visible_rows snap st r)).
  { intros st0 r0. eapply NoDup_fmap_1, increasing_NoDup, visible_rows_sorted. }
  apply NoDup_Permutation; [apply Hnd..|]. intros [id d]. rewrite !elem_of_visible_rows.
  assert (Hrv : ∀ st (r : gmap RowId (list Version)), (∃ vs v, r !! id = Some vs ∧ visible snap st vs = Some v ∧ d = v_data v) ↔
    row_view snap st (r !! id) = Some d).
  { intros st0 r0. unfold row_view. split.
    - intros (vs & v & -> & Hvis & ->). simpl. by rewrite Hvis.
    - destruct (r0 !! id) as [vs|]; [|done]. simpl. destruct (visible snap st0 vs) as [v|] eqn:Hvis; [|done].
      intros [= <-]. eauto. }
  rewrite !Hrv, Hv. done.
Qed.

Lemma same_view_intro snap s s' :
  (∀ tid, tables s !! tid = None → tables s' !! tid = None) →
  (∀ tid tb, tables s !! tid = Some tb → ∃ tb', tables s' !! tid = Some tb' ∧
     clustered tb' = clustered tb ∧
     ∀ id, row_view snap (status s') (rows tb' !! id) = row_view snap (status s) (rows tb !! id)) →
  same_view snap s s'.
Proof.
  intros Hn Ht tid. unfold scan, get, table. destruct (tables s !! tid) as [tb|] eqn:Htid.
  - destruct (Ht _ _ Htid) as (tb' & -> & Hc & Hv). simpl. rewrite Hc.
    rewrite (visible_rows_ext snap (status s) (status s') (rows tb) (rows tb') Hv). split; [done|].
    intros id. f_equal. apply Hv.
  - by rewrite (Hn _ Htid).
Qed.

(** ** Isolation *)

Lemma row_view_status snap st st' o t :
  unseen snap t → (∀ t', t' ≠ t → st' t' = st t') → row_view snap st' o = row_view snap st o.
Proof.
  intros Hu Hst. destruct o as [vs|]; [|done]. simpl. f_equal. symmetry. apply visible_ext.
  intros v t' _ _ Hnu. assert (t' ≠ t) by (by intros ->). by rewrite Hst.
Qed.

(** A change that only [t] can see. *)
Lemma same_view_erase snap s s' t :
  unseen snap t → (∀ t', t' ≠ t → status s' t' = status s t') →
  (∀ tid, tables s !! tid = None → tables s' !! tid = None) →
  (∀ tid tb, tables s !! tid = Some tb → ∃ tb', tables s' !! tid = Some tb' ∧
     clustered tb' = clustered tb ∧ ∀ row, erase_row t (rows tb' !! row) = erase_row t (rows tb !! row)) →
  same_view snap s s'.
Proof.
  intros Hu Hst Hn Ht. apply same_view_intro; [done|]. intros tid tb Htid.
  destruct (Ht _ _ Htid) as (tb' & Htid' & Hc & He). exists tb'. split; [done|]. split; [done|].
  intros id. rewrite (row_view_status snap (status s) (status s') _ t) by done.
  by rewrite <- (row_view_erase snap _ t (rows tb' !! id)), He, row_view_erase.
Qed.

Lemma status_put_other t st s t' : t' ≠ t → status (put_txn t st s) t' = status s t'.
Proof. intros Hne. rewrite status_put. by rewrite decide_False. Qed.

Lemma wrote_view snap t tid row e vs s s' :
  unseen snap t → wrote t tid row e vs s s' → same_view snap s s'.
Proof.
  intros Hu [_ (tb & tb' & Htid & Ht & Hr & _ & Hc & _ & _ & He) (st & _ & _ & Hx)].
  apply (same_view_erase snap s s' t Hu).
  - intros t' Hne. unfold status, status_in. by rewrite Hx, lookup_insert_ne.
  - intros tid' Hn. rewrite Ht, lookup_insert_ne; [done|]. by intros ->; simplify_eq.
  - intros tid' tb2 Ht2. rewrite Ht. destruct (decide (tid' = tid)) as [->|Hne].
    + rewrite lookup_insert_eq. rewrite Htid in Ht2. injection Ht2 as <-. exists tb'. split; [done|].
      split; [done|]. intros row'. rewrite Hr. destruct (decide (row' = row)) as [->|Hne].
      * by rewrite lookup_insert_eq.
      * by rewrite lookup_insert_ne.
    + rewrite lookup_insert_ne by done. eauto.
Qed.

Lemma undone_view snap t st s s' :
  unseen snap t → undone t (put_txn t st s) s' → same_view snap s s'.
Proof.
  intros Hu Hun. apply (same_view_erase snap s s' t Hu).
  - intros t' Hne. destruct (undone_fields _ _ _ Hun) as (_ & Hx & _).
    unfold status, status_in. rewrite Hx. simpl. by rewrite lookup_insert_ne.
  - intros tid Hn. by apply (un_none _ _ _ Hun).
  - intros tid tb Htid. destruct (un_tables _ _ _ Hun _ _ Htid) as (tb' & Htid' & Hs & He).
    exists tb'. split; [done|]. split; [apply Hs|done].
Qed.

(** The transaction a request belongs to. *)
Definition request_txn (r : Request) : option TxnId :=
  match r with
  | RInsert t _ _ | RUpdate t _ _ _ | RDelete t _ _ | RCommit t | RRollback t | RSavepoint t
  | RRollbackTo t _ => Some t
  | _ => None
  end.

Lemma put_txn_view snap t st s : unseen snap t → same_view snap s (put_txn t st s).
Proof.
  intros Hu. apply (same_view_erase snap s (put_txn t st s) t Hu); [by apply status_put_other|done|].
  intros tid tb Htid. by exists tb.
Qed.

Lemma savepoint_view snap t s r s' :
  unseen snap t → savepoint t s = (r, s') → same_view snap s s'.
Proof.
  intros Hu Hrun. apply (same_view_erase snap s s' t Hu).
  - intros t' Hne. revert Hrun. unfold savepoint, mbind, stateful_bind, writing_txn, push_savepoint.
    destruct (is_finished _); [intros [= _ <-]; by rewrite status_put_other|].
    destruct (checked_succ _ _); intros [= _ <-].
    + rewrite status_put_other by done. unfold status, status_in. simpl. by rewrite lookup_insert_ne.
    + by rewrite status_put_other.
  - revert Hrun. unfold savepoint, mbind, stateful_bind, writing_txn, push_savepoint.
    destruct (is_finished _); [by intros [= _ <-]|]. destruct (checked_succ _ _); by intros [= _ <-].
  - intros tid tb Htid. exists tb. split; [|done]. revert Hrun.
    unfold savepoint, mbind, stateful_bind, writing_txn, push_savepoint.
    destruct (is_finished _); [by intros [= _ <-]|]. destruct (checked_succ _ _); by intros [= _ <-].
Qed.

Lemma request_view snap t r s :
  storage_ok s → allowed s r → request_txn r = Some t → unseen snap t →
  same_view snap s (perform r s).2.
Proof.
  intros Hok Hal Ht Hu. destruct r as [| | | | | |t0 tid row|t0 tid id row|t0 tid id|t0|t0|t0|t0 sp| |];
    try done; injection Ht as ->; simpl in *; unfold forget_answer.
  - destruct Hal as [Hen Hfit]. destruct (insert t tid row s) as [[id|e] s'] eqn:Hrun;
      pose proof (insert_ok _ _ _ _ _ _ Hok Hen Hfit Hrun) as Hi; simpl in *; [|rewrite Hi; reflexivity].
    destruct Hi as (tb & _ & _ & _ & Hw). by eapply wrote_view.
  - destruct Hal as [Hen Hfit]. destruct (update t tid id row s) as [[[]|e] s'] eqn:Hrun;
      pose proof (update_ok _ _ _ _ _ _ _ Hok Hen Hfit Hrun) as Hi; simpl in *; [|rewrite Hi; reflexivity].
    destruct Hi as (tb & vs & v & _ & _ & _ & _ & Hw). by eapply wrote_view.
  - destruct (delete_row t tid id s) as [[[]|e] s'] eqn:Hrun;
      pose proof (delete_ok _ _ _ _ _ _ Hok Hal Hrun) as Hi; simpl in *; [|rewrite Hi; reflexivity].
    destruct Hi as (tb & vs & v & _ & _ & _ & _ & Hw). by eapply wrote_view.
  - destruct (commit t s) as [[[]|e] s'] eqn:Hrun; destruct (commit_ok _ _ _ _ Hok Hrun) as [_ [-> _]];
      simpl; [|reflexivity]. by apply put_txn_view.
  - destruct (rollback t s) as [[[]|e] s'] eqn:Hrun; pose proof (rollback_ok _ _ _ _ Hok Hal Hrun) as Hc.
    + destruct Hc as (_ & Hun & _). by eapply undone_view.
    + destruct Hc as [-> _]. simpl. reflexivity.
  - destruct (savepoint t s) as [[sp|e] s'] eqn:Hrun; by eapply savepoint_view.
  - destruct (rollback_to t sp s) as [[[]|e] s'] eqn:Hrun; pose proof (rollback_to_ok _ _ _ _ _ Hok Hrun) as Hc.
    + destruct Hc as (_ & w & st & _ & Hun & _). by eapply undone_view.
    + destruct Hc as [-> _]. simpl. reflexivity.
Qed.

(** ** Vacuum *)

(** A snapshot that may still be used when [horizon] is given to [vacuum]. *)
Record usable (horizon : TxnId) (snap : Snapshot) : Prop := {
  us_horizon : (horizon ≤ xmin snap)%N;
  us_bounds : (xmin snap ≤ xmax snap)%N;
  us_active : Forall (λ a, (xmin snap ≤ a)%N) (active snap);
}.

Lemma dead_invisible horizon snap s v :
  usable horizon snap → dead horizon s v = true →
  is_visible snap (v_xmin v) (v_xmax v) (status s) = false.
Proof.
  intros [Hh Hb Ha] (x & Hx & Hlt & Hc)%dead_spec. apply not_true_iff_false.
  rewrite is_visible_spec. intros [_ Hn]. specialize (Hn x Hx). apply not_true_iff_false in Hn. apply Hn.
  apply is_settled_spec. right. split; [lia|]. split; [|done]. intros Hin.
  rewrite Forall_forall in Ha. specialize (Ha x Hin). simpl in Ha. lia.
Qed.

Lemma visible_filter snap st (P : Version → Prop) `{∀ v, Decision (P v)} vs :
  (∀ v, v ∈ vs → ¬ P v → is_visible snap (v_xmin v) (v_xmax v) st = false) →
  visible snap st (filter P vs) = visible snap st vs.
Proof.
  intros Hv. unfold visible. induction vs as [|v vs IH]; [done|].
  assert (IH' : snd <$> list_find (λ v, is_visible snap (v_xmin v) (v_xmax v) st = true) (filter P vs) =
    snd <$> list_find (λ v, is_visible snap (v_xmin v) (v_xmax v) st = true) vs).
  { apply IH. intros u Hu. apply Hv. by right. }
  destruct (decide (P v)) as [HP|HP].
  - rewrite filter_cons_True by done. cbn [list_find]. destruct (decide _); [done|].
    destruct (list_find _ (filter P vs)) as [[]|], (list_find _ vs) as [[]|]; simpl in *; congruence.
  - rewrite filter_cons_False by done. cbn [list_find]. rewrite (Hv v ltac:(by left) HP).
    rewrite decide_False by done. rewrite IH'. by destruct (list_find _ vs) as [[]|].
Qed.

Lemma vacuumed_view horizon snap s s' :
  storage_ok s → usable horizon snap → vacuumed horizon s s' → same_view snap s s'.
Proof.
  intros Hok Hus [_ _ _ Hx Hn Ht]. apply same_view_intro; [done|]. intros tid tb Htid.
  destruct (Ht _ _ Htid) as (tb' & Htid' & Hsame & Hrows). exists tb'. split; [done|].
  split; [apply Hsame|]. intros id. rewrite Hrows. destruct (rows tb !! id) as [vs|] eqn:Hr; [|done].
  assert (Hvis : visible snap (status s') (filter (λ v, dead horizon s v = false) vs) =
    visible snap (status s) vs).
  { transitivity (visible snap (status s) (filter (λ v, dead horizon s v = false) vs)).
    - symmetry. apply visible_ext. intros v t Hv Hm _. apply list_elem_of_filter in Hv as [_ Hv].
      destruct (status_pruned horizon s s' t Hx) as [->|[Ha _]]; [done|]. exfalso.
      by apply (so_aborted _ Hok t Ha tid tb id Htid vs v).
    - apply visible_filter. intros v _ Hd. apply (dead_invisible horizon); [done|].
      by destruct (dead horizon s v). }
  simpl. rewrite <- Hvis. by destruct (filter _ vs).
Qed.

(** ** A transaction reads its own writes *)

Lemma is_settled_own snap st : is_settled snap (own snap) st = true.
Proof. apply is_settled_spec. by left. Qed.

Lemma visible_own snap st st' vs :
  (∀ t, t ≠ own snap → st' t = st t) → visible snap st' vs = visible snap st vs.
Proof.
  intros Hst. assert (Hse : ∀ t, is_settled snap t st' = is_settled snap t st).
  { intros t. destruct (decide (t = own snap)) as [->|Hne]; [by rewrite !is_settled_own|].
    apply is_settled_ext. by rewrite Hst. }
  unfold visible. f_equal. induction vs as [|v vs IH]; [done|]. cbn [list_find]. rewrite IH.
  assert (Hv : is_visible snap (v_xmin v) (v_xmax v) st' = is_visible snap (v_xmin v) (v_xmax v) st).
  { unfold is_visible. rewrite Hse. by destruct (v_xmax v); rewrite ?Hse. }
  by rewrite Hv.
Qed.

Lemma visible_app_none snap st vs l :
  Forall (λ v, is_visible snap (v_xmin v) (v_xmax v) st = false) vs →
  visible snap st (vs ++ l) = visible snap st l.
Proof.
  induction 1 as [|v vs Hv _ IH]; [done|]. unfold visible in *. cbn [app list_find]. rewrite Hv.
  rewrite decide_False by done. rewrite <- IH. by destruct (list_find _ (vs ++ l)) as [[]|].
Qed.

(** The version a snapshot reads is the last of its chain: it sees none before it. *)
Lemma visible_last snap st tb vs v :
  chain_ok tb (vs ++ [v]) → visible snap st (vs ++ [v]) = Some v →
  Forall (λ u, is_visible snap (v_xmin u) (v_xmax u) st = false) vs.
Proof.
  intros Hch Hv. unfold visible in Hv. apply fmap_Some in Hv as ([i u] & Hf & Hu). simpl in Hu. subst u.
  apply list_find_Some in Hf as (Hi & _ & Hbefore).
  assert (Hlen : i = length vs).
  { destruct (decide (i < length vs)) as [Hlt|Hge].
    - exfalso. pose proof (ch_seqs _ _ Hch) as Hs.
      assert (Hlk : (v_seq <$> vs ++ [v]) !! i = Some (v_seq v)) by (by rewrite list_lookup_fmap, Hi).
      assert (Hll : (v_seq <$> vs ++ [v]) !! length vs = Some (v_seq v)).
      { rewrite list_lookup_fmap, lookup_app_r, Nat.sub_diag by lia. done. }
      pose proof (StronglySorted_lookup _ _ _ _ _ _ Hs Hlk Hll Hlt). lia.
    - apply lookup_lt_Some in Hi. rewrite length_app in Hi. simpl in Hi. lia. }
  apply Forall_lookup. intros j u Hj. apply not_true_iff_false. apply (Hbefore j u).
  - rewrite lookup_app_l; [done|]. by eapply lookup_lt_Some.
  - apply lookup_lt_Some in Hj. lia.
Qed.

(** After a write of [t], its own snapshots read the end of the chain. *)
Lemma own_row_view snap t st st' tb vs v l :
  own snap = t → chain_ok tb (vs ++ [v]) → visible snap st (vs ++ [v]) = Some v →
  (∀ t', t' ≠ t → st' t' = st t') →
  visible snap st' (vs ++ set_xmax (Some t) v :: l) = visible snap st' l.
Proof.
  intros Hown Hch Hv Hst.
  assert (Hbefore : Forall (λ u, is_visible snap (v_xmin u) (v_xmax u) st = false) vs)
    by (by eapply visible_last).
  rewrite !(visible_own snap st st') by (by rewrite Hown).
  rewrite visible_app_none by done.
  apply (visible_app_none snap st [set_xmax (Some t) v] l). constructor; [|constructor].
  unfold is_visible. simpl. rewrite <- Hown, is_settled_own. by rewrite andb_false_r.
Qed.
End views.
