(* ===== verification/StorageUndo.v ===== *)
(** * The marks a history leaves

    About the requests of [StorageSystem.v]: a transaction that [vacuum] has not passed stays
    enrolled, so the requests made for it are allowed; and what the definition requests leave of
    the rows. *)

From S2P Require Import StorageViews Prelude Values Errors Snapshot Order CollationFacts Compare KeyOrder Table Index IndexFacts.
From S2P Require Import MemoryStorage StorageInv StorageFacts StorageOps StorageVacuum StorageCatalog StorageSearch StorageUnique StorageSystem.

(** The rows given to the storage have the types of their columns. *)
Definition typed_request (s : Inner) (r : Request) : Prop :=
  match r with
  | RInsert _ tid row | RUpdate _ tid _ row =>
      ∀ tb, tables s !! tid = Some tb → row_fits (shape tb) row
  | _ => True
  end.

Section enrolled.

(** ** A transaction stays enrolled *)

Lemma wrote_enrolled t tid row e vs s s' t' :
  wrote t tid row e vs s s' → enrolled s t' →
  (∀ tb, tables s !! tid = Some tb → t' ≠ t → untouched t' (rows tb !! row) → untouched t' (Some vs)) →
  enrolled s' t'.
Proof.
  intros [_ (tb & tb' & Htid & Ht & Hr & _) (st & _ & _ & Hx)] Hen Hu.
  destruct (decide (t' = t)) as [->|Hne]; [left; rewrite Hx, lookup_insert_eq; eauto|].
  destruct Hen as [Hs|Hun]; [left; by rewrite Hx, lookup_insert_ne|]. right.
  intros tid' tb2 row'. rewrite Ht, lookup_insert_Some. intros [[<- <-]|[_ Htid']]; [|by apply (Hun tid')].
  rewrite Hr. destruct (decide (row' = row)) as [->|Hrow].
  - rewrite lookup_insert_eq. apply (Hu tb); [done..|]. by apply (Hun tid).
  - rewrite lookup_insert_ne by done. by apply (Hun tid).
Qed.

Lemma undone_enrolled t st s s' t' : undone t (put_txn t st s) s' → enrolled s t' → enrolled s' t'.
Proof.
  intros Hu Hen. destruct (undone_fields _ _ _ Hu) as (_ & Hx & _). unfold enrolled. rewrite Hx. simpl.
  destruct (decide (t' = t)) as [->|Hne]; [left; rewrite lookup_insert_eq; eauto|].
  rewrite lookup_insert_ne by done. destruct Hen as [?|Hun]; [by left|right].
  apply log_ok_nil. apply (un_others _ _ _ Hu); [done|]. by apply log_ok_nil.
Qed.

(** The tables are those of before, with the same rows, or are new and empty. *)
Lemma enrolled_tables s s' t :
  txns s' = txns s →
  (∀ tid tb', tables s' !! tid = Some tb' →
     rows tb' = ∅ ∨ ∃ tb, tables s !! tid = Some tb ∧ rows tb' = rows tb) →
  enrolled s t → enrolled s' t.
Proof.
  intros Hx Ht Hen. unfold enrolled. rewrite Hx. destruct Hen as [?|Hun]; [by left|right].
  intros tid tb' row Htid. destruct (Ht _ _ Htid) as [->|(tb & Htb & ->)].
  - rewrite lookup_empty. by intros vs v [=].
  - by apply (Hun tid).
Qed.

Lemma put_txn_enrolled t st s t' : enrolled s t' → enrolled (put_txn t st s) t'.
Proof.
  intros Hen. unfold enrolled. simpl. destruct (decide (t' = t)) as [->|Hne].
  - rewrite lookup_insert_eq. eauto.
  - by rewrite lookup_insert_ne.
Qed.

Lemma savepoint_enrolled t s r s' t' : savepoint t s = (r, s') → enrolled s t' → enrolled s' t'.
Proof.
  unfold savepoint, mbind, stateful_bind, writing_txn, push_savepoint. intros Hrun Hen.
  pose proof (put_txn_enrolled t (default TxnState_in_progress (txns s !! t)) s t' Hen) as Hput.
  destruct (is_finished _) in Hrun; [by injection Hrun as <- <-|].
  destruct (checked_succ _ _) in Hrun; [|by injection Hrun as <- <-].
  injection Hrun as <- <-. apply put_txn_enrolled. exact Hput.
Qed.

(** [vacuum] forgets the transactions before the horizon, and removes versions. *)
Lemma vacuumed_enrolled h s s' t : vacuumed h s s' → (h ≤ t)%N → enrolled s t → enrolled s' t.
Proof.
  intros [_ _ _ Hx Hnone Ht] Hle [[st Hs]|Hun]; [left|right].
  - exists st. rewrite Hx. apply map_lookup_filter_Some. split; [done|]. apply andb_false_iff. right. apply N.ltb_ge. done.
  - intros tid tb' row Htid. destruct (tables s !! tid) as [tb|] eqn:Hold; [|by rewrite Hnone in Htid].
    destruct (Ht tid tb Hold) as (tb2 & Htid2 & _ & Hr). rewrite Htid in Htid2. injection Htid2 as <-. rewrite Hr.
    intros vs v Hvs Hv. destruct (rows tb !! row) as [ws|] eqn:Hw; [|done]. apply (Hun tid tb row Hold ws); [done|].
    revert Hvs. simpl. destruct (filter _ ws) as [|w f] eqn:Hf; [done|]. intros [= <-]. rewrite <- Hf in Hv. by apply list_elem_of_filter in Hv as [_ ?].
Qed.

Lemma definitions_enrolled r s t :
  well_formed s → enrolled s t →
  match r with
  | RCreateDatabase _ | RDropDatabase _ | RCreateTable _ _ | RDropTable _ | RCreateIndex _ _
  | RDropIndex _ => enrolled (perform r s).2 t
  | _ => True
  end.
Proof.
  intros [Hok Hcat] Hall. destruct r as [name|db|db sh|tid|tid def|i| | | | | | | | |]; try done; simpl;
    rewrite ?forget_answer_state.
  - destruct (create_database name s) as [r s'] eqn:Hrun; simpl.
    destruct (create_database_ok _ _ _ _ Hok Hcat Hrun) as (_ & _ & Hc). destruct r; [|by subst].
    destruct Hc as (_ & _ & Ht & Hx). apply (enrolled_tables s); [done| |done]. rewrite Ht. eauto.
  - destruct (drop_database db s) as [r s'] eqn:Hrun; simpl.
    destruct (drop_database_ok _ _ _ _ Hok Hcat Hrun) as (_ & _ & Hc). destruct r; [|by destruct Hc; subst].
    destruct Hc as (_ & Hx & Ht). apply (enrolled_tables s); [done| |done]. intros tid tb. rewrite Ht.
    destruct (tables s !! tid) as [tb2|]; [|done]. destruct (decide _); [done|]. intros [= <-]. eauto.
  - destruct (create_table db sh s) as [r s'] eqn:Hrun; simpl.
    destruct (create_table_ok _ _ _ _ _ Hok Hcat Hrun) as (_ & _ & Hc). destruct r; [|by subst].
    destruct Hc as (_ & Hx & tb & Ht & _ & _ & He & _). apply (enrolled_tables s); [done| |done].
    intros tid tb2. rewrite Ht, lookup_insert_Some. intros [[<- <-]|[_ ?]]; eauto.
  - destruct (drop_table tid s) as [r s'] eqn:Hrun; simpl.
    destruct (drop_table_ok _ _ _ _ Hok Hcat Hrun) as (_ & _ & Hc). destruct r; [|by destruct Hc; subst].
    destruct Hc as (Ht & Hx). apply (enrolled_tables s); [done| |done]. intros tid2 tb2.
    rewrite Ht, lookup_delete_Some. intros [_ ?]. eauto.
  - destruct (create_index tid def s) as [r s'] eqn:Hrun; simpl.
    destruct (create_index_ok _ _ _ _ _ Hok Hcat Hrun) as (_ & _ & Hc). destruct r; [|by subst].
    destruct Hc as (_ & Hx & tb & ix & Htid & Ht & _). apply (enrolled_tables s); [done| |done].
    intros tid2 tb2. rewrite Ht, lookup_insert_Some. intros [[<- <-]|[_ ?]]; eauto.
  - destruct (drop_index i s) as [r s'] eqn:Hrun; simpl.
    destruct (drop_index_ok _ _ _ _ Hok Hcat Hrun) as (_ & _ & Hc). destruct r; [|by destruct Hc; subst].
    destruct Hc as (_ & Hx & Ht). apply (enrolled_tables s); [done| |done]. intros tid tb2. rewrite Ht.
    intros (tb & Htb & ->)%fmap_Some. eauto.
Qed.

(** [t'] stays enrolled under the requests of all, a [vacuum] that does not pass it included. *)
Lemma perform_enrolled r s t' :
  well_formed s → allowed s r → (∀ h, r = RVacuum h → (h ≤ t')%N) → enrolled s t' →
  enrolled (perform r s).2 t'.
Proof.
  intros Hwf Hal Hh Hen. pose proof (definitions_enrolled r s t' Hwf Hen) as Hd.
  pose proof (wf_storage _ Hwf) as Hok.
  destruct r as [| | | | | |t tid row|t tid id row|t tid id|t|t|t|t sp| |h];
    try exact Hd; simpl in *; rewrite ?forget_answer_state.
  - destruct (insert t tid row s) as [r s'] eqn:Hrun; simpl. destruct Hal as [Ht Hty].
    pose proof (insert_ok _ _ _ _ _ _ Hok Ht Hty Hrun) as Hi. destruct r as [id|]; [|by subst].
    destruct Hi as (tb & Htid & _ & _ & Hw). eapply wrote_enrolled; [exact Hw|done|].
    intros tb2 _ Hne _ vs v [= <-] ->%list_elem_of_singleton [Hm|Hm]; [|done]. by simpl in Hm.
  - destruct (update t tid id row s) as [r s'] eqn:Hrun; simpl. destruct Hal as [Ht Hty].
    pose proof (update_ok _ _ _ _ _ _ _ Hok Ht Hty Hrun) as Hi. destruct r as [[]|]; [|by subst].
    destruct Hi as (tb & vs & v & Htid & Hr & _ & _ & Hw). eapply wrote_enrolled; [exact Hw|done|].
    intros tb2 Htb2 Hne. rewrite Htid in Htb2. injection Htb2 as <-. rewrite Hr. by apply untouched_update.
  - destruct (delete_row t tid id s) as [r s'] eqn:Hrun; simpl.
    pose proof (delete_ok _ _ _ _ _ _ Hok Hal Hrun) as Hi. destruct r as [[]|]; [|by subst].
    destruct Hi as (tb & vs & v & Htid & Hr & _ & _ & Hw). eapply wrote_enrolled; [exact Hw|done|].
    intros tb2 Htb2 Hne. rewrite Htid in Htb2. injection Htb2 as <-. rewrite Hr. by apply untouched_delete.
  - destruct (commit t s) as [r s'] eqn:Hrun; simpl. destruct (commit_ok _ _ _ _ Hok Hrun) as [_ Hc].
    destruct r; destruct Hc as [-> _]; [by apply put_txn_enrolled|done].
  - destruct (rollback t s) as [r s'] eqn:Hrun; simpl. pose proof (rollback_ok _ _ _ _ Hok Hal Hrun) as Hc.
    destruct r; [|by destruct Hc; subst]. destruct Hc as (_ & Hu & _). by eapply undone_enrolled.
  - destruct (savepoint t s) as [r s'] eqn:Hrun; simpl. by eapply savepoint_enrolled.
  - destruct (rollback_to t sp s) as [r s'] eqn:Hrun; simpl. pose proof (rollback_to_ok _ _ _ _ _ Hok Hrun) as Hc.
    destruct r; [|by destruct Hc; subst]. destruct Hc as (_ & w & st' & _ & Hu & _). by eapply undone_enrolled.
  - done.
  - destruct (vacuum_ok h s Hok) as (s' & Hv & Hva). rewrite Hv. simpl. eapply vacuumed_enrolled; [exact Hva|by apply Hh|done].
Qed.

(** ** Tables come and go, their rows stay *)

(** A table reads the same through [snap] in both states. *)
Definition reads_alike (snap : Snapshot) (tid : TableId) (s s' : Inner) : Prop :=
  scan snap tid s' = scan snap tid s ∧ ∀ id, get snap tid id s' = get snap tid id s.

#[export] Instance reads_alike_transitive snap tid : Transitive (reads_alike snap tid).
Proof. intros s1 s2 s3 [H1 H1'] [H2 H2']. split; [congruence|]. intros id. by rewrite H2'. Qed.

Lemma same_rows_alike snap tid s s' tb tb' :
  txns s' = txns s → tables s !! tid = Some tb → tables s' !! tid = Some tb' →
  rows tb' = rows tb → clustered tb' = clustered tb → reads_alike snap tid s s'.
Proof.
  intros Hx Ht Ht' Hr Hc. unfold reads_alike, scan, get, table, status, status_in. rewrite Ht, Ht', Hx. simpl.
  by rewrite Hr, Hc.
Qed.

(** A table that is there after a definition request is a new one, or reads as before. *)
Lemma definition_alike r s tid tb' snap :
  well_formed s → request_txn r = None → (∀ h, r ≠ RVacuum h) →
  tables (perform r s).2 !! tid = Some tb' →
  (next_table_id s ≤ tid)%N ∨ is_Some (tables s !! tid) ∧ reads_alike snap tid s (perform r s).2.
Proof.
  intros [Hok Hcat] Hr Hnv.
  assert (Hsame : ∀ s', txns s' = txns s → tables s' = tables s → tables s' !! tid = Some tb' →
    is_Some (tables s !! tid) ∧ reads_alike snap tid s s').
  { intros s' Hx Ht Htid. pose proof Htid as Htid'. rewrite Ht in Htid. split; [eauto|].
    by eapply same_rows_alike. }
  destruct r as [name|db|db sh|tid0|tid0 def|i| | | | | | | | |h]; try done; cbn [perform];
    rewrite ?forget_answer_state; simpl.
  - destruct (create_database name s) as [r s'] eqn:Hrun; simpl.
    destruct (create_database_ok _ _ _ _ Hok Hcat Hrun) as (_ & _ & Hc). right.
    destruct r; [|subst; by apply Hsame]. destruct Hc as (_ & _ & Ht & Hx). by apply Hsame.
  - destruct (drop_database db s) as [r s'] eqn:Hrun; simpl.
    destruct (drop_database_ok _ _ _ _ Hok Hcat Hrun) as (_ & _ & Hc). right.
    destruct r; [|destruct Hc; subst; by apply Hsame]. destruct Hc as (_ & Hx & Ht). pose proof (Ht tid) as Htid.
    destruct (tables s !! tid) as [tb|] eqn:Hold; [|congruence]. destruct (decide _); [congruence|].
    split; [eauto|]. by eapply same_rows_alike.
  - destruct (create_table db sh s) as [r s'] eqn:Hrun; simpl.
    destruct (create_table_ok _ _ _ _ _ Hok Hcat Hrun) as (_ & _ & Hc).
    destruct r as [id|]; [|subst; right; by apply Hsame]. destruct Hc as (Hn & Hx & tb & Ht & _).
    intros Htid. pose proof Htid as Htid'. rewrite Ht in Htid'.
    apply lookup_insert_Some in Htid' as [[<- <-]|[Hne Htid']].
    + left. revert Hrun. unfold create_table, next_id. destruct (check_shape sh); [|done].
      destruct (databases s !! db); [|done]. destruct (checked_succ _ _); [|done]. by intros [= <- _].
    + right. split; [eauto|]. by eapply same_rows_alike.
  - destruct (drop_table tid0 s) as [r s'] eqn:Hrun; simpl.
    destruct (drop_table_ok _ _ _ _ Hok Hcat Hrun) as (_ & _ & Hc). right.
    destruct r; [|destruct Hc; subst; by apply Hsame]. destruct Hc as (Ht & Hx).
    pose proof H as Htid. rewrite Ht in Htid. apply lookup_delete_Some in Htid as [_ Htid].
    split; [eauto|]. by eapply same_rows_alike.
  - destruct (create_index tid0 def s) as [r s'] eqn:Hrun; simpl.
    destruct (create_index_ok _ _ _ _ _ Hok Hcat Hrun) as (_ & _ & Hc). right.
    destruct r; [|subst; by apply Hsame]. destruct Hc as (_ & Hx & tb & ix & Htid0 & Ht & _).
    pose proof H as Htid. rewrite Ht in Htid. apply lookup_insert_Some in Htid as [[<- <-]|[Hne Htid]];
      (split; [eauto|]); by eapply same_rows_alike.
  - destruct (drop_index i s) as [r s'] eqn:Hrun; simpl.
    destruct (drop_index_ok _ _ _ _ Hok Hcat Hrun) as (_ & _ & Hc). right.
    destruct r; [|destruct Hc; subst; by apply Hsame]. destruct Hc as (_ & Hx & Ht).
    pose proof H as Htid. rewrite Ht in Htid. apply fmap_Some in Htid as (tb & Htb & ->).
    split; [eauto|]. by eapply same_rows_alike.
  - intros Htid. right. split; [eauto|]. done.
  - by destruct (Hnv h).
Qed.

(** Identifiers of tables are not used twice. *)
Lemma perform_next_table r s :
  well_formed s → allowed s r → (next_table_id s ≤ next_table_id (perform r s).2)%N.
Proof.
  intros [Hok Hcat] Hal.
  destruct r as [name|db|db sh|tid|tid def|i|t tid row|t tid id row|t tid id|t|t|t|t sp| |h];
    cbn [perform]; rewrite ?forget_answer_state; simpl.
  - unfold create_database, next_id. by destruct (checked_succ _ _).
  - unfold drop_database. destruct (databases s !! db); [|done]. simpl.
    pose proof (forget_tables_ok (set_databases (delete db (databases s)) s)
      (sorted_elements (db_tables d)) (set_databases_ok _ _ Hok)) as Hf. by rewrite (fo_frame _ _ _ Hf).
  - unfold create_table, next_id. destruct (check_shape sh); [|done]. destruct (databases s !! db); [|done].
    destruct (checked_succ _ _) eqn:Hn; [|done]. apply checked_succ_Some in Hn as [-> _]. simpl. lia.
  - unfold drop_table. destruct (tables s !! tid); [|done]. simpl.
    match goal with |- context [forget_table ?s1 tid] =>
      rewrite (fo_frame _ _ _ (forget_table_ok s1 tid (set_databases_ok _ _ Hok))) end. done.
  - unfold create_index. by destruct (build_index _ _ _) as [[[[]]]|].
  - unfold drop_index. by destruct (indexes s !! i).
  - destruct (insert t tid row s) as [r s'] eqn:Hrun. simpl. revert Hrun.
    unfold insert, mbind, stateful_bind, reads, writing_txn, write_insert.
    intros Hrun. repeat (case_match; simplify_eq/=; try done); by simplify_eq/=.
  - destruct (update t tid id row s) as [r s'] eqn:Hrun. simpl. revert Hrun.
    unfold update, mbind, stateful_bind, reads, writing_txn, write_update.
    intros Hrun. repeat (case_match; simplify_eq/=; try done); by simplify_eq/=.
  - destruct (delete_row t tid id s) as [r s'] eqn:Hrun. simpl. revert Hrun.
    unfold delete_row, mbind, stateful_bind, reads, writing_txn, write_delete.
    intros Hrun. repeat (case_match; simplify_eq/=; try done); by simplify_eq/=.
  - destruct (commit t s) as [r s'] eqn:Hrun. destruct (commit_ok _ _ _ _ Hok Hrun) as [_ Hc].
    destruct r; destruct Hc as [-> _]; done.
  - destruct (rollback t s) as [r s'] eqn:Hrun. pose proof (rollback_ok _ _ _ _ Hok Hal Hrun) as Hc.
    destruct r; [|by destruct Hc; subst]. destruct Hc as (_ & Hu & _). simpl. by rewrite (un_frame _ _ _ Hu).
  - unfold savepoint, mbind, stateful_bind, writing_txn, push_savepoint.
    destruct (is_finished _); [done|]. by destruct (checked_succ _ _).
  - destruct (rollback_to t sp s) as [r s'] eqn:Hrun. pose proof (rollback_to_ok _ _ _ _ _ Hok Hrun) as Hc.
    destruct r; [|by destruct Hc; subst]. destruct Hc as (_ & w & st' & _ & Hu & _). simpl.
    by rewrite (un_frame _ _ _ Hu).
  - done.
  - destruct (vacuum_ok h s Hok) as (s' & Hv & Hva). rewrite Hv. simpl. by rewrite (va_next _ _ _ Hva).
Qed.

(** What [snap] has read in [s0] it still reads in [s], unless the table was dropped. *)
Definition still_reads (snap : Snapshot) (tid : TableId) (s0 s : Inner) : Prop :=
  (tid < next_table_id s)%N ∧ (is_Some (tables s !! tid) → reads_alike snap tid s0 s).

Lemma still_reads_refl snap tid s : well_formed s → is_Some (tables s !! tid) → still_reads snap tid s s.
Proof. intros Hwf [tb Ht]. split; [apply (bo_tables _ (wf_storage _ Hwf) _ _ Ht)|]. done. Qed.

Lemma perform_still_reads r s s0 snap tid :
  well_formed s → allowed s r → (∀ h, r = RVacuum h → usable h snap) →
  (∀ t, request_txn r = Some t → unseen snap t) →
  still_reads snap tid s0 s → still_reads snap tid s0 (perform r s).2.
Proof.
  intros Hwf Hal Hus Hu [Hlt Hs]. pose proof (perform_next_table r s Hwf Hal) as Hn.
  split; [lia|]. intros [tb' Ht'].
  assert (Hcase : (∃ h, r = RVacuum h) ∨ ∀ h, r ≠ RVacuum h) by (destruct r; eauto).
  destruct Hcase as [[h ->]|Hnv].
  { simpl in Ht' |- *. destruct (vacuum_ok h s (wf_storage _ Hwf)) as (s' & Hv & Hva). rewrite Hv in Ht' |- *. simpl in *.
    pose proof (vacuumed_view h snap s s' (wf_storage _ Hwf) (Hus h eq_refl) Hva tid) as Hview.
    transitivity s; [|exact Hview]. apply Hs. destruct (tables s !! tid) eqn:Hold; [eauto|]. by rewrite (va_none _ _ _ Hva _ Hold) in Ht'. }
  destruct (request_txn r) as [t|] eqn:Hr.
  - pose proof (request_view snap t r s (wf_storage _ Hwf) Hal Hr (Hu t eq_refl)) as Hv.
    transitivity s; [|exact (Hv tid)]. apply Hs. destruct (Hv tid) as [_ Hg]. specialize (Hg 0%N).
    revert Hg. unfold get, table. rewrite Ht'. simpl. destruct (tables s !! tid); [eauto|done].
  - destruct (definition_alike r s tid tb' snap Hwf Hr Hnv Ht') as [?|[His Ha]]; [lia|].
    transitivity s; [by apply Hs|done].
Qed.
End enrolled.

(** * Savepoints round trip

    About [savepoint] and [rollback_to] of [MemoryStorage.v]: undoing the writes logged
    since a savepoint, last first, gives back every chain as it was at the savepoint. *)

(** The chains of all the tables. *)
Definition rows_of (s : Inner) : gmap TableId (gmap RowId (list Version)) := rows <$> tables s.

(** What one [undo] does to the chains of its table. *)
Definition undo_rows (t : TxnId) (e : UndoEntry) (r : gmap RowId (list Version)) :
    gmap RowId (list Version) :=
  match e with
  | UInsert _ row => delete row r
  | UUpdate _ row =>
      match r !! row with
      | Some vs => if tail_is_update t vs then <[row := alter_last (set_xmax None) (pop vs)]> r else r
      | None => r
      end
  | UDelete _ row =>
      match r !! row with
      | Some vs =>
          match last vs with
          | Some v => if bool_decide (v_xmax v = Some t)
                      then <[row := alter_last (set_xmax None) vs]> r else r
          | None => r
          end
      | None => r
      end
  end.

Definition undo_one (t : TxnId) (e : UndoEntry) (M : gmap TableId (gmap RowId (list Version))) :
    gmap TableId (gmap RowId (list Version)) :=
  alter (undo_rows t e) (entry_table e) M.

Section undo.

Lemma remove_entry_tables id rv s r s' : remove_entry id rv s = (r, s') → tables s' = tables s.
Proof.
  unfold remove_entry. destruct (indexes s !! id); [|by intros [= <- <-]].
  destruct (remove_version _ _ _); by intros [= <- <-].
Qed.

Lemma for_each_tables {A} (f : A → stateful Inner SqlError ()) l s r s' :
  (∀ x s r s', f x s = (r, s') → tables s' = tables s) →
  for_each f l s = (r, s') → tables s' = tables s.
Proof.
  intros Hf. revert s. induction l as [|x l IH]; intros s; [by intros [= <- <-]|].
  simpl. unfold mbind, stateful_bind. destruct (f x s) as [[[]|] s1] eqn:Hx.
  - intros Hl. rewrite (IH _ Hl). by eapply Hf.
  - intros [= <- <-]. by eapply Hf.
Qed.

Lemma remove_entries_tables tid rm s r s' : remove_entries tid rm s = (r, s') → tables s' = tables s.
Proof.
  unfold remove_entries. destruct (tables s !! tid); [|by intros [= <- <-]].
  apply for_each_tables. intros i s1 r1 s1'. apply for_each_tables.
  intros rv s2 r2 s2'. apply remove_entry_tables.
Qed.

Lemma rows_of_put tid tb r s :
  tables s !! tid = Some tb → rows_of (put_table tid (with_rows tb r) s) = <[tid := r]> (rows_of s).
Proof. intros Ht. unfold rows_of. simpl. by rewrite fmap_insert. Qed.

Lemma rows_of_lookup s tid tb : tables s !! tid = Some tb → rows_of s !! tid = Some (rows tb).
Proof. intros Ht. unfold rows_of. by rewrite lookup_fmap, Ht. Qed.

Lemma alter_id_eq (M : gmap TableId (gmap RowId (list Version))) tid r f :
  M !! tid = Some r → alter f tid M = <[tid := f r]> M.
Proof.
  intros Hm. apply map_eq. intros i. destruct (decide (i = tid)) as [->|Hne].
  - by rewrite lookup_alter_eq, Hm, lookup_insert_eq.
  - by rewrite lookup_alter_ne, lookup_insert_ne.
Qed.

Lemma undo_rows_of t e s s' : undo t e s = (Ok (), s') → rows_of s' = undo_one t e (rows_of s).
Proof.
  unfold undo_one. destruct (tables s !! entry_table e) as [tb|] eqn:Ht.
  - rewrite (alter_id_eq _ _ (rows tb)) by (by apply rows_of_lookup).
    destruct e as [tid row|tid row|tid row]; simpl in *; rewrite Ht.
    + unfold remove_row. destruct (rows tb !! row) as [vs|] eqn:Hr.
      * intros Hrm%remove_entries_tables. unfold rows_of. rewrite Hrm. by apply rows_of_put.
      * intros [= <-]. by apply rows_of_put.
    + unfold undo_update. destruct (rows tb !! row) as [vs|] eqn:Hr; [|done].
      destruct (tail_is_update t vs) eqn:Htail; [|done].
      destruct (last vs) as [v|] eqn:Hl; [|done].
      intros Hrm%remove_entries_tables. unfold rows_of. rewrite Hrm. by apply rows_of_put.
    + unfold undo_delete. destruct (rows tb !! row) as [vs|] eqn:Hr; [|done].
      destruct (last vs) as [v|]; [|done]. case_bool_decide; [|done].
      intros [= <-]. by apply rows_of_put.
  - assert (Hs : undo t e s = (Ok (), s)) by (destruct e; simpl in *; by rewrite Ht).
    rewrite Hs. intros [= <-]. symmetry. apply map_eq. intros i.
    destruct (decide (i = entry_table e)) as [->|Hne].
    + rewrite lookup_alter_eq. unfold rows_of. by rewrite lookup_fmap, Ht.
    + by rewrite lookup_alter_ne.
Qed.

(** The loop over a log, last entry first. *)
Definition undo_many (t : TxnId) (es : list UndoEntry) (M : gmap TableId (gmap RowId (list Version))) :=
  foldl (λ M e, undo_one t e M) M (reverse es).

Lemma undo_many_snoc t es e M : undo_many t (es ++ [e]) M = undo_many t es (undo_one t e M).
Proof. unfold undo_many. by rewrite reverse_snoc. Qed.

Lemma undo_loop_rows t es s s' :
  for_each (undo t) (reverse es) s = (Ok (), s') → rows_of s' = undo_many t es (rows_of s).
Proof.
  unfold undo_many. revert s. induction (reverse es) as [|e l IH]; intros s; [by intros [= <-]|].
  simpl. unfold mbind, stateful_bind. destruct (undo t e s) as [[[]|] s1] eqn:Hu; [|done].
  intros Hl. rewrite (IH _ Hl). by rewrite (undo_rows_of _ _ _ _ Hu).
Qed.

(** ** Writes and their undo *)

Lemma undo_wrote t tid row k vs' o s s' :
  wrote t tid row (match k with KInsert => UInsert tid row | KUpdate => UUpdate tid row
                   | KDelete => UDelete tid row end) vs' s s' →
  (∀ tb, tables s !! tid = Some tb → rows tb !! row = o) →
  match k with
  | KInsert => o = None
  | KUpdate => ∃ vs v d n, o = Some (vs ++ [v]) ∧ v_xmax v = None ∧
      vs' = vs ++ [set_xmax (Some t) v; mkVersion t None d n]
  | KDelete => ∃ vs v, o = Some (vs ++ [v]) ∧ v_xmax v = None ∧ vs' = vs ++ [set_xmax (Some t) v]
  end →
  undo_one t (match k with KInsert => UInsert tid row | KUpdate => UUpdate tid row
              | KDelete => UDelete tid row end) (rows_of s') = rows_of s.
Proof.
  intros [_ (tb & tb' & Ht & Hts & Hr & _) _] Ho Hk. specialize (Ho _ Ht).
  assert (Hrows : rows_of s' = <[tid := <[row := vs']> (rows tb)]> (rows_of s)).
  { unfold rows_of. by rewrite Hts, fmap_insert, Hr. }
  assert (Hlk : rows_of s !! tid = Some (rows tb)) by (by apply rows_of_lookup).
  unfold undo_one. rewrite Hrows. destruct k; simpl.
  - subst o. rewrite alter_insert_eq. simpl. rewrite delete_insert_id by done. by rewrite insert_id.
  - destruct Hk as (vs & v & d & n & -> & Hx & ->). rewrite alter_insert_eq. simpl.
    rewrite lookup_insert_eq. destruct (undo_update_chain t vs v d n Hx) as (-> & _ & ->).
    rewrite insert_insert_eq, (insert_id (rows tb)) by done. by rewrite insert_id.
  - destruct Hk as (vs & v & -> & Hx & ->). rewrite alter_insert_eq. simpl.
    rewrite lookup_insert_eq, last_snoc. rewrite bool_decide_true by done.
    rewrite alter_last_snoc, set_xmax_undo by done.
    rewrite insert_insert_eq, (insert_id (rows tb)) by done. by rewrite insert_id.
Qed.

(** A write request of [t]. *)
Definition is_write (t : TxnId) (r : Request) : Prop :=
  match r with
  | RInsert t' _ _ | RUpdate t' _ _ _ | RDelete t' _ _ => t' = t
  | _ => False
  end.

(** [ss] is a history of writes of [t] from [s], each within the preconditions. *)
Inductive writes_from (t : TxnId) : Inner → Inner → Prop :=
  | writes_nil s : writes_from t s s
  | writes_cons s r s' :
      is_write t r → allowed s r → writes_from t (perform r s).2 s' → writes_from t s s'.

(** One write adds at most one entry to the log, and undoing it gives the chains back. *)
Lemma write_step t r s st :
  storage_ok s → is_write t r → allowed s r → txns s !! t = Some st → ts_status st = InProgress →
  ∃ es, let s' := (perform r s).2 in
    storage_ok s' ∧ next_savepoint_id s' = next_savepoint_id s ∧
    txns s' !! t = Some (mkTxnState InProgress (writes st ++ es) (savepoints st)) ∧
    undo_many t es (rows_of s') = rows_of s.
Proof.
  intros Hok Hw Hal Ht Hst.
  assert (Hnil : ∃ es, storage_ok s ∧ next_savepoint_id s = next_savepoint_id s ∧
    txns s !! t = Some (mkTxnState InProgress (writes st ++ es) (savepoints st)) ∧
    undo_many t es (rows_of s) = rows_of s).
  { exists []. rewrite app_nil_r. split_and!; [done..| |done]. rewrite Ht, <- Hst. by destruct st. }
  assert (Hone : ∀ tid row e vs' s', wrote t tid row e vs' s s' → next_savepoint_id s' = next_savepoint_id s →
    undo_one t e (rows_of s') = rows_of s →
    ∃ es, storage_ok s' ∧ next_savepoint_id s' = next_savepoint_id s ∧
      txns s' !! t = Some (mkTxnState InProgress (writes st ++ es) (savepoints st)) ∧
      undo_many t es (rows_of s') = rows_of s).
  { intros tid row e vs' s' [Hok' _ (st' & Hst' & _ & Hx)] Hn Hu. exists [e]. split_and!; [done..| |done].
    rewrite Hx, lookup_insert_eq. rewrite Ht in Hst'. simpl in Hst'. by subst st'. }
  destruct r as [| | | | | |t0 tid row|t0 tid id row|t0 tid id| | | | | |]; try done; simpl in Hw; subst t0;
    simpl; unfold forget_answer.
  - destruct Hal as [Hen Hfit]. destruct (insert t tid row s) as [[id|e] s'] eqn:Hrun;
      pose proof (insert_ok _ _ _ _ _ _ Hok Hen Hfit Hrun) as Hi; simpl in *; [|by rewrite Hi].
    destruct Hi as (tb & Htb & _ & Hn & Hwr). eapply Hone; [exact Hwr| |].
    + revert Hrun. unfold insert, mbind, stateful_bind, reads, writing_txn, write_insert.
      intros Hrun. repeat (case_match; simplify_eq/=; try done); by simplify_eq/=.
    + apply (undo_wrote t tid id KInsert _ None s s' Hwr); [|done]. intros tb2 Ht2. by simplify_eq.
  - destruct Hal as [Hen Hfit]. destruct (update t tid id row s) as [[[]|e] s'] eqn:Hrun;
      pose proof (update_ok _ _ _ _ _ _ _ Hok Hen Hfit Hrun) as Hi; simpl in *; [|by rewrite Hi].
    destruct Hi as (tb & vs & v & Htb & Hr & Hx & _ & Hwr). eapply Hone; [exact Hwr| |].
    + revert Hrun. unfold update, mbind, stateful_bind, reads, writing_txn, write_update.
      intros Hrun. repeat (case_match; simplify_eq/=; try done); by simplify_eq/=.
    + apply (undo_wrote t tid id KUpdate _ (Some (vs ++ [v])) s s' Hwr); [|by eauto 10].
      intros tb2 Ht2. by simplify_eq.
  - destruct (delete_row t tid id s) as [[[]|e] s'] eqn:Hrun;
      pose proof (delete_ok _ _ _ _ _ _ Hok Hal Hrun) as Hi; simpl in *; [|by rewrite Hi].
    destruct Hi as (tb & vs & v & Htb & Hr & Hx & _ & Hwr). eapply Hone; [exact Hwr| |].
    + revert Hrun. unfold delete_row, mbind, stateful_bind, reads, writing_txn, write_delete.
      intros Hrun. repeat (case_match; simplify_eq/=; try done); by simplify_eq/=.
    + apply (undo_wrote t tid id KDelete _ (Some (vs ++ [v])) s s' Hwr); [|by eauto 10].
      intros tb2 Ht2. by simplify_eq.
Qed.

Lemma writes_log t s s' st :
  writes_from t s s' → storage_ok s → txns s !! t = Some st → ts_status st = InProgress →
  ∃ es, storage_ok s' ∧ txns s' !! t = Some (mkTxnState InProgress (writes st ++ es) (savepoints st)) ∧
    undo_many t es (rows_of s') = rows_of s.
Proof.
  intros Hws. revert st. induction Hws as [s|s r s' Hw Hal _ IH]; intros st Hok Ht Hst.
  - exists []. rewrite app_nil_r. split_and!; [done| |done]. rewrite Ht, <- Hst. by destruct st.
  - destruct (write_step t r s st Hok Hw Hal Ht Hst) as (es1 & Hok1 & _ & Ht1 & Hu1).
    destruct (IH _ Hok1 Ht1 eq_refl) as (es2 & Hok2 & Ht2 & Hu2). simpl in *.
    exists (es1 ++ es2). split_and!; [done|by rewrite app_assoc|].
    unfold undo_many in *. rewrite reverse_app, foldl_app, Hu2. exact Hu1.
Qed.

Lemma savepoint_mark t s sp s1 :
  storage_ok s → enrolled s t → savepoint t s = (Ok sp, s1) →
  ∃ w sps, storage_ok s1 ∧ rows_of s1 = rows_of s ∧ sp ∉ sps.*1 ∧
    txns s1 !! t = Some (mkTxnState InProgress w (sps ++ [(sp, length w)])).
Proof.
  intros Hok Hen Hrun. destruct (savepoint_ok _ _ _ _ Hok Hen Hrun) as [Hok1 Ht].
  revert Hrun. unfold savepoint, mbind, stateful_bind.
  destruct (writing_txn t s) as [[st|e] s0] eqn:Hw; [|done].
  destruct (writing_txn_ok _ _ _ _ Hok Hen Hw) as (Hok0 & -> & Ht0 & Hst & _).
  unfold push_savepoint. destruct (checked_succ _ _) as [next|]; [|done]. intros [= <- <-].
  exists (writes st), (savepoints st). split; [done|]. split; [done|]. split.
  - intros ([sp mark] & Heq & Hin)%list_elem_of_fmap. simpl in Heq. subst sp.
    pose proof (tx_marks _ _ _ (so_txns _ Hok0 _ _ Ht0)) as Hm. rewrite Forall_forall in Hm.
    destruct (Hm _ Hin) as [Hlt _]. simpl in Hlt. lia.
  - simpl. rewrite lookup_insert_eq. by rewrite Hst.
Qed.

Lemma rollback_to_savepoint t s sp s1 s2 :
  storage_ok s → enrolled s t → savepoint t s = (Ok sp, s1) → writes_from t s1 s2 →
  ∃ s3, rollback_to t sp s2 = (Ok (), s3) ∧ storage_ok s3 ∧ rows_of s3 = rows_of s ∧
    txns s3 !! t = txns s1 !! t.
Proof.
  intros Hok Hen Hsp Hws. destruct (savepoint_mark _ _ _ _ Hok Hen Hsp) as (w & sps & Hok1 & Hr1 & Hni & Ht1).
  destruct (writes_log _ _ _ _ Hws Hok1 Ht1 eq_refl) as (es & Hok2 & Ht2 & Hu2). simpl in *.
  assert (Hcut : cut_log t sp s2 = Ok (es, mkTxnState InProgress w (sps ++ [(sp, length w)]))).
  { unfold cut_log. rewrite Ht2. unfold is_finished. simpl.
    assert (Hfind : list_find (λ p : SavepointId * nat, p.1 = sp) (sps ++ [(sp, length w)]) =
      Some (length sps, (sp, length w))).
    { apply list_find_Some. split; [by rewrite lookup_app_r, Nat.sub_diag by lia|]. split; [done|].
      intros j p Hj Hlt Hp. rewrite lookup_app_l in Hj by lia. apply Hni, list_elem_of_fmap.
      exists p. split; [done|]. by eapply list_elem_of_lookup_2. }
    rewrite Hfind, bool_decide_false by (rewrite length_app; lia).
    rewrite drop_app_length, take_app_length, take_ge; [done|]. rewrite length_app. simpl. lia. }
  destruct (rollback_to t sp s2) as [r s3] eqn:Hrun.
  pose proof (rollback_to_ok _ _ _ _ _ Hok2 Hrun) as Hres. destruct r as [[]|e].
  - destruct Hres as (Hok3 & w' & st' & Hcut' & Hun & _). exists s3. split; [done|]. split; [done|].
    rewrite Hcut in Hcut'. injection Hcut' as <- <-. split.
    + revert Hrun. unfold rollback_to. rewrite Hcut. intros Hl%undo_loop_rows. rewrite Hl, <- Hr1, <- Hu2. done.
    + destruct (undone_fields _ _ _ Hun) as (_ & Hx & _). rewrite Hx. simpl. by rewrite lookup_insert_eq, Ht1.
  - destruct Hres as [_ Hc]. congruence.
Qed.
End undo.
