(* ===== verification/StorageTheorems.v ===== *)
(** * A concrete database

    The instances the theorems are applied to: a table of people, and
    histories of requests that are run. *)

From S2P Require Import Prelude Values Errors Snapshot Order CollationFacts Compare KeyOrder Table Index IndexFacts MemoryStorage.
From S2P Require Import StorageInv StorageFacts StorageOps StorageVacuum StorageCatalog StorageSearch StorageUnique StorageSystem StorageViews StorageUndo.

(** A table of an identifier and a name, clustered on the identifier. *)
Definition people : TableShape :=
  mkTableShape [TypeInfo_new TInt false; TypeInfo_new (TNVarChar Max) true] (Some [mkKeyColumn 0 false]).

Definition person (id : Z) (name : list Z) : Row := mkRow [VI32 id; VString (mkSqlString name)].

Lemma person_fits id name : short name → row_fits people (person id name).
Proof.
  intros Hn. unfold row_fits, person, people. simpl.
  constructor; [right; done|]. constructor; [right; done|]. constructor.
Qed.

(** ** Histories of allowed requests *)

#[export] Instance mentions_dec t v : Decision (mentions t v).
Proof. unfold mentions. apply _. Defined.

Lemma unmarked_alt tbs t :
  map_Forall (λ _ tb, map_Forall (λ _ vs, Forall (λ v, ¬ mentions t v) vs) (rows tb)) tbs ↔
  unmarked tbs t.
Proof.
  split.
  - intros Hall tid tb row Ht vs v Hr Hv. specialize (Hall _ _ Ht _ _ Hr). simpl in Hall.
    rewrite Forall_forall in Hall. by apply Hall.
  - intros Hu tid tb Ht row vs Hr. apply Forall_forall. intros v Hv. by eapply Hu.
Qed.

#[export] Instance unmarked_dec tbs t : Decision (unmarked tbs t).
Proof. apply (decide_iff (unmarked_alt tbs t)). Defined.
#[export] Instance enrolled_dec s t : Decision (enrolled s t).
Proof. unfold enrolled. apply _. Defined.
#[export] Instance clean_dec v : Decision (clean v).
Proof. destruct v; simpl; unfold decimal_ok; apply _. Defined.
#[export] Instance value_fits_dec i v : Decision (value_fits i v).
Proof. unfold value_fits. apply _. Defined.
#[export] Instance row_fits_dec sh r : Decision (row_fits sh r).
Proof. unfold row_fits. apply _. Defined.

#[export] Instance fits_table_dec s tid row :
  Decision (∀ tb, tables s !! tid = Some tb → row_fits (shape tb) row).
Proof.
  refine (match tables s !! tid as o return o = tables s !! tid → _ with
          | Some tb => λ Ho, cast_if (decide (row_fits (shape tb) row))
          | None => λ Ho, left _
          end eq_refl); rewrite <- Ho.
  - by intros tb' [= <-].
  - intros Hall. by apply n, Hall.
  - done.
Defined.

#[export] Instance allowed_dec s r : Decision (allowed s r).
Proof. destruct r; simpl; apply _. Defined.

(** The requests in order; one that is not allowed where it stands ends the history. *)
Fixpoint history (s : Inner) (rs : list Request) : Inner :=
  match rs with
  | [] => s
  | r :: rs => if decide (allowed s r) then history (perform r s).2 rs else s
  end.

Lemma history_reachable s rs : storage_reachable s → storage_reachable (history s rs).
Proof.
  revert s. induction rs as [|r rs IH]; intros s Hs; [done|]. simpl.
  destruct (decide (allowed s r)); [|done]. apply IH. eapply rtc_r; [exact Hs|]. by constructor.
Qed.

(** * Theorems about the storage

    The properties of the in-memory storage and of the comparison of values it rests on,
    each with an instance on a concrete database. *)

(** Transaction 1 creates two people and commits; 2 renames the first and adds a third. *)
Definition populated : Inner :=
  history MemoryStorage_new
    [RCreateDatabase "hr"; RCreateTable 1 people;
     RCreateIndex 1 (mkIndexShape [mkKeyColumn 1 false] true []);
     RInsert 1 1 (person 20 [98%Z]); RInsert 1 1 (person 10 [97%Z]); RCommit 1].

Definition renamed : Inner :=
  history populated [RUpdate 2 1 1 (person 20 [99%Z]); RInsert 2 1 (person 30 [100%Z])].

Lemma populated_reachable : storage_reachable populated.
Proof. apply history_reachable. constructor. Qed.

Lemma renamed_reachable : storage_reachable renamed.
Proof. apply history_reachable, populated_reachable. Qed.

Lemma populated_ok : well_formed populated.
Proof. apply reachable_well_formed, populated_reachable. Qed.

Lemma renamed_ok : well_formed renamed.
Proof. apply reachable_well_formed, renamed_reachable. Qed.

(** A reader that started after 1 committed and before 2. *)
Definition reader : Snapshot := mkSnapshot 2 2 [] 9.

(** ** The invariant *)

(** C4. In every state that allowed requests can lead to: the chains of each table are not
    empty, superseded but for their last version and numbered in order; each index lists
    exactly the versions of its table, sorted; the log of each transaction in progress
    describes the tails of the chains it wrote; nothing bears the mark of an aborted
    transaction; and the databases list their tables. *)
Theorem storage_stays_well_formed s : storage_reachable s → well_formed s.
Proof. apply reachable_well_formed. Qed.

Lemma storage_stays_well_formed_witness :
  well_formed renamed ∧ scan reader 1 renamed = Ok [(2%N, person 10 [97%Z]); (1%N, person 20 [98%Z])].
Proof.
  split; [exact (storage_stays_well_formed renamed renamed_reachable)|vm_compute; reflexivity].
Defined.

(** C21. No allowed request is answered by [InternalError::Corruption]: rollback finds each
    write it undoes at the end of its chain, an index entry always names a version, a
    savepoint never points past the log. *)
Theorem storage_never_corrupt s r e s' :
  storage_reachable s → allowed s r → perform r s = (Err e, s') → ¬ is_corruption e.
Proof.
  intros Hs Hal Hrun. destruct (perform_ok r s (reachable_well_formed s Hs) Hal) as [_ He].
  apply He. by rewrite Hrun.
Qed.

Lemma storage_never_corrupt_witness :
  ∃ e s', perform (RInsert 3 1 (person 1 [99%Z])) renamed = (Err e, s') ∧ number e = 2601%N ∧
    ¬ is_corruption e.
Proof.
  destruct (perform (RInsert 3 1 (person 1 [99%Z])) renamed) as [r s'] eqn:Hrun.
  assert (Hr : r = Err (duplicate_key_index 1 1 [VString (mkSqlString [99%Z])])).
  { change r with (r, s').1. rewrite <- Hrun. vm_compute. reflexivity. }
  exists (duplicate_key_index 1 1 [VString (mkSqlString [99%Z])]), s'. rewrite Hr in *.
  split; [reflexivity|]. split; [reflexivity|].
  apply (storage_never_corrupt renamed (RInsert 3 1 (person 1 [99%Z])) _ s' renamed_reachable); [|exact Hrun].
  apply (bool_decide_unpack _). vm_compute. exact I.
Defined.

(** C2. Two transactions in progress have never both written a row: at most one of them has
    left its mark on the chain. *)
Theorem no_dirty_write s t1 t2 tid tb row vs v1 v2 :
  storage_reachable s → is_Some (txns s !! t1) → is_Some (txns s !! t2) →
  status s t1 = InProgress → status s t2 = InProgress →
  tables s !! tid = Some tb → rows tb !! row = Some vs → v1 ∈ vs → v2 ∈ vs →
  mentions t1 v1 → mentions t2 v2 → t1 = t2.
Proof.
  intros Hs%reachable_well_formed [st1 Ht1] [st2 Ht2]. unfold status, status_in. rewrite Ht1, Ht2.
  intros H1 H2 Htid Hr Hv1 Hv2 Hm1 Hm2. destruct (decide (t1 = t2)) as [|Hne]; [done|exfalso].
  pose proof (tx_log _ _ _ (so_txns _ Hs _ _ Ht1) H1 tid tb row Htid) as Hw1.
  pose proof (tx_log _ _ _ (so_txns _ Hs _ _ Ht2) H2 tid tb row Htid) as Hw2.
  assert (Hk1 : row_log tid row (writes st1) ≠ []).
  { intros Hn. rewrite Hn in Hw1. by apply (written_nil_inv _ _ Hw1 vs v1 Hr Hv1). }
  pose proof (written_exclusive _ _ _ _ _ Hw1 Hw2 Hk1 Hne) as Hn. rewrite Hn in Hw2.
  by apply (written_nil_inv _ _ Hw2 vs v2 Hr Hv2).
Qed.

Lemma no_dirty_write_witness :
  ∃ tb v1 v2, tables renamed !! 1%N = Some tb ∧ rows tb !! 1%N = Some [v1; v2] ∧
    mentions 2 v1 ∧ mentions 2 v2 ∧ status renamed 2 = InProgress ∧ 2%N = 2%N.
Proof.
  destruct (tables renamed !! 1%N) as [tb|] eqn:Htb; [|vm_compute in Htb; discriminate].
  exists tb, (mkVersion 1 (Some 2%N) (person 20 [98%Z]) 1), (mkVersion 2 None (person 20 [99%Z]) 3).
  assert (Hr : rows tb !! 1%N = Some [mkVersion 1 (Some 2%N) (person 20 [98%Z]) 1;
    mkVersion 2 None (person 20 [99%Z]) 3]).
  { vm_compute in Htb. injection Htb as <-. vm_compute. reflexivity. }
  assert (Ht : is_Some (txns renamed !! 2%N)) by (apply (bool_decide_unpack _); vm_compute; exact I).
  assert (Hst : status renamed 2 = InProgress) by (vm_compute; reflexivity).
  do 2 (split; [reflexivity || exact Hr|]). split; [right; reflexivity|]. split; [left; reflexivity|].
  split; [exact Hst|].
  apply (no_dirty_write renamed 2 2 1 tb 1 _ _ _ renamed_reachable Ht Ht Hst Hst Htb Hr
    (list_elem_of_here _ _) (list_elem_of_further _ _ _ (list_elem_of_here _ _)));
    [right; reflexivity|left; reflexivity].
Defined.

(** ** Undoing *)

(** C5. Rolling back a transaction in progress succeeds, removes every version it created
    and every mark it set, leaves each chain as if the transaction had never written, and
    records it as aborted. *)
Theorem rollback_takes_everything_back s t st :
  storage_reachable s → txns s !! t = Some st → ts_status st = InProgress →
  ∃ s', rollback t s = (Ok (), s') ∧ status s' t = Aborted ∧ unmarked (tables s') t ∧
    ∀ tid tb, tables s !! tid = Some tb →
      ∃ tb', tables s' !! tid = Some tb' ∧ ∀ row, rows tb' !! row = erase_row t (rows tb !! row).
Proof.
  intros Hs%reachable_well_formed Ht Hst. destruct (rollback t s) as [r s'] eqn:Hrun.
  pose proof (rollback_ok s t r s' (wf_storage _ Hs) (or_introl (mk_is_Some _ _ Ht)) Hrun) as Hr.
  destruct r as [[]|e]; [|destruct Hr as [_ (st' & Ht' & Hf)]; congruence].
  destruct Hr as (Hok & Hu & Hun & _). exists s'. split; [done|]. split; [|split; [done|]].
  - destruct (undone_fields _ _ _ Hu) as (_ & Hx & _). unfold status, status_in. rewrite Hx. simpl.
    by rewrite lookup_insert_eq.
  - intros tid tb Htid. destruct (un_tables _ _ _ Hu tid tb Htid) as (tb' & Htid' & _ & He).
    exists tb'. split; [done|]. intros row. rewrite <- He. symmetry. apply erase_untouched.
    + by apply (Hun tid).
    + intros vs Hvs. by apply (ch_nonempty _ _ (tw_chains _ (proj1 (bo_tables _ Hok _ _ Htid')) _ _ Hvs)).
Qed.

Lemma rollback_takes_everything_back_witness :
  ∃ s', rollback 2 renamed = (Ok (), s') ∧ status s' 2 = Aborted ∧
    scan (mkSnapshot 3 3 [] 3) 1 s' = Ok [(2%N, person 10 [97%Z]); (1%N, person 20 [98%Z])].
Proof.
  destruct (rollback_takes_everything_back renamed 2
    (mkTxnState InProgress [UUpdate 1 1; UInsert 1 3] []) renamed_reachable) as (s' & Hr & Ha & _);
    [vm_compute; reflexivity|reflexivity|].
  exists s'. split; [exact Hr|]. split; [exact Ha|].
  assert (Hs : s' = (rollback 2 renamed).2) by (rewrite Hr; reflexivity).
  rewrite Hs. vm_compute. reflexivity.
Defined.

(** C9. Savepoints round trip: whatever a transaction inserts, updates and deletes after a
    savepoint, [rollback_to] succeeds and gives back every chain of every table as it was
    when the savepoint was taken, with the savepoint still valid. *)
Theorem savepoint_round_trip s t sp s1 s2 :
  storage_reachable s → enrolled s t → savepoint t s = (Ok sp, s1) → writes_from t s1 s2 →
  ∃ s3, rollback_to t sp s2 = (Ok (), s3) ∧ well_formed s3 ∧ rows_of s3 = rows_of s ∧
    txns s3 !! t = txns s1 !! t.
Proof.
  intros Hs%reachable_well_formed Hen Hsp Hws.
  assert (Hw : well_formed s2).
  { assert (H1 : well_formed s1).
    { pose proof (perform_ok (RSavepoint t) s Hs Hen) as [Hw _]. revert Hw. simpl. unfold forget_answer.
      by rewrite Hsp. }
    clear Hsp. induction Hws as [|s1 r s2 Hwr Hal _ IH]; [done|]. by apply IH, perform_ok. }
  destruct (rollback_to_savepoint t s sp s1 s2 (wf_storage _ Hs) Hen Hsp Hws) as (s3 & Hr & Hok & Hrows & Ht).
  exists s3. split; [done|]. split; [|done].
  pose proof (perform_ok (RRollbackTo t sp) s2 Hw I) as [Hw3 _]. simpl in Hw3. by rewrite Hr in Hw3.
Qed.

Lemma savepoint_round_trip_witness :
  ∃ s3, rollback_to 2 1 (history (savepoint 2 renamed).2
      [RDelete 2 1 2; RUpdate 2 1 1 (person 21 [101%Z])]) = (Ok (), s3) ∧ rows_of s3 = rows_of renamed.
Proof.
  destruct (savepoint_round_trip renamed 2 1 (savepoint 2 renamed).2
    (history (savepoint 2 renamed).2 [RDelete 2 1 2; RUpdate 2 1 1 (person 21 [101%Z])]))
    as (s3 & Hr & _ & Hrows & _).
  - exact renamed_reachable.
  - apply (bool_decide_unpack _). vm_compute. exact I.
  - vm_compute. reflexivity.
  - cbn [history]. rewrite decide_True by (apply (bool_decide_unpack _); vm_compute; exact I).
    apply (writes_cons 2 _ (RDelete 2 1 2)); [reflexivity|apply (bool_decide_unpack _); vm_compute; exact I|].
    rewrite decide_True by (apply (bool_decide_unpack _); vm_compute; exact I).
    apply (writes_cons 2 _ (RUpdate 2 1 1 (person 21 [101%Z])));
      [reflexivity|apply (bool_decide_unpack _); vm_compute; exact I|]. apply writes_nil.
  - exists s3. split; [exact Hr|exact Hrows].
Defined.

(** ** Snapshots *)

(** C6. Isolation: nothing a transaction does, neither its writes nor its savepoints nor
    its commit or rollback, changes what [get] and [scan] answer through a snapshot that
    lists it as active or was taken before it started. *)
Theorem unseen_writes_stay_unseen s r t snap :
  storage_reachable s → allowed s r → request_txn r = Some t → unseen snap t →
  ∀ tid, scan snap tid (perform r s).2 = scan snap tid s ∧
    ∀ id, get snap tid id (perform r s).2 = get snap tid id s.
Proof.
  intros Hs%reachable_well_formed Hal Ht Hu.
  exact (request_view snap t r s (wf_storage _ Hs) Hal Ht Hu).
Qed.

Lemma unseen_writes_stay_unseen_witness :
  scan reader 1 (perform (RCommit 2) renamed).2 = scan reader 1 renamed ∧
  status (perform (RCommit 2) renamed).2 2 = Committed.
Proof.
  split; [|vm_compute; reflexivity].
  refine (proj1 (unseen_writes_stay_unseen renamed (RCommit 2) 2 reader renamed_reachable I eq_refl _ 1%N)).
  apply (bool_decide_unpack _). vm_compute. exact I.
Defined.

(** C22. [vacuum] succeeds, removes every version whose end a transaction older than the
    horizon has committed and no other, and changes the answer of no snapshot that may
    still be used with that horizon. *)
Theorem vacuum_keeps_views s horizon :
  storage_reachable s →
  ∃ s', vacuum horizon s = (Ok (), s') ∧
    (∀ tid tb, tables s !! tid = Some tb → ∃ tb', tables s' !! tid = Some tb' ∧
       ∀ row, rows tb' !! row = prune (superseded_below horizon (status s)) (rows tb !! row)) ∧
    ∀ snap, usable horizon snap → ∀ tid, scan snap tid s' = scan snap tid s ∧
      ∀ id, get snap tid id s' = get snap tid id s.
Proof.
  intros Hs%reachable_well_formed. destruct (vacuum_ok horizon s (wf_storage _ Hs)) as (s' & Hv & Hva).
  exists s'. split; [done|]. split.
  - intros tid tb Htid. destruct (va_tables _ _ _ Hva _ _ Htid) as (tb' & Ht & _ & Hr). eauto.
  - intros snap Hus. exact (vacuumed_view horizon snap s s' (wf_storage _ Hs) Hus Hva).
Qed.

(** 2 has committed its update; a reader that started after it remains. *)
Definition settled : Inner := history renamed [RCommit 2].

Lemma vacuum_keeps_views_witness :
  ∃ s', vacuum 3 settled = (Ok (), s') ∧
    scan (mkSnapshot 3 3 [] 9) 1 s' = scan (mkSnapshot 3 3 [] 9) 1 settled ∧
    (length <$> (tables s' !! 1%N ≫= λ tb, rows tb !! 1%N)) = Some 1 ∧
    (length <$> (tables settled !! 1%N ≫= λ tb, rows tb !! 1%N)) = Some 2.
Proof.
  destruct (vacuum_keeps_views settled 3 (history_reachable renamed [RCommit 2] renamed_reachable))
    as (s' & Hv & _ & Hsame).
  exists s'. split; [exact Hv|]. split; [|split].
  - apply (Hsame (mkSnapshot 3 3 [] 9)). constructor; simpl; [lia|lia|constructor].
  - assert (Hs : s' = (vacuum 3 settled).2) by (rewrite Hv; reflexivity).
    rewrite Hs. vm_compute. reflexivity.
  - vm_compute. reflexivity.
Defined.

(** A transaction reads its own writes: through a snapshot of its own, a row it has
    just inserted is read with the values inserted; and where the snapshot read the current
    version of a row, after an update it reads the new values and after a delete it reads
    no row. *)
Theorem own_writes_are_read s t snap tid tb :
  storage_reachable s → enrolled s t → own snap = t → tables s !! tid = Some tb →
  (∀ row id s', row_fits (shape tb) row → insert t tid row s = (Ok id, s') →
     get snap tid id s' = Ok (Some row)) ∧
  (∀ id row vs v s', row_fits (shape tb) row → rows tb !! id = Some (vs ++ [v]) →
     visible snap (status s) (vs ++ [v]) = Some v → update t tid id row s = (Ok (), s') →
     get snap tid id s' = Ok (Some row)) ∧
  (∀ id vs v s', rows tb !! id = Some (vs ++ [v]) → visible snap (status s) (vs ++ [v]) = Some v →
     delete_row t tid id s = (Ok (), s') → get snap tid id s' = Ok None).
Proof.
  intros Hs%reachable_well_formed Hen Hown Htid.
  assert (Hget : ∀ id e vs' s', wrote t tid id e vs' s s' →
    get snap tid id s' = Ok (v_data <$> visible snap (status s') vs') ∧
    ∀ t', t' ≠ t → status s' t' = status s t').
  { intros id e vs' s' [_ (tb0 & tb' & Ht0 & Ht & Hr & _) (st & _ & _ & Hx)]. split.
    - unfold get, MemoryStorage.table. rewrite Ht, lookup_insert_eq. simpl. by rewrite Hr, lookup_insert_eq.
    - intros t' Hne. unfold status, status_in. by rewrite Hx, lookup_insert_ne. }
  assert (Hnew : ∀ st d n, visible snap st [mkVersion t None d n] = Some (mkVersion t None d n)).
  { intros st d n. unfold visible. cbn [list_find]. rewrite decide_True; [done|].
    apply is_visible_spec. simpl. by rewrite <- Hown, is_settled_own. }
  assert (Hch : ∀ id vs, rows tb !! id = Some vs → chain_ok tb vs).
  { intros id vs Hr. by apply (tw_chains _ (proj1 (bo_tables _ Hs _ _ Htid)) id). }
  split; [|split].
  - intros row id s' Hfit Hrun. assert (Hf : ∀ tb', tables s !! tid = Some tb' → row_fits (shape tb') row)
      by (intros tb' Ht'; by simplify_eq).
    destruct (insert_ok _ _ _ _ _ _ (wf_storage _ Hs) Hen Hf Hrun) as (tb' & _ & _ & _ & Hw).
    destruct (Hget _ _ _ _ Hw) as [-> _]. by rewrite Hnew.
  - intros id row vs v s' Hfit Hr Hvis Hrun.
    assert (Hf : ∀ tb', tables s !! tid = Some tb' → row_fits (shape tb') row)
      by (intros tb' Ht'; by simplify_eq).
    destruct (update_ok _ _ _ _ _ _ _ (wf_storage _ Hs) Hen Hf Hrun) as (tb' & us & u & Ht' & Hr' & _ & _ & Hw).
    rewrite Htid in Ht'. injection Ht' as <-. rewrite Hr in Hr'. injection Hr' as [<- <-]%app_inj_tail.
    destruct (Hget _ _ _ _ Hw) as [-> Hst].
    rewrite (own_row_view snap t (status s) (status s') tb vs v); [|by eauto..]. by rewrite Hnew.
  - intros id vs v s' Hr Hvis Hrun.
    destruct (delete_ok _ _ _ _ _ _ (wf_storage _ Hs) Hen Hrun) as (tb' & us & u & Ht' & Hr' & _ & _ & Hw).
    rewrite Htid in Ht'. injection Ht' as <-. rewrite Hr in Hr'. injection Hr' as [<- <-]%app_inj_tail.
    destruct (Hget _ _ _ _ Hw) as [-> Hst].
    by rewrite (own_row_view snap t (status s) (status s') tb vs v) by eauto.
Qed.

Lemma own_writes_are_read_witness :
  ∃ s', update 2 1 2 (person 11 [97%Z]) renamed = (Ok (), s') ∧
    get (mkSnapshot 2 3 [] 2) 1 2 s' = Ok (Some (person 11 [97%Z])).
Proof.
  destruct (tables renamed !! 1%N) as [tb|] eqn:Htb; [|vm_compute in Htb; discriminate].
  destruct (update 2 1 2 (person 11 [97%Z]) renamed) as [r s'] eqn:Hrun.
  assert (Hr : r = Ok ()).
  { change r with (r, s').1. rewrite <- Hrun. vm_compute. reflexivity. }
  subst r. exists s'. split; [reflexivity|].
  assert (Hen : enrolled renamed 2) by (apply (bool_decide_unpack _); vm_compute; exact I).
  destruct (own_writes_are_read renamed 2 (mkSnapshot 2 3 [] 2) 1 tb renamed_reachable Hen eq_refl Htb)
    as (_ & Hupd & _).
  apply (Hupd 2%N (person 11 [97%Z]) [] (mkVersion 1 None (person 10 [97%Z]) 2)); [| | |exact Hrun].
  - assert (Hsh : shape tb = people) by (vm_compute in Htb; injection Htb as <-; reflexivity).
    rewrite Hsh. apply person_fits. by vm_compute.
  - vm_compute in Htb. injection Htb as <-. vm_compute. reflexivity.
  - vm_compute. reflexivity.
Defined.

(** ** Searching *)

(** C11. [seek] answers exactly the versions the snapshot sees whose key is in the range, in
    the order of the index, rows of equal keys by their identifiers, or in the reverse of that
    order when the search goes backward, whatever the bounds and the prefixes they are given
    by. *)
Theorem seek_is_exact s snap i ix rg dir :
  storage_reachable s → indexes s !! i = Some ix → range_fits (key_columns (ix_order ix)) rg →
  ∃ tb l, tables s !! ix_table ix = Some tb ∧ seek snap i rg dir s = Ok l ∧
    l ≡ₚ (λ rv : RowId * Version, (rv.1, v_data rv.2)) <$>
         filter (λ rv : RowId * Version, visible_version snap s rv.2 = true ∧
                   in_range (key_columns (ix_order ix)) rg (key_of (ix_order ix) (v_data rv.2)))
           (versions_of (rows tb)) ∧
    StronglySorted (in_direction (ix_order ix) dir) l.
Proof.
  intros Hs%reachable_well_formed Hix Hr.
  destruct (bo_indexes _ Hs _ _ Hix) as (_ & tb & Htb & _).
  destruct (seek_ok snap i rg dir s ix tb (wf_storage _ Hs) Hix Htb Hr) as (l & Hl). by exists tb, l.
Qed.

Definition names_from_b : KeyRange := Between (Included [VString (mkSqlString [98%Z])]) Unbounded.

Lemma seek_is_exact_witness :
  ∃ ix l, indexes renamed !! 1%N = Some ix ∧ seek reader 1 names_from_b Forward renamed = Ok l ∧
    l = [(1%N, person 20 [98%Z])] ∧ StronglySorted (in_direction (ix_order ix) Forward) l.
Proof.
  destruct (indexes renamed !! 1%N) as [ix|] eqn:Hix; [|vm_compute in Hix; discriminate].
  destruct (seek_is_exact renamed reader 1 ix names_from_b Forward renamed_reachable Hix)
    as (tb & l & _ & Hl & _ & Hs).
  - vm_compute in Hix. injection Hix as <-. simpl. split; [|exact I]. split; [simpl; lia|].
    intros [|n] c v; [|done]. intros [= <-] [= <-]. right. split; [reflexivity|by vm_compute].
  - exists ix, l. split; [reflexivity|]. split; [exact Hl|]. split; [|exact Hs].
    assert (Ho : Ok l = Ok (E := SqlError) [(1%N, person 20 [98%Z])]) by (rewrite <- Hl; vm_compute; reflexivity).
    by injection Ho.
Defined.

(** [scan] answers each visible row once, sorted by the clustered key and then by row
    identifier, or by row identifier in a table without a clustered key. *)
Theorem scan_is_sorted s snap tid tb :
  storage_reachable s → tables s !! tid = Some tb →
  ∃ l, scan snap tid s = Ok l ∧ NoDup l.*1 ∧
    (∀ id d, (id, d) ∈ l ↔ get snap tid id s = Ok (Some d)) ∧
    match clustered tb with
    | Some o => StronglySorted (λ a b, row_order o a b ≠ Gt) l
    | None => StronglySorted (λ a b, (a.1 < b.1)%N) l
    end.
Proof.
  intros Hs%reachable_well_formed Ht.
  destruct (scan_ok snap tid s tb (wf_storage _ Hs) Ht) as (l & Hl & Hp & Hsort). exists l.
  split; [done|]. split; [|split; [|done]].
  - rewrite Hp. apply increasing_NoDup, visible_rows_sorted.
  - intros id d. rewrite Hp, elem_of_visible_rows. unfold get, MemoryStorage.table. rewrite Ht. simpl. split.
    + intros (vs & v & Hr & Hv & ->). rewrite Hr. simpl. by rewrite Hv.
    + destruct (rows tb !! id) as [vs|]; [|done]. simpl. destruct (visible snap (status s) vs) as [v|] eqn:Hv; [|done].
      intros [= <-]. eauto.
Qed.

Lemma scan_is_sorted_witness :
  ∃ l, scan reader 1 renamed = Ok l ∧ NoDup l.*1 ∧ l = [(2%N, person 10 [97%Z]); (1%N, person 20 [98%Z])].
Proof.
  destruct (tables renamed !! 1%N) as [tb|] eqn:Htb; [|vm_compute in Htb; discriminate].
  destruct (scan_is_sorted renamed reader 1 tb renamed_reachable Htb) as (l & Hl & Hnd & _).
  exists l. split; [exact Hl|]. split; [exact Hnd|].
  assert (Ho : Ok l = Ok (E := SqlError) [(2%N, person 10 [97%Z]); (1%N, person 20 [98%Z])])
    by (rewrite <- Hl; vm_compute; reflexivity).
  by injection Ho.
Defined.

(** ** Uniqueness *)

(** C12. An insertion into a table is refused exactly when a unique index holds a live
    version with an equal key, an uncommitted one of another transaction included; the
    refusal is error 2601 on such an index and changes nothing. *)
Theorem insert_refuses_duplicates s t tid tb row :
  storage_reachable s → enrolled s t → status s t = InProgress ∨ txns s !! t = None →
  tables s !! tid = Some tb → row_fits (shape tb) row →
  ((∃ id s', insert t tid row s = (Ok id, s')) ↔
     ∀ i, i ∈ t_indexes tb → ¬ conflict s tb t row None i) ∧
  (∀ e s', insert t tid row s = (Err e, s') →
     s' = s ∧ ∃ i key, i ∈ t_indexes tb ∧ conflict s tb t row None i ∧ e = duplicate_key_index tid i key).
Proof.
  intros Hs%reachable_well_formed Hen Hst Htid Hfit.
  assert (Hopen : ∀ st, txns s !! t = Some st → is_finished st = false).
  { intros st Ht. apply not_finished_spec. destruct Hst as [Hst|Hn]; [|congruence].
    revert Hst. unfold status, status_in. by rewrite Ht. }
  pose proof (plan_entries_exact s tid tb t row (peek_row_id tb) None (wf_storage _ Hs) Htid Hfit) as Hplan.
  assert (Hins : insert t tid row s =
    match plan_entries t tid row (peek_row_id tb) (next_seq tb) None s with
    | Err e => (Err e, s)
    | Ok planned =>
        write_insert t tid row (peek_row_id tb) planned (default TxnState_in_progress (txns s !! t))
          (put_txn t (default TxnState_in_progress (txns s !! t)) s)
    end).
  { unfold insert, mbind, stateful_bind, reads, check_arity, MemoryStorage.table. rewrite Htid. simpl.
    rewrite bool_decide_true by (unfold arity; symmetry; by eapply Forall2_length).
    assert (Hcw : check_writable t s = Ok ()).
    { unfold check_writable. destruct (txns s !! t) as [st|] eqn:Ht; [|done]. by rewrite Hopen. }
    rewrite Hcw. unfold peek_seq. destruct (plan_entries _ _ _ _ _ _ _) as [planned|]; [|done].
    unfold writing_txn. destruct (txns s !! t) as [st|] eqn:Ht; simpl; [by rewrite Hopen|done]. }
  rewrite Hins. destruct (plan_entries _ _ _ _ _ _ _) as [planned|e].
  - assert (Hw : ∃ s', write_insert t tid row (peek_row_id tb) planned (default TxnState_in_progress (txns s !! t))
      (put_txn t (default TxnState_in_progress (txns s !! t)) s) = (Ok (peek_row_id tb), s')).
    { unfold write_insert. simpl. rewrite Htid. unfold peek_row_id. simpl.
      rewrite bool_decide_true by done. by eexists. }
    destruct Hw as [s' ->]. split; [|by intros ? ? [=]]. split; [done|]. by eexists _, _.
  - destruct Hplan as (i & ix & Hi & Hc & Hix & ->). split; [|intros e s' [= <- <-]; eauto 10].
    split; [by intros (id & s' & [=])|]. intros Hall. by destruct (Hall i Hi).
Qed.

Lemma insert_refuses_duplicates_witness :
  ∃ tb i key, tables renamed !! 1%N = Some tb ∧ i ∈ t_indexes tb ∧
    conflict renamed tb 3 (person 1 [99%Z]) None i ∧
    insert 3 1 (person 1 [99%Z]) renamed = (Err (duplicate_key_index 1 i key), renamed).
Proof.
  destruct (tables renamed !! 1%N) as [tb|] eqn:Htb; [|vm_compute in Htb; discriminate].
  destruct (insert 3 1 (person 1 [99%Z]) renamed) as [r s'] eqn:Hrun.
  assert (Hr : r = Err (duplicate_key_index 1 1 [VString (mkSqlString [99%Z])])).
  { change r with (r, s').1. rewrite <- Hrun. vm_compute. reflexivity. }
  destruct (insert_refuses_duplicates renamed 3 1 tb (person 1 [99%Z])) as [_ Href].
  - exact renamed_reachable.
  - apply (bool_decide_unpack _). vm_compute. exact I.
  - right. vm_compute. reflexivity.
  - exact Htb.
  - assert (Hsh : shape tb = people) by (vm_compute in Htb; injection Htb as <-; reflexivity).
    rewrite Hsh. apply person_fits. by vm_compute.
  - rewrite Hr in Hrun. destruct (Href _ _ Hrun) as (Hs & i & key & Hi & Hc & He).
    exists tb, i, key. split; [reflexivity|]. split; [exact Hi|]. split; [exact Hc|].
    rewrite Hr, He, Hs. reflexivity.
Defined.

(** A unique index is created exactly when no two rows of the table have live versions
    with equal keys: one that is created covers a table without such rows, and error 2601
    is answered only when there are, and changes nothing. *)
Theorem unique_index_is_checked s tid tb def r s' :
  storage_reachable s → tables s !! tid = Some tb → unique def = true →
  create_index tid def s = (r, s') →
  match r with
  | Ok i => ∃ ix, indexes s' !! i = Some ix ∧ index_ok tb ix ∧
      ∀ rv1 rv2, rv1 ∈ versions_of (rows tb) → rv2 ∈ versions_of (rows tb) →
        ¬ duplicates ix (status s) rv1 rv2
  | Err e => s' = s ∧
      (number e = 2601%N → ∃ ix rv1 rv2, index_ok tb ix ∧ ix_shape ix = def ∧
         rv1 ∈ versions_of (rows tb) ∧ rv2 ∈ versions_of (rows tb) ∧ duplicates ix (status s) rv1 rv2)
  end.
Proof.
  intros Hs%reachable_well_formed Htid Hun Hrun. pose proof (proj1 (bo_tables _ Hs _ _ Htid)) as Hwf.
  destruct (create_index_ok _ _ _ _ _ (wf_storage _ Hs) (wf_catalog _ Hs) Hrun) as (_ & _ & Hres).
  destruct r as [i|e].
  - destruct Hres as (_ & _ & tb' & ix & Ht' & _ & Hix & _ & _ & Hiok & Hdup).
    rewrite Htid in Ht'. injection Ht' as <-.
    exists ix. rewrite Hix, lookup_insert_eq. split; [done|]. split; [done|].
    destruct (first_duplicate_key_ok tb ix Hwf Hiok (status s)) as (o & Ho & Hm).
    rewrite Hdup in Ho by done. by injection Ho as <-.
  - split; [done|]. intros Hnum. revert Hrun. unfold create_index.
    destruct (build_index tid def s) as [[[[]]]|e'] eqn:Hb; [done|]. intros [= -> _].
    revert Hb. unfold build_index, MemoryStorage.table. rewrite Htid. simpl.
    destruct (KeyOrder_new _ _ _) as [o|e2] eqn:Ho; simpl.
    2:{ intros [= ->]. unfold KeyOrder_new in Ho. exfalso. revert Ho Hnum.
        destruct (ix_columns def) as [|c cs]; [by intros [= <-]|].
        destruct (try_map _ _) as [out|e3] eqn:Hm; [intros [=]|]. simpl. intros [= <-].
        destruct (try_map_Err _ _ _ Hm) as (x & _ & Hx). revert Hx. unfold column_new.
        destruct (columns (shape tb) !! N.to_nat (kc_column x)); [done|]. by intros [= <-]. }
    apply KeyOrder_new_fits in Ho.
    destruct (list_find _ _) as [[]|]; [intros [= <-]; done|].
    destruct (checked_succ _ _); [|intros [= <-]; done].
    destruct (index_rows_ok s tb tid def o Hwf) as (ix & -> & Hiok & _ & Hshape & _); [|done|].
    { intros row vs v Hr Hv Ha. by apply (so_aborted _ Hs _ Ha tid tb row Htid vs v Hr Hv); left. }
    simpl. rewrite Hun. destruct (first_duplicate_key_ok tb ix Hwf Hiok (status s)) as (od & -> & Hm).
    simpl. destruct od as [k|]; [|done]. intros _. destruct Hm as (rv1 & rv2 & H1 & H2 & Hd & _).
    by exists ix, rv1, rv2.
Qed.

Lemma unique_index_is_checked_witness :
  ∃ tb i s', tables renamed !! 1%N = Some tb ∧
    create_index 1 (mkIndexShape [mkKeyColumn 0 true] true []) renamed = (Ok i, s') ∧
    ∃ ix, indexes s' !! i = Some ix ∧ index_ok tb ix.
Proof.
  destruct (tables renamed !! 1%N) as [tb|] eqn:Htb; [|vm_compute in Htb; discriminate].
  destruct (create_index 1 (mkIndexShape [mkKeyColumn 0 true] true []) renamed) as [r s'] eqn:Hrun.
  assert (Hr : r = Ok 2%N).
  { change r with (r, s').1. rewrite <- Hrun. vm_compute. reflexivity. }
  subst r. exists tb, 2%N, s'. split; [reflexivity|]. split; [reflexivity|].
  destruct (unique_index_is_checked renamed 1 tb (mkIndexShape [mkKeyColumn 0 true] true []) (Ok 2%N) s'
    renamed_reachable Htb eq_refl Hrun)
    as (ix & Hix & Hiok & _).
  exists ix. split; [exact Hix|exact Hiok].
Defined.

(** ** Comparing *)

(** C32. Two values of one family, [NaN], out-of-range scales and texts of more than [u32]
    characters apart, always compare under every collation, and the answer is a total order of the family: reflexive, antisymmetric
    under exchange, transitive. *)
Theorem compare_orders_each_family col f :
  (∀ a b, in_family f a → in_family f b → compare a b col = Ok (Some (value_order col a b))) ∧
  TotalOn (in_family f) (value_order col).
Proof. split; [apply compare_family|apply value_order_total]. Qed.

(** Decimals of any two scales compare as the numbers they stand for, although the
    mantissas are never brought to a common scale in more than 128 bits. *)
Theorem decimals_compare_as_numbers x y :
  decimal_ok x → decimal_ok y → compare_decimals x y = Ok (decimal_value x ?= decimal_value y)%Z.
Proof. apply compare_decimals_value. Qed.

Lemma decimals_compare_as_numbers_witness :
  compare_decimals (mkDecimal (10 ^ 38 - 1) 38 0) (mkDecimal (10 ^ 38 - 1) 38 38) = Ok Gt ∧
  (decimal_value (mkDecimal (10 ^ 38 - 1) 38 0) ?= decimal_value (mkDecimal (10 ^ 38 - 1) 38 38))%Z = Gt.
Proof.
  assert (Hc : (decimal_value (mkDecimal (10 ^ 38 - 1) 38 0) ?=
    decimal_value (mkDecimal (10 ^ 38 - 1) 38 38))%Z = Gt) by (vm_compute; reflexivity).
  split; [|exact Hc]. rewrite <- Hc.
  apply (decimals_compare_as_numbers (mkDecimal (10 ^ 38 - 1) 38 0) (mkDecimal (10 ^ 38 - 1) 38 38));
    unfold decimal_ok; simpl; lia.
Defined.

(** The binary search of the indexes answers the boundary of any predicate that is true
    up to a point and false from there on, within [length items] turns of its loop. *)
Theorem partition_point_finds_the_boundary {A} (pred : A → SqlResult bool) (p : A → bool) items :
  (∀ x, x ∈ items → pred x = Ok (p x)) →
  StronglySorted (λ a b, p b = true → p a = true) items →
  ∃ l1 l2, items = l1 ++ l2 ∧ partition_point items pred = Ok (length l1) ∧
    Forall (λ x, p x = true) l1 ∧ Forall (λ x, p x = false) l2.
Proof. apply partition_point_split. Qed.

Lemma partition_point_finds_the_boundary_witness :
  ∃ l1 l2, [1; 3; 5; 7; 9]%N = l1 ++ l2 ∧
    partition_point [1; 3; 5; 7; 9]%N (λ x, Ok (x <? 6)%N) = Ok (length l1) ∧ length l1 = 3.
Proof.
  destruct (partition_point_finds_the_boundary (λ x, Ok (x <? 6)%N) (λ x, x <? 6)%N [1; 3; 5; 7; 9]%N)
    as (l1 & l2 & Hl & Hp & _).
  - intros x _. reflexivity.
  - repeat (constructor; try done).
  - exists l1, l2. split; [exact Hl|]. split; [exact Hp|].
    assert (Ho : Ok (length l1) = Ok (E := SqlError) 3) by (rewrite <- Hp; vm_compute; reflexivity).
    by injection Ho.
Defined.
