(* ===== verification/Actions.v ===== *)
(** * Deferred and compensating actions

    [vauban-txn/src/actions.rs]: the drops a transaction defers to its commit, the drops that
    undo at rollback what it created, and the log that keeps both with the savepoints as
    marks.  The actions run against the [Storage] interface. *)

From S2P Require Import Prelude Values Errors Snapshot StorageSystem.

(** The two enumerations share the names of their constructors, as in the source. *)
Module CommitAction.

Inductive t :=
  | DropTable (table : TableId)
  | DropIndex (index : IndexId)
  | DropDatabase (db : DbId).

#[global] Instance t_eq_dec : EqDecision t.
Proof. solve_decision. Defined.

Definition run `{Storage St} (a : t) : stateful St SqlError () :=
  match a with
  | DropTable table => st_drop_table table
  | DropIndex index => st_drop_index index
  | DropDatabase db => st_drop_database db
  end.

End CommitAction.
Notation CommitAction := CommitAction.t.

Module RollbackAction.

Inductive t :=
  | DropTable (table : TableId)
  | DropIndex (index : IndexId)
  | DropDatabase (db : DbId).

#[global] Instance t_eq_dec : EqDecision t.
Proof. solve_decision. Defined.

Definition run `{Storage St} (a : t) : stateful St SqlError () :=
  match a with
  | DropTable table => st_drop_table table
  | DropIndex index => st_drop_index index
  | DropDatabase db => st_drop_database db
  end.

End RollbackAction.
Notation RollbackAction := RollbackAction.t.

(** ** The log *)

Module ActionLog.

Inductive Entry :=
  | OnCommit (a : CommitAction)
  | OnRollback (a : RollbackAction)
  | Mark (sp : SavepointId).

#[global] Instance Entry_eq_dec : EqDecision Entry.
Proof. solve_decision. Defined.

Record t := mk { entries : list Entry }.

Definition default : t := mk [].

Definition push_on_commit (log : t) (a : CommitAction) : t := mk (entries log ++ [OnCommit a]).
Definition push_on_rollback (log : t) (a : RollbackAction) : t := mk (entries log ++ [OnRollback a]).
Definition mark (log : t) (sp : SavepointId) : t := mk (entries log ++ [Mark sp]).

Definition position_of (log : t) (sp : SavepointId) : option nat :=
  fst <$> list_find (λ e, e = Mark sp) (entries log).

Section run.
Context `{Storage St}.

Definition run_on_commit (log : t) : stateful St SqlError () :=
  for_each (λ e, match e with OnCommit a => CommitAction.run a | _ => mret () end) (entries log).

Definition compensate (es : list Entry) : stateful St SqlError () :=
  for_each (λ e, match e with OnRollback a => RollbackAction.run a | _ => mret () end) (reverse es).

Definition run_on_rollback (log : t) : stateful St SqlError () := compensate (entries log).

(** The log is returned too: it is cut only when every compensation has run. *)
Definition unwind_after (log : t) (at_ : nat) (s : St) : SqlResult () * t * St :=
  match compensate (drop (at_ + 1) (entries log)) s with
  | (Ok _, s') => (Ok (), mk (take (at_ + 1) (entries log)), s')
  | (Err e, s') => (Err e, log, s')
  end.
End run.

(** ** What runs, and in which order *)

(** The deferred drops of a log, in registration order. *)
Definition commit_actions (log : t) : list CommitAction :=
  omap (λ e, if e is OnCommit a then Some a else None) (entries log).

(** The compensations of some entries, last registered first. *)
Definition compensations (es : list Entry) : list RollbackAction :=
  reverse (omap (λ e, if e is OnRollback a then Some a else None) es).

Section order.
Context `{Storage St}.

Lemma for_each_omap {A B} (f : A → stateful St SqlError ()) (g : A → option B)
    (h : B → stateful St SqlError ()) l s :
  (∀ x s, x ∈ l → f x s = match g x with Some b => h b s | None => (Ok (), s) end) →
  for_each f l s = for_each h (omap g l) s.
Proof.
  revert s. induction l as [|x l IH]; intros s Hf; [done|]. csimpl.
  unfold mbind, stateful_bind. rewrite (Hf x s) by by left.
  assert (Hl : ∀ s, for_each f l s = for_each h (omap g l) s).
  { intros s'. apply IH. intros y s'' Hy. apply Hf. by right. }
  destruct (g x) as [b|]; simpl; [|apply Hl].
  unfold mbind, stateful_bind. destruct (h b s) as [[]]; [apply Hl|done].
Qed.

Lemma run_on_commit_spec log s :
  run_on_commit log s = for_each CommitAction.run (commit_actions log) s.
Proof. apply for_each_omap. by intros [] s' _. Qed.

Lemma compensate_spec es s : compensate es s = for_each RollbackAction.run (compensations es) s.
Proof.
  unfold compensate, compensations.
  rewrite (for_each_omap _ (λ e, if e is OnRollback a then Some a else None) RollbackAction.run)
    by (by intros [] s' _).
  f_equal. generalize (λ e, if e is OnRollback a then Some a else None). intros g.
  induction es as [|e es IH]; [done|]. rewrite reverse_cons, omap_app, IH. csimpl.
  destruct (g e); [by rewrite reverse_cons|by rewrite app_nil_r].
Qed.
End order.

Lemma position_of_spec log sp i :
  position_of log sp = Some i ↔
  entries log !! i = Some (Mark sp) ∧ ∀ j, j < i → entries log !! j ≠ Some (Mark sp).
Proof.
  unfold position_of. split.
  - intros ([i' e] & Hf & ->)%fmap_Some. apply list_find_Some in Hf as (Hi & -> & Hlt). simpl.
    split; [done|]. intros j Hj He. by apply (Hlt j (Mark sp) He Hj).
  - intros [Hi Hlt]. rewrite (proj2 (list_find_Some _ _ i (Mark sp))); [done|].
    split_and!; [done..|]. intros j y Hj Hji ->. by apply (Hlt j).
Qed.

Lemma position_of_mark log sp :
  Mark sp ∉ entries log → position_of (mark log sp) sp = Some (length (entries log)).
Proof.
  intros Hn. apply position_of_spec. simpl. split.
  - by rewrite lookup_app_r, Nat.sub_diag by lia.
  - intros j Hj Hl. rewrite lookup_app_l in Hl by done. by apply Hn, (list_elem_of_lookup_2 _ j).
Qed.

End ActionLog.
Notation ActionLog := ActionLog.t.
