(* ===== verification/TxnManager.v ===== *)
(** * The transaction manager

    [vauban-txn/src/manager.rs], [snapshot_modes.rs], [handle.rs], [ids.rs] and the
    transaction half of [info.rs]: the identifiers and the list of open transactions, the
    snapshots, the database options, and the end of a transaction, over the [Storage]
    interface and the lock manager.

    Each method runs under the mutex of the manager, so it is one function of the state.
    [commit] gives the mutex up in its middle: it is cut there in [commit_enter],
    [commit_store] (which touches the storage alone) and [commit_leave]. *)

From S2P Require Import Prelude Values Errors Snapshot LockMode LockTable Deadlock LockManager.
From S2P Require Import StorageSystem Actions.

(** ** [ids.rs] and [handle.rs] *)

(** [Snapshot] names a level here and a record in [snapshot.rs]; the module keeps them
    apart. *)
Module IsolationLevel.
Inductive t := ReadUncommitted | ReadCommitted | RepeatableRead | Serializable | Snapshot.

#[global] Instance t_eq_dec : EqDecision t.
Proof. solve_decision. Defined.
End IsolationLevel.
Notation IsolationLevel := IsolationLevel.t.

Inductive WriteDecision :=
  | Proceed
  | Reread (id : RowId)
  | Conflict.

Record TxnHandle := mkTxnHandle {
  id : TxnId;
  isolation : IsolationLevel;
}.

(** ** [snapshot_modes.rs] *)

Record VersioningOptions := mkVersioningOptions {
  read_committed_snapshot : bool;
  allow_snapshot_isolation : bool;
}.

Definition VersioningOptions_default : VersioningOptions := mkVersioningOptions false false.

Inductive VersioningMode := Locking | StatementSnapshot | TxnSnapshot.

#[export] Instance VersioningMode_eq_dec : EqDecision VersioningMode.
Proof. solve_decision. Defined.

Definition mode_for (o : VersioningOptions) (level : IsolationLevel) : VersioningMode :=
  match level with
  | IsolationLevel.Snapshot => if allow_snapshot_isolation o then TxnSnapshot else Locking
  | IsolationLevel.ReadCommitted =>
      if read_committed_snapshot o then StatementSnapshot else Locking
  | IsolationLevel.ReadUncommitted | IsolationLevel.RepeatableRead
  | IsolationLevel.Serializable => Locking
  end.

Definition snapshot_not_allowed (db : DbId) : SqlError :=
  from_internal (Bug [Lit "TransactionManager::begin_in: SNAPSHOT needs ALLOW_SNAPSHOT_ISOLATION on database ";
                      Num db]).

(** ** [manager.rs]: the state behind the mutex *)

Definition DEFAULT_DB : DbId := 1%N.

Definition not_open (method : string) (id : TxnId) : SqlError :=
  from_internal (Bug [Lit "TransactionManager::"; Lit method; Lit ": transaction "; Num id; Lit " is not open"]).

Definition unknown_savepoint (sp : SavepointId) (id : TxnId) : SqlError :=
  from_internal (Bug [Lit "TransactionManager::rollback_to: savepoint "; Num sp;
                      Lit " is not held by transaction "; Num id]).

Record Open := mkOpen {
  handle : TxnHandle;
  began_at : N;
  log : ActionLog;
  db : DbId;
  pinned : option Snapshot;
  last : option Snapshot;
  ending : bool;
}.

Definition with_log (o : Open) (l : ActionLog) : Open :=
  mkOpen (handle o) (began_at o) l (db o) (pinned o) (last o) (ending o).
Definition with_ending (o : Open) (b : bool) : Open :=
  mkOpen (handle o) (began_at o) (log o) (db o) (pinned o) (last o) b.
Definition with_pinned (o : Open) (s : Snapshot) : Open :=
  mkOpen (handle o) (began_at o) (log o) (db o) (Some s) (last o) (ending o).
Definition with_last (o : Open) (s : Snapshot) : Open :=
  mkOpen (handle o) (began_at o) (log o) (db o) (pinned o) (Some s) (ending o).

Record State := mkState {
  next_id : N;
  open : list Open;
}.

Notation open_id o := (id (handle o)).

Definition position (st : State) (t : TxnId) : option nat :=
  fst <$> list_find (λ o, open_id o = t) (open st).

(** The entry [st.open[pos]] comes with its position: [position] answers an index of the
    list. *)
Definition entry_of (st : State) (t : TxnId) : option (nat * Open) :=
  pos ← position st t; (pos,.) <$> open st !! pos.

Definition live_entry (st : State) (t : TxnId) : option (nat * Open) :=
  '(pos, o) ← entry_of st t; if ending o then None else Some (pos, o).

Definition live_position (st : State) (t : TxnId) : option nat := fst <$> live_entry st t.

Definition log_of (st : State) (t : TxnId) : option ActionLog := log ∘ snd <$> live_entry st t.

(** [iter().min()]. *)
Definition minimum (l : list N) : option N :=
  match l with [] => None | x :: l => Some (foldl N.min x l) end.

Definition oldest_open (st : State) : option TxnId := minimum ((λ o, open_id o) <$> open st).

Definition snapshot_for (st : State) (own : TxnId) : Snapshot :=
  mkSnapshot (default (next_id st) (oldest_open st)) (next_id st)
    (filter (λ t, t ≠ own) ((λ o, open_id o) <$> open st)) own.

Definition state_status (st : State) (t : TxnId) : TxnStatus :=
  if position st t is Some _ then InProgress else Committed.

(** Assignments to a field of [st.open[pos]]. *)
Definition set_entry (pos : nat) (o : Open) (st : State) : State :=
  mkState (next_id st) (<[pos := o]> (open st)).
(** [st.open.remove(pos)]. *)
Definition remove_entry (pos : nat) (st : State) : State :=
  mkState (next_id st) (delete pos (open st)).

(** ** [TransactionManager] *)

Record TransactionManager (St : Type) := mkTransactionManager {
  storage : St;
  tm_state : State;
  locks : LockManager;
  versioning : gmap DbId VersioningOptions;
}.
Arguments mkTransactionManager {St} _ _ _ _.
Arguments storage {St} _.
Arguments tm_state {St} _.
Arguments locks {St} _.
Arguments versioning {St} _.

Section manager.
Context `{Storage St}.

Notation TM := (TransactionManager St).

Definition set_storage (m : TM) (s : St) : TM :=
  mkTransactionManager s (tm_state m) (locks m) (versioning m).
Definition set_state (m : TM) (st : State) : TM :=
  mkTransactionManager (storage m) st (locks m) (versioning m).
Definition set_locks (m : TM) (l : LockManager) : TM :=
  mkTransactionManager (storage m) (tm_state m) l (versioning m).

(** A call of a [Storage] method. *)
Definition on_storage {A} (f : stateful St SqlError A) : stateful TM SqlError A := λ m,
  let '(r, s) := f (storage m) in (r, set_storage m s).

Definition TransactionManager_new (s : St) : TM :=
  mkTransactionManager s (mkState (st_next_txn_id s) []) LockManager_new ∅.

Definition bump_next_id_above_storage (m : TM) : TM :=
  let floor := saturating_succ (st_committed_txn_high_water (storage m)) in
  if (next_id (tm_state m) <? floor)%N
  then set_state m (mkState floor (open (tm_state m))) else m.

(** *** Options *)

Definition set_versioning_options (m : TM) (db : DbId) (opts : VersioningOptions) : TM :=
  mkTransactionManager (storage m) (tm_state m) (locks m) (<[db := opts]> (versioning m)).

Definition versioning_options (m : TM) (db : DbId) : VersioningOptions :=
  default VersioningOptions_default (versioning m !! db).

Definition database_of (m : TM) (t : TxnId) : option DbId := db ∘ snd <$> entry_of (tm_state m) t.

Definition read_versioning (m : TM) (txn : TxnHandle) (level : IsolationLevel) : VersioningMode :=
  match database_of m (id txn) with
  | Some db => mode_for (versioning_options m db) level
  | None => Locking
  end.

Definition versioning_mode (m : TM) (txn : TxnHandle) : VersioningMode :=
  read_versioning m txn (isolation txn).

(** *** Opening *)

(** [now] is [SystemTime::now()]. *)
Definition open_in (now : N) (db : DbId) (isolation : IsolationLevel) (m : TM) : TxnHandle * TM :=
  let st := tm_state m in
  let handle := mkTxnHandle (next_id st) isolation in
  (handle, set_state m (mkState (saturating_succ (next_id st))
                          (open st ++ [mkOpen handle now ActionLog.default db None None false]))).

Definition begin (now : N) (isolation : IsolationLevel) (m : TM) : TxnHandle * TM :=
  open_in now DEFAULT_DB isolation m.

Definition begin_in (now : N) (db : DbId) (isolation : IsolationLevel) : stateful TM SqlError TxnHandle := λ m,
  if bool_decide (isolation = IsolationLevel.Snapshot) &&
     negb (allow_snapshot_isolation (versioning_options m db))
  then (Err (snapshot_not_allowed db), m)
  else let '(handle, m') := open_in now db isolation m in (Ok handle, m').

(** *** Ending *)

(** Under the mutex: the transaction is marked as ending and its log is taken out. *)
Definition commit_enter (txn : TxnHandle) : stateful TM SqlError ActionLog := λ m,
  match live_entry (tm_state m) (id txn) with
  | None => (Err (not_open "commit" (id txn)), m)
  | Some (pos, o) =>
      (Ok (log o), set_state m (set_entry pos (with_log (with_ending o true) ActionLog.default)
                                  (tm_state m)))
  end.

(** Without the mutex: the deferred drops, then the commit of the storage. *)
Definition commit_store (txn : TxnHandle) (l : ActionLog) : stateful St SqlError () :=
  _ ← ActionLog.run_on_commit l; st_commit (id txn).

(** Under the mutex again. *)
Definition commit_leave (txn : TxnHandle) (l : ActionLog) (outcome : SqlResult ()) :
    stateful TM SqlError () := λ m,
  match entry_of (tm_state m) (id txn) with
  | None => (Err (not_open "commit" (id txn)), m)
  | Some (pos, o) =>
      match outcome with
      | Err e => (Err e, set_state m (set_entry pos (with_log (with_ending o false) l) (tm_state m)))
      | Ok _ =>
          let m := set_locks m (manager_release_all (locks m) (id txn)) in
          (Ok (), set_state m (remove_entry pos (tm_state m)))
      end
  end.

(** The three steps with nothing in between. *)
Definition finish_commit (txn : TxnHandle) : stateful TM SqlError () := λ m,
  match commit_enter txn m with
  | (Err e, m1) => (Err e, m1)
  | (Ok l, m1) =>
      let '(outcome, s2) := commit_store txn l (storage m1) in
      commit_leave txn l outcome (set_storage m1 s2)
  end.

Definition commit (txn : TxnHandle) : stateful TM SqlError () := finish_commit txn.

Definition rollback (txn : TxnHandle) : stateful TM SqlError () := λ m,
  match live_entry (tm_state m) (id txn) with
  | None => (Err (not_open "rollback" (id txn)), m)
  | Some (pos, o) =>
      (_ ← on_storage (ActionLog.run_on_rollback (log o));
       _ ← on_storage (st_rollback (id txn));
       modifies (λ m, set_state (set_locks m (manager_release_all (locks m) (id txn)))
                        (remove_entry pos (tm_state m)))) m
  end.

(** *** Savepoints and actions *)

(** [if let Some(log) = state.log_mut(id)] and an assignment through it. *)
Definition update_log (t : TxnId) (f : ActionLog → ActionLog) (m : TM) : TM :=
  match live_entry (tm_state m) t with
  | Some (pos, o) => set_state m (set_entry pos (with_log o (f (log o))) (tm_state m))
  | None => m
  end.

Definition savepoint (txn : TxnHandle) : stateful TM SqlError SavepointId := λ m,
  match live_position (tm_state m) (id txn) with
  | None => (Err (not_open "savepoint" (id txn)), m)
  | Some _ =>
      (sp ← on_storage (st_savepoint (id txn));
       _ ← modifies (update_log (id txn) (λ l, ActionLog.mark l sp));
       mret sp) m
  end.

Definition rollback_to (txn : TxnHandle) (sp : SavepointId) : stateful TM SqlError () := λ m,
  match live_entry (tm_state m) (id txn) with
  | None => (Err (not_open "rollback_to" (id txn)), m)
  | Some (pos, o) =>
      match ActionLog.position_of (log o) sp with
      | None => (Err (unknown_savepoint sp (id txn)), m)
      | Some at_ =>
          let '(r, l, s) := ActionLog.unwind_after (log o) at_ (storage m) in
          let m := set_state (set_storage m s) (set_entry pos (with_log o l) (tm_state m)) in
          match r with
          | Err e => (Err e, m)
          | Ok _ => on_storage (st_rollback_to (id txn) sp) m
          end
      end
  end.

Definition register_on_commit (txn : TxnHandle) (a : CommitAction) : stateful TM SqlError () := λ m,
  match log_of (tm_state m) (id txn) with
  | Some _ => (Ok (), update_log (id txn) (λ l, ActionLog.push_on_commit l a) m)
  | None => (Err (not_open "register_on_commit" (id txn)), m)
  end.

Definition register_on_rollback (txn : TxnHandle) (a : RollbackAction) : stateful TM SqlError () := λ m,
  match log_of (tm_state m) (id txn) with
  | Some _ => (Ok (), update_log (id txn) (λ l, ActionLog.push_on_rollback l a) m)
  | None => (Err (not_open "register_on_rollback" (id txn)), m)
  end.

(** *** Reading *)

Definition statement_snapshot (txn : TxnHandle) (m : TM) : Snapshot * TM :=
  let st := tm_state m in
  match entry_of st (id txn) with
  | None => (snapshot_for st (id txn), m)
  | Some (pos, o) =>
      match pinned o with
      | Some p => (p, m)
      | None =>
          let snap := snapshot_for st (id txn) in
          if decide (mode_for (versioning_options m (db o)) (isolation txn) = TxnSnapshot)
          then (snap, set_state m (set_entry pos (with_pinned o snap) st))
          else (snap, set_state m (set_entry pos (with_last o snap) st))
      end
  end.

(** The snapshot a write is checked against: [pinned.or(last)]. *)
Definition checked_snapshot (o : Open) : option Snapshot :=
  match pinned o with Some p => Some p | None => last o end.

Definition check_write_conflict (txn : TxnHandle) (tid : TableId) (row : RowId) (m : TM) :
    SqlResult WriteDecision :=
  match entry_of (tm_state m) (id txn) with
  | None => Err (not_open "check_write_conflict" (id txn))
  | Some (_, o) =>
      match checked_snapshot o with
      | None => Ok Proceed
      | Some snap =>
          v ← st_latest_version tid row (storage m);
          match v with
          | None => Ok Proceed
          | Some (writer, _) =>
              if bool_decide (writer = id txn) || is_settled snap writer (state_status (tm_state m))
              then Ok Proceed
              else Ok (match mode_for (versioning_options m (db o)) (isolation txn) with
                       | TxnSnapshot => Conflict
                       | StatementSnapshot | Locking => Reread row
                       end)
          end
      end
  end.

Definition snapshot_horizon (m : TM) : TxnId :=
  default (next_id (tm_state m)) (oldest_open (tm_state m)).

(** *** Locks and listings *)

(** [now], [cancelled] and [wakeups] are what the wait meets, as in [LockManager.v]; the
    token of [lock_row] is its own, so nothing cancels it. *)
Definition lock_row (now : N) (wakeups : list Wakeup) (txn : TxnHandle) (tid : TableId) (row : RowId)
    (timeout : LockTimeout) (m : TM) : option (SqlResult ()) * TM :=
  let '(r, l) := lock (locks m) now false (id txn) (Row tid row) LockMode.X timeout
                   ((λ k, mkWakeup (wk_others k) (wk_now k) false) <$> wakeups) in
  (r, set_locks m l).

Definition active_locks (now : N) (m : TM) : list LockInfo := lines (LockManager.table (locks m)) now.
End manager.

(** ** [info.rs] *)

Inductive TxnState :=
  | Active
  | WaitingOn (on : LockResource).

Record TxnInfo := mkTxnInfo {
  ti_id : TxnId;
  ti_isolation : IsolationLevel;
  ti_state : TxnState;
  ti_began_at : N;
  ti_locks_held : N;
  ti_deadlock_priority : Z;
}.

#[export] Instance LockStatus_eq_dec : EqDecision LockStatus.
Proof. solve_decision. Defined.

Definition active_sessions `{Storage St} (now : N) (m : TransactionManager St) : list TxnInfo :=
  let ls := active_locks now m in
  (λ o, let t := open_id o in
        let mine := filter (λ l, li_txn l = t) ls in
        mkTxnInfo t (isolation (handle o))
          (match list_find (λ l, li_status l ≠ Grant) mine with
           | Some (_, l) => WaitingOn (li_resource l)
           | None => Active
           end)
          (began_at o)
          (N.min u32_max (N.of_nat (length (filter (λ l, li_status l = Grant) mine))))
          (priority (priorities (locks m)) t)) <$> open (tm_state m).
