(* ===== verification/Isolation.v ===== *)
(** * The lock policy

    [vauban-txn/src/isolation.rs], [table_lock.rs] and [schema_lock.rs]: which locks a read,
    a write, a table hint and a schema change take through the lock manager, and when they
    are given back.

    The methods may park the calling thread, so they answer [None] when it is still parked;
    what the waits meet (the clock, the cancellation and the steps of the other threads) is
    a list of [Turn]s, one for each call of the lock manager.  [SHARED_UNTIL_END_OF_ROW] is
    a thread-local of the calling thread and [STATEMENT_TABLE_LOCKS] a static: both are part
    of the state. *)

From S2P Require Import Prelude Errors Snapshot LockMode LockTable Deadlock LockManager LockManagerFacts LockTheorems StorageSystem Actions.
From S2P Require Import TxnManager.

(** ** [isolation.rs]: the policy *)

Record LockIntent := mkLockIntent {
  level : option IsolationLevel;
  holdlock : bool;
  updlock : bool;
  xlock : bool;
  readpast : bool;
  nowait : bool;
  tablock : bool;
  tablockx : bool;
  timeout : LockTimeout;
}.

Definition LockIntent_default : LockIntent :=
  mkLockIntent None false false false false false false false Infinite.

Inductive ReadAccess := Locked | Dirty | Skip | Versioned.

Definition read_mode (level : IsolationLevel) (hints : LockIntent) : option LockMode :=
  if xlock hints then Some LockMode.X
  else if updlock hints then Some LockMode.U
  else match level with
       | IsolationLevel.ReadUncommitted => None
       | _ => Some LockMode.S
       end.

Definition releases_at_end_of_row (level : IsolationLevel) : bool :=
  match level with
  | IsolationLevel.RepeatableRead | IsolationLevel.Serializable => false
  | IsolationLevel.ReadUncommitted | IsolationLevel.ReadCommitted => true
  | IsolationLevel.Snapshot => true
  end.

Definition intent_of (mode : LockMode) : LockMode :=
  match mode with LockMode.S => LockMode.IS | _ => LockMode.IX end.

Definition lock_wait_of (hints : LockIntent) : LockTimeout :=
  if nowait hints then NoWait else timeout hints.

Definition effective_level (txn : TxnHandle) (hints : LockIntent) : IsolationLevel :=
  match level hints with
  | Some l => l
  | None => if holdlock hints then IsolationLevel.Serializable else isolation txn
  end.

(** ** The state of a thread that runs a statement *)

Record Thread (St : Type) := mkThread {
  th_tm : TransactionManager St;
  shared_until_end_of_row : gset (TxnId * TableId * RowId);
  statement_table_locks : list (N * TxnId * TableId);
}.
Arguments mkThread {St} _ _ _.
Arguments th_tm {St} _.
Arguments shared_until_end_of_row {St} _.
Arguments statement_table_locks {St} _.

(** What one call of the lock manager meets while it waits. *)
Record Turn := mkTurn {
  tn_now : N;
  tn_cancelled : bool;
  tn_wakeups : list Wakeup;
}.

(** A call that may park: [None] when the thread is still parked. *)
Definition blocking (S A : Type) : Type := S → option (SqlResult A) * S.

#[export] Instance blocking_ret {S} : MRet (blocking S) := λ A a s, (Some (Ok a), s).
#[export] Instance blocking_bind {S} : MBind (blocking S) := λ A B f m s,
  match m s with
  | (Some (Ok a), s') => f a s'
  | (Some (Err e), s') => (Some (Err e), s')
  | (None, s') => (None, s')
  end.

(** A part that does not park. *)
Definition at_once {S A} (f : stateful S SqlError A) : blocking S A := λ s,
  let '(r, s') := f s in (Some r, s').

Section policy.
Context {St : Type}.

Notation Th := (Thread St).

Definition lock_table (th : Th) : LockTable := LockManager.table (locks (th_tm th)).

Definition put_locks (th : Th) (l : LockManager) : Th :=
  mkThread (set_locks (th_tm th) l) (shared_until_end_of_row th) (statement_table_locks th).

(** [self.locks().unlock(txn, resource)]. *)
Definition unlock_resource (txn : TxnId) (resource : LockResource) : stateful Th SqlError () := λ th,
  let '(r, l) := manager_unlock (locks (th_tm th)) txn resource in (r, put_locks th l).

(** [self.locks().try_acquire(...)]. *)
Definition acquire (turn : Turn) (txn : TxnId) (resource : LockResource) (mode : LockMode)
    (timeout : LockTimeout) (th : Th) : option LockOutcome * Th :=
  let '(o, l) := try_acquire (locks (th_tm th)) (tn_now turn) (tn_cancelled turn) txn resource mode
                   timeout (tn_wakeups turn) in
  (o, put_locks th l).

(** [take] of [isolation.rs], which is also the body of [LockManager::lock]. *)
Definition take (turn : Turn) (txn : TxnId) (resource : LockResource) (mode : LockMode)
    (timeout : LockTimeout) : blocking Th () := λ th,
  let '(o, th') := acquire turn txn resource mode timeout th in
  ((λ outcome, match outcome with
               | Granted => Ok ()
               | other => Err (to_error other resource)
               end) <$> o, th').

Definition data_mode_held (txn : TxnId) (resource : LockResource) (th : Th) : option LockMode :=
  snd ∘ snd <$> list_find (λ p, p.1 = resource ∧ LockMode.is_data p.2 = true) (held (lock_table th) txn).

Definition record_row_read (txn : TxnId) (tid : TableId) (row : RowId) (th : Th) : Th :=
  mkThread (th_tm th) ({[(txn, tid, row)]} ∪ shared_until_end_of_row th) (statement_table_locks th).

Definition take_row_read (txn : TxnId) (tid : TableId) (row : RowId) (th : Th) : bool * Th :=
  (bool_decide ((txn, tid, row) ∈ shared_until_end_of_row th),
   mkThread (th_tm th) (shared_until_end_of_row th ∖ {[(txn, tid, row)]}) (statement_table_locks th)).

(** The part of [read_lock] from the intent lock on. *)
Definition read_row (turn : Turn) (txn : TxnHandle) (tid : TableId) (row : RowId) (hints : LockIntent)
    (lvl : IsolationLevel) (mode : LockMode) : blocking Th ReadAccess := λ th,
  let resource := Row tid row in
  let held_before := data_mode_held (id txn) resource th in
  let row_timeout := if readpast hints then NoWait else lock_wait_of hints in
  match take turn (id txn) resource mode row_timeout th with
  | (None, th) => (None, th)
  | (Some (Err refused), th) =>
      if readpast hints then (Some (Ok Skip), th) else (Some (Err refused), th)
  | (Some (Ok _), th) =>
      if negb (bool_decide (mode = LockMode.S)) || negb (releases_at_end_of_row lvl)
      then (Some (Ok Locked), (take_row_read (id txn) tid row th).2)
      else match held_before with
           | None => (Some (Ok Locked), record_row_read (id txn) tid row th)
           | Some _ => (Some (Ok Locked), th)
           end
  end.

Definition read_lock (turn1 turn2 : Turn) (txn : TxnHandle) (tid : TableId) (row : RowId)
    (hints : LockIntent) : blocking Th ReadAccess := λ th,
  let lvl := effective_level txn hints in
  match read_mode lvl hints with
  | None => (Some (Ok Dirty), th)
  | Some mode =>
      if bool_decide (mode = LockMode.S) &&
         negb (bool_decide (read_versioning (th_tm th) txn lvl = Locking))
      then (Some (Ok Versioned), th)
      else
        (_ ← take turn1 (id txn) (Table tid) (intent_of mode) (lock_wait_of hints);
         read_row turn2 txn tid row hints lvl mode) th
  end.

Definition end_row_read (txn : TxnHandle) (tid : TableId) (row : RowId) : stateful Th SqlError () := λ th,
  let '(there, th) := take_row_read (id txn) tid row th in
  if there then
    let resource := Row tid row in
    if decide (data_mode_held (id txn) resource th = Some LockMode.S)
    then unlock_resource (id txn) resource th
    else (Ok (), th)
  else (Ok (), th).

Definition write_lock (turn1 turn2 : Turn) (txn : TxnHandle) (tid : TableId) (row : RowId)
    (hints : LockIntent) : blocking Th () :=
  _ ← take turn1 (id txn) (Table tid) LockMode.IX (lock_wait_of hints);
  _ ← take turn2 (id txn) (Row tid row) LockMode.X (lock_wait_of hints);
  at_once (modifies (λ th, (take_row_read (id txn) tid row th).2)).

(** [Vec::dedup]: of equal neighbours, the first stays. *)
Fixpoint dedup (l : list N) : list N :=
  match l with
  | x :: ((y :: _) as l') => if decide (x = y) then dedup l' else x :: dedup l'
  | _ => l
  end.

(** The last mode of a family in a listing, as the [for] loop of [end_statement] finds it. *)
Definition mode_of (data : bool) (resource : LockResource) (h : list (LockResource * LockMode)) :
    option LockMode :=
  snd <$> list.last (filter (λ p, p.1 = resource ∧ LockMode.is_data p.2 = data) h).

(** What the statement gives back on a table, from the listing taken when it ends. *)
Definition ends_with_statement (txn : TxnHandle) (h : list (LockResource * LockMode))
    (held_for_the_statement : list TableId) (tid : TableId) : bool :=
  let rows_held := existsb (λ p, match p.1 with Row t _ => bool_decide (t = tid) | Table _ => false end) h in
  let data_goes :=
    match mode_of true (Table tid) h with
    | None => true
    | Some LockMode.IS => releases_at_end_of_row (isolation txn) && negb rows_held
    | Some _ => false
    end in
  let schema_goes :=
    match mode_of false (Table tid) h with
    | None => true
    | Some LockMode.SchS => bool_decide (tid ∈ held_for_the_statement)
    | Some _ => false
    end in
  data_goes && schema_goes.

Definition end_statement (txn : TxnHandle) (held_for_the_statement : list TableId) :
    stateful Th SqlError () := λ th,
  let h := held (lock_table th) (id txn) in
  let tables := dedup (omap (λ p, match p.1 with Table t => Some t | Row _ _ => None end) h) in
  for_each (λ tid,
    if ends_with_statement txn h held_for_the_statement tid
    then unlock_resource (id txn) (Table tid) else mret ()) tables th.

(** ** [table_lock.rs] *)

Definition ESCALATION_THRESHOLD : nat := 6235.

Inductive TableLockDecision := RowLevel | TableShared | TableExclusive.

(** The address of the manager, which tells its entries from those of another one. *)
Variable manager_key : N.

Definition record_statement_table_lock (txn : TxnId) (tid : TableId) (th : Th) : Th :=
  mkThread (th_tm th) (shared_until_end_of_row th) (statement_table_locks th ++ [(manager_key, txn, tid)]).

Definition take_statement_table_lock (txn : TxnId) (tid : TableId) (th : Th) : bool * Th :=
  match list_find (λ e, e = (manager_key, txn, tid)) (statement_table_locks th) with
  | Some (pos, _) =>
      (true, mkThread (th_tm th) (shared_until_end_of_row th) (delete pos (statement_table_locks th)))
  | None => (false, th)
  end.

Definition releases_table_lock_at_end_of_statement (level : IsolationLevel) : bool :=
  match level with
  | IsolationLevel.ReadCommitted | IsolationLevel.ReadUncommitted => true
  | _ => false
  end.

Definition session_timeout (txn : TxnHandle) : LockTimeout := Infinite.

(** The token of these calls is their own: nothing cancels them. *)
Definition uncancelled (turn : Turn) : Turn :=
  mkTurn (tn_now turn) false ((λ k, mkWakeup (wk_others k) (wk_now k) false) <$> tn_wakeups turn).

Definition acquire_table_lock (turn : Turn) (txn : TxnHandle) (tid : TableId) (mode : LockMode)
    (hints : LockIntent) : blocking Th () :=
  take (uncancelled turn) (id txn) (Table tid) mode
    (if nowait hints then NoWait else session_timeout txn).

Definition table_lock (turn : Turn) (txn : TxnHandle) (tid : TableId) (hints : LockIntent) :
    blocking Th TableLockDecision :=
  let marked := modifies (λ th, if releases_table_lock_at_end_of_statement (isolation txn)
                                then record_statement_table_lock (id txn) tid th else th) in
  if tablockx hints then
    _ ← acquire_table_lock turn txn tid LockMode.X hints; _ ← at_once marked; mret TableExclusive
  else if tablock hints then
    _ ← acquire_table_lock turn txn tid LockMode.S hints; _ ← at_once marked; mret TableShared
  else mret RowLevel.

Definition end_table_lock (txn : TxnHandle) (tid : TableId) : stateful Th SqlError () := λ th,
  let '(there, th) := take_statement_table_lock (id txn) tid th in
  if there then unlock_resource (id txn) (Table tid) th else (Ok (), th).

Definition row_locks_on_table (txn : TxnId) (tid : TableId) (th : Th) : list (RowId * LockMode) :=
  omap (λ p, match p.1 with
             | Row t row => if bool_decide (t = tid) && LockMode.is_data p.2 then Some (row, p.2) else None
             | Table _ => None
             end) (held (lock_table th) txn).

Definition table_data_mode (txn : TxnId) (tid : TableId) (th : Th) : option LockMode :=
  data_mode_held txn (Table tid) th.

Definition maybe_escalate (turn : Turn) (txn : TxnHandle) (tid : TableId) :
    blocking Th (option TableLockDecision) := λ th,
  match table_data_mode (id txn) tid th with
  | Some _ => (Some (Ok None), th)
  | None =>
      let rows := row_locks_on_table (id txn) tid th in
      if length rows <? ESCALATION_THRESHOLD then (Some (Ok None), th)
      else
        let table_mode :=
          if existsb (λ p, match p.2 with LockMode.X | LockMode.U => true | _ => false end) rows
          then LockMode.X else LockMode.S in
        (_ ← at_once (for_each (λ p, unlock_resource (id txn) (Row tid p.1)) rows);
         _ ← acquire_table_lock turn txn tid table_mode LockIntent_default;
         mret (Some (if decide (table_mode = LockMode.X) then TableExclusive else TableShared))) th
  end.

(** ** [schema_lock.rs] *)

Record SchemaHold := mkSchemaHold { taken : bool; waited : bool }.

Definition schema_lock (turn : Turn) (txn : TxnHandle) (tid : TableId) (mode : LockMode) : blocking Th () :=
  take (uncancelled turn) (id txn) (Table tid) mode (session_timeout txn).

Definition schema_stability_lock (turn : Turn) (txn : TxnHandle) (tid : TableId) : blocking Th () :=
  schema_lock turn txn tid LockMode.SchS.

Definition schema_modify_lock (turn : Turn) (txn : TxnHandle) (tid : TableId) : blocking Th () :=
  schema_lock turn txn tid LockMode.SchM.

#[export] Instance LockTimeout_eq_dec : EqDecision LockTimeout.
Proof. solve_decision. Defined.
#[export] Instance LockOutcome_eq_dec : EqDecision LockOutcome.
Proof. solve_decision. Defined.

Definition hold_schema_stability (turn1 turn2 : Turn) (txn : TxnHandle) (tid : TableId)
    (timeout : LockTimeout) : blocking Th SchemaHold := λ th,
  let resource := Table tid in
  if existsb (λ p, bool_decide (p.1 = resource)) (held (lock_table th) (id txn))
  then (Some (Ok (mkSchemaHold false false)), th)
  else
    match acquire turn1 (id txn) resource LockMode.SchS NoWait th with
    | (None, th) => (None, th)
    | (Some outcome, th) =>
        if decide (outcome = Granted) then (Some (Ok (mkSchemaHold true false)), th)
        else if decide (timeout = NoWait) then (Some (Err lock_request_timeout_on_object), th)
        else (_ ← take turn2 (id txn) resource LockMode.SchS timeout;
              mret (mkSchemaHold true true)) th
    end.

Definition wait_for_schema_stability (turn1 turn2 : Turn) (txn : TxnHandle) (tid : TableId)
    (timeout : LockTimeout) : blocking Th bool :=
  hold ← hold_schema_stability turn1 turn2 txn tid timeout;
  _ ← at_once (if taken hold then unlock_resource (id txn) (Table tid) else mret ());
  mret (waited hold).
End policy.

(** * Facts about the lock policy

    A lock a transaction holds is not touched by the steps of the others, so what
    [Isolation.v] takes first is still held when it has taken the rest. *)

(** ** A lock that is held stays held *)

(** [txn] holds the lock [h] on [r] and asks for nothing else there. *)
Record kept (t : LockTable) (txn : TxnId) (r : LockResource) (h : Holder) : Prop := {
  kp_holder : h ∈ holders (entry_at t r);
  kp_txn : h_txn h = txn;
  kp_alone : ∀ w, w ∈ queue (entry_at t r) → w_txn w ≠ txn;
}.

Lemma kept_same t t' txn r h : entry_at t' r = entry_at t r → kept t txn r h → kept t' txn r h.
Proof. intros He [Hh Ht Hq]. split; rewrite ?He; done. Qed.

Lemma grant_pass_kept t r0 txn r h : kept t txn r h → kept (grant_pass t r0) txn r h.
Proof.
  intros Hk. destruct (decide (r = r0)) as [->|Hne]; [|by apply (kept_same t); [apply grant_pass_entry_other|]].
  destruct Hk as [Hh Ht Hq]. destruct (grant_pass_entry t r0) as (gs & Hgs & _ & Hhs & _). split; [|done|].
  - rewrite Hhs. apply grants_foreign; [|done]. intros w Hw. rewrite Ht. apply Hq. rewrite Hgs. set_solver.
  - intros w Hw. apply Hq. rewrite Hgs. set_solver.
Qed.

Lemma take_granted_kept t tk b t' txn r h : take_granted t tk = (b, t') → kept t txn r h → kept t' txn r h.
Proof. intros (He & _)%take_granted_spec. apply kept_same. unfold entry_at. by rewrite He. Qed.

Lemma give_up_kept t r0 tk txn r h : kept t txn r h → kept (give_up_wait t r0 tk) txn r h.
Proof.
  intros Hk. unfold give_up_wait. destruct (drop_ticket t r0 tk) as [b t'] eqn:Hd.
  apply drop_ticket_spec in Hd as (_ & _ & Hother & Hh & Hb). destruct b; [|by destruct Hb as [-> _]].
  apply grant_pass_kept. destruct (decide (r = r0)) as [->|Hne]; [|apply (kept_same t); [by apply Hother|done]].
  destruct Hb as (w0 & _ & Hq). destruct Hk as [H1 H2 H3]. split; [by rewrite Hh|done|].
  intros w Hw. apply H3. rewrite Hq. by right.
Qed.

Lemma enqueue_kept t now txn' r0 mode req t' txn r h :
  enqueue t now txn' r0 mode = (req, t') → txn' ≠ txn ∨ r0 ≠ r → kept t txn r h → kept t' txn r h.
Proof.
  intros Hen Hor Hk. apply enqueue_spec in Hen as (_ & _ & Hother & Hh & Hreq).
  destruct (decide (r = r0)) as [->|Hne]; [|apply (kept_same t); [by apply Hother|done]].
  destruct Hor as [Hne|]; [|done]. destruct req as [|tk].
  - apply (kept_same t); [|done]. unfold entry_at. by rewrite (proj1 Hreq).
  - destruct Hreq as (_ & w0 & _ & Hw0 & _ & Hq). destruct Hk as [H1 H2 H3]. split; [by rewrite Hh|done|].
    intros w. rewrite Hq. intros [->|Hw]%elem_of_cons; [congruence|by apply H3].
Qed.

Lemma strip_kept t e txn' r0 txn r h n g :
  entries t !! r0 = Some e → txn' ≠ txn → kept t txn r h →
  kept (mkLockTable (<[r0 := strip txn' e]> (entries t)) n g) txn r h.
Proof.
  intros He Hne [H1 H2 H3]. assert (Hat : entry_at t r0 = e) by (unfold entry_at; by rewrite He).
  split; [|done|]; rewrite entry_at_insert; destruct (decide (r = r0)) as [->|]; try done; rewrite Hat in *; simpl.
  - apply list_elem_of_filter. split; [congruence|done].
  - intros w [_ Hw]%list_elem_of_filter. by apply H3.
Qed.

Lemma request_kept m now c txn' r0 mode timeout p tk m' txn r h :
  request m now c txn' r0 mode timeout = (p, tk, m') → txn' ≠ txn ∨ r0 ≠ r →
  kept (table m) txn r h → kept (table m') txn r h.
Proof.
  intros Hr Hor Hk. apply request_cases in Hr as [(t & Hen & _ & ->)|(t & b & t' & Hen & Htg & Hrest)].
  - by eapply enqueue_kept.
  - assert (Hk' : kept t' txn r h).
    { eapply take_granted_kept; [exact Htg|]. apply grant_pass_kept. by eapply enqueue_kept. }
    destruct b; [by destruct Hrest as [_ ->]|].
    destruct Hrest as [(_ & -> & _)|(? & _ & _ & ->)]; [done|]. by apply give_up_kept.
Qed.

Lemma wake_kept m tk w now c p m' txn r h :
  wake m tk w now c = (p, m') → kept (table m) txn r h → kept (table m') txn r h.
Proof.
  intros (b & t & Htg & Hrest)%wake_cases Hk. pose proof (take_granted_kept _ _ _ _ _ _ _ Htg Hk) as Hk'.
  destruct b; [by destruct Hrest as [_ ->]|].
  destruct Hrest as (-> & [[_ ->]|(? & _ & _ & ->)]); [done|]. by apply give_up_kept.
Qed.

Lemma unlock_kept t txn' r0 res t' txn r h :
  unlock t txn' r0 = (res, t') → txn' ≠ txn → kept t txn r h → kept t' txn r h.
Proof.
  unfold unlock. destruct (entries t !! r0) as [e|] eqn:He; [|by intros [= _ <-]].
  case_bool_decide; intros [= _ <-]; [done|]. intros Hne Hk. apply grant_pass_kept. by apply strip_kept.
Qed.

Lemma release_all_kept t txn' txn r h : txn' ≠ txn → kept t txn r h → kept (release_all t txn') txn r h.
Proof.
  intros Hne. unfold release_all. generalize (map_to_list (filter (λ re, involves txn' re.2) (entries t))).*1.
  intros l. revert t. induction l as [|r0 l IH]; intros t Hk; [done|]. simpl. apply IH.
  unfold release_one. apply grant_pass_kept. destruct (entries t !! r0) as [e|] eqn:He; [|done].
  by apply strip_kept.
Qed.

Lemma run_op_kept m op tk txn r h :
  foreign tk txn op → kept (table m) txn r h → kept (table (run_op m op)) txn r h.
Proof.
  intros Hf Hk. destruct op as [now c txn' r0 mode timeout|tk' w now c|txn' r0|txn'|txn' p]; simpl in *.
  - destruct (request _ _ _ _ _ _ _) as [[p tk'] m'] eqn:Hr. simpl. eapply request_kept; [exact Hr|by left|done].
  - destruct (wake _ _ _ _ _) as [p m'] eqn:Hw. simpl. by eapply wake_kept.
  - unfold manager_unlock. destruct (unlock _ _ _) as [res t] eqn:Hu. simpl. by eapply unlock_kept.
  - by apply release_all_kept.
  - done.
Qed.

Lemma foldl_run_op_kept m ops tk txn r h :
  Forall (foreign tk txn) ops → kept (table m) txn r h → kept (table (foldl run_op m ops)) txn r h.
Proof.
  intros Hall. revert m. induction Hall as [|op ops Hop _ IH]; intros m Hk; [done|]. simpl.
  apply IH. by eapply run_op_kept.
Qed.

Lemma wait_loop_kept m tk w wakeups o m' txn r h :
  Forall (λ k, Forall (foreign tk txn) (wk_others k)) wakeups →
  wait_loop m tk w wakeups = (o, m') → kept (table m) txn r h → kept (table m') txn r h.
Proof.
  intros Hall. revert m. induction Hall as [|k ks Hk _ IH]; intros m; simpl; [by intros [= _ <-]|].
  destruct (wake _ _ _ _ _) as [p m1] eqn:Hw. intros Hres Hkept.
  assert (H1 : kept (table m1) txn r h).
  { eapply wake_kept; [exact Hw|]. by eapply foldl_run_op_kept. }
  destruct p; [by injection Hres as _ <-|]. by apply (IH m1).
Qed.

(** A transaction that asks for a lock keeps those it has on other resources. *)
Lemma try_acquire_kept m now c txn r0 mode timeout wakeups o m' r h :
  Forall (λ k, Forall (foreign (next_ticket (table m)) txn) (wk_others k)) wakeups →
  try_acquire m now c txn r0 mode timeout wakeups = (o, m') → r0 ≠ r →
  kept (table m) txn r h → kept (table m') txn r h.
Proof.
  intros Hall. unfold try_acquire. destruct (request _ _ _ _ _ _ _) as [[p tk] m1] eqn:Hr. intros Hres Hne Hk.
  assert (H1 : kept (table m1) txn r h) by (eapply request_kept; [exact Hr|by right|done]).
  destruct p; [by injection Hres as _ <-|].
  assert (Htk : tk = next_ticket (table m)).
  { apply request_cases in Hr as [(? & _ & [=] & _)|(t & b & t' & Hen & _)].
    by apply enqueue_spec in Hen as (_ & _ & _ & _ & -> & _). }
  subst tk. by eapply wait_loop_kept.
Qed.

(** ** The listing of a transaction *)

Lemma elem_of_held t txn r m :
  (r, m) ∈ held t txn ↔ ∃ h, h ∈ holders (entry_at t r) ∧ h_txn h = txn ∧ h_mode h = m.
Proof.
  unfold held, entry_at. rewrite list_elem_of_bind. split.
  - intros ([r' e] & (h & [= -> ->] & [Ht Hh]%list_elem_of_filter)%list_elem_of_fmap & Hin%elem_of_sorted_entries).
    simpl in *. exists h. by rewrite Hin.
  - intros (h & Hh & Ht & Hm). destruct (entries t !! r) as [e|] eqn:He; [|by apply not_elem_of_nil in Hh].
    exists (r, e). split; [|by apply elem_of_sorted_entries]. apply list_elem_of_fmap. exists h. simpl.
    split; [by rewrite Hm|]. by apply list_elem_of_filter.
Qed.

Section policy.
Context {St : Type}.
Notation Th := (Thread St).

Lemma data_mode_held_Some txn r (th : Th) m :
  data_mode_held txn r th = Some m →
  LockMode.is_data m = true ∧ ∃ h, h ∈ holders (entry_at (lock_table th) r) ∧ h_txn h = txn ∧ h_mode h = m.
Proof.
  unfold data_mode_held. intros ([i [r' m']] & Hf & ->)%fmap_Some.
  apply list_find_Some in Hf as (Hi & [Hr Hd] & _). simpl in *. subst r'. split; [done|].
  apply elem_of_held. by eapply list_elem_of_lookup_2.
Qed.

Lemma data_mode_held_None txn r (th : Th) h :
  data_mode_held txn r th = None → h ∈ holders (entry_at (lock_table th) r) → h_txn h = txn →
  LockMode.is_data (h_mode h) = false.
Proof.
  unfold data_mode_held. rewrite fmap_None, list_find_None, Forall_forall. intros Hn Hh Ht.
  apply not_true_iff_false. intros Hd. apply (Hn (r, h_mode h)); [|done]. apply elem_of_held. eauto.
Qed.

(** With one lock per family, the mode found is the mode held. *)
Lemma data_mode_held_spec txn r (th : Th) h :
  table_ok (lock_table th) → h ∈ holders (entry_at (lock_table th) r) → h_txn h = txn →
  LockMode.is_data (h_mode h) = true → data_mode_held txn r th = Some (h_mode h).
Proof.
  intros Hok Hh Ht Hd. destruct (data_mode_held txn r th) as [m|] eqn:Hm.
  - apply data_mode_held_Some in Hm as (Hdm & h2 & Hh2 & Ht2 & <-). f_equal.
    destruct (ep_holders _ (entry_at_pre _ r Hok)) as [_ Hnd].
    apply list_elem_of_lookup in Hh as [i Hi]. apply list_elem_of_lookup in Hh2 as [j Hj].
    assert (i = j); [|congruence]. eapply NoDup_lookup; [exact Hnd|..]; rewrite list_lookup_fmap; [by rewrite Hi|].
    rewrite Hj. simpl. unfold lock_key. by rewrite Ht, Ht2, Hd, Hdm.
  - pose proof (data_mode_held_None _ _ _ _ Hm Hh Ht). congruence.
Qed.

(** ** Taking a lock *)

(** While a call waits, the other threads act for other transactions. *)
Definition undisturbed (t : LockTable) (txn : TxnId) (turn : Turn) : Prop :=
  Forall (λ k, Forall (foreign (next_ticket t) txn) (wk_others k)) (tn_wakeups turn).

(** The state of a transaction that may ask for a lock. *)
Record ready (th : Th) (txn : TxnId) : Prop := {
  rd_table : table_ok (lock_table th);
  rd_quiet : quiet (lock_table th) txn;
}.

Lemma acquire_next turn txn r mode timeout (th : Th) o th' :
  table_ok (lock_table th) → acquire turn txn r mode timeout th = (o, th') →
  table_ok (lock_table th') ∧ (next_ticket (lock_table th) ≤ next_ticket (lock_table th'))%N.
Proof.
  intros Hok. unfold acquire. destruct (try_acquire _ _ _ _ _ _ _ _) as [o' l] eqn:Hrun.
  intros [= <- <-]. unfold lock_table in *. simpl. split; [|by eapply try_acquire_next].
  unfold try_acquire in Hrun. destruct (request _ _ _ _ _ _ _) as [[p tk] m1] eqn:Hr.
  pose proof (request_ok _ _ _ _ _ _ _ _ _ _ Hok Hr). destruct p; [by injection Hrun as _ <-|].
  by eapply wait_loop_next.
Qed.

Lemma take_next turn txn r mode timeout (th : Th) o th' :
  table_ok (lock_table th) → take turn txn r mode timeout th = (o, th') →
  table_ok (lock_table th') ∧ (next_ticket (lock_table th) ≤ next_ticket (lock_table th'))%N.
Proof.
  intros Hok. unfold take. destruct (acquire _ _ _ _ _ _) as [o' th1] eqn:Ha. intros [= _ <-].
  by eapply acquire_next.
Qed.

Lemma acquire_ok turn txn r mode timeout (th : Th) o th' :
  ready th txn → undisturbed (lock_table th) txn turn →
  acquire turn txn r mode timeout th = (o, th') →
  table_ok (lock_table th') ∧ (next_ticket (lock_table th) ≤ next_ticket (lock_table th'))%N ∧
  (∀ r' h, r' ≠ r → kept (lock_table th) txn r' h → kept (lock_table th') txn r' h) ∧
  shared_until_end_of_row th' = shared_until_end_of_row th ∧
  statement_table_locks th' = statement_table_locks th ∧
  ((next_ticket (lock_table th') < u64_max)%N → is_Some o → quiet (lock_table th') txn ∧
   (o = Some Granted → ∃ h, kept (lock_table th') txn r h ∧ LockMode.covers (h_mode h) mode = true)).
Proof.
  intros [Hok Hq] Hu Ha. pose proof (acquire_next _ _ _ _ _ _ _ _ Hok Ha) as [Hok' Hn].
  revert Ha. unfold acquire. destruct (try_acquire _ _ _ _ _ _ _ _) as [o' l] eqn:Hrun.
  intros [= <- <-]. unfold lock_table in *. simpl in *.
  split; [done|]. split; [done|]. split; [intros r' h Hne; by eapply try_acquire_kept|].
  split; [done|]. split; [done|]. intros Hlt [out ->].
  pose proof (try_acquire_own _ _ _ _ _ _ _ _ _ _ Hok Hq Hu Hrun Hlt) as Hp.
  destruct out; simpl in Hp; [|by split..]. destruct Hp as [(h & Hh & Ht & Hc) Hq']. split; [done|].
  intros _. exists h. split; [|done]. split; [done|done|]. intros w Hw. by apply (Hq' r).
Qed.

Lemma take_ok turn txn r mode timeout (th : Th) res th' :
  ready th txn → undisturbed (lock_table th) txn turn →
  take turn txn r mode timeout th = (Some res, th') → (next_ticket (lock_table th') < u64_max)%N →
  ready th' txn ∧ (next_ticket (lock_table th) ≤ next_ticket (lock_table th'))%N ∧
  (∀ r' h, r' ≠ r → kept (lock_table th) txn r' h → kept (lock_table th') txn r' h) ∧
  shared_until_end_of_row th' = shared_until_end_of_row th ∧
  (res = Ok () → ∃ h, kept (lock_table th') txn r h ∧ LockMode.covers (h_mode h) mode = true).
Proof.
  intros Hr Hu. unfold take. destruct (acquire _ _ _ _ _ _) as [o th1] eqn:Ha.
  destruct (acquire_ok _ _ _ _ _ _ _ _ Hr Hu Ha) as (Hok & Hn & Hk & Hs & _ & Hrest).
  destruct o as [out|]; [|done]. simpl. intros [= Hres <-] Hlt.
  destruct (Hrest Hlt ltac:(eauto)) as [Hq Hg]. split; [by split|]. split; [done|]. split; [done|]. split; [done|].
  intros ->. apply Hg. by destruct out.
Qed.

(** Two locks one after the other: both are held. *)
Lemma take_two turn1 turn2 txn r1 r2 mode1 mode2 timeout1 timeout2 (th th1 th2 : Th) res :
  ready th txn → undisturbed (lock_table th) txn turn1 → undisturbed (lock_table th1) txn turn2 → r2 ≠ r1 →
  take turn1 txn r1 mode1 timeout1 th = (Some (Ok ()), th1) →
  take turn2 txn r2 mode2 timeout2 th1 = (Some res, th2) →
  (next_ticket (lock_table th2) < u64_max)%N →
  ready th2 txn ∧ shared_until_end_of_row th2 = shared_until_end_of_row th ∧
  (∃ h, kept (lock_table th2) txn r1 h ∧ LockMode.covers (h_mode h) mode1 = true) ∧
  (res = Ok () → ∃ h, kept (lock_table th2) txn r2 h ∧ LockMode.covers (h_mode h) mode2 = true).
Proof.
  intros Hr Hu1 Hu2 Hne H1 H2 Hlt2.
  destruct (take_next _ _ _ _ _ _ _ _ (rd_table _ _ Hr) H1) as [Hok1 _].
  destruct (take_next _ _ _ _ _ _ _ _ Hok1 H2) as [_ Hn2].
  assert (Hlt1 : (next_ticket (lock_table th1) < u64_max)%N) by lia.
  destruct (take_ok _ _ _ _ _ _ _ _ Hr Hu1 H1 Hlt1) as (Hr1 & _ & _ & Hs1 & Hg1).
  destruct (Hg1 eq_refl) as (h1 & Hk1 & Hc1).
  destruct (take_ok _ _ _ _ _ _ _ _ Hr1 Hu2 H2 Hlt2) as (Hr2 & _ & Hk2 & Hs2 & Hg2).
  split; [done|]. split; [congruence|]. split; [|done]. exists h1. split; [|done]. by apply Hk2.
Qed.

(** A write that is let through. *)
Lemma write_lock_taken turn1 turn2 txn tid row hints (th : Th) th' :
  ready th (id txn) → undisturbed (lock_table th) (id txn) turn1 →
  undisturbed (lock_table (take turn1 (id txn) (Table tid) LockMode.IX (lock_wait_of hints) th).2) (id txn) turn2 →
  write_lock turn1 turn2 txn tid row hints th = (Some (Ok ()), th') →
  (next_ticket (lock_table th') < u64_max)%N →
  ready th' (id txn) ∧ (id txn, tid, row) ∉ shared_until_end_of_row th' ∧
  (∃ h, kept (lock_table th') (id txn) (Table tid) h ∧ LockMode.covers (h_mode h) LockMode.IX = true) ∧
  (∃ h, kept (lock_table th') (id txn) (Row tid row) h ∧ LockMode.covers (h_mode h) LockMode.X = true).
Proof.
  intros Hr Hu1 Hu2. unfold write_lock, mbind, blocking_bind.
  destruct (take turn1 _ _ _ _ th) as [[[[]|e]|] th1] eqn:H1; [|done..]. simpl in Hu2.
  destruct (take turn2 _ _ _ _ th1) as [[[[]|e]|] th2] eqn:H2; [|done..].
  unfold at_once, modifies. intros [= <-] Hlt.
  assert (Hne : Row tid row ≠ Table tid) by done.
  destruct (take_two _ _ _ _ _ _ _ _ _ _ _ _ _ Hr Hu1 Hu2 Hne H1 H2 Hlt) as ([Hok Hq] & _ & Hi & Hx).
  split; [by split|]. split; [simpl; set_solver|]. split; [exact Hi|]. by apply Hx.
Qed.

Lemma end_row_read_unmarked txn tid row (th : Th) :
  (id txn, tid, row) ∉ shared_until_end_of_row th → end_row_read txn tid row th = (Ok (), th).
Proof.
  intros Hn. unfold end_row_read, take_row_read. rewrite bool_decide_false by done.
  f_equal. destruct th as [tm sh sl]. simpl in *. f_equal. set_solver.
Qed.

Lemma end_row_read_marked txn tid row (th : Th) :
  (id txn, tid, row) ∈ shared_until_end_of_row th →
  ∃ th', end_row_read txn tid row th = (Ok (), th') ∧
    if decide (data_mode_held (id txn) (Row tid row) th = Some LockMode.S)
    then ∀ h, h ∈ holders (entry_at (lock_table th') (Row tid row)) → h_txn h ≠ id txn
    else lock_table th' = lock_table th.
Proof.
  intros Hm. unfold end_row_read, take_row_read. rewrite bool_decide_true by done.
  set (th1 := mkThread _ _ _).
  assert (Hd1 : data_mode_held (id txn) (Row tid row) th1 = data_mode_held (id txn) (Row tid row) th) by done.
  rewrite Hd1. destruct (decide _) as [Hd|Hd]; [|by exists th1].
  apply data_mode_held_Some in Hd as (_ & h & Hh & Ht & _).
  unfold unlock_resource, manager_unlock. fold (lock_table th1). change (lock_table th1) with (lock_table th).
  destruct (unlock (lock_table th) (id txn) (Row tid row)) as [res t] eqn:Hu.
  apply unlock_entry in Hu. destruct res as [[]|e].
  - eexists. split; [done|]. destruct Hu as (_ & Hgone & _). exact Hgone.
  - destruct Hu as (_ & _ & Hnone). by destruct (Hnone h Hh).
Qed.

Lemma kept_holds t txn r h mode :
  kept t txn r h → LockMode.covers (h_mode h) mode = true → holds t txn r mode.
Proof. intros [Hh Ht _] Hc. by exists h. Qed.
End policy.

(** ** A table lock that is not given up *)

(** [txn] holds a lock on [r] at least as strong as [m], and what it asks for there of the same
    family is at least as strong too, so that no grant can weaken what it holds. *)
Record guarded (t : LockTable) (txn : TxnId) (r : LockResource) (m : LockMode) : Prop := {
  gd_key : (txn, LockMode.is_data m) ∈ lock_key <$> holders (entry_at t r);
  gd_held : ∀ h, h ∈ holders (entry_at t r) → lock_key h = (txn, LockMode.is_data m) → LockMode.covers (h_mode h) m = true;
  gd_asked : ∀ w, w ∈ queue (entry_at t r) → wait_key w = (txn, LockMode.is_data m) → LockMode.covers (w_mode w) m = true;
}.

(** The calls of the lock manager that leave the lock: all but the ones that give it back. *)
Definition spares (txn : TxnId) (r : LockResource) (op : Op) : Prop :=
  match op with
  | OpUnlock txn' r' => txn' ≠ txn ∨ r' ≠ r
  | OpReleaseAll txn' => txn' ≠ txn
  | _ => True
  end.

Lemma guarded_same t t' txn r m : entry_at t' r = entry_at t r → guarded t txn r m → guarded t' txn r m.
Proof. intros He []. by split; rewrite He. Qed.

Lemma guarded_held t txn r m : guarded t txn r m →
  ∃ h, h ∈ holders (entry_at t r) ∧ h_txn h = txn ∧ LockMode.covers (h_mode h) m = true.
Proof. intros [(h & Hk & Hh)%list_elem_of_fmap Hc _]. exists h. split; [done|]. split; [by injection Hk|by apply Hc]. Qed.

Lemma grant_pass_guarded t r0 txn r m : guarded t txn r m → guarded (grant_pass t r0) txn r m.
Proof.
  destruct (decide (r = r0)) as [->|Hne]; [|by apply guarded_same, grant_pass_entry_other].
  intros [Hk Hh Hq]. destruct (grant_pass_entry t r0) as (gs & Hgs & _ & Hhs & _). split.
  - rewrite Hhs. by apply grants_keys.
  - intros h. rewrite Hhs. intros [Hin|(w & Hw & ->)]%elem_of_grants Hkey; [by apply Hh|].
    apply (Hq w); [rewrite Hgs; set_solver|exact Hkey].
  - intros w Hw. apply Hq. rewrite Hgs. set_solver.
Qed.

Lemma take_granted_guarded t tk b t' txn r m : take_granted t tk = (b, t') → guarded t txn r m → guarded t' txn r m.
Proof. intros (He & _)%take_granted_spec. apply guarded_same. unfold entry_at. by rewrite He. Qed.

Lemma give_up_guarded t r0 tk txn r m : guarded t txn r m → guarded (give_up_wait t r0 tk) txn r m.
Proof.
  intros Hg. unfold give_up_wait. destruct (drop_ticket t r0 tk) as [b t'] eqn:Hd.
  apply drop_ticket_spec in Hd as (_ & _ & Hother & Hh & Hb). destruct b; [|by destruct Hb as [-> _]].
  apply grant_pass_guarded. destruct (decide (r = r0)) as [->|Hne]; [|apply (guarded_same t); [by apply Hother|done]].
  destruct Hb as (w0 & _ & Hq). destruct Hg as [H1 H2 H3]. split; rewrite ?Hh; [done|done|].
  intros w Hw. apply H3. rewrite Hq. by right.
Qed.

(** A conversion asks for the join of what is held and what is asked. *)
Lemma enqueue_guarded t now txn' r0 mode req t' txn r m :
  enqueue t now txn' r0 mode = (req, t') → guarded t txn r m → guarded t' txn r m.
Proof.
  intros Hen Hg. pose proof (enqueue_spec _ _ _ _ _ _ _ Hen) as (_ & _ & Hother & _ & _).
  destruct (decide (r = r0)) as [->|Hne]; [|apply (guarded_same t); [by apply Hother|done]].
  destruct Hg as [H1 H2 H3]. revert Hen. unfold enqueue. fold (entry_at t r0).
  assert (Hgo : ∀ q n, (∀ w, w ∈ q → wait_key w = (txn, LockMode.is_data m) → LockMode.covers (w_mode w) m = true) →
    guarded (mkLockTable (<[r0 := mkEntry (holders (entry_at t r0)) q]> (entries t)) n (granted t)) txn r0 m).
  { intros q n Hq. by split; rewrite entry_at_insert, decide_True by done. }
  destruct (holder_of (entry_at t r0) txn' mode) as [[i held]|] eqn:Hh.
  - destruct (LockMode.covers held mode).
    + intros [= _ <-]. split; rewrite entry_at_insert, decide_True by done; done.
    + intros [= _ <-]. apply Hgo. intros w. rewrite insert_at_perm. intros [->|Hw]%elem_of_cons; [|by apply H3].
      cbn. intros [= -> Hd]. apply holder_of_at in Hh as (h & Hin & Ht & <- & Hf).
      eapply LockMode.covers_trans; [by apply LockMode.join_covers_l|]. apply H2; [done|].
      unfold lock_key. rewrite Ht. f_equal. rewrite <- Hd. symmetry. apply LockMode.covers_family.
      by apply LockMode.join_covers_l.
  - intros [= _ <-]. apply Hgo. intros w [Hw| ->%list_elem_of_singleton]%elem_of_app; [by apply H3|].
    cbn. intros [= -> Hd]. exfalso. unfold holder_of in Hh. apply fmap_None, list_find_None in Hh.
    apply list_elem_of_fmap in H1 as (h & Hk & Hin). rewrite Forall_forall in Hh. apply (Hh h Hin), same_lock_key.
    rewrite <- Hk. unfold lock_key. cbn. by rewrite Hd.
Qed.

Lemma strip_guarded t e txn' r0 txn r m n g :
  entries t !! r0 = Some e → txn' ≠ txn → guarded t txn r m →
  guarded (mkLockTable (<[r0 := strip txn' e]> (entries t)) n g) txn r m.
Proof.
  intros He Hne Hg. destruct (decide (r = r0)) as [->|Hr].
  2: { apply (guarded_same t); [by rewrite entry_at_insert, decide_False|done]. }
  destruct Hg as [H1 H2 H3]. assert (Hat : entry_at t r0 = e) by (unfold entry_at; by rewrite He).
  split; rewrite entry_at_insert, decide_True by done; rewrite Hat in *; cbn.
  - apply list_elem_of_fmap in H1 as (h & Hk & Hin). rewrite Hk. apply list_elem_of_fmap_2, list_elem_of_filter.
    split; [|done]. injection Hk as ->. done.
  - intros h [_ Hin]%list_elem_of_filter. by apply H2.
  - intros w [_ Hin]%list_elem_of_filter. by apply H3.
Qed.

Lemma request_guarded l now c txn' r0 mode timeout txn r m :
  guarded (table l) txn r m → guarded (table (request l now c txn' r0 mode timeout).2) txn r m.
Proof.
  intros Hg. destruct (request l now c txn' r0 mode timeout) as [[p tk] l'] eqn:Hr. cbn.
  apply request_cases in Hr as [(t & Hen & _ & ->)|(t & b & t' & Hen & Htg & Hrest)]; [by eapply enqueue_guarded|].
  assert (Hk' : guarded t' txn r m).
  { eapply take_granted_guarded; [exact Htg|]. apply grant_pass_guarded. by eapply enqueue_guarded. }
  destruct b; [by destruct Hrest as [_ ->]|].
  destruct Hrest as [(_ & -> & _)|(? & _ & _ & ->)]; [done|]. by apply give_up_guarded.
Qed.

Lemma run_op_guarded l op txn r m : spares txn r op → guarded (table l) txn r m → guarded (table (run_op l op)) txn r m.
Proof.
  intros Hs Hg. destruct op as [now c txn' r0 mode timeout|tk w now c|txn' r0|txn'|txn' p]; cbn in *; [..|done].
  - by apply request_guarded.
  - destruct (wake l tk w now c) as [p l'] eqn:Hw. apply wake_cases in Hw as (b & t & Htg & Hrest). cbn.
    pose proof (take_granted_guarded _ _ _ _ _ _ _ Htg Hg) as Hg'. destruct b; [by destruct Hrest as [_ ->]|].
    destruct Hrest as (-> & [[_ ->]|(? & _ & _ & ->)]); [done|]. by apply give_up_guarded.
  - unfold manager_unlock. destruct (unlock (table l) txn' r0) as [res t] eqn:Hu. cbn. destruct Hs as [Hne|Hne].
    + revert Hu. unfold unlock. destruct (entries (table l) !! r0) as [e|] eqn:He; [|by intros [= _ <-]].
      case_bool_decide; intros [= _ <-]; [done|]. by apply grant_pass_guarded, strip_guarded.
    + apply (guarded_same (table l)); [|done]. apply unlock_entry in Hu. destruct res; [by apply Hu|by destruct Hu as (_ & -> & _)].
  - unfold release_all. generalize (map_to_list (filter (λ re, involves txn' re.2) (entries (table l)))).*1.
    generalize (table l) Hg. intros t Ht ks. revert t Ht. induction ks as [|r0 ks IH]; intros t Ht; [done|]. cbn. apply IH.
    unfold release_one. apply grant_pass_guarded. destruct (entries t !! r0) as [e|] eqn:He; [|done]. by apply strip_guarded.
Qed.

Lemma run_ops_guarded ops l txn r m :
  Forall (spares txn r) ops → guarded (table l) txn r m → guarded (table (foldl run_op l ops)) txn r m.
Proof. intros Ho. revert l. induction Ho as [|op ops Hop _ IH]; intros l Hg; [done|]. cbn. by apply IH, run_op_guarded. Qed.

(** The other threads leave the lock while a call waits. *)
Definition lets_keep (txn : TxnId) (r : LockResource) (turn : Turn) : Prop :=
  Forall (λ k, Forall (spares txn r) (wk_others k)) (tn_wakeups turn).

Section rows.
Context {St : Type} (txn : TxnHandle) (tid : TableId).

Definition guards_table (th : Thread St) : Prop := guarded (lock_table th) (id txn) (Table tid) LockMode.IX.

Lemma take_guarded turn txn' r0 mode timeout th :
  lets_keep (id txn) (Table tid) turn → guards_table th → guards_table (take turn txn' r0 mode timeout th).2.
Proof.
  intros Hl Hg. unfold take, acquire, guards_table, lock_table, try_acquire in *.
  pose proof (request_guarded (locks (th_tm th)) (tn_now turn) (tn_cancelled turn) txn' r0 mode timeout _ _ _ Hg) as H1.
  destruct (request _ _ _ _ _ _ _) as [[p tk] l]. cbn in H1. destruct p as [o|]; [done|].
  revert Hl l H1. unfold lets_keep. generalize (tn_wakeups turn). intros ks Hks. induction Hks as [|k ks Hk _ IH]; intros l H1; [done|]. cbn.
  assert (H2 := run_op_guarded (foldl run_op l (wk_others k)) (OpWake tk (mkWait txn' r0 mode (deadline_of timeout (tn_now turn))) (wk_now k) (wk_cancelled k))
    (id txn) (Table tid) LockMode.IX I (run_ops_guarded _ _ _ _ _ Hk H1)). cbn in H2.
  destruct (wake _ _ _ _ _) as [[o|] l']; [done|]. by apply IH.
Qed.

Lemma unlock_guarded txn' r0 th : id txn ≠ txn' ∨ r0 ≠ Table tid → guards_table th → guards_table (unlock_resource txn' r0 th).2.
Proof.
  intros Hne Hg. pose proof (run_op_guarded (locks (th_tm th)) (OpUnlock txn' r0) (id txn) (Table tid) LockMode.IX) as H.
  unfold unlock_resource, guards_table, lock_table in *. cbn in H. destruct (manager_unlock _ _ _) as [res l]. cbn in *. apply H; [|done].
  destruct Hne; [by left|by right].
Qed.

Lemma end_row_read_guarded (txn' : TxnHandle) t row th : guards_table th → guards_table (end_row_read txn' t row th).2.
Proof.
  intros Hg. unfold end_row_read, take_row_read. case_bool_decide; [|done]. destruct (decide _); [|done].
  apply unlock_guarded; [by right|exact Hg].
Qed.

Lemma read_lock_guarded turn1 turn2 txn' t row hints th :
  lets_keep (id txn) (Table tid) turn1 → lets_keep (id txn) (Table tid) turn2 → guards_table th →
  guards_table (read_lock turn1 turn2 txn' t row hints th).2.
Proof.
  intros H1 H2 Hg. unfold read_lock. destruct (read_mode _ _) as [mode|]; [|done]. destruct (_ && _); [done|].
  unfold mbind, blocking_bind.
  pose proof (take_guarded turn1 (id txn') (Table t) (intent_of mode) (lock_wait_of hints) th H1 Hg) as Hg1.
  destruct (take turn1 _ _ _ _ th) as [[[[]|e]|] th1]; [|done..]. unfold read_row.
  pose proof (take_guarded turn2 (id txn') (Row t row) mode (if readpast hints then NoWait else lock_wait_of hints) th1 H2 Hg1) as Hg2.
  destruct (take turn2 _ _ _ _ th1) as [[[[]|e]|] th2]; [|by destruct (readpast hints)|done].
  destruct (_ || _); [done|]. by destruct (data_mode_held _ _ _).
Qed.

Lemma write_lock_guarded turn1 turn2 txn' t row hints th :
  lets_keep (id txn) (Table tid) turn1 → lets_keep (id txn) (Table tid) turn2 → guards_table th →
  guards_table (write_lock turn1 turn2 txn' t row hints th).2.
Proof.
  intros H1 H2 Hg. unfold write_lock, mbind, blocking_bind.
  pose proof (take_guarded turn1 (id txn') (Table t) LockMode.IX (lock_wait_of hints) th H1 Hg) as Hg1.
  destruct (take turn1 _ _ _ _ th) as [[[[]|e]|] th1]; [|done..].
  pose proof (take_guarded turn2 (id txn') (Row t row) LockMode.X (lock_wait_of hints) th1 H2 Hg1) as Hg2.
  by destruct (take turn2 _ _ _ _ th1) as [[[[]|e]|] th2].
Qed.

Lemma uncancelled_keep turn : lets_keep (id txn) (Table tid) turn → lets_keep (id txn) (Table tid) (uncancelled turn).
Proof. unfold lets_keep, uncancelled. cbn. rewrite Forall_fmap. done. Qed.

Lemma table_lock_guarded key turn txn' t hints th :
  lets_keep (id txn) (Table tid) turn → guards_table th → guards_table (table_lock key turn txn' t hints th).2.
Proof.
  intros H1%uncancelled_keep Hg. unfold table_lock, acquire_table_lock.
  assert (Hgo : ∀ mode timeout (d : TableLockDecision),
    guards_table ((_ ← take (uncancelled turn) (id txn') (Table t) mode timeout;
      _ ← at_once (modifies (λ th, if releases_table_lock_at_end_of_statement (isolation txn')
        then record_statement_table_lock key (id txn') t th else th)); mret d) th).2).
  { intros mode timeout d. unfold mbind, blocking_bind.
    pose proof (take_guarded (uncancelled turn) (id txn') (Table t) mode timeout th H1 Hg) as Hg1.
    destruct (take _ _ _ _ _ th) as [[[[]|e]|] th1]; [|done..]. cbn.
    by destruct (releases_table_lock_at_end_of_statement _). }
  destruct (tablockx hints); [apply Hgo|]. destruct (tablock hints); [apply Hgo|done].
Qed.

(** The end of a statement gives back an intent lock to read, not one to write. *)
Lemma mode_of_guarded th : guards_table th →
  ∃ m, mode_of true (Table tid) (held (lock_table th) (id txn)) = Some m ∧ LockMode.covers m LockMode.IX = true.
Proof.
  intros Hg. destruct (guarded_held _ _ _ _ Hg) as (h & Hh & Ht & Hc). unfold mode_of.
  set (l := filter _ _). assert (Hin : (Table tid, h_mode h) ∈ l).
  { apply list_elem_of_filter. split; [split; [done|by apply LockMode.covers_family in Hc]|]. apply elem_of_held. eauto. }
  destruct (list.last l) as [[r m]|] eqn:Hl; [|apply last_None in Hl; rewrite Hl in Hin; by apply not_elem_of_nil in Hin].
  exists m. split; [done|]. apply last_Some in Hl as [l' Hl].
  assert (Hm : (r, m) ∈ l) by (rewrite Hl; set_solver). apply list_elem_of_filter in Hm as [[Hr Hd] Hm]. cbn in Hr, Hd. subst r.
  apply elem_of_held in Hm as (h' & Hh' & Ht' & <-). apply (gd_held _ _ _ _ Hg h' Hh'). unfold lock_key. by rewrite Ht', Hd.
Qed.

Lemma end_statement_guarded txn' tables th : guards_table th → guards_table (end_statement txn' tables th).2.
Proof.
  intros Hg. unfold end_statement. generalize (dedup (omap (λ p : LockResource * LockMode, match p.1 with Table t => Some t | Row _ _ => None end)
    (held (lock_table th) (id txn')))) as ts. intros ts.
  assert (Hends : id txn = id txn' → ends_with_statement txn' (held (lock_table th) (id txn')) tables tid = false).
  { intros <-. destruct (mode_of_guarded th Hg) as (m & Hm & Hc). unfold ends_with_statement. rewrite Hm. by destruct m. }
  revert Hends. generalize (held (lock_table th) (id txn')) as h. intros h Hends. revert th Hg.
  induction ts as [|t ts IH]; intros th Hg; [done|]. cbn [for_each].
  unfold mbind, stateful_bind. destruct (ends_with_statement txn' h tables t) eqn:He; [|by apply IH].
  assert (Hg1 : guards_table (unlock_resource (id txn') (Table t) th).2).
  { apply unlock_guarded; [|done]. destruct (decide (id txn = id txn')) as [Heq|]; [right|by left].
    intros [= ->]. rewrite (Hends Heq) in He. done. }
  destruct (unlock_resource _ _ th) as [[[]|e] th1]; [by apply IH|done].
Qed.

(** What may happen while the transaction lives, but for the ends of its own table hints on [tid]:
    reads, writes, table hints and ends of statements by any transaction, and the calls of the
    lock manager by other threads. *)
Inductive row_work : Thread St → Thread St → Prop :=
  | by_read turn1 turn2 txn' t row hints th :
      lets_keep (id txn) (Table tid) turn1 → lets_keep (id txn) (Table tid) turn2 →
      row_work th (read_lock turn1 turn2 txn' t row hints th).2
  | by_end_of_read txn' t row th : row_work th (end_row_read txn' t row th).2
  | by_write turn1 turn2 txn' t row hints th :
      lets_keep (id txn) (Table tid) turn1 → lets_keep (id txn) (Table tid) turn2 →
      row_work th (write_lock turn1 turn2 txn' t row hints th).2
  | by_table_hint key turn txn' t hints th :
      lets_keep (id txn) (Table tid) turn → row_work th (table_lock key turn txn' t hints th).2
  | by_end_of_table_hint key txn' t th :
      id txn' ≠ id txn ∨ t ≠ tid → row_work th (end_table_lock key txn' t th).2
  | by_end_of_statement txn' tables th : row_work th (end_statement txn' tables th).2
  | by_another_thread op th :
      spares (id txn) (Table tid) op → row_work th (put_locks th (run_op (locks (th_tm th)) op)).

Lemma row_work_guarded th th' : rtc row_work th th' → guards_table th → guards_table th'.
Proof.
  induction 1 as [|th th1 th2 Hw _ IH]; [done|]. intros Hg. apply IH. clear IH. destruct Hw.
  - by apply read_lock_guarded.
  - by apply end_row_read_guarded.
  - by apply write_lock_guarded.
  - by apply table_lock_guarded.
  - unfold end_table_lock, take_statement_table_lock. destruct (list_find _ _) as [[pos e]|]; [|done].
    apply unlock_guarded; [|done]. destruct H as [H|H]; [left; by apply not_eq_sym|right; by intros [= ->]].
  - by apply end_statement_guarded.
  - by apply (run_op_guarded (locks (th_tm th))).
Qed.

Lemma kept_guarded th h :
  table_ok (lock_table th) → kept (lock_table th) (id txn) (Table tid) h → LockMode.covers (h_mode h) LockMode.IX = true → guards_table th.
Proof.
  intros Hok [Hh Ht Hq] Hc. assert (Hk : lock_key h = (id txn, LockMode.is_data LockMode.IX)).
  { unfold lock_key. rewrite Ht. f_equal. by apply LockMode.covers_family. }
  split.
  - rewrite <- Hk. by apply list_elem_of_fmap_2.
  - intros h' Hh' Hk'. destruct (ep_holders _ (entry_at_pre _ (Table tid) Hok)) as [_ Hnd].
    apply list_elem_of_lookup in Hh as [i Hi]. apply list_elem_of_lookup in Hh' as [j Hj].
    assert (i = j); [|congruence]. eapply NoDup_lookup; [exact Hnd|..]; rewrite list_lookup_fmap; [by rewrite Hi|].
    rewrite Hj. cbn. congruence.
  - intros w Hw [= Hw' _]. by destruct (Hq w Hw).
Qed.

Lemma guarded_stops_escalation turn th : guards_table th → maybe_escalate turn txn tid th = (Some (Ok None), th).
Proof.
  intros Hg. unfold maybe_escalate, table_data_mode. destruct (data_mode_held (id txn) (Table tid) th) eqn:Hd; [done|].
  destruct (guarded_held _ _ _ _ Hg) as (h & Hh & Ht & Hc). pose proof (data_mode_held_None _ _ _ _ Hd Hh Ht) as Hn.
  apply LockMode.covers_family in Hc. by rewrite Hc in Hn.
Qed.
End rows.
