(* ===== verification/TxnSystem.v ===== *)
(** * Histories of the transaction manager

    The sessions of a server call the manager, the storage and the lock manager from their
    own threads.  An act is one atomic step of a thread: a method that runs under the mutex of
    the manager, one of the steps a [commit] is cut in, a request to the storage or a step of
    the lock manager.  A history is any sequence of acts whose writes are made in the name of
    transactions that are open. *)

From S2P Require Import Prelude Values Errors Snapshot LockMode LockTable Deadlock LockManager.
From S2P Require Import StorageSystem Actions TxnManager.

(** Where a [commit] is between its two turns under the mutex: the deferred drops left to
    run, each an atomic call of the storage, or the outcome it brings back. *)
Inductive Stage :=
  | Dropping (todo : list CommitAction)
  | Stored (outcome : SqlResult ()).

Record Commit := mkCommit {
  c_handle : TxnHandle;
  c_log : ActionLog;
  c_stage : Stage;
}.

Record TxnSystem (St : Type) := mkTxnSystem {
  tm : TransactionManager St;
  committing : gmap TxnId Commit;
}.
Arguments mkTxnSystem {St} _ _.
Arguments tm {St} _.
Arguments committing {St} _.

Inductive Act :=
  | ABump
  | ABegin (now : N) (level : IsolationLevel)
  | ABeginIn (now : N) (db : DbId) (level : IsolationLevel)
  | AOptions (db : DbId) (opts : VersioningOptions)
  | ASnapshot (txn : TxnHandle)
  | ASavepoint (txn : TxnHandle)
  | ARollbackTo (txn : TxnHandle) (sp : SavepointId)
  | AOnCommit (txn : TxnHandle) (a : CommitAction)
  | AOnRollback (txn : TxnHandle) (a : RollbackAction)
  | ARollback (txn : TxnHandle)
  | ACommitEnter (txn : TxnHandle)
  | ACommitNext (t : TxnId)
  | ACommitLeave (t : TxnId)
  | ARequest (r : Request)
  | ALock (op : Op).

(** The transaction an act is made for. *)
Definition act_txn (a : Act) : option TxnId :=
  match a with
  | ASnapshot txn | ASavepoint txn | ARollbackTo txn _ | AOnCommit txn _ | AOnRollback txn _
  | ARollback txn | ACommitEnter txn => Some (id txn)
  | ACommitNext t | ACommitLeave t => Some t
  | ARequest (RInsert t _ _ | RUpdate t _ _ _ | RDelete t _ _) => Some t
  | _ => None
  end.

Section system.
Context `{Storage St}.

Notation Sys := (TxnSystem St).

Definition set_tm (s : Sys) (m : TransactionManager St) : Sys := mkTxnSystem m (committing s).

(** The storage calls of a commit, one at a time: a deferred drop, or the commit itself once
    none is left. *)
Definition commit_next (t : TxnId) (c : Commit) (m : TransactionManager St) :
    Commit * TransactionManager St :=
  let to stage := mkCommit (c_handle c) (c_log c) stage in
  match c_stage c with
  | Dropping (a :: todo) =>
      match on_storage (CommitAction.run a) m with
      | (Ok _, m') => (to (Dropping todo), m')
      | (Err e, m') => (to (Stored (Err e)), m')
      end
  | Dropping [] => let '(r, m') := on_storage (st_commit t) m in (to (Stored r), m')
  | Stored _ => (c, m)
  end.

Definition run_act (s : Sys) (a : Act) : Sys :=
  let m := tm s in
  match a with
  | ABump => set_tm s (bump_next_id_above_storage m)
  | ABegin now level => set_tm s (begin now level m).2
  | ABeginIn now db level => set_tm s (begin_in now db level m).2
  | AOptions db opts => set_tm s (set_versioning_options m db opts)
  | ASnapshot txn => set_tm s (statement_snapshot txn m).2
  | ASavepoint txn => set_tm s (savepoint txn m).2
  | ARollbackTo txn sp => set_tm s (rollback_to txn sp m).2
  | AOnCommit txn x => set_tm s (register_on_commit txn x m).2
  | AOnRollback txn x => set_tm s (register_on_rollback txn x m).2
  | ARollback txn => set_tm s (rollback txn m).2
  | ACommitEnter txn =>
      match commit_enter txn m with
      | (Ok l, m') =>
          mkTxnSystem m' (<[id txn := mkCommit txn l (Dropping (ActionLog.commit_actions l))]> (committing s))
      | (Err _, m') => set_tm s m'
      end
  | ACommitNext t =>
      match committing s !! t with
      | Some c => let '(c', m') := commit_next t c m in mkTxnSystem m' (<[t := c']> (committing s))
      | None => s
      end
  | ACommitLeave t =>
      match committing s !! t with
      | Some (mkCommit txn l (Stored outcome)) =>
          mkTxnSystem (commit_leave txn l outcome m).2 (delete t (committing s))
      | _ => s
      end
  | ARequest r => set_tm s (on_storage (perform r) m).2
  | ALock op => set_tm s (set_locks m (run_op (locks m) op))
  end.

Definition live (s : Sys) (t : TxnId) : Prop := is_Some (live_position (tm_state (tm s)) t).

(** What a storage asks of the rows it is given. *)
Variable typed : St → Request → Prop.

(** The snapshots the open transactions read through: the pinned ones, and the last ones handed out. *)
Definition snapshots_in_use (s : Sys) : list Snapshot :=
  open (tm_state (tm s)) ≫= λ o, option_list (pinned o) ++ option_list (last o).

(** The horizon [Storage::vacuum] asks for: at or below [xmin] of the snapshots in use; and no
    higher than what [snapshot_horizon] answers, which may itself pass the [xmin] of one. *)
Definition safe_horizon (s : Sys) (horizon : TxnId) : Prop :=
  (horizon ≤ snapshot_horizon (tm s))%N ∧ Forall (λ p, (horizon ≤ xmin p)%N) (snapshots_in_use s).

(** What the sessions owe: a write is made for an open transaction, the transactions are
    ended through the manager, and a [vacuum] is given a horizon that the storage asks for. *)
Definition session_request (s : Sys) (r : Request) : Prop :=
  match r with
  | RInsert t _ _ | RUpdate t _ _ _ => live s t ∧ typed (storage (tm s)) r
  | RDelete t _ _ => live s t
  | RCommit _ | RRollback _ | RSavepoint _ | RRollbackTo _ _ => False
  | RVacuum horizon => safe_horizon s horizon
  | _ => True
  end.

Definition act_ok (s : Sys) (a : Act) : Prop :=
  match a with ARequest r => session_request s r | _ => True end.

Definition TxnSystem_new (s : St) : Sys := mkTxnSystem (TransactionManager_new s) ∅.

Inductive txn_step (s : Sys) : Sys → Prop :=
  | txn_step_intro a : act_ok s a → txn_step s (run_act s a).

Definition txn_reachable (s0 : St) : Sys → Prop := rtc txn_step (TxnSystem_new s0).

(** The acts of the others, and the snapshots [t] itself asks for. *)
Definition leaves_alone (t : TxnId) (a : Act) : Prop :=
  match a with ASnapshot _ => True | _ => act_txn a ≠ Some t end.

Inductive step_beside (t : TxnId) (s : Sys) : Sys → Prop :=
  | step_beside_intro a : act_ok s a → leaves_alone t a → step_beside t s (run_act s a).

(** A history given by its acts, the acts that are not allowed left out. *)
Definition txn_history `{∀ s a, Decision (act_ok s a)} (s : Sys) (acts : list Act) : Sys :=
  foldl (λ s a, if decide (act_ok s a) then run_act s a else s) s acts.
End system.
