(* ===== verification/TxnFacts.v ===== *)
(** * Facts about the transaction manager

    The list of open transactions and the snapshots of [TxnManager.v] along the histories of
    [TxnSystem.v], for any storage. *)

From S2P Require Import LockMode LockTable Deadlock LockManager LockManagerFacts Prelude Values Errors Snapshot Order CollationFacts.
From S2P Require Import Compare KeyOrder Table Index MemoryStorage StorageInv StorageSystem StorageViews StorageUndo Actions TxnManager.
From S2P Require Import TxnSystem.

(** The identifiers of the open transactions. *)
Notation ids st := ((λ o, id (handle o)) <$> open st).

(** ** The list of open transactions *)

Lemma entry_of_Some st t pos o :
  entry_of st t = Some (pos, o) → open st !! pos = Some o ∧ open_id o = t.
Proof.
  unfold entry_of, position. intros (i & ([j o'] & Hf & ->)%fmap_Some & (o2 & Ho & [= -> ->])%fmap_Some)%bind_Some.
  apply list_find_Some in Hf as (Hj & <- & _). simpl in *. by simplify_eq.
Qed.

Lemma entry_of_None st t : entry_of st t = None ↔ t ∉ ids st.
Proof.
  unfold entry_of, position. destruct (list_find (λ o, open_id o = t) (open st)) as [[i o]|] eqn:Hf; simpl.
  - pose proof Hf as (Hi & Ho & _)%list_find_Some. rewrite Hi. split; [done|]. intros Hn.
    destruct Hn. apply list_elem_of_fmap. exists o. split; [done|]. by eapply list_elem_of_lookup_2.
  - split; [|done]. intros _ (o & -> & Ho)%list_elem_of_fmap.
    apply list_find_None in Hf. rewrite Forall_forall in Hf. by apply (Hf o).
Qed.

Lemma entry_of_elem st t : t ∈ ids st → ∃ pos o, entry_of st t = Some (pos, o).
Proof.
  intros Ht. destruct (entry_of st t) as [[pos o]|] eqn:He; [eauto|]. by apply entry_of_None in He.
Qed.

Lemma entry_of_ids st t pos o : entry_of st t = Some (pos, o) → t ∈ ids st.
Proof.
  intros [Ho <-]%entry_of_Some. apply list_elem_of_fmap. exists o. split; [done|].
  by eapply list_elem_of_lookup_2.
Qed.

Lemma live_entry_Some st t pos o :
  live_entry st t = Some (pos, o) ↔ entry_of st t = Some (pos, o) ∧ ending o = false.
Proof.
  unfold live_entry. destruct (entry_of st t) as [[p o']|]; simpl.
  - destruct (ending o') eqn:He; split.
    + done.
    + intros [[= <- <-] ?]. congruence.
    + by intros [= <- <-].
    + by intros [[= <- <-] _].
  - split; [done|]. by intros [? _].
Qed.

Lemma live_entry_None st t :
  live_entry st t = None ↔ ∀ pos o, entry_of st t = Some (pos, o) → ending o = true.
Proof.
  unfold live_entry. destruct (entry_of st t) as [[p o']|]; simpl; [|done].
  destruct (ending o') eqn:He; split; try done.
  - by intros _ pos o [= <- <-].
  - intros Hall. by rewrite (Hall p o' eq_refl) in He.
Qed.

(** With distinct identifiers, an entry is found by its identifier. *)
Lemma entry_of_intro st pos o :
  StronglySorted N.lt (ids st) → open st !! pos = Some o → entry_of st (open_id o) = Some (pos, o).
Proof.
  intros Hs Ho. unfold entry_of, position.
  rewrite (proj2 (list_find_Some (λ o', open_id o' = open_id o) (open st) pos o)).
  { simpl. by rewrite Ho. }
  split_and!; [done..|]. intros j o' Hj Hlt He.
  assert (N.lt (open_id o') (open_id o)); [|lia].
  by apply (StronglySorted_lookup N.lt (ids st) j pos); [..|done]; rewrite ?list_lookup_fmap, ?Hj, ?Ho.
Qed.

(** Editing an entry keeps its place. *)
Lemma entry_of_set st t pos o o' :
  entry_of st t = Some (pos, o) → handle o' = handle o →
  entry_of (set_entry pos o' st) t = Some (pos, o').
Proof.
  unfold entry_of, position. intros (i & ([j o1] & Hf & ->)%fmap_Some & (o2 & Ho & [= <- <-])%fmap_Some)%bind_Some Hh.
  simpl in *. apply list_find_Some in Hf as (Hj & Hid & Hlt). rewrite Ho in Hj. injection Hj as <-.
  assert (Hlen : pos < length (open st)) by (by eapply lookup_lt_Some).
  rewrite (proj2 (list_find_Some (λ x, open_id x = t) (<[pos:=o']> (open st)) pos o')).
  - simpl. by rewrite list_lookup_insert_eq.
  - rewrite list_lookup_insert_eq by done. split_and!; [done|by rewrite Hh|].
    intros k y Hk Hkj. rewrite list_lookup_insert_ne in Hk by lia. by apply (Hlt k).
Qed.

Lemma set_entry_twice st pos o o' : set_entry pos o' (set_entry pos o st) = set_entry pos o' st.
Proof. unfold set_entry. simpl. by rewrite list_insert_insert_eq. Qed.

Lemma set_entry_same st pos o : open st !! pos = Some o → set_entry pos o st = st.
Proof. intros Ho. unfold set_entry. rewrite list_insert_id by done. by destruct st. Qed.

Lemma remove_set_entry st pos o : remove_entry pos (set_entry pos o st) = remove_entry pos st.
Proof.
  unfold remove_entry, set_entry. simpl. f_equal. rewrite !delete_take_drop.
  rewrite take_insert_ge, drop_insert_lt by lia. done.
Qed.

(** ** Snapshots *)

(** What a snapshot of [t] keeps away from it, in every state from the one it was built in. *)
Record snap_ok (st : State) (t : TxnId) (p : Snapshot) : Prop := {
  sn_own : own p = t;
  sn_xmax : (xmax p ≤ next_id st)%N;
  sn_unseen : ∀ t', t' ∈ ids st → t' ≠ t → unseen p t';
  sn_sorted : StronglySorted N.lt (active p);
  sn_bounds : (xmin p ≤ xmax p)%N ∧ Forall (λ a, (xmin p ≤ a < xmax p)%N) (active p);
}.

Lemma elem_of_active st t t' : t' ∈ active (snapshot_for st t) ↔ t' ∈ ids st ∧ t' ≠ t.
Proof. simpl. rewrite list_elem_of_filter. tauto. Qed.

(** Exactly the unfinished are unseen. *)
Lemma snapshot_for_unseen st t t' :
  unseen (snapshot_for st t) t' ↔ t' ≠ t ∧ (t' ∈ ids st ∨ (next_id st ≤ t')%N).
Proof. unfold unseen. rewrite elem_of_active. simpl. tauto. Qed.

Lemma foldl_min_spec x l : (foldl N.min x l ≤ x)%N ∧ Forall (λ y, (foldl N.min x l ≤ y)%N) l ∧
  (foldl N.min x l = x ∨ foldl N.min x l ∈ l).
Proof.
  revert x. induction l as [|y l IH]; intros x; simpl; [split_and!; [lia|constructor|by left]|].
  destruct (IH (N.min x y)) as (Hle & Hall & Hin). split; [lia|]. split.
  - constructor; [lia|done].
  - destruct Hin as [Heq|Hin]; [|right; by right]. rewrite Heq.
    destruct (N.min_spec x y) as [[_ ->]|[_ ->]]; [by left|right; by left].
Qed.

Lemma oldest_open_spec st :
  match oldest_open st with
  | None => ids st = []
  | Some t => t ∈ ids st ∧ Forall (λ t', (t ≤ t')%N) (ids st)
  end.
Proof.
  unfold oldest_open. destruct (ids st) as [|x l]; [done|]. cbn [minimum].
  destruct (foldl_min_spec x l) as (Hle & Hall & Hin). split; [|by constructor].
  destruct Hin as [->|Hin]; [by left|by right].
Qed.

Lemma snapshot_for_ok st t :
  StronglySorted N.lt (ids st) → Forall (λ t, (t < next_id st)%N) (ids st) →
  snap_ok st t (snapshot_for st t).
Proof.
  intros Hs Hf. split; [done|simpl; lia| | |].
  - intros t' Hin Hne. split; [done|]. right. by apply elem_of_active.
  - eapply StronglySorted_sublist; [exact Hs|]. apply sublist_filter.
  - pose proof (oldest_open_spec st) as Ho. simpl. destruct (oldest_open st) as [m|]; simpl.
    + destruct Ho as [Hin Hall]. rewrite Forall_forall in Hf, Hall. split; [apply N.lt_le_incl; by apply Hf|].
      apply Forall_forall. intros a [_ Ha]%list_elem_of_filter. split; [by apply Hall|by apply Hf].
    + rewrite Ho. split; [lia|constructor].
Qed.

(** ** The invariant *)

Record state_ok (st : State) : Prop := {
  sk_sorted : StronglySorted N.lt (ids st);
  sk_fresh : Forall (λ t, (t < next_id st)%N) (ids st);
  sk_snaps : ∀ o p, o ∈ open st → pinned o = Some p ∨ last o = Some p → snap_ok st (open_id o) p;
}.

(** What an act does to the list: for which transaction, and whether it is one of the turns
    of a [commit], which alone may change [ending]. *)
Inductive state_step (st : State) : option TxnId → bool → State → Prop :=
  | ss_bump who turn n : (next_id st ≤ n)%N → state_step st who turn (mkState n (open st))
  | ss_open o :
      open_id o = next_id st → pinned o = None → last o = None → ending o = false →
      state_step st None false (mkState (saturating_succ (next_id st)) (open st ++ [o]))
  | ss_edit turn pos o o' :
      open st !! pos = Some o → handle o' = handle o →
      (pinned o' = pinned o ∨ pinned o = None ∧ pinned o' = Some (snapshot_for st (open_id o))) →
      (last o' = last o ∨ last o' = Some (snapshot_for st (open_id o))) →
      (turn = false → ending o' = ending o) →
      state_step st (Some (open_id o)) turn (set_entry pos o' st)
  | ss_remove turn pos o :
      open st !! pos = Some o → (turn = false → ending o = false) →
      state_step st (Some (open_id o)) turn (remove_entry pos st).

Lemma state_step_refl st who turn : state_step st who turn st.
Proof. destruct st as [n l]. by apply (ss_bump (mkState n l)). Qed.

Lemma snap_ok_mono st st' t p :
  (next_id st ≤ next_id st')%N →
  (∀ t', t' ∈ ids st' → t' ∈ ids st ∨ (next_id st ≤ t')%N) →
  snap_ok st t p → snap_ok st' t p.
Proof.
  intros Hn Hin [Ho Hx Hu Hs Hb]. split; [done|lia| |done|done]. intros t' Ht Hne.
  destruct (Hin t' Ht) as [Ht'|Hge]; [by apply Hu|]. split; [by rewrite Ho|]. left. lia.
Qed.

Lemma ids_set_entry st pos o o' :
  open st !! pos = Some o → handle o' = handle o → ids (set_entry pos o' st) = ids st.
Proof.
  intros Ho Hh. simpl. rewrite list_fmap_insert, Hh. apply list_insert_id.
  by rewrite list_lookup_fmap, Ho.
Qed.

Lemma elem_of_set {A} (l : list A) i x y : y ∈ <[i:=x]> l → y = x ∨ y ∈ l.
Proof.
  intros (j & Hj)%list_elem_of_lookup. apply list_lookup_insert_Some in Hj as [(_ & -> & _)|[_ Hj]].
  - by left.
  - right. by eapply list_elem_of_lookup_2.
Qed.

Lemma state_step_next st who turn st' :
  state_step st who turn st' → (next_id st' < u64_max)%N → (next_id st ≤ next_id st')%N.
Proof.
  intros [? ? n Hn|o _ _ _ _|? pos o o' _ _ _ _ _|? pos o _ _]; simpl; try lia.
  intros Hlt. unfold saturating_succ in *. destruct (N.ltb_spec (next_id st) u64_max); lia.
Qed.

Lemma state_step_ok st who turn st' :
  state_step st who turn st' → (next_id st' < u64_max)%N → state_ok st → state_ok st'.
Proof.
  intros Hstep Hlt [Hs Hf Hp]. pose proof (state_step_next _ _ _ _ Hstep Hlt) as Hmono.
  destruct Hstep as [? ? n Hn|o Hid Hpin Hlast _|? pos o o' Ho Hh Hpin Hlast _|? pos o Ho _].
  - split; simpl; [done| |].
    + eapply Forall_impl; [exact Hf|]. simpl. lia.
    + intros o p Hin Hor. eapply snap_ok_mono; [done| |by apply (Hp o p)]. naive_solver.
  - simpl in Hlt, Hmono. rewrite saturating_succ_lt in Hlt |- *.
    2-3: unfold saturating_succ in *; destruct (N.ltb_spec (next_id st) u64_max); lia.
    split; simpl.
    + rewrite fmap_app. apply StronglySorted_app. split_and!; [|done|repeat constructor].
      intros a b Ha ->%list_elem_of_singleton. rewrite Forall_forall in Hf. rewrite Hid. by apply Hf.
    + rewrite fmap_app. apply Forall_app. split; [|constructor; [rewrite Hid; lia|constructor]].
      eapply Forall_impl; [exact Hf|]. simpl. lia.
    + intros o' p [Hin| ->%list_elem_of_singleton]%elem_of_app Hor; [|naive_solver].
      eapply snap_ok_mono; [| |by apply (Hp o' p)]; simpl; [lia|]. intros t'. rewrite fmap_app.
      intros [?| ->%list_elem_of_singleton]%elem_of_app; [by left|right]. rewrite Hid. lia.
  - pose proof (ids_set_entry st pos o o' Ho Hh) as Hids. split.
    + by rewrite Hids.
    + by rewrite Hids.
    + intros o2 p Hin Hor.
      assert (Hsame : ∀ t, snap_ok st t p → snap_ok (set_entry pos o' st) t p).
      { intros t. apply snap_ok_mono; [done|]. rewrite Hids. naive_solver. }
      apply Hsame. apply elem_of_set in Hin as [->|Hin].
      * rewrite Hh. assert (Hop : o ∈ open st) by (by eapply list_elem_of_lookup_2).
        pose proof (snapshot_for_ok st (open_id o) Hs Hf) as Hfresh.
        destruct Hor as [Hor|Hor].
        -- destruct Hpin as [Hpin|[_ Hpin]]; rewrite Hpin in Hor; [apply Hp; auto|].
           by injection Hor as <-.
        -- destruct Hlast as [Hlast|Hlast]; rewrite Hlast in Hor; [apply Hp; auto|].
           by injection Hor as <-.
      * by apply Hp.
  - assert (Hsub : ids (remove_entry pos st) `sublist_of` ids st)
      by (simpl; rewrite list_fmap_delete; apply sublist_delete).
    split; simpl in *.
    + by eapply StronglySorted_sublist.
    + eapply Forall_submseteq_inv; [done|]. by apply sublist_submseteq.
    + intros o2 p Hin Hor. eapply snap_ok_mono; [done| |apply Hp; [by eapply elem_of_delete|done]].
      intros t' Ht. left. by eapply elem_of_submseteq, sublist_submseteq.
Qed.

(** A transaction of the list was there before, or is new. *)
Lemma state_step_ids st who turn st' t : state_step st who turn st' → t ∈ ids st' → t ∈ ids st ∨ (next_id st ≤ t)%N.
Proof.
  intros [? ? n Hn|o Hid _ _ _|? pos o o' Ho Hh _ _ _|? pos o Ho _].
  - by left.
  - simpl. rewrite fmap_app. intros [?| ->%list_elem_of_singleton]%elem_of_app; [by left|right]. rewrite Hid. lia.
  - rewrite (ids_set_entry st pos o o' Ho Hh). by left.
  - intros Ht. left. revert Ht. simpl. rewrite list_fmap_delete. apply elem_of_delete.
Qed.

(** ** The list as a map *)

Definition find_open (st : State) (t : TxnId) : option Open := snd <$> entry_of st t.

Lemma find_open_Some st t o :
  StronglySorted N.lt (ids st) → find_open st t = Some o ↔ o ∈ open st ∧ open_id o = t.
Proof.
  intros Hs. unfold find_open. rewrite fmap_Some. split.
  - intros ([pos o'] & [Ho Hid]%entry_of_Some & ->). split; [|done]. by eapply list_elem_of_lookup_2.
  - intros [(pos & Ho)%list_elem_of_lookup <-]. exists (pos, o). split; [|done]. by apply entry_of_intro.
Qed.

Lemma find_open_entry st t pos o : entry_of st t = Some (pos, o) → find_open st t = Some o.
Proof. unfold find_open. by intros ->. Qed.

Lemma find_open_None st t : find_open st t = None ↔ t ∉ ids st.
Proof. unfold find_open. by rewrite fmap_None, entry_of_None. Qed.

Lemma open_unique st o o' :
  StronglySorted N.lt (ids st) → o ∈ open st → o' ∈ open st → open_id o = open_id o' → o = o'.
Proof.
  intros Hs Ho Ho' Hid.
  assert (H1 : find_open st (open_id o) = Some o) by (by apply find_open_Some).
  assert (H2 : find_open st (open_id o) = Some o') by (by apply find_open_Some). congruence.
Qed.

Lemma find_open_set st pos o o' t :
  state_ok st → open st !! pos = Some o → handle o' = handle o →
  find_open (set_entry pos o' st) t = if decide (t = open_id o) then Some o' else find_open st t.
Proof.
  intros [Hs _ _] Ho Hh. pose proof (ids_set_entry st pos o o' Ho Hh) as Hids.
  assert (Hs' : StronglySorted N.lt (ids (set_entry pos o' st))) by (by rewrite Hids).
  assert (Hpos : pos < length (open st)) by (by eapply lookup_lt_Some).
  apply option_eq. intros o2. rewrite find_open_Some by done. destruct (decide (t = open_id o)) as [->|Hne].
  - split.
    + intros [Hin Hid]. f_equal. apply (open_unique (set_entry pos o' st)); [done| |done|congruence].
      by apply list_elem_of_insert.
    + intros [= ->]. rewrite Hh. split; [|done]. by apply list_elem_of_insert.
  - rewrite find_open_Some by done. split.
    + intros [[->|Hin]%elem_of_set Hid]; [|done]. by rewrite Hh in Hid.
    + intros [(j & Hj)%list_elem_of_lookup Hid]. split; [|done]. apply (list_elem_of_lookup_2 _ j).
      simpl. rewrite list_lookup_insert_ne; [done|]. intros ->. simplify_eq.
Qed.

Lemma find_open_remove st pos o t :
  state_ok st → open st !! pos = Some o →
  find_open (remove_entry pos st) t = if decide (t = open_id o) then None else find_open st t.
Proof.
  intros [Hs _ _] Ho.
  assert (Hs' : StronglySorted N.lt (ids (remove_entry pos st))).
  { eapply StronglySorted_sublist; [exact Hs|]. simpl. rewrite list_fmap_delete. apply sublist_delete. }
  pose proof (delete_perm _ _ _ Ho) as Hperm. apply option_eq. intros o2.
  rewrite find_open_Some by done. destruct (decide (t = open_id o)) as [->|Hne].
  - split; [|done]. intros [Hin Hid]. exfalso.
    assert (Hnd : NoDup (ids st)).
    { clear -Hs. induction Hs as [|x l _ IH Hx]; constructor; [|done].
      intros Hin. rewrite Forall_forall in Hx. specialize (Hx x Hin). lia. }
    rewrite Hperm in Hnd. csimpl in Hnd. apply NoDup_cons in Hnd as [Hnot _]. apply Hnot.
    apply list_elem_of_fmap. by exists o2.
  - rewrite find_open_Some by done. rewrite Hperm. rewrite elem_of_cons. simpl.
    split; [intros [? ?]; auto|]. intros [[->|?] ?]; [done|auto].
Qed.

Lemma find_open_append st o t :
  state_ok st → (next_id st < u64_max)%N → open_id o = next_id st →
  find_open (mkState (saturating_succ (next_id st)) (open st ++ [o])) t =
  if decide (t = next_id st) then Some o else find_open st t.
Proof.
  intros [Hs Hf _] Hlt Hid. assert (Hs' : StronglySorted N.lt (ids (mkState 0 (open st ++ [o])))).
  { simpl. rewrite fmap_app. apply StronglySorted_app. split_and!; [|done|repeat constructor].
    intros a b Ha ->%list_elem_of_singleton. rewrite Forall_forall in Hf. rewrite Hid. by apply Hf. }
  apply option_eq. intros o2. rewrite find_open_Some by done. simpl. rewrite elem_of_app, list_elem_of_singleton.
  destruct (decide (t = next_id st)) as [->|Hne].
  - split; [|intros [= ->]; auto]. intros [[Hin| ->] Hid2]; [|done]. exfalso.
    rewrite Forall_forall in Hf. assert (Hx : (open_id o2 < next_id st)%N); [|lia].
    apply Hf, list_elem_of_fmap. eauto.
  - rewrite find_open_Some by done. split; [intros [[?| ->] ?]; [done|congruence]|]. intros [? ?]; auto.
Qed.

(** The entry of [t] is the business of [t] alone. *)
Lemma find_open_other st who turn st' t :
  state_step st who turn st' → (next_id st' < u64_max)%N → state_ok st → who ≠ Some t →
  t ∈ ids st → find_open st' t = find_open st t.
Proof.
  intros Hstep Hlt Hok Hwho Ht. pose proof (state_step_next _ _ _ _ Hstep Hlt) as Hmono.
  pose proof (sk_fresh _ Hok) as Hf. rewrite Forall_forall in Hf. specialize (Hf t Ht). simpl in Hf.
  destruct Hstep as [? ? n Hn|o Hid _ _ _|? pos o o' Ho Hh _ _ _|? pos o Ho _].
  - done.
  - rewrite find_open_append by (done || lia). rewrite decide_False by lia. done.
  - rewrite (find_open_set st pos o o') by done. rewrite decide_False; [done|]. by intros ->.
  - rewrite (find_open_remove st pos o) by done. rewrite decide_False; [done|]. by intros ->.
Qed.

(** A step that is no turn of a [commit] changes no [ending] mark. *)
Definition is_ending (st : State) (t : TxnId) : Prop := ∃ o, find_open st t = Some o ∧ ending o = true.

Lemma is_ending_step st who st' t :
  state_step st who false st' → (next_id st' < u64_max)%N → state_ok st →
  is_ending st' t ↔ is_ending st t.
Proof.
  intros Hstep Hlt Hok. pose proof (state_step_next _ _ _ _ Hstep Hlt) as Hmono. unfold is_ending.
  inversion Hstep as [? ? n Hn|o Hid _ _ He|? pos o o' Ho Hh _ _ He|? pos o Ho He]; subst.
  - done.
  - rewrite find_open_append by (done || lia). destruct (decide (t = next_id st)) as [->|]; [|done].
    assert (Hn : find_open st (next_id st) = None).
    { apply find_open_None. intros Hin. pose proof (sk_fresh _ Hok) as Hf.
      rewrite Forall_forall in Hf. specialize (Hf _ Hin). simpl in Hf. lia. }
    rewrite Hn. split; intros (o2 & [= <-] & Ho2). congruence.
  - rewrite (find_open_set st pos o o') by done. destruct (decide (t = open_id o)) as [->|]; [|done].
    assert (Hfo : find_open st (open_id o) = Some o).
    { apply find_open_Some; [apply Hok|]. split; [by eapply list_elem_of_lookup_2|done]. }
    rewrite Hfo. specialize (He eq_refl). split; intros (o2 & [= <-] & Ho2); eexists; split; [done|congruence|done|congruence].
  - rewrite (find_open_remove st pos o) by done. destruct (decide (t = open_id o)) as [->|]; [|done].
    assert (Hfo : find_open st (open_id o) = Some o).
    { apply find_open_Some; [apply Hok|]. split; [by eapply list_elem_of_lookup_2|done]. }
    rewrite Hfo. specialize (He eq_refl). split; [by intros (? & ? & _)|]. intros (o2 & [= <-] & Ho2). congruence.
Qed.

(** ** Histories *)

Definition is_turn (a : Act) : bool :=
  match a with ACommitEnter _ | ACommitLeave _ => true | _ => false end.

Section histories.
Context `{Storage St}.

Notation Sys := (TxnSystem St).
Notation state_of s := (tm_state (tm s)).

Record system_ok (s : Sys) : Prop := {
  sy_state : state_ok (state_of s);
  sy_handle : ∀ t c, committing s !! t = Some c → id (c_handle c) = t;
  sy_ending : ∀ t, is_Some (committing s !! t) ↔ is_ending (state_of s) t;
}.

Lemma on_storage_state {A} (f : stateful St SqlError A) (m : TransactionManager St) :
  tm_state (on_storage f m).2 = tm_state m ∧ locks (on_storage f m).2 = locks m.
Proof. unfold on_storage. by destruct (f (storage m)). Qed.

(** An assignment to the log of a live transaction. *)
Lemma update_log_step t f (m : TransactionManager St) :
  state_step (tm_state m) (Some t) false (tm_state (update_log t f m)).
Proof.
  unfold update_log. destruct (live_entry _ t) as [[pos o]|] eqn:Hl; [|apply state_step_refl].
  apply live_entry_Some in Hl as [[Ho <-]%entry_of_Some He].
  apply (ss_edit (tm_state m) false pos o); [done..|by left|by left|done].
Qed.

Lemma open_in_step now db level (m : TransactionManager St) :
  state_step (tm_state m) None false (tm_state (open_in now db level m).2).
Proof. by apply ss_open. Qed.

Lemma statement_snapshot_step txn (m : TransactionManager St) :
  state_step (tm_state m) (Some (id txn)) false (tm_state (statement_snapshot txn m).2).
Proof.
  unfold statement_snapshot. destruct (entry_of _ _) as [[pos o]|] eqn:He; [|apply state_step_refl].
  apply entry_of_Some in He as [Ho Hid]. rewrite <- Hid.
  destruct (pinned o) as [p|] eqn:Hp; [apply state_step_refl|].
  destruct (decide _); apply (ss_edit (tm_state m) false pos o); auto.
Qed.

Lemma rollback_step txn (m : TransactionManager St) :
  state_step (tm_state m) (Some (id txn)) false (tm_state (rollback txn m).2).
Proof.
  unfold rollback. destruct (live_entry _ _) as [[pos o]|] eqn:Hl; [|apply state_step_refl].
  apply live_entry_Some in Hl as [[Ho Hid]%entry_of_Some He]. unfold mbind, stateful_bind.
  destruct (on_storage (ActionLog.run_on_rollback (log o)) m) as [r1 m1] eqn:H1.
  pose proof (on_storage_state (ActionLog.run_on_rollback (log o)) m) as [E1 _]. rewrite H1 in E1. simpl in E1.
  destruct r1; [|simpl; rewrite E1; apply state_step_refl].
  destruct (on_storage (st_rollback (id txn)) m1) as [r2 m2] eqn:H2.
  pose proof (on_storage_state (st_rollback (id txn)) m1) as [E2 _]. rewrite H2 in E2. simpl in E2.
  destruct r2; simpl; rewrite E2, E1; [|apply state_step_refl]. rewrite <- Hid. by apply (ss_remove _ false pos o).
Qed.

Lemma savepoint_step txn (m : TransactionManager St) :
  state_step (tm_state m) (Some (id txn)) false (tm_state (savepoint txn m).2).
Proof.
  unfold savepoint. destruct (live_position _ _); [|apply state_step_refl]. unfold mbind, stateful_bind.
  destruct (on_storage (st_savepoint (id txn)) m) as [r1 m1] eqn:H1.
  pose proof (on_storage_state (st_savepoint (id txn)) m) as [E1 _]. rewrite H1 in E1. simpl in E1.
  destruct r1; simpl; rewrite <- E1; [|apply state_step_refl]. apply update_log_step.
Qed.

Lemma rollback_to_step txn sp (m : TransactionManager St) :
  state_step (tm_state m) (Some (id txn)) false (tm_state (rollback_to txn sp m).2).
Proof.
  unfold rollback_to. destruct (live_entry _ _) as [[pos o]|] eqn:Hl; [|apply state_step_refl].
  apply live_entry_Some in Hl as [[Ho Hid]%entry_of_Some He].
  destruct (ActionLog.position_of (log o) sp) as [i|]; [|apply state_step_refl].
  destruct (ActionLog.unwind_after (log o) i (storage m)) as [[r l] s].
  assert (Hstep : state_step (tm_state m) (Some (id txn)) false (set_entry pos (with_log o l) (tm_state m))).
  { rewrite <- Hid. apply (ss_edit (tm_state m) false pos o); auto. }
  destruct r; [|done]. by rewrite (proj1 (on_storage_state _ _)).
Qed.

Lemma commit_leave_step txn l outcome (m : TransactionManager St) :
  state_step (tm_state m) (Some (id txn)) true (tm_state (commit_leave txn l outcome m).2).
Proof.
  unfold commit_leave. destruct (entry_of _ _) as [[pos o]|] eqn:He; [|apply state_step_refl].
  apply entry_of_Some in He as [Ho Hid]. rewrite <- Hid. destruct outcome.
  - by apply (ss_remove _ true pos o).
  - apply (ss_edit (tm_state m) true pos o); auto. done.
Qed.

Lemma commit_enter_step txn (m : TransactionManager St) :
  state_step (tm_state m) (Some (id txn)) true (tm_state (commit_enter txn m).2).
Proof.
  unfold commit_enter. destruct (live_entry _ _) as [[pos o]|] eqn:Hl; [|apply state_step_refl].
  apply live_entry_Some in Hl as [[Ho Hid]%entry_of_Some He]. rewrite <- Hid.
  apply (ss_edit (tm_state m) true pos o); auto. done.
Qed.

Lemma commit_next_state t c (m : TransactionManager St) :
  tm_state (commit_next t c m).2 = tm_state m ∧ c_handle (commit_next t c m).1 = c_handle c.
Proof.
  unfold commit_next. destruct (c_stage c) as [[|a todo]|]; [| |done].
  - destruct (on_storage (st_commit t) m) as [r m'] eqn:Hr.
    pose proof (on_storage_state (st_commit t) m) as [E _]. by rewrite Hr in E.
  - destruct (on_storage (CommitAction.run a) m) as [r m'] eqn:Hr.
    pose proof (on_storage_state (CommitAction.run a) m) as [E _]. rewrite Hr in E. by destruct r.
Qed.

Lemma run_act_step s a :
  (∀ t c, committing s !! t = Some c → id (c_handle c) = t) →
  state_step (state_of s) (act_txn a) (is_turn a) (state_of (run_act s a)).
Proof.
  intros Hh. destruct a as [| | | | | | |txn a|txn a| |txn|t|t|r|]; simpl; try apply state_step_refl.
  - unfold bump_next_id_above_storage. case_match; [|apply state_step_refl].
    simpl. apply ss_bump. by apply N.lt_le_incl, N.ltb_lt.
  - apply open_in_step.
  - unfold begin_in. destruct (_ && _); [apply state_step_refl|]. apply open_in_step.
  - apply statement_snapshot_step.
  - apply savepoint_step.
  - apply rollback_to_step.
  - unfold register_on_commit. destruct (log_of _ _); [|apply state_step_refl]. apply update_log_step.
  - unfold register_on_rollback. destruct (log_of _ _); [|apply state_step_refl]. apply update_log_step.
  - apply rollback_step.
  - pose proof (commit_enter_step txn (tm s)) as Hs. by destruct (commit_enter txn (tm s)) as [[]].
  - destruct (committing s !! t) as [c|]; [|apply state_step_refl].
    pose proof (commit_next_state t c (tm s)) as [E _]. destruct (commit_next t c (tm s)). simpl in *.
    rewrite E. apply state_step_refl.
  - destruct (committing s !! t) as [[txn l [|outcome]]|] eqn:Hc; simpl; try apply state_step_refl.
    apply Hh in Hc. simpl in Hc. rewrite <- Hc. apply commit_leave_step.
  - rewrite (proj1 (on_storage_state _ _)). apply state_step_refl.
Qed.

(** *** The commits under way *)

Lemma commit_enter_ok s txn l m' :
  system_ok s → commit_enter txn (tm s) = (Ok l, m') →
  ∃ pos o, live_entry (state_of s) (id txn) = Some (pos, o) ∧ l = log o ∧
    ∀ t, is_ending (tm_state m') t ↔ t = id txn ∨ is_ending (state_of s) t.
Proof.
  intros Hok. unfold commit_enter. destruct (live_entry _ _) as [[pos o]|] eqn:Hl; [|done].
  intros [= <- <-]. exists pos, o. split; [done|]. split; [done|]. intros t.
  apply live_entry_Some in Hl as [[Ho Hid]%entry_of_Some He]. unfold is_ending. simpl.
  rewrite (find_open_set _ pos o) by (done || apply Hok). rewrite Hid.
  destruct (decide (t = id txn)) as [->|Hne]; [|naive_solver].
  split; [by left|]. intros _. by eexists.
Qed.

Lemma commit_leave_ok s t txn l outcome :
  system_ok s → committing s !! t = Some (mkCommit txn l (Stored outcome)) →
  (commit_leave txn l outcome (tm s)).1 = outcome ∧
  ∀ t', is_ending (tm_state (commit_leave txn l outcome (tm s)).2) t' ↔
    t' ≠ t ∧ is_ending (state_of s) t'.
Proof.
  intros Hok Hc. pose proof (sy_handle _ Hok _ _ Hc) as Hid. simpl in Hid.
  destruct (proj1 (sy_ending _ Hok t) (ex_intro _ _ Hc)) as (o & Hfo & He).
  unfold commit_leave. unfold find_open in Hfo. apply fmap_Some in Hfo as ([pos o'] & Hen & ->).
  rewrite Hid, Hen. simpl in *. apply entry_of_Some in Hen as [Ho Hid'].
  destruct outcome as [[]|e]; simpl; (split; [done|]); intros t'; unfold is_ending; simpl.
  - rewrite (find_open_remove _ pos o') by (done || apply Hok). rewrite Hid'.
    destruct (decide (t' = t)); naive_solver.
  - rewrite (find_open_set _ pos o') by (done || apply Hok). rewrite Hid'.
    destruct (decide (t' = t)); [|naive_solver]. split; [|naive_solver]. by intros (? & [= <-] & ?).
Qed.

Lemma run_act_ok s a :
  system_ok s → (next_id (state_of (run_act s a)) < u64_max)%N → system_ok (run_act s a).
Proof.
  intros Hok Hlt. pose proof (run_act_step s a (sy_handle _ Hok)) as Hstep.
  assert (Hst : state_ok (state_of (run_act s a))) by (by eapply state_step_ok; [..|apply Hok]).
  assert (Hsame : committing (run_act s a) = committing s → is_turn a = false → system_ok (run_act s a)).
  { intros Hc Ht. split; [done|rewrite Hc; apply Hok|]. intros t. rewrite Hc, (sy_ending _ Hok). symmetry.
    rewrite Ht in Hstep. by eapply is_ending_step; [..|apply Hok]. }
  destruct a as [| | | | | | | | | |txn|t|t| |]; try by apply Hsame.
  - simpl in *. destruct (commit_enter txn (tm s)) as [[l|e] m'] eqn:He; simpl in *.
    + destruct (commit_enter_ok _ _ _ _ Hok He) as (pos & o & _ & _ & Hend). split; [done| |].
      * intros t c. simpl. rewrite lookup_insert_Some. intros [[<- <-]|[_ Hc]]; [done|by apply Hok].
      * intros t. simpl. rewrite Hend, <- (sy_ending _ Hok), lookup_insert_is_Some'. naive_solver.
    + revert He. unfold commit_enter. destruct (live_entry _ _) as [[]|]; [done|]. intros [= _ <-]. clear -Hok. destruct s. exact Hok.
  - simpl in *. destruct (committing s !! t) as [c|] eqn:Hc; [|by apply Hsame].
    pose proof (commit_next_state t c (tm s)) as [E Eh]. destruct (commit_next t c (tm s)) as [c' m']. simpl in *.
    split; [done| |].
    * intros t' c2. simpl. rewrite lookup_insert_Some. intros [[<- <-]|[_ Hc2]]; [|by apply Hok].
      rewrite Eh. by apply Hok.
    * intros t'. simpl. rewrite E, <- (sy_ending _ Hok), lookup_insert_is_Some'.
      split; [|auto]. intros [<-|]; [by rewrite Hc|done].
  - simpl in *. destruct (committing s !! t) as [[txn l [|outcome]]|] eqn:Hc; simpl in *; try exact Hok.
    destruct (commit_leave_ok _ _ _ _ _ Hok Hc) as [_ Hend]. split; [done| |].
    * intros t' c2. simpl. rewrite lookup_delete_Some. intros [_ Hc2]. by apply Hok.
    * intros t'. simpl. rewrite Hend, <- (sy_ending _ Hok), lookup_delete_is_Some. naive_solver.
Qed.

Lemma TxnSystem_new_ok s0 : system_ok (TxnSystem_new s0).
Proof.
  split; simpl.
  - split; simpl; [constructor|constructor|]. intros o p Hin. by apply not_elem_of_nil in Hin.
  - intros t c. by rewrite lookup_empty.
  - intros t. split; [intros [c Hc]; by rewrite lookup_empty in Hc|]. intros (o & Hf & _). done.
Qed.

Definition handles_ok (s : Sys) : Prop := ∀ t c, committing s !! t = Some c → id (c_handle c) = t.

Lemma run_act_handles s a : handles_ok s → handles_ok (run_act s a).
Proof.
  intros Hh. destruct a as [| | | | | | | | | |txn|t|t| |]; try exact Hh; simpl.
  - destruct (commit_enter txn (tm s)) as [[l|e] m']; [|exact Hh]. intros t c. simpl.
    rewrite lookup_insert_Some. intros [[<- <-]|[_ Hc]]; [done|by apply Hh].
  - destruct (committing s !! t) as [c|] eqn:Hc; [|exact Hh].
    pose proof (commit_next_state t c (tm s)) as [_ Eh]. destruct (commit_next t c (tm s)) as [c' m'].
    intros t' c2. simpl in *. rewrite lookup_insert_Some. intros [[<- <-]|[_ Hc2]]; [|by apply Hh].
    rewrite Eh. by apply Hh.
  - destruct (committing s !! t) as [[txn l [|outcome]]|]; [exact Hh| |exact Hh].
    intros t' c2. simpl. rewrite lookup_delete_Some. intros [_ Hc2]. by apply Hh.
Qed.

(** The counter only grows, so a history that has not used up the identifiers never had. *)
Lemma run_act_next s a :
  handles_ok s → (next_id (state_of (run_act s a)) < u64_max)%N →
  (next_id (state_of s) ≤ next_id (state_of (run_act s a)))%N.
Proof. intros Hok Hlt. eapply state_step_next; [|done]. by apply run_act_step. Qed.

Lemma reachable_handles typed s0 s : txn_reachable typed s0 s → handles_ok s.
Proof.
  revert s. apply (rtc_ind_r handles_ok).
  - intros t c. simpl. by rewrite lookup_empty.
  - intros s1 s2 _ Hstep IH. destruct Hstep as [a Hal]. by apply run_act_handles.
Qed.

Lemma reachable_system_ok typed s0 s :
  txn_reachable typed s0 s → (next_id (state_of s) < u64_max)%N → system_ok s.
Proof.
  revert s. apply (rtc_ind_r (λ s, (next_id (state_of s) < u64_max)%N → system_ok s)).
  - intros _. apply TxnSystem_new_ok.
  - intros s1 s2 Hr Hstep IH. apply reachable_handles in Hr. destruct Hstep as [a Hal].
    intros Hlt. apply run_act_ok; [|done]. apply IH. pose proof (run_act_next s1 a Hr Hlt). lia.
Qed.

(** *** The lock table *)

Lemma rollback_locks txn (m : TransactionManager St) :
  locks (rollback txn m).2 = locks m ∨ locks (rollback txn m).2 = manager_release_all (locks m) (id txn).
Proof.
  unfold rollback. destruct (live_entry _ _) as [[pos o]|]; [|by left]. unfold mbind, stateful_bind.
  pose proof (on_storage_state (ActionLog.run_on_rollback (log o)) m) as [_ E1].
  destruct (on_storage _ m) as [[[]|] m1]; simpl in E1; [|by left].
  pose proof (on_storage_state (st_rollback (id txn)) m1) as [_ E2].
  destruct (on_storage _ m1) as [[[]|] m2]; simpl in *; rewrite E2, E1; [by right|by left].
Qed.

(** Every act is a step of the lock manager, or leaves it alone. *)
Lemma run_act_locks s a :
  locks (tm (run_act s a)) = locks (tm s) ∨ ∃ op, locks (tm (run_act s a)) = run_op (locks (tm s)) op.
Proof.
  assert (Hlog : ∀ t f (m : TransactionManager St), locks (update_log t f m) = locks m).
  { intros t f m. unfold update_log. by destruct (live_entry _ _) as [[]|]. }
  destruct a as [| | | |txn|txn|txn sp|txn a|txn a|txn|txn|t|t|r|op]; simpl; try by left.
  - unfold bump_next_id_above_storage. case_match; by left.
  - unfold begin_in. destruct (_ && _); by left.
  - unfold statement_snapshot. destruct (entry_of _ _) as [[pos o]|]; [|by left].
    destruct (pinned o); [by left|]. destruct (decide _); by left.
  - unfold savepoint. destruct (live_position _ _); [|by left]. unfold mbind, stateful_bind.
    pose proof (on_storage_state (st_savepoint (id txn)) (tm s)) as [_ E1].
    destruct (on_storage _ _) as [[]]; simpl in *; left; by rewrite ?Hlog.
  - unfold rollback_to. destruct (live_entry _ _) as [[pos o]|]; [|by left].
    destruct (ActionLog.position_of (log o) sp); [|by left].
    destruct (ActionLog.unwind_after _ _ _) as [[[]] ?]; [|by left]. left. by rewrite (proj2 (on_storage_state _ _)).
  - unfold register_on_commit. destruct (log_of _ _); left; [apply Hlog|done].
  - unfold register_on_rollback. destruct (log_of _ _); left; [apply Hlog|done].
  - destruct (rollback_locks txn (tm s)) as [?|Hr]; [by left|right]. by exists (OpReleaseAll (id txn)).
  - unfold commit_enter. destruct (live_entry _ _) as [[]|]; by left.
  - destruct (committing s !! t) as [c|]; [|by left]. left. unfold commit_next.
    destruct (c_stage c) as [[|a todo]|]; [| |done].
    + pose proof (on_storage_state (st_commit t) (tm s)) as [_ E]. by destruct (on_storage _ _).
    + pose proof (on_storage_state (CommitAction.run a) (tm s)) as [_ E]. by destruct (on_storage _ _) as [[]].
  - destruct (committing s !! t) as [[txn l [|outcome]]|]; [by left| |by left]. simpl.
    unfold commit_leave. destruct (entry_of _ _) as [[pos o]|]; [|by left]. destruct outcome; [right|by left].
    by exists (OpReleaseAll (id txn)).
  - left. by rewrite (proj2 (on_storage_state _ _)).
  - right. by exists op.
Qed.

Lemma reachable_locks typed s0 s : txn_reachable typed s0 s → table_ok (LockManager.table (locks (tm s))).
Proof.
  revert s. apply (rtc_ind_r (λ s, table_ok (LockManager.table (locks (tm s))))).
  - apply (reachable_ok System_new). constructor.
  - intros s1 s2 _ Hstep IH. destruct Hstep as [a _].
    destruct (run_act_locks s1 a) as [->|[op ->]]; [done|]. by apply run_op_ok.
Qed.

(** ** What an act asks of the storage *)

(** The requests an act makes: drops, and requests for the transaction it is made for, which
    is open. *)
Definition asks (typed : St → Request → Prop) (st : State) (who : option TxnId) (s : St) (r : Request) : Prop :=
  match r with
  | RVacuum horizon => Forall (λ t, (horizon ≤ t)%N) (next_id st :: ids st) ∧
      ∀ o p, o ∈ open st → pinned o = Some p ∨ last o = Some p → (horizon ≤ xmin p)%N
  | RInsert t _ _ | RUpdate t _ _ _ => who = Some t ∧ t ∈ ids st ∧ typed s r
  | _ => ∀ t, request_txn r = Some t → who = Some t ∧ t ∈ ids st
  end.

Inductive asked (typed : St → Request → Prop) (st : State) (who : option TxnId) (s : St) : St → Prop :=
  | asked_intro r : asks typed st who s r → asked typed st who s (perform r s).2.

Lemma on_storage_storage {A} (f : stateful St SqlError A) (m : TransactionManager St) :
  storage (on_storage f m).2 = (f (storage m)).2.
Proof. unfold on_storage. by destruct (f (storage m)). Qed.

Lemma commit_run_asked typed st who a s : asked typed st who s (CommitAction.run a s).2.
Proof.
  destruct a as [tid|i|db]; simpl.
  - by apply (asked_intro _ _ _ s (RDropTable tid)).
  - by apply (asked_intro _ _ _ s (RDropIndex i)).
  - by apply (asked_intro _ _ _ s (RDropDatabase db)).
Qed.

Lemma rollback_run_asked typed st who a s : asked typed st who s (RollbackAction.run a s).2.
Proof.
  destruct a as [tid|i|db]; simpl.
  - by apply (asked_intro _ _ _ s (RDropTable tid)).
  - by apply (asked_intro _ _ _ s (RDropIndex i)).
  - by apply (asked_intro _ _ _ s (RDropDatabase db)).
Qed.

Lemma compensate_asked typed st who es s : rtc (asked typed st who) s (ActionLog.compensate es s).2.
Proof.
  rewrite ActionLog.compensate_spec. revert s.
  induction (ActionLog.compensations es) as [|a l IH]; intros s; simpl; [done|].
  unfold mbind, stateful_bind. pose proof (rollback_run_asked typed st who a s) as Hr.
  destruct (RollbackAction.run a s) as [[[]|e] s'] eqn:Hrun; simpl in *.
  - eapply rtc_l; [exact Hr|]. apply IH.
  - by apply rtc_once.
Qed.

Lemma rollback_asked typed txn (m : TransactionManager St) :
  rtc (asked typed (tm_state m) (Some (id txn))) (storage m) (storage (rollback txn m).2).
Proof.
  unfold rollback. destruct (live_entry _ _) as [[pos o]|] eqn:Hl; [|done].
  apply live_entry_Some in Hl as [Hid%entry_of_ids _]. unfold mbind, stateful_bind.
  pose proof (compensate_asked typed (tm_state m) (Some (id txn)) (ActionLog.entries (log o)) (storage m)) as H1.
  destruct (on_storage (ActionLog.run_on_rollback (log o)) m) as [r1 m1] eqn:E1.
  assert (Hs1 : storage m1 = (ActionLog.compensate (ActionLog.entries (log o)) (storage m)).2).
  { pose proof (on_storage_storage (ActionLog.run_on_rollback (log o)) m) as E. by rewrite E1 in E. }
  rewrite <- Hs1 in H1. destruct r1; [|done].
  eapply rtc_r; [exact H1|].
  assert (Hs2 : asked typed (tm_state m) (Some (id txn)) (storage m1) (st_rollback (id txn) (storage m1)).2).
  { apply (asked_intro _ _ _ _ (RRollback (id txn))). by intros t [= <-]. }
  destruct (on_storage (st_rollback (id txn)) m1) as [r2 m2] eqn:E2.
  pose proof (on_storage_storage (st_rollback (id txn)) m1) as E. rewrite E2 in E. simpl in E.
  rewrite <- E in Hs2. by destruct r2.
Qed.

Lemma rollback_to_asked typed txn sp (m : TransactionManager St) :
  rtc (asked typed (tm_state m) (Some (id txn))) (storage m) (storage (rollback_to txn sp m).2).
Proof.
  unfold rollback_to. destruct (live_entry _ _) as [[pos o]|] eqn:Hl; [|done].
  apply live_entry_Some in Hl as [Hid%entry_of_ids _].
  destruct (ActionLog.position_of (log o) sp) as [i|]; [|done].
  pose proof (compensate_asked typed (tm_state m) (Some (id txn)) (drop (i + 1) (ActionLog.entries (log o)))
    (storage m)) as H1.
  unfold ActionLog.unwind_after. destruct (ActionLog.compensate _ _) as [[[]|e] s1]; [|done].
  rewrite on_storage_storage. simpl in *. eapply rtc_r; [exact H1|].
  apply (asked_intro _ _ _ _ (RRollbackTo (id txn) sp)). by intros t [= <-].
Qed.

Lemma run_act_asked typed s a :
  system_ok s → act_ok typed s a →
  rtc (asked typed (state_of s) (act_txn a)) (storage (tm s)) (storage (tm (run_act s a))).
Proof.
  intros Hok Hal. destruct a as [| | | |txn|txn| |txn a|txn a| |txn|t|t|r|]; simpl; try done.
  - unfold bump_next_id_above_storage. by case_match.
  - unfold begin_in. by destruct (_ && _).
  - unfold statement_snapshot. destruct (entry_of _ _) as [[pos o]|]; [|done].
    destruct (pinned o); [done|]. by destruct (decide _).
  - unfold savepoint, live_position. destruct (live_entry _ _) as [[pos o]|] eqn:Hl; [|done]. simpl.
    apply live_entry_Some in Hl as [Hid%entry_of_ids _]. unfold mbind, stateful_bind.
    pose proof (on_storage_storage (st_savepoint (id txn)) (tm s)) as E.
    assert (Hs2 : asked typed (state_of s) (Some (id txn)) (storage (tm s)) (st_savepoint (id txn) (storage (tm s))).2).
    { rewrite <- forget_answer_state. apply (asked_intro _ _ _ _ (RSavepoint (id txn))). by intros t [= <-]. }
    destruct (on_storage _ _) as [[sp|] m1]; simpl in *; rewrite <- E in Hs2; apply rtc_once; [|done].
    unfold update_log. by destruct (live_entry _ _) as [[]|].
  - apply rollback_to_asked.
  - unfold register_on_commit, update_log. destruct (log_of _ _); [|done]. by destruct (live_entry _ _) as [[]|].
  - unfold register_on_rollback, update_log. destruct (log_of _ _); [|done]. by destruct (live_entry _ _) as [[]|].
  - apply rollback_asked.
  - unfold commit_enter. by destruct (live_entry _ _) as [[]|].
  - destruct (committing s !! t) as [c|] eqn:Hc; [|done]. unfold commit_next.
    destruct (c_stage c) as [[|a todo]|]; [| |done].
    + pose proof (on_storage_storage (st_commit t) (tm s)) as E. destruct (on_storage _ _) as [r m']. simpl in *.
      rewrite E. apply rtc_once. apply (asked_intro _ _ _ _ (RCommit t)). intros t' [= <-]. split; [done|].
      destruct (proj1 (sy_ending _ Hok t) (ex_intro _ _ Hc)) as (o & Hfo & _).
      apply dec_stable. intros Hn. apply find_open_None in Hn. congruence.
    + pose proof (on_storage_storage (CommitAction.run a) (tm s)) as E.
      destruct (on_storage _ _) as [[[]|e] m']; simpl in *; rewrite E; apply rtc_once, commit_run_asked.
  - destruct (committing s !! t) as [[txn l [|outcome]]|] eqn:Hc; [done| |done]. simpl.
    unfold commit_leave. destruct (entry_of _ _) as [[]|]; [|done]. by destruct outcome.
  - simpl in Hal. rewrite on_storage_storage. apply rtc_once. apply asked_intro.
    assert (Hlive : ∀ t, live s t → t ∈ ids (state_of s)).
    { intros t [pos Hp]. unfold live_position in Hp. apply fmap_Some in Hp as ([pos' o] & Hl & _).
      apply live_entry_Some in Hl as [He _]. by eapply entry_of_ids. }
    destruct r as [| | | | | | | | | | | | | |h]; simpl in *; try done; try (by destruct Hal; auto); [intros t' [= <-]; auto|].
    destruct Hal as [Hh Hp]. split.
    2: { intros o p Ho Hor. apply (proj1 (Forall_forall _ _) Hp). apply list_elem_of_bind. exists o. split; [|done].
         destruct Hor as [-> | ->]; apply elem_of_app; [left|right]; by left. }
    unfold snapshot_horizon in Hh. pose proof (sk_fresh _ (sy_state _ Hok)) as Hf. pose proof (oldest_open_spec (state_of s)) as Ho.
    destruct (oldest_open (state_of s)) as [m|]; simpl in Hh.
    + destruct Ho as [Hin Hall]. rewrite Forall_forall in Hf. pose proof (Hf m Hin) as Hlt. constructor; [lia|].
      eapply Forall_impl; [exact Hall|]. simpl. lia.
    + rewrite Ho. by constructor.
Qed.
End histories.

(** * The in-memory storage under the transaction manager

    The histories of [TxnSystem.v] over [MemoryStorage.v]: the requests of a history are
    allowed ones, so the storage stays well formed, and what a transaction reads through its
    snapshot does not move under the acts of the others. *)

Section memory.

Notation Sys := (TxnSystem Inner).
Notation state_of s := (tm_state (tm s)).
Notation store s := (storage (tm s)).

Definition memory_reachable : Sys → Prop := txn_reachable typed_request MemoryStorage_new.

(** The storage is well formed, and the transactions that may still ask it something are enrolled. *)
Record memory_ok (st : State) (s : Inner) : Prop := {
  me_wf :> well_formed s;
  me_enrolled : ∀ t, t ∈ ids st ∨ (next_id st ≤ t)%N → enrolled s t;
}.

Lemma memory_ok_mono st st' s :
  (next_id st ≤ next_id st')%N → (∀ t', t' ∈ ids st' → t' ∈ ids st ∨ (next_id st ≤ t')%N) → memory_ok st s → memory_ok st' s.
Proof. intros Hn Hin [Hwf Hen]. split; [done|]. intros t [Ht|Ht]; apply Hen; [by apply Hin|right; lia]. Qed.

Lemma asks_txn st who s r t :
  asks typed_request st who s r → request_txn r = Some t → who = Some t ∧ t ∈ ids st.
Proof. destruct r; simpl; try naive_solver. Qed.

Lemma asks_allowed st who s r : asks typed_request st who s r → memory_ok st s → allowed s r.
Proof.
  intros Hr [_ Hen]. assert (Hreq : ∀ t, request_txn r = Some t → enrolled s t).
  { intros t Ht. destruct (asks_txn _ _ _ _ _ Hr Ht). apply Hen. by left. }
  destruct r; simpl in *; try done; try (by apply Hreq); destruct Hr as (_ & _ & Hty); (split; [by apply Hreq|done]).
Qed.

Lemma asked_ok st who s s' : asked typed_request st who s s' → memory_ok st s → memory_ok st s'.
Proof.
  intros [r Hr] Hok. pose proof (asks_allowed _ _ _ _ Hr Hok) as Hal. destruct Hok as [Hwf Hen]. split; [by apply (perform_ok r s Hwf)|].
  intros t Ht. apply perform_enrolled; [done|done| |by apply Hen]. intros h ->. destruct Hr as [Hh _]. apply Forall_cons in Hh as [Hn Hi].
  rewrite Forall_forall in Hi. destruct Ht as [Ht|Ht]; [by apply Hi|lia].
Qed.

Lemma asked_still_reads snap tid st who s0 s s' :
  asked typed_request st who s s' → memory_ok st s →
  (∀ t, who = Some t → t ∈ ids st → unseen snap t) →
  (∃ o, o ∈ open st ∧ pinned o = Some snap ∧ snap_ok st (open_id o) snap) →
  still_reads snap tid s0 s → still_reads snap tid s0 s'.
Proof.
  intros [r Hr] Hok Hu (o & Ho & Hp & Hsn). pose proof (asks_allowed _ _ _ _ Hr Hok) as Hal.
  apply perform_still_reads; [apply Hok|done| |].
  - intros h ->. destruct Hr as [_ Hh]. destruct (sn_bounds _ _ _ Hsn) as [Hb Ha]. split; [by apply (Hh o); [|left]|done|].
    eapply Forall_impl; [exact Ha|]. simpl. lia.
  - intros t Ht. destruct (asks_txn _ _ _ _ _ Hr Ht). by apply Hu.
Qed.

Lemma all_asked snap tid st who s0 s s' :
  rtc (asked typed_request st who) s s' → memory_ok st s →
  memory_ok st s' ∧
  ((∀ t, who = Some t → t ∈ ids st → unseen snap t) →
   (∃ o, o ∈ open st ∧ pinned o = Some snap ∧ snap_ok st (open_id o) snap) →
   still_reads snap tid s0 s → still_reads snap tid s0 s').
Proof.
  induction 1 as [s|s1 s2 s3 Hstep _ IH]; intros Hok; [done|].
  destruct (IH (asked_ok _ _ _ _ Hstep Hok)) as [Hok3 Hr]. split; [done|]. intros Hu Hp Hs.
  apply Hr; [done|done|]. by eapply asked_still_reads.
Qed.

Lemma MemoryStorage_new_memory_ok st : memory_ok st MemoryStorage_new.
Proof.
  split; [apply reachable_well_formed; constructor|]. intros t _. right. intros tid tb row.
  simpl. by rewrite lookup_empty.
Qed.

Lemma memory_reachable_ok s :
  memory_reachable s → (next_id (state_of s) < u64_max)%N → memory_ok (state_of s) (store s).
Proof.
  revert s. apply (rtc_ind_r (λ s, (next_id (state_of s) < u64_max)%N → memory_ok (state_of s) (store s))).
  - intros _. apply MemoryStorage_new_memory_ok.
  - intros s1 s2 Hr Hstep IH. destruct Hstep as [a Hal]. intros Hlt.
    pose proof (run_act_next s1 a (reachable_handles _ _ _ Hr) Hlt) as Hle.
    assert (Hlt1 : (next_id (state_of s1) < u64_max)%N) by lia.
    pose proof (reachable_system_ok _ _ _ Hr Hlt1) as Hok.
    pose proof (run_act_asked typed_request s1 a Hok Hal) as Ha.
    apply (all_asked (mkSnapshot 0 0 [] 0) 0 _ _ MemoryStorage_new) in Ha; [|by apply IH]. destruct Ha as [Ha _].
    eapply memory_ok_mono; [exact Hle| |exact Ha]. intros t Ht. eapply state_step_ids; [apply (run_act_step s1 a), Hok|exact Ht].
Qed.

Lemma step_beside_reachable t s s' :
  rtc (step_beside typed_request t) s s' → memory_reachable s → memory_reachable s'.
Proof.
  induction 1 as [|s1 s2 s3 Hstep _ IH]; [done|]. intros Hr. apply IH. destruct Hstep as [a Hal _].
  eapply rtc_r; [exact Hr|]. by constructor.
Qed.

Lemma step_beside_next t s s' :
  rtc (step_beside typed_request t) s s' → memory_reachable s →
  (next_id (state_of s') < u64_max)%N → (next_id (state_of s) < u64_max)%N.
Proof.
  induction 1 as [|s1 s2 s3 Hstep _ IH]; [done|]. intros Hr Hlt. destruct Hstep as [a Hal Hla].
  assert (Hlt2 : (next_id (state_of (run_act s1 a)) < u64_max)%N).
  { apply IH; [|done]. eapply rtc_r; [exact Hr|]. by constructor. }
  pose proof (run_act_next s1 a (reachable_handles _ _ _ Hr) Hlt2). lia.
Qed.

(** The entry of a transaction whose snapshot is pinned, and what that snapshot reads, under
    the acts of the others. *)
Record frozen (t : TxnId) (o : Open) (snap : Snapshot) (tid : TableId) (s0 : Inner) (s : Sys) : Prop := {
  fr_entry : find_open (state_of s) t = Some o;
  fr_reads : still_reads snap tid s0 (store s);
}.

Lemma run_act_frozen t o snap tid s0 s a :
  memory_reachable s → (next_id (state_of (run_act s a)) < u64_max)%N →
  act_ok typed_request s a → leaves_alone t a → pinned o = Some snap →
  frozen t o snap tid s0 s → frozen t o snap tid s0 (run_act s a).
Proof.
  intros Hr Hlt Hal Hla Hp [Hfo Hrd].
  pose proof (run_act_next s a (reachable_handles _ _ _ Hr) Hlt) as Hle.
  assert (Hlt1 : (next_id (state_of s) < u64_max)%N) by lia.
  pose proof (reachable_system_ok _ _ _ Hr Hlt1) as Hok. pose proof (sy_state _ Hok) as Hst.
  destruct (decide (act_txn a = Some t)) as [He|Hne].
  - destruct a as [| | | |txn| | | | | | | | | |]; try done. injection He as He.
    assert (Hsame : run_act s (ASnapshot txn) = s); [|by rewrite Hsame].
    simpl. unfold statement_snapshot. unfold find_open in Hfo.
    apply fmap_Some in Hfo as ([pos o'] & Hen & ->). rewrite He, Hen. simpl in Hp. rewrite Hp. by destruct s.
  - apply (find_open_Some _ _ _ (sk_sorted _ Hst)) in Hfo as Hin. destruct Hin as [Hin Hid].
    assert (Ht : t ∈ ids (state_of s)) by (apply list_elem_of_fmap; eauto).
    split.
    + rewrite <- Hfo. eapply find_open_other; [apply run_act_step; apply Hok|done..].
    + pose proof (run_act_asked typed_request s a Hok Hal) as Ha.
      pose proof (sk_snaps _ Hst o snap Hin (or_introl Hp)) as Hsn.
      apply (all_asked snap tid _ _ s0) in Ha; [|by apply memory_reachable_ok]. apply Ha; [|by exists o|done].
      intros t' Ht' Hin'. apply (sn_unseen _ _ _ Hsn); [done|]. rewrite Hid. congruence.
Qed.

Lemma rtc_frozen t o snap tid s0 s s' :
  rtc (step_beside typed_request t) s s' →
  memory_reachable s → (next_id (state_of s') < u64_max)%N → pinned o = Some snap →
  frozen t o snap tid s0 s → frozen t o snap tid s0 s'.
Proof.
  intros Hrtc Hr Hlt Hp Hf. revert s' Hrtc Hlt.
  apply (rtc_ind_r (λ s', (next_id (state_of s') < u64_max)%N → frozen t o snap tid s0 s')); [done|].
  intros s1 s2 H1 Hstep IH Hlt. pose proof (step_beside_reachable _ _ _ H1 Hr) as Hr1.
  destruct Hstep as [a Hal Hla].
  pose proof (run_act_next s1 a (reachable_handles _ _ _ Hr1) Hlt) as Hle.
  apply run_act_frozen; try done. apply IH. lia.
Qed.
End memory.
