(* ===== verification/TxnTheorems.v ===== *)
(** * Theorems about the transaction manager

    The identifiers and the snapshots over every history, the end of a transaction, the
    savepoints and the write check, each with an instance on a concrete server. *)

From S2P Require Import Prelude Values Errors Snapshot LockMode LockTable Deadlock LockManager.
From S2P Require Import LockManagerFacts LockTheorems.
From S2P Require Import Order CollationFacts Compare Table MemoryStorage StorageInv StorageSystem StorageUndo StorageTheorems.
From S2P Require Import Actions TxnManager TxnSystem TxnFacts.


(** ** A concrete server *)

#[local] Instance typed_request_dec s r : Decision (typed_request s r).
Proof. destruct r; simpl; apply _. Defined.
#[local] Instance live_dec {St} (s : TxnSystem St) t : Decision (live s t).
Proof. unfold live. apply _. Defined.
#[local] Instance act_ok_dec s a : Decision (act_ok typed_request s a).
Proof. destruct a as [| | | | | | | | | | | | |r|]; simpl; try apply _. destruct r; simpl; apply _. Defined.

Lemma txn_history_reachable s acts :
  memory_reachable s → memory_reachable (txn_history typed_request s acts).
Proof.
  revert s. induction acts as [|a acts IH]; intros s Hs; [done|]. simpl. apply IH.
  destruct (decide _); [|done]. eapply rtc_r; [exact Hs|]. by constructor.
Qed.

Definition at_snapshot (t : TxnId) : TxnHandle := mkTxnHandle t IsolationLevel.Snapshot.
Definition at_read_committed (t : TxnId) : TxnHandle := mkTxnHandle t IsolationLevel.ReadCommitted.

#[local] Instance leaves_alone_dec t a : Decision (leaves_alone t a).
Proof. destruct a; simpl; apply _. Defined.

(** A history of the others. *)
Lemma history_beside t s acts :
  bool_decide (Forall (leaves_alone t) acts) = true →
  rtc (step_beside typed_request t) s (txn_history typed_request s acts).
Proof.
  intros Hall%bool_decide_eq_true. revert s. induction Hall as [|a acts Ha _ IH]; intros s; [done|]. simpl.
  destruct (decide _); [|apply IH]. eapply rtc_l; [|apply IH]. by constructor.
Qed.

(** Transaction 1 creates the table and commits a row; 2 is a reader at SNAPSHOT; 3 renames
    the row and has not committed. *)
Definition server : TxnSystem Inner :=
  txn_history typed_request (TxnSystem_new MemoryStorage_new)
    [AOptions 1 (mkVersioningOptions false true);
     ABegin 0 IsolationLevel.ReadCommitted;
     ARequest (RCreateDatabase "hr"); ARequest (RCreateTable 1 people);
     AOnRollback (at_read_committed 1) (RollbackAction.DropTable 1);
     ARequest (RInsert 1 1 (person 20 [98%Z]));
     ACommitEnter (at_read_committed 1); ACommitNext 1; ACommitLeave 1;
     ABeginIn 0 1 IsolationLevel.Snapshot;
     ABegin 0 IsolationLevel.ReadCommitted;
     ARequest (RUpdate 3 1 1 (person 20 [99%Z]))].

Lemma server_reachable : memory_reachable server.
Proof. apply txn_history_reachable. constructor. Qed.

Lemma server_next : (next_id (tm_state (tm server)) < u64_max)%N.
Proof. vm_compute. reflexivity. Qed.

(** ** Identifiers *)

(** In every history that has not used up the identifiers, the open transactions are
    listed in increasing order of identifier, each below the next one to be handed out, and
    the transactions marked as ending are exactly those a [commit] is under way for. *)
Theorem open_transactions_are_ordered `{Storage St} typed s0 s :
  txn_reachable typed s0 s → (next_id (tm_state (tm s)) < u64_max)%N →
  StronglySorted N.lt (ids (tm_state (tm s))) ∧
  Forall (λ t, (t < next_id (tm_state (tm s)))%N) (ids (tm_state (tm s))) ∧
  ∀ t, is_Some (committing s !! t) ↔ ∃ o, o ∈ open (tm_state (tm s)) ∧ open_id o = t ∧ ending o = true.
Proof.
  intros Hr Hlt. destruct (reachable_system_ok _ _ _ Hr Hlt) as [[Hs Hf _] _ He].
  split; [done|]. split; [done|]. intros t. rewrite He. unfold is_ending.
  setoid_rewrite (find_open_Some (tm_state (tm s)) t); [|done]. naive_solver.
Qed.

Lemma open_transactions_are_ordered_witness :
  StronglySorted N.lt (ids (tm_state (tm server))) ∧ ids (tm_state (tm server)) = [2; 3]%N.
Proof.
  split; [|vm_compute; reflexivity].
  exact (proj1 (open_transactions_are_ordered _ _ server server_reachable server_next)).
Defined.

(** ** Snapshots *)

(** C10. The snapshot an open transaction reads through hides every other transaction that
    is open, a commit under way included, and every transaction still to come; one that is
    built for the call hides nothing else.  Its bounds are those the storage asks for. *)
Theorem snapshot_hides_the_unfinished `{Storage St} typed s0 s txn pos o snap m' :
  txn_reachable typed s0 s → (next_id (tm_state (tm s)) < u64_max)%N →
  entry_of (tm_state (tm s)) (id txn) = Some (pos, o) →
  statement_snapshot txn (tm s) = (snap, m') →
  own snap = id txn ∧
  (∀ t, t ≠ id txn → t ∈ ids (tm_state (tm s)) ∨ (next_id (tm_state (tm s)) ≤ t)%N → unseen snap t) ∧
  (pinned o = None → ∀ t, unseen snap t →
     t ≠ id txn ∧ (t ∈ ids (tm_state (tm s)) ∨ (next_id (tm_state (tm s)) ≤ t)%N)) ∧
  StronglySorted N.lt (active snap) ∧ (xmin snap ≤ xmax snap)%N ∧
  Forall (λ a, (xmin snap ≤ a < xmax snap)%N) (active snap).
Proof.
  intros Hr Hlt He Hsnap. pose proof (reachable_system_ok _ _ _ Hr Hlt) as [[Hs Hf Hp] _ _].
  destruct (entry_of_Some _ _ _ _ He) as [Ho Hid].
  assert (Hsn : snap_ok (tm_state (tm s)) (id txn) snap ∧
    (pinned o = None → snap = snapshot_for (tm_state (tm s)) (id txn))).
  { revert Hsnap. unfold statement_snapshot. rewrite He. destruct (pinned o) as [p|] eqn:Hpin.
    - intros [= <- _]. split; [|done]. rewrite <- Hid.
      apply (Hp o p); [by eapply list_elem_of_lookup_2|by left].
    - pose proof (snapshot_for_ok (tm_state (tm s)) (id txn) Hs Hf). by destruct (decide _); intros [= <- _]. }
  destruct Hsn as [[Hown Hx Hu Hso [Hb Hba]] Hfresh]. split; [done|]. split; [|split; [|done]].
  - intros t Hne [Hin|Hge]; [by apply Hu|]. split; [by rewrite Hown|]. left. lia.
  - intros Hpin t. rewrite (Hfresh Hpin). apply snapshot_for_unseen.
Qed.

Lemma snapshot_hides_the_unfinished_witness :
  unseen (statement_snapshot (at_snapshot 2) (tm server)).1 3.
Proof.
  refine (proj1 (proj2 (snapshot_hides_the_unfinished typed_request MemoryStorage_new server (at_snapshot 2)
    0 (mkOpen (at_snapshot 2) 0 ActionLog.default 1 None None false)
    (statement_snapshot (at_snapshot 2) (tm server)).1 (statement_snapshot (at_snapshot 2) (tm server)).2
    server_reachable server_next _ _)) 3%N _ _).
  - vm_compute. reflexivity.
  - by destruct (statement_snapshot _ _).
  - done.
  - left. vm_compute. by right; left.
Defined.

(** C3. A transaction at SNAPSHOT on a database that allows it reads the same at every
    statement: from its first snapshot on, under any acts of the others (writes, commits,
    rollbacks, drops, changes of the options, and each [vacuum] whose horizon is at or below the
    [xmin] of the snapshots in use, as [Storage::vacuum] asks), the manager hands it the same
    snapshot, and a table that has not been dropped gives the same rows through it. *)
Theorem snapshot_reads_repeat s txn snap m1 s' tid :
  memory_reachable s → versioning_mode (tm s) txn = TxnSnapshot →
  statement_snapshot txn (tm s) = (snap, m1) →
  rtc (step_beside typed_request (id txn)) (set_tm s m1) s' →
  (next_id (tm_state (tm s')) < u64_max)%N →
  is_Some (tables (storage (tm s)) !! tid) → is_Some (tables (storage (tm s')) !! tid) →
  statement_snapshot txn (tm s') = (snap, tm s') ∧
  scan snap tid (storage (tm s')) = scan snap tid (storage (tm s)) ∧
  ∀ row, get snap tid row (storage (tm s')) = get snap tid row (storage (tm s)).
Proof.
  intros Hr Hmode Hsnap Hrtc Hlt Ht Ht'.
  assert (Hr1 : memory_reachable (set_tm s m1)).
  { assert (E : set_tm s m1 = run_act s (ASnapshot txn)) by (simpl; by rewrite Hsnap).
    rewrite E. eapply rtc_r; [exact Hr|]. by constructor. }
  pose proof (step_beside_reachable _ _ _ Hrtc Hr1) as Hr'.
  pose proof (step_beside_next _ _ _ Hrtc Hr1 Hlt) as Hlt1.
  assert (Hpin : ∃ pos o, entry_of (tm_state m1) (id txn) = Some (pos, o) ∧ pinned o = Some snap ∧
    storage m1 = storage (tm s)).
  { revert Hsnap Hmode. unfold statement_snapshot, versioning_mode, read_versioning, database_of.
    destruct (entry_of (tm_state (tm s)) (id txn)) as [[pos o]|] eqn:He; [|done]. simpl.
    destruct (pinned o) as [p|] eqn:Hp; [by intros [= <- <-]; eauto|]. intros Hs Hm.
    rewrite (decide_True _ _ Hm) in Hs. injection Hs as <- <-. simpl.
    eexists pos, _. split; [by eapply entry_of_set|done]. }
  destruct Hpin as (pos & o & He & Hp & Hst).
  destruct (rtc_frozen (id txn) o snap tid (storage (tm s)) _ _ Hrtc Hr1 Hlt Hp) as [Hfo Hrd].
  { split; simpl; [by eapply find_open_entry|]. rewrite Hst. apply still_reads_refl; [|done].
    rewrite <- Hst. apply (memory_reachable_ok _ Hr1 Hlt1). }
  split; [|by apply Hrd]. unfold statement_snapshot. unfold find_open in Hfo.
  apply fmap_Some in Hfo as ([pos' o'] & -> & ->). simpl in Hp. by rewrite Hp.
Qed.

(** The reader has its snapshot; 3 commits its update, and the storage is vacuumed. *)
Definition pinned_server : TxnSystem Inner := set_tm server (statement_snapshot (at_snapshot 2) (tm server)).2.
Definition later_server : TxnSystem Inner :=
  txn_history typed_request pinned_server
    [ACommitEnter (at_read_committed 3); ACommitNext 3; ACommitLeave 3; AOptions 1 VersioningOptions_default; ARequest (RVacuum 2)].

Lemma snapshot_reads_repeat_witness :
  let snap := (statement_snapshot (at_snapshot 2) (tm server)).1 in
  get snap 1 1 (storage (tm later_server)) = get snap 1 1 (storage (tm server)) ∧
  get snap 1 1 (storage (tm server)) = Ok (Some (person 20 [98%Z])) ∧
  status (storage (tm later_server)) 3 = Committed.
Proof.
  split; [|vm_compute; done].
  refine (proj2 (proj2 (snapshot_reads_repeat server (at_snapshot 2)
    (statement_snapshot (at_snapshot 2) (tm server)).1 (statement_snapshot (at_snapshot 2) (tm server)).2
    later_server 1 server_reachable _ _ _ _ _ _)) 1%N).
  - vm_compute. reflexivity.
  - by destruct (statement_snapshot _ _).
  - apply history_beside. vm_compute. reflexivity.
  - vm_compute. reflexivity.
  - vm_compute. eauto.
  - vm_compute. eauto.
Defined.

(** ** The end of a transaction *)

(** A [commit] that nothing interrupts runs the deferred drops in registration order and
    then the commit of the storage; if they all succeed the transaction is closed and its
    locks are given back, and if one fails the manager is as before, the log and the locks
    of the transaction included, over the storage the calls made so far have left. *)
Theorem commit_spec `{Storage St} txn (m : TransactionManager St) :
  commit txn m =
  match live_entry (tm_state m) (id txn) with
  | None => (Err (not_open "commit" (id txn)), m)
  | Some (pos, o) =>
      match (_ ← for_each CommitAction.run (ActionLog.commit_actions (log o)); st_commit (id txn)) (storage m) with
      | (Ok _, s') =>
          (Ok (), mkTransactionManager s' (remove_entry pos (tm_state m))
                    (manager_release_all (locks m) (id txn)) (versioning m))
      | (Err e, s') => (Err e, set_storage m s')
      end
  end.
Proof.
  unfold commit, finish_commit, commit_enter.
  destruct (live_entry (tm_state m) (id txn)) as [[pos o]|] eqn:Hl; [|done].
  apply live_entry_Some in Hl as [He Hend]. unfold commit_store, mbind, stateful_bind. cbn [storage set_state].
  rewrite ActionLog.run_on_commit_spec.
  set (o1 := with_log (with_ending o true) ActionLog.default).
  assert (He1 : entry_of (set_entry pos o1 (tm_state m)) (id txn) = Some (pos, o1)) by (by eapply entry_of_set).
  assert (Hleave : ∀ r s', commit_leave txn (log o) r (set_storage (set_state m (set_entry pos o1 (tm_state m))) s') =
    match r with
    | Ok _ => (Ok (), mkTransactionManager s' (remove_entry pos (tm_state m))
                        (manager_release_all (locks m) (id txn)) (versioning m))
    | Err e => (Err e, set_storage m s')
    end).
  { intros r s'. unfold commit_leave. cbn [tm_state set_storage set_state]. rewrite He1. destruct r as [[]|e]; simpl.
    - unfold set_state, set_locks. simpl. by rewrite remove_set_entry.
    - unfold set_state, set_storage. simpl. rewrite set_entry_twice.
      assert (Ho : with_log (with_ending o1 false) (log o) = o) by (destruct o; simpl in *; by subst).
      rewrite Ho, set_entry_same; [done|]. by apply entry_of_Some in He as [? _]. }
  destruct (for_each CommitAction.run _ _) as [[[]|e] s1]; [|by rewrite Hleave].
  destruct (st_commit (id txn) s1) as [r s2]. rewrite Hleave. by destruct r as [[]|].
Qed.

(** Whatever happens between its turns, a [commit] that comes back from the storage
    answers what the storage answered: the transaction is still there.  On success it is
    gone, holds and awaits no lock, and the other transactions are as they were; on failure
    it is open again with its log, and no lock has moved. *)
Theorem commit_returns_its_outcome `{Storage St} typed s0 s t txn l outcome r m' :
  txn_reachable typed s0 s → (next_id (tm_state (tm s)) < u64_max)%N →
  committing s !! t = Some (mkCommit txn l (Stored outcome)) →
  commit_leave txn l outcome (tm s) = (r, m') →
  r = outcome ∧ storage m' = storage (tm s) ∧
  (∀ t', t' ≠ t → find_open (tm_state m') t' = find_open (tm_state (tm s)) t') ∧
  match outcome with
  | Ok _ =>
      t ∉ ids (tm_state m') ∧
      ∀ res, (∀ h, h ∈ holders (entry_at (LockManager.table (locks m')) res) → h_txn h ≠ t) ∧
             (∀ w, w ∈ queue (entry_at (LockManager.table (locks m')) res) → w_txn w ≠ t)
  | Err _ =>
      locks m' = locks (tm s) ∧
      ∃ o, find_open (tm_state m') t = Some o ∧ log o = l ∧ ending o = false
  end.
Proof.
  intros Hr Hlt Hc Hrun. pose proof (reachable_system_ok _ _ _ Hr Hlt) as Hok.
  pose proof (proj1 (commit_leave_ok _ _ _ _ _ Hok Hc)) as Hout. rewrite Hrun in Hout. simpl in Hout.
  split; [done|]. pose proof (sy_handle _ Hok _ _ Hc) as Hid. simpl in Hid.
  destruct (proj1 (sy_ending _ Hok t) (ex_intro _ _ Hc)) as (o & Hfo & He).
  unfold find_open in Hfo. apply fmap_Some in Hfo as ([pos o'] & Hen & ->). simpl in He.
  revert Hrun. unfold commit_leave. rewrite Hid, Hen. apply entry_of_Some in Hen as [Ho Hid'].
  destruct outcome as [[]|e]; intros [= <- <-]; simpl; (split; [done|]).
  - split.
    + intros t' Hne. rewrite (find_open_remove _ pos o') by (done || apply Hok). by rewrite decide_False by congruence.
    + split.
      * apply (find_open_None (remove_entry pos (tm_state (tm s)))). rewrite (find_open_remove _ pos o') by (done || apply Hok). by rewrite decide_True.
      * intros res. pose proof (reachable_locks _ _ _ Hr) as Hlk.
        destruct (release_all_entry (LockManager.table (locks (tm s))) t res Hlk) as (gs & Hq & Hh).
        assert (Hgs : ∀ w, w ∈ gs ++ queue (entry_at (release_all (LockManager.table (locks (tm s))) t) res) → w_txn w ≠ t).
        { intros w. rewrite <- Hq. by intros [? _]%list_elem_of_filter. }
        split; [|intros w Hw; apply Hgs; set_solver]. intros h. rewrite Hh.
        intros [[? _]%list_elem_of_filter|(w & Hw & ->)]%elem_of_grants; [done|]. apply Hgs. set_solver.
  - split.
    + intros t' Hne. rewrite (find_open_set _ pos o') by (done || apply Hok). by rewrite decide_False by congruence.
    + split; [done|]. eexists. rewrite (find_open_set _ pos o') by (done || apply Hok).
      rewrite decide_True by done. done.
Qed.

(** The commit of 3 is back from the storage. *)
Definition stored_server : TxnSystem Inner :=
  txn_history typed_request server
    [ALock (OpRequest 0 false 3 (Row 1 1) LockMode.X Infinite);
     ACommitEnter (at_read_committed 3); ACommitNext 3; ASnapshot (at_snapshot 2)].

Lemma stored_server_reachable : memory_reachable stored_server.
Proof. apply txn_history_reachable, server_reachable. Qed.

Lemma commit_returns_its_outcome_witness :
  holders (entry_at (LockManager.table (locks (tm stored_server))) (Row 1 1)) = [mkHolder 3 LockMode.X] ∧
  3%N ∉ ids (tm_state (commit_leave (at_read_committed 3) ActionLog.default (Ok ()) (tm stored_server)).2).
Proof.
  split; [vm_compute; reflexivity|].
  refine (proj1 (proj2 (proj2 (proj2 (commit_returns_its_outcome typed_request MemoryStorage_new stored_server 3
    (at_read_committed 3) ActionLog.default (Ok ())
    (commit_leave (at_read_committed 3) ActionLog.default (Ok ()) (tm stored_server)).1
    (commit_leave (at_read_committed 3) ActionLog.default (Ok ()) (tm stored_server)).2
    stored_server_reachable _ _ _))))).
  - vm_compute. reflexivity.
  - vm_compute. reflexivity.
  - by destruct (commit_leave _ _ _ _).
Defined.

(** ** Savepoints *)

(** Going back to a savepoint runs the compensations registered after its mark, last
    registered first, then the [rollback_to] of the storage; the log then ends at the mark,
    whatever that call answers.  A compensation that fails leaves the manager as it was. *)
Theorem rollback_to_unwinds `{Storage St} txn sp (m : TransactionManager St) pos o before after :
  live_entry (tm_state m) (id txn) = Some (pos, o) →
  log o = ActionLog.mk (before ++ ActionLog.Mark sp :: after) → ActionLog.Mark sp ∉ before →
  rollback_to txn sp m =
  match for_each RollbackAction.run (ActionLog.compensations after) (storage m) with
  | (Err e, s') => (Err e, set_storage m s')
  | (Ok _, s') =>
      let '(r, s'') := st_rollback_to (id txn) sp s' in
      (r, mkTransactionManager s''
            (set_entry pos (with_log o (ActionLog.mk (before ++ [ActionLog.Mark sp]))) (tm_state m))
            (locks m) (versioning m))
  end.
Proof.
  intros Hl Hlog Hb. unfold rollback_to. rewrite Hl.
  assert (Hpos : ActionLog.position_of (log o) sp = Some (length before)).
  { apply ActionLog.position_of_spec. rewrite Hlog. simpl. split.
    - by rewrite lookup_app_r, Nat.sub_diag by lia.
    - intros j Hj. rewrite lookup_app_l by done. intros He. by apply Hb, (list_elem_of_lookup_2 _ j). }
  rewrite Hpos. unfold ActionLog.unwind_after. rewrite ActionLog.compensate_spec.
  assert (Hdrop : drop (length before + 1) (ActionLog.entries (log o)) = after).
  { rewrite Hlog. simpl. rewrite drop_app_ge by lia. by rewrite Nat.add_sub_swap, Nat.sub_diag by lia. }
  assert (Htake : take (length before + 1) (ActionLog.entries (log o)) = before ++ [ActionLog.Mark sp]).
  { rewrite Hlog. simpl. rewrite take_app_ge by lia. by rewrite Nat.add_sub_swap, Nat.sub_diag by lia. }
  rewrite Hdrop, Htake. destruct (for_each _ _ _) as [[[]|e] s1].
  - unfold on_storage. simpl. by destruct (st_rollback_to (id txn) sp s1).
  - apply live_entry_Some in Hl as [[Ho _]%entry_of_Some _]. unfold set_state, set_storage. simpl.
    assert (Heq : with_log o (log o) = o) by (by destruct o). by rewrite Heq, set_entry_same.
Qed.

(** A transaction takes a savepoint, then creates a table. *)
Definition created_server : TxnSystem Inner :=
  txn_history typed_request (TxnSystem_new MemoryStorage_new)
    [ABegin 0 IsolationLevel.ReadCommitted; ARequest (RCreateDatabase "hr");
     ASavepoint (at_read_committed 1); ARequest (RCreateTable 1 people);
     AOnRollback (at_read_committed 1) (RollbackAction.DropTable 1)].

Lemma rollback_to_unwinds_witness :
  rollback_to (at_read_committed 1) 1 (tm created_server) =
    (Ok (), mkTransactionManager (storage (rollback_to (at_read_committed 1) 1 (tm created_server)).2)
       (set_entry 0 (mkOpen (at_read_committed 1) 0 (ActionLog.mk [ActionLog.Mark 1]) 1 None None false)
          (tm_state (tm created_server))) (locks (tm created_server)) ∅) ∧
  is_Some (tables (storage (tm created_server)) !! 1%N) ∧
  tables (storage (rollback_to (at_read_committed 1) 1 (tm created_server)).2) !! 1%N = None.
Proof.
  split; [|vm_compute; eauto].
  rewrite (rollback_to_unwinds (at_read_committed 1) 1 (tm created_server) 0
    (mkOpen (at_read_committed 1) 0
       (ActionLog.mk [ActionLog.Mark 1; ActionLog.OnRollback (RollbackAction.DropTable 1)]) 1 None None false)
    [] [ActionLog.OnRollback (RollbackAction.DropTable 1)]).
  - vm_compute. reflexivity.
  - vm_compute. reflexivity.
  - reflexivity.
  - apply not_elem_of_nil.
Defined.

(** ** Write conflicts *)

(** C33. The write check refuses exactly the rows whose last writer the snapshot of the
    transaction does not see, with [Conflict] at SNAPSHOT and [Reread] otherwise: what the
    manager knows of the open transactions adds nothing to the snapshot. *)
Theorem write_check_is_exact `{Storage St} typed s0 s txn pos o tid row :
  txn_reachable typed s0 s → (next_id (tm_state (tm s)) < u64_max)%N →
  entry_of (tm_state (tm s)) (id txn) = Some (pos, o) →
  check_write_conflict txn tid row (tm s) =
  match checked_snapshot o with
  | None => Ok Proceed
  | Some snap =>
      v ← st_latest_version tid row (storage (tm s));
      Ok (match v with
          | Some (writer, _) =>
              if decide (unseen snap writer)
              then if decide (versioning_mode (tm s) txn = TxnSnapshot) then Conflict else Reread row
              else Proceed
          | None => Proceed
          end)
  end.
Proof.
  intros Hr Hlt He. pose proof (reachable_system_ok _ _ _ Hr Hlt) as [[Hs Hf Hp] _ _].
  unfold check_write_conflict, versioning_mode, read_versioning, database_of. rewrite He. simpl.
  destruct (entry_of_Some _ _ _ _ He) as [Ho Hid].
  destruct (checked_snapshot o) as [snap|] eqn:Hc; [|done].
  assert (Hsn : snap_ok (tm_state (tm s)) (id txn) snap).
  { rewrite <- Hid. apply (Hp o); [by eapply list_elem_of_lookup_2|].
    revert Hc. unfold checked_snapshot. destruct (pinned o); auto. }
  destruct (st_latest_version tid row (storage (tm s))) as [[[writer d]|]|]; [|done..]. simpl.
  assert (Hset : bool_decide (writer = id txn) || is_settled snap writer (state_status (tm_state (tm s))) =
    negb (bool_decide (unseen snap writer))).
  { destruct Hsn as [Hown _ Hu _ _]. apply eq_bool_prop_intro. rewrite !Is_true_true.
    rewrite orb_true_iff, negb_true_iff, bool_decide_eq_true, bool_decide_eq_false, is_settled_spec, Hown.
    unfold unseen. rewrite Hown. split.
    - intros [->|[->|(Hx & Ha & _)]] [Hne Hor]; [done..|]. destruct Hor; [lia|done].
    - intros Hn. destruct (decide (writer = id txn)) as [|Hne]; [by left|]. right. right.
      assert (Hx : (writer < xmax snap)%N ∧ writer ∉ active snap).
      { split; [apply N.lt_nge; intros ?|intros ?]; apply Hn; auto. }
      split; [apply Hx|]. split; [apply Hx|]. unfold state_status, position.
      destruct (list_find _ _) as [[i o2]|] eqn:Hfind; [|done]. exfalso. apply Hn.
      apply list_find_Some in Hfind as (Hi & Hio & _). rewrite <- Hown. apply Hu; [|done].
      apply list_elem_of_fmap. exists o2. split; [done|]. by eapply list_elem_of_lookup_2. }
  rewrite Hset. destruct (decide (unseen snap writer)) as [Hun|Hun].
  - rewrite bool_decide_true by done. simpl. by destruct (mode_for _ _).
  - by rewrite bool_decide_false.
Qed.

(** The last writer of the row is 3, which the snapshot of 2 hides. *)
Definition checking_server : TxnSystem Inner := txn_history typed_request server [ASnapshot (at_snapshot 2)].

Lemma write_check_is_exact_witness :
  check_write_conflict (at_snapshot 2) 1 1 (tm checking_server) = Ok Conflict.
Proof.
  rewrite (write_check_is_exact typed_request MemoryStorage_new checking_server (at_snapshot 2) 0
    (mkOpen (at_snapshot 2) 0 ActionLog.default 1 (Some (mkSnapshot 2 4 [3%N] 2)) None false)).
  - vm_compute. reflexivity.
  - apply txn_history_reachable, server_reachable.
  - vm_compute. reflexivity.
  - vm_compute. reflexivity.
Defined.
