(* ===== verification/IsolationTheorems.v ===== *)
(** * Theorems about the lock policy

    What the reads, the writes and the table hints of [Isolation.v] hold when they answer,
    and what they give back, each with an instance on a concrete lock table. *)

From S2P Require Import Prelude Errors Snapshot LockMode LockTable Deadlock LockManager.
From S2P Require Import LockManagerFacts LockTheorems StorageSystem MemoryStorage StorageTheorems.
From S2P Require Import Actions TxnManager Isolation.

(** ** A concrete thread *)

(** Transactions 1 and 2, both at READ COMMITTED, on a server with no data. *)
Definition server_tm : TransactionManager Inner :=
  let m := TransactionManager_new (H := memory_storage) MemoryStorage_new in
  (begin 0 IsolationLevel.ReadCommitted (begin 0 IsolationLevel.ReadCommitted m).2).2.

Definition thread_new : Thread Inner := mkThread server_tm ∅ [].

Definition txn1 : TxnHandle := mkTxnHandle 1 IsolationLevel.ReadCommitted.
Definition txn1_repeatable : TxnHandle := mkTxnHandle 1 IsolationLevel.RepeatableRead.
Definition txn2 : TxnHandle := mkTxnHandle 2 IsolationLevel.ReadCommitted.

(** A call that meets nothing. *)
Definition calm : Turn := mkTurn 0 false [].

Lemma calm_undisturbed t txn : undisturbed t txn calm.
Proof. constructor. Qed.

Lemma thread_new_ready txn : ready thread_new txn.
Proof.
  assert (Hq : ∀ r w, w ∉ queue (entry_at (lock_table thread_new) r)).
  { intros r w. unfold entry_at. simpl. rewrite lookup_empty. apply not_elem_of_nil. }
  split; [apply (reachable_ok System_new); constructor|]. intros r w Hw. by apply Hq in Hw.
Qed.

(** ** Writes *)

(** C30. A write that is let through holds the exclusive lock of the row and an intent lock
    of its table, whatever the other transactions did while it waited; no other transaction
    holds a data lock on the row, and the end of a read of the row will give nothing back. *)
Theorem write_lock_excludes {St} turn1 turn2 txn tid row hints (th : Thread St) th' :
  ready th (id txn) → undisturbed (lock_table th) (id txn) turn1 →
  undisturbed (lock_table (take turn1 (id txn) (Table tid) LockMode.IX (lock_wait_of hints) th).2) (id txn) turn2 →
  write_lock turn1 turn2 txn tid row hints th = (Some (Ok ()), th') →
  (next_ticket (lock_table th') < u64_max)%N →
  holds (lock_table th') (id txn) (Row tid row) LockMode.X ∧
  holds (lock_table th') (id txn) (Table tid) LockMode.IX ∧
  (∀ h, h ∈ holders (entry_at (lock_table th') (Row tid row)) → h_txn h ≠ id txn →
     LockMode.is_data (h_mode h) = false) ∧
  end_row_read txn tid row th' = (Ok (), th').
Proof.
  intros Hr Hu1 Hu2 Hw Hlt.
  destruct (write_lock_taken _ _ _ _ _ _ _ _ Hr Hu1 Hu2 Hw Hlt) as (Hr' & Hm & (hi & Hki & Hci) & hx & Hkx & Hcx).
  split; [by eapply kept_holds|]. split; [by eapply kept_holds|]. split; [|by apply end_row_read_unmarked].
  intros h Hh Hne. destruct (ep_holders _ (entry_at_pre _ (Row tid row) (rd_table _ _ Hr'))) as [Hc _].
  assert (Hcomp : LockMode.compatible_with (h_mode hx) (h_mode h) = true).
  { apply Hc; [apply Hkx|done|]. rewrite (kp_txn _ _ _ _ Hkx). congruence. }
  revert Hcx Hcomp. by destruct (h_mode hx), (h_mode h).
Qed.

(** Row 5 of table 7 written by transaction 1. *)
Definition written_thread : Thread Inner := (write_lock calm calm txn1 7 5 LockIntent_default thread_new).2.

Lemma write_lock_excludes_witness :
  holds (lock_table written_thread) 1 (Row 7 5) LockMode.X ∧
  end_row_read txn1 7 5 written_thread = (Ok (), written_thread).
Proof.
  refine (let H := write_lock_excludes calm calm txn1 7 5 LockIntent_default thread_new written_thread
    (thread_new_ready 1) (calm_undisturbed _ _) (calm_undisturbed _ _) _ _ in
    conj (proj1 H) (proj2 (proj2 (proj2 H)))).
  - vm_compute. reflexivity.
  - vm_compute. reflexivity.
Defined.

(** ** Reads *)

(** A read that locks its row holds the mode its level and its hints ask for and the
    matching intent lock.  When the lock is to be held to the end of the transaction, the
    end of the read changes nothing.  When it is to end with the row and the row was not
    held before, the end of the read succeeds and gives the shared lock back, but leaves a
    stronger lock taken since. *)
Theorem row_reads_end_as_their_level_says {St} turn1 turn2 txn tid row hints mode (th : Thread St) th' :
  let lvl := effective_level txn hints in
  let th1 := (take turn1 (id txn) (Table tid) (intent_of mode) (lock_wait_of hints) th).2 in
  ready th (id txn) → undisturbed (lock_table th) (id txn) turn1 → undisturbed (lock_table th1) (id txn) turn2 →
  read_mode lvl hints = Some mode →
  read_lock turn1 turn2 txn tid row hints th = (Some (Ok Locked), th') →
  (next_ticket (lock_table th') < u64_max)%N →
  holds (lock_table th') (id txn) (Row tid row) mode ∧
  holds (lock_table th') (id txn) (Table tid) (intent_of mode) ∧
  (mode ≠ LockMode.S ∨ releases_at_end_of_row lvl = false → end_row_read txn tid row th' = (Ok (), th')) ∧
  (mode = LockMode.S → releases_at_end_of_row lvl = true → data_mode_held (id txn) (Row tid row) th1 = None →
   ∃ th'', end_row_read txn tid row th' = (Ok (), th'') ∧
     if decide (data_mode_held (id txn) (Row tid row) th' = Some LockMode.S)
     then ∀ h, h ∈ holders (entry_at (lock_table th'') (Row tid row)) → h_txn h ≠ id txn
     else lock_table th'' = lock_table th').
Proof.
  intros lvl th1 Hr Hu1 Hu2 Hmode. unfold read_lock. fold lvl. rewrite Hmode.
  destruct (bool_decide (mode = LockMode.S) && _); [done|]. unfold mbind, blocking_bind.
  destruct (take turn1 _ _ _ _ th) as [[[[]|e]|] th2] eqn:H1; [|done..]. subst th1. simpl in *.
  unfold read_row. destruct (take turn2 _ _ _ _ th2) as [[[[]|e]|] th3] eqn:H2;
    [|by destruct (readpast hints)|done].
  intros Hres Hlt.
  assert (Hlock : lock_table th' = lock_table th3).
  { destruct (negb _ || negb _); [by injection Hres as <-|].
    by destruct (data_mode_held _ _ th2); injection Hres as <-. }
  rewrite Hlock in *.
  assert (Hne : Row tid row ≠ Table tid) by done.
  destruct (take_two _ _ _ _ _ _ _ _ _ _ _ _ _ Hr Hu1 Hu2 Hne H1 H2 Hlt) as (_ & _ & (hi & Hki & Hci) & Hx).
  destruct (Hx eq_refl) as (hx & Hkx & Hcx).
  split; [by eapply kept_holds|]. split; [by eapply kept_holds|]. split.
  - intros Hor. apply end_row_read_unmarked.
    assert (Hb : negb (bool_decide (mode = LockMode.S)) || negb (releases_at_end_of_row lvl) = true).
    { destruct Hor as [Hne0|Hrel]; [by rewrite bool_decide_false|]. rewrite Hrel. by rewrite orb_true_r. }
    rewrite Hb in Hres. injection Hres as <-. simpl. set_solver.
  - intros Hm Hrel Hbefore. rewrite <- Hlock. apply end_row_read_marked. subst mode.
    rewrite Hrel, Hbefore in Hres. simpl in Hres. injection Hres as <-. simpl. set_solver.
Qed.

Definition read_thread (txn : TxnHandle) : Thread Inner := (read_lock calm calm txn 7 5 LockIntent_default thread_new).2.

Lemma row_reads_end_as_their_level_says_witness :
  end_row_read txn1_repeatable 7 5 (read_thread txn1_repeatable) = (Ok (), read_thread txn1_repeatable) ∧
  ∃ th'', end_row_read txn1 7 5 (read_thread txn1) = (Ok (), th'') ∧
    ∀ h, h ∈ holders (entry_at (lock_table th'') (Row 7 5)) → h_txn h ≠ 1%N.
Proof.
  split.
  - refine (proj1 (proj2 (proj2 (row_reads_end_as_their_level_says calm calm txn1_repeatable 7 5 LockIntent_default
      LockMode.S thread_new (read_thread txn1_repeatable) (thread_new_ready 1) (calm_undisturbed _ _)
      (calm_undisturbed _ _) eq_refl _ _))) (or_intror eq_refl)); vm_compute; reflexivity.
  - refine (proj2 (proj2 (proj2 (row_reads_end_as_their_level_says calm calm txn1 7 5 LockIntent_default
      LockMode.S thread_new (read_thread txn1) (thread_new_ready 1) (calm_undisturbed _ _)
      (calm_undisturbed _ _) eq_refl _ _))) eq_refl eq_refl _); vm_compute; reflexivity.
Defined.

(** ** Table locks *)

(** C34. A transaction that has written a row does not escalate on that table as long as it lives,
    however many rows it locks, unless a table hint of its own ends there: the intent lock of the
    write is itself a data lock of the table, where [maybe_escalate] stops, and neither the reads,
    the writes, the table hints and the ends of statements that follow, by any transaction, nor the
    other threads take it away or weaken it. *)
Theorem row_writes_never_escalate {St} turn1 turn2 turn3 txn tid row hints (th th1 th2 : Thread St) :
  ready th (id txn) → undisturbed (lock_table th) (id txn) turn1 →
  undisturbed (lock_table (take turn1 (id txn) (Table tid) LockMode.IX (lock_wait_of hints) th).2) (id txn) turn2 →
  write_lock turn1 turn2 txn tid row hints th = (Some (Ok ()), th1) →
  (next_ticket (lock_table th1) < u64_max)%N →
  rtc (row_work txn tid) th1 th2 →
  maybe_escalate turn3 txn tid th2 = (Some (Ok None), th2).
Proof.
  intros Hr Hu1 Hu2 Hw Hlt Hwork.
  destruct (write_lock_taken _ _ _ _ _ _ _ _ Hr Hu1 Hu2 Hw Hlt) as (Hr' & _ & (hi & Hki & Hci) & _).
  apply guarded_stops_escalation. eapply row_work_guarded; [exact Hwork|]. eapply kept_guarded; [apply Hr'|exact Hki|exact Hci].
Qed.

(** Transaction 1 has written row 5 and then rows 6 and 7, and transaction 2 waits for row 6. *)
Definition busy_thread : Thread Inner :=
  put_locks (write_lock calm calm txn1 7 7 LockIntent_default (write_lock calm calm txn1 7 6 LockIntent_default written_thread).2).2
    (run_op (locks (th_tm (write_lock calm calm txn1 7 7 LockIntent_default
      (write_lock calm calm txn1 7 6 LockIntent_default written_thread).2).2)) (OpRequest 0 false 2 (Row 7 6) LockMode.X Infinite)).

Lemma row_writes_never_escalate_witness :
  maybe_escalate calm txn1 7 (end_statement txn1 [] busy_thread).2 = (Some (Ok None), (end_statement txn1 [] busy_thread).2).
Proof.
  apply (row_writes_never_escalate calm calm calm txn1 7 5 LockIntent_default thread_new written_thread _
    (thread_new_ready 1) (calm_undisturbed _ _) (calm_undisturbed _ _)); [vm_compute; reflexivity..|].
  eapply rtc_l; [apply (by_write txn1 7 calm calm txn1 7 6 LockIntent_default); constructor|].
  eapply rtc_l; [apply (by_write txn1 7 calm calm txn1 7 7 LockIntent_default); constructor|].
  eapply rtc_l; [apply (by_another_thread txn1 7 (OpRequest 0 false 2 (Row 7 6) LockMode.X Infinite)); exact I|].
  apply rtc_once. apply by_end_of_statement.
Defined.

(** C35. The end of a statement that took a table lock gives back everything its transaction
    holds on the table, the intent lock of the rows it has written in earlier statements
    included, while the locks of those rows stay. *)
Theorem end_table_lock_gives_the_intent_back {St} key txn tid (th th' : Thread St) :
  (key, id txn, tid) ∈ statement_table_locks th → end_table_lock key txn tid th = (Ok (), th') →
  (∀ h, h ∈ holders (entry_at (lock_table th') (Table tid)) → h_txn h ≠ id txn) ∧
  ∀ r, r ≠ Table tid → entry_at (lock_table th') r = entry_at (lock_table th) r.
Proof.
  intros Hm. unfold end_table_lock, take_statement_table_lock.
  destruct (list_find _ _) as [[pos e]|] eqn:Hf.
  - unfold unlock_resource, manager_unlock. simpl.
    destruct (unlock (LockManager.table (locks (th_tm th))) (id txn) (Table tid)) as [res t] eqn:Hu.
    intros [= -> <-]. apply unlock_entry in Hu as (_ & Hgone & _ & Hother). split; [exact Hgone|exact Hother].
  - apply list_find_None in Hf. rewrite Forall_forall in Hf. by destruct (Hf _ Hm).
Qed.

(** Transaction 1 has written row 5, then read the table under TABLOCK; transaction 2 asks
    for the whole table and gets it. *)
Definition tablock_hint : LockIntent := mkLockIntent None false false false false false true false Infinite.
Definition tablockx_hint : LockIntent := mkLockIntent None false false false false false false true Infinite.
Definition scanned_thread : Thread Inner := (table_lock 0 calm txn1 7 tablock_hint written_thread).2.

Lemma end_table_lock_gives_the_intent_back_witness :
  (∀ h, h ∈ holders (entry_at (lock_table (end_table_lock 0 txn1 7 scanned_thread).2) (Table 7)) → h_txn h ≠ 1%N) ∧
  (table_lock 0 calm txn2 7 tablockx_hint (end_table_lock 0 txn1 7 scanned_thread).2).1 = Some (Ok TableExclusive) ∧
  holders (entry_at (lock_table (table_lock 0 calm txn2 7 tablockx_hint (end_table_lock 0 txn1 7 scanned_thread).2).2)
    (Row 7 5)) = [mkHolder 1 LockMode.X].
Proof.
  split; [|vm_compute; done].
  refine (proj1 (end_table_lock_gives_the_intent_back 0 txn1 7 scanned_thread (end_table_lock 0 txn1 7 scanned_thread).2 _ _)).
  - vm_compute. by left.
  - vm_compute. reflexivity.
Defined.
