(* ===== verification/Encode.v ===== *)
(** * The row codec of the disk

    [vauban-storage/src/disk/encode.rs]: values and rows as tagged bytes.  The encoders of the
    source append to a buffer and cannot fail; here they answer the bytes they append.  The
    decoders run on a [Reader], a buffer and the offset of the next byte.  [usize] has 64
    bits, so that a [u32] always fits it. *)

From Stdlib Require Import SpecFloat.
From S2P Require Import Prelude Values Errors KeyOrder Bytes.

#[local] Open Scope Z_scope.

Definition ROW_CODEC_VERSION : Z := 1.

Definition TAG_NULL : Z := 0.
Definition TAG_BIT : Z := 1.
Definition TAG_I8 : Z := 2.
Definition TAG_I16 : Z := 3.
Definition TAG_I32 : Z := 4.
Definition TAG_I64 : Z := 5.
Definition TAG_DECIMAL : Z := 6.
Definition TAG_F64 : Z := 7.
Definition TAG_F32 : Z := 8.
Definition TAG_MONEY : Z := 9.
Definition TAG_STRING : Z := 10.
Definition TAG_BYTES : Z := 11.
Definition TAG_DATE : Z := 12.
Definition TAG_TIME : Z := 13.
Definition TAG_DATETIME : Z := 14.
Definition TAG_DATETIME2 : Z := 15.
Definition TAG_DATETIMEOFFSET : Z := 16.
Definition TAG_GUID : Z := 17.

(** [f64::to_le_bytes], [f32::to_le_bytes] and back. *)
Definition f64_to_le_bytes (f : spec_float) : list Z := to_le_bytes 8 (float_to_bits 53 1024 f).
Definition f32_to_le_bytes (f : spec_float) : list Z := to_le_bytes 4 (float_to_bits 24 128 f).
Definition f64_from_le_bytes (bytes : list Z) : spec_float := float_from_bits 53 1024 (from_le_bytes bytes).
Definition f32_from_le_bytes (bytes : list Z) : spec_float := float_from_bits 24 128 (from_le_bytes bytes).

(** ** Encoding *)

(** [u32::try_from(len).unwrap_or(u32::MAX)]. *)
Definition u32_count (len : nat) : Z := Z.min (Z.of_nat len) (2 ^ 32 - 1).

Definition encode_len_prefixed (bytes : list Z) : list Z :=
  to_le_bytes 4 (u32_count (length bytes)) ++ bytes.

Definition encode_date_payload (d : Date) : list Z := to_le_bytes 4 (date_days d).
Definition encode_time_payload (t : Time) : list Z := to_le_bytes 8 (ticks_100ns t).
Definition encode_datetime2_payload (d : DateTime2) : list Z :=
  encode_date_payload (dt2_date d) ++ encode_time_payload (dt2_time d).

Definition encode_value (v : Value) : list Z :=
  match v with
  | VNull => [TAG_NULL]
  | VBit b => [TAG_BIT; Z.b2z b]
  | VI8 x => [TAG_I8; x]
  | VI16 x => TAG_I16 :: to_le_bytes 2 x
  | VI32 x => TAG_I32 :: to_le_bytes 4 x
  | VI64 x => TAG_I64 :: to_le_bytes 8 x
  | VDecimal d => TAG_DECIMAL :: to_le_bytes 16 (mantissa d) ++ [precision d; scale d]
  | VF64 f => TAG_F64 :: f64_to_le_bytes f
  | VF32 f => TAG_F32 :: f32_to_le_bytes f
  | VMoney x => TAG_MONEY :: to_le_bytes 8 x
  | VString s => TAG_STRING :: encode_len_prefixed (as_bytes (text s))
  | VBytes bs => TAG_BYTES :: encode_len_prefixed bs
  | VDate d => TAG_DATE :: encode_date_payload d
  | VTime t => TAG_TIME :: encode_time_payload t
  | VDateTime d => TAG_DATETIME :: to_le_bytes 4 (dt_days d) ++ to_le_bytes 4 (ticks_300th d)
  | VDateTime2 d => TAG_DATETIME2 :: encode_datetime2_payload d
  | VDateTimeOffset d =>
      TAG_DATETIMEOFFSET :: encode_datetime2_payload (utc d) ++ to_le_bytes 2 (offset_minutes d)
  | VGuid bs => TAG_GUID :: bs
  end.

Definition encode_row (row : Row) : list Z :=
  ROW_CODEC_VERSION :: to_le_bytes 4 (u32_count (length (values row))) ++ (values row ≫= encode_value).

(** ** The reader *)

Record Reader := mkReader { r_bytes : list Z; r_at : N }.

Notation reading := (stateful Reader InternalError).

Definition Reader_new (bytes : list Z) : Reader := mkReader bytes 0.
Definition position (r : Reader) : N := r_at r.
Definition remaining (r : Reader) : N := (N.of_nat (length (r_bytes r)) - r_at r)%N.

(** [usize::saturating_add]. *)
Definition saturating_add (a b : N) : N := N.min (a + b) u64_max.

Definition take (len : N) (what : string) : reading (list Z) := λ r,
  let stop := saturating_add (r_at r) len in
  if (N.of_nat (length (r_bytes r)) <? stop)%N then
    (Err (Corruption [Lit what; Lit " needs "; Num len; Lit " bytes at offset "; Num (r_at r);
       Lit ", the buffer has "; Num (remaining r); Lit " left"]), r)
  else (Ok (slice (N.to_nat (r_at r)) (N.to_nat (stop - r_at r)) (r_bytes r)), mkReader (r_bytes r) stop).

(** [self.take(1, what)?[0]]. *)
Definition byte (what : string) : reading Z :=
  bytes ← take 1 what; mret (nth 0 bytes 0).

Definition array (n : nat) (what : string) : reading (list Z) := take (N.of_nat n) what.

Definition len_prefixed (what : string) : reading (list Z) :=
  announced ← array 4 what;
  take (Z.to_N (from_le_bytes announced)) what.

(** ** Decoding *)

Definition read_date_payload : reading Date :=
  days ← array 4 "date days"; mret (mkDate (signed_from_le_bytes days)).

Definition read_time_payload : reading Time :=
  ticks ← array 8 "time ticks"; mret (mkTime (from_le_bytes ticks)).

Definition read_datetime2_payload : reading DateTime2 :=
  date ← read_date_payload; time ← read_time_payload; mret (mkDateTime2 date time).

(** The display of a [Utf8Error]. *)
Definition display_utf8_error (e : Utf8Error) : Message :=
  match error_len e with
  | Some n => [Lit "invalid utf-8 sequence of "; Num n; Lit " bytes from index "; Num (valid_up_to e)]
  | None => [Lit "incomplete utf-8 byte sequence from index "; Num (valid_up_to e)]
  end.

(** The payload of a tag read at [tag_at]. *)
Definition read_payload (tag_at : N) (tag : Z) : reading Value :=
  if tag =? TAG_NULL then mret VNull
  else if tag =? TAG_BIT then
    at_ ← reads (λ r, Ok (position r));
    b ← byte "bit payload";
    if b =? 0 then mret (VBit false)
    else if b =? 1 then mret (VBit true)
    else fails (Corruption [Lit "bit payload "; Num (Z.to_N b); Lit " at offset "; Num at_;
      Lit ", expected 0 or 1"])
  else if tag =? TAG_I8 then x ← byte "tinyint payload"; mret (VI8 x)
  else if tag =? TAG_I16 then x ← array 2 "smallint payload"; mret (VI16 (signed_from_le_bytes x))
  else if tag =? TAG_I32 then x ← array 4 "int payload"; mret (VI32 (signed_from_le_bytes x))
  else if tag =? TAG_I64 then x ← array 8 "bigint payload"; mret (VI64 (signed_from_le_bytes x))
  else if tag =? TAG_DECIMAL then
    m ← array 16 "decimal mantissa";
    p ← byte "decimal precision";
    s ← byte "decimal scale";
    mret (VDecimal (mkDecimal (signed_from_le_bytes m) p s))
  else if tag =? TAG_F64 then x ← array 8 "float payload"; mret (VF64 (f64_from_le_bytes x))
  else if tag =? TAG_F32 then x ← array 4 "real payload"; mret (VF32 (f32_from_le_bytes x))
  else if tag =? TAG_MONEY then x ← array 8 "money payload"; mret (VMoney (signed_from_le_bytes x))
  else if tag =? TAG_STRING then
    at_ ← reads (λ r, Ok (position r));
    bytes ← len_prefixed "string payload";
    match from_utf8 bytes with
    | Ok s => mret (VString (mkSqlString s))
    | Err e => fails (Corruption ([Lit "string payload at offset "; Num at_;
        Lit " is not valid UTF-8: "] ++ display_utf8_error e))
    end
  else if tag =? TAG_BYTES then x ← len_prefixed "binary payload"; mret (VBytes x)
  else if tag =? TAG_DATE then x ← read_date_payload; mret (VDate x)
  else if tag =? TAG_TIME then x ← read_time_payload; mret (VTime x)
  else if tag =? TAG_DATETIME then
    d ← array 4 "datetime days";
    t ← array 4 "datetime ticks";
    mret (VDateTime (mkDateTime (signed_from_le_bytes d) (from_le_bytes t)))
  else if tag =? TAG_DATETIME2 then x ← read_datetime2_payload; mret (VDateTime2 x)
  else if tag =? TAG_DATETIMEOFFSET then
    u ← read_datetime2_payload;
    o ← array 2 "datetimeoffset offset";
    mret (VDateTimeOffset (mkDateTimeOffset u (signed_from_le_bytes o)))
  else if tag =? TAG_GUID then x ← array 16 "uniqueidentifier payload"; mret (VGuid x)
  else fails (Corruption [Lit "unknown value tag "; Num (Z.to_N tag); Lit " at offset "; Num tag_at]).

Definition read_value : reading Value :=
  tag_at ← reads (λ r, Ok (position r));
  tag ← byte "value tag";
  read_payload tag_at tag.

Definition decode_value (bytes : list Z) : result InternalError (Value * N) :=
  match read_value (Reader_new bytes) with
  | (Ok v, r) => Ok (v, position r)
  | (Err e, _) => Err e
  end.

(** [map_err] of the loop of [decode_row]. *)
Definition in_column (column : N) (e : InternalError) : InternalError :=
  match e with
  | Corruption reason => Corruption ([Lit "column "; Num column; Lit " of a row: "] ++ reason)
  | other => other
  end.

(** The loop over the columns.  A value takes a byte at least, so that the loop makes at most
    one turn more than there are bytes left: [fuel] is above that, and the branch that runs out
    of it is not taken. *)
Fixpoint read_columns (fuel : nat) (column columns : N) : reading (list Value) := λ r,
  if (column <? columns)%N then
    match fuel with
    | O => (Ok [], r)
    | S fuel =>
        match read_value r with
        | (Err e, r) => (Err (in_column column e), r)
        | (Ok v, r) =>
            match read_columns fuel (column + 1) columns r with
            | (Ok vs, r) => (Ok (v :: vs), r)
            | (Err e, r) => (Err e, r)
            end
        end
    end
  else (Ok [], r).

Definition decode_row_from (bytes : list Z) : reading Row :=
  codec ← byte "row codec version";
  if negb (codec =? ROW_CODEC_VERSION) then
    fails (Corruption [Lit "row declares codec version "; Num (Z.to_N codec); Lit ", this build reads ";
      Num (Z.to_N ROW_CODEC_VERSION)])
  else
    count ← array 4 "row column count";
    let columns := Z.to_N (from_le_bytes count) in
    vs ← read_columns (S (length bytes)) 0 columns;
    left ← reads (λ r, Ok (remaining r));
    if negb (left =? 0)%N then
      fails (Corruption [Lit "row of "; Num columns; Lit " columns leaves "; Num left; Lit " unread bytes"])
    else mret (mkRow vs).

Definition decode_row (bytes : list Z) : result InternalError Row :=
  (decode_row_from bytes (Reader_new bytes)).1.
