(* ===== verification/EncodeFacts.v ===== *)
(** * The row codec reads back what it writes

    [reads_to] says what a reader answers on the bytes of an encoding wherever they stand in a
    buffer, [well_read] what it answers on any buffer; both go through the binds of the
    decoders. *)

From Stdlib Require Import SpecFloat.
From S2P Require Import Prelude Values Errors KeyOrder Bytes Encode.

#[local] Open Scope Z_scope.
#[local] Opaque to_le_bytes from_le_bytes.

(** The values of the types of the source: integers of their width, texts of characters,
    payloads whose length fits the field that counts it. *)
Definition date_fits (d : Date) : Prop := signed_fits 4 (date_days d).
Definition time_fits (t : Time) : Prop := unsigned_fits 8 (ticks_100ns t).
Definition dt2_fits (d : DateTime2) : Prop := date_fits (dt2_date d) ∧ time_fits (dt2_time d).
Definition payload_fits (bytes : list Z) : Prop :=
  Forall is_byte bytes ∧ Z.of_nat (length bytes) < 2 ^ 32.

Definition value_fits (v : Value) : Prop :=
  match v with
  | VNull | VBit _ => True
  | VI8 x => is_byte x
  | VI16 x => signed_fits 2 x
  | VI32 x => signed_fits 4 x
  | VI64 x | VMoney x => signed_fits 8 x
  | VDecimal d => signed_fits 16 (mantissa d) ∧ is_byte (precision d) ∧ is_byte (scale d)
  | VF64 f => valid_binary 53 1024 f = true
  | VF32 f => valid_binary 24 128 f = true
  | VString s => Forall is_scalar (text s) ∧ payload_fits (as_bytes (text s))
  | VBytes bs => payload_fits bs
  | VDate d => date_fits d
  | VTime t => time_fits t
  | VDateTime d => signed_fits 4 (dt_days d) ∧ unsigned_fits 4 (ticks_300th d)
  | VDateTime2 d => dt2_fits d
  | VDateTimeOffset d => dt2_fits (utc d) ∧ signed_fits 2 (offset_minutes d)
  | VGuid bs => Forall is_byte bs ∧ length bs = 16%nat
  end.

Definition row_fits_codec (row : Row) : Prop :=
  Forall value_fits (values row) ∧ Z.of_nat (length (values row)) < 2 ^ 32.

(** A buffer of the source: its length is an [isize]. *)
Definition buffer (bytes : list Z) : Prop := (N.of_nat (length bytes) < 2 ^ 63)%N.

Lemma buffer_saturating bytes at_ n :
  buffer bytes → (saturating_add at_ n ≤ N.of_nat (length bytes))%N ↔ (at_ + n ≤ N.of_nat (length bytes))%N.
Proof. unfold buffer, saturating_add, u64_max. change (2 ^ 63)%N with 9223372036854775808%N. lia. Qed.

Lemma saturating_small bytes at_ n :
  buffer bytes → (at_ + n ≤ N.of_nat (length bytes))%N → saturating_add at_ n = (at_ + n)%N.
Proof. unfold buffer, saturating_add, u64_max. change (2 ^ 63)%N with 9223372036854775808%N. lia. Qed.

(** ** Reading an encoding *)

Definition reads_to {A} (m : reading A) (bytes : list Z) (a : A) : Prop := ∀ pre post,
  buffer (pre ++ bytes ++ post) →
  m (mkReader (pre ++ bytes ++ post) (N.of_nat (length pre))) =
  (Ok a, mkReader (pre ++ bytes ++ post) (N.of_nat (length (pre ++ bytes)))).

Lemma reads_to_ret {A} (a : A) : reads_to (mret a) [] a.
Proof. intros pre post _. by rewrite app_nil_r. Qed.

Lemma reads_to_bind {A B} (m : reading A) (f : A → reading B) b1 b2 a c :
  reads_to m b1 a → reads_to (f a) b2 c → reads_to (m ≫= f) (b1 ++ b2) c.
Proof.
  intros Hm Hf pre post Hbuf. unfold mbind, stateful_bind.
  specialize (Hm pre (b2 ++ post)). rewrite <- app_assoc in Hbuf. rewrite <- app_assoc, Hm by done.
  specialize (Hf (pre ++ b1) post). rewrite <- app_assoc in Hf. rewrite Hf by done.
  by rewrite <- app_assoc.
Qed.

Lemma reads_to_bind_ret {A B} (m : reading A) (f : A → B) b a :
  reads_to m b a → reads_to (m ≫= λ x, mret (f x)) b (f a).
Proof.
  intros Hm. rewrite <- (app_nil_r b). eapply reads_to_bind; [exact Hm|apply reads_to_ret].
Qed.

(** The current position, for the messages. *)
Lemma reads_to_position {A} (f : N → reading A) b a :
  (∀ at_, reads_to (f at_) b a) → reads_to (at_ ← reads (λ r, Ok (position r)); f at_) b a.
Proof. intros Hf pre post Hbuf. by apply Hf. Qed.

Lemma reads_to_take bytes what : reads_to (take (N.of_nat (length bytes)) what) bytes bytes.
Proof.
  intros pre post Hbuf. unfold take. cbn [r_at r_bytes].
  assert (Hle : (N.of_nat (length pre) + N.of_nat (length bytes) ≤ N.of_nat (length (pre ++ bytes ++ post)))%N)
    by (rewrite !length_app; lia).
  rewrite (saturating_small _ _ _ Hbuf Hle), (proj2 (N.ltb_ge _ _)) by done.
  rewrite (N.add_comm (N.of_nat (length pre))), N.add_sub, !Nat2N.id. f_equal.
  - f_equal. rewrite (slice_skip (length pre)) by done. rewrite Nat.sub_diag. by apply slice_here.
  - f_equal. rewrite length_app. lia.
Qed.

Lemma reads_to_byte b what : reads_to (byte what) [b] b.
Proof. apply (reads_to_bind_ret _ (λ bytes, nth 0 bytes 0) [b] [b]). apply (reads_to_take [b]). Qed.

Lemma reads_to_array n bytes what : length bytes = n → reads_to (array n what) bytes bytes.
Proof. intros <-. apply reads_to_take. Qed.

Lemma reads_to_le n x what : reads_to (array n what) (to_le_bytes n x) (to_le_bytes n x).
Proof. apply reads_to_array, length_to_le_bytes. Qed.

Lemma u32_count_fits n : unsigned_fits 4 (u32_count n).
Proof. unfold unsigned_fits, u32_count. change (8 * Z.of_nat 4) with 32. lia. Qed.

Lemma u32_count_exact n : Z.of_nat n < 2 ^ 32 → u32_count n = Z.of_nat n.
Proof. unfold u32_count. lia. Qed.

Lemma reads_to_len_prefixed bytes what :
  payload_fits bytes → reads_to (len_prefixed what) (encode_len_prefixed bytes) bytes.
Proof.
  intros [_ Hlen]. unfold len_prefixed, encode_len_prefixed.
  eapply reads_to_bind; [apply reads_to_le|]. cbn beta.
  rewrite from_to_le_bytes_fits, u32_count_exact by (apply u32_count_fits || done).
  rewrite <- nat_N_Z, N2Z.id. apply reads_to_take.
Qed.

Lemma reads_to_date d : date_fits d → reads_to read_date_payload (encode_date_payload d) d.
Proof.
  intros Hd. unfold read_date_payload, encode_date_payload.
  replace d with (mkDate (signed_from_le_bytes (to_le_bytes 4 (date_days d)))) at 2
    by (rewrite signed_from_to_le_bytes by done; by destruct d).
  apply (reads_to_bind_ret (array 4 _) (λ x, mkDate (signed_from_le_bytes x))), reads_to_le.
Qed.

Lemma reads_to_time t : time_fits t → reads_to read_time_payload (encode_time_payload t) t.
Proof.
  intros Ht. unfold read_time_payload, encode_time_payload.
  replace t with (mkTime (from_le_bytes (to_le_bytes 8 (ticks_100ns t)))) at 2
    by (rewrite from_to_le_bytes_fits by done; by destruct t).
  apply (reads_to_bind_ret (array 8 _) (λ x, mkTime (from_le_bytes x))), reads_to_le.
Qed.

Lemma reads_to_datetime2 d : dt2_fits d → reads_to read_datetime2_payload (encode_datetime2_payload d) d.
Proof.
  destruct d as [d t]. intros [Hd Ht]. unfold read_datetime2_payload, encode_datetime2_payload.
  eapply reads_to_bind; [by apply reads_to_date|]. cbn beta.
  apply (reads_to_bind_ret _ (λ t, mkDateTime2 d t)). by apply reads_to_time.
Qed.

(** A payload of one field. *)
Lemma reads_to_field {B} n x what (f : list Z → B) b :
  f (to_le_bytes n x) = b → reads_to (y ← array n what; mret (f y)) (to_le_bytes n x) b.
Proof. intros <-. apply (reads_to_bind_ret (array n what) f), reads_to_le. Qed.

Lemma valid_f64_bits f : valid_binary 53 1024 f = true → f64_from_le_bytes (f64_to_le_bytes f) = f.
Proof.
  intros Hf. unfold f64_from_le_bytes, f64_to_le_bytes. rewrite from_to_le_bytes_fits.
  - by apply float_from_to_bits.
  - exact (float_to_bits_bound 53 1024 ltac:(lia) ltac:(lia) f Hf).
Qed.

Lemma valid_f32_bits f : valid_binary 24 128 f = true → f32_from_le_bytes (f32_to_le_bytes f) = f.
Proof.
  intros Hf. unfold f32_from_le_bytes, f32_to_le_bytes. rewrite from_to_le_bytes_fits.
  - by apply float_from_to_bits.
  - exact (float_to_bits_bound 24 128 ltac:(lia) ltac:(lia) f Hf).
Qed.

(** The bytes after the tag of a value. *)
Lemma encode_value_tag v : ∃ tag body, encode_value v = tag :: body.
Proof. destruct v; eauto. Qed.

Ltac pick_tag := unfold read_payload; cbv [Z.eqb Pos.eqb TAG_NULL TAG_BIT TAG_I8 TAG_I16 TAG_I32 TAG_I64
  TAG_DECIMAL TAG_F64 TAG_F32 TAG_MONEY TAG_STRING TAG_BYTES TAG_DATE TAG_TIME TAG_DATETIME
  TAG_DATETIME2 TAG_DATETIMEOFFSET TAG_GUID].

Lemma reads_to_payload v tag body tag_at :
  value_fits v → encode_value v = tag :: body → reads_to (read_payload tag_at tag) body v.
Proof.
  destruct v as [|b|x|x|x|x|d|f|f|x|s|bs|d|t|d|d|d|bs]; intros Hv [= <- <-]; simpl in Hv; pick_tag.
  - apply reads_to_ret.
  - apply reads_to_position. intros at_. apply (reads_to_bind _ _ [Z.b2z b] [] (Z.b2z b)); [apply reads_to_byte|].
    destruct b; apply reads_to_ret.
  - apply (reads_to_bind_ret _ VI8), reads_to_byte.
  - apply (reads_to_field _ _ _ (λ y, VI16 (signed_from_le_bytes y))). by rewrite signed_from_to_le_bytes.
  - apply (reads_to_field _ _ _ (λ y, VI32 (signed_from_le_bytes y))). by rewrite signed_from_to_le_bytes.
  - apply (reads_to_field _ _ _ (λ y, VI64 (signed_from_le_bytes y))). by rewrite signed_from_to_le_bytes.
  - destruct d as [m p s]. destruct Hv as (Hm & Hp & Hs). cbn [mantissa precision scale] in *.
    eapply reads_to_bind; [apply reads_to_le|]. cbn beta.
    rewrite signed_from_to_le_bytes by done. apply (reads_to_bind _ _ [p] [s] p); [apply reads_to_byte|].
    apply (reads_to_bind_ret _ (λ s, VDecimal (mkDecimal m p s))), reads_to_byte.
  - apply (reads_to_field _ _ _ (λ y, VF64 (f64_from_le_bytes y))). f_equal. by apply valid_f64_bits.
  - apply (reads_to_field _ _ _ (λ y, VF32 (f32_from_le_bytes y))). f_equal. by apply valid_f32_bits.
  - apply (reads_to_field _ _ _ (λ y, VMoney (signed_from_le_bytes y))). by rewrite signed_from_to_le_bytes.
  - destruct s as [s]. destruct Hv as [Hs Hp]. apply reads_to_position. intros at_.
    rewrite <- (app_nil_r (encode_len_prefixed _)).
    eapply reads_to_bind; [by apply reads_to_len_prefixed|]. cbn beta.
    rewrite from_utf8_as_bytes by done. apply reads_to_ret.
  - by apply (reads_to_bind_ret _ VBytes), reads_to_len_prefixed.
  - by apply (reads_to_bind_ret _ VDate), reads_to_date.
  - by apply (reads_to_bind_ret _ VTime), reads_to_time.
  - destruct d as [d t]. destruct Hv as [Hd Ht]. cbn [dt_days ticks_300th] in *.
    eapply reads_to_bind; [apply reads_to_le|]. cbn beta.
    rewrite signed_from_to_le_bytes by done.
    apply (reads_to_field _ _ _ (λ y, VDateTime (mkDateTime d (from_le_bytes y)))).
    by rewrite from_to_le_bytes_fits.
  - by apply (reads_to_bind_ret _ VDateTime2), reads_to_datetime2.
  - destruct d as [u o]. destruct Hv as [Hu Ho]. cbn [utc offset_minutes] in *.
    eapply reads_to_bind; [by apply reads_to_datetime2|]. cbn beta.
    apply (reads_to_field _ _ _ (λ y, VDateTimeOffset (mkDateTimeOffset u (signed_from_le_bytes y)))).
    by rewrite signed_from_to_le_bytes.
  - destruct Hv as [_ Hlen]. by apply (reads_to_bind_ret _ VGuid), reads_to_array.
Qed.

Lemma reads_to_value v : value_fits v → reads_to read_value (encode_value v) v.
Proof.
  intros Hv. destruct (encode_value_tag v) as (tag & body & He). rewrite He.
  unfold read_value. apply reads_to_position. intros at_.
  apply (reads_to_bind _ _ [tag] body tag); [apply reads_to_byte|]. by apply reads_to_payload.
Qed.

Lemma reads_to_columns fuel column columns vs :
  Forall value_fits vs → (length vs ≤ fuel)%nat → (columns = column + N.of_nat (length vs))%N →
  reads_to (read_columns fuel column columns) (vs ≫= encode_value) vs.
Proof.
  intros Hvs. revert fuel column. induction Hvs as [|v vs Hv _ IH]; intros fuel column Hf ->.
  - intros pre post _. destruct fuel; simpl; rewrite (proj2 (N.ltb_ge _ _)) by lia; by rewrite app_nil_r.
  - destruct fuel as [|fuel]; [simpl in Hf; lia|]. intros pre post Hbuf. cbn [read_columns].
    rewrite (proj2 (N.ltb_lt _ _)) by (simpl; lia).
    rewrite bind_cons, <- (app_assoc (encode_value v)) in Hbuf |- *.
    rewrite (reads_to_value v Hv pre) by done.
    specialize (IH fuel (column + 1)%N ltac:(simpl in Hf; lia) ltac:(simpl; lia) (pre ++ encode_value v) post).
    rewrite <- !(app_assoc pre) in IH. rewrite IH by done. done.
Qed.

Lemma encode_value_nonempty v : (1 ≤ length (encode_value v))%nat.
Proof. destruct (encode_value_tag v) as (tag & body & ->). simpl. lia. Qed.

Lemma encode_values_length vs : (length vs ≤ length (vs ≫= encode_value))%nat.
Proof.
  induction vs as [|v vs IH]; [done|]. rewrite bind_cons, length_app. simpl.
  pose proof (encode_value_nonempty v). lia.
Qed.

(** [decode_row] undoes [encode_row]. *)
Lemma decode_encode_row row :
  row_fits_codec row → buffer (encode_row row) → decode_row (encode_row row) = Ok row.
Proof.
  destruct row as [vs]. intros [Hvs Hn] Hbuf. unfold decode_row, decode_row_from. cbn [values] in *.
  set (bytes := encode_row (mkRow vs)) in *.
  assert (Hlen : (length vs ≤ S (length bytes))%nat).
  { unfold bytes, encode_row. simpl. rewrite length_app. pose proof (encode_values_length vs). lia. }
  assert (Hr : reads_to (codec ← byte "row codec version";
    count ← array 4 "row column count";
    read_columns (S (length bytes)) 0 (Z.to_N (from_le_bytes count))) bytes vs).
  { change bytes with ([ROW_CODEC_VERSION] ++ to_le_bytes 4 (u32_count (length vs)) ++ (vs ≫= encode_value)).
    eapply reads_to_bind; [apply reads_to_byte|]. eapply reads_to_bind; [apply reads_to_le|]. cbn beta.
    rewrite from_to_le_bytes_fits, u32_count_exact by (apply u32_count_fits || done).
    apply reads_to_columns; [done..|lia]. }
  assert (Hb : ∃ r, byte "row codec version" (mkReader bytes 0) = (Ok ROW_CODEC_VERSION, r))
    by (eexists; exact (reads_to_byte ROW_CODEC_VERSION "row codec version" [] _ Hbuf)).
  specialize (Hr [] []). rewrite app_nil_r in Hr. specialize (Hr Hbuf). clearbody bytes.
  destruct Hb as [r1 Hb]. cbn [app] in Hr. change (N.of_nat (length [])) with 0%N in Hr.
  unfold mbind, stateful_bind in *. change (Reader_new bytes) with (mkReader bytes 0).
  rewrite Hb in Hr |- *. rewrite Z.eqb_refl. cbn [negb].
  destruct (array 4 _ r1) as [[count|] r2]; [|done].
  destruct (read_columns _ _ _ r2) as [[vs'|] r3]; [|done]. injection Hr as -> ->. cbn [reads].
  unfold remaining. cbn [r_bytes r_at]. by rewrite N.sub_diag.
Qed.

(** ** Reading any buffer *)

Definition is_corruption (e : InternalError) : Prop := ∃ m, e = Corruption m.

(** A reader inside its buffer. *)
Definition reader_ok (r : Reader) : Prop :=
  Forall is_byte (r_bytes r) ∧ buffer (r_bytes r) ∧ (r_at r ≤ N.of_nat (length (r_bytes r)))%N.

(** The same reader with more bytes after those of its buffer. *)
Definition with_more (r : Reader) (post : list Z) : Reader := mkReader (r_bytes r ++ post) (r_at r).

(** [m] answers a value that satisfies [P] after at least [k] bytes, and the same value when
    the buffer is longer, or reports corruption. *)
Definition well_read {A} (k : N) (m : reading A) (P : A → Prop) : Prop := ∀ r, reader_ok r →
  match m r with
  | (Ok a, r') =>
      r_bytes r' = r_bytes r ∧ reader_ok r' ∧ (r_at r + k ≤ r_at r')%N ∧ P a ∧
      ∀ post, buffer (r_bytes r ++ post) → m (with_more r post) = (Ok a, with_more r' post)
  | (Err e, _) => is_corruption e
  end.

Lemma well_read_ret {A} (a : A) (P : A → Prop) : P a → well_read 0 (mret a) P.
Proof. intros Ha r Hr. simpl. rewrite N.add_0_r. eauto with lia. Qed.

Lemma well_read_bind {A B} k l n (m : reading A) (f : A → reading B) P Q :
  well_read k m P → (∀ a, P a → well_read l (f a) Q) → (n ≤ k + l)%N → well_read n (m ≫= f) Q.
Proof.
  intros Hm Hf Hn r Hr. specialize (Hm r Hr). unfold mbind, stateful_bind.
  destruct (m r) as [[a|e] r1]; [|done]. destruct Hm as (Hb1 & Hr1 & Ha1 & HP & Hext1).
  specialize (Hf a HP r1 Hr1). destruct (f a r1) as [[b|e] r2]; [|done].
  destruct Hf as (Hb2 & Hr2 & Ha2 & HQ & Hext2). split_and!; [congruence|done|lia|done|].
  intros post Hp. rewrite Hext1 by done. apply Hext2. by rewrite Hb1.
Qed.

Lemma well_read_map {A B} k (m : reading A) (f : A → B) P (Q : B → Prop) :
  well_read k m P → (∀ a, P a → Q (f a)) → well_read k (m ≫= λ x, mret (f x)) Q.
Proof.
  intros Hm HQ. eapply well_read_bind; [exact Hm| |by rewrite N.add_0_r].
  intros a Ha. by apply well_read_ret, HQ.
Qed.

Lemma well_read_fails {A} m (P : A → Prop) : well_read 0 (fails (Corruption m)) P.
Proof. intros r Hr. simpl. by eexists. Qed.

Lemma well_read_mono {A} k l (m : reading A) (P : A → Prop) : (l ≤ k)%N → well_read k m P → well_read l m P.
Proof. intros Hle Hm r Hr. specialize (Hm r Hr). destruct (m r) as [[a|e] r']; [|done]. naive_solver lia. Qed.

Lemma well_read_position {A} k (f : N → reading A) P :
  (∀ at_, well_read k (f at_) P) → well_read k (at_ ← reads (λ r, Ok (position r)); f at_) P.
Proof. intros Hf r Hr. apply (Hf (position r) r Hr). Qed.

Lemma well_read_take n what :
  well_read n (take n what) (λ bytes, length bytes = N.to_nat n ∧ Forall is_byte bytes).
Proof.
  intros r (Hb & Hbuf & Hat). unfold take.
  destruct (N.ltb_spec (N.of_nat (length (r_bytes r))) (saturating_add (r_at r) n)) as [|Hge].
  { simpl. by eexists. }
  apply buffer_saturating in Hge; [|done]. rewrite (saturating_small _ _ _ Hbuf Hge).
  split_and!; [done| |simpl; lia| | |].
  - split_and!; [done|done|simpl; lia].
  - rewrite length_slice by lia. f_equal. lia.
  - by apply slice_Forall.
  - intros post Hp. cbn [with_more r_bytes r_at].
    assert (Hge' : (r_at r + n ≤ N.of_nat (length (r_bytes r ++ post)))%N) by (rewrite length_app; lia).
    rewrite (saturating_small _ _ _ Hp Hge'), (proj2 (N.ltb_ge _ _)) by done.
    rewrite slice_app_l by lia. done.
Qed.

Lemma well_read_byte what : well_read 1 (byte what) is_byte.
Proof.
  eapply well_read_map; [apply well_read_take|]. intros [|b bytes] [Hlen Hb]; [done|].
  by inversion Hb.
Qed.

Lemma well_read_array n what :
  well_read (N.of_nat n) (array n what) (λ bytes, length bytes = n ∧ Forall is_byte bytes).
Proof.
  unfold array. pose proof (well_read_take (N.of_nat n) what) as Hw. by rewrite Nat2N.id in Hw.
Qed.

Lemma well_read_len_prefixed what : well_read 0 (len_prefixed what) payload_fits.
Proof.
  eapply (well_read_bind _ 0); [apply well_read_array| |apply N.le_0_l]. cbn beta. intros a [Ha Hb].
  pose proof (from_le_bytes_bound a Hb) as Hf. rewrite Ha in Hf. unfold unsigned_fits in Hf.
  change (8 * Z.of_nat 4) with 32 in Hf. intros r Hr.
  pose proof (well_read_take (Z.to_N (from_le_bytes a)) what r Hr) as Hw.
  destruct (take _ _ r) as [[bytes|e] r']; [|done]. destruct Hw as (? & ? & ? & [Hlen ?] & ?).
  split_and!; [done|done|lia|split; [done|lia]|done].
Qed.

Lemma signed_le_fits bytes n :
  (n ≠ 0)%nat → length bytes = n ∧ Forall is_byte bytes → signed_fits n (signed_from_le_bytes bytes).
Proof.
  intros Hn [<- Hb]. unfold signed_from_le_bytes. by apply signed_of_bound, from_le_bytes_bound.
Qed.

Lemma unsigned_le_fits bytes n :
  length bytes = n ∧ Forall is_byte bytes → unsigned_fits n (from_le_bytes bytes).
Proof. intros [<- Hb]. by apply from_le_bytes_bound. Qed.

(** A field of [n] bytes, as part of a value. *)
Lemma well_read_field {B} n what (f : list Z → B) (Q : B → Prop) :
  (∀ bytes, length bytes = n ∧ Forall is_byte bytes → Q (f bytes)) →
  well_read 0 (x ← array n what; mret (f x)) Q.
Proof.
  intros HQ. eapply well_read_mono; [|eapply well_read_map; [apply well_read_array|exact HQ]]. lia.
Qed.

Lemma well_read_date : well_read 0 read_date_payload date_fits.
Proof. apply (well_read_field 4). intros bytes Hb. by apply signed_le_fits. Qed.

Lemma well_read_time : well_read 0 read_time_payload time_fits.
Proof. apply (well_read_field 8). intros bytes Hb. by apply unsigned_le_fits. Qed.

Lemma well_read_datetime2 : well_read 0 read_datetime2_payload dt2_fits.
Proof.
  eapply well_read_bind; [apply well_read_date| |apply N.le_0_l]. intros d Hd.
  eapply well_read_map; [apply well_read_time|]. by intros t Ht.
Qed.

Lemma well_read_payload tag_at tag : well_read 0 (read_payload tag_at tag) value_fits.
Proof.
  unfold read_payload.
  destruct (tag =? TAG_NULL); [by apply well_read_ret|].
  destruct (tag =? TAG_BIT).
  { apply well_read_position. intros at_. eapply well_read_bind; [apply well_read_byte| |apply N.le_0_l].
    intros b _. destruct (b =? 0); [by apply well_read_ret|]. destruct (b =? 1); [by apply well_read_ret|].
    apply well_read_fails. }
  destruct (tag =? TAG_I8).
  { eapply well_read_mono; [apply N.le_0_l|]. eapply well_read_map; [apply well_read_byte|done]. }
  destruct (tag =? TAG_I16); [by apply (well_read_field 2); intros; apply signed_le_fits|].
  destruct (tag =? TAG_I32); [by apply (well_read_field 4); intros; apply signed_le_fits|].
  destruct (tag =? TAG_I64); [by apply (well_read_field 8); intros; apply signed_le_fits|].
  destruct (tag =? TAG_DECIMAL).
  { eapply well_read_bind; [apply well_read_array| |apply N.le_0_l]. intros m Hm.
    eapply well_read_bind; [apply well_read_byte| |apply N.le_0_l]. intros p Hp.
    eapply well_read_map; [apply well_read_byte|]. intros s Hs. simpl. split_and!; [|done..].
    by apply signed_le_fits. }
  destruct (tag =? TAG_F64).
  { apply (well_read_field 8). intros bytes Hb. apply float_from_bits_valid; [lia..|].
    exact (unsigned_le_fits bytes 8 Hb). }
  destruct (tag =? TAG_F32).
  { apply (well_read_field 4). intros bytes Hb. apply float_from_bits_valid; [lia..|].
    exact (unsigned_le_fits bytes 4 Hb). }
  destruct (tag =? TAG_MONEY); [by apply (well_read_field 8); intros; apply signed_le_fits|].
  destruct (tag =? TAG_STRING).
  { apply well_read_position. intros at_. eapply well_read_bind; [apply well_read_len_prefixed| |apply N.le_0_l].
    intros bytes Hb. destruct (from_utf8 bytes) as [s|e] eqn:Hs; [|apply well_read_fails].
    apply well_read_ret. pose proof Hs as Hs'. apply from_utf8_scalar in Hs'; [|apply Hb].
    split; [done|]. cbn [text]. by rewrite (from_utf8_exact bytes s) by (apply Hb || done). }
  destruct (tag =? TAG_BYTES); [by eapply well_read_map; [apply well_read_len_prefixed|]|].
  destruct (tag =? TAG_DATE); [by eapply well_read_map; [apply well_read_date|]|].
  destruct (tag =? TAG_TIME); [by eapply well_read_map; [apply well_read_time|]|].
  destruct (tag =? TAG_DATETIME).
  { eapply well_read_bind; [apply well_read_array| |apply N.le_0_l]. intros d Hd.
    eapply well_read_map; [apply well_read_array|]. intros t Ht. simpl.
    split; [by apply signed_le_fits|by apply unsigned_le_fits]. }
  destruct (tag =? TAG_DATETIME2); [by eapply well_read_map; [apply well_read_datetime2|]|].
  destruct (tag =? TAG_DATETIMEOFFSET).
  { eapply well_read_bind; [apply well_read_datetime2| |apply N.le_0_l]. intros u Hu.
    apply (well_read_field 2). intros o Ho. split; [done|by apply signed_le_fits]. }
  destruct (tag =? TAG_GUID); [|apply well_read_fails].
  apply (well_read_field 16). intros bytes [Hlen Hb]. done.
Qed.

Lemma well_read_value : well_read 1 read_value value_fits.
Proof.
  apply well_read_position. intros at_. eapply well_read_bind; [apply well_read_byte| |].
  - intros tag _. apply well_read_payload.
  - done.
Qed.

Lemma in_column_corruption column e : is_corruption e → is_corruption (in_column column e).
Proof. intros [m ->]. by eexists. Qed.

(** Enough fuel: the result does not depend on it. *)
Lemma read_columns_fuel fuel fuel' column columns r :
  reader_ok r → (remaining r < N.of_nat fuel)%N → (remaining r < N.of_nat fuel')%N →
  read_columns fuel column columns r = read_columns fuel' column columns r.
Proof.
  revert fuel' column r. induction fuel as [|fuel IH]; intros [|fuel'] column r Hr Hf Hf'; [lia..|].
  cbn [read_columns]. destruct (column <? columns)%N; [|done].
  pose proof (well_read_value r Hr) as Hw. destruct (read_value r) as [[v|e] r1]; [|done].
  destruct Hw as (Hb1 & Hr1 & Hat & _). rewrite (IH fuel' (column + 1)%N r1); [done|done| |];
    destruct Hr1 as (_ & _ & Hle); unfold remaining in *; rewrite Hb1 in *; lia.
Qed.

Lemma well_read_columns fuel column columns r :
  reader_ok r → (remaining r < N.of_nat fuel)%N →
  match read_columns fuel column columns r with
  | (Ok vs, r') =>
      r_bytes r' = r_bytes r ∧ reader_ok r' ∧ (r_at r ≤ r_at r')%N ∧ Forall value_fits vs ∧
      N.of_nat (length vs) = (columns - column)%N ∧
      ∀ post fuel', buffer (r_bytes r ++ post) → (remaining (with_more r post) < N.of_nat fuel')%N →
        read_columns fuel' column columns (with_more r post) = (Ok vs, with_more r' post)
  | (Err e, _) => is_corruption e
  end.
Proof.
  revert column r. induction fuel as [|fuel IH]; intros column r Hr Hf; [lia|].
  cbn [read_columns]. destruct (N.ltb_spec column columns) as [Hlt|Hge].
  2: { split_and!; [done|done|lia|constructor|simpl; lia|]. intros post [|fuel'] _ Hf'; [lia|].
       cbn [read_columns]. by rewrite (proj2 (N.ltb_ge _ _)). }
  pose proof (well_read_value r Hr) as Hw. destruct (read_value r) as [[v|e] r1].
  2: by apply in_column_corruption.
  destruct Hw as (Hb1 & Hr1 & Hat & Hv & Hext).
  assert (Hf1 : (remaining r1 < N.of_nat fuel)%N).
  { destruct Hr1 as (_ & _ & Hle). unfold remaining in *. rewrite Hb1 in *. lia. }
  specialize (IH (column + 1)%N r1 Hr1 Hf1).
  destruct (read_columns fuel (column + 1) columns r1) as [[vs|e] r2]; [|done].
  destruct IH as (Hb2 & Hr2 & Hat2 & Hvs & Hlen & Hext2).
  split_and!; [congruence|done|lia|by constructor|simpl; lia|].
  intros post [|fuel'] Hp Hf'; [lia|]. cbn [read_columns]. rewrite (proj2 (N.ltb_lt _ _)) by done.
  rewrite Hext by done. rewrite (Hext2 post fuel'); [done|by rewrite Hb1|].
  destruct Hr1 as (_ & _ & Hle). unfold remaining, with_more in *. cbn [r_bytes r_at] in *.
  rewrite Hb1 in *. rewrite length_app in *. lia.
Qed.

(** The columns of a row, without the test of what is left. *)
Definition read_row_columns (bytes : list Z) : reading (list Value) :=
  codec ← byte "row codec version";
  if negb (codec =? ROW_CODEC_VERSION) then
    fails (Corruption [Lit "row declares codec version "; Num (Z.to_N codec); Lit ", this build reads ";
      Num (Z.to_N ROW_CODEC_VERSION)])
  else
    count ← array 4 "row column count";
    read_columns (S (length bytes)) 0 (Z.to_N (from_le_bytes count)).

Lemma decode_row_columns bytes :
  match read_row_columns bytes (Reader_new bytes) with
  | (Ok vs, r) =>
      if (remaining r =? 0)%N then decode_row bytes = Ok (mkRow vs)
      else ∃ m, decode_row bytes = Err (Corruption m)
  | (Err e, _) => decode_row bytes = Err e
  end.
Proof.
  unfold decode_row, decode_row_from, read_row_columns, mbind, stateful_bind.
  destruct (byte _ _) as [[codec|] r1]; [|done]. destruct (negb _); [done|].
  destruct (array _ _ r1) as [[count|] r2]; [|done].
  destruct (read_columns _ _ _ r2) as [[vs|] r3]; [|done]. cbn [reads].
  destruct (remaining r3 =? 0)%N; cbn [negb]; [done|]. by eexists.
Qed.

Lemma read_row_columns_ok bytes :
  Forall is_byte bytes → buffer bytes →
  match read_row_columns bytes (Reader_new bytes) with
  | (Ok vs, r) =>
      r_bytes r = bytes ∧ reader_ok r ∧ row_fits_codec (mkRow vs) ∧
      ∀ post, buffer (bytes ++ post) →
        read_row_columns (bytes ++ post) (Reader_new (bytes ++ post)) = (Ok vs, with_more r post)
  | (Err e, _) => is_corruption e
  end.
Proof.
  intros Hb Hbuf. unfold read_row_columns, mbind, stateful_bind.
  assert (H0 : reader_ok (Reader_new bytes)) by (split_and!; [done|done|simpl; lia]).
  pose proof (well_read_byte "row codec version" _ H0) as H1.
  destruct (byte _ (Reader_new bytes)) as [[codec|] r1]; [|done]. destruct H1 as (Hb1 & Hr1 & _ & _ & Hx1).
  destruct (negb (codec =? ROW_CODEC_VERSION)) eqn:Hc; [by eexists|].
  pose proof (well_read_array 4 "row column count" _ Hr1) as H2.
  destruct (array _ _ r1) as [[count|] r2]; [|done]. destruct H2 as (Hb2 & Hr2 & _ & Hcnt & Hx2).
  cbn [Reader_new r_bytes] in *. rewrite Hb1 in Hb2.
  pose proof (well_read_columns (S (length bytes)) 0 (Z.to_N (from_le_bytes count)) r2 Hr2) as H3.
  destruct (read_columns _ _ _ r2) as [[vs|] r3].
  2: { apply H3. unfold remaining. rewrite Hb2. lia. }
  destruct H3 as (Hb3 & Hr3 & _ & Hvs & Hlen & Hx3); [unfold remaining; rewrite Hb2; lia|].
  split_and!; [congruence|done| |].
  - split; [done|]. cbn [values]. apply unsigned_le_fits in Hcnt. unfold unsigned_fits in Hcnt.
    change (8 * Z.of_nat 4) with 32 in Hcnt. lia.
  - intros post Hp. specialize (Hx1 post Hp). rewrite Hb1 in Hx2. specialize (Hx2 post Hp).
    change (Reader_new (bytes ++ post)) with (with_more (Reader_new bytes) post).
    rewrite Hx1, Hc, Hx2. apply Hx3; [by rewrite Hb2|]. unfold remaining, with_more. simpl. rewrite Hb2. lia.
Qed.

(** What is read is a row of the types of the source, and every failure is corruption. *)
Lemma decode_row_typed bytes :
  Forall is_byte bytes → buffer bytes →
  match decode_row bytes with Ok row => row_fits_codec row | Err e => is_corruption e end.
Proof.
  intros Hb Hbuf. pose proof (read_row_columns_ok bytes Hb Hbuf) as H1.
  pose proof (decode_row_columns bytes) as H2.
  destruct (read_row_columns bytes (Reader_new bytes)) as [[vs|e] r]; [|by rewrite H2].
  destruct (remaining r =? 0)%N; [|destruct H2 as [m ->]; by eexists].
  rewrite H2. apply H1.
Qed.

(** A row ends where its last column ends: with bytes cut off or added it is refused. *)
Lemma decode_row_cut bytes more row :
  Forall is_byte (bytes ++ more) → buffer (bytes ++ more) → more ≠ [] →
  decode_row bytes = Ok row → ∃ m, decode_row (bytes ++ more) = Err (Corruption m).
Proof.
  intros Hb Hbuf Hne Hd. apply Forall_app in Hb as [Hb _].
  assert (Hbuf' : buffer bytes) by (unfold buffer in *; rewrite length_app in Hbuf; lia).
  pose proof (read_row_columns_ok bytes Hb Hbuf') as H1. pose proof (decode_row_columns bytes) as H2.
  destruct (read_row_columns bytes (Reader_new bytes)) as [[vs|e] r]; [|congruence].
  destruct H1 as (Hrb & (_ & _ & Hle) & _ & Hx). specialize (Hx more Hbuf).
  pose proof (decode_row_columns (bytes ++ more)) as H3. rewrite Hx in H3.
  destruct (remaining r =? 0)%N eqn:Hz; [|destruct H2; congruence].
  rewrite (proj2 (N.eqb_neq _ 0)) in H3; [done|].
  unfold remaining, with_more. cbn [r_bytes r_at]. rewrite length_app. rewrite Hrb in *.
  destruct more; [done|]. simpl. lia.
Qed.

(** ** An encoding is bytes *)

#[local] Hint Resolve to_le_bytes_bound as_bytes_bytes Forall_app_2 : encoded.
#[local] Hint Constructors Forall : encoded.

Lemma encode_value_bytes v : value_fits v → Forall is_byte (encode_value v).
Proof.
  assert (Htag : ∀ t, 0 ≤ t < 256 → is_byte t) by done.
  intros Hv. destruct v; cbn [encode_value value_fits] in *; (constructor; [apply Htag; by vm_compute|]);
    unfold encode_len_prefixed, encode_datetime2_payload, encode_date_payload, encode_time_payload,
      f64_to_le_bytes, f32_to_le_bytes, payload_fits in *; try (by eauto 8 with encoded); destruct_and?; eauto 8 with encoded.
  constructor; [|constructor]. destruct b; by vm_compute.
Qed.

Lemma encode_row_bytes row : row_fits_codec row → Forall is_byte (encode_row row).
Proof.
  intros [Hv _]. unfold encode_row. constructor; [by vm_compute|]. apply Forall_app_2; [apply to_le_bytes_bound|].
  apply Forall_bind. eapply Forall_impl; [exact Hv|]. apply encode_value_bytes.
Qed.

(** No proper prefix of an encoding is one. *)
Lemma decode_row_prefix row n :
  row_fits_codec row → buffer (encode_row row) → (n < length (encode_row row))%nat →
  ∃ m, decode_row (firstn n (encode_row row)) = Err (Corruption m).
Proof.
  intros Hr Hb Hn. pose proof (encode_row_bytes row Hr) as Hbytes.
  assert (Hs : firstn n (encode_row row) ++ skipn n (encode_row row) = encode_row row) by apply take_drop.
  pose proof (decode_row_typed (firstn n (encode_row row)) ltac:(by apply Forall_take)
    ltac:(unfold buffer in *; rewrite length_take; lia)) as Ht.
  destruct (decode_row (firstn n (encode_row row))) as [row'|e] eqn:He; [|destruct Ht as [m ->]; eauto].
  assert (Hmore : skipn n (encode_row row) ≠ []) by (intros E%(f_equal length); rewrite length_drop, length_nil in E; lia).
  apply (decode_row_cut _ (skipn n (encode_row row))) in He as [m He]; rewrite ?Hs; try done.
  rewrite Hs, decode_encode_row in He by done. done.
Qed.
