(* ===== verification/Page.v ===== *)
(** * Pages

    [vauban-storage/src/disk/page.rs]: a page is 8192 bytes with a header of 32, whose fields
    are read and written through accessors, and whose checksum covers the rest of the page.
    A page is the list of its bytes; [PageId] and [Lsn] are [u64].  The offsets are inside the
    page, so no access of the source is out of range. *)

From S2P Require Import Prelude Errors Bytes Crc.

#[local] Open Scope Z_scope.

Notation PageId := N (only parsing).
Notation Lsn := N (only parsing).
Notation Page := (list Z) (only parsing).

Definition PAGE_SIZE : nat := N.to_nat 8192.
Definition HEADER_SIZE : nat := 32.
Definition FORMAT_VERSION : Z := 1.
Definition MAGIC : list Z := [86; 68; 66; 80]. (* VDBP *)

Definition OFF_MAGIC : nat := 0.
Definition OFF_FORMAT_VERSION : nat := 4.
Definition OFF_KIND : nat := 5.
Definition OFF_FLAGS : nat := 6.
Definition OFF_PAGE_ID : nat := 8.
Definition OFF_PAGE_LSN : nat := 16.
Definition OFF_CHECKSUM : nat := 24.
Definition OFF_SLOT_COUNT : nat := 28.
Definition OFF_LOWER : nat := 30.

Inductive PageKind := Free | Heap | Overflow | BTreeInternal | BTreeLeaf | Meta | RowIdDir.

#[export] Instance PageKind_eq_dec : EqDecision PageKind.
Proof. solve_decision. Defined.

Definition as_byte (k : PageKind) : Z :=
  match k with
  | Free => 0 | Heap => 1 | Overflow => 2 | BTreeInternal => 3 | BTreeLeaf => 4 | Meta => 5
  | RowIdDir => 6
  end.

Definition from_byte (raw : Z) : result InternalError PageKind :=
  if raw =? 0 then Ok Free
  else if raw =? 1 then Ok Heap
  else if raw =? 2 then Ok Overflow
  else if raw =? 3 then Ok BTreeInternal
  else if raw =? 4 then Ok BTreeLeaf
  else if raw =? 5 then Ok Meta
  else if raw =? 6 then Ok RowIdDir
  else Err (Corruption [Lit "unknown page kind "; Num (Z.to_N raw)]).

(** ** Fields *)

Definition read_u8 (at_ : nat) (p : Page) : Z := nth at_ p 0.
Definition read_u16 (at_ : nat) (p : Page) : Z := from_le_bytes (slice at_ 2 p).
Definition read_u32 (at_ : nat) (p : Page) : Z := from_le_bytes (slice at_ 4 p).
Definition read_u64 (at_ : nat) (p : Page) : Z := from_le_bytes (slice at_ 8 p).

Definition write_u8 (at_ : nat) (x : Z) (p : Page) : Page := splice at_ [x] p.
Definition write_u16 (at_ : nat) (x : Z) (p : Page) : Page := splice at_ (to_le_bytes 2 x) p.
Definition write_u32 (at_ : nat) (x : Z) (p : Page) : Page := splice at_ (to_le_bytes 4 x) p.
Definition write_u64 (at_ : nat) (x : Z) (p : Page) : Page := splice at_ (to_le_bytes 8 x) p.

Definition empty (kind : PageKind) (id : PageId) : Page :=
  write_u16 OFF_LOWER (Z.of_nat HEADER_SIZE)
    (write_u64 OFF_PAGE_ID (Z.of_N id)
      (write_u8 OFF_KIND (as_byte kind)
        (write_u8 OFF_FORMAT_VERSION FORMAT_VERSION
          (splice OFF_MAGIC MAGIC (replicate PAGE_SIZE 0))))).

Definition format_version (p : Page) : Z := read_u8 OFF_FORMAT_VERSION p.
Definition kind (p : Page) : result InternalError PageKind := from_byte (read_u8 OFF_KIND p).
Definition set_kind (k : PageKind) (p : Page) : Page := write_u8 OFF_KIND (as_byte k) p.
Definition flags (p : Page) : Z := read_u16 OFF_FLAGS p.
Definition page_id (p : Page) : PageId := Z.to_N (read_u64 OFF_PAGE_ID p).
Definition lsn (p : Page) : Lsn := Z.to_N (read_u64 OFF_PAGE_LSN p).
Definition set_lsn (l : Lsn) (p : Page) : Page := write_u64 OFF_PAGE_LSN (Z.of_N l) p.
Definition checksum_field (p : Page) : Z := read_u32 OFF_CHECKSUM p.
Definition slot_count (p : Page) : Z := read_u16 OFF_SLOT_COUNT p.
Definition set_slot_count (slots : Z) (p : Page) : Page := write_u16 OFF_SLOT_COUNT slots p.
Definition lower (p : Page) : Z := read_u16 OFF_LOWER p.
Definition set_lower (l : Z) (p : Page) : Page := write_u16 OFF_LOWER l p.

(** ** The checksum *)

Definition checksum (p : Page) : Z :=
  let register := Crc32_new in
  let register := update register (take OFF_CHECKSUM p) in
  let register := update register [0; 0; 0; 0] in
  let register := update register (drop (OFF_CHECKSUM + 4) p) in
  finish register.

Definition seal (p : Page) : Page := write_u32 OFF_CHECKSUM (checksum p) p.

Definition verify_header (p : Page) : result InternalError () :=
  let magic := slice OFF_MAGIC 4 p in
  if negb (bool_decide (magic = MAGIC)) then
    Err (Corruption [Lit "page "; Num (page_id p); Lit " starts with magic ";
      Dbg "" (Z.to_N <$> magic); Lit ", expected "; Dbg "" (Z.to_N <$> MAGIC)])
  else if negb (format_version p =? FORMAT_VERSION) then
    Err (Corruption [Lit "page "; Num (page_id p); Lit " declares format version ";
      Num (Z.to_N (format_version p)); Lit ", this build reads "; Num (Z.to_N FORMAT_VERSION)])
  else
    _ ← kind p; Ok ().

Definition verify (p : Page) : result InternalError () :=
  _ ← verify_header p;
  let stored := checksum_field p in
  let computed := checksum p in
  if negb (stored =? computed) then
    Err (Corruption [Lit "page "; Num (page_id p); Lit " carries checksum "; Num (Z.to_N stored);
      Lit ", its bytes hash to "; Num (Z.to_N computed)])
  else Ok ().

Definition from_bytes (bytes : list Z) : result InternalError Page :=
  _ ← verify bytes; Ok bytes.

(** ** Fields read back *)

(** What a page is: 8192 bytes. *)
Definition page_ok (p : Page) : Prop := length p = PAGE_SIZE ∧ Forall is_byte p.

Lemma PAGE_SIZE_Z : Z.of_nat PAGE_SIZE = 8192.
Proof. unfold PAGE_SIZE. lia. Qed.

#[global] Opaque PAGE_SIZE.

Lemma as_byte_bound k : is_byte (as_byte k).
Proof. destruct k; unfold is_byte; simpl; lia. Qed.

Lemma from_as_byte k : from_byte (as_byte k) = Ok k.
Proof. by destruct k. Qed.

Lemma from_byte_Ok raw k : from_byte raw = Ok k → raw = as_byte k.
Proof.
  unfold from_byte. intros H. repeat (case_match; [simplify_eq/=; by apply Z.eqb_eq|]). done.
Qed.

Lemma read_u8_slice at_ p : (at_ < length p)%nat → slice at_ 1 p = [read_u8 at_ p].
Proof.
  intros Hlt. unfold read_u8, slice. destruct (lookup_lt_is_Some_2 p at_ Hlt) as [x Hx].
  rewrite (nth_lookup_Some _ _ _ _ Hx). rewrite (drop_S _ _ _ Hx). done.
Qed.

Lemma read_u8_app at_ p q : (at_ < length p)%nat → read_u8 at_ (p ++ q) = read_u8 at_ p.
Proof. intros. unfold read_u8. by rewrite app_nth1. Qed.

Section writes.
Context (p : Page) (Hp : page_ok p).

Lemma splice_ok at_ new :
  Forall is_byte new → (at_ + length new ≤ PAGE_SIZE)%nat → page_ok (splice at_ new p).
Proof using Hp.
  intros Hn Hle. destruct Hp as [Hl Hb]. split; [|by apply splice_Forall].
  by rewrite length_splice; [|rewrite Hl].
Qed.

Lemma read_u8_splice at_ x : (at_ < PAGE_SIZE)%nat → read_u8 at_ (splice at_ [x] p) = x.
Proof using Hp.
  intros Hlt. destruct Hp as [Hl _]. unfold read_u8. apply nth_lookup_Some.
  rewrite lookup_splice by (simpl; lia). rewrite decide_True by (simpl; lia). by rewrite Nat.sub_diag.
Qed.

Lemma read_u8_splice_other at_ from new :
  (from + length new ≤ PAGE_SIZE)%nat → (at_ < from ∨ from + length new ≤ at_)%nat →
  read_u8 at_ (splice from new p) = read_u8 at_ p.
Proof using Hp.
  intros Hle Hd. destruct Hp as [Hl _]. unfold read_u8. rewrite !nth_lookup.
  rewrite lookup_splice by lia. by rewrite decide_False by lia.
Qed.

Lemma read_le_splice n at_ x :
  (at_ + n ≤ PAGE_SIZE)%nat → unsigned_fits n x →
  from_le_bytes (slice at_ n (splice at_ (to_le_bytes n x) p)) = x.
Proof using Hp.
  intros Hle Hx. destruct Hp as [Hl _].
  rewrite slice_splice by (rewrite ?length_to_le_bytes, ?Hl; done). by apply from_to_le_bytes_fits.
Qed.

Lemma slice_splice_page n at_ from new :
  (from + length new ≤ PAGE_SIZE)%nat → (at_ + n ≤ from ∨ from + length new ≤ at_)%nat →
  slice at_ n (splice from new p) = slice at_ n p.
Proof using Hp. intros Hle Hd. destruct Hp as [Hl _]. apply slice_splice_other; [by rewrite Hl|done]. Qed.
End writes.

(** ** The header as a record

    What the accessors present: nine fields and the rest of the page. *)

Record Header := mkHeader {
  h_magic : list Z;
  h_format_version : Z;
  h_kind : Z;
  h_flags : Z;
  h_page_id : PageId;
  h_lsn : Lsn;
  h_checksum : Z;
  h_slot_count : Z;
  h_lower : Z;
  h_body : list Z;
}.

Definition header_of (p : Page) : Header :=
  mkHeader (slice OFF_MAGIC 4 p) (format_version p) (read_u8 OFF_KIND p) (flags p) (page_id p) (lsn p)
    (checksum_field p) (slot_count p) (lower p) (slice HEADER_SIZE (PAGE_SIZE - HEADER_SIZE) p).

Definition with_format_version (v : Z) (h : Header) : Header :=
  mkHeader (h_magic h) v (h_kind h) (h_flags h) (h_page_id h) (h_lsn h)
    (h_checksum h) (h_slot_count h) (h_lower h) (h_body h).
Definition with_page_id (id : PageId) (h : Header) : Header :=
  mkHeader (h_magic h) (h_format_version h) (h_kind h) (h_flags h) id (h_lsn h)
    (h_checksum h) (h_slot_count h) (h_lower h) (h_body h).
Definition with_kind (k : PageKind) (h : Header) : Header :=
  mkHeader (h_magic h) (h_format_version h) (as_byte k) (h_flags h) (h_page_id h) (h_lsn h)
    (h_checksum h) (h_slot_count h) (h_lower h) (h_body h).
Definition with_lsn (l : Lsn) (h : Header) : Header :=
  mkHeader (h_magic h) (h_format_version h) (h_kind h) (h_flags h) (h_page_id h) l
    (h_checksum h) (h_slot_count h) (h_lower h) (h_body h).
Definition with_checksum (c : Z) (h : Header) : Header :=
  mkHeader (h_magic h) (h_format_version h) (h_kind h) (h_flags h) (h_page_id h) (h_lsn h)
    c (h_slot_count h) (h_lower h) (h_body h).
Definition with_slot_count (s : Z) (h : Header) : Header :=
  mkHeader (h_magic h) (h_format_version h) (h_kind h) (h_flags h) (h_page_id h) (h_lsn h)
    (h_checksum h) s (h_lower h) (h_body h).
Definition with_lower (l : Z) (h : Header) : Header :=
  mkHeader (h_magic h) (h_format_version h) (h_kind h) (h_flags h) (h_page_id h) (h_lsn h)
    (h_checksum h) (h_slot_count h) l (h_body h).

(** The header of a fresh page. *)
Definition fresh_header (k : PageKind) (id : PageId) : Header :=
  mkHeader MAGIC FORMAT_VERSION (as_byte k) 0 id 0 0 0 32 (replicate (PAGE_SIZE - HEADER_SIZE) 0).

(** Splits a claim on the header of a page after one write into the fields: the written one
    reads back and the others do not overlap it. *)
Ltac header_fields Hp :=
  pose proof PAGE_SIZE_Z;
  unfold header_of, with_format_version, with_page_id, with_kind, with_lsn, with_checksum, with_slot_count, with_lower, set_kind, set_lsn,
    set_slot_count, set_lower, format_version, flags, page_id, lsn, checksum_field, slot_count, lower,
    write_u8, write_u16, write_u32, write_u64, read_u16, read_u32, read_u64,
    OFF_MAGIC, OFF_FORMAT_VERSION, OFF_KIND, OFF_FLAGS, OFF_PAGE_ID, OFF_PAGE_LSN, OFF_CHECKSUM,
    OFF_SLOT_COUNT, OFF_LOWER, HEADER_SIZE in *;
  cbn [h_magic h_format_version h_kind h_flags h_page_id h_lsn h_checksum h_slot_count h_lower h_body];
  repeat first
    [ rewrite (slice_splice_page _ Hp) by (rewrite ?length_to_le_bytes; simpl; lia)
    | rewrite (read_u8_splice_other _ Hp) by (rewrite ?length_to_le_bytes; simpl; lia)
    | rewrite (read_u8_splice _ Hp) by lia
    | rewrite (read_le_splice _ Hp) by first [lia | done] ].

Lemma header_set_kind k p : page_ok p → header_of (set_kind k p) = with_kind k (header_of p).
Proof. intros Hp. header_fields Hp. done. Qed.

Lemma header_set_lsn l p :
  page_ok p → (l ≤ u64_max)%N → header_of (set_lsn l p) = with_lsn l (header_of p).
Proof.
  intros Hp Hl. assert (Hf : unsigned_fits 8 (Z.of_N l)) by (unfold unsigned_fits, u64_max in *; lia).
  header_fields Hp. by rewrite N2Z.id.
Qed.

Lemma header_set_page_id id p :
  page_ok p → (id ≤ u64_max)%N →
  header_of (write_u64 OFF_PAGE_ID (Z.of_N id) p) = with_page_id id (header_of p).
Proof.
  intros Hp Hl. assert (Hf : unsigned_fits 8 (Z.of_N id)) by (unfold unsigned_fits, u64_max in *; lia).
  header_fields Hp. by rewrite N2Z.id.
Qed.

Lemma header_set_format v p :
  page_ok p → header_of (write_u8 OFF_FORMAT_VERSION v p) = with_format_version v (header_of p).
Proof. intros Hp. header_fields Hp. done. Qed.

Lemma header_set_slot_count s p :
  page_ok p → unsigned_fits 2 s → header_of (set_slot_count s p) = with_slot_count s (header_of p).
Proof. intros Hp Hs. header_fields Hp. done. Qed.

Lemma header_set_lower l p :
  page_ok p → unsigned_fits 2 l → header_of (set_lower l p) = with_lower l (header_of p).
Proof. intros Hp Hl. header_fields Hp. done. Qed.

Lemma header_set_checksum c p :
  page_ok p → unsigned_fits 4 c →
  header_of (write_u32 OFF_CHECKSUM c p) = with_checksum c (header_of p).
Proof. intros Hp Hc. header_fields Hp. done. Qed.

Lemma set_field_ok n at_ x p :
  page_ok p → (at_ + n ≤ 32)%nat → page_ok (splice at_ (to_le_bytes n x) p).
Proof.
  intros Hp Hle. pose proof PAGE_SIZE_Z. apply splice_ok; [done|apply to_le_bytes_bound|].
  rewrite length_to_le_bytes. lia.
Qed.

Lemma set_byte_ok at_ x p : page_ok p → (at_ < 32)%nat → is_byte x → page_ok (splice at_ [x] p).
Proof.
  intros Hp Hle Hx. pose proof PAGE_SIZE_Z. apply splice_ok; [done|by constructor|simpl; lia].
Qed.

#[export] Hint Resolve set_field_ok set_byte_ok as_byte_bound : page.

Lemma blank_ok : page_ok (replicate PAGE_SIZE 0).
Proof. split; [apply length_replicate|]. apply Forall_replicate. unfold is_byte. lia. Qed.

Lemma magic_ok : page_ok (splice OFF_MAGIC MAGIC (replicate PAGE_SIZE 0)).
Proof.
  apply splice_ok; [apply blank_ok| |pose proof PAGE_SIZE_Z; simpl; lia].
  unfold MAGIC. repeat (constructor; [unfold is_byte; lia|]). constructor.
Qed.

Lemma empty_ok k id : page_ok (empty k id).
Proof.
  unfold empty, write_u8, write_u16, write_u64.
  apply set_field_ok; [|unfold OFF_LOWER; lia]. apply set_field_ok; [|unfold OFF_PAGE_ID; lia].
  apply set_byte_ok; [|unfold OFF_KIND; lia|apply as_byte_bound].
  apply set_byte_ok; [apply magic_ok|unfold OFF_FORMAT_VERSION; lia|].
  unfold is_byte, FORMAT_VERSION. lia.
Qed.

Lemma magic_header :
  header_of (splice OFF_MAGIC MAGIC (replicate PAGE_SIZE 0)) =
  mkHeader MAGIC 0 0 0 0 0 0 0 0 (replicate (PAGE_SIZE - HEADER_SIZE) 0).
Proof.
  destruct blank_ok as [Hl _]. pose proof PAGE_SIZE_Z.
  assert (Hz : ∀ at_ n, (4 ≤ at_)%nat → (at_ + n ≤ PAGE_SIZE)%nat →
    slice at_ n (splice OFF_MAGIC MAGIC (replicate PAGE_SIZE 0)) = replicate n 0).
  { intros at_ n Ha Hn. rewrite slice_splice_other by (rewrite ?Hl; simpl; lia).
    unfold slice. rewrite drop_replicate, take_replicate. f_equal. lia. }
  assert (Hu : ∀ at_, (4 ≤ at_ < PAGE_SIZE)%nat → read_u8 at_ (splice OFF_MAGIC MAGIC (replicate PAGE_SIZE 0)) = 0).
  { intros at_ Ha. assert (Hs : slice at_ 1 (splice OFF_MAGIC MAGIC (replicate PAGE_SIZE 0)) = [0]) by (apply Hz; lia).
    rewrite read_u8_slice in Hs by (rewrite length_splice; rewrite Hl; simpl; lia). by injection Hs. }
  unfold header_of, format_version, flags, page_id, lsn, checksum_field,
    slot_count, lower, read_u16, read_u32, read_u64, OFF_FORMAT_VERSION, OFF_KIND, OFF_FLAGS, OFF_PAGE_ID,
    OFF_PAGE_LSN, OFF_CHECKSUM, OFF_SLOT_COUNT, OFF_LOWER, HEADER_SIZE.
  rewrite !Hu, (Hz 6%nat), (Hz 8%nat), (Hz 16%nat), (Hz 24%nat), (Hz 28%nat), (Hz 30%nat), (Hz 32%nat) by lia.
  done.
Qed.

Lemma empty_header k id : (id ≤ u64_max)%N → header_of (empty k id) = fresh_header k id.
Proof.
  intros Hid. unfold empty. pose proof magic_ok as H1.
  assert (H2 : page_ok (write_u8 OFF_FORMAT_VERSION FORMAT_VERSION (splice OFF_MAGIC MAGIC (replicate PAGE_SIZE 0)))).
  { apply set_byte_ok; [done|unfold OFF_FORMAT_VERSION; lia|unfold is_byte, FORMAT_VERSION; lia]. }
  pose proof (set_byte_ok OFF_KIND (as_byte k) _ H2 ltac:(unfold OFF_KIND; lia) (as_byte_bound k)) as H3.
  pose proof (set_field_ok 8 OFF_PAGE_ID (Z.of_N id) _ H3 ltac:(unfold OFF_PAGE_ID; lia)) as H4.
  change (header_of (set_lower 32 (write_u64 OFF_PAGE_ID (Z.of_N id) (set_kind k
    (write_u8 OFF_FORMAT_VERSION FORMAT_VERSION (splice OFF_MAGIC MAGIC (replicate PAGE_SIZE 0))))))
    = fresh_header k id).
  rewrite header_set_lower by (done || (unfold unsigned_fits; lia)).
  rewrite header_set_page_id by done. rewrite header_set_kind by done. rewrite header_set_format by done.
  by rewrite magic_header.
Qed.

(** ** Sealing *)

Lemma checksum_around p : checksum p = crc_around OFF_CHECKSUM p.
Proof. apply crc_around_updates. Qed.

Lemma checksum_room p : page_ok p → (OFF_CHECKSUM + 4 ≤ length p)%nat.
Proof. intros [-> _]. pose proof PAGE_SIZE_Z. unfold OFF_CHECKSUM. lia. Qed.

Lemma checksum_fits p : page_ok p → unsigned_fits 4 (checksum p).
Proof. intros [_ Hb]. rewrite checksum_around. by apply crc_around_fits. Qed.

(** The checksum does not look at its own field. *)
Lemma checksum_splice c p :
  page_ok p → checksum (splice OFF_CHECKSUM (to_le_bytes 4 c) p) = checksum p.
Proof. intros Hp. rewrite !checksum_around. by apply crc_around_field, checksum_room. Qed.

Lemma seal_ok p : page_ok p → page_ok (seal p).
Proof. intros Hp. apply set_field_ok; [done|unfold OFF_CHECKSUM; lia]. Qed.

Lemma seal_header p : page_ok p → header_of (seal p) = with_checksum (checksum p) (header_of p).
Proof. intros Hp. apply header_set_checksum; [done|by apply checksum_fits]. Qed.

(** A header that [verify_header] accepts. *)
Definition header_good (h : Header) : Prop :=
  h_magic h = MAGIC ∧ h_format_version h = FORMAT_VERSION ∧ ∃ k, h_kind h = as_byte k.

Lemma verify_header_iff p : verify_header p = Ok () ↔ header_good (header_of p).
Proof.
  unfold verify_header, header_good. cbn [header_of h_magic h_format_version h_kind].
  destruct (bool_decide_reflect (slice OFF_MAGIC 4 p = MAGIC)) as [->|Hne]; cbn [negb]; [|naive_solver].
  destruct (Z.eqb_spec (format_version p) FORMAT_VERSION) as [->|Hne]; cbn [negb]; [|naive_solver].
  unfold kind. split.
  - intros (k & Hk & _)%result_bind_Ok. apply from_byte_Ok in Hk. eauto.
  - intros (_ & _ & k & ->). by rewrite from_as_byte.
Qed.

Lemma verify_iff p : verify p = Ok () ↔ header_good (header_of p) ∧ checksum_field p = checksum p.
Proof.
  unfold verify, mbind, result_bind. rewrite <- verify_header_iff.
  destruct (verify_header p) as [[]|e]; [|naive_solver].
  destruct (Z.eqb_spec (checksum_field p) (checksum p)); cbn [negb]; naive_solver.
Qed.

Lemma kind_corruption p e : kind p = Err e → ∃ m, e = Corruption m.
Proof. unfold kind, from_byte. intros H. repeat (case_match; [done|]). simplify_eq. by eexists. Qed.

Lemma verify_corruption p e : verify p = Err e → ∃ m, e = Corruption m.
Proof.
  unfold verify, verify_header, mbind, result_bind. destruct (negb (bool_decide _)); [intros [= <-]; by eexists|].
  destruct (negb (format_version p =? _)); [intros [= <-]; by eexists|].
  destruct (kind p) as [k|e'] eqn:Hk.
  - destruct (negb _); [intros [= <-]; by eexists|done].
  - intros [= <-]. by apply kind_corruption in Hk.
Qed.

Lemma seal_verify p : page_ok p → header_good (header_of p) → from_bytes (seal p) = Ok (seal p).
Proof.
  intros Hp Hg. unfold from_bytes. rewrite (proj2 (verify_iff _)); [done|].
  rewrite seal_header by done. split; [done|].
  pose proof (f_equal h_checksum (seal_header p Hp)) as Hc. cbn [header_of h_checksum with_checksum] in Hc.
  rewrite Hc. unfold seal, write_u32. by rewrite checksum_splice.
Qed.

(** ** What a page read back detects *)

(** Four consecutive bytes changed outside the checksum, or inside it. *)
Lemma splice_detected p at_ new :
  page_ok p → from_bytes p = Ok p → Forall is_byte new →
  (at_ + length new ≤ PAGE_SIZE)%nat → (length new ≤ 4)%nat →
  (at_ + length new ≤ OFF_CHECKSUM ∨ OFF_CHECKSUM + 4 ≤ at_ ∨
   (OFF_CHECKSUM ≤ at_ ∧ at_ + length new ≤ OFF_CHECKSUM + 4))%nat →
  splice at_ new p ≠ p → ∃ m, from_bytes (splice at_ new p) = Err (Corruption m).
Proof.
  intros Hp Hv Hnew Hle H4 Hwhere Hne. unfold from_bytes in *.
  destruct (verify (splice at_ new p)) as [[]|e] eqn:Hq.
  2: { destruct (verify_corruption _ _ Hq) as [m ->]. by eexists. }
  exfalso. apply Hne. destruct (verify p) as [[]|] eqn:Hv'; [clear Hv|done].
  apply verify_iff in Hq as [_ Hq]. apply verify_iff in Hv' as [_ Hv]. rewrite checksum_around in Hq, Hv.
  pose proof (checksum_room p Hp). destruct Hp as [Hl Hb]. rewrite <- Hl in Hle. by apply (sealed_change OFF_CHECKSUM).
Qed.
