(* ===== verification/HeapPage.v ===== *)
(** * Heap pages

    The functions of [vauban-storage/src/disk/heap.rs] on one page: the layout of a slotted page,
    its slot directory, the placement of a record, the compaction, and the overflow pages of a
    long record.  A page is the list of its bytes; a slot is a [nat], a [u16] field a [Z].  An
    access outside the page panics in the source; [HeapPageFacts] shows that a page in the form
    these functions keep leads to none. *)

From S2P Require Import Prelude Errors Bytes Crc Page.

#[local] Open Scope Z_scope.

(** ** The layout *)

Definition OFF_UPPER : nat := HEADER_SIZE.
Definition OFF_HEAP_NEXT : nat := HEADER_SIZE + 2.
Definition HEAP_PAYLOAD_START : Z := Z.of_nat HEADER_SIZE + 10.
Definition OFF_OVERFLOW_NEXT : nat := HEADER_SIZE.
Definition OVERFLOW_PAYLOAD_START : Z := Z.of_nat HEADER_SIZE + 8.
Definition OVERFLOW_CAPACITY : nat := PAGE_SIZE - Z.to_nat OVERFLOW_PAYLOAD_START.
Definition END_OF_CHAIN : Z := Z.of_N u64_max.
Definition SLOT_SIZE : Z := 4.
Definition MAX_INLINE_LEN : nat := PAGE_SIZE - 64.
Definition OVERFLOW_FLAG : Z := 32768.
Definition STUB_LEN : nat := 12.

Definition u16_max : Z := 65535.

(** [!x] on a [u16]. *)
Definition u16_not (x : Z) : Z := Z.lxor u16_max x.

(** ** Slots *)

Record Slot := mkSlot { offset : Z; stored : Z }.

#[export] Instance Slot_eq_dec : EqDecision Slot.
Proof. solve_decision. Defined.

Module Slot.
Definition is_free (s : Slot) : bool := (offset s =? 0) && (stored s =? 0).
Definition is_overflow (s : Slot) : bool := negb (Z.land (stored s) OVERFLOW_FLAG =? 0).
Definition len (s : Slot) : nat := Z.to_nat (Z.land (stored s) (u16_not OVERFLOW_FLAG)).
End Slot.

Inductive Slotted := SInline (bytes : list Z) | SStub.

Inductive Record_ := Inline (bytes : list Z) | OverflowAt (total : Z) (head : PageId).

#[export] Instance Slotted_eq_dec : EqDecision Slotted.
Proof. solve_decision. Defined.
#[export] Instance Record_eq_dec : EqDecision Record_.
Proof. solve_decision. Defined.

Definition slot_position (index : nat) : nat := PAGE_SIZE - Z.to_nat SLOT_SIZE * (index + 1).

Definition read_slot (p : Page) (index : nat) : Slot :=
  let at_ := slot_position index in
  mkSlot (read_u16 at_ p) (read_u16 (at_ + 2) p).

Definition write_slot (index : nat) (off st : Z) (p : Page) : Page :=
  let at_ := slot_position index in
  write_u16 (at_ + 2) st (write_u16 at_ off p).

Definition heap_upper (p : Page) : Z := read_u16 OFF_UPPER p.
Definition set_heap_upper (upper : Z) (p : Page) : Page := write_u16 OFF_UPPER upper p.

Definition heap_next (p : Page) : option PageId :=
  let next := read_u64 OFF_HEAP_NEXT p in
  if next =? END_OF_CHAIN then None else Some (Z.to_N next).

(** [next.map_or(END_OF_CHAIN, |id| id.0)]. *)
Definition link_of (next : option PageId) : Z :=
  match next with None => END_OF_CHAIN | Some id => Z.of_N id end.

Definition set_heap_next (next : option PageId) (p : Page) : Page := write_u64 OFF_HEAP_NEXT (link_of next) p.

(** The indices [0..slot_count]. *)
Definition slots (p : Page) : nat := Z.to_nat (slot_count p).

(** [page.0[HEADER_SIZE..].fill(0)]. *)
Definition clear_payload (p : Page) : Page := splice HEADER_SIZE (replicate (PAGE_SIZE - HEADER_SIZE) 0) p.

Definition format_heap_page (p : Page) : Page :=
  let p := clear_payload p in
  let p := set_kind Heap p in
  let p := set_slot_count 0 p in
  let p := set_lower HEAP_PAYLOAD_START p in
  let p := set_heap_upper (Z.of_nat PAGE_SIZE) p in
  set_heap_next None p.

(** ** Room *)

Definition sum_lens (l : list Slot) : nat := foldr (λ s, Nat.add (Slot.len s)) 0%nat l.

Definition fits_at (p : Page) (slot len : nat) : bool :=
  let count := slots p in
  let live := sum_lens (List.filter (λ s, negb (Slot.is_free s))
    (read_slot p <$> List.filter (λ index, negb (index =? slot)%nat) (seq 0 count))) in
  let slots := Z.max (Z.of_nat count) (Z.min (Z.of_nat slot + 1) u16_max) in
  let directory := SLOT_SIZE * slots in
  (len <=? MAX_INLINE_LEN)%nat &&
  (Z.of_nat slot <? u16_max) &&
  (HEAP_PAYLOAD_START + Z.of_nat live + Z.of_nat len + directory <=? Z.of_nat PAGE_SIZE).

Definition slot_for (p : Page) (len : nat) : option nat :=
  let slot := match List.find (λ index, Slot.is_free (read_slot p index)) (seq 0 (slots p)) with
              | Some index => index
              | None => slots p
              end in
  if fits_at p slot len then Some slot else None.

Definition free_span (p : Page) : Z := Z.max 0 (heap_upper p - lower p).

(** ** Compaction *)

(** [slice::sort_by_key], which is stable. *)
Section sort_by_key.
Context {A} (key : A → Z).

Fixpoint insert_by_key (x : A) (l : list A) : list A :=
  match l with
  | [] => [x]
  | y :: l => if key x <=? key y then x :: y :: l else y :: insert_by_key x l
  end.

Definition sort_by_key (l : list A) : list A := foldr insert_by_key [] l.
End sort_by_key.

(** [page.0.copy_within(from..from + len, to)]. *)
Definition copy_within (from len to : nat) (p : Page) : Page := splice to (slice from len p) p.

Definition live_slots (p : Page) : list (nat * Slot) :=
  List.filter (λ '(_, slot), negb (Slot.is_free slot)) ((λ index, (index, read_slot p index)) <$> seq 0 (slots p)).

(** The body of the loop of [compact]. *)
Definition move_record (state : Z * Page) (entry : nat * Slot) : Z * Page :=
  let '(cursor, p) := state in
  let '(index, slot) := entry in
  let from := Z.to_nat (offset slot) in
  let len := Slot.len slot in
  let p := if negb (offset slot =? cursor) then copy_within from len (Z.to_nat cursor) p else p in
  let p := write_slot index cursor (stored slot) p in
  (cursor + Z.of_nat len, p).

Definition compact (p : Page) : Page :=
  let live := sort_by_key (λ e : nat * Slot, offset e.2) (live_slots p) in
  let '(cursor, p) := foldl move_record (HEAP_PAYLOAD_START, p) live in
  set_lower cursor p.

(** ** Placing a record *)

Definition place_at (slot : nat) (payload : list Z) (overflow : bool) (p : Page) : bool * Page :=
  if negb (fits_at p slot (length payload)) then (false, p)
  else
    let len := Z.of_nat (length payload) in
    let count := slots p in
    let p := if (slot <? count)%nat then write_slot slot 0 0 p else p in
    let added := if (slot <? count)%nat then 0 else Z.of_nat slot - Z.of_nat count + 1 in
    let p := if free_span p <? len + SLOT_SIZE * added then compact p else p in
    let p :=
      if 0 <? added then
        let upper := heap_upper p - SLOT_SIZE * added in
        let p := set_heap_upper upper p in
        let p := set_slot_count (Z.of_nat slot + 1) p in
        foldl (λ p index, write_slot index 0 0 p) p (seq count (slot + 1 - count))
      else p in
    let at_ := lower p in
    let p := splice (Z.to_nat at_) payload p in
    let p := set_lower (at_ + len) p in
    let st := if overflow then Z.lor len OVERFLOW_FLAG else len in
    (true, write_slot slot at_ st p).

(** ** Reading a record *)

Definition read_record (p : Page) (slot : nat) : result InternalError (option Record_) :=
  if (slots p <=? slot)%nat then Ok None
  else
    let entry := read_slot p slot in
    if Slot.is_free entry then Ok None
    else
      let start := offset entry in
      let end_ := start + Z.of_nat (Slot.len entry) in
      if (offset entry <? HEAP_PAYLOAD_START) || (lower p <? end_) then
        Err (Corruption [Lit "slot "; Num (N.of_nat slot); Lit " of heap page "; Num (page_id p);
          Lit " points at bytes "; Num (Z.to_N start); Lit ".."; Num (Z.to_N end_);
          Lit ", outside the records of the page, which end at "; Num (Z.to_N (lower p))])
      else if negb (Slot.is_overflow entry) then
        Ok (Some (Inline (slice (Z.to_nat start) (Slot.len entry) p)))
      else if negb (Slot.len entry =? STUB_LEN)%nat then
        Err (Corruption [Lit "slot "; Num (N.of_nat slot); Lit " of heap page "; Num (page_id p);
          Lit " is an overflow stub of "; Num (N.of_nat (Slot.len entry)); Lit " bytes, not "; Num (N.of_nat STUB_LEN)])
      else
        Ok (Some (OverflowAt (read_u32 (Z.to_nat start) p) (Z.to_N (read_u64 (Z.to_nat start + 4) p)))).

Definition stub (total : Z) (head : PageId) : result InternalError (list Z) :=
  if Z.of_N u32_max <? total then
    Err (Bug [Lit "a record of "; Num (Z.to_N total); Lit " bytes is past the "; Num u32_max;
      Lit " an overflow stub records"])
  else Ok (to_le_bytes 4 total ++ to_le_bytes 8 (Z.of_N head)).

(** ** Overflow pages *)

(** The change [Heap::write_overflow_chain] makes to a page it takes. *)
Definition fill_overflow (chunk : list Z) (next : option PageId) (p : Page) : Page :=
  let p := clear_payload p in
  let p := set_kind Overflow p in
  let p := set_slot_count 0 p in
  let p := splice (Z.to_nat OVERFLOW_PAYLOAD_START) chunk p in
  let p := set_lower (OVERFLOW_PAYLOAD_START + Z.of_nat (length chunk)) p in
  write_u64 OFF_OVERFLOW_NEXT (link_of next) p.

Definition debug_kind (k : PageKind) : string :=
  match k with
  | Free => "Free" | Heap => "Heap" | Overflow => "Overflow" | BTreeInternal => "BTreeInternal"
  | BTreeLeaf => "BTreeLeaf" | Meta => "Meta" | RowIdDir => "RowIdDir"
  end.

Definition read_overflow_page (p : Page) (id : PageId) : result InternalError (list Z * option PageId) :=
  k ← kind p;
  if negb (bool_decide (k = Overflow)) then
    Err (Corruption [Lit "page "; Num id; Lit " of an overflow chain carries kind "; Lit (debug_kind k)])
  else
    let end_ := lower p in
    if (end_ <? OVERFLOW_PAYLOAD_START) || (Z.of_nat PAGE_SIZE <? end_) then
      Err (Corruption [Lit "overflow page "; Num id; Lit " says its payload ends at "; Num (Z.to_N end_);
        Lit ", outside "; Num (Z.to_N OVERFLOW_PAYLOAD_START); Lit ".."; Num (N.of_nat PAGE_SIZE)])
    else
      let start := Z.to_nat OVERFLOW_PAYLOAD_START in
      let payload := slice start (Z.to_nat end_ - start) p in
      let next := read_u64 OFF_OVERFLOW_NEXT p in
      Ok (payload, if next =? END_OF_CHAIN then None else Some (Z.to_N next)).

(** * Facts about heap pages

    The form a heap page keeps ([heap_ok]), the records it stands for ([records]), and what each
    operation on a page does to them. *)

#[local] Open Scope Z_scope.

Ltac page_arith :=
  pose proof PAGE_SIZE_Z;
  unfold HEAP_PAYLOAD_START, OVERFLOW_PAYLOAD_START, OVERFLOW_CAPACITY, OFF_UPPER, OFF_HEAP_NEXT, OFF_OVERFLOW_NEXT,
    MAX_INLINE_LEN, SLOT_SIZE, STUB_LEN, u16_max, OFF_LOWER, OFF_SLOT_COUNT, OFF_KIND, HEADER_SIZE in *;
  lia.

(** ** Slots in their page *)

Lemma slot_position_Z i : (i < 2048)%nat → Z.of_nat (slot_position i) = 8192 - 4 * (Z.of_nat i + 1).
Proof. intros. unfold slot_position. page_arith. Qed.

Lemma u16_land_low x : 0 ≤ x < 65536 → Z.land x (u16_not OVERFLOW_FLAG) = x mod 32768.
Proof. intros. change (u16_not OVERFLOW_FLAG) with (Z.ones 15). rewrite Z.land_ones by lia. done. Qed.

Lemma u16_land_flag x : 0 ≤ x < 65536 → (Z.land x OVERFLOW_FLAG =? 0) = (x <? 32768).
Proof.
  intros Hx. assert (Hl : Z.land x OVERFLOW_FLAG = if Z.testbit x 15 then OVERFLOW_FLAG else 0).
  { apply Z.bits_inj'. intros n Hn. rewrite Z.land_spec. change OVERFLOW_FLAG with (2 ^ 15).
    rewrite Z.pow2_bits_eqb by lia. destruct (Z.eqb_spec 15 n) as [<-|Hne].
    - destruct (Z.testbit x 15) eqn:Hb; [by rewrite Z.pow2_bits_true|by rewrite Z.testbit_0_l].
    - rewrite andb_false_r. destruct (Z.testbit x 15); [by rewrite Z.pow2_bits_false|by rewrite Z.testbit_0_l]. }
  assert (Hb : Z.testbit x 15 = negb (x <? 32768)).
  { apply eq_true_iff_eq. rewrite Z.testbit_true by lia. change (2 ^ 15) with 32768.
    rewrite negb_true_iff, Z.ltb_ge. assert (x / 32768 = if 32768 <=? x then 1 else 0) as ->.
    { destruct (Z.leb_spec 32768 x); symmetry; [apply (Z.div_unique _ _ _ (x - 32768))|apply (Z.div_unique _ _ _ x)]; lia. }
    destruct (Z.leb_spec 32768 x); (split; [|intros; try lia]); done || (intros ?; done || lia). }
  rewrite Hl, Hb. by destruct (x <? 32768).
Qed.

Lemma u16_lor_flag x : 0 ≤ x < 32768 → Z.lor x OVERFLOW_FLAG = x + 32768.
Proof.
  intros Hx. assert (Hd : Z.land x OVERFLOW_FLAG = 0).
  { apply Z.eqb_eq. rewrite u16_land_flag by lia. lia. }
  pose proof (Z.add_lor_land x OVERFLOW_FLAG) as Ha. rewrite Hd in Ha. unfold OVERFLOW_FLAG in *. lia.
Qed.

Lemma read_u16_fits at_ p : page_ok p → 0 ≤ read_u16 at_ p < 65536.
Proof.
  intros [Hl Hb]. unfold read_u16. pose proof (from_le_bytes_bound (slice at_ 2 p) (slice_Forall _ _ _ _ Hb)) as Hx.
  assert (length (slice at_ 2 p) ≤ 2)%nat by (unfold slice; rewrite length_take; lia).
  assert (2 ^ (8 * Z.of_nat (length (slice at_ 2 p))) ≤ 2 ^ 16) by (apply Z.pow_le_mono_r; lia).
  change (2 ^ 16) with 65536 in *. unfold unsigned_fits in *. lia.
Qed.

Lemma slots_Z p : page_ok p → Z.of_nat (slots p) = slot_count p.
Proof. intros Hp. unfold slots, slot_count. pose proof (read_u16_fits OFF_SLOT_COUNT p Hp). lia. Qed.

Lemma read_u16_write at_ x p :
  page_ok p → (at_ + 2 ≤ PAGE_SIZE)%nat → 0 ≤ x < 65536 → read_u16 at_ (write_u16 at_ x p) = x.
Proof. intros Hp Hle Hx. unfold read_u16, write_u16. apply (read_le_splice _ Hp); [done|]. unfold unsigned_fits. lia. Qed.

Lemma write_u16_ok at_ x p : page_ok p → (at_ + 2 ≤ PAGE_SIZE)%nat → page_ok (write_u16 at_ x p).
Proof.
  intros Hp Hle. apply splice_ok; [done|apply to_le_bytes_bound|by rewrite length_to_le_bytes].
Qed.

Lemma slice_write_u16 a n at_ x p :
  page_ok p → (at_ + 2 ≤ PAGE_SIZE)%nat → (a + n ≤ at_ ∨ at_ + 2 ≤ a)%nat →
  slice a n (write_u16 at_ x p) = slice a n p.
Proof.
  intros Hp Hle Hd. unfold write_u16. apply (slice_splice_page _ Hp); rewrite length_to_le_bytes; done.
Qed.

Section slot_writes.
Context (p : Page) (Hp : page_ok p) (i : nat) (Hi : (i < 2048)%nat) (off st : Z).

Lemma write_slot_ok : page_ok (write_slot i off st p).
Proof using Hp Hi.
  pose proof (slot_position_Z i Hi). unfold write_slot. apply write_u16_ok; [apply write_u16_ok; [done|]|]; page_arith.
Qed.

Lemma read_write_slot : 0 ≤ off < 65536 → 0 ≤ st < 65536 → read_slot (write_slot i off st p) i = mkSlot off st.
Proof using Hp Hi.
  intros Ho Hs. pose proof (slot_position_Z i Hi). pose proof PAGE_SIZE_Z. unfold read_slot, write_slot.
  assert (Hq : page_ok (write_u16 (slot_position i) off p)) by (apply write_u16_ok; [done|lia]).
  f_equal; [|by apply read_u16_write; [| lia |]].
  unfold read_u16 at 1. rewrite slice_write_u16 by first [assumption|lia]. by apply read_u16_write; [|lia|].
Qed.

(** The bytes outside the entry stay. *)
Lemma slice_write_slot a n :
  (a + n ≤ slot_position i ∨ slot_position i + 4 ≤ a)%nat → slice a n (write_slot i off st p) = slice a n p.
Proof using Hp Hi.
  intros Hd. pose proof (slot_position_Z i Hi). pose proof PAGE_SIZE_Z. unfold write_slot.
  rewrite slice_write_u16; [apply slice_write_u16; [done|lia|lia]|apply write_u16_ok; [done|lia]|lia|lia].
Qed.

Lemma read_write_slot_other j : (j < 2048)%nat → j ≠ i → read_slot (write_slot i off st p) j = read_slot p j.
Proof using Hp Hi.
  intros Hj Hne. pose proof (slot_position_Z i Hi). pose proof (slot_position_Z j Hj).
  unfold read_slot, read_u16. by rewrite !slice_write_slot by lia.
Qed.
End slot_writes.

(** A write of bytes below the entry of a slot leaves the slot. *)
Lemma read_slot_below p at_ new j :
  page_ok p → (j < 2048)%nat → (at_ + length new ≤ slot_position j)%nat → read_slot (splice at_ new p) j = read_slot p j.
Proof.
  intros Hp Hj Hle. pose proof (slot_position_Z j Hj). pose proof PAGE_SIZE_Z. unfold read_slot, read_u16.
  by rewrite !(slice_splice_page _ Hp) by lia.
Qed.

Lemma Slot_len_bound p i : page_ok p → Z.of_nat (Slot.len (read_slot p i)) < 32768.
Proof.
  intros Hp. unfold Slot.len. cbn [stored read_slot]. pose proof (read_u16_fits (slot_position i + 2) p Hp).
  rewrite u16_land_low by done. pose proof (Z.mod_pos_bound (read_u16 (slot_position i + 2) p) 32768 ltac:(lia)). lia.
Qed.

(** ** The form of a heap page *)

Definition disjoint (s t : Slot) : Prop :=
  offset s + Z.of_nat (Slot.len s) ≤ offset t ∨ offset t + Z.of_nat (Slot.len t) ≤ offset s.

(** The bytes of a slot lie among the records, which end at [top]. *)
Definition inside (top : Z) (s : Slot) : Prop := 42 ≤ offset s ∧ offset s + Z.of_nat (Slot.len s) ≤ top.

Record heap_ok (p : Page) : Prop := {
  ho_page : page_ok p;
  ho_kind : kind p = Ok Heap;
  ho_upper : heap_upper p = 8192 - 4 * slot_count p;
  ho_room : 42 ≤ lower p ≤ heap_upper p;
  ho_inside i : (i < slots p)%nat → Slot.is_free (read_slot p i) = false → inside (lower p) (read_slot p i);
  ho_disjoint i j : (i < slots p)%nat → (j < slots p)%nat → i ≠ j →
    Slot.is_free (read_slot p i) = false → Slot.is_free (read_slot p j) = false →
    disjoint (read_slot p i) (read_slot p j);
}.

(** What a slot holds: the bytes of its record and whether they are a stub. *)
Definition content (p : Page) (i : nat) : option (list Z * bool) :=
  let s := read_slot p i in
  if Slot.is_free s then None
  else Some (slice (Z.to_nat (offset s)) (Slot.len s) p, Slot.is_overflow s).

(** The records of a page, by slot. *)
Definition records (p : Page) : list (option (list Z * bool)) := content p <$> seq 0 (slots p).

Lemma length_records p : length (records p) = slots p.
Proof. unfold records. by rewrite length_fmap, length_seq. Qed.

Lemma records_lookup p i : (i < slots p)%nat → records p !! i = Some (content p i).
Proof. intros Hi. unfold records. rewrite list_lookup_fmap, lookup_seq_lt by done. done. Qed.

Lemma heap_ok_slots p : heap_ok p → (slots p < 2048)%nat.
Proof. intros H. pose proof (slots_Z p (ho_page p H)). pose proof (ho_room p H). pose proof (ho_upper p H). lia. Qed.

Lemma heap_ok_position p i : heap_ok p → (i < slots p)%nat → heap_upper p ≤ Z.of_nat (slot_position i).
Proof.
  intros H Hi. pose proof (heap_ok_slots p H). rewrite slot_position_Z by lia. pose proof (slots_Z p (ho_page p H)).
  rewrite (ho_upper p H). lia.
Qed.

(** The fields before the records. *)
Definition same_head (p q : Page) : Prop := slice 0 42 p = slice 0 42 q.
(** All but the directory fields, [slot_count], [lower] and [upper]. *)
Definition same_identity (p q : Page) : Prop := slice 0 28 p = slice 0 28 q ∧ slice 34 8 p = slice 34 8 q.

Lemma slice_of_same {A} a n m (p q : list A) : slice 0 m p = slice 0 m q → (a + n ≤ m)%nat → slice a n p = slice a n q.
Proof. intros H Hle. pose proof (slice_slice 0 m a n p Hle) as H1. pose proof (slice_slice 0 m a n q Hle) as H2. cbn in *. congruence. Qed.

Lemma same_head_identity p q : same_head p q → same_identity p q.
Proof. intros H. split; eapply slice_of_same; eauto; lia. Qed.

Lemma same_identity_trans p q r : same_identity p q → same_identity q r → same_identity p r.
Proof. intros [] []. split; congruence. Qed.

Lemma read_u8_same a p q :
  page_ok p → page_ok q → slice 0 28 p = slice 0 28 q → (a < 28)%nat → read_u8 a p = read_u8 a q.
Proof.
  intros [Hl _] [Hl' _] H Ha. assert (Hs : slice a 1 p = slice a 1 q) by (eapply slice_of_same; [done|lia]).
  pose proof PAGE_SIZE_Z. rewrite !read_u8_slice in Hs by lia. congruence.
Qed.

Section identity.
Context (p q : Page) (Hp : page_ok p) (Hq : page_ok q) (Hs : same_identity p q).

Lemma same_kind : kind p = kind q.
Proof using Hp Hq Hs. unfold kind. f_equal. apply read_u8_same; [done..|apply Hs|unfold OFF_KIND; lia]. Qed.
Lemma same_lsn : lsn p = lsn q.
Proof using Hs. unfold lsn, read_u64. f_equal. f_equal. eapply slice_of_same; [apply Hs|unfold OFF_PAGE_LSN; lia]. Qed.
Lemma same_page_id : page_id p = page_id q.
Proof using Hs. unfold page_id, read_u64. f_equal. f_equal. eapply slice_of_same; [apply Hs|unfold OFF_PAGE_ID; lia]. Qed.
Lemma same_next : heap_next p = heap_next q.
Proof using Hs. unfold heap_next, read_u64. change OFF_HEAP_NEXT with 34%nat. destruct Hs as [_ ->]. done. Qed.
Lemma same_header_good : header_good (header_of p) → header_good (header_of q).
Proof using Hp Hq Hs.
  unfold header_good. cbn [header_of h_magic h_format_version h_kind]. unfold format_version.
  rewrite (read_u8_same OFF_FORMAT_VERSION p q), (read_u8_same OFF_KIND p q)
    by first [done|apply Hs|unfold OFF_FORMAT_VERSION, OFF_KIND; lia].
  assert (slice OFF_MAGIC 4 p = slice OFF_MAGIC 4 q) as -> by (eapply slice_of_same; [apply Hs|unfold OFF_MAGIC; lia]). done.
Qed.
End identity.

Section head.
Context (p q : Page) (Hs : same_head p q).
Lemma same_lower : lower p = lower q.
Proof using Hs. unfold lower, read_u16. f_equal. eapply slice_of_same; [apply Hs|unfold OFF_LOWER; lia]. Qed.
Lemma same_slot_count : slot_count p = slot_count q.
Proof using Hs. unfold slot_count, read_u16. f_equal. eapply slice_of_same; [apply Hs|unfold OFF_SLOT_COUNT; lia]. Qed.
Lemma same_upper : heap_upper p = heap_upper q.
Proof using Hs. unfold heap_upper, read_u16. f_equal. eapply slice_of_same; [apply Hs|unfold OFF_UPPER, HEADER_SIZE; lia]. Qed.
Lemma same_slots : slots p = slots q.
Proof using Hs. unfold slots. by rewrite same_slot_count. Qed.
End head.

(** ** Freeing a slot *)

Lemma content_ext p q i :
  read_slot q i = read_slot p i →
  (Slot.is_free (read_slot p i) = false →
   slice (Z.to_nat (offset (read_slot p i))) (Slot.len (read_slot p i)) q =
   slice (Z.to_nat (offset (read_slot p i))) (Slot.len (read_slot p i)) p) →
  content q i = content p i.
Proof.
  intros Hr Hs. unfold content. rewrite Hr. destruct (Slot.is_free (read_slot p i)); [done|]. by rewrite Hs.
Qed.

Lemma records_ext p q : slots p = slots q → (∀ i, (i < slots p)%nat → content p i = content q i) → records p = records q.
Proof.
  intros Hn Hc. unfold records. rewrite <- Hn. apply list_fmap_ext. intros j x Hj%lookup_seq.
  apply Hc. lia.
Qed.

Lemma records_insert p q i :
  slots q = slots p → (i < slots p)%nat → (∀ j, (j < slots p)%nat → j ≠ i → content q j = content p j) →
  records q = <[i := content q i]> (records p).
Proof.
  intros Hn Hi Hc. apply list_eq_same_length with (slots p); [by rewrite length_insert, length_records|by rewrite length_records|].
  intros j x y Hj. rewrite records_lookup by lia. destruct (decide (j = i)) as [->|Hne].
  - rewrite list_lookup_insert_eq by by rewrite length_records. congruence.
  - rewrite list_lookup_insert_ne by done. rewrite records_lookup by done. rewrite Hc by done. congruence.
Qed.

Section free_entry.
Context (p : Page) (Hok : heap_ok p) (i : nat) (Hi : (i < slots p)%nat).
Let q := write_slot i 0 0 p.

#[local] Lemma i_small : (i < 2048)%nat.
Proof using Hok Hi. pose proof (heap_ok_slots p Hok). lia. Qed.

#[local] Lemma below_entry a n : Z.of_nat (a + n) ≤ heap_upper p → slice a n q = slice a n p.
Proof using Hok Hi.
  intros Hle. apply (slice_write_slot _ (ho_page p Hok) _ i_small). pose proof (heap_ok_position p i Hok Hi). lia.
Qed.

Lemma free_entry_head : same_head q p.
Proof using Hok Hi. apply below_entry. pose proof (ho_room p Hok). lia. Qed.

Lemma free_entry_slot j : (j < slots p)%nat → read_slot q j = if decide (j = i) then mkSlot 0 0 else read_slot p j.
Proof using Hok Hi.
  intros Hj. pose proof (heap_ok_slots p Hok). case_decide as Hc.
  - subst j. apply read_write_slot; try lia. apply Hok.
  - apply read_write_slot_other; try lia. apply Hok.
Qed.

Lemma free_entry_spec : heap_ok q ∧ records q = <[i := None]> (records p) ∧ same_head q p.
Proof using Hok Hi.
  pose proof free_entry_head as Hh. pose proof (same_slots _ _ Hh) as Hn.
  assert (Hq : page_ok q) by (apply write_slot_ok; [apply Hok|apply i_small]).
  split_and!; [|etrans; [apply (records_insert p q i Hn Hi)|]|done].
  - split; rewrite ?Hn, ?(same_lower _ _ Hh), ?(same_upper _ _ Hh), ?(same_slot_count _ _ Hh); try apply Hok; [done|..].
    + rewrite <- (ho_kind p Hok). by apply same_kind; [|apply Hok|apply same_head_identity].
    + intros j Hj. rewrite free_entry_slot by done. case_decide; [done|]. by apply Hok.
    + intros j k Hj Hk. rewrite !free_entry_slot by done. repeat case_decide; try done. by apply Hok.
  - intros j Hj Hne. apply content_ext; rewrite ?free_entry_slot, ?decide_False by done; [done|].
    intros Hf. apply below_entry. pose proof (ho_inside p Hok j Hj Hf) as [? ?]. pose proof (ho_room p Hok). lia.
  - f_equal. unfold content. rewrite free_entry_slot by done. by rewrite decide_True.
Qed.
End free_entry.

(** ** Compaction *)

Section sorting.
Context {A} (key : A → Z).

Lemma insert_by_key_perm x l : insert_by_key key x l ≡ₚ x :: l.
Proof. induction l as [|y l IH]; cbn; [done|]. case_match; [done|]. rewrite IH. constructor. Qed.

Lemma sort_by_key_perm l : sort_by_key key l ≡ₚ l.
Proof. induction l as [|x l IH]; cbn; [done|]. rewrite insert_by_key_perm. by rewrite IH. Qed.

Lemma insert_by_key_sorted x l :
  StronglySorted (λ a b, key a ≤ key b) l → StronglySorted (λ a b, key a ≤ key b) (insert_by_key key x l).
Proof.
  induction 1 as [|y l Hs IH Hy]; cbn; [by repeat constructor|].
  destruct (Z.leb_spec (key x) (key y)) as [Hle|Hlt].
  - repeat (constructor; try done). eapply Forall_impl; [done|]. cbn. lia.
  - constructor; [done|]. rewrite insert_by_key_perm. constructor; [lia|done].
Qed.

Lemma sort_by_key_sorted l : StronglySorted (λ a b, key a ≤ key b) (sort_by_key key l).
Proof. induction l as [|x l IH]; cbn; [constructor|by apply insert_by_key_sorted]. Qed.
End sorting.

(** What the loop of the compaction needs of the records it has yet to move. *)
Record to_move (n : nat) (top cursor : Z) (ls : list (nat * Slot)) : Prop := {
  tm_sorted : StronglySorted (λ a b : nat * Slot, offset a.2 ≤ offset b.2) ls;
  tm_nodup : NoDup ls.*1;
  tm_inside e : e ∈ ls → (e.1 < n)%nat ∧ inside top e.2 ∧ 0 ≤ stored e.2 < 65536;
  tm_disjoint e f : e ∈ ls → f ∈ ls → e.1 ≠ f.1 → disjoint e.2 f.2;
  tm_cursor e : e ∈ ls → (0 < Slot.len e.2)%nat → cursor ≤ offset e.2;
  tm_top : 42 ≤ cursor ≤ top;
}.

Lemma to_move_tail n top cursor e ls :
  to_move n top cursor (e :: ls) → to_move n top (cursor + Z.of_nat (Slot.len e.2)) ls.
Proof.
  intros H. pose proof (tm_sorted _ _ _ _ H) as Hs. pose proof (tm_nodup _ _ _ _ H) as Hn.
  apply StronglySorted_inv in Hs as [Hs He]. rewrite fmap_cons in Hn. apply NoDup_cons in Hn as [Hne Hn].
  split; try done.
  - intros f Hf. by apply (tm_inside _ _ _ _ H); right.
  - intros f g Hf Hg. by apply (tm_disjoint _ _ _ _ H); right.
  - intros f Hf Hlen. pose proof (tm_cursor _ _ _ _ H f ltac:(by right) Hlen).
    destruct (decide (Slot.len e.2 = 0%nat)) as [->|Hl]; [lia|].
    pose proof (tm_cursor _ _ _ _ H e ltac:(by left) ltac:(lia)).
    assert (e.1 ≠ f.1). { intros Heq. apply Hne. rewrite Heq. by apply list_elem_of_fmap_2. }
    pose proof (proj1 (Forall_forall _ _) He f Hf) as Hle. cbn in Hle.
    destruct (tm_disjoint _ _ _ _ H e f ltac:(by left) ltac:(by right) ltac:(done)); lia.
  - pose proof (tm_top _ _ _ _ H). destruct (decide (Slot.len e.2 = 0%nat)) as [->|Hl]; [lia|].
    pose proof (tm_cursor _ _ _ _ H e ltac:(by left) ltac:(lia)).
    destruct (tm_inside _ _ _ _ H e ltac:(by left)) as (_ & [_ ?] & _). lia.
Qed.

(** One turn of the loop. *)
Section move.
Context (n : nat) (top cursor : Z) (p : Page) (i : nat) (s : Slot) (ls : list (nat * Slot)).
Context (Hp : page_ok p) (Hn : Z.of_nat n < 2048) (Htop : top ≤ 8192 - 4 * Z.of_nat n).
Context (H : to_move n top cursor ((i, s) :: ls)).
Let q := (move_record (cursor, p) (i, s)).2.
Let c := Z.to_nat cursor.
Let len := Slot.len s.

#[local] Lemma move_bounds : (i < 2048)%nat ∧ Z.of_nat c = cursor ∧ 42 ≤ cursor ∧ 42 ≤ offset s ∧
  offset s + Z.of_nat len ≤ top ∧ cursor + Z.of_nat len ≤ top ∧ top ≤ Z.of_nat (slot_position i) ∧ 0 ≤ stored s < 65536.
Proof using Hn Htop H.
  destruct (tm_inside _ _ _ _ H (i, s) ltac:(by left)) as (Hi & [? ?] & ?). cbn in *. pose proof (tm_top _ _ _ _ H).
  pose proof (tm_top _ _ _ _ (to_move_tail _ _ _ _ _ H)) as Ht. cbn in Ht. rewrite slot_position_Z by lia.
  unfold c, len. lia.
Qed.

#[local] Lemma copied : (if negb (offset s =? cursor) then copy_within (Z.to_nat (offset s)) len c p else p) =
  splice c (slice (Z.to_nat (offset s)) len p) p.
Proof using Hp Hn Htop H.
  pose proof move_bounds. pose proof PAGE_SIZE_Z. destruct Hp as [Hl _].
  destruct (Z.eqb_spec (offset s) cursor) as [Heq|]; cbn [negb]; [|done]. rewrite Heq. symmetry.
  fold c. apply list_eq. intros k. assert (length (slice c len p) = len) as Hls by (rewrite length_slice; lia).
  rewrite lookup_splice by lia. case_decide; [|done]. rewrite lookup_slice by lia. f_equal. lia.
Qed.

#[local] Lemma copied_ok : page_ok (splice c (slice (Z.to_nat (offset s)) len p) p) ∧ length (slice (Z.to_nat (offset s)) len p) = len.
Proof using Hp Hn Htop H.
  pose proof move_bounds. pose proof PAGE_SIZE_Z. destruct Hp as [Hl Hb].
  assert (length (slice (Z.to_nat (offset s)) len p) = len) as Hls by (rewrite length_slice; lia).
  split; [|done]. apply splice_ok; [done|by apply slice_Forall|lia].
Qed.

Lemma move_ok : page_ok q ∧ (move_record (cursor, p) (i, s)).1 = cursor + Z.of_nat len.
Proof using Hp Hn Htop H.
  split; [|done]. unfold q, move_record. cbn [snd]. fold len c. rewrite copied. apply write_slot_ok; [apply copied_ok|apply move_bounds].
Qed.

(** Bytes below the directory and outside the target of the move stay. *)
Lemma move_slice a k : Z.of_nat (a + k) ≤ top → (a + k ≤ c ∨ c + len ≤ a)%nat → slice a k q = slice a k p.
Proof using Hp Hn Htop H.
  intros Ha Hd. pose proof move_bounds. destruct copied_ok as [Hok Hls]. pose proof PAGE_SIZE_Z.
  pose proof (slot_position_Z i ltac:(lia)). unfold q, move_record. cbn [snd]. fold len c. rewrite copied.
  rewrite (slice_write_slot _ Hok) by lia. apply (slice_splice_page _ Hp); rewrite Hls; lia.
Qed.

Lemma move_target : slice c len q = slice (Z.to_nat (offset s)) len p.
Proof using Hp Hn Htop H.
  pose proof move_bounds. destruct copied_ok as [Hok Hls]. pose proof PAGE_SIZE_Z. destruct Hp as [Hl _].
  pose proof (slot_position_Z i ltac:(lia)).
  unfold q, move_record. cbn [snd]. fold len c. rewrite copied.
  rewrite (slice_write_slot _ Hok) by lia. apply slice_splice; [done|lia].
Qed.

Lemma move_slot j : (j < n)%nat → read_slot q j = if decide (j = i) then mkSlot cursor (stored s) else read_slot p j.
Proof using Hp Hn Htop H.
  intros Hj. pose proof move_bounds. destruct copied_ok as [Hok Hls]. pose proof PAGE_SIZE_Z.
  unfold q, move_record. cbn [snd]. fold len c. rewrite copied. case_decide as Hc.
  - subst j. apply read_write_slot; first [assumption|lia].
  - rewrite read_write_slot_other by (first [assumption|lia]). apply read_slot_below; [done|lia|].
    rewrite Hls. pose proof (slot_position_Z j ltac:(lia)). lia.
Qed.
End move.

(** A record the loop has moved: its slot names bytes from [low] to [high] that are those [s]
    named before. *)
Definition moved (p q : Page) (low high : Z) (i : nat) (s : Slot) : Prop :=
  stored (read_slot q i) = stored s ∧ low ≤ offset (read_slot q i) ∧
  offset (read_slot q i) + Z.of_nat (Slot.len s) ≤ high ∧
  slice (Z.to_nat (offset (read_slot q i))) (Slot.len s) q = slice (Z.to_nat (offset s)) (Slot.len s) p.

Lemma Slot_len_stored s t : stored s = stored t → Slot.len s = Slot.len t.
Proof. unfold Slot.len. by intros ->. Qed.

Lemma sum_lens_cons (i : nat) s (ls : list (nat * Slot)) : sum_lens (((i, s) :: ls).*2) = (Slot.len s + sum_lens ls.*2)%nat.
Proof. done. Qed.

Lemma compact_loop n top ls : ∀ cursor p,
  page_ok p → Z.of_nat n < 2048 → top ≤ 8192 - 4 * Z.of_nat n → to_move n top cursor ls →
  let '(cursor', q) := foldl move_record (cursor, p) ls in
  page_ok q ∧ cursor' = cursor + Z.of_nat (sum_lens ls.*2) ∧ cursor' ≤ top ∧
  slice 0 (Z.to_nat cursor) q = slice 0 (Z.to_nat cursor) p ∧
  (∀ j, (j < n)%nat → j ∉ ls.*1 → read_slot q j = read_slot p j) ∧
  (∀ i s, (i, s) ∈ ls → moved p q cursor cursor' i s) ∧
  (∀ e f, e ∈ ls → f ∈ ls → e.1 ≠ f.1 → disjoint (read_slot q e.1) (read_slot q f.1)).
Proof.
  induction ls as [|[i s] ls IH]; intros cursor p Hp Hn Htop H.
  { cbn. pose proof (tm_top _ _ _ _ H). split_and!; try done; [lia|lia|set_solver|set_solver]. }
  pose proof (to_move_tail _ _ _ _ _ H) as Ht. cbn [snd] in Ht.
  destruct (move_ok n top cursor p i s ls Hp Hn Htop H) as [Hq Hc].
  pose proof (move_slice n top cursor p i s ls Hp Hn Htop H) as Hsl.
  pose proof (move_target n top cursor p i s ls Hp Hn Htop H) as Htg.
  pose proof (move_slot n top cursor p i s ls Hp Hn Htop H) as Hst.
  destruct (move_bounds n top cursor i s ls Hn Htop H) as (Hi & Hcz & Hc42 & Ho & He & Hce & Hpos & Hs16).
  cbn [foldl]. destruct (move_record (cursor, p) (i, s)) as [c1 p1] eqn:Hm. cbn [fst snd] in *. subst c1.
  specialize (IH _ _ Hq Hn Htop Ht). destruct (foldl move_record _ ls) as [cursor' q].
  destruct IH as (Hqok & -> & Hle & Hlow & Hother & Hmoved & Hdis).
  pose proof (tm_nodup _ _ _ _ H) as Hnd. rewrite fmap_cons in Hnd. apply NoDup_cons in Hnd as [Hni Hnd]. cbn in Hni.
  assert (Hin : (i < n)%nat) by apply (tm_inside _ _ _ _ H (i, s) ltac:(by left)).
  assert (Hself : read_slot q i = mkSlot cursor (stored s)) by (rewrite Hother, Hst, decide_True by done; done).
  assert (Hfst : moved p q cursor (cursor + Z.of_nat (Slot.len s) + Z.of_nat (sum_lens ls.*2)) i s).
  { unfold moved. rewrite Hself. cbn [offset stored]. split_and!; [done|lia|lia|].
    rewrite <- Htg. eapply slice_of_same; [exact Hlow|]. lia. }
  split_and!.
  - done.
  - rewrite sum_lens_cons. lia.
  - done.
  - rewrite <- (Hsl 0%nat (Z.to_nat cursor)) by lia. eapply slice_of_same; [exact Hlow|]. lia.
  - intros j Hj Hjn. rewrite fmap_cons, not_elem_of_cons in Hjn. destruct Hjn as [? ?].
    rewrite Hother by done. rewrite Hst by done. by rewrite decide_False.
  - intros j t [[= -> ->]|Hjt]%elem_of_cons; [exact Hfst|].
    destruct (Hmoved j t Hjt) as (H1 & H2 & H3 & H4). split_and!; [done|lia|lia|].
    rewrite H4. destruct (decide (Slot.len t = 0%nat)) as [->|Hl]; [done|].
    pose proof (tm_cursor _ _ _ _ Ht (j, t) Hjt ltac:(cbn; lia)) as Hcur. cbn in Hcur.
    destruct (tm_inside _ _ _ _ Ht (j, t) Hjt) as (_ & [? ?] & _). cbn in *. apply Hsl; lia.
  - assert (Hlater : ∀ f, f ∈ ls → disjoint (read_slot q i) (read_slot q f.1)).
    { intros [j t] Hf. destruct (Hmoved j t Hf) as (H1 & H2 & _ & _). left. rewrite Hself. cbn [offset].
      rewrite (Slot_len_stored (mkSlot cursor (stored s)) s) by done. cbn in *. lia. }
    intros e f [->|He']%elem_of_cons [->|Hf']%elem_of_cons Hne; cbn [fst] in *; [done|by apply Hlater| |by apply Hdis].
    destruct (Hlater e He') as [?|?]; [by right|by left].
Qed.

Section set_lower.
Context (p : Page) (Hp : page_ok p) (l : Z) (Hl : 0 ≤ l < 65536).
Lemma set_lower_ok : page_ok (set_lower l p).
Proof using Hp. apply write_u16_ok; [done|]. page_arith. Qed.
Lemma lower_set_lower : lower (set_lower l p) = l.
Proof using Hp Hl. apply read_u16_write; [done|page_arith|done]. Qed.
Lemma slice_set_lower a n : (32 ≤ a ∨ a + n ≤ 30)%nat → slice a n (set_lower l p) = slice a n p.
Proof using Hp. intros. apply slice_write_u16; [done|page_arith|page_arith]. Qed.
Lemma slot_count_set_lower : slot_count (set_lower l p) = slot_count p.
Proof using Hp. unfold slot_count, read_u16. by rewrite slice_set_lower by page_arith. Qed.
Lemma slots_set_lower : slots (set_lower l p) = slots p.
Proof using Hp. unfold slots. by rewrite slot_count_set_lower. Qed.
Lemma upper_set_lower : heap_upper (set_lower l p) = heap_upper p.
Proof using Hp. unfold heap_upper, read_u16. by rewrite slice_set_lower by page_arith. Qed.
Lemma read_slot_set_lower j : (j < 2040)%nat → read_slot (set_lower l p) j = read_slot p j.
Proof using Hp.
  intros Hj. pose proof (slot_position_Z j ltac:(lia)). unfold read_slot, read_u16.
  by rewrite !slice_set_lower by lia.
Qed.
Lemma identity_set_lower : same_identity (set_lower l p) p.
Proof using Hp. split; apply slice_set_lower; lia. Qed.
End set_lower.

Lemma NoDup_filter_fst {B} (f : nat * B → bool) (g : nat → B) l :
  NoDup l → NoDup (List.filter f ((λ i, (i, g i)) <$> l)).*1.
Proof.
  induction 1 as [|i l Hi Hl IH]; cbn; [constructor|]. destruct (f (i, g i)); [|done]. cbn. constructor; [|done].
  intros ([j b] & -> & Hin)%list_elem_of_fmap. apply Hi. cbn. apply list_elem_of_In, filter_In in Hin as [Hin _].
  apply list_elem_of_In, list_elem_of_fmap in Hin as (? & [= -> ->] & ?). done.
Qed.

Lemma elem_of_live_slots p i s :
  (i, s) ∈ live_slots p ↔ (i < slots p)%nat ∧ s = read_slot p i ∧ Slot.is_free s = false.
Proof.
  unfold live_slots. rewrite list_elem_of_In, filter_In, <- list_elem_of_In, list_elem_of_fmap, negb_true_iff.
  setoid_rewrite elem_of_seq. naive_solver lia.
Qed.

Lemma sum_lens_perm l l' : l ≡ₚ l' → sum_lens l = sum_lens l'.
Proof. unfold sum_lens. induction 1; cbn [foldr]; lia. Qed.

(** The bytes the records of a page take. *)
Definition live_bytes (p : Page) : nat := sum_lens (live_slots p).*2.

Lemma live_to_move p :
  heap_ok p → to_move (slots p) (lower p) 42 (sort_by_key (λ e : nat * Slot, offset e.2) (live_slots p)).
Proof.
  intros H. pose proof (sort_by_key_perm (λ e : nat * Slot, offset e.2) (live_slots p)) as Hperm. split.
  - apply (sort_by_key_sorted (λ e : nat * Slot, offset e.2)).
  - rewrite Hperm. apply NoDup_filter_fst, NoDup_seq.
  - intros [i s]. rewrite Hperm, elem_of_live_slots. intros (Hi & -> & Hf). split_and!; [done|by apply H|..]; cbn; apply read_u16_fits, H.
  - intros [i s] [j t]. rewrite !Hperm, !elem_of_live_slots. intros (? & -> & ?) (? & -> & ?) ?. by apply H.
  - intros [i s]. rewrite Hperm, elem_of_live_slots. intros (? & -> & ?) _. by apply H.
  - pose proof (ho_room p H). lia.
Qed.

Lemma compact_spec p : heap_ok p →
  heap_ok (compact p) ∧ records (compact p) = records p ∧ same_identity (compact p) p ∧
  slot_count (compact p) = slot_count p ∧ heap_upper (compact p) = heap_upper p ∧
  lower (compact p) = 42 + Z.of_nat (live_bytes p).
Proof.
  intros H. pose proof (heap_ok_slots p H) as Hn. pose proof (slots_Z p (ho_page p H)) as Hsz.
  pose proof (ho_room p H) as Hroom. pose proof (ho_upper p H) as Hup.
  pose proof (sort_by_key_perm (λ e : nat * Slot, offset e.2) (live_slots p)) as Hperm.
  pose proof (compact_loop (slots p) (lower p) _ _ p (ho_page p H) ltac:(lia) ltac:(lia) (live_to_move p H)) as Hloop.
  unfold compact. change HEAP_PAYLOAD_START with 42.
  destruct (foldl move_record _ _) as [c q]. destruct Hloop as (Hq & -> & Hc & Hhead & Hother & Hmoved & Hdis).
  rewrite (sum_lens_perm _ (live_slots p).*2) in * by by rewrite Hperm. fold (live_bytes p) in *.
  assert (Hc16 : 42 ≤ 42 + Z.of_nat (live_bytes p) < 65536) by lia. set (c := 42 + Z.of_nat (live_bytes p)) in *.
  assert (Hhd : same_head q p) by (eapply slice_of_same; [exact Hhead|lia]).
  pose proof (same_slots _ _ Hhd) as Hqs.
  assert (Hlive : ∀ i, (i < slots p)%nat → Slot.is_free (read_slot p i) = false → moved p q 42 c i (read_slot p i)).
  { intros i Hi Hf. apply Hmoved. rewrite Hperm. by apply elem_of_live_slots. }
  assert (Hdead : ∀ i, (i < slots p)%nat → Slot.is_free (read_slot p i) = true → read_slot q i = read_slot p i).
  { intros i Hi Hf. apply Hother; [done|]. rewrite Hperm. intros ([? ?] & -> & (? & -> & Hf')%elem_of_live_slots)%list_elem_of_fmap.
    cbn in Hf. congruence. }
  assert (Hfree : ∀ i, (i < slots p)%nat → Slot.is_free (read_slot q i) = Slot.is_free (read_slot p i)).
  { intros i Hi. destruct (Slot.is_free (read_slot p i)) eqn:Hf; [by rewrite Hdead|].
    destruct (Hlive i Hi Hf) as (_ & ? & _). unfold Slot.is_free. apply andb_false_iff. left. lia. }
  split_and!.
  - split; rewrite ?slots_set_lower, ?Hqs, ?slot_count_set_lower, ?upper_set_lower, ?(lower_set_lower q Hq c ltac:(lia)),
      ?(same_slot_count _ _ Hhd), ?(same_upper _ _ Hhd) by done; [by apply set_lower_ok| |done|lia| |].
    + rewrite <- (ho_kind p H). apply same_kind; [by apply set_lower_ok|apply H|].
      eapply same_identity_trans; [by apply identity_set_lower|by apply same_head_identity].
    + intros i Hi. rewrite read_slot_set_lower by (done || lia). rewrite Hfree by done. intros Hf.
      destruct (Hlive i Hi Hf) as (Hst & ? & ? & _). split; [done|]. by rewrite (Slot_len_stored _ _ Hst).
    + intros i j Hi Hj Hij. rewrite !read_slot_set_lower by (done || lia). rewrite !Hfree by done. intros Hfi Hfj.
      apply (Hdis (i, read_slot p i) (j, read_slot p j)); rewrite ?Hperm; try done; by apply elem_of_live_slots.
  - apply records_ext; rewrite slots_set_lower, Hqs by done; [done|]. intros i Hi. unfold content.
    rewrite read_slot_set_lower by (done || lia). rewrite Hfree by done. destruct (Slot.is_free (read_slot p i)) eqn:Hf; [done|].
    destruct (Hlive i Hi Hf) as (Hst & ? & ? & Hsl). rewrite (Slot_len_stored _ _ Hst), slice_set_lower, Hsl by (done || lia).
    unfold Slot.is_overflow. by rewrite Hst.
  - eapply same_identity_trans; [by apply identity_set_lower|by apply same_head_identity].
  - rewrite slot_count_set_lower by done. by apply same_slot_count.
  - rewrite upper_set_lower by done. by apply same_upper.
  - apply lower_set_lower; [done|lia].
Qed.
