(* ===== verification/Wal.v ===== *)
(** * The journal

    [vauban-storage/src/disk/wal.rs]: the records of the write-ahead journal and the file that
    holds them.  The file is the bytes the process reads back, with the number of leading
    bytes the disk is known to hold.  What the operating system answers to a write or to a
    [sync_all] is an argument of the operation; reading an open file does not fail, except
    past its end.  The page writes and the group commit of the same source file are in
    [PageWrite.v] and [GroupCommit.v]. *)

From S2P Require Import Prelude Errors Bytes Crc Page.

#[local] Open Scope Z_scope.

(** ** The file *)

(** [safe] leading bytes of [content] are on the disk whatever happens.  Once a sync has
    failed ([stuck]), a later one says nothing on the bytes the failed one was to cover, so
    [safe] does not grow any more. *)
Record File := mkFile { content : list Z; safe : N; stuck : bool }.

Definition file_len (f : File) : N := N.of_nat (length (content f)).

(** The outcome of [write_all]: complete, or an error after some of the bytes. *)
Inductive WriteOutcome := Written | WriteFailed (bytes : nat) (m : Message).
(** The outcome of [sync_all]. *)
Inductive SyncOutcome := Synced | SyncFailed (m : Message).

(** The content once [bytes] are written at [offset], which is at most its length. *)
Definition overwrite (offset : N) (bytes old : list Z) : list Z :=
  take (N.to_nat offset) old ++ bytes ++ drop (N.to_nat offset + length bytes) old.

Definition write_all (offset : N) (bytes : list Z) (o : WriteOutcome) : stateful File InternalError () := λ f,
  let put bytes := mkFile (overwrite offset bytes (content f)) (N.min (safe f) offset) (stuck f) in
  match o with
  | Written => (Ok (), put bytes)
  | WriteFailed n m => (Err (Io m), put (take n bytes))
  end.

(** [File::set_len] to a length at most the present one. *)
Definition set_len (n : N) (f : File) : File :=
  mkFile (take (N.to_nat n) (content f)) (N.min (safe f) n) (stuck f).

Definition sync_all (o : SyncOutcome) : stateful File InternalError () := λ f,
  match o with
  | Synced => (Ok (), mkFile (content f) (if stuck f then safe f else file_len f) (stuck f))
  | SyncFailed m => (Err (Io m), mkFile (content f) (safe f) true)
  end.

(** What a crash may leave of a file: the bytes that are safe, then anything. *)
Definition crash_image (f : File) (img : list Z) : Prop :=
  take (N.to_nat (safe f)) img = take (N.to_nat (safe f)) (content f) ∧ Forall is_byte img.

(** A file as a process finds it when it starts. *)
Definition found (img : list Z) : File := mkFile img 0 false.

(** [Read::read_exact] at an offset. *)
Definition read_exact (offset n : N) (bytes : list Z) : result InternalError (list Z) :=
  if (offset + n <=? N.of_nat (length bytes))%N
  then Ok (slice (N.to_nat offset) (N.to_nat n) bytes)
  else Err (Io [Lit "failed to fill whole buffer"]).

(** ** Records *)

Definition RECORD_VERSION : Z := 1.
Definition LENGTH_LEN : N := 4.
Definition HEADER_LEN : N := 26.
Definition CHECKSUM_LEN : N := 4.
Definition FRAME_LEN : N := LENGTH_LEN + HEADER_LEN + CHECKSUM_LEN.
Definition MAX_RECORD_LEN : N := 1048576.
Definition MAX_PAYLOAD_LEN : N := MAX_RECORD_LEN - FRAME_LEN.
Definition MIN_LENGTH : N := HEADER_LEN + CHECKSUM_LEN.

Module WalRecordKind.
Inductive t :=
  | Begin | Insert | Update | Delete | Commit | Abort | Checkpoint | CreateDatabase | DropDatabase
  | CreateTable | DropTable | CreateIndex | DropIndex | Savepoint | RollbackTo | Compensation | Purge
  | PageWrite.

#[global] Instance t_eq_dec : EqDecision t.
Proof. solve_decision. Defined.

Definition as_byte (k : t) : Z :=
  match k with
  | Begin => 1 | Insert => 2 | Update => 3 | Delete => 4 | Commit => 5 | Abort => 6 | Checkpoint => 7
  | CreateDatabase => 8 | DropDatabase => 9 | CreateTable => 10 | DropTable => 11 | CreateIndex => 12
  | DropIndex => 13 | Savepoint => 14 | RollbackTo => 15 | Compensation => 16 | Purge => 17 | PageWrite => 18
  end.

(** The [Debug] of a kind. *)
Definition debug (k : t) : string :=
  match k with
  | Begin => "Begin" | Insert => "Insert" | Update => "Update" | Delete => "Delete" | Commit => "Commit"
  | Abort => "Abort" | Checkpoint => "Checkpoint" | CreateDatabase => "CreateDatabase"
  | DropDatabase => "DropDatabase" | CreateTable => "CreateTable" | DropTable => "DropTable"
  | CreateIndex => "CreateIndex" | DropIndex => "DropIndex" | Savepoint => "Savepoint"
  | RollbackTo => "RollbackTo" | Compensation => "Compensation" | Purge => "Purge"
  | PageWrite => "PageWrite"
  end.

Definition from_byte (raw : Z) : result InternalError t :=
  match raw with
  | 1 => Ok Begin | 2 => Ok Insert | 3 => Ok Update | 4 => Ok Delete | 5 => Ok Commit | 6 => Ok Abort
  | 7 => Ok Checkpoint | 8 => Ok CreateDatabase | 9 => Ok DropDatabase | 10 => Ok CreateTable
  | 11 => Ok DropTable | 12 => Ok CreateIndex | 13 => Ok DropIndex | 14 => Ok Savepoint
  | 15 => Ok RollbackTo | 16 => Ok Compensation | 17 => Ok Purge | 18 => Ok PageWrite
  | other => Err (Corruption [Lit "unknown wal record kind "; Num (Z.to_N other)])
  end.
End WalRecordKind.

Record WalRecord := mkWalRecord {
  w_kind : WalRecordKind.t;
  w_lsn : Lsn;
  w_prev_lsn : Lsn;
  w_txn : TxnId;
  w_payload : list Z;
}.

#[export] Instance WalRecord_eq_dec : EqDecision WalRecord.
Proof. solve_decision. Defined.

(** What the checksum of a record covers. *)
Definition sealed_part (r : WalRecord) : list Z :=
  to_le_bytes 4 (Z.of_N (HEADER_LEN + N.of_nat (length (w_payload r)) + CHECKSUM_LEN)) ++
  [RECORD_VERSION; WalRecordKind.as_byte (w_kind r)] ++
  to_le_bytes 8 (Z.of_N (w_lsn r)) ++
  to_le_bytes 8 (Z.of_N (w_prev_lsn r)) ++
  to_le_bytes 8 (Z.of_N (w_txn r)) ++
  w_payload r.

(** [WalRecord::encode]. *)
Definition encode_record (r : WalRecord) : list Z :=
  sealed_part r ++ to_le_bytes 4 (crc32 (sealed_part r)).

(** ** Checkpoints *)

Definition CHECKPOINT_PAYLOAD_LEN : nat := 24.

Record CheckpointPayload := mkCheckpointPayload {
  redo_lsn : Lsn;
  next_page_id : PageId;
  next_row_id : N;
}.

Definition encode_checkpoint (c : CheckpointPayload) : list Z :=
  to_le_bytes 8 (Z.of_N (redo_lsn c)) ++ to_le_bytes 8 (Z.of_N (next_page_id c)) ++
  to_le_bytes 8 (Z.of_N (next_row_id c)).

Definition decode_checkpoint (bytes : list Z) : result InternalError CheckpointPayload :=
  if decide (length bytes = CHECKPOINT_PAYLOAD_LEN) then
    Ok (mkCheckpointPayload (Z.to_N (read_u64 0 bytes)) (Z.to_N (read_u64 8 bytes)) (Z.to_N (read_u64 16 bytes)))
  else Err (Corruption [Lit "a checkpoint record carries "; Num (N.of_nat (length bytes));
    Lit " payload bytes, expected "; Num (N.of_nat CHECKPOINT_PAYLOAD_LEN)]).

(** ** Reading a record *)

Inductive Framed :=
  | Whole (r : WalRecord) (len : N)
  | Damaged (reason : Message)
  | Rejected (reason : Message)
  | Torn (reason : Message)
  | Unframed (reason : Message).

(** The record in [bytes], whose length field and size were checked. *)
Definition open_record (offset : N) (bytes : list Z) : Framed :=
  let split := (length bytes - N.to_nat CHECKSUM_LEN)%nat in
  let stored := read_u32 split bytes in
  let computed := crc32 (take split bytes) in
  if negb (stored =? computed) then
    Damaged [Lit "the record at offset "; Num offset; Lit " of the journal carries checksum ";
      Num (Z.to_N stored); Lit ", its bytes hash to "; Num (Z.to_N computed)]
  else
    let version := read_u8 4 bytes in
    if negb (version =? RECORD_VERSION) then
      Rejected [Lit "the record at offset "; Num offset; Lit " of the journal declares format version ";
        Num (Z.to_N version); Lit ", this build reads "; Num (Z.to_N RECORD_VERSION)]
    else
      let kind_byte := read_u8 5 bytes in
      match WalRecordKind.from_byte kind_byte with
      | Err _ =>
          Rejected [Lit "the record at offset "; Num offset;
            Lit " of the journal carries unknown wal record kind "; Num (Z.to_N kind_byte)]
      | Ok kind =>
          Whole (mkWalRecord kind (Z.to_N (read_u64 6 bytes)) (Z.to_N (read_u64 14 bytes))
                   (Z.to_N (read_u64 22 bytes)) (slice 30 (split - 30) bytes))
            (N.of_nat (length bytes))
      end.

Definition frame (file : list Z) (offset remaining : N) : result InternalError Framed :=
  if (remaining <? LENGTH_LEN)%N then
    Ok (Torn [Lit "offset "; Num offset; Lit " of the journal holds "; Num remaining;
      Lit " bytes, fewer than the "; Num LENGTH_LEN; Lit " of a length field"])
  else
    length_bytes ← read_exact offset LENGTH_LEN file;
    let announced := Z.to_N (from_le_bytes length_bytes) in
    let len := (LENGTH_LEN + announced)%N in
    if (announced <? MIN_LENGTH)%N || (MAX_RECORD_LEN <? len)%N then
      Ok (Unframed [Lit "the record at offset "; Num offset; Lit " of the journal announces "; Num announced;
        Lit " bytes, outside the "; Num MIN_LENGTH; Lit "..="; Num (MAX_RECORD_LEN - LENGTH_LEN);
        Lit " a record carries"])
    else if (remaining <? len)%N then
      Ok (Torn [Lit "the record at offset "; Num offset; Lit " of the journal announces "; Num len;
        Lit " bytes, the journal holds "; Num remaining; Lit " from there"])
    else
      rest ← read_exact (offset + LENGTH_LEN) announced file;
      Ok (open_record offset (length_bytes ++ rest)).

(** ** Opening *)

Definition interior (at_ : N) (reason : Message) (sealed : N) : InternalError :=
  Corruption (reason ++ [Lit "; the record at offset "; Num sealed;
    Lit " of the journal carries a checksum that agrees, so offset "; Num at_;
    Lit " holds an interior record and not the tail of an append that did not finish"]).

Record Tail := mkTail { t_end : N; t_last_lsn : Lsn; t_records : N }.

Definition broken_chain (offset : N) (r : WalRecord) (tail : Tail) : InternalError :=
  Corruption [Lit "the record at offset "; Num offset; Lit " of the journal carries lsn "; Num (w_lsn r);
    Lit " after lsn "; Num (t_last_lsn tail); Lit " and names "; Num (w_prev_lsn r);
    Lit (" as the record before it; the journal numbers its records from 1 upwards, each naming the one " ++
         "before it")].

(** The loop of [Wal::scan]: the records up to the first frame that cannot be read.  A record
    takes a byte at least, so the length of the file is enough fuel. *)
Fixpoint scan_loop (fuel : nat) (file : list Z) (offset : N) (tail : Tail) :
    result InternalError (Tail * option (N * Message)) :=
  let size := N.of_nat (length file) in
  if (offset <? size)%N then
    match fuel with
    | O => Ok (tail, None)
    | S fuel =>
        framed ← frame file offset (size - offset);
        match framed with
        | Whole r len =>
            if negb (w_lsn r =? t_last_lsn tail + 1)%N || negb (w_prev_lsn r =? t_last_lsn tail)%N
            then Err (broken_chain offset r tail)
            else scan_loop fuel file (offset + len) (mkTail (offset + len) (w_lsn r) (t_records tail + 1))
        | Rejected reason => Err (Corruption reason)
        | Damaged reason | Torn reason | Unframed reason => Ok (tail, Some (offset, reason))
        end
    end
  else Ok (tail, None).

(** The loop of [Wal::sealed_record_after], over the [n] offsets from [candidate] to the end. *)
Fixpoint sealed_from (n : nat) (file : list Z) (candidate : N) : result InternalError (option N) :=
  match n with
  | O => Ok None
  | S n =>
      framed ← frame file candidate (N.of_nat (length file) - candidate);
      match framed with
      | Whole _ _ | Rejected _ => Ok (Some candidate)
      | Damaged _ | Torn _ | Unframed _ => sealed_from n file (candidate + 1)
      end
  end.

Definition sealed_record_after (file : list Z) (at_ : N) : result InternalError (option N) :=
  sealed_from (length file - N.to_nat (at_ + 1)) file (at_ + 1).

Definition scan (file : list Z) : result InternalError Tail :=
  found ← scan_loop (length file) file 0 (mkTail 0 0 0);
  match found with
  | (tail, Some (at_, reason)) =>
      sealed ← sealed_record_after file at_;
      match sealed with
      | Some sealed => Err (interior at_ reason sealed)
      | None => Ok tail
      end
  | (tail, None) => Ok tail
  end.

Record Wal := mkWal {
  path : string;
  file : File;
  end_ : N;
  last_lsn : Lsn;
  durable_lsn : Lsn;
  records : N;
}.

(** [Wal::open] on the file found at [path]; the file is answered too, since a truncation is
    done before the sync that may fail. *)
Definition open (path : string) (o : SyncOutcome) : stateful File InternalError Wal := λ f,
  match scan (content f) with
  | Err e => (Err e, f)
  | Ok tail =>
      let f := if (t_end tail <? file_len f)%N then set_len (t_end tail) f else f in
      match sync_all o f with
      | (Err e, f) => (Err e, f)
      | (Ok _, f) => (Ok (mkWal path f (t_end tail) (t_last_lsn tail) (t_last_lsn tail) (t_records tail)), f)
      end
  end.

(** ** Appending *)

Definition with_file (f : File) (w : Wal) : Wal :=
  mkWal (path w) f (end_ w) (last_lsn w) (durable_lsn w) (records w).

Definition append (kind : WalRecordKind.t) (txn : TxnId) (payload : list Z) (o : WriteOutcome) :
    stateful Wal InternalError Lsn := λ w,
  if (MAX_PAYLOAD_LEN <? N.of_nat (length payload))%N then
    (Err (Bug [Lit "a wal record of kind "; Lit (WalRecordKind.debug kind); Lit " carries ";
       Num (N.of_nat (length payload)); Lit " payload bytes, more than the "; Num MAX_PAYLOAD_LEN;
       Lit " that fit in a record of "; Num MAX_RECORD_LEN; Lit " bytes"]), w)
  else
    match checked_succ u64_max (last_lsn w) with
    | None => (Err (Bug [Lit "the journal "; Lit (path w); Lit " has handed out lsn "; Num u64_max;
        Lit ", the largest a u64 holds"]), w)
    | Some lsn =>
        let bytes := encode_record (mkWalRecord kind lsn (last_lsn w) txn payload) in
        match write_all (end_ w) bytes o (file w) with
        | (Err e, f) => (Err e, with_file f w)
        | (Ok _, f) =>
            (Ok lsn, mkWal (path w) f (end_ w + N.of_nat (length bytes)) lsn (durable_lsn w) (records w + 1))
        end
    end.

Definition append_checkpoint (next_page_id : PageId) (next_row_id : N) (o : WriteOutcome) :
    stateful Wal InternalError Lsn := λ w,
  let expected := saturating_succ (last_lsn w) in
  let payload := mkCheckpointPayload expected next_page_id next_row_id in
  match append WalRecordKind.Checkpoint 0 (encode_checkpoint payload) o w with
  | (Err e, w) => (Err e, w)
  | (Ok lsn, w) =>
      if negb (lsn =? expected)%N then
        (Err (Bug [Lit "the checkpoint record of journal "; Lit (path w); Lit " was numbered "; Num lsn;
          Lit " while its payload names "; Num expected]), w)
      else (Ok lsn, w)
  end.

(** ** Syncing *)

Definition note_sync (covered : Lsn) (w : Wal) : Wal :=
  mkWal (path w) (file w) (end_ w) (last_lsn w)
    (if (durable_lsn w <? covered)%N then covered else durable_lsn w) (records w).

Definition flush (o : SyncOutcome) : stateful Wal InternalError () := λ w,
  match sync_all o (file w) with
  | (Err e, f) => (Err e, with_file f w)
  | (Ok _, f) => (Ok (), note_sync (last_lsn w) (with_file f w))
  end.

(** [WalHandle::append_durable] and [WalHandle::append_checkpoint], under the lock. *)
Definition append_durable (kind : WalRecordKind.t) (txn : TxnId) (payload : list Z) (o : WriteOutcome)
    (s : SyncOutcome) : stateful Wal InternalError Lsn :=
  lsn ← append kind txn payload o; _ ← flush s; mret lsn.

Definition append_checkpoint_durable (next_page_id : PageId) (next_row_id : N) (o : WriteOutcome)
    (s : SyncOutcome) : stateful Wal InternalError Lsn :=
  lsn ← append_checkpoint next_page_id next_row_id o; _ ← flush s; mret lsn.

(** ** Iterating *)

Record WalIter := mkWalIter { i_offset : N; i_end : N; i_stopped : bool }.

(** [Wal::iter]. *)
Definition iter (w : Wal) : WalIter := mkWalIter 0 (end_ w) false.

(** [Iterator::next], over the bytes the file holds at that moment. *)
Definition next (file : list Z) (it : WalIter) : option (result InternalError WalRecord) * WalIter :=
  if i_stopped it || (i_end it <=? i_offset it)%N then (None, it)
  else
    let stop := mkWalIter (i_offset it) (i_end it) true in
    match frame file (i_offset it) (i_end it - i_offset it) with
    | Err e => (Some (Err e), stop)
    | Ok (Whole r len) => (Some (Ok r), mkWalIter (i_offset it + len) (i_end it) false)
    | Ok (Damaged reason) | Ok (Rejected reason) | Ok (Torn reason) | Ok (Unframed reason) =>
        (Some (Err (Corruption reason)), stop)
    end.

(** [collect::<Result<Vec<_>, _>>()] on the iterator; it ends since a record takes a byte at
    least, and [fuel] is above the number of bytes. *)
Fixpoint collect (fuel : nat) (file : list Z) (it : WalIter) : result InternalError (list WalRecord) :=
  match next file it with
  | (None, _) => Ok []
  | (Some (Err e), _) => Err e
  | (Some (Ok r), it) =>
      match fuel with
      | O => Ok [r]
      | S fuel => rs ← collect fuel file it; Ok (r :: rs)
      end
  end.

(** [WalHandle::records]. *)
Definition all_records (w : Wal) : result InternalError (list WalRecord) :=
  collect (length (content (file w))) (content (file w)) (iter w).
