(* ===== verification/WalFacts.v ===== *)
(** * The journal holds what was appended

    A record reads back from its bytes and from no others; a scan walks over the records it
    can read and stops at the first frame it cannot. *)

From S2P Require Import Prelude Errors Bytes Crc Page Wal.

#[local] Open Scope Z_scope.
#[local] Opaque to_le_bytes from_le_bytes.

(** ** Records *)

(** A record of the types of the source, within the bound [append] checks. *)
Definition record_ok (r : WalRecord) : Prop :=
  (w_lsn r ≤ u64_max)%N ∧ (w_prev_lsn r ≤ u64_max)%N ∧ (w_txn r ≤ u64_max)%N ∧
  Forall is_byte (w_payload r) ∧ (N.of_nat (length (w_payload r)) ≤ MAX_PAYLOAD_LEN)%N.

Lemma u64_fits n : (n ≤ u64_max)%N → unsigned_fits 8 (Z.of_N n).
Proof. unfold unsigned_fits, u64_max. change (8 * Z.of_nat 8) with 64. lia. Qed.

Lemma MAX_PAYLOAD_LEN_N : MAX_PAYLOAD_LEN = 1048542%N.
Proof. reflexivity. Qed.

Lemma kind_byte_bound k : is_byte (WalRecordKind.as_byte k).
Proof. destruct k; unfold is_byte; simpl; lia. Qed.

Lemma kind_from_as_byte k : WalRecordKind.from_byte (WalRecordKind.as_byte k) = Ok k.
Proof. by destruct k. Qed.

Lemma kind_from_byte_Ok b k : WalRecordKind.from_byte b = Ok k → b = WalRecordKind.as_byte k.
Proof.
  unfold WalRecordKind.from_byte. intros Hb.
  repeat case_match; simplify_eq/=; done.
Qed.

Lemma length_sealed_part r : length (sealed_part r) = (30 + length (w_payload r))%nat.
Proof. unfold sealed_part. rewrite !length_app, !length_to_le_bytes. simpl. lia. Qed.

Lemma length_encode_record r : length (encode_record r) = (34 + length (w_payload r))%nat.
Proof. unfold encode_record. rewrite length_app, length_sealed_part, length_to_le_bytes. lia. Qed.

Lemma sealed_part_bytes r : record_ok r → Forall is_byte (sealed_part r).
Proof.
  intros (_ & _ & _ & Hp & _). unfold sealed_part. rewrite !Forall_app.
  split_and!; try apply to_le_bytes_bound; [|done].
  constructor; [unfold is_byte, RECORD_VERSION; lia|]. constructor; [apply kind_byte_bound|constructor].
Qed.

Lemma encode_record_bytes r : record_ok r → Forall is_byte (encode_record r).
Proof. intros Hr. apply Forall_app. split; [by apply sealed_part_bytes|apply to_le_bytes_bound]. Qed.

Lemma read_le_field n at_ x pre post :
  length pre = at_ → unsigned_fits n x → from_le_bytes (slice at_ n (pre ++ to_le_bytes n x ++ post)) = x.
Proof.
  intros Hl Hx. rewrite (slice_skip at_) by done. rewrite Nat.sub_diag.
  rewrite slice_here by apply length_to_le_bytes. by apply from_to_le_bytes_fits.
Qed.

(** The fields of an encoded record. *)
Lemma encode_record_fields r :
  record_ok r →
  let b := encode_record r in
  from_le_bytes (slice 0 4 b) = Z.of_nat (30 + length (w_payload r)) ∧
  read_u8 4 b = RECORD_VERSION ∧ read_u8 5 b = WalRecordKind.as_byte (w_kind r) ∧
  read_u64 6 b = Z.of_N (w_lsn r) ∧ read_u64 14 b = Z.of_N (w_prev_lsn r) ∧
  read_u64 22 b = Z.of_N (w_txn r) ∧ slice 30 (length (w_payload r)) b = w_payload r.
Proof.
  intros (Hl & Hpl & Ht & Hp & Hmax). rewrite MAX_PAYLOAD_LEN_N in Hmax.
  set (A := to_le_bytes 4 (Z.of_N (HEADER_LEN + N.of_nat (length (w_payload r)) + CHECKSUM_LEN))).
  set (B := [RECORD_VERSION; WalRecordKind.as_byte (w_kind r)]).
  set (C := to_le_bytes 8 (Z.of_N (w_lsn r))). set (D := to_le_bytes 8 (Z.of_N (w_prev_lsn r))).
  set (E := to_le_bytes 8 (Z.of_N (w_txn r))). set (G := to_le_bytes 4 (crc32 (sealed_part r))).
  assert (Hb : encode_record r = A ++ B ++ C ++ D ++ E ++ w_payload r ++ G).
  { unfold encode_record, sealed_part. fold A B C D E. by rewrite <- !app_assoc. }
  assert (LA : length A = 4%nat) by apply length_to_le_bytes.
  assert (LC : length C = 8%nat) by apply length_to_le_bytes.
  assert (LD : length D = 8%nat) by apply length_to_le_bytes.
  assert (LE : length E = 8%nat) by apply length_to_le_bytes.
  intros b. unfold b. rewrite Hb. unfold read_u64. split_and!.
  - rewrite (slice_here 4 A) by done. unfold A. rewrite from_to_le_bytes_fits.
    + unfold HEADER_LEN, CHECKSUM_LEN. lia.
    + unfold unsigned_fits, HEADER_LEN, CHECKSUM_LEN. lia.
  - unfold read_u8. rewrite app_nth2 by lia. by rewrite LA.
  - unfold read_u8. rewrite app_nth2 by lia. by rewrite LA.
  - rewrite app_assoc. apply read_le_field; [by rewrite length_app, LA|by apply u64_fits].
  - rewrite (app_assoc A), (app_assoc (A ++ B)).
    apply read_le_field; [by rewrite !length_app, LA, LC|by apply u64_fits].
  - rewrite (app_assoc A), (app_assoc (A ++ B)), (app_assoc ((A ++ B) ++ C)).
    apply read_le_field; [by rewrite !length_app, LA, LC, LD|by apply u64_fits].
  - rewrite (app_assoc A), (app_assoc (A ++ B)), (app_assoc ((A ++ B) ++ C)),
      (app_assoc (((A ++ B) ++ C) ++ D)), (slice_skip 30) by (rewrite ?length_app, ?LA, ?LC, ?LD, ?LE; done).
    by apply slice_here.
Qed.

Lemma crc_fits bytes : Forall is_byte bytes → unsigned_fits 4 (crc32 bytes).
Proof. intros Hb. apply (crc32_bitwise bytes Hb). Qed.

Lemma open_encode_record offset r :
  record_ok r → open_record offset (encode_record r) = Whole r (N.of_nat (length (encode_record r))).
Proof.
  intros Hr. destruct (encode_record_fields r Hr) as (_ & Hv & Hk & Hl & Hpl & Ht & Hp).
  unfold open_record. rewrite length_encode_record.
  replace (34 + length (w_payload r) - N.to_nat CHECKSUM_LEN)%nat with (length (sealed_part r))
    by (rewrite length_sealed_part; unfold CHECKSUM_LEN; lia).
  rewrite Hv, Hk, Hl, Hpl, Ht, kind_from_as_byte. unfold read_u32, encode_record at 1 2.
  rewrite take_app_length, (slice_skip (length (sealed_part r))), Nat.sub_diag by done.
  rewrite slice_all by apply length_to_le_bytes.
  rewrite from_to_le_bytes_fits by (by apply crc_fits, sealed_part_bytes).
  rewrite Z.eqb_refl. cbn [negb]. rewrite Z.eqb_refl. cbn [negb].
  rewrite length_sealed_part. replace (30 + length (w_payload r) - 30)%nat with (length (w_payload r)) by lia.
  rewrite Hp, !N2Z.id. by destruct r.
Qed.

Lemma slice_join {A} a n m (l : list A) :
  slice a n l ++ slice (a + n) m l = slice a (n + m) l.
Proof.
  unfold slice. rewrite <- drop_drop. generalize (drop a l). intros k.
  apply list_eq. intros i. destruct (decide (i < n)%nat) as [Hi|Hi].
  - destruct (decide (i < length k)%nat) as [Hk|Hk].
    + rewrite lookup_app_l by (rewrite length_take; lia). by rewrite !lookup_take_lt by lia.
    + rewrite lookup_ge_None_2 by (rewrite length_app, !length_take, length_drop; lia).
      symmetry. apply lookup_ge_None_2. rewrite length_take. lia.
  - destruct (decide (n ≤ length k)%nat) as [Hk|Hk].
    + rewrite lookup_app_r by (rewrite length_take; lia). rewrite length_take, Nat.min_l by lia.
      destruct (decide (i < n + m)%nat).
      * rewrite !lookup_take_lt by lia. rewrite lookup_drop. f_equal. lia.
      * by rewrite !lookup_take_ge by lia.
    + rewrite !lookup_ge_None_2; [done|rewrite length_take; lia|].
      rewrite length_app, !length_take, length_drop. lia.
Qed.

Lemma to_le_read n at_ bytes :
  Forall is_byte bytes → (at_ + n ≤ length bytes)%nat →
  to_le_bytes n (from_le_bytes (slice at_ n bytes)) = slice at_ n bytes.
Proof.
  intros Hb Hle. rewrite <- (length_slice at_ n bytes Hle) at 1. by apply to_from_le_bytes, slice_Forall.
Qed.

Lemma read_u64_range at_ bytes :
  Forall is_byte bytes → (at_ + 8 ≤ length bytes)%nat → 0 ≤ read_u64 at_ bytes ∧ (Z.to_N (read_u64 at_ bytes) ≤ u64_max)%N.
Proof.
  intros Hb Hle. pose proof (from_le_bytes_bound (slice at_ 8 bytes) (slice_Forall _ _ _ _ Hb)) as Hf.
  rewrite length_slice in Hf by done. unfold unsigned_fits in Hf. change (8 * Z.of_nat 8) with 64 in Hf.
  unfold read_u64, u64_max. lia.
Qed.

(** Only the bytes of a record read as that record. *)
Lemma open_record_exact offset bytes r len :
  Forall is_byte bytes → (34 ≤ length bytes)%nat → (N.of_nat (length bytes) ≤ MAX_RECORD_LEN)%N →
  from_le_bytes (slice 0 4 bytes) = Z.of_nat (length bytes) - 4 →
  open_record offset bytes = Whole r len →
  bytes = encode_record r ∧ record_ok r ∧ len = N.of_nat (length bytes).
Proof.
  intros Hb H34 Hmax Hlen. unfold open_record. change (N.to_nat CHECKSUM_LEN) with 4%nat.
  set (split := (length bytes - 4)%nat).
  destruct (Z.eqb_spec (read_u32 split bytes) (crc32 (take split bytes))) as [Hcrc|]; [|done]. cbn [negb].
  destruct (Z.eqb_spec (read_u8 4 bytes) RECORD_VERSION) as [Hver|]; [|done]. cbn [negb].
  destruct (WalRecordKind.from_byte (read_u8 5 bytes)) as [k|] eqn:Hk; [|done].
  intros [= <- <-]. apply kind_from_byte_Ok in Hk.
  assert (Hpl : length (slice 30 (split - 30) bytes) = (split - 30)%nat) by (apply length_slice; lia).
  assert (Hok : record_ok (mkWalRecord k (Z.to_N (read_u64 6 bytes)) (Z.to_N (read_u64 14 bytes))
    (Z.to_N (read_u64 22 bytes)) (slice 30 (split - 30) bytes))).
  { split_and!; cbn [w_lsn w_prev_lsn w_txn w_payload]; [apply read_u64_range; [done|lia]..| |].
    - by apply slice_Forall.
    - rewrite Hpl, MAX_PAYLOAD_LEN_N. unfold MAX_RECORD_LEN in Hmax. lia. }
  split; [|done].
  assert (Hs : sealed_part (mkWalRecord k (Z.to_N (read_u64 6 bytes)) (Z.to_N (read_u64 14 bytes))
    (Z.to_N (read_u64 22 bytes)) (slice 30 (split - 30) bytes)) = take split bytes).
  { unfold sealed_part. cbn [w_kind w_lsn w_prev_lsn w_txn w_payload].
    rewrite !Z2N.id by (apply read_u64_range; [done|lia]). unfold read_u64.
    rewrite !to_le_read by (done || lia). rewrite Hpl.
    replace (Z.of_N (HEADER_LEN + N.of_nat (split - 30) + CHECKSUM_LEN)) with (from_le_bytes (slice 0 4 bytes))
      by (rewrite Hlen; unfold HEADER_LEN, CHECKSUM_LEN; lia).
    rewrite to_le_read by (done || lia).
    change [RECORD_VERSION; WalRecordKind.as_byte k] with ([RECORD_VERSION] ++ [WalRecordKind.as_byte k]).
    rewrite <- Hver, <- Hk, <- !read_u8_slice by lia. rewrite <- (app_assoc (slice 4 1 bytes)).
    rewrite (slice_join 22), (slice_join 14), (slice_join 6), (slice_join 5), (slice_join 4), (slice_join 0).
    unfold slice. rewrite drop_0. f_equal. lia. }
  unfold encode_record. rewrite Hs, <- Hcrc. unfold read_u32. rewrite to_le_read by (done || lia).
  rewrite <- (take_drop split bytes) at 1. f_equal. unfold slice. symmetry. apply take_ge.
  rewrite length_drop. lia.
Qed.

(** ** Frames *)

Lemma read_exact_slice pre x post n :
  N.of_nat (length x) = n → read_exact (N.of_nat (length pre)) n (pre ++ x ++ post) = Ok x.
Proof.
  intros <-. unfold read_exact. rewrite (proj2 (N.leb_le _ _)) by (rewrite !length_app; lia).
  rewrite !Nat2N.id. f_equal. rewrite (slice_skip (length pre)), Nat.sub_diag by done. by apply slice_here.
Qed.

Lemma record_len_bounds r :
  record_ok r → (34 ≤ N.of_nat (length (encode_record r)) ≤ MAX_RECORD_LEN)%N.
Proof.
  intros (_ & _ & _ & _ & Hmax). rewrite MAX_PAYLOAD_LEN_N in Hmax. rewrite length_encode_record.
  unfold MAX_RECORD_LEN. lia.
Qed.

Lemma frame_encode pre r post offset remaining :
  record_ok r → offset = N.of_nat (length pre) → (N.of_nat (length (encode_record r)) ≤ remaining)%N →
  frame (pre ++ encode_record r ++ post) offset remaining =
  Ok (Whole r (N.of_nat (length (encode_record r)))).
Proof.
  intros Hr -> Hrem. pose proof (record_len_bounds r Hr) as Hb. unfold MAX_RECORD_LEN in Hb.
  unfold frame. rewrite (proj2 (N.ltb_ge _ _)) by (unfold LENGTH_LEN; lia).
  set (L := slice 0 4 (encode_record r)). set (R := drop 4 (encode_record r)).
  assert (Hsp : encode_record r = L ++ R) by (unfold L, R, slice; by rewrite drop_0, take_drop).
  assert (HL : length L = 4%nat) by (apply length_slice; lia).
  rewrite Hsp, <- (app_assoc L). rewrite read_exact_slice by (by rewrite HL).
  unfold mbind, result_bind. rewrite <- Hsp.
  destruct (encode_record_fields r Hr) as (HlenF & _). fold L in HlenF.
  assert (HR : Z.to_N (from_le_bytes L) = N.of_nat (length R)).
  { rewrite HlenF. unfold R. rewrite length_drop, length_encode_record. lia. }
  rewrite HR.
  assert (Hlen : (LENGTH_LEN + N.of_nat (length R))%N = N.of_nat (length (encode_record r))).
  { rewrite Hsp, length_app, HL. unfold LENGTH_LEN. lia. }
  rewrite Hlen. rewrite (proj2 (N.ltb_ge _ MIN_LENGTH)), (proj2 (N.ltb_ge MAX_RECORD_LEN _)), (proj2 (N.ltb_ge remaining _))
    by (unfold MIN_LENGTH, HEADER_LEN, CHECKSUM_LEN, MAX_RECORD_LEN, LENGTH_LEN in *; lia). cbn [orb].
  replace (N.of_nat (length pre) + LENGTH_LEN)%N with (N.of_nat (length (pre ++ L)))
    by (rewrite length_app, HL; unfold LENGTH_LEN; lia).
  rewrite (app_assoc pre), read_exact_slice by done.
  rewrite <- Hsp. by rewrite open_encode_record.
Qed.

(** What a frame that is whole was read from. *)
Lemma frame_Whole_inv file offset remaining r len :
  Forall is_byte file → frame file offset remaining = Ok (Whole r len) →
  record_ok r ∧ len = N.of_nat (length (encode_record r)) ∧ (len ≤ remaining)%N ∧
  ∃ pre post, file = pre ++ encode_record r ++ post ∧ offset = N.of_nat (length pre).
Proof.
  intros Hb. unfold frame. destruct (N.ltb_spec remaining LENGTH_LEN) as [|Hrem]; [done|].
  intros (L & HL & H)%result_bind_Ok. unfold read_exact in HL.
  destruct (N.leb_spec (offset + LENGTH_LEN) (N.of_nat (length file))) as [Hle|]; [|done].
  injection HL as HL. unfold LENGTH_LEN in *. change (N.to_nat 4) with 4%nat in HL.
  set (ann := Z.to_N (from_le_bytes L)) in *.
  destruct ((ann <? MIN_LENGTH)%N || (MAX_RECORD_LEN <? 4 + ann)%N) eqn:Hann; [done|].
  apply orb_false_iff in Hann as [Hmin%N.ltb_ge Hmax%N.ltb_ge].
  destruct (N.ltb_spec remaining (4 + ann)) as [|Hrem2]; [done|].
  apply result_bind_Ok in H as (R & HR & H). unfold read_exact in HR.
  destruct (N.leb_spec (offset + 4 + ann) (N.of_nat (length file))) as [Hle2|]; [|done].
  injection HR as HR. injection H as H. unfold MIN_LENGTH, HEADER_LEN, CHECKSUM_LEN in Hmin.
  assert (Hbytes : L ++ R = slice (N.to_nat offset) (4 + N.to_nat ann) file).
  { rewrite <- HL, <- HR. replace (N.to_nat (offset + 4)) with (N.to_nat offset + 4)%nat by lia.
    apply slice_join. }
  assert (Hlen : length (L ++ R) = (4 + N.to_nat ann)%nat) by (rewrite Hbytes; apply length_slice; lia).
  assert (HbL : Forall is_byte L) by (rewrite <- HL; by apply slice_Forall).
  assert (HlL : length L = 4%nat) by (rewrite <- HL; apply length_slice; lia).
  assert (Hann0 : 0 ≤ from_le_bytes L) by (apply from_le_bytes_bound in HbL; unfold unsigned_fits in HbL; lia).
  apply open_record_exact in H as (He & Hok & ->).
  - split_and!; [done|by rewrite He|rewrite Hlen; lia|].
    exists (take (N.to_nat offset) file), (drop (N.to_nat offset + (4 + N.to_nat ann)) file).
    rewrite <- He, Hbytes. split; [|rewrite length_take; lia].
    unfold slice. rewrite <- (drop_drop file), take_drop. by rewrite take_drop.
  - rewrite Hbytes. by apply slice_Forall.
  - lia.
  - rewrite Hlen. unfold MAX_RECORD_LEN in *. lia.
  - rewrite Hlen, slice_here by done. lia.
Qed.

Lemma read_exact_ok offset n bytes :
  (offset + n ≤ N.of_nat (length bytes))%N →
  read_exact offset n bytes = Ok (slice (N.to_nat offset) (N.to_nat n) bytes).
Proof. intros Hle. unfold read_exact. by rewrite (proj2 (N.leb_le _ _)). Qed.

(** Any answer of [frame] on a file that reaches [remaining] is a frame, without an error of
    the system. *)
Lemma frame_total file offset remaining :
  (offset + remaining ≤ N.of_nat (length file))%N → ∃ f, frame file offset remaining = Ok f.
Proof.
  intros Hle. unfold frame, mbind, result_bind.
  destruct (N.ltb_spec remaining LENGTH_LEN); [eauto|].
  rewrite read_exact_ok by lia. destruct (_ || _); [eauto|].
  destruct (N.ltb_spec remaining (LENGTH_LEN + Z.to_N (from_le_bytes
    (slice (N.to_nat offset) (N.to_nat LENGTH_LEN) file)))); [eauto|].
  rewrite read_exact_ok by lia. eauto.
Qed.

(** ** Scanning *)

(** The bytes of a journal of records. *)
Notation journal rs := (rs ≫= encode_record).

(** The records are numbered one by one after [last], each naming the one before it. *)
Fixpoint chain (last : N) (rs : list WalRecord) : Prop :=
  match rs with
  | [] => True
  | r :: rs => w_lsn r = (last + 1)%N ∧ w_prev_lsn r = last ∧ chain (last + 1) rs
  end.

Lemma chain_app last rs qs : chain last (rs ++ qs) ↔ chain last rs ∧ chain (last + N.of_nat (length rs)) qs.
Proof.
  revert last. induction rs as [|r rs IH]; intros last; simpl; [by rewrite N.add_0_r; naive_solver|].
  rewrite IH. replace (last + 1 + N.of_nat (length rs))%N with (last + N.of_nat (S (length rs)))%N by lia.
  naive_solver.
Qed.

Lemma journal_length_le rs : (length rs ≤ length (journal rs))%nat.
Proof.
  induction rs as [|r rs IH]; [done|]. rewrite bind_cons, length_app, length_encode_record. simpl. lia.
Qed.

Lemma scan_loop_fuel fuel fuel' file offset tail :
  Forall is_byte file →
  (N.of_nat (length file) ≤ offset + N.of_nat fuel)%N → (N.of_nat (length file) ≤ offset + N.of_nat fuel')%N →
  scan_loop fuel file offset tail = scan_loop fuel' file offset tail.
Proof.
  intros Hb. revert fuel' offset tail. induction fuel as [|fuel IH]; intros [|fuel'] offset tail Hf Hf'; simpl.
  - done.
  - by rewrite (proj2 (N.ltb_ge _ _)) by lia.
  - by rewrite (proj2 (N.ltb_ge _ _)) by lia.
  - destruct (_ <? _)%N; [|done]. destruct (frame _ _ _) as [[r len|?|?|?|?]|e] eqn:Hfr; try done.
    unfold mbind, result_bind. destruct (_ || _); [done|].
    apply frame_Whole_inv in Hfr as (Hok & -> & _); [|done]. pose proof (record_len_bounds r Hok).
    apply IH; lia.
Qed.

(** The tail a scan has reached after the records [rs]. *)
Definition tail_after (pre : list Z) (last records : N) (rs : list WalRecord) : Tail :=
  mkTail (N.of_nat (length (pre ++ journal rs))) (last + N.of_nat (length rs))
    (records + N.of_nat (length rs)).

(** A scan walks over records that are there. *)
Lemma scan_loop_walks file pre rs post last records :
  file = pre ++ journal rs ++ post → Forall is_byte file →
  Forall record_ok rs → chain last rs →
  scan_loop (length file) file (N.of_nat (length pre)) (tail_after pre last records []) =
  scan_loop (length file) file (N.of_nat (length (pre ++ journal rs))) (tail_after pre last records rs).
Proof.
  revert pre last records. induction rs as [|r rs IH]; intros pre last recs Hfile Hb Hok Hch.
  { simpl. by rewrite app_nil_r. }
  inversion_clear Hok as [|? ? Hr Hok']. destruct Hch as (Hl & Hpl & Hch).
  pose proof (record_len_bounds r Hr) as Hlen.
  rewrite bind_cons in Hfile |- *. rewrite <- app_assoc in Hfile.
  assert (Hsz : (length (pre ++ encode_record r) ≤ length file)%nat)
    by (rewrite Hfile, !length_app; lia).
  assert (Hfr : frame file (N.of_nat (length pre)) (N.of_nat (length file) - N.of_nat (length pre)) =
    Ok (Whole r (N.of_nat (length (encode_record r))))).
  { rewrite Hfile. apply frame_encode; [done|done|rewrite !length_app; lia]. }
  rewrite (scan_loop_fuel (length file) (S (length file)) file (N.of_nat (length pre))) by (done || lia).
  cbn [scan_loop]. rewrite (proj2 (N.ltb_lt _ _)) by (rewrite Hfile, !length_app; lia).
  rewrite Hfr, result_bind_ok. cbn [tail_after t_last_lsn t_records length].
  rewrite Hl, Hpl, N.add_0_r, !N.eqb_refl. cbn [negb orb].
  specialize (IH (pre ++ encode_record r) (last + 1)%N (recs + 1)%N).
  rewrite <- app_assoc in IH. specialize (IH Hfile Hb Hok' Hch). rewrite <- app_assoc in IH.
  replace (tail_after pre last recs (r :: rs)) with (tail_after (pre ++ encode_record r) (last + 1) (recs + 1) rs).
  2: { unfold tail_after. rewrite bind_cons, !length_app. simpl. f_equal; lia. }
  rewrite <- IH. unfold tail_after. change (journal []) with (@nil Z). rewrite app_nil_r, length_app, Nat2N.inj_add.
  cbn [length]. by rewrite !N.add_0_r.
Qed.

Lemma tail_after_cons pre r rs last recs :
  tail_after (pre ++ encode_record r) (last + 1) (recs + 1) rs = tail_after pre last recs (r :: rs).
Proof. unfold tail_after. rewrite bind_cons, !length_app. simpl. f_equal; lia. Qed.

(** A scan answers the records the file starts with, up to a frame it cannot read, or reports
    corruption. *)
Lemma scan_loop_sound fuel file pre rest last recs :
  file = pre ++ rest → Forall is_byte file → (length rest ≤ fuel)%nat →
  match scan_loop fuel file (N.of_nat (length pre)) (tail_after pre last recs []) with
  | Ok (tail, stop) =>
      ∃ rs rest', rest = journal rs ++ rest' ∧ Forall record_ok rs ∧ chain last rs ∧
        tail = tail_after pre last recs rs ∧
        match stop with
        | None => rest' = []
        | Some (at_, _) => at_ = N.of_nat (length (pre ++ journal rs)) ∧ rest' ≠ []
        end
  | Err e => ∃ m, e = Corruption m
  end.
Proof.
  revert pre rest last recs. induction fuel as [|fuel IH]; intros pre rest last recs Hfile Hb Hf.
  - destruct rest; [|simpl in Hf; lia]. simpl. rewrite (proj2 (N.ltb_ge _ _)) by (rewrite Hfile, app_nil_r; lia).
    exists [], []. by split_and!.
  - cbn [scan_loop]. destruct (N.ltb_spec (N.of_nat (length pre)) (N.of_nat (length file))) as [Hlt|Hge].
    2: { assert (rest = []) as -> by (destruct rest; [done|]; rewrite Hfile, length_app in Hge; simpl in Hge; lia).
         exists [], []. by split_and!. }
    assert (Hstop : ∀ reason : Message, ∃ rs rest', rest = journal rs ++ rest' ∧ Forall record_ok rs ∧ chain last rs ∧
      tail_after pre last recs [] = tail_after pre last recs rs ∧
      match Some (N.of_nat (length pre), reason) with
      | None => rest' = []
      | Some (at_, _) => at_ = N.of_nat (length (pre ++ journal rs)) ∧ rest' ≠ []
      end).
    { intros reason. exists [], rest. split_and!; try done; [by change (journal []) with (@nil Z); rewrite app_nil_r|].
      intros ->. rewrite Hfile, app_nil_r in Hlt. lia. }
    destruct (frame_total file (N.of_nat (length pre)) (N.of_nat (length file) - N.of_nat (length pre)))
      as [fr Hfr]; [lia|]. rewrite Hfr, result_bind_ok.
    destruct fr as [r len|reason|reason|reason|reason]; [|by apply Hstop|by eexists|by apply Hstop|by apply Hstop].
    apply frame_Whole_inv in Hfr as (Hok & -> & _ & pre' & post & Hf' & Hpre'); [|done].
    assert (pre' = pre ∧ rest = encode_record r ++ post) as [-> ->].
    { rewrite Hfile in Hf'. apply app_inj_1 in Hf' as [<- ->]; [done|lia]. }
    destruct (N.eqb_spec (w_lsn r) (t_last_lsn (tail_after pre last recs []) + 1)) as [Hl|]; [|by eexists].
    destruct (N.eqb_spec (w_prev_lsn r) (t_last_lsn (tail_after pre last recs []))) as [Hpl|]; [|by eexists].
    cbn [negb orb tail_after t_last_lsn length] in *. rewrite N.add_0_r in *.
    specialize (IH (pre ++ encode_record r) post (last + 1)%N (recs + 1)%N).
    rewrite <- app_assoc in IH. pose proof (length_encode_record r) as Hlr.
    specialize (IH Hf' Hb ltac:(rewrite length_app in Hf; lia)).
    replace (mkTail (N.of_nat (length pre) + N.of_nat (length (encode_record r))) (w_lsn r) _)
      with (tail_after (pre ++ encode_record r) (last + 1) (recs + 1) []).
    2: { unfold tail_after. change (journal []) with (@nil Z). rewrite app_nil_r, length_app, Hl. cbn [length t_records].
         f_equal; lia. }
    rewrite length_app, Nat2N.inj_add in IH.
    destruct (scan_loop fuel _ _ _) as [[tail stop]|e]; [|done].
    destruct IH as (rs & rest' & -> & Hoks & Hch & -> & Hst). exists (r :: rs), rest'.
    split_and!; [by rewrite bind_cons, <- app_assoc|by constructor|done| |].
    + by rewrite tail_after_cons.
    + destruct stop as [[at_ reason]|]; [|done]. by rewrite bind_cons, app_assoc.
Qed.

Lemma sealed_from_total n file c :
  (c + N.of_nat n ≤ N.of_nat (length file))%N → ∃ o, sealed_from n file c = Ok o.
Proof.
  revert c. induction n as [|n IH]; intros c Hle; [by eexists|]. cbn [sealed_from].
  destruct (frame_total file c (N.of_nat (length file) - c)) as [fr Hfr]; [lia|]. rewrite Hfr, result_bind_ok.
  destruct fr; try (by eexists); apply IH; lia.
Qed.

Lemma sealed_record_after_total file at_ : ∃ o, sealed_record_after file at_ = Ok o.
Proof.
  unfold sealed_record_after. destruct (decide (N.to_nat (at_ + 1) ≤ length file)%nat) as [Hle|Hgt].
  - apply sealed_from_total. lia.
  - replace (length file - N.to_nat (at_ + 1))%nat with 0%nat by lia. by eexists.
Qed.

Lemma scan_sound file :
  Forall is_byte file →
  match scan file with
  | Ok tail => ∃ rs rest, file = journal rs ++ rest ∧ Forall record_ok rs ∧ chain 0 rs ∧ tail = tail_after [] 0 0 rs
  | Err e => ∃ m, e = Corruption m
  end.
Proof.
  intros Hb. pose proof (scan_loop_sound (length file) file [] file 0 0 eq_refl Hb ltac:(lia)) as Hs.
  unfold scan. change (scan_loop (length file) file 0 (mkTail 0 0 0)) with
    (scan_loop (length file) file (N.of_nat (length (@nil Z))) (tail_after [] 0 0 [])).
  destruct (scan_loop _ _ _ _) as [[tail stop]|e]; [|done]. rewrite result_bind_ok.
  destruct Hs as (rs & rest & Hf & Hok & Hch & -> & _).
  destruct stop as [[at_ reason]|]; [|by exists rs, rest].
  destruct (sealed_record_after_total file at_) as [o ->]. rewrite result_bind_ok.
  destruct o; [by eexists|by exists rs, rest].
Qed.

(** On a file that starts with the records [rs], the scan is the one of what follows them. *)
Lemma scan_after rs post :
  Forall is_byte (journal rs ++ post) → Forall record_ok rs → chain 0 rs →
  scan (journal rs ++ post) =
  (found ← scan_loop (length (journal rs ++ post)) (journal rs ++ post) (N.of_nat (length (journal rs)))
             (tail_after [] 0 0 rs);
   match found with
   | (tail, Some (at_, reason)) =>
       sealed ← sealed_record_after (journal rs ++ post) at_;
       match sealed with Some sealed => Err (interior at_ reason sealed) | None => Ok tail end
   | (tail, None) => Ok tail
   end).
Proof.
  intros Hb Hok Hch. unfold scan.
  pose proof (scan_loop_walks (journal rs ++ post) [] rs post 0 0 eq_refl Hb Hok Hch) as Hw.
  change (N.of_nat (length [])) with 0%N in Hw. change (tail_after [] 0 0 []) with (mkTail 0 0 0) in Hw.
  by rewrite Hw.
Qed.
