(* ===== verification/WalState.v ===== *)
(** * The state of an open journal

    [holds w rs]: the journal [w] holds the records [rs].  Every operation keeps that with the
    records it says it adds, and a crash takes none of the durable ones away. *)

From S2P Require Import Prelude Errors Bytes Crc Page Wal WalFacts.

#[local] Open Scope Z_scope.
#[local] Opaque to_le_bytes from_le_bytes encode_record.

Notation journal rs := (rs ≫= encode_record).

Record holds (w : Wal) (rs : list WalRecord) : Prop := {
  h_content : ∃ junk, content (file w) = journal rs ++ junk ∧ Forall is_byte junk;
  h_end : end_ w = N.of_nat (length (journal rs));
  h_ok : Forall record_ok rs;
  h_chain : chain 0 rs;
  h_last : last_lsn w = N.of_nat (length rs);
  h_records : records w = N.of_nat (length rs);
  h_u64 : (last_lsn w ≤ u64_max)%N;
  h_durable : (durable_lsn w ≤ last_lsn w)%N;
  h_safe : stuck (file w) = false →
    (N.of_nat (length (journal (take (N.to_nat (durable_lsn w)) rs))) ≤ safe (file w))%N;
  h_safe_len : (safe (file w) ≤ file_len (file w))%N;
}.

Lemma journal_app rs qs : journal (rs ++ qs) = journal rs ++ journal qs.
Proof. apply bind_app. Qed.

Lemma journal_take_le n rs : (length (journal (take n rs)) ≤ length (journal rs))%nat.
Proof. rewrite <- (take_drop n rs) at 2. rewrite journal_app, length_app. lia. Qed.

Lemma journal_bytes rs : Forall record_ok rs → Forall is_byte (journal rs).
Proof.
  induction 1 as [|r rs Hr _ IH]; [constructor|]. rewrite bind_cons. apply Forall_app.
  split; [by apply encode_record_bytes|done].
Qed.

Lemma chain_last rs : Forall record_ok rs → chain 0 rs → (N.of_nat (length rs) ≤ u64_max)%N.
Proof.
  intros Hok Hch. destruct (decide (rs = [])) as [->|Hne]; [simpl; unfold u64_max; lia|].
  destruct (exists_last Hne) as (qs & r & ->).
  apply chain_app in Hch as (_ & Hl & _ & _). apply Forall_app in Hok as [_ Hr].
  inversion_clear Hr as [|? ? Hr' _]. destruct Hr' as (Hlsn & _). rewrite length_app. simpl. lia.
Qed.

(** ** Opening *)

Lemma scan_sound_after rs post :
  Forall is_byte post → Forall record_ok rs → chain 0 rs →
  match scan (journal rs ++ post) with
  | Ok tail => ∃ more rest, post = journal more ++ rest ∧ Forall record_ok (rs ++ more) ∧ chain 0 (rs ++ more) ∧
      tail = tail_after [] 0 0 (rs ++ more)
  | Err e => ∃ m, e = Corruption m
  end.
Proof.
  intros Hp Hok Hch.
  assert (Hb : Forall is_byte (journal rs ++ post)) by (apply Forall_app; split; [by apply journal_bytes|done]).
  rewrite scan_after by done.
  assert (Hfuel : (length post ≤ length (journal rs ++ post))%nat) by (rewrite length_app; lia).
  pose proof (scan_loop_sound _ _ (journal rs) post (N.of_nat (length rs)) (N.of_nat (length rs))
    eq_refl Hb Hfuel) as Hs.
  replace (tail_after (journal rs) _ _ []) with (tail_after [] 0 0 rs) in Hs.
  2: { unfold tail_after. change (journal []) with (@nil Z). rewrite app_nil_r. cbn [app length].
       by rewrite !N.add_0_l, !N.add_0_r. }
  destruct (scan_loop _ _ _ _) as [[tail stop]|e]; [|done]. rewrite result_bind_ok.
  destruct Hs as (more & rest & -> & Hok' & Hch' & -> & _).
  assert (Hgoal : ∃ more0 rest0, journal more ++ rest = journal more0 ++ rest0 ∧
    Forall record_ok (rs ++ more0) ∧ chain 0 (rs ++ more0) ∧
    tail_after (journal rs) (N.of_nat (length rs)) (N.of_nat (length rs)) more = tail_after [] 0 0 (rs ++ more0)).
  { exists more, rest. split_and!; [done|by apply Forall_app|by apply chain_app|].
    unfold tail_after. rewrite journal_app. cbn [app]. rewrite !length_app. f_equal; lia. }
  destruct stop as [[at_ reason]|]; [|done].
  destruct (sealed_record_after_total (journal rs ++ journal more ++ rest) at_) as [o ->]. rewrite result_bind_ok.
  destruct o; [by eexists|done].
Qed.

Lemma open_tail p o f w f' rs rest :
  content f = journal rs ++ rest → scan (content f) = Ok (tail_after [] 0 0 rs) →
  Forall record_ok rs → chain 0 rs → (safe f ≤ file_len f)%N → open p o f = (Ok w, f') →
  holds w rs ∧ content (file w) = journal rs ∧ file w = f' ∧ durable_lsn w = last_lsn w.
Proof.
  intros Hf Hscan Hok Hch Hsafe. unfold open. rewrite Hscan. destruct o as [|m]; [|done]. cbn [sync_all].
  set (f1 := if (t_end (tail_after [] 0 0 rs) <? file_len f)%N then _ else f).
  assert (Hf1 : content f1 = journal rs ∧ (safe f1 ≤ N.of_nat (length (journal rs)))%N).
  { unfold f1, tail_after, file_len in *. cbn [t_end app]. rewrite Hf, length_app in *.
    destruct (N.ltb_spec (N.of_nat (length (journal rs))) (N.of_nat (length (journal rs) + length rest))).
    - unfold set_len. cbn [content safe]. rewrite Hf, Nat2N.id, take_app_length. split; [done|lia].
    - rewrite Hf. destruct rest; [|simpl in *; lia]. rewrite app_nil_r. split; [done|simpl in *; lia]. }
  clearbody f1. destruct Hf1 as [Hc Hs1]. intros [= <- <-].
  split_and!; [|done..].
  split; cbn [file content end_ last_lsn durable_lsn records stuck safe tail_after t_end t_last_lsn t_records];
    rewrite ?N.add_0_l; try done.
  - exists []. rewrite Hc, app_nil_r. by split.
  - by apply chain_last.
  - intros ->. unfold file_len. rewrite Hc, Nat2N.id. by rewrite take_ge by lia.
  - unfold file_len. cbn [content]. rewrite Hc. by destruct (stuck f1).
Qed.

(** A file that starts with the records [rs] is opened with these and those that follow, or
    refused as corrupt, or not synced. *)
Lemma open_holds p o f rs post :
  content f = journal rs ++ post → Forall is_byte post → Forall record_ok rs → chain 0 rs →
  (safe f ≤ file_len f)%N →
  match open p o f with
  | (Ok w, f') => ∃ more rest, post = journal more ++ rest ∧ holds w (rs ++ more) ∧
      content (file w) = journal (rs ++ more) ∧ file w = f' ∧ durable_lsn w = last_lsn w
  | (Err e, f') => (∃ m, e = Corruption m ∧ f' = f) ∨ ∃ m, o = SyncFailed m ∧ e = Io m
  end.
Proof.
  intros Hf Hb Hok0 Hch0 Hsafe. pose proof (scan_sound_after rs post Hb Hok0 Hch0) as Hs.
  rewrite <- Hf in Hs. destruct (scan (content f)) as [tail|e] eqn:Hscan.
  - destruct Hs as (more & rest & -> & Hok & Hch & ->). rewrite app_assoc, <- journal_app in Hf.
    destruct (open p o f) as [[w|e] f'] eqn:Ho.
    + exists more, rest. split; [done|]. by eapply open_tail.
    + unfold open in Ho. rewrite Hscan in Ho. destruct o as [|m]; cbn [sync_all] in Ho; simplify_eq. eauto.
  - unfold open. rewrite Hscan. destruct Hs as [m ->]. eauto.
Qed.

(** ** Appending *)

(** The record [append] writes. *)
Definition appended (w : Wal) (kind : WalRecordKind.t) (txn : TxnId) (payload : list Z) : WalRecord :=
  mkWalRecord kind (last_lsn w + 1) (last_lsn w) txn payload.

Lemma overwrite_end pre bytes junk :
  overwrite (N.of_nat (length pre)) bytes (pre ++ junk) = pre ++ bytes ++ drop (length bytes) junk.
Proof.
  unfold overwrite. rewrite Nat2N.id, take_app_length. f_equal. f_equal.
  by rewrite <- drop_drop, drop_app_length.
Qed.

(** What [write_all] does to the file of a journal, complete or not. *)
Lemma write_end_holds w rs bytes :
  holds w rs → Forall is_byte bytes →
  holds (with_file (mkFile (overwrite (end_ w) bytes (content (file w))) (N.min (safe (file w)) (end_ w))
                      (stuck (file w))) w) rs.
Proof.
  intros [(junk & Hc & Hj) Hend Hok Hch Hl Hr Hu Hd Hs Hsl] Hb.
  split; cbn [with_file file content end_ last_lsn durable_lsn records stuck safe]; try done.
  - exists (bytes ++ drop (length bytes) junk). rewrite Hend, Hc, overwrite_end. split; [done|].
    apply Forall_app. split; [done|by apply Forall_drop].
  - intros Hst. specialize (Hs Hst). pose proof (journal_take_le (N.to_nat (durable_lsn w)) rs). lia.
  - unfold file_len. cbn [content]. rewrite Hend, Hc, overwrite_end, !length_app. lia.
Qed.

Lemma append_record_holds w rs kind txn payload :
  holds w rs → (txn ≤ u64_max)%N → Forall is_byte payload →
  (N.of_nat (length payload) ≤ MAX_PAYLOAD_LEN)%N → (last_lsn w < u64_max)%N →
  let r := appended w kind txn payload in
  holds (mkWal (path w)
    (mkFile (overwrite (end_ w) (encode_record r) (content (file w))) (N.min (safe (file w)) (end_ w)) (stuck (file w)))
    (end_ w + N.of_nat (length (encode_record r))) (last_lsn w + 1) (durable_lsn w) (records w + 1)) (rs ++ [r]).
Proof.
  intros Hw Ht Hp Hmax Hlast r.
  assert (Hr : record_ok r) by (split_and!; simpl; try done; lia).
  pose proof (write_end_holds w rs (encode_record r) Hw (encode_record_bytes r Hr)) as Hf.
  destruct Hw as [(junk & Hc & Hj) Hend Hok Hch Hl Hrec Hu Hd Hs Hsl].
  destruct Hf as [_ _ _ _ _ _ _ _ Hs' Hsl'].
  cbn [with_file file content end_ last_lsn durable_lsn records stuck safe] in *.
  split; cbn [file content end_ last_lsn durable_lsn records stuck safe]; rewrite ?journal_app, ?length_app.
  - exists (drop (length (encode_record r)) junk). rewrite Hend, Hc, overwrite_end. split; [|by apply Forall_drop].
    rewrite <- app_assoc. f_equal. f_equal. simpl. by rewrite app_nil_r.
  - rewrite Hend, Nat2N.inj_add. do 2 f_equal. simpl. by rewrite app_nil_r.
  - apply Forall_app. split; [done|by constructor].
  - apply chain_app. split; [done|]. simpl. rewrite <- Hl. done.
  - simpl. lia.
  - simpl. lia.
  - lia.
  - lia.
  - intros Hst. rewrite take_app_le by lia. by apply Hs'.
  - done.
Qed.

(** [append] adds the record it numbers, or leaves the journal with the records it had. *)
Lemma append_holds w rs kind txn payload o :
  holds w rs → (txn ≤ u64_max)%N → Forall is_byte payload →
  match append kind txn payload o w with
  | (Ok lsn, w') => holds w' (rs ++ [appended w kind txn payload]) ∧ lsn = (last_lsn w + 1)%N ∧
      last_lsn w' = lsn ∧ durable_lsn w' = durable_lsn w ∧ path w' = path w ∧
      stuck (file w') = stuck (file w)
  | (Err _, w') => holds w' rs ∧ durable_lsn w' = durable_lsn w ∧ last_lsn w' = last_lsn w ∧
      stuck (file w') = stuck (file w)
  end.
Proof.
  intros Hw Ht Hp. unfold append.
  destruct (N.ltb_spec MAX_PAYLOAD_LEN (N.of_nat (length payload))) as [|Hmax]; [done|].
  destruct (checked_succ u64_max (last_lsn w)) as [lsn|] eqn:Hn; [|done].
  apply checked_succ_Some in Hn as [-> Hlt].
  pose proof (append_record_holds w rs kind txn payload Hw Ht Hp Hmax Hlt) as Ha. cbv zeta in Ha.
  unfold appended in *. set (r := mkWalRecord _ _ _ _ _) in *.
  destruct o as [|n m]; cbn [write_all].
  - by split_and!.
  - split_and!; [|done..]. apply write_end_holds; [done|]. apply Forall_take.
    apply encode_record_bytes. unfold r. split_and!; simpl; try done; lia.
Qed.

(** ** Syncing *)

Lemma note_sync_holds w rs covered :
  holds w rs → (covered ≤ last_lsn w)%N →
  (stuck (file w) = false →
    (N.of_nat (length (journal (take (N.to_nat covered) rs))) ≤ safe (file w))%N) →
  holds (note_sync covered w) rs.
Proof.
  intros [Hc Hend Hok Hch Hl Hr Hu Hd Hs Hsl] Hle Hcov.
  split; cbn [note_sync file end_ last_lsn durable_lsn records]; try done; destruct (_ <? _)%N; auto.
Qed.

(** A sync of the file, whoever asks for it. *)
Lemma sync_holds w rs o :
  holds w rs → let f := (sync_all o (file w)).2 in
  holds (with_file f w) rs ∧
  (o = Synced → stuck f = false → safe f = file_len f).
Proof.
  intros [Hc Hend Hok Hch Hl Hr Hu Hd Hs Hsl] f. split.
  - split; cbn [with_file file end_ last_lsn durable_lsn records]; try done; unfold f; destruct o; cbn [sync_all snd]; try done.
    + intros Hst. cbn [stuck safe] in *. rewrite Hst. unfold file_len. destruct Hc as (junk & -> & _).
      rewrite length_app. pose proof (journal_take_le (N.to_nat (durable_lsn w)) rs). lia.
    + cbn [safe]. unfold file_len in *. cbn [content]. destruct (stuck (file w)); [done|lia].
  - unfold f. intros -> Hst. cbn [sync_all snd stuck safe] in *. rewrite Hst. done.
Qed.

Lemma flush_holds w rs o :
  holds w rs →
  match flush o w with
  | (Ok _, w') => holds w' rs ∧ durable_lsn w' = last_lsn w ∧ last_lsn w' = last_lsn w ∧
      stuck (file w') = stuck (file w)
  | (Err _, w') => holds w' rs ∧ durable_lsn w' = durable_lsn w ∧ last_lsn w' = last_lsn w ∧
      stuck (file w') = true
  end.
Proof.
  intros Hw. unfold flush. destruct (sync_holds w rs o Hw) as [Hf Hsafe].
  destruct o as [|m]; cbn [sync_all snd] in *; [|by split_and!].
  split; [|split_and!; cbn [note_sync with_file durable_lsn last_lsn]; try done].
  - apply note_sync_holds; [done|done|]. cbn [with_file last_lsn file stuck safe]. intros Hst. rewrite Hst.
    destruct Hf as [(junk & Hc & _) _ _ _ Hl _ _ _ _ _]. cbn [with_file file content last_lsn] in *.
    unfold file_len. rewrite Hc, length_app. pose proof (journal_take_le (N.to_nat (last_lsn w)) rs). lia.
  - destruct (N.ltb_spec (durable_lsn w) (last_lsn w)); [done|].
    apply N.le_antisymm; [apply Hw|done].
Qed.

Lemma encode_checkpoint_ok c :
  Forall is_byte (encode_checkpoint c) ∧ (N.of_nat (length (encode_checkpoint c)) ≤ MAX_PAYLOAD_LEN)%N.
Proof.
  unfold encode_checkpoint. split.
  - rewrite !Forall_app. split_and!; apply to_le_bytes_bound.
  - rewrite !length_app, !length_to_le_bytes, MAX_PAYLOAD_LEN_N. lia.
Qed.

(** The number a checkpoint predicts is the one it gets: the last branch of
    [append_checkpoint] is not taken. *)
Lemma append_checkpoint_holds w rs page row o :
  holds w rs →
  match append_checkpoint page row o w with
  | (Ok lsn, w') =>
      holds w' (rs ++ [appended w WalRecordKind.Checkpoint 0
                         (encode_checkpoint (mkCheckpointPayload lsn page row))]) ∧
      lsn = (last_lsn w + 1)%N ∧ last_lsn w' = lsn ∧ durable_lsn w' = durable_lsn w ∧
      stuck (file w') = stuck (file w)
  | (Err _, w') => holds w' rs ∧ durable_lsn w' = durable_lsn w ∧ last_lsn w' = last_lsn w ∧
      stuck (file w') = stuck (file w)
  end.
Proof.
  intros Hw. unfold append_checkpoint.
  set (c := mkCheckpointPayload (saturating_succ (last_lsn w)) page row).
  pose proof (append_holds w rs WalRecordKind.Checkpoint 0 (encode_checkpoint c) o Hw
    ltac:(unfold u64_max; lia) (proj1 (encode_checkpoint_ok c))) as Ha.
  destruct (append _ _ _ _ w) as [[lsn|e] w'] eqn:Happ; [|done].
  destruct Ha as (Ha & -> & Hl & Hd & _ & Hst).
  assert (Hlt : (last_lsn w < u64_max)%N) by (pose proof (h_u64 _ _ Ha); lia).
  assert (Hs : saturating_succ (last_lsn w) = (last_lsn w + 1)%N) by (by apply saturating_succ_lt).
  unfold c in *. rewrite Hs in *. rewrite N.eqb_refl. cbn [negb]. by split_and!.
Qed.

(** ** Iterating *)

Lemma collect_journal fuel file pre rs post :
  file = pre ++ journal rs ++ post → Forall record_ok rs → (length rs ≤ fuel)%nat →
  collect fuel file (mkWalIter (N.of_nat (length pre)) (N.of_nat (length (pre ++ journal rs))) false) = Ok rs.
Proof.
  revert pre fuel. induction rs as [|r rs IH]; intros pre fuel Hf Hok Hfuel.
  - unfold collect. change (journal []) with (@nil Z). rewrite app_nil_r.
    assert (Hn : next file (mkWalIter (N.of_nat (length pre)) (N.of_nat (length pre)) false) =
      (None, mkWalIter (N.of_nat (length pre)) (N.of_nat (length pre)) false)).
    { unfold next. cbn [i_stopped i_end i_offset orb]. by rewrite N.leb_refl. }
    destruct fuel; by rewrite Hn.
  - destruct fuel as [|fuel]; [simpl in Hfuel; lia|]. inversion_clear Hok as [|? ? Hr Hok'].
    rewrite bind_cons, <- app_assoc in Hf. rewrite bind_cons.
    pose proof (record_len_bounds r Hr) as Hlen.
    assert (Hn : next file (mkWalIter (N.of_nat (length pre)) (N.of_nat (length (pre ++ encode_record r ++ journal rs))) false)
      = (Some (Ok r), mkWalIter (N.of_nat (length (pre ++ encode_record r)))
           (N.of_nat (length ((pre ++ encode_record r) ++ journal rs))) false)).
    { unfold next. cbn [i_stopped i_end i_offset orb].
      rewrite (proj2 (N.leb_gt _ _)) by (rewrite !length_app; lia).
      rewrite Hf, frame_encode; [|done|done|rewrite !length_app; lia].
      rewrite <- app_assoc, (length_app pre (encode_record r)). by rewrite Nat2N.inj_add. }
    cbn [collect]. rewrite Hn, IH; [done| |done|simpl in Hfuel; lia]. by rewrite <- app_assoc.
Qed.

(** [records] reads back what the journal holds. *)
Lemma all_records_holds w rs : holds w rs → all_records w = Ok rs.
Proof.
  intros [(junk & Hc & _) Hend Hok _ _ _ _ _ _ _]. unfold all_records, iter. rewrite Hend.
  apply (collect_journal _ _ [] rs junk); [done|done|].
  rewrite Hc, length_app. pose proof (journal_length_le rs). lia.
Qed.

(** ** Crashes *)

(** An image of a crash starts with the durable records. *)
Lemma crash_keeps w rs img :
  holds w rs → stuck (file w) = false → crash_image (file w) img →
  ∃ post, img = journal (take (N.to_nat (durable_lsn w)) rs) ++ post ∧ Forall is_byte post.
Proof.
  intros Hw Hst [Himg Hb]. set (d := take (N.to_nat (durable_lsn w)) rs).
  pose proof (h_safe _ _ Hw Hst) as Hsafe. fold d in Hsafe.
  destruct (h_content _ _ Hw) as (junk & Hc & _).
  exists (drop (length (journal d)) img).
  assert (Ht : take (length (journal d)) img = journal d).
  { apply (f_equal (take (length (journal d)))) in Himg.
    rewrite !take_take, Nat.min_l in Himg by lia. rewrite Himg, Hc.
    rewrite <- (take_drop (N.to_nat (durable_lsn w)) rs). fold d. rewrite journal_app, <- app_assoc.
    by rewrite take_app_length. }
  split; [by rewrite <- Ht at 1; rewrite take_drop|by apply Forall_drop].
Qed.

Lemma chain_take n last rs : chain last rs → chain last (take n rs).
Proof. rewrite <- (take_drop n rs) at 1. by intros [? _]%chain_app. Qed.

(** After a crash the journal opens with the durable records first, or is reported corrupt, or
    the system does not sync it. *)
Lemma crash_recovers w rs img p o :
  holds w rs → stuck (file w) = false → crash_image (file w) img →
  match open p o (found img) with
  | (Ok w', _) => ∃ more, holds w' (take (N.to_nat (durable_lsn w)) rs ++ more)
  | (Err e, _) => (∃ m, e = Corruption m) ∨ ∃ m, o = SyncFailed m ∧ e = Io m
  end.
Proof.
  intros Hw Hst Himg. destruct (crash_keeps w rs img Hw Hst Himg) as (post & -> & Hb).
  pose proof (open_holds p o (found (journal (take (N.to_nat (durable_lsn w)) rs) ++ post))
    (take (N.to_nat (durable_lsn w)) rs) post eq_refl Hb (Forall_take _ _ _ (h_ok _ _ Hw))
    (chain_take _ _ _ (h_chain _ _ Hw)) (N.le_0_l _)) as Ho.
  destruct (open _ _ _) as [[w'|e] f']; [|naive_solver].
  destruct Ho as (more & rest & _ & Hh & _). by exists more.
Qed.

(** The bytes an unfinished append leaves do not frame a record. *)
Lemma frame_torn pre r n :
  record_ok r → (n < length (encode_record r))%nat →
  ∃ m, frame (pre ++ take n (encode_record r)) (N.of_nat (length pre)) (N.of_nat n) = Ok (Torn m).
Proof.
  intros Hr Hn. pose proof (record_len_bounds r Hr) as Hlen.
  assert (Ht : length (take n (encode_record r)) = n) by (rewrite length_take; lia).
  unfold frame, mbind, result_bind. destruct (N.ltb_spec (N.of_nat n) LENGTH_LEN) as [|Hge]; [by eexists|].
  unfold LENGTH_LEN in *. rewrite read_exact_ok by (rewrite length_app; lia).
  rewrite Nat2N.id, (slice_skip (length pre)), Nat.sub_diag by done.
  assert (Hs : slice 0 (N.to_nat 4) (take n (encode_record r)) = slice 0 4 (encode_record r)).
  { unfold slice. rewrite !drop_0, take_take. f_equal. lia. }
  rewrite Hs. destruct (encode_record_fields r Hr) as (-> & _).
  rewrite length_encode_record in *. unfold MIN_LENGTH, HEADER_LEN, CHECKSUM_LEN, MAX_RECORD_LEN in *.
  rewrite (proj2 (N.ltb_ge _ _)), (proj2 (N.ltb_ge 1048576 _)) by lia. cbn [orb].
  rewrite (proj2 (N.ltb_lt _ _)) by lia. by eexists.
Qed.

(** A tail that an unfinished append left is cut off, unless a record with an agreeing
    checksum stands inside it. *)
Lemma open_cuts_torn p rs r n :
  let img := journal rs ++ take n (encode_record r) in
  Forall record_ok rs → chain 0 rs → record_ok r → (n < length (encode_record r))%nat →
  sealed_record_after img (N.of_nat (length (journal rs))) = Ok None →
  ∃ w f, open p Synced (found img) = (Ok w, f) ∧ holds w rs ∧ content (file w) = journal rs ∧
    durable_lsn w = last_lsn w.
Proof.
  intros img Hok Hch Hr Hn Hsealed.
  assert (Hb : Forall is_byte img).
  { apply Forall_app. split; [by apply journal_bytes|]. by apply Forall_take, encode_record_bytes. }
  assert (Hscan : scan img = Ok (tail_after [] 0 0 rs)).
  { unfold img. rewrite scan_after by done. fold img.
    assert (Hti : length (take n (encode_record r)) = n) by (rewrite length_take; lia).
    destruct (decide (n = 0)%nat) as [->|Hne].
    - assert (Hi : img = journal rs) by (unfold img; by rewrite take_0, app_nil_r). rewrite Hi.
      destruct (length (journal rs)) eqn:Hl; cbn [scan_loop]; rewrite ?Hl, N.ltb_irrefl; done.
    - destruct (length img) as [|fuel] eqn:Hl; [unfold img in Hl; rewrite length_app in Hl; lia|].
      cbn [scan_loop]. rewrite (proj2 (N.ltb_lt _ _)) by (unfold img; rewrite length_app; lia).
      replace (N.of_nat (length img) - N.of_nat (length (journal rs)))%N with (N.of_nat n)
        by (unfold img; rewrite length_app; lia).
      destruct (frame_torn (journal rs) r n Hr Hn) as [m Hfr]. fold img in Hfr.
      rewrite Hfr, !result_bind_ok. rewrite Hsealed, result_bind_ok. done. }
  destruct (open p Synced (found img)) as [[w|e] f] eqn:Ho.
  - exists w, f. split; [done|].
    destruct (open_tail p Synced (found img) w f rs (take n (encode_record r)) eq_refl Hscan Hok Hch (N.le_0_l _) Ho)
      as (? & ? & ? & ?). done.
  - unfold open in Ho. cbn [found content] in Ho. rewrite Hscan in Ho. done.
Qed.
