(* ===== verification/GroupCommit.v ===== *)
(** * Group commit

    [WalHandle] of [vauban-storage/src/disk/wal.rs]: threads that append records under the lock
    of the journal and wait for them to be durable.  A call of [wait_durable] is the turns of
    its thread between which it holds no lock ([Phase]); [step] is any interleaving of the
    turns of the calls with the other operations of the handle.  A panic while a lock is held
    is not modelled, so no lock is poisoned. *)

From S2P Require Import Prelude Errors Bytes Page Wal WalFacts WalState.

(** [GroupState] and the journal, which the locks protect, with the calls under way. *)
Inductive Phase :=
  | Entering (lsn : Lsn) (** called, before the lock of the group *)
  | Waiting (lsn : Lsn) (notified : bool) (** in the condition variable *)
  | Leading (lsn : Lsn) (** [syncing] set, before the journal is read *)
  | Syncing (lsn first target : Lsn) (** before [sync_all] *)
  | Synced_ (lsn first target : Lsn) (** after it, before the journal is told *)
  | Ending (lsn : Lsn) (outcome : option (Lsn * Lsn)) (** before the lock of the group again *)
  | Notifying (lsn : Lsn) (answer : result InternalError ()) (** before [notify_all] *)
  | Done (lsn : Lsn) (answer : result InternalError ()).

Record Handle := mkHandle {
  wal : Wal;
  syncing : bool;
  failed : list (Lsn * Lsn);
  calls : gmap N Phase;
}.

Definition WalHandle_open (path : string) (o : SyncOutcome) (f : File) : result InternalError Handle * File :=
  match open path o f with
  | (Ok w, f) => (Ok (mkHandle w false [] ∅), f)
  | (Err e, f) => (Err e, f)
  end.

(** [GroupState::failed_on]. *)
Definition failed_on (lsn : Lsn) (h : Handle) : bool :=
  existsb (λ '(first, last), (first <=? lsn)%N && (lsn <=? last)%N) (failed h).

Definition failed_sync (lsn : Lsn) : InternalError :=
  Io [Lit "the sync of the journal that was to make record "; Num lsn; Lit " durable failed"].

Definition put (t : N) (p : Phase) (h : Handle) : Handle :=
  mkHandle (wal h) (syncing h) (failed h) (<[t := p]> (calls h)).
Definition with_wal (w : Wal) (h : Handle) : Handle :=
  mkHandle w (syncing h) (failed h) (calls h).

(** One turn of the loop of [wait_durable], under the lock of the group. *)
Definition check (t : N) (lsn : Lsn) (h : Handle) : Handle :=
  if failed_on lsn h then put t (Done lsn (Err (failed_sync lsn))) h
  else if (lsn <=? durable_lsn (wal h))%N then put t (Done lsn (Ok ())) h
  else if negb (syncing h) then put t (Leading lsn) (mkHandle (wal h) true (failed h) (calls h))
  else put t (Waiting lsn false) h.

(** The turns of [sync_appended]: the journal is read under its lock, the file is synced
    without it, the journal is told under it. *)
Definition read_target (t : N) (lsn : Lsn) (h : Handle) : Handle :=
  put t (Syncing lsn (saturating_succ (durable_lsn (wal h))) (last_lsn (wal h))) h.

Definition sync_file (t : N) (lsn first target : Lsn) (o : SyncOutcome) (h : Handle) : Handle :=
  match sync_all o (file (wal h)) with
  | (Ok _, f) => put t (Synced_ lsn first target) (with_wal (with_file f (wal h)) h)
  | (Err _, f) => put t (Ending lsn (Some (first, target))) (with_wal (with_file f (wal h)) h)
  end.

Definition note (t : N) (lsn target : Lsn) (h : Handle) : Handle :=
  put t (Ending lsn None) (with_wal (note_sync target (wal h)) h).

(** The end of [wait_durable]: the group is told, then its waiters. *)
Definition finish (t : N) (lsn : Lsn) (outcome : option (Lsn * Lsn)) (h : Handle) : Handle :=
  let answer := match outcome with None => Ok () | Some _ => Err (failed_sync lsn) end in
  put t (Notifying lsn answer)
    (mkHandle (wal h) false (failed h ++ option_list outcome) (calls h)).

Definition wake (p : Phase) : Phase :=
  match p with Waiting lsn _ => Waiting lsn true | p => p end.

Definition notify (t : N) (lsn : Lsn) (answer : result InternalError ()) (h : Handle) : Handle :=
  put t (Done lsn answer) (mkHandle (wal h) (syncing h) (failed h) (wake <$> calls h)).

(** The operations of the handle that run under the lock of the journal. *)
Inductive JournalOp :=
  | OAppend (kind : WalRecordKind.t) (txn : TxnId) (payload : list Z) (o : WriteOutcome)
  | OAppendDurable (kind : WalRecordKind.t) (txn : TxnId) (payload : list Z) (o : WriteOutcome) (s : SyncOutcome)
  | OCheckpoint (next_page_id : PageId) (next_row_id : N) (o : WriteOutcome) (s : SyncOutcome)
  | OFlush (s : SyncOutcome).

(** The arguments are of the types of the source. *)
Definition op_typed (op : JournalOp) : Prop :=
  match op with
  | OAppend _ txn payload _ | OAppendDurable _ txn payload _ _ => (txn ≤ u64_max)%N ∧ Forall is_byte payload
  | _ => True
  end.

Definition run_journal (op : JournalOp) (w : Wal) : Wal :=
  match op with
  | OAppend kind txn payload o => (append kind txn payload o w).2
  | OAppendDurable kind txn payload o s => (append_durable kind txn payload o s w).2
  | OCheckpoint page row o s => (append_checkpoint_durable page row o s w).2
  | OFlush s => (flush s w).2
  end.

(** One turn of one thread.  A waiter may leave the condition variable at any moment. *)
Inductive step : Handle → Handle → Prop :=
  | step_journal op h : op_typed op → step h (with_wal (run_journal op (wal h)) h)
  | step_call t lsn h :
      calls h !! t = None → (lsn ≤ last_lsn (wal h))%N → step h (put t (Entering lsn) h)
  | step_check t lsn h : calls h !! t = Some (Entering lsn) → step h (check t lsn h)
  | step_wake t lsn b h : calls h !! t = Some (Waiting lsn b) → step h (check t lsn h)
  | step_read t lsn h : calls h !! t = Some (Leading lsn) → step h (read_target t lsn h)
  | step_sync t lsn first target o h :
      calls h !! t = Some (Syncing lsn first target) → step h (sync_file t lsn first target o h)
  | step_note t lsn first target h :
      calls h !! t = Some (Synced_ lsn first target) → step h (note t lsn target h)
  | step_finish t lsn outcome h :
      calls h !! t = Some (Ending lsn outcome) → step h (finish t lsn outcome h)
  | step_notify t lsn answer h :
      calls h !! t = Some (Notifying lsn answer) → step h (notify t lsn answer h)
  | step_return t lsn answer h :
      calls h !! t = Some (Done lsn answer) →
      step h (mkHandle (wal h) (syncing h) (failed h) (delete t (calls h))).

Inductive reachable : Handle → Prop :=
  | reachable_open path f h f' :
      Forall is_byte (content f) → (safe f ≤ file_len f)%N →
      WalHandle_open path Synced f = (Ok h, f') → reachable h
  | reachable_step h h' : reachable h → step h h' → reachable h'.

(** * Group commit makes durable what it says

    The invariant of a shared journal over every interleaving: one leader at a time, no waiter
    forgotten, and an answer [Ok] only for a record that is durable. *)

#[local] Opaque encode_record.

Lemma holds_unique w rs rs' : holds w rs → holds w rs' → rs = rs'.
Proof. intros H1%all_records_holds H2%all_records_holds. congruence. Qed.

(** ** How a journal evolves *)

(** The records up to the number [n] are on the disk. *)
Definition covered (n : N) (w : Wal) : Prop :=
  stuck (file w) = false → ∃ rs, holds w rs ∧
    (N.of_nat (length (journal (take (N.to_nat n) rs))) ≤ safe (file w))%N.

Record grows (w w' : Wal) : Prop := {
  gr_holds : ∀ rs, holds w rs → ∃ more, holds w' (rs ++ more);
  gr_last : (last_lsn w ≤ last_lsn w')%N;
  gr_durable : (durable_lsn w ≤ durable_lsn w')%N;
  gr_covered : ∀ n, (n ≤ last_lsn w)%N → covered n w → covered n w';
}.

#[export] Instance grows_preorder : PreOrder grows.
Proof.
  split.
  - intros w. split; [|done|done|done]. intros rs Hrs. exists []. by rewrite app_nil_r.
  - intros w1 w2 w3 [Ha Hb Hc Hd] [Ha' Hb' Hc' Hd']. split; [|lia|lia|].
    + intros rs (m1 & H1)%Ha. apply Ha' in H1 as (m2 & H2). exists (m1 ++ m2). by rewrite app_assoc.
    + intros n Hn Hcov. apply Hd'; [lia|]. by apply Hd.
Qed.

Lemma covered_take w w' n rs more :
  holds w rs → holds w' (rs ++ more) → (n ≤ last_lsn w)%N →
  (stuck (file w') = false → stuck (file w) = false) →
  ((N.of_nat (length (journal (take (N.to_nat n) rs))) ≤ safe (file w))%N →
   stuck (file w') = false →
   (N.of_nat (length (journal (take (N.to_nat n) rs))) ≤ safe (file w'))%N) →
  covered n w → covered n w'.
Proof.
  intros Hw Hw' Hn Hst Hs Hcov Hst'. destruct (Hcov (Hst Hst')) as (rs' & Hrs' & Hle).
  assert (rs' = rs) as -> by (by eapply holds_unique). exists (rs ++ more). split; [done|].
  rewrite take_app_le by (rewrite (h_last _ _ Hw) in Hn; lia). by apply Hs.
Qed.

(** The write of an append or of a part of it stays behind the records. *)
Lemma append_grows kind txn payload o w rs :
  holds w rs → (txn ≤ u64_max)%N → Forall is_byte payload → grows w (append kind txn payload o w).2.
Proof.
  intros Hw Ht Hp. pose proof (append_holds w rs kind txn payload o Hw Ht Hp) as Ha.
  assert (Hsafe : ∀ n, (n ≤ last_lsn w)%N →
    (N.of_nat (length (journal (take (N.to_nat n) rs))) ≤ safe (file w))%N →
    (N.of_nat (length (journal (take (N.to_nat n) rs))) ≤ safe (file (append kind txn payload o w).2))%N).
  { intros n Hn Hle. assert (Hmin : (N.of_nat (length (journal (take (N.to_nat n) rs))) ≤ N.min (safe (file w)) (end_ w))%N).
    { rewrite (h_end _ _ Hw). pose proof (journal_take_le (N.to_nat n) rs). lia. }
    unfold append. destruct (_ <? _)%N; [done|]. destruct (checked_succ _ _); [|done]. by destruct o. }
  destruct (append kind txn payload o w) as [[lsn|e] w'].
  - destruct Ha as (Hw' & -> & Hl & Hd & _ & Hst). cbn [snd] in *. split; [|lia|lia|].
    + intros rs' Hrs'. assert (rs' = rs) as -> by (by eapply holds_unique). eauto.
    + intros n Hn. eapply covered_take; [done|done|done|congruence|eauto].
  - destruct Ha as (Hw' & Hd & Hl & Hst). cbn [snd] in *. split; [|lia|lia|].
    + intros rs' Hrs'. assert (rs' = rs) as -> by (by eapply holds_unique). exists []. by rewrite app_nil_r.
    + intros n Hn. eapply (covered_take _ _ _ rs []); [done|by rewrite app_nil_r|done|congruence|eauto].
Qed.

Lemma sync_grows w rs o : holds w rs → grows w (with_file (sync_all o (file w)).2 w).
Proof.
  intros Hw. destruct (sync_holds w rs o Hw) as [Hw' _].
  assert (Hst : stuck (sync_all o (file w)).2 = false → stuck (file w) = false) by (by destruct o).
  assert (Hs : (safe (file w) ≤ safe (sync_all o (file w)).2)%N).
  { destruct o; cbn [sync_all snd safe]; [|done]. destruct (stuck (file w)); [done|]. apply (h_safe_len _ _ Hw). }
  split; [|done|done|].
  - intros rs' Hrs'. assert (rs' = rs) as -> by (by eapply holds_unique). exists []. by rewrite app_nil_r.
  - intros n Hn. eapply (covered_take _ _ _ rs []); [done|by rewrite app_nil_r|done|done|].
    intros Hle _. cbn [with_file file]. lia.
Qed.

Lemma note_grows w rs target :
  holds w rs → (target ≤ last_lsn w)%N → covered target w → grows w (note_sync target w).
Proof.
  intros Hw Hle Hcov.
  assert (Hw' : holds (note_sync target w) rs).
  { apply note_sync_holds; [done|done|]. intros Hst. destruct (Hcov Hst) as (rs' & Hrs' & Hs).
    assert (rs' = rs) as -> by (by eapply holds_unique). done. }
  split; [|done| |].
  - intros rs' Hrs'. assert (rs' = rs) as -> by (by eapply holds_unique). exists []. by rewrite app_nil_r.
  - cbn [note_sync durable_lsn]. destruct (N.ltb_spec (durable_lsn w) target); lia.
  - intros n Hn. eapply (covered_take _ _ _ rs []); [done|by rewrite app_nil_r|done|done|done].
Qed.

Lemma flush_grows w rs o : holds w rs → grows w (flush o w).2.
Proof.
  intros Hw. pose proof (sync_grows w rs o Hw) as Hs. destruct (sync_holds w rs o Hw) as [Hw' Hsafe].
  unfold flush. destruct o as [|m]; cbn [sync_all snd] in *; [|done].
  etrans; [exact Hs|]. eapply note_grows; [done|done|].
  intros Hst. exists rs. split; [done|]. cbn [with_file file stuck safe last_lsn] in *. rewrite Hst.
  destruct (h_content _ _ Hw) as (junk & Hc & _). unfold file_len. rewrite Hc, length_app.
  pose proof (journal_take_le (N.to_nat (last_lsn w)) rs). lia.
Qed.

Lemma checkpoint_grows w rs page row o : holds w rs → grows w (append_checkpoint page row o w).2.
Proof.
  intros Hw. pose proof (append_grows WalRecordKind.Checkpoint 0
    (encode_checkpoint (mkCheckpointPayload (saturating_succ (last_lsn w)) page row)) o w rs Hw
    ltac:(unfold u64_max; lia) (proj1 (encode_checkpoint_ok _))) as Hg.
  unfold append_checkpoint. destruct (append _ _ _ _ w) as [[lsn|e] w']; [|done]. by destruct (negb _).
Qed.

Lemma run_journal_grows op w rs : op_typed op → holds w rs → grows w (run_journal op w).
Proof.
  intros Ht Hw. destruct op as [kind txn payload o|kind txn payload o s|page row o s|s]; cbn [run_journal].
  - destruct Ht as [Ht Hp]. by eapply append_grows.
  - destruct Ht as [Ht Hp]. unfold append_durable, mbind, stateful_bind.
    pose proof (append_grows kind txn payload o w rs Hw Ht Hp) as Hg.
    destruct (append kind txn payload o w) as [[lsn|e] w1]; [|done]. cbn [snd] in Hg.
    destruct (gr_holds _ _ Hg rs Hw) as (more & Hw1). pose proof (flush_grows w1 _ s Hw1) as Hf.
    destruct (flush s w1) as [[|e] w2]; cbn [snd mret stateful_ret] in *; by etrans.
  - unfold append_checkpoint_durable, mbind, stateful_bind.
    pose proof (checkpoint_grows w rs page row o Hw) as Hg.
    destruct (append_checkpoint page row o w) as [[lsn|e] w1]; [|done]. cbn [snd] in Hg.
    destruct (gr_holds _ _ Hg rs Hw) as (more & Hw1). pose proof (flush_grows w1 _ s Hw1) as Hf.
    destruct (flush s w1) as [[|e] w2]; cbn [snd mret stateful_ret] in *; by etrans.
  - by eapply flush_grows.
Qed.

(** ** The invariant *)

Definition leads (p : Phase) : bool :=
  match p with Leading _ | Syncing _ _ _ | Synced_ _ _ _ | Ending _ _ => true | _ => false end.

(** What a call has established when it stands at a phase. *)
Definition phase_ok (w : Wal) (p : Phase) : Prop :=
  match p with
  | Entering lsn | Waiting lsn _ | Leading lsn => (lsn ≤ last_lsn w)%N
  | Syncing lsn _ target => (lsn ≤ target)%N ∧ (target ≤ last_lsn w)%N
  | Synced_ lsn _ target => (lsn ≤ target)%N ∧ (target ≤ last_lsn w)%N ∧ covered target w
  | Ending lsn None | Notifying lsn (Ok _) | Done lsn (Ok _) => (lsn ≤ durable_lsn w)%N
  | Ending _ (Some _) | Notifying _ (Err _) | Done _ (Err _) => True
  end.

Record group_ok (h : Handle) : Prop := {
  g_wal : ∃ rs, holds (wal h) rs;
  g_phase : ∀ t p, calls h !! t = Some p → phase_ok (wal h) p;
  g_single : ∀ t t' p p', calls h !! t = Some p → calls h !! t' = Some p' →
    leads p = true → leads p' = true → t = t';
  g_syncing : syncing h = true ↔ ∃ t p, calls h !! t = Some p ∧ leads p = true;
  g_waiting : ∀ t lsn, calls h !! t = Some (Waiting lsn false) →
    syncing h = true ∨ ∃ t' l a, calls h !! t' = Some (Notifying l a);
}.

Lemma phase_ok_grows w w' p : grows w w' → phase_ok w p → phase_ok w' p.
Proof.
  intros [_ Hl Hd Hc]. destruct p as [?|?|?|? ? ?|? ? ?|? [[]|]|? []|? []]; simpl; try lia.
  intros (? & ? & ?). split_and!; [lia|lia|]. by apply Hc.
Qed.

Lemma put_calls t p h : calls (put t p h) = <[t := p]> (calls h).
Proof. done. Qed.

(** The journal moves on, the calls stand. *)
Lemma group_ok_wal h w : group_ok h → grows (wal h) w → group_ok (with_wal w h).
Proof.
  intros [[rs Hw] Hp Hs Hy Hwt] Hg. split; cbn [with_wal wal calls syncing]; [|intros|done..].
  - destruct (gr_holds _ _ Hg rs Hw) as (more & Hw'). eauto.
  - eapply phase_ok_grows; [done|eauto].
Qed.

(** A call goes from a phase to another: the leader is the same, or there was none. *)
Lemma group_ok_put h t p (b : bool) fs :
  group_ok h → phase_ok (wal h) p →
  (leads p = true → ∀ t' p', calls h !! t' = Some p' → leads p' = true → t' = t) →
  (b = true ↔ leads p = true ∨ ∃ t' p', t' ≠ t ∧ calls h !! t' = Some p' ∧ leads p' = true) →
  (∀ t' lsn, (t' = t ∧ p = Waiting lsn false) ∨ (t' ≠ t ∧ calls h !! t' = Some (Waiting lsn false)) →
    b = true ∨ (∃ l a, p = Notifying l a) ∨ ∃ t'' l a, t'' ≠ t ∧ calls h !! t'' = Some (Notifying l a)) →
  group_ok (put t p (mkHandle (wal h) b fs (calls h))).
Proof.
  intros [Hw Hp Hs Hy Hwt] Hpp Hlead Hb Hwait.
  split; cbn [put wal calls syncing failed]; [done| | | |].
  - intros t' p'. rewrite lookup_insert_Some. intros [[<- <-]|[? ?]]; eauto.
  - intros t1 t2 p1 p2. rewrite !lookup_insert_Some. naive_solver.
  - rewrite Hb. split.
    + intros [Hl|(t' & p' & Hne & Ht' & Hl)]; [exists t, p|exists t', p']; rewrite lookup_insert_Some; naive_solver.
    + intros (t' & p' & Ht' & Hl). apply lookup_insert_Some in Ht' as [[<- <-]|[Hne Ht']]; [by left|right; eauto 6].
  - intros t' lsn Ht'. apply lookup_insert_Some in Ht'.
    destruct (Hwait t' lsn) as [|[(l & a & ->)|(t'' & l & a & Hne & Ht'')]]; [naive_solver|by left| |]; right.
    + exists t, l, a. by rewrite lookup_insert_eq.
    + exists t'', l, a. by rewrite lookup_insert_ne.
Qed.

(** The same without a change of leader: the phases before and after both lead or both do not,
    and no waiter loses who will wake it. *)
Lemma group_ok_move h t p0 p :
  group_ok h → calls h !! t = Some p0 → phase_ok (wal h) p → leads p = leads p0 →
  (∀ lsn, p = Waiting lsn false → syncing h = true) → (∀ l a, p0 ≠ Notifying l a) →
  group_ok (put t p h).
Proof.
  intros Hg Ht Hp Hl Hw Hn. destruct h as [w b fs cs]. apply (group_ok_put (mkHandle w b fs cs)); try done.
  - intros Hl' t' p' Ht' Hlp'. rewrite Hl in Hl'. by eapply (g_single _ Hg).
  - pose proof (g_syncing _ Hg) as Hsy. cbn [syncing calls] in *. rewrite Hsy, Hl. split.
    + intros (t' & p' & Ht' & Hlp'). destruct (decide (t' = t)) as [->|Hne]; [left; congruence|right; eauto 6].
    + naive_solver.
  - intros t' lsn [[-> ->]|[Hne Ht']]; [left; by eapply Hw|].
    destruct (g_waiting _ Hg t' lsn Ht') as [|(t'' & l & a & Ht'')]; [by left|]. right. right.
    exists t'', l, a. split; [|done]. intros ->. cbn [calls] in *. rewrite Ht in Ht''. naive_solver.
Qed.

Lemma no_leader h t p : group_ok h → syncing h = false → calls h !! t = Some p → leads p = false.
Proof.
  intros Hg Hs Ht. destruct (leads p) eqn:Hl; [|done].
  assert (syncing h = true) by (apply (g_syncing _ Hg); eauto). congruence.
Qed.

Lemma check_ok h t lsn p0 :
  group_ok h → calls h !! t = Some p0 → (p0 = Entering lsn ∨ ∃ b, p0 = Waiting lsn b) →
  group_ok (check t lsn h).
Proof.
  intros Hg Ht Hp0.
  assert (Hlp0 : leads p0 = false) by (by destruct Hp0 as [->|[b ->]]).
  assert (Hn0 : ∀ l a, p0 ≠ Notifying l a) by (by destruct Hp0 as [->|[b ->]]).
  assert (Hle : (lsn ≤ last_lsn (wal h))%N).
  { pose proof (g_phase _ Hg t p0 Ht) as Hph. by destruct Hp0 as [->|[b ->]]. }
  unfold check. destruct (failed_on lsn h); [by eapply group_ok_move|].
  destruct (N.leb_spec lsn (durable_lsn (wal h))); [by eapply group_ok_move|].
  destruct (syncing h) eqn:Hs; cbn [negb]; [by eapply group_ok_move|].
  apply group_ok_put; [done|done| | |].
  - intros _ t' p' Ht' Hl. by rewrite (no_leader h t' p' Hg Hs Ht') in Hl.
  - naive_solver.
  - naive_solver.
Qed.

Lemma finish_ok h t lsn outcome :
  group_ok h → calls h !! t = Some (Ending lsn outcome) → group_ok (finish t lsn outcome h).
Proof.
  intros Hg Ht. unfold finish. apply group_ok_put; [done| |by intros [=]| |].
  - pose proof (g_phase _ Hg t _ Ht) as Hp. by destruct outcome.
  - split; [done|]. intros [[=]|(t' & p' & Hne & Ht' & Hl)]. destruct Hne. by eapply (g_single _ Hg).
  - intros t' lsn' _. right. left. eauto.
Qed.

Lemma notify_ok h t lsn answer :
  group_ok h → calls h !! t = Some (Notifying lsn answer) → group_ok (notify t lsn answer h).
Proof.
  intros Hg Ht. unfold notify.
  assert (Hlw : ∀ p, leads (wake p) = leads p) by (by intros []).
  assert (Hlk : ∀ t' p', (wake <$> calls h) !! t' = Some p' → ∃ p0, calls h !! t' = Some p0 ∧ p' = wake p0).
  { intros t' p'. rewrite lookup_fmap_Some. naive_solver. }
  split; cbn [put wal calls syncing failed].
  - apply (g_wal _ Hg).
  - intros t' p'. rewrite lookup_insert_Some. intros [[<- <-]|[Hne (p0 & Hp0 & ->)%Hlk]].
    + apply (g_phase _ Hg t _ Ht).
    + pose proof (g_phase _ Hg t' p0 Hp0) as Hp. by destruct p0.
  - intros t1 t2 p1 p2. rewrite !lookup_insert_Some.
    intros [[<- <-]|[Hne1 (q1 & Hq1 & ->)%Hlk]] [[<- <-]|[Hne2 (q2 & Hq2 & ->)%Hlk]]; rewrite ?Hlw; try done.
    intros. by eapply (g_single _ Hg).
  - rewrite (g_syncing _ Hg). split.
    + intros (t' & p' & Ht' & Hl). exists t', (wake p'). rewrite Hlw. split; [|done].
      rewrite lookup_insert_ne by (intros <-; rewrite Ht in Ht'; by simplify_eq). by rewrite lookup_fmap, Ht'.
    + intros (t' & p' & Ht' & Hl). apply lookup_insert_Some in Ht' as [[<- <-]|[Hne (p0 & Hp0 & ->)%Hlk]]; [done|].
      rewrite Hlw in Hl. eauto.
  - intros t' l Ht'. apply lookup_insert_Some in Ht' as [[_ [=]]|[_ (p0 & _ & Hw)%Hlk]]. by destruct p0.
Qed.

Lemma return_ok h t lsn answer :
  group_ok h → calls h !! t = Some (Done lsn answer) →
  group_ok (mkHandle (wal h) (syncing h) (failed h) (delete t (calls h))).
Proof.
  intros [Hw Hp Hs Hy Hwt] Ht. split; cbn [wal calls syncing failed]; [done| | | |].
  - intros t' p'. rewrite lookup_delete_Some. naive_solver.
  - intros t1 t2 p1 p2. rewrite !lookup_delete_Some. naive_solver.
  - rewrite Hy. split.
    + intros (t' & p' & Ht' & Hl). exists t', p'. rewrite lookup_delete_Some. split; [|done]. split; [|done].
      intros <-. rewrite Ht in Ht'. by simplify_eq.
    + intros (t' & p' & Ht' & Hl). apply lookup_delete_Some in Ht' as [_ Ht']. eauto.
  - intros t' l Ht'. apply lookup_delete_Some in Ht' as [_ Ht'].
    destruct (Hwt t' l Ht') as [|(t'' & l' & a & Ht'')]; [by left|right]. exists t'', l', a.
    rewrite lookup_delete_Some. split; [|done]. intros <-. congruence.
Qed.

Lemma sync_file_ok h t lsn first target o :
  group_ok h → calls h !! t = Some (Syncing lsn first target) → group_ok (sync_file t lsn first target o h).
Proof.
  intros Hg Ht. destruct (g_wal _ Hg) as [rs Hw]. destruct (g_phase _ Hg t _ Ht) as [H1 H2].
  pose proof (sync_grows (wal h) rs o Hw) as Hgr. destruct (sync_holds (wal h) rs o Hw) as [Hw' Hsafe].
  pose proof (group_ok_wal h _ Hg Hgr) as Hg'. unfold sync_file.
  destruct (sync_all o (file (wal h))) as [[[]|e] f] eqn:Hs; cbn [snd] in *.
  - eapply group_ok_move; [exact Hg'|done| |done|done|done]. cbn [phase_ok with_wal wal]. split_and!; [done|done|].
    intros Hst. exists rs. split; [done|]. cbn [with_file file] in *. rewrite Hsafe; [|by destruct o|done].
    destruct (h_content _ _ Hw') as (junk & Hc & _). cbn [with_file file] in Hc. unfold file_len.
    rewrite Hc, length_app. pose proof (journal_take_le (N.to_nat target) rs). lia.
  - by eapply group_ok_move; [exact Hg'|..].
Qed.

Lemma step_group_ok h h' : group_ok h → step h h' → group_ok h'.
Proof.
  intros Hg Hstep. destruct (g_wal _ Hg) as [rs Hw]. inversion Hstep as
    [op ? Hop|t lsn ? Hnone Hle|t lsn ? Ht|t lsn b ? Ht|t lsn ? Ht|t lsn first target o ? Ht
    |t lsn first target ? Ht|t lsn outcome ? Ht|t lsn answer ? Ht|t lsn answer ? Ht]; subst.
  - apply group_ok_wal; [done|]. by eapply run_journal_grows.
  - destruct h as [w b fs cs]. apply (group_ok_put (mkHandle w b fs cs)); [done|done|done| |].
    + pose proof (g_syncing _ Hg) as Hsy. cbn [syncing calls] in *. rewrite Hsy. split.
      * intros (t' & p' & Ht' & Hl). right. exists t', p'. split; [|done]. intros ->. congruence.
      * naive_solver.
    + intros t' l [[_ [=]]|[Hne Ht']]. destruct (g_waiting _ Hg t' l Ht') as [|(t'' & l' & a & Ht'')]; [by left|].
      right. right. exists t'', l', a. split; [|done]. intros ->. cbn [calls] in *. congruence.
  - eapply check_ok; eauto.
  - eapply check_ok; eauto.
  - eapply group_ok_move; [done|done| |done|done|done]. pose proof (g_phase _ Hg t _ Ht) as Hp. simpl in *. lia.
  - by apply sync_file_ok.
  - destruct (g_phase _ Hg t _ Ht) as (H1 & H2 & H3).
    pose proof (note_grows (wal h) rs target Hw H2 H3) as Hgr. pose proof (group_ok_wal h _ Hg Hgr) as Hg'.
    eapply group_ok_move; [exact Hg'|done| |done|done|done].
    cbn [phase_ok with_wal wal note_sync durable_lsn]. destruct (N.ltb_spec (durable_lsn (wal h)) target); lia.
  - by apply finish_ok.
  - by apply notify_ok.
  - by eapply return_ok.
Qed.

Lemma reachable_group_ok h : reachable h → group_ok h.
Proof.
  induction 1 as [path f h f' Hb Hs Ho|h h' _ IH Hst]; [|by eapply step_group_ok].
  unfold WalHandle_open in Ho.
  pose proof (open_holds path Synced f [] (content f) eq_refl Hb (Forall_nil_2 _) I Hs) as Hop.
  destruct (open path Synced f) as [[w|e] f1]; [|done]. injection Ho as <- <-.
  destruct Hop as (more & rest & _ & Hw & _).
  split; cbn [wal calls syncing]; [eauto|intros ? ?; by rewrite lookup_empty..| |].
  - split; [done|]. intros (t & p & Ht & _). by rewrite lookup_empty in Ht.
  - intros t l Ht. by rewrite lookup_empty in Ht.
Qed.
