(* ===== verification/HeapPlace.v ===== *)
(** * Records in heap pages

    The placement of a record, its reading, the slot a record would take, the formatting of a
    page and the overflow pages, over the facts of [HeapPageFacts]. *)

From S2P Require Import Prelude Errors Bytes Crc Page HeapPage.

#[local] Open Scope Z_scope.

(** ** Growing the directory *)

Lemma zero_slots_spec l : ∀ p, page_ok p → (∀ i, i ∈ l → (i < 2048)%nat) →
  let q := foldl (λ p index, write_slot index 0 0 p) p l in
  page_ok q ∧
  (∀ j, (j < 2048)%nat → read_slot q j = if decide (j ∈ l) then mkSlot 0 0 else read_slot p j) ∧
  (∀ a k, (∀ i, i ∈ l → a + k ≤ slot_position i)%nat → slice a k q = slice a k p).
Proof.
  induction l as [|i l IH]; intros p Hp Hl; cbn [foldl].
  { done. }
  assert (Hi : (i < 2048)%nat) by (apply Hl; left).
  destruct (IH (write_slot i 0 0 p)) as (Hq & Hs & Hk); [by apply write_slot_ok|intros; apply Hl; by right|].
  split_and!; [done| |].
  - intros j Hj. rewrite Hs by done. case_decide as Hjl; [by rewrite decide_True by (by right)|].
    destruct (decide (j = i)) as [->|Hne].
    + rewrite decide_True by left. apply read_write_slot; done || lia.
    + rewrite decide_False by (intros [-> | ?]%elem_of_cons; done). by apply read_write_slot_other.
  - intros a k Ha. rewrite Hk by (intros; apply Ha; by right). apply slice_write_slot; try done. left. apply Ha. left.
Qed.

Definition grow_directory (added : Z) (slot count : nat) (p : Page) : Page :=
  foldl (λ p index, write_slot index 0 0 p)
    (set_slot_count (Z.of_nat slot + 1) (set_heap_upper (heap_upper p - SLOT_SIZE * added) p)) (seq count (slot + 1 - count)).

Section grow.
Context (p : Page) (Hok : heap_ok p) (slot : nat) (Hs : (slots p ≤ slot)%nat).
Let added := Z.of_nat slot - Z.of_nat (slots p) + 1.
Context (Hroom : lower p ≤ heap_upper p - 4 * added).
Let r := set_slot_count (Z.of_nat slot + 1) (set_heap_upper (heap_upper p - SLOT_SIZE * added) p).
Let q := grow_directory added slot (slots p) p.

#[local] Lemma grow_bounds : heap_upper p - 4 * added = 8192 - 4 * (Z.of_nat slot + 1) ∧ (slot < 2037)%nat ∧ 42 ≤ lower p.
Proof using Hok Hs Hroom.
  pose proof (ho_upper p Hok). pose proof (ho_room p Hok). pose proof (slots_Z p (ho_page p Hok)). unfold added in *. lia.
Qed.

#[local] Lemma grow_fields : page_ok r ∧ slot_count r = Z.of_nat slot + 1 ∧ heap_upper r = 8192 - 4 * (Z.of_nat slot + 1) ∧
  lower r = lower p ∧ (∀ a k, (34 ≤ a ∨ a + k ≤ 28)%nat → slice a k r = slice a k p).
Proof using Hok Hs Hroom.
  pose proof grow_bounds as (Hu & ? & ?). pose proof (ho_page p Hok) as Hp. pose proof PAGE_SIZE_Z. unfold r, set_slot_count, set_heap_upper.
  unfold SLOT_SIZE. rewrite Hu.
  set (p1 := write_u16 OFF_UPPER _ p). assert (Hp1 : page_ok p1) by (apply write_u16_ok; [done|page_arith]).
  split_and!.
  - apply write_u16_ok; [done|page_arith].
  - apply read_u16_write; [done|page_arith|lia].
  - unfold heap_upper, read_u16. rewrite slice_write_u16 by (assumption || page_arith). apply read_u16_write; [done|page_arith|lia].
  - unfold lower, read_u16. unfold p1. rewrite !slice_write_u16 by (assumption || page_arith). done.
  - intros a k Ha. unfold p1. rewrite !slice_write_u16 by (assumption || page_arith). done.
Qed.

#[local] Lemma grow_read : page_ok q ∧
  (∀ j, (j < 2037)%nat → read_slot q j = if decide (slots p ≤ j ≤ slot)%nat then mkSlot 0 0 else read_slot p j) ∧
  (∀ a k, Z.of_nat (a + k) ≤ 8192 - 4 * (Z.of_nat slot + 1) → slice a k q = slice a k r).
Proof using Hok Hs Hroom.
  pose proof grow_bounds as (Hu & Hsl & ?). pose proof grow_fields as (Hr & _ & _ & _ & Hk).
  destruct (zero_slots_spec (seq (slots p) (slot + 1 - slots p)) r Hr) as (Hq & Hread & Hbelow).
  { intros i. rewrite elem_of_seq. lia. }
  split_and!; [done| |].
  - intros j Hj. unfold q, grow_directory. fold r. rewrite Hread by lia. pose proof (slot_position_Z j ltac:(lia)).
    destruct (decide (slots p ≤ j ≤ slot)%nat).
    + by rewrite decide_True by (apply elem_of_seq; lia).
    + rewrite decide_False by (rewrite elem_of_seq; lia). unfold read_slot, read_u16. rewrite !Hk by lia. done.
  - intros a k Ha. apply Hbelow. intros i [? ?]%elem_of_seq. pose proof (slot_position_Z i ltac:(lia)). lia.
Qed.

Lemma grow_directory_spec : heap_ok q ∧ records q = records p ++ replicate (slot + 1 - slots p) None ∧
  same_identity q p ∧ slots q = (slot + 1)%nat ∧ lower q = lower p ∧ heap_upper q = 8192 - 4 * (Z.of_nat slot + 1).
Proof using Hok Hs Hroom.
  pose proof grow_bounds as (Hu & Hsl & ?). pose proof grow_fields as (Hr & Hcount & Hupper & Hlower & Hk).
  pose proof grow_read as (Hq & Hread & Hbelow). pose proof (heap_ok_slots p Hok).
  assert (Hhd : same_head q r) by (apply Hbelow; lia).
  assert (Hn : slots q = (slot + 1)%nat) by (unfold slots; rewrite (same_slot_count _ _ Hhd), Hcount; lia).
  assert (Hid : same_identity q p).
  { eapply same_identity_trans; [by apply same_head_identity|]. split; apply Hk; lia. }
  assert (Hold : ∀ j, (j < slots p)%nat → read_slot q j = read_slot p j).
  { intros j Hj. rewrite Hread by lia. by rewrite decide_False by lia. }
  assert (Hnew : ∀ j, (slots p ≤ j < slot + 1)%nat → read_slot q j = mkSlot 0 0).
  { intros j Hj. rewrite Hread by lia. by rewrite decide_True by lia. }
  assert (Hlt : ∀ j, (j < slot + 1)%nat → Slot.is_free (read_slot q j) = false → (j < slots p)%nat).
  { intros j Hj Hf. destruct (decide (j < slots p)%nat); [done|]. rewrite Hnew in Hf by lia. done. }
  split_and!; [| |done|done|by rewrite (same_lower _ _ Hhd)|by rewrite (same_upper _ _ Hhd)].
  - split; rewrite ?Hn, ?(same_lower _ _ Hhd), ?(same_upper _ _ Hhd), ?(same_slot_count _ _ Hhd), ?Hlower, ?Hupper, ?Hcount;
      [done|rewrite <- (ho_kind p Hok); by apply same_kind; [|apply Hok|]|lia|lia| |].
    + intros j Hj Hf. pose proof (Hlt j Hj Hf). rewrite Hold in * by done. by apply Hok.
    + intros i j Hi Hj Hij Hfi Hfj. pose proof (Hlt i Hi Hfi). pose proof (Hlt j Hj Hfj).
      rewrite !Hold in * by done. by apply Hok.
  - unfold records. rewrite Hn. replace (slot + 1)%nat with (slots p + (slot + 1 - slots p))%nat at 1 by lia.
    rewrite seq_app, fmap_app. f_equal.
    + apply list_fmap_ext. intros j x [-> Hj]%lookup_seq. cbn [Nat.add]. apply content_ext; [by apply Hold|]. intros Hf.
      pose proof (ho_inside p Hok _ Hj Hf) as [? ?]. pose proof (ho_room p Hok). rewrite Hbelow by lia. apply Hk. lia.
    + symmetry. apply replicate_as_Forall_2; [by rewrite length_fmap, length_seq|]. apply Forall_fmap, Forall_seq.
      intros j Hj. cbn. unfold content. by rewrite Hnew by lia.
Qed.
End grow.

(** ** Appending a record *)

(** The field of the length of a record. *)
Definition stored_as (payload : list Z) (overflow : bool) : Z :=
  if overflow then Z.lor (Z.of_nat (length payload)) OVERFLOW_FLAG else Z.of_nat (length payload).

Lemma stored_as_spec payload overflow at_ :
  Z.of_nat (length payload) < 32768 →
  0 ≤ stored_as payload overflow < 65536 ∧ Slot.len (mkSlot at_ (stored_as payload overflow)) = length payload ∧
  Slot.is_overflow (mkSlot at_ (stored_as payload overflow)) = overflow.
Proof.
  intros Hl. unfold stored_as, Slot.len, Slot.is_overflow. cbn [stored].
  assert (Hv : (if overflow then Z.lor (Z.of_nat (length payload)) OVERFLOW_FLAG else Z.of_nat (length payload)) =
    Z.of_nat (length payload) + if overflow then 32768 else 0).
  { destruct overflow; [apply u16_lor_flag; lia|lia]. }
  rewrite Hv. rewrite u16_land_low, u16_land_flag by (destruct overflow; lia). split_and!.
  - destruct overflow; lia.
  - destruct overflow; lia.
  - destruct overflow; [change 32768 with (1 * 32768) at 1; rewrite Z_mod_plus_full|rewrite Z.add_0_r]; rewrite Z.mod_small by lia; lia.
  - destruct overflow; lia.
Qed.

Definition append_record (slot : nat) (payload : list Z) (overflow : bool) (p : Page) : Page :=
  write_slot slot (lower p) (stored_as payload overflow)
    (set_lower (lower p + Z.of_nat (length payload)) (splice (Z.to_nat (lower p)) payload p)).

Section append.
Context (p : Page) (Hok : heap_ok p) (slot : nat) (payload : list Z) (overflow : bool).
Context (Hs : (slot < slots p)%nat) (Hfree : Slot.is_free (read_slot p slot) = true).
Context (Hb : Forall is_byte payload) (Hroom : lower p + Z.of_nat (length payload) ≤ heap_upper p).
Let r := set_lower (lower p + Z.of_nat (length payload)) (splice (Z.to_nat (lower p)) payload p).
Let q := append_record slot payload overflow p.

#[local] Lemma append_bounds : 42 ≤ lower p ∧ heap_upper p = 8192 - 4 * Z.of_nat (slots p) ∧ heap_upper p ≤ Z.of_nat (slot_position slot) ∧
  Z.of_nat (length payload) < 32768 ∧ (slots p < 2039)%nat.
Proof using Hok Hs Hroom.
  pose proof (ho_room p Hok). pose proof (ho_upper p Hok). pose proof (slots_Z p (ho_page p Hok)).
  pose proof (heap_ok_position p slot Hok Hs). lia.
Qed.

#[local] Lemma append_fields : page_ok r ∧ lower r = lower p + Z.of_nat (length payload) ∧ slot_count r = slot_count p ∧
  heap_upper r = heap_upper p ∧ slice (Z.to_nat (lower p)) (length payload) r = payload ∧
  (∀ a k, (32 ≤ a ∨ a + k ≤ 30)%nat → (a + k ≤ Z.to_nat (lower p) ∨ Z.to_nat (lower p) + length payload ≤ a)%nat →
    slice a k r = slice a k p).
Proof using Hok Hs Hroom Hb.
  pose proof append_bounds as (? & ? & ? & ? & ?). pose proof (ho_page p Hok) as Hp. pose proof PAGE_SIZE_Z.
  assert (Hq : page_ok (splice (Z.to_nat (lower p)) payload p)) by (apply splice_ok; [done..|lia]).
  assert (Hl16 : 0 ≤ lower p + Z.of_nat (length payload) < 65536) by lia.
  unfold r. split_and!.
  - by apply set_lower_ok.
  - by apply lower_set_lower.
  - rewrite slot_count_set_lower by done. unfold slot_count, read_u16. rewrite (slice_splice_page _ Hp) by page_arith. done.
  - rewrite upper_set_lower by done. unfold heap_upper, read_u16. rewrite (slice_splice_page _ Hp) by page_arith. done.
  - rewrite slice_set_lower by (assumption || lia). apply slice_splice; [done|]. destruct Hp. lia.
  - intros a k Ha Hd. rewrite slice_set_lower by done. apply (slice_splice_page _ Hp); lia.
Qed.

#[local] Lemma append_slot j : (j < slots p)%nat →
  read_slot q j = if decide (j = slot) then mkSlot (lower p) (stored_as payload overflow) else read_slot p j.
Proof using Hok Hs Hroom Hb.
  intros Hj. pose proof append_bounds as (? & ? & ? & ? & ?). pose proof append_fields as (Hr & _ & _ & _ & _ & Hk).
  destruct (stored_as_spec payload overflow 0 ltac:(lia)) as [Hst _]. unfold q, append_record. fold r. case_decide as Hc.
  - subst j. apply read_write_slot; [done|lia|lia|done].
  - rewrite read_write_slot_other by (assumption || lia). pose proof (slot_position_Z j ltac:(lia)). pose proof (heap_ok_position p j Hok Hj).
    unfold read_slot, read_u16. rewrite !Hk by lia. done.
Qed.

#[local] Lemma append_below a k : Z.of_nat (a + k) ≤ heap_upper p → slice a k q = slice a k r.
Proof using Hok Hs Hroom Hb.
  intros Ha. pose proof append_bounds as (? & ? & ? & ? & ?). pose proof append_fields as (Hr & _).
  apply slice_write_slot; [done|lia|lia].
Qed.

Lemma append_record_spec :
  heap_ok q ∧ records q = <[slot := Some (payload, overflow)]> (records p) ∧ same_identity q p.
Proof using Hok Hs Hroom Hb Hfree.
  pose proof append_bounds as (? & ? & ? & ? & ?). pose proof append_fields as (Hr & Hlo & Hct & Hup & Hpay & Hk).
  assert (Hhd : same_head q r) by (apply append_below; lia).
  assert (Hn : slots q = slots p) by (unfold slots; by rewrite (same_slot_count _ _ Hhd), Hct).
  assert (Hid : same_identity q p).
  { eapply same_identity_trans; [by apply same_head_identity|]. split; apply Hk; lia. }
  assert (Hq : page_ok q) by (apply write_slot_ok; [done|lia]).
  destruct (stored_as_spec payload overflow (lower p) ltac:(lia)) as (_ & Hlen & Hov).
  split_and!; [|etrans; [apply (records_insert p q slot Hn Hs)|]|done].
  - split; rewrite ?Hn, ?(same_lower _ _ Hhd), ?(same_upper _ _ Hhd), ?(same_slot_count _ _ Hhd), ?Hlo, ?Hup, ?Hct;
      [done|rewrite <- (ho_kind p Hok); by apply same_kind; [|apply Hok|]|apply Hok|lia| |].
    + intros j Hj. rewrite append_slot by done. case_decide; unfold inside; [cbn [offset]; rewrite Hlen; lia|].
      intros Hf. pose proof (ho_inside p Hok j Hj Hf) as [? ?]. lia.
    + intros i j Hi Hj Hij. rewrite !append_slot by done. unfold disjoint. repeat case_decide; try congruence; cbn [offset]; intros Hfi Hfj.
      * pose proof (ho_inside p Hok j Hj Hfj) as [? ?]. lia.
      * pose proof (ho_inside p Hok i Hi Hfi) as [? ?]. lia.
      * by apply Hok.
  - intros j Hj Hne. apply content_ext; rewrite ?append_slot, ?decide_False by done; [done|]. intros Hf.
    pose proof (ho_inside p Hok j Hj Hf) as [? ?]. rewrite append_below by lia. apply Hk; lia.
  - f_equal. unfold content. rewrite append_slot, decide_True by done.
    assert (Slot.is_free (mkSlot (lower p) (stored_as payload overflow)) = false) as ->.
    { unfold Slot.is_free. apply andb_false_iff. left. cbn [offset]. lia. }
    cbn [offset]. rewrite Hlen, Hov, append_below by lia. by rewrite Hpay.
Qed.
End append.

(** ** Room *)

(** The bytes the records of a page take, by the records. *)
Definition record_len (r : option (list Z * bool)) : nat := match r with Some (bytes, _) => length bytes | None => 0 end.
Definition record_bytes (rs : list (option (list Z * bool))) : nat := foldr (λ r, Nat.add (record_len r)) 0%nat rs.

Lemma content_len p i :
  heap_ok p → (i < slots p)%nat → record_len (content p i) = if Slot.is_free (read_slot p i) then 0%nat else Slot.len (read_slot p i).
Proof.
  intros H Hi. unfold content. destruct (Slot.is_free (read_slot p i)) eqn:Hf; [done|]. cbn [record_len].
  pose proof (ho_inside p H i Hi Hf) as [? ?]. pose proof (ho_room p H). pose proof (ho_upper p H).
  pose proof (slots_Z p (ho_page p H)). destruct (ho_page p H) as [Hl _]. pose proof PAGE_SIZE_Z. rewrite length_slice; lia.
Qed.

Lemma live_other_bytes p slot : heap_ok p →
  sum_lens (List.filter (λ s, negb (Slot.is_free s)) (read_slot p <$> List.filter (λ index, negb (index =? slot)%nat) (seq 0 (slots p)))) =
  record_bytes (<[slot := None]> (records p)).
Proof.
  intros H. transitivity (record_bytes ((λ i, if decide (i = slot) then None else content p i) <$> seq 0 (slots p))).
  - assert (Hl : ∀ i, i ∈ seq 0 (slots p) → (i < slots p)%nat) by (intros i; rewrite elem_of_seq; lia).
    induction (seq 0 (slots p)) as [|i l IH]; [done|]. cbn [List.filter fmap list_fmap].
    assert (Hi : (i < slots p)%nat) by (apply Hl; left). cbn [record_bytes foldr].
    destruct (Nat.eqb_spec i slot) as [->|Hne]; cbn [negb].
    + rewrite decide_True by done. apply IH. intros; apply Hl; by right.
    + rewrite decide_False by done. rewrite content_len by done. cbn [fmap list_fmap List.filter].
      destruct (Slot.is_free (read_slot p i)); cbn [negb sum_lens foldr]; [|f_equal]; apply IH; intros; apply Hl; by right.
  - f_equal. apply list_eq_same_length with (slots p); rewrite ?length_insert, ?length_fmap, ?length_seq; [apply length_records|done|].
    intros j x y Hj. rewrite list_lookup_fmap, lookup_seq_lt by done. cbn [fmap option_fmap option_map Nat.add].
    destruct (decide (j = slot)) as [->|Hne].
    + rewrite list_lookup_insert_eq by by rewrite length_records. congruence.
    + rewrite list_lookup_insert_ne, records_lookup by done. congruence.
Qed.

Lemma live_bytes_records p : heap_ok p → live_bytes p = record_bytes (records p).
Proof.
  intros H. unfold live_bytes, live_slots, records.
  assert (Hl : ∀ i, i ∈ seq 0 (slots p) → (i < slots p)%nat) by (intros i; rewrite elem_of_seq; lia).
  induction (seq 0 (slots p)) as [|i l IH]; [done|]. cbn [List.filter fmap list_fmap record_bytes foldr].
  rewrite content_len by (done || (apply Hl; left)).
  destruct (Slot.is_free (read_slot p i)); cbn [negb fmap list_fmap sum_lens foldr snd]; [|f_equal]; apply IH; intros; apply Hl; by right.
Qed.

(** The page has room for a record of [len] bytes at [slot] beside its other records. *)
Definition room_for (p : Page) (slot len : nat) : Prop :=
  (len ≤ MAX_INLINE_LEN)%nat ∧
  42 + Z.of_nat (record_bytes (<[slot := None]> (records p))) + Z.of_nat len + 4 * Z.of_nat (slots p `max` (slot + 1)) ≤ 8192.

Lemma fits_at_iff p slot len : heap_ok p → fits_at p slot len = true ↔ room_for p slot len.
Proof.
  intros H. unfold fits_at, room_for. rewrite live_other_bytes by done. rewrite !andb_true_iff, Nat.leb_le, Z.ltb_lt, Z.leb_le.
  pose proof (heap_ok_slots p H). page_arith.
Qed.

(** The directory reaches [slot]. *)
Definition pad (slot : nat) (rs : list (option (list Z * bool))) : list (option (list Z * bool)) :=
  rs ++ replicate (slot + 1 - length rs) None.

Lemma insert_pad (slot : nat) (x y : option (list Z * bool)) rs :
  (slot < length rs)%nat → <[slot := y]> (pad slot (<[slot := x]> rs)) = <[slot := y]> (pad slot rs).
Proof.
  intros Hs. unfold pad. rewrite length_insert, !insert_app_l by (rewrite ?length_insert; done). by rewrite list_insert_insert_eq.
Qed.

(** The steps of [place_at] on a page with room: the slot is freed, the page compacted if its
    free span is too small, and the directory grown to reach the slot. *)
Section place.
Context (p : Page) (H : heap_ok p) (slot : nat) (payload : list Z) (overflow : bool).
Context (Hb : Forall is_byte payload) (Hroom : room_for p slot (length payload)).
Let count := slots p.
Let added := if (slot <? count)%nat then 0 else Z.of_nat slot - Z.of_nat count + 1.
Let need := Z.of_nat (length payload) + SLOT_SIZE * added.
Let p1 := if (slot <? count)%nat then write_slot slot 0 0 p else p.
Let p2 := if free_span p1 <? need then compact p1 else p1.
Let p3 := if 0 <? added then grow_directory added slot count p2 else p2.

#[local] Lemma place_freed : heap_ok p1 ∧ same_head p1 p ∧ records p1 = <[slot := None]> (records p).
Proof using H payload.
  unfold p1. destruct (Nat.ltb_spec slot count) as [Hs|Hs].
  - destruct (free_entry_spec p H slot Hs) as (? & ? & ?). done.
  - split_and!; try done. symmetry. apply list_insert_id'. rewrite length_records. fold count. lia.
Qed.

#[local] Lemma place_span :
  heap_ok p2 ∧ same_identity p2 p ∧ records p2 = <[slot := None]> (records p) ∧ slots p2 = count ∧ lower p2 + need ≤ heap_upper p2.
Proof using H Hroom.
  destruct place_freed as (H1 & Hh1 & Hr1). pose proof (same_slots _ _ Hh1) as Hn1. fold count in Hn1.
  destruct Hroom as [_ Hr]. rewrite <- Hr1, <- live_bytes_records in Hr by done. fold count in Hr.
  pose proof (ho_upper p1 H1) as Hu1. pose proof (slots_Z p1 (ho_page p1 H1)) as Hz1. rewrite Hn1 in Hz1.
  assert (Hneed : need = Z.of_nat (length payload) + 4 * (Z.of_nat (count `max` (slot + 1)) - Z.of_nat count)).
  { unfold need, added, SLOT_SIZE. destruct (Nat.ltb_spec slot count); lia. }
  pose proof (same_head_identity _ _ Hh1). unfold p2. destruct (Z.ltb_spec (free_span p1) need) as [Hlt|Hge].
  - destruct (compact_spec p1 H1) as (? & Hrc & ? & Hc & Hu & Hl). rewrite Hrc. split_and!; try done.
    + by eapply same_identity_trans.
    + unfold slots. rewrite Hc. exact Hn1.
    + rewrite Hl, Hu. lia.
  - split_and!; try done. unfold free_span in Hge. pose proof (ho_room p1 H1). lia.
Qed.

#[local] Lemma place_reached : heap_ok p3 ∧ same_identity p3 p ∧ records p3 = pad slot (<[slot := None]> (records p)) ∧
  (slot < slots p3)%nat ∧ lower p3 + Z.of_nat (length payload) ≤ heap_upper p3.
Proof using H Hroom.
  destruct place_span as (H2 & Hi2 & Hr2 & Hn2 & Hneed). unfold p3, need, added, SLOT_SIZE in *.
  unfold pad. rewrite length_insert, length_records. fold count. destruct (Nat.ltb_spec slot count) as [Hs|Hs].
  - rewrite (proj2 (Z.ltb_ge _ _)) by lia. rewrite Hr2. replace (slot + 1 - count)%nat with 0%nat by lia. cbn [replicate].
    rewrite app_nil_r. split_and!; try done; lia.
  - rewrite (proj2 (Z.ltb_lt _ _)) by lia. rewrite <- Hn2 in *.
    destruct (grow_directory_spec p2 H2 slot ltac:(lia) ltac:(lia)) as (H3 & Hr3 & Hi3 & Hn3 & Hl3 & Hu3).
    rewrite Hr3, Hr2, Hn3, Hl3, Hu3. pose proof (ho_upper p2 H2). pose proof (slots_Z p2 (ho_page p2 H2)).
    split_and!; try done; [by eapply same_identity_trans|lia|lia].
Qed.

Lemma place_at_fits : ∃ q, place_at slot payload overflow p = (true, q) ∧ heap_ok q ∧ same_identity q p ∧
  records q = <[slot := Some (payload, overflow)]> (pad slot (records p)).
Proof using H Hroom Hb.
  destruct place_reached as (H3 & Hi3 & Hr3 & Hs3 & Hl3).
  assert (Hnone : records p3 !! slot = Some None).
  { rewrite Hr3. unfold pad. rewrite length_insert, length_records. fold count.
    destruct (decide (slot < count)%nat).
    - rewrite lookup_app_l by (rewrite length_insert, length_records; done).
      by apply list_lookup_insert_eq; rewrite length_records.
    - rewrite lookup_app_r by (rewrite length_insert, length_records; fold count; lia).
      rewrite length_insert, length_records. fold count. apply lookup_replicate_2. lia. }
  rewrite records_lookup in Hnone by done. injection Hnone as Hfree. unfold content in Hfree.
  destruct (Slot.is_free (read_slot p3 slot)) eqn:Hf; [|done].
  destruct (append_record_spec p3 H3 slot payload overflow Hs3 Hf Hb Hl3) as (H4 & Hr4 & Hi4).
  exists (append_record slot payload overflow p3). split_and!; [|done|by eapply same_identity_trans|].
  - unfold place_at. rewrite (proj2 (fits_at_iff _ _ _ H) Hroom). cbn [negb]. reflexivity.
  - rewrite Hr4, Hr3. destruct (decide (slot < count)%nat); [apply insert_pad; by rewrite length_records|].
    rewrite (list_insert_id' (records p)); [done|]. rewrite length_records. fold count. lia.
Qed.
End place.

(** [place_at] is an update of the records of the page, or nothing. *)
Lemma place_at_spec p slot payload overflow :
  heap_ok p → Forall is_byte payload →
  (room_for p slot (length payload) → ∃ q, place_at slot payload overflow p = (true, q) ∧ heap_ok q ∧ same_identity q p ∧
    records q = <[slot := Some (payload, overflow)]> (pad slot (records p))) ∧
  (¬ room_for p slot (length payload) → place_at slot payload overflow p = (false, p)).
Proof.
  intros H Hb. split; [intros; by apply place_at_fits|]. intros Hno. unfold place_at.
  destruct (fits_at p slot (length payload)) eqn:Hf; [|done]. by apply fits_at_iff in Hf.
Qed.

(** ** Reading a record *)

(** What the bytes of a slot say. *)
Definition record_of (p : Page) (slot : nat) (r : option (list Z * bool)) : result InternalError (option Record_) :=
  match r with
  | None => Ok None
  | Some (bytes, false) => Ok (Some (Inline bytes))
  | Some (bytes, true) =>
      if negb (length bytes =? STUB_LEN)%nat then
        Err (Corruption [Lit "slot "; Num (N.of_nat slot); Lit " of heap page "; Num (page_id p);
          Lit " is an overflow stub of "; Num (N.of_nat (length bytes)); Lit " bytes, not "; Num (N.of_nat STUB_LEN)])
      else Ok (Some (OverflowAt (from_le_bytes (slice 0 4 bytes)) (Z.to_N (from_le_bytes (slice 4 8 bytes)))))
  end.

Lemma read_record_spec p slot : heap_ok p → read_record p slot = record_of p slot (records p !! slot ≫= id).
Proof.
  intros H. unfold read_record. destruct (Nat.leb_spec (slots p) slot) as [Hge|Hlt].
  { rewrite lookup_ge_None_2 by by rewrite length_records. done. }
  rewrite records_lookup by done. cbn [mbind option_bind id]. pose proof (content_len p slot H Hlt) as Hlen. unfold content in *.
  destruct (Slot.is_free (read_slot p slot)) eqn:Hf; [done|]. cbn [record_len] in Hlen.
  pose proof (ho_inside p H slot Hlt Hf) as [? ?]. unfold HEAP_PAYLOAD_START, HEADER_SIZE.
  rewrite (proj2 (Z.ltb_ge _ _)), (proj2 (Z.ltb_ge (lower p) _)) by lia. cbn [orb record_of].
  destruct (Slot.is_overflow (read_slot p slot)); cbn [negb]; [|done]. rewrite Hlen.
  destruct (Nat.eqb_spec (Slot.len (read_slot p slot)) STUB_LEN) as [->|]; cbn [negb]; [|done].
  unfold read_u32, read_u64. rewrite !slice_slice by (unfold STUB_LEN; lia). by rewrite Nat.add_0_r.
Qed.

Lemma stub_spec total head bytes :
  stub total head = Ok bytes → 0 ≤ total → (head ≤ u64_max)%N →
  length bytes = STUB_LEN ∧ Forall is_byte bytes ∧
  from_le_bytes (slice 0 4 bytes) = total ∧ Z.to_N (from_le_bytes (slice 4 8 bytes)) = head.
Proof.
  unfold stub. destruct (Z.ltb_spec (Z.of_N u32_max) total) as [|Hle]; [done|]. intros Heq H0 Hh.
  assert (bytes = to_le_bytes 4 total ++ to_le_bytes 8 (Z.of_N head)) as -> by congruence. split_and!.
  - by rewrite length_app, !length_to_le_bytes.
  - apply Forall_app. split; apply to_le_bytes_bound.
  - rewrite slice_here by apply length_to_le_bytes. apply from_to_le_bytes_fits. unfold unsigned_fits, u32_max in *. lia.
  - rewrite (slice_skip 4) by (rewrite ?length_to_le_bytes; done). rewrite slice_all by apply length_to_le_bytes.
    rewrite from_to_le_bytes_fits; [apply N2Z.id|]. unfold unsigned_fits, u64_max in *. lia.
Qed.

(** ** The slot a record would take *)

Lemma record_bytes_free rs slot : rs !! slot ≫= id = None → record_bytes (<[slot := None]> rs) = record_bytes rs.
Proof.
  intros Hn. destruct (rs !! slot) as [r|] eqn:Hr; [|apply lookup_ge_None_1 in Hr; rewrite list_insert_id'; [done|lia]].
  cbn in Hn. subst r. by rewrite list_insert_id.
Qed.

Lemma slot_for_first p len :
  heap_ok p →
  ∃ slot, records p !! slot ≫= id = None ∧ (slot ≤ slots p)%nat ∧
    (∀ j, (j < slot)%nat → records p !! j ≫= id ≠ None) ∧ slot_for p len = if fits_at p slot len then Some slot else None.
Proof.
  intros H. unfold slot_for.
  assert (Hfree : ∀ j, (j < slots p)%nat → Slot.is_free (read_slot p j) = true ↔ records p !! j ≫= id = None).
  { intros j Hj. rewrite records_lookup by done. cbn. unfold content. by destruct (Slot.is_free _). }
  destruct (List.find _ _) as [index|] eqn:Hfind.
  - apply find_some in Hfind as Hf. destruct Hf as [Hin Hf]. apply list_elem_of_In, elem_of_seq in Hin.
    exists index. split_and!; [by apply Hfree; [lia|]|lia| |done]. intros j Hj Hn.
    apply Hfree in Hn; [|lia]. revert Hfind Hn Hj. clear. generalize (slots p). intros n.
    assert (Hgen : ∀ m k, List.find (λ index, Slot.is_free (read_slot p index)) (seq m k) = Some index →
      Slot.is_free (read_slot p j) = true → (m ≤ j)%nat → (j < index)%nat → False).
    { intros m k. revert m. induction k as [|k IH]; intros m; cbn; [done|]. destruct (Slot.is_free (read_slot p m)) eqn:Hm.
      - intros [= ->]. lia.
      - intros Hs Hf Hle. apply (IH (S m)); try done. destruct (decide (m = j)); [congruence|lia]. }
    intros Hf Hj Hlt. apply (Hgen 0%nat n); try done. lia.
  - exists (slots p). split_and!; [by rewrite lookup_ge_None_2 by by rewrite length_records|done| |done].
    intros j Hj Hn. apply Hfree in Hn; [|done]. pose proof (find_none _ _ Hfind j) as Hno. cbn in Hno.
    rewrite Hno in Hn; [done|]. apply list_elem_of_In, elem_of_seq. lia.
Qed.

(** The slot is the first that holds no record, and none is answered exactly when no such slot
    has room. *)
Lemma slot_for_spec p len : heap_ok p →
  match slot_for p len with
  | Some slot => room_for p slot len ∧ records p !! slot ≫= id = None ∧ (slot ≤ slots p)%nat ∧
      (∀ j, (j < slot)%nat → records p !! j ≫= id ≠ None)
  | None => ∀ slot, records p !! slot ≫= id = None → ¬ room_for p slot len
  end.
Proof.
  intros H. destruct (slot_for_first p len H) as (slot & Hn & Hle & Hfirst & ->).
  destruct (fits_at p slot len) eqn:Hf; [by apply fits_at_iff in Hf|].
  intros s Hs [Hl Hr]. apply not_true_iff_false in Hf. apply Hf, fits_at_iff; [done|]. split; [done|].
  rewrite record_bytes_free in * by done.
  assert (slots p `max` (slot + 1) ≤ slots p `max` (s + 1))%nat; [|lia].
  destruct (decide (s < slot)%nat) as [Hlt|]; [by apply Hfirst in Hlt|lia].
Qed.

(** ** Formatting *)

Lemma clear_payload_ok p : page_ok p → page_ok (clear_payload p).
Proof.
  intros Hp. apply splice_ok; [done| |rewrite length_replicate; page_arith].
  apply Forall_replicate. unfold is_byte. lia.
Qed.

Lemma slice_clear_payload a n p : page_ok p → (a + n ≤ 32)%nat → slice a n (clear_payload p) = slice a n p.
Proof. intros Hp Ha. apply (slice_splice_page _ Hp); rewrite ?length_replicate; page_arith. Qed.

Lemma write_u64_ok at_ x p : page_ok p → (at_ + 8 ≤ PAGE_SIZE)%nat → page_ok (write_u64 at_ x p).
Proof. intros Hp Hle. apply splice_ok; [done|apply to_le_bytes_bound|by rewrite length_to_le_bytes]. Qed.

Lemma slice_write_u64 a n at_ x p :
  page_ok p → (at_ + 8 ≤ PAGE_SIZE)%nat → (a + n ≤ at_ ∨ at_ + 8 ≤ a)%nat → slice a n (write_u64 at_ x p) = slice a n p.
Proof. intros Hp Hle Hd. apply (slice_splice_page _ Hp); rewrite length_to_le_bytes; done. Qed.

Lemma read_u64_write at_ x p :
  page_ok p → (at_ + 8 ≤ PAGE_SIZE)%nat → 0 ≤ x < 2 ^ 64 → read_u64 at_ (write_u64 at_ x p) = x.
Proof. intros Hp Hle Hx. apply (read_le_splice _ Hp); [done|]. unfold unsigned_fits. lia. Qed.

Lemma set_kind_ok k p : page_ok p → page_ok (set_kind k p).
Proof. intros Hp. apply set_byte_ok; [done|unfold OFF_KIND; lia|apply as_byte_bound]. Qed.

Lemma slice_set_kind a n k p : page_ok p → (a + n ≤ 5 ∨ 6 ≤ a)%nat → slice a n (set_kind k p) = slice a n p.
Proof. intros Hp Hd. apply (slice_splice_page _ Hp); cbn; page_arith. Qed.

Lemma kind_slice p q : page_ok p → page_ok q → slice 5 1 p = slice 5 1 q → kind p = kind q.
Proof.
  intros [Hp _] [Hq _] H. pose proof PAGE_SIZE_Z. rewrite !read_u8_slice in H by lia. unfold kind, OFF_KIND. congruence.
Qed.

Lemma kind_set_kind k p : page_ok p → kind (set_kind k p) = Ok k.
Proof.
  intros Hp. unfold kind, set_kind, write_u8. rewrite (read_u8_splice _ Hp) by page_arith. apply from_as_byte.
Qed.

#[export] Hint Resolve set_kind_ok clear_payload_ok set_lower_ok : page.

(** A bound, or that a page with fields written is a page. *)
Ltac page_side :=
  lazymatch goal with
  | |- page_ok _ => repeat first [assumption | apply write_u16_ok | apply write_u64_ok | apply set_kind_ok | apply clear_payload_ok]; lia
  | |- _ => lia
  end.

(** Reads through writes of fields that do not overlap. *)
Ltac through_writes :=
  pose proof PAGE_SIZE_Z;
  unfold set_lower, set_slot_count, set_heap_upper, set_heap_next, OFF_LOWER, OFF_SLOT_COUNT, OFF_UPPER, OFF_HEAP_NEXT,
    OFF_OVERFLOW_NEXT, HEADER_SIZE, STUB_LEN in *;
  repeat first
    [ rewrite slice_write_u16 by page_side
    | rewrite slice_write_u64 by page_side
    | rewrite slice_set_kind by page_side
    | rewrite slice_clear_payload by page_side ].

(** A link fits its field. *)
Definition link_fits (next : option PageId) : Prop := match next with Some id => (id < u64_max)%N | None => True end.

Lemma link_of_bound next : link_fits next → 0 ≤ link_of next < 2 ^ 64.
Proof. unfold link_fits, link_of, END_OF_CHAIN, u64_max. destruct next; lia. Qed.

Lemma link_of_read next : link_fits next → (if link_of next =? END_OF_CHAIN then None else Some (Z.to_N (link_of next))) = next.
Proof.
  unfold link_fits, link_of, END_OF_CHAIN. destruct next as [id|]; [|done]. intros Hid.
  destruct (Z.eqb_spec (Z.of_N id) (Z.of_N u64_max)); [lia|]. by rewrite N2Z.id.
Qed.

Section link.
Context (p : Page) (Hp : page_ok p) (next : option PageId) (Hn : link_fits next).
Lemma heap_next_set : heap_next (set_heap_next next p) = next.
Proof using Hp Hn.
  unfold heap_next, set_heap_next. rewrite read_u64_write by (auto using link_of_bound; page_arith). by apply link_of_read.
Qed.

Lemma set_heap_next_ok : heap_ok p → heap_ok (set_heap_next next p) ∧ records (set_heap_next next p) = records p.
Proof using Hp.
  intros H. set (q := set_heap_next next p). pose proof PAGE_SIZE_Z.
  assert (Hq : page_ok q) by (apply write_u64_ok; [done|page_arith]).
  assert (Hs : ∀ a n, (a + n ≤ 34 ∨ 42 ≤ a)%nat → slice a n q = slice a n p) by (intros; apply slice_write_u64; page_arith || done).
  assert (Hr : ∀ j, (j < slots p)%nat → read_slot q j = read_slot p j).
  { intros j Hj. pose proof (heap_ok_position p j H Hj). pose proof (ho_room p H). unfold read_slot, read_u16. by rewrite !Hs by lia. }
  assert (Hn' : slot_count q = slot_count p) by (unfold slot_count, read_u16; by rewrite Hs by page_arith).
  assert (Hl : lower q = lower p) by (unfold lower, read_u16; by rewrite Hs by page_arith).
  assert (Hu : heap_upper q = heap_upper p) by (unfold heap_upper, read_u16; by rewrite Hs by page_arith).
  assert (Hk : kind q = kind p) by (apply kind_slice; try done; apply Hs; lia).
  assert (Hsl : slots q = slots p) by (unfold slots; by rewrite Hn').
  split.
  - split; rewrite ?Hsl, ?Hl, ?Hu, ?Hn', ?Hk; try apply H; [done| |].
    + intros i Hi. rewrite Hr by done. by apply H.
    + intros i j Hi Hj. rewrite !Hr by done. by apply H.
  - apply records_ext; rewrite Hsl; [done|]. intros j Hj. apply content_ext; [by apply Hr|].
    intros Hf. pose proof (ho_inside p H j Hj Hf) as [? ?]. apply Hs. lia.
Qed.
End link.

Lemma format_heap_page_spec p : page_ok p →
  heap_ok (format_heap_page p) ∧ records (format_heap_page p) = [] ∧ heap_next (format_heap_page p) = None ∧
  slice 0 5 (format_heap_page p) = slice 0 5 p ∧ slice 6 22 (format_heap_page p) = slice 6 22 p.
Proof.
  intros Hp. unfold format_heap_page.
  set (p1 := set_kind Heap _). set (p2 := set_slot_count 0 p1). set (p3 := set_lower _ p2). set (p4 := set_heap_upper _ p3).
  assert (Hk1 : kind p1 = Ok Heap) by by apply kind_set_kind, clear_payload_ok.
  assert (H1 : page_ok p1) by by apply set_kind_ok, clear_payload_ok. pose proof PAGE_SIZE_Z.
  assert (H2 : page_ok p2) by (apply write_u16_ok; [done|page_arith]).
  assert (H3 : page_ok p3) by (apply write_u16_ok; [done|page_arith]).
  assert (H4 : page_ok p4) by (apply write_u16_ok; [done|page_arith]).
  assert (Hn : slot_count p4 = 0).
  { unfold slot_count, read_u16, p4, p3. through_writes. apply read_u16_write; [done|lia|lia]. }
  assert (Hl : lower p4 = 42).
  { unfold lower, read_u16, p4. through_writes. apply read_u16_write; [done|lia|]. unfold HEAP_PAYLOAD_START, HEADER_SIZE. lia. }
  assert (Hu : heap_upper p4 = 8192) by (unfold p4; rewrite <- PAGE_SIZE_Z; apply read_u16_write; [done|page_arith|page_arith]).
  assert (Hs4 : slots p4 = 0%nat) by (unfold slots; by rewrite Hn).
  assert (Hok : heap_ok p4).
  { split; [assumption| |by rewrite Hu, Hn|lia|rewrite Hs4; lia|rewrite Hs4; lia].
    rewrite <- Hk1. apply kind_slice; [assumption..|]. unfold p4, p3, p2. by through_writes. }
  destruct (set_heap_next_ok p4 H4 None Hok) as [H5 Hr]. split_and!; [done| |by apply heap_next_set|..].
  - rewrite Hr. unfold records. by rewrite Hs4.
  - unfold p4, p3, p2, p1. by through_writes.
  - unfold p4, p3, p2, p1. by through_writes.
Qed.

(** A record of [MAX_INLINE_LEN] bytes fits a fresh page. *)
Lemma fresh_page_fits p len : heap_ok p → records p = [] → (len ≤ MAX_INLINE_LEN)%nat → slot_for p len = Some 0%nat.
Proof.
  intros H Hr Hl. assert (Hs : slots p = 0%nat) by by rewrite <- length_records, Hr.
  pose proof (slot_for_spec p len H) as Hsp. destruct (slot_for p len) as [slot|].
  - destruct Hsp as (_ & _ & Hle & _). f_equal. lia.
  - exfalso. apply (Hsp 0%nat); [by rewrite Hr|]. split; [done|]. rewrite Hr, Hs. cbn. page_arith.
Qed.

(** ** Overflow pages *)

Lemma overflow_page_round_trip chunk next p id :
  page_ok p → Forall is_byte chunk → (length chunk ≤ OVERFLOW_CAPACITY)%nat → link_fits next →
  page_ok (fill_overflow chunk next p) ∧ read_overflow_page (fill_overflow chunk next p) id = Ok (chunk, next).
Proof.
  intros Hp Hb Hlen Hnext. unfold fill_overflow. change (Z.to_nat OVERFLOW_PAYLOAD_START) with 40%nat. change OVERFLOW_PAYLOAD_START with 40.
  assert (Hlen' : (length chunk + 40 ≤ PAGE_SIZE)%nat) by (unfold OVERFLOW_CAPACITY in *; page_arith).
  set (p2 := set_slot_count 0 _). assert (H2 : page_ok p2) by (apply write_u16_ok; [auto with page|page_arith]).
  assert (H3 : page_ok (splice 40 chunk p2)) by (apply splice_ok; [done..|lia]). set (p3 := splice 40 chunk p2) in *.
  assert (H4 : page_ok (set_lower (40 + Z.of_nat (length chunk)) p3)) by by apply set_lower_ok. set (p4 := set_lower _ p3) in *.
  pose proof PAGE_SIZE_Z. set (q := write_u64 OFF_OVERFLOW_NEXT (link_of next) p4).
  assert (Hq : page_ok q) by (apply write_u64_ok; [done|page_arith]). split; [done|].
  assert (Hk : kind q = Ok Overflow).
  { rewrite <- (kind_set_kind Overflow (clear_payload p)) by auto with page. apply kind_slice; [done|auto with page|].
    unfold q, p4. through_writes. unfold p3. rewrite (slice_splice_page _ H2) by lia. unfold p2. by through_writes. }
  assert (Hl : lower q = 40 + Z.of_nat (length chunk)).
  { unfold lower, read_u16, q. through_writes. apply (lower_set_lower p3 H3). lia. }
  unfold read_overflow_page. rewrite Hk, result_bind_ok, bool_decide_eq_true_2 by done. cbn [negb]. rewrite Hl.
  unfold OVERFLOW_PAYLOAD_START, HEADER_SIZE. rewrite (proj2 (Z.ltb_ge _ _)), (proj2 (Z.ltb_ge (Z.of_nat PAGE_SIZE) _)) by lia. cbn [orb].
  f_equal. f_equal.
  - change (Z.to_nat (Z.of_nat 32 + 8)) with 40%nat. replace (Z.to_nat (40 + Z.of_nat (length chunk)) - 40)%nat with (length chunk) by lia.
    unfold q, p4. through_writes. apply slice_splice; [done|]. destruct H2. lia.
  - unfold q. rewrite read_u64_write by (auto using link_of_bound; page_arith). by apply link_of_read.
Qed.
