(* ===== verification/PageWrite.v ===== *)
(** * Page writes

    The records of the journal that carry bytes of pages ([PageWrite] of
    [vauban-storage/src/disk/wal.rs]): the ranges a change makes to a page, their encoding, and
    how the redo applies them.  The redo over the buffer pool is [redo_page], for one page the
    pool has read. *)

From S2P Require Import Prelude Errors Bytes Page Wal.

#[local] Open Scope Z_scope.

Definition UNLOGGED_START : nat := 16.
Definition UNLOGGED_END : nat := 28.
Definition MERGE_GAP : nat := 4.
Definition PAGES_PER_RECORD : nat := 64.

(** [UNLOGGED_HEADER.contains]. *)
Definition unlogged (i : nat) : bool := (UNLOGGED_START <=? i)%nat && (i <? UNLOGGED_END)%nat.

Inductive TreeRole := Versions | Directory.

Record RootMove := mkRootMove { rm_table : TableId; rm_role : TreeRole; rm_root : PageId }.

(** A range: an offset in the page and the bytes found there after the write. *)
Notation range := (nat * list Z)%type.

Record PageDelta := mkPageDelta {
  d_page : PageId;
  d_kind : Z;
  d_whole : bool;
  d_ranges : list range;
}.

Record PageWrite := mkPageWrite { pw_pages : list PageDelta; pw_root : option RootMove }.

#[export] Instance TreeRole_eq_dec : EqDecision TreeRole.
Proof. solve_decision. Defined.
#[export] Instance RootMove_eq_dec : EqDecision RootMove.
Proof. solve_decision. Defined.
#[export] Instance PageDelta_eq_dec : EqDecision PageDelta.
Proof. solve_decision. Defined.
#[export] Instance PageWrite_eq_dec : EqDecision PageWrite.
Proof. solve_decision. Defined.

Definition role_byte (r : TreeRole) : Z := match r with Versions => 1 | Directory => 2 end.

(** ** Encoding; a length cast [as u16] keeps its low sixteen bits. *)

Definition encode_range (r : range) : list Z :=
  to_le_bytes 2 (Z.of_nat r.1) ++ to_le_bytes 2 (Z.of_nat (length r.2)) ++ r.2.

Definition encode_delta (d : PageDelta) : list Z :=
  to_le_bytes 8 (Z.of_N (d_page d)) ++ [d_kind d; Z.b2z (d_whole d)] ++
  to_le_bytes 2 (Z.of_nat (length (d_ranges d))) ++ (d_ranges d ≫= encode_range).

Definition encode_root (root : option RootMove) : list Z :=
  match root with
  | None => [0]
  | Some m =>
      1 :: to_le_bytes 4 (Z.of_N (rm_table m)) ++ [role_byte (rm_role m)] ++ to_le_bytes 8 (Z.of_N (rm_root m))
  end.

Definition encode_page_write (p : PageWrite) : list Z :=
  to_le_bytes 2 (Z.of_nat (length (pw_pages p))) ++ (pw_pages p ≫= encode_delta) ++ encode_root (pw_root p).

(** ** Decoding, with the cursor of the source *)

Notation cursor := (stateful nat InternalError).

Section decode.
Context (bytes : list Z).

Definition take_bytes (len : nat) : cursor (list Z) := λ at_,
  match get_range at_ (at_ + len) bytes with
  | Some s => (Ok s, at_ + len)%nat
  | None => (Err (Corruption [Lit "a page write carries "; Num (N.of_nat (length bytes));
      Lit " payload bytes, too few for the "; Num (N.of_nat len); Lit " it announces at ";
      Num (N.of_nat at_)]), at_)
  end.

Definition take_byte : cursor Z := b ← take_bytes 1; mret (nth 0 b 0).
Definition take_u16 : cursor Z := b ← take_bytes 2; mret (from_le_bytes b).
Definition take_u32 : cursor Z := b ← take_bytes 4; mret (from_le_bytes b).
Definition take_u64 : cursor Z := b ← take_bytes 8; mret (from_le_bytes b).

Fixpoint decode_ranges (count : nat) (page : PageId) : cursor (list range) :=
  match count with
  | O => mret []
  | S count =>
      offset ← take_u16;
      len ← take_u16;
      if (Z.of_nat PAGE_SIZE <? offset + len)
      then fails (Corruption [Lit "a page write names bytes "; Num (Z.to_N offset); Lit "..";
        Num (Z.to_N (offset + len)); Lit " of page "; Num page; Lit ", past the ";
        Num (N.of_nat PAGE_SIZE); Lit " of a page"])
      else
        b ← take_bytes (Z.to_nat len);
        rest ← decode_ranges count page;
        mret ((Z.to_nat offset, b) :: rest)
  end.

Definition decode_delta : cursor PageDelta :=
  page ← take_u64;
  kind ← take_byte;
  whole ← take_byte;
  count ← take_u16;
  ranges ← decode_ranges (Z.to_nat count) (Z.to_N page);
  mret (mkPageDelta (Z.to_N page) kind (whole =? 1) ranges).

Fixpoint decode_deltas (count : nat) : cursor (list PageDelta) :=
  match count with
  | O => mret []
  | S count => d ← decode_delta; rest ← decode_deltas count; mret (d :: rest)
  end.

Definition decode_root : cursor (option RootMove) :=
  flag ← take_byte;
  if flag =? 1 then
    table ← take_u32;
    role ← take_byte;
    role ← (if role =? 1 then mret Versions
            else if role =? 2 then mret Directory
            else fails (Corruption [Lit "a page write names the root of tree role "; Num (Z.to_N role);
              Lit ", this build reads 1 and 2"]));
    root ← take_u64;
    mret (Some (mkRootMove (Z.to_N table) role (Z.to_N root)))
  else mret None.

Definition decode_page_write : result InternalError PageWrite :=
  let read : cursor PageWrite :=
    pages ← take_u16;
    deltas ← decode_deltas (Z.to_nat pages);
    root ← decode_root;
    at_ ← (λ at_, (Ok at_, at_));
    if decide (at_ ≠ length bytes) then
      fails (Corruption [Lit "a page write carries "; Num (N.of_nat (length bytes - at_));
        Lit " payload bytes past the "; Num (N.of_nat at_); Lit " it reads"])
    else mret (mkPageWrite deltas root) in
  (read 0%nat).1.
End decode.

(** ** The ranges of a change *)

Section changes.
Context (before after : Page).

Definition differs (i : nat) : bool := negb (unlogged i) && negb (nth i before 0 =? nth i after 0).

(** The inner loop of [changed_ranges]: the end of the range whose last byte that differs is
    before [stop].  [fuel] bounds the bytes left in the page. *)
Fixpoint range_end (fuel stop probe : nat) : nat :=
  match fuel with
  | O => stop
  | S fuel =>
      if (probe <? PAGE_SIZE)%nat && (probe - stop <? MERGE_GAP)%nat && negb (unlogged probe)
      then range_end fuel (if differs probe then S probe else stop) (S probe)
      else stop
  end.

(** The outer loop, from the offset [at_]. *)
Fixpoint ranges_from (fuel at_ : nat) : list range :=
  match fuel with
  | O => []
  | S fuel =>
      if (at_ <? PAGE_SIZE)%nat then
        if negb (differs at_) then ranges_from fuel (S at_)
        else
          let stop := range_end PAGE_SIZE (S at_) (S at_) in
          (at_, slice at_ (stop - at_) after) :: ranges_from fuel stop
      else []
  end.

Definition changed_ranges : list range := ranges_from PAGE_SIZE 0.
End changes.

Definition blank : Page := replicate PAGE_SIZE 0.

Definition whole_ranges (page : Page) : list range := changed_ranges blank page.

(** ** Applying them *)

Definition apply_ranges (page : Page) (ranges : list range) : Page :=
  foldl (λ page '(at_, bytes), splice at_ bytes page) page ranges.

(** The page zeroed, its unlogged bytes apart. *)
Definition zero_logged (page : Page) : Page :=
  replicate UNLOGGED_START 0 ++ slice UNLOGGED_START (UNLOGGED_END - UNLOGGED_START) page ++
  replicate (PAGE_SIZE - UNLOGGED_END) 0.

Definition apply_delta (page : Page) (d : PageDelta) : Page :=
  apply_ranges (if d_whole d then zero_logged page else page) (d_ranges d).

(** [matches!(page.kind(), Ok(PageKind::Free))]. *)
Definition is_free (page : Page) : bool := match kind page with Ok Free => true | _ => false end.

(** The delta [PageSet::install] makes of a staged page; none when nothing changed. *)
Definition staged_delta (id : PageId) (before after : Page) : option PageDelta :=
  let whole := is_free before && negb (is_free after) in
  let ranges := if whole then whole_ranges after else changed_ranges before after in
  match ranges with
  | [] => None
  | _ => Some (mkPageDelta id (read_u8 OFF_KIND after) whole ranges)
  end.

(** What the install makes of the page of the pool: the delta, and the number of the record
    unless the page is past it. *)
Definition install_page (page : Page) (d : PageDelta) (page_lsn : Lsn) : Page :=
  let page := apply_delta page d in
  if (lsn page <? page_lsn)%N then set_lsn page_lsn page else page.

(** The redo of one page that reads back: left alone when it is at the record or past it. *)
Definition redo_page (page : Page) (d : PageDelta) (l : Lsn) : Page :=
  if (l <=? lsn page)%N then page else set_lsn l (apply_delta page d).

(** The page [write_whole] writes to the file from the record alone. *)
Definition write_whole (d : PageDelta) (l : Lsn) : Page :=
  seal (set_lsn l (apply_delta (empty Free (d_page d)) d)).
