(* ===== verification/PageWriteFacts.v ===== *)
(** * Page writes restore what they carry

    The ranges of a change cover the bytes that differ and no unlogged one, stay apart, and
    make the page after the write when they are applied to the page before it; their encoding
    reads back. *)

From S2P Require Import Prelude Errors Bytes Page Wal WalFacts PageWrite.

#[local] Open Scope Z_scope.

(** ** Ranges *)

(** Ranges in order from [at_], inside the page, not empty, at least [MERGE_GAP] apart, without
    an unlogged byte. *)
Fixpoint apart (at_ : nat) (rs : list range) : Prop :=
  match rs with
  | [] => True
  | (from, bytes) :: rs =>
      (at_ ≤ from)%nat ∧ bytes ≠ [] ∧ (from + length bytes ≤ PAGE_SIZE)%nat ∧
      (∀ i, (from ≤ i < from + length bytes)%nat → unlogged i = false) ∧
      apart (from + length bytes + MERGE_GAP) rs
  end.

Lemma apart_mono at_ at_' rs : (at_' ≤ at_)%nat → apart at_ rs → apart at_' rs.
Proof. destruct rs as [|[from bytes] rs]; simpl; intuition lia. Qed.

Lemma unlogged_first i : unlogged (S i) = true → unlogged i = false → S i = UNLOGGED_START.
Proof.
  unfold unlogged, UNLOGGED_START, UNLOGGED_END.
  intros [H1%Nat.leb_le H2%Nat.ltb_lt]%andb_true_iff [H3%Nat.leb_gt|H3%Nat.ltb_ge]%andb_false_iff; lia.
Qed.

Lemma unlogged_in i : (UNLOGGED_START ≤ i < UNLOGGED_END)%nat → unlogged i = true.
Proof. intros Hi. apply andb_true_iff. split; [apply Nat.leb_le|apply Nat.ltb_lt]; lia. Qed.

Section changes.
Context (before after : Page) (Hb : length before = PAGE_SIZE) (Ha : length after = PAGE_SIZE).

Lemma differs_unlogged i : differs before after i = true → unlogged i = false.
Proof. unfold differs. by destruct (unlogged i). Qed.

(** The inner loop ends a range where the four bytes after it do not differ, at the unlogged
    bytes or at the end of the page. *)
Lemma range_end_spec fuel last probe :
  (last < probe ≤ PAGE_SIZE)%nat → (PAGE_SIZE ≤ probe + fuel)%nat → unlogged last = false →
  (∀ i, (last < i < probe)%nat → differs before after i = false ∧ unlogged i = false) →
  let e := range_end before after fuel (S last) probe in
  (S last ≤ e ≤ PAGE_SIZE)%nat ∧ (∀ i, (last < i < e)%nat → unlogged i = false) ∧
  (∀ i, (e ≤ i < e + MERGE_GAP)%nat → (i < PAGE_SIZE)%nat → differs before after i = false).
Proof.
  revert last probe. induction fuel as [|fuel IH]; intros last probe Hle Hf Hl Hgap e.
  { cbn [range_end] in e. subst e. split_and!; [lia|lia|lia|]. intros i Hi Hlt. apply Hgap. lia. }
  cbn [range_end] in e.
  destruct ((probe <? PAGE_SIZE)%nat && (probe - S last <? MERGE_GAP)%nat && negb (unlogged probe)) eqn:Hc.
  - apply andb_true_iff in Hc as [[Hp%Nat.ltb_lt Hg%Nat.ltb_lt]%andb_true_iff Hu%negb_true_iff].
    destruct (differs before after probe) eqn:Hd.
    + destruct (IH probe (S probe)) as (H1 & H2 & H3); [lia|lia|done|lia|]. subst e.
      split_and!; [lia|lia| |done]. intros i Hi. destruct (decide (i < probe)%nat); [by apply Hgap; lia|].
      destruct (decide (i = probe)) as [->|]; [done|]. apply H2. lia.
    + subst e. apply IH; [lia|lia|done|]. intros i Hi. destruct (decide (i = probe)) as [->|]; [done|].
      apply Hgap. lia.
  - subst e. split_and!; [lia|lia|lia|]. intros i Hi Hlt.
    destruct (decide (i < probe)%nat); [by apply Hgap; lia|].
    apply andb_false_iff in Hc as [[Hp%Nat.ltb_ge|Hg%Nat.ltb_ge]%andb_false_iff|Hu%negb_false_iff]; [lia|lia|].
    unfold differs. rewrite unlogged_in; [done|].
    assert (Hprev : unlogged (probe - 1) = false).
    { destruct (decide (probe - 1 = last)%nat) as [->|]; [done|]. apply Hgap. lia. }
    replace probe with (S (probe - 1)) in Hu by lia. pose proof (unlogged_first _ Hu Hprev).
    unfold MERGE_GAP, UNLOGGED_END, UNLOGGED_START in *. lia.
Qed.

(** The outer loop: the ranges are apart, start at a byte that differs, hold the bytes of the
    page after the write, and leave out only bytes that do not differ. *)
Lemma ranges_from_spec fuel at_ :
  (PAGE_SIZE ≤ at_ + fuel)%nat →
  let rs := ranges_from before after fuel at_ in
  apart at_ rs ∧
  Forall (λ r : range, differs before after r.1 = true ∧ r.2 = slice r.1 (length r.2) after) rs ∧
  (∀ i, (at_ ≤ i < PAGE_SIZE)%nat → differs before after i = true →
    ∃ r, r ∈ rs ∧ (r.1 ≤ i < r.1 + length r.2)%nat).
Proof using Hb Ha.
  revert at_. induction fuel as [|fuel IH]; intros at_ Hf; cbn [ranges_from].
  { split_and!; [done|constructor|lia]. }
  destruct (Nat.ltb_spec at_ PAGE_SIZE) as [Hlt|]; [|split_and!; [done|constructor|lia]].
  destruct (differs before after at_) eqn:Hd; cbn [negb].
  2: { destruct (IH (S at_) ltac:(lia)) as (H1 & H2 & H3). split_and!; [|done|].
       - eapply apart_mono; [|done]. lia.
       - intros i Hi Hdi. apply H3; [|done]. destruct (decide (i = at_)) as [->|]; [congruence|lia]. }
  pose proof (differs_unlogged _ Hd) as Hu.
  destruct (range_end_spec PAGE_SIZE at_ (S at_) ltac:(lia) ltac:(lia) Hu ltac:(lia)) as (H1 & H2 & H3).
  set (stop := range_end before after PAGE_SIZE (S at_) (S at_)) in *.
  destruct (IH stop ltac:(lia)) as (I1 & I2 & I3).
  set (rs := ranges_from before after fuel stop) in *.
  assert (Hlen : length (slice at_ (stop - at_) after) = (stop - at_)%nat) by (apply length_slice; lia).
  assert (I1' : apart (stop + MERGE_GAP) rs).
  { destruct rs as [|[from bytes] rs']; [done|]. inversion_clear I2 as [|? ? [Hdf _] _].
    destruct I1 as (J1 & J2 & J3 & J4). split; [|done]. cbn [fst] in Hdf.
    destruct (decide (stop + MERGE_GAP ≤ from)%nat) as [|Hn]; [done|].
    destruct bytes; [done|]. simpl in J3. rewrite H3 in Hdf by lia. done. }
  split_and!.
  - cbn [apart]. rewrite Hlen. split_and!; [lia| |lia| |].
    + intros Hnil. rewrite Hnil in Hlen. simpl in Hlen. lia.
    + intros i Hi. destruct (decide (i = at_)) as [->|]; [done|]. apply H2. lia.
    + by replace (at_ + (stop - at_))%nat with stop by lia.
  - constructor; [|done]. cbn [fst snd]. split; [done|]. by rewrite Hlen.
  - intros i Hi Hdi. destruct (decide (i < stop)%nat).
    + eexists. split; [by left|]. cbn [fst snd]. rewrite Hlen. lia.
    + destruct (I3 i ltac:(lia) Hdi) as (r & Hr & Hri). exists r. split; [by right|done].
Qed.
End changes.

(** ** Applying ranges *)

(** The byte [i] after the ranges: that of the range that holds it, or the one it was. *)
Lemma apply_ranges_lookup (after page : Page) at_ rs :
  length page = PAGE_SIZE → length after = PAGE_SIZE → apart at_ rs →
  Forall (λ r : range, r.2 = slice r.1 (length r.2) after) rs →
  length (apply_ranges page rs) = PAGE_SIZE ∧
  ∀ i, (i < PAGE_SIZE)%nat →
    ((∃ r, r ∈ rs ∧ (r.1 ≤ i < r.1 + length r.2)%nat) ∧ apply_ranges page rs !! i = after !! i) ∨
    ((∀ r, r ∈ rs → ¬ (r.1 ≤ i < r.1 + length r.2)%nat) ∧ apply_ranges page rs !! i = page !! i).
Proof.
  intros Hp Ha. revert at_ page Hp. induction rs as [|[from bytes] rs IH]; intros at_ page Hp Hap Hbs.
  { split; [done|]. intros i Hi. right. split; [|done]. intros r Hr. by apply not_elem_of_nil in Hr. }
  destruct Hap as (_ & _ & Hin & _ & Hap). inversion_clear Hbs as [|? ? Hby Hbs']. cbn [fst snd] in Hby.
  assert (Hl : length (splice from bytes page) = PAGE_SIZE) by (rewrite length_splice; rewrite ?Hp; done).
  destruct (IH _ _ Hl Hap Hbs') as [IHl IHi]. split; [done|]. intros i Hi.
  change (apply_ranges page ((from, bytes) :: rs)) with (apply_ranges (splice from bytes page) rs).
  destruct (IHi i Hi) as [[(r & Hr & Hri) He]|[Hnone He]].
  { left. split; [|done]. exists r. split; [by right|done]. }
  rewrite He, lookup_splice by (by rewrite Hp). case_decide as Hc.
  - left. split; [exists (from, bytes); split; [by left|done]|].
    rewrite Hby, lookup_slice by lia. f_equal. lia.
  - right. split; [|done]. intros r [->|Hr]%elem_of_cons; [done|]. by apply Hnone.
Qed.

(** Two pages that agree on the bytes a record carries. *)
Definition same_logged (p q : Page) : Prop :=
  ∀ i, (i < PAGE_SIZE)%nat → unlogged i = false → p !! i = q !! i.
Definition same_unlogged (p q : Page) : Prop :=
  ∀ i, (i < PAGE_SIZE)%nat → unlogged i = true → p !! i = q !! i.

Lemma apart_logged at_ rs r i :
  apart at_ rs → r ∈ rs → (r.1 ≤ i < r.1 + length r.2)%nat → unlogged i = false.
Proof.
  revert at_. induction rs as [|[from bytes] rs IH]; intros at_ Hap Hr; [by apply not_elem_of_nil in Hr|].
  destruct Hap as (_ & _ & _ & Hu & Hap). apply elem_of_cons in Hr as [->|Hr]; [by apply Hu|by eapply IH].
Qed.

Lemma nth_lookup_eq (p q : Page) i :
  (i < length p)%nat → (i < length q)%nat → nth i p 0 = nth i q 0 → p !! i = q !! i.
Proof.
  intros [x Hx]%lookup_lt_is_Some [y Hy]%lookup_lt_is_Some.
  rewrite (nth_lookup_Some _ _ _ _ Hx), (nth_lookup_Some _ _ _ _ Hy). congruence.
Qed.

(** The ranges of a change take a page that agrees with the one before the change to one that
    agrees with the one after it, and leave the unlogged bytes. *)
Lemma apply_changed before after page :
  length before = PAGE_SIZE → length after = PAGE_SIZE → length page = PAGE_SIZE →
  same_logged page before →
  let q := apply_ranges page (changed_ranges before after) in
  length q = PAGE_SIZE ∧ same_logged q after ∧ same_unlogged q page.
Proof.
  intros Hb Ha Hp Hsame. destruct (ranges_from_spec before after Hb Ha PAGE_SIZE 0 ltac:(lia)) as (H1 & H2 & H3).
  fold (changed_ranges before after) in *.
  destruct (apply_ranges_lookup after page 0 (changed_ranges before after) Hp Ha H1) as [Hl Hi].
  { eapply Forall_impl; [exact H2|]. by intros r [_ ?]. }
  split_and!; [done| |].
  - intros i Hlt Hu. destruct (Hi i Hlt) as [[_ He]|[Hnone He]]; [done|]. rewrite He.
    destruct (differs before after i) eqn:Hd.
    + destruct (H3 i ltac:(lia) Hd) as (r & Hr & Hri). by destruct (Hnone r Hr).
    + rewrite (Hsame i Hlt Hu). unfold differs in Hd. rewrite Hu in Hd. cbn [negb andb] in Hd.
      apply negb_false_iff, Z.eqb_eq in Hd. by apply nth_lookup_eq; [lia|lia|].
  - intros i Hlt Hu. destruct (Hi i Hlt) as [[(r & Hr & Hri) _]|[_ He]]; [|done].
    rewrite (apart_logged _ _ _ _ H1 Hr Hri) in Hu. done.
Qed.

Lemma length_zero_logged page : length page = PAGE_SIZE → length (zero_logged page) = PAGE_SIZE.
Proof.
  intros Hp. pose proof PAGE_SIZE_Z. unfold zero_logged, UNLOGGED_START, UNLOGGED_END.
  rewrite !length_app, !length_replicate, length_slice by lia. lia.
Qed.

Lemma zero_logged_spec page :
  length page = PAGE_SIZE → same_logged (zero_logged page) blank ∧ same_unlogged (zero_logged page) page.
Proof.
  intros Hp. pose proof PAGE_SIZE_Z. unfold zero_logged, blank, UNLOGGED_START, UNLOGGED_END.
  assert (Hs : length (slice 16 (28 - 16) page) = 12%nat) by (apply length_slice; lia).
  split; intros i Hi Hu; unfold unlogged, UNLOGGED_START, UNLOGGED_END in Hu.
  - rewrite lookup_replicate_2 by done. apply andb_false_iff in Hu as [Hu%Nat.leb_gt|Hu%Nat.ltb_ge].
    + rewrite lookup_app_l by (rewrite length_replicate; lia). by rewrite lookup_replicate_2 by lia.
    + rewrite lookup_app_r by (rewrite length_replicate; lia). rewrite length_replicate.
      rewrite lookup_app_r by lia. rewrite lookup_replicate_2; [done|lia].
  - apply andb_true_iff in Hu as [Hu1%Nat.leb_le Hu2%Nat.ltb_lt].
    rewrite lookup_app_r by (rewrite length_replicate; lia). rewrite length_replicate.
    rewrite lookup_app_l by lia. rewrite lookup_slice by lia. f_equal. lia.
Qed.

(** ** The delta of a change *)

(** A delta that makes [after] of a page: of any page when it covers it whole, of a page that
    agrees with [before] otherwise. *)
Definition delta_makes (d : PageDelta) (before after : Page) : Prop :=
  ∀ page, length page = PAGE_SIZE → (d_whole d = true ∨ same_logged page before) →
    let q := apply_delta page d in
    length q = PAGE_SIZE ∧ same_logged q after ∧ same_unlogged q page.

Lemma blank_length : length blank = PAGE_SIZE.
Proof. apply length_replicate. Qed.

Lemma staged_delta_makes id before after d :
  length before = PAGE_SIZE → length after = PAGE_SIZE →
  staged_delta id before after = Some d → delta_makes d before after.
Proof.
  intros Hb Ha Hd page Hp Hw.
  assert (Hcases : (d_whole d = true ∧ d_ranges d = changed_ranges blank after) ∨
                   (d_whole d = false ∧ d_ranges d = changed_ranges before after)).
  { unfold staged_delta, whole_ranges in Hd.
    destruct (is_free before && negb (is_free after)); [left|right];
      destruct (changed_ranges _ after) eqn:Hr; simplify_eq; done. }
  unfold apply_delta. destruct Hcases as [[Hwh Hr]|[Hwh Hr]]; rewrite Hwh, Hr in *.
  - destruct (zero_logged_spec page Hp) as [Hz Hu].
    destruct (apply_changed blank after (zero_logged page) blank_length Ha (length_zero_logged _ Hp) Hz) as (Hl & Hs & Hs').
    split_and!; [done|done|]. intros i Hi Hun. by rewrite (Hs' i Hi Hun), (Hu i Hi Hun).
  - destruct Hw as [|Hw]; [done|]. by apply apply_changed.
Qed.

Lemma no_ranges_same before after :
  length before = PAGE_SIZE → length after = PAGE_SIZE →
  changed_ranges before after = [] → same_logged before after.
Proof.
  intros Hb Ha Hr i Hi Hu. destruct (ranges_from_spec before after Hb Ha PAGE_SIZE 0 ltac:(lia)) as (_ & _ & H3).
  fold (changed_ranges before after) in H3. rewrite Hr in H3. destruct (differs before after i) eqn:Hd.
  - destruct (H3 i ltac:(lia) Hd) as (r & Hr' & _). by apply not_elem_of_nil in Hr'.
  - unfold differs in Hd. rewrite Hu in Hd. apply negb_false_iff, Z.eqb_eq in Hd.
    by apply nth_lookup_eq; [lia|lia|].
Qed.

Lemma read_u8_lookup (p q : Page) i : p !! i = q !! i → read_u8 i p = read_u8 i q.
Proof. intros He. unfold read_u8. by rewrite !nth_lookup, He. Qed.

(** A change that logs nothing leaves the logged bytes as they were. *)
Lemma staged_delta_none id before after :
  length before = PAGE_SIZE → length after = PAGE_SIZE →
  staged_delta id before after = None → same_logged before after.
Proof.
  intros Hb Ha Hd. unfold staged_delta in Hd.
  destruct (is_free before && negb (is_free after)) eqn:Hw; cycle 1.
  { apply no_ranges_same; [done|done|]. by destruct (changed_ranges before after). }
  (* a page that stops being free has a kind byte to log *)
  exfalso. unfold whole_ranges in Hd. destruct (changed_ranges blank after) eqn:Hr; [|done].
  pose proof (no_ranges_same blank after blank_length Ha Hr) as Hs. pose proof PAGE_SIZE_Z.
  assert (Hk : read_u8 OFF_KIND after = 0).
  { rewrite <- (read_u8_lookup blank after OFF_KIND) by (apply Hs; [unfold OFF_KIND; lia|done]).
    unfold read_u8, blank. apply nth_lookup_Some, lookup_replicate_2. unfold OFF_KIND. lia. }
  unfold is_free at 2, kind in Hw. rewrite Hk in Hw. by rewrite andb_false_r in Hw.
Qed.

(** ** The number of a page *)

Lemma lsn_unlogged p q : same_unlogged p q → length p = PAGE_SIZE → length q = PAGE_SIZE → lsn p = lsn q.
Proof.
  intros Hs Hp Hq. pose proof PAGE_SIZE_Z. unfold lsn, read_u64. do 2 f_equal. apply list_eq. intros i.
  destruct (decide (i < 8)%nat) as [Hi|Hi].
  - rewrite !lookup_slice by done. apply Hs; unfold OFF_PAGE_LSN; [lia|]. apply unlogged_in.
    unfold UNLOGGED_START, UNLOGGED_END. lia.
  - rewrite !lookup_ge_None_2; [done| |]; unfold slice; rewrite length_take; lia.
Qed.

Lemma lsn_set_lsn l p : length p = PAGE_SIZE → (l ≤ u64_max)%N → lsn (set_lsn l p) = l.
Proof.
  intros Hp Hl. pose proof PAGE_SIZE_Z. unfold lsn, set_lsn, read_u64, write_u64.
  rewrite slice_splice by (rewrite ?length_to_le_bytes, ?Hp; unfold OFF_PAGE_LSN; lia || done).
  rewrite from_to_le_bytes_fits by (by apply u64_fits). lia.
Qed.

Lemma set_lsn_logged l p : length p = PAGE_SIZE →
  length (set_lsn l p) = PAGE_SIZE ∧ same_logged (set_lsn l p) p.
Proof.
  intros Hp. pose proof PAGE_SIZE_Z. unfold set_lsn, write_u64.
  assert (Hle : (OFF_PAGE_LSN + length (to_le_bytes 8 (Z.of_N l)) ≤ length p)%nat)
    by (rewrite length_to_le_bytes, Hp; unfold OFF_PAGE_LSN; lia).
  split; [by rewrite length_splice|]. intros i Hi Hu. rewrite lookup_splice by done.
  rewrite decide_False; [done|]. rewrite length_to_le_bytes. unfold OFF_PAGE_LSN. intros Hin.
  rewrite unlogged_in in Hu; [done|]. unfold UNLOGGED_START, UNLOGGED_END. lia.
Qed.

(** A page behind a record takes the same bytes from the redo as from the write. *)
Lemma redo_is_install page d l before after :
  length page = PAGE_SIZE → delta_makes d before after → (d_whole d = true ∨ same_logged page before) →
  (lsn page < l)%N → redo_page page d l = install_page page d l.
Proof.
  intros Hp Hd Hs Hlt. unfold redo_page, install_page. rewrite (proj2 (N.leb_gt _ _)) by done.
  destruct (Hd page Hp Hs) as (Hl & _ & Hu). rewrite (lsn_unlogged _ _ Hu Hl Hp).
  by rewrite (proj2 (N.ltb_lt _ _)).
Qed.

Lemma install_makes page d l before after :
  length page = PAGE_SIZE → delta_makes d before after → (d_whole d = true ∨ same_logged page before) →
  (lsn page < l)%N → (l ≤ u64_max)%N →
  let q := install_page page d l in
  length q = PAGE_SIZE ∧ same_logged q after ∧ lsn q = l.
Proof.
  intros Hp Hd Hs Hlt Hl. destruct (Hd page Hp Hs) as (Hlen & Hsame & Hu). unfold install_page.
  rewrite (lsn_unlogged _ _ Hu Hlen Hp), (proj2 (N.ltb_lt _ _)) by done.
  destruct (set_lsn_logged l _ Hlen) as [Hl' Hs']. split_and!; [done| |by apply lsn_set_lsn].
  intros i Hi Hun. by rewrite (Hs' i Hi Hun), (Hsame i Hi Hun).
Qed.

(** ** The redo of a history

    The writes of one page, each the number of its record and the bytes the write left, give
    the images of the page and the records that carry them. *)

Section history.
Context (id : PageId).

Fixpoint images (page : Page) (writes : list (Lsn * Page)) : Page :=
  match writes with
  | [] => page
  | (l, after) :: writes =>
      match staged_delta id page after with
      | None => images page writes
      | Some d => images (install_page page d l) writes
      end
  end.

Fixpoint logged (page : Page) (writes : list (Lsn * Page)) : list (Lsn * PageDelta) :=
  match writes with
  | [] => []
  | (l, after) :: writes =>
      match staged_delta id page after with
      | None => logged page writes
      | Some d => (l, d) :: logged (install_page page d l) writes
      end
  end.

(** Numbers that grow from [last], and pages of the size of a page. *)
Fixpoint writes_ok (last : Lsn) (writes : list (Lsn * Page)) : Prop :=
  match writes with
  | [] => True
  | (l, after) :: writes => (last < l)%N ∧ (l ≤ u64_max)%N ∧ length after = PAGE_SIZE ∧ writes_ok l writes
  end.

Lemma writes_ok_mono last last' writes : (last' ≤ last)%N → writes_ok last writes → writes_ok last' writes.
Proof. destruct writes as [|[l after] writes]; simpl; [done|]. intuition lia. Qed.

Lemma images_app page ws1 ws2 : images page (ws1 ++ ws2) = images (images page ws1) ws2.
Proof.
  revert page. induction ws1 as [|[l after] ws1 IH]; intros page; [done|]. simpl.
  destruct (staged_delta id page after); apply IH.
Qed.

Lemma logged_app page ws1 ws2 :
  logged page (ws1 ++ ws2) = logged page ws1 ++ logged (images page ws1) ws2.
Proof.
  revert page. induction ws1 as [|[l after] ws1 IH]; intros page; [done|]. simpl.
  destruct (staged_delta id page after); [|apply IH]. by rewrite IH.
Qed.

Lemma images_ok page writes :
  length page = PAGE_SIZE → writes_ok (lsn page) writes →
  length (images page writes) = PAGE_SIZE ∧ (lsn page ≤ lsn (images page writes))%N ∧
  Forall (λ ld, (lsn page < ld.1 ≤ lsn (images page writes))%N) (logged page writes) ∧
  ∀ ws2, writes_ok (lsn page) (writes ++ ws2) → writes_ok (lsn (images page writes)) ws2.
Proof.
  revert page. induction writes as [|[l after] writes IH]; intros page Hp Hw; simpl.
  { split_and!; [done|lia|constructor|done]. }
  destruct Hw as (Hlt & Hl & Ha & Hw). destruct (staged_delta id page after) as [d|] eqn:Hd.
  - pose proof (staged_delta_makes id page after d Hp Ha Hd) as Hm.
    destruct (install_makes page d l page after Hp Hm ltac:(by right) Hlt Hl) as (Hlen & _ & Hlsn).
    specialize (IH (install_page page d l) Hlen). rewrite Hlsn in IH.
    destruct (IH Hw) as (I1 & I2 & I3 & I4). split_and!; [done|lia| |naive_solver].
    constructor; [simpl; lia|]. eapply Forall_impl; [exact I3|]. simpl. intros; lia.
  - assert (Hw' : writes_ok (lsn page) writes) by (eapply writes_ok_mono; [|exact Hw]; lia).
    destruct (IH page Hp Hw') as (I1 & I2 & I3 & I4).
    split_and!; [done|done|done|]. intros ws2 (_ & _ & _ & H2). apply I4. eapply writes_ok_mono; [|done]. lia.
Qed.

Lemma writes_ok_prefix last ws1 ws2 : writes_ok last (ws1 ++ ws2) → writes_ok last ws1.
Proof. revert last. induction ws1 as [|[l after] ws1 IH]; intros last; [done|]. simpl. naive_solver. Qed.

(** The last image is the last page staged, the unlogged bytes of its header apart. *)
Lemma images_last page ws l after :
  length page = PAGE_SIZE → writes_ok (lsn page) (ws ++ [(l, after)]) →
  same_logged (images page (ws ++ [(l, after)])) after.
Proof.
  intros Hp Hw. destruct (images_ok page ws Hp (writes_ok_prefix _ _ _ Hw)) as (H1 & _ & _ & H4).
  destruct (H4 _ Hw) as (Hlt & Hl & Ha & _). rewrite images_app. simpl.
  destruct (staged_delta id (images page ws) after) as [d|] eqn:Hd; [|by eapply staged_delta_none].
  pose proof (staged_delta_makes id _ after d H1 Ha Hd) as Hm.
  by destruct (install_makes _ d l _ after H1 Hm ltac:(by right) Hlt Hl) as (_ & ? & _).
Qed.

Definition redo_all (page : Page) (records : list (Lsn * PageDelta)) : Page :=
  foldl (λ page '(l, d), redo_page page d l) page records.

(** Records the page is past are left out. *)
Lemma redo_all_past page records :
  Forall (λ ld, (ld.1 ≤ lsn page)%N) records → redo_all page records = page.
Proof.
  induction records as [|[l d] records IH]; intros Hall; [done|]. inversion_clear Hall as [|? ? Hl Hall'].
  unfold redo_all. simpl. unfold redo_page. cbn [fst] in Hl. rewrite (proj2 (N.leb_le _ _)) by done. by apply IH.
Qed.

(** The others are made again, in order. *)
Lemma redo_all_ahead page writes :
  length page = PAGE_SIZE → writes_ok (lsn page) writes →
  redo_all page (logged page writes) = images page writes.
Proof.
  revert page. induction writes as [|[l after] writes IH]; intros page Hp Hw; [done|]. simpl.
  destruct Hw as (Hlt & Hl & Ha & Hw). destruct (staged_delta id page after) as [d|] eqn:Hd.
  - pose proof (staged_delta_makes id page after d Hp Ha Hd) as Hm.
    destruct (install_makes page d l page after Hp Hm ltac:(by right) Hlt Hl) as (Hlen & _ & Hlsn).
    unfold redo_all. simpl. rewrite (redo_is_install page d l page after) by (done || by right).
    apply IH; [done|]. by rewrite Hlsn.
  - apply IH; [done|]. eapply writes_ok_mono; [|done]. lia.
Qed.
End history.

(** ** Checksums apart *)

(** Two pages that differ in the checksum field only. *)
Definition same_but_checksum (p q : Page) : Prop :=
  length p = PAGE_SIZE ∧ length q = PAGE_SIZE ∧
  ∀ i, (i < PAGE_SIZE)%nat → ¬ (OFF_CHECKSUM ≤ i < OFF_CHECKSUM + 4)%nat → p !! i = q !! i.

Lemma seal_same p q : same_but_checksum p q → seal p = seal q.
Proof.
  intros (Hp & Hq & Hs). pose proof PAGE_SIZE_Z.
  assert (Hout : ∀ new, length new = 4%nat → splice OFF_CHECKSUM new p = splice OFF_CHECKSUM new q).
  { intros new Hn. apply list_eq. intros i.
    rewrite !lookup_splice by (rewrite ?Hp, ?Hq; unfold OFF_CHECKSUM; lia).
    case_decide as Hc; [done|]. destruct (decide (i < PAGE_SIZE)%nat).
    - apply Hs; [done|]. by rewrite Hn in Hc.
    - by rewrite !lookup_ge_None_2 by lia. }
  unfold seal, write_u32. rewrite !checksum_around. unfold Crc.crc_around. rewrite (Hout [0; 0; 0; 0]) by done.
  apply Hout, length_to_le_bytes.
Qed.

Lemma seal_but_checksum p : length p = PAGE_SIZE → same_but_checksum (seal p) p.
Proof.
  intros Hp. pose proof PAGE_SIZE_Z. unfold seal, write_u32.
  assert (Hle : (OFF_CHECKSUM + length (to_le_bytes 4 (checksum p)) ≤ length p)%nat)
    by (rewrite length_to_le_bytes, Hp; unfold OFF_CHECKSUM; lia).
  split_and!; [by rewrite length_splice|done|]. intros i Hi Hn. rewrite lookup_splice by done.
  by rewrite decide_False by (by rewrite length_to_le_bytes).
Qed.

(** A splice that stays out of the checksum, or any splice, respects it. *)
Lemma splice_same at_ new p q :
  same_but_checksum p q → (at_ + length new ≤ PAGE_SIZE)%nat →
  same_but_checksum (splice at_ new p) (splice at_ new q).
Proof.
  intros (Hp & Hq & Hs) Hle. split_and!; [rewrite length_splice; lia..|].
  intros i Hi Hn. rewrite !lookup_splice by lia. case_decide; [done|]. by apply Hs.
Qed.

Lemma lsn_same p q : same_but_checksum p q → lsn p = lsn q.
Proof.
  intros (Hp & Hq & Hs). pose proof PAGE_SIZE_Z. unfold lsn, read_u64. do 2 f_equal. apply list_eq. intros i.
  destruct (decide (i < 8)%nat) as [Hi|Hi].
  - rewrite !lookup_slice by done. apply Hs; unfold OFF_PAGE_LSN, OFF_CHECKSUM; lia.
  - rewrite !lookup_ge_None_2; [done| |]; unfold slice; rewrite length_take; lia.
Qed.

Definition in_page (rs : list range) : Prop := Forall (λ r : range, (r.1 + length r.2 ≤ PAGE_SIZE)%nat) rs.

Lemma apart_in_page at_ rs : apart at_ rs → in_page rs.
Proof.
  revert at_. induction rs as [|[from bytes] rs IH]; intros at_ Hap; [constructor|].
  destruct Hap as (_ & _ & Hle & _ & Hap). constructor; [done|by eapply IH].
Qed.

Lemma staged_delta_apart id before after d :
  length before = PAGE_SIZE → length after = PAGE_SIZE → staged_delta id before after = Some d →
  apart 0 (d_ranges d) ∧ d_page d = id ∧ d_ranges d ≠ [].
Proof.
  intros Hb Ha Hd. unfold staged_delta, whole_ranges in Hd.
  destruct (is_free before && negb (is_free after));
    (destruct (ranges_from_spec _ after blank_length Ha PAGE_SIZE 0 ltac:(lia)) as (Hz & _);
     destruct (ranges_from_spec before after Hb Ha PAGE_SIZE 0 ltac:(lia)) as (Hc & _));
    fold (changed_ranges blank after) (changed_ranges before after) in *;
    destruct (changed_ranges _ after) eqn:Hr in Hd; try done; rewrite <- Hr in Hd; injection Hd as <-;
    cbn [d_ranges d_page]; rewrite Hr in *; by split_and!.
Qed.

Lemma apply_ranges_same rs p q :
  in_page rs → same_but_checksum p q → same_but_checksum (apply_ranges p rs) (apply_ranges q rs).
Proof.
  intros Hin. revert p q. induction Hin as [|[from bytes] rs Hle _ IH]; intros p q Hs; [done|].
  apply IH. by apply splice_same.
Qed.

Lemma zero_logged_same p q : same_but_checksum p q → same_but_checksum (zero_logged p) (zero_logged q).
Proof.
  intros (Hp & Hq & Hs). split_and!; [by apply length_zero_logged..|]. intros i Hi Hn.
  destruct (zero_logged_spec p Hp) as [Hz1 Hu1]. destruct (zero_logged_spec q Hq) as [Hz2 Hu2].
  destruct (unlogged i) eqn:Hun; [|by rewrite Hz1, Hz2]. by rewrite Hu1, Hu2, Hs.
Qed.

Lemma redo_page_same d l p q :
  in_page (d_ranges d) → same_but_checksum p q → same_but_checksum (redo_page p d l) (redo_page q d l).
Proof.
  intros Hin Hs. unfold redo_page. rewrite (lsn_same _ _ Hs). destruct (_ <=? _)%N; [done|].
  unfold set_lsn, write_u64. apply splice_same.
  - unfold apply_delta. apply apply_ranges_same; [done|]. destruct (d_whole d); [by apply zero_logged_same|done].
  - pose proof PAGE_SIZE_Z. rewrite length_to_le_bytes. unfold OFF_PAGE_LSN. lia.
Qed.

Lemma redo_all_same records p q :
  Forall (λ ld : Lsn * PageDelta, in_page (d_ranges ld.2)) records → same_but_checksum p q →
  same_but_checksum (redo_all p records) (redo_all q records).
Proof.
  intros Hall. revert p q. induction Hall as [|[l d] records Hd _ IH]; intros p q Hs; [done|].
  apply IH. by apply redo_page_same.
Qed.

Lemma logged_in_page id page writes :
  length page = PAGE_SIZE → writes_ok (lsn page) writes →
  Forall (λ ld : Lsn * PageDelta, in_page (d_ranges ld.2)) (logged id page writes).
Proof.
  revert page. induction writes as [|[l after] writes IH]; intros page Hp Hw; [constructor|]. simpl.
  destruct Hw as (Hlt & Hl & Ha & Hw). destruct (staged_delta id page after) as [d|] eqn:Hd.
  - pose proof (staged_delta_makes id page after d Hp Ha Hd) as Hm.
    destruct (install_makes page d l page after Hp Hm ltac:(by right) Hlt Hl) as (Hlen & _ & Hlsn).
    destruct (staged_delta_apart id page after d Hp Ha Hd) as (Hap & _).
    constructor; [by eapply apart_in_page|]. apply IH; [done|]. by rewrite Hlsn.
  - apply IH; [done|]. eapply writes_ok_mono; [|done]. lia.
Qed.

(** * Page writes read back

    The encoding of a page write and its size: what the changes of a set of pages make always
    fits a record. *)

#[local] Open Scope Z_scope.
#[local] Opaque to_le_bytes from_le_bytes.

(** ** Round trip *)

Definition range_ok (r : range) : Prop :=
  (r.1 + length r.2 ≤ PAGE_SIZE)%nat ∧ Forall is_byte r.2.

Definition delta_ok (d : PageDelta) : Prop :=
  (d_page d ≤ u64_max)%N ∧ is_byte (d_kind d) ∧ Z.of_nat (length (d_ranges d)) < 2 ^ 16 ∧
  Forall range_ok (d_ranges d).

Definition root_ok (m : RootMove) : Prop := (rm_table m ≤ u32_max)%N ∧ (rm_root m ≤ u64_max)%N.

Definition page_write_ok (p : PageWrite) : Prop :=
  Z.of_nat (length (pw_pages p)) < 2 ^ 16 ∧ Forall delta_ok (pw_pages p) ∧
  match pw_root p with Some m => root_ok m | None => True end.

Definition cursor_reads {A} (m : list Z → cursor A) (b : list Z) (a : A) : Prop :=
  ∀ pre post, m (pre ++ b ++ post) (length pre) = (Ok a, length (pre ++ b)).

Lemma cursor_ret {A} (a : A) : cursor_reads (λ _, mret a) [] a.
Proof. intros pre post. by rewrite app_nil_r. Qed.

Lemma cursor_bind {A B} (m : list Z → cursor A) (f : list Z → A → cursor B) b1 b2 a c :
  cursor_reads m b1 a → cursor_reads (λ bytes, f bytes a) b2 c →
  cursor_reads (λ bytes, m bytes ≫= f bytes) (b1 ++ b2) c.
Proof.
  intros Hm Hf pre post. unfold mbind, stateful_bind. specialize (Hm pre (b2 ++ post)).
  rewrite <- app_assoc, Hm. specialize (Hf (pre ++ b1) post). rewrite <- !app_assoc in Hf. by rewrite Hf.
Qed.

Lemma cursor_map {A B} (m : list Z → cursor A) (f : A → B) b a c :
  f a = c → cursor_reads m b a → cursor_reads (λ bytes, m bytes ≫= λ x, mret (f x)) b c.
Proof.
  intros <- Hm. rewrite <- (app_nil_r b). apply (cursor_bind m (λ _ x, mret (f x)) b [] a); [done|].
  apply cursor_ret.
Qed.

Lemma cursor_take b : cursor_reads (λ bytes, take_bytes bytes (length b)) b b.
Proof.
  intros pre post. unfold take_bytes, get_range. rewrite decide_True by (rewrite !length_app; lia).
  rewrite Nat.add_comm, Nat.add_sub, (slice_skip (length pre)), Nat.sub_diag, slice_here by done.
  f_equal. rewrite length_app. lia.
Qed.

Lemma cursor_byte x : cursor_reads take_byte [x] x.
Proof. apply (cursor_map (λ bytes, take_bytes bytes 1) (λ b, nth 0 b 0) [x] [x]); [done|]. apply (cursor_take [x]). Qed.

Lemma cursor_le n x :
  unsigned_fits n x →
  cursor_reads (λ bytes, b ← take_bytes bytes n; mret (from_le_bytes b)) (to_le_bytes n x) x.
Proof.
  intros Hx. apply (cursor_map (λ bytes, take_bytes bytes n) from_le_bytes _ (to_le_bytes n x)).
  - by apply from_to_le_bytes_fits.
  - pose proof (cursor_take (to_le_bytes n x)) as Hc. by rewrite length_to_le_bytes in Hc.
Qed.

Lemma cursor_else {A} (c : bool) (m1 m2 : list Z → cursor A) b a :
  c = false → cursor_reads m2 b a → cursor_reads (λ bytes, if c then m1 bytes else m2 bytes) b a.
Proof. by intros ->. Qed.

Lemma count_fits n : Z.of_nat n < 2 ^ 16 → unsigned_fits 2 (Z.of_nat n).
Proof. unfold unsigned_fits. change (8 * Z.of_nat 2) with 16. lia. Qed.

Lemma cursor_ranges rs page :
  Forall range_ok rs → cursor_reads (λ bytes, decode_ranges bytes (length rs) page) (rs ≫= encode_range) rs.
Proof.
  pose proof PAGE_SIZE_Z. induction 1 as [|[from b] rs [Hr Hb] _ IH]; [apply cursor_ret|]. rewrite bind_cons.
  unfold encode_range at 1. cbn [fst snd] in *. rewrite <- !app_assoc. cbn [length decode_ranges].
  apply (cursor_bind take_u16 _ _ _ (Z.of_nat from)); [apply (cursor_le 2), count_fits; lia|].
  apply (cursor_bind take_u16 _ _ _ (Z.of_nat (length b))); [apply (cursor_le 2), count_fits; lia|].
  apply cursor_else; [apply Z.ltb_ge; lia|]. rewrite !Nat2Z.id.
  apply (cursor_bind (λ bytes, take_bytes bytes (length b)) _ b _ b); [apply cursor_take|].
  by apply (cursor_map (λ bytes, decode_ranges bytes (length rs) page) _ _ rs).
Qed.

Lemma cursor_delta d : delta_ok d → cursor_reads decode_delta (encode_delta d) d.
Proof.
  destruct d as [page kind whole rs]. intros (Hp & Hk & Hn & Hrs). unfold encode_delta, decode_delta.
  cbn [d_page d_kind d_whole d_ranges] in *.
  apply (cursor_bind take_u64 _ _ _ (Z.of_N page)); [by apply (cursor_le 8), u64_fits|].
  change [kind; Z.b2z whole] with ([kind] ++ [Z.b2z whole]). rewrite <- app_assoc.
  apply (cursor_bind take_byte _ [kind] _ kind); [apply cursor_byte|].
  apply (cursor_bind take_byte _ [Z.b2z whole] _ (Z.b2z whole)); [apply cursor_byte|].
  apply (cursor_bind take_u16 _ _ _ (Z.of_nat (length rs))); [by apply (cursor_le 2), count_fits|].
  apply (cursor_map (λ bytes, decode_ranges bytes (Z.to_nat (Z.of_nat (length rs))) (Z.to_N (Z.of_N page))) _ _ rs).
  - rewrite N2Z.id. by destruct whole.
  - rewrite Nat2Z.id. by apply cursor_ranges.
Qed.

Lemma cursor_deltas ds :
  Forall delta_ok ds → cursor_reads (λ bytes, decode_deltas bytes (length ds)) (ds ≫= encode_delta) ds.
Proof.
  induction 1 as [|d ds Hd _ IH]; [apply cursor_ret|]. rewrite bind_cons. cbn [length decode_deltas].
  apply (cursor_bind decode_delta _ _ _ d); [by apply cursor_delta|].
  by apply (cursor_map (λ bytes, decode_deltas bytes (length ds)) _ _ ds).
Qed.

Lemma cursor_root root :
  match root with Some m => root_ok m | None => True end → cursor_reads decode_root (encode_root root) root.
Proof.
  destruct root as [[table role root]|]; unfold decode_root, encode_root.
  - intros [Ht Hr]. cbn [rm_table rm_role rm_root] in *.
    apply (cursor_bind take_byte _ [1] _ 1); [apply cursor_byte|]. change (1 =? 1) with true. cbn match.
    apply (cursor_bind take_u32 _ _ _ (Z.of_N table)).
    { apply (cursor_le 4). unfold unsigned_fits, u32_max in *. change (8 * Z.of_nat 4) with 32. lia. }
    apply (cursor_bind take_byte _ [role_byte role] _ (role_byte role)); [apply cursor_byte|].
    apply (cursor_bind (λ _, if role_byte role =? 1 then mret Versions
      else if role_byte role =? 2 then mret Directory else fails _) _ [] _ role).
    { destruct role; apply cursor_ret. }
    apply (cursor_map take_u64 _ _ (Z.of_N root)); [by rewrite !N2Z.id|].
    by apply (cursor_le 8), u64_fits.
  - intros _. apply (cursor_bind take_byte _ [0] [] 0); [apply cursor_byte|]. apply cursor_ret.
Qed.

Lemma decode_encode_page_write p : page_write_ok p → decode_page_write (encode_page_write p) = Ok p.
Proof.
  destruct p as [ds root]. intros (Hn & Hds & Hroot). cbn [pw_pages pw_root] in *.
  unfold decode_page_write, encode_page_write. cbn [pw_pages pw_root].
  set (all := to_le_bytes 2 (Z.of_nat (length ds)) ++ (ds ≫= encode_delta) ++ encode_root root).
  assert (Hr : cursor_reads (λ bytes, pages ← take_u16 bytes; deltas ← decode_deltas bytes (Z.to_nat pages);
    root ← decode_root bytes; mret (mkPageWrite deltas root)) all (mkPageWrite ds root)).
  { apply (cursor_bind take_u16 _ _ _ (Z.of_nat (length ds))); [by apply (cursor_le 2), count_fits|].
    apply (cursor_bind (λ bytes, decode_deltas bytes (Z.to_nat (Z.of_nat (length ds)))) _ _ _ ds).
    - rewrite Nat2Z.id. by apply cursor_deltas.
    - by apply (cursor_map decode_root _ _ root), cursor_root. }
  specialize (Hr [] []). rewrite app_nil_r in Hr. cbn [app length] in Hr. clearbody all.
  unfold mbind, stateful_bind in *. destruct (take_u16 all 0%nat) as [[pages|] a1]; [|done].
  destruct (decode_deltas all (Z.to_nat pages) a1) as [[deltas|] a2]; [|done].
  destruct (decode_root all a2) as [[r|] a3]; [|done]. injection Hr as -> -> ->.
  by rewrite decide_False by (intros Hne; by apply Hne).
Qed.

(** ** Size *)

(** The bytes of ranges that are apart: what lies between two of them pays for their frame. *)
Lemma apart_size at_ rs :
  apart at_ rs → (at_ ≤ PAGE_SIZE + 4)%nat → (at_ + length (rs ≫= encode_range) ≤ PAGE_SIZE + 4)%nat.
Proof.
  revert at_. induction rs as [|[from b] rs IH]; intros at_ Hap Hat; [simpl; lia|].
  destruct Hap as (Hle & _ & Hin & _ & Hap). rewrite bind_cons, length_app. unfold encode_range at 1.
  cbn [fst snd]. rewrite !length_app, !length_to_le_bytes. unfold MERGE_GAP in Hap.
  specialize (IH (from + length b + 4)%nat Hap ltac:(lia)). lia.
Qed.

Lemma apart_count at_ rs : apart at_ rs → (at_ ≤ PAGE_SIZE + 4)%nat → (at_ + 5 * length rs ≤ PAGE_SIZE + 4)%nat.
Proof.
  revert at_. induction rs as [|[from b] rs IH]; intros at_ Hap Hat; [simpl; lia|].
  destruct Hap as (Hle & Hne & Hin & _ & Hap). unfold MERGE_GAP in Hap.
  specialize (IH (from + length b + 4)%nat Hap ltac:(lia)). destruct b; [done|]. simpl in *. lia.
Qed.

Lemma length_encode_delta d :
  length (encode_delta d) = (12 + length (d_ranges d ≫= encode_range))%nat.
Proof. unfold encode_delta. rewrite !length_app, !length_to_le_bytes. simpl. lia. Qed.

Lemma length_encode_root root : (length (encode_root root) ≤ 14)%nat.
Proof.
  destruct root as [m|]; unfold encode_root; [|simpl; lia].
  rewrite length_cons, !length_app, !length_to_le_bytes. simpl. lia.
Qed.

(** The deltas of as many pages as a record takes fit one. *)
Lemma page_write_fits p :
  (length (pw_pages p) ≤ PAGES_PER_RECORD)%nat → Forall (λ d, apart 0 (d_ranges d)) (pw_pages p) →
  (N.of_nat (length (encode_page_write p)) ≤ MAX_PAYLOAD_LEN)%N.
Proof.
  intros Hn Hap. rewrite MAX_PAYLOAD_LEN_N. unfold encode_page_write.
  assert (Hds : (length (pw_pages p ≫= encode_delta) ≤ length (pw_pages p) * (PAGE_SIZE + 16))%nat).
  { clear Hn. induction Hap as [|d ds Hd _ IH]; [simpl; lia|]. rewrite bind_cons, length_app, length_encode_delta.
    pose proof (apart_size 0 (d_ranges d) Hd ltac:(lia)). cbn [length]. lia. }
  pose proof PAGE_SIZE_Z. rewrite !length_app, length_to_le_bytes.
  pose proof (length_encode_root (pw_root p)). unfold PAGES_PER_RECORD in Hn. nia.
Qed.

(** The delta of a change satisfies what its encoding needs: no count is cut. *)
Lemma staged_delta_ok id before after d :
  page_ok before → page_ok after → (id ≤ u64_max)%N → staged_delta id before after = Some d → delta_ok d.
Proof.
  intros [Hb _] [Ha Hab] Hid Hd. destruct (staged_delta_apart id before after d Hb Ha Hd) as (Hap & Hpage & _).
  assert (Hk : d_kind d = read_u8 OFF_KIND after ∧ Forall (λ r : range, r.2 = slice r.1 (length r.2) after) (d_ranges d)).
  { unfold staged_delta, whole_ranges in Hd.
    destruct (ranges_from_spec blank after blank_length Ha PAGE_SIZE 0 ltac:(lia)) as (_ & Hz & _).
    destruct (ranges_from_spec before after Hb Ha PAGE_SIZE 0 ltac:(lia)) as (_ & Hc & _).
    fold (changed_ranges blank after) (changed_ranges before after) in *.
    destruct (is_free before && negb (is_free after)); destruct (changed_ranges _ after) eqn:Hr in Hd; try done;
      rewrite <- Hr in Hd; injection Hd as <-; cbn [d_kind d_ranges]; (split; [done|]);
      (eapply Forall_impl; [first [exact Hz|exact Hc]|]; by intros r [_ ?]). }
  destruct Hk as [Hk Hbytes]. pose proof PAGE_SIZE_Z. split_and!.
  - by rewrite Hpage.
  - rewrite Hk. unfold read_u8. destruct (lookup_lt_is_Some_2 after OFF_KIND) as [x Hx]; [unfold OFF_KIND; lia|].
    rewrite (nth_lookup_Some _ _ _ _ Hx). by eapply Forall_lookup_1.
  - pose proof (apart_count 0 _ Hap ltac:(lia)). lia.
  - apply apart_in_page in Hap. unfold in_page in Hap. rewrite Forall_forall in *. intros r Hr.
    split; [by apply Hap|]. rewrite (Hbytes r Hr). by apply slice_Forall.
Qed.
