(* ===== verification/WalPayload.v ===== *)
(** * Row records of the journal

    [vauban-storage/src/disk/wal_payload.rs], with the prefix of a version of [version.rs] and
    the addresses of [heap.rs] it carries. *)

From S2P Require Import Prelude Values Errors KeyOrder Bytes Page Wal WalFacts Encode EncodeFacts.

#[local] Open Scope Z_scope.
#[local] Opaque to_le_bytes from_le_bytes.

(** ** Versions *)

(** [Rid]: a heap page and a slot in it. *)
Record Rid := mkRid { rid_page : PageId; rid_slot : Z }.

Definition VERSION_PREFIX_LEN : nat := 32.
Definition NO_XMAX : N := u64_max.
Definition OFF_XMAX : nat := 16.

Record VersionHeader := mkVersionHeader {
  vh_row : RowId;
  vh_xmin : TxnId;
  vh_xmax : option TxnId;
  vh_seq : N;
}.

#[export] Instance Rid_eq_dec : EqDecision Rid.
Proof. solve_decision. Defined.
#[export] Instance VersionHeader_eq_dec : EqDecision VersionHeader.
Proof. solve_decision. Defined.

(** [VersionHeader::write_to]. *)
Definition write_header (h : VersionHeader) : list Z :=
  to_le_bytes 8 (Z.of_N (vh_row h)) ++ to_le_bytes 8 (Z.of_N (vh_xmin h)) ++
  to_le_bytes 8 (Z.of_N (default NO_XMAX (vh_xmax h))) ++ to_le_bytes 8 (Z.of_N (vh_seq h)).

Definition short_record (len : nat) : InternalError :=
  Corruption [Lit "heap record of "; Num (N.of_nat len); Lit " bytes is shorter than the ";
    Num (N.of_nat VERSION_PREFIX_LEN); Lit "-byte version prefix"].

(** [le_u64] of [version.rs]. *)
Definition le_u64 (bytes : list Z) (at_ : nat) : result InternalError N :=
  match get_range at_ (at_ + 8) bytes with
  | Some field => Ok (Z.to_N (from_le_bytes field))
  | None => Err (short_record (length bytes))
  end.

(** [VersionHeader::read_from]. *)
Definition read_header (bytes : list Z) : result InternalError VersionHeader :=
  xmax ← le_u64 bytes OFF_XMAX;
  row ← le_u64 bytes 0;
  xmin ← le_u64 bytes 8;
  seq ← le_u64 bytes 24;
  Ok (mkVersionHeader row xmin (if (xmax =? NO_XMAX)%N then None else Some xmax) seq).

(** [encode_version]: the prefix then the columns. *)
Definition encode_version (h : VersionHeader) (row : Row) : list Z := write_header h ++ encode_row row.

(** [with_xmax]: the same record with another [xmax]. *)
Definition with_xmax (bytes : list Z) (xmax : option TxnId) : result InternalError (list Z) :=
  if decide (VERSION_PREFIX_LEN ≤ length bytes)%nat
  then Ok (splice OFF_XMAX (to_le_bytes 8 (Z.of_N (default NO_XMAX xmax))) bytes)
  else Err (short_record (length bytes)).

(** ** Page operations *)

Definition OFF_HEADER : nat := 4.
Definition OFF_OPS : nat := OFF_HEADER + VERSION_PREFIX_LEN.
Definition PREFIX_LEN : nat := OFF_OPS + 2.
Definition OP_LEN : nat := 19.
Definition TAG_PUT : Z := 1.
Definition TAG_SET_XMAX : Z := 2.

Inductive PageOp :=
  | Put (rid : Rid)
  | SetXmax (rid : Rid) (seq : N).

Definition op_page (op : PageOp) : PageId :=
  match op with Put rid | SetXmax rid _ => rid_page rid end.

(** [PageOp::write_to]. *)
Definition write_op (op : PageOp) : list Z :=
  let '(tag, rid, seq) := match op with
    | Put rid => (TAG_PUT, rid, 0%N)
    | SetXmax rid seq => (TAG_SET_XMAX, rid, seq)
    end in
  [tag] ++ to_le_bytes 8 (Z.of_N (rid_page rid)) ++ to_le_bytes 2 (rid_slot rid) ++ to_le_bytes 8 (Z.of_N seq).

(** [PageOp::read_from], on [OP_LEN] bytes. *)
Definition read_op (bytes : list Z) : result InternalError PageOp :=
  let rid := mkRid (Z.to_N (read_u64 1 bytes)) (read_u16 9 bytes) in
  let tag := read_u8 0 bytes in
  if tag =? TAG_PUT then Ok (Put rid)
  else if tag =? TAG_SET_XMAX then Ok (SetXmax rid (Z.to_N (read_u64 11 bytes)))
  else Err (Corruption [Lit "a row record of the journal carries page operation "; Num (Z.to_N tag);
    Lit ", which this build does not read"]).

(** ** Row changes *)

Record RowChange := mkRowChange { rc_table : TableId; rc_header : VersionHeader; rc_columns : list Z }.

(** [RowChange::encode_with]; the number of operations is cast [as u16]. *)
Definition encode_with (c : RowChange) (ops : list PageOp) : list Z :=
  to_le_bytes 4 (Z.of_N (rc_table c)) ++ write_header (rc_header c) ++
  to_le_bytes 2 (Z.of_nat (length ops)) ++ (ops ≫= write_op) ++ rc_columns c.

(** [RowChange::encode]. *)
Definition encode_change (c : RowChange) : list Z := encode_with c [].

Definition short_change (len : nat) : InternalError :=
  Corruption [Lit "a row record of the journal carries "; Num (N.of_nat len); Lit " payload bytes, fewer than the ";
    Num (N.of_nat PREFIX_LEN); Lit " of its table, version prefix and count of page operations"].

(** [slice::chunks(n)] for [count] chunks. *)
Fixpoint chunks (count n : nat) (bytes : list Z) : list (list Z) :=
  match count with
  | O => []
  | S count => firstn n bytes :: chunks count n (skipn n bytes)
  end.

(** [RowChange::decode_with_ops]. *)
Definition decode_with_ops (bytes : list Z) : result InternalError (RowChange * list PageOp) :=
  match get_range 0 OFF_HEADER bytes, get_range OFF_HEADER OFF_OPS bytes, get_range OFF_OPS PREFIX_LEN bytes with
  | Some table, Some prefix, Some count =>
      let count := Z.to_nat (from_le_bytes count) in
      let columns_at := (PREFIX_LEN + OP_LEN * count)%nat in
      match get_range PREFIX_LEN columns_at bytes, get_range columns_at (length bytes) bytes with
      | Some raw_ops, Some columns =>
          ops ← try_map read_op (chunks count OP_LEN raw_ops);
          header ← read_header prefix;
          Ok (mkRowChange (Z.to_N (from_le_bytes table)) header columns, ops)
      | _, _ =>
          Err (Corruption [Lit "a row record of the journal announces "; Num (N.of_nat count);
            Lit " page operations and carries "; Num (N.of_nat (length bytes));
            Lit " payload bytes, fewer than the "; Num (N.of_nat columns_at); Lit " they take"])
      end
  | _, _, _ => Err (short_change (length bytes))
  end.

(** [RowChange::decode]. *)
Definition decode_change (bytes : list Z) : result InternalError RowChange :=
  fst <$> decode_with_ops bytes.

(** ** Freed slots *)

Definition SLOT_RELEASE_LEN : nat := OFF_OPS + 8 + 2 + 1.

Inductive Release := Removed | XmaxCleared.

Definition release_byte (r : Release) : Z := match r with Removed => 1 | XmaxCleared => 2 end.

Record SlotRelease := mkSlotRelease {
  sr_table : TableId;
  sr_header : VersionHeader;
  sr_at : Rid;
  sr_release : Release;
}.

Definition encode_release (s : SlotRelease) : list Z :=
  to_le_bytes 4 (Z.of_N (sr_table s)) ++ write_header (sr_header s) ++
  to_le_bytes 8 (Z.of_N (rid_page (sr_at s))) ++ to_le_bytes 2 (rid_slot (sr_at s)) ++ [release_byte (sr_release s)].

Definition decode_release (bytes : list Z) : result InternalError SlotRelease :=
  if decide (length bytes = SLOT_RELEASE_LEN) then
    header ← read_header (slice OFF_HEADER VERSION_PREFIX_LEN bytes);
    let raw := read_u8 (OFF_OPS + 10) bytes in
    release ← (if raw =? 1 then Ok Removed
               else if raw =? 2 then Ok XmaxCleared
               else Err (Corruption [Lit "a slot release record of the journal carries release "; Num (Z.to_N raw);
                 Lit ", this build reads 1 and 2"]));
    Ok (mkSlotRelease (Z.to_N (read_u32 0 bytes)) header
      (mkRid (Z.to_N (read_u64 OFF_OPS bytes)) (read_u16 (OFF_OPS + 8) bytes)) release)
  else Err (Corruption [Lit "a slot release record of the journal carries "; Num (N.of_nat (length bytes));
    Lit " payload bytes, expected "; Num (N.of_nat SLOT_RELEASE_LEN)]).

(** ** Round trips *)

(** The values of the types of the source; the transaction [u64::MAX] is the mark of no [xmax]. *)
Definition header_fits (h : VersionHeader) : Prop :=
  (vh_row h ≤ u64_max)%N ∧ (vh_xmin h ≤ u64_max)%N ∧ (vh_seq h ≤ u64_max)%N ∧
  match vh_xmax h with Some x => (x < NO_XMAX)%N | None => True end.
Definition rid_fits (r : Rid) : Prop := (rid_page r ≤ u64_max)%N ∧ unsigned_fits 2 (rid_slot r).
Definition op_fits (op : PageOp) : Prop :=
  match op with Put rid => rid_fits rid | SetXmax rid seq => rid_fits rid ∧ (seq ≤ u64_max)%N end.

Lemma length_write_header h : length (write_header h) = VERSION_PREFIX_LEN.
Proof. unfold write_header. by rewrite !length_app, !length_to_le_bytes. Qed.

Lemma u32_fits n : (n ≤ u32_max)%N → unsigned_fits 4 (Z.of_N n).
Proof. unfold unsigned_fits, u32_max. change (8 * Z.of_nat 4) with 32. lia. Qed.

Lemma le_u64_field pre x post at_ bytes :
  bytes = pre ++ to_le_bytes 8 (Z.of_N x) ++ post → length pre = at_ → (x ≤ u64_max)%N → le_u64 bytes at_ = Ok x.
Proof.
  intros -> <- Hx. unfold le_u64, get_range. rewrite decide_True by (rewrite !length_app, length_to_le_bytes; lia).
  rewrite (Nat.add_comm (length pre)), Nat.add_sub.
  rewrite read_le_field by (done || by apply u64_fits). by rewrite N2Z.id.
Qed.

Lemma header_xmax_fits h : header_fits h → (default NO_XMAX (vh_xmax h) ≤ u64_max)%N.
Proof. intros (_ & _ & _ & Hx). unfold NO_XMAX in *. destruct (vh_xmax h); simpl; lia. Qed.

Lemma read_write_header h post : header_fits h → read_header (write_header h ++ post) = Ok h.
Proof.
  intros Hh. pose proof (header_xmax_fits h Hh) as Hd. destruct Hh as (Hr & Hm & Hs & Hx).
  destruct h as [row xmin xmax seq]. unfold read_header, write_header. cbn [vh_row vh_xmin vh_xmax vh_seq] in *.
  set (A := to_le_bytes 8 (Z.of_N row)). set (B := to_le_bytes 8 (Z.of_N xmin)).
  set (C := to_le_bytes 8 (Z.of_N (default NO_XMAX xmax))). set (D := to_le_bytes 8 (Z.of_N seq)).
  assert (HA : length A = 8%nat) by apply length_to_le_bytes.
  assert (HB : length B = 8%nat) by apply length_to_le_bytes.
  assert (HC : length C = 8%nat) by apply length_to_le_bytes.
  rewrite (le_u64_field (A ++ B) (default NO_XMAX xmax) (D ++ post) OFF_XMAX), result_bind_ok;
    [|by rewrite <- !app_assoc|by rewrite length_app, HA, HB|done].
  rewrite (le_u64_field [] row (B ++ C ++ D ++ post) 0), result_bind_ok; [|by rewrite <- !app_assoc|done|done].
  rewrite (le_u64_field A xmin (C ++ D ++ post) 8), result_bind_ok; [|by rewrite <- !app_assoc|done|done].
  rewrite (le_u64_field (A ++ B ++ C) seq post 24), result_bind_ok;
    [|by rewrite <- !app_assoc|by rewrite !length_app, HA, HB, HC|done].
  do 2 f_equal. destruct xmax as [x|]; simpl in *; [|done].
  by rewrite (proj2 (N.eqb_neq _ _)) by lia.
Qed.

(** Writing an [xmax] in place is writing the prefix with that [xmax]. *)
Lemma with_xmax_write h xmax columns :
  with_xmax (write_header h ++ columns) xmax =
  Ok (write_header (mkVersionHeader (vh_row h) (vh_xmin h) xmax (vh_seq h)) ++ columns).
Proof.
  unfold with_xmax. rewrite decide_True by (rewrite length_app, length_write_header; lia). apply (f_equal Ok).
  unfold write_header. cbn [vh_row vh_xmin vh_xmax vh_seq].
  set (A := to_le_bytes 8 (Z.of_N (vh_row h))). set (B := to_le_bytes 8 (Z.of_N (vh_xmin h))).
  set (C := to_le_bytes 8 (Z.of_N (default NO_XMAX (vh_xmax h)))).
  assert (HAB : length (A ++ B) = OFF_XMAX) by (unfold A, B; by rewrite length_app, !length_to_le_bytes).
  assert (HC : length C = 8%nat) by apply length_to_le_bytes.
  unfold splice. rewrite length_to_le_bytes. rewrite (app_assoc A B), <- !app_assoc, (app_assoc A B), <- HAB.
  rewrite take_app_length. rewrite <- HC at 2. rewrite <- length_app, (app_assoc (A ++ B) C), drop_app_length.
  by rewrite <- !app_assoc.
Qed.

Lemma with_xmax_short bytes xmax :
  (length bytes < VERSION_PREFIX_LEN)%nat → with_xmax bytes xmax = Err (short_record (length bytes)).
Proof. intros Hl. unfold with_xmax. by rewrite decide_False by lia. Qed.

(** ** Page operations read back *)

Lemma length_write_op op : length (write_op op) = OP_LEN.
Proof. destruct op; simpl; rewrite !length_app, !length_to_le_bytes; done. Qed.

Lemma read_write_op op : op_fits op → read_op (write_op op) = Ok op.
Proof.
  intros Hf. set (seq := match op with Put _ => 0%N | SetXmax _ s => s end).
  set (rid := match op with Put r | SetXmax r _ => r end).
  set (tag := match op with Put _ => TAG_PUT | SetXmax _ _ => TAG_SET_XMAX end).
  assert (Hrid : rid_fits rid) by (subst rid; destruct op; [done|apply Hf]).
  assert (Hseq : (seq ≤ u64_max)%N) by (subst seq; destruct op; [done|apply Hf]).
  assert (Hw : write_op op =
    [tag] ++ to_le_bytes 8 (Z.of_N (rid_page rid)) ++ to_le_bytes 2 (rid_slot rid) ++ to_le_bytes 8 (Z.of_N seq))
    by (subst seq rid tag; by destruct op).
  unfold read_op. rewrite Hw. change (read_u8 0 _) with tag. unfold read_u64, read_u16. destruct Hrid as [Hp Hs].
  rewrite (read_le_field 8 1) by (done || by apply u64_fits).
  rewrite (app_assoc [tag]), (read_le_field 2 9) by (by rewrite ?length_app, ?length_to_le_bytes).
  rewrite (app_assoc ([tag] ++ _)), <- (app_nil_r (to_le_bytes 8 (Z.of_N seq))), (read_le_field 8 11)
    by (by rewrite ?length_app, ?length_to_le_bytes || by apply u64_fits).
  rewrite !N2Z.id. subst tag seq rid. by destruct op as [[]|[] ?].
Qed.

Lemma chunks_ops ops : chunks (length ops) OP_LEN (ops ≫= write_op) = write_op <$> ops.
Proof.
  induction ops as [|op ops IH]; [done|]. rewrite bind_cons, fmap_cons. cbn [length chunks].
  rewrite <- (length_write_op op) at 1 3. rewrite take_app_length, drop_app_length. by rewrite IH.
Qed.

Lemma length_ops ops : length (ops ≫= write_op) = (OP_LEN * length ops)%nat.
Proof. induction ops as [|op ops IH]; [done|]. rewrite bind_cons, length_app, length_write_op, IH. simpl. lia. Qed.

Lemma read_ops ops : Forall op_fits ops → try_map read_op (write_op <$> ops) = Ok ops.
Proof.
  intros Hf. apply try_map_Ok. apply Forall2_fmap_l, Forall_Forall2_diag.
  eapply Forall_impl; [exact Hf|]. exact read_write_op.
Qed.

(** ** Payloads read back *)

Definition change_fits (c : RowChange) : Prop := (rc_table c ≤ u32_max)%N ∧ header_fits (rc_header c).

Lemma get_range_field {A} n m (pre l post bytes : list A) :
  bytes = pre ++ l ++ post → length pre = n → (n + length l = m)%nat → get_range n m bytes = Some l.
Proof.
  intros -> <- <-. unfold get_range. rewrite decide_True by (rewrite !length_app; lia).
  rewrite (Nat.add_comm (length pre)), Nat.add_sub, (slice_skip (length pre)), Nat.sub_diag by done.
  by rewrite slice_here.
Qed.

Lemma decode_encode_with c ops :
  change_fits c → Forall op_fits ops → Z.of_nat (length ops) < 2 ^ 16 →
  decode_with_ops (encode_with c ops) = Ok (c, ops).
Proof.
  intros [Ht Hh] Hops Hn. unfold decode_with_ops.
  set (T := to_le_bytes 4 (Z.of_N (rc_table c))). set (H := write_header (rc_header c)).
  set (N := to_le_bytes 2 (Z.of_nat (length ops))). set (O := ops ≫= write_op).
  assert (LT : length T = 4%nat) by apply length_to_le_bytes.
  assert (LH : length H = 32%nat) by apply length_write_header.
  assert (LN : length N = 2%nat) by apply length_to_le_bytes.
  assert (LO : length O = (OP_LEN * length ops)%nat) by apply length_ops.
  assert (Hb : encode_with c ops = T ++ H ++ N ++ O ++ rc_columns c) by done. rewrite Hb.
  rewrite (get_range_field 0 OFF_HEADER [] T (H ++ N ++ O ++ rc_columns c)) by done.
  rewrite (get_range_field OFF_HEADER OFF_OPS T H (N ++ O ++ rc_columns c)) by (by rewrite ?LH).
  rewrite (get_range_field OFF_OPS PREFIX_LEN (T ++ H) N (O ++ rc_columns c))
    by (by rewrite <- ?app_assoc, ?length_app, ?LT, ?LH, ?LN).
  assert (Hcount : Z.to_nat (from_le_bytes N) = length ops).
  { unfold N. rewrite from_to_le_bytes_fits; [lia|]. unfold unsigned_fits. change (8 * Z.of_nat 2) with 16. lia. }
  rewrite Hcount. cbv zeta. rewrite (get_range_field PREFIX_LEN _ (T ++ H ++ N) O (rc_columns c))
    by (rewrite <- ?app_assoc, ?length_app, ?LT, ?LH, ?LN, ?LO; done).
  rewrite (get_range_field _ _ (T ++ H ++ N ++ O) (rc_columns c) [])
    by (rewrite <- ?app_assoc, ?app_nil_r, ?length_app, ?LT, ?LH, ?LN, ?LO; unfold PREFIX_LEN, OFF_OPS, OFF_HEADER, VERSION_PREFIX_LEN; lia || done).
  unfold O. rewrite chunks_ops, read_ops, result_bind_ok by done.
  unfold H. rewrite <- (app_nil_r (write_header _)), read_write_header, result_bind_ok by done.
  unfold T. rewrite from_to_le_bytes_fits by (by apply u32_fits). rewrite N2Z.id. by destruct c.
Qed.

Lemma decode_short bytes :
  (length bytes < PREFIX_LEN)%nat → decode_with_ops bytes = Err (short_change (length bytes)).
Proof.
  intros Hl. unfold decode_with_ops. assert (Hn : get_range OFF_OPS PREFIX_LEN bytes = None)
    by (unfold get_range; by rewrite decide_False by lia).
  rewrite Hn. by repeat case_match.
Qed.

Definition release_fits (s : SlotRelease) : Prop :=
  (sr_table s ≤ u32_max)%N ∧ header_fits (sr_header s) ∧ rid_fits (sr_at s).

Lemma decode_encode_release s : release_fits s → decode_release (encode_release s) = Ok s.
Proof.
  intros (Ht & Hh & Hp & Hs). unfold decode_release.
  set (T := to_le_bytes 4 (Z.of_N (sr_table s))). set (H := write_header (sr_header s)).
  set (P := to_le_bytes 8 (Z.of_N (rid_page (sr_at s)))). set (L := to_le_bytes 2 (rid_slot (sr_at s))).
  assert (LT : length T = 4%nat) by apply length_to_le_bytes.
  assert (LH : length H = 32%nat) by apply length_write_header.
  assert (LP : length P = 8%nat) by apply length_to_le_bytes.
  assert (LL : length L = 2%nat) by apply length_to_le_bytes.
  assert (Hb : encode_release s = T ++ H ++ P ++ L ++ [release_byte (sr_release s)]) by done. rewrite Hb.
  rewrite decide_True by (rewrite !length_app, LT, LH, LP, LL; done).
  rewrite (slice_skip 4) by (done || unfold OFF_HEADER; lia).
  rewrite (slice_here VERSION_PREFIX_LEN H) by done.
  assert (Hhr : read_header H = Ok (sr_header s)) by (rewrite <- (app_nil_r H); by apply read_write_header).
  rewrite Hhr, result_bind_ok.
  assert (Hr : read_u8 (OFF_OPS + 10) (T ++ H ++ P ++ L ++ [release_byte (sr_release s)]) = release_byte (sr_release s)).
  { unfold read_u8. rewrite !app_assoc, app_nth2 by (rewrite !length_app, LT, LH, LP, LL; unfold OFF_OPS, OFF_HEADER, VERSION_PREFIX_LEN; lia).
    by rewrite !length_app, LT, LH, LP, LL. }
  rewrite Hr. unfold read_u64, read_u32, read_u16.
  set (R := [release_byte (sr_release s)]).
  assert (Hslot : from_le_bytes (slice (OFF_OPS + 8) 2 (T ++ H ++ P ++ L ++ R)) = rid_slot (sr_at s)).
  { rewrite (app_assoc T), (app_assoc (T ++ H)). apply read_le_field; [by rewrite !length_app, LT, LH, LP|done]. }
  assert (Hpage : from_le_bytes (slice OFF_OPS 8 (T ++ H ++ P ++ L ++ R)) = Z.of_N (rid_page (sr_at s))).
  { rewrite (app_assoc T). apply read_le_field; [by rewrite !length_app, LT, LH|by apply u64_fits]. }
  assert (Htable : from_le_bytes (slice 0 4 (T ++ H ++ P ++ L ++ R)) = Z.of_N (sr_table s))
    by (apply (read_le_field 4 0 _ []); [done|by apply u32_fits]).
  rewrite Hslot, Hpage, Htable, !N2Z.id. destruct s as [? ? [] []]; reflexivity.
Qed.
