(* ===== verification/Control.v ===== *)
(** * The control file

    [vauban-storage/src/disk/control.rs]: the 128 bytes of [vauban.ctl], and how the file is
    written and read.  The directory of the instance is the four files the source looks at.
    Every call to the operating system has an outcome of its own, an argument of the operation:
    [Done], or a failure, after some of the bytes for a write.  A process stopped at a call
    leaves the files the failure of that call leaves. *)

From S2P Require Import Prelude Errors Bytes Crc Page WalFacts.

#[local] Open Scope Z_scope.
#[local] Opaque to_le_bytes from_le_bytes.

(** ** The block *)

Definition CONTROL_SIZE : nat := 128.
Definition CONTROL_FORMAT_VERSION : Z := 2.
Definition MAGIC : list Z := [86; 65; 85; 66; 65; 78; 68; 66]. (* VAUBANDB *)
Definition NO_FREE_HEAD : N := u64_max.
Definition NO_META_ROOT : N := u64_max.

Definition OFF_MAGIC : nat := 0.
Definition OFF_FORMAT_VERSION : nat := 8.
Definition OFF_CHECKSUM : nat := 12.
Definition OFF_NEXT_PAGE_ID : nat := 16.
Definition OFF_FREE_HEAD : nat := 24.
Definition OFF_NEXT_DB_ID : nat := 32.
Definition OFF_NEXT_TABLE_ID : nat := 40.
Definition OFF_NEXT_INDEX_ID : nat := 48.
Definition OFF_NEXT_ROW_ID : nat := 56.
Definition OFF_LATEST_CHECKPOINT_LSN : nat := 64.
Definition OFF_DURABLE_LSN : nat := 72.
Definition OFF_META_ROOT : nat := 80.

Record Control := mkControl {
  next_page_id : PageId;
  free_head : option PageId;
  next_db_id : N;
  next_table_id : N;
  next_index_id : N;
  next_row_id : N;
  latest_checkpoint_lsn : Lsn;
  durable_lsn : Lsn;
  meta_root : option PageId;
}.

#[export] Instance Control_eq_dec : EqDecision Control.
Proof. solve_decision. Defined.

(** [Control::default]. *)
Definition Control_default : Control := mkControl 0 None 1 1 1 1 0 0 None.

(** CRC-32 of the bytes, the checksum field read as zero. *)
Definition checksum (bytes : list Z) : Z :=
  let register := Crc32_new in
  let register := update register (take OFF_CHECKSUM bytes) in
  let register := update register [0; 0; 0; 0] in
  let register := update register (drop (OFF_CHECKSUM + 4) bytes) in
  finish register.

Definition seal (bytes : list Z) : list Z := write_u32 OFF_CHECKSUM (checksum bytes) bytes.

(** The fields [to_bytes] writes, in its order, before it seals the block. *)
Definition fields (c : Control) (bytes : list Z) : list Z :=
  let bytes := splice OFF_MAGIC MAGIC bytes in
  let bytes := write_u32 OFF_FORMAT_VERSION CONTROL_FORMAT_VERSION bytes in
  let bytes := write_u64 OFF_NEXT_PAGE_ID (Z.of_N (next_page_id c)) bytes in
  let bytes := write_u64 OFF_FREE_HEAD
    (Z.of_N (match free_head c with Some page => page | None => NO_FREE_HEAD end)) bytes in
  let bytes := write_u64 OFF_NEXT_DB_ID (Z.of_N (next_db_id c)) bytes in
  let bytes := write_u64 OFF_NEXT_TABLE_ID (Z.of_N (next_table_id c)) bytes in
  let bytes := write_u64 OFF_NEXT_INDEX_ID (Z.of_N (next_index_id c)) bytes in
  let bytes := write_u64 OFF_NEXT_ROW_ID (Z.of_N (next_row_id c)) bytes in
  let bytes := write_u64 OFF_LATEST_CHECKPOINT_LSN (Z.of_N (latest_checkpoint_lsn c)) bytes in
  let bytes := write_u64 OFF_DURABLE_LSN (Z.of_N (durable_lsn c)) bytes in
  write_u64 OFF_META_ROOT (Z.of_N (match meta_root c with Some page => page | None => NO_META_ROOT end)) bytes.

Definition to_bytes (c : Control) : list Z := seal (fields c (replicate CONTROL_SIZE 0)).

(** [from_bytes], on 128 bytes. *)
Definition from_bytes (bytes : list Z) : result InternalError Control :=
  let magic := slice OFF_MAGIC (length MAGIC) bytes in
  if negb (bool_decide (magic = MAGIC)) then
    Err (Corruption [Lit "control file starts with magic "; Dbg "" (Z.to_N <$> magic);
      Lit ", expected "; Dbg "" (Z.to_N <$> MAGIC)])
  else
    let version := read_u32 OFF_FORMAT_VERSION bytes in
    if negb (version =? CONTROL_FORMAT_VERSION) then
      Err (Corruption [Lit "control file declares format version "; Num (Z.to_N version);
        Lit ", this build reads "; Num (Z.to_N CONTROL_FORMAT_VERSION)])
    else
      let stored := read_u32 OFF_CHECKSUM bytes in
      let computed := checksum bytes in
      if negb (stored =? computed) then
        Err (Corruption [Lit "control file carries checksum "; Num (Z.to_N stored);
          Lit ", its bytes hash to "; Num (Z.to_N computed)])
      else
        let u64_at at_ := Z.to_N (read_u64 at_ bytes) in
        let head := u64_at OFF_FREE_HEAD in
        let root := u64_at OFF_META_ROOT in
        Ok (mkControl (u64_at OFF_NEXT_PAGE_ID) (if (head =? NO_FREE_HEAD)%N then None else Some head)
          (u64_at OFF_NEXT_DB_ID) (u64_at OFF_NEXT_TABLE_ID) (u64_at OFF_NEXT_INDEX_ID) (u64_at OFF_NEXT_ROW_ID)
          (u64_at OFF_LATEST_CHECKPOINT_LSN) (u64_at OFF_DURABLE_LSN)
          (if (root =? NO_META_ROOT)%N then None else Some root)).

Definition note_checkpoint (lsn : Lsn) (c : Control) : Control :=
  mkControl (next_page_id c) (free_head c) (next_db_id c) (next_table_id c) (next_index_id c) (next_row_id c)
    lsn lsn (meta_root c).

(** ** The directory *)

(** The contents of [vauban.ctl], of its staging file, of [data] and of [wal]; [None] when
    there is no such file. *)
Record Dir := mkDir {
  ctl : option (list Z);
  staging : option (list Z);
  data_file : option (list Z);
  wal_file : option (list Z);
}.

Definition with_ctl (f : option (list Z)) (d : Dir) : Dir := mkDir f (staging d) (data_file d) (wal_file d).
Definition with_staging (f : option (list Z)) (d : Dir) : Dir := mkDir (ctl d) f (data_file d) (wal_file d).

(** The outcome of a call: [Done], or the message of its error, after [bytes] of a write. *)
Inductive Outcome := Done | Failed (bytes : nat) (m : Message).

(** A call that changes the directory when it succeeds, and not otherwise. *)
Definition call (o : Outcome) (f : Dir → Dir) : stateful Dir InternalError () := λ d,
  match o with Done => (Ok (), f d) | Failed _ m => (Err (Io m), d) end.

(** [write_all] from the start of a file. *)
Definition written (o : Outcome) (bytes : list Z) : list Z :=
  match o with Done => bytes | Failed n _ => take n bytes end.
Definition over (new old : list Z) : list Z := new ++ drop (length new) old.
Definition reported (o : Outcome) : result InternalError () :=
  match o with Done => Ok () | Failed _ m => Err (Io m) end.

(** [set_len(CONTROL_SIZE)]: a longer file is cut, a shorter one is filled with zeros. *)
Definition resized (bytes : list Z) : list Z :=
  take CONTROL_SIZE bytes ++ replicate (CONTROL_SIZE - length bytes) 0.

(** What the calls of one [write] answer. *)
Record WriteCalls := mkWriteCalls {
  at_open : Outcome;
  at_write : Outcome;
  at_metadata : Outcome;
  at_set_len : Outcome;
  at_sync : Outcome;
  at_rename : Outcome;
  at_sync_dir : Outcome;
}.

(** [create]: through a staging file renamed once it is whole. *)
Definition create (o : WriteCalls) (bytes : list Z) : stateful Dir InternalError () :=
  _ ← call (at_open o) (with_staging (Some []));
  _ ← (λ d, (reported (at_write o), with_staging (Some (written (at_write o) bytes)) d));
  _ ← call (at_sync o) (λ d, d);
  _ ← call (at_rename o) (λ d, with_staging None (with_ctl (staging d) d));
  call (at_sync_dir o) (λ d, d).

(** The write in place of a file already there. *)
Definition write_in_place (o : WriteCalls) (old bytes : list Z) : stateful Dir InternalError () :=
  let whole := over (written (at_write o) bytes) old in
  _ ← call (at_open o) (λ d, d);
  _ ← (λ d, (reported (at_write o), with_ctl (Some whole) d));
  _ ← call (at_metadata o) (λ d, d);
  _ ← (if decide (length whole ≠ CONTROL_SIZE) then call (at_set_len o) (with_ctl (Some (resized whole))) else mret ());
  call (at_sync o) (λ d, d).

(** [Control::write]; the open of a missing file answers [NotFound]. *)
Definition write (o : WriteCalls) (c : Control) : stateful Dir InternalError () := λ d,
  match ctl d with
  | Some old => write_in_place o old (to_bytes c) d
  | None => create o (to_bytes c) d
  end.

Definition empty_sibling (f : option (list Z)) : bool := bool_decide (f = Some []).

(** [Control::read_empty]. *)
Definition read_empty (path : string) (o : WriteCalls) : stateful Dir InternalError Control := λ d,
  if empty_sibling (data_file d) && empty_sibling (wal_file d) then
    (_ ← write o Control_default; mret Control_default) d
  else (Err (Corruption [Lit "control file "; Lit path; Lit " is 0 bytes, expected "; Num (N.of_nat CONTROL_SIZE);
    Lit ": a write of it was interrupted and the instance beside it holds pages or journal records it no longer describes; if this directory was being created, remove it and start again"]), d).

(** [Control::read]; [at_read] is what the open and the read answer together. *)
Definition read (path : string) (at_read : Outcome) (o : WriteCalls) : stateful Dir InternalError Control := λ d,
  match at_read, ctl d with
  | Failed _ m, _ => (Err (Io m), d)
  | Done, None => (Err (Io [Lit "No such file or directory (os error 2)"]), d)
  | Done, Some [] => read_empty path o d
  | Done, Some bytes =>
      if decide (length bytes = CONTROL_SIZE) then (from_bytes bytes, d)
      else (Err (Corruption [Lit "control file "; Lit path; Lit " is "; Num (N.of_nat (length bytes));
        Lit " bytes, expected "; Num (N.of_nat CONTROL_SIZE)]), d)
  end.

(** ** The block reads back *)

(** The types of the source; [u64::MAX] is the mark of an absent page. *)
Definition control_fits (c : Control) : Prop :=
  (next_page_id c ≤ u64_max)%N ∧ (next_db_id c ≤ u64_max)%N ∧ (next_table_id c ≤ u64_max)%N ∧
  (next_index_id c ≤ u64_max)%N ∧ (next_row_id c ≤ u64_max)%N ∧ (latest_checkpoint_lsn c ≤ u64_max)%N ∧
  (durable_lsn c ≤ u64_max)%N ∧
  (∀ page, free_head c = Some page → (page < u64_max)%N) ∧ (∀ page, meta_root c = Some page → (page < u64_max)%N).

#[local] Notation blank := (replicate CONTROL_SIZE 0).
#[local] Notation block p := (@length Z p = CONTROL_SIZE).

Lemma block_splice at_ (new p : list Z) : block p → (at_ + length new ≤ CONTROL_SIZE)%nat → block (splice at_ new p).
Proof. intros Hp Hle. by rewrite length_splice; [|rewrite Hp]. Qed.

Lemma block_read n at_ x p :
  block p → (at_ + n ≤ CONTROL_SIZE)%nat → unsigned_fits n x →
  from_le_bytes (slice at_ n (splice at_ (to_le_bytes n x) p)) = x.
Proof.
  intros Hp Hle Hx. rewrite slice_splice by (rewrite ?length_to_le_bytes, ?Hp; done).
  by apply from_to_le_bytes_fits.
Qed.

Lemma block_other at_ n from new p :
  block p → (from + length new ≤ CONTROL_SIZE)%nat → (at_ + n ≤ from ∨ from + length new ≤ at_)%nat →
  slice at_ n (splice from new p) = slice at_ n p.
Proof. intros Hp Hle Hd. apply slice_splice_other; [by rewrite Hp|done]. Qed.

(** The length of a block after writes inside it. *)
Ltac block_len :=
  repeat (apply block_splice; [|rewrite ?length_to_le_bytes; unfold CONTROL_SIZE; simpl; lia]);
  first [assumption | apply length_replicate].

(** Reads of the fields of a block after writes to it. *)
Ltac block_fields :=
  repeat first
    [ rewrite block_read; [|block_len|unfold CONTROL_SIZE; lia|by apply u64_fits]
    | rewrite block_other; [|block_len|rewrite ?length_to_le_bytes; unfold CONTROL_SIZE; simpl; lia
        |rewrite ?length_to_le_bytes; simpl; lia] ].

Lemma fields_block c p : block p → block (fields c p).
Proof.
  intros Hp. unfold fields, write_u32, write_u64, OFF_META_ROOT, OFF_DURABLE_LSN, OFF_LATEST_CHECKPOINT_LSN,
    OFF_NEXT_ROW_ID, OFF_NEXT_INDEX_ID, OFF_NEXT_TABLE_ID, OFF_NEXT_DB_ID, OFF_FREE_HEAD, OFF_NEXT_PAGE_ID,
    OFF_FORMAT_VERSION, OFF_MAGIC. block_len.
Qed.

Lemma fields_bytes c p : Forall is_byte p → Forall is_byte (fields c p).
Proof.
  intros Hp. unfold fields, write_u32, write_u64.
  repeat (apply splice_Forall; [apply to_le_bytes_bound|]). apply splice_Forall; [|done].
  unfold MAGIC. repeat (constructor; [unfold is_byte; lia|]). constructor.
Qed.

Lemma blank_bytes : Forall is_byte blank.
Proof. apply Forall_replicate. unfold is_byte. lia. Qed.

Lemma control_checksum_around bytes : checksum bytes = crc_around OFF_CHECKSUM bytes.
Proof. apply crc_around_updates. Qed.

Lemma to_bytes_block c : block (to_bytes c) ∧ Forall is_byte (to_bytes c).
Proof.
  unfold to_bytes, seal, write_u32. split.
  - apply block_splice; [apply fields_block, length_replicate|]. rewrite length_to_le_bytes. unfold OFF_CHECKSUM, CONTROL_SIZE. lia.
  - apply splice_Forall; [apply to_le_bytes_bound|apply fields_bytes, blank_bytes].
Qed.

Lemma to_bytes_sealed c : read_u32 OFF_CHECKSUM (to_bytes c) = checksum (to_bytes c).
Proof.
  rewrite control_checksum_around. unfold to_bytes, seal, write_u32. rewrite control_checksum_around.
  apply (crc_sealed OFF_CHECKSUM).
  - apply fields_bytes, blank_bytes.
  - rewrite fields_block by apply length_replicate. unfold OFF_CHECKSUM, CONTROL_SIZE. lia.
Qed.

Lemma option_mark (page : option PageId) mark :
  (∀ p, page = Some p → (p < mark)%N) →
  let x := match page with Some p => p | None => mark end in
  (x ≤ mark)%N ∧ (if (x =? mark)%N then None else Some x) = page.
Proof.
  destruct page as [p|]; simpl; intros Hp.
  - specialize (Hp p eq_refl). split; [lia|]. by rewrite (proj2 (N.eqb_neq _ _)) by lia.
  - by rewrite N.eqb_refl.
Qed.

(** The fields of a block read back, under the seal. *)
Lemma fields_read c :
  control_fits c →
  let u64_at at_ := Z.to_N (read_u64 at_ (to_bytes c)) in
  slice OFF_MAGIC 8 (to_bytes c) = MAGIC ∧ read_u32 OFF_FORMAT_VERSION (to_bytes c) = CONTROL_FORMAT_VERSION ∧
  u64_at OFF_NEXT_PAGE_ID = next_page_id c ∧ u64_at OFF_FREE_HEAD = default NO_FREE_HEAD (free_head c) ∧
  u64_at OFF_NEXT_DB_ID = next_db_id c ∧ u64_at OFF_NEXT_TABLE_ID = next_table_id c ∧
  u64_at OFF_NEXT_INDEX_ID = next_index_id c ∧ u64_at OFF_NEXT_ROW_ID = next_row_id c ∧
  u64_at OFF_LATEST_CHECKPOINT_LSN = latest_checkpoint_lsn c ∧ u64_at OFF_DURABLE_LSN = durable_lsn c ∧
  u64_at OFF_META_ROOT = default NO_META_ROOT (meta_root c).
Proof.
  intros (H1 & H2 & H3 & H4 & H5 & H6 & H7 & Hf & Hm).
  apply option_mark in Hf as [Hf _], Hm as [Hm _].
  cbv zeta. unfold to_bytes, seal, fields, write_u32, write_u64, read_u32, read_u64, OFF_MAGIC, OFF_CHECKSUM, OFF_META_ROOT,
    OFF_DURABLE_LSN, OFF_LATEST_CHECKPOINT_LSN, OFF_NEXT_ROW_ID, OFF_NEXT_INDEX_ID, OFF_NEXT_TABLE_ID, OFF_NEXT_DB_ID,
    OFF_FREE_HEAD, OFF_NEXT_PAGE_ID, OFF_FORMAT_VERSION.
  generalize (checksum). intros sum.
  split_and!; [| |block_fields; apply N2Z.id..].
  - block_fields. apply slice_splice; [done|rewrite length_replicate; unfold CONTROL_SIZE; lia].
  - block_fields. rewrite block_read; [done|block_len|unfold CONTROL_SIZE; lia|]. unfold unsigned_fits, CONTROL_FORMAT_VERSION. lia.
Qed.

Lemma from_to_bytes c : control_fits c → from_bytes (to_bytes c) = Ok c.
Proof.
  intros Hc. destruct (fields_read c Hc) as (Hmagic & Hver & E1 & E2 & E3 & E4 & E5 & E6 & E7 & E8 & E9).
  destruct Hc as (_ & _ & _ & _ & _ & _ & _ & Hf & Hm). apply option_mark in Hf as [_ Hf], Hm as [_ Hm].
  unfold from_bytes. change (length MAGIC) with 8%nat.
  rewrite to_bytes_sealed, Z.eqb_refl, Hmagic, Hver, bool_decide_true by done. cbn [negb].
  rewrite Z.eqb_refl. cbn [negb]. cbv zeta. rewrite E1, E2, E3, E4, E5, E6, E7, E8, E9.
  change NO_FREE_HEAD with u64_max. change NO_META_ROOT with u64_max. simpl in Hf, Hm. unfold default, id.
  destruct c as [? [] ? ? ? ? ? ? []]; simpl in *; by rewrite ?Hf, ?Hm.
Qed.

(** ** What the checks of a block find *)

Lemma from_bytes_iff bytes :
  (∃ c, from_bytes bytes = Ok c) ↔
  slice OFF_MAGIC 8 bytes = MAGIC ∧ read_u32 OFF_FORMAT_VERSION bytes = CONTROL_FORMAT_VERSION ∧
  read_u32 OFF_CHECKSUM bytes = checksum bytes.
Proof.
  unfold from_bytes. change (length MAGIC) with 8%nat.
  case_bool_decide; cbn [negb]; [|naive_solver].
  destruct (Z.eqb_spec (read_u32 OFF_FORMAT_VERSION bytes) CONTROL_FORMAT_VERSION); cbn [negb]; [|naive_solver].
  destruct (Z.eqb_spec (read_u32 OFF_CHECKSUM bytes) (checksum bytes)); cbn [negb]; naive_solver.
Qed.

Lemma from_bytes_corruption bytes e : from_bytes bytes = Err e → ∃ m, e = Corruption m.
Proof. unfold from_bytes. intros H. repeat (case_match; [simplify_eq; by eexists|]). done. Qed.

Lemma control_change_detected c at_ new :
  Forall is_byte new → (at_ + length new ≤ CONTROL_SIZE)%nat → (length new ≤ 4)%nat →
  (at_ + length new ≤ OFF_CHECKSUM ∨ OFF_CHECKSUM + 4 ≤ at_ ∨
   (OFF_CHECKSUM ≤ at_ ∧ at_ + length new ≤ OFF_CHECKSUM + 4))%nat →
  splice at_ new (to_bytes c) ≠ to_bytes c → ∃ m, from_bytes (splice at_ new (to_bytes c)) = Err (Corruption m).
Proof.
  intros Hnew Hle H4 Hw Hne. destruct (to_bytes_block c) as [Hl Hb].
  destruct (from_bytes (splice at_ new (to_bytes c))) as [c'|e] eqn:Hq.
  2: { destruct (from_bytes_corruption _ _ Hq) as [m ->]. by eexists. }
  exfalso. apply Hne. pose proof (proj1 (from_bytes_iff _) (ex_intro _ _ Hq)) as (_ & _ & Hs).
  pose proof (to_bytes_sealed c) as Hs'. rewrite control_checksum_around in Hs, Hs'. rewrite <- Hl in Hle.
  assert (Hroom : (OFF_CHECKSUM + 4 ≤ length (to_bytes c))%nat) by (rewrite Hl; unfold OFF_CHECKSUM, CONTROL_SIZE; lia).
  exact (sealed_change OFF_CHECKSUM _ _ _ Hb Hnew Hroom Hle H4 Hs' Hs Hw).
Qed.

(** ** The file *)

Definition all_done : WriteCalls := mkWriteCalls Done Done Done Done Done Done Done.

Lemma write_done c d : (write all_done c d).1 = Ok ().
Proof.
  unfold write. generalize (to_bytes c). intros new. destruct (ctl d) as [old|]; [|done].
  unfold write_in_place, mbind, stateful_bind, call. cbn [all_done at_open at_write at_metadata at_set_len at_sync reported].
  by case_decide.
Qed.

(** A write that succeeds leaves the block at the path and the other files as they were. *)
Lemma write_Ok o c d d' :
  write o c d = (Ok (), d') →
  ctl d' = Some (to_bytes c) ∧ data_file d' = data_file d ∧ wal_file d' = wal_file d.
Proof.
  unfold write. destruct (to_bytes_block c) as [Hl _]. revert Hl. generalize (to_bytes c). intros new Hl.
  destruct (ctl d) as [old|].
  - unfold write_in_place, mbind, stateful_bind, call, reported.
    destruct (at_open o); [|done]. destruct (at_write o); cbn [written]; [|done].
    destruct (at_metadata o); [|done]. unfold over. rewrite length_app, length_drop, Hl.
    case_decide as Hd.
    + destruct (at_set_len o); [|done]. destruct (at_sync o); [|done]. intros [= <-]. split; [|done]. cbn [with_ctl ctl].
      unfold resized. rewrite take_app_le, take_ge by lia.
      rewrite length_app, Hl. replace (CONTROL_SIZE - _)%nat with 0%nat by lia. by rewrite app_nil_r.
    + destruct (at_sync o); [|done]. intros [= <-]. split; [|done]. cbn [with_ctl ctl].
      rewrite drop_ge by lia. by rewrite app_nil_r.
  - unfold create, mbind, stateful_bind, call, reported.
    destruct (at_open o), (at_write o), (at_sync o), (at_rename o), (at_sync_dir o); try done.
    by intros [= <-].
Qed.

(** Where no file is, a write leaves none or the whole one, whatever fails. *)
Lemma create_whole o c d :
  ctl d = None → ctl (snd (write o c d)) = None ∨ ctl (snd (write o c d)) = Some (to_bytes c).
Proof.
  intros Hd. unfold write. rewrite Hd. unfold create, mbind, stateful_bind, call, reported.
  destruct (at_open o), (at_write o), (at_sync o), (at_rename o), (at_sync_dir o); simpl; auto.
Qed.

(** Over a file of the right size, a write keeps the size, and its bytes are the first ones of
    the new block and the last ones of the old. *)
Lemma rewrite_mixed o c d old :
  ctl d = Some old → block old →
  ∃ n, (n ≤ CONTROL_SIZE)%nat ∧ ctl (snd (write o c d)) = Some (take n (to_bytes c) ++ drop n old).
Proof.
  intros Hd Ho. unfold write. rewrite Hd. destruct (to_bytes_block c) as [Hl _]. revert Hl. generalize (to_bytes c).
  intros new Hl.
  unfold write_in_place, mbind, stateful_bind, call, reported.
  assert (Hw : ∃ n, (n ≤ CONTROL_SIZE)%nat ∧
    over (written (at_write o) new) old = take n new ++ drop n old).
  { unfold over. destruct (at_write o) as [|n m]; cbn [written].
    - exists CONTROL_SIZE. by rewrite Hl, take_ge by (rewrite Hl; done).
    - exists (n `min` CONTROL_SIZE)%nat. split; [lia|]. rewrite length_take, Hl.
      destruct (decide (n ≤ CONTROL_SIZE)%nat); [by rewrite !Nat.min_l by lia|].
      rewrite !Nat.min_r by lia. by rewrite !take_ge by (rewrite Hl; lia). }
  destruct (at_open o); [|exists 0%nat; split; [unfold CONTROL_SIZE; lia|exact Hd]].
  destruct Hw as (n & Hn & Hw). rewrite Hw. exists n. split; [done|].
  assert (Hlen : length (take n new ++ drop n old) = CONTROL_SIZE)
    by (rewrite length_app, length_take, length_drop, Hl, Ho; lia).
  destruct (at_write o); [|done]. destruct (at_metadata o); [|done]. rewrite Hlen, decide_False by naive_solver.
  by destruct (at_sync o).
Qed.

Lemma read_written path o c d : control_fits c → ctl d = Some (to_bytes c) → read path Done o d = (Ok c, d).
Proof.
  intros Hc Hd. destruct (to_bytes_block c) as [Hl _]. unfold read. rewrite Hd.
  destruct (to_bytes c) as [|b bs] eqn:Hb; [done|]. rewrite decide_True, <- Hb by done. by rewrite from_to_bytes.
Qed.

Lemma default_fits : control_fits Control_default.
Proof. unfold control_fits, u64_max. simpl. split_and!; try lia; by intros. Qed.
