(* ===== verification/DataFile.v ===== *)
(** * The data file

    [vauban-storage/src/disk/file.rs]: an array of pages.  The file is the list of its pages,
    since its size is checked to be a multiple of [PAGE_SIZE] when it is opened and every access
    is to one page.  Reading the size or a page of an open file does not fail; what the system
    answers to a write or to a change of size is an argument. *)

From S2P Require Import Prelude Errors Bytes Crc Page Wal.

#[local] Open Scope Z_scope.

Record DataFile := mkDataFile { df_path : string; pages : list Page }.

(** The pages of a file of [count] times [PAGE_SIZE] bytes. *)
Fixpoint split_pages (count : nat) (bytes : list Z) : list Page :=
  match count with
  | O => []
  | S count => take PAGE_SIZE bytes :: split_pages count (drop PAGE_SIZE bytes)
  end.

(** [DataFile::create]: [create_new] refuses a path that names a file. *)
Definition create (path : string) (there : option (list Z)) : result InternalError DataFile :=
  match there with
  | Some _ => Err (Io [Lit "File exists (os error 17)"])
  | None => Ok (mkDataFile path [])
  end.

(** [DataFile::open] on a file of [bytes]. *)
Definition open (path : string) (bytes : list Z) : result InternalError DataFile :=
  let size := N.of_nat (length bytes) in
  if negb (size mod N.of_nat PAGE_SIZE =? 0)%N then
    Err (Corruption [Lit "data file "; Lit path; Lit " is "; Num size; Lit " bytes, not a multiple of ";
      Num (N.of_nat PAGE_SIZE)])
  else Ok (mkDataFile path (split_pages (N.to_nat (size / N.of_nat PAGE_SIZE)) bytes)).

Definition page_count (d : DataFile) : N := N.of_nat (length (pages d)).

(** [DataFile::extend_to]; [set_len] answers [o]. *)
Definition extend_to (count : N) (o : option Message) : stateful DataFile InternalError () := λ d,
  let current := page_count d in
  if (count <? current)%N then
    (Err (Bug [Lit "data file "; Lit (df_path d); Lit " holds "; Num current; Lit " pages, cannot extend it to ";
       Num count]), d)
  else if (u64_max <? count * N.of_nat PAGE_SIZE)%N then
    (Err (Bug [Num count; Lit " pages of "; Num (N.of_nat PAGE_SIZE); Lit " bytes overflow a u64"]), d)
  else
    match o with
    | Some m => (Err (Io m), d)
    | None =>
        (Ok (), mkDataFile (df_path d)
          (pages d ++ replicate (N.to_nat (count - current)) (replicate PAGE_SIZE 0)))
    end.

(** [DataFile::read_page]. *)
Definition read_page (id : PageId) (d : DataFile) : result InternalError Page :=
  match pages d !! N.to_nat id with
  | None =>
      Err (Corruption [Lit "page "; Num id; Lit " is past the end of data file "; Lit (df_path d);
        Lit ", which holds "; Num (page_count d); Lit " pages"])
  | Some bytes => from_bytes bytes
  end.

(** [DataFile::write_page]; a write that fails may have put the first bytes. *)
Definition write_page (id : PageId) (page : Page) (o : WriteOutcome) : stateful DataFile InternalError () := λ d,
  match pages d !! N.to_nat id with
  | None =>
      (Err (Bug [Lit "page "; Num id; Lit " is past the end of data file "; Lit (df_path d);
         Lit ", which holds "; Num (page_count d); Lit " pages; the allocator grows the file first"]), d)
  | Some old =>
      let put bytes := mkDataFile (df_path d) (<[N.to_nat id := splice 0 bytes old]> (pages d)) in
      match o with
      | Written => (Ok (), put page)
      | WriteFailed n m => (Err (Io m), put (take n page))
      end
  end.

(** ** Facts *)

Lemma splice_whole {A} (new old : list A) : length new = length old → splice 0 new old = new.
Proof. intros Hl. unfold splice. rewrite take_0, drop_ge by lia. by rewrite app_nil_r. Qed.

(** The pages of a file are pages. *)
Definition file_ok (d : DataFile) : Prop := Forall page_ok (pages d).

Lemma read_page_Ok id d p : read_page id d = Ok p → pages d !! N.to_nat id = Some p ∧ from_bytes p = Ok p.
Proof.
  unfold read_page. destruct (pages d !! N.to_nat id) as [q|]; [|done]. intros Hq.
  assert (q = p) as -> by (unfold from_bytes in Hq; destruct (verify q); simplify_eq/=; done). done.
Qed.

Lemma read_page_corruption id d e : read_page id d = Err e → ∃ m, e = Corruption m.
Proof.
  unfold read_page. destruct (pages d !! N.to_nat id) as [q|]; [|intros [= <-]; by eexists].
  unfold from_bytes. destruct (verify q) as [|e'] eqn:Hv; [done|]. intros [= <-]. by apply verify_corruption in Hv.
Qed.

Lemma write_page_file id page o d :
  file_ok d → page_ok page → file_ok (write_page id page o d).2 ∧ page_count (write_page id page o d).2 = page_count d.
Proof.
  intros Hd [Hl Hb]. unfold write_page. destruct (pages d !! N.to_nat id) as [old|] eqn:Hold; [|done].
  destruct (proj1 (Forall_lookup _ _) Hd _ _ Hold) as [Hl' Hb'].
  assert (Hs : ∀ bytes, (length bytes ≤ PAGE_SIZE)%nat → Forall is_byte bytes → page_ok (splice 0 bytes old)).
  { intros bytes Hle Hby. split; [rewrite length_splice; lia|by apply splice_Forall]. }
  unfold file_ok, page_count. destruct o as [|n m]; cbn [snd pages]; rewrite length_insert; split; try done;
    (apply Forall_insert; [done|apply Hs]).
  - by rewrite Hl.
  - done.
  - rewrite length_take. lia.
  - by apply Forall_take.
Qed.

Lemma write_page_read id page o d d' :
  write_page id page o d = (Ok (), d') → file_ok d → page_ok page →
  o = Written ∧ pages d' = <[N.to_nat id := page]> (pages d) ∧ (id < page_count d)%N.
Proof.
  unfold write_page. destruct (pages d !! N.to_nat id) as [old|] eqn:Hold; [|done]. destruct o; [|done].
  intros [= <-] Hd [Hl _]. destruct (proj1 (Forall_lookup _ _) Hd _ _ Hold) as [Hl' _].
  split_and!; [done| |]; cbn [pages]; [by rewrite splice_whole by lia|].
  apply lookup_lt_Some in Hold. unfold page_count. lia.
Qed.

Lemma write_page_other id id' page o d : id ≠ id' → read_page id' (write_page id page o d).2 = read_page id' d.
Proof.
  intros Hne. unfold write_page, read_page. destruct (pages d !! N.to_nat id) as [old|] eqn:Hold; [|done].
  assert (Hp : ∀ x, (<[N.to_nat id := x]> (pages d)) !! N.to_nat id' = pages d !! N.to_nat id').
  { intros x. apply list_lookup_insert_ne. lia. }
  destruct o; cbn [snd pages df_path]; rewrite Hp; destruct (pages d !! N.to_nat id'); try done;
    unfold page_count; cbn [pages]; by rewrite length_insert.
Qed.

(** ** A file opened *)

Lemma split_pages_ok count bytes :
  Forall is_byte bytes → length bytes = (count * PAGE_SIZE)%nat → Forall page_ok (split_pages count bytes).
Proof.
  revert bytes. induction count as [|count IH]; intros bytes Hb Hl; [constructor|]. cbn [split_pages]. constructor.
  - split; [rewrite length_take; lia|by apply Forall_take].
  - apply IH; [by apply Forall_drop|rewrite length_drop; lia].
Qed.

Lemma open_ok path bytes d : Forall is_byte bytes → open path bytes = Ok d → file_ok d.
Proof.
  intros Hb. unfold open. pose proof PAGE_SIZE_Z as HP.
  destruct (N.eqb_spec (N.of_nat (length bytes) mod N.of_nat PAGE_SIZE) 0) as [Hm|]; [|done].
  intros [= <-]. apply split_pages_ok; [done|].
  pose proof (N.div_mod (N.of_nat (length bytes)) (N.of_nat PAGE_SIZE) ltac:(lia)). lia.
Qed.

(** Opening finds the pages one after the other. *)
Lemma split_concat ps : Forall (λ p, length p = PAGE_SIZE) ps → split_pages (length ps) (concat ps) = ps.
Proof.
  induction 1 as [|p ps Hp _ IH]; [done|]. cbn [length split_pages concat].
  rewrite take_app_length' by done. rewrite drop_app_length' by done. by rewrite IH.
Qed.

Lemma open_concat path ps : Forall (λ p, length p = PAGE_SIZE) ps → open path (concat ps) = Ok (mkDataFile path ps).
Proof.
  intros Hps. pose proof PAGE_SIZE_Z.
  assert (Hl : length (concat ps) = (length ps * PAGE_SIZE)%nat).
  { clear -Hps. induction Hps as [|p ps Hp _ IH]; [done|]. cbn [concat length]. rewrite length_app, IH, Hp. lia. }
  unfold open. rewrite Hl, Nat2N.inj_mul, N.Div0.mod_mul, N.div_mul by lia. cbn [N.eqb negb].
  by rewrite Nat2N.id, split_concat.
Qed.
