(* ===== verification/BufferPool.v ===== *)
(** * The buffer pool

    [vauban-storage/src/disk/buffer.rs]: frames that hold pages of the data file, pinned by
    threads, evicted by a clock and written back under the no-steal and the write-ahead rules.
    The pool is what its lock protects, with the data file; the durable LSN, which the pool reads
    from the journal at each decision, and the outcome of each write are arguments.  A call of
    [with_page_mut] is the turns of its thread between which it waits in the condition variable
    ([change_turn]).  A panic while the lock is held is not modelled, so the lock is not
    poisoned. *)

From S2P Require Import Prelude Errors Bytes Crc Page Wal DataFile.

Notation ThreadId := N (only parsing).

(** ** Frames *)

Record Frame := mkFrame {
  f_id : PageId;
  f_page : Page;
  f_pins : N;
  f_holders : list (ThreadId * N);
  f_dirty : bool;
  f_in_progress : bool;
  f_referenced : bool;
}.

(** [Frame::loaded]. *)
Definition loaded (id : PageId) (page : Page) (owner : ThreadId) : Frame :=
  mkFrame id page 1 [(owner, 1%N)] false false true.

(** [u32::saturating_add(1)]; [saturating_sub(1)] is [N.pred]. *)
Definition u32_succ (n : N) : N := N.min (n + 1) u32_max.

Definition with_pins (pins : N) (holders : list (ThreadId * N)) (f : Frame) : Frame :=
  mkFrame (f_id f) (f_page f) pins holders (f_dirty f) (f_in_progress f) (f_referenced f).
Definition with_page_bytes (page : Page) (f : Frame) : Frame :=
  mkFrame (f_id f) page (f_pins f) (f_holders f) (f_dirty f) (f_in_progress f) (f_referenced f).
Definition with_dirty (dirty : bool) (f : Frame) : Frame :=
  mkFrame (f_id f) (f_page f) (f_pins f) (f_holders f) dirty (f_in_progress f) (f_referenced f).
Definition with_in_progress (b : bool) (f : Frame) : Frame :=
  mkFrame (f_id f) (f_page f) (f_pins f) (f_holders f) (f_dirty f) b (f_referenced f).
Definition with_referenced (b : bool) (f : Frame) : Frame :=
  mkFrame (f_id f) (f_page f) (f_pins f) (f_holders f) (f_dirty f) (f_in_progress f) b.

Fixpoint add_holder (owner : ThreadId) (holders : list (ThreadId * N)) : list (ThreadId * N) :=
  match holders with
  | [] => [(owner, 1%N)]
  | (thread, count) :: holders =>
      if (thread =? owner)%N then (thread, u32_succ count) :: holders
      else (thread, count) :: add_holder owner holders
  end.

Definition add_pin (owner : ThreadId) (f : Frame) : Frame :=
  with_pins (u32_succ (f_pins f)) (add_holder owner (f_holders f)) f.

(** [Vec::swap_remove] of an index in range. *)
Definition swap_remove {A} (at_ : nat) (l : list A) : list A :=
  match last l with
  | None => []
  | Some x => take (length l - 1) (<[at_ := x]> l)
  end.

Definition remove_pin (owner : ThreadId) (f : Frame) : Frame :=
  let holders :=
    match list_find (λ h : ThreadId * N, h.1 = owner) (f_holders f) with
    | None => f_holders f
    | Some (at_, (thread, count)) =>
        let count := N.pred count in
        if (count =? 0)%N then swap_remove at_ (f_holders f) else <[at_ := (thread, count)]> (f_holders f)
    end in
  with_pins (N.pred (f_pins f)) holders f.

Definition pins_of (owner : ThreadId) (f : Frame) : N :=
  match list_find (λ h : ThreadId * N, h.1 = owner) (f_holders f) with
  | Some (_, (_, count)) => count
  | None => 0
  end.

(** ** The pool *)

Record Inner := mkInner {
  frames : list Frame;
  by_page : gmap PageId nat;
  hand : nat;
  waiting : list ThreadId;
}.

Record BufferPool := mkBufferPool { file : DataFile; capacity : nat; inner : Inner }.

Definition with_inner (i : Inner) (p : BufferPool) : BufferPool := mkBufferPool (file p) (capacity p) i.
Definition with_data (d : DataFile) (p : BufferPool) : BufferPool := mkBufferPool d (capacity p) (inner p).
Definition with_frames (fs : list Frame) (i : Inner) : Inner := mkInner fs (by_page i) (hand i) (waiting i).
Definition with_hand (h : nat) (i : Inner) : Inner := mkInner (frames i) (by_page i) h (waiting i).
Definition with_waiting (w : list ThreadId) (i : Inner) : Inner := mkInner (frames i) (by_page i) (hand i) w.
Definition set_frame (slot : nat) (f : Frame) (i : Inner) : Inner := with_frames (<[slot := f]> (frames i)) i.

Definition validate_buffer_pages (buffer_pages : nat) : result InternalError () :=
  if (buffer_pages =? 0)%nat then
    Err (Bug [Lit "buffer pool asked for 0 frames; buffer_pages is at least 1, the default is 1024"])
  else Ok ().

(** [BufferPool::with_durable_lsn]. *)
Definition with_durable_lsn (d : DataFile) (buffer_pages : nat) : result InternalError BufferPool :=
  _ ← validate_buffer_pages buffer_pages;
  Ok (mkBufferPool d buffer_pages (mkInner [] ∅ 0 [])).

(** [Inner::frame] and [Inner::frame_mut]. *)
Definition frame (slot : nat) (i : Inner) : result InternalError Frame :=
  match frames i !! slot with
  | Some f => Ok f
  | None => Err (Bug [Lit "buffer pool asked for frame "; Num (N.of_nat slot); Lit " while it holds ";
      Num (N.of_nat (length (frames i)))])
  end.

Definition writable (page_lsn durable : Lsn) : bool := (page_lsn =? 0)%N || (page_lsn <=? durable)%N.

(** ** Writing back *)

Definition write_if_needed (slot : nat) (durable : Lsn) (o : WriteOutcome) : stateful BufferPool InternalError bool := λ p,
  match frame slot (inner p) with
  | Err e => (Err e, p)
  | Ok f =>
      if negb (f_dirty f) || f_in_progress f then (Ok false, p)
      else
        let page_lsn := lsn (f_page f) in
        if negb (writable page_lsn durable) then
          (Err (Bug [Lit "page "; Num (f_id f); Lit " carries LSN "; Num page_lsn;
             Lit " and the journal is durable up to "; Num durable;
             Lit "; writing the page would put it ahead of the log"]), p)
        else
          let f := with_page_bytes (seal (f_page f)) f in
          let p := with_inner (set_frame slot f (inner p)) p in
          match write_page (f_id f) (f_page f) o (file p) with
          | (Err e, d) => (Err e, with_data d p)
          | (Ok _, d) => (Ok true, with_data d (with_inner (set_frame slot (with_dirty false f) (inner p)) p))
          end
  end.

(** ** The clock *)

(** The frames the clock passes over for good. *)
Definition kept (durable : Lsn) (f : Frame) : bool :=
  (0 <? f_pins f)%N || (f_dirty f && (f_in_progress f || negb (writable (lsn (f_page f)) durable))).

(** The loop of [choose_victim], [turns] times at most; [None] when it finds no frame. *)
Fixpoint clock (turns : nat) (durable : Lsn) (i : Inner) : result InternalError (option nat) * Inner :=
  match turns with
  | O => (Ok None, i)
  | S turns =>
      let slot := hand i in
      let i := with_hand ((slot + 1) mod length (frames i)) i in
      match frame slot i with
      | Err e => (Err e, i)
      | Ok f =>
          if kept durable f then clock turns durable i
          else if f_referenced f then clock turns durable (set_frame slot (with_referenced false f) i)
          else (Ok (Some slot), i)
      end
  end.

Definition count_frames (test : Frame → bool) (i : Inner) : N := N.of_nat (length (List.filter test (frames i))).

Definition choose_victim (durable : Lsn) (wanted : PageId) : stateful Inner InternalError nat := λ i,
  match clock (2 * length (frames i)) durable i with
  | (Err e, i) => (Err e, i)
  | (Ok (Some slot), i) => (Ok slot, i)
  | (Ok None, i) =>
      let pinned := count_frames (λ f, (0 <? f_pins f)%N) i in
      let running := count_frames (λ f, (f_pins f =? 0)%N && f_dirty f && f_in_progress f) i in
      let ahead := count_frames (λ f, (f_pins f =? 0)%N && f_dirty f && negb (f_in_progress f) &&
        negb (writable (lsn (f_page f)) durable)) i in
      (Err (Bug [Lit "buffer pool of "; Num (N.of_nat (length (frames i))); Lit " frames is exhausted: page ";
         Num wanted; Lit " needs one and no frame may be freed (pinned: "; Num pinned;
         Lit ", dirty and in progress: "; Num running; Lit ", dirty and ahead of the durable LSN: "; Num ahead;
         Lit ")"]), i)
  end.

(** ** Pins *)

(** [BufferPool::pin] by the thread [owner]; [d1] and [d2] are the durable LSN the choice of the
    victim and its write read. *)
Definition pin (id : PageId) (owner : ThreadId) (d1 d2 : Lsn) (o : WriteOutcome) :
    stateful BufferPool InternalError () := λ p,
  match by_page (inner p) !! id with
  | Some slot =>
      match frame slot (inner p) with
      | Err e => (Err e, p)
      | Ok f => (Ok (), with_inner (set_frame slot (with_referenced true (add_pin owner f)) (inner p)) p)
      end
  | None =>
      match read_page id (file p) with
      | Err e => (Err e, p)
      | Ok page =>
          if negb (page_id page =? id)%N then
            (Err (Corruption [Lit "page at position "; Num id; Lit " of data file "; Lit (df_path (file p));
               Lit " carries identifier "; Num (page_id page)]), p)
          else if (length (frames (inner p)) <? capacity p)%nat then
            let i := inner p in
            (Ok (), with_inner (mkInner (frames i ++ [loaded id page owner])
               (<[id := length (frames i)]> (by_page i)) (hand i) (waiting i)) p)
          else
            match choose_victim d1 id (inner p) with
            | (Err e, i) => (Err e, with_inner i p)
            | (Ok victim, i) =>
                match write_if_needed victim d2 o (with_inner i p) with
                | (Err e, p) => (Err e, p)
                | (Ok _, p) =>
                    match frame victim (inner p) with
                    | Err e => (Err e, p)
                    | Ok evicted =>
                        let i := set_frame victim (loaded id page owner) (inner p) in
                        (Ok (), with_inner (mkInner (frames i)
                           (<[id := victim]> (delete (f_id evicted) (by_page i))) (hand i) (waiting i)) p)
                    end
                end
            end
      end
  end.

(** The drop of a [PinGuard] of [owner] on [id]. *)
Definition unpin (id : PageId) (owner : ThreadId) (p : BufferPool) : BufferPool :=
  match by_page (inner p) !! id with
  | None => p
  | Some slot =>
      match frame slot (inner p) with
      | Err _ => p
      | Ok f => with_inner (set_frame slot (remove_pin owner f) (inner p)) p
      end
  end.

(** ** The state of a page *)

Definition mark_dirty (id : PageId) (rec_lsn : Lsn) : stateful BufferPool InternalError () := λ p,
  match by_page (inner p) !! id with
  | None => (Err (Bug [Lit "page "; Num id; Lit " is not in the buffer pool; mark_dirty needs it pinned"]), p)
  | Some slot =>
      match frame slot (inner p) with
      | Err e => (Err e, p)
      | Ok f =>
          if (f_pins f =? 0)%N then
            (Err (Bug [Lit "page "; Num id; Lit " is in the buffer pool but not pinned; mark_dirty needs a pin"]), p)
          else
            let f := with_dirty true f in
            let f := if (lsn (f_page f) <? rec_lsn)%N then with_page_bytes (set_lsn rec_lsn (f_page f)) f else f in
            (Ok (), with_inner (set_frame slot f (inner p)) p)
      end
  end.

Definition set_in_progress (id : PageId) (in_progress : bool) : stateful BufferPool InternalError () := λ p,
  match by_page (inner p) !! id with
  | Some slot =>
      match frame slot (inner p) with
      | Err e => (Err e, p)
      | Ok f => (Ok (), with_inner (set_frame slot (with_in_progress in_progress f) (inner p)) p)
      end
  | None =>
      if negb in_progress then (Ok (), p)
      else (Err (Bug [Lit "page "; Num id; Lit " is not in the buffer pool; set_in_progress(true) needs it pinned"]), p)
  end.

Definition flush (id : PageId) (durable : Lsn) (o : WriteOutcome) : stateful BufferPool InternalError () := λ p,
  match by_page (inner p) !! id with
  | None => (Ok (), p)
  | Some slot => (_ ← write_if_needed slot durable o; mret ()) p
  end.

(** [BufferPool::flush_all]: the durable LSN and the outcome of the write of each frame. *)
Definition flush_all (durable : nat → Lsn) (o : nat → WriteOutcome) : stateful BufferPool InternalError () := λ p,
  for_each (λ slot, _ ← write_if_needed slot (durable slot) (o slot); mret ()) (seq 0 (length (frames (inner p)))) p.

(** ** Reading and changing a pinned page *)

(** [PinGuard::slot]. *)
Definition slot_of (id : PageId) (i : Inner) : result InternalError nat :=
  match by_page i !! id with
  | Some slot => Ok slot
  | None => Err (Bug [Lit "page "; Num id; Lit " is pinned but the buffer pool no longer holds it"])
  end.

Definition with_page {R} (id : PageId) (read : Page → R) (p : BufferPool) : result InternalError R :=
  slot ← slot_of id (inner p);
  f ← frame slot (inner p);
  Ok (read (f_page f)).

Definition stop_waiting (owner : ThreadId) (registered : bool) (i : Inner) : Inner :=
  if registered then with_waiting (List.filter (λ thread, negb (thread =? owner)%N) (waiting i)) i else i.

(** The pins a change waits for. *)
Definition others (owner : ThreadId) (i : Inner) (f : Frame) : N :=
  foldr N.add 0%N (snd <$> List.filter (λ h : ThreadId * N,
    negb (h.1 =? owner)%N && negb (bool_decide (h.1 ∈ waiting i))) (f_holders f)).

Inductive Turn := Changed | Refused (e : InternalError) | Waits (notifies : bool).

(** One turn of the loop of [with_page_mut], under the lock: the change is made, refused, or the
    thread waits, registered, having notified the others when it was not registered before. *)
Definition change_turn (id : PageId) (owner : ThreadId) (registered : bool) (change : Page → Page) (p : BufferPool) :
    Turn * BufferPool :=
  match (slot ← slot_of id (inner p); f ← frame slot (inner p); Ok (slot, f)) with
  | Err e => (Refused e, with_inner (stop_waiting owner registered (inner p)) p)
  | Ok (slot, f) =>
      let mine := pins_of owner f in
      if (1 <? mine)%N then
        (Refused (Bug [Lit "page "; Num id; Lit " carries "; Num mine;
           Lit " pins of the calling thread; changing it asks for one pin of that thread, since the others would not be released while it waits"]),
         with_inner (stop_waiting owner registered (inner p)) p)
      else if (others owner (inner p) f =? 0)%N then
        (Changed, with_inner (set_frame slot (with_page_bytes (change (f_page f)) f)
           (stop_waiting owner registered (inner p))) p)
      else if registered then (Waits false, p)
      else (Waits true, with_inner (with_waiting (waiting (inner p) ++ [owner]) (inner p)) p)
  end.
