(* ===== verification/Disk.v ===== *)
(** * The instance on disk

    The part of [DiskStorage] ([vauban-storage/src/disk/mod.rs]) that the allocator, the page
    sets and the heaps work on: the control block with the directory of the instance, the buffer
    pool with the data file, and the journal.

    An operation is run by one thread, [me], from its start to its end.  It takes the answers of
    the system from a list, one for each call that may reach the system, and finds it willing
    when the list is empty.  It answers, fails, or does not return ([Hangs]): [with_page_mut]
    waits for the pins of other threads, and a walk over a chain of pages that comes back on
    itself goes round.  The locks are free and not poisoned. *)

From S2P Require Import Control Prelude Errors Bytes Page Wal PageWrite DataFile BufferPool.

Inductive Stop := Fails (e : InternalError) | Hangs.

Record DiskStorage := mkDiskStorage {
  dir : string;
  control : Control;
  files : Dir;
  pool : BufferPool;
  wal : Wal;
  answers : list Outcome;
}.

Notation disk := (stateful DiskStorage Stop).

Definition with_control (c : Control) (s : DiskStorage) : DiskStorage :=
  mkDiskStorage (dir s) c (files s) (pool s) (wal s) (answers s).
Definition with_files (d : Dir) (s : DiskStorage) : DiskStorage :=
  mkDiskStorage (dir s) (control s) d (pool s) (wal s) (answers s).
Definition with_pool (p : BufferPool) (s : DiskStorage) : DiskStorage :=
  mkDiskStorage (dir s) (control s) (files s) p (wal s) (answers s).
Definition with_wal (w : Wal) (s : DiskStorage) : DiskStorage :=
  mkDiskStorage (dir s) (control s) (files s) (pool s) w (answers s).
Definition with_answers (l : list Outcome) (s : DiskStorage) : DiskStorage :=
  mkDiskStorage (dir s) (control s) (files s) (pool s) (wal s) l.

(** [self.data]: the file of the pool. *)
Definition data (s : DiskStorage) : DataFile := file (pool s).

(** ** The system *)

(** What the next call of the system answers. *)
Definition answer : disk Outcome := λ s,
  match answers s with
  | [] => (Ok Done, s)
  | o :: l => (Ok o, with_answers l s)
  end.

Definition to_write (o : Outcome) : WriteOutcome :=
  match o with Done => Written | Failed n m => WriteFailed n m end.
Definition to_sync (o : Outcome) : SyncOutcome :=
  match o with Done => Synced | Failed _ m => SyncFailed m end.
Definition to_message (o : Outcome) : option Message :=
  match o with Done => None | Failed _ m => Some m end.

Definition fail {A} (e : InternalError) : disk A := fails (Fails e).
Definition lift {A} (r : result InternalError A) : disk A :=
  match r with Ok a => mret a | Err e => fail e end.

Definition on_pool {A} (m : stateful BufferPool InternalError A) : disk A := λ s,
  match m (pool s) with
  | (Ok a, p) => (Ok a, with_pool p s)
  | (Err e, p) => (Err (Fails e), with_pool p s)
  end.
Definition on_data {A} (m : stateful DataFile InternalError A) : disk A := λ s,
  match m (data s) with
  | (Ok a, d) => (Ok a, with_pool (with_data d (pool s)) s)
  | (Err e, d) => (Err (Fails e), with_pool (with_data d (pool s)) s)
  end.
Definition on_wal {A} (m : stateful Wal InternalError A) : disk A := λ s,
  match m (wal s) with
  | (Ok a, w) => (Ok a, with_wal w s)
  | (Err e, w) => (Err (Fails e), with_wal w s)
  end.

Definition on_files {A} (m : stateful Dir InternalError A) : disk A := λ s,
  match m (files s) with
  | (Ok a, d) => (Ok a, with_files d s)
  | (Err e, d) => (Err (Fails e), with_files d s)
  end.

(** ** The journal *)

Definition wal_flush : disk () := o ← answer; on_wal (Wal.flush (to_sync o)).
Definition wal_append (kind : WalRecordKind.t) (txn : TxnId) (payload : list Z) : disk Lsn :=
  o ← answer; on_wal (append kind txn payload (to_write o)).
Definition wal_last_lsn : disk Lsn := λ s, (Ok (last_lsn (wal s)), s).
Definition wal_durable_lsn : disk Lsn := λ s, (Ok (Wal.durable_lsn (wal s)), s).

(** ** The control block *)

Definition get_dir : disk string := λ s, (Ok (dir s), s).
Definition get_control : disk Control := λ s, (Ok (control s), s).

(** [updated.write(&storage.control_path())?], then [*control = updated]. *)
Definition write_control (updated : Control) : disk () :=
  o1 ← answer; o2 ← answer; o3 ← answer; o4 ← answer; o5 ← answer; o6 ← answer; o7 ← answer;
  _ ← on_files (Control.write (mkWriteCalls o1 o2 o3 o4 o5 o6 o7) updated);
  modifies (with_control updated).

(** ** The data file *)

Definition data_page_count : disk N := λ s, (Ok (page_count (data s)), s).
Definition data_extend_to (count : N) : disk () := o ← answer; on_data (extend_to count (to_message o)).
Definition data_write_page (id : PageId) (page : Page) : disk () :=
  o ← answer; on_data (write_page id page (to_write o)).

(** The turns a walk over the pages of the file needs at most. *)
Definition walk_turns : disk nat := n ← data_page_count; mret (S (N.to_nat n)).

(** ** Pins *)

Section thread.
Context (me : ThreadId).

Definition pool_pin (id : PageId) : disk () :=
  o ← answer;
  durable ← wal_durable_lsn;
  on_pool (pin id me durable durable (to_write o)).

Definition pool_flush (id : PageId) : disk () :=
  o ← answer;
  durable ← wal_durable_lsn;
  on_pool (BufferPool.flush id durable (to_write o)).

(** The life of a [PinGuard] on [id]: it is dropped when [body] ends, an early return included. *)
Definition then_unpin {A} (id : PageId) (body : disk A) : disk A := λ s,
  let '(r, s) := body s in (r, with_pool (unpin id me (pool s)) s).
Definition pinned_for {A} (id : PageId) (body : disk A) : disk A := _ ← pool_pin id; then_unpin id body.

(** [PinGuard::with_page]. *)
Definition read_pinned {R} (id : PageId) (read : Page → R) : disk R := λ s, lift (with_page id read (pool s)) s.

(** [PinGuard::with_page_mut]: the turn that changes the page, or a wait. *)
Definition with_page_mut {R} (id : PageId) (change : Page → R * Page) : disk R := λ s,
  match change_turn id me false (λ page, (change page).2) (pool s) with
  | (Changed, p) =>
      match with_page id (λ page, (change page).1) (pool s) with
      | Ok r => (Ok r, with_pool p s)
      | Err e => (Err (Fails e), with_pool p s)
      end
  | (Refused e, p) => (Err (Fails e), with_pool p s)
  | (Waits _, p) => (Err Hangs, with_pool p s)
  end.

(** A change that answers nothing. *)
Definition changing (change : Page → Page) (page : Page) : () * Page := ((), change page).

Definition pool_mark_dirty (id : PageId) (rec_lsn : Lsn) : disk () := on_pool (mark_dirty id rec_lsn).
Definition pool_set_in_progress (id : PageId) (b : bool) : disk () := on_pool (set_in_progress id b).

(** [if lsn > page.lsn() { page.set_lsn(lsn) }]. *)
Definition raise_lsn (l : Lsn) (page : Page) : Page := if (lsn page <? l)%N then set_lsn l page else page.
End thread.

(** * Page sets

    [PageSet] of [vauban-storage/src/disk/wal.rs]: the pages one change writes, held as copies
    until the change is complete, then logged in one record and put in the pool. *)

Record Staged := mkStaged { st_id : PageId; st_before : Page; st_after : Page }.

Record PageSet := mkPageSet { logged : bool; staged : list Staged; root : option RootMove }.

(** [PageSet::new]. *)
Definition PageSet_new (logged : bool) : PageSet := mkPageSet logged [] None.

Definition with_staged (l : list Staged) (set : PageSet) : PageSet := mkPageSet (logged set) l (root set).

Definition note_root (moved : RootMove) (set : PageSet) : PageSet := mkPageSet (logged set) (staged set) (Some moved).

Section thread.
Context (me : ThreadId).

(** [PageSet::read]. *)
Definition set_read {R} (set : PageSet) (id : PageId) (read : Page → R) : disk R :=
  match List.find (λ st, (st_id st =? id)%N) (staged set) with
  | Some st => mret (read (st_after st))
  | None => pinned_for me id (read_pinned id read)
  end.

(** [PageSet::write]. *)
Definition set_write {R} (set : PageSet) (id : PageId) (change : Page → R * Page) : disk (R * PageSet) :=
  match list_find (λ st, st_id st = id) (staged set) with
  | Some (at_, st) =>
      let '(r, after) := change (st_after st) in
      mret (r, with_staged (<[at_ := mkStaged (st_id st) (st_before st) after]> (staged set)) set)
  | None =>
      before ← pinned_for me id (read_pinned id (λ page, page));
      let '(r, after) := change before in
      mret (r, with_staged (staged set ++ [mkStaged id before after]) set)
  end.

(** [deltas.sort_by_key(|delta| !delta.whole)], which is stable. *)
Definition whole_first (deltas : list PageDelta) : list PageDelta :=
  List.filter d_whole deltas ++ List.filter (λ d, negb (d_whole d)) deltas.

Definition deltas_of (set : PageSet) : list PageDelta :=
  omap (λ st, staged_delta (st_id st) (st_before st) (st_after st)) (staged set).

(** The head of [install]: the pages are touched, then the record is appended.  Answers the deltas
    in the order they are put in the pool, the number of the record, and the one the pages take. *)
Definition log_deltas (set : PageSet) (behind : option Lsn) : disk (list PageDelta * option Lsn * Lsn) :=
  let deltas := deltas_of set in
  _ ← for_each (λ d, pinned_for me (d_page d) (with_page_mut me (d_page d) (changing (λ page, page)))) deltas;
  let deltas := whole_first deltas in
  lsn ← (if logged set
         then l ← wal_append WalRecordKind.PageWrite 0 (encode_page_write (mkPageWrite deltas (root set))); mret (Some l)
         else mret None);
  mret (deltas, lsn, match behind, lsn with Some l, _ => l | None, Some l => l | None, None => 0%N end).

(** The body of the loop of [install]. *)
Definition put_delta (page_lsn : Lsn) (on_page : PageId → disk ()) (d : PageDelta) : disk () :=
  pinned_for me (d_page d) (
    _ ← with_page_mut me (d_page d) (changing (λ page, install_page page d page_lsn));
    _ ← pool_mark_dirty (d_page d) page_lsn;
    on_page (d_page d)).

Definition install (set : PageSet) (behind : option Lsn) (on_page : PageId → disk ()) : disk (option Lsn) :=
  if bool_decide (deltas_of set = []) then mret None
  else
    r ← log_deltas set behind;
    let '(deltas, lsn, page_lsn) := r in
    _ ← for_each (put_delta page_lsn on_page) deltas;
    mret lsn.

Definition commit (set : PageSet) (on_page : PageId → disk ()) : disk (option Lsn) := install set None on_page.
Definition commit_behind (set : PageSet) (behind : Lsn) (on_page : PageId → disk ()) : disk (option Lsn) :=
  install set (Some behind) on_page.
End thread.
