(* ===== verification/BufferFacts.v ===== *)
(** * The buffer pool shows the pages of the file

    [view] is the page a caller sees at an identifier, in a frame or in the file.  The pool keeps
    its index, its frames and the file in agreement ([pool_ok]); a write back, an eviction and
    the clock leave the view as it is. *)

From S2P Require Import Prelude Errors Bytes Crc Page Wal PageWrite PageWriteFacts DataFile BufferPool.

#[local] Open Scope Z_scope.

(** ** Pages that read back *)

Definition page_good (id : PageId) (p : Page) : Prop :=
  page_ok p ∧ header_good (header_of p) ∧ page_id p = id.

Lemma seal_seal p : length p = PAGE_SIZE → seal (seal p) = seal p.
Proof. intros Hp. apply seal_same, seal_but_checksum. done. Qed.

Lemma seal_verified p : page_ok p → from_bytes p = Ok p → seal p = p.
Proof.
  intros Hp Hv. unfold from_bytes in Hv. destruct (verify p) as [[]|] eqn:Hc; [|done].
  apply verify_iff in Hc as [_ Hc]. pose proof (checksum_room p Hp) as Hr. destruct Hp as [Hl Hb].
  unfold seal, write_u32. rewrite <- Hc. unfold checksum_field, read_u32.
  assert (Hs : length (slice OFF_CHECKSUM 4 p) = 4%nat) by (by apply length_slice).
  rewrite <- Hs at 1. rewrite to_from_le_bytes by (by apply slice_Forall).
  unfold splice. rewrite Hs. rewrite <- Hs at 2. symmetry. rewrite Hs.
  rewrite <- (take_drop OFF_CHECKSUM p) at 1. f_equal.
  rewrite <- (take_drop 4 (drop OFF_CHECKSUM p)) at 1. by rewrite drop_drop.
Qed.

Lemma seal_good id p : page_good id p → page_good id (seal p) ∧ from_bytes (seal p) = Ok (seal p).
Proof.
  intros (Hp & Hh & Hid). pose proof (seal_header p Hp) as Hs. split; [split_and!|].
  - by apply seal_ok.
  - by rewrite Hs.
  - pose proof (f_equal h_page_id Hs) as He. cbn [header_of h_page_id with_checksum] in He. congruence.
  - by apply seal_verify.
Qed.

Lemma page_lsn_seal p : page_ok p → lsn (seal p) = lsn p.
Proof. intros Hp. pose proof (f_equal h_lsn (seal_header p Hp)) as He. by cbn [header_of h_lsn with_checksum] in He. Qed.

(** ** The view and the invariant *)

Definition view (p : BufferPool) (id : PageId) : option Page :=
  match by_page (inner p) !! id with
  | Some slot => (λ f, seal (f_page f)) <$> frames (inner p) !! slot
  | None =>
      match read_page id (file p) with
      | Ok page => if (page_id page =? id)%N then Some page else None
      | Err _ => None
      end
  end.

(** [X] are the pages a caller has changed and not yet marked dirty, under its pin. *)
Record pool_ok (X : gset PageId) (p : BufferPool) : Prop := {
  b_file : file_ok (file p);
  b_capacity : (0 < capacity p)%nat;
  b_room : (length (frames (inner p)) ≤ capacity p)%nat;
  b_hand : (hand (inner p) < length (frames (inner p)))%nat ∨ hand (inner p) = 0%nat;
  b_index : ∀ id slot, by_page (inner p) !! id = Some slot ↔ ∃ f, frames (inner p) !! slot = Some f ∧ f_id f = id;
  b_frame : ∀ slot f, frames (inner p) !! slot = Some f →
    page_good (f_id f) (f_page f) ∧ (f_id f < page_count (file p))%N;
  b_clean : ∀ slot f, frames (inner p) !! slot = Some f → f_dirty f = false → f_id f ∉ X →
    pages (file p) !! N.to_nat (f_id f) = Some (seal (f_page f));
  b_changed : ∀ slot f, frames (inner p) !! slot = Some f → f_id f ∈ X → (0 < f_pins f)%N;
  b_held : ∀ id, id ∈ X → is_Some (by_page (inner p) !! id);
}.

Lemma frame_Ok slot i f : frame slot i = Ok f ↔ frames i !! slot = Some f.
Proof. unfold frame. destruct (frames i !! slot); split; congruence. Qed.

Lemma view_frame X p slot f :
  pool_ok X p → frames (inner p) !! slot = Some f → view p (f_id f) = Some (seal (f_page f)).
Proof.
  intros Hp Hf. unfold view. assert (by_page (inner p) !! f_id f = Some slot) as -> by (apply (b_index X p Hp); eauto).
  by rewrite Hf.
Qed.

(** One frame changes and keeps its page identifier. *)
Lemma set_frame_ok X Y p slot f f' :
  pool_ok X p → frames (inner p) !! slot = Some f → f_id f' = f_id f →
  page_good (f_id f) (f_page f') →
  (∀ id, id ≠ f_id f → (id ∈ X ↔ id ∈ Y)) →
  (f_dirty f' = false → f_id f ∉ Y → pages (file p) !! N.to_nat (f_id f) = Some (seal (f_page f'))) →
  (f_id f ∈ Y → (0 < f_pins f')%N) →
  pool_ok Y (with_inner (set_frame slot f' (inner p)) p).
Proof.
  intros [Hfile Hcap Hroom Hhand Hix Hfr Hcl Hch Hhe] Hf Hid Hg HXY Hclean Hpin.
  assert (Hlt : (slot < length (frames (inner p)))%nat) by (by eapply lookup_lt_Some).
  assert (Hother : ∀ s g, <[slot := f']> (frames (inner p)) !! s = Some g →
    (s = slot ∧ g = f') ∨ (frames (inner p) !! s = Some g ∧ f_id g ≠ f_id f)).
  { intros s g Hs. destruct (decide (s = slot)) as [->|Hne].
    - rewrite list_lookup_insert_eq in Hs by done. left. naive_solver.
    - rewrite list_lookup_insert_ne in Hs by done. right. split; [done|]. intros He.
      assert (by_page (inner p) !! f_id f = Some s) by (apply Hix; eauto).
      assert (by_page (inner p) !! f_id f = Some slot) by (apply Hix; eauto). congruence. }
  split; cbn [with_inner set_frame with_frames inner file capacity frames hand by_page]; rewrite ?length_insert; try done.
  - intros id s. rewrite Hix. split; intros (g & Hg' & Hi).
    + destruct (decide (s = slot)) as [->|Hne].
      * exists f'. rewrite list_lookup_insert_eq by done. split; [done|]. naive_solver congruence.
      * exists g. by rewrite list_lookup_insert_ne by done.
    + destruct (Hother s g Hg') as [[-> ->]|[? ?]]; [|eauto]. exists f. split; [done|congruence].
  - intros s g [[-> ->]|[Hg' _]]%Hother; [|by apply Hfr with s]. rewrite Hid. split; [done|]. by eapply Hfr.
  - intros s g [[-> ->]|[Hg' Hne]]%Hother Hd HY; [rewrite Hid in *; by apply Hclean|].
    apply Hcl with s; [done|done|]. by rewrite HXY.
  - intros s g [[-> ->]|[Hg' Hne]]%Hother HY; [rewrite Hid in *; by apply Hpin|]. apply Hch with s; [done|]. by apply HXY.
  - intros id HY. destruct (decide (id = f_id f)) as [->|Hne]; [|by apply Hhe, HXY].
    exists slot. apply Hix. eauto.
Qed.

Lemma set_frame_view X p slot f f' id :
  pool_ok X p → frames (inner p) !! slot = Some f → f_id f' = f_id f →
  view (with_inner (set_frame slot f' (inner p)) p) id =
  if decide (id = f_id f) then Some (seal (f_page f')) else view p id.
Proof.
  intros Hp Hf Hid. unfold view. cbn [with_inner set_frame with_frames inner file frames by_page].
  destruct (decide (id = f_id f)) as [->|Hne].
  - assert (by_page (inner p) !! f_id f = Some slot) as -> by (apply (b_index X p Hp); eauto).
    by rewrite list_lookup_insert_eq by (by eapply lookup_lt_Some).
  - destruct (by_page (inner p) !! id) as [s|] eqn:Hs; [|done].
    apply (b_index X p Hp) in Hs as Hs'. destruct Hs' as (g & Hg & Hgi).
    rewrite list_lookup_insert_ne; [done|]. intros <-. congruence.
Qed.

(** The same frame apart from its bookkeeping. *)
Definition same_page (f f' : Frame) : Prop := f_id f' = f_id f ∧ f_page f' = f_page f ∧ f_dirty f' = f_dirty f.

Lemma set_same_page X p slot f f' :
  pool_ok X p → frames (inner p) !! slot = Some f → same_page f f' → (f_id f ∈ X → (0 < f_pins f')%N) →
  let p' := with_inner (set_frame slot f' (inner p)) p in
  pool_ok X p' ∧ ∀ id, view p' id = view p id.
Proof.
  intros Hp Hf (Hid & Hpg & Hd) Hpin p'. destruct (b_frame X p Hp _ _ Hf) as [Hg _]. split.
  - apply (set_frame_ok X X p slot f f'); try done; rewrite ?Hpg, ?Hd; [done|].
    intros Hcl HX. by apply (b_clean X p Hp slot f).
  - intros id. unfold p'. rewrite (set_frame_view X p slot f f') by done. case_decide as He; [|done].
    subst id. by rewrite (view_frame X p slot f) by done; rewrite Hpg.
Qed.

(** ** Writing back *)

(** The file changes under a dirty frame. *)
Lemma write_under_ok X p slot f page o :
  pool_ok X p → frames (inner p) !! slot = Some f → f_dirty f = true → page_ok page →
  let p' := with_data (write_page (f_id f) page o (file p)).2 p in
  pool_ok X p' ∧ ∀ id, view p' id = view p id.
Proof.
  intros Hp Hf Hd Hpage p'. pose proof Hp as [Hfile Hcap Hroom Hhand Hix Hfr Hcl Hch Hhe].
  destruct (write_page_file (f_id f) page o (file p) Hfile Hpage) as [Hfile' Hcount].
  assert (Hsame : ∀ s g, frames (inner p) !! s = Some g → f_id g = f_id f → g = f).
  { intros s g Hg He. assert (by_page (inner p) !! f_id f = Some s) by (apply Hix; eauto).
    assert (by_page (inner p) !! f_id f = Some slot) by (apply Hix; eauto). naive_solver congruence. }
  split.
  - split; cbn [p' with_data inner file capacity]; try done.
    + intros s g Hg. rewrite Hcount. by apply Hfr with s.
    + intros s g Hg Hgd HX. destruct (decide (f_id g = f_id f)) as [He|Hne].
      { apply Hsame in Hg; [|done]. congruence. }
      rewrite <- (Hcl s g Hg Hgd HX). unfold write_page.
      destruct (pages (file p) !! N.to_nat (f_id f)); [|done].
      destruct o; cbn [snd pages]; apply list_lookup_insert_ne; lia.
  - intros id. unfold view. cbn [p' with_data inner file].
    destruct (by_page (inner p) !! id) as [s|] eqn:Hs; [done|].
    rewrite write_page_other; [done|]. intros <-.
    assert (by_page (inner p) !! f_id f = Some slot) by (apply Hix; eauto). congruence.
Qed.

(** The pages of the file that changed were dirty, of finished transactions, and behind the
    durable LSN; their bytes are those there were and those of the sealed page. *)
Definition wrote (durable : Lsn) (p p' : BufferPool) : Prop := ∀ n,
  pages (file p') !! n = pages (file p) !! n ∨
  ∃ slot f old new, frames (inner p) !! slot = Some f ∧ n = N.to_nat (f_id f) ∧
    f_dirty f = true ∧ f_in_progress f = false ∧ writable (lsn (f_page f)) durable = true ∧
    pages (file p) !! n = Some old ∧ pages (file p') !! n = Some new ∧
    ∀ j, new !! j = old !! j ∨ new !! j = seal (f_page f) !! j.

Lemma splice_prefix {A} k (new old : list A) j :
  (length new ≤ length old)%nat → splice 0 (take k new) old !! j = old !! j ∨ splice 0 (take k new) old !! j = new !! j.
Proof.
  intros Hle. rewrite lookup_splice by (rewrite length_take; lia). case_decide as Hj; [|by left]. right.
  rewrite Nat.sub_0_r. rewrite length_take in Hj. by rewrite lookup_take_lt by lia.
Qed.

(** What a write back keeps of a frame. *)
Definition same_pins (f f' : Frame) : Prop :=
  f_id f' = f_id f ∧ f_pins f' = f_pins f ∧ f_holders f' = f_holders f ∧ f_in_progress f' = f_in_progress f ∧
  seal (f_page f') = seal (f_page f) ∧ lsn (f_page f') = lsn (f_page f) ∧ (f_dirty f' = true → f_dirty f = true).

#[export] Instance same_pins_preorder : PreOrder same_pins.
Proof. split; [done|]. intros f g h (?&?&?&?&?&?&?) (?&?&?&?&?&?&?). unfold same_pins. split_and!; try congruence. auto. Qed.

Record kept_frames (p p' : BufferPool) : Prop := {
  k_by_page : by_page (inner p') = by_page (inner p);
  k_waiting : waiting (inner p') = waiting (inner p);
  k_capacity : capacity p' = capacity p;
  k_frames : Forall2 same_pins (frames (inner p)) (frames (inner p'));
}.

#[export] Instance kept_frames_preorder : PreOrder kept_frames.
Proof.
  split.
  - intros p. split; [done..|]. by apply Forall_Forall2_diag, Forall_forall.
  - intros p q r [? ? ? H1] [? ? ? H2]. split; try congruence. by etrans.
Qed.

Lemma kept_set p slot f f' :
  frames (inner p) !! slot = Some f → same_pins f f' →
  kept_frames p (with_inner (set_frame slot f' (inner p)) p).
Proof.
  intros Hf Hs. split; [done..|]. cbn [with_inner set_frame with_frames inner frames].
  apply Forall2_same_length_lookup_2; [by rewrite length_insert|].
  intros i g g' Hg Hg'. destruct (decide (i = slot)) as [->|Hne].
  - rewrite list_lookup_insert_eq in Hg' by (by eapply lookup_lt_Some). naive_solver.
  - rewrite list_lookup_insert_ne in Hg' by done. by simplify_eq.
Qed.

Lemma write_if_needed_spec X p slot durable o :
  pool_ok X p →
  let p' := (write_if_needed slot durable o p).2 in
  pool_ok X p' ∧ (∀ id, view p' id = view p id) ∧ wrote durable p p' ∧ kept_frames p p' ∧
  hand (inner p') = hand (inner p).
Proof.
  intros Hp. unfold write_if_needed.
  destruct (frame slot (inner p)) as [f|e] eqn:Hf; [|cbn; split_and!; try done; by left].
  apply frame_Ok in Hf. destruct (negb (f_dirty f) || f_in_progress f) eqn:Hdp; [cbn; split_and!; try done; by left|].
  apply orb_false_iff in Hdp as [Hd%negb_false_iff Hip].
  destruct (writable (lsn (f_page f)) durable) eqn:Hw; cbn [negb]; [|cbn; split_and!; try done; by left].
  destruct (b_frame X p Hp _ _ Hf) as [Hg Hlt]. pose proof (seal_good _ _ Hg) as [Hsg _].
  pose proof (proj1 Hg) as Hpok. pose proof (proj1 Hsg) as Hsok.
  set (g := with_page_bytes (seal (f_page f)) f). set (p1 := with_inner (set_frame slot g (inner p)) p).
  assert (Hss : seal (seal (f_page f)) = seal (f_page f)) by (apply seal_seal, Hpok).
  assert (H1 : pool_ok X p1).
  { apply (set_frame_ok X X p slot f g); try done; [cbn; congruence|]. by apply (b_changed X p Hp slot). }
  assert (Hv1 : ∀ id, view p1 id = view p id).
  { intros id. unfold p1. rewrite (set_frame_view X p slot f g) by done. case_decide as He; [|done].
    subst id. rewrite (view_frame X p slot f) by done. by apply (f_equal Some). }
  assert (Hg1 : frames (inner p1) !! slot = Some g).
  { cbn. by rewrite list_lookup_insert_eq by (by eapply lookup_lt_Some). }
  assert (Hsp : same_pins f g) by (unfold same_pins; split_and!; try done; apply page_lsn_seal, Hpok).
  pose proof (kept_set p slot f g Hf Hsp) as Hk1. fold p1 in Hk1.
  destruct (write_under_ok X p1 slot g (seal (f_page f)) o H1 Hg1 Hd Hsok) as [H2 Hv2].
  change (f_page (with_page_bytes (seal (f_page f)) f)) with (seal (f_page f)).
  change (f_id g) with (f_id f) in *. change (file p1) with (file p) in *.
  assert (Hwrote : wrote durable p (with_data (write_page (f_id f) (seal (f_page f)) o (file p)).2 p1)).
  { intros n. unfold write_page. destruct (pages (file p) !! N.to_nat (f_id f)) as [old|] eqn:Hold; [|by left].
    destruct (decide (n = N.to_nat (f_id f))) as [->|Hne].
    - assert (Hle : (length (seal (f_page f)) ≤ length old)%nat).
      { rewrite (proj1 Hsok), (proj1 (proj1 (Forall_lookup _ _) (b_file X p Hp) _ _ Hold)). done. }
      right. exists slot, f, old. exists (splice 0 (take (match o with Written => PAGE_SIZE | WriteFailed k _ => k end) (seal (f_page f))) old).
      split_and!; try done; [|intros j; by apply splice_prefix].
      destruct o; cbn [snd with_data file pages]; rewrite list_lookup_insert_eq by (by eapply lookup_lt_Some); [|done].
      by rewrite take_ge by (rewrite (proj1 Hsok); done).
    - left. destruct o; cbn [snd with_data file pages]; by apply list_lookup_insert_ne. }
  cbn [f_id with_page_bytes]. fold g p1. change (f_page g) with (seal (f_page f)).
  destruct (write_page (f_id f) (seal (f_page f)) o (file p)) as [[[]|e] d] eqn:Hwp;
    cbn [snd fst] in *.
  - set (p2 := with_data d p1) in *. set (h := with_dirty false g).
    destruct (write_page_read _ _ _ _ _ Hwp (b_file X p Hp) Hsok) as (_ & Hpages & _).
    assert (Hfl : pages d !! N.to_nat (f_id f) = Some (seal (f_page f))).
    { rewrite Hpages. apply list_lookup_insert_eq. unfold page_count in Hlt. lia. }
    assert (Hsh : same_pins g h) by (unfold same_pins; by split_and!).
    split_and!.
    + apply (set_frame_ok X X p2 slot g h H2 Hg1); try done; [intros _ _; etrans; [exact Hfl|exact (f_equal Some (eq_sym Hss))]|]. exact (b_changed X p Hp slot f Hf).
    + intros id. etrans; [exact (set_frame_view X p2 slot g h id H2 Hg1 eq_refl)|]. case_decide as He; [|by rewrite Hv2].
      subst id. change (f_id g) with (f_id f). rewrite (view_frame X p slot f) by done. by apply (f_equal Some).
    + exact Hwrote.
    + etrans; [exact Hk1|]. destruct (kept_set p1 slot g h Hg1 Hsh); by split.
    + done.
  - split_and!; [done|intros id; etrans; [apply Hv2|apply Hv1]|exact Hwrote|destruct Hk1; by split|done].
Qed.

(** ** The clock *)

Lemma hand_ok X p h :
  pool_ok X p → (h < length (frames (inner p)))%nat → pool_ok X (with_inner (with_hand h (inner p)) p).
Proof. intros [] Hh. split; try done. by left. Qed.

Lemma kept_same_pins durable f f' : same_pins f f' → f_dirty f' = f_dirty f → kept durable f' = kept durable f.
Proof. intros (_ & Hp & _ & Hi & _ & Hl & _) Hd. unfold kept. by rewrite Hp, Hi, Hl, Hd. Qed.

Lemma hand_next n h : (h < n)%nat → ((h + 1) mod n = if decide (h + 1 = n) then 0 else h + 1)%nat.
Proof.
  intros Hh. case_decide as He; [by rewrite He, Nat.Div0.mod_same|]. apply Nat.mod_small. lia.
Qed.

Lemma clock_spec X p turns durable :
  pool_ok X p → frames (inner p) ≠ [] →
  let '(r, i) := clock turns durable (inner p) in
  pool_ok X (with_inner i p) ∧ (∀ id, view (with_inner i p) id = view p id) ∧ kept_frames p (with_inner i p) ∧
  match r with
  | Ok (Some slot) => ∃ f f', frames (inner p) !! slot = Some f ∧ frames i !! slot = Some f' ∧
      kept durable f = false ∧ kept durable f' = false
  | Ok None => True
  | Err _ => False
  end.
Proof.
  revert p. induction turns as [|turns IH]; intros p Hp Hne; cbn [clock].
  { destruct p as [d c i]. cbn. split_and!; try done. }
  set (h := hand (inner p)). set (n := length (frames (inner p))).
  assert (Hh : (h < n)%nat).
  { unfold h, n. destruct (b_hand X p Hp) as [?|E]; [done|]. rewrite E. destruct (frames (inner p)); [done|simpl; lia]. }
  assert (Hnext : ((h + 1) mod n < n)%nat) by (apply Nat.mod_upper_bound; lia).
  set (q := with_inner (with_hand ((h + 1) mod n) (inner p)) p).
  assert (Hq : pool_ok X q) by (by apply hand_ok).
  assert (Hkq : kept_frames p q) by (split; [done..|]; by apply Forall_Forall2_diag, Forall_forall).
  destruct (frame h (with_hand ((h + 1) mod n) (inner p))) as [f|e] eqn:Hf.
  2: { apply lookup_lt_is_Some_2 in Hh as [f Hf']. unfold frame in Hf. cbn [with_hand frames] in Hf. by rewrite Hf' in Hf. }
  apply frame_Ok in Hf. change (with_hand ((h + 1) mod n) (inner p)) with (inner q) in Hf |- *.
  destruct (kept durable f) eqn:Hk.
  - specialize (IH q Hq Hne). destruct (clock turns durable (inner q)) as [r i].
    destruct IH as (I1 & I2 & I3 & I4). split_and!; [done|done| |done]. etrans; [exact Hkq|]. destruct I3; by split.
  - destruct (f_referenced f) eqn:Href.
    + set (g := with_referenced false f). set (q' := with_inner (set_frame h g (inner q)) q).
      assert (Hs : same_page f g) by done.
      destruct (set_same_page X q h f g Hq Hf Hs ltac:(by apply (b_changed X q Hq h))) as [Hq' Hv'].
      assert (Hne' : frames (inner q') ≠ []).
      { intros He%(f_equal length). cbn in He. rewrite length_insert in He. unfold n in Hh. lia. }
      specialize (IH q' Hq' Hne'). change (set_frame h g (inner q)) with (inner q').
      destruct (clock turns durable (inner q')) as [r i]. destruct IH as (I1 & I2 & I3 & I4). split_and!; [done| | |].
      * intros id. etrans; [apply I2|apply Hv'].
      * etrans; [exact Hkq|]. etrans; [apply (kept_set q h f g Hf)|destruct I3; by split].
        unfold same_pins. by split_and!.
      * destruct r as [[slot|]|]; [|done..]. destruct I4 as (f0 & f' & Hf0 & Hf' & Hk0 & Hk').
        destruct (decide (slot = h)) as [->|Hsl]; [by exists f, f'|]. exists f0, f'. split_and!; try done.
        cbn in Hf0. by rewrite list_lookup_insert_ne in Hf0 by done.
    + split_and!; [done|done|done|]. by exists f, f.
Qed.

(** The turns until the hand is at [s]. *)
Definition distance (n h s : nat) : nat := if decide (h ≤ s)%nat then (s - h)%nat else (s + n - h)%nat.

Section find.
Context (durable : Lsn) (s : nat).

(** The frame at [s], once the hand has cleared it, is found when the hand comes back. *)
Lemma clock_finds_cleared turns i f :
  (hand i < length (frames i))%nat → frames i !! s = Some f → kept durable f = false → f_referenced f = false →
  (distance (length (frames i)) (hand i) s < turns)%nat →
  ∃ slot i', clock turns durable i = (Ok (Some slot), i').
Proof.
  revert i f. induction turns as [|turns IH]; intros i f Hh Hf Hk Hr Hd; [lia|]. cbn [clock].
  pose proof (lookup_lt_Some _ _ _ Hf) as Hs. set (n := length (frames i)) in *.
  unfold frame. cbn [with_hand frames]. destruct (lookup_lt_is_Some_2 _ _ Hh) as [g Hg]. rewrite Hg.
  destruct (decide (hand i = s)) as [He|Hne].
  { assert (g = f) as -> by congruence. rewrite Hk, Hr. eauto. }
  assert (Hd' : (distance n ((hand i + 1) mod n) s < turns)%nat).
  { rewrite hand_next by done. unfold distance in *. repeat case_decide; lia. }
  assert (Hh' : ((hand i + 1) mod n < n)%nat) by (apply Nat.mod_upper_bound; lia).
  destruct (kept durable g); [|destruct (f_referenced g); [|eauto]].
  - by apply (IH _ f).
  - apply (IH _ f); cbn [set_frame with_frames with_hand frames hand]; rewrite ?length_insert; try done.
    by rewrite list_lookup_insert_ne.
Qed.

Lemma clock_finds turns i f :
  (hand i < length (frames i))%nat → frames i !! s = Some f → kept durable f = false →
  (distance (length (frames i)) (hand i) s + length (frames i) < turns)%nat →
  ∃ slot i', clock turns durable i = (Ok (Some slot), i').
Proof.
  revert i f. induction turns as [|turns IH]; intros i f Hh Hf Hk Hd; [lia|].
  pose proof (lookup_lt_Some _ _ _ Hf) as Hs. destruct (f_referenced f) eqn:Hr.
  2: { eapply clock_finds_cleared; [done|done|done|done|lia]. }
  cbn [clock]. set (n := length (frames i)) in *.
  unfold frame. cbn [with_hand frames]. destruct (lookup_lt_is_Some_2 _ _ Hh) as [g Hg]. rewrite Hg.
  assert (Hh' : ((hand i + 1) mod n < n)%nat) by (apply Nat.mod_upper_bound; lia).
  destruct (decide (hand i = s)) as [He|Hne].
  { assert (g = f) as -> by congruence. rewrite Hk, Hr.
    apply (clock_finds_cleared _ _ (with_referenced false f)); cbn [set_frame with_frames with_hand frames hand];
      rewrite ?length_insert; try done.
    - rewrite He. by apply list_lookup_insert_eq.
    - rewrite hand_next by done. unfold distance in *. repeat case_decide; lia. }
  assert (Hd' : (distance n ((hand i + 1) mod n) s + n < turns)%nat).
  { rewrite hand_next by done. unfold distance in *. repeat case_decide; lia. }
  destruct (kept durable g); [|destruct (f_referenced g); [|eauto]].
  - by apply (IH _ f).
  - apply (IH _ f); cbn [set_frame with_frames with_hand frames hand]; rewrite ?length_insert; try done.
    by rewrite list_lookup_insert_ne.
Qed.
End find.

(** Two turns of the hand find a frame whenever there is one. *)
Lemma clock_exact X p durable :
  pool_ok X p → frames (inner p) ≠ [] →
  (∃ slot i, clock (2 * length (frames (inner p))) durable (inner p) = (Ok (Some slot), i)) ↔
  ∃ s f, frames (inner p) !! s = Some f ∧ kept durable f = false.
Proof.
  intros Hp Hne. split.
  - intros (slot & i & He). pose proof (clock_spec X p (2 * length (frames (inner p))) durable Hp Hne) as Hs. rewrite He in Hs.
    destruct Hs as (_ & _ & _ & f & f' & Hf & _ & Hk & _). eauto.
  - intros (s & f & Hf & Hk). eapply clock_finds; [|done|done|].
    + destruct (b_hand X p Hp) as [?|E]; [done|]. rewrite E. destruct (frames (inner p)); [done|simpl; lia].
    + pose proof (lookup_lt_Some _ _ _ Hf). unfold distance. case_decide; destruct (b_hand X p Hp); lia.
Qed.

(** ** Loading a page *)

Lemma read_page_good id d page :
  file_ok d → read_page id d = Ok page → page_id page = id →
  page_good id page ∧ (id < page_count d)%N ∧ pages d !! N.to_nat id = Some (seal page) ∧ seal page = page.
Proof.
  intros Hd Hr Hid. apply read_page_Ok in Hr as [Hl Hv]. pose proof (proj1 (Forall_lookup _ _) Hd _ _ Hl) as Hp.
  assert (Hs : seal page = page) by (by apply seal_verified).
  split_and!; [split_and!; [done| |done]| |by rewrite Hs|done].
  - unfold from_bytes in Hv. destruct (verify page) as [[]|] eqn:Hc; [|done]. by apply verify_iff in Hc as [? _].
  - apply lookup_lt_Some in Hl. unfold page_count. lia.
Qed.

(** A page the pool does not hold and the file does. *)
Definition absent (p : BufferPool) (id : PageId) (page : Page) : Prop :=
  by_page (inner p) !! id = None ∧ read_page id (file p) = Ok page ∧ page_id page = id.

Lemma absent_view p id page : absent p id page → view p id = Some page.
Proof. intros (Hb & Hr & Hid). unfold view. by rewrite Hb, Hr, Hid, N.eqb_refl. Qed.

(** A page the pool changed to evict: it shows the frame it put in the file. *)
Lemma view_evicted p id page :
  by_page (inner p) !! id = None → page_good id page → pages (file p) !! N.to_nat id = Some (seal page) →
  view p id = Some (seal page).
Proof.
  intros Hb Hg Hl. unfold view, read_page. rewrite Hb, Hl. destruct (seal_good _ _ Hg) as [(_ & _ & Hid) Hf].
  by rewrite Hf, Hid, N.eqb_refl.
Qed.

Lemma absent_unchanged X p id page : pool_ok X p → absent p id page → id ∉ X.
Proof. intros Hp (Hb & _) [slot Hs]%(b_held X p Hp). congruence. Qed.

Lemma push_ok X p id page owner :
  pool_ok X p → absent p id page → (length (frames (inner p)) < capacity p)%nat →
  let i := inner p in
  let p' := with_inner (mkInner (frames i ++ [loaded id page owner]) (<[id := length (frames i)]> (by_page i))
    (hand i) (waiting i)) p in
  pool_ok X p' ∧ ∀ id', view p' id' = view p id'.
Proof.
  intros Hp Ha Hroom i p'. pose proof (absent_unchanged X p id page Hp Ha) as HX. subst i. pose proof Ha as (Hb & Hr & Hid). pose proof Hp as [Hfile Hcap _ Hhand Hix Hfr Hcl Hch Hhe].
  destruct (read_page_good id (file p) page Hfile Hr Hid) as (Hg & Hlt & Hpg & Hs).
  assert (Hnew : ∀ s g, (frames (inner p) ++ [loaded id page owner]) !! s = Some g →
    (s = length (frames (inner p)) ∧ g = loaded id page owner) ∨ (frames (inner p) !! s = Some g ∧ s ≠ length (frames (inner p)))).
  { intros s g [Hg'|[Hle Hg']]%lookup_app_Some.
    - right. split; [done|]. apply lookup_lt_Some in Hg'. lia.
    - left. apply list_lookup_singleton_Some in Hg' as [He ->]. split; [lia|done]. }
  split.
  - split; cbn [p' with_inner inner file capacity frames hand by_page]; try done.
    + rewrite length_app. simpl. lia.
    + rewrite length_app. simpl. destruct Hhand; [left; lia|by right].
    + intros id' s. rewrite lookup_insert_Some, Hix. split.
      * intros [[<- <-]|[Hne (g & Hg' & Hgi)]].
        -- exists (loaded id page owner). split; [|done]. rewrite lookup_app_r, Nat.sub_diag by done. done.
        -- exists g. split; [|done]. by apply lookup_app_l_Some.
      * intros (g & [[-> ->]|[Hg' Hne]]%Hnew & Hgi); [by left|]. right. split; [|eauto]. intros <-.
        assert (by_page (inner p) !! f_id g = Some s) by (apply Hix; eauto). congruence.
    + intros s g [[-> ->]|[Hg' _]]%Hnew; [done|by apply Hfr with s].
    + intros s g [[-> ->]|[Hg' _]]%Hnew Hd HX'; [done|by apply Hcl with s].
    + intros s g [[-> ->]|[Hg' _]]%Hnew HX'; [done|by apply Hch with s].
    + intros id' HX'. apply lookup_insert_is_Some. destruct (decide (id = id')); eauto.
  - intros id'. destruct (decide (id' = id)) as [->|Hne].
    + rewrite (absent_view p id page Ha). unfold view. cbn [p' with_inner inner by_page frames].
      rewrite lookup_insert_eq, lookup_app_r, Nat.sub_diag by done. exact (f_equal Some Hs).
    + unfold view. cbn [p' with_inner inner by_page frames file]. rewrite lookup_insert_ne by done.
      destruct (by_page (inner p) !! id') as [s|] eqn:Hsl; [|done]. apply Hix in Hsl as (g & Hg' & _).
      rewrite lookup_app_l by (by eapply lookup_lt_Some). done.
Qed.

Lemma replace_ok X p victim f id page owner :
  pool_ok X p → absent p id page →
  frames (inner p) !! victim = Some f → f_id f ∉ X → f_dirty f = false →
  let i := set_frame victim (loaded id page owner) (inner p) in
  let p' := with_inner (mkInner (frames i) (<[id := victim]> (delete (f_id f) (by_page i))) (hand i) (waiting i)) p in
  pool_ok X p' ∧ ∀ id', view p' id' = view p id'.
Proof.
  intros Hp Ha Hf HfX Hd i p'. pose proof (absent_unchanged X p id page Hp Ha) as HX. pose proof Ha as (Hb & Hr & Hid). pose proof Hp as [Hfile Hcap Hroom Hhand Hix Hfr Hcl Hch Hhe].
  destruct (read_page_good id (file p) page Hfile Hr Hid) as (Hg & Hlt & Hpg & Hs).
  pose proof (lookup_lt_Some _ _ _ Hf) as Hv. pose proof (proj1 (Hfr _ _ Hf)) as Hfg.
  assert (Hfi : by_page (inner p) !! f_id f = Some victim) by (apply Hix; eauto).
  assert (Hne : f_id f ≠ id) by congruence.
  assert (Hnew : ∀ s g, frames i !! s = Some g →
    (s = victim ∧ g = loaded id page owner) ∨ (frames (inner p) !! s = Some g ∧ s ≠ victim ∧ f_id g ≠ f_id f ∧ f_id g ≠ id)).
  { intros s g Hg'. cbn in Hg'. destruct (decide (s = victim)) as [->|Hsv].
    - rewrite list_lookup_insert_eq in Hg' by done. left. naive_solver.
    - rewrite list_lookup_insert_ne in Hg' by done. right.
      assert (Hgs : by_page (inner p) !! f_id g = Some s) by (apply Hix; eauto). split_and!; congruence. }
  split.
  - split; cbn [p' i with_inner set_frame with_frames inner file capacity frames hand by_page]; rewrite ?length_insert; try done.
    + intros id' s. rewrite lookup_insert_Some, lookup_delete_Some, Hix. split.
      * intros [[<- <-]|(Hne1 & Hne2 & g & Hg' & Hgi)].
        -- exists (loaded id page owner). split; [|done]. cbn. by apply list_lookup_insert_eq.
        -- exists g. split; [|done]. cbn. rewrite list_lookup_insert_ne; [done|]. intros <-. congruence.
      * intros (g & [[-> ->]|(Hg' & Hsv & Hn1 & Hn2)]%Hnew & Hgi); [by left|]. right. split_and!; [congruence|congruence|eauto].
    + intros s g [[-> ->]|(Hg' & _)]%Hnew; [done|by apply Hfr with s].
    + intros s g [[-> ->]|(Hg' & _)]%Hnew Hd' HX'; [done|by apply Hcl with s].
    + intros s g [[-> ->]|(Hg' & _)]%Hnew HX'; [done|by apply Hch with s].
    + intros id' HX'. apply lookup_insert_is_Some. destruct (decide (id = id')) as [|Hn]; [by left|right]. split; [done|].
      apply lookup_delete_is_Some. split; [congruence|by apply Hhe].
  - intros id'. destruct (decide (id' = id)) as [->|Hn1].
    { rewrite (absent_view p id page Ha). unfold view. cbn [p' i with_inner inner by_page frames set_frame with_frames].
      rewrite lookup_insert_eq, list_lookup_insert_eq by done. exact (f_equal Some Hs). }
    destruct (decide (id' = f_id f)) as [->|Hn2].
    { rewrite (view_frame X p victim f) by done. apply view_evicted; [|done|].
      - cbn. rewrite lookup_insert_ne by done. apply lookup_delete_eq.
      - by apply (Hcl victim). }
    unfold view. cbn [p' i with_inner inner by_page frames set_frame with_frames file].
    rewrite lookup_insert_ne, lookup_delete_ne by done.
    destruct (by_page (inner p) !! id') as [s|] eqn:Hsl; [|done].
    rewrite list_lookup_insert_ne; [done|]. intros <-. apply Hix in Hsl as (g & Hg' & ?). congruence.
Qed.

(** ** Pinning *)

Lemma wrote_kept durable p p1 p2 :
  kept_frames p p1 → file p1 = file p → wrote durable p1 p2 → wrote durable p p2.
Proof.
  intros [_ _ _ Hk] Hf Hw n. destruct (Hw n) as [He|(slot & f1 & old & new & Hf1 & -> & Hd & Hi & Hwr & Hold & Hnew & Hj)].
  { left. by rewrite He, Hf. }
  right. destruct (Forall2_lookup_r _ _ _ _ _ Hk Hf1) as (f & Hf0 & Hid & _ & _ & Hip & Hseal & Hlsn & Hdirty).
  rewrite Hf in Hold. exists slot, f, old, new. rewrite Hid in Hold, Hnew |- *. rewrite Hlsn in Hwr. rewrite Hseal in Hj.
  split_and!; try done; [by apply Hdirty|congruence].
Qed.

Lemma wrote_mono d d' p p' : (d ≤ d')%N → wrote d p p' → wrote d' p p'.
Proof.
  intros Hle Hw n. destruct (Hw n) as [?|(slot & f & old & new & ? & ? & ? & ? & Hwr & Hrest)]; [by left|]. right.
  exists slot, f, old, new. destruct Hrest as (? & ? & ?). split_and!; try assumption. unfold writable in *.
  apply orb_true_iff in Hwr as [->|Hl%N.leb_le]; [done|]. apply orb_true_iff. right. apply N.leb_le. lia.
Qed.

(** One write back after another. *)
Lemma wrote_trans X durable p p1 p2 :
  pool_ok X p → kept_frames p p1 → wrote durable p p1 → wrote durable p1 p2 → wrote durable p p2.
Proof.
  intros Hp [_ _ _ Hk] H1 H2 n.
  destruct (H2 n) as [He|(slot & f1 & old & new & Hf1 & -> & Hd & Hi & Hwr & Hold & Hnew & Hj)]; [by rewrite He|].
  destruct (Forall2_lookup_r _ _ _ _ _ Hk Hf1) as (f & Hf0 & Hid & _ & _ & Hip & Hseal & Hlsn & Hdirty).
  rewrite Hid in *. rewrite Hlsn in Hwr. rewrite Hseal in Hj. right.
  destruct (H1 (N.to_nat (f_id f))) as [He|(slot' & g & old' & new' & Hg & Hgi & _ & _ & _ & Hold' & Hnew' & Hj')].
  - exists slot, f, old, new. rewrite He in Hold. split_and!; try done; [by apply Hdirty|congruence].
  - assert (f_id g = f_id f) as Hgf by lia.
    assert (g = f) as ->.
    { assert (by_page (inner p) !! f_id f = Some slot) by (apply (b_index X p Hp); eauto).
      assert (by_page (inner p) !! f_id f = Some slot') by (apply (b_index X p Hp); eauto). naive_solver congruence. }
    exists slot, f, old', new. assert (new' = old) as -> by congruence.
    split_and!; try done; [by apply Hdirty|congruence|]. intros j. destruct (Hj j) as [->|]; [apply Hj'|by right].
Qed.

Lemma wrote_nothing durable p p' : file p' = file p → wrote durable p p'.
Proof. intros He n. left. by rewrite He. Qed.

Lemma write_if_needed_clean slot durable o p b p' f :
  write_if_needed slot durable o p = (Ok b, p') → frames (inner p) !! slot = Some f →
  (f_dirty f = true → f_in_progress f = false) → ∃ f', frames (inner p') !! slot = Some f' ∧ f_dirty f' = false ∧ f_id f' = f_id f.
Proof.
  intros Hw Hf Hi. pose proof (lookup_lt_Some _ _ _ Hf) as Hlt. unfold write_if_needed in Hw.
  rewrite (proj2 (frame_Ok slot (inner p) f) Hf) in Hw.
  destruct (f_dirty f) eqn:Hd; [rewrite Hi in Hw by done|]; cbn [negb orb] in Hw; [|simplify_eq; eauto].
  destruct (negb (writable _ _)); [done|]. destruct (write_page _ _ _ _) as [[[]|e] d]; simplify_eq/=.
  eexists. rewrite list_lookup_insert_eq by (by rewrite length_insert). done.
Qed.

Lemma kept_false durable f :
  kept durable f = false →
  f_pins f = 0%N ∧ (f_dirty f = true → f_in_progress f = false ∧ writable (lsn (f_page f)) durable = true).
Proof.
  unfold kept. intros [Hp Hd]%orb_false_iff. apply N.ltb_ge in Hp. split; [lia|]. intros Hdirty. rewrite Hdirty in Hd.
  apply orb_false_iff in Hd as [? Hw%negb_false_iff]. done.
Qed.

(** What a pin leaves, whatever it answers. *)
Definition pinned (p : BufferPool) (id : PageId) : Prop :=
  ∃ slot f, by_page (inner p) !! id = Some slot ∧ frames (inner p) !! slot = Some f ∧ f_id f = id ∧ (0 < f_pins f)%N.

Lemma pin_evicts X p id page owner d1 d2 o :
  pool_ok X p → absent p id page → (capacity p ≤ length (frames (inner p)))%nat →
  let '(r, p') := pin id owner d1 d2 o p in
  pool_ok X p' ∧ (∀ id', view p' id' = view p id') ∧ wrote d2 p p' ∧
  (r = Ok () → pinned p' id).
Proof.
  intros Hp Ha Hfull. pose proof Ha as (Hb & Hr & Hid). unfold pin. rewrite Hb, Hr, Hid, N.eqb_refl. cbn [negb].
  rewrite (proj2 (Nat.ltb_ge _ _)) by done. unfold choose_victim.
  assert (Hne : frames (inner p) ≠ []).
  { intros He. rewrite He in Hfull. pose proof (b_capacity X p Hp). simpl in Hfull. lia. }
  pose proof (clock_spec X p (2 * length (frames (inner p))) d1 Hp Hne) as Hc.
  destruct (clock (2 * length (frames (inner p))) d1 (inner p)) as [[[victim|]|e] i];
    destruct Hc as (H1 & Hv1 & Hk1 & Hr1); [|split_and!; [done|done|by apply wrote_nothing|done]|done].
  destruct Hr1 as (_ & f & _ & Hf & _ & [Hpins Hcond]%kept_false). set (p1 := with_inner i p) in *.
  destruct (write_if_needed_spec X p1 victim d2 o H1) as (H2 & Hv2 & Hw2 & Hk2 & Hh2).
  destruct (write_if_needed victim d2 o p1) as [[b|e] p2] eqn:Hwr; cbn [snd] in *.
  2: { split_and!; [done|intros; by rewrite Hv2|by eapply wrote_kept|done]. }
  destruct (write_if_needed_clean _ _ _ _ _ _ _ Hwr Hf ltac:(naive_solver)) as (f2 & Hf2 & Hd2 & Hid2).
  rewrite (proj2 (frame_Ok victim (inner p2) f2) Hf2).
  assert (HfX : f_id f2 ∉ X).
  { rewrite Hid2. intros HX%(b_changed X p1 H1 victim f Hf). lia. }
  assert (Ha2 : absent p2 id page).
  { assert (Hb1 : by_page (inner p1) !! id = None) by (by rewrite (k_by_page _ _ Hk1)).
    assert (Hb2 : by_page (inner p2) !! id = None) by (by rewrite (k_by_page _ _ Hk2)).
    split_and!; [done| |done]. pose proof (Hv2 id) as Hv. pose proof (absent_view p id page Ha) as Hpv.
    unfold view in Hv. rewrite Hb1, Hb2 in Hv. change (file p1) with (file p) in Hv. rewrite Hr, Hid, N.eqb_refl in Hv.
    destruct (read_page id (file p2)) as [q|]; [|done]. destruct (page_id q =? id)%N; congruence. }
  destruct (replace_ok X p2 victim f2 id page owner H2 Ha2 Hf2 HfX Hd2) as [H3 Hv3].
  split_and!; [done| | |].
  - intros id'. etrans; [apply Hv3|]. by rewrite Hv2.
  - eapply wrote_kept; [done|done|]. exact Hw2.
  - intros _. exists victim, (loaded id page owner). cbn. rewrite lookup_insert_eq.
    rewrite list_lookup_insert_eq by (by eapply lookup_lt_Some). by split_and!.
Qed.

Lemma pin_spec X p id owner d1 d2 o :
  pool_ok X p →
  let '(r, p') := pin id owner d1 d2 o p in
  pool_ok X p' ∧ (∀ id', view p' id' = view p id') ∧ wrote d2 p p' ∧ (r = Ok () → pinned p' id).
Proof.
  intros Hp. destruct (by_page (inner p) !! id) as [slot|] eqn:Hb.
  - unfold pin. rewrite Hb. pose proof Hb as Hb'. apply (b_index X p Hp) in Hb' as (f & Hf & Hid).
    rewrite (proj2 (frame_Ok slot (inner p) f) Hf). set (g := with_referenced true (add_pin owner f)).
    assert (Hpos : (0 < f_pins g)%N) by (cbn; unfold u32_succ, u32_max; lia).
    destruct (set_same_page X p slot f g Hp Hf ltac:(done) ltac:(done)) as [H1 Hv1].
    split_and!; [done|done|by apply wrote_nothing|]. intros _. exists slot, g. cbn.
    rewrite list_lookup_insert_eq by (by eapply lookup_lt_Some). by split_and!.
  - destruct (read_page id (file p)) as [page|e] eqn:Hr.
    2: { unfold pin. rewrite Hb, Hr. split_and!; [done|done|by apply wrote_nothing|done]. }
    destruct (N.eqb_spec (page_id page) id) as [Hid|Hne].
    2: { unfold pin. rewrite Hb, Hr, (proj2 (N.eqb_neq _ _)) by done. split_and!; [done|done|by apply wrote_nothing|done]. }
    assert (Ha : absent p id page) by done.
    destruct (decide (length (frames (inner p)) < capacity p)%nat) as [Hlt|Hge]; [|by apply (pin_evicts X p id page); [..|lia]].
    unfold pin. rewrite Hb, Hr, Hid, N.eqb_refl. cbn [negb]. rewrite (proj2 (Nat.ltb_lt _ _)) by done.
    destruct (push_ok X p id page owner Hp Ha Hlt) as [H1 Hv1]. split_and!; [done|done|by apply wrote_nothing|].
    intros _. exists (length (frames (inner p))), (loaded id page owner). cbn.
    rewrite lookup_insert_eq, lookup_app_r, Nat.sub_diag by done. by split_and!.
Qed.

(** ** The other operations *)

Lemma unpin_spec X p id owner :
  pool_ok X p → id ∉ X →
  let p' := unpin id owner p in pool_ok X p' ∧ (∀ id', view p' id' = view p id') ∧ file p' = file p.
Proof.
  intros Hp HX. unfold unpin. destruct (by_page (inner p) !! id) as [slot|] eqn:Hb; [|done].
  apply (b_index X p Hp) in Hb as (f & Hf & Hid). rewrite (proj2 (frame_Ok slot (inner p) f) Hf).
  destruct (set_same_page X p slot f (remove_pin owner f) Hp Hf ltac:(done) ltac:(by rewrite Hid)) as [H1 Hv1]. done.
Qed.

Lemma set_in_progress_spec X p id b :
  pool_ok X p →
  let p' := (set_in_progress id b p).2 in pool_ok X p' ∧ (∀ id', view p' id' = view p id') ∧ file p' = file p.
Proof.
  intros Hp. unfold set_in_progress. destruct (by_page (inner p) !! id) as [slot|] eqn:Hb; [|by destruct b].
  apply (b_index X p Hp) in Hb as (f & Hf & Hid). rewrite (proj2 (frame_Ok slot (inner p) f) Hf).
  destruct (set_same_page X p slot f (with_in_progress b f) Hp Hf ltac:(done) (b_changed X p Hp slot f Hf)) as [H1 Hv1]. done.
Qed.

Lemma flush_spec X p id durable o :
  pool_ok X p →
  let p' := (flush id durable o p).2 in
  pool_ok X p' ∧ (∀ id', view p' id' = view p id') ∧ wrote durable p p'.
Proof.
  intros Hp. unfold flush. destruct (by_page (inner p) !! id) as [slot|] eqn:Hb; [|split_and!; [done|done|by apply wrote_nothing]].
  destruct (write_if_needed_spec X p slot durable o Hp) as (H1 & Hv1 & Hw1 & _).
  unfold mbind, stateful_bind. by destruct (write_if_needed slot durable o p) as [[] p'].
Qed.

Lemma flush_all_spec X p durable o D :
  pool_ok X p → (∀ slot, (durable slot ≤ D)%N) →
  let p' := (flush_all durable o p).2 in
  pool_ok X p' ∧ (∀ id', view p' id' = view p id') ∧ wrote D p p'.
Proof.
  intros Hp HD. unfold flush_all. generalize (seq 0 (length (frames (inner p)))). intros slots.
  enough (let p' := (for_each (λ slot, _ ← write_if_needed slot (durable slot) (o slot); mret ()) slots p).2 in
    pool_ok X p' ∧ (∀ id', view p' id' = view p id') ∧ wrote D p p' ∧ kept_frames p p') by naive_solver.
  revert p Hp. induction slots as [|slot slots IH]; intros p Hp; cbn [for_each].
  { split_and!; [done|done|by apply wrote_nothing|done]. }
  destruct (write_if_needed_spec X p slot (durable slot) (o slot) Hp) as (H1 & Hv1 & Hw1 & Hk1 & _).
  apply (wrote_mono _ D) in Hw1; [|done].
  unfold mbind, stateful_bind. destruct (write_if_needed slot (durable slot) (o slot) p) as [[b|e] p1]; cbn [snd] in *; [|done].
  cbn. destruct (IH p1 H1) as (I1 & I2 & I3 & I4). split_and!; [done|intros; by rewrite I2| |by etrans].
  by eapply wrote_trans.
Qed.

(** A change made under the pin, before it is marked. *)
Lemma change_spec X p id owner registered change p' :
  pool_ok X p → pinned p id → (∀ q, page_good id q → page_good id (change q)) →
  change_turn id owner registered change p = (Changed, p') →
  pool_ok (X ∪ {[id]}) p' ∧ file p' = file p ∧
  ∃ page, with_page id (λ q, q) p = Ok page ∧ view p' id = Some (seal (change page)) ∧
    ∀ id', id' ≠ id → view p' id' = view p id'.
Proof.
  intros Hp (slot & f & Hb & Hf & Hid & Hpins) Hgood. unfold change_turn, slot_of. rewrite Hb, result_bind_ok.
  rewrite (proj2 (frame_Ok slot (inner p) f) Hf), result_bind_ok. destruct (1 <? _)%N; [done|].
  destruct (others owner (inner p) f =? 0)%N; [|by destruct registered]. intros [= <-].
  set (q := with_inner (stop_waiting owner registered (inner p)) p).
  assert (Hfr : frames (inner q) = frames (inner p)) by (by destruct registered).
  assert (Hby : by_page (inner q) = by_page (inner p)) by (by destruct registered).
  assert (Hha : hand (inner q) = hand (inner p)) by (by destruct registered).
  assert (Hq : pool_ok X q) by (destruct Hp; split; rewrite ?Hfr, ?Hby, ?Hha; done).
  assert (Hvq : ∀ id', view q id' = view p id') by (intros; unfold view; by rewrite Hfr, Hby).
  rewrite <- Hfr in Hf. pose proof (proj1 (b_frame X q Hq slot f Hf)) as Hg. subst id.
  set (g := with_page_bytes (change (f_page f)) f).
  change (with_inner (set_frame slot g (stop_waiting owner registered (inner p))) p)
    with (with_inner (set_frame slot g (inner q)) q).
  split_and!; [|done|].
  - apply (set_frame_ok X _ q slot f g Hq Hf); [done|by apply Hgood|set_solver|set_solver|done].
  - exists (f_page f). split_and!.
    + unfold with_page, slot_of. rewrite Hb, result_bind_ok, (proj2 (frame_Ok slot (inner p) f)), result_bind_ok; [done|].
      by rewrite <- Hfr.
    + rewrite (set_frame_view X q slot f g) by done. by rewrite decide_True.
    + intros id' Hne. rewrite (set_frame_view X q slot f g) by done. by rewrite decide_False.
Qed.

Lemma set_lsn_good id l p : (l ≤ u64_max)%N → page_good id p → page_good id (set_lsn l p).
Proof.
  intros Hl (Hp & Hh & Hid). pose proof (header_set_lsn l p Hp Hl) as Hs. split_and!.
  - apply set_field_ok; [done|unfold OFF_PAGE_LSN; lia].
  - by rewrite Hs.
  - pose proof (f_equal h_page_id Hs) as He. cbn [header_of h_page_id with_lsn] in He. congruence.
Qed.

(** Marking a page ties it to its record and settles the change. *)
Lemma mark_dirty_spec X p id rec_lsn :
  pool_ok X p → (rec_lsn ≤ u64_max)%N →
  match mark_dirty id rec_lsn p with
  | (Ok _, p') =>
      pool_ok (X ∖ {[id]}) p' ∧ file p' = file p ∧ pinned p id ∧ (∀ id', id' ≠ id → view p' id' = view p id') ∧
      ∃ page, with_page id (λ q, q) p = Ok page ∧
        view p' id = Some (seal (if (lsn page <? rec_lsn)%N then set_lsn rec_lsn page else page))
  | (Err _, p') => p' = p ∧ ¬ pinned p id
  end.
Proof.
  intros Hp Hl. unfold mark_dirty. destruct (by_page (inner p) !! id) as [slot|] eqn:Hb.
  2: { split; [done|]. intros (slot & f & Hs & _). congruence. }
  pose proof Hb as Hb'. apply (b_index X p Hp) in Hb as (f & Hf & Hid). rewrite (proj2 (frame_Ok slot (inner p) f) Hf).
  destruct (N.eqb_spec (f_pins f) 0) as [Hz|Hnz].
  { split; [done|]. intros (slot' & f' & Hs & Hf' & _ & Hpos). simplify_eq. lia. }
  destruct (b_frame X p Hp slot f Hf) as [Hg _]. subst id. cbn [with_dirty f_page].
  set (page := if (lsn (f_page f) <? rec_lsn)%N then set_lsn rec_lsn (f_page f) else f_page f).
  set (g := with_page_bytes page (with_dirty true f)).
  replace (if (lsn (f_page f) <? rec_lsn)%N then _ else _) with g by (unfold g, page; destruct (_ <? _)%N; by destruct f).
  assert (Hgood : page_good (f_id f) page) by (unfold page; destruct (_ <? _)%N; [by apply set_lsn_good|done]).
  split_and!; [|done| | |].
  - apply (set_frame_ok X _ p slot f g Hp Hf); [done|done|set_solver|done|set_solver].
  - exists slot, f. split_and!; try done. lia.
  - intros id' Hne. rewrite (set_frame_view X p slot f g) by done. by rewrite decide_False.
  - exists (f_page f). split.
    + unfold with_page, slot_of. by rewrite Hb', result_bind_ok, (proj2 (frame_Ok slot (inner p) f)), result_bind_ok.
    + rewrite (set_frame_view X p slot f g) by done. by rewrite decide_True.
Qed.

Lemma new_pool_ok d n p : file_ok d → with_durable_lsn d n = Ok p → pool_ok ∅ p.
Proof.
  intros Hd. unfold with_durable_lsn, validate_buffer_pages. destruct (Nat.eqb_spec n 0); [done|]. intros [= <-].
  split; cbn; try done; try lia. intros id slot. rewrite lookup_empty. split; [done|]. by intros (f & Hf & _).
Qed.
