(* ===== verification/PoolTheorems.v ===== *)
(** * The buffer pool is a cache and keeps the write-ahead rule

    The histories of a buffer pool whose callers pin a page before they change it and mark it
    dirty before they let it go, the map of pages such a history is, and the properties. *)

From S2P Require Import Prelude Errors Bytes Crc Page Wal PageWrite PageWriteFacts DataFile BufferPool BufferFacts.

#[local] Open Scope Z_scope.

(** ** Histories *)

(** A pool with the pages changed and not yet marked dirty. *)
Notation State := (gset PageId * BufferPool)%type.

(** What an operation of the pool is, for its callers: the page it is about, the change it makes
    of it, the record it ties it to. *)
Inductive PoolOp :=
  | Pins (id : PageId)
  | Unpins (id : PageId)
  | Flushes (id : PageId)
  | FlushesAll
  | SetsInProgress (id : PageId) (b : bool)
  | Changes (id : PageId) (change : Page → Page)
  | WaitsToChange (id : PageId)
  | IsRefusedAChange (id : PageId)
  | Marks (id : PageId) (rec_lsn : Lsn)
  | IsRefusedAMark (id : PageId).

(** One operation; [durable] bounds the durable LSN the journal answered during it. *)
Inductive pool_step (durable : Lsn) : PoolOp → State → State → Prop :=
  | step_pin X p id owner d1 d2 o :
      (d1 ≤ d2)%N → (d2 ≤ durable)%N → pool_step durable (Pins id) (X, p) (X, (pin id owner d1 d2 o p).2)
  | step_unpin X p id owner : id ∉ X → pool_step durable (Unpins id) (X, p) (X, unpin id owner p)
  | step_flush X p id d o : (d ≤ durable)%N → pool_step durable (Flushes id) (X, p) (X, (flush id d o p).2)
  | step_flush_all X p d o :
      (∀ slot, (d slot ≤ durable)%N) → pool_step durable FlushesAll (X, p) (X, (flush_all d o p).2)
  | step_in_progress X p id b : pool_step durable (SetsInProgress id b) (X, p) (X, (set_in_progress id b p).2)
  | step_change X p id owner registered change p' :
      pinned p id → (∀ q, page_good id q → page_good id (change q)) →
      change_turn id owner registered change p = (Changed, p') →
      pool_step durable (Changes id change) (X, p) (X ∪ {[id]}, p')
  | step_wait X p id owner registered change notifies p' :
      change_turn id owner registered change p = (Waits notifies, p') →
      pool_step durable (WaitsToChange id) (X, p) (X, p')
  | step_refuse X p id owner registered change e p' :
      change_turn id owner registered change p = (Refused e, p') →
      pool_step durable (IsRefusedAChange id) (X, p) (X, p')
  | step_mark X p id rec_lsn p' :
      (rec_lsn ≤ u64_max)%N → mark_dirty id rec_lsn p = (Ok (), p') →
      pool_step durable (Marks id rec_lsn) (X, p) (X ∖ {[id]}, p')
  | step_mark_refused X p id rec_lsn e p' :
      (rec_lsn ≤ u64_max)%N → mark_dirty id rec_lsn p = (Err e, p') →
      pool_step durable (IsRefusedAMark id) (X, p) (X, p').

Inductive pool_reachable : State → Prop :=
  | reachable_new path bytes d n p :
      Forall is_byte bytes → DataFile.open path bytes = Ok d → with_durable_lsn d n = Ok p → pool_reachable (∅, p)
  | reachable_next durable op s s' : pool_reachable s → pool_step durable op s s' → pool_reachable s'.

(** ** The specification: a map from identifiers to pages *)

Notation Pages := (PageId → option Page).

(** The operation replaces one page, of which the caller gives the change.  The pages of the map
    are sealed, the checksum being no part of what a caller writes. *)
Definition rewrites (id : PageId) (change : Page → Page) (v v' : Pages) : Prop :=
  (∃ page, v id = Some (seal page) ∧ v' id = Some (seal (change page))) ∧ ∀ id', id' ≠ id → v' id' = v id'.

(** What each operation does to the map: a change rewrites its page as its caller says, a mark
    raises the number of its page to the one of the record, and no other operation touches a page. *)
Definition pages_step (op : PoolOp) (v v' : Pages) : Prop :=
  match op with
  | Changes id change => rewrites id change v v'
  | Marks id rec_lsn => rewrites id (λ page, if (lsn page <? rec_lsn)%N then set_lsn rec_lsn page else page) v v'
  | Pins _ | Unpins _ | Flushes _ | FlushesAll | SetsInProgress _ _ | WaitsToChange _ | IsRefusedAChange _
  | IsRefusedAMark _ => ∀ id, v' id = v id
  end.

(** ** Lemmas on a turn of a change *)

Lemma turn_kept id owner registered change p r p' :
  change_turn id owner registered change p = (r, p') → r ≠ Changed →
  file p' = file p ∧ capacity p' = capacity p ∧ frames (inner p') = frames (inner p) ∧
  by_page (inner p') = by_page (inner p) ∧ hand (inner p') = hand (inner p).
Proof.
  unfold change_turn. destruct (slot_of id (inner p) ≫= _) as [[slot f]|e].
  - destruct (1 <? _)%N; [intros [= <- <-] _; by destruct registered|].
    destruct (others _ _ _ =? 0)%N; [by intros [= <- <-]|]. by destruct registered; intros [= <- <-].
  - intros [= <- <-] _. by destruct registered.
Qed.

Lemma turn_ok X id owner registered change p r p' :
  pool_ok X p → change_turn id owner registered change p = (r, p') → r ≠ Changed →
  pool_ok X p' ∧ (∀ id', view p' id' = view p id') ∧ file p' = file p.
Proof.
  intros Hp Ht Hr. destruct (turn_kept _ _ _ _ _ _ _ Ht Hr) as (H1 & H2 & H3 & H4 & H5). split_and!; [|intros id'|done].
  - destruct Hp. split; rewrite ?H1, ?H2, ?H3, ?H4, ?H5; done.
  - unfold view. by rewrite H1, H3, H4.
Qed.

Lemma with_page_view X p id page : pool_ok X p → with_page id (λ q, q) p = Ok page → view p id = Some (seal page).
Proof.
  intros Hp. unfold with_page, slot_of, view. destruct (by_page (inner p) !! id) as [slot|]; [|done].
  rewrite result_bind_ok. unfold frame. destruct (frames (inner p) !! slot) as [f|]; [|done]. by intros [= <-].
Qed.

(** Every step keeps the invariant, is a step of the specification and writes by the rules. *)
Lemma step_sound durable op s s' :
  pool_ok s.1 s.2 → pool_step durable op s s' →
  pool_ok s'.1 s'.2 ∧ pages_step op (view s.2) (view s'.2) ∧ wrote durable s.2 s'.2.
Proof.
  intros Hp Hs. destruct Hs as [X p id owner d1 d2 o Hd1 Hd2|X p id owner HX|X p id d o Hd|X p d o Hd|X p id b
    |X p id owner r change p' Hpin Hgood Ht|X p id owner r change n p' Ht|X p id owner r change e p' Ht|X p id l p' Hl Hm
    |X p id l e p' Hl Hm]; cbn [fst snd pages_step] in *.
  - pose proof (pin_spec X p id owner d1 d2 o Hp) as H. destruct (pin id owner d1 d2 o p) as [res p'].
    destruct H as (H1 & H2 & H3 & _). split_and!; [done|done|by eapply wrote_mono].
  - destruct (unpin_spec X p id owner Hp HX) as (H1 & H2 & H3). split_and!; [done|done|by apply wrote_nothing].
  - destruct (flush_spec X p id d o Hp) as (H1 & H2 & H3). split_and!; [done|done|by eapply wrote_mono].
  - by apply (flush_all_spec X p d o durable Hp Hd).
  - destruct (set_in_progress_spec X p id b Hp) as (H1 & H2 & H3). split_and!; [done|done|by apply wrote_nothing].
  - destruct (change_spec X p id owner r change p' Hp Hpin Hgood Ht) as (H1 & H2 & page & Hpg & Hv & Ho).
    split_and!; [done| |by apply wrote_nothing]. split; [|done]. exists page. split; [by eapply with_page_view|done].
  - destruct (turn_ok X _ _ _ _ _ _ _ Hp Ht ltac:(done)) as (H1 & H2 & H3). split_and!; [done|done|by apply wrote_nothing].
  - destruct (turn_ok X _ _ _ _ _ _ _ Hp Ht ltac:(done)) as (H1 & H2 & H3). split_and!; [done|done|by apply wrote_nothing].
  - pose proof (mark_dirty_spec X p id l Hp Hl) as H. rewrite Hm in H. destruct H as (H1 & H2 & _ & Ho & page & Hpg & Hv).
    split_and!; [done| |by apply wrote_nothing]. split; [|done]. exists page. split; [by eapply with_page_view|done].
  - pose proof (mark_dirty_spec X p id l Hp Hl) as H. rewrite Hm in H. destruct H as [-> _].
    split_and!; [done|done|by apply wrote_nothing].
Qed.

Lemma pool_reachable_ok s : pool_reachable s → pool_ok s.1 s.2.
Proof.
  induction 1 as [path bytes d n p Hb Hd Hn|durable op s s' _ IH Hs]; [|by eapply step_sound].
  apply new_pool_ok with d n; [by eapply open_ok|done].
Qed.

(** ** The properties *)

(** C15. The buffer pool is a cache of the data file: over every history whose callers mark what
    they change, each operation does to the pages its callers see what it does to a map of pages.
    A change under a pin replaces its page by what the caller makes of it, a mark raises the
    number of its page to that of the record; pins, evictions by the clock, write backs that
    succeed or fail half way, flushes, waits and refusals leave every page as it was. *)
Theorem pool_refines_a_map_of_pages durable op X p X' p' :
  pool_reachable (X, p) → pool_step durable op (X, p) (X', p') → pages_step op (view p) (view p').
Proof. intros Hr%pool_reachable_ok Hs. by apply (step_sound durable op (X, p) (X', p')). Qed.

(** C16. No-steal and write-ahead: a page of the data file changes only when its frame is dirty,
    of no transaction in progress and carries the number of a record that is durable (or none);
    and each of its bytes is then the one it had or the one of that frame, sealed, a write that
    fails half way leaving some of each. *)
Theorem file_changes_by_the_rules durable op X p X' p' n :
  pool_reachable (X, p) → pool_step durable op (X, p) (X', p') → pages (file p') !! n ≠ pages (file p) !! n →
  ∃ slot f old new, frames (inner p) !! slot = Some f ∧ n = N.to_nat (f_id f) ∧
    f_dirty f = true ∧ f_in_progress f = false ∧
    (lsn (f_page f) = 0%N ∨ (lsn (f_page f) ≤ durable)%N) ∧
    pages (file p) !! n = Some old ∧ pages (file p') !! n = Some new ∧
    ∀ j, new !! j = old !! j ∨ new !! j = seal (f_page f) !! j.
Proof.
  intros Hr%pool_reachable_ok Hs Hne. destruct (step_sound durable op (X, p) (X', p') Hr Hs) as (_ & _ & Hw). cbn [fst snd] in Hw.
  destruct (Hw n) as [|(slot & f & old & new & H1 & H2 & H3 & H4 & H5 & H6)]; [done|].
  exists slot, f, old, new. split_and!; try naive_solver. unfold writable in H5.
  apply orb_true_iff in H5 as [->%N.eqb_eq|H5%N.leb_le]; auto.
Qed.

Lemma write_if_needed_Ok X p slot d1 d2 f :
  pool_ok X p → frames (inner p) !! slot = Some f → kept d1 f = false → (d1 ≤ d2)%N →
  ∃ b p', write_if_needed slot d2 Written p = (Ok b, p').
Proof.
  intros Hp Hf [_ Hk]%kept_false Hle. unfold write_if_needed. rewrite (proj2 (frame_Ok slot (inner p) f) Hf).
  destruct (f_dirty f); [|cbn; eauto]. destruct (Hk eq_refl) as [-> Hw]. cbn [negb orb].
  assert (writable (lsn (f_page f)) d2 = true) as ->.
  { unfold writable in *. apply orb_true_iff in Hw as [->|Hl%N.leb_le]; [done|]. apply orb_true_iff. right. apply N.leb_le. lia. }
  cbn [negb]. unfold write_page. destruct (b_frame X p Hp slot f Hf) as [_ Hlt]. unfold page_count in Hlt.
  cbn [with_inner file f_id with_page_bytes].
  destruct (lookup_lt_is_Some_2 (pages (file p)) (N.to_nat (f_id f)) ltac:(lia)) as [old ->]. eauto.
Qed.

Lemma pin_answers X p id owner d1 d2 :
  pool_ok X p → (d1 ≤ d2)%N →
  (pin id owner d1 d2 Written p).1 = Ok () ↔
  is_Some (by_page (inner p) !! id) ∨
  ∃ page, read_page id (file p) = Ok page ∧ page_id page = id ∧
    ((length (frames (inner p)) < capacity p)%nat ∨
     ∃ slot f, frames (inner p) !! slot = Some f ∧ kept d1 f = false).
Proof.
  intros Hp Hle. unfold pin. destruct (by_page (inner p) !! id) as [slot|] eqn:Hb.
  { apply (b_index X p Hp) in Hb as (f & Hf & _). rewrite (proj2 (frame_Ok slot (inner p) f) Hf). split; [eauto|done]. }
  destruct (read_page id (file p)) as [page|e] eqn:Hr; [|split; [done|]; intros [[? ?]|(? & ? & _)]; done].
  destruct (N.eqb_spec (page_id page) id) as [Hid|Hne]; cbn [negb].
  2: { split; [done|]. intros [[? ?]|(page' & ? & ? & _)]; [done|]. simplify_eq. }
  destruct (Nat.ltb_spec (length (frames (inner p))) (capacity p)) as [Hlt|Hge].
  { split; [|done]. intros _. right. exists page. auto. }
  assert (Hne : frames (inner p) ≠ []).
  { intros He. rewrite He in Hge. pose proof (b_capacity X p Hp). simpl in Hge. lia. }
  pose proof (clock_exact X p d1 Hp Hne) as Hex.
  pose proof (clock_spec X p (2 * length (frames (inner p))) d1 Hp Hne) as Hc. unfold choose_victim.
  destruct (clock (2 * length (frames (inner p))) d1 (inner p)) as [[[victim|]|e] i]; [| |by destruct Hc as (_ & _ & _ & [])].
  - destruct Hc as (H1 & _ & _ & f & f' & _ & Hf' & _ & Hk').
    destruct (write_if_needed_Ok X (with_inner i p) victim d1 d2 f' H1 Hf' Hk' Hle) as (b & p2 & Hw). rewrite Hw.
    destruct (write_if_needed_clean _ _ _ _ _ _ _ Hw Hf' ltac:(by apply kept_false in Hk' as [_ ?]; naive_solver)) as (f2 & Hf2 & _).
    rewrite (proj2 (frame_Ok victim (inner p2) f2) Hf2). split; [|done]. intros _. right. exists page.
    split_and!; [done|done|]. right. apply Hex. eauto.
  - split; [done|]. intros [[? ?]|(page' & _ & _ & [Hlt|Hfree])]; [done|lia|]. apply Hex in Hfree as (slot & i' & He). done.
Qed.

(** The clock misses no frame: a pin whose write back is not refused by the system succeeds
    exactly when the pool holds the page, or the page reads back from the file and there is room
    or a frame that no rule keeps.  Two turns of the hand are enough. *)
Theorem pin_finds_a_frame X p id owner d1 d2 :
  pool_reachable (X, p) → (d1 ≤ d2)%N →
  (pin id owner d1 d2 Written p).1 = Ok () ↔
  is_Some (by_page (inner p) !! id) ∨
  ∃ page, read_page id (file p) = Ok page ∧ page_id page = id ∧
    ((length (frames (inner p)) < capacity p)%nat ∨
     ∃ slot f, frames (inner p) !! slot = Some f ∧ kept d1 f = false).
Proof. intros Hp%pool_reachable_ok. by apply (pin_answers X). Qed.

(** The pins a change does not wait for. *)
Definition spared (owner : ThreadId) (i : Inner) (h : ThreadId * N) : Prop :=
  h.1 = owner ∨ h.1 ∈ waiting i ∨ h.2 = 0%N.

Lemma others_zero owner i f : others owner i f = 0%N ↔ Forall (spared owner i) (f_holders f).
Proof.
  unfold others. induction (f_holders f) as [|[t n] l IH]; [done|]. rewrite Forall_cons. cbn [List.filter fst].
  unfold spared at 1. cbn [fst snd].
  destruct (N.eqb_spec t owner) as [->|Hne]; cbn [negb andb]; [tauto|].
  case_bool_decide as Hw; cbn [negb]; [tauto|]. cbn [fmap list_fmap foldr snd]. rewrite N.eq_add_0, IH. tauto.
Qed.

(** A change is made under an exclusive pin and changers do not wait for each other: it is made
    when every pin of the page but the one of its thread belongs to a thread that waits too, it is
    refused to a thread with two pins, and it waits for a thread that runs and holds a pin, being
    itself registered as waiting. *)
Theorem changers_wait_for_running_threads p id owner registered change slot f :
  by_page (inner p) !! id = Some slot → frames (inner p) !! slot = Some f →
  match change_turn id owner registered change p with
  | (Changed, _) => ∀ t n, (t, n) ∈ f_holders f → t = owner ∨ t ∈ waiting (inner p) ∨ n = 0%N
  | (Refused _, _) => (1 < pins_of owner f)%N
  | (Waits _, p') =>
      (∃ t n, (t, n) ∈ f_holders f ∧ t ≠ owner ∧ t ∉ waiting (inner p') ∧ (0 < n)%N) ∧
      (registered = false → owner ∈ waiting (inner p'))
  end.
Proof.
  intros Hb Hf. unfold change_turn, slot_of. rewrite Hb, result_bind_ok, (proj2 (frame_Ok slot (inner p) f) Hf), result_bind_ok.
  destruct (N.ltb_spec 1 (pins_of owner f)) as [Hmine|_]; [done|].
  destruct (N.eqb_spec (others owner (inner p) f) 0) as [Hz|Hnz].
  - intros t n Hin. apply others_zero in Hz. exact (proj1 (Forall_forall _ _) Hz (t, n) Hin).
  - rewrite others_zero in Hnz. unfold spared in Hnz. apply not_Forall_Exists in Hnz; [|intros h; apply _].
    apply Exists_exists in Hnz as ([t n] & Hin & Hn). unfold compose in Hn. simpl in Hn.
    assert (t ≠ owner ∧ t ∉ waiting (inner p) ∧ n ≠ 0%N) as (H1 & H2 & H3) by tauto.
    destruct registered; cbn; (split; [exists t, n; split_and!; [done|done|set_solver|lia]|done || set_solver]).
Qed.

(** ** Witnesses *)

Definition sample_pages : list Page := [seal (empty Heap 0); seal (empty Heap 1)].
Definition sample_pool : BufferPool := mkBufferPool (mkDataFile "data" sample_pages) 1 (mkInner [] ∅ 0 []).

Lemma empty_good k id : (id ≤ u64_max)%N → page_good id (empty k id).
Proof.
  intros Hid. pose proof (empty_header k id Hid) as Hh. split_and!; [apply empty_ok| |].
  - rewrite Hh. split_and!; [done|done|by exists k].
  - exact (f_equal h_page_id Hh).
Qed.

Lemma sample_reachable : pool_reachable (∅, sample_pool).
Proof.
  assert (Hok : Forall page_ok sample_pages) by (apply Forall_cons_2, Forall_singleton; apply seal_ok, empty_ok).
  apply (reachable_new "data" (concat sample_pages) (mkDataFile "data" sample_pages) 1); [| |done].
  - apply Forall_concat. eapply Forall_impl; [exact Hok|]. by intros p [_ ?].
  - apply open_concat. eapply Forall_impl; [exact Hok|]. by intros p [? _].
Qed.

Lemma sample_read : read_page 0 (file sample_pool) = Ok (seal (empty Heap 0)) ∧ page_id (seal (empty Heap 0)) = 0%N.
Proof. destruct (seal_good 0 (empty Heap 0)) as [(_ & _ & Hid) Hr]; [by apply empty_good|]. by split. Qed.

Lemma pin_finds_a_frame_witness : (pin 0 1 0 0 Written sample_pool).1 = Ok ().
Proof.
  apply (pin_finds_a_frame ∅ sample_pool 0 1 0 0 sample_reachable); [done|]. right.
  exists (seal (empty Heap 0)). destruct sample_read as [Hr Hid]. split_and!; [exact Hr|exact Hid|]. left. cbn. lia.
Defined.

(** Page 0 pinned by thread 1, changed, and tied to record 5. *)
Definition pool_1 : BufferPool := (pin 0 1 0 0 Written sample_pool).2.
Definition pool_2 : BufferPool := (change_turn 0 1 false (set_slot_count 3) pool_1).2.
Definition pool_3 : BufferPool := (mark_dirty 0 5 pool_2).2.

Lemma set_slot_count_good id s p : unsigned_fits 2 s → page_good id p → page_good id (set_slot_count s p).
Proof.
  intros Hs (Hp & Hh & Hid). pose proof (header_set_slot_count s p Hp Hs) as He. split_and!.
  - apply set_field_ok; [done|unfold OFF_SLOT_COUNT; lia].
  - by rewrite He.
  - pose proof (f_equal h_page_id He) as Hi. cbn [header_of h_page_id with_slot_count] in Hi. congruence.
Qed.

Lemma pool_1_reachable : pool_reachable (∅, pool_1).
Proof. eapply (reachable_next 0 (Pins 0)); [exact sample_reachable|]. by apply step_pin. Qed.

Lemma pool_2_reachable : pool_reachable ({[0%N]}, pool_2).
Proof.
  assert (({[0%N]} : gset PageId) = ∅ ∪ {[0%N]}) as -> by set_solver.
  eapply (reachable_next 0 (Changes 0 (set_slot_count 3))); [exact pool_1_reachable|]. apply (step_change 0 ∅ pool_1 0 1 false (set_slot_count 3)).
  - pose proof (pin_spec ∅ sample_pool 0 1 0 0 Written (pool_reachable_ok _ sample_reachable)) as Hs.
    assert (Hok : (pin 0 1 0 0 Written sample_pool).1 = Ok ()) by (by vm_compute).
    unfold pool_1. destruct (pin 0 1 0 0 Written sample_pool) as [r p]. cbn [fst snd] in *. by apply Hs.
  - intros q. apply set_slot_count_good. unfold unsigned_fits. lia.
  - assert (Hok : (change_turn 0 1 false (set_slot_count 3) pool_1).1 = Changed) by (by vm_compute).
    unfold pool_2. destruct (change_turn 0 1 false (set_slot_count 3) pool_1). by cbn in *; subst.
Qed.

Lemma pool_3_reachable : pool_reachable (∅, pool_3).
Proof.
  assert ((∅ : gset PageId) = {[0%N]} ∖ {[0%N]}) as -> by set_solver.
  eapply (reachable_next 0 (Marks 0 5)); [exact pool_2_reachable|]. apply step_mark; [done|].
  assert (Hok : (mark_dirty 0 5 pool_2).1 = Ok ()) by (by vm_compute).
  unfold pool_3. destruct (mark_dirty 0 5 pool_2). by cbn in *; subst.
Qed.

Lemma pool_refines_a_map_of_pages_witness :
  (∀ id, view (flush 0 5 Written pool_3).2 id = view pool_3 id) ∧
  (flush 0 5 Written pool_3).2.(file).(pages) !! 0%nat ≠ pool_3.(file).(pages) !! 0%nat.
Proof.
  split.
  - apply (pool_refines_a_map_of_pages 5 (Flushes 0) ∅ pool_3 ∅ (flush 0 5 Written pool_3).2 pool_3_reachable). by apply step_flush.
  - intros E. apply (f_equal (λ o, nth 28 (default [] o) 0)) in E. by vm_compute in E.
Defined.

Lemma file_changes_by_the_rules_witness :
  ∃ slot f old new, frames (inner pool_3) !! slot = Some f ∧ 0%nat = N.to_nat (f_id f) ∧
    f_dirty f = true ∧ f_in_progress f = false ∧ (lsn (f_page f) = 0%N ∨ (lsn (f_page f) ≤ 5)%N) ∧
    pages (file pool_3) !! 0%nat = Some old ∧ pages (file (flush 0 5 Written pool_3).2) !! 0%nat = Some new ∧
    ∀ j, new !! j = old !! j ∨ new !! j = seal (f_page f) !! j.
Proof.
  apply (file_changes_by_the_rules 5 (Flushes 0) ∅ pool_3 ∅ (flush 0 5 Written pool_3).2 0 pool_3_reachable).
  - by apply step_flush.
  - intros E. apply (f_equal (λ o, nth 28 (default [] o) 0)) in E. by vm_compute in E.
Defined.

(** Two threads hold a pin on page 0 and the second changes it. *)
Definition shared_frame : Frame := mkFrame 0 (empty Heap 0) 2 [(1%N, 1%N); (2%N, 1%N)] false false true.
Definition shared_pool : BufferPool :=
  mkBufferPool (mkDataFile "data" sample_pages) 1 (mkInner [shared_frame] {[0%N := 0%nat]} 0 []).

Lemma changers_wait_for_running_threads_witness :
  match change_turn 0 2 false (set_slot_count 3) shared_pool with
  | (Changed, _) => ∀ t n, (t, n) ∈ f_holders shared_frame → t = 2%N ∨ t ∈ waiting (inner shared_pool) ∨ n = 0%N
  | (Refused _, _) => (1 < pins_of 2 shared_frame)%N
  | (Waits _, p') =>
      (∃ t n, (t, n) ∈ f_holders shared_frame ∧ t ≠ 2%N ∧ t ∉ waiting (inner p') ∧ (0 < n)%N) ∧
      (false = false → 2%N ∈ waiting (inner p'))
  end.
Proof. by apply (changers_wait_for_running_threads shared_pool 0 2 false (set_slot_count 3) 0 shared_frame). Defined.
