(* ===== verification/DiskFacts.v ===== *)
(** * Facts about the instance on disk

    A weakest precondition for the operations of [Disk], and its rules for the pins, the reads
    and the changes of a thread that holds no other pin. *)

From S2P Require Import Control Prelude Errors Bytes Crc Page Wal PageWrite PageWriteFacts DataFile.
From S2P Require Import BufferPool BufferFacts PoolTheorems Disk.

(** ** The sizes a pool keeps *)

Lemma write_page_count id page o d : page_count (write_page id page o d).2 = page_count d.
Proof.
  unfold write_page, page_count. destruct (pages d !! N.to_nat id); [|done]. destruct o; cbn [snd pages]; by rewrite length_insert.
Qed.

Definition same_size (p p' : BufferPool) : Prop :=
  page_count (file p') = page_count (file p) ∧ capacity p' = capacity p.

Lemma write_if_needed_size slot durable o p : same_size p (write_if_needed slot durable o p).2.
Proof.
  unfold write_if_needed. destruct (frame slot (inner p)) as [f|]; [|done]. destruct (_ || _); [done|].
  destruct (negb _); [done|]. cbn zeta.
  cbn [file with_inner].
  match goal with |- context [write_page ?i ?page o ?d] =>
    pose proof (write_page_count i page o d); destruct (write_page i page o d) as [[]] end; done.
Qed.

Lemma pin_size id owner d1 d2 o p : same_size p (pin id owner d1 d2 o p).2.
Proof.
  unfold pin. destruct (by_page (inner p) !! id) as [slot|]; [by destruct (frame slot (inner p))|].
  destruct (read_page id (file p)); [|done]. destruct (negb _); [done|]. destruct (_ <? _)%nat; [done|].
  destruct (choose_victim d1 id (inner p)) as [[victim|e] i]; [|done].
  pose proof (write_if_needed_size victim d2 o (with_inner i p)) as Hs.
  destruct (write_if_needed victim d2 o (with_inner i p)) as [[b|e] q]; cbn [snd] in *; [|exact Hs].
  destruct (frame victim (inner q)); exact Hs.
Qed.

(** A pin caches no other page. *)
Lemma choose_victim_index d id i : by_page (choose_victim d id i).2 = by_page i.
Proof.
  unfold choose_victim. assert (Hc : by_page (clock (2 * length (frames i)) d i).2 = by_page i).
  { generalize (2 * length (frames i))%nat. intros n. revert i. induction n as [|n IH]; intros i; [done|]. cbn [clock].
    destruct (frame _ _) as [f|]; [|done]. destruct (kept d f); [by rewrite IH|]. destruct (f_referenced f); [by rewrite IH|done]. }
  by destruct (clock _ d i) as [[[]|] i'].
Qed.

Lemma write_if_needed_index slot durable o p : by_page (inner (write_if_needed slot durable o p).2) = by_page (inner p).
Proof.
  unfold write_if_needed. destruct (frame slot (inner p)) as [f|]; [|done]. destruct (_ || _); [done|]. destruct (negb _); [done|].
  cbn zeta. by destruct (write_page _ _ o _) as [[]].
Qed.

Lemma pin_index id owner d1 d2 o p i :
  is_Some (by_page (inner (pin id owner d1 d2 o p).2) !! i) → is_Some (by_page (inner p) !! i) ∨ i = id.
Proof.
  destruct (decide (i = id)) as [|Hne]; [by right|]. intros H. left. revert H. unfold pin.
  destruct (by_page (inner p) !! id) as [slot|]; [by destruct (frame slot (inner p))|].
  destruct (read_page id (file p)); [|done]. destruct (negb _); [done|]. destruct (_ <? _)%nat.
  { cbn. by rewrite lookup_insert_ne. }
  pose proof (choose_victim_index d1 id (inner p)) as Hc. destruct (choose_victim d1 id (inner p)) as [[victim|e] i']; cbn [snd] in *; [|cbn; by rewrite Hc].
  pose proof (write_if_needed_index victim d2 o (with_inner i' p)) as Hw.
  destruct (write_if_needed victim d2 o (with_inner i' p)) as [[b|e] q]; cbn [snd inner with_inner] in *; [|by rewrite Hw, Hc].
  destruct (frame victim (inner q)) as [f|]; cbn; [|by rewrite Hw, Hc].
  rewrite lookup_insert_ne by done. intros [x [_ Hx]%lookup_delete_Some]. rewrite Hw, Hc in Hx. eauto.
Qed.

(** ** A thread that holds at most one pin *)

Section thread.
Context (me : ThreadId).

Definition pins_are (mine : bool) (f : Frame) : Prop :=
  if mine then f_pins f = 1%N ∧ f_holders f = [(me, 1%N)] else f_pins f = 0%N ∧ f_holders f = [].

(** The one pin of the pool is that of [me] on [o]; no thread waits. *)
Definition quiet (o : option PageId) (p : BufferPool) : Prop :=
  waiting (inner p) = [] ∧
  ∀ slot f, frames (inner p) !! slot = Some f → pins_are (bool_decide (o = Some (f_id f))) f.

Lemma quiet_set o o' p slot f f' :
  quiet o p → frames (inner p) !! slot = Some f → f_id f' = f_id f →
  pins_are (bool_decide (o' = Some (f_id f))) f' →
  (∀ slot' g, frames (inner p) !! slot' = Some g → slot' ≠ slot → bool_decide (o' = Some (f_id g)) = bool_decide (o = Some (f_id g))) →
  quiet o' (with_inner (set_frame slot f' (inner p)) p).
Proof.
  intros [Hw Hq] Hf Hid Hp Ho. split; [done|]. intros slot' g. cbn [with_inner set_frame with_frames inner frames].
  intros Hg. destruct (decide (slot' = slot)) as [->|Hne].
  - rewrite list_lookup_insert_eq in Hg by by eapply lookup_lt_Some. injection Hg as <-. by rewrite Hid.
  - rewrite list_lookup_insert_ne in Hg by done. rewrite (Ho slot' g Hg Hne). by eapply Hq.
Qed.

Lemma quiet_kept o p p' : kept_frames p p' → quiet o p → quiet o p'.
Proof.
  intros [_ Hw _ Hk] [Hw' Hq]. split; [congruence|]. intros slot f' Hf'.
  destruct (Forall2_lookup_r _ _ _ _ _ Hk Hf') as (f & Hf & Hid & Hp & Hh & _).
  specialize (Hq slot f Hf). unfold pins_are in *. rewrite Hid, Hp, Hh. done.
Qed.

(** Two frames hold two pages. *)
Lemma frame_ids X p s1 s2 f1 f2 :
  pool_ok X p → frames (inner p) !! s1 = Some f1 → frames (inner p) !! s2 = Some f2 → s1 ≠ s2 → f_id f1 ≠ f_id f2.
Proof.
  intros Hp H1 H2 Hne Heq. apply Hne.
  assert (by_page (inner p) !! f_id f1 = Some s1) as E1 by (apply (b_index X p Hp); eauto).
  assert (by_page (inner p) !! f_id f2 = Some s2) as E2 by (apply (b_index X p Hp); eauto). congruence.
Qed.

Lemma quiet_hand p p' : quiet None p → frames (inner p') = frames (inner p) → waiting (inner p') = waiting (inner p) → quiet None p'.
Proof. intros [Hw Hq] Hf Hw'. split; [congruence|]. by rewrite Hf. Qed.

Lemma quiet_choose X p id d r i :
  pool_ok X p → quiet None p → frames (inner p) ≠ [] → choose_victim d id (inner p) = (r, i) → quiet None (with_inner i p).
Proof.
  intros Hp Hq Hne. unfold choose_victim. pose proof (clock_spec X p (2 * length (frames (inner p))) d Hp Hne) as Hc.
  destruct (clock _ d (inner p)) as [r' i']. destruct Hc as (_ & _ & Hk & _).
  destruct r' as [[slot|]|e]; intros [= <- <-]; by eapply quiet_kept.
Qed.

Lemma quiet_none_id p id : quiet None p →
  ∀ slot g, frames (inner p) !! slot = Some g → f_id g ≠ id → bool_decide (Some id = Some (f_id g)) = bool_decide (None = Some (f_id g)).
Proof. intros _ slot g _ Hne. rewrite !bool_decide_eq_false_2; congruence. Qed.

Lemma pin_quiet p id d1 d2 o :
  pool_ok ∅ p → quiet None p →
  quiet (match (pin id me d1 d2 o p).1 with Ok _ => Some id | Err _ => None end) (pin id me d1 d2 o p).2.
Proof.
  intros Hp Hq. unfold pin. destruct (by_page (inner p) !! id) as [slot|] eqn:Hb.
  { apply (b_index ∅ p Hp) in Hb as (f & Hf & <-). rewrite (proj2 (frame_Ok slot (inner p) f) Hf). cbn [fst snd].
    pose proof (proj2 Hq slot f Hf) as [Hpins Hh]. apply (quiet_set None _ p slot f); try done.
    - rewrite bool_decide_eq_true_2 by done. unfold pins_are. cbn. by rewrite Hpins, Hh.
    - intros slot' g Hg Hne. apply (quiet_none_id p (f_id f) Hq slot' g Hg). by eapply frame_ids. }
  destruct (read_page id (file p)) as [page|e]; [|done]. destruct (negb _); [done|].
  assert (Hno : ∀ slot g, frames (inner p) !! slot = Some g → f_id g ≠ id).
  { intros slot g Hg <-. assert (by_page (inner p) !! f_id g = Some slot) by (apply (b_index ∅ p Hp); eauto). congruence. }
  destruct (Nat.ltb_spec (length (frames (inner p))) (capacity p)) as [Hlt|Hge]; cbn [fst snd].
  { split; [apply Hq|]. cbn [inner with_inner frames]. intros slot f [Hf|[_ Hf]]%lookup_app_Some.
    - rewrite (quiet_none_id p id Hq slot f Hf) by by eapply Hno. by apply (proj2 Hq slot).
    - apply list_lookup_singleton_Some in Hf as [_ <-]. by rewrite bool_decide_eq_true_2. }
  assert (Hne : frames (inner p) ≠ []) by (intros He; rewrite He in Hge; pose proof (b_capacity ∅ p Hp); cbn in *; lia).
  destruct (choose_victim d1 id (inner p)) as [r i] eqn:Hc. pose proof (quiet_choose ∅ p id d1 r i Hp Hq Hne Hc) as Hqi.
  destruct r as [victim|e]; [|done].
  assert (Hpi : pool_ok ∅ (with_inner i p) ∧ kept_frames p (with_inner i p)).
  { unfold choose_victim in Hc. pose proof (clock_spec ∅ p (2 * length (frames (inner p))) d1 Hp Hne) as Hk.
    destruct (clock _ d1 (inner p)) as [[[slot|]|e] i']; simplify_eq; naive_solver. }
  destruct (write_if_needed_spec ∅ (with_inner i p) victim d2 o (proj1 Hpi)) as (H2 & _ & _ & Hk2 & _).
  pose proof (quiet_kept _ _ _ Hk2 Hqi) as Hq2.
  destruct (write_if_needed victim d2 o (with_inner i p)) as [[b|e] q]; cbn [fst snd] in *; [|done].
  unfold frame. destruct (frames (inner q) !! victim) as [g|] eqn:Hv; [|done]. cbn [fst snd].
  split; [apply Hq2|]. cbn [with_inner inner frames set_frame with_frames]. intros slot f Hf.
  destruct (decide (slot = victim)) as [->|Hsv].
  - rewrite list_lookup_insert_eq in Hf by by eapply lookup_lt_Some. injection Hf as <-. by rewrite bool_decide_eq_true_2.
  - rewrite list_lookup_insert_ne in Hf by done. rewrite (quiet_none_id q id Hq2 slot f Hf); [by apply (proj2 Hq2 slot)|].
    destruct (Forall2_lookup_r _ _ _ _ _ (k_frames _ _ Hk2) Hf) as (f1 & Hf1 & Hid1 & _).
    destruct (Forall2_lookup_r _ _ _ _ _ (k_frames _ _ (proj2 Hpi)) Hf1) as (f0 & Hf0 & Hid0 & _). rewrite Hid1, Hid0. by eapply Hno.
Qed.

Lemma unpin_quiet X p id : pool_ok X p → quiet (Some id) p → quiet None (unpin id me p).
Proof.
  intros Hp Hq. unfold unpin.
  assert (Hother : ∀ slot g, frames (inner p) !! slot = Some g → f_id g ≠ id →
    bool_decide (None = Some (f_id g)) = bool_decide (Some id = Some (f_id g))).
  { intros slot g _ Hne. rewrite !bool_decide_eq_false_2; congruence. }
  destruct (by_page (inner p) !! id) as [slot|] eqn:Hb.
  - apply (b_index X p Hp) in Hb as (f & Hf & <-). rewrite (proj2 (frame_Ok slot (inner p) f) Hf).
    pose proof (proj2 Hq slot f Hf) as Hpins. rewrite bool_decide_eq_true_2 in Hpins by done. destruct Hpins as [Hn Hh].
    apply (quiet_set (Some (f_id f)) _ p slot f); try done.
    + rewrite bool_decide_eq_false_2 by done. unfold pins_are, remove_pin. rewrite Hn, Hh. cbn. by rewrite decide_True.
    + intros slot' g Hg Hne. apply (Hother slot' g Hg). by eapply frame_ids.
  - split; [apply Hq|]. intros slot g Hg. assert (f_id g ≠ id).
    { intros <-. assert (by_page (inner p) !! f_id g = Some slot) by (apply (b_index X p Hp); eauto). congruence. }
    pose proof (proj2 Hq slot g Hg) as Hpins. rewrite bool_decide_eq_false_2 in Hpins by congruence. by rewrite bool_decide_eq_false_2.
Qed.

Lemma quiet_same_pins X o p slot f f' :
  pool_ok X p → quiet o p → frames (inner p) !! slot = Some f → f_id f' = f_id f → f_pins f' = f_pins f → f_holders f' = f_holders f →
  quiet o (with_inner (set_frame slot f' (inner p)) p).
Proof.
  intros Hp Hq Hf Hid Hpn Hh. apply (quiet_set o o p slot f); try done.
  pose proof (proj2 Hq slot f Hf) as H. unfold pins_are in *. by rewrite Hpn, Hh.
Qed.

(** ** The invariant of the instance *)

Record disk_ok (o : option PageId) (X : gset PageId) (s : DiskStorage) : Prop := {
  d_pool : pool_ok X (pool s);
  d_quiet : quiet o (pool s);
  d_held : ∀ id, o = Some id → is_Some (by_page (inner (pool s)) !! id);
  d_last : (last_lsn (wal s) ≤ u64_max)%N;
  d_cached : ∀ id, is_Some (by_page (inner (pool s)) !! id) → (id < Control.next_page_id (control s))%N;
}.

(** The pages the thread sees, sealed. *)
Definition seen (s : DiskStorage) (id : PageId) : option Page := view (pool s) id.

(** A page that a transaction in progress has in the pool. *)
Definition busy (p : BufferPool) (id : PageId) : Prop :=
  ∃ slot f, frames (inner p) !! slot = Some f ∧ f_id f = id ∧ f_in_progress f = true.

Lemma busy_set p slot f f' id :
  frames (inner p) !! slot = Some f → f_id f' = f_id f → (f_in_progress f' = true → f_in_progress f = true) →
  busy (with_inner (set_frame slot f' (inner p)) p) id → busy p id.
Proof.
  intros Hf Hid Hip (slot' & g & Hg & <- & Hb). cbn in Hg. destruct (decide (slot' = slot)) as [->|Hne].
  - rewrite list_lookup_insert_eq in Hg by by eapply lookup_lt_Some. injection Hg as <-. exists slot, f. auto.
  - rewrite list_lookup_insert_ne in Hg by done. by exists slot', g.
Qed.

Lemma busy_kept p p' id : kept_frames p p' → busy p' id → busy p id.
Proof.
  intros [_ _ _ Hk] (slot & f' & Hf' & <- & Hb). destruct (Forall2_lookup_r _ _ _ _ _ Hk Hf') as (f & Hf & Hid & _ & _ & Hip & _).
  exists slot, f. split_and!; congruence.
Qed.

Lemma pin_busy X p id d1 d2 o i : pool_ok X p → busy (pin id me d1 d2 o p).2 i → busy p i.
Proof.
  intros Hp. unfold pin. destruct (by_page (inner p) !! id) as [slot|].
  { destruct (frame slot (inner p)) as [f|] eqn:Hf; [|done]. apply frame_Ok in Hf. by apply (busy_set p slot f). }
  destruct (read_page id (file p)) as [page|]; [|done]. destruct (negb _); [done|].
  destruct (Nat.ltb_spec (length (frames (inner p))) (capacity p)) as [Hlt|Hge].
  { intros (slot & f & Hf & <- & Hb). cbn in Hf. apply lookup_app_Some in Hf as [Hf|[_ Hf]]; [by exists slot, f|].
    apply list_lookup_singleton_Some in Hf as [_ <-]. done. }
  assert (Hne : frames (inner p) ≠ []) by (intros He; rewrite He in Hge; pose proof (b_capacity X p Hp); cbn in *; lia).
  unfold choose_victim. pose proof (clock_spec X p (2 * length (frames (inner p))) d1 Hp Hne) as Hc.
  destruct (clock _ d1 (inner p)) as [[[victim|]|e] j]; destruct Hc as (Hj & _ & Hk & _); [|by apply busy_kept..].
  destruct (write_if_needed_spec X (with_inner j p) victim d2 o Hj) as (_ & _ & _ & Hk2 & _).
  destruct (write_if_needed victim d2 o (with_inner j p)) as [[b|e] q]; cbn [snd] in *; [|intros Hb; by eapply busy_kept, busy_kept].
  destruct (frame victim (inner q)) as [g|] eqn:Hg; cbn [snd]; [|intros Hb; by eapply busy_kept, busy_kept].
  apply frame_Ok in Hg. intros (slot & f & Hf & <- & Hb). cbn in Hf. eapply busy_kept, busy_kept; [exact Hk|exact Hk2|].
  destruct (decide (slot = victim)) as [->|Hsv].
  - rewrite list_lookup_insert_eq in Hf by by eapply lookup_lt_Some. injection Hf as <-. done.
  - rewrite list_lookup_insert_ne in Hf by done. by exists slot, f.
Qed.

(** All but the pages is as it was, and no transaction has taken a page. *)
Record like (s s' : DiskStorage) : Prop := {
  l_dir : dir s' = dir s;
  l_control : control s' = control s;
  l_files : files s' = files s;
  l_wal : wal s' = wal s;
  l_size : same_size (pool s) (pool s');
  l_answers : answers s = [] → answers s' = [];
  l_busy : ∀ id, busy (pool s') id → busy (pool s) id;
}.

#[export] Instance like_preorder : PreOrder like.
Proof.
  split; [by split|]. intros s1 s2 s3 [? ? ? ? [] ? ?] [? ? ? ? [] ? ?]. split; try congruence; [|auto|auto]. split; congruence.
Qed.

(** *** The room in the pool *)

(** A page the pool cannot give up: a transaction in progress has it, or its record is not
    durable yet. *)
Definition tied (s : DiskStorage) (id : PageId) : Prop :=
  busy (pool s) id ∨ ∃ page, seen s id = Some page ∧ (Wal.durable_lsn (wal s) < Page.lsn page)%N.

(** With [k] pages more of that kind, the pool still has a frame to give. *)
Definition room (s : DiskStorage) (k : nat) : Prop :=
  ∃ F : gset PageId, (∀ id, tied s id → id ∈ F) ∧ (size F + k < capacity (pool s))%nat.

(** The system refuses nothing, and the pool has a frame to give. *)
Definition willing (s : DiskStorage) : Prop := answers s = [] ∧ room s 0.

(** [n] pages at most have come to be tied. *)
Definition ties (n : nat) (s s' : DiskStorage) : Prop :=
  ∃ F : gset PageId, (size F ≤ n)%nat ∧ ∀ id, tied s' id → tied s id ∨ id ∈ F.

Lemma ties_none s s' : (∀ id, tied s' id → tied s id) → ties 0 s s'.
Proof. intros H. exists ∅. split; [by rewrite size_empty|]. intros id Hi. left. by apply H. Qed.

Lemma ties_trans n m s1 s2 s3 : ties n s1 s2 → ties m s2 s3 → ties (n + m) s1 s3.
Proof.
  intros (F & HF & H1) (G & HG & H2). exists (F ∪ G). split.
  - rewrite size_union_alt. pose proof (subseteq_size (G ∖ F) G ltac:(set_solver)). lia.
  - intros id [Hi|Hi]%H2; [apply H1 in Hi as [?|?]|]; set_solver.
Qed.

Lemma ties_le n m s s' : ties n s s' → (n ≤ m)%nat → ties m s s'.
Proof. intros (F & HF & H) ?. exists F. split; [lia|done]. Qed.

Lemma room_le s k k' : room s k → (k' ≤ k)%nat → room s k'.
Proof. intros (F & HF & H) ?. exists F. split; [done|lia]. Qed.

Lemma room_ties n k s s' : ties n s s' → capacity (pool s') = capacity (pool s) → room s (n + k) → room s' k.
Proof.
  intros (F & HF & H) Hc (G & HG & Hk). exists (F ∪ G). split.
  - intros id [Hi|Hi]%H; [|set_solver]. apply HG in Hi. set_solver.
  - rewrite Hc, size_union_alt. pose proof (subseteq_size (G ∖ F) G ltac:(set_solver)). lia.
Qed.

Lemma tied_seen s s' id :
  tied s' id → (busy (pool s') id → busy (pool s) id) → seen s' id = seen s id →
  (Wal.durable_lsn (wal s) ≤ Wal.durable_lsn (wal s'))%N → tied s id.
Proof.
  intros [Hb|(page & Hp & Hl)] Hbusy Hs Hd; [left; auto|right]. exists page. split; [congruence|lia].
Qed.

(** The pages of [X] have changed. *)
Lemma like_ties_at (X : gset PageId) s s' : like s s' → (∀ i, i ∉ X → seen s' i = seen s i) → ties (size X) s s'.
Proof.
  intros Hl Hv. exists X. split; [done|]. intros id Hi. destruct (decide (id ∈ X)) as [|Hn]; [by right|left].
  apply (tied_seen s s'); [done|apply Hl|by apply Hv|by rewrite (l_wal _ _ Hl)].
Qed.

Lemma like_ties s s' : like s s' → (∀ i, seen s' i = seen s i) → ties 0 s s'.
Proof. intros Hl Hv. rewrite <- (size_empty (C := gset PageId)). apply like_ties_at; [done|by intros]. Qed.

Lemma like_ties_one s s' id : like s s' → (∀ i, i ≠ id → seen s' i = seen s i) → ties 1 s s'.
Proof.
  intros Hl Hv. rewrite <- (size_singleton (C := gset PageId) id). apply like_ties_at; [done|]. intros i Hi. apply Hv. set_solver.
Qed.

Lemma like_willing s s' : like s s' → (∀ i, seen s' i = seen s i) → willing s → willing s'.
Proof.
  intros Hl Hv [Ha Hr]. split; [by apply Hl|]. apply (room_ties 0 0 s); [by apply like_ties|apply (l_size _ _ Hl)|done].
Qed.

Lemma seen_in_file o X s id page : disk_ok o X s → seen s id = Some page → (id < page_count (data s))%N.
Proof.
  intros Hok. unfold seen, view. destruct (by_page (inner (pool s)) !! id) as [slot|] eqn:Hb.
  - apply (b_index X _ (d_pool _ _ _ Hok)) in Hb as (f & Hf & <-). intros _. by apply (b_frame X _ (d_pool _ _ _ Hok) slot f).
  - destruct (read_page id (file (pool s))) as [q|] eqn:Hr; [|done]. destruct (N.eqb_spec (page_id q) id); [|done]. intros _.
    by destruct (read_page_good id _ q (b_file X _ (d_pool _ _ _ Hok)) Hr) as (_ & ? & _).
Qed.

(** A pool of more frames than the file has pages has always room. *)
Lemma small_file_room o X s k :
  disk_ok o X s → (N.to_nat (page_count (data s)) + k < capacity (pool s))%nat → room s k.
Proof.
  intros Hok Hc. exists (list_to_set (N.of_nat <$> seq 0 (N.to_nat (page_count (data s))))). split.
  - intros id Hi. assert (Hlt : (id < page_count (data s))%N).
    { destruct Hi as [(slot & f & Hf & <- & _)|(page & Hp & _)]; [by apply (b_frame X _ (d_pool _ _ _ Hok) slot f)|by eapply seen_in_file]. }
    apply elem_of_list_to_set, list_elem_of_fmap. exists (N.to_nat id). split; [lia|]. apply elem_of_seq. lia.
  - rewrite size_list_to_set; [by rewrite length_fmap, length_seq|]. apply NoDup_fmap_2; [|apply NoDup_seq]. intros x y. lia.
Qed.

(** ** The weakest precondition *)

Definition wp {A} (m : disk A) (Q : A → DiskStorage → Prop) (E : InternalError → DiskStorage → Prop) (s : DiskStorage) : Prop :=
  match m s with
  | (Ok a, s') => Q a s'
  | (Err (Fails e), s') => E e s'
  | (Err Hangs, _) => False
  end.

Lemma wp_ret {A} (a : A) Q E s : Q a s → wp (mret a) Q E s.
Proof. done. Qed.

Lemma wp_bind {A B} (m : disk A) (f : A → disk B) Q E s : wp m (λ a, wp (f a) Q E) E s → wp (m ≫= f) Q E s.
Proof. unfold wp, mbind, stateful_bind. destruct (m s) as [[a|[e|]] s']; done. Qed.

Lemma wp_mono {A} (m : disk A) Q Q' E E' s :
  wp m Q E s → (∀ a s', Q a s' → Q' a s') → (∀ e s', E e s' → E' e s') → wp m Q' E' s.
Proof. unfold wp. destruct (m s) as [[a|[e|]] s']; auto. Qed.

Lemma wp_lift {A} (r : result InternalError A) Q E s :
  (∀ a, r = Ok a → Q a s) → (∀ e, r = Err e → E e s) → wp (lift r) Q E s.
Proof. destruct r; intros H1 H2; [by apply H1|by apply H2]. Qed.

(** The first three steps of a sequence, taken as one. *)
Lemma wp_three {A B C D} (a : disk A) (b : A → disk B) (c : B → disk C) (k : disk D) Q E s :
  wp (x ← a; y ← b x; c y) (λ _, wp k Q E) E s → wp (x ← a; y ← b x; _ ← c y; k) Q E s.
Proof.
  unfold wp, mbind, stateful_bind. destruct (a s) as [[x|[e|]] s1]; try done. destruct (b x s1) as [[y|[e|]] s2]; try done.
  by destruct (c y s2) as [[z|[e|]] s3].
Qed.

(** Walks are inductions whose steps are bound. *)
Lemma wp_inv {A} (m : disk A) Q E s r s' : wp m Q E s → m s = (r, s') →
  match r with Ok a => Q a s' | Err (Fails e) => E e s' | Err Hangs => False end.
Proof. unfold wp. intros H He. by rewrite He in H. Qed.

(** ** Pins *)

Lemma count_below (l : list N) n : NoDup l → (∀ x, x ∈ l → (x < n)%N) → (length l ≤ N.to_nat n)%nat.
Proof.
  intros Hd Hl. rewrite <- (length_seq (N.to_nat n) 0), <- (length_fmap N.of_nat). apply NoDup_incl_length; [by apply NoDup_ListNoDup|].
  intros x Hx%list_elem_of_In. apply list_elem_of_In, list_elem_of_fmap. exists (N.to_nat x). rewrite elem_of_seq.
  pose proof (Hl x Hx). lia.
Qed.

Lemma frame_ids_nodup X p : pool_ok X p → NoDup (f_id <$> frames (inner p)).
Proof.
  intros Hp. apply NoDup_alt. intros i j x Hi Hj. apply list_lookup_fmap_Some in Hi as (f & -> & Hf).
  apply list_lookup_fmap_Some in Hj as (g & Hgf & Hg). destruct (decide (i = j)); [done|]. by destruct (frame_ids X p i j f g Hp Hf Hg).
Qed.

(** Of more frames than pages that are tied, one may be given up. *)
Lemma frame_outside X p (F : gset PageId) :
  pool_ok X p → (size F < length (frames (inner p)))%nat → ∃ slot f, frames (inner p) !! slot = Some f ∧ f_id f ∉ F.
Proof.
  intros Hp Hlt. destruct (decide (Forall (λ f, f_id f ∈ F) (frames (inner p)))) as [Hall|Hn].
  - exfalso. pose proof (frame_ids_nodup X p Hp) as Hnd. assert (Hs : list_to_set (f_id <$> frames (inner p)) ⊆ F).
    { intros id (f & -> & Hf)%elem_of_list_to_set%list_elem_of_fmap. by apply (proj1 (Forall_forall _ _) Hall). }
    apply subseteq_size in Hs. rewrite size_list_to_set, length_fmap in Hs by done. lia.
  - apply not_Forall_Exists in Hn; [|intros f; apply _]. apply Exists_exists in Hn as (f & [slot Hf]%list_elem_of_lookup & Hni). eauto.
Qed.

Lemma pin_succeeds s id :
  disk_ok None ∅ s → is_Some (seen s id) → room s 0 →
  let d := Wal.durable_lsn (wal s) in (pin id me d d Written (pool s)).1 = Ok ().
Proof.
  intros [Hp Hq _ _ _] [page Hv] (F & HF & Hlt) d. apply (pin_answers ∅ (pool s) id me d d Hp ltac:(done)).
  unfold seen, view in Hv. destruct (by_page (inner (pool s)) !! id) as [slot|] eqn:Hb; [by left; eauto|right].
  destruct (read_page id (file (pool s))) as [q|] eqn:Hr; [|done]. destruct (N.eqb_spec (page_id q) id) as [Hid|]; [|done].
  exists q. split_and!; [done|done|]. destruct (decide (length (frames (inner (pool s))) < capacity (pool s))%nat) as [|Hge]; [by left|right].
  destruct (frame_outside ∅ (pool s) F Hp ltac:(lia)) as (slot & f & Hf & Hni). exists slot, f. split; [done|].
  unfold kept. apply orb_false_iff. split.
  - pose proof (proj2 Hq slot f Hf) as Hpn. rewrite bool_decide_eq_false_2 in Hpn by done. by destruct Hpn as [-> _].
  - destruct (f_dirty f); [|done]. cbn. apply orb_false_iff. split.
    + destruct (f_in_progress f) eqn:Hip; [|done]. exfalso. apply Hni, HF. left. by exists slot, f.
    + apply negb_false_iff, orb_true_iff. right. apply N.leb_le. destruct (decide (Page.lsn (f_page f) ≤ d)%N) as [|Hg]; [done|].
      exfalso. apply Hni, HF. right. exists (seal (f_page f)). split; [by apply (view_frame ∅ _ slot)|].
      rewrite page_lsn_seal by apply (b_frame ∅ _ Hp slot f Hf). fold d. lia.
Qed.

Lemma wp_answer Q E s :
  (∀ o l, (answers s = [] → o = Done ∧ l = []) → Q o (with_answers l s)) → wp answer Q E s.
Proof.
  intros H. unfold wp, answer. destruct (answers s) as [|o l] eqn:Ha; [|by apply H].
  destruct s as [d c f p w a]. cbn in Ha. subst a. by apply (H Done []).
Qed.

Lemma wp_pin id Q E s :
  disk_ok None ∅ s → (id < Control.next_page_id (control s))%N →
  (∀ s', disk_ok (Some id) ∅ s' → like s s' → (∀ i, seen s' i = seen s i) → is_Some (seen s id) → Q () s') →
  (∀ e s', disk_ok None ∅ s' → like s s' → (∀ i, seen s' i = seen s i) → (is_Some (seen s id) → ¬ willing s) → E e s') →
  wp (pool_pin me id) Q E s.
Proof.
  intros Hdisk Hid HQ HE. pose proof Hdisk as [Hp Hq _ Hl Hca]. unfold pool_pin. apply wp_bind, wp_answer. intros o l Ho. unfold wp, wal_durable_lsn, on_pool, mbind, stateful_bind.
  cbn [wal pool with_answers]. set (d := Wal.durable_lsn (wal s)).
  pose proof (pin_spec ∅ (pool s) id me d d (to_write o) Hp) as Hs. pose proof (pin_quiet (pool s) id d d (to_write o) Hp Hq) as Hqu.
  pose proof (pin_index id me d d (to_write o) (pool s)) as Hix.
  pose proof (pin_size id me d d (to_write o) (pool s)) as Hsz. pose proof (pin_succeeds s id Hdisk) as Hok.
  assert (Hbusy := λ i, pin_busy ∅ (pool s) id d d (to_write o) i Hp).
  destruct (pin id me d d (to_write o) (pool s)) as [[[]|e] p'] eqn:Hpin; cbn [fst snd] in *; destruct Hs as (Hp' & Hv & _ & Hpd).
  - destruct (Hpd eq_refl) as (slot & f & Hb & Hf & <- & _). apply HQ; [| |done|].
    + split; try done; [intros i [= <-]; cbn; eauto|]. intros i Hi. destruct (Hix i Hi) as [? | ->]; [by apply Hca|done].
    + split; try done. intros Ha. by apply Ho.
    + unfold seen. rewrite <- Hv, (view_frame ∅ p' slot f Hp' Hf). done.
  - apply HE; [| |done|].
    + split; try done. intros i Hi. destruct (Hix i Hi) as [? | ->]; [by apply Hca|done].
    + split; try done. intros Ha. by apply Ho.
    + intros Hsome [Ha Hc]. destruct (Ho Ha) as [-> _]. specialize (Hok Hsome Hc). cbn zeta in Hok. change Written with (to_write Done) in Hok.
      fold d in Hok. by rewrite Hpin in Hok.
Qed.

(** The page the thread has pinned. *)
Definition current (s : DiskStorage) (id : PageId) (page : Page) : Prop := with_page id (λ q, q) (pool s) = Ok page.

Lemma held_frame X s id : disk_ok (Some id) X s →
  ∃ slot f, by_page (inner (pool s)) !! id = Some slot ∧ frames (inner (pool s)) !! slot = Some f ∧ f_id f = id ∧
    f_pins f = 1%N ∧ f_holders f = [(me, 1%N)] ∧ page_good id (f_page f) ∧ current s id (f_page f) ∧ seen s id = Some (seal (f_page f)).
Proof.
  intros [Hp Hq Hh _ _]. destruct (Hh id eq_refl) as [slot Hb]. pose proof Hb as Hb'. apply (b_index X _ Hp) in Hb' as (f & Hf & Hid).
  pose proof (proj2 Hq slot f Hf) as Hpins. rewrite bool_decide_eq_true_2 in Hpins by congruence. destruct Hpins as [H1 H2].
  exists slot, f. split_and!; try done.
  - rewrite <- Hid. by apply (b_frame X _ Hp slot f Hf).
  - unfold current, with_page, slot_of. rewrite Hb, result_bind_ok, (proj2 (frame_Ok slot _ f) Hf), result_bind_ok. done.
  - unfold seen. rewrite <- Hid. by apply (view_frame X _ slot).
Qed.

Lemma with_page_current {R} (read : Page → R) s id page : current s id page → with_page id read (pool s) = Ok (read page).
Proof.
  unfold current, with_page. destruct (slot_of id (inner (pool s))) as [slot|]; [|done]. rewrite !result_bind_ok.
  destruct (frame slot (inner (pool s))) as [f|]; [|done]. rewrite !result_bind_ok. congruence.
Qed.

Lemma wp_read {R} id (read : Page → R) Q E X s :
  disk_ok (Some id) X s →
  (∀ page, current s id page → page_good id page → seen s id = Some (seal page) → Q (read page) s) →
  wp (read_pinned id read) Q E s.
Proof.
  intros Hok HQ. destruct (held_frame X s id Hok) as (slot & f & _ & _ & _ & _ & _ & Hg & Hc & Hs).
  unfold wp, read_pinned. rewrite (with_page_current read s id _ Hc). cbn. by apply HQ.
Qed.

(** The pages with the one of [id] replaced. *)
Definition replaced (s s' : DiskStorage) (id : PageId) (page : Page) : Prop :=
  seen s' id = Some (seal page) ∧ ∀ i, i ≠ id → seen s' i = seen s i.

Lemma wp_change_at {R} id (change : Page → R * Page) page Q E s :
  disk_ok (Some id) ∅ s → current s id page →
  page_good id (change page).2 →
  (∀ s', disk_ok (Some id) {[id]} s' → like s s' → replaced s s' id (change page).2 → current s' id (change page).2 → Q (change page).1 s') →
  wp (with_page_mut me id change) Q E s.
Proof.
  intros Hok Hcur Hgood HQ. destruct (held_frame ∅ s id Hok) as (slot & f & Hb & Hf & Hid & Hpins & Hh & Hg & Hc & Hs).
  assert (f_page f = page) by (unfold current in *; congruence). subst page. destruct Hok as [Hp Hq Hhd Hl Hca].
  assert (Hfr : frame slot (inner (pool s)) = Ok f) by by apply frame_Ok.
  assert (Hall : ∀ ch, change_turn id me false ch (pool s) =
    (Changed, with_inner (set_frame slot (with_page_bytes (ch (f_page f)) f) (inner (pool s))) (pool s))).
  { intros ch. unfold change_turn, slot_of. rewrite Hb, result_bind_ok, Hfr, result_bind_ok.
    unfold pins_of, others. rewrite Hh. cbn [list_find fst]. rewrite decide_True by done. cbn.
    rewrite N.eqb_refl. cbn. done. }
  assert (Hpd : BufferFacts.pinned (pool s) id) by (exists slot, f; split_and!; try done; rewrite Hpins; done).
  pose proof (Hall (λ q, (change q).2)) as Hturn. cbn beta in Hturn.
  set (only := λ q, if decide (q = f_page f) then (change q).2 else q).
  assert (Honly : only (f_page f) = (change (f_page f)).2) by (unfold only; by rewrite decide_True).
  assert (Hg' : ∀ q, page_good id q → page_good id (only q)) by (intros q Hgq; unfold only; case_decide; [by subst q|done]).
  pose proof (Hall only) as Hturn'. rewrite Honly in Hturn'.
  destruct (change_spec ∅ (pool s) id me false only _ Hp Hpd Hg' Hturn') as (Hp' & Hfile & page & Hpage & Hv & Ho).
  assert (page = f_page f) as -> by (unfold current in *; congruence).
  rewrite Honly in Hv. unfold wp, with_page_mut. rewrite Hturn, (with_page_current _ s id _ Hc). apply HQ.
  - split; cbn [pool with_pool wal]; try done; [by rewrite union_empty_l_L in Hp'|].
    by apply (quiet_same_pins ∅ (Some id) _ slot f).
  - split; try done. intros i. by apply (busy_set (pool s) slot f).
  - split; [done|]. intros i Hi. by apply Ho.
  - set (g := with_page_bytes (change (f_page f)).2 f). set (p1 := with_inner (set_frame slot g (inner (pool s))) (pool s)).
    assert (Hb1 : by_page (inner p1) !! id = Some slot) by exact Hb.
    assert (Hf1 : frames (inner p1) !! slot = Some g) by (apply list_lookup_insert_eq; by eapply lookup_lt_Some).
    unfold current, with_page, slot_of. cbn [pool with_pool]. by rewrite Hb1, result_bind_ok, (proj2 (frame_Ok slot (inner p1) g) Hf1).
Qed.

Lemma wp_change {R} id (change : Page → R * Page) page Q E s :
  disk_ok (Some id) ∅ s → current s id page →
  (∀ q, page_good id q → page_good id (change q).2) →
  (∀ s', disk_ok (Some id) {[id]} s' → like s s' → replaced s s' id (change page).2 → current s' id (change page).2 → Q (change page).1 s') →
  wp (with_page_mut me id change) Q E s.
Proof.
  intros Hok Hc Hgood. apply wp_change_at; [done|done|]. apply Hgood.
  destruct (held_frame ∅ s id Hok) as (slot & f & _ & _ & _ & _ & _ & Hg & Hc' & _).
  assert (f_page f = page) as <- by (unfold current in *; congruence). done.
Qed.

Lemma seal_raise_lsn l page : (if (Page.lsn page <? l)%N then set_lsn l page else page) = raise_lsn l page.
Proof. done. Qed.

Lemma wp_mark id rec_lsn page Q E X s :
  disk_ok (Some id) X s → X ⊆ {[id]} → (rec_lsn ≤ u64_max)%N → current s id page →
  (∀ s', disk_ok (Some id) ∅ s' → like s s' → replaced s s' id (raise_lsn rec_lsn page) → Q () s') →
  wp (pool_mark_dirty id rec_lsn) Q E s.
Proof.
  intros Hok HX Hl Hcur HQ. destruct (held_frame X s id Hok) as (slot & f & Hb & Hf & Hid & Hpins & Hh & Hg & Hc & Hs).
  assert (f_page f = page) by (unfold current in *; congruence). subst page. destruct Hok as [Hp Hq Hhd Hll Hca].
  pose proof (mark_dirty_spec X (pool s) id rec_lsn Hp Hl) as Hm. unfold wp, pool_mark_dirty, on_pool.
  assert (Hmd : ∃ g, f_id g = f_id f ∧ f_pins g = f_pins f ∧ f_holders g = f_holders f ∧ f_in_progress g = f_in_progress f ∧
    mark_dirty id rec_lsn (pool s) = (Ok (), with_inner (set_frame slot g (inner (pool s))) (pool s))).
  { unfold mark_dirty. rewrite Hb, (proj2 (frame_Ok slot _ f) Hf), Hpins. cbn [N.eqb Pos.eqb].
    eexists. split_and!; [..|done]; by destruct (_ <? _)%N. }
  destruct Hmd as (g & Hg1 & Hg2 & Hg3 & Hg4 & Hmd). rewrite Hmd in *. destruct Hm as (Hp' & Hfile & _ & Ho & page & Hpage & Hv).
  assert (page = f_page f) as -> by (unfold current in *; congruence).
  apply HQ.
  - split; cbn [pool with_pool wal]; try done.
    + assert (X ∖ {[id]} = ∅) as <- by set_solver. done.
    + by apply (quiet_same_pins X (Some id) _ slot f).
  - split; try done. intros i. apply (busy_set (pool s) slot f); [done|done|by rewrite Hg4].
  - split; [done|]. intros i Hi. by apply Ho.
Qed.

Lemma wp_in_progress id Q E s :
  disk_ok (Some id) ∅ s →
  (∀ s', disk_ok (Some id) ∅ s' → like s s' → (∀ i, seen s' i = seen s i) → Q () s') →
  wp (pool_set_in_progress id false) Q E s.
Proof.
  intros Hok HQ. destruct (held_frame ∅ s id Hok) as (slot & f & Hb & Hf & _). destruct Hok as [Hp Hq Hhd Hl Hca].
  destruct (set_in_progress_spec ∅ (pool s) id false Hp) as (Hp' & Hv & Hfile).
  unfold wp, pool_set_in_progress, on_pool. unfold set_in_progress in *. rewrite Hb, (proj2 (frame_Ok slot _ f) Hf) in *. cbn [snd] in *.
  apply HQ; [|split; try done; intros i; by apply (busy_set (pool s) slot f)|done].
  split; cbn [pool with_pool wal]; try done. by apply (quiet_same_pins ∅ (Some id) _ slot f).
Qed.

(** The drop of the pin. *)
Lemma unpin_rule s id : disk_ok (Some id) ∅ s →
  let s' := with_pool (unpin id me (pool s)) s in disk_ok None ∅ s' ∧ like s s' ∧ ∀ i, seen s' i = seen s i.
Proof.
  intros [Hp Hq Hh Hl Hca]. destruct (unpin_spec ∅ (pool s) id me Hp ltac:(set_solver)) as (Hp' & Hv & Hf).
  assert (Hc : capacity (unpin id me (pool s)) = capacity (pool s)).
  { unfold unpin. destruct (by_page (inner (pool s)) !! id); [|done]. by destruct (frame _ _). }
  assert (Hbu : ∀ i, busy (unpin id me (pool s)) i → busy (pool s) i).
  { intros i. unfold unpin. destruct (by_page (inner (pool s)) !! id) as [slot|]; [|done].
    destruct (frame slot (inner (pool s))) as [f|] eqn:Hfr; [|done]. apply frame_Ok in Hfr. by apply (busy_set (pool s) slot f). }
  split_and!; [|split; try done; by split; [cbn [pool with_pool]; rewrite Hf|]|done].
  split; cbn [pool with_pool wal]; try done; [by eapply unpin_quiet|]. intros i Hi. apply Hca. revert Hi.
  unfold unpin. destruct (by_page (inner (pool s)) !! id); [|done]. by destruct (frame _ _).
Qed.

Lemma wp_pinned_for {A} id (body : disk A) Q E s :
  disk_ok None ∅ s → (id < Control.next_page_id (control s))%N →
  (∀ s1, disk_ok (Some id) ∅ s1 → like s s1 → (∀ i, seen s1 i = seen s i) → is_Some (seen s id) →
    wp body
      (λ a s2, disk_ok (Some id) ∅ s2 ∧ ∀ s3, disk_ok None ∅ s3 → like s2 s3 → (∀ i, seen s3 i = seen s2 i) → Q a s3)
      (λ e s2, disk_ok (Some id) ∅ s2 ∧ ∀ s3, disk_ok None ∅ s3 → like s2 s3 → (∀ i, seen s3 i = seen s2 i) → E e s3) s1) →
  (∀ e s', disk_ok None ∅ s' → like s s' → (∀ i, seen s' i = seen s i) → (is_Some (seen s id) → ¬ willing s) → E e s') →
  wp (pinned_for me id body) Q E s.
Proof.
  intros Hok Hlt Hbody HE. unfold pinned_for. apply wp_bind. apply wp_pin; [done|done| |done].
  intros s1 H1 Hl1 Hv1 Hsome. specialize (Hbody s1 H1 Hl1 Hv1 Hsome). unfold wp, then_unpin in *.
  destruct (body s1) as [[a|[e|]] s2]; [| |done]; destruct Hbody as [H2 Hk];
    destruct (unpin_rule s2 id H2) as (H3 & Hl3 & Hv3); by apply Hk.
Qed.
End thread.

(** ** The journal, the control block and the data file *)

Section others.
Context (me : ThreadId).

Lemma disk_ok_answers o X l s : disk_ok me o X s → disk_ok me o X (with_answers l s).
Proof. by intros []. Qed.
Lemma disk_ok_wal o X w s : (last_lsn w ≤ u64_max)%N → disk_ok me o X s → disk_ok me o X (with_wal w s).
Proof. by intros ? []. Qed.
Lemma disk_ok_files o X d s : disk_ok me o X s → disk_ok me o X (with_files d s).
Proof. by intros []. Qed.
Lemma disk_ok_control o X c d s :
  (Control.next_page_id (control s) ≤ Control.next_page_id c)%N → disk_ok me o X s → disk_ok me o X (with_control c (with_files d s)).
Proof. intros Hle [? ? ? ? Hca]. split; try done. intros id Hid. cbn. pose proof (Hca id Hid). lia. Qed.

Lemma wp_wal_flush Q E s :
  (∀ w l, last_lsn w = last_lsn (wal s) → Wal.durable_lsn w = N.max (Wal.durable_lsn (wal s)) (last_lsn (wal s)) →
    (answers s = [] → l = []) → Q () (with_wal w (with_answers l s))) →
  (∀ e w l, last_lsn w = last_lsn (wal s) → (answers s ≠ []) → E e (with_wal w (with_answers l s))) →
  wp wal_flush Q E s.
Proof.
  intros HQ HE. unfold wal_flush. apply wp_bind, wp_answer. intros o l Ho. unfold wp, on_wal, Wal.flush. cbn [wal with_answers].
  destruct o as [|n m]; cbn [to_sync sync_all].
  - apply HQ; [done| |naive_solver]. cbn. destruct (N.ltb_spec (Wal.durable_lsn (wal s)) (last_lsn (wal s))); lia.
  - apply HE; [done|]. intros Ha. by destruct (Ho Ha).
Qed.

Lemma wp_wal_append kind txn payload Q E s :
  (∀ w l lsn, lsn = (last_lsn (wal s) + 1)%N → last_lsn w = lsn → (lsn ≤ u64_max)%N → Wal.durable_lsn w = Wal.durable_lsn (wal s) →
    (answers s = [] → l = []) → Q lsn (with_wal w (with_answers l s))) →
  (∀ e w l, last_lsn w = last_lsn (wal s) → Wal.durable_lsn w = Wal.durable_lsn (wal s) → (answers s = [] → l = []) →
    (answers s = [] → (N.of_nat (length payload) ≤ MAX_PAYLOAD_LEN)%N → (u64_max ≤ last_lsn (wal s))%N) → E e (with_wal w (with_answers l s))) →
  wp (wal_append kind txn payload) Q E s.
Proof.
  intros HQ HE. unfold wal_append. apply wp_bind, wp_answer. intros o l Ho. unfold wp, on_wal, append. cbn [wal with_answers].
  destruct (N.ltb_spec MAX_PAYLOAD_LEN (N.of_nat (length payload))) as [Hlt|Hle]; [apply HE; [done|done|naive_solver|lia]|].
  destruct (checked_succ u64_max (last_lsn (wal s))) as [lsn|] eqn:Hc.
  - apply checked_succ_Some in Hc as [-> Hc]. destruct o as [|n m]; cbn [to_write write_all].
    + apply HQ; try done; [lia|naive_solver].
    + apply HE; [done|done|naive_solver|]. intros Ha. by destruct (Ho Ha).
  - apply HE; [done|done|naive_solver|]. intros _ _. destruct (N.ltb_spec (last_lsn (wal s)) u64_max); [|done].
    assert (checked_succ u64_max (last_lsn (wal s)) = Some (last_lsn (wal s) + 1)%N) by by apply checked_succ_Some. congruence.
Qed.

(** The seven answers of a write of the control file. *)
Lemma wp_write_control c Q E s :
  (∀ d l, ctl d = Some (to_bytes c) → (answers s = [] → l = []) → Q () (with_control c (with_files d (with_answers l s)))) →
  (∀ e d l, answers s ≠ [] → E e (with_files d (with_answers l s))) →
  wp (write_control c) Q E s.
Proof.
  intros HQ HE. unfold write_control.
  repeat (apply wp_bind, wp_answer; intros ? ? ?; cbn [answers with_answers] in * ).
  match goal with |- context [mkWriteCalls ?a ?b ?c ?d ?e ?f ?g] => set (calls := mkWriteCalls a b c d e f g) end.
  apply wp_bind. unfold wp at 1, on_files. cbn [files with_answers].
  destruct (Control.write calls c (files s)) as [[[]|e] d] eqn:Hw.
  - unfold wp, modifies. apply write_Ok in Hw as Hd. apply (HQ d); [apply Hd|naive_solver].
  - apply HE. intros Ha. assert (calls = all_done) as Hc by (unfold calls; naive_solver).
    rewrite Hc in Hw. pose proof (write_done c (files s)) as Hd. by rewrite Hw in Hd.
Qed.

Lemma wp_pool_flush id Q E s :
  disk_ok me None ∅ s →
  (∀ s', disk_ok me None ∅ s' → like s s' → (∀ i, seen s' i = seen s i) → Q () s') →
  (∀ e s', disk_ok me None ∅ s' → like s s' → (∀ i, seen s' i = seen s i) →
    (answers s = [] → ∃ page, seen s id = Some page ∧ (Wal.durable_lsn (wal s) < Page.lsn page)%N) → E e s') →
  wp (pool_flush id) Q E s.
Proof.
  intros [Hp Hq Hh Hl Hca] HQ HE. unfold pool_flush. apply wp_bind, wp_answer. intros o l Ho. apply wp_bind. unfold wp, wal_durable_lsn, on_pool.
  cbn [wal pool with_answers]. set (d := Wal.durable_lsn (wal s)) in *.
  destruct (flush_spec ∅ (pool s) id d (to_write o) Hp) as (Hp' & Hv & _). unfold BufferPool.flush in *.
  destruct (by_page (inner (pool s)) !! id) as [slot|] eqn:Hb.
  2: { cbn in *. apply HQ; [done| |done]. split; try done. intros Ha. by apply Ho. }
  destruct (write_if_needed_spec ∅ (pool s) slot d (to_write o) Hp) as (_ & _ & _ & Hk & _).
  pose proof (write_if_needed_index slot d (to_write o) (pool s)) as Hix. pose proof (write_if_needed_size slot d (to_write o) (pool s)) as Hsz. apply (b_index ∅ _ Hp) in Hb as (f & Hf & Hid).
  assert (Hfail : ∀ e p, write_if_needed slot d (to_write o) (pool s) = (Err e, p) → answers s = [] →
    ∃ page, seen s id = Some page ∧ (d < Page.lsn page)%N).
  { intros e p Hw Ha. destruct (Ho Ha) as [-> _]. unfold write_if_needed in Hw. rewrite (proj2 (frame_Ok slot _ f) Hf) in Hw.
    destruct (_ || _); [done|]. destruct (writable (Page.lsn (f_page f)) d) eqn:Hwr; cbn [negb] in Hw.
    - exfalso. cbn [to_write] in Hw. unfold write_page in Hw. destruct (b_frame ∅ _ Hp slot f Hf) as [_ Hlt]. unfold page_count in Hlt.
      cbn [with_inner file f_id with_page_bytes] in Hw.
      destruct (lookup_lt_is_Some_2 (pages (file (pool s))) (N.to_nat (f_id f)) ltac:(lia)) as [old Hold]. by rewrite Hold in Hw.
    - exists (seal (f_page f)). split; [rewrite <- Hid; by apply (view_frame ∅ _ slot)|].
      rewrite page_lsn_seal by apply (b_frame ∅ _ Hp slot f Hf). unfold writable in Hwr. apply orb_false_iff in Hwr as [_ ?%N.leb_gt]. lia. }
  unfold mbind, stateful_bind in *. destruct (write_if_needed slot d (to_write o) (pool s)) as [[b|e] p'] eqn:Hw; cbn [fst snd] in *.
  - apply HQ; [|split; try done; [naive_solver|intros i; by apply busy_kept]|done]. split; cbn [pool with_pool wal control]; try done; [by eapply quiet_kept|by rewrite Hix].
  - apply HE; [|split; try done; [naive_solver|intros i; by apply busy_kept]|done|intros Ha; by eapply Hfail]. split; cbn [pool with_pool wal control]; try done; [by eapply quiet_kept|by rewrite Hix].
Qed.
End others.
