(* ===== verification/Alloc.v ===== *)
(** * The page allocator

    [vauban-storage/src/disk/alloc.rs]: pages are handed out from a list of free pages whose
    links are in the pages and whose head is in the control block, or by growing the data
    file. *)

From S2P Require Import Control Prelude Errors Bytes Page HeapPage Wal DataFile BufferPool Disk.

#[local] Open Scope Z_scope.

Definition OFF_NEXT_FREE : nat := HEADER_SIZE.
Definition END_OF_FREE_LIST : Z := Z.of_N u64_max.
Definition FREE_PAGE_LOWER : Z := Z.of_nat (OFF_NEXT_FREE + 8).

Definition next_free (p : Page) : option PageId :=
  let next := read_u64 OFF_NEXT_FREE p in
  if next =? END_OF_FREE_LIST then None else Some (Z.to_N next).

Definition set_next_free (next : option PageId) (p : Page) : Page :=
  write_u64 OFF_NEXT_FREE (match next with None => END_OF_FREE_LIST | Some next => Z.of_N next end) p.

Definition with_free_head (head : option PageId) (c : Control) : Control :=
  mkControl (Control.next_page_id c) head (next_db_id c) (next_table_id c) (next_index_id c) (Control.next_row_id c)
    (latest_checkpoint_lsn c) (Control.durable_lsn c) (meta_root c).
Definition with_next_page_id (id : PageId) (c : Control) : Control :=
  mkControl id (free_head c) (next_db_id c) (next_table_id c) (next_index_id c) (Control.next_row_id c)
    (latest_checkpoint_lsn c) (Control.durable_lsn c) (meta_root c).

(** The page [grow_by_one_page] writes. *)
Definition fresh_free_page (id : PageId) : Page :=
  let page := empty Free id in
  let page := set_lower FREE_PAGE_LOWER page in
  let page := set_next_free None page in
  seal page.

Definition grow_by_one_page (id : PageId) : disk () :=
  _ ← data_extend_to (id + 1);
  data_write_page id (fresh_free_page id).

(** The change [free] makes to the page. *)
Definition make_free (head : option PageId) (last : Lsn) (p : Page) : Page :=
  let p := set_kind Free p in
  let p := set_slot_count 0 p in
  let p := set_lower FREE_PAGE_LOWER p in
  let p := set_next_free head p in
  raise_lsn last p.

Section thread.
Context (me : ThreadId).

Definition detach_head (head : PageId) : disk (option PageId) :=
  pinned_for me head (
    found ← read_pinned head (λ page, (kind page, next_free page));
    k ← lift found.1;
    path ← get_dir;
    if negb (bool_decide (k = Free)) then
      fail (Corruption [Lit "free list of instance "; Lit path; Lit " has head "; Num head; Lit ", whose kind is ";
        Lit (debug_kind k)])
    else mret found.2).

Definition allocate : disk PageId :=
  updated ← get_control;
  taken ← (match free_head updated with
           | Some head =>
               next ← detach_head head;
               mret (head, with_free_head next updated)
           | None =>
               let id := Control.next_page_id updated in
               path ← get_dir;
               if Z.of_N id =? END_OF_FREE_LIST then
                 fail (Bug [Lit "instance "; Lit path; Lit " has handed out "; Num id; Lit " pages; ";
                   Num (Z.to_N END_OF_FREE_LIST); Lit " is the sentinel of the free list, not a page"])
               else
                 _ ← grow_by_one_page id;
                 mret (id, with_next_page_id (id + 1) updated)
           end);
  let '(id, updated) := taken in
  _ ← write_control updated;
  mret id.

Definition count_the_pages_of_data : disk () :=
  pages ← data_page_count;
  control ← get_control;
  if (pages <=? Control.next_page_id control)%N then mret ()
  else write_control (with_next_page_id pages control).

(** [sync_data]: the open and the [sync_all] of its own handle. *)
Definition sync_data : disk () :=
  o ← answer;
  match o with
  | Failed _ m => fail (Io m)
  | Done => o ← answer; match o with Failed _ m => fail (Io m) | Done => mret () end
  end.

Definition free (id : PageId) : disk () :=
  updated ← get_control;
  path ← get_dir;
  if (Control.next_page_id updated <=? id)%N then
    fail (Bug [Lit "page "; Num id; Lit " was not handed out by the allocator of instance "; Lit path;
      Lit ", which has handed out "; Num (Control.next_page_id updated); Lit " of them"])
  else
    let head := free_head updated in
    last ← wal_last_lsn;
    durable ← wal_durable_lsn;
    _ ← (if (durable <? last)%N then wal_flush else mret ());
    _ ← pinned_for me id (
          _ ← with_page_mut me id (changing (make_free head last));
          _ ← pool_mark_dirty id last;
          pool_set_in_progress id false);
    _ ← pool_flush id;
    _ ← sync_data;
    write_control (with_free_head (Some id) updated).
End thread.
