(* ===== verification/AllocFacts.v ===== *)
(** * Facts about the allocator

    The free list as the chain of pages it is ([free_chain]), the invariant of the allocator
    ([alloc_ok]), and what [allocate], [free] and [count_the_pages_of_data] do to them. *)

From S2P Require Import Control Prelude Errors Bytes Crc Page HeapPage HeapPlace.
From S2P Require Import Wal PageWrite PageWriteFacts DataFile BufferPool BufferFacts Disk DiskFacts Alloc.

#[local] Open Scope Z_scope.

(** ** Links *)

Definition fits (next : option PageId) : Prop := match next with Some id => (id < u64_max)%N | None => True end.

Lemma next_free_set next p : page_ok p → fits next → next_free (set_next_free next p) = next.
Proof.
  intros Hp Hn. unfold next_free, set_next_free. rewrite read_u64_write; [|done|unfold OFF_NEXT_FREE; page_arith|].
  - unfold fits, END_OF_FREE_LIST in *. destruct next as [id|]; [|done]. destruct (Z.eqb_spec (Z.of_N id) (Z.of_N u64_max)); [lia|]. by rewrite N2Z.id.
  - unfold fits, END_OF_FREE_LIST, u64_max in *. destruct next; lia.
Qed.

(** A change of the fields after the identity of a page leaves a good page. *)
Lemma good_kept id p q :
  page_good id p → page_ok q → slice 0 5 q = slice 0 5 p → slice 8 8 q = slice 8 8 p → (∃ k, kind q = Ok k) → page_good id q.
Proof.
  intros (Hp & (Hm & Hf & _) & Hid) Hq H1 H2 [k Hk]. pose proof PAGE_SIZE_Z. split_and!; [done| |].
  - cbn [header_of h_magic h_format_version] in Hm, Hf. split_and!; cbn [header_of h_magic h_format_version h_kind].
    + rewrite <- Hm. eapply slice_of_same; [exact H1|unfold OFF_MAGIC; lia].
    + rewrite <- Hf. unfold format_version. assert (Hs : slice 4 1 q = slice 4 1 p) by (eapply slice_of_same; [exact H1|lia]).
      destruct Hp as [Hl _], Hq as [Hl' _]. rewrite !read_u8_slice in Hs by lia. by injection Hs.
    + exists k. unfold kind in Hk. by apply from_byte_Ok.
  - rewrite <- Hid. unfold page_id, read_u64. change OFF_PAGE_ID with 8%nat. by rewrite H2.
Qed.

Section make_free.
Context (id : PageId) (head : option PageId) (last : Lsn) (Hh : fits head).

Lemma raise_lsn_ok p : page_ok p → page_ok (raise_lsn last p).
Proof using Type. intros Hp. unfold raise_lsn. destruct (_ <? _)%N; [|done]. apply set_field_ok; [done|unfold OFF_PAGE_LSN; lia]. Qed.

Lemma slice_raise_lsn a n p : page_ok p → (a + n ≤ 16 ∨ 24 ≤ a)%nat → slice a n (raise_lsn last p) = slice a n p.
Proof using Type.
  intros Hp Ha. unfold raise_lsn. destruct (_ <? _)%N; [|done]. pose proof PAGE_SIZE_Z.
  apply (slice_write_u64 a n OFF_PAGE_LSN); [done|unfold OFF_PAGE_LSN; lia|unfold OFF_PAGE_LSN; lia].
Qed.

Lemma make_free_spec p : page_good id p →
  page_good id (make_free head last p) ∧ kind (make_free head last p) = Ok Free ∧ next_free (make_free head last p) = head.
Proof using Hh.
  intros Hg. pose proof Hg as (Hp & _). unfold make_free. pose proof PAGE_SIZE_Z.
  set (p1 := set_kind Free p). set (p2 := set_slot_count 0 p1). set (p3 := set_lower FREE_PAGE_LOWER p2). set (p4 := set_next_free head p3).
  assert (H1 : page_ok p1) by by apply set_kind_ok.
  assert (H2 : page_ok p2) by (apply write_u16_ok; [done|page_arith]).
  assert (H3 : page_ok p3) by (apply write_u16_ok; [done|page_arith]).
  assert (H4 : page_ok p4) by (apply write_u64_ok; [done|unfold OFF_NEXT_FREE; page_arith]).
  assert (Hs : ∀ a n, (a + n ≤ 5)%nat ∨ (6 ≤ a ∧ a + n ≤ 16)%nat → slice a n (raise_lsn last p4) = slice a n p).
  { intros a n Ha. rewrite slice_raise_lsn by (assumption || lia). unfold p4, set_next_free, p3, p2, p1, OFF_NEXT_FREE. by through_writes. }
  assert (Hk : kind (raise_lsn last p4) = Ok Free).
  { rewrite <- (kind_set_kind Free p) by done. apply kind_slice; [by apply raise_lsn_ok|done|].
    rewrite slice_raise_lsn by (assumption || lia). unfold p4, set_next_free, p3, p2, p1, OFF_NEXT_FREE. by through_writes. }
  split_and!; [|done|].
  - apply (good_kept id p); [done|by apply raise_lsn_ok|apply Hs; lia|apply Hs; lia|eauto].
  - assert (Hn : next_free (raise_lsn last p4) = next_free p4).
    { unfold next_free, read_u64, OFF_NEXT_FREE, HEADER_SIZE. by rewrite slice_raise_lsn by (assumption || lia). }
    rewrite Hn. by apply next_free_set.
Qed.
End make_free.

Lemma fresh_free_page_spec id : (id ≤ u64_max)%N →
  page_good id (fresh_free_page id) ∧ kind (fresh_free_page id) = Ok Free ∧ next_free (fresh_free_page id) = None ∧
  from_bytes (fresh_free_page id) = Ok (fresh_free_page id).
Proof.
  intros Hid. pose proof (empty_ok Free id) as H0. pose proof PAGE_SIZE_Z.
  set (p1 := set_lower FREE_PAGE_LOWER (empty Free id)). set (p2 := set_next_free None p1).
  assert (H1 : page_ok p1) by (apply write_u16_ok; [done|page_arith]).
  assert (H2 : page_ok p2) by (apply write_u64_ok; [done|unfold OFF_NEXT_FREE; page_arith]).
  assert (Hs : ∀ a n, (a + n ≤ 30)%nat → slice a n p2 = slice a n (empty Free id)).
  { intros a n Ha. unfold p2, p1, set_next_free, OFF_NEXT_FREE. by through_writes. }
  assert (Hk : kind p2 = Ok Free).
  { rewrite (kind_slice p2 (empty Free id)) by (done || (apply Hs; lia)).
    pose proof (f_equal h_kind (empty_header Free id Hid)) as He. unfold kind. cbn [header_of h_kind fresh_header] in He. by rewrite He. }
  assert (Hg : page_good id p2).
  { apply (good_kept id (empty Free id)); [|done|apply Hs; lia|apply Hs; lia|eauto].
    pose proof (empty_header Free id Hid) as He. split_and!; [done|rewrite He; split_and!; [done|done|by exists Free]|exact (f_equal h_page_id He)]. }
  destruct (seal_good id p2 Hg) as [Hg' Hf]. unfold fresh_free_page. fold p1 p2. split_and!; [done| | |done].
  - pose proof (f_equal h_kind (seal_header p2 H2)) as He. unfold kind in *. cbn [header_of h_kind with_checksum] in He. by rewrite He.
  - rewrite <- (next_free_set None p1 H1 I). fold p2. unfold next_free, read_u64, OFF_NEXT_FREE, HEADER_SIZE, seal, write_u32.
    rewrite (slice_splice_page _ H2) by (rewrite length_to_le_bytes; unfold OFF_CHECKSUM; lia). done.
Qed.

(** ** Growing the data file under the pool *)

Lemma blank_unreadable : ∃ e, from_bytes (replicate PAGE_SIZE 0) = Err e.
Proof.
  destruct (from_bytes (replicate PAGE_SIZE 0)) as [q|e] eqn:H; [|eauto]. exfalso. unfold from_bytes in H.
  destruct (verify (replicate PAGE_SIZE 0)) as [[]|] eqn:Hv; [|done]. apply verify_iff in Hv as [(Hm & _) _].
  cbn [header_of h_magic] in Hm. unfold slice in Hm. rewrite drop_replicate, take_replicate in Hm. pose proof PAGE_SIZE_Z.
  rewrite Nat.min_l in Hm by (unfold OFF_MAGIC; lia). done.
Qed.

Section growth.
Context (X : gset PageId) (p : BufferPool) (Hp : pool_ok X p).

Lemma extend_ok n :
  let p' := with_data (mkDataFile (df_path (file p)) (pages (file p) ++ replicate n (replicate PAGE_SIZE 0))) p in
  pool_ok X p' ∧ ∀ id, view p' id = view p id.
Proof using Hp.
  intros p'. split.
  - destruct Hp as [Hf Hc Hr Hh Hix Hfr Hcl Hch Hhe]. split; try done.
    + apply Forall_app. split; [done|]. apply Forall_replicate, blank_ok.
    + intros slot f H. destruct (Hfr slot f H) as [? Hlt]. split; [done|]. unfold p', page_count in *. cbn [file with_data pages].
      rewrite length_app. lia.
    + intros slot f H Hd HX. cbn [file with_data pages p']. rewrite lookup_app_l; [by apply (Hcl slot)|].
      destruct (Hfr slot f H) as [_ Hlt]. unfold page_count in Hlt. lia.
  - intros id. unfold view. cbn [p' with_data inner file]. destruct (by_page (inner p) !! id); [done|].
    unfold read_page. cbn [pages df_path]. destruct (decide (N.to_nat id < length (pages (file p)))%nat) as [Hlt|Hge].
    + rewrite lookup_app_l by done. destruct (lookup_lt_is_Some_2 _ _ Hlt) as [q ->]. done.
    + rewrite (lookup_ge_None_2 (pages (file p))) by lia. rewrite lookup_app_r by lia.
      destruct (replicate n _ !! _) as [q|] eqn:Hq; [|done]. apply lookup_replicate in Hq as [-> _].
      destruct blank_unreadable as [e ->]. done.
Qed.

Lemma write_uncached_ok id page o :
  by_page (inner p) !! id = None → page_ok page →
  let p' := with_data (write_page id page o (file p)).2 p in
  pool_ok X p' ∧ (∀ i, i ≠ id → view p' i = view p i) ∧
  (o = Written → (id < page_count (file p))%N → from_bytes page = Ok page → page_id page = id → view p' id = Some page).
Proof using Hp.
  intros Hb Hpage p'. destruct (write_page_file id page o (file p) (b_file X p Hp) Hpage) as [Hf' Hc'].
  assert (Hpg : ∀ n, n ≠ N.to_nat id → pages (write_page id page o (file p)).2 !! n = pages (file p) !! n).
  { intros n Hn. unfold write_page. destruct (pages (file p) !! N.to_nat id); [|done].
    destruct o; cbn [snd pages]; by rewrite list_lookup_insert_ne. }
  assert (Hdf : df_path (write_page id page o (file p)).2 = df_path (file p)).
  { unfold write_page. destruct (pages (file p) !! N.to_nat id); [|done]. by destruct o. }
  split_and!.
  - destruct Hp as [Hf Hc Hr Hh Hix Hfr Hcl Hch Hhe]. split; try done.
    + intros slot f H. cbn [p' file with_data]. rewrite Hc'. by apply (Hfr slot).
    + intros slot f H Hd HX. cbn [file with_data p']. rewrite Hpg; [by apply (Hcl slot)|].
      intros He. assert (f_id f = id) by lia. assert (by_page (inner p) !! id = Some slot) by (apply Hix; eauto). congruence.
  - intros i Hi. unfold view. cbn [p' with_data inner file]. destruct (by_page (inner p) !! i); [done|].
    unfold read_page. rewrite Hpg by lia. destruct (pages (file p) !! N.to_nat i); [done|done].
  - intros -> Hlt Hfb Hid. unfold view. cbn [p' with_data inner file]. rewrite Hb. unfold read_page, write_page.
    unfold page_count in Hlt. destruct (lookup_lt_is_Some_2 (pages (file p)) (N.to_nat id) ltac:(lia)) as [old Hold]. rewrite Hold.
    cbn [snd pages]. rewrite list_lookup_insert_eq by lia.
    pose proof (proj1 (Forall_lookup _ _) (b_file X p Hp) _ _ Hold) as [Hlo _].
    rewrite splice_whole by (destruct Hpage; lia). by rewrite Hfb, Hid, N.eqb_refl.
Qed.
End growth.

(** ** The free list *)

Fixpoint free_chain (see : PageId → option Page) (head : option PageId) (l : list PageId) : Prop :=
  match l with
  | [] => head = None
  | id :: l => head = Some id ∧ ∃ page, see id = Some page ∧ kind page = Ok Free ∧ free_chain see (next_free page) l
  end.

Lemma free_chain_ext see see' l : ∀ head, (∀ id, id ∈ l → see' id = see id) → free_chain see head l → free_chain see' head l.
Proof.
  induction l as [|id l IH]; intros head Hs; [done|]. intros [Hh (page & Hp & Hk & Hc)]. split; [done|].
  exists page. split_and!; [rewrite Hs by (by left); done|done|]. apply IH; [|done]. intros i Hi. apply Hs. by right.
Qed.

Lemma free_chain_head see h l : free_chain see h l → h = head l.
Proof. destruct l; [done|]. by intros [-> _]. Qed.

Record alloc_ok (s : DiskStorage) (l : list PageId) : Prop := {
  a_chain : free_chain (seen s) (free_head (control s)) l;
  a_nodup : NoDup l;
  a_listed : ∀ id, id ∈ l → (id < Control.next_page_id (control s))%N;
  a_count : (Control.next_page_id (control s) ≤ page_count (data s) ≤ Control.next_page_id (control s) + 1)%N;
  a_bound : (Control.next_page_id (control s) ≤ u64_max)%N;
}.

Lemma alloc_ok_ext s s' l :
  alloc_ok s l → control s' = control s → page_count (data s') = page_count (data s) → (∀ id, id ∈ l → seen s' id = seen s id) → alloc_ok s' l.
Proof.
  intros [Hc Hn Hl Hco Hb] Hct Hpc Hs. split; rewrite ?Hct, ?Hpc; try done. by eapply free_chain_ext.
Qed.

(** The fields a free page carries are read through the seal. *)
Lemma seal_slice a n p : page_ok p → (a + n ≤ 24 ∨ 28 ≤ a)%nat → slice a n (seal p) = slice a n p.
Proof.
  intros Hp Ha. pose proof PAGE_SIZE_Z.
  apply (slice_splice_page _ Hp); rewrite length_to_le_bytes; unfold OFF_CHECKSUM; lia.
Qed.

Lemma seal_kind p : page_ok p → kind (seal p) = kind p.
Proof. intros Hp. apply kind_slice; [by apply seal_ok|done|]. apply seal_slice; [done|lia]. Qed.
Lemma seal_next_free p : page_ok p → next_free (seal p) = next_free p.
Proof. intros Hp. unfold next_free, read_u64. rewrite seal_slice by (done || (unfold OFF_NEXT_FREE, HEADER_SIZE; lia)). done. Qed.

Section thread.
Context (me : ThreadId).

Lemma wp_dir Q E s : Q (dir s) s → wp get_dir Q E s.
Proof. done. Qed.
Lemma wp_control Q E s : Q (control s) s → wp get_control Q E s.
Proof. done. Qed.

Lemma wp_detach_head head l s :
  disk_ok me None ∅ s → alloc_ok s (head :: l) →
  wp (detach_head me head)
    (λ next s', disk_ok me None ∅ s' ∧ like s s' ∧ (∀ i, seen s' i = seen s i) ∧ free_chain (seen s) next l)
    (λ _ s', disk_ok me None ∅ s' ∧ like s s' ∧ (∀ i, seen s' i = seen s i) ∧ ¬ willing s) s.
Proof.
  intros Hok Ha. destruct (a_chain _ _ Ha) as [Hh (page & Hpage & Hk & Hc)].
  apply wp_pinned_for; [done|apply (a_listed _ _ Ha); by left| |].
  - intros s1 H1 Hl1 Hv1 _. apply wp_bind. eapply wp_read; [done|]. intros q Hq (Hgq & _) Hs.
    rewrite Hv1, Hpage in Hs. injection Hs as ->. rewrite seal_kind in Hk by done. cbn [fst snd]. apply wp_bind, wp_lift; [|congruence].
    intros k. rewrite Hk. intros [= <-]. apply wp_bind, wp_dir. rewrite bool_decide_eq_true_2 by done. cbn [negb].
    split; [done|]. intros s3 H3 Hl3 Hv3. split_and!; [done|by transitivity s1|intros i; by rewrite Hv3|].
    by rewrite seal_next_free in Hc.
  - intros e s' H' Hl Hv Hno. split_and!; try done. apply Hno. rewrite Hpage. eauto.
Qed.

(** What the growth of the file by the page [id] leaves. *)
Record grown (s s' : DiskStorage) (id : PageId) : Prop := {
  g_ok : disk_ok me None ∅ s';
  g_dir : dir s' = dir s;
  g_control : control s' = control s;
  g_files : files s' = files s;
  g_wal : wal s' = wal s;
  g_capacity : capacity (pool s') = capacity (pool s);
  g_answers : answers s = [] → answers s' = [];
  g_busy : ∀ i, busy (pool s') i → busy (pool s) i;
  g_count : (page_count (data s) ≤ page_count (data s') ≤ id + 1)%N;
  g_seen : ∀ i, i ≠ id → seen s' i = seen s i;
}.

Lemma wp_extend id s :
  disk_ok me None ∅ s → (id ≤ page_count (data s) ≤ id + 1)%N →
  wp (data_extend_to (id + 1)) (λ _ s', grown s s' id ∧ page_count (data s') = (id + 1)%N ∧ inner (pool s') = inner (pool s))
    (λ _ s', grown s s' id ∧ (answers s = [] → (u64_max < (id + 1) * N.of_nat PAGE_SIZE)%N)) s.
Proof.
  intros Hok Hc. unfold data_extend_to. apply wp_bind, wp_answer. intros o l Ho. unfold wp, on_data, extend_to.
  change (data (with_answers l s)) with (data s). cbn [pool with_answers]. set (n := page_count (data s)) in *.
  assert (Hsame : grown s (with_pool (with_data (data s) (pool s)) (with_answers l s)) id).
  { assert (with_data (data s) (pool s) = pool s) as -> by (unfold data; by destruct (pool s)).
    split; try done; [by destruct Hok|naive_solver|fold n; unfold data; cbn; fold (data s); fold n; lia]. }
  destruct (N.ltb_spec (id + 1) n); [lia|].
  destruct (N.ltb_spec u64_max ((id + 1) * N.of_nat PAGE_SIZE)); [by split|].
  destruct o as [|k m]; cbn [to_message]; [|split; [done|]; intros Hn; by destruct (Ho Hn)].
  destruct (extend_ok ∅ (pool s) (d_pool _ _ _ _ Hok) (N.to_nat (id + 1 - n))) as [Hp' Hv']. fold (data s) in *.
  assert (Hcount : N.of_nat (length (pages (data s) ++ replicate (N.to_nat (id + 1 - n)) (replicate PAGE_SIZE 0%Z))) = (id + 1)%N).
  { rewrite length_app, length_replicate. unfold n, page_count in *. lia. }
  set (s' := with_pool _ _). assert (Hn' : page_count (data s') = (id + 1)%N) by exact Hcount.
  split_and!; [|done|done]. split; try done.
  - by destruct Hok.
  - naive_solver.
  - rewrite Hn'. fold n. lia.
  - intros i _. apply Hv'.
Qed.

Lemma wp_write_uncached id page s :
  disk_ok me None ∅ s → page_count (data s) = (id + 1)%N → by_page (inner (pool s)) !! id = None →
  page_good id page → from_bytes page = Ok page →
  wp (data_write_page id page) (λ _ s', grown s s' id ∧ page_count (data s') = (id + 1)%N ∧ seen s' id = Some page)
    (λ _ s', grown s s' id ∧ answers s ≠ []) s.
Proof.
  intros Hok Hc Hb (Hp & _ & Hpid) Hfb.
  unfold data_write_page. apply wp_bind, wp_answer. intros o l Ho. unfold wp, on_data. change (data (with_answers l s)) with (data s). cbn [pool with_answers].
  destruct (write_uncached_ok ∅ (pool s) (d_pool _ _ _ _ Hok) id page (to_write o) Hb Hp) as (Hp' & Hv & Hvid).
  pose proof (write_page_count id page (to_write o) (data s)) as Hcount. fold (data s) in *.
  set (s' := with_pool (with_data (write_page id page (to_write o) (data s)).2 (pool s)) (with_answers l s)).
  assert (Hn' : page_count (data s') = (id + 1)%N) by (rewrite <- Hc; exact Hcount).
  assert (Hg : grown s s' id).
  { split; try done; [by destruct Hok|naive_solver|]. rewrite Hn', Hc. lia. }
  destruct (write_page id page (to_write o) (data s)) as [[[]|e] d] eqn:Hw; cbn [snd] in *.
  - split_and!; [done|done|]. apply Hvid; try done; [|rewrite Hc; lia].
    destruct o as [|k m]; [done|]. unfold write_page in Hw. by destruct (pages (data s) !! N.to_nat id).
  - split; [done|]. intros Ha. destruct (Ho Ha) as [-> _]. cbn [to_write] in Hw. unfold write_page in Hw.
    destruct (lookup_lt_is_Some_2 (pages (data s)) (N.to_nat id)) as [old Hold]; [unfold page_count in Hc; lia|]. by rewrite Hold in Hw.
Qed.

Lemma grown_trans s1 s2 s3 id : grown s1 s2 id → grown s2 s3 id → grown s1 s3 id.
Proof.
  intros [] []. split; try congruence; try done; [auto|auto|lia|]. intros i Hi. rewrite g_seen1, g_seen0 by done. done.
Qed.

Lemma wp_grow id s :
  disk_ok me None ∅ s → id = Control.next_page_id (control s) → (id ≤ page_count (data s) ≤ id + 1)%N → (id ≤ u64_max)%N →
  wp (grow_by_one_page id)
    (λ _ s', grown s s' id ∧ page_count (data s') = (id + 1)%N ∧ seen s' id = Some (fresh_free_page id))
    (λ _ s', grown s s' id ∧ (answers s = [] → (u64_max < (id + 1) * N.of_nat PAGE_SIZE)%N)) s.
Proof.
  intros Hok Hid Hc Hb. unfold grow_by_one_page. apply wp_bind. eapply wp_mono; [by apply wp_extend| |by intros ? ? ?].
  intros _ s1 (Hg1 & Hc1 & Hi1). cbn beta. destruct (fresh_free_page_spec id Hb) as (Hgood & _ & _ & Hfb).
  generalize dependent (fresh_free_page id). intros page Hgood Hfb.
  eapply wp_mono; [apply wp_write_uncached; [apply Hg1|done| |done|done]| |].
  - rewrite Hi1. destruct (by_page (inner (pool s)) !! id) eqn:Hbp; [|done].
    pose proof (d_cached _ _ _ _ Hok id ltac:(eauto)). lia.
  - intros _ s2 (Hg2 & Hc2 & Hs2). split_and!; try done. by eapply grown_trans.
  - intros e s2 [Hg2 Hne]. split; [by eapply grown_trans|]. intros Ha. by apply (g_answers _ _ _ Hg1) in Ha.
Qed.
(** ** Allocating *)

Record allocated (s s' : DiskStorage) (l l' : list PageId) (id : PageId) : Prop := {
  al_ok : disk_ok me None ∅ s';
  al_list : alloc_ok s' l';
  al_from : l = id :: l' ∨ (l = [] ∧ l' = [] ∧ id = Control.next_page_id (control s));
  al_seen : ∀ i, i ≠ id → seen s' i = seen s i;
  al_free : ∃ page, seen s' id = Some page ∧ kind page = Ok Free;
  al_id : (id < Control.next_page_id (control s'))%N;
  al_next : (Control.next_page_id (control s) ≤ Control.next_page_id (control s'))%N;
  al_control : control s' = with_free_head (free_head (control s'))
    (match l with [] => with_next_page_id (Control.next_page_id (control s) + 1) (control s) | _ => control s end);
  al_wal : wal s' = wal s;
  al_ctl : ctl (files s') = Some (to_bytes (control s'));
  al_capacity : capacity (pool s') = capacity (pool s);
  al_count : (page_count (data s) ≤ page_count (data s') ≤ page_count (data s) + 1)%N;
  al_answers : answers s = [] → answers s' = [];
  al_busy : ∀ i, busy (pool s') i → busy (pool s) i;
}.

(** A call that failed: the list and the control block are as they were. *)
Record not_allocated (s s' : DiskStorage) (l : list PageId) : Prop := {
  na_ok : disk_ok me None ∅ s';
  na_list : alloc_ok s' l;
  na_control : control s' = control s;
  na_seen : ∀ i, (i < Control.next_page_id (control s))%N → seen s' i = seen s i;
  na_wal : wal s' = wal s;
}.

(** The system refuses nothing, the pool has a frame to give and the file can grow. *)
Definition can_allocate (s : DiskStorage) : Prop :=
  willing s ∧ ((Control.next_page_id (control s) + 1) * N.of_nat PAGE_SIZE ≤ u64_max)%N.

Lemma can_allocate_willing s : can_allocate s → willing s.
Proof. by intros [? _]. Qed.

Lemma wp_allocate_listed head l s :
  disk_ok me None ∅ s → alloc_ok s (head :: l) →
  wp (allocate me) (λ id s', allocated s s' (head :: l) l id) (λ _ s', not_allocated s s' (head :: l) ∧ ¬ willing s) s.
Proof.
  intros Hok Ha. destruct (a_chain _ _ Ha) as [Hh (page & Hpage & Hk & Hc)]. pose proof Ha as [_ Hnd Hli Hco Hbo].
  apply NoDup_cons in Hnd as [Hni Hnd]. assert (Hlt : (head < Control.next_page_id (control s))%N) by (apply Hli; by left).
  unfold allocate. apply wp_bind, wp_control. rewrite Hh. apply wp_bind, wp_bind. eapply wp_mono; [by apply wp_detach_head| |].
  - intros next s1 (H1 & Hl1 & Hv1 & Hc1). apply wp_ret. apply wp_bind. rewrite <- (l_control _ _ Hl1).
    apply wp_write_control.
    + intros d a Hd Hans. apply wp_ret. split; cbn; try done.
      * apply disk_ok_control; [cbn; done|by apply disk_ok_answers].
      * destruct Hl1 as [_ Hct _ _ [Hpc _] _ _]. split; cbn; rewrite ?Hct; try done.
        -- apply (free_chain_ext (seen s)); [|done]. intros i _. apply Hv1.
        -- intros i Hi. apply Hli. by right.
        -- unfold data in *. cbn. by rewrite Hpc.
      * by left.
      * intros i _. apply Hv1.
      * exists page. split; [by rewrite <- Hpage; apply Hv1|done].
      * by rewrite (l_control _ _ Hl1).
      * by rewrite (l_control _ _ Hl1).
      * by rewrite (l_control _ _ Hl1).
      * apply Hl1.
      * apply Hl1.
      * destruct (l_size _ _ Hl1) as [Hpc _]. unfold data. cbn. rewrite Hpc. lia.
      * intros Has. by apply Hans, Hl1.
      * apply Hl1.
    + intros e d a Hans. split; [split; cbn|].
      * by apply disk_ok_files, disk_ok_answers.
      * apply (alloc_ok_ext s); cbn; [done|apply Hl1|apply Hl1|intros; apply Hv1].
      * apply Hl1.
      * intros i _. apply Hv1.
      * apply Hl1.
      * intros (Has & _). by apply Hans, Hl1.
  - intros e s' (H' & Hl & Hv & Hw). split; [split|].
    + done.
    + apply (alloc_ok_ext s); [done|apply Hl|apply Hl|intros; apply Hv].
    + apply Hl.
    + intros i _. apply Hv.
    + apply Hl.
    + done.
Qed.

Lemma wp_allocate_grow s :
  disk_ok me None ∅ s → alloc_ok s [] →
  wp (allocate me) (λ id s', allocated s s' [] [] id) (λ _ s', not_allocated s s' [] ∧ ¬ can_allocate s) s.
Proof.
  intros Hok Ha. pose proof Ha as [Hh _ _ Hco Hbo]. cbn in Hh. unfold allocate. apply wp_bind, wp_control. rewrite Hh.
  set (id := Control.next_page_id (control s)) in *.
  assert (Hfail : ∀ s', grown s s' id → not_allocated s s' []).
  { intros s' Hg. split; try apply Hg.
    - destruct Hg as [_ _ Hct _ _ _ _ _ Hpc _]. split; rewrite ?Hct; try done; fold id in Hbo |- *; [constructor|set_solver|lia].
    - intros i Hi. apply (g_seen _ _ _ Hg). unfold id in *. lia. }
  apply wp_bind, wp_bind, wp_dir. destruct (Z.eqb_spec (Z.of_N id) END_OF_FREE_LIST) as [He|Hne].
  { split; [by split|].
    intros (_ & Hsz). unfold END_OF_FREE_LIST in He. pose proof PAGE_SIZE_Z. unfold id in *. lia. }
  apply wp_bind. eapply wp_mono; [by apply wp_grow| |].
  - intros _ s1 (Hg & Hc1 & Hs1). apply wp_ret. apply wp_bind. apply wp_write_control.
    + intros d a Hd Hans. destruct (fresh_free_page_spec id ltac:(done)) as (_ & Hkf & _). apply wp_ret.
      generalize dependent (fresh_free_page id). intros page Hs1 Hkf. split; cbn; try done.
      * apply disk_ok_control; [|apply disk_ok_answers, Hg]. cbn. rewrite (g_control _ _ _ Hg). fold id. lia.
      * split; cbn; try done; [constructor|set_solver|unfold data in *; cbn; lia|].
        unfold END_OF_FREE_LIST in Hne. lia.
      * by right.
      * intros i Hi. by apply (g_seen _ _ _ Hg).
      * eauto.
      * fold id. lia.
      * fold id. lia.
      * apply Hg.
      * apply Hg.
      * unfold data in *. cbn. lia.
      * intros Has. by apply Hans, Hg.
      * apply Hg.
    + intros e d a Hans. split; [|intros [[Has _] _]; by apply Hans, Hg].
      destruct (Hfail s1 Hg) as [H1 H2 H3 H4 H5]. split; cbn; try done; [by apply disk_ok_files, disk_ok_answers|]. by apply (alloc_ok_ext s1).
  - intros e s' [Hg Hsz]. split; [by apply Hfail|]. intros [[Has _] Hle]. specialize (Hsz Has). unfold id in *. lia.
Qed.

Lemma wp_allocate l s :
  disk_ok me None ∅ s → alloc_ok s l →
  wp (allocate me) (λ id s', ∃ l', allocated s s' l l' id) (λ _ s', not_allocated s s' l ∧ ¬ can_allocate s) s.
Proof.
  intros Hok Ha. destruct l as [|head l].
  - eapply wp_mono; [by apply wp_allocate_grow|intros id s' H; exists []; exact H|done].
  - eapply wp_mono; [by apply wp_allocate_listed|intros id s' H; exists l; exact H|]. intros e s' [Hna Hw]. split; [done|].
    intros Hcan. by apply Hw, can_allocate_willing.
Qed.

(** ** Freeing *)

(** The page is the one given, whose record is in the journal; the system refuses nothing. *)
Definition can_free (s : DiskStorage) (id : PageId) : Prop :=
  willing s ∧ (id < Control.next_page_id (control s))%N ∧
  ∃ page, seen s id = Some page ∧ (Page.lsn page ≤ last_lsn (wal s))%N.

Record freed (s s' : DiskStorage) (l : list PageId) (id : PageId) : Prop := {
  fr_ok : disk_ok me None ∅ s';
  fr_list : alloc_ok s' (id :: l);
  fr_control : control s' = with_free_head (Some id) (control s);
  fr_ctl : ctl (files s') = Some (to_bytes (control s'));
  fr_seen : ∀ i, i ≠ id → seen s' i = seen s i;
  fr_last : last_lsn (wal s') = last_lsn (wal s);
  fr_durable : (last_lsn (wal s') ≤ Wal.durable_lsn (wal s'))%N;
  fr_size : same_size (pool s) (pool s');
  fr_answers : answers s = [] → answers s' = [];
  fr_tied : ∀ i, tied s' i → tied s i;
}.

Record not_freed (s s' : DiskStorage) (l : list PageId) (id : PageId) : Prop := {
  nf_ok : disk_ok me None ∅ s';
  nf_list : alloc_ok s' l;
  nf_control : control s' = control s;
  nf_seen : ∀ i, i ≠ id → seen s' i = seen s i;
  nf_last : last_lsn (wal s') = last_lsn (wal s);
  nf_size : same_size (pool s) (pool s');
}.

Lemma lsn_raise l p : page_ok p → (l ≤ u64_max)%N → Page.lsn (raise_lsn l p) = N.max (Page.lsn p) l.
Proof using Type.
  intros [Hl _] Hle. unfold raise_lsn. destruct (N.ltb_spec (Page.lsn p) l); [|lia]. rewrite lsn_set_lsn by done. lia.
Qed.

Lemma lsn_make_free id head last p : page_good id p → (last ≤ u64_max)%N → Page.lsn (make_free head last p) = N.max (Page.lsn p) last.
Proof using Type.
  intros (Hp & _) Hl. unfold make_free. pose proof PAGE_SIZE_Z.
  set (p1 := set_kind Free p). set (p2 := set_slot_count 0 p1). set (p3 := set_lower FREE_PAGE_LOWER p2). set (p4 := set_next_free head p3).
  assert (H1 : page_ok p1) by by apply set_kind_ok.
  assert (H2 : page_ok p2) by (apply write_u16_ok; [done|page_arith]).
  assert (H3 : page_ok p3) by (apply write_u16_ok; [done|page_arith]).
  assert (H4 : page_ok p4) by (apply write_u64_ok; [done|unfold OFF_NEXT_FREE; page_arith]).
  rewrite lsn_raise by done. f_equal. unfold Page.lsn, read_u64, p4, set_next_free, p3, p2, p1, OFF_NEXT_FREE, OFF_PAGE_LSN. by through_writes.
Qed.

(** The journal is synced up to its last record. *)
Lemma wp_sync_journal s :
  disk_ok me None ∅ s →
  wp (if (Wal.durable_lsn (wal s) <? last_lsn (wal s))%N then wal_flush else mret ())
    (λ _ s', disk_ok me None ∅ s' ∧ ∃ w l, s' = with_wal w (with_answers l s) ∧ last_lsn w = last_lsn (wal s) ∧
      (last_lsn w ≤ Wal.durable_lsn w)%N ∧ (Wal.durable_lsn (wal s) ≤ Wal.durable_lsn w)%N ∧ (answers s = [] → l = []))
    (λ _ s', ∃ w l, s' = with_wal w (with_answers l s) ∧ last_lsn w = last_lsn (wal s) ∧ answers s ≠ []) s.
Proof using Type.
  intros Hok. destruct (N.ltb_spec (Wal.durable_lsn (wal s)) (last_lsn (wal s))) as [Hlt|Hge].
  - apply wp_wal_flush.
    + intros w l Hl Hd Ha. split; [apply disk_ok_wal; [rewrite Hl; apply Hok|by apply disk_ok_answers]|].
      exists w, l. split_and!; try done; lia.
    + intros e w l Hl Ha. eauto 10.
  - apply wp_ret. split; [done|]. exists (wal s), (answers s). split_and!; try done. by destruct s.
Qed.

(** The page rewritten as a free one, under its pin. *)
Lemma wp_rewrite_free head last id s :
  disk_ok me None ∅ s → (id < Control.next_page_id (control s))%N → (last ≤ u64_max)%N → fits head →
  wp (pinned_for me id (
        _ ← with_page_mut me id (changing (make_free head last));
        _ ← pool_mark_dirty id last;
        pool_set_in_progress id false))
    (λ _ s', disk_ok me None ∅ s' ∧ like s s' ∧ (∀ i, i ≠ id → seen s' i = seen s i) ∧
      ∃ page page', seen s id = Some page ∧ seen s' id = Some page' ∧ kind page' = Ok Free ∧ next_free page' = head ∧
        Page.lsn page' = N.max (Page.lsn page) last)
    (λ _ s', disk_ok me None ∅ s' ∧ like s s' ∧ (∀ i, seen s' i = seen s i) ∧ (is_Some (seen s id) → ¬ willing s)) s.
Proof using Type.
  intros Hok Hid Hl Hf. apply wp_pinned_for; [done|done| |by intros].
  intros s1 H1 Hl1 Hv1 _. destruct (held_frame me ∅ s1 id H1) as (slot & f & _ & _ & _ & _ & _ & Hg & Hcur & Hsn).
  apply wp_bind. eapply wp_change; [done|exact Hcur|intros q Hq; by apply make_free_spec|].
  intros s2 H2 Hl2 [Hs2 Ho2] Hc2. apply wp_bind. eapply wp_mark; [done|done|done|exact Hc2|].
  intros s3 H3 Hl3 [Hs3 Ho3]. eapply wp_in_progress; [done|]. intros s4 H4 Hl4 Hv4. split; [done|]. intros s5 H5 Hl5 Hv5.
  destruct (make_free_spec id head last Hf (f_page f) Hg) as ((Hp' & _) & Hk' & Hn').
  pose proof (lsn_make_free id head last (f_page f) Hg Hl) as Hlsn. cbn [changing snd] in *.
  assert (Hpr : page_ok (raise_lsn last (make_free head last (f_page f)))) by by apply raise_lsn_ok.
  assert (Hid' : raise_lsn last (make_free head last (f_page f)) = make_free head last (f_page f)).
  { unfold raise_lsn at 1. destruct (N.ltb_spec (Page.lsn (make_free head last (f_page f))) last); [lia|done]. }
  rewrite Hid' in *. split_and!; [done|repeat (etrans; [eassumption|]); reflexivity| |].
  - intros i Hi. by rewrite Hv5, Hv4, Ho3, Ho2, Hv1 by done.
  - exists (seal (f_page f)), (seal (make_free head last (f_page f))). destruct Hg as (Hpf & _).
    rewrite Hv5, Hv4, <- Hv1, seal_kind, seal_next_free, !page_lsn_seal by done. done.
Qed.

Lemma wp_sync_data s :
  wp sync_data (λ _ s', ∃ l, s' = with_answers l s ∧ (answers s = [] → l = []))
    (λ _ s', ∃ l, s' = with_answers l s ∧ answers s ≠ []) s.
Proof using Type.
  unfold sync_data. apply wp_bind, wp_answer. intros o l Ho. destruct o as [|n m]; [|exists l; split; [done|]; intros Ha; by destruct (Ho Ha)].
  apply wp_bind, wp_answer. intros o' l' Ho'. cbn [answers with_answers] in Ho'.
  destruct o' as [|n m]; exists l'; (split; [done|]); [|intros Ha]; naive_solver.
Qed.

Lemma like_wal_rest s w l s' : like (with_wal w (with_answers l s)) s' →
  control s' = control s ∧ files s' = files s ∧ wal s' = w ∧ same_size (pool s) (pool s') ∧ (l = [] → answers s' = []).
Proof using Type. by intros []. Qed.

Lemma wp_free l id s :
  disk_ok me None ∅ s → alloc_ok s l → id ∉ l →
  wp (free me id) (λ _ s', freed s s' l id) (λ _ s', not_freed s s' l id ∧ ¬ can_free s id) s.
Proof using Type.
  intros Hok Ha Hni. unfold free. apply wp_bind, wp_control, wp_bind, wp_dir.
  destruct (N.leb_spec (Control.next_page_id (control s)) id) as [Hge|Hlt].
  { split; [by split|]. intros (_ & ? & _). lia. }
  apply wp_bind. change (wp wal_last_lsn ?Q ?E s) with (Q (last_lsn (wal s)) s). cbn beta.
  apply wp_bind. change (wp wal_durable_lsn ?Q ?E s) with (Q (Wal.durable_lsn (wal s)) s). cbn beta.
  assert (Hhead : fits (free_head (control s))).
  { pose proof Ha as [Hc _ Hli _ Hb]. destruct l as [|h l]; cbn in Hc; [by rewrite Hc|]. destruct Hc as [-> _]. cbn.
    pose proof (Hli h ltac:(by left)). lia. }
  apply wp_bind. eapply wp_mono; [by apply wp_sync_journal| |].
  2: { intros e s1 (w & a & -> & Hw & Hans). split; [|intros ((Has & _) & _); done].
       split; cbn; try done; [|by apply (alloc_ok_ext s)]. apply disk_ok_wal; [rewrite Hw; apply Hok|by apply disk_ok_answers]. }
  intros _ s1 (H1 & w & a & -> & Hw & Hdur & Hmore & Hans1).
  apply wp_bind. eapply wp_mono; [apply wp_rewrite_free; [exact H1|done|apply Hok|exact Hhead]| |].
  2: { intros e s2 (H2 & Hl2 & Hv2 & Hwill). apply like_wal_rest in Hl2 as (Hct & Hfi & Hwa & Hsz & Han). split.
       - split; try done; [apply (alloc_ok_ext s); [done|done|apply Hsz|intros; apply Hv2]|by rewrite Hwa].
       - intros ((Has & Hcap) & _ & page & Hpage & _). apply Hwill; [cbn; unfold seen in *; cbn; rewrite Hpage; eauto|].
         split; cbn; [by apply Hans1|]. apply (room_ties 0 0 s); [|done|done]. apply ties_none. intros i Hi. by apply (tied_seen _ _ _ Hi). }
  intros _ s2 (H2 & Hl2 & Ho2 & page & page' & Hpage & Hpage' & Hk' & Hn' & Hlsn').
  pose proof (like_wal_rest _ _ _ _ Hl2) as (Hct2 & _ & Hwa2 & Hsz2 & Han2).
  assert (Hkeep : ∀ s3, disk_ok me None ∅ s3 → like s2 s3 → (∀ i, seen s3 i = seen s2 i) → not_freed s s3 l id).
  { intros s3 H3 Hl3 Hv3. assert (Hl23 := Hl3). destruct Hl3 as [_ Hct3 _ Hwa3 Hsz3 _ _].
    split; try congruence; [| |destruct Hsz2, Hsz3; split; congruence].
    - apply (alloc_ok_ext s); [done|congruence|destruct Hsz2, Hsz3; unfold data; congruence|].
      intros i Hi. rewrite Hv3. apply Ho2. congruence.
    - intros i Hi. rewrite Hv3. by apply Ho2. }
  apply wp_bind. eapply wp_pool_flush; [exact H2| |].
  2: { intros e s3 H3 Hl3 Hv3 Hwhy. split; [by apply Hkeep|]. intros ((Has & _) & _ & page0 & Hpage0 & Hle).
       destruct (Hwhy ltac:(auto)) as (q & Hq & Hlt'). rewrite Hpage' in Hq. injection Hq as <-. rewrite Hwa2, Hlsn' in Hlt'.
       unfold seen in *. cbn in Hpage. rewrite Hpage in Hpage0. injection Hpage0 as <-. lia. }
  intros s3 H3 Hl3 Hv3. apply wp_bind. eapply wp_mono; [apply wp_sync_data| |].
  2: { intros e s4 (b & -> & Hb). split.
       - destruct (Hkeep s3 H3 Hl3 Hv3). split; try done; [by apply disk_ok_answers|by apply (alloc_ok_ext s3)].
       - intros ((Has & _) & _). apply Hb, Hl3. auto. }
  intros _ s4 (b & -> & Hb4). eapply wp_write_control.
  - intros d b' Hd Hb'. assert (Hnf := Hkeep s3 H3 Hl3 Hv3). destruct Hnf as [Hn1 Hn2 Hn3 Hn4 Hn5 Hn6]. split; try done; cbn.
    + apply disk_ok_control; [cbn; by rewrite Hn3|by do 2 apply disk_ok_answers].
    + pose proof Hn2 as [Hc2 Hnd2 Hli2 Hco2 Hb2]. split; cbn; rewrite ?Hn3 in *; try done.
      * split; [done|]. exists page'. split_and!; [by rewrite <- Hpage'; apply Hv3|done|]. by rewrite Hn'.
      * by constructor.
      * intros i [->|Hi]%elem_of_cons; [done|by apply Hli2].
    + rewrite (l_wal _ _ Hl3), Hwa2. done.
    + intros Has. apply Hb', Hb4, Hl3. auto.
    + intros i [Hbi|(q & Hq & Hlt')]; [left; by apply (l_busy _ _ Hl2), (l_busy _ _ Hl3)|right].
      cbn in Hlt'. rewrite (l_wal _ _ Hl3), Hwa2 in Hlt'. change (seen s3 i = Some q) in Hq. rewrite Hv3 in Hq.
      destruct (decide (i = id)) as [->|Hne].
      * exists page. split; [exact Hpage|]. rewrite Hpage' in Hq. injection Hq as <-. rewrite Hlsn' in Hlt'. lia.
      * exists q. rewrite Ho2 in Hq by done. split; [exact Hq|lia].
  - intros e d b' Hb'. split.
    + destruct (Hkeep s3 H3 Hl3 Hv3). split; try done; [by apply disk_ok_files, disk_ok_answers, disk_ok_answers|by apply (alloc_ok_ext s3)].
    + intros ((Has & _) & _). apply Hb'. cbn. apply Hb4, Hl3. auto.
Qed.

(** The counter reaches the size of the file, and the list stays. *)
Lemma wp_count_pages s :
  disk_ok me None ∅ s →
  wp count_the_pages_of_data
    (λ _ s', disk_ok me None ∅ s' ∧ Control.next_page_id (control s') = N.max (Control.next_page_id (control s)) (page_count (data s)) ∧
      free_head (control s') = free_head (control s) ∧ pool s' = pool s ∧ wal s' = wal s)
    (λ _ s', disk_ok me None ∅ s' ∧ control s' = control s ∧ pool s' = pool s ∧ answers s ≠ []) s.
Proof using Type.
  intros Hok. unfold count_the_pages_of_data. apply wp_bind. change (wp data_page_count ?Q ?E s) with (Q (page_count (data s)) s). cbn beta.
  apply wp_bind, wp_control. destruct (N.leb_spec (page_count (data s)) (Control.next_page_id (control s))) as [Hle|Hlt].
  { apply wp_ret. split_and!; try done. lia. }
  apply wp_write_control.
  - intros d l Hd Hl. split_and!; try done; cbn; [|lia]. apply disk_ok_control; [cbn; lia|by apply disk_ok_answers].
  - intros e d l Ha. split_and!; try done. by apply disk_ok_files, disk_ok_answers.
Qed.
End thread.
