(* ===== verification/PageSetFacts.v ===== *)
(** * Facts about page sets

    The pages a thread sees up to what a record does not log, and what the commit of a page set
    does to them: every staged page reads as the set left it, and no other page changes. *)

From S2P Require Import Control Prelude Errors Bytes Crc Page HeapPage HeapPlace Wal WalFacts PageWrite.
From S2P Require Import PageWriteFacts DataFile BufferPool BufferFacts PoolTheorems Disk DiskFacts Alloc AllocFacts.

#[local] Open Scope Z_scope.

(** ** Pages up to their number and checksum *)

#[export] Instance same_logged_equiv : Equivalence same_logged.
Proof.
  split; [by intros p i|intros p q H i Hi Hu; by rewrite H|intros p q r H1 H2 i Hi Hu; by rewrite H1, H2 by done].
Qed.

Lemma slice_same_logged a n p q :
  same_logged p q → (a + n ≤ PAGE_SIZE)%nat → (a + n ≤ 16 ∨ 28 ≤ a)%nat → slice a n p = slice a n q.
Proof.
  intros Hs Hle Hd. apply list_eq. intros i. destruct (decide (i < n)%nat) as [Hi|Hi].
  - rewrite !lookup_slice by done. apply Hs; [lia|]. unfold unlogged, UNLOGGED_START, UNLOGGED_END.
    apply andb_false_iff. destruct Hd; [left; apply Nat.leb_gt; lia|right; apply Nat.ltb_ge; lia].
  - rewrite !lookup_ge_None_2; [done| |]; unfold slice; rewrite length_take; lia.
Qed.

Lemma same_logged_seal p : page_ok p → same_logged (seal p) p.
Proof.
  intros Hp i Hi Hu. destruct (seal_but_checksum p (proj1 Hp)) as (_ & _ & H). apply H; [done|].
  unfold unlogged, UNLOGGED_START, UNLOGGED_END in Hu. unfold OFF_CHECKSUM. intros ?.
  rewrite (proj2 (Nat.leb_le _ _)), (proj2 (Nat.ltb_lt _ _)) in Hu by lia. done.
Qed.

Lemma same_logged_set_lsn l p : page_ok p → same_logged (set_lsn l p) p.
Proof. intros [Hp _]. by apply set_lsn_logged. Qed.

Lemma same_logged_raise_lsn l p : page_ok p → same_logged (raise_lsn l p) p.
Proof. intros Hp. unfold raise_lsn. destruct (_ <? _)%N; [by apply same_logged_set_lsn|done]. Qed.

Lemma good_same_logged id p q : page_ok q → same_logged q p → page_good id p → page_good id q.
Proof.
  intros Hq Hs Hg. pose proof Hg as (Hp & (_ & _ & k & Hk) & _). pose proof PAGE_SIZE_Z.
  apply (good_kept id p); [done|done|apply slice_same_logged; [done|lia|lia]|apply slice_same_logged; [done|lia|lia]|].
  exists k. rewrite (kind_slice q p) by (done || (apply slice_same_logged; [done|lia|lia])). unfold kind.
  cbn [header_of h_kind] in Hk. rewrite Hk. apply from_as_byte.
Qed.

Lemma kind_same_logged p q : page_ok p → page_ok q → same_logged p q → kind p = kind q.
Proof. intros Hp Hq Hs. pose proof PAGE_SIZE_Z. apply kind_slice; [done..|]. apply slice_same_logged; [done|lia|lia]. Qed.

(** ** What a page holds *)

Definition holds (s : DiskStorage) (id : PageId) (page : Page) : Prop :=
  page_good id page ∧ ∃ q, seen s id = Some q ∧ page_ok q ∧ same_logged q page.

Lemma holds_seen s s' id page : seen s' id = seen s id → holds s id page → holds s' id page.
Proof. unfold holds. by intros ->. Qed.

Lemma holds_alike s id p q : page_good id q → same_logged p q → holds s id p → holds s id q.
Proof. intros Hq Hs (_ & r & Hr & Hok & Hrp). split; [done|]. exists r. split_and!; [done|done|by etrans]. Qed.

Lemma holds_same s id p q : holds s id p → holds s id q → same_logged p q.
Proof. intros (_ & r & Hr & _ & H1) (_ & r' & Hr' & _ & H2). assert (r = r') as <- by congruence. by rewrite <- H1. Qed.

Lemma holds_is_Some s id p : holds s id p → is_Some (seen s id).
Proof. intros (_ & r & -> & _). eauto. Qed.

Lemma seen_holds s id p : page_good id p → seen s id = Some (seal p) → holds s id p.
Proof. intros Hg Hs. pose proof Hg as (Hp & _). split; [done|]. exists (seal p). split_and!; [done|by apply seal_ok|by apply same_logged_seal]. Qed.

Section thread.
Context (me : ThreadId).

Lemma current_holds X s id p : disk_ok me (Some id) X s → current s id p → holds s id p ∧ page_good id p.
Proof using Type.
  intros Hok Hc. destruct (held_frame me X s id Hok) as (slot & f & _ & _ & _ & _ & _ & Hg & Hc' & Hs).
  assert (f_page f = p) as <- by (unfold current in *; congruence). split; [by apply seen_holds|done].
Qed.

(** Reading a page under a pin of its own. *)
Lemma wp_pinned_read {R} id (read : Page → R) Q E s :
  disk_ok me None ∅ s → (id < Control.next_page_id (control s))%N →
  (∀ s' page, disk_ok me None ∅ s' → like s s' → (∀ i, seen s' i = seen s i) → holds s id page → Q (read page) s') →
  (∀ e s', disk_ok me None ∅ s' → like s s' → (∀ i, seen s' i = seen s i) → (is_Some (seen s id) → ¬ willing s) → E e s') →
  wp (pinned_for me id (read_pinned id read)) Q E s.
Proof using Type.
  intros Hok Hid HQ HE. apply wp_pinned_for; [done|done| |done]. intros s1 H1 Hl1 Hv1 _. eapply wp_read; [done|].
  intros page Hc Hg Hs. split; [done|]. intros s3 H3 Hl3 Hv3. apply HQ; [done|by transitivity s1|intros i; by rewrite Hv3|].
  apply (holds_seen s1); [by rewrite Hv1|]. by apply seen_holds.
Qed.

(** A change that changes nothing. *)
Lemma wp_change_nothing {R} id (change : Page → R * Page) page Q E s :
  disk_ok me (Some id) ∅ s → current s id page → (change page).2 = page →
  (∀ s', disk_ok me (Some id) ∅ s' → like s s' → (∀ i, seen s' i = seen s i) → Q (change page).1 s') →
  wp (with_page_mut me id change) Q E s.
Proof using Type.
  intros Hok Hcur Hsame HQ. destruct (held_frame me ∅ s id Hok) as (slot & f & Hb & Hf & Hid & Hpins & Hh & Hg & Hc & Hs).
  assert (f_page f = page) by (unfold current in *; congruence). subst page.
  assert (Hturn : change_turn id me false (λ q, (change q).2) (pool s) = (Changed, pool s)).
  { unfold change_turn, slot_of. rewrite Hb, result_bind_ok, (proj2 (frame_Ok slot _ f) Hf), result_bind_ok.
    unfold pins_of, others. rewrite Hh. cbn [list_find fst]. rewrite decide_True by done. cbn. rewrite N.eqb_refl. cbn.
    f_equal. assert (with_page_bytes (change (f_page f)).2 f = f) as -> by (rewrite Hsame; by destruct f).
    unfold set_frame, with_frames, with_inner. rewrite list_insert_id by done. by destruct (pool s) as [? ? []]. }
  unfold wp, with_page_mut. rewrite Hturn, (with_page_current _ s id _ Hc). apply HQ; [by destruct Hok|by split|done].
Qed.

Lemma wp_touch id Q E s :
  disk_ok me (Some id) ∅ s → (∀ s', disk_ok me (Some id) ∅ s' → like s s' → (∀ i, seen s' i = seen s i) → Q () s') →
  wp (with_page_mut me id (changing (λ page, page))) Q E s.
Proof using Type.
  intros Hok HQ. destruct (held_frame me ∅ s id Hok) as (slot & f & _ & _ & _ & _ & _ & _ & Hc & _).
  by apply (wp_change_nothing id _ (f_page f)).
Qed.

(** ** Staging *)

(** The set is over the pages the thread sees, and leaves good pages. *)
Record staged_ok (s : DiskStorage) (l : list Staged) : Prop := {
  so_nodup : NoDup (st_id <$> l);
  so_before st : st ∈ l → holds s (st_id st) (st_before st);
  so_after st : st ∈ l → page_good (st_id st) (st_after st);
  so_id st : st ∈ l → (st_id st < Control.next_page_id (control s))%N;
}.

Lemma staged_ok_seen s s' l :
  staged_ok s l → Control.next_page_id (control s) = Control.next_page_id (control s') →
  (∀ st, st ∈ l → seen s' (st_id st) = seen s (st_id st)) → staged_ok s' l.
Proof using Type.
  intros [H1 H2 H3 H4] Hn Hs. split; [done| |done|by rewrite <- Hn]. intros st Hst. apply (holds_seen s); [by apply Hs|by apply H2].
Qed.

(** A page staged for the first time. *)
Lemma wp_stage {R} set id (change : Page → R * Page) Q E s :
  disk_ok me None ∅ s → (id < Control.next_page_id (control s))%N → id ∉ (st_id <$> staged set) →
  (∀ s' before, disk_ok me None ∅ s' → like s s' → (∀ i, seen s' i = seen s i) → holds s id before →
    Q ((change before).1, with_staged (staged set ++ [mkStaged id before (change before).2]) set) s') →
  (∀ e s', disk_ok me None ∅ s' → like s s' → (∀ i, seen s' i = seen s i) → (is_Some (seen s id) → ¬ willing s) → E e s') →
  wp (set_write me set id change) Q E s.
Proof using Type.
  intros Hok Hid Hni HQ HE. unfold set_write. destruct (list_find _ (staged set)) as [[at_ st]|] eqn:Hf.
  { apply list_find_Some in Hf as (Hst & Heq & _). exfalso. apply Hni. rewrite <- Heq. apply list_elem_of_fmap_2. by eapply list_elem_of_lookup_2. }
  apply wp_bind. apply wp_pinned_read; [done|done| |done]. intros s' before H' Hl Hv Hh.
  specialize (HQ s' before H' Hl Hv Hh). destruct (change before) as [r after]. by apply wp_ret.
Qed.

(** ** Installing *)

(** What a delta of the set makes of its page. *)
Definition delta_for (st : Staged) (d : PageDelta) : Prop :=
  staged_delta (st_id st) (st_before st) (st_after st) = Some d.

Lemma delta_page st d : delta_for st d → d_page d = st_id st.
Proof using Type.
  unfold delta_for, staged_delta. destruct (is_free (st_before st) && negb (is_free (st_after st)));
    [destruct (whole_ranges (st_after st))|destruct (changed_ranges (st_before st) (st_after st))]; by intros [= <-].
Qed.

Lemma install_page_good st d l page :
  delta_for st d → page_good (st_id st) (st_before st) → page_good (st_id st) (st_after st) →
  page_ok page → same_logged page (st_before st) →
  page_good (st_id st) (install_page page d l) ∧ same_logged (install_page page d l) (st_after st).
Proof using Type.
  intros Hd Hgb Hga Hp Hs. pose proof Hga as (Hpa & _). pose proof Hgb as (Hpb & _).
  destruct (staged_delta_makes _ _ _ _ (proj1 Hpb) (proj1 Hpa) Hd page (proj1 Hp) (or_intror Hs)) as (Hl & Hsame & Hun).
  assert (Hok : page_ok (apply_delta page d)).
  { split; [done|]. apply Forall_lookup. intros i b Hi. pose proof (lookup_lt_Some _ _ _ Hi) as Hlt. rewrite Hl in Hlt.
    destruct (unlogged i) eqn:Hu.
    - rewrite Hun in Hi by done. by apply (proj1 (Forall_lookup _ _) (proj2 Hp) i).
    - rewrite Hsame in Hi by done. by apply (proj1 (Forall_lookup _ _) (proj2 Hpa) i). }
  assert (Heq : install_page page d l = raise_lsn l (apply_delta page d)) by done.
  assert (Hs' : same_logged (install_page page d l) (st_after st)) by (rewrite Heq; by rewrite same_logged_raise_lsn).
  split; [|done]. apply (good_same_logged _ (st_after st)); [rewrite Heq; by apply raise_lsn_ok|done|done].
Qed.

(** A call on each page that leaves what a record logs. *)
Definition page_hook (on_page : PageId → disk ()) : Prop := ∀ id s,
  disk_ok me (Some id) ∅ s →
  wp (on_page id) (λ _ s', disk_ok me (Some id) ∅ s' ∧ like s s' ∧ (∀ i, i ≠ id → seen s' i = seen s i) ∧
    ∀ page, holds s id page → holds s' id page) (λ _ _, False) s.

Lemma hook_in_progress : page_hook (λ id, pool_set_in_progress id false).
Proof using Type.
  intros id s Hok. eapply wp_in_progress; [done|]. intros s' H' Hl Hv. split_and!; try done.
  intros page. by apply holds_seen.
Qed.

Lemma hook_nothing : page_hook (λ _, mret ()).
Proof using Type. intros id s Hok. apply wp_ret. by split_and!. Qed.

Lemma holds_raise s s' id l page :
  page_good id page → replaced s s' id (raise_lsn l page) → (l ≤ u64_max)%N → holds s' id page.
Proof using Type.
  intros Hg [Hs _] Hl. pose proof Hg as (Hp & _). split; [done|]. exists (seal (raise_lsn l page)).
  assert (Hr : page_ok (raise_lsn l page)) by by apply raise_lsn_ok.
  split_and!; [done|by apply seal_ok|]. rewrite same_logged_seal by done. by apply same_logged_raise_lsn.
Qed.

Lemma hook_mark l : (l ≤ u64_max)%N → page_hook (λ id, _ ← pool_mark_dirty id l; pool_set_in_progress id false).
Proof using Type.
  intros Hl id s Hok. destruct (held_frame me ∅ s id Hok) as (slot & f & _ & _ & _ & _ & _ & Hg & Hc & Hsn).
  apply wp_bind. eapply wp_mark; [done|done|done|exact Hc|]. intros s1 H1 Hl1 Hrep. eapply wp_in_progress; [done|].
  intros s2 H2 Hl2 Hv2. split_and!; [done|by transitivity s1|intros i Hi; rewrite Hv2; by apply Hrep|].
  intros page Hpage. apply (holds_seen s1); [done|]. pose proof (holds_raise _ _ _ _ _ Hg Hrep Hl) as Hh.
  apply (holds_alike s1 id (f_page f)); [apply Hpage| |done]. apply (holds_same s id); [by apply seen_holds|done].
Qed.

Lemma wp_touch_all deltas : ∀ s,
  disk_ok me None ∅ s → (∀ d, d ∈ deltas → is_Some (seen s (d_page d)) ∧ (d_page d < Control.next_page_id (control s))%N) →
  wp (for_each (λ d, pinned_for me (d_page d) (with_page_mut me (d_page d) (changing (λ page, page)))) deltas)
    (λ _ s', disk_ok me None ∅ s' ∧ like s s' ∧ ∀ i, seen s' i = seen s i)
    (λ _ s', disk_ok me None ∅ s' ∧ like s s' ∧ (∀ i, seen s' i = seen s i) ∧ ¬ willing s) s.
Proof using Type.
  induction deltas as [|d deltas IH]; intros s Hok Hd; cbn [for_each]; [by apply wp_ret; split_and!|].
  destruct (Hd d ltac:(by left)) as [Hsome Hid]. apply wp_bind. apply wp_pinned_for; [done|done| |].
  - intros s1 H1 Hl1 Hv1 _. apply wp_touch; [done|]. intros s2 H2 Hl2 Hv2. split; [done|]. intros s3 H3 Hl3 Hv3.
    assert (Hl : like s s3) by (transitivity s1; [done|by transitivity s2]).
    assert (Hv : ∀ i, seen s3 i = seen s i) by (intros i; by rewrite Hv3, Hv2, Hv1).
    eapply wp_mono; [apply IH; [done|]| |].
    + intros d' Hd'. rewrite Hv, (l_control _ _ Hl). apply Hd. by right.
    + intros _ s4 (H4 & Hl4 & Hv4). split_and!; [done|by transitivity s3|intros i; by rewrite Hv4].
    + intros e s4 (H4 & Hl4 & Hv4 & Hw). split_and!; [done|by transitivity s3|intros i; by rewrite Hv4|].
      intros Hwill. apply Hw. by eapply like_willing.
  - intros e s' H' Hl' Hv' Hw. split_and!; try done. by apply Hw.
Qed.

Section install.
Context (on_page : PageId → disk ()) (Hhook : page_hook on_page) (page_lsn : Lsn) (Hlsn : (page_lsn ≤ u64_max)%N).

Lemma wp_install_one st d s :
  disk_ok me None ∅ s → delta_for st d → holds s (st_id st) (st_before st) → page_good (st_id st) (st_after st) →
  (st_id st < Control.next_page_id (control s))%N →
  wp (put_delta me page_lsn on_page d)
    (λ _ s', disk_ok me None ∅ s' ∧ like s s' ∧ holds s' (st_id st) (st_after st) ∧ ∀ i, i ≠ st_id st → seen s' i = seen s i)
    (λ _ s', disk_ok me None ∅ s' ∧ like s s' ∧ (∀ i, i ≠ st_id st → seen s' i = seen s i) ∧ ¬ willing s) s.
Proof using Hhook Hlsn.
  intros Hok Hd Hb Ha Hid. unfold put_delta. rewrite (delta_page st d Hd). apply wp_pinned_for; [done|done| |].
  - intros s1 H1 Hl1 Hv1 _. destruct (held_frame me ∅ s1 (st_id st) H1) as (slot & f & _ & _ & _ & _ & _ & Hg & Hc & Hsn).
    pose proof (seen_holds s1 _ _ Hg Hsn) as Hh1. pose proof (holds_seen s s1 _ _ (Hv1 _) Hb) as Hb1.
    pose proof (holds_same _ _ _ _ Hh1 Hb1) as Hsame.
    destruct (install_page_good st d page_lsn (f_page f) Hd (proj1 Hb) Ha (proj1 Hg) Hsame) as [Hgi Hsi].
    apply wp_bind. eapply wp_change_at; [done|exact Hc|exact Hgi|].
    intros s2 H2 Hl2 [Hs2 Ho2] Hc2. cbn [changing snd fst] in *. apply wp_bind. eapply wp_mark; [done|done|done|exact Hc2|].
    intros s3 H3 Hl3 Hrep3. eapply wp_mono; [by apply Hhook| |by intros].
    intros _ s4 (H4 & Hl4 & Ho4 & Hk4). split; [done|]. intros s5 H5 Hl5 Hv5. split_and!; [done| | |].
    + transitivity s1; [done|]. transitivity s2; [done|]. transitivity s3; [done|]. by transitivity s4.
    + apply (holds_seen s4); [done|]. apply Hk4. apply (holds_alike _ _ _ _ Ha Hsi). by eapply holds_raise.
    + intros i Hi. rewrite Hv5, Ho4 by done. destruct Hrep3 as [_ ->]; [|done]. by rewrite Ho2, Hv1.
  - intros e s' H' Hl' Hv' Hw. split_and!; try done. apply Hw. by eapply holds_is_Some.
Qed.

Lemma wp_install_all l deltas : ∀ s,
  disk_ok me None ∅ s → staged_ok s l → NoDup (d_page <$> deltas) → (∀ d, d ∈ deltas → ∃ st, st ∈ l ∧ delta_for st d) →
  wp (for_each (put_delta me page_lsn on_page) deltas)
    (λ _ s', disk_ok me None ∅ s' ∧ like s s' ∧ (∀ st d, st ∈ l → d ∈ deltas → delta_for st d → holds s' (st_id st) (st_after st)) ∧
      ∀ i, i ∉ (d_page <$> deltas) → seen s' i = seen s i)
    (λ _ s', disk_ok me None ∅ s' ∧ like s s' ∧ (∀ i, i ∉ (d_page <$> deltas) → seen s' i = seen s i) ∧ ¬ (answers s = [] ∧ room s (length deltas))) s.
Proof using Hhook Hlsn.
  enough (Hgen : ∀ s, disk_ok me None ∅ s → NoDup (d_page <$> deltas) →
    (∀ d, d ∈ deltas → ∃ st, st ∈ l ∧ delta_for st d) →
    (∀ st d, st ∈ l → d ∈ deltas → delta_for st d → holds s (st_id st) (st_before st)) →
    (∀ st, st ∈ l → page_good (st_id st) (st_after st) ∧ (st_id st < Control.next_page_id (control s))%N) →
    (∀ st st', st ∈ l → st' ∈ l → st_id st = st_id st' → st = st') →
    wp (for_each (put_delta me page_lsn on_page) deltas)
    (λ _ s', disk_ok me None ∅ s' ∧ like s s' ∧ (∀ st d, st ∈ l → d ∈ deltas → delta_for st d → holds s' (st_id st) (st_after st)) ∧
      ∀ i, i ∉ (d_page <$> deltas) → seen s' i = seen s i)
    (λ _ s', disk_ok me None ∅ s' ∧ like s s' ∧ (∀ i, i ∉ (d_page <$> deltas) → seen s' i = seen s i) ∧ ¬ (answers s = [] ∧ room s (length deltas))) s).
  { intros s Hok [Hnd Hbf Haf Hid] Hd Hall. apply Hgen; [done|done|done|by intros st d Hst _ _; apply Hbf|by intros st Hst; split; [apply Haf|apply Hid]|].
    intros st st' [i Hi]%list_elem_of_lookup [j Hj]%list_elem_of_lookup He.
    assert (i = j) as <-; [|congruence]. eapply NoDup_lookup; [exact Hnd|by rewrite list_lookup_fmap, Hi|by rewrite list_lookup_fmap, Hj; cbn; rewrite He]. }
  induction deltas as [|d deltas IH]; intros s Hok Hnd Hall Hb Ha Hinj; cbn [for_each].
  { apply wp_ret. split_and!; try done. set_solver. }
  rewrite fmap_cons in Hnd. apply NoDup_cons in Hnd as [Hni Hnd]. destruct (Hall d ltac:(by left)) as (st & Hst & Hd).
  pose proof (delta_page st d Hd) as Hpage. apply wp_bind. eapply wp_mono; [eapply wp_install_one; [done|exact Hd| | |]| |].
  - apply (Hb st d); [done|by left|done].
  - by apply Ha.
  - by apply Ha.
  - intros _ s1 (H1 & Hl1 & Hh1 & Ho1).
    assert (Hne : ∀ st' d', st' ∈ l → d' ∈ deltas → delta_for st' d' → st_id st' ≠ st_id st).
    { intros st' d' Hst' Hd' Hf He. apply Hni. rewrite Hpage, <- He, <- (delta_page st' d' Hf). by apply list_elem_of_fmap_2. }
    eapply wp_mono; [apply IH; [done|done|by intros; apply Hall; right| | |done]| |].
    + intros st' d' Hst' Hd' Hf. apply (holds_seen s); [apply Ho1; by eapply Hne|]. apply (Hb st' d'); [done|by right|done].
    + by rewrite (l_control _ _ Hl1).
    + intros _ s2 (H2 & Hl2 & Hh2 & Ho2). split_and!; [done|by transitivity s1| |].
      * intros st' d' Hst' [->|Hd']%elem_of_cons Hf; [|by apply (Hh2 st' d')].
        assert (st' = st) as -> by (apply Hinj; [done|done|]; rewrite <- (delta_page _ _ Hf); by rewrite Hpage).
        apply (holds_seen s1); [|done]. apply Ho2. by rewrite <- Hpage.
      * intros i Hi. rewrite fmap_cons, not_elem_of_cons in Hi. destruct Hi as [Hi1 Hi2]. rewrite Ho2 by done. apply Ho1. congruence.
    + intros e s2 (H2 & Hl2 & Ho2 & Hw). split_and!; [done|by transitivity s1| |].
      * intros i Hi. rewrite fmap_cons, not_elem_of_cons in Hi. destruct Hi as [Hi1 Hi2]. rewrite Ho2 by done. apply Ho1. congruence.
      * intros [Han Hr]. apply Hw. split; [by apply Hl1|]. apply (room_ties 1 _ s); [|apply (l_size _ _ Hl1)|done].
        by apply (like_ties_one s s1 (st_id st)).
  - intros e s1 (H1 & Hl1 & Ho1 & Hw). split_and!; try done.
    + intros i Hi. rewrite fmap_cons, not_elem_of_cons in Hi. apply Ho1. rewrite <- Hpage. tauto.
    + intros [Han Hr]. apply Hw. split; [done|]. eapply room_le; [exact Hr|lia].
Qed.
End install.

(** ** The commit *)

Lemma whole_first_perm ds : whole_first ds ≡ₚ ds.
Proof using Type.
  unfold whole_first. induction ds as [|d ds IH]; [done|]. cbn. destruct (d_whole d); cbn; [by rewrite IH|].
  rewrite <- Permutation_middle. by rewrite IH.
Qed.

Lemma deltas_of_spec set d : d ∈ deltas_of set ↔ ∃ st, st ∈ staged set ∧ delta_for st d.
Proof using Type. unfold deltas_of. by rewrite list_elem_of_omap. Qed.

Lemma deltas_of_nodup set : NoDup (st_id <$> staged set) → NoDup (d_page <$> deltas_of set).
Proof using Type.
  unfold deltas_of. induction (staged set) as [|st l IH]; [constructor|]. rewrite fmap_cons. intros [Hn Hl]%NoDup_cons. cbn.
  destruct (staged_delta _ _ _) as [d|] eqn:Hd; [|by apply IH]. rewrite fmap_cons. apply NoDup_cons. split; [|by apply IH].
  intros (d' & Heq & (st' & Hst' & Hd')%list_elem_of_omap)%list_elem_of_fmap. apply Hn.
  apply (delta_page st d) in Hd. apply (delta_page st' d') in Hd'. rewrite <- Hd, Heq, Hd'. by apply list_elem_of_fmap_2.
Qed.

Lemma deltas_of_length set : (length (deltas_of set) ≤ length (staged set))%nat.
Proof using Type. unfold deltas_of. induction (staged set) as [|st l IH]; cbn; [done|]. destruct (staged_delta _ _ _); cbn; lia. Qed.

(** All but the pages and the end of the journal is as it was. *)
Record near (s s' : DiskStorage) : Prop := {
  n_control : control s' = control s;
  n_files : files s' = files s;
  n_size : same_size (pool s) (pool s');
  n_answers : answers s = [] → answers s' = [];
  n_last : (last_lsn (wal s) ≤ last_lsn (wal s') ≤ last_lsn (wal s) + 1)%N;
  n_durable : Wal.durable_lsn (wal s') = Wal.durable_lsn (wal s);
  n_busy : ∀ i, busy (pool s') i → busy (pool s) i;
}.

Lemma like_near s s' : like s s' → near s s'.
Proof using Type. intros [? ? ? Hw ? ? ?]. split; try done; rewrite Hw; [lia|done]. Qed.

Lemma near_like s s1 s2 : near s s1 → like s1 s2 → near s s2.
Proof using Type.
  intros [H1 H2 H3 H4 H5 H6 H7] [? ? ? ? Hz ? ?]. split; try congruence; [destruct H3, Hz; split; congruence|auto|auto].
Qed.

Lemma like_near_trans s s1 s2 : like s s1 → near s1 s2 → near s s2.
Proof using Type.
  intros [? ? ? Hw Hz ? ?] [H1 H2 H3 H4 H5 H6 H7]. split; try congruence; [destruct H3, Hz; split; congruence|auto|auto].
Qed.

Lemma near_ties (X : gset PageId) s s' : near s s' → (∀ i, i ∉ X → seen s' i = seen s i) → ties (size X) s s'.
Proof using Type.
  intros Hn Hv. exists X. split; [done|]. intros id Hi. destruct (decide (id ∈ X)) as [|Hni]; [by right|left].
  apply (tied_seen s s'); [done|apply Hn|by apply Hv|by rewrite (n_durable _ _ Hn)].
Qed.

(** The system refuses nothing, the journal has a number left and the pool has room for the [k]
    pages of a record, which is not durable yet. *)
Definition can_commit (s : DiskStorage) (k : nat) : Prop :=
  answers s = [] ∧ room s k ∧ (last_lsn (wal s) < u64_max)%N.

Definition committed (s s' : DiskStorage) (l : list Staged) : Prop :=
  disk_ok me None ∅ s' ∧ near s s' ∧ (∀ st, st ∈ l → holds s' (st_id st) (st_after st)) ∧
  ∀ i, i ∉ (st_id <$> l) → seen s' i = seen s i.

Definition not_committed (s s' : DiskStorage) (l : list Staged) : Prop :=
  disk_ok me None ∅ s' ∧ near s s' ∧ (∀ i, i ∉ (st_id <$> l) → seen s' i = seen s i) ∧
  ((length l ≤ PAGES_PER_RECORD)%nat → ¬ can_commit s (length l)).

Lemma delta_ids set i : i ∉ (st_id <$> staged set) → i ∉ (d_page <$> deltas_of set).
Proof using Type.
  intros Hi (d & -> & (st & Hst & Hd)%deltas_of_spec)%list_elem_of_fmap. apply Hi. rewrite (delta_page st d Hd). by apply list_elem_of_fmap_2.
Qed.

Lemma deltas_fit set s :
  staged_ok s (staged set) → (length (staged set) ≤ PAGES_PER_RECORD)%nat →
  (N.of_nat (length (encode_page_write (mkPageWrite (whole_first (deltas_of set)) (root set)))) ≤ MAX_PAYLOAD_LEN)%N.
Proof using Type.
  intros Hs Hle. apply page_write_fits; cbn [pw_pages].
  - rewrite (Permutation_length (whole_first_perm (deltas_of set))). unfold deltas_of. etrans; [|exact Hle].
    clear. induction (staged set) as [|st l IH]; cbn; [done|]. destruct (staged_delta _ _ _); cbn; lia.
  - rewrite whole_first_perm. apply Forall_forall. intros d (st & Hst & Hd)%deltas_of_spec.
    destruct (so_before _ _ Hs st Hst) as [([Hb _] & _) _]. destruct (so_after _ _ Hs st Hst) as ([Ha _] & _).
    by destruct (staged_delta_apart _ _ _ d Hb Ha Hd).
Qed.

Lemma staged_kept s s' st : holds s (st_id st) (st_before st) → page_good (st_id st) (st_after st) →
  staged_delta (st_id st) (st_before st) (st_after st) = None → seen s' (st_id st) = seen s (st_id st) → holds s' (st_id st) (st_after st).
Proof using Type.
  intros Hb Ha Hn Hs. apply (holds_seen s); [done|]. eapply holds_alike; [done| |exact Hb].
  destruct Hb as [([Hlb _] & _) _]. destruct Ha as ([Hla _] & _). by eapply staged_delta_none.
Qed.

(** A staged page without a delta is not one of the pages put in the pool. *)
Lemma no_delta_id s set st : staged_ok s (staged set) → st ∈ staged set →
  staged_delta (st_id st) (st_before st) (st_after st) = None → st_id st ∉ (d_page <$> deltas_of set).
Proof using Type.
  intros Hs Hst Hn (d & Heq & (st' & Hst' & Hd)%deltas_of_spec)%list_elem_of_fmap. rewrite (delta_page st' d Hd) in Heq.
  apply list_elem_of_lookup in Hst as [i Hi]. apply list_elem_of_lookup in Hst' as [j Hj].
  assert (i = j) as <-.
  { eapply NoDup_lookup; [exact (so_nodup _ _ Hs)|by rewrite list_lookup_fmap, Hi|by rewrite list_lookup_fmap, Hj; cbn; rewrite Heq]. }
  assert (st = st') as <- by congruence. unfold delta_for in Hd. congruence.
Qed.

(** The pages put in the pool, whatever the number they take, from a state [s2] that shows the
    same pages. *)
Lemma wp_install_deltas set on_page s s2 (lsn : option Lsn) page_lsn :
  staged_ok s (staged set) → page_hook on_page → disk_ok me None ∅ s2 → near s s2 → (∀ i, seen s2 i = seen s i) → (page_lsn ≤ u64_max)%N →
  wp (_ ← for_each (put_delta me page_lsn on_page) (whole_first (deltas_of set)); mret lsn)
    (λ _ s', committed s s' (staged set)) (λ _ s', not_committed s s' (staged set)) s2.
Proof using Type.
  intros Hs Hhook H2 Hn2 Hv2 Hp. apply wp_bind.
  assert (Hs2 : staged_ok s2 (staged set)) by (apply (staged_ok_seen s); [done|by rewrite (n_control _ _ Hn2)|intros; apply Hv2]).
  eapply wp_mono; [apply (wp_install_all on_page Hhook page_lsn Hp (staged set)); [done|done| |]| |].
  - rewrite whole_first_perm. apply deltas_of_nodup, Hs.
  - intros d. rewrite whole_first_perm. by rewrite deltas_of_spec.
  - intros _ s3 (H3 & Hl3 & Hh3 & Ho3). apply wp_ret. split_and!; [done|by eapply near_like| |].
    + intros st Hst. destruct (staged_delta (st_id st) (st_before st) (st_after st)) as [d|] eqn:Hd.
      * apply (Hh3 st d); [done| |done]. rewrite whole_first_perm. apply deltas_of_spec. eauto.
      * apply (staged_kept s2); [by apply Hs2|by apply Hs2|done|]. apply Ho3. rewrite whole_first_perm. by eapply no_delta_id.
    + intros i Hi. rewrite Ho3, Hv2; [done|]. rewrite whole_first_perm. by apply delta_ids.
  - intros e s3 (H3 & Hl3 & Ho3 & Hw). split_and!; [done|by eapply near_like| |].
    + intros i Hi. rewrite Ho3, Hv2; [done|]. rewrite whole_first_perm. by apply delta_ids.
    + intros Hlen (Ha & Hr & _). apply Hw. split; [by apply Hn2|]. apply (room_ties 0 _ s); [|apply (n_size _ _ Hn2)|].
      * rewrite <- (size_empty (C := gset PageId)). apply near_ties; [done|by intros].
      * eapply room_le; [exact Hr|]. rewrite (Permutation_length (whole_first_perm (deltas_of set))). pose proof (deltas_of_length set). lia.
Qed.

Lemma wp_commit set on_page s :
  disk_ok me None ∅ s → staged_ok s (staged set) → page_hook on_page →
  wp (commit me set on_page) (λ _ s', committed s s' (staged set)) (λ _ s', not_committed s s' (staged set)) s.
Proof using Type.
  intros Hok Hs Hhook. unfold commit, install. destruct (bool_decide_reflect (deltas_of set = [])) as [He|Hne].
  { apply wp_ret. split_and!; [done|by apply like_near| |done]. intros st Hst. apply (staged_kept s); [by apply Hs|by apply Hs| |done].
    destruct (staged_delta _ _ _) as [d|] eqn:Hd; [|done]. assert (Hin : d ∈ deltas_of set) by (apply deltas_of_spec; eauto).
    rewrite He in Hin. by apply not_elem_of_nil in Hin. }
  apply wp_bind. unfold log_deltas. apply wp_bind. eapply wp_mono; [apply wp_touch_all; [done|]| |].
  { intros d (st & Hst & Hd)%deltas_of_spec. rewrite (delta_page st d Hd). split; [by eapply holds_is_Some, Hs|by apply Hs]. }
  2: { intros e s1 (H1 & Hl1 & Hv1 & Hw). split_and!; [done|by apply like_near|done|]. intros _ (? & Hr & _). apply Hw. split; [done|].
       eapply room_le; [exact Hr|lia]. }
  intros _ s1 (H1 & Hl1 & Hv1).
  assert (Hs1 : staged_ok s1 (staged set)) by (apply (staged_ok_seen s); [done|by rewrite (l_control _ _ Hl1)|intros; apply Hv1]).
  apply wp_bind. destruct (logged set) eqn:Hlog.
  - apply wp_bind. eapply wp_wal_append.
    + intros w l lsn -> Hw Hle Hd Hl. apply wp_ret, wp_ret. apply wp_install_deltas; [done|done| |split|intros i; apply Hv1|done]; cbn; try apply Hl1.
      * apply disk_ok_wal; [by rewrite Hw|by apply disk_ok_answers].
      * intros Ha. by apply Hl, Hl1.
      * rewrite Hw, (l_wal _ _ Hl1). lia.
      * by rewrite Hd, (l_wal _ _ Hl1).
    + intros e w l Hw Hd Hl Hwhy. split_and!; [|split|intros i _; apply Hv1|]; cbn; try apply Hl1.
      * apply disk_ok_wal; [rewrite Hw; apply H1|by apply disk_ok_answers].
      * intros Ha. by apply Hl, Hl1.
      * rewrite Hw, (l_wal _ _ Hl1). lia.
      * by rewrite Hd, (l_wal _ _ Hl1).
      * intros Hlen (Ha & _ & Hlt). rewrite (l_wal _ _ Hl1) in Hwhy. specialize (Hwhy ltac:(by apply Hl1) (deltas_fit set s1 Hs1 Hlen)). lia.
  - apply wp_ret, wp_ret. apply wp_install_deltas; [done|done|done|by apply like_near|done|done].
Qed.
End thread.

(** * The pages in use

    What the operations of a heap or a tree may do to the pages of the instance: they hand out
    pages, they change the pages of a given set, and every other page in use reads as it did. *)

#[local] Open Scope Z_scope.

(** A page handed out and not on the free list [l]. *)
Definition in_use (s : DiskStorage) (l : list PageId) (id : PageId) : Prop :=
  (id < Control.next_page_id (control s))%N ∧ id ∉ l.

(** The system refuses nothing, and there is room for [n] pages more and [m] writes of a page: in
    the file, in the numbers of the journal, and in the pool, which has a frame to give when the
    pages handed out and the pages written wait for their records to be durable. *)
Definition can_grow (s : DiskStorage) (n m : nat) : Prop :=
  answers s = [] ∧ room s (n + m) ∧
  ((Control.next_page_id (control s) + N.of_nat n) * N.of_nat PAGE_SIZE ≤ u64_max)%N ∧
  (last_lsn (wal s) + N.of_nat m ≤ u64_max)%N.

Lemma can_grow_le s n m n' m' : can_grow s n m → (n' ≤ n)%nat → (m' ≤ m)%nat → can_grow s n' m'.
Proof. intros (Ha & Hc & Hn & Hl) ? ?. split_and!; [done|eapply room_le; [exact Hc|lia]|nia|lia]. Qed.

Lemma can_grow_willing s n m : can_grow s n m → willing s.
Proof. intros (Ha & Hc & _). split; [done|]. eapply room_le; [exact Hc|lia]. Qed.

Lemma can_grow_allocate s n m : can_grow s (S n) m → can_allocate s.
Proof. intros Hg. split; [by eapply can_grow_willing|]. destruct Hg as (_ & _ & Hn & _). nia. Qed.

Lemma can_grow_commit s n m k : can_grow s n m → (k ≤ m)%nat → (0 < m)%nat → can_commit s k.
Proof. intros (Ha & Hr & _ & ?) ? ?. split_and!; [done|eapply room_le; [exact Hr|lia]|lia]. Qed.

Section thread.
Context (me : ThreadId).

(** At most [n] pages and [m] writes later; of the pages in use, those of [X] may have changed. *)
Record ahead (s : DiskStorage) (l : list PageId) (s' : DiskStorage) (l' : list PageId) (n m : nat) (X : gset PageId) : Prop := {
  h_ok : disk_ok me None ∅ s';
  h_list : alloc_ok s' l';
  h_next : (Control.next_page_id (control s) ≤ Control.next_page_id (control s') ≤ Control.next_page_id (control s) + N.of_nat n)%N;
  h_count : (page_count (data s') ≤ page_count (data s) + N.of_nat n)%N;
  h_capacity : capacity (pool s') = capacity (pool s);
  h_last : (last_lsn (wal s) ≤ last_lsn (wal s') ≤ last_lsn (wal s) + N.of_nat m)%N;
  h_answers : answers s = [] → answers s' = [];
  h_ties : ties (n + m) s s';
  h_use i : in_use s l i → in_use s' l' i;
  h_seen i : in_use s l i → i ∉ X → seen s' i = seen s i;
}.

(** The same of an operation that failed, which says less of the room left. *)
Record kept (s : DiskStorage) (l : list PageId) (s' : DiskStorage) (l' : list PageId) (X : gset PageId) : Prop := {
  k_ok : disk_ok me None ∅ s';
  k_list : alloc_ok s' l';
  k_use i : in_use s l i → in_use s' l' i;
  k_seen i : in_use s l i → i ∉ X → seen s' i = seen s i;
}.

Lemma ahead_kept s l s' l' n m X : ahead s l s' l' n m X → kept s l s' l' X.
Proof using Type. by intros []. Qed.

Lemma kept_mono s l s' l' X Y : kept s l s' l' X → X ⊆ Y → kept s l s' l' Y.
Proof using Type. intros [] HX. split; try done. intros i Hi Hn. apply k_seen0; [done|set_solver]. Qed.

Lemma ahead_mono s l s' l' n m X n' m' Y :
  ahead s l s' l' n m X → (n ≤ n')%nat → (m ≤ m')%nat → X ⊆ Y → ahead s l s' l' n' m' Y.
Proof using Type. intros [] Hn Hm HX. split; try done; try lia; [eapply ties_le; [exact h_ties0|lia]|]. intros i Hi Hni. apply h_seen0; [done|set_solver]. Qed.

Lemma ahead_grow s l s' l' n m X n' m' :
  ahead s l s' l' n m X → can_grow s (n + n') (m + m') → can_grow s' n' m'.
Proof using Type.
  intros [] (Ha & Hc & Hn & Hl). split_and!; [auto| |nia|lia]. eapply room_ties; [exact h_ties0|done|]. eapply room_le; [exact Hc|lia].
Qed.

(** A later change may touch pages that the first one handed out. *)
Lemma kept_trans s1 l1 s2 l2 s3 l3 X Y Z :
  kept s1 l1 s2 l2 X → kept s2 l2 s3 l3 Y → (∀ i, i ∈ X ∪ Y → in_use s1 l1 i → i ∈ Z) → kept s1 l1 s3 l3 Z.
Proof using Type.
  intros [] [] HZ. split; [done|done|auto|]. intros i Hi Hn. rewrite k_seen1; [|auto|set_solver]. apply k_seen0; [done|set_solver].
Qed.

Lemma ahead_trans s1 l1 s2 l2 s3 l3 n m n' m' X Y Z :
  ahead s1 l1 s2 l2 n m X → ahead s2 l2 s3 l3 n' m' Y → (∀ i, i ∈ X ∪ Y → in_use s1 l1 i → i ∈ Z) →
  ahead s1 l1 s3 l3 (n + n') (m + m') Z.
Proof using Type.
  intros H1 H2 HZ. pose proof (kept_trans _ _ _ _ _ _ _ _ _ (ahead_kept _ _ _ _ _ _ _ H1) (ahead_kept _ _ _ _ _ _ _ H2) HZ) as [].
  destruct H1, H2. split; try done; try lia; try congruence; auto. eapply ties_le; [by eapply ties_trans|lia].
Qed.

Lemma ahead_refl s l : disk_ok me None ∅ s → alloc_ok s l → ahead s l s l 0 0 ∅.
Proof using Type. intros. split; try done; try lia. by apply ties_none. Qed.

(** Reads. *)
Lemma like_ahead s l s' : disk_ok me None ∅ s' → alloc_ok s l → like s s' → (∀ i, seen s' i = seen s i) → ahead s l s' l 0 0 ∅.
Proof using Type.
  intros H' Ha Hl Hv. pose proof (like_ties s s' Hl Hv). destruct Hl as [? Hc ? Hw [Hpc Hcap] Han _]. split; rewrite ?Hc, ?Hw; try done; try lia.
  - by apply (alloc_ok_ext s).
  - unfold data. rewrite Hpc. lia.
  - intros i. unfold in_use. by rewrite Hc.
Qed.

(** A change of a page in use. *)
Lemma like_ahead_at s l s' id : disk_ok me None ∅ s' → alloc_ok s l → like s s' → (∀ i, i ≠ id → seen s' i = seen s i) → id ∉ l →
  ahead s l s' l 0 1 {[id]}.
Proof using Type.
  intros H' Ha Hl Hv Hid. pose proof (like_ties_one s s' id Hl Hv) as Ht. destruct Hl as [? Hc ? Hw [Hpc Hcap] Han _]. split; rewrite ?Hc, ?Hw; try done; try lia.
  - apply (alloc_ok_ext s); try done. intros i Hi. apply Hv. by intros ->.
  - unfold data. rewrite Hpc. lia.
  - intros i. unfold in_use. by rewrite Hc.
  - intros i _ Hi. apply Hv. set_solver.
Qed.

Lemma allocated_ahead s s' l l' id : alloc_ok s l → allocated me s s' l l' id →
  ahead s l s' l' 1 0 ∅ ∧ ¬ in_use s l id ∧ in_use s' l' id.
Proof using Type.
  intros Ha Hal. pose proof (a_nodup _ _ Ha) as Hnd. pose proof (a_listed _ _ Ha) as Hli.
  assert (Hid : ¬ in_use s l id).
  { intros [Hlt Hni]. destruct (al_from _ _ _ _ _ _ Hal) as [-> |(_ & _ & ->)]; [set_solver|lia]. }
  pose proof (f_equal Control.next_page_id (al_control _ _ _ _ _ _ Hal)) as Hcn. cbn in Hcn.
  destruct Hal as [Hok' Ha' Hfrom Hsn _ Hlt' Hle _ Hw _ Hcap Hpc Han Hbu]. split; [|split; [done|]].
  - split; rewrite ?Hw; try done; try lia.
    + split; [done|]. destruct l; rewrite Hcn; cbn; lia.
    + exists {[id]}. split; [by rewrite size_singleton|]. intros i Hi. destruct (decide (i = id)) as [->|Hne]; [right; set_solver|left].
      apply (tied_seen s s'); [done|apply Hbu|by apply Hsn|by rewrite Hw].
    + intros i [Hi Hn]. split; [lia|]. destruct Hfrom as [-> |(-> & -> & _)]; set_solver.
    + intros i Hi _. apply Hsn. by intros ->.
  - split; [done|]. destruct Hfrom as [-> |(_ & -> & _)]; [|set_solver]. by apply NoDup_cons in Hnd as [? _].
Qed.

Lemma not_allocated_kept s s' l : not_allocated me s s' l → kept s l s' l ∅.
Proof using Type.
  intros [H1 H2 Hc Hs _]. split; try done; [intros i; unfold in_use; by rewrite Hc|]. intros i [Hi _] _. by apply Hs.
Qed.

Lemma wp_allocate_ahead l s :
  disk_ok me None ∅ s → alloc_ok s l →
  wp (allocate me)
    (λ id s', ∃ l', ahead s l s' l' 1 0 ∅ ∧ ¬ in_use s l id ∧ in_use s' l' id ∧ ∃ page, seen s' id = Some page ∧ kind page = Ok Free)
    (λ _ s', kept s l s' l ∅ ∧ ¬ can_grow s 1 0) s.
Proof using Type.
  intros Hok Ha. eapply wp_mono; [by apply wp_allocate| |].
  - intros id s' [l' Hal]. destruct (allocated_ahead _ _ _ _ _ Ha Hal) as (H1 & H2 & H3). exists l'. split_and!; try done. apply Hal.
  - intros e s' [Hn Hno]. split; [by apply not_allocated_kept|]. intros Hg. by eapply Hno, can_grow_allocate.
Qed.

(** Commits. *)
Lemma near_kept s l s' (X : gset PageId) :
  disk_ok me None ∅ s' → alloc_ok s l → near s s' → (∀ i, i ∉ X → seen s' i = seen s i) → (∀ i, i ∈ X → i ∉ l) → kept s l s' l X.
Proof using Type.
  intros H' Ha [Hc Hf [Hpc Hcap] Han Hl _ _] Hv HX. split; [done| |intros i; unfold in_use; by rewrite Hc|intros i _; apply Hv].
  apply (alloc_ok_ext s); try done. intros i Hi. apply Hv. intros Hin. by apply (HX i).
Qed.

Lemma near_ahead s l s' (X : gset PageId) m :
  disk_ok me None ∅ s' → alloc_ok s l → near s s' → (∀ i, i ∉ X → seen s' i = seen s i) → (∀ i, i ∈ X → i ∉ l) →
  (size X ≤ m)%nat → (0 < m)%nat → ahead s l s' l 0 m X.
Proof using Type.
  intros H' Ha Hn Hv HX Hsz Hm. pose proof (near_ties X s s' Hn Hv) as Ht. destruct (near_kept s l s' X H' Ha Hn Hv HX).
  destruct Hn as [Hc Hf [Hpc Hcap] Han Hl _ _]. split; rewrite ?Hc; try done; try lia.
  - unfold data. rewrite Hpc. lia.
  - by eapply ties_le.
Qed.

Lemma wp_commit_ahead set on_page s l (X : gset PageId) m :
  disk_ok me None ∅ s → alloc_ok s l → staged_ok s (staged set) → page_hook me on_page →
  X = list_to_set (st_id <$> staged set) → (∀ i, i ∈ X → i ∉ l) → (length (staged set) ≤ PAGES_PER_RECORD)%nat →
  (length (staged set) ≤ m)%nat → (0 < m)%nat →
  wp (commit me set on_page)
    (λ _ s', ahead s l s' l 0 m X ∧ ∀ st, st ∈ staged set → holds s' (st_id st) (st_after st))
    (λ _ s', kept s l s' l X ∧ ¬ can_grow s 0 m) s.
Proof using Type.
  intros Hok Ha Hs Hh -> HX Hle Hlm Hm. eapply wp_mono; [by apply wp_commit| |].
  - intros o s' (H' & Hn & Hst & Hv). split; [|done]. apply near_ahead; try done; [intros i Hi; apply Hv; set_solver|].
    rewrite size_list_to_set, length_fmap by apply Hs. done.
  - intros e s' (H' & Hn & Hv & Hno). split; [|intros Hg; by eapply (Hno Hle), can_grow_commit].
    apply near_kept; try done. intros i Hi. apply Hv. set_solver.
Qed.

(** The journal synced. *)
Lemma wp_flush_ahead s l :
  disk_ok me None ∅ s → alloc_ok s l →
  wp wal_flush (λ _ s', ahead s l s' l 0 0 ∅) (λ _ s', kept s l s' l ∅ ∧ ¬ willing s) s.
Proof using Type.
  intros Hok Ha. apply wp_wal_flush.
  - intros w a Hl Hd Han. split; cbn; rewrite ?Hl; try done; try lia; [|by apply (alloc_ok_ext s)|unfold data; cbn; lia|].
    2: { apply ties_none. intros i Hi. apply (tied_seen _ _ _ Hi); [done|done|]. cbn. lia. }
    apply disk_ok_wal; [rewrite Hl; apply Hok|by apply disk_ok_answers].
  - intros e w a Hl Hans. split; [|by intros []]. split; cbn; try done; [|by apply (alloc_ok_ext s)].
    apply disk_ok_wal; [rewrite Hl; apply Hok|by apply disk_ok_answers].
Qed.
End thread.
