(* ===== verification/AllocTheorems.v ===== *)
(** * A page has one owner

    The histories of the allocator: pages handed out, changed by those who own them, and freed.
    What a page is used for is not the business of the allocator; an owner changes its own pages
    through the pool, any way it likes. *)

From S2P Require Import Control Prelude Errors Bytes Crc Page HeapPage HeapPlace.
From S2P Require Import Wal PageWrite PageWriteFacts DataFile BufferPool BufferFacts PoolTheorems Disk DiskFacts Alloc AllocFacts.

#[local] Open Scope Z_scope.

Section thread.
Context (me : ThreadId).

(** A change of the pages [used], by their owners. *)
Record owners_step (used : gset PageId) (s s' : DiskStorage) : Prop := {
  os_ok : disk_ok me None ∅ s';
  os_control : control s' = control s;
  os_count : page_count (data s') = page_count (data s);
  os_seen : ∀ i, i ∉ used → seen s' i = seen s i;
}.

(** The pages in use, and the instance. *)
Notation State := (gset PageId * DiskStorage)%type.

Inductive alloc_step : State → State → Prop :=
  | step_allocate used s id s' : allocate me s = (Ok id, s') → alloc_step (used, s) (used ∪ {[id]}, s')
  | step_not_allocated used s e s' : allocate me s = (Err e, s') → alloc_step (used, s) (used, s')
  | step_free used s id s' : id ∈ used → free me id s = (Ok (), s') → alloc_step (used, s) (used ∖ {[id]}, s')
  | step_not_freed used s id e s' : id ∈ used → free me id s = (Err e, s') → alloc_step (used, s) (used, s')
  | step_owners used s s' : owners_step used s s' → alloc_step (used, s) (used, s').

(** A new instance: no page, a pool with frames, an empty journal. *)
Record fresh_instance (s : DiskStorage) : Prop := {
  fi_control : control s = Control_default;
  fi_pool : ∃ path n, with_durable_lsn (mkDataFile path []) n = Ok (pool s);
  fi_wal : last_lsn (wal s) = 0%N;
}.

Inductive alloc_reachable : State → Prop :=
  | alloc_start s : fresh_instance s → alloc_reachable (∅, s)
  | alloc_next s s' : alloc_reachable s → alloc_step s s' → alloc_reachable s'.

(** The pages in use are handed out and off the list. *)
Record owned (used : gset PageId) (s : DiskStorage) (l : list PageId) : Prop := {
  ow_ok : disk_ok me None ∅ s;
  ow_list : alloc_ok s l;
  ow_used : ∀ id, id ∈ used → id ∉ l ∧ (id < Control.next_page_id (control s))%N;
}.

Lemma fresh_owned s : fresh_instance s → owned ∅ s [].
Proof using Type.
  intros [Hc (path & n & Hp) Hw]. assert (Hok : pool_ok ∅ (pool s)) by (eapply new_pool_ok; [|exact Hp]; constructor).
  unfold with_durable_lsn, validate_buffer_pages in Hp. destruct (n =? 0)%nat; [done|]. injection Hp as Hp.
  split; [| |set_solver].
  - split; [done| | |by rewrite Hw|].
    + rewrite <- Hp. split; [done|]. intros slot f Hf. done.
    + done.
    + intros id. rewrite <- Hp. cbn. rewrite lookup_empty. by intros [].
  - split; rewrite ?Hc; try done; [constructor|set_solver|]. unfold data, page_count. rewrite <- Hp. cbn. lia.
Qed.

Lemma allocate_owned used s l id s' :
  owned used s l → allocate me s = (Ok id, s') → ∃ l', allocated me s s' l l' id ∧ id ∉ used ∧ owned (used ∪ {[id]}) s' l'.
Proof using Type.
  intros [Hok Ha Hu] He. destruct (wp_inv _ _ _ _ _ _ (wp_allocate me l s Hok Ha) He) as [l' Hal]. exists l'.
  assert (Hid : id ∉ used).
  { intros [Hn Hlt]%Hu. destruct (al_from _ _ _ _ _ _ Hal) as [-> | (_ & _ & ->)]; [set_solver|lia]. }
  split_and!; try done. split; [exact (al_ok _ _ _ _ _ _ Hal)|exact (al_list _ _ _ _ _ _ Hal)|]. intros i [Hi | ->%elem_of_singleton]%elem_of_union.
  - destruct (Hu i Hi) as [Hn Hlt]. pose proof (al_next _ _ _ _ _ _ Hal). split; [|lia].
    destruct (al_from _ _ _ _ _ _ Hal) as [-> | (-> & -> & _)]; set_solver.
  - split; [|exact (al_id _ _ _ _ _ _ Hal)]. pose proof (a_nodup _ _ Ha) as Hnd. destruct (al_from _ _ _ _ _ _ Hal) as [-> | (_ & -> & _)]; [|set_solver].
    by apply NoDup_cons in Hnd as [? _].
Qed.

Lemma step_owned used s used' s' l :
  owned used s l → alloc_step (used, s) (used', s') → ∃ l', owned used' s' l'.
Proof using Type.
  intros Hw Hs. pose proof Hw as [Hok Ha Hu]. inversion Hs as [? ? id ? He|? ? e ? He|? ? id ? Hid He|? ? id e ? Hid He|? ? ? Ho]; subst.
  - destruct (allocate_owned used s l id s' Hw He) as (l' & _ & _ & ?). eauto.
  - pose proof (wp_inv _ _ _ _ _ _ (wp_allocate me l s Hok Ha) He) as Hi. destruct e as [e|]; [|done]. destruct Hi as [[H1 H2 H3 _ _] _].
    exists l. split; [done|done|]. by rewrite H3.
  - destruct (Hu id Hid) as [Hn _]. pose proof (wp_inv _ _ _ _ _ _ (wp_free me l id s Hok Ha Hn) He) as [H1 H2 H3 _ _ _ _ _ _].
    exists (id :: l). split; [done|done|]. intros i [Hi Hne]%elem_of_difference. rewrite H3. cbn. destruct (Hu i Hi). set_solver.
  - destruct (Hu id Hid) as [Hn _]. pose proof (wp_inv _ _ _ _ _ _ (wp_free me l id s Hok Ha Hn) He) as Hi. destruct e as [e|]; [|done].
    destruct Hi as [[H1 H2 H3 _ _ _] _]. exists l. split; [done|done|]. by rewrite H3.
  - exists l. destruct Ho as [H1 H2 H3 H4]. split; [done| |by rewrite H2].
    apply (alloc_ok_ext s); try done. intros i Hi. apply H4. intros Hin. by destruct (Hu i Hin).
Qed.

Lemma reachable_owned x : alloc_reachable x → ∃ l, owned x.1 x.2 l.
Proof using Type.
  induction 1 as [s Hs|[u s] [u' s'] _ [l IH] Hs]; [exists []; by apply fresh_owned|by eapply step_owned].
Qed.

(** C18. A page has one owner: over every history of pages handed out, changed by their owners and
    freed, with calls that fail at any point, a page [allocate] hands out is in the hands of
    nobody, it reads as a free page, no other page has changed, and the control file on disk
    carries the block held in memory. *)
Theorem pages_have_one_owner used s id s' :
  alloc_reachable (used, s) → allocate me s = (Ok id, s') →
  id ∉ used ∧ (∃ page, seen s' id = Some page ∧ kind page = Ok Free) ∧ (∀ i, i ≠ id → seen s' i = seen s i) ∧
  ctl (files s') = Some (to_bytes (control s')).
Proof using Type.
  intros [l Ho]%reachable_owned He. destruct (allocate_owned _ _ _ _ _ Ho He) as (l' & Hal & Hid & _).
  destruct Hal. done.
Qed.

(** C38. A call of [allocate] returns: it hands out a page when the system refuses nothing, the
    pool has a frame it may give up ([willing]: fewer pages are held by a transaction in progress
    or wait for their record to be durable than the pool has frames) and the file can grow by a
    page.  The file may be larger than the pool. *)
Theorem allocate_hands_out_a_page used s :
  alloc_reachable (used, s) → can_allocate s → ∃ id s', allocate me s = (Ok id, s').
Proof using Type.
  intros [l [Hok Ha _]]%reachable_owned Hcan. pose proof (wp_allocate me l s Hok Ha) as Hw. unfold wp in Hw.
  destruct (allocate me s) as [[id|[e|]] s']; [eauto|by destruct Hw|done].
Qed.

(** A page freed is the page handed out next, and freeing then allocating leaves the list
    and the counter as they were. *)
Theorem freed_page_is_handed_out_next used s id :
  alloc_reachable (used, s) → id ∈ used → can_free s id →
  ∃ s1 s2, free me id s = (Ok (), s1) ∧ free_head (control s1) = Some id ∧ allocate me s1 = (Ok id, s2) ∧ control s2 = control s.
Proof using Type.
  intros [l [Hok Ha Hu]]%reachable_owned Hid Hcan. cbn [fst snd] in *. destruct (Hu id Hid) as [Hn _].
  pose proof (wp_free me l id s Hok Ha Hn) as Hf. unfold wp in Hf. destruct (free me id s) as [[[]|[e|]] s1]; [|by destruct Hf|done].
  pose proof (wp_allocate_listed me id l s1 (fr_ok _ _ _ _ _ Hf) (fr_list _ _ _ _ _ Hf)) as Hw.
  pose proof (a_chain _ _ Ha) as Hc. pose proof (proj1 Hcan) as Hwill.
  assert (Hw1 : willing s1).
  { destruct Hwill as [Has Hroom]. split; [by apply (fr_answers _ _ _ _ _ Hf)|].
    apply (room_ties 0 0 s); [apply ties_none, Hf|apply (fr_size _ _ _ _ _ Hf)|done]. }
  unfold wp in Hw. destruct (allocate me s1) as [[id'|[e|]] s2] eqn:Heq; [|by destruct Hw|done].
  assert (id' = id) as -> by (destruct (al_from _ _ _ _ _ _ Hw) as [? |(? & _)]; congruence).
  exists s1, s2. split; [done|]. split; [by rewrite (fr_control _ _ _ _ _ Hf)|]. split; [done|].
  rewrite (al_control _ _ _ _ _ _ Hw), (fr_control _ _ _ _ _ Hf). cbn.
  pose proof (a_chain _ _ (al_list _ _ _ _ _ _ Hw)) as Hc2. apply free_chain_head in Hc, Hc2.
  rewrite Hc2, <- Hc. by destruct (control s).
Qed.
End thread.

(** ** Witnesses *)

(** An instance just created, its pool of [n] frames. *)
Definition instance_of (n : nat) : DiskStorage :=
  mkDiskStorage "db" Control_default (mkDir (Some (to_bytes Control_default)) None (Some []) (Some []))
    (mkBufferPool (mkDataFile "db/data" []) n (mkInner [] ∅ 0 [])) (mkWal "db/wal" (mkFile [] 0 false) 0 0 0 0) [].

Definition new_instance : DiskStorage := instance_of 16.

Definition instance_1 : DiskStorage := (allocate 1 new_instance).2.

Lemma instance_of_fresh n : (0 < n)%nat → fresh_instance (instance_of n).
Proof. intros Hn. split; [done| |done]. exists "db/data", n. destruct n; [lia|done]. Qed.

Lemma run_ok {A} (m : disk A) s a : (m s).1 = Ok a → m s = (Ok a, (m s).2).
Proof. destruct (m s). cbn. by intros ->. Qed.

Lemma instance_1_reachable : alloc_reachable 1 ({[0%N]}, instance_1).
Proof.
  assert (({[0%N]} : gset PageId) = ∅ ∪ {[0%N]}) as -> by set_solver.
  eapply alloc_next; [apply (alloc_start 1 new_instance), (instance_of_fresh 16); lia|]. apply step_allocate, run_ok. by vm_compute.
Qed.

Lemma instance_1_willing : willing instance_1.
Proof.
  split; [by vm_compute|]. destruct (reachable_owned 1 _ instance_1_reachable) as [l [Hok _ _]].
  apply (small_file_room 1 None ∅); [exact Hok|]. apply Nat.ltb_lt. by vm_compute.
Qed.

Lemma pages_have_one_owner_witness :
  1%N ∉ ({[0%N]} : gset PageId) ∧
  (∃ page, seen (allocate 1 instance_1).2 1 = Some page ∧ kind page = Ok Free) ∧
  (∀ i, i ≠ 1%N → seen (allocate 1 instance_1).2 i = seen instance_1 i) ∧
  ctl (files (allocate 1 instance_1).2) = Some (to_bytes (control (allocate 1 instance_1).2)).
Proof. apply (pages_have_one_owner 1 {[0%N]} instance_1 1 _ instance_1_reachable). apply run_ok. by vm_compute. Defined.

Lemma allocate_hands_out_a_page_witness : ∃ id s', allocate 1 instance_1 = (Ok id, s').
Proof.
  apply (allocate_hands_out_a_page 1 {[0%N]} instance_1 instance_1_reachable). split; [exact instance_1_willing|by vm_compute].
Defined.

Lemma freed_page_is_handed_out_next_witness :
  ∃ s1 s2, free 1 0 instance_1 = (Ok (), s1) ∧ free_head (control s1) = Some 0%N ∧ allocate 1 s1 = (Ok 0%N, s2) ∧ control s2 = control instance_1.
Proof.
  apply (freed_page_is_handed_out_next 1 {[0%N]} instance_1 0 instance_1_reachable); [set_solver|].
  split; [exact instance_1_willing|]. split; [by vm_compute|].
  assert (Hl : option_map Page.lsn (seen instance_1 0) = Some 0%N) by by vm_compute.
  destruct (seen instance_1 0) as [page|]; [|done]. exists page. split; [done|]. injection Hl as ->. done.
Defined.
