(* ===== verification/BTreePage.v ===== *)
(** * Pages of a B+tree

    The page layer of [vauban-storage/src/disk/btree.rs]: leaves and internal pages, whose slots
    are held in key order while the entries grow down from the end of the page, the choice of the
    cut of a split, and what a page holds through the operations on it ([tree_page]).  A [usize]
    is a [nat]; a change of a page that can fail is a [stateful] operation on it. *)

From S2P Require Import Prelude Errors Bytes Crc Page HeapPage HeapPlace Collation CollationFacts.

(** ** Layout *)

Definition OFF_LEAF_PREV : nat := HEADER_SIZE.
Definition OFF_LEAF_NEXT : nat := HEADER_SIZE + 8.
Definition LEAF_DIRECTORY : nat := HEADER_SIZE + 16.
Definition OFF_LEFTMOST_CHILD : nat := HEADER_SIZE.
Definition INTERNAL_DIRECTORY : nat := HEADER_SIZE + 8.
Definition NO_SIBLING : Z := 2 ^ 64 - 1.
Definition SLOT_SIZE : nat := 4.
Definition ENTRY_OVERHEAD : nat := 4.
Definition CHILD_BYTES : nat := 8.
Definition MAX_ENTRY_BYTES : nat := PAGE_SIZE - 128.

Notation Entry := (list Z * list Z)%type (only parsing).
Notation paged A := (stateful Page InternalError A) (only parsing).

Module Put.
Inductive t := Inserted | Full.

#[global] Instance eq_dec : EqDecision t.
Proof. solve_decision. Defined.
End Put.

Record Split := mkSplit { right : PageId; separator : list Z }.

(** [?] inside a change of a page. *)
Definition on_page {A} (r : result InternalError A) : paged A := reads (λ _, r).

(** ** Fields *)

Definition read_at (at_ : nat) (p : Page) : nat := Z.to_nat (read_u16 at_ p).

Definition bounded (value : nat) : result InternalError Z :=
  if (65535 <? Z.of_nat value)%Z then
    Err (Bug [Num (N.of_nat value); Lit " does not fit the two bytes a page spends on an offset"])
  else Ok (Z.of_nat value).

Definition write_at (at_ value : nat) : paged () :=
  v ← on_page (bounded value); modifies (write_u16 at_ v).

Definition sibling (at_ : nat) (p : Page) : option PageId :=
  let id := read_u64 at_ p in if (id =? NO_SIBLING)%Z then None else Some (Z.to_N id).

Definition set_sibling (at_ : nat) (id : option PageId) (p : Page) : Page :=
  write_u64 at_ (match id with Some id => Z.of_N id | None => NO_SIBLING end) p.

Definition leaf_prev (p : Page) : option PageId := sibling OFF_LEAF_PREV p.
Definition leaf_next (p : Page) : option PageId := sibling OFF_LEAF_NEXT p.
Definition set_leaf_prev (prev : option PageId) (p : Page) : Page := set_sibling OFF_LEAF_PREV prev p.
Definition set_leaf_next (next : option PageId) (p : Page) : Page := set_sibling OFF_LEAF_NEXT next p.
Definition leftmost_child (p : Page) : PageId := Z.to_N (read_u64 OFF_LEFTMOST_CHILD p).
Definition set_leftmost_child (child : PageId) (p : Page) : Page := write_u64 OFF_LEFTMOST_CHILD (Z.of_N child) p.
Definition leaf_len (p : Page) : nat := slots p.
Definition internal_len (p : Page) : nat := slots p.

(** Empties the directory. *)
Definition clear_entries (directory : nat) (p : Page) : Page :=
  set_lower (Z.of_nat directory) (set_slot_count 0 p).

Definition init_leaf (p : Page) : Page :=
  clear_entries LEAF_DIRECTORY (set_leaf_next None (set_leaf_prev None (set_kind BTreeLeaf p))).

Definition init_internal (leftmost : PageId) (p : Page) : Page :=
  clear_entries INTERNAL_DIRECTORY (set_leftmost_child leftmost (set_kind BTreeInternal p)).

(** ** Checks *)

Definition expect_kind (p : Page) (expected : PageKind) : result InternalError () :=
  k ← kind p;
  if negb (bool_decide (k = expected)) then
    Err (Bug [Lit "page "; Num (page_id p); Lit " is a "; Lit (debug_kind k); Lit " page, read here as a ";
      Lit (debug_kind expected); Lit " one"])
  else Ok ().

Definition check_entry_size (id : PageId) (key payload : nat) : result InternalError () :=
  if (MAX_ENTRY_BYTES <? key + payload)%nat then
    Err (Bug [Lit "entry of "; Num (N.of_nat key); Lit " key bytes and "; Num (N.of_nat payload);
      Lit " payload bytes does not go on page "; Num id; Lit ": this build puts at most "; Num (N.of_nat MAX_ENTRY_BYTES);
      Lit " bytes in one entry"])
  else Ok ().

Definition directory_end (p : Page) (directory : nat) : result InternalError nat :=
  let count := slots p in
  let end_ := directory + count * SLOT_SIZE in
  if (PAGE_SIZE <? end_)%nat then
    Err (Corruption [Lit "page "; Num (page_id p); Lit " declares "; Num (N.of_nat count); Lit " slots, a directory of ";
      Num (N.of_nat end_); Lit " bytes in a page of "; Num (N.of_nat PAGE_SIZE)])
  else Ok end_.

Definition checked_slot (p : Page) (directory index : nat) : result InternalError (nat * nat) :=
  let count := slots p in
  if (count <=? index)%nat then
    Err (Bug [Lit "page "; Num (page_id p); Lit " holds "; Num (N.of_nat count); Lit " slots, slot "; Num (N.of_nat index);
      Lit " was asked for"])
  else
    end_ ← directory_end p directory;
    let slot := directory + index * SLOT_SIZE in
    let offset := read_at slot p in
    let length := read_at (slot + 2) p in
    if (length <? ENTRY_OVERHEAD)%nat || (offset <? end_)%nat || (PAGE_SIZE <? offset + length)%nat then
      Err (Corruption [Lit "page "; Num (page_id p); Lit " has slot "; Num (N.of_nat index); Lit " at offset "; Num (N.of_nat offset);
        Lit " of length "; Num (N.of_nat length); Lit ", outside the bytes its directory of "; Num (N.of_nat count);
        Lit " slots leaves in "; Num (N.of_nat PAGE_SIZE)])
    else Ok (offset, length).

(** ** Reading *)

Definition entry_at (p : Page) (directory index : nat) : result InternalError Entry :=
  slot ← checked_slot p directory index;
  let '(offset, length) := slot in
  let key_len := read_at offset p in
  if (length <? ENTRY_OVERHEAD + key_len)%nat then
    Err (Corruption [Lit "page "; Num (page_id p); Lit " has entry "; Num (N.of_nat index); Lit " declaring "; Num (N.of_nat key_len);
      Lit " key bytes in a slot of "; Num (N.of_nat length)])
  else
    let payload_len := read_at (offset + 2 + key_len) p in
    if negb (ENTRY_OVERHEAD + key_len + payload_len =? length)%nat then
      Err (Corruption [Lit "page "; Num (page_id p); Lit " has entry "; Num (N.of_nat index); Lit " declaring "; Num (N.of_nat key_len);
        Lit " key bytes and "; Num (N.of_nat payload_len); Lit " payload bytes in a slot of "; Num (N.of_nat length)])
    else Ok (slice (offset + 2) key_len p, slice (offset + 4 + key_len) payload_len p).

Definition leaf_entry (p : Page) (index : nat) : result InternalError Entry :=
  _ ← expect_kind p BTreeLeaf; entry_at p LEAF_DIRECTORY index.

Definition owned_entries (p : Page) (directory : nat) : result InternalError (list Entry) :=
  try_map (entry_at p directory) (seq 0 (slots p)).

Definition leaf_iter (p : Page) : result InternalError (list Entry) :=
  _ ← expect_kind p BTreeLeaf; owned_entries p LEAF_DIRECTORY.

Definition internal_key (p : Page) (index : nat) : result InternalError (list Z) :=
  _ ← expect_kind p BTreeInternal; e ← entry_at p INTERNAL_DIRECTORY index; Ok e.1.

Definition child_of (id : PageId) (payload : list Z) : result InternalError PageId :=
  if (length payload =? CHILD_BYTES)%nat then Ok (Z.to_N (from_le_bytes payload))
  else Err (Corruption [Lit "internal page "; Num id; Lit " holds a child pointer of "; Num (N.of_nat (length payload));
    Lit " bytes, expected "; Num (N.of_nat CHILD_BYTES)]).

Definition child_bytes (child : PageId) : list Z := to_le_bytes 8 (Z.of_N child).

Definition internal_child (p : Page) (index : nat) : result InternalError PageId :=
  _ ← expect_kind p BTreeInternal;
  match index with
  | O => Ok (leftmost_child p)
  | S index => e ← entry_at p INTERNAL_DIRECTORY index; child_of (page_id p) e.2
  end.

(** ** Room *)

Definition upper (p : Page) (directory : nat) : result InternalError nat :=
  found ← try_map (checked_slot p directory) (seq 0 (slots p));
  Ok (foldl (λ upper slot, Nat.min upper slot.1) PAGE_SIZE found).

Definition free_space (p : Page) (directory : nat) : result InternalError nat :=
  used ← directory_end p directory;
  upper ← upper p directory;
  Ok (upper - used).

(** ** Writing *)

Definition put_entry (directory index : nat) (key payload : list Z) : paged Put.t :=
  count ← reads (λ p, Ok (slots p));
  let len := ENTRY_OVERHEAD + length key + length payload in
  free ← reads (λ p, free_space p directory);
  if (free <? len + SLOT_SIZE)%nat then mret Put.Full
  else
    top ← reads (λ p, upper p directory);
    let at_ := top - len in
    _ ← write_at at_ (length key);
    _ ← modifies (splice (at_ + 2) key);
    _ ← write_at (at_ + 2 + length key) (length payload);
    _ ← modifies (splice (at_ + 4 + length key) payload);
    let slot := directory + index * SLOT_SIZE in
    let end_ := directory + count * SLOT_SIZE in
    _ ← modifies (copy_within slot (end_ - slot) (slot + SLOT_SIZE));
    _ ← write_at slot at_;
    _ ← write_at (slot + 2) len;
    slots ← on_page (bounded (count + 1));
    _ ← modifies (set_slot_count slots);
    lower ← on_page (bounded (directory + (count + 1) * SLOT_SIZE));
    _ ← modifies (set_lower lower);
    mret Put.Inserted.

Definition remove_slot (directory index : nat) : paged () :=
  count ← reads (λ p, Ok (slots p));
  id ← reads (λ p, Ok (page_id p));
  if (count <=? index)%nat then
    on_page (Err (Bug [Lit "page "; Num id; Lit " holds "; Num (N.of_nat count); Lit " slots, slot "; Num (N.of_nat index); Lit " was asked to go"]))
  else
    end_ ← reads (λ p, directory_end p directory);
    let slot := directory + index * SLOT_SIZE in
    _ ← modifies (copy_within (slot + SLOT_SIZE) (end_ - (slot + SLOT_SIZE)) slot);
    slots ← on_page (bounded (count - 1));
    _ ← modifies (set_slot_count slots);
    lower ← on_page (bounded (directory + (count - 1) * SLOT_SIZE));
    modifies (set_lower lower).

Definition fill (directory : nat) (entries : list Entry) (id : PageId) : paged () :=
  for_each (λ '(key, payload),
    index ← reads (λ p, Ok (slots p));
    put ← put_entry directory index key payload;
    if bool_decide (put = Put.Full) then
      on_page (Err (Bug [Lit "page "; Num id; Lit " has no room for the "; Num (N.of_nat (length entries)); Lit " entries of its half of a split"]))
    else on_page (Ok ())) entries.

Definition compact (directory : nat) : paged () :=
  id ← reads (λ p, Ok (page_id p));
  entries ← reads (λ p, owned_entries p directory);
  _ ← modifies (clear_entries directory);
  fill directory entries id.

(** ** Sharing the entries *)

Definition entry_weights (entries : list Entry) : list nat :=
  (λ e, SLOT_SIZE + ENTRY_OVERHEAD + length e.1 + length e.2) <$> entries.

(** The loop of [balance_point], from [index] with [carried]. *)
Fixpoint balance_from (total count carried index : nat) (weights : list nat) : nat :=
  match weights with
  | [] => count - 1
  | w :: weights =>
      let carried := carried + w in
      if (total <=? carried * 2)%nat && (index + 1 <? count)%nat then index + 1
      else balance_from total count carried (index + 1) weights
  end.

Definition balance_point (weights : list nat) : nat :=
  balance_from (sum_list weights) (length weights) 0 0 weights.

Definition abs_diff (a b : nat) : nat := if (a <? b)%nat then b - a else a - b.

Definition nearer (balanced a b : nat) : bool :=
  (abs_diff a balanced <? abs_diff b balanced)%nat || ((abs_diff a balanced =? abs_diff b balanced)%nat && (a <? b)%nat).

(** [min_by_key] on the distance, then the index. *)
Definition nearest (candidates : list nat) (balanced : nat) : option nat :=
  foldl (λ best index, match best with
    | None => Some index
    | Some b => if nearer balanced index b then Some index else best
    end) None candidates.

Definition key_of (entries : list Entry) (index : nat) : list Z := (nth index entries ([], [])).1.

Definition cut_between_keys (entries : list Entry) (balanced : nat) : option nat :=
  nearest (List.filter (λ index, negb (bool_decide (key_of entries (index - 1) = key_of entries index)))
    (seq 1 (length entries - 1))) balanced.

Definition key_to_promote (entries : list Entry) (balanced : nat) : option nat :=
  nearest (List.filter (λ index, negb (bool_decide (key_of entries (index - 1) = key_of entries index)) &&
      negb (bool_decide (key_of entries index = key_of entries (index + 1))))
    (seq 1 (length entries - 1 - 1))) balanced.

Definition compaction_makes_room (p : Page) (directory weight : nat) : result InternalError bool :=
  entries ← owned_entries p directory;
  let held := sum_list (entry_weights entries) in
  Ok (held + weight <=? PAGE_SIZE - directory)%nat.

(** ** The byte order, for the tests of the source *)

(** The binary searches of the source, [less] telling which way a turn goes. *)
Fixpoint search (less : nat → result InternalError bool) (fuel low high : nat) : result InternalError nat :=
  if (low <? high)%nat then
    match fuel with
    | O => Ok low
    | S fuel =>
        let middle := (low + high) / 2 in
        b ← less middle;
        if (b : bool) then search less fuel (middle + 1) high else search less fuel low middle
    end
  else Ok low.

Definition insert_index (p : Page) (directory : nat) (key : list Z) : result InternalError nat :=
  search (λ middle, e ← entry_at p directory middle;
    Ok (match compare_sequences e.1 key None with Gt => false | _ => true end)) (slots p) 0 (slots p).

Definition leaf_put (key payload : list Z) : paged Put.t :=
  _ ← reads (λ p, expect_kind p BTreeLeaf);
  id ← reads (λ p, Ok (page_id p));
  _ ← on_page (check_entry_size id (length key) (length payload));
  index ← reads (λ p, insert_index p LEAF_DIRECTORY key);
  put_entry LEAF_DIRECTORY index key payload.

Definition internal_put (key : list Z) (child : PageId) : paged Put.t :=
  _ ← reads (λ p, expect_kind p BTreeInternal);
  id ← reads (λ p, Ok (page_id p));
  _ ← on_page (check_entry_size id (length key) CHILD_BYTES);
  index ← reads (λ p, insert_index p INTERNAL_DIRECTORY key);
  put_entry INTERNAL_DIRECTORY index key (child_bytes child).

(** * What a page holds *)

(** ** Bytes side by side *)

Section adjacent.
Context {A : Type}.
Implicit Types l x y : list A.

Lemma splice_after at_ x y l : at_ + length x + length y ≤ length l →
  splice (at_ + length x) y (splice at_ x l) = splice at_ (x ++ y) l.
Proof.
  intros Hle. apply list_eq. intros i. rewrite !lookup_splice by (rewrite ?length_splice, ?length_app; lia). rewrite length_app.
  repeat case_decide; try lia.
  - rewrite lookup_app_r by lia. f_equal. lia.
  - by rewrite lookup_app_l by lia.
  - done.
Qed.

Lemma splice_before at_ x y l : at_ + length x + length y ≤ length l →
  splice at_ x (splice (at_ + length x) y l) = splice at_ (x ++ y) l.
Proof.
  intros Hle. apply list_eq. intros i. rewrite !lookup_splice by (rewrite ?length_splice, ?length_app; lia). rewrite length_app.
  repeat case_decide; try lia.
  - by rewrite lookup_app_l by lia.
  - rewrite lookup_app_r by lia. f_equal. lia.
  - done.
Qed.

Lemma slice_in_splice at_ x l a n : at_ + length x ≤ length l → at_ ≤ a → a + n ≤ at_ + length x →
  slice a n (splice at_ x l) = slice (a - at_) n x.
Proof.
  intros Hle Ha Hn. apply list_eq. intros i. destruct (decide (i < n)).
  - rewrite !lookup_slice by done. rewrite lookup_splice by done. rewrite decide_True by lia. f_equal. lia.
  - rewrite !lookup_ge_None_2; [done|rewrite length_slice; lia|rewrite length_slice; [|rewrite length_splice]; lia].
Qed.
End adjacent.

(** ** Entries and their slots *)

Definition entry_len (e : Entry) : nat := ENTRY_OVERHEAD + length e.1 + length e.2.
Definition entry_bytes (e : Entry) : list Z :=
  to_le_bytes 2 (Z.of_nat (length e.1)) ++ e.1 ++ to_le_bytes 2 (Z.of_nat (length e.2)) ++ e.2.
Definition slot_bytes (off len : nat) : list Z := to_le_bytes 2 (Z.of_nat off) ++ to_le_bytes 2 (Z.of_nat len).
Definition slot_of (p : Page) (dir i : nat) : nat * nat := (read_at (dir + i * 4) p, read_at (dir + i * 4 + 2) p).
#[global] Arguments slot_of : simpl never.

Lemma length_entry_bytes e : length (entry_bytes e) = entry_len e.
Proof. unfold entry_bytes, entry_len, ENTRY_OVERHEAD. rewrite !length_app, !length_to_le_bytes. lia. Qed.

Lemma length_slot_bytes off len : length (slot_bytes off len) = 4.
Proof. unfold slot_bytes. by rewrite length_app, !length_to_le_bytes. Qed.

Lemma read_at_bytes at_ x p : slice at_ 2 p = to_le_bytes 2 (Z.of_nat x) → x ≤ PAGE_SIZE → read_at at_ p = x.
Proof.
  intros Hs Hx. pose proof PAGE_SIZE_Z. unfold read_at, read_u16. rewrite Hs, from_to_le_bytes_fits; [lia|]. unfold unsigned_fits. cbn. lia.
Qed.

Lemma slot_of_bytes p dir i off len :
  slice (dir + i * 4) 4 p = slot_bytes off len → off ≤ PAGE_SIZE → len ≤ PAGE_SIZE → slot_of p dir i = (off, len).
Proof.
  intros Hs Ho Hl. unfold slot_of. f_equal; apply read_at_bytes; try done.
  - replace (dir + i * 4) with (dir + i * 4 + 0) by lia. rewrite <- (slice_slice (dir + i * 4) 4 0 2) by lia. rewrite Hs.
    apply slice_here, length_to_le_bytes.
  - rewrite <- (slice_slice (dir + i * 4) 4 2 2) by lia. rewrite Hs. unfold slot_bytes.
    rewrite (slice_skip 2) by (rewrite ?length_to_le_bytes; lia). apply slice_all, length_to_le_bytes.
Qed.

Record tree_page (dir : nat) (p : Page) (es : list Entry) : Prop := {
  tp_ok : page_ok p;
  tp_count : slots p = length es;
  tp_end : dir + length es * 4 ≤ PAGE_SIZE;
  tp_at i e : es !! i = Some e → ∃ off, slot_of p dir i = (off, entry_len e) ∧ dir + length es * 4 ≤ off ∧
    off + entry_len e ≤ PAGE_SIZE ∧ slice off (entry_len e) p = entry_bytes e;
  tp_apart i j ei ej : i < j → es !! i = Some ei → es !! j = Some ej →
    (slot_of p dir i).1 + entry_len ei ≤ (slot_of p dir j).1 ∨ (slot_of p dir j).1 + entry_len ej ≤ (slot_of p dir i).1;
}.

Lemma foldl_min l : ∀ u, foldl Nat.min u l ≤ u ∧ (∀ x, x ∈ l → foldl Nat.min u l ≤ x) ∧ ∀ b, b ≤ u → (∀ x, x ∈ l → b ≤ x) → b ≤ foldl Nat.min u l.
Proof.
  induction l as [|y l IH]; intros u; cbn [foldl]; [split_and!; [lia|by intros x ?%not_elem_of_nil|done]|]. destruct (IH (Nat.min u y)) as (H1 & H2 & H3). split_and!.
  - lia.
  - intros x [-> |Hx]%elem_of_cons; [lia|by apply H2].
  - intros b Hb Hl. apply H3; [|intros x Hx; apply Hl; by right]. specialize (Hl y ltac:(by left)). lia.
Qed.

(** ** Reading *)

Section read.
Context (dir : nat) (p : Page) (es : list Entry) (H : tree_page dir p es).

Lemma tree_directory_end : directory_end p dir = Ok (dir + length es * 4).
Proof using H.
  unfold directory_end, SLOT_SIZE. rewrite (tp_count _ _ _ H). destruct (Nat.ltb_spec PAGE_SIZE (dir + length es * 4)); [|done].
  pose proof (tp_end _ _ _ H). lia.
Qed.

Lemma tree_slot i e : es !! i = Some e → checked_slot p dir i = Ok (slot_of p dir i).
Proof using H.
  intros Hi. destruct (tp_at _ _ _ H i e Hi) as (off & Hs & Hlo & Hhi & _). pose proof (lookup_lt_Some _ _ _ Hi).
  unfold checked_slot. rewrite (tp_count _ _ _ H). destruct (Nat.leb_spec (length es) i); [lia|].
  rewrite tree_directory_end, result_bind_ok. unfold slot_of, SLOT_SIZE in *. injection Hs as Ho Hl. rewrite Ho, Hl. unfold entry_len, ENTRY_OVERHEAD in *.
  destruct (Nat.ltb_spec (4 + length e.1 + length e.2) 4); [lia|]. destruct (Nat.ltb_spec off (dir + length es * 4)); [lia|].
  destruct (Nat.ltb_spec PAGE_SIZE (off + (4 + length e.1 + length e.2))); [lia|]. done.
Qed.

Lemma tree_entry i e : es !! i = Some e → entry_at p dir i = Ok e.
Proof using H.
  intros Hi. destruct (tp_at _ _ _ H i e Hi) as (off & Hs & Hlo & Hhi & Hb). unfold entry_at. rewrite (tree_slot i e Hi), result_bind_ok, Hs.
  destruct e as [k v]. unfold entry_len, entry_bytes, ENTRY_OVERHEAD in *. cbn [fst snd] in *.
  assert (Hsub : ∀ a n, a + n ≤ 4 + length k + length v → slice (off + a) n p =
    slice a n (to_le_bytes 2 (Z.of_nat (length k)) ++ k ++ to_le_bytes 2 (Z.of_nat (length v)) ++ v)).
  { intros a n Ha. by rewrite <- Hb, (slice_slice off (4 + length k + length v)). }
  assert (Hk : read_at off p = length k).
  { apply read_at_bytes; [|lia]. replace off with (off + 0) by lia. rewrite Hsub by lia. by apply slice_here, length_to_le_bytes. }
  rewrite Hk. destruct (Nat.ltb_spec (4 + length k + length v) (4 + length k)); [lia|].
  assert (Hv : read_at (off + 2 + length k) p = length v).
  { apply read_at_bytes; [|lia]. rewrite <- Nat.add_assoc, Hsub by lia.
    rewrite (slice_skip 2) by (rewrite ?length_to_le_bytes; lia). rewrite (slice_skip (length k)) by lia.
    replace (2 + length k - 2 - length k) with 0 by lia. by apply slice_here, length_to_le_bytes. }
  rewrite Hv, (proj2 (Nat.eqb_eq _ _)) by lia. cbn [negb]. f_equal. f_equal.
  - rewrite Hsub by lia. rewrite (slice_skip 2) by (rewrite ?length_to_le_bytes; lia). by apply slice_here.
  - rewrite <- Nat.add_assoc, Hsub by lia. rewrite (slice_skip 2) by (rewrite ?length_to_le_bytes; lia).
    rewrite (slice_skip (length k)) by lia. rewrite (slice_skip 2) by (rewrite ?length_to_le_bytes; lia).
    replace (4 + length k - 2 - length k - 2) with 0 by lia. by apply slice_all.
Qed.

Lemma tree_owned : owned_entries p dir = Ok es.
Proof using H.
  unfold owned_entries. rewrite (tp_count _ _ _ H). apply try_map_Ok. apply Forall2_same_length_lookup. split; [by rewrite length_seq|].
  intros i x e Hx He. apply lookup_seq in Hx as [-> _]. by apply tree_entry.
Qed.

(** The bytes of an entry are bytes. *)
Lemma tree_bytes i e : es !! i = Some e → Forall is_byte e.1 ∧ Forall is_byte e.2.
Proof using H.
  intros Hi. destruct (tp_at _ _ _ H i e Hi) as (off & _ & _ & _ & Hb). pose proof (slice_Forall is_byte off (entry_len e) p (proj2 (tp_ok _ _ _ H))) as Hf.
  rewrite Hb in Hf. unfold entry_bytes in Hf. rewrite !Forall_app in Hf. naive_solver.
Qed.

(** The entries are above [top]. *)
Definition top_of : nat := foldl Nat.min PAGE_SIZE ((λ i, (slot_of p dir i).1) <$> seq 0 (length es)).

Lemma tree_upper : upper p dir = Ok top_of.
Proof using H.
  unfold upper. assert (try_map (checked_slot p dir) (seq 0 (slots p)) = Ok (slot_of p dir <$> seq 0 (length es))) as ->.
  { rewrite (tp_count _ _ _ H). apply try_map_Ok. apply Forall2_fmap_r, Forall2_same_length_lookup. split; [done|].
    intros i x y Hx Hy. rewrite Hx in Hy. injection Hy as <-. apply lookup_seq in Hx as [-> Hi]. cbn.
    destruct (lookup_lt_is_Some_2 es i Hi) as [e He]. by eapply tree_slot. }
  rewrite result_bind_ok. f_equal. unfold top_of. generalize PAGE_SIZE. generalize (seq 0 (length es)).
  intros l. induction l as [|i l IH]; intros u; cbn; [done|]. apply IH.
Qed.

Lemma top_bounds : dir + length es * 4 ≤ top_of ≤ PAGE_SIZE ∧ ∀ i e, es !! i = Some e → top_of ≤ (slot_of p dir i).1.
Proof using H.
  unfold top_of. destruct (foldl_min ((λ i, (slot_of p dir i).1) <$> seq 0 (length es)) PAGE_SIZE) as (H1 & H2 & H3). split_and!; [|done|].
  - apply H3; [apply H|]. intros x (i & -> & Hi)%list_elem_of_fmap. apply elem_of_seq in Hi.
    destruct (lookup_lt_is_Some_2 es i ltac:(lia)) as [e He]. destruct (tp_at _ _ _ H i e He) as (off & -> & ? & _). done.
  - intros i e He. apply H2. apply list_elem_of_fmap. exists i. split; [done|]. apply elem_of_seq. pose proof (lookup_lt_Some _ _ _ He). lia.
Qed.

Lemma tree_free_space : free_space p dir = Ok (top_of - (dir + length es * 4)).
Proof using H. unfold free_space. by rewrite tree_directory_end, result_bind_ok, tree_upper, result_bind_ok. Qed.
End read.

(** ** The bytes the entries take *)

Lemma intervals_sum (l : list (nat * nat)) lo hi :
  (∀ i x, l !! i = Some x → lo ≤ x.1 ∧ x.1 + x.2 ≤ hi) →
  (∀ i j x y, i < j → l !! i = Some x → l !! j = Some y → x.1 + x.2 ≤ y.1 ∨ y.1 + y.2 ≤ x.1) →
  sum_list (snd <$> l) ≤ hi - lo.
Proof.
  intros Hin Hd. assert (Hlen : length (l ≫= λ x, seq x.1 x.2) = sum_list (snd <$> l)).
  { clear. induction l as [|x l IH]; [done|]. cbn. by rewrite length_app, length_seq, IH. }
  rewrite <- Hlen. replace (hi - lo) with (length (seq lo (hi - lo))) by by rewrite length_seq. apply NoDup_incl_length.
  - apply NoDup_ListNoDup. clear Hin Hlen. induction l as [|x l IH]; cbn; [constructor|]. apply NoDup_app. split_and!.
    + apply NoDup_seq.
    + intros y Hy (z & Hz & Hyz)%list_elem_of_bind. apply elem_of_seq in Hy, Hz. apply list_elem_of_lookup in Hyz as [j Hj].
      specialize (Hd 0 (S j) x z ltac:(lia) eq_refl Hj). lia.
    + apply IH. intros i j y z Hij Hi Hj. apply (Hd (S i) (S j)); [lia|done..].
  - intros y Hy%list_elem_of_In. apply list_elem_of_bind in Hy as (z & Hz & Hyz). apply list_elem_of_lookup in Hyz as [j Hj].
    apply list_elem_of_In, elem_of_seq. apply elem_of_seq in Hz. specialize (Hin j z Hj). lia.
Qed.

Lemma sum_list_cons x l : sum_list (x :: l) = x + sum_list l.
Proof. done. Qed.

Definition weight (e : Entry) : nat := SLOT_SIZE + entry_len e.

Lemma entry_weights_fmap es : entry_weights es = weight <$> es.
Proof. apply list_fmap_ext. intros i e _. cbv beta. unfold weight, entry_len. lia. Qed.

Lemma sum_weights es : sum_list (weight <$> es) = length es * 4 + sum_list (entry_len <$> es).
Proof. induction es as [|e es IH]; cbn; [done|]. rewrite IH. unfold weight, SLOT_SIZE. lia. Qed.

Lemma tree_room dir p es : tree_page dir p es → sum_list (entry_len <$> es) ≤ PAGE_SIZE - top_of dir p es.
Proof.
  intros H. destruct (top_bounds _ _ _ H) as [_ Ht].
  assert (Hs : snd <$> imap (λ i e, ((slot_of p dir i).1, entry_len e)) es = entry_len <$> es).
  { apply list_eq. intros i. rewrite !list_lookup_fmap, list_lookup_imap. by destruct (es !! i). }
  rewrite <- Hs. apply intervals_sum.
  - intros i x Hx. rewrite list_lookup_imap in Hx. destruct (es !! i) as [e|] eqn:He; [|done]. apply (inj Some) in Hx as <-. cbn [fst snd].
    destruct (tp_at _ _ _ H i e He) as (off & Hso & _ & Hle & _). specialize (Ht i e He). rewrite Hso in Ht |- *. cbn [fst] in *. lia.
  - intros i j x y Hij Hx Hy. rewrite list_lookup_imap in Hx, Hy. destruct (es !! i) as [ei|] eqn:Hei; [|done]. destruct (es !! j) as [ej|] eqn:Hej; [|done].
    apply (inj Some) in Hx as <-. apply (inj Some) in Hy as <-. cbn [fst snd]. by eapply tp_apart.
Qed.

Lemma tree_weights dir p es : tree_page dir p es → sum_list (weight <$> es) ≤ PAGE_SIZE - dir.
Proof. intros H. pose proof (tree_room _ _ _ H). pose proof (top_bounds _ _ _ H) as [? _]. rewrite sum_weights. lia. Qed.

(** The entries are side by side at the end of the page. *)
Definition packed (dir : nat) (p : Page) (es : list Entry) : Prop := top_of dir p es = PAGE_SIZE - sum_list (entry_len <$> es).

(** ** What a change leaves *)

(** The identity of the page and the bytes before the directory are those of [p]. *)
Definition same_front (dir : nat) (p q : Page) : Prop :=
  ∀ a n, a + n ≤ 28 ∨ (32 ≤ a ∧ a + n ≤ dir) → slice a n q = slice a n p.

#[export] Instance same_front_preorder dir : PreOrder (same_front dir).
Proof. split; [done|]. intros p q r H1 H2 a n Ha. by rewrite H2, H1. Qed.

Lemma paged_step {A B} (m : paged A) (f : A → paged B) p a q : m p = (Ok a, q) → (m ≫= f) p = f a q.
Proof. intros Hm. unfold mbind, stateful_bind. by rewrite Hm. Qed.

Lemma bounded_ok x : x ≤ PAGE_SIZE → bounded x = Ok (Z.of_nat x).
Proof. intros Hx. pose proof PAGE_SIZE_Z. unfold bounded. destruct (Z.ltb_spec 65535 (Z.of_nat x)); [lia|done]. Qed.

Lemma write_at_ok a x p : x ≤ PAGE_SIZE → write_at a x p = (Ok (), splice a (to_le_bytes 2 (Z.of_nat x)) p).
Proof. intros Hx. unfold write_at, on_page, mbind, stateful_bind, reads. by rewrite bounded_ok. Qed.

(** The two counts of the header. *)
Definition with_counts (dir n : nat) (p : Page) : Page := set_lower (Z.of_nat (dir + n * 4)) (set_slot_count (Z.of_nat n) p).

Section counts.
Context (dir n : nat) (p : Page) (Hp : page_ok p).

Lemma with_counts_slice a k : a + k ≤ 28 ∨ 32 ≤ a → slice a k (with_counts dir n p) = slice a k p.
Proof using Hp.
  intros Ha. pose proof PAGE_SIZE_Z. unfold with_counts, set_lower, set_slot_count, OFF_LOWER, OFF_SLOT_COUNT.
  rewrite !slice_write_u16 by (first [assumption|lia|apply write_u16_ok; [done|lia]]). done.
Qed.

Lemma with_counts_ok : page_ok (with_counts dir n p).
Proof using Hp.
  pose proof PAGE_SIZE_Z. unfold with_counts, set_lower, set_slot_count, OFF_LOWER, OFF_SLOT_COUNT. apply write_u16_ok; [apply write_u16_ok; [done|lia]|lia].
Qed.

Lemma with_counts_slots : n ≤ PAGE_SIZE → slots (with_counts dir n p) = n.
Proof using Hp.
  intros Hn. pose proof PAGE_SIZE_Z. unfold slots, slot_count, with_counts, set_lower, OFF_LOWER, read_u16.
  rewrite slice_write_u16 by first [lia|unfold set_slot_count, OFF_SLOT_COUNT; apply write_u16_ok; [done|lia]|unfold OFF_SLOT_COUNT; lia].
  fold (read_u16 OFF_SLOT_COUNT (set_slot_count (Z.of_nat n) p)). unfold set_slot_count.
  rewrite read_u16_write by first [assumption|unfold OFF_SLOT_COUNT; lia|lia]. lia.
Qed.
End counts.

(** ** Putting an entry *)

Lemma lookup_insert_at {A} i (x : A) l j : i ≤ length l →
  insert_at i x l !! j = if decide (j < i) then l !! j else if decide (j = i) then Some x else l !! (j - 1).
Proof.
  intros Hi. unfold insert_at. assert (Ht : length (take i l) = i) by (rewrite length_take; lia). repeat case_decide.
  - rewrite lookup_app_l by lia. by rewrite lookup_take_lt.
  - subst. rewrite lookup_app_r by lia. by rewrite Ht, Nat.sub_diag.
  - rewrite lookup_app_r by lia. rewrite Ht. destruct (j - i) as [|k] eqn:Hk; [lia|]. change ((x :: drop i l) !! S k) with (drop i l !! k). rewrite lookup_drop. f_equal. lia.
Qed.

Lemma slot_of_slice p q dir i j : slice (dir + i * 4) 4 q = slice (dir + j * 4) 4 p → slot_of q dir i = slot_of p dir j.
Proof.
  intros Hs. unfold slot_of, read_at, read_u16. rewrite <- (slice_slice (dir + i * 4) 4 2 2), <- (slice_slice (dir + j * 4) 4 2 2), Hs by lia.
  replace (dir + i * 4) with (dir + i * 4 + 0) by lia. replace (dir + j * 4) with (dir + j * 4 + 0) by lia.
  rewrite <- (slice_slice (dir + i * 4) 4 0 2), <- (slice_slice (dir + j * 4) 4 0 2) by lia. by rewrite Hs.
Qed.

Lemma top_of_spec dir p es b :
  b ≤ PAGE_SIZE → (∀ i, i < length es → b ≤ (slot_of p dir i).1) → (b = PAGE_SIZE ∨ ∃ i, i < length es ∧ (slot_of p dir i).1 = b) → top_of dir p es = b.
Proof.
  intros Hb Hle Heq. unfold top_of. destruct (foldl_min ((λ i, (slot_of p dir i).1) <$> seq 0 (length es)) PAGE_SIZE) as (H1 & H2 & H3).
  apply Nat.le_antisymm.
  - destruct Heq as [-> |(i & Hi & <-)]; [done|]. apply H2, list_elem_of_fmap. exists i. split; [done|]. apply elem_of_seq. lia.
  - apply H3; [done|]. intros x (i & -> & Hi)%list_elem_of_fmap. apply elem_of_seq in Hi. apply Hle. lia.
Qed.

Section put.
Context (dir : nat) (p : Page) (es : list Entry) (H : tree_page dir p es) (Hdir : 32 ≤ dir).
Context (i : nat) (e : Entry) (Hi : i ≤ length es) (Hbytes : Forall is_byte e.1 ∧ Forall is_byte e.2).

Lemma put_entry_full : top_of dir p es - (dir + length es * 4) < weight e → put_entry dir i e.1 e.2 p = (Ok Put.Full, p).
Proof using H.
  clear -H. intros Hf. unfold put_entry. rewrite (paged_step _ _ p (slots p) p) by done.
  rewrite (paged_step _ _ p (top_of dir p es - (dir + length es * 4)) p) by (unfold reads; by rewrite (tree_free_space _ _ _ H)).
  destruct (Nat.ltb_spec (top_of dir p es - (dir + length es * 4)) (ENTRY_OVERHEAD + length e.1 + length e.2 + SLOT_SIZE)); [done|].
  unfold weight, entry_len in Hf. lia.
Qed.

Context (Hroom : weight e ≤ top_of dir p es - (dir + length es * 4)).
Let at_ := top_of dir p es - entry_len e.
Let slot := dir + i * 4.
Let end_ := dir + length es * 4.
Let p1 := splice at_ (entry_bytes e) p.
Let p2 := splice slot (slot_bytes at_ (entry_len e) ++ slice slot (end_ - slot) p) p1.
Let q := with_counts dir (S (length es)) p2.

#[local] Lemma put_arith : at_ + entry_len e ≤ PAGE_SIZE ∧ end_ + 4 ≤ at_ ∧ slot ≤ end_ ∧ 32 ≤ slot ∧ at_ = top_of dir p es - entry_len e ∧
  entry_len e ≤ top_of dir p es ∧ length p = PAGE_SIZE ∧ 4 ≤ entry_len e.
Proof using H Hi Hroom Hdir.
  destruct (top_bounds _ _ _ H) as [? _]. pose proof (tp_ok _ _ _ H) as [? _]. unfold weight, SLOT_SIZE in *. unfold end_, slot, at_.
  assert (4 ≤ entry_len e) by (unfold entry_len, ENTRY_OVERHEAD; lia). lia.
Qed.

#[local] Lemma put_p1_ok : page_ok p1.
Proof using H Hi Hroom Hdir Hbytes.
  pose proof put_arith. apply splice_ok; [apply H| |rewrite length_entry_bytes; lia].
  destruct Hbytes. unfold entry_bytes. repeat apply Forall_app_2; done || apply to_le_bytes_bound.
Qed.

#[local] Lemma put_moved_len : length (slot_bytes at_ (entry_len e) ++ slice slot (end_ - slot) p) = 4 + (end_ - slot).
Proof using H Hi Hroom Hdir. pose proof put_arith. rewrite length_app, length_slot_bytes, length_slice by lia. lia. Qed.

#[local] Lemma put_p2_ok : page_ok p2.
Proof using H Hi Hroom Hdir Hbytes.
  pose proof put_arith. apply splice_ok; [apply put_p1_ok| |rewrite put_moved_len; lia].
  apply Forall_app_2; [apply Forall_app_2; apply to_le_bytes_bound|]. apply slice_Forall, H.
Qed.

Lemma put_entry_page : put_entry dir i e.1 e.2 p = (Ok Put.Inserted, q).
Proof using H Hi Hroom Hdir Hbytes.
  pose proof put_arith as (Ha1 & Ha2 & Ha3 & Ha4 & Ha5 & Ha6 & Hl & Hel). pose proof PAGE_SIZE_Z. unfold put_entry.
  rewrite (paged_step _ _ p (slots p) p) by done. rewrite (tp_count _ _ _ H).
  rewrite (paged_step _ _ p (top_of dir p es - (dir + length es * 4)) p) by (unfold reads; by rewrite (tree_free_space _ _ _ H)).
  fold (entry_len e). destruct (Nat.ltb_spec (top_of dir p es - (dir + length es * 4)) (entry_len e + SLOT_SIZE)); [unfold weight in Hroom; lia|].
  rewrite (paged_step _ _ p (top_of dir p es) p) by (unfold reads; by rewrite (tree_upper _ _ _ H)). rewrite <- Ha5.
  assert (Hk : length e.1 + length e.2 + 4 = entry_len e) by (unfold entry_len, ENTRY_OVERHEAD; lia).
  erewrite paged_step by (apply write_at_ok; lia). erewrite paged_step by done.
  erewrite paged_step by (apply write_at_ok; lia). erewrite paged_step by done.
  unfold SLOT_SIZE. fold slot end_. set (w := splice (at_ + 4 + length e.1) _ _).
  assert (Hw : w = p1).
  { unfold w, p1, entry_bytes. rewrite (app_assoc (to_le_bytes 2 (Z.of_nat (length e.1)))).
    assert (Hl2 : ∀ x, length (to_le_bytes 2 x) = 2) by (intros; apply length_to_le_bytes).
    replace (at_ + 4 + length e.1) with (at_ + length ((to_le_bytes 2 (Z.of_nat (length e.1)) ++ e.1) ++ to_le_bytes 2 (Z.of_nat (length e.2)))) by (rewrite !length_app, !Hl2; lia).
    replace (at_ + 2 + length e.1) with (at_ + length (to_le_bytes 2 (Z.of_nat (length e.1)) ++ e.1)) by (rewrite !length_app, !Hl2; lia).
    replace (at_ + 2) with (at_ + length (to_le_bytes 2 (Z.of_nat (length e.1)))) by (rewrite Hl2; lia).
    rewrite splice_after by (rewrite !Hl2; lia). rewrite splice_after by (rewrite !length_app, !Hl2; lia).
    rewrite splice_after by (rewrite !length_app, !Hl2; lia). by rewrite !app_assoc. }
  erewrite paged_step by done. erewrite paged_step by (apply write_at_ok; lia). erewrite paged_step by (apply write_at_ok; lia).
  assert (Hp1 : page_ok p1) by apply put_p1_ok. pose proof (proj1 Hp1) as Hl1. set (w2 := splice (slot + 2) _ _). assert (Hw2 : w2 = p2).
  { unfold w2, p2, copy_within. rewrite Hw. assert (Hsame : slice slot (end_ - slot) p1 = slice slot (end_ - slot) p).
    { unfold p1. apply slice_splice_other; [rewrite length_entry_bytes; lia|]. left. lia. }
    rewrite Hsame. assert (Hl2 : ∀ x, length (to_le_bytes 2 x) = 2) by (intros; apply length_to_le_bytes).
    assert (Hls : length (slice slot (end_ - slot) p) = end_ - slot) by (rewrite length_slice; lia).
    unfold slot_bytes. rewrite <- app_assoc. replace (slot + 4) with (slot + 2 + 2) by lia.
    replace (splice slot (to_le_bytes 2 (Z.of_nat at_)) (splice (slot + 2 + 2) (slice slot (end_ - slot) p) p1)) with
      (splice (slot + 2 + 2) (slice slot (end_ - slot) p) (splice slot (to_le_bytes 2 (Z.of_nat at_)) p1)).
    2: { apply list_eq. intros j. rewrite !lookup_splice by (rewrite ?length_splice, ?Hl2, ?Hls; rewrite ?Hl2, ?Hls; lia). rewrite Hl2, Hls.
         repeat case_decide; try lia; done. }
    rewrite <- (Hl2 (Z.of_nat (entry_len e))) at 1. rewrite splice_before by (rewrite !Hl2, Hls, length_splice; rewrite ?Hl2; lia).
    rewrite <- (Hl2 (Z.of_nat at_)) at 1. rewrite splice_after by (rewrite !length_app, !Hl2, Hls; lia). done. }
  unfold on_page. rewrite (paged_step _ _ w2 (Z.of_nat (length es + 1)) w2) by (unfold reads; rewrite bounded_ok by lia; done).
  erewrite paged_step by done. erewrite paged_step by (unfold reads; rewrite bounded_ok by (unfold end_ in *; lia); done).
  erewrite paged_step by done. rewrite Hw2. unfold q, with_counts, mret, stateful_ret. do 4 f_equal; lia.
Qed.

#[local] Lemma put_slice a n : 32 ≤ a → slice a n q = slice a n p2.
Proof using H Hi Hroom Hdir Hbytes. intros Ha. unfold q. apply with_counts_slice; [apply put_p2_ok|by right]. Qed.

#[local] Lemma put_slot_before j : j < i → slot_of q dir j = slot_of p dir j.
Proof using H Hi Hroom Hdir Hbytes.
  intros Hj. pose proof put_arith. pose proof put_moved_len as Hm. apply slot_of_slice. rewrite put_slice by lia.
  unfold p2. rewrite (slice_splice_page _ put_p1_ok) by (rewrite ?Hm; unfold slot; lia).
  unfold p1. apply (slice_splice_page _ (tp_ok _ _ _ H)); rewrite length_entry_bytes; unfold end_, slot in *; lia.
Qed.

#[local] Lemma put_slot_here : slot_of q dir i = (at_, entry_len e).
Proof using H Hi Hroom Hdir Hbytes.
  pose proof put_arith. pose proof put_moved_len as Hm. apply slot_of_bytes; [|lia|lia]. rewrite put_slice by lia.
  unfold p2. pose proof (proj1 put_p1_ok). fold slot. rewrite slice_in_splice by (rewrite ?Hm; lia). rewrite Nat.sub_diag. apply slice_here, length_slot_bytes.
Qed.

#[local] Lemma put_slot_after j : i ≤ j → j < length es → slot_of q dir (S j) = slot_of p dir j.
Proof using H Hi Hroom Hdir Hbytes.
  intros Hij Hj. pose proof put_arith. pose proof put_moved_len as Hm. apply slot_of_slice. rewrite put_slice by lia.
  unfold p2. pose proof (proj1 put_p1_ok). rewrite slice_in_splice by (rewrite ?Hm; unfold slot, end_ in *; lia).
  rewrite (slice_skip 4) by (rewrite ?length_slot_bytes; unfold slot; lia).
  rewrite slice_slice by (unfold slot, end_ in *; lia). f_equal. unfold slot. lia.
Qed.

#[local] Lemma put_content off n : top_of dir p es ≤ off → off + n ≤ PAGE_SIZE → slice off n q = slice off n p.
Proof using H Hi Hroom Hdir Hbytes.
  intros Ho Hn. pose proof put_arith. pose proof put_moved_len as Hm. rewrite put_slice by lia.
  unfold p2. rewrite (slice_splice_page _ put_p1_ok) by (rewrite ?Hm; unfold slot, end_ in *; lia).
  unfold p1. apply (slice_splice_page _ (tp_ok _ _ _ H)); rewrite length_entry_bytes; lia.
Qed.

#[local] Lemma put_content_here : slice at_ (entry_len e) q = entry_bytes e.
Proof using H Hi Hroom Hdir Hbytes.
  pose proof put_arith. pose proof put_moved_len as Hm. rewrite put_slice by lia.
  unfold p2. rewrite (slice_splice_page _ put_p1_ok) by (rewrite ?Hm; unfold slot, end_ in *; lia).
  unfold p1. apply slice_splice; [apply length_entry_bytes|lia].
Qed.

#[local] Lemma put_slots j ej : insert_at i e es !! j = Some ej →
  (j = i ∧ ej = e ∧ slot_of q dir j = (at_, entry_len e)) ∨
  (∃ k, es !! k = Some ej ∧ slot_of q dir j = slot_of p dir k ∧ (j < i ∧ k = j ∨ i < j ∧ j = S k)).
Proof using H Hi Hroom Hdir Hbytes.
  rewrite lookup_insert_at by done. repeat case_decide; intros Hj.
  - right. exists j. split; [done|]. split; [by apply put_slot_before|by left].
  - subst. left. injection Hj as <-. split; [done|]. split; [done|]. apply put_slot_here.
  - right. exists (j - 1). pose proof (lookup_lt_Some _ _ _ Hj). split; [done|]. split; [|right; lia].
    replace j with (S (j - 1)) at 1 by lia. apply put_slot_after; lia.
Qed.

Lemma put_entry_tree : tree_page dir q (insert_at i e es) ∧ same_front dir p q ∧ top_of dir q (insert_at i e es) = top_of dir p es - entry_len e.
Proof using H Hi Hroom Hdir Hbytes.
  pose proof put_arith as (Ha1 & Ha2 & Ha3 & Ha4 & Ha5 & Ha6 & Hl & Hel). destruct (top_bounds _ _ _ H) as [Htb Htop].
  assert (Hlen : length (insert_at i e es) = S (length es)) by apply length_insert_at. split; [split|split].
  - unfold q. apply with_counts_ok, put_p2_ok.
  - rewrite Hlen. unfold q. apply with_counts_slots; [apply put_p2_ok|]. unfold end_ in *. lia.
  - rewrite Hlen. unfold end_ in *. lia.
  - intros j ej Hj. rewrite Hlen. destruct (put_slots j ej Hj) as [(-> & -> & Hs)|(k & Hk & Hs & _)].
    + exists at_. split_and!; [done|unfold end_ in *; lia|lia|apply put_content_here].
    + destruct (tp_at _ _ _ H k ej Hk) as (off & Hso & Hlo & Hhi & Hb). specialize (Htop k ej Hk). rewrite Hso in Htop. cbn [fst] in Htop.
      exists off. rewrite Hs, Hso. split_and!; [done|unfold end_ in *; lia|lia|]. by rewrite put_content.
  - intros j1 j2 e1 e2 Hj H1 H2.
    assert (Hbelow : ∀ k ek, es !! k = Some ek → at_ + entry_len e ≤ (slot_of p dir k).1) by (intros k ek Hk; specialize (Htop k ek Hk); lia).
    destruct (put_slots j1 e1 H1) as [(-> & -> & ->)|(k1 & Hk1 & -> & Hc1)], (put_slots j2 e2 H2) as [(-> & -> & ->)|(k2 & Hk2 & -> & Hc2)]; cbn [fst].
    + lia.
    + left. by eapply Hbelow.
    + right. by eapply Hbelow.
    + apply (tp_apart _ _ _ H k1 k2); [lia|done..].
  - intros a n Ha. unfold q. rewrite with_counts_slice by (apply put_p2_ok || lia). unfold p2. pose proof put_moved_len as Hm.
    rewrite (slice_splice_page _ put_p1_ok) by (rewrite ?Hm; unfold slot, end_ in *; lia).
    unfold p1. apply (slice_splice_page _ (tp_ok _ _ _ H)); rewrite length_entry_bytes; unfold end_ in *; lia.
  - apply top_of_spec; [lia| |].
    + intros j Hj. rewrite Hlen in Hj. destruct (lookup_lt_is_Some_2 (insert_at i e es) j ltac:(lia)) as [ej Hej].
      destruct (put_slots j ej Hej) as [(-> & -> & ->)|(k & Hk & -> & _)]; cbn [fst]; [lia|]. specialize (Htop k ej Hk). lia.
    + right. exists i. rewrite Hlen. split; [lia|]. by rewrite put_slot_here.
Qed.
End put.

(** ** Taking a slot out *)

Lemma lookup_delete_at {A} i (l : list A) j : delete i l !! j = if decide (j < i) then l !! j else l !! S j.
Proof. case_decide; [by apply list_lookup_delete_lt|by apply list_lookup_delete_ge; lia]. Qed.

Lemma remove_slot_tree dir p es i : tree_page dir p es → 32 ≤ dir → i < length es →
  ∃ q, remove_slot dir i p = (Ok (), q) ∧ tree_page dir q (delete i es) ∧ same_front dir p q.
Proof.
  intros H Hdir Hi. pose proof (tp_end _ _ _ H). pose proof (tp_ok _ _ _ H) as Hp. pose proof Hp as [Hl _]. pose proof PAGE_SIZE_Z.
  destruct (lookup_lt_is_Some_2 es i Hi) as [e He]. assert (Hlen : length (delete i es) = length es - 1) by (rewrite length_delete; [done|by eexists]).
  set (slot := dir + i * 4). set (end_ := dir + length es * 4). set (moved := slice (slot + 4) (end_ - (slot + 4)) p).
  assert (Hm : length moved = end_ - (slot + 4)) by (unfold moved; rewrite length_slice; unfold slot, end_ in *; lia).
  set (p1 := splice slot moved p).
  assert (Hp1 : page_ok p1) by (apply splice_ok; [done|by apply slice_Forall, Hp|rewrite Hm; unfold slot, end_ in *; lia]).
  set (q := with_counts dir (length es - 1) p1).
  assert (Hq : ∀ a n, 32 ≤ a → slice a n q = slice a n p1) by (intros a n Ha; apply with_counts_slice; [done|by right]).
  assert (Hslot : ∀ j, j < length es - 1 → slot_of q dir j = slot_of p dir (if decide (j < i) then j else S j)).
  { intros j Hj. apply slot_of_slice. rewrite Hq by lia. unfold p1. case_decide.
    - apply (slice_splice_page _ Hp); rewrite Hm; unfold slot, end_ in *; lia.
    - rewrite slice_in_splice by (rewrite ?Hm; unfold slot, end_ in *; lia). unfold moved. rewrite slice_slice by (unfold slot, end_ in *; lia).
      f_equal. unfold slot. lia. }
  assert (Hfar : ∀ a n, end_ ≤ a → a + n ≤ PAGE_SIZE → slice a n q = slice a n p).
  { intros a n Ha Hn. rewrite Hq by (unfold end_ in *; lia). unfold p1. apply (slice_splice_page _ Hp); rewrite Hm; unfold slot, end_ in *; lia. }
  exists q. split_and!; [|split|].
  - unfold remove_slot. rewrite (paged_step _ _ p (slots p) p) by done. rewrite (paged_step _ _ p (page_id p) p) by done. rewrite (tp_count _ _ _ H).
    destruct (Nat.leb_spec (length es) i); [lia|]. rewrite (paged_step _ _ p end_ p) by (unfold reads; by rewrite (tree_directory_end _ _ _ H)).
    erewrite paged_step by done. unfold SLOT_SIZE. fold slot. unfold on_page, copy_within. fold moved. fold p1.
    rewrite (paged_step _ _ p1 (Z.of_nat (length es - 1)) p1) by (unfold reads; rewrite bounded_ok by lia; done).
    erewrite paged_step by done. erewrite paged_step by (unfold reads; rewrite bounded_ok by lia; done). unfold modifies, q, with_counts. done.
  - by apply with_counts_ok.
  - rewrite Hlen. apply with_counts_slots; [done|lia].
  - rewrite Hlen. lia.
  - intros j ej Hj. pose proof (lookup_lt_Some _ _ _ Hj) as Hjl. rewrite Hlen in Hjl. rewrite lookup_delete_at in Hj.
    assert (Hk : es !! (if decide (j < i) then j else S j) = Some ej) by by case_decide.
    destruct (tp_at _ _ _ H _ ej Hk) as (off & Hso & Hlo & Hhi & Hb). exists off. rewrite Hslot, Hlen by done. split_and!; [done|lia|done|].
    rewrite Hfar; done.
  - intros j1 j2 e1 e2 Hj G1 G2. pose proof (lookup_lt_Some _ _ _ G1) as Hl1. pose proof (lookup_lt_Some _ _ _ G2) as Hl2. rewrite Hlen in Hl1, Hl2.
    rewrite lookup_delete_at in G1, G2. rewrite !Hslot by done.
    apply (tp_apart _ _ _ H); [destruct (decide (j1 < i)), (decide (j2 < i)); lia|by destruct (decide (j1 < i))|by destruct (decide (j2 < i))].
  - intros a n Ha. unfold q. rewrite with_counts_slice by (done || lia). unfold p1. apply (slice_splice_page _ Hp); rewrite Hm; unfold slot, end_ in *; lia.
Qed.

(** ** Filling a page *)

Lemma clear_entries_tree dir p : page_ok p → 32 ≤ dir ≤ PAGE_SIZE →
  tree_page dir (clear_entries dir p) [] ∧ packed dir (clear_entries dir p) [] ∧ same_front dir p (clear_entries dir p).
Proof.
  intros Hp Hdir. assert (Hc : clear_entries dir p = with_counts dir 0 p).
  { unfold clear_entries, with_counts. by replace (dir + 0 * 4) with dir by lia. }
  rewrite Hc. split_and!; [split| |].
  - by apply with_counts_ok.
  - apply with_counts_slots; [done|cbn; lia].
  - cbn. lia.
  - done.
  - done.
  - unfold packed, top_of. cbn. lia.
  - intros a n Ha. apply with_counts_slice; [done|]. lia.
Qed.

Definition entry_fits (e : Entry) : Prop := Forall is_byte e.1 ∧ Forall is_byte e.2.

Lemma insert_at_end {A} (x : A) l : insert_at (length l) x l = l ++ [x].
Proof. unfold insert_at. by rewrite firstn_all, drop_all. Qed.

Lemma fill_tree dir es pid : ∀ p es0,
  tree_page dir p es0 → packed dir p es0 → 32 ≤ dir → Forall entry_fits es → sum_list (weight <$> (es0 ++ es)) ≤ PAGE_SIZE - dir →
  ∃ q, fill dir es pid p = (Ok (), q) ∧ tree_page dir q (es0 ++ es) ∧ packed dir q (es0 ++ es) ∧ same_front dir p q.
Proof.
  unfold fill. generalize (length es). intros total. induction es as [|e es IH]; intros p es0 H Hpk Hdir Hes Hsum.
  { exists p. by rewrite app_nil_r. }
  apply Forall_cons in Hes as [He Hes]. pose proof (tree_weights _ _ _ H) as Hw. pose proof (tree_room _ _ _ H). pose proof (top_bounds _ _ _ H) as [Htb _].
  assert (Hroom : weight e ≤ top_of dir p es0 - (dir + length es0 * 4)).
  { rewrite fmap_app, sum_list_with_app, fmap_cons, sum_weights in Hsum. rewrite sum_list_cons in Hsum. rewrite Hpk. lia. }
  destruct (put_entry_tree dir p es0 H Hdir (length es0) e (le_n _) He Hroom) as (Ht & Hf & Htop).
  set (q := with_counts _ _ _) in *. rewrite insert_at_end in Ht, Htop.
  destruct (IH q (es0 ++ [e])) as (r & Hr & Hrt & Hrp & Hrf); [done| |done|done| |].
  - unfold packed. rewrite Htop, Hpk, fmap_app, sum_list_with_app, fmap_cons, sum_list_cons. cbn. lia.
  - by rewrite <- app_assoc.
  - exists r. rewrite <- app_assoc in Hrt, Hrp. split_and!; [|done|done|by etrans]. cbn [for_each]. destruct e as [k v].
    rewrite (paged_step _ _ p () q); [exact Hr|]. rewrite (paged_step _ _ p (slots p) p) by done. rewrite (tp_count _ _ _ H).
    rewrite (paged_step _ _ p Put.Inserted q) by exact (put_entry_page dir p es0 H Hdir (length es0) (k, v) (le_n _) He Hroom). done.
Qed.

Lemma tree_fits dir p es : tree_page dir p es → Forall entry_fits es.
Proof. intros H. apply Forall_lookup. intros i e He. by eapply tree_bytes. Qed.

Lemma compact_tree dir p es : tree_page dir p es → 32 ≤ dir →
  ∃ q, compact dir p = (Ok (), q) ∧ tree_page dir q es ∧ packed dir q es ∧ same_front dir p q.
Proof.
  intros H Hdir. pose proof (tp_end _ _ _ H). destruct (clear_entries_tree dir p (tp_ok _ _ _ H) ltac:(lia)) as (Hc & Hcp & Hcf).
  destruct (fill_tree dir es (page_id p) (clear_entries dir p) [] Hc Hcp Hdir (tree_fits _ _ _ H) (tree_weights _ _ _ H)) as (q & Hq & Hqt & Hqp & Hqf).
  exists q. split_and!; [|done|done|by etrans]. unfold compact. rewrite (paged_step _ _ p (page_id p) p) by done.
  rewrite (paged_step _ _ p es p) by (unfold reads; by rewrite (tree_owned _ _ _ H)). by rewrite (paged_step _ _ p () (clear_entries dir p)) by done.
Qed.

(** ** The fields before the directory *)

Lemma tree_page_ext dir p q es :
  tree_page dir p es → page_ok q → slice 28 2 q = slice 28 2 p → (∀ a n, dir ≤ a → a + n ≤ PAGE_SIZE → slice a n q = slice a n p) →
  tree_page dir q es ∧ top_of dir q es = top_of dir p es.
Proof.
  intros H Hq Hc Hs. pose proof (tp_end _ _ _ H) as Hend. assert (Hslot : ∀ i, i < length es → slot_of q dir i = slot_of p dir i).
  { intros i Hi. apply slot_of_slice, Hs; lia. }
  split; [split|].
  - done.
  - rewrite <- (tp_count _ _ _ H). unfold slots, slot_count, read_u16, OFF_SLOT_COUNT. by rewrite Hc.
  - done.
  - intros i e He. pose proof (lookup_lt_Some _ _ _ He) as Hi. destruct (tp_at _ _ _ H i e He) as (off & Hso & Hlo & Hhi & Hb).
    exists off. rewrite Hslot by done. split_and!; [done..|]. rewrite Hs by lia. done.
  - intros i j ei ej Hij Hi Hj. pose proof (lookup_lt_Some _ _ _ Hj). rewrite !Hslot by lia. by apply (tp_apart _ _ _ H).
  - unfold top_of. f_equal. apply list_fmap_ext. intros k i Hk. apply lookup_seq in Hk as [-> Hi]. by rewrite Hslot.
Qed.

Section link.
Context (at_ : nat) (p : Page) (Hp : page_ok p) (Hat : 32 ≤ at_) (Hend : at_ + 8 ≤ PAGE_SIZE) (x : Z).

Lemma slice_link a n : a + n ≤ at_ ∨ at_ + 8 ≤ a → slice a n (write_u64 at_ x p) = slice a n p.
Proof using Hp Hend. intros. by apply slice_write_u64. Qed.

Lemma link_page_ok : page_ok (write_u64 at_ x p).
Proof using Hp Hend. by apply write_u64_ok. Qed.

Lemma link_kind : kind (write_u64 at_ x p) = kind p.
Proof using Hp Hend Hat. apply kind_slice; [apply link_page_ok|done|]. apply slice_link. lia. Qed.

Lemma link_tree dir es : at_ + 8 ≤ dir → tree_page dir p es → tree_page dir (write_u64 at_ x p) es ∧ top_of dir (write_u64 at_ x p) es = top_of dir p es.
Proof using Hp Hend Hat. intros Hd H. apply tree_page_ext; [done|apply link_page_ok|apply slice_link; lia|intros; apply slice_link; lia]. Qed.
End link.

Lemma sibling_set at_ id p : page_ok p → at_ + 8 ≤ PAGE_SIZE → link_fits id → sibling at_ (set_sibling at_ id p) = id.
Proof.
  intros Hp Hat Hf. unfold sibling, set_sibling. change (match id with Some id => Z.of_N id | None => NO_SIBLING end) with (link_of id).
  rewrite read_u64_write by (auto using link_of_bound). by apply link_of_read.
Qed.

Lemma leftmost_set child p : page_ok p → (child ≤ u64_max)%N → leftmost_child (set_leftmost_child child p) = child.
Proof.
  intros Hp Hc. pose proof PAGE_SIZE_Z. unfold leftmost_child, set_leftmost_child, u64_max in *. rewrite read_u64_write; [lia|done| |lia].
  unfold OFF_LEFTMOST_CHILD, HEADER_SIZE. lia.
Qed.

(** A page given a kind, with the rest of its header. *)
Lemma set_kind_front k p : page_ok p → page_ok (set_kind k p) ∧ kind (set_kind k p) = Ok k ∧ ∀ a n, a + n ≤ 5 ∨ 6 ≤ a → slice a n (set_kind k p) = slice a n p.
Proof. intros Hp. split_and!; [by apply set_kind_ok|by apply kind_set_kind|]. intros a n Ha. by apply slice_set_kind. Qed.

(** * The cut of a split *)

Section balance.
Context (ws : list nat) (M : nat) (Hm : Forall (λ w, w ≤ M) ws) (Htwo : 2 ≤ length ws) (Hpos : 0 < sum_list ws).

#[local] Lemma balance_from_spec pre : ∀ suf, ws = pre ++ suf → 2 * sum_list pre < sum_list ws →
  let b := balance_from (sum_list ws) (length ws) (sum_list pre) (length pre) suf in
  length pre ≤ b < length ws ∧ 1 ≤ b ∧ 2 * sum_list (take b ws) < sum_list ws + 2 * M ∧
  (2 * sum_list (drop b ws) ≤ sum_list ws ∨ sum_list (drop b ws) ≤ M).
Proof using Hm Htwo Hpos.
  intros suf. revert pre. induction suf as [|w suf IH]; intros pre Heq Hlt.
  { exfalso. rewrite app_nil_r in Heq. subst. lia. }
  assert (Hw : w ≤ M) by (rewrite Forall_forall in Hm; apply Hm; rewrite Heq; apply elem_of_app; right; left).
  assert (Hsum : sum_list ws = sum_list pre + w + sum_list suf) by (rewrite Heq, sum_list_with_app, sum_list_cons; lia).
  assert (Hlen : length ws = length pre + 1 + length suf) by (rewrite Heq, length_app; cbn; lia).
  assert (Htake : take (length pre + 1) ws = pre ++ [w]) by (rewrite Heq; replace (length pre + 1) with (length (pre ++ [w])) by (rewrite length_app; done);
    replace (pre ++ w :: suf) with ((pre ++ [w]) ++ suf) by (by rewrite <- app_assoc); apply take_app_length).
  assert (Hdrop : drop (length pre + 1) ws = suf) by (rewrite Heq; replace (length pre + 1) with (length (pre ++ [w])) by (rewrite length_app; done);
    replace (pre ++ w :: suf) with ((pre ++ [w]) ++ suf) by (by rewrite <- app_assoc); apply drop_app_length).
  cbn [balance_from]. destruct (Nat.leb_spec (sum_list ws) ((sum_list pre + w) * 2)) as [Hge|Hge]; cbn [andb].
  - destruct (Nat.ltb_spec (length pre + 1) (length ws)) as [Hl|Hl].
    + cbn zeta. rewrite Htake, Hdrop, sum_list_with_app, sum_list_cons. cbn [sum_list_with]. split_and!; lia.
    + assert (suf = []) as -> by (destruct suf; [done|cbn in Hlen; lia]). cbn [balance_from]. cbn [length] in Hlen.
      assert (Hb : length ws - 1 = length pre) by lia. rewrite Hb, Heq, take_app_length, drop_app_length, sum_list_cons. cbn [sum_list_with].
      assert (1 ≤ length pre) by lia. rewrite <- Heq. split_and!; try lia.
  - replace (sum_list pre + w) with (sum_list (pre ++ [w])) by (rewrite sum_list_with_app; cbn; lia).
    replace (length pre + 1) with (length (pre ++ [w])) by (rewrite length_app; done).
    destruct (IH (pre ++ [w])) as (Hb1 & Hb2 & Hb3 & Hb4); [by rewrite <- app_assoc|rewrite sum_list_with_app; cbn; lia|].
    cbn zeta in *. rewrite length_app in Hb1 at 1. cbn [length] in Hb1. split_and!; first [done|lia].
Qed.

Lemma balance_point_spec :
  let b := balance_point ws in
  1 ≤ b < length ws ∧ 2 * sum_list (take b ws) < sum_list ws + 2 * M ∧ (2 * sum_list (drop b ws) ≤ sum_list ws ∨ sum_list (drop b ws) ≤ M).
Proof using Hm Htwo Hpos.
  destruct (balance_from_spec [] ws eq_refl) as (H1 & H2 & H3 & H4); [cbn; lia|]. unfold balance_point. cbn zeta. cbn [length sum_list_with] in *.
  split_and!; done || lia.
Qed.
End balance.

(** A candidate at the balance point is the nearest. *)
Lemma nearest_balanced candidates b : b ∈ candidates → nearest candidates b = Some b.
Proof.
  intros Hb. unfold nearest. assert (Hgen : ∀ best, (best = Some b ∨ b ∈ candidates) → foldl (λ best index, match best with
    | None => Some index | Some x => if nearer b index x then Some index else best end) best candidates = Some b); [|apply Hgen; by right].
  clear Hb. induction candidates as [|c candidates IH]; intros best Hor; cbn [foldl].
  { by destruct Hor as [|?%not_elem_of_nil]. }
  apply IH. destruct Hor as [-> |[-> |?]%elem_of_cons]; [| |by right]; left.
  - unfold nearer, abs_diff. replace (if b <? b then b - b else b - b) with 0 by (destruct (b <? b); lia).
    rewrite (proj2 (Nat.ltb_ge _ 0)) by lia. cbn [orb]. destruct (Nat.eqb_spec (if c <? b then b - c else c - b) 0) as [Hz|]; cbn [andb]; [|done].
    destruct (Nat.ltb_spec c b); [lia|done].
  - destruct best as [x|]; [|done]. unfold nearer, abs_diff. replace (if c <? c then c - c else c - c) with 0 by (destruct (c <? c); lia).
    destruct (Nat.ltb_spec 0 (if x <? c then c - x else x - c)); cbn [orb]; [done|].
    destruct (Nat.eqb_spec 0 (if x <? c then c - x else x - c)); cbn [andb]; [|lia].
    destruct (Nat.ltb_spec x c); [lia|]. assert (x = c) as -> by lia. by destruct (c <? c).
Qed.

Lemma key_of_lookup es i e : es !! i = Some e → key_of es i = e.1.
Proof. intros He. unfold key_of. by rewrite (nth_lookup_Some _ _ _ _ He). Qed.

Section cut.
Context (es : list Entry) (Hne : ∀ i a b, es !! i = Some a → es !! S i = Some b → a.1 ≠ b.1).

#[local] Lemma keys_differ i : S i < length es → key_of es i ≠ key_of es (S i).
Proof using Hne.
  intros Hi. destruct (lookup_lt_is_Some_2 es i ltac:(lia)) as [a Ha]. destruct (lookup_lt_is_Some_2 es (S i) Hi) as [b Hb].
  rewrite (key_of_lookup _ _ _ Ha), (key_of_lookup _ _ _ Hb). by eapply Hne.
Qed.

Lemma cut_distinct b : 1 ≤ b < length es → cut_between_keys es b = Some b.
Proof using Hne.
  intros Hb. apply nearest_balanced. apply list_elem_of_In, filter_In. rewrite <- list_elem_of_In, elem_of_seq. split; [lia|].
  rewrite bool_decide_eq_false_2; [done|]. replace b with (S (b - 1)) at 2 by lia. apply keys_differ. lia.
Qed.

Lemma promote_distinct b : 1 ≤ b < length es - 1 → key_to_promote es b = Some b.
Proof using Hne.
  intros Hb. apply nearest_balanced. apply list_elem_of_In, filter_In. rewrite <- list_elem_of_In, elem_of_seq. split; [lia|].
  rewrite !bool_decide_eq_false_2; [done|rewrite Nat.add_1_r; apply keys_differ; lia|].
  replace b with (S (b - 1)) at 2 by lia. apply keys_differ. lia.
Qed.
End cut.

(** ** Searching *)

Lemma search_spec (less : nat → result InternalError bool) m fuel : ∀ low high,
  (∀ i, low ≤ i < high → less i = Ok (bool_decide (i < m))) → low ≤ m ≤ high → high - low ≤ fuel → search less fuel low high = Ok m.
Proof.
  induction fuel as [|fuel IH]; intros low high Hless Hm Hf; cbn [search].
  - destruct (Nat.ltb_spec low high); [lia|]. f_equal. lia.
  - destruct (Nat.ltb_spec low high) as [Hlt|]; [|f_equal; lia].
    assert (Hmid : low ≤ (low + high) / 2 < high).
    { split; [apply Nat.div_le_lower_bound; lia|apply Nat.Div0.div_lt_upper_bound; lia]. }
    rewrite Hless by lia. rewrite result_bind_ok. destruct (bool_decide_reflect ((low + high) / 2 < m)).
    + apply IH; [intros i Hi; apply Hless; lia|lia|lia].
    + apply IH; [intros i Hi; apply Hless; lia|lia|lia].
Qed.
