(* ===== verification/BTree.v ===== *)
(** * B+trees

    The tree layer of [vauban-storage/src/disk/btree.rs]: the order of the keys, the entries as
    rows, and [BTree], which walks the pages of [BTreePage] from a root and writes them through
    one page set per call.  [&self] methods are [disk] operations that take the tree; [&mut self]
    ones are stateful over the tree and the instance.  A loop that follows links takes as many
    turns as the data file has pages, and waits for ever past them. *)

From S2P Require Import Control Prelude Values Errors Bytes Crc Page HeapPage HeapPlace Collation Order Compare KeyOrder Encode.
From S2P Require Import Wal PageWrite DataFile BufferPool Disk Alloc BTreePage.

(** ** The order of the keys *)

Module TreeOrder.
Record OrderColumn := mkOrderColumn { descending : bool; collation : Collation }.

Record KeyOrder := mkKeyOrder { columns : list OrderColumn }.

Definition order_column (types : list TypeInfo) (column : KeyColumn) : result InternalError OrderColumn :=
  match types !! N.to_nat (kc_column column) with
  | None => Err (Bug [Lit "key column "; Num (kc_column column); Lit " is outside the "; Num (N.of_nat (length types)); Lit " columns of the table"])
  | Some info => Ok (mkOrderColumn (kc_descending column) (collation_of info))
  end.

Definition new (columns : list KeyColumn) (types : list TypeInfo) : result InternalError KeyOrder :=
  match columns with
  | [] => Err (Bug [Lit "a B+tree key has no column"])
  | _ => out ← try_map (order_column types) columns; Ok (mkKeyOrder out)
  end.

Definition arity (order : KeyOrder) : nat := length (columns order).

(** [Display] of [SqlError]. *)
Definition show_error (err : SqlError) : Message :=
  [Lit "Msg "; Num (number err); Lit ", Level "; Num (severity err); Lit ", State "; Num (state err); Lit ", "] ++
  match procedure err with Some p => [Lit "Procedure "; Lit p; Lit ", "] | None => [] end ++
  [Lit "Line "; Num (line err); Lit "
"] ++ message err.

Definition compare_column (a b : Value) (collation : Collation) : result InternalError comparison :=
  match is_null a, is_null b with
  | true, true => Ok Eq
  | true, false => Ok Lt
  | false, true => Ok Gt
  | false, false =>
      match compare a b collation with
      | Err err => Err (Bug (Lit "comparing two key values of a B+tree: " :: show_error err))
      | Ok None => Err (Corruption [Lit "comparing the non-NULL key values "; DbgKey [a]; Lit " and "; DbgKey [b]; Lit " answered UNKNOWN"])
      | Ok (Some o) => Ok o
      end
  end.

Fixpoint compare_columns (columns : list OrderColumn) (a b : list Value) : result InternalError comparison :=
  match columns, a, b with
  | c :: columns, x :: a, y :: b =>
      o ← compare_column x y (collation c);
      match (if descending c then CompOpp o else o) with
      | Eq => compare_columns columns a b
      | o => Ok o
      end
  | _, _, _ => Ok Eq
  end.

Definition compare_prefix (order : KeyOrder) (a b : list Value) : result InternalError comparison :=
  compare_columns (columns order) a b.

Definition check_key (order : KeyOrder) (key : list Value) : result InternalError () :=
  if negb (length key =? arity order)%nat then
    Err (Bug [Lit "a B+tree entry carries "; Num (N.of_nat (length key)); Lit " values, the key has "; Num (N.of_nat (arity order)); Lit " columns"])
  else Ok ().

Definition check_prefix (order : KeyOrder) (prefix : list Value) : result InternalError () :=
  if (arity order <? length prefix)%nat then
    Err (Bug [Lit "a key bound carries "; Num (N.of_nat (length prefix)); Lit " values, the key has "; Num (N.of_nat (arity order)); Lit " columns"])
  else Ok ().
End TreeOrder.

Notation TreeOrder := TreeOrder.KeyOrder.

(** ** Entries *)

Notation TreeEntry := (list Value * list Z)%type (only parsing).

Definition encode_entry_key (key : list Value) (payload : list Z) : list Z :=
  encode_row (mkRow (key ++ [VBytes payload])).

Definition decode_entry_key (bytes : list Z) : result InternalError TreeEntry :=
  row ← decode_row bytes;
  match last (values row) with
  | Some (VBytes payload) => Ok (removelast (values row), payload)
  | other => Err (Corruption [Lit "a B+tree entry ends with "; DbgKey (option_list other); Lit " where its payload was expected"])
  end.

Inductive PayloadBound := Lowest | At (payload : list Z) | Highest.

Record Probe := mkProbe { probe_values : list Value; probe_payload : PayloadBound }.

Record Cursor := mkCursor { cur_leaf : PageId; cur_index : nat }.

Definition compare_entry (order : TreeOrder) (entry : TreeEntry) (probe : Probe) : result InternalError comparison :=
  o ← TreeOrder.compare_prefix order entry.1 (probe_values probe);
  match o with
  | Eq => Ok (match probe_payload probe with
              | Lowest => Gt
              | At payload => compare_sequences entry.2 payload None
              | Highest => Lt
              end)
  | o => Ok o
  end.

Definition probe_of (separator : list Z) : result InternalError Probe :=
  e ← decode_entry_key separator; Ok (mkProbe e.1 (At e.2)).

Definition lower_probe (bound : Bound (list Value)) : Probe :=
  match bound with
  | Unbounded => mkProbe [] Lowest
  | Included values => mkProbe values Lowest
  | Excluded values => mkProbe values Highest
  end.

Definition upper_probe (bound : Bound (list Value)) : Probe :=
  match bound with
  | Unbounded => mkProbe [] Highest
  | Included values => mkProbe values Highest
  | Excluded values => mkProbe values Lowest
  end.

(** The comparison of the entry of a slot against a probe. *)
Definition compare_slot (directory : nat) (order : TreeOrder) (probe : Probe) (p : Page) (index : nat) : result InternalError comparison :=
  e ← entry_at p directory index;
  entry ← decode_entry_key e.1;
  compare_entry order entry probe.

Definition leaf_position (order : TreeOrder) (probe : Probe) (p : Page) : result InternalError nat :=
  search (λ middle, o ← compare_slot LEAF_DIRECTORY order probe p middle; Ok (match o with Lt => true | _ => false end))
    (leaf_len p) 0 (leaf_len p).

Definition internal_position (order : TreeOrder) (probe : Probe) (p : Page) : result InternalError nat :=
  search (λ middle, o ← compare_slot INTERNAL_DIRECTORY order probe p middle; Ok (match o with Gt => false | _ => true end))
    (internal_len p) 0 (internal_len p).

(** ** Placing an entry *)

(** The body [place_in_leaf] and [place_in_internal] share. *)
Definition place (directory : nat) (position : Page → result InternalError nat) (bytes payload : list Z) : paged Put.t :=
  id ← reads (λ p, Ok (page_id p));
  _ ← on_page (check_entry_size id (length bytes) (length payload));
  index ← reads position;
  put ← put_entry directory index bytes payload;
  if bool_decide (put = Put.Inserted) then mret Put.Inserted
  else
    room ← reads (λ p, compaction_makes_room p directory (SLOT_SIZE + ENTRY_OVERHEAD + length bytes + length payload));
    if negb room then mret Put.Full
    else
      _ ← compact directory;
      index ← reads position;
      put_entry directory index bytes payload.

Definition place_in_leaf (order : TreeOrder) (probe : Probe) (bytes : list Z) : paged Put.t :=
  place LEAF_DIRECTORY (leaf_position order probe) bytes [].

Definition place_in_internal (order : TreeOrder) (probe : Probe) (bytes : list Z) (child : PageId) : paged Put.t :=
  place INTERNAL_DIRECTORY (internal_position order probe) bytes (child_bytes child).

Definition goes_right (order : TreeOrder) (separator : list Z) (probe : Probe) : result InternalError bool :=
  entry ← decode_entry_key separator;
  o ← compare_entry order entry probe;
  Ok (match o with Gt => false | _ => true end).

Definition leaf_split_fits (order : TreeOrder) (probe : Probe) (bytes : list Z) (p : Page) : result InternalError () :=
  entries ← owned_entries p LEAF_DIRECTORY;
  if (length entries <? 2)%nat then Ok ()
  else
    let weights := entry_weights entries in
    match cut_between_keys entries (balance_point weights) with
    | None => Ok ()
    | Some middle =>
        right ← goes_right order (key_of entries middle) probe;
        let half := sum_list (if (right : bool) then drop middle weights else firstn middle weights) in
        let want := SLOT_SIZE + ENTRY_OVERHEAD + length bytes in
        if (PAGE_SIZE - LEAF_DIRECTORY <? half + want)%nat then
          Err (Bug [Lit "the "; Lit (if right then "right" else "left"); Lit " half of the split of leaf "; Num (page_id p); Lit " would hold ";
            Num (N.of_nat half); Lit " bytes and has no room for the "; Num (N.of_nat want);
            Lit " of the entry that caused the split; this build does not split it again"])
        else Ok ()
    end.

Definition internal_split_fits (order : TreeOrder) (probe : Probe) (bytes : list Z) (p : Page) : result InternalError () :=
  entries ← owned_entries p INTERNAL_DIRECTORY;
  if (length entries <? 3)%nat then Ok ()
  else
    let weights := entry_weights entries in
    let balanced := Nat.min (balance_point weights) (length entries - 2) in
    match key_to_promote entries balanced with
    | None => Ok ()
    | Some promoted =>
        right ← goes_right order (key_of entries promoted) probe;
        let half := sum_list (if (right : bool) then drop (promoted + 1) weights else firstn promoted weights) in
        let want := SLOT_SIZE + ENTRY_OVERHEAD + length bytes + CHILD_BYTES in
        if (PAGE_SIZE - INTERNAL_DIRECTORY <? half + want)%nat then
          Err (Bug [Lit "the "; Lit (if right then "right" else "left"); Lit " half of the split of internal page "; Num (page_id p);
            Lit " would hold "; Num (N.of_nat half); Lit " bytes and has no room for the "; Num (N.of_nat want);
            Lit " of the separator that caused the split"])
        else Ok ()
    end.

(** ** The tree *)

Record PageWrites := mkPageWrites { writes_lsn : Lsn; writes_hold : bool; writes_held : gset PageId }.

Module PageWrites.
Definition free : PageWrites := mkPageWrites 0 false ∅.
Definition hold (lsn : Lsn) (w : PageWrites) : PageWrites := mkPageWrites lsn true (writes_held w).
Definition take_held (w : PageWrites) : gset PageId * PageWrites := (writes_held w, mkPageWrites (writes_lsn w) (writes_hold w) ∅).
End PageWrites.

(** [PageWrites::mark]: what it does to the pool, and then to the pages held. *)
Definition mark (w : PageWrites) (id : PageId) : disk () :=
  _ ← pool_mark_dirty id (writes_lsn w);
  if writes_hold w then pool_set_in_progress id true else mret ().
Definition held_too (id : PageId) (w : PageWrites) : PageWrites :=
  if writes_hold w then mkPageWrites (writes_lsn w) true ({[id]} ∪ writes_held w) else w.

Record BTree := mkBTree { bt_root : PageId; bt_order : TreeOrder; bt_writes : PageWrites; bt_owner : option (TableId * TreeRole) }.

Definition with_root (root : PageId) (t : BTree) : BTree := mkBTree root (bt_order t) (bt_writes t) (bt_owner t).
Definition with_writes (w : PageWrites) (t : BTree) : BTree := mkBTree (bt_root t) (bt_order t) w (bt_owner t).
Definition journalled (t : BTree) : bool := bool_decide (is_Some (bt_owner t)).

Definition MAX_INSERT_BYTES : nat := (PAGE_SIZE - LEAF_DIRECTORY) / 4 - SLOT_SIZE - ENTRY_OVERHEAD.
Definition MAX_DEPTH : nat := 64.

(** A loop that goes on past its turns. *)
Definition endless {A} : disk A := λ s, (Err Hangs, s).

Section thread.
Context (me : ThreadId).

(** [set.write(id, |page| ...)??] for a change that can fail. *)
Definition set_try {R} (set : PageSet) (id : PageId) (change : paged R) : disk (R * PageSet) :=
  written ← set_write me set id change;
  r ← lift written.1;
  mret (r, written.2).

(** ** Splits *)

Definition split_leaf (set : PageSet) (left : PageId) : disk (Split * PageSet) :=
  read ← set_read me set left (λ page,
    _ ← expect_kind page BTreeLeaf; entries ← owned_entries page LEAF_DIRECTORY; Ok (entries, leaf_next page));
  read ← lift read;
  let '(entries, next) := read in
  if (length entries <? 2)%nat then
    fail (Bug [Lit "leaf "; Num left; Lit " holds "; Num (N.of_nat (length entries)); Lit " entries; a split asks for at least 2"])
  else
    match cut_between_keys entries (balance_point (entry_weights entries)) with
    | None =>
        fail (Bug [Lit "leaf "; Num left; Lit " holds "; Num (N.of_nat (length entries));
          Lit " entries that carry one key: a cut would leave that key on both sides of the separator, and this build has no split for a run of equal keys longer than a page"])
    | Some middle =>
        let separator := key_of entries middle in
        right ← allocate me;
        w ← set_try set right (
              _ ← modifies init_leaf;
              _ ← modifies (set_leaf_prev (Some left));
              _ ← modifies (set_leaf_next next);
              fill LEAF_DIRECTORY (drop middle entries) right);
        w ← set_try w.2 left (
              _ ← modifies (clear_entries LEAF_DIRECTORY);
              _ ← modifies (set_leaf_next (Some right));
              fill LEAF_DIRECTORY (firstn middle entries) left);
        set ← (match next with
               | Some far =>
                   w ← set_try w.2 far (
                         _ ← reads (λ page, expect_kind page BTreeLeaf);
                         modifies (set_leaf_prev (Some right)));
                   mret w.2
               | None => mret w.2
               end);
        mret (mkSplit right separator, set)
    end.

Definition split_internal (set : PageSet) (left : PageId) : disk (Split * PageSet) :=
  read ← set_read me set left (λ page,
    _ ← expect_kind page BTreeInternal; entries ← owned_entries page INTERNAL_DIRECTORY; Ok (entries, leftmost_child page));
  read ← lift read;
  let '(entries, leftmost) := read in
  if (length entries <? 3)%nat then
    fail (Bug [Lit "internal page "; Num left; Lit " holds "; Num (N.of_nat (length entries));
      Lit " keys; a split asks for at least 3, one to go up and one to stay on each side"])
  else
    match key_to_promote entries (Nat.min (balance_point (entry_weights entries)) (length entries - 2)) with
    | None =>
        fail (Bug [Lit "internal page "; Num left; Lit " holds "; Num (N.of_nat (length entries));
          Lit " keys, none of which differs from both of its neighbours: promoting one would leave an equal key on one of the two pages"])
    | Some promoted =>
        let separator := key_of entries promoted in
        right_leftmost ← lift (child_of left (nth promoted entries ([], [])).2);
        right ← allocate me;
        w ← set_try set right (
              _ ← modifies (init_internal right_leftmost);
              fill INTERNAL_DIRECTORY (drop (promoted + 1) entries) right);
        w ← set_try w.2 left (
              _ ← modifies (clear_entries INTERNAL_DIRECTORY);
              _ ← modifies (set_leftmost_child leftmost);
              fill INTERNAL_DIRECTORY (firstn promoted entries) left);
        mret (mkSplit right separator, w.2)
    end.

(** ** Walks *)

Section tree.
Context (t : BTree).

(** What a turn of [descend] reads of a page: the child to go on to, [None] on a leaf. *)
Definition child_at (node : PageId) (probe : Probe) (page : Page) : result InternalError (option PageId) :=
  k ← kind page;
  match k with
  | BTreeLeaf => Ok None
  | BTreeInternal => index ← internal_position (bt_order t) probe page; child ← internal_child page index; Ok (Some child)
  | other => Err (Corruption [Lit "page "; Num node; Lit " of the B+tree rooted at "; Num (bt_root t); Lit " is a "; Lit (debug_kind other); Lit " page"])
  end.

(** The loop of [descend]; a path longer than [MAX_DEPTH] ends it. *)
Fixpoint descend_from (turns : nat) (probe : Probe) (node : PageId) (path : list PageId) : disk (PageId * list PageId) :=
  match turns with
  | O => endless
  | S turns =>
      child ← pinned_for me node (read_pinned node (child_at node probe));
      child ← lift child;
      match child with
      | None => mret (node, path)
      | Some child =>
          let path := path ++ [node] in
          if (MAX_DEPTH <? length path)%nat then
            fail (Corruption [Lit "the descent of the B+tree rooted at "; Num (bt_root t); Lit " has walked through ";
              Num (N.of_nat (length path)); Lit " internal pages, more than the "; Num (N.of_nat MAX_DEPTH); Lit " this build reads as a tree"])
          else descend_from turns probe child path
      end
  end.

Definition descend (probe : Probe) : disk (PageId * list PageId) := descend_from (S MAX_DEPTH) probe (bt_root t) [].

Definition edge_leaf (first : bool) : disk PageId :=
  found ← descend (mkProbe [] (if first then Lowest else Highest)); mret found.1.

Definition leaf_entries (leaf : PageId) : disk (list TreeEntry * option PageId * option PageId) :=
  read ← pinned_for me leaf (read_pinned leaf (λ page,
    _ ← expect_kind page BTreeLeaf;
    entries ← try_map (λ index, e ← entry_at page LEAF_DIRECTORY index; decode_entry_key e.1) (seq 0 (leaf_len page));
    Ok (entries, leaf_prev page, leaf_next page)));
  lift read.

Fixpoint find_from (turns : nat) (probe : Probe) (node : PageId) : disk (option Cursor) :=
  match turns with
  | O => endless
  | S turns =>
      read ← pinned_for me node (read_pinned node (λ page,
        _ ← expect_kind page BTreeLeaf;
        index ← leaf_position (bt_order t) probe page;
        Ok (index, leaf_len page, leaf_next page)));
      read ← lift read;
      let '(index, len, next) := read in
      if (index <? len)%nat then mret (Some (mkCursor node index))
      else match next with Some id => find_from turns probe id | None => mret None end
  end.

Definition find_first (probe : Probe) : disk (option Cursor) :=
  found ← descend probe;
  turns ← walk_turns;
  find_from turns probe found.1.

(** The inner [for] of [collect_forward]: the entries below [high], and whether one was not. *)
Fixpoint take_below (high : Probe) (entries : list TreeEntry) : result InternalError (list TreeEntry * bool) :=
  match entries with
  | [] => Ok ([], false)
  | entry :: entries =>
      o ← compare_entry (bt_order t) entry high;
      match o with
      | Lt => rest ← take_below high entries; Ok (entry :: rest.1, rest.2)
      | _ => Ok ([], true)
      end
  end.

Fixpoint forward_from (turns : nat) (high : Probe) (leaf : PageId) (from : nat) (out : list TreeEntry) : disk (list TreeEntry) :=
  match turns with
  | O => endless
  | S turns =>
      read ← leaf_entries leaf;
      let '(entries, _, next) := read in
      found ← lift (take_below high (drop from entries));
      let out := out ++ found.1 in
      if (found.2 : bool) then mret out
      else match next with Some id => forward_from turns high id 0 out | None => mret out end
  end.

Definition collect_forward (low high : Probe) : disk (list TreeEntry) :=
  cursor ← find_first low;
  match cursor with
  | None => mret []
  | Some cursor => turns ← walk_turns; forward_from turns high (cur_leaf cursor) (cur_index cursor) []
  end.

(** The inner [for] of [collect_backward]. *)
Fixpoint take_from (low : Probe) (entries : list TreeEntry) : result InternalError (list TreeEntry * bool) :=
  match entries with
  | [] => Ok ([], false)
  | entry :: entries =>
      o ← compare_entry (bt_order t) entry low;
      match o with
      | Lt => Ok ([], true)
      | _ => rest ← take_from low entries; Ok (entry :: rest.1, rest.2)
      end
  end.

(** [until] is [None] for [usize::MAX]. *)
Fixpoint backward_from (turns : nat) (low : Probe) (leaf : PageId) (until : option nat) (out : list TreeEntry) : disk (list TreeEntry) :=
  match turns with
  | O => endless
  | S turns =>
      read ← leaf_entries leaf;
      let '(entries, prev, _) := read in
      let taken := match until with Some n => firstn n entries | None => entries end in
      found ← lift (take_from low (reverse taken));
      let out := out ++ found.1 in
      if (found.2 : bool) then mret out
      else match prev with Some id => backward_from turns low id None out | None => mret out end
  end.

Definition collect_backward (low high : Probe) : disk (list TreeEntry) :=
  cursor ← find_first high;
  start ← (match cursor with
           | Some cursor => mret (cur_leaf cursor, Some (cur_index cursor))
           | None => leaf ← edge_leaf false; mret (leaf, None)
           end);
  turns ← walk_turns;
  backward_from turns low start.1 start.2 [].

Definition bounds_of (range : KeyRange) : Bound (list Value) * Bound (list Value) :=
  match range with
  | Point values => (Included values, Included values)
  | Between lo hi => (lo, hi)
  | KeyOrder.Full => (Unbounded, Unbounded)
  end.

Definition check_bound (bound : Bound (list Value)) : result InternalError () :=
  match bound with
  | Included values | Excluded values => TreeOrder.check_prefix (bt_order t) values
  | Unbounded => Ok ()
  end.

Definition seek (range : KeyRange) (dir : Direction) : disk (list TreeEntry) :=
  let '(lo, hi) := bounds_of range in
  _ ← lift (check_bound lo);
  _ ← lift (check_bound hi);
  let low := lower_probe lo in
  let high := upper_probe hi in
  match dir with
  | Forward => collect_forward low high
  | Backward => collect_backward low high
  end.

(** ** Writes *)

Definition put_in_leaf (set : PageSet) (leaf : PageId) (bytes : list Z) (probe : Probe) : disk (option Split * PageSet) :=
  w ← set_try set leaf (_ ← reads (λ page, expect_kind page BTreeLeaf); place_in_leaf (bt_order t) probe bytes);
  if bool_decide (w.1 = Put.Inserted) then mret (None, w.2)
  else
    fits ← set_read me w.2 leaf (leaf_split_fits (bt_order t) probe bytes);
    _ ← lift fits;
    done ← split_leaf w.2 leaf;
    let '(split, set) := done in
    right_half ← lift (goes_right (bt_order t) (separator split) probe);
    let target := if (right_half : bool) then right split else leaf in
    w ← set_try set target (place_in_leaf (bt_order t) probe bytes);
    if bool_decide (w.1 = Put.Full) then
      fail (Bug [Lit "leaf "; Num target; Lit ", a half of the split of leaf "; Num leaf; Lit ", has no room for an entry of ";
        Num (N.of_nat (length bytes)); Lit " bytes"])
    else mret (Some split, w.2).

Definition put_in_internal (set : PageSet) (parent : PageId) (split : Split) : disk (option Split * PageSet) :=
  probe ← lift (probe_of (separator split));
  w ← set_try set parent (_ ← reads (λ page, expect_kind page BTreeInternal);
        place_in_internal (bt_order t) probe (separator split) (right split));
  if bool_decide (w.1 = Put.Inserted) then mret (None, w.2)
  else
    fits ← set_read me w.2 parent (internal_split_fits (bt_order t) probe (separator split));
    _ ← lift fits;
    done ← split_internal w.2 parent;
    let '(higher, set) := done in
    right_half ← lift (goes_right (bt_order t) (separator higher) probe);
    let target := if (right_half : bool) then right higher else parent in
    w ← set_try set target (place_in_internal (bt_order t) probe (separator split) (right split));
    if bool_decide (w.1 = Put.Full) then
      fail (Bug [Lit "internal page "; Num target; Lit ", a half of the split of page "; Num parent; Lit ", has no room for a separator of ";
        Num (N.of_nat (length (separator split))); Lit " bytes"])
    else mret (Some higher, w.2).

Definition grow_root (set : PageSet) (split : Split) : disk (PageId * PageSet) :=
  root ← allocate me;
  let old := bt_root t in
  w ← set_try set root (
        _ ← modifies (init_internal old);
        _ ← on_page (check_entry_size root (length (separator split)) CHILD_BYTES);
        put ← put_entry INTERNAL_DIRECTORY 0 (separator split) (child_bytes (right split));
        if bool_decide (put = Put.Full) then
          on_page (Err (Bug [Lit "the fresh root "; Num root; Lit " has no room for the separator of the split of "; Num old]))
        else on_page (Ok ()));
  let set := w.2 in
  mret (root, match bt_owner t with Some (table, role) => note_root (mkRootMove table role root) set | None => set end).

(** The loop of [insert_in] over the path, its last page first. *)
Fixpoint climb (set : PageSet) (path : list PageId) (split : option Split) : disk (option PageId * PageSet) :=
  match split with
  | None => mret (None, set)
  | Some split =>
      match path with
      | parent :: path => put ← put_in_internal set parent split; climb put.2 path put.1
      | [] => grown ← grow_root set split; mret (Some grown.1, grown.2)
      end
  end.

Definition insert_in (set : PageSet) (key : list Value) (payload : list Z) : disk (option PageId * PageSet) :=
  _ ← lift (TreeOrder.check_key (bt_order t) key);
  let bytes := encode_entry_key key payload in
  if (MAX_INSERT_BYTES <? length bytes)%nat then
    fail (Bug [Lit "an entry of "; Num (N.of_nat (length bytes)); Lit " bytes of encoded key and payload does not go in the B+tree rooted at ";
      Num (bt_root t); Lit ": this build takes "; Num (N.of_nat MAX_INSERT_BYTES);
      Lit ", a quarter of what a leaf holds, and a longer payload asks for the overflow chain of a clustered table"])
  else
    let probe := mkProbe key (At payload) in
    found ← descend probe;
    put ← put_in_leaf set found.1 bytes probe;
    climb put.2 (reverse found.2) put.1.

Definition delete_in (set : PageSet) (key : list Value) (payload : list Z) : disk (bool * PageSet) :=
  _ ← lift (TreeOrder.check_key (bt_order t) key);
  let probe := mkProbe key (At payload) in
  cursor ← find_first probe;
  match cursor with
  | None => mret (false, set)
  | Some cursor =>
      set_try set (cur_leaf cursor) (
        _ ← reads (λ page, expect_kind page BTreeLeaf);
        o ← reads (λ page, compare_slot LEAF_DIRECTORY (bt_order t) probe page (cur_index cursor));
        match o with
        | Eq => _ ← remove_slot LEAF_DIRECTORY (cur_index cursor); on_page (Ok true)
        | _ => on_page (Ok false)
        end)
  end.
End tree.
End thread.

(** ** The methods that change the tree *)

Notation treed A := (stateful (BTree * DiskStorage) Stop A) (only parsing).

(** A [&self] method inside a [&mut self] one. *)
Definition on_tree {A} (m : BTree → disk A) : treed A := λ '(t, s), let '(r, s) := m t s in (r, (t, s)).
Definition set_tree (f : BTree → BTree) : treed () := modifies (λ '(t, s), (f t, s)).

Definition hold_writes (lsn : Lsn) (t : BTree) : BTree := with_writes (PageWrites.hold lsn (bt_writes t)) t.
Definition take_held_pages (t : BTree) : gset PageId * BTree :=
  let '(held, w) := PageWrites.take_held (bt_writes t) in (held, with_writes w t).

Section mutable.
Context (me : ThreadId).

(** [BTree::commit], the body of [PageSet::commit] with the closure that marks the pages. *)
Definition commit_tree (set : PageSet) : treed (option Lsn) :=
  if bool_decide (deltas_of set = []) then mret None
  else
    r ← on_tree (λ _, log_deltas me set None);
    let '(deltas, lsn, page_lsn) := r in
    _ ← for_each (λ d,
          _ ← on_tree (λ t, put_delta me page_lsn (mark (bt_writes t)) d);
          set_tree (λ t, with_writes (held_too (d_page d) (bt_writes t)) t)) deltas;
    mret lsn.

Definition insert (key : list Value) (payload : list Z) : treed () :=
  r ← on_tree (λ t, insert_in me t (PageSet_new (journalled t)) key payload);
  let '(root, set) := r in
  _ ← commit_tree set;
  set_tree (λ t, with_root (default (bt_root t) root) t).

Definition replace (key : list Value) (old new : list Z) : treed bool :=
  r ← on_tree (λ t, delete_in me t (PageSet_new (journalled t)) key old);
  let '(removed, set) := r in
  if negb removed then mret false
  else
    r ← on_tree (λ t, insert_in me t set key new);
    let '(root, set) := r in
    _ ← commit_tree set;
    _ ← set_tree (λ t, with_root (default (bt_root t) root) t);
    mret true.

Definition delete (key : list Value) (payload : list Z) : treed bool :=
  r ← on_tree (λ t, delete_in me t (PageSet_new (journalled t)) key payload);
  let '(removed, set) := r in
  _ ← commit_tree set;
  mret removed.

(** A call on a tree the caller owns, and then answers. *)
Definition owning {A} (t : BTree) (m : treed A) : disk BTree := λ s,
  match m (t, s) with
  | (Ok _, (t, s)) => (Ok t, s)
  | (Err e, (_, s)) => (Err e, s)
  end.

Definition created (order : TreeOrder) (owner : option (TableId * TreeRole)) : disk BTree :=
  root ← allocate me;
  let t := mkBTree root order PageWrites.free owner in
  w ← set_write me (PageSet_new (journalled t)) root (changing init_leaf);
  owning t (commit_tree w.2).

Definition create (columns : list KeyColumn) (types : list TypeInfo) : disk BTree :=
  order ← lift (TreeOrder.new columns types); created order None.

Definition create_logged (columns : list KeyColumn) (types : list TypeInfo) (owner : TableId * TreeRole) : disk BTree :=
  order ← lift (TreeOrder.new columns types); created order (Some owner).
End mutable.

Definition open (root : PageId) (columns : list KeyColumn) (types : list TypeInfo) : result InternalError BTree :=
  order ← TreeOrder.new columns types; Ok (mkBTree root order PageWrites.free None).

Definition open_logged (root : PageId) (columns : list KeyColumn) (types : list TypeInfo) (owner : TableId * TreeRole) :
    result InternalError BTree :=
  t ← open root columns types; Ok (mkBTree (bt_root t) (bt_order t) (bt_writes t) (Some owner)).
