(* ===== verification/Heap.v ===== *)
(** * Heaps

    [Heap] of [vauban-storage/src/disk/heap.rs]: the records of a table in a chain of slotted
    pages, a record past [MAX_INLINE_LEN] in a chain of overflow pages that a stub names.

    A walk over a chain is given as many turns as the chain can have pages without coming back
    on itself, and hangs past them, as the loop of the source does: it follows the same links
    again. *)

From S2P Require Import Control Prelude Errors Bytes Page HeapPage Wal PageWrite WalPayload.
From S2P Require Import DataFile BufferPool Disk Alloc.

#[local] Open Scope Z_scope.

Record Heap := mkHeap { table : TableId; first_page : PageId }.

(** [Display for Rid]. *)
Definition show_rid (rid : Rid) : list Piece := [Num (rid_page rid); Lit ":"; Num (Z.to_N (rid_slot rid))].

Definition slot_nat (rid : Rid) : nat := Z.to_nat (rid_slot rid).

Section thread.
Context (me : ThreadId).

Section heap.
Context (h : Heap).

Definition check_heap (id : PageId) : disk () :=
  k ← read_pinned id kind;
  k ← lift k;
  if negb (bool_decide (k = Page.Heap)) then
    fail (Corruption [Lit "page "; Num id; Lit " of the heap of table "; Num (table h); Lit " carries kind "; Lit (debug_kind k)])
  else mret ().

Definition check_heap_page (id : PageId) : disk () := pinned_for me id (check_heap id).

Definition past_the_record (rid : Rid) (at_ len record : nat) : InternalError :=
  Corruption ([Lit "bytes "; Num (N.of_nat at_); Lit ".."; Num (N.of_nat (at_ + len)); Lit " of the record at "] ++ show_rid rid ++
    [Lit " of table "; Num (table h); Lit " are past what it holds in place, "; Num (N.of_nat record); Lit " bytes"]).

Definition next_page (id : PageId) : disk (option PageId) := pinned_for me id (read_pinned id heap_next).

Definition room_in (id : PageId) (len : nat) : disk (option nat) :=
  pinned_for me id (_ ← check_heap id; read_pinned id (λ page, slot_for page len)).

(** ** Overflow chains *)

(** The fold of [write_overflow_chain] over one batch of chunks, the last chunk first. *)
Fixpoint write_batch (set : PageSet) (next : option PageId) (batch : list (list Z)) : disk (option PageId * PageSet) :=
  match batch with
  | [] => mret (next, set)
  | chunk :: batch =>
      id ← allocate me;
      written ← set_write me set id (changing (fill_overflow chunk next));
      write_batch written.2 (Some id) batch
  end.

Fixpoint write_batches (next : option PageId) (batches : list (list (list Z))) : disk (option PageId) :=
  match batches with
  | [] => mret next
  | batch :: batches =>
      written ← write_batch (PageSet_new true) next batch;
      _ ← commit me written.2 (λ id, pool_set_in_progress id false);
      write_batches written.1 batches
  end.

(** [slice::chunks]: pieces of [n] elements, the last one shorter; [fuel] is the length. *)
Fixpoint chunks_of {A} (fuel n : nat) (l : list A) : list (list A) :=
  match fuel, l with
  | O, _ | _, [] => []
  | S fuel, _ => take n l :: chunks_of fuel n (drop n l)
  end.

Definition write_overflow_chain (bytes : list Z) : disk PageId :=
  let chunks := reverse (chunks_of (length bytes) OVERFLOW_CAPACITY bytes) in
  next ← write_batches None (chunks_of (length chunks) PAGES_PER_RECORD chunks);
  match next with
  | Some id => mret id
  | None => fail (Bug [Lit "a record of the heap of table "; Num (table h); Lit " went to overflow with no byte to write"])
  end.

(** The walk of [read_overflow_chain]; [turns] is more than the bytes it may read, page by page,
    before it has read too many or goes round in pages that hold none. *)
Fixpoint read_chain (turns : nat) (head : PageId) (total : Z) (current : option PageId) (out : list Z) : disk (list Z) :=
  match current, turns with
  | None, _ => mret out
  | Some _, O => fails Hangs
  | Some id, S turns =>
      step ← pinned_for me id (read_pinned id (λ page, read_overflow_page page id));
      step ← lift step;
      let out := out ++ step.1 in
      if total <? Z.of_nat (length out) then
        fail (Corruption [Lit "overflow chain "; Num head; Lit " of table "; Num (table h); Lit " holds more than the ";
          Num (Z.to_N total); Lit " bytes its stub announces"])
      else read_chain turns head total step.2 out
  end.

Definition read_overflow_chain (head : PageId) (total : Z) : disk (list Z) :=
  turns ← walk_turns;
  out ← read_chain (turns * (Z.to_nat total + 2)) head total (Some head) [];
  if negb (Z.of_nat (length out) =? total) then
    fail (Corruption [Lit "overflow chain "; Num head; Lit " of table "; Num (table h); Lit " holds ";
      Num (N.of_nat (length out)); Lit " bytes, its stub announces "; Num (Z.to_N total)])
  else mret out.

Fixpoint overflow_ids (turns : nat) (current : option PageId) : disk (list PageId) :=
  match current, turns with
  | None, _ => mret []
  | Some _, O => fails Hangs
  | Some id, S turns =>
      step ← pinned_for me id (read_pinned id (λ page, read_overflow_page page id));
      step ← lift step;
      ids ← overflow_ids turns step.2;
      mret (id :: ids)
  end.

Definition overflow_chain (head : PageId) : disk (list PageId) :=
  turns ← walk_turns; overflow_ids turns (Some head).

Definition free_overflow (record : Record_) : disk () :=
  match record with
  | OverflowAt _ head => ids ← overflow_chain head; for_each (free me) ids
  | Inline _ => mret ()
  end.

(** ** Creating and formatting *)

(** [Heap::create]; the heap is [h]. *)
Definition create : disk () :=
  pinned_for me (first_page h) (
    _ ← with_page_mut me (first_page h) (changing format_heap_page);
    _ ← pool_mark_dirty (first_page h) 0;
    pool_set_in_progress (first_page h) false).

Definition redo_format (lsn : Lsn) : disk bool :=
  let id := first_page h in
  λ s,
  match read_page id (data s) with
  | Err _ =>
      (let page := Page.seal (set_lsn lsn (format_heap_page (empty Page.Heap id))) in
       count ← data_page_count;
       _ ← (if (count <=? id)%N then data_extend_to (id + 1) else mret ());
       _ ← data_write_page id page;
       mret true) s
  | Ok _ =>
      pinned_for me id (
        l ← read_pinned id Page.lsn;
        if (lsn <=? l)%N then mret false
        else
          _ ← with_page_mut me id (changing (λ page, set_lsn lsn (format_heap_page page)));
          _ ← pool_mark_dirty id lsn;
          mret true) s
  end.

(** ** Writing records *)

(** The walk of [reserve]: the page with room and its slot, or the last page of the chain. *)
Fixpoint find_room (turns : nat) (id : PageId) (len : nat) : disk (PageId * option nat) :=
  match turns with
  | O => fails Hangs
  | S turns =>
      slot ← room_in id len;
      match slot with
      | Some slot => mret (id, Some slot)
      | None =>
          next ← next_page id;
          match next with
          | Some next => find_room turns next len
          | None => mret (id, None)
          end
      end
  end.

Definition link_page (set : PageSet) (from to : PageId) : disk (() * PageSet) :=
  set_write me set from (changing (set_heap_next (Some to))).

Definition reserve (len : nat) : disk Rid :=
  let stored := if (MAX_INLINE_LEN <? len)%nat then STUB_LEN else len in
  turns ← walk_turns;
  found ← find_room turns (first_page h) stored;
  match found with
  | (id, Some slot) => mret (mkRid id (Z.of_nat slot))
  | (id, None) =>
      fresh ← allocate me;
      written ← set_write me (PageSet_new true) fresh (changing format_heap_page);
      linked ← link_page written.2 id fresh;
      _ ← commit me linked.2 (λ id, if (id =? fresh)%N then pool_set_in_progress id false else mret ());
      _ ← wal_flush;
      slot ← room_in fresh stored;
      match slot with
      | Some slot => mret (mkRid fresh (Z.of_nat slot))
      | None => fail (Bug [Lit "record of "; Num (N.of_nat stored); Lit " bytes does not fit in the fresh heap page "; Num fresh;
          Lit " of table "; Num (table h)])
      end
  end.

Definition put_long (rid : Rid) (bytes : list Z) (lsn : Lsn) : disk bool :=
  fits ← pinned_for me (rid_page rid) (
    _ ← check_heap (rid_page rid);
    read_pinned (rid_page rid) (λ page, fits_at page (slot_nat rid) STUB_LEN));
  if negb fits then mret false
  else
    head ← write_overflow_chain bytes;
    payload ← lift (stub (Z.of_nat (length bytes)) head);
    written ← set_write me (PageSet_new true) (rid_page rid) (place_at (slot_nat rid) payload true);
    if negb written.1 then
      fail (Bug ([Lit "record of "; Num (N.of_nat (length payload)); Lit " bytes does not fit at "] ++ show_rid rid ++
        [Lit " of table "; Num (table h); Lit " after the room was checked"]))
    else
      _ ← commit me written.2 (λ id, _ ← pool_mark_dirty id lsn; pool_set_in_progress id false);
      _ ← wal_flush;
      mret true.

Definition put (rid : Rid) (bytes : list Z) (lsn : Lsn) : disk bool :=
  if (MAX_INLINE_LEN <? length bytes)%nat then put_long rid bytes lsn
  else
    pinned_for me (rid_page rid) (
      _ ← check_heap (rid_page rid);
      placed ← with_page_mut me (rid_page rid) (λ page,
        let '(placed, page) := place_at (slot_nat rid) bytes false page in
        (placed, if placed then raise_lsn lsn page else page));
      if negb placed then mret false
      else
        _ ← pool_mark_dirty (rid_page rid) lsn;
        _ ← pool_set_in_progress (rid_page rid) false;
        mret true).

Definition insert (bytes : list Z) : disk Rid :=
  rid ← reserve (length bytes);
  placed ← (if (MAX_INLINE_LEN <? length bytes)%nat then put_long rid bytes 0
            else
              written ← set_write me (PageSet_new true) (rid_page rid) (place_at (slot_nat rid) bytes false);
              _ ← commit me written.2 (λ id, pool_set_in_progress id false);
              mret written.1);
  if negb placed then
    fail (Bug ([Lit "record of "; Num (N.of_nat (length bytes)); Lit " bytes does not fit at "] ++ show_rid rid ++
      [Lit " of table "; Num (table h); Lit ", the slot reserved for it"]))
  else mret rid.

(** The bytes of [Heap::overwrite] in a page: at [start] of it. *)
Definition overwrite (rid : Rid) (at_ : nat) (bytes : list Z) (lsn : Lsn) : disk bool :=
  found ← pinned_for me (rid_page rid) (
    _ ← check_heap (rid_page rid);
    found ← read_pinned (rid_page rid) (λ page, read_record page (slot_nat rid));
    found ← lift found;
    match found with
    | Some (Inline record) =>
        if (length record <? at_ + length bytes)%nat then fail (past_the_record rid at_ (length bytes) (length record))
        else
          _ ← with_page_mut me (rid_page rid) (changing (λ page,
                raise_lsn lsn (splice (Z.to_nat (offset (read_slot page (slot_nat rid))) + at_) bytes page)));
          _ ← pool_mark_dirty (rid_page rid) lsn;
          _ ← pool_set_in_progress (rid_page rid) false;
          mret found
    | _ => mret found
    end);
  match found with
  | None => mret false
  | Some (Inline _) => mret true
  | Some (OverflowAt total head) =>
      if (Z.min total (Z.of_nat OVERFLOW_CAPACITY) <? Z.of_nat (at_ + length bytes)) then
        fail (past_the_record rid at_ (length bytes) (Z.to_nat total))
      else
        k ← set_read me (PageSet_new true) head kind;
        k ← lift k;
        if negb (bool_decide (k = Overflow)) then
          fail (Corruption [Lit "page "; Num head; Lit " of an overflow chain of table "; Num (table h); Lit " carries kind ";
            Lit (debug_kind k)])
        else
          written ← set_write me (PageSet_new true) head (changing (splice (Z.to_nat OVERFLOW_PAYLOAD_START + at_) bytes));
          committed ← commit me written.2 (λ _, mret ());
          _ ← (match committed with Some _ => wal_flush | None => mret () end);
          mret true
  end.

(** ** Reading records *)

Definition page_lsn (id : PageId) : disk (option Lsn) :=
  found ← pinned_for me id (read_pinned id (λ page, (kind page, Page.lsn page)));
  k ← lift found.1;
  mret (if bool_decide (k = Page.Heap) then Some found.2 else None).

(** The record of a slot, read from its page alone. *)
Definition find_record (rid : Rid) : disk (option Record_) :=
  pinned_for me (rid_page rid) (
    _ ← check_heap (rid_page rid);
    found ← read_pinned (rid_page rid) (λ page, read_record page (slot_nat rid));
    lift found).

Definition peek (rid : Rid) : disk (option Slotted) :=
  found ← find_record rid;
  mret (match found with
        | None => None
        | Some (Inline bytes) => Some (SInline bytes)
        | Some (OverflowAt _ _) => Some SStub
        end).

Definition get (rid : Rid) : disk (option (list Z)) :=
  found ← find_record rid;
  match found with
  | None => mret None
  | Some (Inline bytes) => mret (Some bytes)
  | Some (OverflowAt total head) => bytes ← read_overflow_chain head total; mret (Some bytes)
  end.

(** ** Releasing records *)

Definition redo_release (rid : Rid) (lsn : Lsn) : disk bool :=
  pinned_for me (rid_page rid) (
    _ ← check_heap (rid_page rid);
    found ← read_pinned (rid_page rid) (λ page, read_record page (slot_nat rid));
    found ← lift found;
    match found with
    | None => mret false
    | Some _ =>
        _ ← with_page_mut me (rid_page rid) (changing (λ page, raise_lsn lsn (write_slot (slot_nat rid) 0 0 page)));
        _ ← pool_mark_dirty (rid_page rid) lsn;
        mret true
    end).

Definition delete (rid : Rid) : disk bool :=
  _ ← check_heap_page (rid_page rid);
  found ← set_read me (PageSet_new true) (rid_page rid) (λ page, read_record page (slot_nat rid));
  found ← lift found;
  match found with
  | None => mret false
  | Some record =>
      written ← set_write me (PageSet_new true) (rid_page rid) (changing (write_slot (slot_nat rid) 0 0));
      _ ← commit me written.2 (λ _, mret ());
      _ ← free_overflow record;
      mret true
  end.

(** [Heap::free_slot] and its body, [Heap::free]. *)
Definition free_slot (rid : Rid) (lsn : Lsn) : disk bool :=
  found ← pinned_for me (rid_page rid) (
    _ ← check_heap (rid_page rid);
    found ← read_pinned (rid_page rid) (λ page, read_record page (slot_nat rid));
    found ← lift found;
    match found with
    | None => mret None
    | Some record =>
        _ ← with_page_mut me (rid_page rid) (changing (λ page, raise_lsn lsn (write_slot (slot_nat rid) 0 0 page)));
        _ ← pool_mark_dirty (rid_page rid) lsn;
        mret (Some record)
    end);
  match found with
  | None => mret false
  | Some record => _ ← free_overflow record; mret true
  end.

(** ** Walks over the heap *)

(** The heads of the overflow chains of a page, in slot order. *)
Definition heads_of (page : Page) : result InternalError (list PageId) :=
  match try_map (read_record page) (seq 0 (slots page)) with
  | Ok found => Ok (omap (λ r, match r with Some (OverflowAt _ head) => Some head | _ => None end) found)
  | Err e => Err e
  end.

Fixpoint overflow_chains (heads : list PageId) : disk (list PageId) :=
  match heads with
  | [] => mret []
  | head :: heads => ids ← overflow_chain head; rest ← overflow_chains heads; mret (ids ++ rest)
  end.

(** The walk of [free_pages]: the pages of the chain and the overflow pages of their records. *)
Fixpoint collect_pages (turns : nat) (current : option PageId) : disk (list PageId * list PageId) :=
  match current, turns with
  | None, _ => mret ([], [])
  | Some _, O => fails Hangs
  | Some id, S turns =>
      step ← pinned_for me id (
        _ ← check_heap id;
        found ← read_pinned id (λ page, (heads_of page, heap_next page));
        heads ← lift found.1;
        mret (heads, found.2));
      chains ← overflow_chains step.1;
      rest ← collect_pages turns step.2;
      mret (id :: rest.1, chains ++ rest.2)
  end.

Definition free_pages : disk () :=
  turns ← walk_turns;
  found ← collect_pages turns (Some (first_page h));
  for_each (free me) (found.2 ++ found.1).

Definition used_slots (id : PageId) (page : Page) : list Rid :=
  (λ slot, mkRid id (Z.of_nat slot)) <$> List.filter (λ slot, negb (Slot.is_free (read_slot page slot))) (seq 0 (slots page)).

Fixpoint scan_from (turns : nat) (current : option PageId) : disk (list Rid) :=
  match current, turns with
  | None, _ => mret []
  | Some _, O => fails Hangs
  | Some id, S turns =>
      step ← pinned_for me id (_ ← check_heap id; read_pinned id (λ page, (used_slots id page, heap_next page)));
      rest ← scan_from turns step.2;
      mret (step.1 ++ rest)
  end.

Definition scan : disk (list Rid) := turns ← walk_turns; scan_from turns (Some (first_page h)).
End heap.
End thread.
