(* ===== verification/OverflowFacts.v ===== *)
(** * Overflow chains

    A long record is written to pages handed out by the allocator and reads back from them: the
    chain as a predicate on the pages a thread sees ([overflow_at]), what writing one does, and
    that reading it returns its bytes. *)

From S2P Require Import Control Prelude Errors Bytes Crc Page HeapPage HeapPlace.
From S2P Require Import Wal WalFacts PageWrite PageWriteFacts WalPayload DataFile BufferPool BufferFacts PoolTheorems.
From S2P Require Import Disk DiskFacts Alloc AllocFacts PageSetFacts Heap.

#[local] Open Scope Z_scope.

(** ** Fields through the bytes a record logs *)

Section logged.
Context (p q : Page) (Hp : page_ok p) (Hq : page_ok q) (Hs : same_logged p q).

Lemma logged_slice a n : (a + n ≤ PAGE_SIZE)%nat → (a + n ≤ 16 ∨ 28 ≤ a)%nat → slice a n p = slice a n q.
Proof using Hs. by apply slice_same_logged. Qed.

Lemma logged_overflow_page id : read_overflow_page p id = read_overflow_page q id.
Proof using Hp Hq Hs.
  pose proof PAGE_SIZE_Z. unfold read_overflow_page. rewrite (kind_same_logged p q Hp Hq Hs). destruct (kind q) as [k|]; [|done].
  rewrite !result_bind_ok. destruct (negb _); [done|].
  assert (lower p = lower q) as -> by (unfold lower, read_u16; rewrite logged_slice by page_arith; done).
  destruct (_ || _) eqn:Hr; [done|]. apply orb_false_iff in Hr as [H1%Z.ltb_ge H2%Z.ltb_ge].
  unfold OVERFLOW_PAYLOAD_START, HEADER_SIZE in *. rewrite logged_slice by lia.
  unfold read_u64. rewrite (logged_slice OFF_OVERFLOW_NEXT) by page_arith. done.
Qed.

Lemma logged_heap : heap_ok p → heap_ok q ∧ HeapPage.records q = HeapPage.records p ∧ heap_next q = heap_next p ∧
  slots q = slots p ∧ ∀ j, (j < slots p)%nat → read_slot q j = read_slot p j.
Proof using Hp Hq Hs.
  intros H. pose proof PAGE_SIZE_Z.
  assert (Hct : slot_count q = slot_count p) by (unfold slot_count, read_u16; rewrite logged_slice by page_arith; done).
  assert (Hlo : lower q = lower p) by (unfold lower, read_u16; rewrite logged_slice by page_arith; done).
  assert (Hup : heap_upper q = heap_upper p) by (unfold heap_upper, read_u16; rewrite logged_slice by page_arith; done).
  assert (Hsl : slots q = slots p) by (unfold slots; by rewrite Hct).
  assert (Hr : ∀ j, (j < slots p)%nat → read_slot q j = read_slot p j).
  { intros j Hj. pose proof (heap_ok_position p j H Hj). pose proof (ho_room p H). pose proof (heap_ok_slots p H).
    pose proof (slot_position_Z j ltac:(lia)). unfold read_slot, read_u16. rewrite !logged_slice by lia. done. }
  split_and!; [|apply records_ext; [done|]| |done|done].
  - split; rewrite ?Hct, ?Hlo, ?Hup, ?Hsl; try apply H; [done|rewrite <- (ho_kind p H); symmetry; by apply kind_same_logged| |].
    + intros i Hi. rewrite Hr by done. by apply H.
    + intros i j Hi Hj. rewrite !Hr by done. by apply H.
  - rewrite Hsl. intros i Hi. apply content_ext; [by apply Hr|]. intros Hf. pose proof (ho_inside p H i Hi Hf) as [? ?].
    pose proof (ho_room p H). pose proof (ho_upper p H). pose proof (slots_Z p Hp). symmetry. apply logged_slice; lia.
  - unfold heap_next, read_u64. rewrite <- logged_slice by page_arith. done.
Qed.
End logged.

(** ** Chains *)

Fixpoint overflow_at (s : DiskStorage) (current : option PageId) (ids : list PageId) (chunks : list (list Z)) : Prop :=
  match ids, chunks with
  | [], [] => current = None
  | id :: ids, chunk :: chunks =>
      current = Some id ∧ (id < Control.next_page_id (control s))%N ∧
      ∃ page next, holds s id page ∧ read_overflow_page page id = Ok (chunk, next) ∧ overflow_at s next ids chunks
  | _, _ => False
  end.

Lemma overflow_at_use s s' current ids chunks :
  (∀ i, i ∈ ids → (i < Control.next_page_id (control s'))%N ∧ seen s' i = seen s i) →
  overflow_at s current ids chunks → overflow_at s' current ids chunks.
Proof.
  revert current chunks. induction ids as [|id ids IH]; intros current chunks Hs; destruct chunks as [|c chunks]; try done.
  intros (Hc & Hid & page & next & Hh & Hr & Ho). split_and!; [done|apply Hs; by left|]. exists page, next.
  split_and!; [apply (holds_seen s); [apply Hs; by left|done]|done|]. apply IH; [|done]. intros i Hi. apply Hs. by right.
Qed.

Lemma overflow_at_lt s current ids chunks i : overflow_at s current ids chunks → i ∈ ids → (i < Control.next_page_id (control s))%N.
Proof.
  revert current chunks. induction ids as [|id ids IH]; intros current [|c chunks]; try done; [by intros _ []%not_elem_of_nil|].
  intros (_ & Hid & page & next & _ & _ & Ho) [-> |Hi]%elem_of_cons; [done|by eapply IH].
Qed.

Lemma overflow_at_is_Some s current ids chunks i : overflow_at s current ids chunks → i ∈ ids → is_Some (seen s i).
Proof.
  revert current chunks. induction ids as [|id ids IH]; intros current [|c chunks]; try done; [by intros _ []%not_elem_of_nil|].
  intros (_ & Hid & page & next & Hh & _ & Ho) [-> |Hi]%elem_of_cons; [by eapply holds_is_Some|by eapply IH].
Qed.

Lemma overflow_at_seen s s' current ids chunks :
  (Control.next_page_id (control s) ≤ Control.next_page_id (control s'))%N → (∀ i, i ∈ ids → seen s' i = seen s i) →
  overflow_at s current ids chunks → overflow_at s' current ids chunks.
Proof.
  intros Hn Hs Ho. apply (overflow_at_use s); [|done]. intros i Hi. pose proof (overflow_at_lt _ _ _ _ _ Ho Hi). split; [lia|by apply Hs].
Qed.

Lemma overflow_at_app s current ids chunks :
  overflow_at s current ids chunks → length chunks = length ids.
Proof.
  revert current chunks. induction ids as [|id ids IH]; intros current [|c chunks]; try done.
  intros (_ & _ & page & next & _ & _ & H). cbn. f_equal. by eapply IH.
Qed.

(** Reading the page of a chain that another state shows alike. *)
Lemma holds_overflow s id p q : holds s id p → holds s id q → read_overflow_page p id = read_overflow_page q id.
Proof.
  intros Hp Hq. pose proof (holds_same _ _ _ _ Hp Hq) as Hs. destruct Hp as [(Hp & _) _], Hq as [(Hq & _) _].
  by apply logged_overflow_page.
Qed.

Lemma fill_overflow_good id chunk next p :
  page_good id p → Forall is_byte chunk → (length chunk ≤ OVERFLOW_CAPACITY)%nat → link_fits next →
  page_good id (fill_overflow chunk next p).
Proof.
  intros Hg Hb Hl Hn. pose proof Hg as (Hp & _). destruct (overflow_page_round_trip chunk next p id Hp Hb Hl Hn) as [Hok Hr].
  pose proof PAGE_SIZE_Z.
  assert (Hlen : (length chunk + 40 ≤ PAGE_SIZE)%nat) by (unfold OVERFLOW_CAPACITY, OVERFLOW_PAYLOAD_START, HEADER_SIZE in *; lia).
  assert (H2 : page_ok (set_slot_count 0 (set_kind Overflow (clear_payload p)))) by (apply write_u16_ok; [by apply set_kind_ok, clear_payload_ok|page_arith]).
  assert (H3 : page_ok (splice (Z.to_nat OVERFLOW_PAYLOAD_START) chunk (set_slot_count 0 (set_kind Overflow (clear_payload p))))).
  { apply splice_ok; [done|done|unfold OVERFLOW_PAYLOAD_START, HEADER_SIZE; lia]. }
  assert (Hs : ∀ a n, (a + n ≤ 5)%nat ∨ (6 ≤ a ∧ a + n ≤ 16)%nat → slice a n (fill_overflow chunk next p) = slice a n p).
  { intros a n Ha. unfold fill_overflow. unfold OFF_OVERFLOW_NEXT, set_lower.
    rewrite slice_write_u64 by (apply write_u16_ok || page_arith; done || page_arith).
    rewrite slice_write_u16 by (done || page_arith).
    rewrite (slice_splice_page _ H2) by (unfold OVERFLOW_PAYLOAD_START, HEADER_SIZE; lia).
    unfold set_slot_count. rewrite slice_write_u16 by (apply set_kind_ok, clear_payload_ok || page_arith; done || page_arith).
    rewrite slice_set_kind by (by apply clear_payload_ok || lia). by apply slice_clear_payload; [|lia]. }
  apply (good_kept id p); [done|done|apply Hs; lia|apply Hs; lia|].
  unfold read_overflow_page in Hr. destruct (kind (fill_overflow chunk next p)) as [k|]; [eauto|done].
Qed.

(** ** Pieces *)

Section pieces.
Context {A : Type} (n : nat) (Hn : (0 < n)%nat).
Implicit Types l : list A.

Lemma concat_chunks_of fuel l : (length l ≤ fuel)%nat → concat (chunks_of fuel n l) = l.
Proof using Hn.
  revert l. induction fuel as [|fuel IH]; intros [|x l] Hl; cbn [chunks_of concat length] in *; try done; [lia|].
  rewrite IH, take_drop; [done|]. rewrite length_drop. cbn. lia.
Qed.

Lemma chunks_of_ok fuel l : Forall (λ piece, (0 < length piece ≤ n)%nat ∧ ∀ x, x ∈ piece → x ∈ l) (chunks_of fuel n l).
Proof using Hn.
  revert l. induction fuel as [|fuel IH]; intros [|x l]; cbn [chunks_of]; try constructor.
  - rewrite length_take. cbn. split; [lia|]. intros y Hy. rewrite <- (take_drop n (x :: l)). apply elem_of_app. by left.
  - eapply Forall_impl; [apply IH|]. intros piece [? Hin]. split; [done|]. intros y Hy. rewrite <- (take_drop n (x :: l)).
    apply elem_of_app. right. by apply Hin.
Qed.

(** As many pieces as the division, rounded up. *)
Definition pieces (len : nat) : nat := (len + (n - 1)) / n.

Lemma length_chunks_of fuel l : (length l ≤ fuel)%nat → length (chunks_of fuel n l) = pieces (length l).
Proof using Hn.
  unfold pieces. revert l. induction fuel as [|fuel IH]; intros [|x l] Hl; cbn [chunks_of length] in *; try lia.
  - by rewrite Nat.div_small by lia.
  - by rewrite Nat.div_small by lia.
  - rewrite IH by (rewrite length_drop; cbn; lia). rewrite length_drop. cbn [length].
    destruct (decide (S (length l) ≤ n)%nat).
    + replace (S (length l) - n)%nat with 0%nat by lia. rewrite Nat.div_small by lia. apply (Nat.div_unique _ _ _ (length l)); lia.
    + replace (S (length l) + (n - 1))%nat with ((S (length l) - n + (n - 1)) + 1 * n)%nat by lia. rewrite Nat.div_add by lia. lia.
Qed.
End pieces.

(** ** Pages staged as a chain *)

(** The pages of a batch, staged from the last of the chain to its head. *)
Fixpoint staged_chain (next : option PageId) (batch : list (list Z)) (sts : list Staged) (head : option PageId) : Prop :=
  match batch, sts with
  | [], [] => head = next
  | chunk :: batch, st :: sts =>
      st_after st = fill_overflow chunk next (st_before st) ∧ staged_chain (Some (st_id st)) batch sts head
  | _, _ => False
  end.

Definition chunk_ok (chunk : list Z) : Prop := Forall is_byte chunk ∧ (length chunk ≤ OVERFLOW_CAPACITY)%nat.

Lemma staged_chain_reads s next batch sts head ids chunks :
  staged_chain next batch sts head → Forall chunk_ok batch →
  (∀ st, st ∈ sts → (st_id st < Control.next_page_id (control s))%N ∧ holds s (st_id st) (st_after st) ∧ page_ok (st_before st)) →
  (Control.next_page_id (control s) ≤ u64_max)%N → link_fits next →
  overflow_at s next ids chunks → overflow_at s head (reverse (st_id <$> sts) ++ ids) (reverse batch ++ chunks).
Proof.
  intros Hc Hb Hst Hmax Hn. revert next sts ids chunks Hc Hst Hn.
  induction batch as [|c batch IH]; intros next [|st sts] ids chunks Hc Hst Hn Ho; try done; [by rewrite Hc|].
  destruct Hc as [Ha Hc]. apply Forall_cons in Hb as [[Hcb Hcl] Hb]. rewrite fmap_cons, !reverse_cons, <- !app_assoc.
  destruct (Hst st ltac:(by left)) as (Hlt & Hh & Hp).
  apply (IH Hb (Some (st_id st)) sts); [done|by intros; apply Hst; right|cbn; lia|]. split_and!; [done|done|]. exists (st_after st), next.
  split_and!; [done| |done]. rewrite Ha. by apply overflow_page_round_trip.
Qed.

Section thread.
Context (me : ThreadId).

Lemma in_use_fits s l id : alloc_ok s l → in_use s l id → link_fits (Some id).
Proof using Type. intros Ha [Hlt _]. pose proof (a_bound _ _ Ha). cbn. lia. Qed.

(** What the pages staged by a batch are: handed out since [s], and to hold the chunks. *)
Record batched (s s' : DiskStorage) (l l' : list PageId) (next head : option PageId) (batch : list (list Z)) (new : list Staged) : Prop := {
  ba_ahead : ahead me s l s' l' (length batch) 0 ∅;
  ba_chain : staged_chain next batch new head;
  ba_head : link_fits head;
  ba_new st : st ∈ new → ¬ in_use s l (st_id st) ∧ in_use s' l' (st_id st);
}.

Lemma wp_write_batch batch : ∀ set next s l,
  disk_ok me None ∅ s → alloc_ok s l → staged_ok s (staged set) → (∀ st, st ∈ staged set → in_use s l (st_id st)) →
  Forall chunk_ok batch → link_fits next →
  wp (write_batch me set next batch)
    (λ r s', ∃ l' new, batched s s' l l' next r.1 batch new ∧ r.2 = with_staged (staged set ++ new) set ∧ staged_ok s' (staged set ++ new))
    (λ _ s', (∃ l', kept me s l s' l' ∅) ∧ ¬ can_grow s (length batch) 0) s.
Proof using Type.
  induction batch as [|c batch IH]; intros set next s l Hok Ha Hs Hu Hb Hn; cbn [write_batch].
  { apply wp_ret. exists l, []. rewrite app_nil_r. split_and!; [|by destruct set|done].
    split; [by apply ahead_refl|done|done|]. intros st []%not_elem_of_nil. }
  apply Forall_cons in Hb as [[Hcb Hcl] Hb]. apply wp_bind. eapply wp_mono; [by apply wp_allocate_ahead| |].
  2: { intros e s1 [Hk Hno]. split; [eauto|]. intros Hg. apply Hno. by eapply can_grow_le; [exact Hg|cbn; lia|lia]. }
  intros id s1 (l1 & H1 & Hni & Hi & page & Hpage & _).
  assert (Hs1 : staged_ok s1 (staged set)).
  { destruct Hs as [Hnd Hbf Haf Hid]. split; [done| |done|].
    - intros st Hst. apply (holds_seen s); [|by apply Hbf]. apply (h_seen _ _ _ _ _ _ _ _ H1); [by apply Hu|set_solver].
    - intros st Hst. destruct (h_use _ _ _ _ _ _ _ _ H1 (st_id st) (Hu st Hst)). done. }
  assert (Hid : id ∉ (st_id <$> staged set)).
  { intros (st & -> & Hst)%list_elem_of_fmap. by apply Hni, Hu. }
  apply wp_bind. apply wp_stage; [apply H1|apply Hi|done| |].
  2: { intros e s2 H2 Hl2 Hv2 Hw. assert (Ha2 := like_ahead me s1 l1 s2 H2 (h_list _ _ _ _ _ _ _ _ H1) Hl2 Hv2). split.
       - exists l1. eapply kept_trans; [by eapply ahead_kept|by eapply ahead_kept|set_solver].
       - intros Hg. apply Hw; [by rewrite Hpage|]. eapply can_grow_willing, (ahead_grow _ _ _ _ _ _ _ _ (length batch) 0 H1), Hg. }
  intros s2 before H2 Hl2 Hv2 Hbefore. cbn [changing fst snd].
  assert (H12 : ahead me s l s2 l1 1 0 ∅).
  { eapply (ahead_trans me _ _ _ _ _ _ 1 0 0 0); [exact H1|apply like_ahead; try done; apply H1|set_solver]. }
  set (st := mkStaged id before (fill_overflow c next before)). set (set' := with_staged (staged set ++ [st]) set).
  assert (Hafter : page_good id (fill_overflow c next before)) by (apply fill_overflow_good; [apply Hbefore|done|done|done]).
  assert (Hi2 : in_use s2 l1 id) by (unfold in_use in *; by rewrite (l_control _ _ Hl2)).
  assert (Hs2 : staged_ok s2 (staged set')).
  { apply (staged_ok_seen s1); [|by rewrite (l_control _ _ Hl2)|done]. destruct Hs1 as [Hnd Hbf Haf Hid1]. split.
    - cbn. rewrite fmap_app. apply NoDup_app. split_and!; [done| |apply NoDup_singleton]. cbn. set_solver.
    - intros st' [Hst' | ->%list_elem_of_singleton]%elem_of_app; [by apply Hbf|done].
    - intros st' [Hst' | ->%list_elem_of_singleton]%elem_of_app; [by apply Haf|done].
    - intros st' [Hst' | ->%list_elem_of_singleton]%elem_of_app; [by apply Hid1|apply Hi]. }
  eapply wp_mono; [apply (IH set' (Some id) s2 l1); [done|apply H12|done| |done|by eapply in_use_fits; [apply H12|]]| |].
  - intros st' [Hst' | ->%list_elem_of_singleton]%elem_of_app; [|done]. by apply (h_use _ _ _ _ _ _ _ _ H12), Hu.
  - intros [head set2] s3 (l3 & new & [Hah Hch Hhd Hnew] & Hset & Hs3). cbn [fst snd] in *. exists l3, (st :: new).
    subst set2. unfold set'. cbn [with_staged staged logged root]. rewrite <- app_assoc. cbn [app]. split_and!; [|done|].
    2: { unfold set' in Hs3. cbn [with_staged staged] in Hs3. by rewrite <- app_assoc in Hs3. }
    split; [by eapply (ahead_trans me _ _ _ _ _ _ 1 0 (length batch) 0); [exact H12|exact Hah|set_solver]|done|done|].
    intros st' [-> |Hst']%elem_of_cons; [split; [done|by apply (h_use _ _ _ _ _ _ _ _ Hah)]|].
    destruct (Hnew st' Hst') as [Hn1 Hn2]. split; [|done]. intros Hin. by apply Hn1, (h_use _ _ _ _ _ _ _ _ H12).
  - intros e s3 [[l3 Hk] Hno]. split; [exists l3; eapply kept_trans; [by eapply ahead_kept|done|set_solver]|].
    intros Hg. apply Hno. by apply (ahead_grow _ _ _ _ _ _ _ _ (length batch) 0 H12).
Qed.

(** ** Writing a chain *)

Lemma overflow_at_link s l current ids chunks : alloc_ok s l → overflow_at s current ids chunks → link_fits current.
Proof using Type.
  intros Ha. destruct ids as [|id ids], chunks as [|c chunks]; cbn [overflow_at]; try done; [by intros ->|].
  intros (-> & Hlt & _). pose proof (a_bound _ _ Ha). cbn. lia.
Qed.

(** A chain of pages in use, each of them once. *)
Record chain_at (s : DiskStorage) (l : list PageId) (current : option PageId) (ids : list PageId) (chunks : list (list Z)) : Prop := {
  ca_at : overflow_at s current ids chunks;
  ca_use i : i ∈ ids → in_use s l i;
  ca_nodup : NoDup ids;
}.

Lemma chain_at_ahead s l s' l' n m (X : gset PageId) current ids chunks :
  ahead me s l s' l' n m X → (∀ i, i ∈ ids → i ∉ X) → chain_at s l current ids chunks → chain_at s' l' current ids chunks.
Proof using Type.
  intros Ha HX [Ho Hu Hn]. split; [|intros i Hi; by apply (h_use _ _ _ _ _ _ _ _ Ha), Hu|done].
  apply (overflow_at_seen s); [apply Ha| |done]. intros i Hi. apply (h_seen _ _ _ _ _ _ _ _ Ha); [by apply Hu|by apply HX].
Qed.

(** The commit of a batch. *)
Lemma wp_commit_batch set new s s1 l l1 next head batch ids chunks :
  batched s s1 l l1 next head batch new → staged set = new → staged_ok s1 new → Forall chunk_ok batch → (length batch ≤ PAGES_PER_RECORD)%nat →
  link_fits next → chain_at s l next ids chunks →
  wp (commit me set (λ id, pool_set_in_progress id false))
    (λ _ s', ahead me s l s' l1 (length batch) (S (length batch)) ∅ ∧ chain_at s' l1 head (reverse (st_id <$> new) ++ ids) (reverse batch ++ chunks) ∧
      ∀ i, i ∈ (st_id <$> new) → ¬ in_use s l i)
    (λ _ s', kept me s l s' l1 ∅ ∧ ¬ can_grow s (length batch) (S (length batch))) s1.
Proof using Type.
  intros [Hah Hch Hhd Hnew] Hset Hst Hb Hle Hn Hc. set (X := list_to_set (st_id <$> new) : gset PageId).
  assert (HX : ∀ i, i ∈ X → ¬ in_use s l i ∧ in_use s1 l1 i).
  { intros i (st & -> & Hi)%elem_of_list_to_set%list_elem_of_fmap. by apply Hnew. }
  assert (Hlen : length new = length batch) by (clear -Hch; revert next new Hch; induction batch as [|c batch IH]; intros next [|st new]; cbn; try done; intros [_ H]; f_equal; eauto).
  eapply wp_mono; [apply (wp_commit_ahead me set _ s1 l1 X (S (length batch))); [apply Hah|apply Hah|by rewrite Hset|apply hook_in_progress|by rewrite Hset|intros i Hi; apply HX, Hi|by rewrite Hset, Hlen|rewrite Hset, Hlen; lia|lia]| |].
  - intros _ s2 [H2 Hh2].
    assert (H02 : ahead me s l s2 l1 (length batch) (S (length batch)) ∅).
    { eapply ahead_mono; [eapply (ahead_trans me _ _ _ _ _ _ _ _ _ _ _ _ ∅); [exact Hah|exact H2|]|lia|lia|done].
      intros i Hi Hin. exfalso. destruct (HX i) as [Hno' _]; [set_solver|done]. }
    assert (Hc2 : chain_at s2 l1 next ids chunks) by (eapply chain_at_ahead; [exact H02|set_solver|done]).
    split_and!; [done| |intros i Hi; apply HX; set_solver]. split.
    + apply (staged_chain_reads s2 next); [done|done| |apply (a_bound _ _ (h_list _ _ _ _ _ _ _ _ H02))|done|apply Hc2].
      intros st Hin. split_and!; [|apply Hh2; by rewrite Hset|apply (so_before _ _ Hst st Hin)].
      destruct (h_use _ _ _ _ _ _ _ _ H2 (st_id st)) as [? _]; [by apply Hnew|done].
    + intros i [Hi|Hi]%elem_of_app; [|by apply Hc2]. apply (h_use _ _ _ _ _ _ _ _ H2), HX. rewrite elem_of_reverse in Hi. set_solver.
    + apply NoDup_app. split_and!; [rewrite (reverse_Permutation _); apply Hst| |apply Hc2].
      intros i Hi Hin. rewrite elem_of_reverse in Hi. destruct (HX i) as [Hno' _]; [set_solver|]. by apply Hno', Hc.
  - intros e s2 [Hk Hno]. split.
    + eapply kept_trans; [by eapply ahead_kept|exact Hk|]. intros i Hi Hin. exfalso. destruct (HX i) as [Hno' _]; [set_solver|done].
    + intros Hg. apply Hno. apply (ahead_grow _ _ _ _ _ _ _ _ 0 (S (length batch)) Hah). eapply can_grow_le; [exact Hg|lia|lia].
Qed.

Definition batch_ok (batch : list (list Z)) : Prop := Forall chunk_ok batch ∧ (length batch ≤ PAGES_PER_RECORD)%nat.

(** A write of each page, and one for a record with no page. *)
Definition batch_writes (batches : list (list (list Z))) : nat := length (concat batches) + length batches.

Lemma wp_write_batches batches : ∀ next s l ids chunks,
  disk_ok me None ∅ s → alloc_ok s l → Forall batch_ok batches → chain_at s l next ids chunks →
  wp (write_batches me next batches)
    (λ head s', ∃ l' new, ahead me s l s' l' (length (concat batches)) (batch_writes batches) ∅ ∧
      chain_at s' l' head (new ++ ids) (reverse (concat batches) ++ chunks) ∧ ∀ i, i ∈ new → ¬ in_use s l i)
    (λ _ s', (∃ l', kept me s l s' l' ∅) ∧ ¬ can_grow s (length (concat batches)) (batch_writes batches)) s.
Proof using Type.
  induction batches as [|batch batches IH]; intros next s l ids chunks Hok Ha Hb Hc; cbn [write_batches].
  { apply wp_ret. exists l, []. split_and!; [by apply ahead_refl|done|set_solver]. }
  apply Forall_cons in Hb as [[Hbc Hbl] Hb]. pose proof (overflow_at_link _ _ _ _ _ Ha (ca_at _ _ _ _ _ Hc)) as Hn.
  apply wp_bind. eapply wp_mono; [apply (wp_write_batch batch (PageSet_new true) next s l); try done| |].
  { split; [constructor|intros st []%not_elem_of_nil..]. }
  { intros st []%not_elem_of_nil. }
  2: { intros e s1 [Hk Hno]. split; [done|]. intros Hg. apply Hno. eapply can_grow_le; [exact Hg|cbn; rewrite length_app; lia|lia]. }
  intros [head set] s1 (l1 & new & Hbt & Hset & Hst). cbn [fst snd PageSet_new staged app] in *.
  apply wp_bind. eapply wp_mono; [eapply (wp_commit_batch set new); [exact Hbt|by rewrite Hset|done..|exact Hc]| |].
  2: { intros e s2 [Hk Hno]. split; [eauto|]. intros Hg. apply Hno. unfold batch_writes in Hg. cbn [concat length] in Hg. rewrite length_app in Hg. eapply can_grow_le; [exact Hg|lia|lia]. }
  intros _ s2 (H2 & Hc2 & Hnew). eapply wp_mono; [apply (IH head s2 l1); [apply H2|apply H2|done|exact Hc2]| |].
  - intros head' s3 (l3 & new' & H3 & Hc3 & Hn3). exists l3, (new' ++ reverse (st_id <$> new)). unfold batch_writes. cbn [concat length]. rewrite length_app. split_and!.
    + eapply ahead_mono; [eapply (ahead_trans me); [exact H2|exact H3|]|lia|unfold batch_writes; lia|done]. set_solver.
    + by rewrite reverse_app, <- !app_assoc.
    + intros i [Hi|Hi]%elem_of_app; [intros Hin; by apply (Hn3 i Hi), (h_use _ _ _ _ _ _ _ _ H2)|]. apply Hnew. by rewrite elem_of_reverse in Hi.
  - intros e s3 [[l3 Hk] Hno]. split; [exists l3; eapply kept_trans; [by eapply ahead_kept|exact Hk|set_solver]|].
    unfold batch_writes. cbn [concat length]. rewrite length_app. intros Hg. apply Hno. apply (ahead_grow _ _ _ _ _ _ _ _ _ (batch_writes batches) H2).
    eapply can_grow_le; [exact Hg|lia|unfold batch_writes; lia].
Qed.

(** The pages, the records of the journal and the writes that a record of [len] bytes takes. *)
Definition overflow_pages (len : nat) : nat := pieces OVERFLOW_CAPACITY len.
Definition overflow_records (len : nat) : nat := pieces PAGES_PER_RECORD (overflow_pages len).
Definition overflow_writes (len : nat) : nat := overflow_pages len + overflow_records len.

Lemma OVERFLOW_CAPACITY_pos : (0 < OVERFLOW_CAPACITY)%nat.
Proof using Type. pose proof PAGE_SIZE_Z. unfold OVERFLOW_CAPACITY, OVERFLOW_PAYLOAD_START, HEADER_SIZE. lia. Qed.

Lemma wp_write_overflow_chain h bytes s l :
  disk_ok me None ∅ s → alloc_ok s l → Forall is_byte bytes → bytes ≠ [] →
  wp (write_overflow_chain me h bytes)
    (λ head s', ∃ l' ids chunks, ahead me s l s' l' (overflow_pages (length bytes)) (overflow_writes (length bytes)) ∅ ∧
      chain_at s' l' (Some head) ids chunks ∧ concat chunks = bytes ∧ ∀ i, i ∈ ids → ¬ in_use s l i)
    (λ _ s', (∃ l', kept me s l s' l' ∅) ∧ ¬ can_grow s (overflow_pages (length bytes)) (overflow_writes (length bytes))) s.
Proof using Type.
  intros Hok Ha Hb Hne. unfold write_overflow_chain. pose proof OVERFLOW_CAPACITY_pos as Hcap.
  set (cs := chunks_of (length bytes) OVERFLOW_CAPACITY bytes). set (rs := reverse cs). set (bs := chunks_of (length rs) PAGES_PER_RECORD rs).
  assert (Hpp : (0 < PAGES_PER_RECORD)%nat) by (unfold PAGES_PER_RECORD; lia).
  assert (Hcs : concat cs = bytes) by by apply concat_chunks_of.
  assert (Hbs : concat bs = rs) by by apply concat_chunks_of.
  assert (Hlc : length rs = overflow_pages (length bytes)) by (unfold rs; rewrite length_reverse; by apply length_chunks_of).
  assert (Hlb : length bs = overflow_records (length bytes)) by (unfold overflow_records; rewrite <- Hlc; by apply length_chunks_of).
  assert (Hlw : batch_writes bs = overflow_writes (length bytes)) by (unfold batch_writes, overflow_writes; by rewrite Hbs, Hlc, Hlb).
  assert (Hrs : ∀ c, c ∈ rs → chunk_ok c).
  { intros c Hc. unfold rs in Hc. rewrite elem_of_reverse in Hc. pose proof (proj1 (Forall_forall _ _) (chunks_of_ok OVERFLOW_CAPACITY Hcap (length bytes) bytes) c Hc) as [[_ Hle] Hin].
    split; [|done]. apply Forall_forall. intros x Hx. rewrite Forall_forall in Hb. by apply Hb, Hin. }
  assert (Hbo : Forall batch_ok bs).
  { eapply Forall_impl; [apply (chunks_of_ok PAGES_PER_RECORD Hpp)|]. intros batch [[_ Hle] Hin]. split; [|done].
    apply Forall_forall. intros c Hc. by apply Hrs, Hin. }
  apply wp_bind. eapply wp_mono; [apply (wp_write_batches bs None s l [] []); [done|done|done|]| |].
  - split; [done|by intros i []%not_elem_of_nil|constructor].
  - intros head s' (l' & new & H1 & H2 & H3). rewrite !app_nil_r in H2. rewrite Hbs in *. unfold rs in H2. rewrite reverse_involutive in H2.
    rewrite Hlc, Hlw in H1. destruct head as [head|].
    + apply wp_ret. exists l', new, cs. done.
    + exfalso. apply Hne. rewrite <- Hcs. pose proof (ca_at _ _ _ _ _ H2) as Hat. by destruct new, cs; [|..|destruct Hat].
  - intros e s' Hk. by rewrite Hbs, Hlc, Hlw in Hk.
Qed.

(** ** Reading a chain *)

(** A state that differs by the pins taken and dropped. *)
Definition same_pages (s s' : DiskStorage) : Prop := disk_ok me None ∅ s' ∧ like s s' ∧ ∀ i, seen s' i = seen s i.

Lemma same_pages_trans s1 s2 s3 : same_pages s1 s2 → same_pages s2 s3 → same_pages s1 s3.
Proof using Type. intros (_ & L1 & V1) (H2 & L2 & V2). split_and!; [done|by transitivity s2|intros i; by rewrite V2]. Qed.

Lemma same_pages_ahead s l s' : alloc_ok s l → same_pages s s' → ahead me s l s' l 0 0 ∅.
Proof using Type. intros Ha (H & L & V). by apply like_ahead. Qed.

Lemma same_pages_willing s s' : same_pages s s' → willing s → willing s'.
Proof using Type. intros (_ & L & V). by apply like_willing. Qed.

Lemma overflow_at_same s s' current ids chunks : same_pages s s' → overflow_at s current ids chunks → overflow_at s' current ids chunks.
Proof using Type. intros (_ & L & V). apply overflow_at_seen; [by rewrite (l_control _ _ L)|done]. Qed.

Lemma wp_read_page_at id page s :
  disk_ok me None ∅ s → (id < Control.next_page_id (control s))%N → holds s id page →
  wp (pinned_for me id (read_pinned id (λ page, read_overflow_page page id)))
    (λ r s', r = read_overflow_page page id ∧ same_pages s s') (λ _ s', same_pages s s' ∧ ¬ willing s) s.
Proof using Type.
  intros Hok Hid Hh. apply wp_pinned_read; [done|done| |].
  - intros s' page' H' Hl Hv Hh'. by rewrite (holds_overflow s id page' page Hh' Hh).
  - intros e s' H' Hl Hv Hw. split; [done|]. apply Hw. by eapply holds_is_Some.
Qed.

Lemma wp_read_chain h ids : ∀ turns head total current chunks out s,
  disk_ok me None ∅ s → overflow_at s current ids chunks → (length ids ≤ turns)%nat → Z.of_nat (length (out ++ concat chunks)) ≤ total →
  wp (read_chain me h turns head total current out)
    (λ r s', r = out ++ concat chunks ∧ same_pages s s') (λ _ s', same_pages s s' ∧ ¬ willing s) s.
Proof using Type.
  induction ids as [|id ids IH]; intros turns head total current [|chunk chunks] out s Hok Ho Ht Hlen; try done.
  { cbn in Ho. subst current. rewrite app_nil_r. destruct turns; apply wp_ret; by split_and!. }
  destruct Ho as (-> & Hid & page & next & Hh & Hr & Ho). destruct turns as [|turns]; cbn [length] in Ht; [lia|]. cbn [read_chain concat] in *.
  apply wp_bind. eapply wp_mono; [by eapply wp_read_page_at| |done]. intros r s1 [-> Hs1]. rewrite Hr. apply wp_bind, wp_lift; [|done].
  intros r [= <-]. cbn [fst snd]. rewrite app_assoc in *. rewrite (proj2 (Z.ltb_ge _ _)) by (rewrite length_app in Hlen; lia).
  eapply wp_mono; [apply (IH turns head total next chunks (out ++ chunk) s1); [apply Hs1|by eapply overflow_at_same|lia|done]| |].
  - intros r s2 [-> Hs2]. split; [done|by eapply same_pages_trans].
  - intros e s2 [Hs2 Hw]. split; [by eapply same_pages_trans|]. intros Hwill. by eapply Hw, same_pages_willing.
Qed.

(** The pages of a chain are fewer than the file has. *)
Lemma chain_fits s l current ids chunks : alloc_ok s l → chain_at s l current ids chunks → (length ids ≤ N.to_nat (page_count (data s)))%nat.
Proof using Type.
  intros Ha [_ Hu Hn]. apply count_below; [done|]. intros i Hi. destruct (Hu i Hi) as [Hlt _]. pose proof (a_count _ _ Ha). lia.
Qed.

Lemma wp_read_overflow_chain h head s l ids chunks :
  disk_ok me None ∅ s → alloc_ok s l → chain_at s l (Some head) ids chunks →
  wp (read_overflow_chain me h head (Z.of_nat (length (concat chunks))))
    (λ r s', r = concat chunks ∧ same_pages s s') (λ _ s', same_pages s s' ∧ ¬ willing s) s.
Proof using Type.
  intros Hok Ha Hc. pose proof (chain_fits _ _ _ _ _ Ha Hc) as Hfit. unfold read_overflow_chain. apply wp_bind.
  change (wp walk_turns ?Q ?E s) with (Q (S (N.to_nat (page_count (data s)))) s). cbn beta.
  apply wp_bind. eapply wp_mono; [eapply (wp_read_chain h ids); [done|apply Hc|nia|done]| |done].
  intros r s' [-> Hs]. cbn [app]. rewrite Z.eqb_refl. by apply wp_ret.
Qed.

Lemma wp_overflow_ids ids : ∀ turns current chunks s,
  disk_ok me None ∅ s → overflow_at s current ids chunks → (length ids ≤ turns)%nat →
  wp (overflow_ids me turns current) (λ r s', r = ids ∧ same_pages s s') (λ _ s', same_pages s s' ∧ ¬ willing s) s.
Proof using Type.
  induction ids as [|id ids IH]; intros turns current [|chunk chunks] s Hok Ho Ht; try done.
  { cbn in Ho. subst current. destruct turns; apply wp_ret; by split_and!. }
  destruct Ho as (-> & Hid & page & next & Hh & Hr & Ho). destruct turns as [|turns]; cbn [length] in Ht; [lia|]. cbn [overflow_ids].
  apply wp_bind. eapply wp_mono; [by eapply wp_read_page_at| |done]. intros r s1 [-> Hs1]. rewrite Hr. apply wp_bind, wp_lift; [|done].
  intros r [= <-]. cbn [snd]. apply wp_bind.
  eapply wp_mono; [apply (IH turns next chunks s1); [apply Hs1|by eapply overflow_at_same|lia]| |].
  - intros r s2 [-> Hs2]. apply wp_ret. split; [done|by eapply same_pages_trans].
  - intros e s2 [Hs2 Hw]. split; [by eapply same_pages_trans|]. intros Hwill. by eapply Hw, same_pages_willing.
Qed.

Lemma wp_overflow_chain head s l ids chunks :
  disk_ok me None ∅ s → alloc_ok s l → chain_at s l (Some head) ids chunks →
  wp (overflow_chain me head) (λ r s', r = ids ∧ same_pages s s') (λ _ s', same_pages s s' ∧ ¬ willing s) s.
Proof using Type.
  intros Hok Ha Hc. pose proof (chain_fits _ _ _ _ _ Ha Hc) as Hfit. unfold overflow_chain. apply wp_bind.
  change (wp walk_turns ?Q ?E s) with (Q (S (N.to_nat (page_count (data s)))) s). cbn beta.
  eapply wp_overflow_ids; [done|apply Hc|lia].
Qed.
End thread.
