(* ===== verification/HeapFacts.v ===== *)
(** * Facts about heaps

    A heap as the rows it stores: its chain of pages, and the bytes each address reads
    ([heap_rep]); and what the reads and the changes of one page do to them. *)

From S2P Require Import Control Prelude Errors Bytes Crc Page HeapPage HeapPlace Wal WalFacts PageWrite.
From S2P Require Import PageWriteFacts WalPayload DataFile BufferPool BufferFacts PoolTheorems Disk DiskFacts Alloc AllocFacts PageSetFacts.
From S2P Require Import Heap OverflowFacts.

#[local] Open Scope Z_scope.

(** A row: its bytes, and the pages of its overflow chain. *)
Notation Row := (list Z * list PageId)%type.

(** ** Pages of a heap *)

Lemma identity_good id p q : page_good id p → page_ok q → same_identity q p → page_good id q.
Proof.
  intros (Hp & Hh & Hid) Hq Hs. split_and!; [done| |].
  - apply (same_header_good p q); [done|done| |done]. destruct Hs. by split.
  - rewrite <- Hid. by apply same_page_id.
Qed.

(** What the page of [id] reads as, of a heap page. *)
Definition heap_page (s : DiskStorage) (id : PageId) (rs : list (option (list Z * bool))) (next : option PageId) : Prop :=
  ∃ page, holds s id page ∧ heap_ok page ∧ HeapPage.records page = rs ∧ heap_next page = next.

Lemma heap_page_holds s id rs next page : heap_page s id rs next → holds s id page →
  heap_ok page ∧ HeapPage.records page = rs ∧ heap_next page = next.
Proof.
  intros (p & Hp & Hk & <- & <-) Hq. pose proof (holds_same _ _ _ _ Hp Hq) as Hs.
  destruct Hp as [(Hp & _) _], Hq as [(Hq & _) _]. destruct (logged_heap p page Hp Hq Hs Hk) as (? & ? & ? & _). done.
Qed.

Lemma heap_page_seen s s' id rs next : seen s' id = seen s id → heap_page s id rs next → heap_page s' id rs next.
Proof. intros Hs (p & Hp & H). exists p. split; [by apply (holds_seen s)|done]. Qed.

Lemma heap_page_is_Some s id rs next : heap_page s id rs next → is_Some (seen s id).
Proof. intros (p & Hp & _). by eapply holds_is_Some. Qed.

Lemma heap_page_inj s id rs next rs' next' : heap_page s id rs next → heap_page s id rs' next' → rs = rs' ∧ next = next'.
Proof. intros H (p & Hp & _ & <- & <-). by destruct (heap_page_holds _ _ _ _ _ H Hp) as (_ & <- & <-). Qed.

Section thread.
Context (me : ThreadId).

Section heap.
Context (h : Heap).

(** A body under the pin of a page of the heap, once its kind is checked. *)
Lemma wp_heap_pinned {A} id rs next (body : disk A) Q E s :
  disk_ok me None ∅ s → (id < Control.next_page_id (control s))%N → heap_page s id rs next →
  (∀ s1 page, disk_ok me (Some id) ∅ s1 → like s s1 → (∀ i, seen s1 i = seen s i) → current s1 id page → holds s1 id page →
    heap_ok page → HeapPage.records page = rs → heap_next page = next →
    wp body
      (λ a s2, disk_ok me (Some id) ∅ s2 ∧ ∀ s3, disk_ok me None ∅ s3 → like s2 s3 → (∀ i, seen s3 i = seen s2 i) → Q a s3)
      (λ e s2, disk_ok me (Some id) ∅ s2 ∧ ∀ s3, disk_ok me None ∅ s3 → like s2 s3 → (∀ i, seen s3 i = seen s2 i) → E e s3) s1) →
  (∀ e s', same_pages me s s' → ¬ willing s → E e s') →
  wp (pinned_for me id (_ ← check_heap h id; body)) Q E s.
Proof using Type.
  intros Hok Hid Hp Hbody HE. apply wp_pinned_for; [done|done| |].
  - intros s1 H1 Hl1 Hv1 _. destruct (held_frame me ∅ s1 id H1) as (slot & f & _ & _ & _ & _ & _ & Hg & Hc & Hsn).
    pose proof (seen_holds s1 _ _ Hg Hsn) as Hh. pose proof (heap_page_seen _ s1 _ _ _ (Hv1 id) Hp) as Hp1.
    destruct (heap_page_holds _ _ _ _ _ Hp1 Hh) as (Hk & Hr & Hn). apply wp_bind. unfold check_heap. apply wp_bind.
    eapply wp_read; [done|]. intros page Hc' _ _. assert (page = f_page f) as -> by (unfold current in *; congruence).
    rewrite (ho_kind _ Hk). apply wp_bind, wp_lift; [|done]. intros k [= <-]. apply wp_ret. by apply (Hbody s1 (f_page f)).
  - intros e s' H' Hl Hv Hw. apply HE; [done|]. apply Hw. by eapply heap_page_is_Some.
Qed.

Lemma wp_heap_read {R} id rs next (read : Page → R) Q E s :
  disk_ok me None ∅ s → (id < Control.next_page_id (control s))%N → heap_page s id rs next →
  (∀ s' page, same_pages me s s' → holds s id page → heap_ok page → HeapPage.records page = rs → heap_next page = next → Q (read page) s') →
  (∀ e s', same_pages me s s' → ¬ willing s → E e s') →
  wp (pinned_for me id (_ ← check_heap h id; read_pinned id read)) Q E s.
Proof using Type.
  intros Hok Hid Hp HQ HE. eapply wp_heap_pinned; [done..| |done]. intros s1 page H1 Hl1 Hv1 Hc Hh Hk Hr Hn.
  eapply wp_read; [done|]. intros page' Hc' _ _. assert (page' = page) as -> by (unfold current in *; congruence).
  split; [done|]. intros s3 H3 Hl3 Hv3. apply HQ; try done; [|by apply (holds_seen s1)].
  split_and!; [done|by transitivity s1|intros i; by rewrite Hv3].
Qed.

Lemma wp_next_page id rs next s :
  disk_ok me None ∅ s → (id < Control.next_page_id (control s))%N → heap_page s id rs next →
  wp (next_page me id) (λ r s', r = next ∧ same_pages me s s') (λ _ s', same_pages me s s' ∧ ¬ willing s) s.
Proof using Type.
  intros Hok Hid Hp. apply wp_pinned_read; [done|done| |].
  - intros s' page H' Hl Hv Hh. by destruct (heap_page_holds _ _ _ _ _ Hp Hh) as (_ & _ & <-).
  - intros e s' H' Hl Hv Hw. split; [done|]. apply Hw. by eapply heap_page_is_Some.
Qed.

(** What [slot_for] answers of the records of a page. *)
Definition takes (rs : list (option (list Z * bool))) (slot len : nat) : Prop :=
  (len ≤ MAX_INLINE_LEN)%nat ∧ 42 + Z.of_nat (record_bytes (<[slot := None]> rs)) + Z.of_nat len + 4 * Z.of_nat (Nat.max (length rs) (slot + 1)) ≤ 8192.

Lemma room_for_takes p slot len : room_for p slot len ↔ takes (HeapPage.records p) slot len.
Proof using Type. unfold room_for, takes. by rewrite length_records. Qed.

Definition first_free (rs : list (option (list Z * bool))) (slot : nat) : Prop :=
  rs !! slot ≫= id = None ∧ (slot ≤ length rs)%nat ∧ ∀ j, (j < slot)%nat → rs !! j ≫= id ≠ None.

Lemma wp_room_in i rs next len s :
  disk_ok me None ∅ s → (i < Control.next_page_id (control s))%N → heap_page s i rs next →
  wp (room_in me h i len)
    (λ r s', same_pages me s s' ∧ match r with Some slot => takes rs slot len ∧ first_free rs slot | None => ∀ slot, rs !! slot ≫= id = None → ¬ takes rs slot len end)
    (λ _ s', same_pages me s s' ∧ ¬ willing s) s.
Proof using Type.
  intros Hok Hid Hp. eapply wp_heap_read; [done..| |done]. intros s' page Hs Hh Hk <- Hn. split; [done|].
  pose proof (slot_for_spec page len Hk) as Hsf. destruct (slot_for page len) as [slot|].
  - destruct Hsf as (H1 & H2 & H3 & H4). split; [by apply room_for_takes|]. split_and!; [done|by rewrite length_records|done].
  - intros slot Hslot Ht. by apply (Hsf slot Hslot), room_for_takes.
Qed.

(** ** The heap and its rows *)

Fixpoint heap_chain (s : DiskStorage) (current : option PageId) (ps : list PageId) : Prop :=
  match ps with
  | [] => current = None
  | id :: ps => current = Some id ∧ ∃ rs next, heap_page s id rs next ∧ heap_chain s next ps
  end.

Lemma heap_chain_seen s s' current ps : (∀ i, i ∈ ps → seen s' i = seen s i) → heap_chain s current ps → heap_chain s' current ps.
Proof using Type.
  revert current. induction ps as [|id ps IH]; intros current Hs; [done|]. intros (-> & rs & next & Hp & Hc).
  split; [done|]. exists rs, next. split; [apply (heap_page_seen s); [apply Hs; by left|done]|]. apply IH; [|done]. intros i Hi. apply Hs. by right.
Qed.

Lemma heap_chain_page s current ps i : heap_chain s current ps → i ∈ ps → ∃ rs next, heap_page s i rs next.
Proof using Type.
  revert current. induction ps as [|id ps IH]; intros current; [by intros _ []%not_elem_of_nil|]. intros (-> & rs & next & Hp & Hc) [-> |Hi]%elem_of_cons; eauto.
Qed.

Definition row_rep (s : DiskStorage) (l : list PageId) (content : option (list Z * bool)) (row : option Row) : Prop :=
  match content, row with
  | None, None => True
  | Some (b, false), Some (bytes, ids) => bytes = b ∧ ids = []
  | Some (st, true), Some (bytes, ids) => ∃ head chunks,
      length st = STUB_LEN ∧ from_le_bytes (slice 0 4 st) = Z.of_nat (length bytes) ∧ Z.to_N (from_le_bytes (slice 4 8 st)) = head ∧
      chain_at s l (Some head) ids chunks ∧ concat chunks = bytes
  | _, _ => False
  end.

Definition key (rid : Rid) : PageId * nat := (rid_page rid, slot_nat rid).

Record heap_rep (s : DiskStorage) (l : list PageId) (ps : list PageId) (M : gmap (PageId * nat) Row) : Prop := {
  hr_chain : heap_chain s (Some (first_page h)) ps;
  hr_nodup : NoDup ps;
  hr_use i : i ∈ ps → in_use s l i;
  hr_rows (i : PageId) rs next (slot : nat) : i ∈ ps → heap_page s i rs next → row_rep s l (rs !! slot ≫= id) (M !! (i, slot));
  hr_dom (i : PageId) (slot : nat) : is_Some (M !! (i, slot)) → i ∈ ps;
  hr_apart k row i : M !! k = Some row → i ∈ row.2 → i ∉ ps ∧ ∀ k' row', M !! k' = Some row' → i ∈ row'.2 → k' = k;
}.

Lemma row_rep_ahead s l s' l' n m (X : gset PageId) content row :
  ahead me s l s' l' n m X → (∀ r i, row = Some r → i ∈ r.2 → i ∉ X) → row_rep s l content row → row_rep s' l' content row.
Proof using Type.
  intros Ha HX. destruct content as [[b []]|], row as [[bytes ids]|]; cbn [row_rep]; try done.
  intros (head & chunks & H1 & H2 & H3 & H4 & H5). exists head, chunks. split_and!; try done.
  eapply chain_at_ahead; [exact Ha| |exact H4]. intros i Hi. by eapply HX.
Qed.

Lemma row_rep_ids s l content bytes ids i : row_rep s l content (Some (bytes, ids)) → i ∈ ids → in_use s l i.
Proof using Type.
  destruct content as [[b []]|]; cbn [row_rep]; [|intros [_ ->]; by intros []%not_elem_of_nil|done].
  intros (head & chunks & _ & _ & _ & H & _) Hi. by apply H.
Qed.

Lemma heap_rep_page s l ps M i : heap_rep s l ps M → i ∈ ps → ∃ rs next, heap_page s i rs next ∧ (i < Control.next_page_id (control s))%N.
Proof using Type.
  intros H Hi. destruct (heap_chain_page _ _ _ i (hr_chain _ _ _ _ H) Hi) as (rs & next & Hp). exists rs, next. split; [done|]. by apply (hr_use _ _ _ _ H).
Qed.

Lemma heap_rep_ids s l ps M k row i : heap_rep s l ps M → M !! k = Some row → i ∈ row.2 → in_use s l i.
Proof using Type.
  intros H Hk Hi. destruct k as [p slot], row as [bytes ids]. pose proof (hr_dom _ _ _ _ H p slot ltac:(by eexists)) as Hp.
  destruct (heap_rep_page _ _ _ _ p H Hp) as (rs & next & Hpage & _). pose proof (hr_rows _ _ _ _ H p rs next slot Hp Hpage) as Hr.
  rewrite Hk in Hr. by eapply row_rep_ids.
Qed.

(** The pages of a heap: those of its chain, and those of its long rows. *)
Definition heap_pages (ps : list PageId) (M : gmap (PageId * nat) Row) (i : PageId) : Prop :=
  i ∈ ps ∨ ∃ k row, M !! k = Some row ∧ i ∈ row.2.

Lemma heap_pages_use s l ps M i : heap_rep s l ps M → heap_pages ps M i → in_use s l i.
Proof using Type. intros H [Hi|(k & row & Hk & Hi)]; [by apply H|by eapply heap_rep_ids]. Qed.

(** The heap is untouched by changes outside its pages. *)
Lemma heap_rep_kept s l s' l' ps M :
  (∀ i, heap_pages ps M i → in_use s' l' i ∧ seen s' i = seen s i) → heap_rep s l ps M → heap_rep s' l' ps M.
Proof using Type.
  intros HP H. pose proof H as [Hc Hn Hu Hr Hd Hap]. split; try done.
  - apply (heap_chain_seen s); [|done]. intros i Hi. apply HP. by left.
  - intros i Hi. apply HP. by left.
  - intros i rs next slot Hi Hp.
    assert (Hold : row_rep s l (rs !! slot ≫= id) (M !! (i, slot))).
    { apply (Hr i rs next slot Hi). apply (heap_page_seen s'); [|done]. symmetry. apply HP. by left. }
    revert Hold. destruct (rs !! slot ≫= id) as [[b []]|], (M !! (i, slot)) as [[bytes ids]|] eqn:HM; cbn [row_rep]; try done.
    intros (head & chunks & H1 & H2 & H3 & [Hat Hu' Hn'] & H5). exists head, chunks. split_and!; try done.
    assert (Hids : ∀ j, j ∈ ids → in_use s' l' j ∧ seen s' j = seen s j) by (intros j Hj; apply HP; right; eauto).
    split; [|intros j Hj; by apply Hids|done]. apply (overflow_at_use s); [|done]. intros j Hj. split; by apply Hids.
Qed.

Lemma heap_rep_ahead s l s' l' n m (X : gset PageId) ps M :
  ahead me s l s' l' n m X → (∀ i, i ∈ ps → i ∉ X) → (∀ k row i, M !! k = Some row → i ∈ row.2 → i ∉ X) →
  heap_rep s l ps M → heap_rep s' l' ps M.
Proof using Type.
  intros Ha HX HM H. apply (heap_rep_kept s l); [|done]. intros i Hi. pose proof (heap_pages_use _ _ _ _ _ H Hi) as Hu.
  split; [by apply (h_use _ _ _ _ _ _ _ _ Ha)|]. apply (h_seen _ _ _ _ _ _ _ _ Ha); [done|].
  destruct Hi as [Hi|(k & row & Hk & Hi)]; [by apply HX|by eapply HM].
Qed.

Lemma heap_rep_same s s' l ps M : alloc_ok s l → same_pages me s s' → heap_rep s l ps M → heap_rep s' l ps M.
Proof using Type. intros Ha Hs. eapply heap_rep_ahead; [by eapply same_pages_ahead|set_solver|set_solver]. Qed.
End heap.
End thread.

(** * Reading a heap

    [get], [peek] and [scan] against the rows of the heap ([heap_rep]): they answer what the rows
    are, and change none. *)

#[local] Open Scope Z_scope.

Section thread.
Context (me : ThreadId) (h : Heap).

(** What a slot says of its row. *)
Definition record_rep (s : DiskStorage) (l : list PageId) (record : option Record_) (row : option Row) : Prop :=
  match record, row with
  | None, None => True
  | Some (Inline b), Some (bytes, ids) => bytes = b ∧ ids = []
  | Some (OverflowAt total head), Some (bytes, ids) =>
      total = Z.of_nat (length bytes) ∧ ∃ chunks, chain_at s l (Some head) ids chunks ∧ concat chunks = bytes
  | _, _ => False
  end.

Lemma row_record s l page slot row :
  heap_ok page → row_rep s l (HeapPage.records page !! slot ≫= id) row → ∃ r, read_record page slot = Ok r ∧ record_rep s l r row.
Proof using Type.
  intros Hk. rewrite (read_record_spec page slot Hk). destruct (_ ≫= id) as [[b []]|], row as [[bytes ids]|]; cbn [row_rep record_of]; try done.
  - intros (head & chunks & -> & Ht & Hh & Hc & Hb). rewrite Nat.eqb_refl. cbn [negb]. eexists. split; [done|]. cbn. rewrite Ht, Hh. eauto.
  - intros [-> ->]. by eexists.
  - intros _. by eexists.
Qed.

Lemma wp_find_record s l ps M rid :
  disk_ok me None ∅ s → heap_rep h s l ps M → rid_page rid ∈ ps →
  wp (find_record me h rid) (λ r s', same_pages me s s' ∧ record_rep s l r (M !! key rid)) (λ _ s', same_pages me s s' ∧ ¬ willing s) s.
Proof using Type.
  intros Hok H Hp. destruct (heap_rep_page _ _ _ _ _ _ H Hp) as (rs & next & Hpage & Hid).
  unfold find_record. eapply wp_heap_pinned; [done..| |done]. intros s1 page H1 Hl1 Hv1 Hc Hh Hk Hr Hn.
  apply wp_bind. eapply wp_read; [done|]. intros page' Hc' _ _. assert (page' = page) as -> by (unfold current in *; congruence).
  pose proof (hr_rows _ _ _ _ _ H (rid_page rid) rs next (slot_nat rid) Hp Hpage) as Hrow. rewrite <- Hr in Hrow.
  destruct (row_record _ _ _ _ _ Hk Hrow) as (r & -> & Hrec). apply wp_lift; [|done]. intros r' [= <-]. split; [done|].
  intros s3 H3 Hl3 Hv3. split; [|done]. split_and!; [done|by transitivity s1|intros i; by rewrite Hv3].
Qed.

Lemma wp_get s l ps M rid :
  disk_ok me None ∅ s → alloc_ok s l → heap_rep h s l ps M → rid_page rid ∈ ps →
  wp (get me h rid) (λ r s', same_pages me s s' ∧ r = fst <$> M !! key rid) (λ _ s', same_pages me s s' ∧ ¬ willing s) s.
Proof using Type.
  intros Hok Ha H Hp. unfold get. apply wp_bind. eapply wp_mono; [by eapply wp_find_record| |done].
  intros r s1 [Hs1 Hr]. destruct r as [[b|total head]|], (M !! key rid) as [[bytes ids]|]; cbn [record_rep] in Hr; try done.
  - destruct Hr as [-> _]. apply wp_ret. by split.
  - destruct Hr as (-> & chunks & Hc & <-). apply wp_bind.
    eapply wp_mono; [apply (wp_read_overflow_chain me h head s1 l ids chunks)| |].
    + apply Hs1.
    + by apply (h_list _ _ _ _ _ _ _ _ (same_pages_ahead me s l s1 Ha Hs1)).
    + eapply chain_at_ahead; [by eapply same_pages_ahead|set_solver|done].
    + intros out s2 [-> Hs2]. apply wp_ret. split; [by eapply same_pages_trans|done].
    + intros e s2 [Hs2 Hw]. split; [by eapply same_pages_trans|]. intros Hwill. by eapply Hw, same_pages_willing.
Qed.

Lemma wp_peek s l ps M rid :
  disk_ok me None ∅ s → heap_rep h s l ps M → rid_page rid ∈ ps →
  wp (peek me h rid)
    (λ r s', same_pages me s s' ∧ match r, M !! key rid with
       | None, None => True | Some (SInline b), Some (bytes, ids) => bytes = b ∧ ids = [] | Some SStub, Some (bytes, ids) => ids ≠ [] | _, _ => False end)
    (λ _ s', same_pages me s s' ∧ ¬ willing s) s.
Proof using Type.
  intros Hok H Hp. unfold peek. apply wp_bind. eapply wp_mono; [by eapply wp_find_record| |done].
  intros r s1 [Hs1 Hr]. apply wp_ret. split; [done|]. destruct r as [[b|total head]|], (M !! key rid) as [[bytes ids]|]; cbn [record_rep] in Hr; try done.
  destruct Hr as (_ & chunks & [Hc _ _] & _). by destruct ids, chunks.
Qed.

(** ** The scan *)

Lemma elem_of_used_slots i page rid :
  rid ∈ used_slots i page ↔ rid_page rid = i ∧ 0 ≤ rid_slot rid ∧ is_Some (HeapPage.records page !! slot_nat rid ≫= id).
Proof using Type.
  unfold used_slots. rewrite list_elem_of_fmap. split.
  - intros (slot & -> & [Hin Hf]%list_elem_of_In%filter_In). apply list_elem_of_In, elem_of_seq in Hin. cbn [rid_page rid_slot].
    split_and!; [done|lia|]. unfold slot_nat. cbn [rid_slot]. rewrite Nat2Z.id, records_lookup by lia. cbn. unfold HeapPage.content.
    destruct (Slot.is_free _); [done|by eexists].
  - intros (<- & H0 & Hs). exists (slot_nat rid). split; [destruct rid as [p n]; unfold slot_nat; cbn in *; by rewrite Z2Nat.id|].
    destruct (decide (slot_nat rid < slots page)%nat) as [Hlt|Hge].
    + apply list_elem_of_In, filter_In. split; [apply list_elem_of_In, elem_of_seq; lia|]. rewrite records_lookup in Hs by done. cbn in Hs.
      unfold HeapPage.content in Hs. destruct (Slot.is_free _); [by destruct Hs|done].
    + rewrite lookup_ge_None_2 in Hs by (rewrite length_records; lia). by destruct Hs.
Qed.

Lemma used_slots_nodup id page : NoDup (used_slots id page).
Proof using Type.
  unfold used_slots. apply NoDup_fmap_2; [|apply NoDup_ListNoDup, List.NoDup_filter, NoDup_ListNoDup, NoDup_seq].
  intros a b [= Hab]. lia.
Qed.

(** The rows of the pages of [ps], each once. *)
Definition lists_rows (M : gmap (PageId * nat) Row) (ps : list PageId) (r : list Rid) : Prop :=
  NoDup r ∧ ∀ rid, rid ∈ r ↔ rid_page rid ∈ ps ∧ 0 ≤ rid_slot rid ∧ is_Some (M !! key rid).

Lemma row_rep_is_Some s l content row : row_rep s l content row → is_Some content ↔ is_Some row.
Proof using Type. destruct content as [[b []]|], row as [[]|]; cbn; intros H; split; intros []; eauto; done. Qed.

Lemma wp_scan_from l M all ps : ∀ turns current s,
  disk_ok me None ∅ s → alloc_ok s l → heap_rep h s l all M → heap_chain s current ps → (∀ i, i ∈ ps → i ∈ all) → NoDup ps → (length ps ≤ turns)%nat →
  wp (scan_from me h turns current) (λ r s', same_pages me s s' ∧ lists_rows M ps r) (λ _ s', same_pages me s s' ∧ ¬ willing s) s.
Proof using Type.
  induction ps as [|id ps IH]; intros turns current s Hok Ha H Hc Hall Hnd Ht.
  { cbn in Hc. subst current. destruct turns; apply wp_ret; (split; [by split_and!|]); (split; [constructor|set_solver]). }
  destruct Hc as (-> & rs & next & Hp & Hc). destruct turns as [|turns]; cbn [length] in Ht; [lia|]. cbn [scan_from].
  apply NoDup_cons in Hnd as [Hni Hnd]. assert (Hin : id ∈ all) by (apply Hall; by left). destruct (hr_use _ _ _ _ _ H id Hin) as [Hid _].
  apply wp_bind. eapply wp_heap_read; [done..| |done]. intros s1 page Hs1 Hh Hk Hr Hn. cbn [fst snd]. rewrite Hn. apply wp_bind.
  eapply wp_mono; [apply (IH turns next s1)| |].
  - apply Hs1.
  - apply (h_list _ _ _ _ _ _ _ _ (same_pages_ahead me s l s1 Ha Hs1)).
  - by eapply heap_rep_same.
  - apply (heap_chain_seen s); [intros; apply Hs1|done].
  - set_solver.
  - done.
  - lia.
  - intros r s2 [Hs2 [Hnr Hr2]]. apply wp_ret. split; [by eapply same_pages_trans|].
    assert (Hrow : ∀ rid, rid_page rid = id → is_Some (HeapPage.records page !! slot_nat rid ≫= (λ x, x)) ↔ is_Some (M !! key rid)).
    { intros rid <-. rewrite Hr. eapply row_rep_is_Some. by eapply (hr_rows _ _ _ _ _ H). }
    split.
    + apply NoDup_app. split_and!; [apply used_slots_nodup| |done]. intros rid (<- & _)%elem_of_used_slots (Hps & _)%Hr2. done.
    + intros rid. rewrite elem_of_app, elem_of_used_slots, Hr2, elem_of_cons. specialize (Hrow rid). naive_solver.
  - intros e s2 [Hs2 Hw]. split; [by eapply same_pages_trans|]. intros Hwill. by eapply Hw, same_pages_willing.
Qed.

Lemma heap_fits s l ps M : alloc_ok s l → heap_rep h s l ps M → (length ps ≤ N.to_nat (page_count (data s)))%nat.
Proof using Type.
  intros Ha H. apply count_below; [apply H|]. intros i Hi. destruct (hr_use _ _ _ _ _ H i Hi) as [Hlt _]. pose proof (a_count _ _ Ha). lia.
Qed.

Lemma wp_scan s l ps M :
  disk_ok me None ∅ s → alloc_ok s l → heap_rep h s l ps M →
  wp (scan me h)
    (λ r s', same_pages me s s' ∧ NoDup r ∧ ∀ rid, rid ∈ r ↔ 0 ≤ rid_slot rid ∧ is_Some (M !! key rid)) (λ _ s', same_pages me s s' ∧ ¬ willing s) s.
Proof using Type.
  intros Hok Ha H. pose proof (heap_fits _ _ _ _ Ha H) as Hfit. unfold scan. apply wp_bind.
  change (wp walk_turns ?Q ?E s) with (Q (S (N.to_nat (page_count (data s)))) s). cbn beta.
  eapply wp_mono; [eapply (wp_scan_from l M ps ps); [done|done|done|apply H|done|apply H|lia]| |done].
  intros r s' [Hs [Hn Hr]]. split_and!; [done|done|]. intros rid. rewrite Hr. split; [naive_solver|]. intros [H0 Hsome].
  split_and!; try done. by apply (hr_dom _ _ _ _ _ H _ (slot_nat rid)).
Qed.
End thread.
