(* ===== verification/HeapWrites.v ===== *)
(** * Writing a heap

    [reserve], [put], [insert], [delete], [free_slot] and [create] against the rows of the heap
    ([heap_rep]): each changes the row it is given and no other. *)

From S2P Require Import Control Prelude Errors Bytes Crc Page HeapPage HeapPlace.
From S2P Require Import Wal WalFacts PageWrite PageWriteFacts WalPayload DataFile BufferPool BufferFacts PoolTheorems.
From S2P Require Import Disk DiskFacts Alloc AllocFacts PageSetFacts Heap OverflowFacts HeapFacts.

#[local] Open Scope Z_scope.

Lemma lookup_placed (slot j : nat) (x : option (list Z * bool)) rs :
  <[slot := x]> (pad slot rs) !! j ≫= id = if decide (j = slot) then x else rs !! j ≫= id.
Proof.
  unfold pad. assert (Hlen : (slot < length (rs ++ replicate (slot + 1 - length rs) None))%nat) by (rewrite length_app, length_replicate; lia).
  case_decide as Hj; [subst j; by rewrite list_lookup_insert_eq|]. rewrite list_lookup_insert_ne by done.
  destruct (decide (j < length rs)%nat); [by rewrite lookup_app_l|]. rewrite lookup_app_r, (lookup_ge_None_2 rs) by lia.
  destruct (_ !! (j - length rs)%nat) eqn:H; [|done]. by apply lookup_replicate in H as [-> _].
Qed.

Section thread.
Context (me : ThreadId) (h : Heap).

(** The row of one address replaced. *)
Definition with_row (k : PageId * nat) (row : option Row) (M : gmap (PageId * nat) Row) : gmap (PageId * nat) Row :=
  partial_alter (λ _, row) k M.

Lemma heap_chain_change s s' i rs next rs' current ps :
  heap_page s i rs next → heap_page s' i rs' next → (∀ j, j ∈ ps → j ≠ i → seen s' j = seen s j) → heap_chain s current ps → heap_chain s' current ps.
Proof using Type.
  intros Hp Hp' Hs. revert current. induction ps as [|j ps IH]; intros current; [done|]. intros (-> & rsj & nextj & Hj & Hc). split; [done|].
  destruct (decide (j = i)) as [->|Hne].
  - destruct (heap_page_inj _ _ _ _ _ _ Hp Hj) as [<- <-]. exists rs', next. split; [done|]. apply IH; [|done]. intros j Hin. apply Hs. by right.
  - exists rsj, nextj. split; [apply (heap_page_seen s); [by apply Hs; [left|]|done]|]. apply IH; [|done]. intros k Hin. apply Hs. by right.
Qed.

Section change.
Context (s s' : DiskStorage) (l l' ps : list PageId) (M : gmap (PageId * nat) Row) (i : PageId) (slot : nat).
Context (rs rs' : list (option (list Z * bool))) (next : option PageId) (c : option (list Z * bool)) (row : option Row) (n m : nat).

Lemma heap_rep_change :
  heap_rep h s l ps M → ahead me s l s' l' n m {[i]} → i ∈ ps → heap_page s i rs next → heap_page s' i rs' next →
  (∀ j, rs' !! j ≫= id = if decide (j = slot) then c else rs !! j ≫= id) → row_rep s' l' c row →
  (∀ r j, row = Some r → j ∈ r.2 → j ∉ ps ∧ ∀ k' row', M !! k' = Some row' → j ∈ row'.2 → k' = (i, slot)) →
  heap_rep h s' l' ps (with_row (i, slot) row M).
Proof using Type.
  intros H Ha Hi Hp Hp' Hrs Hrow Hids. pose proof H as [Hc Hn Hu Hr Hd Hap]. unfold with_row.
  assert (Hs : ∀ j, j ∈ ps → j ≠ i → seen s' j = seen s j) by (intros j Hj Hne; apply (h_seen _ _ _ _ _ _ _ _ Ha); [by apply Hu|set_solver]).
  assert (HX : ∀ k row' j, M !! k = Some row' → j ∈ row'.2 → j ≠ i) by (intros k row' j Hk Hj ->; by destruct (Hap k row' i Hk Hj)).
  split.
  - eapply heap_chain_change; [exact Hp|exact Hp'|exact Hs|exact Hc].
  - done.
  - intros j Hj. by apply (h_use _ _ _ _ _ _ _ _ Ha), Hu.
  - intros j rsj nextj sj Hj Hpj. destruct (decide ((j, sj) = (i, slot))) as [[= -> ->]|Hne].
    + rewrite lookup_partial_alter_eq. destruct (heap_page_inj _ _ _ _ _ _ Hp' Hpj) as [<- _]. rewrite Hrs, decide_True by done. done.
    + rewrite lookup_partial_alter_ne by done.
      assert (Hold : row_rep s l (rsj !! sj ≫= id) (M !! (j, sj))).
      { destruct (decide (j = i)) as [->|Hji].
        - destruct (heap_page_inj _ _ _ _ _ _ Hp' Hpj) as [<- _]. rewrite Hrs, decide_False by congruence. by eapply Hr.
        - eapply Hr; [done|]. eapply heap_page_seen; [|exact Hpj]. symmetry. by apply Hs. }
      eapply row_rep_ahead; [exact Ha| |exact Hold]. intros r q Hq Hin. specialize (HX (j, sj) r q Hq Hin). set_solver.
  - intros j sj. destruct (decide ((j, sj) = (i, slot))) as [[= -> ->]|Hne]; [done|]. rewrite lookup_partial_alter_ne by done. apply Hd.
  - intros k r j. destruct (decide (k = (i, slot))) as [->|Hne].
    + rewrite lookup_partial_alter_eq. intros Hrw Hj. destruct (Hids r j Hrw Hj) as [H1 H2]. split; [done|].
      intros k' row'. destruct (decide (k' = (i, slot))) as [->|Hne']; [done|]. rewrite lookup_partial_alter_ne by done. apply H2.
    + rewrite lookup_partial_alter_ne by done. intros Hk Hj. destruct (Hap k r j Hk Hj) as [H1 H2]. split; [done|].
      intros k' row'. destruct (decide (k' = (i, slot))) as [->|Hne']; [|rewrite lookup_partial_alter_ne by done; apply H2].
      rewrite lookup_partial_alter_eq. intros Hrw Hj'. destruct (Hids row' j Hrw Hj') as [_ H3]. symmetry. by eapply H3.
Qed.
End change.

(** ** The change of one page *)

Lemma placed_good i p q : page_good i p → heap_ok q → same_identity q p → page_good i q ∧ heap_next q = heap_next p.
Proof using Type. intros Hg Hq Hs. split; [apply (identity_good i p); [done|apply Hq|done]|by apply same_next]. Qed.

(** A change of a page of the heap under its pin, its number raised with it, and marked. *)
Lemma wp_change_row {R} i (change : Page → R * Page) page q lsn Q E s :
  disk_ok me (Some i) ∅ s → current s i page → (lsn ≤ u64_max)%N →
  (change page).2 = raise_lsn lsn q → page_good i q → heap_ok q →
  (∀ s1, (∀ Q', (∀ s2, disk_ok me (Some i) ∅ s2 → like s s2 → (∀ j, j ≠ i → seen s2 j = seen s j) →
      heap_page s2 i (HeapPage.records q) (heap_next q) → Q' () s2) → wp (pool_mark_dirty i lsn) Q' E s1) → Q (change page).1 s1) →
  wp (with_page_mut me i change) Q E s.
Proof using Type.
  intros Hok Hc Hl Hch Hg Hk HQ. pose proof Hg as (Hp & _).
  assert (Hrg : page_good i (raise_lsn lsn q)) by (apply (good_same_logged i q); [by apply raise_lsn_ok|by apply same_logged_raise_lsn|done]).
  eapply wp_change_at; [done|exact Hc|by rewrite Hch|]. rewrite Hch. intros s1 H1 Hl1 [Hs1 Ho1] Hc1. apply HQ. intros Q' HQ'.
  eapply wp_mark; [done|done|done|exact Hc1|]. intros s2 H2 Hl2 Hrep. apply HQ'; [done|by transitivity s1| |].
  - intros j Hj. destruct Hrep as [_ ->]; [|done]. by apply Ho1.
  - exists q. split_and!; try done. apply (holds_alike s2 i (raise_lsn lsn q)); [done|by apply same_logged_raise_lsn|].
    by eapply (holds_raise s1 s2 i lsn).
Qed.

Lemma wp_put_inline s l ps M rid bytes lsn :
  disk_ok me None ∅ s → alloc_ok s l → heap_rep h s l ps M → rid_page rid ∈ ps → Forall is_byte bytes → (lsn ≤ u64_max)%N →
  (length bytes ≤ MAX_INLINE_LEN)%nat →
  wp (put me h rid bytes lsn)
    (λ b s', ∃ rs next, heap_page s (rid_page rid) rs next ∧
      if b then takes rs (slot_nat rid) (length bytes) ∧ ahead me s l s' l 0 1 {[rid_page rid]} ∧ heap_rep h s' l ps (with_row (key rid) (Some (bytes, [])) M)
      else ¬ takes rs (slot_nat rid) (length bytes) ∧ same_pages me s s')
    (λ _ s', same_pages me s s' ∧ ¬ willing s) s.
Proof using Type.
  intros Hok Ha H Hp Hb Hl Hlen. destruct (heap_rep_page _ _ _ _ _ _ H Hp) as (rs & next & Hpage & Hid).
  unfold put. rewrite (proj2 (Nat.ltb_ge _ _)) by done. eapply wp_heap_pinned; [done..| |done].
  intros s1 page H1 Hl1 Hv1 Hc Hh Hk Hr Hn. destruct (place_at_spec page (slot_nat rid) bytes false Hk Hb) as [Hfit Hno].
  destruct (fits_at page (slot_nat rid) (length bytes)) eqn:Hf.
  - apply (fits_at_iff _ _ _ Hk) in Hf. destruct (Hfit Hf) as (q & Hq & Hkq & Hsq & Hrq).
    destruct (placed_good (rid_page rid) page q (proj1 Hh) Hkq Hsq) as [Hgq Hnq].
    apply wp_bind. set (change := λ p : Page, _). assert (Hch : change page = (true, raise_lsn lsn q)) by (unfold change; by rewrite Hq).
    eapply wp_change_row; [done|exact Hc|exact Hl|by rewrite Hch|done|done|]. rewrite Hch. cbn [fst negb]. intros s2 Hmark.
    apply wp_bind, Hmark. intros s3 H3 Hl3 Ho3 Hp3. apply wp_bind. eapply wp_in_progress; [done|]. intros s4 H4 Hl4 Hv4. apply wp_ret. split; [done|].
    intros s5 H5 Hl5 Hv5. exists rs, next. split; [done|]. cbn. split; [by rewrite <- Hr; apply room_for_takes|].
    assert (Hah : ahead me s l s5 l 0 1 {[rid_page rid]}).
    { apply like_ahead_at; [done|done| | |by apply (hr_use _ _ _ _ _ H _ Hp)].
      - transitivity s1; [done|]. transitivity s3; [done|]. by transitivity s4.
      - intros j Hj. by rewrite Hv5, Hv4, Ho3, Hv1. }
    assert (Hp5 : heap_page s5 (rid_page rid) (HeapPage.records q) next).
    { rewrite <- Hn, <- Hnq. apply (heap_page_seen s3); [by rewrite Hv5, Hv4|done]. }
    split; [done|].
    unfold key. eapply (heap_rep_change s s5 l l ps M); [done|exact Hah|done|exact Hpage|exact Hp5| | |].
    + intros j. rewrite Hrq, Hr. apply lookup_placed.
    + done.
    + intros r j [= <-] []%not_elem_of_nil.
  - assert (Hnr : ¬ room_for page (slot_nat rid) (length bytes)) by (intros Hrm%(fits_at_iff _ _ _ Hk); congruence).
    apply wp_bind. set (change := λ p : Page, _). assert (Hch : change page = (false, page)) by (unfold change; by rewrite (Hno Hnr)).
    eapply wp_change_nothing; [done|exact Hc|by rewrite Hch|]. rewrite Hch. cbn [fst negb]. intros s2 H2 Hl2 Hv2. apply wp_ret. split; [done|].
    intros s3 H3 Hl3 Hv3. exists rs, next. split; [done|]. cbn. split; [rewrite <- Hr; by rewrite <- room_for_takes|].
    split_and!; [done|transitivity s1; [done|by transitivity s2]|intros j; by rewrite Hv3, Hv2].
Qed.

(** The commit of one page of the heap. *)
Lemma wp_commit_row set i before q on_page s l :
  disk_ok me None ∅ s → alloc_ok s l → in_use s l i → staged set = [mkStaged i before q] → holds s i before → page_good i q → heap_ok q →
  page_hook me on_page →
  wp (commit me set on_page) (λ _ s', ahead me s l s' l 0 1 {[i]} ∧ heap_page s' i (HeapPage.records q) (heap_next q))
    (λ _ s', kept me s l s' l {[i]} ∧ ¬ can_grow s 0 1) s.
Proof using Type.
  intros Hok Ha [Hlt Hni] Hset Hb Hg Hk Hh. eapply wp_mono; [apply (wp_commit_ahead me set on_page s l {[i]} 1); [done|done| |done| | | |by rewrite Hset|lia]| |].
  - rewrite Hset. split; [apply NoDup_singleton|by intros st ->%list_elem_of_singleton..].
  - rewrite Hset. cbn. set_solver.
  - intros j ->%elem_of_singleton. done.
  - rewrite Hset. unfold PAGES_PER_RECORD. cbn. lia.
  - intros _ s' [H1 H2]. split; [done|]. exists q. split_and!; try done. apply (H2 (mkStaged i before q)). rewrite Hset. by left.
  - intros e s' [H1 H2]. by split.
Qed.

Lemma like_in_use s s' l i : like s s' → in_use s l i → in_use s' l i.
Proof using Type. intros Hl. unfold in_use. by rewrite (l_control _ _ Hl). Qed.

(** The stub placed where there is room for it. *)
Lemma wp_place_stub s l ps M rid payload rs next bytes ids chunks head lsn :
  disk_ok me None ∅ s → alloc_ok s l → heap_rep h s l ps M → rid_page rid ∈ ps → heap_page s (rid_page rid) rs next →
  takes rs (slot_nat rid) STUB_LEN → stub (Z.of_nat (length bytes)) head = Ok payload → chain_at s l (Some head) ids chunks → concat chunks = bytes →
  (∀ j, j ∈ ids → j ∉ ps ∧ ∀ k row, M !! k = Some row → j ∉ row.2) → (lsn ≤ u64_max)%N →
  wp (written ← set_write me (PageSet_new true) (rid_page rid) (place_at (slot_nat rid) payload true);
      if negb written.1 then fail (Bug ([Lit "record of "; Num (N.of_nat (length payload)); Lit " bytes does not fit at "] ++ show_rid rid ++
        [Lit " of table "; Num (table h); Lit " after the room was checked"]))
      else
        _ ← commit me written.2 (λ id, _ ← pool_mark_dirty id lsn; pool_set_in_progress id false);
        _ ← wal_flush;
        mret true)
    (λ b s', b = true ∧ ahead me s l s' l 0 1 {[rid_page rid]} ∧ heap_rep h s' l ps (with_row (key rid) (Some (bytes, ids)) M))
    (λ _ s', kept me s l s' l {[rid_page rid]} ∧ ¬ can_grow s 0 1) s.
Proof using Type.
  intros Hok Ha H Hp Hpage Ht Hst Hc Hb Hids Hl. destruct (hr_use _ _ _ _ _ H _ Hp) as [Hid Hni].
  assert (Hhead : (head ≤ u64_max)%N) by (pose proof (overflow_at_link _ _ _ _ _ Ha (ca_at _ _ _ _ _ Hc)); cbn in *; lia).
  destruct (stub_spec _ _ _ Hst ltac:(lia) Hhead) as (Hlen & Hby & Htot & Hhd).
  apply wp_bind. apply wp_stage; [done|done|set_solver| |].
  2: { intros e s1 H1 Hl1 Hv1 Hw. split; [eapply kept_mono; [eapply ahead_kept, like_ahead|]; done || set_solver|].
       intros Hg. apply Hw; [by eapply heap_page_is_Some|by eapply can_grow_willing]. }
  intros s1 before H1 Hl1 Hv1 Hbefore. destruct (heap_page_holds _ _ _ _ _ Hpage Hbefore) as (Hk & Hr & Hn).
  destruct (place_at_spec before (slot_nat rid) payload true Hk Hby) as [Hfit _].
  destruct (Hfit ltac:(apply room_for_takes; by rewrite Hlen, Hr)) as (q & Hq & Hkq & Hsq & Hrq). rewrite Hq. cbn [fst snd negb].
  destruct (placed_good (rid_page rid) before q (proj1 Hbefore) Hkq Hsq) as [Hgq Hnq].
  pose proof (like_ahead me s l s1 H1 Ha Hl1 Hv1) as Hah1. apply wp_bind.
  eapply wp_mono; [eapply (wp_commit_row _ (rid_page rid) before q); [done|apply Hah1|by eapply like_in_use|done|by apply (holds_seen s)|done|done|by apply hook_mark]| |].
  2: { intros e s2 [Hk2 Hno]. split; [eapply kept_trans; [by eapply ahead_kept|exact Hk2|set_solver]|].
       intros Hg. apply Hno. by apply (ahead_grow _ _ _ _ _ _ _ _ 0 1 Hah1). }
  intros _ s2 [Hah2 Hp2]. apply wp_bind.
  assert (H02 : ahead me s l s2 l 0 1 {[rid_page rid]}) by (eapply (ahead_trans me _ _ _ _ _ _ 0 0 0 1); [exact Hah1|exact Hah2|set_solver]).
  eapply wp_mono; [apply (wp_flush_ahead me s2 l); apply Hah2| |].
  - intros [] s3 Hah3. apply wp_ret. split; [done|].
    assert (H03 : ahead me s l s3 l 0 1 {[rid_page rid]}) by (eapply (ahead_trans me _ _ _ _ _ _ 0 1 0 0); [exact H02|exact Hah3|set_solver]).
    split; [done|]. unfold key. eapply (heap_rep_change s s3 l l ps M); [done|exact H03|done|exact Hpage| | | |].
    + rewrite <- Hn, <- Hnq. apply (heap_page_seen s2); [|exact Hp2]. apply (h_seen _ _ _ _ _ _ _ _ Hah3); [|set_solver]. by apply (h_use _ _ _ _ _ _ _ _ H02).
    + intros j. rewrite Hrq, Hr. apply lookup_placed.
    + cbn [row_rep]. exists head, chunks. split_and!; try done. eapply chain_at_ahead; [exact H03| |exact Hc].
      intros j Hj. destruct (Hids j Hj) as [Hnps _]. set_solver.
    + intros r j [= <-] Hj. cbn in Hj. destruct (Hids j Hj) as [Hnps Hnr]. split; [done|]. intros k row Hrow Hin. by destruct (Hnr k row Hrow).
  - intros e s3 [Hk3 Hw]. split; [eapply kept_trans; [by eapply ahead_kept|exact Hk3|set_solver]|].
    intros Hg. apply Hw. by eapply can_grow_willing, (ahead_grow _ _ _ _ _ _ _ _ 0 0 H02).
Qed.

(** The pages and the writes of a page a record of [len] bytes takes in a heap. *)
Definition put_pages (len : nat) : nat := if (MAX_INLINE_LEN <? len)%nat then overflow_pages len else 0.
Definition put_writes (len : nat) : nat := if (MAX_INLINE_LEN <? len)%nat then S (overflow_writes len) else 1.
Definition stored_len (len : nat) : nat := if (MAX_INLINE_LEN <? len)%nat then STUB_LEN else len.

(** The record is written at its address, over the row it held, or the page has no room. *)
Definition was_put (s s' : DiskStorage) (l ps : list PageId) (M : gmap (PageId * nat) Row) (rid : Rid) (bytes : list Z) (m : nat) (b : bool) : Prop :=
  ∃ rs next, heap_page s (rid_page rid) rs next ∧
    if b then takes rs (slot_nat rid) (stored_len (length bytes)) ∧ ∃ l' ids,
      ahead me s l s' l' (put_pages (length bytes)) m {[rid_page rid]} ∧ heap_rep h s' l' ps (with_row (key rid) (Some (bytes, ids)) M) ∧
      ∀ i, i ∈ ids → ¬ in_use s l i
    else ¬ takes rs (slot_nat rid) (stored_len (length bytes)) ∧ same_pages me s s'.

(** The length of a long record fits its stub. *)
Definition stub_fits (bytes : list Z) : Prop := Z.of_nat (length bytes) ≤ Z.of_N u32_max.

Lemma wp_put_long s l ps M rid bytes lsn :
  disk_ok me None ∅ s → alloc_ok s l → heap_rep h s l ps M → rid_page rid ∈ ps → Forall is_byte bytes → (lsn ≤ u64_max)%N →
  (MAX_INLINE_LEN < length bytes)%nat →
  wp (put_long me h rid bytes lsn) (λ b s', was_put s s' l ps M rid bytes (put_writes (length bytes)) b)
    (λ _ s', (∃ l', kept me s l s' l' {[rid_page rid]}) ∧
      (stub_fits bytes → ¬ can_grow s (put_pages (length bytes)) (put_writes (length bytes)))) s.
Proof using Type.
  intros Hok Ha H Hp Hb Hl Hlen. destruct (heap_rep_page _ _ _ _ _ _ H Hp) as (rs & next & Hpage & Hid).
  unfold was_put, put_pages, put_writes, stored_len. rewrite (proj2 (Nat.ltb_lt _ _)) by done.
  set (P := overflow_pages (length bytes)). set (R := overflow_writes (length bytes)).
  assert (Hno : ∀ s', same_pages me s s' → ¬ willing s → (∃ l', kept me s l s' l' {[rid_page rid]}) ∧ (stub_fits bytes → ¬ can_grow s P (S R))).
  { intros s' Hs Hw. split; [exists l; eapply kept_mono; [by eapply ahead_kept, same_pages_ahead|set_solver]|]. intros _ Hg. by eapply Hw, can_grow_willing. }
  unfold put_long. apply wp_bind. eapply wp_heap_read; [done..| |intros; by apply Hno]. intros s1 page Hs1 Hh Hk Hr Hn.
  pose proof (same_pages_ahead me s l s1 Ha Hs1) as H1. pose proof (fits_at_iff page (slot_nat rid) STUB_LEN Hk) as Hf.
  rewrite room_for_takes, Hr in Hf. destruct (fits_at page (slot_nat rid) STUB_LEN); cbn [negb].
  2: { apply wp_ret. exists rs, next. split; [done|]. split; [|done]. intros Ht%Hf. done. }
  apply proj1 in Hf. specialize (Hf eq_refl). pose proof (heap_rep_same me h s s1 l ps M Ha Hs1 H) as Hrep1.
  apply wp_bind. eapply wp_mono; [apply (wp_write_overflow_chain me h bytes s1 l); [apply H1|apply H1|done|by intros ->; cbn in Hlen; lia]| |].
  2: { intros e s2 [[l2 Hk2] Hg2]. split; [exists l2; eapply kept_trans; [by eapply ahead_kept|exact Hk2|set_solver]|].
       intros _ Hg. apply Hg2. apply (ahead_grow _ _ _ _ _ _ _ _ P R H1). eapply can_grow_le; [exact Hg|lia|lia]. }
  intros head s2 (l2 & ids & chunks & H2 & Hc2 & Hcat & Hnew).
  assert (H02 : ahead me s l s2 l2 P R ∅) by (eapply (ahead_trans me _ _ _ _ _ _ 0 0); [exact H1|exact H2|set_solver]).
  apply wp_bind, wp_lift.
  2: { intros e Hst. split; [exists l2; eapply kept_mono; [by eapply ahead_kept|set_solver]|]. intros Hfit. exfalso. revert Hst. unfold stub.
       unfold stub_fits in Hfit. by rewrite (proj2 (Z.ltb_ge _ _)). }
  intros payload Hst. assert (Hrep2 : heap_rep h s2 l2 ps M) by (eapply heap_rep_ahead; [exact H02|set_solver|set_solver|done]).
  assert (Hp2 : heap_page s2 (rid_page rid) rs next).
  { apply (heap_page_seen s); [|done]. apply (h_seen _ _ _ _ _ _ _ _ H02); [by apply (hr_use _ _ _ _ _ H)|set_solver]. }
  assert (Hni : ∀ j, j ∈ ids → ¬ in_use s l j).
  { intros j Hj Hin. by apply (Hnew j Hj), (h_use _ _ _ _ _ _ _ _ H1). }
  eapply wp_mono; [eapply (wp_place_stub s2 l2 ps M rid payload rs next bytes ids chunks head lsn); try done; [apply H2|apply H2|]| |].
  - intros j Hj. split; [intros Hin; by apply (Hni j Hj), (hr_use _ _ _ _ _ H)|]. intros k row Hrow Hin.
    apply (Hni j Hj). by eapply heap_rep_ids.
  - intros b s3 (-> & H3 & Hrep3). exists rs, next. split; [done|]. split; [done|]. exists l2, ids. split_and!; [|done|done].
    rewrite <- (Nat.add_0_r P), <- (Nat.add_1_r R). eapply ahead_trans; [exact H02|exact H3|set_solver].
  - intros e s3 [Hk3 Hg3]. split; [exists l2; eapply kept_trans; [by eapply ahead_kept|exact Hk3|set_solver]|].
    intros _ Hg. apply Hg3. apply (ahead_grow _ _ _ _ _ _ _ _ 0 1 H02). eapply can_grow_le; [exact Hg|lia|lia].
Qed.

Lemma wp_put s l ps M rid bytes lsn :
  disk_ok me None ∅ s → alloc_ok s l → heap_rep h s l ps M → rid_page rid ∈ ps → Forall is_byte bytes → (lsn ≤ u64_max)%N →
  wp (put me h rid bytes lsn) (λ b s', was_put s s' l ps M rid bytes (put_writes (length bytes)) b)
    (λ _ s', (∃ l', kept me s l s' l' {[rid_page rid]}) ∧
      (stub_fits bytes → ¬ can_grow s (put_pages (length bytes)) (put_writes (length bytes)))) s.
Proof using Type.
  intros Hok Ha H Hp Hb Hl. destruct (decide (length bytes ≤ MAX_INLINE_LEN)%nat) as [Hle|Hgt].
  - eapply wp_mono; [by apply (wp_put_inline s l ps M)| |].
    + intros b s' (rs & next & Hpage & Hcase). exists rs, next. split; [done|]. unfold stored_len, put_pages, put_writes.
      rewrite (proj2 (Nat.ltb_ge _ _)) by done. destruct b; [|done]. destruct Hcase as (? & ? & ?). split; [done|].
      exists l, []. split_and!; [done|done|by intros i []%not_elem_of_nil].
    + intros e s' [Hs Hw]. split; [exists l; eapply kept_mono; [by eapply ahead_kept, same_pages_ahead|set_solver]|].
      intros _ Hg. by eapply Hw, can_grow_willing.
  - unfold put. rewrite (proj2 (Nat.ltb_lt _ _)) by lia. apply wp_put_long; try done. lia.
Qed.
End thread.

(** * Releasing the records of a heap

    [delete] and [free_slot] against the rows of the heap: the row is gone, the pages of its
    overflow chain are on the free list, and every other row is as it was. *)

Section release.
Context (me : ThreadId).

(** The pages [ids] are freed; all else is as it was. *)
Record released (s : DiskStorage) (l : list PageId) (s' : DiskStorage) (l' : list PageId) (ids : list PageId) : Prop := {
  rl_ok : disk_ok me None ∅ s';
  rl_list : alloc_ok s' l';
  rl_next : Control.next_page_id (control s') = Control.next_page_id (control s);
  rl_size : same_size (pool s) (pool s');
  rl_last : last_lsn (wal s') = last_lsn (wal s);
  rl_use i : in_use s l i → i ∉ ids → in_use s' l' i;
  rl_seen i : i ∉ ids → seen s' i = seen s i;
}.

(** The system refuses nothing, and the numbers of the pages are in the journal. *)
Definition can_release (s : DiskStorage) (ids : list PageId) : Prop :=
  willing s ∧ ∀ i, i ∈ ids → ∃ page, seen s i = Some page ∧ (Page.lsn page ≤ last_lsn (wal s))%N.

Lemma released_trans s1 l1 s2 l2 s3 l3 ids ids' :
  released s1 l1 s2 l2 ids → released s2 l2 s3 l3 ids' → released s1 l1 s3 l3 (ids ++ ids').
Proof using Type.
  intros [? ? Hn1 [] Hl1 Hu1 Hs1] [? ? Hn2 [] Hl2 Hu2 Hs2]. split; try congruence; [split; congruence| |].
  - intros i Hi Hni. apply Hu2; [apply Hu1; [done|]|]; set_solver.
  - intros i Hni. rewrite Hs2, Hs1; set_solver.
Qed.

Lemma wp_free_all ids : ∀ s l,
  disk_ok me None ∅ s → alloc_ok s l → NoDup ids → (∀ i, i ∈ ids → in_use s l i) →
  wp (for_each (free me) ids)
    (λ _ s', released s l s' (reverse ids ++ l) ids ∧ (answers s = [] → answers s' = []))
    (λ _ s', (∃ l', released s l s' l' ids) ∧ ¬ can_release s ids) s.
Proof using Type.
  induction ids as [|id ids IH]; intros s l Hok Ha Hnd Hu; cbn [for_each].
  { apply wp_ret. split; [|done]. by split. }
  apply NoDup_cons in Hnd as [Hni Hnd]. destruct (Hu id ltac:(by left)) as [Hlt Hnl].
  apply wp_bind. eapply wp_mono; [by apply (wp_free me l id s)| |].
  - intros [] s1 Hf. assert (H1 : released s l s1 (id :: l) [id]).
    { destruct Hf as [Hok1 Ha1 Hc1 _ Hs1 Hl1 _ Hz1 _ _]. split; try done; [by rewrite Hc1| |].
      - intros i [Hi Hil] Hne. split; [by rewrite Hc1|]. set_solver.
      - intros i Hi. apply Hs1. set_solver. }
    eapply wp_mono; [apply (IH s1 (id :: l)); [apply Hf|apply Hf|done|]| |].
    + intros i Hi. apply (rl_use _ _ _ _ _ H1); [apply Hu; by right|]. intros ->%list_elem_of_singleton. done.
    + intros _ s2 [H2 Han]. rewrite reverse_cons, <- app_assoc. split; [by apply (released_trans _ _ _ _ _ _ [id] ids H1 H2)|].
      intros Hs. by apply Han, Hf.
    + intros e s2 [[l2 H2] Hno]. split; [exists l2; by apply (released_trans _ _ _ _ _ _ [id] ids H1 H2)|].
      intros [[Has Hcap] Hp]. apply Hno. split.
      * split; [by apply Hf|]. apply (room_ties 0 0 s); [apply ties_none, Hf|apply (fr_size _ _ _ _ _ Hf)|done].
      * intros i Hi. destruct (Hp i ltac:(by right)) as (page & Hpage & Hle). exists page. rewrite (fr_seen _ _ _ _ _ Hf) by congruence.
        by rewrite (fr_last _ _ _ _ _ Hf).
  - intros e s1 [[Hok1 Ha1 Hc1 Hs1 Hl1 Hz1] Hno]. split.
    + exists l. split; try done; [by rewrite Hc1|intros i [Hi Hil] _; split; [by rewrite Hc1|done]|]. intros i Hi. apply Hs1. set_solver.
    + intros [Hw Hp]. apply Hno. destruct (Hp id ltac:(by left)) as (page & Hpage & Hle). split_and!; [done|done|eauto].
Qed.

Section heap.
Context (h : Heap).

Lemma wp_free_overflow s l record bytes ids :
  disk_ok me None ∅ s → alloc_ok s l → record_rep s l (Some record) (Some (bytes, ids)) →
  wp (free_overflow me record)
    (λ _ s', released s l s' (reverse ids ++ l) ids ∧ (answers s = [] → answers s' = []))
    (λ _ s', (∃ l', released s l s' l' ids) ∧ ¬ can_release s ids) s.
Proof using Type.
  intros Hok Ha Hr. destruct record as [b|total head]; cbn [free_overflow record_rep] in *.
  { destruct Hr as [_ ->]. apply wp_ret. by split; [split|]. }
  destruct Hr as (_ & chunks & Hc & _). apply wp_bind. eapply wp_mono; [by apply (wp_overflow_chain me head s l ids chunks)| |].
  - intros r s1 [-> Hs1]. assert (H1 : released s l s1 l []).
    { destruct Hs1 as (Hok1 & [_ Hct _ Hw Hz _ _] & Hv). split; try done; rewrite ?Hct, ?Hw; try done.
      - apply (alloc_ok_ext s); try done. apply Hz.
      - intros i [Hi Hil] _. split; [by rewrite Hct|done]. }
    eapply wp_mono; [apply (wp_free_all ids s1 l); [apply H1|apply H1|apply Hc|]| |].
    + intros i Hi. apply (rl_use _ _ _ _ _ H1); [by apply Hc|apply not_elem_of_nil].
    + intros _ s2 [H2 Han]. split; [by apply (released_trans _ _ _ _ _ _ [] ids H1 H2)|]. intros Hs. by apply Han, Hs1.
    + intros e s2 [[l2 H2] Hno]. split; [exists l2; by apply (released_trans _ _ _ _ _ _ [] ids H1 H2)|].
      intros [Hw Hp]. apply Hno. split; [by eapply same_pages_willing|]. intros i Hi. rewrite (rl_seen _ _ _ _ _ H1), (rl_last _ _ _ _ _ H1) by apply not_elem_of_nil.
      by apply Hp.
  - intros e s1 [Hs1 Hno]. split; [|intros [Hw _]; done]. exists l. destruct Hs1 as (Hok1 & [_ Hct _ Hw Hz _ _] & Hv).
    split; try done; rewrite ?Hct, ?Hw; try done; [apply (alloc_ok_ext s); try done; apply Hz|].
    intros i [Hi Hil] _. split; [by rewrite Hct|done].
Qed.

(** A heap that holds none of the pages freed is as it was. *)
Lemma heap_rep_released s l s' l' ids ps M :
  released s l s' l' ids → (∀ i, i ∈ ids → i ∉ ps) → (∀ k row i, M !! k = Some row → i ∈ row.2 → i ∉ ids) →
  heap_rep h s l ps M → heap_rep h s' l' ps M.
Proof using Type.
  intros [_ _ Hn _ _ Hu Hs] Hps HM H. apply (heap_rep_kept h s l); [|done]. intros i Hi.
  assert (Hni : i ∉ ids) by (destruct Hi as [Hi|(k & row & Hk & Hi)]; [intros Hin; by apply (Hps i)|by eapply HM]).
  split; [|by apply Hs]. apply Hu; [|done]. by eapply heap_pages_use.
Qed.

(** ** The slot freed *)

Lemma free_slot_page i rs next s slot page :
  heap_page s i rs next → holds s i page → is_Some (rs !! slot ≫= id) →
  let q := write_slot slot 0 0 page in
  page_good i q ∧ heap_ok q ∧ heap_next q = next ∧ ∀ j, HeapPage.records q !! j ≫= id = if decide (j = slot) then None else rs !! j ≫= id.
Proof using Type.
  intros Hp Hh Hs q. destruct (heap_page_holds _ _ _ _ _ Hp Hh) as (Hk & Hr & Hn).
  assert (Hlt : (slot < slots page)%nat).
  { rewrite <- length_records, Hr. apply lookup_lt_is_Some. destruct (rs !! slot); [by eexists|by destruct Hs]. }
  destruct (free_entry_spec page Hk slot Hlt) as (Hkq & Hrq & Hhd). fold q in Hkq, Hrq, Hhd.
  destruct (placed_good i page q (proj1 Hh) Hkq (same_head_identity _ _ Hhd)) as [Hg Hnq]. split_and!; [done|done|congruence|].
  intros j. rewrite Hrq, Hr. case_decide as Hj; [subst j; rewrite list_lookup_insert_eq; [done|by rewrite <- Hr, length_records]|].
  by rewrite list_lookup_insert_ne.
Qed.

Lemma heap_rep_freed s l s' ps M rid rs next rs' m :
  heap_rep h s l ps M → ahead me s l s' l 0 m {[rid_page rid]} → rid_page rid ∈ ps → heap_page s (rid_page rid) rs next →
  heap_page s' (rid_page rid) rs' next → (∀ j, rs' !! j ≫= id = if decide (j = slot_nat rid) then None else rs !! j ≫= id) →
  heap_rep h s' l ps (with_row (key rid) None M).
Proof using Type. intros H Ha Hp Hpg Hpg' Hrs. by eapply (heap_rep_change me h s s' l l ps M (rid_page rid) (slot_nat rid) rs rs' next None None). Qed.

Lemma record_rep_ahead s l s' l' n m (X : gset PageId) record row :
  ahead me s l s' l' n m X → (∀ r i, row = Some r → i ∈ r.2 → i ∉ X) → record_rep s l record row → record_rep s' l' record row.
Proof using Type.
  intros Ha HX. destruct record as [[b|total head]|], row as [[bytes ids]|]; cbn [record_rep]; try done.
  intros (Ht & chunks & Hc & Hb). split; [done|]. exists chunks. split; [|done]. eapply chain_at_ahead; [exact Ha| |exact Hc].
  intros i Hi. by eapply HX.
Qed.

(** Every page in use but those of [X] is as it was, and in use. *)
Record kept_but (s : DiskStorage) (l : list PageId) (s' : DiskStorage) (l' : list PageId) (X : gset PageId) : Prop := {
  kb_ok : disk_ok me None ∅ s';
  kb_list : alloc_ok s' l';
  kb_kept i : in_use s l i → i ∉ X → in_use s' l' i ∧ seen s' i = seen s i;
}.

Lemma kept_released s l s1 l1 s2 l2 (X : gset PageId) ids :
  kept me s l s1 l1 X → released s1 l1 s2 l2 ids → kept_but s l s2 l2 (X ∪ list_to_set ids).
Proof using Type.
  intros [_ _ Hu Hs] [Hok Ha _ _ _ Hu2 Hs2]. split; [done|done|]. intros i Hi Hni. assert (i ∉ ids) by set_solver.
  split; [auto|]. rewrite Hs2 by done. apply Hs; [done|set_solver].
Qed.

Definition row_gone (s : DiskStorage) (l : list PageId) (s' : DiskStorage) (ps : list PageId) (M : gmap (PageId * nat) Row) (rid : Rid) (b : bool) : Prop :=
  match M !! key rid with
  | None => b = false ∧ same_pages me s s'
  | Some row => b = true ∧ heap_rep h s' (reverse row.2 ++ l) ps (with_row (key rid) None M) ∧
      kept_but s l s' (reverse row.2 ++ l) ({[rid_page rid]} ∪ list_to_set row.2)
  end.

Definition row_ids (M : gmap (PageId * nat) Row) (rid : Rid) : list PageId := from_option snd [] (M !! key rid).

(** The end of the two operations: the slot is free, and the chain is to be freed. *)
Lemma wp_free_chain s l s1 ps M rid record row m :
  alloc_ok s l → heap_rep h s l ps M → ahead me s l s1 l 0 m {[rid_page rid]} → rid_page rid ∈ ps → M !! key rid = Some row →
  record_rep s l (Some record) (Some row) → heap_rep h s1 l ps (with_row (key rid) None M) →
  wp (_ ← free_overflow me record; mret true) (λ b s', row_gone s l s' ps M rid b)
    (λ _ s', (∃ l', kept_but s l s' l' ({[rid_page rid]} ∪ list_to_set (row_ids M rid))) ∧
      (can_grow s 0 m → ¬ can_release s (row_ids M rid))) s1.
Proof using Type.
  intros Ha H Hah Hp HM Hr Hrep. destruct row as [bytes ids]. unfold row_gone, row_ids. rewrite HM. cbn [from_option snd].
  assert (Hapart : ∀ i, i ∈ ids → i ∉ ps ∧ ∀ k' row', M !! k' = Some row' → i ∈ row'.2 → k' = key rid) by (intros i Hi; by apply (hr_apart _ _ _ _ _ H (key rid) (bytes, ids))).
  assert (Hr1 : record_rep s1 l (Some record) (Some (bytes, ids))).
  { eapply record_rep_ahead; [exact Hah| |exact Hr]. intros r i [= <-] Hi. cbn in Hi. destruct (Hapart i Hi). set_solver. }
  apply wp_bind. eapply wp_mono; [apply (wp_free_overflow s1 l record bytes ids); [apply Hah|apply Hah|done]| |].
  - intros _ s2 [H2 _]. apply wp_ret. split_and!; [done| |eapply kept_released; [by eapply ahead_kept|done]].
    eapply heap_rep_released; [exact H2|intros i Hi; by apply Hapart| |exact Hrep].
    intros k row i. unfold with_row. destruct (decide (k = key rid)) as [->|Hne]; [by rewrite lookup_partial_alter_eq|].
    rewrite lookup_partial_alter_ne by done. intros Hk Hi Hin. destruct (Hapart i Hin) as [_ Hall]. by apply Hne, (Hall k row).
  - intros e s2 [[l2 H2] Hno]. split; [exists l2; eapply kept_released; [by eapply ahead_kept|done]|].
    intros Hg [_ Hpg]. apply Hno. split.
    + eapply can_grow_willing, (ahead_grow _ _ _ _ _ _ _ _ 0 0 Hah). by rewrite !Nat.add_0_r.
    + intros i Hi. destruct (Hpg i Hi) as (page & Hpage & Hle). exists page. pose proof (h_last _ _ _ _ _ _ _ _ Hah). split; [|lia].
      rewrite (h_seen _ _ _ _ _ _ _ _ Hah); [done| |destruct (Hapart i Hi); set_solver]. by apply (heap_rep_ids h s l ps M (key rid) (bytes, ids)).
Qed.

Lemma wp_check_heap_page i rs next s :
  disk_ok me None ∅ s → (i < Control.next_page_id (control s))%N → heap_page s i rs next →
  wp (check_heap_page me h i) (λ _ s', same_pages me s s') (λ _ s', same_pages me s s' ∧ ¬ willing s) s.
Proof using Type.
  intros Hok Hid Hp. unfold check_heap_page. apply wp_pinned_for; [done|done| |].
  - intros s1 H1 Hl1 Hv1 _. destruct (held_frame me ∅ s1 i H1) as (slot & f & _ & _ & _ & _ & _ & Hg & Hc & Hsn).
    destruct (heap_page_holds _ _ _ _ _ (heap_page_seen _ s1 _ _ _ (Hv1 i) Hp) (seen_holds s1 _ _ Hg Hsn)) as (Hk & _).
    unfold check_heap. apply wp_bind. eapply wp_read; [done|]. intros page Hc' _ _. assert (page = f_page f) as -> by (unfold current in *; congruence).
    rewrite (ho_kind _ Hk). apply wp_bind, wp_lift; [|done]. intros k [= <-]. apply wp_ret. split; [done|].
    intros s3 H3 Hl3 Hv3. split_and!; [done|by transitivity s1|intros j; by rewrite Hv3].
  - intros e s' H' Hl Hv Hw. split; [done|]. apply Hw. by eapply heap_page_is_Some.
Qed.

Lemma row_slot s l ps M rid rs next row : heap_rep h s l ps M → rid_page rid ∈ ps → heap_page s (rid_page rid) rs next →
  M !! key rid = Some row → is_Some (rs !! slot_nat rid ≫= id).
Proof using Type.
  intros H Hp Hpage HM. pose proof (hr_rows _ _ _ _ _ H _ rs next (slot_nat rid) Hp Hpage) as Hr. fold (key rid) in Hr. rewrite HM in Hr.
  apply (row_rep_is_Some _ _ _ _ Hr). by eexists.
Qed.

Definition not_gone (s : DiskStorage) (l : list PageId) (s' : DiskStorage) (M : gmap (PageId * nat) Row) (rid : Rid) : Prop :=
  ∃ l', kept_but s l s' l' ({[rid_page rid]} ∪ list_to_set (row_ids M rid)).

Lemma same_not_gone s l s' M rid : alloc_ok s l → same_pages me s s' → not_gone s l s' M rid.
Proof using Type.
  intros Ha Hs. pose proof (same_pages_ahead me s l s' Ha Hs) as Hah. exists l. split; [apply Hah|apply Hah|]. intros i Hi _.
  split; [by apply (h_use _ _ _ _ _ _ _ _ Hah)|apply Hs].
Qed.

Lemma kept_not_gone s l s' M rid : kept me s l s' l {[rid_page rid]} → not_gone s l s' M rid.
Proof using Type. intros [Hok Ha Hu Hs]. exists l. split; [done|done|]. intros i Hi Hn. split; [auto|]. apply Hs; [done|set_solver]. Qed.

Lemma wp_delete s l ps M rid :
  disk_ok me None ∅ s → alloc_ok s l → heap_rep h s l ps M → rid_page rid ∈ ps →
  wp (Heap.delete me h rid) (λ b s', row_gone s l s' ps M rid b)
    (λ _ s', not_gone s l s' M rid ∧ (can_grow s 0 1 → ¬ can_release s (row_ids M rid))) s.
Proof using Type.
  intros Hok Ha H Hp. destruct (heap_rep_page _ _ _ _ _ _ H Hp) as (rs & next & Hpage & Hid).
  assert (Hno : ∀ s', same_pages me s s' → ¬ willing s → not_gone s l s' M rid ∧ (can_grow s 0 1 → ¬ can_release s (row_ids M rid))).
  { intros s' Hs Hw. split; [by apply same_not_gone|]. intros Hg _. by eapply Hw, can_grow_willing. }
  unfold Heap.delete. apply wp_bind. eapply wp_mono; [by eapply wp_check_heap_page| |intros e s1 [Hs1 Hw]; by apply Hno].
  intros [] s1 Hs1. pose proof (same_pages_ahead me s l s1 Ha Hs1) as H1. apply wp_bind. unfold set_read. cbn [List.find staged PageSet_new].
  apply wp_pinned_read; [apply Hs1|by rewrite (l_control _ _ (proj1 (proj2 Hs1)))| |].
  2: { intros e s2 H2 Hl2 Hv2 Hw. apply Hno; [by eapply same_pages_trans; [exact Hs1|split_and!]|]. intros Hwill.
       apply Hw; [rewrite (proj2 (proj2 Hs1)); by eapply heap_page_is_Some|by eapply same_pages_willing]. }
  intros s2 page H2 Hl2 Hv2 Hh. assert (Hs2 : same_pages me s s2) by (eapply same_pages_trans; [exact Hs1|by split_and!]).
  pose proof (same_pages_ahead me s l s2 Ha Hs2) as H02. assert (Hh0 : holds s (rid_page rid) page) by (apply (holds_seen s1); [symmetry; apply Hs1|done]).
  destruct (heap_page_holds _ _ _ _ _ Hpage Hh0) as (Hk & Hr & Hn).
  pose proof (hr_rows _ _ _ _ _ H (rid_page rid) rs next (slot_nat rid) Hp Hpage) as Hrow. rewrite <- Hr in Hrow. fold (key rid) in Hrow.
  destruct (row_record _ _ _ _ _ Hk Hrow) as (r & -> & Hrec). apply wp_bind, wp_lift; [|done]. intros r' [= <-].
  destruct r as [record|].
  2: { apply wp_ret. unfold row_gone. by destruct (M !! key rid) as [[]|]. }
  destruct (M !! key rid) as [row|] eqn:HM; [|by destruct record].
  assert (Hp2 : heap_page s2 (rid_page rid) rs next) by (apply (heap_page_seen s); [apply Hs2|done]).
  pose proof (row_slot _ _ _ _ _ _ _ _ H Hp Hpage HM) as Hslot.
  apply wp_bind. apply wp_stage; [done|apply (like_in_use s s2 l); [apply Hs2|by apply (hr_use _ _ _ _ _ H)]|set_solver| |].
  2: { intros e s3 H3 Hl3 Hv3 Hw. apply Hno; [by eapply same_pages_trans; [exact Hs2|split_and!]|]. intros Hwill.
       apply Hw; [by eapply heap_page_is_Some|by eapply same_pages_willing]. }
  intros s3 before H3 Hl3 Hv3 Hbefore. cbn [changing fst snd]. assert (Hs3 : same_pages me s s3) by (eapply same_pages_trans; [exact Hs2|by split_and!]).
  pose proof (same_pages_ahead me s l s3 Ha Hs3) as H03.
  destruct (free_slot_page _ _ _ _ _ _ Hp2 Hbefore Hslot) as (Hgq & Hkq & Hnq & Hrq). apply wp_bind.
  eapply wp_mono; [eapply (wp_commit_row me _ (rid_page rid) before (write_slot (slot_nat rid) 0 0 before));
    [done|apply H03|apply (h_use _ _ _ _ _ _ _ _ H03), (hr_use _ _ _ _ _ H), Hp|done|by apply (holds_seen s2)|done|done|apply hook_nothing]| |].
  - intros _ s4 [H4 Hp4]. assert (H04 : ahead me s l s4 l 0 1 {[rid_page rid]}) by (eapply (ahead_trans me _ _ _ _ _ _ 0 0 0 1); [exact H03|exact H4|set_solver]).
    rewrite Hnq in Hp4. eapply wp_mono; [eapply (wp_free_chain s l s4 ps M rid record row 1); try done|done|].
    + by eapply heap_rep_freed.
    + intros e s5 [Hk5 Hc5]. by split.
  - intros e s4 [Hk4 Hg4]. split; [apply kept_not_gone; eapply kept_trans; [by eapply ahead_kept|exact Hk4|set_solver]|].
    intros Hg _. apply Hg4. by apply (ahead_grow _ _ _ _ _ _ _ _ 0 1 H03).
Qed.

Lemma wp_free_slot s l ps M rid lsn :
  disk_ok me None ∅ s → alloc_ok s l → heap_rep h s l ps M → rid_page rid ∈ ps → (lsn ≤ u64_max)%N →
  wp (free_slot me h rid lsn) (λ b s', row_gone s l s' ps M rid b)
    (λ _ s', not_gone s l s' M rid ∧ (can_grow s 0 1 → ¬ can_release s (row_ids M rid))) s.
Proof using Type.
  intros Hok Ha H Hp Hl. destruct (heap_rep_page _ _ _ _ _ _ H Hp) as (rs & next & Hpage & Hid).
  unfold free_slot. apply wp_bind. eapply wp_heap_pinned; [done..| |].
  2: { intros e s1 Hs1 Hw. split; [by apply same_not_gone|]. intros _. by intros [? _]. }
  intros s1 page H1 Hl1 Hv1 Hc Hh Hk Hr Hn. apply wp_bind. eapply wp_read; [done|]. intros page' Hc' _ _.
  assert (page' = page) as -> by (unfold current in *; congruence).
  pose proof (hr_rows _ _ _ _ _ H (rid_page rid) rs next (slot_nat rid) Hp Hpage) as Hrow. rewrite <- Hr in Hrow. fold (key rid) in Hrow.
  destruct (row_record _ _ _ _ _ Hk Hrow) as (r & -> & Hrec). apply wp_bind, wp_lift; [|done]. intros r' [= <-]. destruct r as [record|].
  2: { apply wp_ret. split; [done|]. intros s3 H3 Hl3 Hv3. apply wp_ret. unfold row_gone. destruct (M !! key rid) as [[]|]; [done|].
       split; [done|]. split_and!; [done|by transitivity s1|intros j; by rewrite Hv3]. }
  destruct (M !! key rid) as [row|] eqn:HM; [|by destruct record].
  pose proof (row_slot _ _ _ _ _ _ _ _ H Hp Hpage HM) as Hslot. assert (Hp1 : heap_page s1 (rid_page rid) rs next) by (by apply (heap_page_seen s)).
  destruct (free_slot_page _ _ _ _ _ _ Hp1 Hh Hslot) as (Hgq & Hkq & Hnq & Hrq).
  apply wp_bind. eapply (wp_change_row me _ _ page (write_slot (slot_nat rid) 0 0 page) lsn); [done|exact Hc|done|done|done|done|].
  intros s2 Hmark. apply wp_bind, Hmark. intros s3 H3 Hl3 Ho3 Hp3. rewrite Hnq in Hp3. apply wp_ret. split; [done|]. intros s4 H4 Hl4 Hv4.
  assert (H04 : ahead me s l s4 l 0 1 {[rid_page rid]}).
  { apply like_ahead_at; [done|done| |intros j Hj; by rewrite Hv4, Ho3, Hv1|by apply (hr_use _ _ _ _ _ H _ Hp)].
    transitivity s1; [done|]. by transitivity s3. }
  eapply wp_mono; [eapply (wp_free_chain s l s4 ps M rid record row 1); try done| |].
  - eapply heap_rep_freed; [done|exact H04|done|exact Hpage| |exact Hrq]. by apply (heap_page_seen s3).
  - intros b s5 Hb. exact Hb.
  - intros e s5 [Hk5 Hc5]. by split.
Qed.
End heap.
End release.
