(* ===== verification/HeapGrowth.v ===== *)
(** * Growing a heap

    [create], [reserve] and [insert]: a heap starts with one empty page, [reserve] finds the first
    page with room or chains an empty one at the end, and [insert] writes the record there. *)

From S2P Require Import Control Prelude Errors Bytes Crc Page HeapPage HeapPlace.
From S2P Require Import Wal WalFacts PageWrite PageWriteFacts WalPayload DataFile BufferPool BufferFacts PoolTheorems.
From S2P Require Import Disk DiskFacts Alloc AllocFacts PageSetFacts Heap OverflowFacts HeapFacts HeapWrites.

#[local] Open Scope Z_scope.

Lemma format_good id p : page_good id p → page_good id (format_heap_page p).
Proof.
  intros Hg. pose proof Hg as (Hp & _). destruct (format_heap_page_spec p Hp) as (Hk & _ & _ & H1 & H2).
  apply (good_kept id p); [done|apply Hk|done| |exists Page.Heap; apply Hk].
  etrans; [symmetry; apply (slice_slice 6 22 2 8); lia|]. rewrite H2. apply (slice_slice 6 22 2 8). lia.
Qed.

Lemma set_heap_next_good id next p : page_good id p → heap_ok p → page_good id (set_heap_next next p).
Proof.
  intros Hg Hk. pose proof Hg as (Hp & _). pose proof PAGE_SIZE_Z. destruct (set_heap_next_ok p Hp next Hk) as [Hk' _].
  apply (good_kept id p); [done|apply Hk'| | |exists Page.Heap; apply Hk']; unfold set_heap_next; through_writes; done.
Qed.

Section thread.
Context (me : ThreadId) (h : Heap).

(** ** The walk *)

Lemma wp_find_room len ps : ∀ turns i s l,
  disk_ok me None ∅ s → alloc_ok s l → heap_chain s (Some i) ps → (∀ j, j ∈ ps → in_use s l j) → (length ps ≤ turns)%nat →
  wp (find_room me h turns i len)
    (λ r s', same_pages me s s' ∧ match r with
      | (j, Some slot) => j ∈ ps ∧ ∃ rs next, heap_page s j rs next ∧ takes rs slot len ∧ first_free rs slot
      | (j, None) => last ps = Some j ∧ ∃ rs, heap_page s j rs None
      end)
    (λ _ s', same_pages me s s' ∧ ¬ willing s) s.
Proof using Type.
  induction ps as [|i' ps IH]; intros turns i s l Hok Ha Hc Hu Ht; [done|]. destruct Hc as ([= <-] & rs & next & Hp & Hc).
  destruct turns as [|turns]; cbn [length] in Ht; [lia|]. cbn [find_room]. destruct (Hu i ltac:(by left)) as [Hid _].
  apply wp_bind. eapply wp_mono; [by eapply wp_room_in| |done]. intros [slot|] s1 [Hs1 Hslot].
  { apply wp_ret. split; [done|]. split; [by left|]. exists rs, next. by destruct Hslot. }
  pose proof (same_pages_ahead me s l s1 Ha Hs1) as Hah. apply wp_bind. eapply wp_mono; [eapply (wp_next_page me i rs next s1)| |].
  - apply Hs1.
  - by rewrite (l_control _ _ (proj1 (proj2 Hs1))).
  - apply (heap_page_seen s); [apply Hs1|done].
  - intros r s2 [-> Hs2]. pose proof (same_pages_trans me _ _ _ Hs1 Hs2) as Hs02. destruct next as [next|].
    + pose proof (same_pages_ahead me s l s2 Ha Hs02) as Hah2.
      eapply wp_mono; [apply (IH turns next s2 l); [apply Hs02|apply Hah2| | |lia]| |].
      * apply (heap_chain_seen s); [intros; apply Hs02|done].
      * intros j Hj. apply (h_use _ _ _ _ _ _ _ _ Hah2), Hu. by right.
      * intros [j [slot|]] s3 [Hs3 Hcase]; (split; [by eapply same_pages_trans|]).
        -- destruct Hcase as (Hj & rs' & next' & Hp' & Ht'). split; [by right|]. exists rs', next'. split; [|done].
           apply (heap_page_seen s2); [symmetry; apply Hs02|done].
        -- destruct Hcase as (Hj & rs' & Hp'). split; [destruct ps; [done|exact Hj]|]. exists rs'.
           apply (heap_page_seen s2); [symmetry; apply Hs02|done].
      * intros e s3 [Hs3 Hw]. split; [by eapply same_pages_trans|]. intros Hwill. by eapply Hw, same_pages_willing.
    + apply wp_ret. split; [done|]. assert (ps = []) as -> by by (destruct ps; [|destruct Hc]). split; [done|]. eauto.
  - intros e s2 [Hs2 Hw]. split; [by eapply same_pages_trans|]. intros Hwill. by eapply Hw, same_pages_willing.
Qed.

(** ** The chain grown by a page *)

Lemma heap_chain_extend s s' j rs fresh ps : ∀ current,
  heap_chain s current ps → last ps = Some j → NoDup ps → heap_page s j rs None → heap_page s' j rs (Some fresh) → heap_page s' fresh [] None →
  (∀ i, i ∈ ps → i ≠ j → seen s' i = seen s i) → heap_chain s' current (ps ++ [fresh]).
Proof using Type.
  induction ps as [|i ps IH]; intros current Hc Hlast Hnd Hj Hj' Hf Hs; [done|]. destruct Hc as (-> & rsi & next & Hi & Hc).
  apply NoDup_cons in Hnd as [Hni Hnd]. cbn [app heap_chain]. split; [done|]. destruct ps as [|i2 ps].
  - injection Hlast as ->. exists rs, (Some fresh). split; [done|]. cbn. split; [done|]. by exists [], None.
  - rewrite last_cons_cons in Hlast. exists rsi, next. split.
    + apply (heap_page_seen s); [|done]. apply Hs; [by left|]. intros ->. apply Hni. by eapply last_Some_elem_of.
    + apply IH; try done. intros k Hk. apply Hs. by right.
Qed.

Lemma heap_rep_extend s s' l l' ps M j rs fresh n m :
  heap_rep h s l ps M → ahead me s l s' l' n m {[j]} → last ps = Some j → heap_page s j rs None → heap_page s' j rs (Some fresh) →
  heap_page s' fresh [] None → ¬ in_use s l fresh → in_use s' l' fresh → heap_rep h s' l' (ps ++ [fresh]) M.
Proof using Type.
  intros H Ha Hlast Hj Hj' Hf Hni Hin. pose proof H as [Hc Hn Hu Hr Hd Hap].
  assert (Hfp : fresh ∉ ps) by (intros Hfp; by apply Hni, Hu).
  assert (Hs : ∀ i, i ∈ ps → i ≠ j → seen s' i = seen s i) by (intros i Hi Hne; apply (h_seen _ _ _ _ _ _ _ _ Ha); [by apply Hu|set_solver]).
  assert (Hjp : j ∈ ps) by by eapply last_Some_elem_of.
  split.
  - by eapply heap_chain_extend.
  - apply NoDup_app. split_and!; [done|set_solver|apply NoDup_singleton].
  - intros i [Hi | ->%list_elem_of_singleton]%elem_of_app; [by apply (h_use _ _ _ _ _ _ _ _ Ha), Hu|done].
  - intros i rsi nexti slot [Hi | ->%list_elem_of_singleton]%elem_of_app Hp.
    + assert (Hold : row_rep s l (rsi !! slot ≫= id) (M !! (i, slot))).
      { destruct (decide (i = j)) as [->|Hne].
        - destruct (heap_page_inj _ _ _ _ _ _ Hj' Hp) as [<- _]. by eapply Hr.
        - eapply Hr; [done|]. eapply heap_page_seen; [|exact Hp]. symmetry. by apply Hs. }
      eapply row_rep_ahead; [exact Ha| |exact Hold]. intros r q Hq Hin'. destruct (Hap _ _ _ Hq Hin') as [Hnp _]. set_solver.
    + destruct (heap_page_inj _ _ _ _ _ _ Hf Hp) as [<- _]. cbn. destruct (M !! (fresh, slot)) eqn:HM; [|done].
      exfalso. apply Hfp. by eapply Hd.
  - intros i slot Hi. apply elem_of_app. left. by eapply Hd.
  - intros k row i Hk Hi. destruct (Hap k row i Hk Hi) as [H1 H2]. split; [|done].
    intros [Hps | ->%list_elem_of_singleton]%elem_of_app; [done|]. apply Hni. by eapply heap_rep_ids.
Qed.

(** ** Reserving *)

(** The hook of the growth: the flag of the fresh page alone. *)
Lemma hook_fresh fresh : page_hook me (λ id, if (id =? fresh)%N then pool_set_in_progress id false else mret ()).
Proof using Type.
  intros id s Hok. destruct (id =? fresh)%N; [by apply (hook_in_progress me)|by apply (hook_nothing me)].
Qed.

(** The fresh page formatted and linked after [j], in one record. *)
Lemma wp_chain_page s l ps M j rs fresh :
  disk_ok me None ∅ s → alloc_ok s l → heap_rep h s l ps M → last ps = Some j → heap_page s j rs None → in_use s l fresh → fresh ∉ ps →
  is_Some (seen s fresh) →
  wp (written ← set_write me (PageSet_new true) fresh (changing format_heap_page);
      linked ← link_page me written.2 j fresh;
      commit me linked.2 (λ id, if (id =? fresh)%N then pool_set_in_progress id false else mret ()))
    (λ _ s', ahead me s l s' l 0 2 {[fresh; j]} ∧ heap_page s' fresh [] None ∧ heap_page s' j rs (Some fresh))
    (λ _ s', kept me s l s' l {[fresh; j]} ∧ ¬ can_grow s 0 2) s.
Proof using Type.
  intros Hok Ha H Hlast Hj Hf Hnf Hsome. assert (Hjp : j ∈ ps) by by eapply last_Some_elem_of. pose proof (hr_use _ _ _ _ _ H j Hjp) as Hju.
  assert (Hjf : fresh ≠ j) by (intros ->; done).
  assert (Hno : ∀ s', same_pages me s s' → ¬ willing s → kept me s l s' l {[fresh; j]} ∧ ¬ can_grow s 0 2).
  { intros s' Hs Hw. split; [eapply kept_mono; [by eapply ahead_kept, same_pages_ahead|set_solver]|]. intros Hg. by eapply Hw, can_grow_willing. }
  apply wp_bind. apply wp_stage; [done|apply Hf|set_solver| |intros e s1 ? ? ? Hw; apply Hno; [done|by apply Hw]].
  intros s1 bf H1 Hl1 Hv1 Hbf. apply wp_bind. assert (Hs1 : same_pages me s s1) by done. pose proof (same_pages_ahead me s l s1 Ha Hs1) as Hah1.
  unfold link_page. cbn [changing fst snd with_staged staged PageSet_new app logged root].
  apply wp_stage; [done|apply (like_in_use s s1 l j Hl1 Hju)|cbn; set_solver| |].
  2: { intros e s2 H2 Hl2 Hv2 Hw. apply Hno; [by eapply same_pages_trans|]. intros Hwill. apply Hw; [rewrite Hv1; by eapply heap_page_is_Some|by eapply like_willing]. }
  intros s2 bj H2 Hl2 Hv2 Hbj. assert (Hs2 : same_pages me s s2) by by eapply same_pages_trans.
  pose proof (same_pages_ahead me s l s2 Ha Hs2) as Hah2.
  assert (Hbj0 : holds s j bj) by (apply (holds_seen s1); [symmetry; apply Hv1|done]).
  destruct (heap_page_holds _ _ _ _ _ Hj Hbj0) as (Hkj & Hrj & Hnj). pose proof Hbj as [(Hpj & _) _]. pose proof Hbf as [(Hpf & _) _].
  assert (Hff : link_fits (Some fresh)) by by eapply in_use_fits.
  destruct (set_heap_next_ok bj Hpj (Some fresh) Hkj) as [Hkj' Hrj']. destruct (format_heap_page_spec bf Hpf) as (Hkf & Hrf & Hnf' & _).
  cbn [changing fst snd with_staged staged app logged root].
  set (sts := [mkStaged fresh bf (format_heap_page bf); mkStaged j bj (set_heap_next (Some fresh) bj)]).
  eapply wp_mono; [apply (wp_commit_ahead me _ _ s2 l {[fresh; j]} 2); [done|apply Hah2| |apply hook_fresh|cbn; set_solver| |unfold PAGES_PER_RECORD; cbn; lia|cbn; lia|lia]| |].
  - cbn [staged]. split.
    + cbn. apply NoDup_cons. split; [set_solver|apply NoDup_singleton].
    + intros st [-> |[-> |[]%not_elem_of_nil]%elem_of_cons]%elem_of_cons; cbn [st_id st_before];
        [apply (holds_seen s); [apply Hs2|done]|apply (holds_seen s1); [apply Hv2|done]].
    + intros st [-> |[-> |[]%not_elem_of_nil]%elem_of_cons]%elem_of_cons; cbn [st_id st_after];
        [apply format_good, Hbf|apply set_heap_next_good; [apply Hbj|done]].
    + intros st [-> |[-> |[]%not_elem_of_nil]%elem_of_cons]%elem_of_cons; cbn [st_id];
        [apply (like_in_use s s2 l fresh)|apply (like_in_use s s2 l j)]; done || apply Hs2.
  - intros i [->%elem_of_singleton | ->%elem_of_singleton]%elem_of_union; [apply Hf|apply Hju].
  - intros _ s3 [Hah3 Hh3]. cbn [staged] in Hh3. split_and!.
    + eapply (ahead_trans me _ _ _ _ _ _ 0 0 0 2); [exact Hah2|exact Hah3|set_solver].
    + exists (format_heap_page bf). split_and!; try done. apply (Hh3 (mkStaged fresh bf (format_heap_page bf))). by left.
    + exists (set_heap_next (Some fresh) bj). split_and!; [|done|by rewrite Hrj'|by apply heap_next_set].
      apply (Hh3 (mkStaged j bj (set_heap_next (Some fresh) bj))). right. by left.
  - intros e s3 [Hk3 Hg3]. split; [eapply kept_trans; [by eapply ahead_kept|exact Hk3|set_solver]|].
    intros Hg. apply Hg3. by apply (ahead_grow _ _ _ _ _ _ _ _ 0 2 Hah2).
Qed.

(** The address is free, its page has room for the record, and no row changes; the chain may have
    one empty page more. *)
Definition was_reserved (s s' : DiskStorage) (l l' ps ps' : list PageId) (M : gmap (PageId * nat) Row) (len : nat) (rid : Rid) : Prop :=
  heap_rep h s' l' ps' M ∧ rid_page rid ∈ ps' ∧ 0 ≤ rid_slot rid ∧ M !! key rid = None ∧
  (∃ rs next, heap_page s' (rid_page rid) rs next ∧ takes rs (slot_nat rid) (stored_len len) ∧ first_free rs (slot_nat rid)) ∧
  (∃ X : gset PageId, ahead me s l s' l' 1 2 X ∧ ∀ i, i ∈ X → i ∈ ps) ∧
  (ps' = ps ∨ ∃ fresh, ps' = ps ++ [fresh] ∧ ¬ in_use s l fresh).

Lemma free_row s l ps M i rs next slot : heap_rep h s l ps M → i ∈ ps → heap_page s i rs next → rs !! slot ≫= id = None → M !! (i, slot) = None.
Proof using Type.
  intros H Hi Hp Hn. pose proof (hr_rows _ _ _ _ _ H i rs next slot Hi Hp) as Hr. rewrite Hn in Hr.
  destruct (M !! (i, slot)) as [[]|]; done.
Qed.

Lemma stored_len_inline len : (stored_len len ≤ MAX_INLINE_LEN)%nat.
Proof using Type.
  unfold stored_len. destruct (Nat.ltb_spec MAX_INLINE_LEN len); [|done]. unfold STUB_LEN, MAX_INLINE_LEN. pose proof PAGE_SIZE_Z. lia.
Qed.

Lemma slot_nat_of i slot : slot_nat (mkRid i (Z.of_nat slot)) = slot.
Proof using Type. unfold slot_nat. cbn. lia. Qed.

Lemma wp_reserve_grown s l ps M j rs len :
  disk_ok me None ∅ s → alloc_ok s l → heap_rep h s l ps M → last ps = Some j → heap_page s j rs None →
  wp (fresh ← allocate me;
      written ← set_write me (PageSet_new true) fresh (changing format_heap_page);
      linked ← link_page me written.2 j fresh;
      _ ← commit me linked.2 (λ id, if (id =? fresh)%N then pool_set_in_progress id false else mret ());
      _ ← wal_flush;
      slot ← room_in me h fresh (stored_len len);
      match slot with
      | Some slot => mret (mkRid fresh (Z.of_nat slot))
      | None => fail (Bug [Lit "record of "; Num (N.of_nat (stored_len len)); Lit " bytes does not fit in the fresh heap page "; Num fresh;
          Lit " of table "; Num (table h)])
      end)
    (λ rid s', ∃ l' ps', was_reserved s s' l l' ps ps' M len rid)
    (λ _ s', (∃ l' X, kept me s l s' l' X ∧ ∀ i, i ∈ X → i ∈ ps) ∧ ¬ can_grow s 1 2) s.
Proof using Type.
  intros Hok Ha H Hlast Hj. assert (Hjp : j ∈ ps) by by eapply last_Some_elem_of. pose proof (hr_use _ _ _ _ _ H j Hjp) as Hju.
  apply wp_bind. eapply wp_mono; [by apply wp_allocate_ahead| |].
  2: { intros e s1 [Hk Hg]. split; [exists l, ∅; split; [done|set_solver]|]. intros Hc. apply Hg. by eapply can_grow_le; [exact Hc|lia|lia]. }
  intros fresh s1 (l1 & H1 & Hni & Hin & page & Hpage & _). assert (Hfp : fresh ∉ ps) by (intros Hfp; by apply Hni, (hr_use _ _ _ _ _ H)).
  assert (Hrep1 : heap_rep h s1 l1 ps M) by (eapply heap_rep_ahead; [exact H1|set_solver|set_solver|done]).
  assert (Hj1 : heap_page s1 j rs None) by (apply (heap_page_seen s); [|done]; apply (h_seen _ _ _ _ _ _ _ _ H1); [done|set_solver]).
  pose proof (wp_chain_page s1 l1 ps M j rs fresh (h_ok _ _ _ _ _ _ _ _ H1) (h_list _ _ _ _ _ _ _ _ H1) Hrep1 Hlast Hj1 Hin Hfp ltac:(by eexists)) as Hchain.
  assert (HX : ∀ i, i ∈ ({[fresh; j]} : gset PageId) → in_use s l i → i ∈ ({[j]} : gset PageId)) by set_solver.
  assert (Hk : ∀ s' l', kept me s1 l1 s' l' {[fresh; j]} → ∃ l' X, kept me s l s' l' X ∧ ∀ i, i ∈ X → i ∈ ps).
  { intros s' l' Hk'. exists l', {[j]}. split; [eapply kept_trans; [by eapply ahead_kept|exact Hk'|set_solver]|set_solver]. }
  apply wp_three. eapply wp_mono; [exact Hchain| |].
  2: { intros e s2 [Hk1 Hg]. split; [by eapply Hk|]. intros Hc. apply Hg. by apply (ahead_grow _ _ _ _ _ _ _ _ 0 2 H1). }
  intros _ s4 (H4 & Hf4 & Hj4).
  assert (H04 : ahead me s l s4 l1 1 2 {[j]}) by (eapply (ahead_trans me _ _ _ _ _ _ 1 0 0 2); [exact H1|exact H4|set_solver]).
  apply wp_bind. eapply wp_mono; [apply (wp_flush_ahead me s4 l1); apply H4| |].
  2: { intros e s5 [Hk5 Hw]. split; [exists l1, {[j]}; split; [eapply kept_trans; [by eapply ahead_kept|exact Hk5|set_solver]|set_solver]|].
       intros Hc. apply Hw. by eapply can_grow_willing, (ahead_grow _ _ _ _ _ _ _ _ 0 0 H04). }
  intros [] s5 H5. assert (H05 : ahead me s l s5 l1 1 2 {[j]}) by (eapply (ahead_trans me _ _ _ _ _ _ 1 2 0 0); [exact H04|exact H5|set_solver]).
  assert (Hf5 : heap_page s5 fresh [] None).
  { apply (heap_page_seen s4); [|done]. apply (h_seen _ _ _ _ _ _ _ _ H5); [by apply (h_use _ _ _ _ _ _ _ _ H4)|set_solver]. }
  assert (Hj5 : heap_page s5 j rs (Some fresh)).
  { apply (heap_page_seen s4); [|done]. apply (h_seen _ _ _ _ _ _ _ _ H5); [by apply (h_use _ _ _ _ _ _ _ _ H04)|set_solver]. }
  assert (Hin5 : in_use s5 l1 fresh) by by apply (h_use _ _ _ _ _ _ _ _ H5), (h_use _ _ _ _ _ _ _ _ H4).
  pose proof (heap_rep_extend s s5 l l1 ps M j rs fresh 1 2 H H05 Hlast Hj Hj5 Hf5 Hni Hin5) as Hrep5.
  apply wp_bind. eapply wp_mono; [apply (wp_room_in me h fresh [] None (stored_len len) s5); [apply H05|apply Hin5|done]| |].
  - intros [slot|] s6 [Hs6 Hcase].
    + apply wp_ret. exists l1, (ps ++ [fresh]). destruct Hcase as [Ht Hff].
      pose proof (same_pages_ahead me s5 l1 s6 (h_list _ _ _ _ _ _ _ _ H05) Hs6) as H6. unfold was_reserved. rewrite !slot_nat_of. cbn [rid_page rid_slot].
      split_and!; [by eapply heap_rep_same; [apply H05|..]|set_solver|lia| | | |].
      * unfold key. rewrite slot_nat_of. cbn [rid_page]. eapply (free_row s5); [exact Hrep5|set_solver|exact Hf5|done].
      * exists [], None. split; [|done]. apply (heap_page_seen s5); [apply Hs6|done].
      * exists {[j]}. split; [|set_solver]. eapply (ahead_trans me _ _ _ _ _ _ 1 2 0 0); [exact H05|exact H6|set_solver].
      * right. eauto.
    + exfalso. apply (Hcase 0%nat); [done|]. split; [apply stored_len_inline|]. pose proof (stored_len_inline len). unfold MAX_INLINE_LEN in *.
      pose proof PAGE_SIZE_Z. cbn. lia.
  - intros e s6 [Hs6 Hw]. split.
    + exists l1, {[j]}. split; [|set_solver]. eapply kept_trans; [by eapply ahead_kept|by eapply ahead_kept, same_pages_ahead; [apply H05|]|set_solver].
    + intros Hc. apply Hw. by eapply can_grow_willing, (ahead_grow _ _ _ _ _ _ _ _ 0 0 H05).
Qed.

Lemma wp_reserve s l ps M len :
  disk_ok me None ∅ s → alloc_ok s l → heap_rep h s l ps M →
  wp (reserve me h len) (λ rid s', ∃ l' ps', was_reserved s s' l l' ps ps' M len rid)
    (λ _ s', (∃ l' X, kept me s l s' l' X ∧ ∀ i, i ∈ X → i ∈ ps) ∧ ¬ can_grow s 1 2) s.
Proof using Type.
  intros Hok Ha H. pose proof (heap_fits h _ _ _ _ Ha H) as Hfit. unfold reserve. fold (stored_len len). apply wp_bind.
  change (wp walk_turns ?Q ?E s) with (Q (S (N.to_nat (page_count (data s)))) s). cbn beta. apply wp_bind.
  eapply wp_mono; [eapply (wp_find_room (stored_len len) ps); [done|done|apply H|apply H|lia]| |].
  - intros [j [slot|]] s1 [Hs1 Hcase]; pose proof (same_pages_ahead me s l s1 Ha Hs1) as H1; pose proof (heap_rep_same me h s s1 l ps M Ha Hs1 H) as Hrep1.
    + apply wp_ret. destruct Hcase as (Hj & rs & next & Hp & Ht & Hff). exists l, ps. unfold was_reserved. rewrite !slot_nat_of. cbn [rid_page rid_slot].
      split_and!; [done|done|lia| | | |by left].
      * unfold key. rewrite slot_nat_of. cbn [rid_page]. eapply (free_row s); [exact H|exact Hj|exact Hp|apply Hff].
      * exists rs, next. split; [|done]. apply (heap_page_seen s); [apply Hs1|done].
      * exists ∅. split; [by eapply ahead_mono; [exact H1|lia|lia|]|set_solver].
    + destruct Hcase as (Hlast & rs & Hj). eapply wp_mono; [eapply (wp_reserve_grown s1 l ps M j rs len); [apply Hs1|apply H1|done|done|]| |].
      * apply (heap_page_seen s); [apply Hs1|done].
      * intros rid s2 (l2 & ps2 & Hr & Hin & H0 & Hfree & Hroom & (X & Hah & HX) & Hps). exists l2, ps2. unfold was_reserved. split_and!; try done.
        -- exists X. split; [|done]. eapply (ahead_trans me _ _ _ _ _ _ 0 0 1 2); [exact H1|exact Hah|set_solver].
        -- destruct Hps as [-> |(fresh & -> & Hnf)]; [by left|right; exists fresh; split; [done|]]. intros Hiu. by apply Hnf, (h_use _ _ _ _ _ _ _ _ H1).
      * intros e s2 [(l2 & X & Hk & HX) Hg]. split.
        -- exists l2, X. split; [|done]. eapply kept_trans; [by eapply ahead_kept|exact Hk|set_solver].
        -- intros Hc. apply Hg. by apply (ahead_grow _ _ _ _ _ _ _ _ 1 2 H1).
  - intros e s1 [Hs1 Hw]. split; [exists l, ∅; split; [by eapply ahead_kept, same_pages_ahead|set_solver]|].
    intros Hc. by eapply Hw, can_grow_willing.
Qed.

(** ** Inserting *)

(** The write of a short record in the slot reserved for it, journalled. *)
Lemma wp_insert_inline s l ps M rid bytes rs next :
  disk_ok me None ∅ s → alloc_ok s l → heap_rep h s l ps M → rid_page rid ∈ ps → heap_page s (rid_page rid) rs next →
  takes rs (slot_nat rid) (length bytes) → Forall is_byte bytes →
  wp (written ← set_write me (PageSet_new true) (rid_page rid) (place_at (slot_nat rid) bytes false);
      _ ← commit me written.2 (λ id, pool_set_in_progress id false);
      mret written.1)
    (λ b s', b = true ∧ ahead me s l s' l 0 1 {[rid_page rid]} ∧ heap_rep h s' l ps (with_row (key rid) (Some (bytes, [])) M))
    (λ _ s', kept me s l s' l {[rid_page rid]} ∧ ¬ can_grow s 0 1) s.
Proof using Type.
  intros Hok Ha H Hp Hpage Ht Hb. destruct (hr_use _ _ _ _ _ H _ Hp) as [Hid Hni]. apply wp_bind. apply wp_stage; [done|done|set_solver| |].
  2: { intros e s1 H1 Hl1 Hv1 Hw. split; [eapply kept_mono; [eapply ahead_kept, like_ahead|]; done || set_solver|].
       intros Hg. apply Hw; [by eapply heap_page_is_Some|by eapply can_grow_willing]. }
  intros s1 before H1 Hl1 Hv1 Hbefore. destruct (heap_page_holds _ _ _ _ _ Hpage Hbefore) as (Hk & Hr & Hn).
  destruct (place_at_spec before (slot_nat rid) bytes false Hk Hb) as [Hfit _].
  destruct (Hfit ltac:(apply room_for_takes; by rewrite Hr)) as (q & Hq & Hkq & Hsq & Hrq). rewrite Hq. cbn [fst snd].
  destruct (placed_good (rid_page rid) before q (proj1 Hbefore) Hkq Hsq) as [Hgq Hnq].
  pose proof (like_ahead me s l s1 H1 Ha Hl1 Hv1) as Hah1. apply wp_bind.
  eapply wp_mono; [eapply (wp_commit_row me _ (rid_page rid) before q); [done|apply Hah1|by eapply like_in_use|done|by apply (holds_seen s)|done|done|apply hook_in_progress]| |].
  - intros _ s2 [Hah2 Hp2]. apply wp_ret. split; [done|].
    assert (H02 : ahead me s l s2 l 0 1 {[rid_page rid]}) by (eapply (ahead_trans me _ _ _ _ _ _ 0 0 0 1); [exact Hah1|exact Hah2|set_solver]).
    split; [done|]. unfold key. rewrite Hnq, Hn in Hp2. eapply (heap_rep_change me h s s2 l l ps M); [done|exact H02|done|exact Hpage|exact Hp2| | |].
    + intros j. rewrite Hrq, Hr. apply lookup_placed.
    + done.
    + intros r j [= <-] []%not_elem_of_nil.
  - intros e s2 [Hk2 Hno]. split; [eapply kept_trans; [by eapply ahead_kept|exact Hk2|set_solver]|].
    intros Hg. apply Hno. by apply (ahead_grow _ _ _ _ _ _ _ _ 0 1 Hah1).
Qed.

(** The writes of a page by an insert: those of the growth of the heap, and those of the record. *)
Definition insert_writes (len : nat) : nat := if (MAX_INLINE_LEN <? len)%nat then 3 + overflow_writes len else 3.

Definition was_inserted (s s' : DiskStorage) (l ps : list PageId) (M : gmap (PageId * nat) Row) (bytes : list Z) (rid : Rid) : Prop :=
  ∃ l' ps' ids, heap_rep h s' l' ps' (with_row (key rid) (Some (bytes, ids)) M) ∧ M !! key rid = None ∧ rid_page rid ∈ ps' ∧ 0 ≤ rid_slot rid ∧
    (∀ i, i ∈ ids → ¬ in_use s l i) ∧
    (∃ X : gset PageId, ahead me s l s' l' (S (put_pages (length bytes))) (insert_writes (length bytes)) X ∧ ∀ i, i ∈ X → i ∈ ps) ∧
    (ps' = ps ∨ ∃ fresh, ps' = ps ++ [fresh] ∧ ¬ in_use s l fresh).

Lemma wp_insert s l ps M bytes :
  disk_ok me None ∅ s → alloc_ok s l → heap_rep h s l ps M → Forall is_byte bytes →
  wp (insert me h bytes) (λ rid s', was_inserted s s' l ps M bytes rid)
    (λ _ s', (∃ l' X, kept me s l s' l' X ∧ ∀ i, i ∈ X → i ∈ ps) ∧
      (stub_fits bytes → ¬ can_grow s (S (put_pages (length bytes))) (insert_writes (length bytes)))) s.
Proof using Type.
  intros Hok Ha H Hb. unfold insert. apply wp_bind. eapply wp_mono; [by apply wp_reserve| |].
  2: { intros e s1 [Hk Hg]. split; [done|]. intros _ Hc. apply Hg. eapply can_grow_le; [exact Hc|lia|].
       unfold insert_writes. destruct (_ <? _)%nat; lia. }
  intros rid s1 (l1 & ps1 & Hrep1 & Hin1 & H0 & Hfree & (rs & next & Hp1 & Ht & Hff) & (X & H1 & HX) & Hps).
  assert (HXp : ∀ i, i ∈ X ∪ {[rid_page rid]} → in_use s l i → i ∈ X ∪ (if decide (rid_page rid ∈ ps) then {[rid_page rid]} else ∅)).
  { intros i [Hi|Hi%elem_of_singleton]%elem_of_union Hu; [set_solver|]. subst i. rewrite decide_True; [set_solver|].
    destruct Hps as [-> |(fresh & -> & Hnf)]; [done|]. apply elem_of_app in Hin1 as [? |Hin1%list_elem_of_singleton]; [done|congruence]. }
  set (Y := X ∪ (if decide (rid_page rid ∈ ps) then {[rid_page rid]} else ∅)) in *.
  assert (HY : ∀ i, i ∈ Y → i ∈ ps) by (unfold Y; case_decide; set_solver).
  assert (Hout : ∀ s2 l2, kept me s1 l1 s2 l2 {[rid_page rid]} → ∃ l' X, kept me s l s2 l' X ∧ ∀ i, i ∈ X → i ∈ ps).
  { intros s2 l2 Hk. exists l2, Y. split; [|done]. eapply kept_trans; [by eapply ahead_kept|exact Hk|exact HXp]. }
  unfold was_inserted, put_pages, insert_writes. unfold stored_len in Ht. destruct (Nat.ltb_spec MAX_INLINE_LEN (length bytes)) as [Hlt|Hle].
  - apply wp_bind. eapply wp_mono; [eapply (wp_put_long me h s1 l1 ps1 M rid bytes 0); [apply H1|apply H1|done|done|done|done|done]| |].
    + intros b s2 (rs' & next' & Hp' & Hcase). destruct (heap_page_inj _ _ _ _ _ _ Hp1 Hp') as [<- <-].
      unfold stored_len, put_pages, put_writes in Hcase. rewrite (proj2 (Nat.ltb_lt _ _)) in Hcase by done.
      destruct b; [|by destruct Hcase]. cbn [negb]. apply wp_ret. destruct Hcase as (_ & l2 & ids & H2 & Hrep2 & Hids). exists l2, ps1, ids.
      split_and!; try done; [intros i Hi Hu; by apply (Hids i Hi), (h_use _ _ _ _ _ _ _ _ H1)|]. exists Y. split; [|done]. eapply (ahead_trans me _ _ _ _ _ _ 1 2); [exact H1|exact H2|exact HXp].
    + intros e s2 [[l2 Hk] Hg]. split; [by eapply Hout|]. intros Hfit Hc. apply (Hg Hfit). unfold put_pages, put_writes.
      rewrite (proj2 (Nat.ltb_lt _ _)) by done. by apply (ahead_grow _ _ _ _ _ _ _ _ _ _ H1).
  - apply wp_bind. eapply wp_mono; [eapply (wp_insert_inline s1 l1 ps1 M rid bytes rs next); [apply H1|apply H1|done..]| |].
    + intros b s2 (-> & H2 & Hrep2). cbn [negb]. apply wp_ret. exists l1, ps1, []. split_and!; try done; [by intros i []%not_elem_of_nil|]. exists Y. split; [|done].
      eapply (ahead_trans me _ _ _ _ _ _ 1 2 0 1); [exact H1|exact H2|exact HXp].
    + intros e s2 [Hk Hg]. split; [by eapply Hout|]. intros _ Hc. apply Hg. by apply (ahead_grow _ _ _ _ _ _ _ _ 0 1 H1).
Qed.

(** ** Creating *)

Lemma wp_create s l :
  disk_ok me None ∅ s → alloc_ok s l → in_use s l (first_page h) →
  wp (create me h) (λ _ s', ahead me s l s' l 0 1 {[first_page h]} ∧ heap_rep h s' l [first_page h] ∅)
    (λ _ s', same_pages me s s' ∧ (is_Some (seen s (first_page h)) → ¬ willing s)) s.
Proof using Type.
  intros Hok Ha [Hlt Hni]. apply wp_pinned_for; [done|done| |by intros]. intros s1 H1 Hl1 Hv1 _.
  destruct (held_frame me ∅ s1 _ H1) as (slot & f & _ & _ & _ & _ & _ & Hg & Hc & Hsn). pose proof Hg as (Hp & _).
  destruct (format_heap_page_spec (f_page f) Hp) as (Hk & Hr & Hn & _). pose proof (format_good _ _ Hg) as Hgf.
  apply wp_bind. eapply (wp_change_row me _ _ (f_page f) (format_heap_page (f_page f)) 0); [done|exact Hc|done| |done|done|].
  { unfold raise_lsn. destruct (N.ltb_spec (Page.lsn (format_heap_page (f_page f))) 0); [lia|done]. }
  intros s2 Hmark. apply wp_bind, Hmark. intros s3 H3 Hl3 Ho3 Hp3. rewrite Hr, Hn in Hp3. eapply wp_in_progress; [done|].
  intros s4 H4 Hl4 Hv4. split; [done|]. intros s5 H5 Hl5 Hv5.
  assert (Hah : ahead me s l s5 l 0 1 {[first_page h]}).
  { apply like_ahead_at; [done|done| |intros j Hj; by rewrite Hv5, Hv4, Ho3, Hv1|done].
    transitivity s1; [done|]. transitivity s3; [done|]. by transitivity s4. }
  assert (Hp5 : heap_page s5 (first_page h) [] None) by (apply (heap_page_seen s3); [by rewrite Hv5, Hv4|done]).
  split; [done|]. split.
  - cbn. split; [done|]. exists [], None. by split.
  - apply NoDup_singleton.
  - intros i ->%list_elem_of_singleton. by apply (h_use _ _ _ _ _ _ _ _ Hah).
  - intros i rs next slot' ->%list_elem_of_singleton Hpi. destruct (heap_page_inj _ _ _ _ _ _ Hp5 Hpi) as [<- _]. by rewrite lookup_empty.
  - intros i slot'. rewrite lookup_empty. by intros [].
  - intros k row i. by rewrite lookup_empty.
Qed.
End thread.
