(* ===== verification/HeapTheorems.v ===== *)
(** * Heaps keep records

    The theorems of the heap: its operations are those of a map from addresses to records,
    whatever the lengths of the records; two heaps of one instance do not touch each other's
    records; and the operations answer when the instance has the room they need. *)

From S2P Require Import Control Prelude Errors Bytes Crc Page HeapPage HeapPlace.
From S2P Require Import Wal WalFacts PageWrite PageWriteFacts WalPayload DataFile BufferPool BufferFacts PoolTheorems.
From S2P Require Import Disk DiskFacts Alloc AllocFacts AllocTheorems PageSetFacts Heap OverflowFacts HeapFacts HeapWrites HeapGrowth.

#[local] Open Scope Z_scope.

(** ** The map a heap stands for *)

Notation Records := (gmap (PageId * nat) (list Z)).

Inductive HeapOp := OpInsert (bytes : list Z) | OpGet (rid : Rid) | OpDelete (rid : Rid) | OpScan.
Inductive HeapAnswer := ARid (rid : Rid) | ABytes (bytes : option (list Z)) | AFlag (b : bool) | ARids (rids : list Rid).

(** What the operations do to a map of records: an insert takes a free address, and a scan
    answers the addresses of the map, each once. *)
Inductive map_step (M : Records) : HeapOp → HeapAnswer → Records → Prop :=
  | map_insert bytes rid : M !! key rid = None → 0 ≤ rid_slot rid → map_step M (OpInsert bytes) (ARid rid) (<[key rid := bytes]> M)
  | map_get rid : map_step M (OpGet rid) (ABytes (M !! key rid)) M
  | map_delete rid : map_step M (OpDelete rid) (AFlag (bool_decide (is_Some (M !! key rid)))) (base.delete (key rid) M)
  | map_scan rids : NoDup rids → (∀ rid, rid ∈ rids ↔ 0 ≤ rid_slot rid ∧ is_Some (M !! key rid)) → map_step M OpScan (ARids rids) M.

Inductive map_run : Records → list (HeapOp * HeapAnswer) → Records → Prop :=
  | map_run_nil M : map_run M [] M
  | map_run_cons M M1 M' op a tr : map_step M op a M1 → map_run M1 tr M' → map_run M ((op, a) :: tr) M'.

Section thread.
Context (me : ThreadId).

Definition run_op (h : Heap) (op : HeapOp) : disk HeapAnswer :=
  match op with
  | OpInsert bytes => rid ← insert me h bytes; mret (ARid rid)
  | OpGet rid => r ← get me h rid; mret (ABytes r)
  | OpDelete rid => b ← Heap.delete me h rid; mret (AFlag b)
  | OpScan => r ← scan me h; mret (ARids r)
  end.

(** The records are bytes, and an address is in a page that the chain of the heap reaches. *)
Definition op_ok (h : Heap) (s : DiskStorage) (op : HeapOp) : Prop :=
  match op with
  | OpInsert bytes => Forall is_byte bytes
  | OpGet rid | OpDelete rid => ∃ ps, heap_chain s (Some (first_page h)) ps ∧ rid_page rid ∈ ps
  | OpScan => True
  end.

(** The instance holds the records [M] in the heap [h]. *)
Definition stores (h : Heap) (s : DiskStorage) (M : Records) : Prop :=
  ∃ l ps R, disk_ok me None ∅ s ∧ alloc_ok s l ∧ heap_rep h s l ps R ∧ M = fst <$> R.

(** Every page carries the number of a record of the journal, or none. *)
Definition numbered (s : DiskStorage) : Prop := ∀ i page, seen s i = Some page → (Page.lsn page ≤ last_lsn (wal s))%N.

(** What an operation needs to return.  Of the system: that it refuses nothing.  Of the pool, for
    a read: a frame it may give up, the pages a transaction in progress holds and those whose
    record is not durable yet being fewer than its frames; for an insert and a delete: as many
    frames more as they hand out and write pages.  Of the file and of the numbers of the journal:
    that they reach that far.  Of a record too long for a page: that its length fits a [u32].
    And for a delete, which frees pages: that no page is ahead of the journal. *)
Definition op_room (s : DiskStorage) (op : HeapOp) : Prop :=
  match op with
  | OpInsert bytes => can_grow s (S (put_pages (length bytes))) (insert_writes (length bytes)) ∧ stub_fits bytes
  | OpGet _ | OpScan => willing s
  | OpDelete _ => can_grow s 0 1 ∧ numbered s
  end.

Lemma heap_chain_det s current ps ps' : heap_chain s current ps → heap_chain s current ps' → ps = ps'.
Proof using Type.
  revert current ps'. induction ps as [|i ps IH]; intros current [|i' ps']; cbn [heap_chain]; try done.
  - by intros -> [].
  - by intros [-> _].
  - intros (-> & rs & next & Hp & Hc) ([= <-] & rs' & next' & Hp' & Hc'). f_equal.
    destruct (heap_page_inj _ _ _ _ _ _ Hp Hp') as [_ <-]. by eapply IH.
Qed.

Lemma fmap_with_row (k : PageId * nat) (row : Row) (R : gmap (PageId * nat) Row) :
  fst <$> with_row k (Some row) R = <[k := row.1]> (fst <$> R : Records).
Proof using Type.
  apply map_eq. intros j. rewrite lookup_fmap. unfold with_row. destruct (decide (j = k)) as [->|Hne].
  - by rewrite lookup_partial_alter_eq, lookup_insert_eq.
  - by rewrite lookup_partial_alter_ne, lookup_insert_ne, lookup_fmap.
Qed.

Lemma fmap_without_row (k : PageId * nat) (R : gmap (PageId * nat) Row) : fst <$> with_row k None R = base.delete k (fst <$> R : Records).
Proof using Type.
  apply map_eq. intros j. rewrite lookup_fmap. unfold with_row. destruct (decide (j = k)) as [->|Hne].
  - by rewrite lookup_partial_alter_eq, lookup_delete_eq.
  - by rewrite lookup_partial_alter_ne, lookup_delete_ne, lookup_fmap.
Qed.

Lemma is_Some_fmap_fst (k : PageId * nat) (R : gmap (PageId * nat) Row) : is_Some ((fst <$> R) !! k) ↔ is_Some (R !! k).
Proof using Type. rewrite lookup_fmap. by rewrite fmap_is_Some. Qed.

(** ** One operation *)

(** What an operation leaves of the pages: it changes pages of the heap, takes pages that were not
    in use, and gives back pages of the heap. *)
Record op_frame (s : DiskStorage) (l : list PageId) (s' : DiskStorage) (l' ps ps' : list PageId) (R R' : gmap (PageId * nat) Row) : Prop := {
  of_ok : disk_ok me None ∅ s';
  of_list : alloc_ok s' l';
  of_kept i : in_use s l i → ¬ heap_pages ps R i → in_use s' l' i ∧ seen s' i = seen s i;
  of_pages i : heap_pages ps' R' i → heap_pages ps R i ∨ ¬ in_use s l i;
}.

Lemma same_frame s l s' ps R : alloc_ok s l → same_pages me s s' → op_frame s l s' l ps ps R R.
Proof using Type.
  intros Ha Hs. pose proof (same_pages_ahead me s l s' Ha Hs) as Hah. split; [apply Hah|apply Hah| |by left].
  intros i Hi _. split; [by apply (h_use _ _ _ _ _ _ _ _ Hah)|apply Hs].
Qed.

Definition op_done (h : Heap) (s : DiskStorage) (l ps : list PageId) (R : gmap (PageId * nat) Row) (op : HeapOp) (a : HeapAnswer) (s' : DiskStorage) : Prop :=
  ∃ l' ps' R', heap_rep h s' l' ps' R' ∧ op_frame s l s' l' ps ps' R R' ∧ map_step (fst <$> R) op a (fst <$> R').

Lemma insert_done h s l ps R bytes s' rid :
  alloc_ok s l → heap_rep h s l ps R → was_inserted me h s s' l ps R bytes rid → op_done h s l ps R (OpInsert bytes) (ARid rid) s'.
Proof using Type.
  intros Ha H (l' & ps' & ids & Hrep & Hfree & Hin & H0 & Hids & (X & Hah & HX) & Hps). exists l', ps', (with_row (key rid) (Some (bytes, ids)) R).
  split; [done|]. split.
  - split; [apply Hah|apply Hah| |].
    + intros i Hi Hni. split; [by apply (h_use _ _ _ _ _ _ _ _ Hah)|]. apply (h_seen _ _ _ _ _ _ _ _ Hah); [done|]. intros Hx. apply Hni. left. by apply HX.
    + intros i [Hi|(k & row & Hk & Hi)].
      * destruct Hps as [-> |(fresh & -> & Hnf)]; [left; by left|]. apply elem_of_app in Hi as [Hi | ->%list_elem_of_singleton]; [left; by left|by right].
      * unfold with_row in Hk. destruct (decide (k = key rid)) as [->|Hne].
        -- rewrite lookup_partial_alter_eq in Hk. injection Hk as <-. right. by apply Hids.
        -- rewrite lookup_partial_alter_ne in Hk by done. left. right. eauto.
  - rewrite fmap_with_row. apply map_insert; [|done]. by rewrite lookup_fmap, Hfree.
Qed.

Lemma delete_done h s l ps R rid b s' :
  alloc_ok s l → heap_rep h s l ps R → rid_page rid ∈ ps → row_gone me h s l s' ps R rid b → op_done h s l ps R (OpDelete rid) (AFlag b) s'.
Proof using Type.
  intros Ha H Hp Hg. unfold row_gone in Hg. destruct (R !! key rid) as [row|] eqn:HR.
  - destruct Hg as (-> & Hrep & Hkb). exists (reverse row.2 ++ l), ps, (with_row (key rid) None R). split; [done|]. split.
    + split; [apply Hkb|apply Hkb| |].
      * intros i Hi Hni. apply (kb_kept _ _ _ _ _ _ Hkb); [done|]. intros [->%elem_of_singleton|Hin%elem_of_list_to_set]%elem_of_union; apply Hni; [by left|right; eauto].
      * intros i [Hi|(k & row' & Hk & Hi)]; left; [by left|right]. unfold with_row in Hk. destruct (decide (k = key rid)) as [->|Hne].
        -- by rewrite lookup_partial_alter_eq in Hk.
        -- rewrite lookup_partial_alter_ne in Hk by done. eauto.
    + rewrite fmap_without_row. assert (true = bool_decide (is_Some ((fst <$> R) !! key rid))) as ->.
      { rewrite bool_decide_eq_true_2; [done|]. apply is_Some_fmap_fst. by rewrite HR. }
      constructor.
  - destruct Hg as [-> Hs]. exists l, ps, R. split; [by eapply heap_rep_same|]. split; [by apply same_frame|].
    assert (Hno : (fst <$> R) !! key rid = None) by by rewrite lookup_fmap, HR.
    pose proof (map_delete (fst <$> R) rid) as Hm. by rewrite Hno, delete_id in Hm.
Qed.

Lemma op_returns h s l ps R op :
  disk_ok me None ∅ s → alloc_ok s l → heap_rep h s l ps R → op_ok h s op →
  wp (run_op h op) (λ a s', op_done h s l ps R op a s') (λ _ _, ¬ op_room s op) s.
Proof using Type.
  intros Hok Ha H Hop. destruct op as [bytes|rid|rid|]; cbn [run_op op_ok op_room] in *; apply wp_bind.
  - eapply wp_mono; [by apply (wp_insert me h s l ps R)| |].
    + intros rid s' Hi. apply wp_ret. by apply insert_done.
    + intros e s' [_ Hno] [Hg Hf]. by apply Hno.
  - destruct Hop as (ps' & Hc & Hp). assert (ps' = ps) as -> by (eapply heap_chain_det; [exact Hc|apply H]).
    eapply wp_mono; [by apply (wp_get me h s l ps R)| |].
    + intros r s' [Hs ->]. apply wp_ret. exists l, ps, R. split; [by eapply heap_rep_same|]. split; [by apply same_frame|].
      rewrite <- lookup_fmap. constructor.
    + by intros e s' [_ Hw].
  - destruct Hop as (ps' & Hc & Hp). assert (ps' = ps) as -> by (eapply heap_chain_det; [exact Hc|apply H]).
    eapply wp_mono; [by apply (wp_delete me h s l ps R)| |].
    + intros b s' Hg. apply wp_ret. by apply delete_done.
    + intros e s' [_ Hno] [Hg Hn]. apply (Hno Hg). split; [by eapply can_grow_willing|]. intros i Hi.
      assert (Hsome : is_Some (seen s i)).
      { unfold row_ids in Hi. destruct (R !! key rid) as [row|] eqn:HR; cbn in Hi; [|by apply not_elem_of_nil in Hi].
        destruct (heap_rep_page h _ _ _ _ _ H Hp) as (rs & next & Hpage & _).
        pose proof (hr_rows _ _ _ _ _ H _ rs next (slot_nat rid) Hp Hpage) as Hr. fold (key rid) in Hr. rewrite HR in Hr.
        destruct (_ ≫= id) as [[st []]|], row as [bs ids]; cbn [row_rep] in Hr; try done; [|destruct Hr as [_ ->]; by apply not_elem_of_nil in Hi].
        destruct Hr as (head & chunks & _ & _ & _ & [Hat _ _] & _). eapply overflow_at_is_Some; [exact Hat|exact Hi]. }
      destruct Hsome as [page Hpage]. exists page. split; [done|]. by eapply Hn.
  - eapply wp_mono; [by apply (wp_scan me h s l ps R)| |].
    + intros r s' (Hs & Hn & Hr). apply wp_ret. exists l, ps, R. split; [by eapply heap_rep_same|]. split; [by apply same_frame|].
      apply map_scan; [done|]. intros rid. by rewrite is_Some_fmap_fst.
    + by intros e s' [_ Hw].
Qed.

(** ** Histories *)

(** Operations one after the other, none of which fails. *)
Inductive heap_run (h : Heap) : DiskStorage → list (HeapOp * HeapAnswer) → DiskStorage → Prop :=
  | heap_run_nil s : heap_run h s [] s
  | heap_run_cons s s1 s' op a tr : op_ok h s op → run_op h op s = (Ok a, s1) → heap_run h s1 tr s' → heap_run h s ((op, a) :: tr) s'.

Lemma run_done h s l ps R op a s' :
  disk_ok me None ∅ s → alloc_ok s l → heap_rep h s l ps R → op_ok h s op → run_op h op s = (Ok a, s') → op_done h s l ps R op a s'.
Proof using Type. intros Hok Ha H Hop He. exact (wp_inv _ _ _ _ _ _ (op_returns h s l ps R op Hok Ha H Hop) He). Qed.

(** C17. A heap is a map from addresses to records: over every run of inserts, reads, deletes and
    scans that answer, the reads and deletes being of addresses in pages of its chain, the answers are those of the map, whatever the lengths of the records (in
    a page or in a chain of overflow pages) and however the pages were compacted and chained, and
    the instance ends up holding the records of the map. *)
Theorem heap_refines_a_map h s M tr s' :
  stores h s M → heap_run h s tr s' → ∃ M', map_run M tr M' ∧ stores h s' M'.
Proof using Type.
  intros Hs Hr. revert M Hs. induction Hr as [s|s s1 s' op a tr Hop He Hr IH]; intros M Hs; [exists M; split; [constructor|done]|].
  destruct Hs as (l & ps & R & Hok & Ha & H & ->). destruct (run_done _ _ _ _ _ _ _ _ Hok Ha H Hop He) as (l1 & ps1 & R1 & H1 & Hf & Hm).
  destruct (IH (fst <$> R1)) as (M' & Hrun & Hst); [exists l1, ps1, R1; split_and!; try done; apply Hf|].
  exists M'. split; [by econstructor|done].
Qed.

(** Two heaps of the instance, with no page in common. *)
Definition apart (s : DiskStorage) (h1 : Heap) (M1 : Records) (h2 : Heap) (M2 : Records) : Prop :=
  ∃ l ps1 R1 ps2 R2, disk_ok me None ∅ s ∧ alloc_ok s l ∧ heap_rep h1 s l ps1 R1 ∧ heap_rep h2 s l ps2 R2 ∧
    (∀ i, heap_pages ps1 R1 i → ¬ heap_pages ps2 R2 i) ∧ M1 = fst <$> R1 ∧ M2 = fst <$> R2.

(** C19. Two heaps of an instance do not touch each other: an operation on the first, on an
    address of a page of its own chain, does to its records what it does to a map, leaves the records of the second as they were, and the two
    heaps still share no page, whatever pages were taken from the free list or given back. *)
Theorem heaps_do_not_interfere s h1 M1 h2 M2 op a s' :
  apart s h1 M1 h2 M2 → op_ok h1 s op → run_op h1 op s = (Ok a, s') → ∃ M1', map_step M1 op a M1' ∧ apart s' h1 M1' h2 M2.
Proof using Type.
  intros (l & ps1 & R1 & ps2 & R2 & Hok & Ha & H1 & H2 & Hap & -> & ->) Hop He.
  destruct (run_done _ _ _ _ _ _ _ _ Hok Ha H1 Hop He) as (l' & ps' & R' & H' & Hf & Hm).
  assert (Hother : ∀ i, heap_pages ps2 R2 i → in_use s l i ∧ ¬ heap_pages ps1 R1 i).
  { intros i Hi. split; [by eapply heap_pages_use|]. intros Hi1. by apply (Hap i). }
  exists (fst <$> R'). split; [done|]. exists l', ps', R', ps2, R2. split_and!; try done; [apply Hf|apply Hf| |].
  - apply (heap_rep_kept h2 s l); [|done]. intros i Hi. destruct (Hother i Hi). by apply (of_kept _ _ _ _ _ _ _ _ Hf).
  - intros i Hi Hi2. destruct (Hother i Hi2) as [Hu Hn]. by destruct (of_pages _ _ _ _ _ _ _ _ Hf i Hi).
Qed.

(** C20. The operations of a heap answer, with no error and no walk that goes on for ever, whatever
    the sizes of the file and of the pool: a read or a scan when the system refuses nothing and the
    pool has a frame it may give up; an insert when the pool has such frames for the pages it
    writes, which are bounded by the length of the record, and the file and the journal can grow by
    as much; a delete when the pool has two such frames and no page is ahead of the journal. *)
Theorem heap_operations_return h s M op :
  stores h s M → op_ok h s op → op_room s op → ∃ a s', run_op h op s = (Ok a, s').
Proof using Type.
  intros (l & ps & R & Hok & Ha & H & _) Hop Hroom. pose proof (op_returns h s l ps R op Hok Ha H Hop) as Hw. unfold wp in Hw.
  destruct (run_op h op s) as [[a|[e|]] s']; [eauto|done|done].
Qed.

(** A record reads back: an insert answers a free address, and a read of that address returns
    the bytes inserted, be they in the page or in a chain of overflow pages. *)
Theorem inserted_record_reads_back h s M bytes :
  stores h s M → Forall is_byte bytes → op_room s (OpInsert bytes) →
  ∃ rid s1 s2, insert me h bytes s = (Ok rid, s1) ∧ get me h rid s1 = (Ok (Some bytes), s2) ∧ M !! key rid = None ∧ stores h s2 (<[key rid := bytes]> M).
Proof using Type.
  intros (l & ps & R & Hok & Ha & H & ->) Hb [Hg Hfit]. pose proof (wp_insert me h s l ps R bytes Hok Ha H Hb) as Hw. unfold wp in Hw.
  destruct (insert me h bytes s) as [[rid|[e|]] s1]; [|by destruct Hw as [_ Hno]; destruct (Hno Hfit)|done].
  destruct Hw as (l1 & ps1 & ids & Hrep & Hfree & Hin & H0 & _ & (X & Hah & _) & _). exists rid, s1.
  assert (Hwill : willing s1) by (eapply can_grow_willing, (ahead_grow me _ _ _ _ _ _ _ 0 0 Hah); rewrite !Nat.add_0_r; exact Hg).
  pose proof (wp_get me h s1 l1 ps1 _ rid (h_ok _ _ _ _ _ _ _ _ Hah) (h_list _ _ _ _ _ _ _ _ Hah) Hrep Hin) as Hget. unfold wp in Hget.
  destruct (get me h rid s1) as [[r|[e|]] s2]; [|by destruct Hget|done]. destruct Hget as [Hs2 ->]. exists s2.
  assert (Hlook : with_row (key rid) (Some (bytes, ids)) R !! key rid = Some (bytes, ids)) by (unfold with_row; by rewrite lookup_partial_alter_eq).
  rewrite Hlook. split_and!; [done|done|by rewrite lookup_fmap, Hfree|].
  exists l1, ps1, (with_row (key rid) (Some (bytes, ids)) R). split_and!; [apply Hs2| | |by rewrite fmap_with_row].
  - apply (h_list _ _ _ _ _ _ _ _ (same_pages_ahead me s1 l1 s2 (h_list _ _ _ _ _ _ _ _ Hah) Hs2)).
  - eapply heap_rep_same; [apply Hah|exact Hs2|exact Hrep].
Qed.

(** A heap created on a page handed out holds nothing. *)
Lemma created_stores h s l : disk_ok me None ∅ s → alloc_ok s l → in_use s l (first_page h) → (create me h s).1 = Ok () →
  ahead me s l (create me h s).2 l 0 1 {[first_page h]} ∧ heap_rep h (create me h s).2 l [first_page h] ∅.
Proof using Type.
  intros Hok Ha Hu He. pose proof (wp_create me h s l Hok Ha Hu) as Hw. unfold wp in Hw. destruct (create me h s) as [[[]|[e|]] s']; done.
Qed.
End thread.

(** ** Witnesses *)

Definition heap_0 : Heap := mkHeap 1 0.
Definition heap_1 : Heap := mkHeap 2 1.

(** The first page handed out and made a heap, and the next one. *)
Definition with_heap (h : Heap) (s : DiskStorage) : DiskStorage := (create 1 h (allocate 1 s).2).2.

Lemma first_heap_rep s :
  fresh_instance s → (allocate 1 s).1 = Ok 0%N → (create 1 heap_0 (allocate 1 s).2).1 = Ok () →
  ∃ l, disk_ok 1 None ∅ (with_heap heap_0 s) ∧ alloc_ok (with_heap heap_0 s) l ∧ heap_rep heap_0 (with_heap heap_0 s) l [0%N] ∅.
Proof.
  intros Hf He Hc. assert (Hr : alloc_reachable 1 (∅ ∪ {[0%N]}, (allocate 1 s).2)).
  { eapply alloc_next; [by apply alloc_start|]. by apply step_allocate, run_ok. }
  destruct (reachable_owned 1 _ Hr) as [l [Hok Ha Hu]]. cbn [fst snd] in *.
  destruct (created_stores 1 heap_0 (allocate 1 s).2 l) as [Hah Hrep]; [done|done| |done|].
  - destruct (Hu 0%N); [set_solver|]. by split.
  - exists l. split_and!; [apply Hah|apply Hah|done].
Qed.

Lemma second_heap_apart s :
  (∃ l, disk_ok 1 None ∅ s ∧ alloc_ok s l ∧ heap_rep heap_0 s l [0%N] ∅) →
  (allocate 1 s).1 = Ok 1%N → (create 1 heap_1 (allocate 1 s).2).1 = Ok () → apart 1 (with_heap heap_1 s) heap_0 ∅ heap_1 ∅.
Proof.
  intros (l & Hok & Ha & H) He. pose proof (wp_allocate_ahead 1 l s Hok Ha) as Hw. unfold wp in Hw. unfold with_heap.
  destruct (allocate 1 s) as [r s1]. cbn [fst snd] in *. subst r. intros Hc. destruct Hw as (l1 & H1 & Hni & Hin & _).
  assert (Hrep1 : heap_rep heap_0 s1 l1 [0%N] ∅) by (eapply heap_rep_ahead; [exact H1|set_solver|intros k row i; by rewrite lookup_empty|done]).
  destruct (created_stores 1 heap_1 s1 l1 (h_ok _ _ _ _ _ _ _ _ H1) (h_list _ _ _ _ _ _ _ _ H1) Hin Hc) as [Hah Hrep].
  exists l1, [0%N], ∅, [1%N], ∅. rewrite fmap_empty. split_and!; try done; [apply Hah|apply Hah| |].
  - eapply heap_rep_ahead; [exact Hah|cbn; set_solver|intros k row i; by rewrite lookup_empty|done].
  - intros i [Hi|(k & row & Hk & _)]; [|by rewrite lookup_empty in Hk]. intros [Hi'|(k & row & Hk & _)]; [|by rewrite lookup_empty in Hk]. set_solver.
Qed.

Definition one_heap : DiskStorage := with_heap heap_0 new_instance.
Definition two_heaps : DiskStorage := with_heap heap_1 one_heap.

Lemma one_heap_rep : ∃ l, disk_ok 1 None ∅ one_heap ∧ alloc_ok one_heap l ∧ heap_rep heap_0 one_heap l [0%N] ∅.
Proof. apply first_heap_rep; [apply instance_of_fresh; lia|by vm_compute..]. Qed.

Lemma one_heap_stores : stores 1 heap_0 one_heap ∅.
Proof. destruct one_heap_rep as (l & Hok & Ha & H). exists l, [0%N], ∅. by split_and!. Qed.

Lemma two_heaps_apart : apart 1 two_heaps heap_0 ∅ heap_1 ∅.
Proof. apply second_heap_apart; [exact one_heap_rep|by vm_compute..]. Qed.

(** Two heaps of a page each, in an instance whose pool has one frame. *)
Definition small_pool : DiskStorage := with_heap heap_1 (with_heap heap_0 (instance_of 1)).

Lemma small_pool_stores : stores 1 heap_0 small_pool ∅.
Proof.
  assert (apart 1 small_pool heap_0 ∅ heap_1 ∅) as (l & ps1 & R1 & ps2 & R2 & Hok & Ha & H1 & _ & _ & HM & _).
  { apply second_heap_apart; [apply first_heap_rep; [apply instance_of_fresh; lia|by vm_compute..]|by vm_compute..]. }
  exists l, ps1, R1. by split_and!.
Qed.

Lemma run_insert h bytes s rid : (insert 1 h bytes s).1 = Ok rid → run_op 1 h (OpInsert bytes) s = (Ok (ARid rid), (insert 1 h bytes s).2).
Proof. intros He. cbn [run_op]. unfold mbind, stateful_bind. rewrite (run_ok _ _ _ He). reflexivity. Qed.

Lemma run_scan h s rids : (scan 1 h s).1 = Ok rids → run_op 1 h OpScan s = (Ok (ARids rids), (scan 1 h s).2).
Proof. intros He. cbn [run_op]. unfold mbind, stateful_bind. rewrite (run_ok _ _ _ He). reflexivity. Qed.

Lemma heap_refines_a_map_witness :
  ∃ M', map_run ∅ [(OpInsert [1; 2; 3], ARid (mkRid 0 0)); (OpScan, ARids [mkRid 0 0])] M' ∧
    stores 1 heap_0 (scan 1 heap_0 (insert 1 heap_0 [1; 2; 3] one_heap).2).2 M'.
Proof.
  apply (heap_refines_a_map 1 heap_0 one_heap ∅); [apply one_heap_stores|].
  apply (heap_run_cons _ _ _ (insert 1 heap_0 [1; 2; 3] one_heap).2); [by repeat constructor|apply run_insert; by vm_compute|].
  eapply heap_run_cons; [done|apply run_scan; by vm_compute|apply heap_run_nil].
Defined.

Lemma heaps_do_not_interfere_witness :
  ∃ M1', map_step ∅ (OpInsert [7]) (ARid (mkRid 0 0)) M1' ∧ apart 1 (run_op 1 heap_0 (OpInsert [7]) two_heaps).2 heap_0 M1' heap_1 ∅.
Proof.
  apply (heaps_do_not_interfere 1 two_heaps heap_0 ∅ heap_1 ∅ (OpInsert [7]) (ARid (mkRid 0 0)) _ two_heaps_apart);
    [by repeat constructor|]. apply run_ok. by vm_compute.
Defined.

(** The pages of a new heap carry no number: they are tied to no record. *)
Lemma unnumbered_room s :
  (∀ i, ¬ busy (pool s) i) → (∀ i page, seen s i = Some page → Page.lsn page = 0%N) → (0 < capacity (pool s))%nat → room s 0.
Proof.
  intros Hb Hs Hc. exists ∅. split; [|by rewrite size_empty]. intros i [Hi|(page & Hp & Hl)]; [by destruct (Hb i)|].
  rewrite (Hs i page Hp) in Hl. lia.
Qed.

Lemma small_pool_room : room small_pool 0.
Proof.
  destruct small_pool_stores as (l & ps & R & Hok & _). apply unnumbered_room; [| |vm_compute; lia].
  - intros i (slot & f & Hf & _ & Hip). destruct slot as [|slot]; [|by vm_compute in Hf].
    assert (Hn : f_in_progress <$> frames (inner (pool small_pool)) !! 0%nat = Some false) by by vm_compute. rewrite Hf in Hn. cbn in Hn. congruence.
  - intros i page Hp. assert (Hlt : (i < 2)%N).
    { assert (Hpc : page_count (data small_pool) = 2%N) by by vm_compute. rewrite <- Hpc. by eapply seen_in_file. }
    assert (Hl : ∀ j, (j < 2)%N → Page.lsn <$> seen small_pool j = Some 0%N).
    { intros j Hj. assert (j = 0 ∨ j = 1)%N as [-> | ->] by lia; by vm_compute. }
    specialize (Hl i Hlt). rewrite Hp in Hl. by injection Hl.
Qed.

Lemma heap_operations_return_witness :
  (N.to_nat (page_count (data small_pool)) > capacity (pool small_pool))%nat ∧
  ∃ a s', run_op 1 heap_0 OpScan small_pool = (Ok a, s').
Proof.
  split; [vm_compute; lia|]. apply (heap_operations_return 1 heap_0 small_pool ∅); [apply small_pool_stores|done|].
  split; [by vm_compute|exact small_pool_room].
Defined.

Lemma inserted_record_reads_back_witness :
  ∃ rid s1 s2, insert 1 heap_0 (replicate (90 * 91) 5) one_heap = (Ok rid, s1) ∧ get 1 heap_0 rid s1 = (Ok (Some (replicate (90 * 91) 5)), s2) ∧
    (∅ : Records) !! key rid = None ∧ stores 1 heap_0 s2 (<[key rid := replicate (90 * 91) 5]> ∅).
Proof.
  apply (inserted_record_reads_back 1 heap_0 one_heap ∅); [apply one_heap_stores| |].
  - by apply Forall_replicate.
  - split; [|by vm_compute]. split_and!; [by vm_compute| |by vm_compute|by vm_compute].
    destruct one_heap_rep as (l & Hok & _). apply (small_file_room 1 None ∅ one_heap _ Hok). apply Nat.ltb_lt. by vm_compute.
Defined.
