(* ===== verification/JournalTheorems.v ===== *)
(** * The journal is durable

    What [wal.rs] promises to the rest of the disk storage: the records that are durable
    survive a crash, a reader finds what was appended, a torn end is cut, an answer of the
    group commit is about records on the disk, and a page rebuilt from the journal is the page
    that was written. *)

From S2P Require Import Prelude Errors Bytes Crc Page Wal WalFacts WalState.
From S2P Require Import GroupCommit PageWrite PageWriteFacts.

#[local] Open Scope Z_scope.

Lemma reachable_holds h rs : reachable h → all_records (wal h) = Ok rs → holds (wal h) rs.
Proof.
  intros Hr Hrs. destruct (g_wal _ (reachable_group_ok h Hr)) as [rs' Hw].
  assert (rs' = rs) as <- by (apply all_records_holds in Hw; congruence). done.
Qed.

(** C13. Whatever the threads of a shared journal did, as long as no sync failed: a crash keeps
    every record the durable LSN covers.  Opening the file that the crash left answers a journal
    whose records start with all of them in order, or reports the damage as a corruption. *)
Theorem journal_survives_a_crash h rs img path o :
  reachable h → stuck (file (wal h)) = false → all_records (wal h) = Ok rs → crash_image (file (wal h)) img →
  match open path o (found img) with
  | (Ok w, _) => ∃ more, all_records w = Ok (take (N.to_nat (durable_lsn (wal h))) rs ++ more)
  | (Err e, _) => (∃ m, e = Corruption m) ∨ ∃ m, o = SyncFailed m ∧ e = Io m
  end.
Proof.
  intros Hr Hst Hrs Himg. pose proof (crash_recovers _ rs img path o (reachable_holds h rs Hr Hrs) Hst Himg) as Hc.
  destruct (open path o (found img)) as [[w|e] f]; [|done].
  destruct Hc as [more Hw]. exists more. by apply all_records_holds.
Qed.

(** C14. Over every interleaving of the calls of a shared journal: a call of [wait_durable] that
    answers [Ok] has its record at or below the durable LSN; one call at a time leads a sync,
    and the flag of the group says so; a caller that waits without having been woken has a
    leader at work or a notification on its way. *)
Theorem group_commit_is_sound h :
  reachable h →
  (∀ t lsn, calls h !! t = Some (Done lsn (Ok ())) → (lsn ≤ durable_lsn (wal h))%N) ∧
  (∀ t t' p p', calls h !! t = Some p → calls h !! t' = Some p' → leads p = true → leads p' = true → t = t') ∧
  (syncing h = true ↔ ∃ t p, calls h !! t = Some p ∧ leads p = true) ∧
  (∀ t lsn, calls h !! t = Some (Waiting lsn false) →
    syncing h = true ∨ ∃ t' l a, calls h !! t' = Some (Notifying l a)).
Proof.
  intros [_ Hp Hs Hy Hw]%reachable_group_ok. split_and!; [|done..].
  intros t lsn Ht. exact (Hp t _ Ht).
Qed.

(** An append succeeds exactly when the payload fits, a number is left and the write is whole. *)
Lemma append_answers kind txn payload o w :
  let able := o = Written ∧ (N.of_nat (length payload) ≤ MAX_PAYLOAD_LEN)%N ∧ (last_lsn w < u64_max)%N in
  match append kind txn payload o w with (Ok _, _) => able | (Err _, _) => ¬ able end.
Proof.
  intros able. unfold append. destruct (N.ltb_spec MAX_PAYLOAD_LEN (N.of_nat (length payload))); [unfold able; lia|].
  destruct (checked_succ u64_max (last_lsn w)) as [lsn|] eqn:Hl.
  - apply checked_succ_Some in Hl as [-> Hl]. destruct o; cbn [write_all]; [done|]. by intros [? _].
  - intros (_ & _ & Hlt). assert (checked_succ u64_max (last_lsn w) = Some (last_lsn w + 1)%N) by (by apply checked_succ_Some).
    congruence.
Qed.

(** An append to a shared journal takes the next number and its record is read back after
    the earlier ones, when the payload fits, a number is left and the file takes the bytes; in
    any other case the records read back are those there were.  The durable LSN does not move. *)
Theorem append_reads_back h rs kind txn payload o :
  reachable h → all_records (wal h) = Ok rs → (txn ≤ u64_max)%N → Forall is_byte payload →
  match append kind txn payload o (wal h) with
  | (Ok lsn, w) =>
      o = Written ∧ (N.of_nat (length payload) ≤ MAX_PAYLOAD_LEN)%N ∧ (last_lsn (wal h) < u64_max)%N ∧
      lsn = (last_lsn (wal h) + 1)%N ∧ durable_lsn w = durable_lsn (wal h) ∧
      all_records w = Ok (rs ++ [mkWalRecord kind lsn (last_lsn (wal h)) txn payload])
  | (Err e, w) =>
      ¬ (o = Written ∧ (N.of_nat (length payload) ≤ MAX_PAYLOAD_LEN)%N ∧ (last_lsn (wal h) < u64_max)%N) ∧
      durable_lsn w = durable_lsn (wal h) ∧ all_records w = Ok rs
  end.
Proof.
  intros Hr Hrs Ht Hp. pose proof (append_holds _ rs kind txn payload o (reachable_holds h rs Hr Hrs) Ht Hp) as Ha.
  pose proof (append_answers kind txn payload o (wal h)) as Hok.
  destruct (append kind txn payload o (wal h)) as [[lsn|e] w].
  - destruct Ha as (Hw & Hl & _ & Hd & _). apply all_records_holds in Hw. destruct Hok as (? & ? & ?).
    subst lsn. by split_and!.
  - destruct Ha as (Hw & Hd & _). apply all_records_holds in Hw. by split_and!.
Qed.

(** A journal whose last write was cut by a crash, anywhere inside the record, opens: the
    records before it are read back in order, the file is cut back to them and all of them are
    durable, when the torn bytes hold no record of their own further on. *)
Theorem torn_tail_is_cut path rs r n :
  let img := journal rs ++ take n (encode_record r) in
  Forall record_ok rs → chain 0 rs → record_ok r → (n < length (encode_record r))%nat →
  sealed_record_after img (N.of_nat (length (journal rs))) = Ok None →
  ∃ w f, open path Synced (found img) = (Ok w, f) ∧ all_records w = Ok rs ∧ content f = journal rs ∧
    durable_lsn w = N.of_nat (length rs) ∧ last_lsn w = N.of_nat (length rs).
Proof.
  intros img Hok Hch Hr Hn Hs. destruct (open_cuts_torn path rs r n Hok Hch Hr Hn Hs) as (w & f & Ho & Hw & Hc & Hd).
  pose proof (h_last _ _ Hw) as Hl. exists w, f.
  assert (Hf : file w = f) by (unfold open in Ho; repeat case_match; by simplify_eq/=).
  split_and!; [done|by apply all_records_holds|by rewrite <- Hf|by rewrite Hd|done].
Qed.

(** ** A sync after a failed one *)

(** The handle of a new journal. *)
Definition new_journal : Handle := mkHandle (mkWal "wal" (mkFile [] 0 false) 0 0 0 0) false [] ∅.

(** One thread appends record 1 and its group sync fails; another appends record 2 and its
    group sync succeeds. *)
Definition failed_then_synced : Handle :=
  let h := with_wal (run_journal (OAppend WalRecordKind.Commit 1 [] Written) (wal new_journal)) new_journal in
  let h := check 1 1 (put 1 (Entering 1) h) in
  let h := sync_file 1 1 1 1 (SyncFailed []) (read_target 1 1 h) in
  let h := notify 1 1 (Err (failed_sync 1)) (finish 1 1 (Some (1, 1)%N) h) in
  let h := with_wal (run_journal (OAppend WalRecordKind.Commit 2 [] Written) (wal h)) h in
  let h := check 2 2 (put 2 (Entering 2) h) in
  let h := note 2 2 2 (sync_file 2 2 1 2 Synced (read_target 2 2 h)) in
  notify 2 2 (Ok ()) (finish 2 2 None h).

Ltac turn rule := eapply reachable_step; [|eapply rule; vm_compute; done].

Lemma failed_then_synced_reachable : reachable failed_then_synced.
Proof.
  unfold failed_then_synced. cbv zeta.
  turn step_notify. turn step_finish. turn step_note. turn step_sync. turn step_read. turn step_check.
  turn step_call. turn (step_journal (OAppend WalRecordKind.Commit 2 [] Written)).
  turn step_notify. turn step_finish. turn step_sync. turn step_read. turn step_check. turn step_call.
  turn (step_journal (OAppend WalRecordKind.Commit 1 [] Written)).
  apply (reachable_open "wal" (found []) _ (mkFile [] 0 false)); [constructor|done|by vm_compute].
Qed.

(** The group commit answers [Ok] for a record behind one whose sync failed: after the failed
    sync of record 1, the sync of record 2 moves the durable LSN over both and its caller is told
    that its record is durable.  Since the later sync says nothing on the bytes of the first, a
    crash may lose record 1, and then record 2 with it: the journal opens empty. *)
Example later_sync_covers_a_failed_one :
  ∃ h img w f, reachable h ∧ failed h = [(1, 1)%N] ∧ durable_lsn (wal h) = 2%N ∧
    calls h !! 1%N = Some (Done 1 (Err (failed_sync 1))) ∧ calls h !! 2%N = Some (Done 2 (Ok ())) ∧
    crash_image (file (wal h)) img ∧ open "wal" Synced (found img) = (Ok w, f) ∧ all_records w = Ok [].
Proof.
  exists failed_then_synced, [], (mkWal "wal" (mkFile [] 0 false) 0 0 0 0), (mkFile [] 0 false).
  split; [apply failed_then_synced_reachable|]. by split_and!; vm_compute.
Qed.

(** ** Page writes *)

(** C25. Redo brings a page of the file up to date: the file holds the page sealed at any point of
    its history, the journal holds the deltas of the whole history, and applying the records in
    order, those at or below the number of the page being passed over, gives the page in memory
    at the end, checksum included; and that page is the last one staged, the bytes of the header
    the journal does not carry apart.  The history is one of [commit]s, where a page takes the
    number of its own record; [commit_behind], which leaves it at an earlier one, is not in it. *)
Theorem redo_rebuilds_the_page id page ws1 ws2 :
  length page = PAGE_SIZE → writes_ok (lsn page) (ws1 ++ ws2) →
  let last := images id page (ws1 ++ ws2) in
  seal (redo_all (seal (images id page ws1)) (logged id page (ws1 ++ ws2))) = seal last ∧
  ∀ ws l after, ws1 ++ ws2 = ws ++ [(l, after)] → same_logged last after.
Proof.
  intros Hp Hw last. split; [|intros ws l after He; unfold last; rewrite He in Hw |- *; by apply images_last].
  destruct (images_ok id page ws1 Hp (writes_ok_prefix _ _ _ Hw)) as (H1 & H2 & H3 & H4). specialize (H4 ws2 Hw).
  unfold last. apply seal_same. rewrite images_app. set (p1 := images id page ws1) in *.
  assert (He : redo_all p1 (logged id page (ws1 ++ ws2)) = images id p1 ws2).
  { rewrite logged_app. fold p1.
    assert (Hpast : redo_all p1 (logged id page ws1) = p1).
    { apply redo_all_past. eapply Forall_impl; [exact H3|]. intros x Hx. cbn beta in Hx. lia. }
    unfold redo_all in *. rewrite foldl_app, Hpast. by apply redo_all_ahead. }
  rewrite <- He. apply redo_all_same; [by apply logged_in_page|]. by apply seal_but_checksum.
Qed.

(** One page of a page write: its image before, the page staged and the delta made of them. *)
Definition staged_as (d : PageDelta) : Prop :=
  ∃ before after, page_ok before ∧ page_ok after ∧ (d_page d ≤ u64_max)%N ∧
    staged_delta (d_page d) before after = Some d.

(** C26. A page write of at most [PAGES_PER_RECORD] staged pages fits in one record of the journal,
    whatever changed in the pages, and reads back as it was written. *)
Theorem page_write_fits_a_record ds root :
  Forall staged_as ds → (length ds ≤ PAGES_PER_RECORD)%nat →
  match root with Some m => (rm_table m ≤ u32_max)%N ∧ (rm_root m ≤ u64_max)%N | None => True end →
  let payload := encode_page_write (mkPageWrite ds root) in
  (N.of_nat (length payload) ≤ MAX_PAYLOAD_LEN)%N ∧ decode_page_write payload = Ok (mkPageWrite ds root).
Proof.
  intros Hds Hn Hroot payload. split.
  - apply page_write_fits; [done|]. eapply Forall_impl; [exact Hds|]. intros d (before & after & [Hb _] & [Ha _] & _ & Hd).
    by destruct (staged_delta_apart _ _ _ d Hb Ha Hd).
  - apply decode_encode_page_write. split_and!; [|eapply Forall_impl; [exact Hds|]|by destruct root].
    + unfold PAGES_PER_RECORD in Hn. cbn [pw_pages]. lia.
    + intros d (before & after & Hb & Ha & Hid & Hd). exact (staged_delta_ok _ _ _ _ Hb Ha Hid Hd).
Qed.

(** ** Witnesses *)

(** A journal with one durable record and one that is not. *)
Definition half_durable : Handle :=
  let h := with_wal (run_journal (OAppendDurable WalRecordKind.Begin 7 [] Written Synced) (wal new_journal)) new_journal in
  with_wal (run_journal (OAppend WalRecordKind.Insert 7 [1; 2; 3] Written) (wal h)) h.

Lemma half_durable_reachable : reachable half_durable.
Proof.
  eapply reachable_step; [eapply reachable_step|].
  - apply (reachable_open "wal" (found []) new_journal (mkFile [] 0 false)); [constructor|done|by vm_compute].
  - apply (step_journal (OAppendDurable WalRecordKind.Begin 7 [] Written Synced)). split; [by vm_compute|constructor].
  - apply (step_journal (OAppend WalRecordKind.Insert 7 [1; 2; 3] Written)). split; [by vm_compute|].
    repeat (constructor; [unfold is_byte; lia|]). constructor.
Qed.

Definition begin_7 : WalRecord := mkWalRecord WalRecordKind.Begin 1 0 7 [].
Definition insert_7 : WalRecord := mkWalRecord WalRecordKind.Insert 2 1 7 [1; 2; 3].

Lemma half_durable_records : all_records (wal half_durable) = Ok [begin_7; insert_7].
Proof. by vm_compute. Qed.

(** The crash that leaves half of the second record. *)
Definition half_image : list Z := encode_record begin_7 ++ take 20 (encode_record insert_7).

Lemma half_image_bytes : Forall is_byte half_image.
Proof. apply (bool_decide_unpack (Forall (λ b, 0 ≤ b < 256) half_image)). by vm_compute. Qed.

Lemma half_image_crash : crash_image (file (wal half_durable)) half_image.
Proof. split; [by vm_compute|apply half_image_bytes]. Qed.

Lemma journal_survives_a_crash_witness :
  match open "wal" Synced (found half_image) with
  | (Ok w, _) => ∃ more, all_records w = Ok (take (N.to_nat (durable_lsn (wal half_durable))) [begin_7; insert_7] ++ more)
  | (Err e, _) => (∃ m, e = Corruption m) ∨ ∃ m, Synced = SyncFailed m ∧ e = Io m
  end.
Proof.
  apply (journal_survives_a_crash half_durable [begin_7; insert_7] half_image "wal" Synced).
  - apply half_durable_reachable.
  - by vm_compute.
  - apply half_durable_records.
  - apply half_image_crash.
Defined.

Lemma group_commit_is_sound_witness : (2 ≤ durable_lsn (wal failed_then_synced))%N.
Proof.
  apply (proj1 (group_commit_is_sound failed_then_synced failed_then_synced_reachable) 2%N). by vm_compute.
Defined.

Lemma append_reads_back_witness :
  match append WalRecordKind.Commit 7 [] Written (wal half_durable) with
  | (Ok lsn, w) => Written = Written ∧ (N.of_nat (length (@nil Z)) ≤ MAX_PAYLOAD_LEN)%N ∧
      (last_lsn (wal half_durable) < u64_max)%N ∧ lsn = (last_lsn (wal half_durable) + 1)%N ∧
      durable_lsn w = durable_lsn (wal half_durable) ∧
      all_records w = Ok ([begin_7; insert_7] ++ [mkWalRecord WalRecordKind.Commit lsn (last_lsn (wal half_durable)) 7 []])
  | (Err e, w) =>
      ¬ (Written = Written ∧ (N.of_nat (length (@nil Z)) ≤ MAX_PAYLOAD_LEN)%N ∧ (last_lsn (wal half_durable) < u64_max)%N) ∧
      durable_lsn w = durable_lsn (wal half_durable) ∧ all_records w = Ok [begin_7; insert_7]
  end.
Proof.
  apply (append_reads_back half_durable [begin_7; insert_7] WalRecordKind.Commit 7 [] Written).
  - apply half_durable_reachable.
  - apply half_durable_records.
  - by vm_compute.
  - constructor.
Defined.

Lemma begin_7_ok : record_ok begin_7.
Proof. unfold record_ok, MAX_PAYLOAD_LEN. split_and!; [by vm_compute..|constructor|by vm_compute]. Qed.

Lemma insert_7_ok : record_ok insert_7.
Proof.
  split_and!; [by vm_compute..| |by vm_compute].
  repeat (constructor; [unfold is_byte; lia|]). constructor.
Qed.

Lemma torn_tail_is_cut_witness :
  ∃ w f, open "wal" Synced (found (journal [begin_7] ++ take 20 (encode_record insert_7))) = (Ok w, f) ∧
    all_records w = Ok [begin_7] ∧ content f = journal [begin_7] ∧ durable_lsn w = 1%N ∧ last_lsn w = 1%N.
Proof.
  apply (torn_tail_is_cut "wal" [begin_7] insert_7 20).
  - constructor; [apply begin_7_ok|constructor].
  - by vm_compute.
  - apply insert_7_ok.
  - rewrite length_encode_record. simpl. lia.
  - by vm_compute.
Defined.

(** Three images of a page: a heap page laid out, then two more slots. *)
Definition heap_page : Page := empty Heap 3.
Definition page_history : list (Lsn * Page) := [(5%N, heap_page); (8%N, set_slot_count 2 heap_page)].

Lemma redo_rebuilds_the_page_witness :
  let last := images 3 (empty Free 3) page_history in
  seal (redo_all (seal (images 3 (empty Free 3) [(5%N, heap_page)])) (logged 3 (empty Free 3) page_history)) = seal last ∧
  ∀ ws l after, page_history = ws ++ [(l, after)] → same_logged last after.
Proof.
  apply (redo_rebuilds_the_page 3 (empty Free 3) [(5%N, heap_page)] [(8%N, set_slot_count 2 heap_page)]).
  - apply empty_ok.
  - assert (Hh : length heap_page = PAGE_SIZE) by apply empty_ok.
    pose proof PAGE_SIZE_Z. cbn [app writes_ok]. split_and!; [by vm_compute|by vm_compute|done|by vm_compute|by vm_compute| |done].
    unfold set_slot_count, write_u16. rewrite length_splice; [done|].
    rewrite length_to_le_bytes, Hh. unfold OFF_SLOT_COUNT. lia.
Defined.

(** The delta of a free page taken for a heap page. *)
Definition heap_delta : PageDelta :=
  default (mkPageDelta 3 0 false []) (staged_delta 3 (empty Free 3) heap_page).

Lemma page_write_fits_a_record_witness :
  let payload := encode_page_write (mkPageWrite [heap_delta] (Some (mkRootMove 1 Directory 3))) in
  (N.of_nat (length payload) ≤ MAX_PAYLOAD_LEN)%N ∧
  decode_page_write payload = Ok (mkPageWrite [heap_delta] (Some (mkRootMove 1 Directory 3))).
Proof.
  apply (page_write_fits_a_record [heap_delta] (Some (mkRootMove 1 Directory 3))).
  - constructor; [|constructor]. exists (empty Free 3), heap_page.
    split_and!; [apply empty_ok|apply empty_ok|by vm_compute|by vm_compute].
  - simpl. unfold PAGES_PER_RECORD. lia.
  - by vm_compute.
Defined.
