(* ===== verification/DiskTheorems.v ===== *)
(** * What the disk holds reads back

    The formats of the disk storage: rows, pages, row records of the journal and the control
    file are read back as they were written, and bytes that were damaged are refused. *)

From S2P Require Import Control WalPayload Encode EncodeFacts Prelude Values Errors KeyOrder Bytes Crc Page.

#[local] Open Scope Z_scope.

(** ** Rows *)

(** C23. The row codec: an encoded row decodes to itself, and its bytes cut anywhere or followed
    by anything are refused as a corruption.  The floats are those of the model, which has one
    [NaN] and not the payloads of its bits. *)
Theorem rows_round_trip row :
  row_fits_codec row → buffer (encode_row row) →
  decode_row (encode_row row) = Ok row ∧
  (∀ n, (n < length (encode_row row))%nat → ∃ m, decode_row (firstn n (encode_row row)) = Err (Corruption m)) ∧
  (∀ more, more ≠ [] → Forall is_byte more → buffer (encode_row row ++ more) →
    ∃ m, decode_row (encode_row row ++ more) = Err (Corruption m)).
Proof.
  intros Hr Hb. split_and!; [by apply decode_encode_row|by intros; apply decode_row_prefix|].
  intros more Hne Hm Hbuf. eapply decode_row_cut; [|done|done|by apply decode_encode_row].
  apply Forall_app_2; [by apply encode_row_bytes|done].
Qed.

(** C24. Whatever bytes it is given, the row decoder answers a row whose columns are values of
    their types (integers of their width, texts of Unicode scalar values, valid floats, sixteen
    bytes for a GUID), or a corruption; and it reads the row it answers from its encoding too, the
    bits of a [NaN] being abstracted. *)
Theorem decoded_rows_are_typed bytes :
  Forall is_byte bytes → buffer bytes →
  match decode_row bytes with
  | Ok row => row_fits_codec row ∧ (buffer (encode_row row) → decode_row (encode_row row) = Ok row)
  | Err e => ∃ m, e = Corruption m
  end.
Proof.
  intros Hb Hbuf. pose proof (decode_row_typed bytes Hb Hbuf) as Ht.
  destruct (decode_row bytes) as [row|e]; [|done]. split; [done|]. by apply decode_encode_row.
Qed.

(** ** Pages *)

(** The accessors of a page are a record of nine fields and a body: a fresh page is the
    fresh record, and each write changes its own field and no other byte the accessors show. *)
Theorem page_headers_refine p k id l s lo :
  page_ok p → (id ≤ u64_max)%N → (l ≤ u64_max)%N → unsigned_fits 2 s → unsigned_fits 2 lo →
  header_of (empty k id) = fresh_header k id ∧
  header_of (set_kind k p) = with_kind k (header_of p) ∧
  header_of (set_lsn l p) = with_lsn l (header_of p) ∧
  header_of (set_slot_count s p) = with_slot_count s (header_of p) ∧
  header_of (set_lower lo p) = with_lower lo (header_of p) ∧
  header_of (seal p) = with_checksum (checksum p) (header_of p).
Proof.
  intros Hp Hid Hl Hs Hlo.
  split_and!; [by apply empty_header|by apply header_set_kind|by apply header_set_lsn|by apply header_set_slot_count
    |by apply header_set_lower|by apply seal_header].
Qed.

(** A sealed page reads back, and a change of up to four consecutive bytes of it, in the
    checksum or out of it, is refused as a corruption. *)
Theorem page_changes_are_found p at_ new :
  page_ok p → header_good (header_of p) →
  Forall is_byte new → (at_ + length new ≤ PAGE_SIZE)%nat → (length new ≤ 4)%nat →
  (at_ + length new ≤ OFF_CHECKSUM ∨ OFF_CHECKSUM + 4 ≤ at_ ∨
   (OFF_CHECKSUM ≤ at_ ∧ at_ + length new ≤ OFF_CHECKSUM + 4))%nat →
  from_bytes (seal p) = Ok (seal p) ∧
  (splice at_ new (seal p) ≠ seal p → ∃ m, from_bytes (splice at_ new (seal p)) = Err (Corruption m)).
Proof.
  intros Hp Hg Hn Hle H4 Hw. pose proof (seal_verify p Hp Hg) as Hv. split; [done|].
  apply splice_detected; try done. by apply seal_ok.
Qed.

(** The checksum computed a byte at a time with the table of 256 entries is the CRC-32
    computed a bit at a time from the polynomial, and it fits in 32 bits. *)
Theorem checksum_is_the_reference bytes :
  Forall is_byte bytes → crc32 bytes = bitwise_crc32 bytes ∧ 0 ≤ crc32 bytes < 2 ^ 32.
Proof. apply crc32_bitwise. Qed.

(** ** Row records *)

(** The payload of a row record carries its row, its version and its page operations: it
    decodes to what was encoded, up to the [u16] that counts the operations, and a payload
    shorter than its fixed part is refused.  The record of a freed slot decodes to itself, and
    an [xmax] written in place in a version leaves the row, the creator, the serial number and
    the columns as they were. *)
Theorem row_records_round_trip c ops s h xmax columns :
  change_fits c → Forall op_fits ops → Z.of_nat (length ops) < 2 ^ 16 → release_fits s →
  header_fits (mkVersionHeader (vh_row h) (vh_xmin h) xmax (vh_seq h)) →
  decode_with_ops (encode_with c ops) = Ok (c, ops) ∧
  (∀ bytes, (length bytes < PREFIX_LEN)%nat → decode_with_ops bytes = Err (short_change (length bytes))) ∧
  decode_release (encode_release s) = Ok s ∧
  ∃ bytes, with_xmax (write_header h ++ columns) xmax = Ok bytes ∧
    read_header bytes = Ok (mkVersionHeader (vh_row h) (vh_xmin h) xmax (vh_seq h)) ∧
    skipn VERSION_PREFIX_LEN bytes = columns.
Proof.
  intros Hc Hops Hn Hs Hh.
  split_and!; [by apply decode_encode_with|by intros; apply decode_short|by apply decode_encode_release|].
  eexists. split; [exact (with_xmax_write h xmax columns)|]. split; [by apply read_write_header|].
  apply drop_app_length'. by rewrite length_write_header.
Qed.

(** ** The control file *)

(** The control block reads back, and the file that holds it is written whole: where there
    was none, a write that fails or is stopped at any call leaves none or the whole block; over
    a file of the right size, it leaves a file of that size, the first bytes new and the others
    old, and a difference of up to four consecutive bytes from a block is refused as a
    corruption; a write that answers [Ok] leaves the block at the path, and it is read from
    there; a write none of whose calls fails answers [Ok]. *)
Theorem control_file_is_whole o c d path o' :
  Control.control_fits c →
  Control.from_bytes (Control.to_bytes c) = Ok c ∧
  (Control.write Control.all_done c d).1 = Ok () ∧
  (∀ d', Control.write o c d = (Ok (), d') → Control.read path Control.Done o' d' = (Ok c, d') ∧
    Control.data_file d' = Control.data_file d ∧ Control.wal_file d' = Control.wal_file d) ∧
  match Control.ctl d with
  | None => Control.ctl (Control.write o c d).2 = None ∨ Control.ctl (Control.write o c d).2 = Some (Control.to_bytes c)
  | Some old => length old = Control.CONTROL_SIZE → ∃ n, (n ≤ Control.CONTROL_SIZE)%nat ∧
      Control.ctl (Control.write o c d).2 = Some (firstn n (Control.to_bytes c) ++ skipn n old)
  end ∧
  ∀ at_ new, Forall is_byte new → (at_ + length new ≤ Control.CONTROL_SIZE)%nat → (length new ≤ 4)%nat →
    (at_ + length new ≤ Control.OFF_CHECKSUM ∨ Control.OFF_CHECKSUM + 4 ≤ at_ ∨
     (Control.OFF_CHECKSUM ≤ at_ ∧ at_ + length new ≤ Control.OFF_CHECKSUM + 4))%nat →
    splice at_ new (Control.to_bytes c) ≠ Control.to_bytes c →
    ∃ m, Control.from_bytes (splice at_ new (Control.to_bytes c)) = Err (Corruption m).
Proof.
  intros Hc. split_and!.
  - by apply Control.from_to_bytes.
  - apply Control.write_done.
  - intros d' Hw. destruct (Control.write_Ok _ _ _ _ Hw) as (Hd & ? & ?). by split; [apply Control.read_written|].
  - destruct (Control.ctl d) as [old|] eqn:Hd; [by apply Control.rewrite_mixed|by apply Control.create_whole].
  - apply Control.control_change_detected.
Qed.

(** ** Witnesses *)

(** A row with a null, an integer and two bytes. *)
Definition sample_row : Row := mkRow [VNull; VI32 (-5); VBytes [0; 255]].

Lemma sample_row_fits : row_fits_codec sample_row.
Proof.
  split; [|by vm_compute]. repeat constructor; try by vm_compute.
Qed.

Lemma rows_round_trip_witness : decode_row (encode_row sample_row) = Ok sample_row.
Proof. apply (rows_round_trip sample_row sample_row_fits). by vm_compute. Defined.

Lemma decoded_rows_are_typed_witness :
  match decode_row [1; 0; 0; 0; 0] with
  | Ok row => row_fits_codec row ∧ (buffer (encode_row row) → decode_row (encode_row row) = Ok row)
  | Err e => ∃ m, e = Corruption m
  end.
Proof. apply (decoded_rows_are_typed [1; 0; 0; 0; 0]); [repeat (constructor; [by vm_compute|]); constructor|by vm_compute]. Defined.

Lemma page_headers_refine_witness :
  header_of (set_slot_count 4 (empty Heap 9)) = with_slot_count 4 (header_of (empty Heap 9)).
Proof. apply (page_headers_refine (empty Heap 9) Meta 1 2 4 48); [apply empty_ok|by vm_compute..]. Defined.

Lemma page_changes_are_found_witness :
  ∃ m, from_bytes (splice 100 [1] (seal (empty Heap 9))) = Err (Corruption m).
Proof.
  apply (page_changes_are_found (empty Heap 9) 100 [1]).
  - apply empty_ok.
  - rewrite empty_header by (by vm_compute). split_and!; [done|done|by exists Heap].
  - constructor; [by vm_compute|constructor].
  - pose proof PAGE_SIZE_Z. simpl. lia.
  - simpl. lia.
  - right. left. unfold OFF_CHECKSUM. lia.
  - intros E. apply (f_equal (λ l, nth 100 l 0)) in E. by vm_compute in E.
Defined.

Lemma checksum_is_the_reference_witness :
  crc32 [49; 50; 51] = bitwise_crc32 [49; 50; 51] ∧ 0 ≤ crc32 [49; 50; 51] < 2 ^ 32.
Proof. apply checksum_is_the_reference. repeat (constructor; [by vm_compute|]). constructor. Defined.

Definition sample_header : VersionHeader := mkVersionHeader 4 7 None 12.
Definition sample_change : RowChange := mkRowChange 2 sample_header [1; 0; 0; 0; 0].

Lemma row_records_round_trip_witness :
  decode_with_ops (encode_with sample_change [SetXmax (mkRid 3 1) 11; Put (mkRid 3 2)]) =
  Ok (sample_change, [SetXmax (mkRid 3 1) 11; Put (mkRid 3 2)]).
Proof.
  apply (row_records_round_trip sample_change [SetXmax (mkRid 3 1) 11; Put (mkRid 3 2)]
    (mkSlotRelease 2 sample_header (mkRid 3 2) Removed) sample_header (Some 9%N) []).
  - by vm_compute.
  - repeat (constructor; [by vm_compute|]). constructor.
  - by vm_compute.
  - by vm_compute.
  - by vm_compute.
Defined.

Lemma control_file_is_whole_witness :
  Control.from_bytes (Control.to_bytes Control.Control_default) = Ok Control.Control_default.
Proof.
  apply (control_file_is_whole Control.all_done Control.Control_default (Control.mkDir None None None None)
    "vauban.ctl" Control.all_done). apply Control.default_fits.
Defined.
